(* ===== verification/_CoqProject ===== *)
-Q . S2P
Prelude.v
Bits.v
Endian.v
Intset.v
UtilNum.v
UtilText.v
Glob.v
SdsText.v
Sds.v
SdsTheorems.v
SdsArgs.v
Crc.v
Dict.v
DictScan.v
Listpack.v
ListpackSpec.v
ListpackTheorems.v
Skiplist.v
SkiplistSpec.v
SkiplistTheorems.v
SkiplistRanges.v
Lzf.v
LzfTheorems.v
Bitops.v
BitopsSpec.v
Bitfields.v
BitopsTheorems.v
BitopCommand.v
BitfieldCommand.v
Rdb.v
RdbTheorems.v
Hll.v
HllSpec.v
HllSparse.v
HllTheorems.v
HllCount.v
Resp.v
RespTheorems.v
RespSafety.v
Adlist.v
AdlistTheorems.v
DictIter.v
Multi.v
MultiTheorems.v
MultiSpec.v
MultiSim.v
MultiCas.v
Zipmap.v
ZipmapTheorems.v
Rax.v
RaxSpec.v
RaxHeap.v
RaxTheorems.v
RaxInsert.v
RaxRemove.v
RaxFree.v
RaxNode.v
RaxBlock.v
RaxRel.v
RaxBytes.v
RaxSim.v
RaxSimInsert.v
RaxSimRemove.v
RaxMap.v
