(* ===== verification/Prelude.v ===== *)
(** Verification of the data structures of Redis 7.0.0 (src/redis-7.0.0/src).

    * The program

    The repository is a Rails application with the Redis 7.0.0 server it uses.
    The server keeps its data in a few structures of its own: a hash table with
    incremental rehashing (dict.c), compact blocks of bytes for small sets and
    lists (intset.c, listpack.c), a skiplist for sorted sets (t_zset.c), and
    dynamic strings (sds.c) that commands may use as arrays of bits (bitops.c).
    They rest on conversions between numbers and text (util.c), on byte order
    conversions (endianconv.c) and on checksums (crc16.c, crc64.c, crcspeed.c), and
    are written to disk or sent in the RDB format (rdb.c, rio.c), with LZF
    compression (lzf_c.c, lzf_d.c).  Clients send requests (networking.c), alone or
    in transactions (multi.c), which keep linked lists (adlist.c).  This library
    models these parts and proves them correct.

    * How C is modelled

    Memory is explicit where the code works on it: a heap block is the list of
    its bytes, a pointer into it an offset (Listpack, Intset, Bitops, UtilNum);
    nodes that point to each other live in a finite map from addresses (Skiplist,
    Adlist, Multi), in RaxBytes as blocks of cells;
    a table of buckets is a list of chains (Dict).  An access outside a block, a
    failed assertion, a dangling address or a shift by the width of the type is
    the value [None], so a theorem that an operation returns [Some] says that it is
    memory safe.  Integers are [Z] with the wrap-around of their C type written
    out ([wrapu], [wraps]).  Errors and NULL results are values.  A loop is a
    [Fixpoint] on its counter, or on fuel taken from the size of the input; the
    theorems never assume that the fuel suffices, they prove that the result is
    there.  What the environment decides is a parameter: the byte order (class
    [Host]), the rounding of the allocator (class [Malloc]), the hash function and
    the key comparison (class [DictType]), the level a skiplist node draws, the
    clock, the alignment of a buffer.

    * Files

    - Prelude (this file), Bits: integers, byte blocks, tactics; lemmas on bits.
    - Endian: endianconv.c and endianconv.h.
    - Intset: intset.c.  Insertion, removal and membership refine a finite set on a
      block that is sorted and in its encoding ([intsetAdd_correct],
      [intsetRemove_correct]); the check of untrusted bytes is exact.
    - UtilNum, UtilText, Glob: util.c.  Printing and parsing of integers are exact
      and inverse to each other; stringmatchlen decides a declarative meaning of
      patterns.
    - Crc: crc16.c, crc64.c, crcspeed.c and keyHashSlot of cluster.c.  The table
      driven routines equal the bit by bit polynomials, on both byte orders.
    - Dict, DictScan: dict.c and dict.h.  The operations refine a finite map in
      every stage of rehashing; a scan returns every key that stays in the table,
      whatever happens between its calls, and ends.
    - Listpack (code), ListpackSpec (representation), ListpackTheorems:
      listpack.c.  The operations refine those on a list of entries, strings are
      read back as they were written, and the validation of untrusted bytes is
      exact.
    - Skiplist (code), SkiplistSpec (representation), SkiplistTheorems,
      SkiplistRanges: the skiplist of t_zset.c.  The operations refine those on the
      sorted list of elements for any levels drawn, ranks and ranges included.
    - Bitops (code), BitopsSpec, Bitfields, BitopsTheorems, BitopCommand,
      BitfieldCommand: bitops.c.  The word-wise routines and the commands SETBIT,
      GETBIT, BITCOUNT, BITPOS, BITOP and BITFIELD have their meaning on the list
      of bits of the string.
    - SdsText, Sds, SdsTheorems, SdsArgs: sds.c and sds.h.  The header and block of
      an sds string refine a string of bytes under any sequence of operations, for
      any rounding of the allocator ([sds_refines]); quoting and splitting of
      arguments are inverse ([sdssplitargs_sdscatrepr]); integers are printed
      exactly.
    - Lzf, LzfTheorems: lzf_c.c and lzf_d.c.  Decompression undoes compression
      whatever the uninitialised hash table holds, no input makes it leave its
      buffers, and a buffer of 33/32 of the input is always enough.
    - Rdb, RdbTheorems: rio.h, rio.c, rdb.c and the DUMP payload of cluster.c.  What
      is saved is loaded again, on hosts of either byte order, composing the
      integer, LZF and length encodings ([rdb_string_roundtrip]); loading hostile
      bytes is safe, but for an assertion that a length near 2^64 fails
      ([rdb_load_string_safe]); the check of a payload is exact.
    - Hll, HllSpec, HllSparse, HllTheorems, HllCount: hyperloglog.c.  Hashing, packed
      registers, the run-length encoded registers and their update in place, and
      PFADD, PFCOUNT, PFMERGE, which implement registers that only grow
      ([hll_refines]); the estimate of a histogram is a parameter.  A string that the
      checks accept can make a merge leave its array ([hllMerge_overflow]).
    - Resp, RespTheorems, RespSafety: the requests of networking.c, from a read of
      the connection to the commands executed.  Requests are executed once each and
      in order however the reads cut them ([requests_delivered]); any bytes leave
      the client well formed ([requests_safe]).
    - Adlist, AdlistTheorems: adlist.c.  Any program of the list operations implements
      the same operations on sequences, with no node touched after it was freed, shared
      or lost ([adlist_refines]).
    - DictIter: the safe iterator of dict.c, whose loop may delete the entry it is at
      ([dictNext_complete]).
    - Multi, MultiTheorems, MultiSpec, MultiSim, MultiCas: multi.c.  The watched keys,
      shared by the lists of the clients and of the databases, implement optimistic
      concurrency control with a version of each key ([multi_refines], by a
      simulation); a changed key stops EXEC ([exec_cas]).  The states are characterised in
      which an expired key hides a change from the clients ([touch_expired_missed]).
    - Zipmap, ZipmapTheorems: zipmap.c.  The block implements a list of pairs with
      distinct keys ([zipmap_refines]); the check of untrusted bytes is safe.
    - RaxNode, RaxBytes: rax.c without its iterators, on the blocks of the nodes, whose
      cells are bytes, parts of pointers or not initialised.  The proofs go through Rax, the
      same functions on nodes that are records: RaxBlock and RaxRel show that the
      operations on a block (the memmoves of raxAddChild and raxRemoveChild, the padding,
      the value at the end) keep its layout and do what those on the record do, and RaxSim,
      RaxSimInsert, RaxSimRemove lift this to the functions.  RaxSpec, RaxHeap, RaxTheorems,
      RaxInsert, RaxRemove, RaxFree: the records of the heap represent a tree ([repr]), seen
      from a place of it ([at_place]) that insertion and removal move along.  RaxMap:
      splitting, adding, merging and freeing nodes implement a map from keys to values,
      leave no node behind, follow no dangling pointer and stay inside the blocks
      ([rax_refines]).

    * Bounds and fuel

    Sizes are those of the C types: a listpack has at most 2^32 - 1 bytes, an
    intset fewer than 2^29 elements (its size in bytes fits in 32 bits), a string value
    less than 2^60 bytes, a key of a radix tree at most 2^29 - 1.  Fuel is the length of
    the block walked, the number of buckets, or the number of elements plus one; every
    theorem that states a result shows that it is enough.

    * Not modelled

    Input and output, processes and threads: the event loop, networking beyond
    what is named above, replication, cluster, sentinel, persistence files,
    modules, scripting, the command line tools.  They are sequences of system
    calls and callbacks with no result to state without a model of the operating
    system.  Floating point (scores are ordered values here; parsing and printing
    doubles, geo distances and the estimate of HyperLogLog are left out), random
    sampling, debugging output and statistics.  The iterators of rax.c, streams, and the
    older ziplist and quicklist encodings.  The Rails application is glue over its
    framework and gems, and deps/ is third-party code that the server calls. *)
From stdpp Require Export prelude.
From Stdlib Require Export ZArith Lia ZifyBool.

#[global] Open Scope Z_scope.

(** ** C integers *)

(** The value an unsigned [w]-bit C object takes when [x] is converted to it. *)
Definition wrapu (w x : Z) : Z := x mod 2 ^ w.

(** The value a two's complement signed [w]-bit C object takes. *)
Definition wraps (w x : Z) : Z := (x + 2 ^ (w - 1)) mod 2 ^ w - 2 ^ (w - 1).

Abbreviation u8 := (wrapu 8).
Abbreviation u16 := (wrapu 16).
Abbreviation u32 := (wrapu 32).
Abbreviation u64 := (wrapu 64).
Abbreviation s16 := (wraps 16).
Abbreviation s32 := (wraps 32).
Abbreviation s64 := (wraps 64).

(** Length of a buffer or sequence as an integer; a notation so that [lia]
    sees that it is non-negative. *)
Abbreviation len l := (Z.of_nat (length l)) (only parsing).

(** ** Byte memory *)

(** A buffer is a list of bytes, each an integer in [0, 255].  A read or a
    write outside the buffer has no defined meaning in C; it is [None]. *)
Definition is_byte (b : Z) : Prop := 0 <= b < 256.
Abbreviation bytes_ok := (Forall is_byte).

#[export] Instance is_byte_dec b : Decision (is_byte b).
Proof. unfold is_byte. apply _. Defined.

Definition in_range {A} (m : list A) (off n : Z) : bool :=
  (0 <=? off) && (0 <=? n) && (off + n <=? len m).

(** [n] bytes at [off] (memcpy out of the buffer). *)
Definition load {A} (m : list A) (off n : Z) : option (list A) :=
  if in_range m off n
  then Some (take (Z.to_nat n) (drop (Z.to_nat off) m)) else None.

(** Overwrites [length bs] bytes at [off] (memcpy into the buffer). *)
Definition store {A} (m : list A) (off : Z) (bs : list A) : option (list A) :=
  if in_range m off (len bs)
  then Some (take (Z.to_nat off) m ++ bs ++ drop (Z.to_nat off + length bs) m)
  else None.

Definition load8 (m : list Z) (off : Z) : option Z :=
  if 0 <=? off then m !! Z.to_nat off else None.

Definition store8 (m : list Z) (off b : Z) : option (list Z) :=
  store m off [u8 b].

(** memmove within one buffer: the source is read before anything is
    written, so overlapping ranges are fine. *)
Definition memmove {A} (m : list A) (dst src n : Z) : option (list A) :=
  bs ← load m src n; store m dst bs.

(** realloc: the common prefix is kept; new bytes are unspecified, [junk]. *)
Definition realloc {A} (junk : A) (m : list A) (n : Z) : list A :=
  take (Z.to_nat n) m ++ replicate (Z.to_nat n - length m) junk.

(** The allocator: a block of at least [n] bytes is got for [n], its usable
    size; bytes not yet written are [junk]. *)
Class Malloc := {
  usable_size : Z → Z;
  junk : Z;
  usable_size_ge : ∀ n, n <= usable_size n;
}.

(** ** Little-endian representation of integers *)

Fixpoint le_bytes (n : nat) (z : Z) : list Z :=
  match n with
  | O => []
  | S n => z mod 256 :: le_bytes n (z / 256)
  end.

Fixpoint le_val (bs : list Z) : Z :=
  match bs with
  | [] => 0
  | b :: bs => b + 256 * le_val bs
  end.

(** ** Automation *)

(** Rewriting database for lengths; [simpl_len] normalises every length of a
    goal or hypothesis before [lia]. *)
Create Rewrite HintDb len_db.
#[export] Hint Rewrite @length_app @length_take @length_drop @length_replicate
  @length_insert @length_reverse @length_fmap @length_nil @length_cons : len_db.

Ltac simpl_len := autorewrite with len_db in *.
Ltac len_lia := simpl_len; lia.

(** [lia] after eliminating divisions and remainders. *)
Ltac div_lia := Z.div_mod_to_equations; lia.

(** Turns boolean comparisons of the code into propositions. *)
Ltac to_prop :=
  repeat match goal with
  | H : _ && _ = true |- _ => apply andb_true_iff in H as [? ?]
  | H : _ && _ = false |- _ => apply andb_false_iff in H
  | H : _ || _ = true |- _ => apply orb_true_iff in H
  | H : _ || _ = false |- _ => apply orb_false_iff in H as [? ?]
  | H : negb _ = true |- _ => apply negb_true_iff in H
  | H : negb _ = false |- _ => apply negb_false_iff in H
  | H : (_ <=? _) = true |- _ => apply Z.leb_le in H
  | H : (_ <=? _) = false |- _ => apply Z.leb_gt in H
  | H : (_ <? _) = true |- _ => apply Z.ltb_lt in H
  | H : (_ <? _) = false |- _ => apply Z.ltb_ge in H
  | H : (_ >? _) = _ |- _ => rewrite Z.gtb_ltb in H
  | H : (_ >=? _) = _ |- _ => rewrite Z.geb_leb in H
  | H : (_ =? _) = true |- _ => apply Z.eqb_eq in H
  | H : (_ =? _) = false |- _ => apply Z.eqb_neq in H
  end.

(** Case analysis on the condition of an [if] of the goal, in propositions. *)
Ltac case_if :=
  match goal with
  | |- context [if ?b then _ else _] =>
      lazymatch type of b with
      | bool => let E := fresh "E" in destruct b eqn:E; to_prop
      end
  end.

(** Chooses the branch of an [if] whose condition [lia] decides. *)
Ltac if_true :=
  match goal with
  | |- context [if ?b then _ else _] => replace b with true by (symmetry; len_lia)
  end.
Ltac if_false :=
  match goal with
  | |- context [if ?b then _ else _] => replace b with false by (symmetry; len_lia)
  end.

(** A closed decidable proposition, by evaluation. *)
Ltac by_decision := apply (bool_decide_unpack _); vm_compute; exact I.

(** One step of the option monad, leaving the operations folded. *)
Ltac mstep := cbn [mbind option_bind fmap option_fmap option_map fst snd].
Tactic Notation "mstep" "in" hyp(H) :=
  cbn [mbind option_bind fmap option_fmap option_map fst snd] in H.

(** The same step by rewriting, which leaves what follows untouched: the
    conversion [mstep] asks for can be costly when that contains loops. *)
Lemma some_bind {A B} (x : A) (f : A → option B) : Some x ≫= f = f x.
Proof. reflexivity. Qed.
Ltac mnext := rewrite some_bind; cbv beta iota.

(** Follows a monadic run [H : m = Some r] through its steps, together with
    the same steps in the goal. *)
Ltac mrun H :=
  repeat match type of H with
  | (?m ≫= _) = Some _ =>
      let E := fresh "E" in destruct m eqn:E; mstep in H; [mstep | discriminate H]
  end.

(** ** Lemmas on C integers *)

Lemma wrapu_range w x : 0 <= w → 0 <= wrapu w x < 2 ^ w.
Proof. intros. apply Z.mod_pos_bound. lia. Qed.

Lemma wrapu_small w x : 0 <= x < 2 ^ w → wrapu w x = x.
Proof. apply Z.mod_small. Qed.

Lemma wraps_range w x : 0 < w → - 2 ^ (w - 1) <= wraps w x < 2 ^ (w - 1).
Proof.
  intros. unfold wraps.
  assert (2 ^ w = 2 * 2 ^ (w - 1)) by (rewrite <- Z.pow_succ_r by lia; f_equal; lia).
  pose proof (Z.mod_pos_bound (x + 2 ^ (w - 1)) (2 ^ w)). lia.
Qed.

Lemma wraps_small w x : 0 < w → - 2 ^ (w - 1) <= x < 2 ^ (w - 1) → wraps w x = x.
Proof.
  intros. unfold wraps.
  assert (2 ^ w = 2 * 2 ^ (w - 1)) by (rewrite <- Z.pow_succ_r by lia; f_equal; lia).
  rewrite Z.mod_small by lia. lia.
Qed.

Lemma s16_small x : - 2 ^ 15 <= x < 2 ^ 15 → s16 x = x.
Proof. by apply (wraps_small 16). Qed.
Lemma s32_small x : - 2 ^ 31 <= x < 2 ^ 31 → s32 x = x.
Proof. by apply (wraps_small 32). Qed.
Lemma s64_small x : - 2 ^ 63 <= x < 2 ^ 63 → s64 x = x.
Proof. by apply (wraps_small 64). Qed.

(** Converting to unsigned and back to signed of the same width is the
    identity on the signed range. *)
Lemma wraps_mod w x : 0 < w → wraps w (x mod 2 ^ w) = wraps w x.
Proof. intros. unfold wraps. by rewrite Z.add_mod_idemp_l by lia. Qed.

(** ** Lemmas on the byte representation *)

Lemma length_le_bytes n z : length (le_bytes n z) = n.
Proof. revert z; induction n; simpl; auto. Qed.
#[export] Hint Rewrite length_le_bytes : len_db.

Lemma le_bytes_ok n z : bytes_ok (le_bytes n z).
Proof.
  revert z; induction n; simpl; constructor; auto.
  apply Z.mod_pos_bound; lia.
Qed.

Lemma le_val_cons b bs : le_val (b :: bs) = b + 256 * le_val bs.
Proof. reflexivity. Qed.

Lemma le_val_bytes n z : le_val (le_bytes n z) = z mod 2 ^ (8 * Z.of_nat n).
Proof.
  revert z; induction n as [|n IH]; intros z; simpl.
  { by rewrite Z.mod_1_r. }
  rewrite IH. replace (8 * Z.of_nat (S n)) with (8 + 8 * Z.of_nat n) by lia.
  rewrite Z.pow_add_r by lia. change (2 ^ 8) with 256.
  rewrite Z.rem_mul_r by lia. lia.
Qed.

Lemma le_val_range bs : bytes_ok bs → 0 <= le_val bs < 2 ^ (8 * len bs).
Proof.
  induction 1 as [|b bs Hb _ IH]; simpl; [lia|].
  replace (8 * Z.of_nat (S (length bs))) with (8 + 8 * len bs) by lia.
  rewrite Z.pow_add_r by lia. unfold is_byte in Hb. lia.
Qed.

Lemma le_bytes_val bs : bytes_ok bs → le_bytes (length bs) (le_val bs) = bs.
Proof.
  induction 1 as [|b bs Hb _ IH]; simpl; [done|]. unfold is_byte in Hb.
  rewrite (Z.mul_comm 256), Z_mod_plus_full, Z.mod_small by lia.
  rewrite Z.div_add, Z.div_small by lia. by rewrite Z.add_0_l, IH.
Qed.

(** Only the low [8 * n] bits are stored. *)
Lemma le_bytes_mod n z : le_bytes n (z mod 2 ^ (8 * Z.of_nat n)) = le_bytes n z.
Proof.
  rewrite <- le_val_bytes. rewrite <- (length_le_bytes n z) at 1.
  apply le_bytes_val, le_bytes_ok.
Qed.

Lemma le_bytes_wraps n w z : w = 8 * Z.of_nat n → le_bytes n (wraps w z) = le_bytes n z.
Proof.
  intros ->. rewrite <- le_bytes_mod, <- (le_bytes_mod n z). f_equal.
  unfold wraps. rewrite Zminus_mod_idemp_l. f_equal. lia.
Qed.

(** A signed integer survives being stored in [n] bytes and read back. *)
Lemma wraps_le_val_bytes n z w :
  w = 8 * Z.of_nat n → 0 < w → - 2 ^ (w - 1) <= z < 2 ^ (w - 1) →
  wraps w (le_val (le_bytes n z)) = z.
Proof.
  intros -> ? ?. rewrite le_val_bytes, wraps_mod by lia. by apply wraps_small.
Qed.

#[global] Arguments le_bytes : simpl never.
#[global] Arguments le_val : simpl never.

(** ** Lemmas on memory accesses *)

Lemma load_app {A} (a b c : list A) off n :
  off = len a → n = len b → load (a ++ b ++ c) off n = Some b.
Proof.
  intros -> ->. unfold load, in_range. if_true.
  by rewrite !Nat2Z.id, drop_app_length, take_app_length.
Qed.

Lemma store_app {A} (a b b' c : list A) off :
  off = len a → length b' = length b →
  store (a ++ b ++ c) off b' = Some (a ++ b' ++ c).
Proof.
  intros -> Hb. unfold store, in_range. if_true.
  rewrite !Nat2Z.id, take_app_length. do 3 f_equal.
  rewrite drop_app_add, Hb. by rewrite drop_app_length.
Qed.

Lemma load_app0 {A} (b c : list A) n : n = len b → load (b ++ c) 0 n = Some b.
Proof. by apply (load_app []). Qed.

Lemma store_app0 {A} (b b' c : list A) :
  length b' = length b → store (b ++ c) 0 b' = Some (b' ++ c).
Proof. by apply (store_app []). Qed.

Lemma load_spec {A} (m : list A) off n bs :
  load m off n = Some bs ↔
  0 <= off ∧ 0 <= n ∧ off + n <= len m ∧
  bs = take (Z.to_nat n) (drop (Z.to_nat off) m).
Proof.
  unfold load, in_range. destruct (_ && _) eqn:E; split; try done.
  - intros [= <-]. repeat split; lia.
  - intros (?&?&?&->). done.
  - intros (?&?&?&?). lia.
Qed.

Lemma length_load {A} (m : list A) off n bs : load m off n = Some bs → len bs = n.
Proof. intros (?&?&?&->)%load_spec. len_lia. Qed.

Lemma length_store {A} (m : list A) off bs m' :
  store m off bs = Some m' → length m' = length m.
Proof. unfold store, in_range. case_if; [|done]. intros [= <-]. len_lia. Qed.

Lemma load8_head x r : load8 (x :: r) 0 = Some x.
Proof. reflexivity. Qed.

Lemma load8_app a b c off : off = len a → load8 (a ++ b :: c) off = Some b.
Proof.
  intros ->. unfold load8. if_true. rewrite Nat2Z.id.
  by rewrite list_lookup_middle.
Qed.

Lemma store8_app a b b' c off :
  off = len a → store8 (a ++ b :: c) off b' = Some (a ++ u8 b' :: c).
Proof. intros. apply (store_app a [b] [u8 b'] c); auto. Qed.

Lemma is_byte_wrap b : is_byte b → u8 b = b.
Proof. intros. apply wrapu_small. done. Qed.

(** Accesses inside a buffer succeed. *)
Lemma load8_total m off : 0 <= off < len m → ∃ b, load8 m off = Some b.
Proof.
  intros. unfold load8. if_true. destruct (lookup_lt_is_Some_2 m (Z.to_nat off)) as [b Hb]; [lia|eauto].
Qed.

Lemma store8_total m off b : 0 <= off < len m →
  ∃ m', store8 m off b = Some m' ∧ length m' = length m.
Proof.
  intros. unfold store8, store, in_range. if_true. eexists. split; [done|].
  rewrite !length_app, length_take, length_drop. cbn [length]. lia.
Qed.

(** Accesses past a prefix are accesses of the rest. *)
Lemma load8_skip a m off : 0 <= off → load8 (a ++ m) (len a + off) = load8 m off.
Proof.
  intros. unfold load8. do 2 if_true.
  rewrite lookup_app_r by lia. f_equal. lia.
Qed.

Lemma load_skip {A} (a m : list A) off n :
  0 <= off → load (a ++ m) (len a + off) n = load m off n.
Proof.
  intros. unfold load, in_range.
  replace (_ + _ + _ <=? _) with (off + n <=? len m) by len_lia.
  replace (0 <=? _ + off) with (0 <=? off) by lia.
  by rewrite Z2Nat.inj_add, Nat2Z.id, drop_app_add by lia.
Qed.

Lemma store_skip {A} (a m : list A) off bs :
  0 <= off → store (a ++ m) (len a + off) bs = (a ++.) <$> store m off bs.
Proof.
  intros. unfold store, in_range.
  replace (_ + _ + _ <=? _) with (off + len bs <=? len m) by len_lia.
  replace (0 <=? _ + off) with (0 <=? off) by lia.
  destruct (_ && _); simpl; [|done]. f_equal.
  rewrite Z2Nat.inj_add, Nat2Z.id, take_app_add, <- Nat.add_assoc, drop_app_add by lia.
  by rewrite <- app_assoc.
Qed.

Lemma store8_skip a m off b :
  0 <= off → store8 (a ++ m) (len a + off) b = (a ++.) <$> store8 m off b.
Proof. apply store_skip. Qed.

Lemma store8_insert m off b :
  0 <= off < len m → store8 m off b = Some (<[Z.to_nat off := u8 b]> m).
Proof.
  intros. unfold store8, store, in_range. if_true. f_equal.
  rewrite insert_take_drop by lia. simpl. do 3 f_equal. lia.
Qed.

(** Moving a tail [b] right over a gap of the size of [g], and left over [g]. *)
Lemma memmove_right {A} (a b g : list A) dst src n :
  src = len a → dst = len a + len g → n = len b →
  memmove (a ++ b ++ g) dst src n = Some (a ++ take (length g) (b ++ g) ++ b).
Proof.
  intros -> -> ->. unfold memmove. rewrite load_app by done. mstep.
  rewrite store_skip by lia. unfold store, in_range. if_true. mstep.
  rewrite !Nat2Z.id, (drop_ge (b ++ g)) by len_lia. by rewrite app_nil_r.
Qed.

Lemma memmove_left {A} (a b g : list A) dst src n :
  dst = len a → src = len a + len g → n = len b →
  memmove (a ++ g ++ b) dst src n = Some (a ++ b ++ drop (length b) (g ++ b)).
Proof.
  intros -> -> ->. unfold memmove. rewrite load_skip by lia.
  rewrite <- (app_nil_r (g ++ b)) at 1. rewrite <- app_assoc, load_app by done. mstep.
  rewrite <- (Z.add_0_r (len a)) at 1.
  rewrite store_skip by lia. unfold store, in_range. if_true. mstep. done.
Qed.

Lemma length_realloc {A} (junk : A) m n : 0 <= n → len (realloc junk m n) = n.
Proof. intros. unfold realloc. len_lia. Qed.

Lemma realloc_grow {A} (junk : A) m n :
  len m <= n → realloc junk m n = m ++ replicate (Z.to_nat n - length m) junk.
Proof. intros. unfold realloc. rewrite take_ge by lia. done. Qed.

Lemma realloc_shrink {A} (junk : A) a b : realloc junk (a ++ b) (len a) = a.
Proof.
  unfold realloc. rewrite Nat2Z.id, take_app_length.
  replace (_ - _)%nat with 0%nat by len_lia. by rewrite app_nil_r.
Qed.

(** A reallocation keeps the bytes that fit. *)
Lemma realloc_keep {A} (junk : A) a s n : len a <= n →
  ∃ s', realloc junk (a ++ s) n = a ++ s' ∧ len a + len s' = n.
Proof.
  intros. unfold realloc. rewrite take_app_ge by lia. eexists.
  rewrite <- app_assoc. split; [done|]. len_lia.
Qed.

(** Opening or closing a gap: [t] after [r] moves to make room for [n] bytes
    in place of [r]. *)
Lemma memmove_splice {A} (a r t s : list A) n dst src cnt :
  0 <= n → dst = len a + n → src = len a + len r → cnt = len t →
  n + len t <= len r + len t + len s →
  ∃ g s', memmove (a ++ r ++ t ++ s) dst src cnt = Some (a ++ g ++ t ++ s') ∧ len g = n ∧
    n + len s' = len r + len s.
Proof.
  intros Hn -> -> -> Hlen. unfold memmove.
  rewrite app_assoc, (load_app (a ++ r)) by len_lia. mstep.
  rewrite <- app_assoc, store_skip by done. unfold store, in_range. if_true. mstep.
  exists (take (Z.to_nat n) (r ++ t ++ s)), (drop (Z.to_nat n + length t) (r ++ t ++ s)).
  split; [done|]. len_lia.
Qed.

Lemma split_bytes {A} (l : list A) n : 0 <= n <= len l → ∃ a b, l = a ++ b ∧ len a = n ∧ len b = len l - n.
Proof. intros. exists (take (Z.to_nat n) l), (drop (Z.to_nat n) l). rewrite take_drop. split; [done|]. len_lia. Qed.

(** ** Lists *)

Lemma filter_all {A} (P : A → Prop) `{∀ x, Decision (P x)} l :
  Forall P l → filter P l = l.
Proof. induction 1; [done|]. rewrite filter_cons_True by done. congruence. Qed.

(** A loop that never fails is a map. *)
Lemma mapM_total {A B} (f : A → option B) (g : A → B) l :
  Forall (λ x, f x = Some (g x)) l → mapM f l = Some (g <$> l).
Proof.
  intros Hl. apply mapM_Some. induction Hl; simpl; constructor; auto.
Qed.

Lemma elem_of_concat {A} (x : A) ls : x ∈ concat ls ↔ ∃ l, x ∈ l ∧ l ∈ ls.
Proof.
  induction ls as [|l ls IH]; simpl; [set_solver|]. rewrite elem_of_app, IH. set_solver.
Qed.

(** A decidable property of the integers below a bound, checked one by one. *)
Lemma forall_below (P : Z → bool) (n : nat) :
  forallb (λ i, P (Z.of_nat i)) (seq 0 n) = true →
  ∀ i, 0 <= i < Z.of_nat n → P i = true.
Proof.
  intros Hf i Hi. rewrite forallb_forall in Hf. specialize (Hf (Z.to_nat i)).
  rewrite Z2Nat.id in Hf by lia. apply Hf, in_seq. lia.
Qed.
