(* ===== verification/Bits.v ===== *)
(** Bits of integers: the lemmas the components that work on bits share
    (checksums, the reverse cursor of dictScan, bit fields). *)
From S2P Require Import Prelude.

Ltac bits i := apply Z.bits_inj'; intros i ?.

Lemma land_255 x : Z.land x 255 = x mod 256.
Proof. by apply (Z.land_ones x 8). Qed.

Lemma land_7 x : Z.land x 7 = x mod 8.
Proof. by apply (Z.land_ones x 3). Qed.

Lemma testbit_wrapu w x i :
  0 <= w → Z.testbit (wrapu w x) i = (i <? w) && Z.testbit x i.
Proof.
  intros. unfold wrapu. destruct (Z.ltb_spec i w); simpl.
  - by rewrite Z.mod_pow2_bits_low.
  - destruct (decide (0 <= i)); [by rewrite Z.mod_pow2_bits_high|].
    by rewrite Z.testbit_neg_r by lia.
Qed.

Lemma bits_above w x i : 0 <= x < 2 ^ w → w <= i → Z.testbit x i = false.
Proof.
  intros Hx Hi. assert (0 <= w).
  { destruct (decide (0 <= w)); [done|]. rewrite Z.pow_neg_r in Hx; lia. }
  rewrite <- (Z.mod_small x (2 ^ w)) by lia. apply Z.mod_pow2_bits_high. lia.
Qed.

(** A number below [2 ^ w] is one with no bit at [w] or above. *)
Lemma bits_below w x : 0 <= x → 0 <= w →
  (∀ i, w <= i → Z.testbit x i = false) → 0 <= x < 2 ^ w.
Proof.
  intros ? ? Hb. split; [done|].
  assert (x = x mod 2 ^ w) as ->; [|by apply Z.mod_pos_bound; lia].
  bits i. destruct (decide (i < w)).
  - by rewrite Z.mod_pow2_bits_low.
  - by rewrite Z.mod_pow2_bits_high, Hb by lia.
Qed.

Lemma lxor_range w x y :
  0 <= x < 2 ^ w → 0 <= y < 2 ^ w → 0 <= Z.lxor x y < 2 ^ w.
Proof.
  intros Hx Hy. assert (0 <= w).
  { destruct (decide (0 <= w)); [done|]. rewrite Z.pow_neg_r in Hx; lia. }
  apply bits_below; [by apply Z.lxor_nonneg; lia|done|].
  intros i Hi. by rewrite Z.lxor_spec, !(bits_above w).
Qed.

Lemma shiftr_range w x k : 0 <= k → 0 <= x < 2 ^ (w + k) → 0 <= w →
  0 <= Z.shiftr x k < 2 ^ w.
Proof.
  intros ? Hx ?. rewrite Z.shiftr_div_pow2 by done.
  rewrite Z.pow_add_r in Hx by lia. split; [apply Z.div_pos; lia|].
  apply Z.div_lt_upper_bound; lia.
Qed.

Lemma land_pow2 x j : 0 <= j → (Z.land x (2 ^ j) =? 0) = negb (Z.testbit x j).
Proof.
  intros Hj. destruct (Z.testbit x j) eqn:E; simpl.
  - apply Z.eqb_neq. intros H0. apply (f_equal (λ y, Z.testbit y j)) in H0.
    rewrite Z.land_spec, Z.pow2_bits_true, E, Z.bits_0 in H0 by done. done.
  - apply Z.eqb_eq. bits i. rewrite Z.land_spec, Z.bits_0.
    destruct (decide (i = j)) as [->|]; [by rewrite E|].
    by rewrite Z.pow2_bits_false, andb_false_r.
Qed.

Lemma le_val_cons_xor b bs : is_byte b →
  le_val (b :: bs) = Z.lxor b (Z.shiftl (le_val bs) 8).
Proof.
  intros Hb. change (le_val (b :: bs)) with (b + 256 * le_val bs).
  rewrite Z.shiftl_mul_pow2, (Z.mul_comm _ (2 ^ 8)) by lia.
  apply Z.add_nocarry_lxor. change 256 with (2 ^ 8). bits j.
  rewrite Z.land_spec, Z.bits_0, Z.mul_comm, <- Z.shiftl_mul_pow2, Z.shiftl_spec by lia.
  destruct (decide (j < 8)).
  - by rewrite (Z.testbit_neg_r _ (j - 8)), andb_false_r by lia.
  - by rewrite (bits_above 8 b) by (done || lia).
Qed.

Lemma testbit_le_val bs i : bytes_ok bs → 0 <= i →
  Z.testbit (le_val bs) i =
  default false ((λ b, Z.testbit b (i mod 8)) <$> bs !! Z.to_nat (i / 8)).
Proof.
  intros Hbs. revert i. induction Hbs as [|b bs Hb Hbs IH]; intros i Hi.
  { by rewrite lookup_nil, Z.bits_0. }
  rewrite le_val_cons_xor by done.
  rewrite Z.lxor_spec, Z.shiftl_spec by lia. destruct (decide (i < 8)).
  - rewrite (Z.testbit_neg_r _ (i - 8)), Z.div_small, Z.mod_small by lia. simpl.
    apply xorb_false_r.
  - rewrite (bits_above 8 b), xorb_false_l, IH by (done || lia).
    replace (Z.to_nat (i / 8)) with (S (Z.to_nat ((i - 8) / 8))) by div_lia.
    simpl. replace ((i - 8) mod 8) with (i mod 8) by div_lia. done.
Qed.

Lemma le_bytes_lookup n z k : (k < n)%nat →
  le_bytes n z !! k = Some (Z.shiftr z (8 * Z.of_nat k) mod 256).
Proof.
  revert z k. induction n as [|n IH]; intros z k Hk; [lia|].
  change (le_bytes (S n) z) with (z mod 256 :: le_bytes n (z / 256)).
  destruct k as [|k]; [by rewrite Z.shiftr_0_r|]. cbn [lookup list_lookup].
  rewrite IH by lia. change (z / 256) with (z / 2 ^ 8).
  rewrite <- Z.shiftr_div_pow2, Z.shiftr_shiftr by lia. do 3 f_equal. lia.
Qed.

(** A sum of disjoint bits. *)
Lemma lor_shiftl x y n : 0 <= n → 0 <= y < 2 ^ n → Z.lor (Z.shiftl x n) y = x * 2 ^ n + y.
Proof.
  intros Hn Hy. rewrite <- Z.shiftl_mul_pow2 by done.
  assert (Z.land (Z.shiftl x n) y = 0) as H0.
  { bits i. rewrite Z.land_spec, Z.bits_0, Z.shiftl_spec by done.
    destruct (decide (i < n)); [by rewrite Z.testbit_neg_r by lia|].
    by rewrite (bits_above n y), andb_false_r by lia. }
  by rewrite Z.add_nocarry_lxor, Z.lxor_lor.
Qed.

Lemma lor_add x y n : 0 <= n → 0 <= x < 2 ^ n → (∃ k, y = k * 2 ^ n) → Z.lor x y = x + y.
Proof.
  intros Hn Hx [k ->]. rewrite <- Z.shiftl_mul_pow2 by done.
  rewrite Z.lor_comm, lor_shiftl, Z.shiftl_mul_pow2 by done. lia.
Qed.
