(* ===== verification/Endian.v ===== *)
(** Byte order of the host: src/redis-7.0.0/src/endianconv.c and the macros of
    endianconv.h.  The host's byte order is a parameter, so what is proved of
    the structures below holds on both kinds of machine. *)
From S2P Require Import Prelude.

(** [BYTE_ORDER == BIG_ENDIAN] of the machine the program runs on. *)
Class Host := { big_endian : bool }.

(** The two kinds of host. *)
Definition le_host : Host := {| big_endian := false |}.
Definition be_host : Host := {| big_endian := true |}.

(** How the host lays out an [n]-byte integer object in memory. *)
Definition host_bytes `{Host} (n : nat) (z : Z) : list Z :=
  if big_endian then reverse (le_bytes n z) else le_bytes n z.

Definition host_val `{Host} (bs : list Z) : Z :=
  if big_endian then le_val (reverse bs) else le_val bs.

(** [t = x[i]; x[i] = x[j]; x[j] = t], with [x] the pointer [p]. *)
Definition swap_bytes (m : list Z) (p i j : Z) : option (list Z) :=
  t ← load8 m (p + i);
  xj ← load8 m (p + j);
  m ← store8 m (p + i) xj;
  store8 m (p + j) t.

Definition memrev16 (m : list Z) (p : Z) : option (list Z) :=
  swap_bytes m p 0 1.

Definition memrev32 (m : list Z) (p : Z) : option (list Z) :=
  m ← swap_bytes m p 0 3;
  swap_bytes m p 1 2.

Definition memrev64 (m : list Z) (p : Z) : option (list Z) :=
  m ← swap_bytes m p 0 7;
  m ← swap_bytes m p 1 6;
  m ← swap_bytes m p 2 5;
  swap_bytes m p 3 4.

Definition intrev16 `{Host} (v : Z) : option Z :=
  host_val <$> memrev16 (host_bytes 2 v) 0.

Definition intrev32 `{Host} (v : Z) : option Z :=
  host_val <$> memrev32 (host_bytes 4 v) 0.

Definition intrev64 `{Host} (v : Z) : option Z :=
  host_val <$> memrev64 (host_bytes 8 v) 0.

Definition memrev16ifbe `{Host} (m : list Z) (p : Z) : option (list Z) :=
  if big_endian then memrev16 m p else Some m.

Definition memrev32ifbe `{Host} (m : list Z) (p : Z) : option (list Z) :=
  if big_endian then memrev32 m p else Some m.

Definition memrev64ifbe `{Host} (m : list Z) (p : Z) : option (list Z) :=
  if big_endian then memrev64 m p else Some m.

Definition intrev16ifbe `{Host} (v : Z) : option Z :=
  if big_endian then intrev16 v else Some v.

Definition intrev32ifbe `{Host} (v : Z) : option Z :=
  if big_endian then intrev32 v else Some v.

Definition intrev64ifbe `{Host} (v : Z) : option Z :=
  if big_endian then intrev64 v else Some v.

Definition htonu64 `{Host} (v : Z) : option Z :=
  if big_endian then Some v else intrev64 v.

Definition ntohu64 `{Host} (v : Z) : option Z :=
  if big_endian then Some v else intrev64 v.

(** ** Lemmas *)

Lemma length_host_bytes `{Host} n z : length (host_bytes n z) = n.
Proof. unfold host_bytes. destruct big_endian; len_lia. Qed.
#[export] Hint Rewrite @length_host_bytes : len_db.

Lemma host_bytes_ok `{Host} n z : bytes_ok (host_bytes n z).
Proof.
  unfold host_bytes. destruct big_endian; [apply Forall_reverse|]; apply le_bytes_ok.
Qed.

Lemma host_val_bytes `{Host} n z :
  host_val (host_bytes n z) = z mod 2 ^ (8 * Z.of_nat n).
Proof.
  unfold host_val, host_bytes.
  destruct big_endian; rewrite ?reverse_involutive; apply le_val_bytes.
Qed.

Lemma swap_bytes_skip a m i j :
  0 <= i → 0 <= j → swap_bytes (a ++ m) (len a) i j = (a ++.) <$> swap_bytes m 0 i j.
Proof.
  intros. unfold swap_bytes. rewrite !load8_skip by lia. rewrite !Z.add_0_l.
  destruct (load8 m i); simpl; [|done]. destruct (load8 m j); simpl; [|done].
  rewrite store8_skip by lia. destruct (store8 m i _); simpl; [|done].
  by rewrite store8_skip by lia.
Qed.

Lemma swap_bytes_insert m i j x y :
  m !! Z.to_nat i = Some x → m !! Z.to_nat j = Some y →
  0 <= i < j → is_byte x → is_byte y →
  swap_bytes m 0 i j = Some (<[Z.to_nat j := x]> (<[Z.to_nat i := y]> m)).
Proof.
  intros Hi Hj ? Hx Hy. unfold swap_bytes, load8. rewrite !Z.add_0_l.
  apply lookup_lt_Some in Hi as ?. apply lookup_lt_Some in Hj as ?.
  do 2 if_true. rewrite Hi. simpl. rewrite Hj. simpl.
  rewrite store8_insert by lia. simpl. rewrite store8_insert by len_lia.
  by rewrite !is_byte_wrap.
Qed.

(** [memrev*] reverses the bytes of the object it is given. *)
Ltac swap_step x y :=
  rewrite swap_bytes_skip by lia;
  rewrite (swap_bytes_insert _ _ _ x y) by (first [reflexivity | assumption | lia]);
  simpl.

Lemma memrev16_rev a x c :
  length x = 2%nat → bytes_ok x →
  memrev16 (a ++ x ++ c) (len a) = Some (a ++ reverse x ++ c).
Proof.
  intros Hl Hx. destruct x as [|b0 [|b1 [|? ?]]]; try done.
  rewrite !Forall_cons in Hx; destruct_and! Hx.
  unfold memrev16. by swap_step b0 b1.
Qed.

Lemma memrev32_rev a x c :
  length x = 4%nat → bytes_ok x →
  memrev32 (a ++ x ++ c) (len a) = Some (a ++ reverse x ++ c).
Proof.
  intros Hl Hx. destruct x as [|b0 [|b1 [|b2 [|b3 [|? ?]]]]]; try done.
  rewrite !Forall_cons in Hx; destruct_and! Hx.
  unfold memrev32. swap_step b0 b3. by swap_step b1 b2.
Qed.

Lemma memrev64_rev a x c :
  length x = 8%nat → bytes_ok x →
  memrev64 (a ++ x ++ c) (len a) = Some (a ++ reverse x ++ c).
Proof.
  intros Hl Hx.
  destruct x as [|b0 [|b1 [|b2 [|b3 [|b4 [|b5 [|b6 [|b7 [|? ?]]]]]]]]]; try done.
  rewrite !Forall_cons in Hx; destruct_and! Hx.
  unfold memrev64. swap_step b0 b7. swap_step b1 b6. swap_step b2 b5. by swap_step b3 b4.
Qed.

(** Reading an [n]-byte object and passing it through [memrev*ifbe] gives the
    little-endian value, and storing one through [memrev*ifbe] leaves the
    little-endian bytes, on either kind of host. *)
Section host_independence.
Context `{Host}.

Lemma memrev16ifbe_host a x c :
  length x = 2%nat → bytes_ok x →
  memrev16ifbe (a ++ x ++ c) (len a) =
    Some (a ++ (if big_endian then reverse x else x) ++ c).
Proof. intros. unfold memrev16ifbe. destruct big_endian; [by apply memrev16_rev|done]. Qed.

Lemma memrev32ifbe_host a x c :
  length x = 4%nat → bytes_ok x →
  memrev32ifbe (a ++ x ++ c) (len a) =
    Some (a ++ (if big_endian then reverse x else x) ++ c).
Proof. intros. unfold memrev32ifbe. destruct big_endian; [by apply memrev32_rev|done]. Qed.

Lemma memrev64ifbe_host a x c :
  length x = 8%nat → bytes_ok x →
  memrev64ifbe (a ++ x ++ c) (len a) =
    Some (a ++ (if big_endian then reverse x else x) ++ c).
Proof. intros. unfold memrev64ifbe. destruct big_endian; [by apply memrev64_rev|done]. Qed.

(** The same for an object on its own, at offset 0. *)
Lemma memrevifbe_obj rev n x :
  (∀ a x c, length x = n → bytes_ok x →
     rev (a ++ x ++ c) (len a) = Some (a ++ (if big_endian then reverse x else x) ++ c)) →
  length x = n → bytes_ok x →
  rev x 0 = Some (if big_endian then reverse x else x).
Proof.
  intros Hrev Hl Hx. pose proof (Hrev [] x [] Hl Hx) as Hr. by rewrite !app_nil_r in Hr.
Qed.

Lemma host_val_rev x : host_val (if big_endian then reverse x else x) = le_val x.
Proof. unfold host_val. destruct big_endian; by rewrite ?reverse_involutive. Qed.

Lemma host_bytes_rev n z :
  (if big_endian then reverse (host_bytes n z) else host_bytes n z) = le_bytes n z.
Proof. unfold host_bytes. destruct big_endian; by rewrite ?reverse_involutive. Qed.

Lemma host_bytes_val bs n :
  n = length bs → bytes_ok bs → host_bytes n (host_val bs) = bs.
Proof.
  intros -> Hbs. unfold host_bytes, host_val. destruct big_endian.
  - rewrite <- (length_reverse bs), le_bytes_val by by apply Forall_reverse.
    apply reverse_involutive.
  - by apply le_bytes_val.
Qed.

Lemma memrev32_obj x :
  length x = 4%nat → bytes_ok x → memrev32 x 0 = Some (reverse x).
Proof.
  intros Hl Hx. pose proof (memrev32_rev [] x [] Hl Hx) as Hr.
  by rewrite !app_nil_r in Hr.
Qed.

(** A header field read through [intrev32ifbe] is its little-endian value. *)
Lemma intrev32ifbe_val x :
  length x = 4%nat → bytes_ok x → intrev32ifbe (host_val x) = Some (le_val x).
Proof.
  intros Hl Hx. unfold intrev32ifbe, intrev32. destruct big_endian eqn:E.
  - rewrite host_bytes_val by done. rewrite memrev32_obj by done. simpl.
    unfold host_val. by rewrite E, reverse_involutive.
  - unfold host_val. by rewrite E.
Qed.

(** A header field written through [intrev32ifbe] is stored little-endian. *)
Lemma intrev32ifbe_bytes z :
  host_bytes 4 <$> intrev32ifbe z = Some (le_bytes 4 z).
Proof.
  unfold intrev32ifbe, intrev32. destruct big_endian eqn:E; simpl.
  - rewrite memrev32_obj by (apply length_host_bytes || apply host_bytes_ok).
    simpl. rewrite host_bytes_val
      by (len_lia || apply Forall_reverse, host_bytes_ok).
    unfold host_bytes. by rewrite E, reverse_involutive.
  - unfold host_bytes. by rewrite E.
Qed.
End host_independence.
