(* ===== verification/Intset.v ===== *)
(** Integer sets: src/redis-7.0.0/src/intset.c.

    An intset is one heap block: a 4-byte encoding, a 4-byte length and the
    elements, all little-endian whatever the host.  The model works on the
    bytes of that block, [s : list Z] (the C code's [is]).  An operation that would access the
    block out of bounds, or whose [assert] fails, is [None]. *)
From Stdlib Require Import Sorted.
From S2P Require Import Prelude Endian.

Definition INTSET_ENC_INT16 : Z := 2.
Definition INTSET_ENC_INT32 : Z := 4.
Definition INTSET_ENC_INT64 : Z := 8.
Definition SIZE_MAX : Z := 2 ^ 64 - 1.

(** [sizeof(intset)]: where [contents] starts. *)
Definition sizeof_intset : Z := 8.

Section intset.
Context `{Host}.
(** The unspecified value of bytes freshly obtained from the allocator. *)
Context (junk : Z).

(** [intrev32ifbe(is->encoding)] and [intrev32ifbe(is->length)]. *)
Definition get_encoding (s : list Z) : option Z :=
  e ← load s 0 4; intrev32ifbe (host_val e).

Definition get_length (s : list Z) : option Z :=
  l ← load s 4 4; intrev32ifbe (host_val l).

(** [is->encoding = intrev32ifbe(v)] and [is->length = intrev32ifbe(v)]. *)
Definition set_encoding (s : list Z) (v : Z) : option (list Z) :=
  e ← intrev32ifbe v; store s 0 (host_bytes 4 e).

Definition set_length (s : list Z) (v : Z) : option (list Z) :=
  l ← intrev32ifbe v; store s 4 (host_bytes 4 l).

Definition _intsetValueEncoding (v : Z) : Z :=
  if (v <? - 2 ^ 31) || (v >? 2 ^ 31 - 1) then INTSET_ENC_INT64
  else if (v <? - 2 ^ 15) || (v >? 2 ^ 15 - 1) then INTSET_ENC_INT32
  else INTSET_ENC_INT16.

Definition _intsetGetEncoded (s : list Z) (pos enc : Z) : option Z :=
  if enc =? INTSET_ENC_INT64 then
    v64 ← load s (sizeof_intset + pos * 8) 8;
    v64 ← memrev64ifbe v64 0;
    Some (s64 (host_val v64))
  else if enc =? INTSET_ENC_INT32 then
    v32 ← load s (sizeof_intset + pos * 4) 4;
    v32 ← memrev32ifbe v32 0;
    Some (s32 (host_val v32))
  else
    v16 ← load s (sizeof_intset + pos * 2) 2;
    v16 ← memrev16ifbe v16 0;
    Some (s16 (host_val v16)).

Definition _intsetGet (s : list Z) (pos : Z) : option Z :=
  enc ← get_encoding s;
  _intsetGetEncoded s pos (u8 enc).

Definition _intsetSet (s : list Z) (pos value : Z) : option (list Z) :=
  encoding ← get_encoding s;
  if encoding =? INTSET_ENC_INT64 then
    s ← store s (sizeof_intset + pos * 8) (host_bytes 8 value);
    memrev64ifbe s (sizeof_intset + pos * 8)
  else if encoding =? INTSET_ENC_INT32 then
    s ← store s (sizeof_intset + pos * 4) (host_bytes 4 value);
    memrev32ifbe s (sizeof_intset + pos * 4)
  else
    s ← store s (sizeof_intset + pos * 2) (host_bytes 2 value);
    memrev16ifbe s (sizeof_intset + pos * 2).

Definition intsetNew : option (list Z) :=
  let s := realloc junk [] sizeof_intset in
  s ← set_encoding s INTSET_ENC_INT16;
  set_length s 0.

Definition intsetResize (s : list Z) (n : Z) : option (list Z) :=
  enc ← get_encoding s;
  let size := u64 (n * enc) in
  if size <=? SIZE_MAX - sizeof_intset
  then Some (realloc junk s (sizeof_intset + size)) else None.

(** The binary search loop; the result is [min], [mid] and [cur] after it. *)
Fixpoint search_loop (fuel : nat) (s : list Z) (value min max mid cur : Z)
    : option (Z * Z * Z) :=
  match fuel with
  | O => None
  | S fuel =>
    if max >=? min then
      let mid := s32 (Z.shiftr (u32 (u32 min + u32 max)) 1) in
      cur ← _intsetGet s mid;
      if value >? cur then search_loop fuel s value (mid + 1) max mid cur
      else if value <? cur then search_loop fuel s value min (mid - 1) mid cur
      else Some (min, mid, cur)
    else Some (min, mid, cur)
  end.

(** The returned flag and [*pos]. *)
Definition intsetSearch (s : list Z) (value : Z) : option (bool * Z) :=
  length ← get_length s;
  let max := s32 (u32 (length - 1)) in
  if length =? 0 then Some (false, 0)
  else
    last ← _intsetGet s max;
    if value >? last then Some (false, length)
    else
      first ← _intsetGet s 0;
      if value <? first then Some (false, 0)
      else
        r ← search_loop (S (Z.to_nat length)) s value 0 max (-1) (-1);
        let '(min, mid, cur) := r in
        if value =? cur then Some (true, u32 mid) else Some (false, u32 min).

(** [while(length--) _intsetSet(is,length+prepend,_intsetGetEncoded(...))] *)
Fixpoint upgrade_loop (s : list Z) (length : nat) (prepend curenc : Z)
    : option (list Z) :=
  match length with
  | O => Some s
  | S length =>
    v ← _intsetGetEncoded s (Z.of_nat length) curenc;
    s ← _intsetSet s (Z.of_nat length + prepend) v;
    upgrade_loop s length prepend curenc
  end.

Definition intsetUpgradeAndAdd (s : list Z) (value : Z) : option (list Z) :=
  enc ← get_encoding s;
  let curenc := u8 enc in
  let newenc := _intsetValueEncoding value in
  l ← get_length s;
  let length := s32 l in
  let prepend := if value <? 0 then 1 else 0 in
  s ← set_encoding s newenc;
  l ← get_length s;
  s ← intsetResize s (u32 (l + 1));
  s ← (if length <? 0 then None
        else upgrade_loop s (Z.to_nat length) prepend curenc);
  s ← (if prepend =? 1 then _intsetSet s 0 value
        else l ← get_length s; _intsetSet s (s32 l) value);
  l ← get_length s;
  set_length s (u32 (l + 1)).

Definition intsetMoveTail (s : list Z) (from to : Z) : option (list Z) :=
  l ← get_length s;
  encoding ← get_encoding s;
  let size := if encoding =? INTSET_ENC_INT64 then 8
              else if encoding =? INTSET_ENC_INT32 then 4 else 2 in
  memmove s (sizeof_intset + to * size) (sizeof_intset + from * size)
          (u32 (u32 (l - from) * size)).

(** The new block and [*success]. *)
Definition intsetAdd (s : list Z) (value : Z) : option (list Z * bool) :=
  let valenc := _intsetValueEncoding value in
  enc ← get_encoding s;
  if valenc >? enc then
    s ← intsetUpgradeAndAdd s value; Some (s, true)
  else
    r ← intsetSearch s value;
    let '(found, pos) := r in
    if found : bool then Some (s, false)
    else
      l ← get_length s;
      s ← intsetResize s (u32 (l + 1));
      l ← get_length s;
      s ← (if pos <? l then intsetMoveTail s pos (u32 (pos + 1)) else Some s);
      s ← _intsetSet s (s32 pos) value;
      l ← get_length s;
      s ← set_length s (u32 (l + 1));
      Some (s, true).

Definition intsetRemove (s : list Z) (value : Z) : option (list Z * bool) :=
  let valenc := _intsetValueEncoding value in
  enc ← get_encoding s;
  if valenc <=? enc then
    r ← intsetSearch s value;
    let '(found, pos) := r in
    if found : bool then
      l ← get_length s;
      s ← (if pos <? u32 (l - 1) then intsetMoveTail s (u32 (pos + 1)) pos
            else Some s);
      s ← intsetResize s (u32 (l - 1));
      s ← set_length s (u32 (l - 1));
      Some (s, true)
    else Some (s, false)
  else Some (s, false).

Definition intsetFind (s : list Z) (value : Z) : option bool :=
  let valenc := _intsetValueEncoding value in
  enc ← get_encoding s;
  if valenc <=? enc then fst <$> intsetSearch s value else Some false.

(** [rand] is the value the C library's [rand()] returns. *)
Definition intsetRandom (s : list Z) (rand : Z) : option Z :=
  l ← get_length s;
  if l =? 0 then None else _intsetGet s (s32 (u32 rand mod l)).

(** [Some None] is the return value 0, [Some (Some v)] is 1 with [*value = v]. *)
Definition intsetGet (s : list Z) (pos : Z) : option (option Z) :=
  l ← get_length s;
  if pos <? l then Some <$> _intsetGet s (s32 pos) else Some None.

Definition intsetLen (s : list Z) : option Z := get_length s.

Definition intsetBlobLen (s : list Z) : option Z :=
  l ← get_length s;
  enc ← get_encoding s;
  Some (u64 (sizeof_intset + u64 (l * enc))).

(** The order check of [intsetValidateIntegrity], from record [i] on;
    [n] records are left. *)
Fixpoint validate_loop (n : nat) (s : list Z) (i prev : Z) : option bool :=
  match n with
  | O => Some true
  | S n =>
    cur ← _intsetGet s i;
    if cur <=? prev then Some false else validate_loop n s (i + 1) cur
  end.

Definition intsetValidateIntegrity (p : list Z) (size : Z) (deep : bool)
    : option bool :=
  if size <? sizeof_intset then Some false
  else
    encoding ← get_encoding p;
    let check record_size :=
      count ← get_length p;
      if negb (u64 (sizeof_intset + u64 (count * record_size)) =? size)
      then Some false
      else if count =? 0 then Some false
      else if negb deep then Some true
      else
        prev ← _intsetGet p 0;
        validate_loop (Z.to_nat count - 1) p 1 prev in
    if encoding =? INTSET_ENC_INT64 then check INTSET_ENC_INT64
    else if encoding =? INTSET_ENC_INT32 then check INTSET_ENC_INT32
    else if encoding =? INTSET_ENC_INT16 then check INTSET_ENC_INT16
    else Some false.
End intset.

(** ** The format *)

(** A block with header fields [e] and [l] and element bytes [c]. *)
Definition hdr (e l : Z) (c : list Z) : list Z := le_bytes 4 e ++ le_bytes 4 l ++ c.

Definition enc_ok (enc : Z) : Prop := enc = 2 ∨ enc = 4 ∨ enc = 8.
Definition fits (enc v : Z) : Prop := - 2 ^ (8 * enc - 1) <= v < 2 ^ (8 * enc - 1).

(** The elements, each in [enc] bytes. *)
Definition encode (enc : Z) (xs : list Z) : list Z := xs ≫= le_bytes (Z.to_nat enc).

(** The block that holds the elements [xs] under the encoding [enc]. *)
Definition blob (enc : Z) (xs : list Z) : list Z := hdr enc (len xs) (encode enc xs).

(** [s] is a well-formed intset with elements [xs]: ascending, without
    duplicates, each representable under the encoding.  [intsetMoveTail]
    computes a byte count in 32 bits, so sizes are kept below 2^29. *)
Record intset_rep (s : list Z) (enc : Z) (xs : list Z) : Prop := {
  rep_blob : s = blob enc xs;
  rep_enc : enc_ok enc;
  rep_fits : Forall (fits enc) xs;
  rep_sorted : StronglySorted Z.lt xs;
  rep_len : len xs < 2 ^ 29
}.

Lemma length_encode enc xs : enc_ok enc → len (encode enc xs) = enc * len xs.
Proof.
  intros He. unfold encode. induction xs as [|x xs IH]; [simpl; lia|].
  rewrite bind_cons. simpl_len. destruct He as [-> | [-> | ->]]; lia.
Qed.

Lemma encode_app enc xs ys : encode enc (xs ++ ys) = encode enc xs ++ encode enc ys.
Proof. apply bind_app. Qed.

Lemma encode_cons enc x xs : encode enc (x :: xs) = le_bytes (Z.to_nat enc) x ++ encode enc xs.
Proof. apply bind_cons. Qed.

Section header.
Context `{Host}.

Lemma get_encoding_hdr e l c : 0 <= e < 2 ^ 32 → get_encoding (hdr e l c) = Some e.
Proof.
  intros. unfold get_encoding, hdr.
  rewrite load_app0 by done. mstep.
  rewrite intrev32ifbe_val by (done || apply le_bytes_ok).
  rewrite le_val_bytes. f_equal. by apply Z.mod_small.
Qed.

Lemma get_length_hdr e l c : 0 <= l < 2 ^ 32 → get_length (hdr e l c) = Some l.
Proof.
  intros. unfold get_length, hdr. rewrite load_app by done. mstep.
  rewrite intrev32ifbe_val by (done || apply le_bytes_ok).
  rewrite le_val_bytes. f_equal. by apply Z.mod_small.
Qed.

Lemma set_encoding_hdr e l c v : set_encoding (hdr e l c) v = Some (hdr v l c).
Proof.
  unfold set_encoding, hdr. pose proof (intrev32ifbe_bytes v) as Hv.
  destruct (intrev32ifbe v) as [e'|]; mstep in Hv; [mstep|done]. injection Hv as ->.
  by rewrite store_app0.
Qed.

Lemma set_length_hdr e l c v : set_length (hdr e l c) v = Some (hdr e v c).
Proof.
  unfold set_length, hdr. pose proof (intrev32ifbe_bytes v) as Hv.
  destruct (intrev32ifbe v) as [e'|]; mstep in Hv; [mstep|done]. injection Hv as ->.
  by rewrite store_app.
Qed.

Lemma realloc_hdr junk e l c n :
  0 <= n → realloc junk (hdr e l c) (sizeof_intset + n) = hdr e l (realloc junk c n).
Proof.
  intros. unfold realloc, hdr, sizeof_intset. rewrite !app_assoc.
  rewrite (Z2Nat.inj_add 8 n) by lia.
  rewrite take_app_add' by done. rewrite <- !app_assoc. by do 4 f_equal.
Qed.

(** Accesses to the element area. *)
Lemma load_hdr e l c off n :
  0 <= off → load (hdr e l c) (sizeof_intset + off) n = load c off n.
Proof. intros. unfold hdr. rewrite app_assoc. by apply (load_skip (le_bytes 4 e ++ le_bytes 4 l)). Qed.

Lemma store_hdr e l c off bs :
  0 <= off → store (hdr e l c) (sizeof_intset + off) bs = hdr e l <$> store c off bs.
Proof.
  intros. unfold hdr. rewrite app_assoc.
  change sizeof_intset with (len (le_bytes 4 e ++ le_bytes 4 l)).
  rewrite store_skip by done.
  destruct (store c off bs); mstep; [by rewrite <- app_assoc | done].
Qed.

Lemma enc_ok_range enc : enc_ok enc → 2 <= enc <= 8 ∧ 0 <= enc < 2 ^ 32 ∧ u8 enc = enc.
Proof. intros [-> | [-> | ->]]; split_and!; done || lia. Qed.

Lemma getEncoded_hdr e l a v c pos enc :
  enc_ok enc → fits enc v → len a = pos * enc →
  _intsetGetEncoded (hdr e l (a ++ le_bytes (Z.to_nat enc) v ++ c)) pos enc = Some v.
Proof.
  intros He Hv Ha. unfold _intsetGetEncoded. unfold fits in Hv.
  assert (0 <= pos * enc) by lia.
  destruct He as [-> | [-> | ->]]; cbn [Z.eqb Pos.eqb INTSET_ENC_INT64 INTSET_ENC_INT32];
    rewrite load_hdr by done; rewrite load_app by done; mstep.
  - rewrite (memrevifbe_obj _ 2); auto using memrev16ifbe_host, le_bytes_ok.
    mstep. f_equal. rewrite host_val_rev. by apply wraps_le_val_bytes.
  - rewrite (memrevifbe_obj _ 4); auto using memrev32ifbe_host, le_bytes_ok.
    mstep. f_equal. rewrite host_val_rev. by apply wraps_le_val_bytes.
  - rewrite (memrevifbe_obj _ 8); auto using memrev64ifbe_host, le_bytes_ok.
    mstep. f_equal. rewrite host_val_rev. by apply wraps_le_val_bytes.
Qed.

Lemma memrevifbe_hdr rev n e l a b c :
  (∀ a x c, length x = n → bytes_ok x →
     rev (a ++ x ++ c) (len a) = Some (a ++ (if big_endian then reverse x else x) ++ c)) →
  length b = n → bytes_ok b →
  rev (hdr e l (a ++ b ++ c)) (sizeof_intset + len a) =
    Some (hdr e l (a ++ (if big_endian then reverse b else b) ++ c)).
Proof.
  intros Hrev Hl Hb. unfold hdr.
  replace (sizeof_intset + len a) with (len (le_bytes 4 e ++ le_bytes 4 l ++ a))
    by (unfold sizeof_intset; len_lia).
  rewrite !(app_assoc (le_bytes 4 l)), !(app_assoc (le_bytes 4 e)).
  by rewrite Hrev by done.
Qed.

Lemma intsetSet_hdr enc l a b c pos v :
  enc_ok enc → len a = pos * enc → len b = enc →
  _intsetSet (hdr enc l (a ++ b ++ c)) pos v =
    Some (hdr enc l (a ++ le_bytes (Z.to_nat enc) v ++ c)).
Proof.
  intros He Ha Hb. unfold _intsetSet.
  destruct (enc_ok_range _ He) as (?&?&?). rewrite get_encoding_hdr by done. mstep.
  destruct He as [-> | [-> | ->]]; cbn [Z.eqb Pos.eqb INTSET_ENC_INT64 INTSET_ENC_INT32];
    rewrite store_hdr by lia; rewrite store_app by (len_lia || done); mstep; rewrite <- Ha.
  - rewrite (memrevifbe_hdr _ 2); eauto using memrev16ifbe_host, host_bytes_ok.
    { by rewrite host_bytes_rev. } apply length_host_bytes.
  - rewrite (memrevifbe_hdr _ 4); eauto using memrev32ifbe_host, host_bytes_ok.
    { by rewrite host_bytes_rev. } apply length_host_bytes.
  - rewrite (memrevifbe_hdr _ 8); eauto using memrev64ifbe_host, host_bytes_ok.
    { by rewrite host_bytes_rev. } apply length_host_bytes.
Qed.

Lemma get_length_blob enc xs : len xs < 2 ^ 32 → get_length (blob enc xs) = Some (len xs).
Proof. intros. apply get_length_hdr. lia. Qed.

Lemma get_encoding_blob enc xs : enc_ok enc → get_encoding (blob enc xs) = Some enc.
Proof. intros He. by apply get_encoding_hdr, enc_ok_range. Qed.

Lemma getEncoded_blob e l enc xs i x :
  enc_ok enc → Forall (fits enc) xs → xs !! i = Some x → ∀ c,
  _intsetGetEncoded (hdr e l (encode enc xs ++ c)) (Z.of_nat i) enc = Some x.
Proof.
  intros He Hf Hi c. apply list_elem_of_split_length in Hi as (xs1&xs2&->&->).
  rewrite encode_app, encode_cons, <- !app_assoc.
  apply Forall_app in Hf as [_ [Hx _]%Forall_cons].
  apply getEncoded_hdr; auto. rewrite length_encode by done. lia.
Qed.

Lemma intsetGet_blob enc xs i x :
  enc_ok enc → Forall (fits enc) xs → xs !! i = Some x →
  _intsetGet (blob enc xs) (Z.of_nat i) = Some x.
Proof.
  intros He Hf Hi. unfold _intsetGet. destruct (enc_ok_range _ He) as (?&?&Hu).
  rewrite get_encoding_blob by done. mstep. rewrite Hu. unfold blob.
  rewrite <- (app_nil_r (encode enc xs)). by apply getEncoded_blob.
Qed.
End header.

(** ** Searching *)

(** What [intsetSearch] promises: the position of [value], or the position
    where it has to be inserted. *)
Definition search_spec (xs : list Z) (value : Z) (r : bool * Z) : Prop :=
  let '(found, pos) := r in
  if found : bool then 0 <= pos ∧ xs !! Z.to_nat pos = Some value
  else 0 <= pos <= len xs ∧
       (∀ i x, xs !! i = Some x → Z.of_nat i < pos → x < value) ∧
       (∀ i x, xs !! i = Some x → pos <= Z.of_nat i → value < x).

Lemma sorted_lookup_lt xs i j x y :
  StronglySorted Z.lt xs → xs !! i = Some x → xs !! j = Some y → (i < j)%nat → x < y.
Proof.
  intros Hs. revert i j. induction Hs as [|z xs Hs IH Hz]; intros i j Hi Hj Hij; [done|].
  destruct j as [|j]; [lia|]. destruct i as [|i]; simpl in *.
  - simplify_eq. rewrite Forall_lookup in Hz. eauto.
  - eapply IH; eauto. lia.
Qed.

Section search.
Context `{Host} (xs : list Z) (enc : Z).
Hypothesis Henc : enc_ok enc.
Hypothesis Hfits : Forall (fits enc) xs.
Hypothesis Hsorted : StronglySorted Z.lt xs.
Hypothesis Hlen : len xs < 2 ^ 29.

Lemma search_loop_spec fuel value min max mid cur :
  (Z.to_nat (max - min + 1) < fuel)%nat →
  0 <= min → max < len xs → min <= max + 1 → (min <= max ∨ cur ≠ value) →
  (∀ i x, xs !! i = Some x → Z.of_nat i < min → x < value) →
  (∀ i x, xs !! i = Some x → max < Z.of_nat i → value < x) →
  ∃ min' mid' cur',
    search_loop fuel (blob enc xs) value min max mid cur = Some (min', mid', cur') ∧
    if value =? cur' then 0 <= mid' ∧ xs !! Z.to_nat mid' = Some value
    else search_spec xs value (false, min').
Proof.
  revert min max mid cur.
  induction fuel as [|fuel IH]; intros min max mid cur Hf ? ? ? Hc Hlo Hhi; [lia|].
  cbn [search_loop]. case_if.
  2:{ do 3 eexists. split; [done|]. assert (cur ≠ value) by lia. if_false.
      split_and!; [lia|lia|auto|]. intros i x Hi ?. eapply Hhi; eauto. lia. }
  assert (s32 (Z.shiftr (u32 (u32 min + u32 max)) 1) = (min + max) / 2) as ->.
  { rewrite !wrapu_small by (rewrite ?wrapu_small; lia).
    rewrite Z.shiftr_div_pow2 by lia. change (2 ^ 1) with 2. apply s32_small. div_lia. }
  assert (min <= (min + max) / 2 <= max) as Hmid by div_lia.
  generalize dependent ((min + max) / 2). intros m Hmid.
  destruct (xs !! Z.to_nat m) as [x|] eqn:Hx; [|apply lookup_ge_None in Hx; lia].
  pose proof (intsetGet_blob _ _ _ _ Henc Hfits Hx) as Hg.
  rewrite Z2Nat.id in Hg by lia. rewrite Hg. mstep.
  destruct (value >? x) eqn:E1; [|destruct (value <? x) eqn:E2].
  - apply IH; try lia; [|done]. intros i y Hi ?.
    destruct (decide (Z.of_nat i = m)) as [He|].
    { rewrite <- He, Nat2Z.id in Hx. simplify_eq. lia. }
    assert (y < x) by (eapply (sorted_lookup_lt xs i); eauto; lia). lia.
  - apply IH; try lia; [done|]. intros i y Hi ?.
    destruct (decide (Z.of_nat i = m)) as [He|].
    { rewrite <- He, Nat2Z.id in Hx. simplify_eq. lia. }
    assert (x < y) by (eapply (sorted_lookup_lt xs _ i); eauto; lia). lia.
  - assert (x = value) as -> by lia. do 3 eexists. split; [done|]. if_true.
    split; [lia|done].
Qed.

Lemma intsetSearch_blob value :
  ∃ r, intsetSearch (blob enc xs) value = Some r ∧ search_spec xs value r.
Proof.
  unfold intsetSearch. rewrite get_length_blob by lia. mstep.
  case_if. { eexists. split; [done|]. destruct xs; [|done].
             split_and!; try lia; intros i x Hx; by rewrite lookup_nil in Hx. }
  rewrite (wrapu_small 32 (len xs - 1)) by lia. rewrite s32_small by lia.
  destruct (xs !! Z.to_nat (len xs - 1)) as [y|] eqn:Hy; [|apply lookup_ge_None in Hy; lia].
  pose proof (intsetGet_blob _ _ _ _ Henc Hfits Hy) as Hg.
  rewrite Z2Nat.id in Hg by lia. rewrite Hg. mstep.
  destruct (xs !! 0%nat) as [z|] eqn:Hz; [|apply lookup_ge_None in Hz; lia].
  pose proof (intsetGet_blob _ _ _ _ Henc Hfits Hz) as Hg0.
  change (Z.of_nat 0) with 0 in Hg0. rewrite Hg0. mstep.
  case_if; [|case_if].
  - eexists. split; [done|]. split_and!; [lia|lia| |].
    + intros i x Hx ?. apply lookup_lt_Some in Hx as ?.
      destruct (decide (i = Z.to_nat (len xs - 1))); [simplify_eq; lia|].
      assert (x < y) by (eapply (sorted_lookup_lt xs i); eauto; lia). lia.
    + intros i x Hx ?. apply lookup_lt_Some in Hx. lia.
  - eexists. split; [done|]. split_and!; [lia|lia|intros; lia|].
    intros i x Hx ?. destruct (decide (i = 0%nat)); [simplify_eq; lia|].
    assert (z < x) by (eapply (sorted_lookup_lt xs 0%nat); eauto; lia). lia.
  - destruct (search_loop_spec (S (Z.to_nat (len xs))) value 0 (len xs - 1) (-1) (-1))
      as (min'&mid'&cur'&->&Hr); try lia.
    { intros i x Hx ?. apply lookup_lt_Some in Hx. lia. }
    mstep. destruct (value =? cur').
    + eexists. split; [done|]. destruct Hr as [? Hr]. apply lookup_lt_Some in Hr as ?.
      rewrite wrapu_small by lia. done.
    + eexists. split; [done|]. destruct Hr as [? Hr]. rewrite wrapu_small by lia. done.
Qed.
End search.

(** ** Resizing, moving the tail, upgrading *)

Section update.
Context `{Host} (junk : Z).

Lemma intsetResize_hdr e l c n :
  enc_ok e → 0 <= n < 2 ^ 32 →
  intsetResize junk (hdr e l c) n = Some (hdr e l (realloc junk c (n * e))).
Proof.
  intros He Hn. destruct (enc_ok_range _ He) as (?&?&_). unfold intsetResize.
  rewrite get_encoding_hdr by done. mstep.
  assert (0 <= n * e <= 2 ^ 32 * 8) by nia.
  rewrite wrapu_small by lia.
  replace (_ <=? _) with true by (unfold SIZE_MAX, sizeof_intset; lia).
  by rewrite realloc_hdr by lia.
Qed.

Lemma memmove_hdr e l c d s n :
  0 <= d → 0 <= s →
  memmove (hdr e l c) (sizeof_intset + d) (sizeof_intset + s) n = hdr e l <$> memmove c d s n.
Proof.
  intros. unfold memmove. rewrite load_hdr by done.
  destruct (load c s n); mstep; [|done]. by rewrite store_hdr.
Qed.

(** [intsetMoveTail] is a memmove of the tail, in units of elements. *)
Lemma intsetMoveTail_hdr e l c from to :
  enc_ok e → 0 <= from <= l → 0 <= to → l < 2 ^ 29 →
  intsetMoveTail (hdr e l c) from to =
    hdr e l <$> memmove c (to * e) (from * e) ((l - from) * e).
Proof.
  intros He ? ? ?. unfold intsetMoveTail. destruct (enc_ok_range _ He) as (?&?&_).
  rewrite get_length_hdr by lia. mstep. rewrite get_encoding_hdr by done. mstep.
  assert ((if e =? INTSET_ENC_INT64 then 8 else if e =? INTSET_ENC_INT32 then 4 else 2) = e)
    as -> by (destruct He as [-> | [-> | ->]]; done).
  rewrite (wrapu_small 32 (l - from)) by lia. rewrite wrapu_small by nia.
  apply memmove_hdr; nia.
Qed.

Lemma fits_mono e e' v : 0 < e <= e' → fits e v → fits e' v.
Proof.
  unfold fits. intros ? ?.
  assert (2 ^ (8 * e - 1) <= 2 ^ (8 * e' - 1)) by (apply Z.pow_le_mono_r; lia). lia.
Qed.

(** Opens a window of [n] bytes at offset [p] at or after the end of [a]. *)
Lemma window (a b : list Z) (p n : Z) :
  0 <= n → len a <= p → p + n = len a + len b →
  ∃ m w, a ++ b = a ++ m ++ w ∧ len (a ++ m) = p ∧ len w = n.
Proof.
  intros. exists (take (Z.to_nat (p - len a)) b), (drop (Z.to_nat (p - len a)) b).
  rewrite take_drop. split_and!; [done|len_lia..].
Qed.

(** One pass of the upgrade loop.  Before the pass over the first [k]
    elements, those are in the old encoding at the front, the others are in
    the new encoding behind a gap; overwriting never destroys an element
    that is still to be read. *)
Lemma upgrade_loop_spec cur new l prepend tail xs ys b :
  enc_ok cur → enc_ok new → cur <= new → 0 <= prepend →
  Forall (fits cur) xs →
  len (encode cur xs ++ b) = (len xs + prepend) * new →
  ∃ gap,
    upgrade_loop (hdr new l (encode cur xs ++ b ++ encode new ys ++ tail))
                 (length xs) prepend cur =
      Some (hdr new l (gap ++ encode new (xs ++ ys) ++ tail)) ∧
    len gap = prepend * new.
Proof.
  intros Hcur Hnew Hle Hp. revert ys b.
  induction xs as [|x xs IH] using rev_ind; intros ys b Hf Hb.
  { exists b. split; [done|]. simpl in Hb. lia. }
  apply Forall_app in Hf as [Hf [Hx _]%Forall_cons].
  rewrite length_app, Nat.add_comm. cbn [length Nat.add upgrade_loop].
  rewrite encode_app, encode_cons. change (encode cur []) with (@nil Z).
  rewrite app_nil_r, <- !app_assoc.
  rewrite getEncoded_hdr; [|done|done|rewrite length_encode by done; lia]. mstep.
  destruct (enc_ok_range _ Hcur) as (?&_). destruct (enc_ok_range _ Hnew) as (?&_).
  rewrite encode_app, encode_cons, !length_app in Hb. change (encode cur []) with (@nil Z) in Hb.
  simpl_len.
  destruct (window (encode cur xs) (le_bytes (Z.to_nat cur) x ++ b)
              ((len xs + prepend) * new) new) as (m&w&Ew&Hm&Hw).
  { lia. } { rewrite length_encode by done. nia. } { len_lia. }
  rewrite (app_assoc (le_bytes _ x)), (app_assoc (encode cur xs)), Ew, <- !app_assoc.
  rewrite (app_assoc (encode cur xs) m), intsetSet_hdr by done. mstep.
  rewrite <- app_assoc, (app_assoc (le_bytes _ x)), <- encode_cons.
  destruct (IH (x :: ys) m Hf) as (gap&Hgap&?); [done|].
  exists gap. by rewrite Hgap.
Qed.
End update.

(** ** The abstract set *)

(** Reference operations on ascending lists. *)
Fixpoint set_insert (v : Z) (xs : list Z) : list Z :=
  match xs with
  | [] => [v]
  | x :: xs' =>
      if v <? x then v :: xs
      else if v =? x then xs else x :: set_insert v xs'
  end.

Definition set_remove (v : Z) (xs : list Z) : list Z := filter (λ x, x ≠ v) xs.

Lemma elem_of_set_insert v x xs : x ∈ set_insert v xs ↔ x = v ∨ x ∈ xs.
Proof.
  induction xs as [|y xs IH]; simpl; [set_solver|].
  case_if; [|case_if]; subst; set_solver.
Qed.

Lemma set_insert_split v xs1 xs2 :
  Forall (λ x, x < v) xs1 → Forall (λ x, v < x) xs2 →
  set_insert v (xs1 ++ xs2) = xs1 ++ v :: xs2.
Proof.
  intros H1 H2. induction H1 as [|x xs1 Hx H1 IH]; simpl.
  - destruct H2; simpl; [done|]. by if_true.
  - if_false. if_false. by rewrite IH.
Qed.

Lemma set_insert_present v xs : StronglySorted Z.lt xs → v ∈ xs → set_insert v xs = xs.
Proof.
  induction 1 as [|x xs Hs IH Hx]; simpl; [set_solver|]. intros Hv.
  rewrite Forall_forall in Hx.
  apply elem_of_cons in Hv as [->|Hv]; [if_false; by if_true|].
  specialize (Hx _ Hv). if_false. if_false. by rewrite IH.
Qed.

Lemma set_insert_sorted v xs : StronglySorted Z.lt xs → StronglySorted Z.lt (set_insert v xs).
Proof.
  induction 1 as [|x xs Hs IH Hx]; simpl; [repeat constructor|].
  case_if; [|case_if].
  - repeat constructor; auto. eapply Forall_impl; [done|]. simpl. lia.
  - by constructor.
  - constructor; [done|]. rewrite Forall_forall in Hx |- *. intros y [->|Hy]%elem_of_set_insert.
    + lia.
    + auto.
Qed.

Lemma length_set_insert v xs :
  (length (set_insert v xs) <= S (length xs))%nat.
Proof.
  induction xs as [|x xs IH]; simpl; [lia|]. case_if; [|case_if]; simpl; lia.
Qed.

(** In a strictly ascending list everything before [v] is below it and
    everything after is above. *)
Lemma sorted_middle xs1 v xs2 :
  StronglySorted Z.lt (xs1 ++ v :: xs2) →
  Forall (λ x, x < v) xs1 ∧ Forall (λ x, v < x) xs2.
Proof.
  induction xs1 as [|x xs1 IH]; simpl; intros Hs; apply StronglySorted_inv in Hs as [Hs Hx].
  - done.
  - destruct (IH Hs). split; [|done]. constructor; [|done].
    rewrite Forall_forall in Hx. apply Hx. set_solver.
Qed.

Lemma sorted_app_drop xs1 v xs2 :
  StronglySorted Z.lt (xs1 ++ v :: xs2) → StronglySorted Z.lt (xs1 ++ xs2).
Proof.
  induction xs1 as [|x xs1 IH]; simpl; intros Hs; apply StronglySorted_inv in Hs as [Hs Hx].
  - done.
  - constructor; [by apply IH|]. rewrite Forall_app, Forall_cons in *. tauto.
Qed.

Lemma set_remove_middle v xs1 xs2 :
  StronglySorted Z.lt (xs1 ++ v :: xs2) → set_remove v (xs1 ++ v :: xs2) = xs1 ++ xs2.
Proof.
  unfold set_remove. intros Hs. destruct (sorted_middle _ _ _ Hs) as [H1 H2].
  rewrite filter_app, filter_cons_False by auto.
  rewrite !filter_all; [done|eapply Forall_impl; [done|]; simpl; lia..].
Qed.

Lemma set_remove_absent v xs : v ∉ xs → set_remove v xs = xs.
Proof. intros. apply filter_all, Forall_forall. intros x Hx ->. done. Qed.

(** [search_spec] in terms of a split of the list. *)
Lemma search_spec_found xs value pos :
  search_spec xs value (true, pos) →
  ∃ xs1 xs2, xs = xs1 ++ value :: xs2 ∧ pos = len xs1.
Proof.
  intros [? (xs1&xs2&->&Hl)%list_elem_of_split_length]. exists xs1, xs2. split; [done|lia].
Qed.

Lemma search_spec_absent xs value pos :
  search_spec xs value (false, pos) →
  ∃ xs1 xs2, xs = xs1 ++ xs2 ∧ pos = len xs1 ∧
    Forall (λ x, x < value) xs1 ∧ Forall (λ x, value < x) xs2.
Proof.
  intros (Hp&Hlo&Hhi). exists (take (Z.to_nat pos) xs), (drop (Z.to_nat pos) xs).
  split_and!; [by rewrite take_drop|len_lia| |].
  - apply Forall_lookup. intros i x [Hi ?]%lookup_take_Some. eapply Hlo; eauto. lia.
  - apply Forall_lookup. intros i x Hi. rewrite lookup_drop in Hi. eapply Hhi; eauto. lia.
Qed.

Lemma search_spec_not_in xs value pos : search_spec xs value (false, pos) → value ∉ xs.
Proof.
  intros (xs1&xs2&->&_&H1&H2)%search_spec_absent. rewrite Forall_forall in H1, H2.
  intros [Hin|Hin]%elem_of_app; [apply H1 in Hin|apply H2 in Hin]; lia.
Qed.

Lemma search_spec_in xs value pos : search_spec xs value (true, pos) → value ∈ xs.
Proof. intros (xs1&xs2&->&_)%search_spec_found. set_solver. Qed.

(** The encoding chosen for a value is the smallest that represents it. *)
Lemma valueEncoding_fits enc v :
  enc_ok enc → - 2 ^ 63 <= v < 2 ^ 63 → _intsetValueEncoding v <= enc ↔ fits enc v.
Proof.
  unfold _intsetValueEncoding, fits, INTSET_ENC_INT64, INTSET_ENC_INT32, INTSET_ENC_INT16.
  intros [-> | [-> | ->]] Hv; simpl (8 * _ - 1);
    repeat match goal with |- context [if ?b then _ else _] => destruct b eqn:? end; lia.
Qed.

Lemma valueEncoding_ok v : enc_ok (_intsetValueEncoding v).
Proof.
  unfold _intsetValueEncoding, enc_ok, INTSET_ENC_INT64, INTSET_ENC_INT32, INTSET_ENC_INT16.
  destruct (_ || _); [lia|]. destruct (_ || _); lia.
Qed.

Lemma unfit_not_in enc xs v :
  enc_ok enc → Forall (fits enc) xs → - 2 ^ 63 <= v < 2 ^ 63 →
  enc < _intsetValueEncoding v → v ∉ xs.
Proof.
  intros He Hf Hv ? Hin. rewrite Forall_forall in Hf.
  apply Hf, valueEncoding_fits in Hin; [lia|done..].
Qed.

(** ** Correctness of the operations *)

Section operations.
Context `{Host} (junk : Z).

Lemma encode_length_split enc xs1 xs2 :
  enc_ok enc → len (encode enc (xs1 ++ xs2)) = enc * len xs1 + enc * len xs2.
Proof. intros. rewrite length_encode by done. len_lia. Qed.

(** Growing the element area by one element leaves an unspecified gap. *)
Lemma intsetResize_grow enc l xs :
  enc_ok enc → len xs + 1 < 2 ^ 32 →
  ∃ gap, intsetResize junk (hdr enc l (encode enc xs)) (len xs + 1) =
           Some (hdr enc l (encode enc xs ++ gap)) ∧ len gap = enc.
Proof.
  intros He ?. destruct (enc_ok_range _ He) as (?&_).
  rewrite intsetResize_hdr by (done || lia).
  rewrite realloc_grow by (rewrite length_encode by done; lia).
  eexists. split; [done|]. rewrite length_replicate.
  pose proof (length_encode enc xs He). lia.
Qed.

Lemma intsetUpgradeAndAdd_blob enc xs value :
  enc_ok enc → Forall (fits enc) xs → len xs + 1 < 2 ^ 29 →
  enc < _intsetValueEncoding value →
  intsetUpgradeAndAdd junk (blob enc xs) value =
    Some (blob (_intsetValueEncoding value)
               (if value <? 0 then value :: xs else xs ++ [value])).
Proof.
  intros He Hf Hlen Hlt. pose proof (valueEncoding_ok value) as Hn.
  set (new := _intsetValueEncoding value) in *.
  destruct (enc_ok_range _ He) as (?&?&Hu), (enc_ok_range _ Hn) as (?&?&_).
  unfold intsetUpgradeAndAdd. rewrite get_encoding_blob by done. mstep.
  rewrite get_length_blob by lia. mstep. fold new. unfold blob.
  rewrite set_encoding_hdr. mstep. rewrite get_length_hdr by lia. mstep.
  rewrite Hu, s32_small, (wrapu_small 32) by lia.
  rewrite intsetResize_hdr by (done || lia). mstep. if_false.
  rewrite realloc_grow by (rewrite length_encode by done; nia).
  set (fresh := replicate _ junk).
  assert (Hfresh : len fresh = (len xs + 1) * new - enc * len xs).
  { subst fresh. rewrite length_replicate. pose proof (length_encode enc xs He). nia. }
  rewrite Nat2Z.id. destruct (value <? 0) eqn:Hneg; cbn [Z.eqb Pos.eqb].
  - destruct (upgrade_loop_spec enc new (len xs) 1 [] xs [] fresh) as (gap&Hl&Hgap);
      try done; try lia.
    { rewrite length_app, Nat2Z.inj_add, length_encode by done. lia. }
    rewrite !app_nil_r in Hl. rewrite Hl. mstep.
    pose proof (intsetSet_hdr new (len xs) [] gap (encode new xs) 0 value Hn) as Hs.
    cbn [app] in Hs. rewrite Hs by (done || lia). mstep.
    rewrite get_length_hdr by lia. mstep. rewrite wrapu_small, set_length_hdr by lia.
    rewrite encode_cons. do 2 f_equal. simpl. lia.
  - set (tail := drop (Z.to_nat (len fresh - new)) fresh).
    destruct (upgrade_loop_spec enc new (len xs) 0 tail xs [] (take (Z.to_nat (len fresh - new)) fresh))
      as (gap&Hl&Hgap); try done; try lia.
    { rewrite length_app, Nat2Z.inj_add, length_encode, length_take by done. nia. }
    change (encode new []) with (@nil Z) in Hl. cbn [app] in Hl.
    unfold tail in Hl at 1. rewrite take_drop in Hl. rewrite Hl. mstep.
    destruct gap; [|simpl in Hgap; lia]. rewrite app_nil_r. cbn [app].
    rewrite get_length_hdr by lia. mstep. rewrite s32_small by lia.
    pose proof (intsetSet_hdr new (len xs) (encode new xs) tail [] (len xs) value Hn) as Hs.
    rewrite !app_nil_r in Hs.
    rewrite Hs by (rewrite ?length_encode by done; unfold tail; rewrite ?length_drop; nia).
    mstep. rewrite get_length_hdr by lia. mstep. rewrite wrapu_small, set_length_hdr by lia.
    rewrite encode_app, encode_cons. change (encode new []) with (@nil Z).
    rewrite app_nil_r. do 2 f_equal. len_lia.
Qed.

(** Insertion at the position found by the search: resize, move the tail,
    store, count. *)
Lemma intsetInsertAt enc xs1 xs2 value :
  enc_ok enc → len (xs1 ++ xs2) + 1 < 2 ^ 29 →
  (s ← intsetResize junk (blob enc (xs1 ++ xs2)) (len (xs1 ++ xs2) + 1);
   l ← get_length s;
   s ← (if len xs1 <? l then intsetMoveTail s (len xs1) (len xs1 + 1) else Some s);
   s ← _intsetSet s (len xs1) value;
   l ← get_length s;
   set_length s (u32 (l + 1))) =
    Some (blob enc (xs1 ++ value :: xs2)).
Proof.
  intros He Hl. destruct (enc_ok_range _ He) as (?&_).
  destruct (intsetResize_grow enc (len (xs1 ++ xs2)) (xs1 ++ xs2)) as (gap&Hr&Hg);
    [done|lia|].
  unfold blob at 1. rewrite Hr. mstep. rewrite get_length_hdr by lia. mstep.
  rewrite encode_app, <- app_assoc.
  pose proof (length_encode enc xs1 He). pose proof (length_encode enc xs2 He).
  assert (∃ w, (if len xs1 <? len (xs1 ++ xs2)
     then intsetMoveTail (hdr enc (len (xs1 ++ xs2)) (encode enc xs1 ++ encode enc xs2 ++ gap))
            (len xs1) (len xs1 + 1)
     else Some (hdr enc (len (xs1 ++ xs2)) (encode enc xs1 ++ encode enc xs2 ++ gap))) =
     Some (hdr enc (len (xs1 ++ xs2)) (encode enc xs1 ++ w ++ encode enc xs2)) ∧ len w = enc)
    as (w&->&Hw).
  { case_if; simpl_len.
    - rewrite intsetMoveTail_hdr by (done || lia). eexists.
      rewrite memmove_right by lia. split; [done|]. len_lia.
    - destruct xs2; [|simpl in *; lia]. change (encode enc []) with (@nil Z).
      exists gap. by rewrite app_nil_r. }
  mstep. rewrite intsetSet_hdr by (done || lia). mstep.
  rewrite get_length_hdr by lia. mstep. rewrite wrapu_small, set_length_hdr by lia.
  unfold blob. rewrite encode_app, encode_cons. do 2 f_equal. len_lia.
Qed.

(** Removal at the position found by the search: move the tail, shrink,
    count. *)
Lemma intsetRemoveAt enc xs1 xs2 value :
  enc_ok enc → len (xs1 ++ value :: xs2) < 2 ^ 29 →
  (s ← (if len xs1 <? len (xs1 ++ value :: xs2) - 1
        then intsetMoveTail (blob enc (xs1 ++ value :: xs2)) (len xs1 + 1) (len xs1)
        else Some (blob enc (xs1 ++ value :: xs2)));
   s ← intsetResize junk s (len (xs1 ++ value :: xs2) - 1);
   set_length s (len (xs1 ++ value :: xs2) - 1)) =
    Some (blob enc (xs1 ++ xs2)).
Proof.
  intros He Hl. pose proof (length_encode enc xs1 He). pose proof (length_encode enc xs2 He).
  destruct (enc_ok_range _ He) as (?&_). unfold blob.
  rewrite !encode_app, encode_cons. set (l := len (xs1 ++ value :: xs2)) in *.
  assert (l = len xs1 + len xs2 + 1) by (subst l; len_lia).
  assert (∃ w, (if len xs1 <? l - 1
    then intsetMoveTail (hdr enc l (encode enc xs1 ++ le_bytes (Z.to_nat enc) value ++ encode enc xs2))
           (len xs1 + 1) (len xs1)
    else Some (hdr enc l (encode enc xs1 ++ le_bytes (Z.to_nat enc) value ++ encode enc xs2))) =
    Some (hdr enc l (encode enc xs1 ++ encode enc xs2 ++ w))) as (w&->).
  { case_if.
    - rewrite intsetMoveTail_hdr by (done || lia). eexists.
      rewrite memmove_left by len_lia. done.
    - destruct xs2; [|simpl in *; lia]. change (encode enc []) with (@nil Z).
      rewrite app_nil_r. eexists. done. }
  mstep. rewrite intsetResize_hdr by (done || lia). mstep. rewrite app_assoc.
  replace (_ * enc) with (len (encode enc xs1 ++ encode enc xs2)) by len_lia.
  rewrite realloc_shrink, set_length_hdr. do 2 f_equal. len_lia.
Qed.

Lemma rep_remove s enc xs1 v xs2 :
  intset_rep s enc (xs1 ++ v :: xs2) → intset_rep (blob enc (xs1 ++ xs2)) enc (xs1 ++ xs2).
Proof.
  intros [_ He Hf Hs Hlen]. constructor; eauto using sorted_app_drop; [|len_lia].
  rewrite Forall_app, Forall_cons in Hf. rewrite Forall_app. tauto.
Qed.

Lemma blob_fits_encoding enc value :
  enc_ok enc → - 2 ^ 63 <= value < 2 ^ 63 →
  fits (Z.max enc (_intsetValueEncoding value)) value.
Proof.
  intros He Hv. apply valueEncoding_fits; [|done|lia].
  pose proof (valueEncoding_ok value). unfold enc_ok in *. lia.
Qed.

(** The state after adding [value]. *)
Lemma rep_insert s enc xs value :
  intset_rep s enc xs → - 2 ^ 63 <= value < 2 ^ 63 → len xs + 1 < 2 ^ 29 →
  intset_rep (blob (Z.max enc (_intsetValueEncoding value)) (set_insert value xs))
             (Z.max enc (_intsetValueEncoding value)) (set_insert value xs).
Proof.
  intros [-> He Hf Hs Hl] Hv Hlen. pose proof (valueEncoding_ok value).
  constructor; [done|unfold enc_ok in *; lia| |by apply set_insert_sorted|].
  - rewrite Forall_forall in Hf |- *. intros x [->|Hx]%elem_of_set_insert.
    + by apply blob_fits_encoding.
    + eapply fits_mono; [|by apply Hf]. destruct (enc_ok_range _ He). lia.
  - pose proof (length_set_insert value xs). lia.
Qed.

(** A value that needs a wider encoding lies outside the range of every
    element: below all of them when negative, above when not. *)
Lemma set_insert_upgrade enc xs value :
  enc_ok enc → Forall (fits enc) xs → - 2 ^ 63 <= value < 2 ^ 63 →
  enc < _intsetValueEncoding value →
  set_insert value xs = if value <? 0 then value :: xs else xs ++ [value].
Proof.
  intros He Hf Hv Hlt.
  assert (¬ fits enc value) as Hn by (rewrite <- valueEncoding_fits by done; lia).
  unfold fits in *. case_if.
  - apply (set_insert_split value [] xs); [constructor|].
    eapply Forall_impl; [exact Hf|]. simpl. lia.
  - rewrite <- (app_nil_r xs) at 1. apply set_insert_split; [|constructor].
    eapply Forall_impl; [exact Hf|]. simpl. lia.
Qed.
End operations.

(** A new intset is well-formed and empty. *)
Theorem intsetNew_correct `{Host} junk :
  ∃ s, intsetNew junk = Some s ∧ intset_rep s INTSET_ENC_INT16 [].
Proof.
  exists (blob 2 []). split.
  - unfold intsetNew. change (realloc junk [] sizeof_intset) with (replicate 8 junk).
    unfold set_encoding. pose proof (intrev32ifbe_bytes INTSET_ENC_INT16) as Hv.
    destruct (intrev32ifbe INTSET_ENC_INT16); mstep in Hv; [mstep|done]. injection Hv as ->.
    change (replicate 8 junk) with (replicate 4 junk ++ replicate 4 junk).
    rewrite store_app0 by done. mstep.
    unfold set_length. pose proof (intrev32ifbe_bytes 0) as Hv.
    destruct (intrev32ifbe 0); mstep in Hv; [mstep|done]. injection Hv as ->.
    rewrite <- (app_nil_r (replicate 4 junk)). by rewrite store_app.
  - constructor; [done|by left|constructor|constructor|done].
Qed.

(** A concrete intset for the witnesses below. *)
Lemma rep_example : intset_rep (blob 2 [-7; 5; 300]) 2 [-7; 5; 300].
Proof.
  constructor; [done|by left| |  |done].
  - repeat constructor; unfold fits; lia.
  - repeat constructor; lia.
Qed.

(** C2: adding a value to a well-formed intset that then has fewer than 2^29 elements
    always succeeds without an out-of-bounds access, on hosts of either byte order; the
    new block is well-formed, holds exactly the old elements and the value, in order, in
    the wider of the encoding it had and the one of the value, and the flag says whether
    the value was absent. *)
Theorem intsetAdd_correct `{Host} junk s enc xs value :
  intset_rep s enc xs → - 2 ^ 63 <= value < 2 ^ 63 → len xs + 1 < 2 ^ 29 →
  ∃ s', intsetAdd junk s value = Some (s', bool_decide (value ∉ xs)) ∧
    intset_rep s' (Z.max enc (_intsetValueEncoding value)) (set_insert value xs).
Proof.
  intros Hrep Hv Hlen. eexists. split; [|by eapply rep_insert].
  destruct Hrep as [-> He Hf Hs _]. unfold intsetAdd.
  rewrite get_encoding_blob by done. mstep. case_if.
  - rewrite intsetUpgradeAndAdd_blob by (done || lia). mstep.
    rewrite Z.max_r by lia. rewrite (set_insert_upgrade enc) by (done || lia).
    rewrite bool_decide_eq_true_2; [done|]. by eapply unfit_not_in.
  - rewrite Z.max_l by lia.
    destruct (intsetSearch_blob xs enc He Hf Hs ltac:(lia) value) as ([[] pos]&->&Hr); mstep.
    + apply search_spec_in in Hr. rewrite set_insert_present by done.
      by rewrite bool_decide_eq_false_2 by auto.
    + rewrite bool_decide_eq_true_2 by by eapply search_spec_not_in.
      apply search_spec_absent in Hr as (xs1&xs2&->&->&H1&H2).
      rewrite get_length_blob by lia. mstep.
      pose proof (intsetInsertAt junk enc xs1 xs2 value He Hlen) as Hi.
      rewrite (wrapu_small 32 (len (xs1 ++ xs2) + 1)) by lia.
      rewrite (wrapu_small 32 (len xs1 + 1)), s32_small by len_lia.
      mrun Hi. rewrite Hi. mstep. by rewrite set_insert_split by done.
Qed.

Lemma intsetAdd_correct_witness :
  intset_rep (blob 2 [-7; 5; 300]) 2 [-7; 5; 300] ∧
  ∃ s', @intsetAdd be_host 0 (blob 2 [-7; 5; 300]) (-70000) = Some (s', true) ∧
    intset_rep s' 4 [-70000; -7; 5; 300].
Proof.
  split; [apply rep_example|].
  apply (@intsetAdd_correct be_host 0 _ 2 [-7; 5; 300] (-70000)); [apply rep_example|lia|simpl; lia].
Defined.

(** Removing a value from a well-formed intset always succeeds; the block
    shrinks by the element if it was present and is unchanged otherwise. *)
Theorem intsetRemove_correct `{Host} junk s enc xs value :
  intset_rep s enc xs → - 2 ^ 63 <= value < 2 ^ 63 →
  ∃ s', intsetRemove junk s value = Some (s', bool_decide (value ∈ xs)) ∧
    intset_rep s' enc (set_remove value xs).
Proof.
  intros Hrep Hv. pose proof Hrep as [-> He Hf Hs Hlen]. unfold intsetRemove.
  rewrite get_encoding_blob by done. mstep.
  assert (Habs : value ∉ xs → ∃ s', Some (blob enc xs, false) =
    Some (s', bool_decide (value ∈ xs)) ∧ intset_rep s' enc (set_remove value xs)).
  { intros Hn. exists (blob enc xs).
    by rewrite bool_decide_eq_false_2, set_remove_absent by done. }
  case_if; [|apply Habs; by eapply unfit_not_in].
  destruct (intsetSearch_blob xs enc He Hf Hs Hlen value) as ([[] pos]&->&Hr); mstep;
    [|apply Habs; by eapply search_spec_not_in].
  apply search_spec_found in Hr as (xs1&xs2&->&->).
  rewrite set_remove_middle, bool_decide_eq_true_2 by (done || set_solver).
  exists (blob enc (xs1 ++ xs2)). split; [|by eapply rep_remove].
  rewrite get_length_blob by lia. mstep.
  pose proof (intsetRemoveAt junk enc xs1 xs2 value He Hlen) as Hi.
  rewrite !(wrapu_small 32) by len_lia. mrun Hi. by rewrite Hi.
Qed.

Lemma intsetRemove_correct_witness :
  intset_rep (blob 2 [-7; 5; 300]) 2 [-7; 5; 300] ∧
  ∃ s', @intsetRemove le_host 0 (blob 2 [-7; 5; 300]) 5 = Some (s', true) ∧
    intset_rep s' 2 [-7; 300].
Proof.
  split; [apply rep_example|].
  apply (@intsetRemove_correct le_host 0 _ 2 [-7; 5; 300] 5); [apply rep_example|lia].
Defined.

(** Membership test by binary search, agreeing with list membership. *)
Theorem intsetFind_correct `{Host} s enc xs value :
  intset_rep s enc xs → - 2 ^ 63 <= value < 2 ^ 63 →
  intsetFind s value = Some (bool_decide (value ∈ xs)).
Proof.
  intros [-> He Hf Hs Hlen] Hv. unfold intsetFind.
  rewrite get_encoding_blob by done. mstep. case_if.
  - destruct (intsetSearch_blob xs enc He Hf Hs Hlen value) as ([[] pos]&->&Hr); mstep; f_equal;
      symmetry; [apply bool_decide_eq_true|apply bool_decide_eq_false];
      eauto using search_spec_in, search_spec_not_in.
  - f_equal. symmetry. apply bool_decide_eq_false. by eapply unfit_not_in.
Qed.

Lemma intsetFind_correct_witness :
  intset_rep (blob 2 [-7; 5; 300]) 2 [-7; 5; 300] ∧
  @intsetFind le_host (blob 2 [-7; 5; 300]) 300 = Some true.
Proof.
  split; [apply rep_example|].
  apply (@intsetFind_correct le_host _ 2 [-7; 5; 300] 300); [apply rep_example|lia].
Defined.

(** ** Validating untrusted bytes *)

Lemma hdr_of_bytes p :
  bytes_ok p → 8 <= len p →
  ∃ e l c, p = hdr e l c ∧ 0 <= e < 2 ^ 32 ∧ 0 <= l < 2 ^ 32 ∧ bytes_ok c.
Proof.
  intros Hp Hl.
  assert (bytes_ok (take 4 p) ∧ bytes_ok (take 4 (drop 4 p)) ∧ bytes_ok (drop 8 p)) as (H1&H2&H3)
    by auto using Forall_take, Forall_drop.
  pose proof (le_val_range _ H1) as R1. pose proof (le_val_range _ H2) as R2.
  pose proof (le_bytes_val _ H1) as V1. pose proof (le_bytes_val _ H2) as V2.
  rewrite !length_take, ?length_drop, !Nat.min_l in * by lia.
  exists (le_val (take 4 p)), (le_val (take 4 (drop 4 p))), (drop 8 p).
  split_and!; try lia; [|done]. unfold hdr. rewrite V1, V2.
  rewrite <- (take_drop 4 p) at 1. f_equal. rewrite <- (take_drop 4 (drop 4 p)) at 1.
  by rewrite drop_drop.
Qed.

(** Any bytes of the right length are the encoding of some elements. *)
Lemma encode_of_bytes enc n c :
  enc_ok enc → bytes_ok c → len c = enc * Z.of_nat n →
  ∃ xs, c = encode enc xs ∧ length xs = n ∧ Forall (fits enc) xs.
Proof.
  intros He. destruct (enc_ok_range _ He) as (?&_). revert c.
  induction n as [|n IH]; intros c Hc Hl.
  { exists []. destruct c; [done|simpl in Hl; lia]. }
  destruct (IH (drop (Z.to_nat enc) c)) as (xs&Hxs&?&?);
    [by apply Forall_drop|rewrite length_drop; nia|].
  assert (bytes_ok (take (Z.to_nat enc) c)) as Ht by by apply Forall_take.
  pose proof (le_bytes_val _ Ht) as Hv. rewrite length_take, Nat.min_l in Hv by nia.
  exists (wraps (8 * enc) (le_val (take (Z.to_nat enc) c)) :: xs). split_and!.
  - rewrite encode_cons, le_bytes_wraps, Hv, <- Hxs by lia. by rewrite take_drop.
  - simpl. lia.
  - constructor; [|done]. apply wraps_range. lia.
Qed.

Lemma validate_loop_spec `{Host} enc pre prev rest :
  enc_ok enc → Forall (fits enc) (pre ++ prev :: rest) →
  ∃ b, validate_loop (length rest) (blob enc (pre ++ prev :: rest)) (len pre + 1) prev = Some b ∧
    (b = true ↔ Sorted Z.lt (prev :: rest)).
Proof.
  intros He. revert pre prev. induction rest as [|x rest IH]; intros pre prev Hf.
  { exists true. split; [done|]. split; [|done]. by repeat constructor. }
  cbn [length validate_loop].
  assert ((pre ++ prev :: x :: rest) !! S (length pre) = Some x) as Hx.
  { rewrite lookup_app_r by lia. by replace (S _ - _)%nat with 1%nat by lia. }
  pose proof (intsetGet_blob _ _ _ _ He Hf Hx) as Hg.
  replace (len pre + 1) with (Z.of_nat (S (length pre))) by lia. rewrite Hg. mstep. case_if.
  - exists false. split; [done|]. split; [done|]. intros [_ Hs%HdRel_inv]%Sorted_inv. lia.
  - destruct (IH (pre ++ [prev]) x) as (b&Hb&Hiff); [by rewrite <- app_assoc|].
    rewrite <- app_assoc, length_app in Hb. cbn [app length] in Hb.
    exists b. rewrite <- Hb. split; [f_equal; lia|]. rewrite Hiff. split.
    + intros. constructor; [done|]. by constructor.
    + by intros [? _]%Sorted_inv.
Qed.

Lemma le_bytes4_inj x y :
  0 <= x < 2 ^ 32 → 0 <= y < 2 ^ 32 → le_bytes 4 x = le_bytes 4 y → x = y.
Proof.
  intros ? ? E%(f_equal le_val). rewrite !le_val_bytes, !Z.mod_small in E by done. done.
Qed.

Lemma rep_hdr_inv e l c enc xs :
  0 <= e < 2 ^ 32 → 0 <= l < 2 ^ 32 → intset_rep (hdr e l c) enc xs →
  e = enc ∧ l = len xs ∧ c = encode enc xs.
Proof.
  intros ? ? [E He _ _ ?]. destruct (enc_ok_range _ He) as (_&?&_).
  unfold blob, hdr in E. apply app_inj_1 in E as [E1 E]; [|done].
  apply app_inj_1 in E as [E2 ->]; [|done].
  apply le_bytes4_inj in E1, E2; [|lia..]. done.
Qed.

Lemma encode_inj enc xs ys :
  enc_ok enc → Forall (fits enc) xs → Forall (fits enc) ys → length xs = length ys →
  encode enc xs = encode enc ys → xs = ys.
Proof.
  intros He Hx. revert ys. induction Hx as [|x xs Hx _ IH]; intros [|y ys] Hy Hl E; try done.
  rewrite !encode_cons in E. apply Forall_cons in Hy as [Hy Hys].
  destruct (enc_ok_range _ He) as (?&_).
  apply app_inj_1 in E as [E1 E2]; [|len_lia]. f_equal; [|by apply IH; [|injection Hl|]].
  apply (f_equal (λ b, wraps (8 * enc) (le_val b))) in E1.
  by rewrite !wraps_le_val_bytes in E1 by (done || lia).
Qed.

(** The checks that follow the recognition of the encoding [e]. *)
Lemma validate_checks `{Host} e l c :
  enc_ok e → 0 <= l < 2 ^ 32 → bytes_ok c → 8 + len c < 2 ^ 29 →
  ∃ b, (if negb (u64 (8 + u64 (l * e)) =? 8 + len c) then Some false
        else if l =? 0 then Some false
        else prev ← _intsetGet (hdr e l c) 0; validate_loop (Z.to_nat l - 1) (hdr e l c) 1 prev)
       = Some b ∧
    (b = true ↔ ∃ enc xs, intset_rep (hdr e l c) enc xs ∧ xs ≠ []).
Proof.
  intros He Hl Hc Hlen. destruct (enc_ok_range _ He) as (?&?&_).
  assert (0 <= l * e < 2 ^ 40) by nia. rewrite !wrapu_small by (rewrite ?wrapu_small; lia).
  assert (Hno : l * e ≠ len c ∨ l = 0 → ∃ b, Some false = Some b ∧
    (b = true ↔ ∃ enc xs, intset_rep (hdr e l c) enc xs ∧ xs ≠ [])).
  { intros Hbad. exists false. split; [done|]. split; [done|]. intros (enc&xs&Hr&Hne).
    apply rep_hdr_inv in Hr as (<-&->&->); [|done..]. rewrite length_encode in Hbad by done.
    destruct xs; [done|]. simpl in Hbad. lia. }
  case_if; [apply Hno; lia|]. case_if; [apply Hno; lia|].
  destruct (encode_of_bytes e (Z.to_nat l) c) as (xs&->&Hxs&Hf); [done|done|lia|].
  destruct xs as [|x rest]; [simpl in *; lia|]. cbn [length] in Hxs.
  pose proof (intsetGet_blob e (x :: rest) 0 x He Hf eq_refl) as Hg. unfold blob in Hg.
  replace (len (x :: rest)) with l in Hg by (simpl; lia). change (Z.of_nat 0) with 0 in Hg.
  rewrite Hg. mstep.
  destruct (validate_loop_spec e [] x rest He Hf) as (b&Hb&Hiff). exists b.
  cbn [app] in Hb. unfold blob in Hb. replace (len (x :: rest)) with l in Hb by (simpl; lia).
  replace (Z.to_nat l - 1)%nat with (length rest) by lia. split; [done|]. rewrite Hiff. split.
  - intros Hs. exists e, (x :: rest). split; [|done]. constructor; [|done|done| |].
    + unfold blob. f_equal. simpl. lia.
    + apply Sorted_StronglySorted; [|done]. intros ? ? ?. apply Z.lt_trans.
    + pose proof (length_encode e (x :: rest) He). lia.
  - intros (enc&ys&Hr&_). pose proof (rep_sorted _ _ _ Hr) as Hs.
    pose proof (rep_fits _ _ _ Hr) as Hfy.
    apply rep_hdr_inv in Hr as (<-&Hly&Henc); [|done..].
    apply encode_inj in Henc as <-; [by apply StronglySorted_Sorted|done..|simpl; lia].
Qed.

(** C32: The deep integrity check of untrusted bytes (fewer than 2^29) reads only inside
    them and accepts exactly the blocks that are well-formed non-empty intsets. *)
Theorem intsetValidateIntegrity_correct `{Host} p :
  bytes_ok p → len p < 2 ^ 29 →
  ∃ b, intsetValidateIntegrity p (len p) true = Some b ∧
    (b = true ↔ ∃ enc xs, intset_rep p enc xs ∧ xs ≠ []).
Proof.
  intros Hp Hlen. unfold intsetValidateIntegrity, sizeof_intset. case_if.
  { exists false. split; [done|]. split; [done|]. intros (enc&xs&[-> _ _ _ _]&_).
    unfold blob, hdr in *. simpl_len. lia. }
  destruct (hdr_of_bytes p) as (e&l&c&->&He&Hl&Hc); [done|lia|].
  assert (Hlc : len (hdr e l c) = 8 + len c) by (unfold hdr; len_lia). rewrite Hlc in *.
  rewrite get_encoding_hdr by done. mstep. rewrite get_length_hdr by done. mstep.
  cbn [negb]. case_if; [|case_if; [|case_if]]; subst;
    try (apply validate_checks; [unfold enc_ok; auto|done..]).
  exists false. split; [done|]. split; [done|]. intros (enc&xs&Hr&_).
  pose proof (rep_enc _ _ _ Hr) as Henc. apply rep_hdr_inv in Hr as (->&_); [|done..].
  unfold enc_ok, INTSET_ENC_INT64, INTSET_ENC_INT32, INTSET_ENC_INT16 in *. lia.
Qed.

Lemma intsetValidateIntegrity_correct_witness :
  ∃ b, @intsetValidateIntegrity le_host [2; 0; 0; 0; 2; 0; 0; 0; 9; 0; 3; 0] 12 true = Some b ∧
    (b = true ↔ ∃ enc xs,
       intset_rep [2; 0; 0; 0; 2; 0; 0; 0; 9; 0; 3; 0] enc xs ∧ xs ≠ []).
Proof.
  apply (@intsetValidateIntegrity_correct le_host [2; 0; 0; 0; 2; 0; 0; 0; 9; 0; 3; 0]).
  - repeat constructor; unfold is_byte; lia.
  - simpl; lia.
Defined.
