(* ===== verification/UtilNum.v ===== *)
(** Numbers and text: the integer conversions of src/redis-7.0.0/src/util.c
    (digits10, sdigits10, ull2string, ll2string, string2ll, string2ull, string2l,
    memtoull) and its byte-set helpers (mempbrk, memmapchars).

    A [char] array is a list of bytes.  None of these functions distinguishes
    a negative [char] from one above 127, so bytes are kept unsigned. *)
From Stdlib Require Import String Ascii.
From S2P Require Import Prelude.

Definition bytes_of (s : string) : list Z :=
  (Z.of_N ∘ N_of_ascii) <$> list_ascii_of_string s.

Definition ULLONG_MAX : Z := 2 ^ 64 - 1.
Definition LLONG_MAX : Z := 2 ^ 63 - 1.
Definition LLONG_MIN : Z := - 2 ^ 63.
Definition LONG_MAX : Z := 2 ^ 63 - 1.
Definition LONG_MIN : Z := - 2 ^ 63.
Definition LONG_STR_SIZE : Z := 21.

(** [s[j]] is one of [chars]: the position found first, if any. *)
Fixpoint mempbrk (s chars : list Z) (j : Z) : option Z :=
  match s with
  | [] => None
  | c :: s => if existsb (Z.eqb c) chars then Some j else mempbrk s chars (j + 1)
  end.

(** The inner loop of [memmapchars]: the first [i] with [c == from[i]]. *)
Fixpoint mapchar (c : Z) (from to : list Z) : Z :=
  match from, to with
  | f :: from, t :: to => if c =? f then t else mapchar c from to
  | _, _ => c
  end.

Definition memmapchars (s from to : list Z) : list Z := (λ c, mapchar c from to) <$> s.

(** [fuel] bounds the recursion; two levels are enough for 64-bit values. *)
Fixpoint digits10_go (fuel : nat) (v : Z) : Z :=
  match fuel with
  | O => 0
  | S fuel =>
    if v <? 10 then 1
    else if v <? 100 then 2
    else if v <? 1000 then 3
    else if v <? 1000000000000 then
      if v <? 100000000 then
        if v <? 1000000 then
          if v <? 10000 then 4
          else 5 + Z.b2z (v >=? 100000)
        else 7 + Z.b2z (v >=? 10000000)
      else if v <? 10000000000 then 9 + Z.b2z (v >=? 1000000000)
      else 11 + Z.b2z (v >=? 100000000000)
    else 12 + digits10_go fuel (v / 1000000000000)
  end.

Definition digits10 (v : Z) : Z := digits10_go 2 v.

Definition sdigits10 (v : Z) : Z :=
  if v <? 0 then
    let uv := if negb (v =? LLONG_MIN) then u64 (- v) else u64 (LLONG_MAX + 1) in
    digits10 uv + 1
  else digits10 v.

Definition digits : list Z := bytes_of
  ("0001020304050607080910111213141516171819" ++
   "2021222324252627282930313233343536373839" ++
   "4041424344454647484950515253545556575859" ++
   "6061626364656667686970717273747576777879" ++
   "8081828384858687888990919293949596979899").

(** [while (value >= 100)] of [ull2string]; [dst] points [p] bytes into its
    buffer.  The result is the buffer, [next] and [value] after the loop. *)
Fixpoint ull_loop (fuel : nat) (dst : list Z) (p next value : Z)
    : option (list Z * Z * Z) :=
  match fuel with
  | O => None
  | S fuel =>
    if value >=? 100 then
      let i := (value mod 100) * 2 in
      let value := value / 100 in
      d1 ← load8 digits (i + 1);
      dst ← store8 dst (p + next) d1;
      d0 ← load8 digits i;
      dst ← store8 dst (p + u32 (next - 1)) d0;
      ull_loop fuel dst p (u32 (next - 2)) value
    else Some (dst, next, value)
  end.

(** The buffer afterwards and the return value. *)
Definition ull2string (dst : list Z) (p dstlen value : Z) : option (list Z * Z) :=
  let length := digits10 value in
  if length >=? dstlen then Some (dst, 0)
  else
    let next := u32 (length - 1) in
    dst ← store8 dst (p + u32 (next + 1)) 0;
    r ← ull_loop 11 dst p next value;
    let '(dst, next, value) := r in
    if value <? 10 then
      dst ← store8 dst (p + next) (48 + value);
      Some (dst, length)
    else
      let i := value * 2 in
      d1 ← load8 digits (i + 1);
      dst ← store8 dst (p + next) d1;
      d0 ← load8 digits i;
      dst ← store8 dst (p + u32 (next - 1)) d0;
      Some (dst, length).

Definition ll2string (dst : list Z) (dstlen svalue : Z) : option (list Z * Z) :=
  if svalue <? 0 then
    let value := if negb (svalue =? LLONG_MIN) then u64 (- svalue)
                 else u64 (LLONG_MAX + 1) in
    if dstlen <? 2 then Some (dst, 0)
    else
      dst ← store8 dst 0 45;
      r ← ull2string dst 1 (dstlen - 1) value;
      let '(dst, length) := r in
      Some (dst, if length =? 0 then 0 else length + 1)
  else
    r ← ull2string dst 0 dstlen (u64 svalue);
    let '(dst, length) := r in
    Some (dst, if length =? 0 then 0 else length + 0).

Definition is_digit (c : Z) : bool := (48 <=? c) && (c <=? 57).

(** The digit loop of [string2ll].  [Some None] is [return 0] on overflow;
    otherwise [plen] and [v] after the loop.  [n] is [slen - plen]. *)
Fixpoint parse_digits (n : nat) (s : list Z) (plen v : Z) : option (option (Z * Z)) :=
  match n with
  | O => Some (Some (plen, v))
  | S n =>
    c ← load8 s plen;
    if is_digit c then
      if v >? ULLONG_MAX / 10 then Some None
      else
        let v := u64 (v * 10) in
        if v >? ULLONG_MAX - (c - 48) then Some None
        else parse_digits n s (plen + 1) (u64 (v + (c - 48)))
    else Some (Some (plen, v))
  end.

(** [Some None] is the return value 0, [Some (Some v)] is 1 with [*value = v]. *)
Definition string2ll (s : list Z) (slen : Z) : option (option Z) :=
  if (0 =? slen) || (slen >=? LONG_STR_SIZE) then Some None
  else
    c ← load8 s 0;
    if (slen =? 1) && (c =? 48) then Some (Some 0)
    else
      let negative := c =? 45 in
      let plen := if negative then 1 else 0 in
      if negative && (plen =? slen) then Some None
      else
        c ← load8 s plen;
        if (c >=? 49) && (c <=? 57) then
          r ← parse_digits (Z.to_nat (slen - (plen + 1))) s (plen + 1) (c - 48);
          match r with
          | None => Some None
          | Some (plen, v) =>
            if plen <? slen then Some None
            else if negative then
              if v >? u64 (u64 (- (LLONG_MIN + 1)) + 1) then Some None
              else Some (Some (s64 (u64 (- v))))
            else if v >? LLONG_MAX then Some None
            else Some (Some v)
          end
        else Some None.

Definition string2l (s : list Z) (slen : Z) : option (option Z) :=
  r ← string2ll s slen;
  Some (llval ← r;
        if (llval <? LONG_MIN) || (llval >? LONG_MAX) then None else Some llval).

(** ** Decimal notation *)

(** The last [n] decimal digits of [v]. *)
Fixpoint dec (n : nat) (v : Z) : list Z :=
  match n with
  | O => []
  | S n => dec n (v / 10) ++ [48 + v mod 10]
  end.

(** [v] has exactly [n] decimal digits. *)
Definition ndig (n v : Z) : Prop := (n = 1 ∧ v = 0) ∨ (1 <= n ∧ 10 ^ (n - 1) <= v < 10 ^ n).

(** The decimal notation of a non-negative number, most significant digit
    first: the schoolbook algorithm, without bound on the size. *)
Fixpoint dec_go (fuel : nat) (v : Z) : list Z :=
  match fuel with
  | O => []
  | S fuel => (if v <? 10 then [] else dec_go fuel (v / 10)) ++ [48 + v mod 10]
  end.
Definition dec_u (v : Z) : list Z := dec_go (S (Z.to_nat (Z.log2 v))) v.

(** The decimal notation of an integer. *)
Definition dec_string (v : Z) : list Z :=
  if v <? 0 then 45 :: dec_u (- v) else dec_u v.

Lemma dec_string_ok n : bytes_ok (dec_string n).
Proof.
  assert (Hgo : ∀ fuel v, bytes_ok (dec_go fuel v)).
  { induction fuel as [|fuel IH]; intros v; cbn [dec_go]; [constructor|]. apply Forall_app. split.
    - destruct (v <? 10); [constructor|apply IH].
    - repeat constructor; unfold is_byte; div_lia. }
  unfold dec_string, dec_u. destruct (n <? 0); [constructor; [done|]|]; apply Hgo.
Qed.

Lemma ndig_ge1 n v : ndig n v → 1 <= n ∧ 0 <= v < 10 ^ n.
Proof. intros [[-> ->]|?]; [lia|]. assert (0 <= 10 ^ (n - 1)) by lia. lia. Qed.

Lemma ndig_div n v : 1 <= n → 10 <= v → ndig n v → 2 <= n ∧ ndig (n - 1) (v / 10).
Proof.
  intros ? ? [[-> ->]|[_ Hr]]; [lia|].
  destruct (decide (n = 1)) as [->|]; [simpl in *; lia|]. split; [lia|]. right. split; [lia|].
  replace n with (1 + (n - 1)) in Hr at 2 by lia.
  replace (n - 1) with (1 + (n - 1 - 1)) in Hr at 1 by lia.
  rewrite !Z.pow_add_r in Hr by lia. rewrite Z.pow_1_r in Hr.
  split; [apply Z.div_le_lower_bound|apply Z.div_lt_upper_bound]; lia.
Qed.

Lemma ndig_small n v : ndig n v → v < 10 → n = 1.
Proof.
  intros [[-> ->]|[? [Hr _]]] ?; [done|]. destruct (decide (n = 1)); [done|].
  assert (10 ^ 1 <= 10 ^ (n - 1)) by (apply Z.pow_le_mono_r; lia). lia.
Qed.

Lemma dec_go_dec fuel n v :
  (1 <= fuel)%nat → ndig n v → v < 10 ^ Z.of_nat fuel → dec_go fuel v = dec (Z.to_nat n) v.
Proof.
  revert n v. induction fuel as [|fuel IH]; intros n v Hf Hn Hv; [lia|].
  destruct (ndig_ge1 _ _ Hn) as [? _]. cbn [dec_go]. case_if.
  - apply ndig_small in Hn as ->; [|done]. done.
  - destruct (ndig_div n v) as [? Hd]; [done..|].
    replace (Z.to_nat n) with (S (Z.to_nat (n - 1))) by lia. cbn [dec]. f_equal.
    rewrite Nat2Z.inj_succ, Z.pow_succ_r in Hv by lia.
    apply IH; [|done|apply Z.div_lt_upper_bound; lia].
    destruct fuel; [simpl in Hv|]; lia.
Qed.

Lemma dec_u_dec n v : ndig n v → dec_u v = dec (Z.to_nat n) v.
Proof.
  intros Hn. apply dec_go_dec; [lia|done|]. destruct (ndig_ge1 _ _ Hn).
  pose proof (Z.log2_nonneg v).
  assert (v < 2 ^ Z.succ (Z.log2 v)).
  { destruct (decide (v = 0)) as [->|]; [simpl; lia|]. apply Z.log2_spec. lia. }
  assert (2 ^ Z.succ (Z.log2 v) <= 10 ^ Z.succ (Z.log2 v)) by (apply Z.pow_le_mono_l; lia).
  replace (Z.of_nat _) with (Z.succ (Z.log2 v)) by lia. lia.
Qed.

Lemma length_dec n v : length (dec n v) = n.
Proof. revert v; induction n; intros; simpl; [done|]. rewrite length_app, IHn. simpl. lia. Qed.
#[export] Hint Rewrite length_dec : len_db.

Lemma digits10_go_0 v : 0 <= v < 1000000000000 → ndig (digits10_go 1 v) v.
Proof.
  intros Hv. cbn [digits10_go]. unfold ndig.
  destruct (decide (v = 0)) as [->|]; [left; split; reflexivity|right].
  repeat (case_if; [simpl; lia|]).
  repeat match goal with
  | |- context [if ?b then _ else _] => destruct b eqn:?
  | |- context [Z.b2z ?b] => destruct b eqn:?; cbn [Z.b2z]
  end; simpl; lia.
Qed.

Lemma digits10_correct v : 0 <= v < 2 ^ 64 → ndig (digits10 v) v.
Proof.
  intros Hv. unfold digits10. destruct (decide (v < 1000000000000)) as [Hlt|Hge].
  - replace (digits10_go 2 v) with (digits10_go 1 v); [apply digits10_go_0; lia|].
    cbn [digits10_go]. by rewrite (proj2 (Z.ltb_lt _ _) Hlt).
  - assert (Hq : 1 <= v / 1000000000000 < 1000000000000) by div_lia.
    cbn [digits10_go]. repeat (if_false).
    destruct (digits10_go_0 (v / 1000000000000)) as [[_ ?]|[? Hr]]; [lia|lia|].
    cbn [digits10_go] in *.
    match type of Hr with context [10 ^ (?m - 1) <= _] => set (n := m) in * end.
    right. split; [lia|].
    replace (12 + n - 1) with ((n - 1) + 12) by lia.
    replace (12 + n) with (n + 12) by lia. rewrite !Z.pow_add_r by lia. simpl (10 ^ 12). div_lia.
Qed.

(** ** Printing *)

Lemma digits_table k :
  0 <= k < 100 →
  load8 digits (k * 2) = Some (48 + k / 10) ∧ load8 digits (k * 2 + 1) = Some (48 + k mod 10).
Proof.
  intros Hk.
  assert (Forall (λ k, load8 digits (k * 2) = Some (48 + k / 10) ∧
                       load8 digits (k * 2 + 1) = Some (48 + k mod 10)) (seqZ 0 100)) as H.
  { apply (bool_decide_unpack _). vm_compute. exact I. }
  rewrite Forall_forall in H. apply H, elem_of_seqZ. lia.
Qed.

(** The two stores of a digit pair, as the loop and the code after it do. *)
Lemma write_pair a w1 x y c k p n :
  0 <= k < 100 → p = len a → n = len w1 →
  (d1 ← load8 digits (k * 2 + 1);
   dst ← store8 (a ++ (w1 ++ [x; y]) ++ c) (p + (n + 1)) d1;
   d0 ← load8 digits (k * 2);
   store8 dst (p + n) d0) =
    Some (a ++ w1 ++ [48 + k / 10; 48 + k mod 10] ++ c).
Proof.
  intros Hk -> ->. destruct (digits_table k Hk) as [-> ->]. mstep.
  replace (a ++ (w1 ++ [x; y]) ++ c) with ((a ++ w1 ++ [x]) ++ y :: c)
    by (by rewrite <- !app_assoc).
  rewrite store8_app by len_lia. mstep.
  replace ((a ++ w1 ++ [x]) ++ _) with ((a ++ w1) ++ x :: u8 (48 + k mod 10) :: c)
    by (by rewrite <- !app_assoc).
  rewrite store8_app by len_lia. rewrite !wrapu_small by div_lia. by rewrite <- !app_assoc.
Qed.

Lemma dec_pair n v :
  0 <= v → dec (S (S n)) v = dec n (v / 100) ++ [48 + v mod 100 / 10; 48 + v mod 100 mod 10].
Proof.
  intros. cbn [dec]. rewrite <- app_assoc. rewrite Z.div_div by lia. change (10 * 10) with 100.
  assert ((v / 10) mod 10 = v mod 100 / 10) as -> by div_lia.
  by assert (v mod 10 = v mod 100 mod 10) as -> by div_lia.
Qed.

Lemma split_last2 (w : list Z) n :
  len w = n + 2 → 0 <= n → ∃ w1 x y, w = w1 ++ [x; y] ∧ len w1 = n.
Proof.
  intros Hw ?. destruct w as [|y w _] using rev_ind; [simpl in Hw; lia|].
  destruct w as [|x w _] using rev_ind; [simpl in Hw; lia|].
  exists w, x, y. rewrite <- app_assoc. split; [done|]. len_lia.
Qed.

Lemma ndig_div100 n v : ndig n v → 100 <= v → 3 <= n ∧ ndig (n - 2) (v / 100).
Proof.
  intros Hn Hv. destruct (ndig_ge1 _ _ Hn).
  destruct (ndig_div n v) as [? Hn1]; [lia..|done|].
  destruct (ndig_div (n - 1) (v / 10)) as [? Hn2]; [lia|div_lia|done|].
  split; [lia|]. rewrite Z.div_div in Hn2 by lia. by replace (n - 1 - 1) with (n - 2) in Hn2 by lia.
Qed.

Lemma ull_loop_spec fuel a w c next value :
  len w = next + 1 → ndig (next + 1) value → next < 2 ^ 31 → next < 2 * Z.of_nat fuel →
  ∃ w' c' next' value',
    ull_loop fuel (a ++ w ++ c) (len a) next value = Some (a ++ w' ++ c', next', value') ∧
    len w' = next' + 1 ∧ ndig (next' + 1) value' ∧ value' < 100 ∧
    dec (Z.to_nat (next' + 1)) value' ++ c' = dec (Z.to_nat (next + 1)) value ++ c.
Proof.
  revert w c next value. induction fuel as [|fuel IH]; intros w c next value Hw Hn ? ?.
  { destruct (ndig_ge1 _ _ Hn). lia. }
  cbn [ull_loop]. case_if; [|do 4 eexists; split; [done|]; split_and!; done || lia].
  destruct (ndig_div100 _ _ Hn E) as [? Hd]. destruct (ndig_ge1 _ _ Hn).
  destruct (split_last2 w (next - 1)) as (w1&x&y&->&Hw1); [lia..|].
  pose proof (write_pair a w1 x y c (value mod 100) (len a) (next - 1)) as Hp.
  replace (next - 1 + 1) with next in Hp by lia.
  rewrite !(wrapu_small 32) by lia.
  assert (0 <= value mod 100 < 100) by div_lia. specialize (Hp ltac:(lia) eq_refl ltac:(lia)).
  mrun Hp. rewrite Hp. mstep.
  destruct (IH w1 ([48 + value mod 100 / 10; 48 + value mod 100 mod 10] ++ c) (next - 2) (value / 100))
    as (w'&c'&next'&value'&->&?&?&?&Hdec);
    [lia|by replace (next - 2 + 1) with (next + 1 - 2) by lia|lia..|].
  do 4 eexists. split; [done|]. split_and!; [done..|]. rewrite Hdec.
  replace (Z.to_nat (next + 1)) with (S (S (Z.to_nat (next - 2 + 1)))) by lia.
  rewrite dec_pair by lia. by rewrite <- app_assoc.
Qed.

(** The code after the loop writes the last one or two digits. *)
Lemma ull_last a w c next value :
  len w = next + 1 → ndig (next + 1) value → next < 2 ^ 31 → value < 100 →
  (if value <? 10 then store8 (a ++ w ++ c) (len a + next) (48 + value)
   else
     d1 ← load8 digits (value * 2 + 1);
     dst ← store8 (a ++ w ++ c) (len a + next) d1;
     d0 ← load8 digits (value * 2);
     store8 dst (len a + u32 (next - 1)) d0) =
    Some (a ++ dec (Z.to_nat (next + 1)) value ++ c).
Proof.
  intros Hw Hn ? ?. destruct (ndig_ge1 _ _ Hn). case_if.
  - apply ndig_small in Hn; [|done]. assert (next = 0) as -> by lia.
    destruct w as [|x [|? ?]]; try (simpl in Hw; lia).
    rewrite Z.add_0_r. cbn [app]. rewrite store8_app, wrapu_small by lia.
    replace (Z.to_nat (0 + 1)) with 1%nat by done. cbn [dec app].
    by rewrite Z.mod_small by lia.
  - destruct (ndig_div (next + 1) value) as [? Hd]; [lia..|done|].
    apply ndig_small in Hd; [|div_lia]. assert (next = 1) as -> by lia.
    destruct (split_last2 w 0) as (w1&x&y&->&Hw1); [lia..|].
    destruct w1; [|simpl in Hw1; lia].
    pose proof (write_pair a [] x y c value (len a) 0 ltac:(lia) eq_refl eq_refl) as Hp.
    rewrite (wrapu_small 32 (1 - 1)) by lia. cbn [app] in Hp |- *.
    change (0 + 1) with 1 in Hp. change (1 - 1) with 0. mrun Hp. rewrite Hp.
    replace (Z.to_nat (1 + 1)) with 2%nat by done. rewrite dec_pair by lia.
    cbn [dec app]. by rewrite (Z.mod_small value 100) by lia.
Qed.

Lemma ndig_u64 n v : ndig n v → v < 2 ^ 64 → n <= 20.
Proof.
  intros [[-> _]|[? [Hr _]]] ?; [lia|]. destruct (Z.le_gt_cases n 20); [done|].
  assert (10 ^ 20 <= 10 ^ (n - 1)) by (apply Z.pow_le_mono_r; lia). lia.
Qed.

Lemma ull2string_ok a w z c dstlen value :
  0 <= value < 2 ^ 64 → len w = digits10 value → digits10 value < dstlen →
  ull2string (a ++ w ++ z :: c) (len a) dstlen value =
    Some (a ++ dec_u value ++ 0 :: c, digits10 value).
Proof.
  intros Hv Hw Hd. pose proof (digits10_correct value Hv) as Hn.
  destruct (ndig_ge1 _ _ Hn). pose proof (ndig_u64 _ _ Hn ltac:(lia)).
  unfold ull2string. if_false. rewrite !(wrapu_small 32) by (rewrite ?wrapu_small; lia).
  replace (digits10 value - 1 + 1) with (digits10 value) by lia.
  rewrite app_assoc, store8_app by len_lia. mstep. rewrite <- app_assoc. change (u8 0) with 0.
  destruct (ull_loop_spec 11 a w (0 :: c) (digits10 value - 1) value)
    as (w'&c'&next'&value'&->&Hw'&Hn'&?&Hdec); [lia|by rewrite Z.sub_add|lia..|].
  mstep. rewrite Z.sub_add, <- (dec_u_dec (digits10 value)) in Hdec by done. rewrite <- Hdec.
  assert (next' < 2 ^ 31).
  { destruct Hn' as [[? _]|[_ Hr]]; [lia|]. destruct (Z.le_gt_cases next' 2); [lia|].
    assert (10 ^ 3 <= 10 ^ (next' + 1 - 1)) by (apply Z.pow_le_mono_r; lia). lia. }
  pose proof (ull_last a w' c' next' value' Hw' Hn' ltac:(lia) ltac:(lia)) as Hl.
  case_if; [by rewrite Hl|]. mrun Hl. by rewrite Hl.
Qed.

Lemma ull2string_small dst p dstlen value :
  dstlen <= digits10 value → ull2string dst p dstlen value = Some (dst, 0).
Proof. intros. unfold ull2string. by if_true. Qed.

Lemma length_dec_u v : 0 <= v < 2 ^ 64 → len (dec_u v) = digits10 v.
Proof.
  intros Hv. pose proof (digits10_correct v Hv) as Hn. destruct (ndig_ge1 _ _ Hn).
  rewrite (dec_u_dec _ _ Hn). len_lia.
Qed.

(** [sdigits10] counts the characters of the notation. *)
Lemma sdigits10_correct v : LLONG_MIN <= v <= LLONG_MAX → sdigits10 v = len (dec_string v).
Proof.
  unfold sdigits10, dec_string, LLONG_MIN, LLONG_MAX. intros Hv. case_if.
  - replace (if negb _ then _ else _) with (- v); [|case_if; rewrite wrapu_small; lia].
    cbn [length]. rewrite <- length_dec_u by lia. lia.
  - by rewrite length_dec_u by lia.
Qed.

Lemma ull2string_buf a rest dstlen value :
  0 <= value < 2 ^ 64 → dstlen <= len rest →
  ull2string (a ++ rest) (len a) dstlen value =
    if len (dec_u value) <? dstlen
    then Some (a ++ dec_u value ++ 0 :: drop (S (length (dec_u value))) rest, len (dec_u value))
    else Some (a ++ rest, 0).
Proof.
  intros Hv Hl. pose proof (length_dec_u value Hv) as Hd. case_if.
  - set (n := length (dec_u value)) in *.
    destruct (rest !! n) as [z|] eqn:Hz; [|apply lookup_ge_None in Hz; lia].
    rewrite <- (take_drop_middle _ _ _ Hz) at 1.
    rewrite ull2string_ok by len_lia. by rewrite Hd.
  - apply ull2string_small. lia.
Qed.

Lemma ll2string_spec dst dstlen v :
  LLONG_MIN <= v <= LLONG_MAX → 0 <= dstlen <= len dst →
  if len (dec_string v) <? dstlen
  then ll2string dst dstlen v =
         Some (dec_string v ++ 0 :: drop (S (length (dec_string v))) dst, len (dec_string v))
  else ∃ dst', ll2string dst dstlen v = Some (dst', 0) ∧ drop 1 dst' = drop 1 dst.
Proof.
  unfold LLONG_MIN, LLONG_MAX, dec_string. intros Hv Hl.
  assert (Hpos : ∀ u, 0 <= u < 2 ^ 64 → 1 <= len (dec_u u)).
  { intros u Hu. rewrite length_dec_u by done. by eapply ndig_ge1, digits10_correct. }
  unfold ll2string, LLONG_MIN, LLONG_MAX. destruct (v <? 0) eqn:Hneg.
  - replace (if negb _ then _ else _) with (- v); [|case_if; rewrite wrapu_small; lia].
    specialize (Hpos (- v) ltac:(lia)). cbn [length].
    destruct (dstlen <? 2) eqn:H2; [if_false; by eauto|].
    destruct dst as [|d dst]; [simpl in Hl; lia|]. cbn [length] in Hl.
    rewrite (store8_app [] d 45 dst) by done. mstep.
    pose proof (ull2string_buf [45] dst (dstlen - 1) (- v) ltac:(lia) ltac:(lia)) as Hu.
    cbn [app length] in Hu |- *. change (Z.of_nat 1) with 1 in Hu.
    change (u8 45) with 45. rewrite Hu.
    destruct (_ <? dstlen) eqn:E.
    + if_true. mstep. if_false. do 2 f_equal. lia.
    + if_false. mstep. eauto.
  - specialize (Hpos v ltac:(lia)). rewrite wrapu_small by lia.
    pose proof (ull2string_buf [] dst dstlen v ltac:(lia) ltac:(lia)) as Hu.
    cbn [app length] in Hu. change (Z.of_nat 0) with 0 in Hu. rewrite Hu.
    destruct (_ <? dstlen) eqn:E; mstep; [|eauto].
    if_false. by rewrite Z.add_0_r.
Qed.

(** ** Parsing *)

(** The value of a digit string read after the digits of [acc]. *)
Definition dec_val (acc : Z) (s : list Z) : Z := foldl (λ v c, v * 10 + (c - 48)) acc s.

Definition digit (c : Z) : Prop := 48 <= c <= 57.

Lemma is_digit_spec c : is_digit c = true ↔ digit c.
Proof. unfold is_digit, digit. lia. Qed.

Lemma dec_val_app acc s t : dec_val acc (s ++ t) = dec_val (dec_val acc s) t.
Proof. apply foldl_app. Qed.

Lemma dec_val_mono acc s : 0 <= acc → Forall digit s → acc <= dec_val acc s.
Proof.
  intros Ha Hs. revert acc Ha. induction Hs as [|c s Hc _ IH]; intros acc Ha; simpl; [lia|].
  unfold digit in Hc. specialize (IH (acc * 10 + (c - 48)) ltac:(lia)). unfold dec_val in *. lia.
Qed.

Lemma parse_digits_spec a rest v :
  0 <= v <= ULLONG_MAX →
  ∃ r, parse_digits (length rest) (a ++ rest) (len a) v = Some r ∧
    ∀ plen' v', (r = Some (plen', v') ∧ len (a ++ rest) <= plen') ↔
      (Forall digit rest ∧ v' = dec_val v rest ∧ v' <= ULLONG_MAX ∧ plen' = len (a ++ rest)).
Proof.
  revert a v. induction rest as [|c rest IH]; intros a v Hv.
  { eexists. split; [done|]. intros plen' v'. rewrite app_nil_r. cbn [dec_val foldl]. split.
    - intros [[= -> ->] _]. split_and!; done || lia.
    - intros (_&->&_&->). done. }
  cbn [length parse_digits]. rewrite load8_app by done. mstep.
  assert (Hfail : ∀ p, p < len (a ++ c :: rest) → ¬ digit c →
    ∃ r, Some (Some (p, v)) = Some r ∧
    ∀ plen' v', (r = Some (plen', v') ∧ len (a ++ c :: rest) <= plen') ↔
      (Forall digit (c :: rest) ∧ v' = dec_val v (c :: rest) ∧ v' <= ULLONG_MAX ∧
       plen' = len (a ++ c :: rest))).
  { intros p Hp Hc. eexists. split; [done|]. intros plen' v'. split; [|by intros ([? _]%Forall_cons&_)].
    intros [[= -> ->] ?]. lia. }
  assert (Hover : digit c → ULLONG_MAX < v * 10 + (c - 48) →
    ∃ r, @Some (option (Z * Z)) None = Some r ∧
    ∀ plen' v', (r = Some (plen', v') ∧ len (a ++ c :: rest) <= plen') ↔
      (Forall digit (c :: rest) ∧ v' = dec_val v (c :: rest) ∧ v' <= ULLONG_MAX ∧
       plen' = len (a ++ c :: rest))).
  { intros Hc Ho. eexists. split; [done|]. intros plen' v'. split; [by intros [? _]|].
    intros ([_ Hr]%Forall_cons&->&Hle&_). unfold digit in Hc.
    pose proof (dec_val_mono (v * 10 + (c - 48)) rest ltac:(lia) Hr). simpl in Hle. lia. }
  destruct (is_digit c) eqn:Ec.
  2:{ apply Hfail; [len_lia|]. rewrite <- is_digit_spec. congruence. }
  apply is_digit_spec in Ec. unfold digit, ULLONG_MAX in *.
  case_if; [apply Hover; div_lia|]. rewrite (wrapu_small 64 (v * 10)) by div_lia.
  case_if; [apply Hover; lia|]. rewrite wrapu_small by lia.
  destruct (IH (a ++ [c]) (v * 10 + (c - 48)) ltac:(lia)) as (r&Hr&Hiff).
  rewrite <- app_assoc, length_app in Hr. cbn [length app] in Hr.
  replace (Z.of_nat (length a + 1)) with (len a + 1) in Hr by lia.
  exists r. split; [done|]. intros plen' v'. rewrite <- app_assoc in Hiff. cbn [app] in Hiff.
  rewrite Hiff, Forall_cons. cbn [dec_val foldl]. unfold digit. tauto.
Qed.

(** A canonical unsigned number: "0", or digits without a leading zero. *)
Definition canonical (ds : list Z) : Prop :=
  ds = [48] ∨ ∃ c rest, ds = c :: rest ∧ 49 <= c <= 57 ∧ Forall digit rest.

Lemma dec_val_dec acc n v :
  0 <= v → dec_val acc (dec n v) = acc * 10 ^ Z.of_nat n + v mod 10 ^ Z.of_nat n.
Proof.
  revert v. induction n as [|n IH]; intros v Hv; cbn [dec].
  { simpl. rewrite Z.mod_1_r. lia. }
  rewrite dec_val_app, IH by div_lia. cbn [dec_val foldl].
  rewrite Nat2Z.inj_succ, Z.pow_succ_r by lia. rewrite Z.rem_mul_r by lia. lia.
Qed.

Lemma dec_digits n v : Forall digit (dec n v).
Proof.
  revert v; induction n; intros; cbn [dec]; [constructor|]. rewrite Forall_app. split; [done|].
  constructor; [|done]. unfold digit. div_lia.
Qed.

Lemma dec_dec_val acc ds :
  Forall digit ds → dec (length ds) (dec_val acc ds) = ds.
Proof.
  induction ds as [|c ds IH] using rev_ind; intros Hd; [done|].
  apply Forall_app in Hd as [Hd [Hc _]%Forall_cons]. unfold digit in Hc.
  rewrite length_app, Nat.add_comm. cbn [length Nat.add dec].
  rewrite dec_val_app. cbn [dec_val foldl].
  fold (dec_val acc ds). assert ((dec_val acc ds * 10 + (c - 48)) / 10 = dec_val acc ds) as ->
    by div_lia. rewrite IH by done. do 2 f_equal. div_lia.
Qed.

Lemma dec_val_bounds acc ds :
  0 <= acc → Forall digit ds →
  acc * 10 ^ len ds <= dec_val acc ds < (acc + 1) * 10 ^ len ds.
Proof.
  intros Ha Hd. induction ds as [|c ds IH] using rev_ind; [simpl; lia|].
  apply Forall_app in Hd as [Hd [Hc _]%Forall_cons]. unfold digit in Hc.
  specialize (IH Hd). rewrite dec_val_app, length_app, Nat2Z.inj_add, Z.pow_add_r by lia.
  cbn [dec_val foldl length]. fold (dec_val acc ds). change (10 ^ Z.of_nat 1) with 10. lia.
Qed.

Lemma canonical_dec_u ds : canonical ds → dec_u (dec_val 0 ds) = ds.
Proof.
  intros [->|(c&rest&->&Hc&Hr)]; [done|].
  assert (Hd : Forall digit (c :: rest)) by (constructor; [unfold digit; lia|done]).
  rewrite <- (dec_dec_val 0 (c :: rest) Hd) at 2.
  rewrite (dec_u_dec (len (c :: rest))); [by rewrite Nat2Z.id|].
  right. split; [simpl; lia|]. cbn [dec_val foldl].
  pose proof (dec_val_bounds (0 * 10 + (c - 48)) rest ltac:(lia) Hr) as Hb.
  cbn [length]. rewrite Nat2Z.inj_succ, Z.pow_succ_r by lia.
  replace (Z.succ (len rest) - 1) with (len rest) by lia. unfold dec_val in *. nia.
Qed.

Lemma dec_u_canonical v : 0 <= v < 2 ^ 64 → canonical (dec_u v) ∧ dec_val 0 (dec_u v) = v.
Proof.
  intros Hv. pose proof (digits10_correct v Hv) as Hn. destruct (ndig_ge1 _ _ Hn).
  rewrite (dec_u_dec _ _ Hn). split.
  2:{ rewrite dec_val_dec by lia. rewrite Z2Nat.id, Z.mod_small by lia. lia. }
  destruct Hn as [[-> ->]|[_ Hr]]; [by left|right].
  assert (∃ n, Z.to_nat (digits10 v) = S n) as [n Hn] by (exists (Z.to_nat (digits10 v - 1)); lia).
  rewrite Hn. assert (Hn' : Z.of_nat (S n) = digits10 v) by lia.
  pose proof (dec_digits (S n) v) as Hd. pose proof (length_dec (S n) v) as Hl.
  pose proof (dec_val_dec 0 (S n) v ltac:(lia)) as Hval.
  rewrite Hn', Z.mod_small in Hval by lia.
  destruct (dec (S n) v) as [|c rest]; [done|]. exists c, rest. split; [done|].
  apply Forall_cons in Hd as [Hc Hd]. split; [|done].
  destruct (decide (c = 48)) as [->|]; [|unfold digit in Hc; lia].
  pose proof (dec_val_bounds 0 rest ltac:(lia) Hd) as Hb. cbn [dec_val foldl] in Hval.
  change (0 * 10 + (48 - 48)) with 0 in Hval. simpl in Hl. unfold dec_val in *.
  replace (len rest) with (digits10 v - 1) in Hb by lia. lia.
Qed.

Lemma dec_string_neg v : v < 0 → dec_string v = 45 :: dec_u (- v).
Proof. intros. unfold dec_string. by if_true. Qed.

Lemma dec_string_nonneg v : 0 <= v → dec_string v = dec_u v.
Proof. intros. unfold dec_string. by if_false. Qed.

(** The notation of a 64-bit number fits the 20 characters [string2ll] reads. *)
Lemma length_dec_string v :
  LLONG_MIN <= v <= LLONG_MAX → 1 <= len (dec_string v) < LONG_STR_SIZE.
Proof.
  unfold LLONG_MIN, LLONG_MAX, LONG_STR_SIZE. intros Hv.
  assert (H : ∀ u, 0 <= u <= 2 ^ 63 → 1 <= len (dec_u u) <= 19).
  { intros u Hu. rewrite length_dec_u by lia.
    pose proof (digits10_correct u ltac:(lia)) as Hn. destruct (ndig_ge1 _ _ Hn).
    split; [done|]. destruct Hn as [[? _]|[_ [Hr _]]]; [lia|].
    destruct (Z.le_gt_cases (digits10 u) 19); [done|].
    assert (10 ^ 19 <= 10 ^ (digits10 u - 1)) by (apply Z.pow_le_mono_r; lia). lia. }
  destruct (decide (v < 0)).
  - rewrite dec_string_neg by done. cbn [length]. specialize (H (- v) ltac:(lia)). lia.
  - rewrite dec_string_nonneg by lia. specialize (H v ltac:(lia)). lia.
Qed.

(** A digit string that starts with a non-zero digit denotes [v] iff it is
    the notation of [v]. *)
Lemma dec_u_iff c rest v :
  49 <= c <= 57 → 0 <= v < 2 ^ 64 →
  c :: rest = dec_u v ↔ Forall digit rest ∧ v = dec_val (c - 48) rest.
Proof.
  intros Hc Hv. split.
  - intros E. destruct (dec_u_canonical v Hv) as [Hcan Hval]. rewrite <- E in Hcan, Hval.
    destruct Hcan as [[= -> _]|(c'&rest'&[= <- <-]&_&Hd)]; [lia|]. split; [done|].
    rewrite <- Hval. cbn [dec_val foldl]. f_equal.
  - intros [Hd ->]. symmetry.
    replace (dec_val (c - 48) rest) with (dec_val 0 (c :: rest)) by done.
    apply canonical_dec_u. right. eauto.
Qed.

(** The head of a notation, apart from "0". *)
Lemma dec_u_head v :
  1 <= v < 2 ^ 64 → ∃ c rest, dec_u v = c :: rest ∧ 49 <= c <= 57.
Proof.
  intros Hv. destruct (dec_u_canonical v ltac:(lia)) as [[E|(c&rest&E&?&_)] Hval]; [|eauto].
  rewrite E in Hval. simpl in Hval. lia.
Qed.

(** The part of [string2ll] after the sign, on a leading digit 1-9. *)
Lemma string2ll_tail (negative : bool) pre c rest :
  49 <= c <= 57 →
  ∃ r, (r ← parse_digits (length rest) (pre ++ c :: rest) (len pre + 1) (c - 48);
        match r with
        | None => Some None
        | Some (plen, v) =>
          if plen <? len (pre ++ c :: rest) then Some None
          else if negative then
            if v >? u64 (u64 (- (LLONG_MIN + 1)) + 1) then Some None
            else Some (Some (s64 (u64 (- v))))
          else if v >? LLONG_MAX then Some None else Some (Some v)
        end) = Some r ∧
    ∀ v, r = Some v ↔
      LLONG_MIN <= v <= LLONG_MAX ∧ (if negative then v < 0 else 0 <= v) ∧
      c :: rest = dec_u (if negative then - v else v).
Proof.
  intros Hc. unfold LLONG_MIN, LLONG_MAX.
  destruct (parse_digits_spec (pre ++ [c]) rest (c - 48)) as (r&Hr&Hiff); [unfold ULLONG_MAX; lia|].
  rewrite <- app_assoc in Hr, Hiff. rewrite length_app in Hr. cbn [app length] in Hr, Hiff.
  replace (Z.of_nat (length pre + 1)) with (len pre + 1) in Hr by lia. rewrite Hr. mstep.
  assert (Hu : ∀ v, 0 <= v <= 2 ^ 63 → c :: rest = dec_u v ↔ ∃ plen, r = Some (plen, v) ∧
    len (pre ++ c :: rest) <= plen).
  { intros v Hv. rewrite dec_u_iff by lia. split.
    - intros [Hd Hval]. exists (len (pre ++ c :: rest)). apply Hiff. unfold ULLONG_MAX. naive_solver lia.
    - intros (plen&Hx). apply Hiff in Hx as (?&?&?). done. }
  destruct r as [[plen w]|].
  2:{ eexists. split; [done|]. intros v. split; [done|]. intros (?&?&E).
      apply Hu in E as (?&?&_); [done|]. destruct negative; lia. }
  case_if.
  { eexists. split; [done|]. intros v. split; [done|]. intros (?&?&E').
    apply Hu in E' as (?&[= -> ->]&?); [lia|]. destruct negative; lia. }
  assert (Hw : Forall digit rest ∧ w = dec_val (c - 48) rest ∧ w <= ULLONG_MAX ∧
     plen = len (pre ++ c :: rest)) by (apply Hiff; split; [done|lia]).
  destruct Hw as (Hd&Hw&_&_). pose proof (dec_val_mono (c - 48) rest ltac:(lia) Hd).
  destruct negative.
  - change (u64 (u64 (- (- 2 ^ 63 + 1)) + 1)) with (2 ^ 63). case_if.
    + eexists. split; [done|]. intros v. split; [done|]. intros (?&?&E').
      apply Hu in E' as (?&[= -> ->]&?); lia.
    + assert (s64 (u64 (- w)) = - w) as ->.
      { unfold wrapu. rewrite wraps_mod by lia. apply s64_small. lia. }
      eexists. split; [done|]. intros v. split.
      * intros [= <-]. split_and!; try lia. apply Hu; [lia|]. exists plen.
        rewrite Z.opp_involutive. split; [done|lia].
      * intros (?&?&E'). apply Hu in E' as (?&[= -> ->]&?); [f_equal|]; lia.
  - case_if.
    + eexists. split; [done|]. intros v. split; [done|]. intros (?&?&E').
      apply Hu in E' as (?&[= -> ->]&?); lia.
    + eexists. split; [done|]. intros v. split.
      * intros [= <-]. split_and!; try lia. apply Hu; [lia|]. eauto with lia.
      * intros (?&?&E'). apply Hu in E' as (?&[= -> ->]&?); [f_equal|]; lia.
Qed.

(** A notation with and without a leading minus. *)
Lemma dec_string_minus t v :
  LLONG_MIN <= v <= LLONG_MAX → 45 :: t = dec_string v ↔ v < 0 ∧ t = dec_u (- v).
Proof.
  unfold LLONG_MIN, LLONG_MAX. intros Hv. destruct (decide (v < 0)).
  - rewrite dec_string_neg by done. naive_solver.
  - rewrite dec_string_nonneg by lia. split; [|lia]. intros E.
    destruct (decide (v = 0)) as [->|]; [by vm_compute in E|].
    destruct (dec_u_head v) as (c&rest&E'&?); [lia|]. rewrite E' in E. injection E. lia.
Qed.

Lemma dec_string_plus c t v :
  c ≠ 45 → c :: t = dec_string v ↔ 0 <= v ∧ c :: t = dec_u v.
Proof.
  intros Hc. destruct (decide (v < 0)).
  - rewrite dec_string_neg by done. split; [congruence|lia].
  - rewrite dec_string_nonneg by lia. intuition lia.
Qed.

(** What [string2ll] accepts is exactly the decimal notation of the [long
    long] values, and the value it returns is the one denoted. *)
Lemma string2ll_spec s :
  ∃ r, string2ll s (len s) = Some r ∧
    ∀ v, r = Some v ↔ LLONG_MIN <= v <= LLONG_MAX ∧ s = dec_string v.
Proof.
  assert (Hno : (∀ v, LLONG_MIN <= v <= LLONG_MAX → s ≠ dec_string v) →
    ∃ r : option Z, Some None = Some r ∧
    ∀ v, r = Some v ↔ LLONG_MIN <= v <= LLONG_MAX ∧ s = dec_string v).
  { intros Hn. exists None. split; [done|]. intros v. split; [done|]. intros [? ?]. by edestruct Hn. }
  unfold string2ll. case_if.
  { apply Hno. intros v Hv ->. pose proof (length_dec_string v Hv). lia. }
  destruct s as [|c t]; [simpl in *; lia|]. rewrite (load8_app [] c t) by done. mstep.
  destruct ((len (c :: t) =? 1) && (c =? 48)) eqn:E0.
  { assert (t = []) as -> by (destruct t; [done|cbn [length] in E0; lia]).
    assert (c = 48) as -> by lia. eexists. split; [done|]. intros v. split.
    { intros [= <-]. split; [done|by vm_compute]. }
    intros [Hv [? E1]%dec_string_plus]; [|done]. unfold LLONG_MAX in Hv.
    destruct (decide (v = 0)) as [->|]; [done|].
    destruct (dec_u_head v) as (c&rest&E2&?); [lia|]. rewrite E2 in E1. injection E1. lia. }
  destruct (c =? 45) eqn:E1.
  - assert (c = 45) as -> by lia. cbn [andb].
    assert (Hhd : ∀ v, LLONG_MIN <= v <= LLONG_MAX → 45 :: t = dec_string v →
      ∃ d rest, t = d :: rest ∧ 49 <= d <= 57).
    { intros v Hv [? ->]%dec_string_minus; [|done]. unfold LLONG_MIN in Hv.
      apply dec_u_head. lia. }
    destruct t as [|d rest]; [apply Hno; by intros v Hv (?&?&?&_)%Hhd|].
    if_false. rewrite (load8_app [45] d rest) by done. mstep.
    case_if; [|apply Hno; intros v Hv (?&?&[= <- <-]&?)%Hhd; [lia|done]].
    destruct (string2ll_tail true [45] d rest) as (r&Hr&Hiff); [lia|].
    replace (Z.to_nat _) with (length rest) by (simpl; lia). cbn [app] in Hr.
    exists r. split; [exact Hr|]. intros v. rewrite Hiff. split.
    + intros (?&?&?). by rewrite dec_string_minus.
    + intros [? E2]. by rewrite dec_string_minus in E2.
  - cbn [andb]. rewrite (load8_app [] c t) by done. mstep. case_if.
    + destruct (string2ll_tail false [] c t) as (r&Hr&Hiff); [lia|].
      replace (Z.to_nat _) with (length t) by (simpl; lia). cbn [app] in Hr.
      exists r. split; [exact Hr|]. intros v. rewrite Hiff, dec_string_plus by lia. done.
    + apply Hno. intros v Hv [? E2]%dec_string_plus; [|lia]. unfold LLONG_MAX in Hv.
      destruct (dec_u_canonical v) as [[E3|(?&?&E3&?&_)] _]; [lia| |];
        rewrite E3 in E2; simplify_eq; cbn [length] in E0; lia.
Qed.

(** ** Properties *)

(** Ll2string writes the decimal notation of any [long long] and a NUL, and
    returns its length, whenever it fits the buffer; otherwise it returns 0 and
    touches at most the first byte.  No access is out of bounds. *)
Theorem ll2string_correct dst dstlen v :
  LLONG_MIN <= v <= LLONG_MAX → 0 <= dstlen <= len dst →
  if len (dec_string v) <? dstlen
  then ll2string dst dstlen v =
         Some (dec_string v ++ 0 :: drop (S (length (dec_string v))) dst, len (dec_string v))
  else ∃ dst', ll2string dst dstlen v = Some (dst', 0) ∧ drop 1 dst' = drop 1 dst.
Proof. apply ll2string_spec. Qed.

Lemma ll2string_correct_witness :
  LLONG_MIN <= -120 <= LLONG_MAX ∧
  ll2string (replicate 8 7) 8 (-120) = Some ([45; 49; 50; 48; 0; 7; 7; 7], 4).
Proof.
  split; [done|]. apply (ll2string_correct (replicate 8 7) 8 (-120)); [done|simpl; lia].
Defined.

(** C19: string2ll accepts exactly the decimal notations of the [long long]
    values and returns the value denoted, so that the string can be obtained
    back from the number without loss. *)
Theorem string2ll_correct s :
  ∃ r, string2ll s (len s) = Some r ∧
    ∀ v, r = Some v ↔ LLONG_MIN <= v <= LLONG_MAX ∧ s = dec_string v.
Proof. apply string2ll_spec. Qed.

(** What ll2string prints, string2ll parses back to the same number. *)
Theorem string2ll_ll2string v dst dstlen :
  LLONG_MIN <= v <= LLONG_MAX → LONG_STR_SIZE <= dstlen <= len dst →
  ∃ dst' n, ll2string dst dstlen v = Some (dst', n) ∧
    string2ll (take (Z.to_nat n) dst') n = Some (Some v).
Proof.
  intros Hv Hl. pose proof (length_dec_string v Hv) as Hn. unfold LONG_STR_SIZE in *.
  pose proof (ll2string_spec dst dstlen v Hv ltac:(lia)) as Hp.
  replace (_ <? _) with true in Hp by lia. do 2 eexists. split; [exact Hp|].
  rewrite Nat2Z.id, take_app_length.
  destruct (string2ll_spec (dec_string v)) as (r&->&Hiff). f_equal. by apply Hiff.
Qed.

Lemma string2ll_ll2string_witness :
  ∃ dst' n, ll2string (replicate 21 0) 21 LLONG_MIN = Some (dst', n) ∧
    string2ll (take (Z.to_nat n) dst') n = Some (Some LLONG_MIN).
Proof. apply (string2ll_ll2string LLONG_MIN (replicate 21 0) 21); [done|simpl; done]. Defined.
