(* ===== verification/UtilText.v ===== *)
(** Lenient number parsing of src/redis-7.0.0/src/util.c: string2ull and
    memtoull, which fall back on the C library's strtoull.

    A NUL-terminated string is the list of its bytes without the NUL, so
    reading at its end reads 0. *)
From Stdlib Require Import String.
From S2P Require Import Prelude UtilNum.

(** [isspace] and [tolower] of the C locale. *)
Definition isspace (c : Z) : bool := (c =? 32) || ((9 <=? c) && (c <=? 13)).
Definition tolower (c : Z) : Z := if (65 <=? c) && (c <=? 90) then c + 32 else c.

Fixpoint drop_while (f : Z → bool) (s : list Z) : list Z :=
  match s with
  | [] => []
  | c :: s' => if f c then drop_while f s' else s
  end.

Fixpoint take_while (f : Z → bool) (s : list Z) : list Z :=
  match s with
  | [] => []
  | c :: s' => if f c then c :: take_while f s' else []
  end.

(** [strtoull(s, &endptr, 10)] of the C standard library: the value, what
    [endptr] points at, and whether [errno] is ERANGE. *)
Definition strtoull (s : list Z) : Z * list Z * bool :=
  let body := drop_while isspace s in
  let negative := bool_decide (head body = Some 45) in
  let num := if negative || bool_decide (head body = Some 43) then tail body else body in
  let ds := take_while is_digit num in
  match ds with
  | [] => (0, s, false)
  | _ =>
    let v := dec_val 0 ds in
    let rest := drop_while is_digit num in
    if v >? ULLONG_MAX then (ULLONG_MAX, rest, true)
    else (if negative then u64 (- v) else v, rest, false)
  end.

(** [Some v] is the return value 1 with [*value = v].  [strtoull] leaves
    [*endptr] non-NUL or the string empty whenever it reports EINVAL, so that
    test adds nothing to the others. *)
Definition string2ull (s : list Z) : option (option Z) :=
  r ← string2ll s (len s);
  match r with
  | Some ll => Some (if ll <? 0 then None else Some ll)
  | None =>
    let '(value, endptr, erange) := strtoull s in
    Some (if erange || negb (negb (bool_decide (s = [])) && bool_decide (endptr = []))
          then None else Some value)
  end.

(** [!strcasecmp(u, unit)] *)
Definition strcaseeq (u : list Z) (unit : string) : bool :=
  bool_decide (tolower <$> u = bytes_of unit).

(** The unit multiplier, [None] for an unknown unit. *)
Definition unit_mul (u : list Z) : option Z :=
  if bool_decide (u = []) || strcaseeq u "b" then Some 1
  else if strcaseeq u "k" then Some 1000
  else if strcaseeq u "kb" then Some 1024
  else if strcaseeq u "m" then Some (1000 * 1000)
  else if strcaseeq u "mb" then Some (1024 * 1024)
  else if strcaseeq u "g" then Some (1000 * 1000 * 1000)
  else if strcaseeq u "gb" then Some (1024 * 1024 * 1024)
  else None.

(** The value and [*err].  [einval] says whether the C library sets EINVAL
    when there is no digit to convert, which the C standard leaves open. *)
Definition memtoull (einval : bool) (p : list Z) : Z * bool :=
  if bool_decide (head p = Some 45) then (0, true)
  else
    let ds := take_while is_digit p in
    let u := drop_while is_digit p in
    match unit_mul u with
    | None => (0, true)
    | Some mul =>
      if len ds >=? 128 then (0, true)
      else
        let '(val, endptr, _) := strtoull ds in
        let eno := einval && bool_decide (ds = []) in
        if ((val =? 0) && eno) || negb (bool_decide (endptr = [])) then (0, true)
        else (u64 (val * mul), false)
    end.

(** ** Lemmas *)

(** [rest] does not continue a digit string. *)
Definition ends_digits (rest : list Z) : Prop :=
  match rest with [] => True | c :: _ => is_digit c = false end.

Lemma take_drop_digits ds rest :
  Forall digit ds → ends_digits rest →
  take_while is_digit (ds ++ rest) = ds ∧ drop_while is_digit (ds ++ rest) = rest.
Proof.
  intros Hd Hr. induction Hd as [|c ds Hc _ IH]; simpl.
  - destruct rest as [|c rest]; simpl in *; [done|]. by rewrite Hr.
  - apply is_digit_spec in Hc. rewrite Hc. by destruct IH as [-> ->].
Qed.

Lemma digit_not_space c : digit c → isspace c = false.
Proof. unfold digit, isspace. lia. Qed.

(** [strtoull] on a digit string reads all of it and saturates. *)
Lemma strtoull_digits ds :
  ds ≠ [] → Forall digit ds →
  strtoull ds = (Z.min (dec_val 0 ds) ULLONG_MAX, [], dec_val 0 ds >? ULLONG_MAX).
Proof.
  intros Hne Hd. unfold strtoull.
  destruct ds as [|c ds]; [done|]. apply Forall_cons in Hd as Hd'. destruct Hd' as [Hc _].
  cbn [drop_while]. rewrite digit_not_space by done. unfold digit in Hc. cbn [head].
  rewrite !bool_decide_eq_false_2 by (intros [= ?]; lia). cbn [orb].
  destruct (take_drop_digits (c :: ds) [] Hd I) as [Ht Hr]. rewrite app_nil_r in Ht, Hr.
  rewrite Ht, Hr. case_if; repeat f_equal; lia.
Qed.

Lemma dec_u_digits v : 0 <= v < 2 ^ 64 → dec_u v ≠ [] ∧ Forall digit (dec_u v).
Proof.
  intros Hv. destruct (dec_u_canonical v Hv) as [[->|(c&rest&->&?&?)] _].
  - split; [done|]. by repeat constructor.
  - split; [done|]. constructor; [unfold digit; lia|done].
Qed.

(** [strtoull] after a minus sign negates modulo 2^64. *)
Lemma strtoull_minus ds :
  ds ≠ [] → Forall digit ds → dec_val 0 ds <= ULLONG_MAX →
  strtoull (45 :: ds) = (u64 (- dec_val 0 ds), [], false).
Proof.
  intros Hne Hd Hv. unfold strtoull. change (drop_while isspace (45 :: ds)) with (45 :: ds).
  destruct (take_drop_digits ds [] Hd I) as [Ht Hr]. rewrite app_nil_r in Ht, Hr.
  cbn [head tail]. rewrite bool_decide_eq_true_2 by done. cbn [orb].
  rewrite Ht, Hr. destruct ds as [|c ds]; [done|]. by if_false.
Qed.

(** ** Properties *)

(** String2ull reads every 64-bit unsigned number back from its notation,
    also those above LLONG_MAX that string2ll refuses. *)
Theorem string2ull_correct v :
  0 <= v <= ULLONG_MAX → string2ull (dec_u v) = Some (Some v).
Proof.
  unfold ULLONG_MAX. intros Hv. unfold string2ull.
  destruct (string2ll_spec (dec_u v)) as ([r|]&->&Hiff); mstep.
  - destruct (Hiff r) as [Hr _]. destruct (Hr eq_refl) as [? E]. unfold LLONG_MIN in *.
    destruct (dec_u_canonical v ltac:(lia)) as [Hc Hval].
    destruct (decide (r < 0)).
    + rewrite dec_string_neg in E by done. rewrite E in Hc.
      destruct Hc as [?|(c&rest&?&?&_)]; [done|]. simplify_eq. lia.
    + unfold LLONG_MAX in *. rewrite dec_string_nonneg in E by lia. rewrite E in Hval.
      destruct (dec_u_canonical r ltac:(lia)) as [_ Hval']. if_false. do 2 f_equal. congruence.
  - destruct (dec_u_digits v ltac:(lia)) as [Hne Hd].
    destruct (dec_u_canonical v ltac:(lia)) as [_ Hval].
    rewrite strtoull_digits by done. rewrite Hval. unfold ULLONG_MAX.
    rewrite (bool_decide_eq_false_2 _ Hne), bool_decide_eq_true_2 by done.
    replace (_ >? _) with false by lia. cbn [orb andb negb]. do 2 f_equal. lia.
Qed.

Lemma string2ull_correct_witness :
  0 <= 18446744073709551615 <= ULLONG_MAX ∧
  string2ull (dec_u 18446744073709551615) = Some (Some 18446744073709551615).
Proof. split; [done|]. apply (string2ull_correct 18446744073709551615); done. Defined.

(** C37: string2ull means to refuse negative numbers, but a negative number
    written with a leading zero passes through strtoull and is accepted as a
    positive number near 2^64. *)
Theorem string2ull_accepts_negative v :
  1 <= v <= LLONG_MAX → string2ull (45 :: 48 :: dec_u v) = Some (Some (2 ^ 64 - v)).
Proof.
  unfold LLONG_MAX. intros Hv. unfold string2ull.
  destruct (dec_u_digits v ltac:(lia)) as [Hne Hd].
  destruct (dec_u_canonical v ltac:(lia)) as [_ Hval].
  destruct (string2ll_spec (45 :: 48 :: dec_u v)) as ([r|]&->&Hiff); mstep.
  - exfalso. destruct (Hiff r) as [Hr _].
    destruct (Hr eq_refl) as [Hb [? E]%dec_string_minus]; [|done]. unfold LLONG_MIN in Hb.
    destruct (dec_u_head (- r)) as (c&rest&E'&?); [lia|]. rewrite E' in E. simplify_eq. lia.
  - assert (Hv0 : dec_val 0 (48 :: dec_u v) = v) by (by rewrite <- Hval at 2).
    rewrite strtoull_minus, Hv0.
    + rewrite (bool_decide_eq_false_2 (_ = [])), bool_decide_eq_true_2 by done.
      cbn [orb andb negb]. do 2 f_equal. unfold wrapu.
      rewrite <- (Z.mod_add _ 1) by lia. rewrite Z.mod_small by lia. lia.
    + done.
    + constructor; [by unfold digit|done].
    + rewrite Hv0. unfold ULLONG_MAX. lia.
Qed.

Lemma string2ull_accepts_negative_witness :
  1 <= 5 <= LLONG_MAX ∧ string2ull (45 :: 48 :: dec_u 5) = Some (Some (2 ^ 64 - 5)).
Proof. split; [done|]. apply (string2ull_accepts_negative 5); done. Defined.

(** Memtoull multiplies the digits by their unit, when the product fits
    64 bits. *)
Theorem memtoull_correct einval ds u mul :
  ds ≠ [] → Forall digit ds → len ds < 128 → ends_digits u → unit_mul u = Some mul →
  dec_val 0 ds * mul <= ULLONG_MAX →
  memtoull einval (ds ++ u) = (dec_val 0 ds * mul, false).
Proof.
  intros Hne Hd Hl Hu Hm Hv.
  assert (1 <= mul) as Hmul.
  { unfold unit_mul in Hm. repeat case_match; simplify_eq; lia. }
  pose proof (dec_val_mono 0 ds ltac:(lia) Hd).
  unfold memtoull. destruct ds as [|c ds]; [done|].
  rewrite bool_decide_eq_false_2.
  2:{ apply Forall_cons in Hd as [Hc _]. unfold digit in Hc. intros [= ?]. lia. }
  destruct (take_drop_digits (c :: ds) u Hd Hu) as [Ht Hr].
  cbv zeta. rewrite Ht, Hr, Hm. if_false. rewrite strtoull_digits by done.
  rewrite (bool_decide_eq_false_2 _ Hne), bool_decide_eq_true_2, andb_false_r by done.
  rewrite andb_false_r. cbn [orb negb]. unfold ULLONG_MAX in *. f_equal.
  rewrite Z.min_l by nia. apply wrapu_small. lia.
Qed.

Lemma memtoull_correct_witness :
  unit_mul (bytes_of "Gb") = Some (1024 * 1024 * 1024) ∧
  memtoull false (bytes_of "12" ++ bytes_of "Gb") = (12 * (1024 * 1024 * 1024), false).
Proof.
  split; [reflexivity|].
  apply (memtoull_correct false (bytes_of "12") (bytes_of "Gb") (1024 * 1024 * 1024));
    try reflexivity; try done.
  repeat constructor; unfold digit; vm_compute; done.
Defined.
