(* ===== verification/Glob.v ===== *)
(** Glob-style matching: stringmatchlen and stringmatch of
    src/redis-7.0.0/src/util.c.

    The pattern is a NUL-terminated buffer [pat]; [p] and [plen] are the C
    variables [pattern] (as an offset) and [patternLen], [s] and [slen] are
    [string] and [stringLen].  A read outside a buffer is [None].  [char] is a
    signed type, as on the platforms Redis is built for. *)
From Stdlib Require Import String.
From S2P Require Import Prelude UtilNum UtilText.

(** The value of a byte read through a [char *]. *)
Definition char (b : Z) : Z := wraps 8 b.

(** [tolower((int)a) == tolower((int)b)], or [a == b] when case matters. *)
Definition chareq (nocase : bool) (a b : Z) : bool :=
  if nocase then tolower (char a) =? tolower (char b) else a =? b.

(** The loop that skips a star followed by another star. *)
Fixpoint skip_next_stars (fuel : nat) (pat : list Z) (p plen : Z) : option (Z * Z) :=
  match fuel with
  | O => None
  | S fuel =>
    if plen =? 0 then Some (p, plen)
    else
      c ← load8 pat (p + 1);
      if c =? 42 then skip_next_stars fuel pat (p + 1) (plen - 1) else Some (p, plen)
  end.

(** The same loop on the current character, at the end of the string. *)
Fixpoint skip_stars (fuel : nat) (pat : list Z) (p plen : Z) : option (Z * Z) :=
  match fuel with
  | O => None
  | S fuel =>
    c ← load8 pat p;
    if c =? 42 then skip_stars fuel pat (p + 1) (plen - 1) else Some (p, plen)
  end.

(** Whether the character [c] is in the range [start]-[end] of a class. *)
Definition in_class_range (nocase : bool) (a b c : Z) : bool :=
  let start := char a in
  let end_ := char b in
  let c := char c in
  let '(start, end_) := if start >? end_ then (end_, start) else (start, end_) in
  let '(start, end_, c) :=
    if nocase then (tolower start, tolower end_, tolower c) else (start, end_, c) in
  (c >=? start) && (c <=? end_).

(** The [while(1)] over the members of a character class; [sc] is [string[0]]. *)
Fixpoint class_loop (fuel : nat) (pat : list Z) (p plen sc : Z) (nocase mt : bool)
    : option (Z * Z * bool) :=
  match fuel with
  | O => None
  | S fuel =>
    c ← load8 pat p;
    if (c =? 92) && (plen >=? 2) then
      c ← load8 pat (p + 1);
      class_loop fuel pat (p + 2) (plen - 2) sc nocase (mt || (c =? sc))
    else if c =? 93 then Some (p, plen, mt)
    else if plen =? 0 then Some (p - 1, plen + 1, mt)
    else
      range ← (if plen >=? 3 then d ← load8 pat (p + 1); Some (d =? 45) else Some false);
      if range : bool then
        e ← load8 pat (p + 2);
        class_loop fuel pat (p + 3) (plen - 3) sc nocase (mt || in_class_range nocase c e sc)
      else
        class_loop fuel pat (p + 1) (plen - 1) sc nocase (mt || chareq nocase c sc)
  end.

(** The end of an iteration that consumed a character: the pattern moves on,
    and when the string is used up the remaining stars are skipped.  [again]
    is the next iteration. *)
Definition advance (again : Z → Z → Z → Z → option bool) (pat : list Z)
    (p plen s slen : Z) : option bool :=
  let p := p + 1 in
  let plen := plen - 1 in
  if slen =? 0 then
    r ← skip_stars (S (length pat)) pat p plen;
    let '(p, plen) := r in
    Some ((plen =? 0) && (slen =? 0))
  else again p plen s slen.

(** The [while(stringLen)] loop of a star: [call] is the recursive call of
    stringmatchlen on the rest of the pattern; [n] is [stringLen]. *)
Fixpoint try_suffixes (call : Z → Z → option bool) (n : nat) (s slen : Z) : option bool :=
  match n with
  | O => Some false
  | S n =>
    r ← call s slen;
    if r : bool then Some true else try_suffixes call n (s + 1) (slen - 1)
  end.

(** [fuel] bounds the iterations and the depth of recursion together: each
    uses up a character of the pattern. *)
Fixpoint stringmatchlen (fuel : nat) (pat : list Z) (p plen : Z)
    (str : list Z) (s slen : Z) (nocase : bool) : option bool :=
  match fuel with
  | O => None
  | S fuel =>
    let again p plen s slen := stringmatchlen fuel pat p plen str s slen nocase in
    if (plen =? 0) || (slen =? 0) then Some ((plen =? 0) && (slen =? 0))
    else
      c ← load8 pat p;
      if c =? 42 then
        r ← skip_next_stars (S (length pat)) pat p plen;
        let '(p, plen) := r in
        if plen =? 1 then Some true
        else try_suffixes (again (p + 1) (plen - 1)) (Z.to_nat slen) s slen
      else if c =? 63 then advance again pat p plen (s + 1) (slen - 1)
      else if c =? 91 then
        let p := p + 1 in
        let plen := plen - 1 in
        c ← load8 pat p;
        let not := c =? 94 in
        let '(p, plen) := if not then (p + 1, plen - 1) else (p, plen) in
        sc ← load8 str s;
        r ← class_loop (S (length pat)) pat p plen sc nocase false;
        let '(p, plen, mt) := r in
        let mt := if not then negb mt else mt in
        if negb mt then Some false else advance again pat p plen (s + 1) (slen - 1)
      else
        let '(p, plen) :=
          if (c =? 92) && (plen >=? 2) then (p + 1, plen - 1) else (p, plen) in
        c ← load8 pat p;
        sc ← load8 str s;
        if negb (chareq nocase c sc) then Some false
        else advance again pat p plen (s + 1) (slen - 1)
  end.

(** The call [stringmatchlen(pattern,patternLen,string,stringLen,nocase)] on a
    pattern whose byte after the last is NUL, as in every sds string. *)
Definition match_call (pattern string : list Z) (nocase : bool) : option bool :=
  stringmatchlen (S (length pattern)) (pattern ++ [0]) 0 (len pattern)
                 string 0 (len string) nocase.

(** [stringmatch]: the lengths are found with strlen, up to the first NUL. *)
Definition strlen_take (s : list Z) : list Z := take_while (λ c, negb (c =? 0)) s.

Definition stringmatch (pattern string : list Z) (nocase : bool) : option bool :=
  match_call (strlen_take pattern) (strlen_take string) nocase.

(** ** The meaning of patterns *)

(** Members of a character class: an escaped character (which always compares
    exactly), a plain character, a range. *)
Inductive item :=
  | Esc (c : Z)
  | Chr (c : Z)
  | Rng (a b : Z).

(** The members of a class whose text follows the opening bracket, and the
    pattern after it.  A class that is not closed extends to the end. *)
Fixpoint class_items (r : list Z) : list item * list Z :=
  match r with
  | [] => ([], [])
  | [c] => if c =? 93 then ([], []) else ([Chr c], [])
  | c :: (d :: r2) as r1 =>
      if c =? 92 then (Esc d :: (class_items r2).1, (class_items r2).2)
      else if c =? 93 then ([], r1)
      else match r2 with
           | e :: r3 =>
               if d =? 45 then (Rng c e :: (class_items r3).1, (class_items r3).2)
               else (Chr c :: (class_items r1).1, (class_items r1).2)
           | [] => (Chr c :: (class_items r1).1, (class_items r1).2)
           end
  end.

(** Equal characters, and the characters between two ends given in any order;
    the ends are compared before their case is folded. *)
Definition fold_case (nocase : bool) (c : Z) : Z := if nocase then tolower (char c) else c.
Definition same_char (nocase : bool) (a b : Z) : Prop := fold_case nocase a = fold_case nocase b.
Definition between (nocase : bool) (a b c : Z) : Prop :=
  let f x := if nocase then tolower x else x in
  f (Z.min (char a) (char b)) <= f (char c) <= f (Z.max (char a) (char b)).

#[export] Instance same_char_dec nocase a b : Decision (same_char nocase a b).
Proof. unfold same_char. apply _. Defined.
#[export] Instance between_dec nocase a b c : Decision (between nocase a b c).
Proof. unfold between. apply _. Defined.

Definition item_match (nocase : bool) (sc : Z) (i : item) : bool :=
  match i with
  | Esc c => c =? sc
  | Chr c => bool_decide (same_char nocase c sc)
  | Rng a b => bool_decide (between nocase a b sc)
  end.

(** The text of a class after an optional caret. *)
Definition class_negated (r : list Z) : bool := bool_decide (head r = Some 94).
Definition class_body (r : list Z) : list Z := if class_negated r then tail r else r.
Definition class_match (nocase : bool) (r : list Z) (sc : Z) : bool :=
  xorb (class_negated r) (existsb (item_match nocase sc) (class_items (class_body r)).1).
Definition class_rest (r : list Z) : list Z := (class_items (class_body r)).2.

(** A character that stands for itself in front of the pattern [r]. *)
Definition plain (x : Z) (r : list Z) : Prop :=
  x ≠ 42 ∧ x ≠ 63 ∧ x ≠ 91 ∧ (x = 92 → r = []).

(** [glob nocase pattern string]: the pattern matches the whole string. *)
Inductive glob (nocase : bool) : list Z → list Z → Prop :=
  | glob_nil : glob nocase [] []
  | glob_star_end r t : glob nocase r t → glob nocase (42 :: r) t
  | glob_star_more r c t : glob nocase (42 :: r) t → glob nocase (42 :: r) (c :: t)
  | glob_any r c t : glob nocase r t → glob nocase (63 :: r) (c :: t)
  | glob_class r c t :
      class_match nocase r c = true → glob nocase (class_rest r) t →
      glob nocase (91 :: r) (c :: t)
  | glob_escape x r c t :
      same_char nocase x c → glob nocase r t → glob nocase (92 :: x :: r) (c :: t)
  | glob_plain x r c t :
      plain x r → same_char nocase x c → glob nocase r t →
      glob nocase (x :: r) (c :: t).

(** ** The loops *)

Lemma chareq_spec nocase a b : chareq nocase a b = bool_decide (same_char nocase a b).
Proof.
  unfold chareq, same_char, fold_case. destruct nocase; by case_bool_decide; lia.
Qed.

Lemma in_class_range_spec nocase a b c : in_class_range nocase a b c = bool_decide (between nocase a b c).
Proof.
  assert (in_class_range nocase a b c = true ↔ between nocase a b c) as Hiff.
  { unfold in_class_range, between. cbv zeta. rewrite Z.gtb_ltb. destruct (Z.ltb_spec (char b) (char a)).
    - rewrite (Z.min_r (char a) (char b)), (Z.max_l (char a) (char b)) by lia. destruct nocase; lia.
    - rewrite (Z.min_l (char a) (char b)), (Z.max_r (char a) (char b)) by lia. destruct nocase; lia. }
  apply eq_true_iff_eq. by rewrite Hiff, bool_decide_eq_true.
Qed.

Lemma class_items_cons c d r2 :
  class_items (c :: d :: r2) =
    if c =? 92 then (Esc d :: (class_items r2).1, (class_items r2).2)
    else if c =? 93 then ([], d :: r2)
    else match r2 with
         | e :: r3 =>
             if d =? 45 then (Rng c e :: (class_items r3).1, (class_items r3).2)
             else (Chr c :: (class_items (d :: r2)).1, (class_items (d :: r2)).2)
         | [] => (Chr c :: (class_items (d :: r2)).1, (class_items (d :: r2)).2)
         end.
Proof. reflexivity. Qed.

Lemma class_items_suffix r : ∃ used, r = used ++ (class_items r).2.
Proof.
  remember (length r) as n eqn:Hn. assert (length r <= n)%nat as Hle by lia. clear Hn.
  revert r Hle. induction n as [|n IH]; intros r Hle.
  { destruct r; [by exists []|simpl in Hle; lia]. }
  destruct r as [|c [|d r2]]; [by exists []|simpl; case_if; by exists [c]|].
  rewrite class_items_cons. cbn [length] in *. case_if; [|case_if].
  - destruct (IH r2) as [u Hu]; [lia|]. exists (c :: d :: u). cbn [snd app]. by rewrite <- Hu.
  - by exists [c].
  - destruct r2 as [|e r3]; [|case_if]; cbn [snd].
    + destruct (IH [d]) as [u Hu]; [simpl in *; lia|]. exists (c :: u). cbn [app]. by rewrite <- Hu.
    + destruct (IH r3) as [u Hu]; [simpl in *; lia|]. exists (c :: d :: e :: u).
      cbn [app]. by rewrite <- Hu.
    + destruct (IH (d :: e :: r3)) as [u Hu]; [simpl in *; lia|]. exists (c :: u).
      cbn [app]. by rewrite <- Hu.
Qed.

Section loops.
Context (nocase : bool).

(** Reading the pattern at a suffix, or its terminator. *)
Lemma load8_pat pre r i :
  0 <= i <= len r → load8 (pre ++ r ++ [0]) (len pre + i) = (r ++ [0]) !! Z.to_nat i.
Proof. intros. rewrite load8_skip by lia. unfold load8. by if_true. Qed.

Lemma class_loop_spec fuel pre r sc mt :
  (length r < fuel)%nat →
  class_loop fuel (pre ++ r ++ [0]) (len pre) (len r) sc nocase mt =
    Some (len (pre ++ r) - len (class_items r).2 - 1, len (class_items r).2 + 1,
          mt || existsb (item_match nocase sc) (class_items r).1).
Proof.
  revert pre r mt. induction fuel as [|fuel IH]; intros pre r mt Hf; [lia|].
  assert (Hstep : ∀ used r' b, r = used ++ r' → used ≠ [] →
    class_loop fuel (pre ++ r ++ [0]) (len pre + len used) (len r - len used) sc nocase b =
    Some (len (pre ++ r) - len (class_items r').2 - 1, len (class_items r').2 + 1,
          b || existsb (item_match nocase sc) (class_items r').1)).
  { intros used r' b -> Hu. rewrite (app_assoc pre used r').
    replace (pre ++ (used ++ r') ++ [0]) with ((pre ++ used) ++ r' ++ [0])
      by (by rewrite !app_assoc).
    replace (len pre + len used) with (len (pre ++ used)) by len_lia.
    replace (len (used ++ r') - len used) with (len r') by len_lia.
    apply IH. destruct used; [done|]. simpl in Hf. len_lia. }
  cbn [class_loop].
  pose proof (load8_pat pre r 0 ltac:(lia)) as H0. rewrite Z.add_0_r in H0. rewrite H0.
  destruct r as [|c r1].
  { change (([] ++ [0]) !! Z.to_nat 0) with (Some 0). mstep.
    change ((0 =? 92) && _) with false. change (0 =? 93) with false.
    change (len [] =? 0) with true. cbn [class_items fst snd existsb].
    rewrite app_nil_r, orb_false_r. do 3 f_equal. simpl. lia. }
  change (((c :: r1) ++ [0]) !! Z.to_nat 0) with (Some c). mstep.
  pose proof (load8_pat pre (c :: r1) 1 ltac:(simpl; lia)) as H1.
  destruct r1 as [|d r2].
  { cbn [length]. change (Z.of_nat 1) with 1. cbn [class_items]. rewrite andb_false_r, ?chareq_spec.
    destruct (c =? 93); [do 3 f_equal; [len_lia|by destruct mt]|]. mstep.
    rewrite (Hstep [c] []) by done. cbn [class_items fst snd existsb item_match].
    by rewrite !orb_false_r. }
  change (((c :: d :: r2) ++ [0]) !! Z.to_nat 1) with (Some d) in H1. rewrite H1.
  rewrite class_items_cons. replace (len (c :: d :: r2) >=? 2) with true by (simpl; lia).
  rewrite andb_true_r, ?chareq_spec. destruct (c =? 92) eqn:Ec.
  { mstep. rewrite (Hstep [c; d] r2) by done. cbn [fst snd existsb item_match].
    by rewrite <- orb_assoc. }
  destruct (c =? 93).
  { cbn [fst snd existsb]. rewrite orb_false_r. do 3 f_equal; [len_lia|simpl; lia]. }
  replace (len (c :: d :: r2) =? 0) with false by (simpl; lia).
  destruct r2 as [|e r3].
  { replace (_ >=? 3) with false by (simpl; lia). mstep.
    rewrite (Hstep [c] [d]) by done. cbn [fst snd existsb item_match]. by rewrite <- orb_assoc. }
  replace (_ >=? 3) with true by (simpl; lia). mstep.
  pose proof (load8_pat pre (c :: d :: e :: r3) 2 ltac:(simpl; lia)) as H2.
  change (((c :: d :: e :: r3) ++ [0]) !! Z.to_nat 2) with (Some e) in H2. rewrite H2.
  destruct (d =? 45); mstep; rewrite ?in_class_range_spec.
  - rewrite (Hstep [c; d; e] r3) by done. cbn [fst snd existsb item_match]. by rewrite <- orb_assoc.
  - rewrite (Hstep [c] (d :: e :: r3)) by done. cbn [fst snd existsb item_match].
    by rewrite <- orb_assoc.
Qed.

(** A pattern as its leading stars and the rest. *)
Lemma leading_stars (r : list Z) : ∃ k r', r = replicate k 42 ++ r' ∧ head r' ≠ Some 42.
Proof.
  induction r as [|c r (k&r'&->&Hr)]; [by exists 0%nat, []|].
  destruct (decide (c = 42)) as [->|Hc].
  - by exists (S k), r'.
  - exists 0%nat, (c :: replicate k 42 ++ r'). split; [done|]. by intros [= ->].
Qed.

Lemma head_pat (r : list Z) : head r ≠ Some 42 → ∃ c, (r ++ [0]) !! 0%nat = Some c ∧ c ≠ 42.
Proof. destruct r as [|c r]; simpl; [by eauto|]. intros Hc. exists c. naive_solver. Qed.

Lemma skip_stars_spec fuel pre k r :
  head r ≠ Some 42 → (k < fuel)%nat →
  skip_stars fuel (pre ++ (replicate k 42 ++ r) ++ [0]) (len pre) (Z.of_nat k + len r) =
    Some (len pre + Z.of_nat k, len r).
Proof.
  revert pre k. induction fuel as [|fuel IH]; intros pre k Hr Hf; [lia|]. cbn [skip_stars].
  pose proof (load8_pat pre (replicate k 42 ++ r) 0 ltac:(lia)) as H0.
  rewrite Z.add_0_r in H0. rewrite H0. destruct k as [|k].
  - destruct (head_pat r Hr) as (c&Hc&?). cbn [replicate app]. change (Z.to_nat 0) with 0%nat.
    rewrite Hc. mstep. if_false. do 2 f_equal; lia.
  - change (((replicate (S k) 42 ++ r) ++ [0]) !! Z.to_nat 0) with (Some 42). mstep.
    change (42 =? 42) with true. cbv iota.
    pose proof (IH (pre ++ [42]) k Hr ltac:(lia)) as Hi.
    rewrite <- app_assoc, length_app in Hi. cbn [app length] in Hi. cbn [replicate app].
    replace (Z.of_nat (length pre + 1)) with (len pre + 1) in Hi by lia.
    replace (Z.of_nat (S k) + len r - 1) with (Z.of_nat k + len r) by lia.
    rewrite Hi. do 2 f_equal. lia.
Qed.

Lemma skip_next_stars_spec fuel pre k r :
  head r ≠ Some 42 → (k < fuel)%nat →
  skip_next_stars fuel (pre ++ (42 :: replicate k 42 ++ r) ++ [0]) (len pre)
                  (1 + Z.of_nat k + len r) =
    Some (len pre + Z.of_nat k, 1 + len r).
Proof.
  revert pre k. induction fuel as [|fuel IH]; intros pre k Hr Hf; [lia|].
  cbn [skip_next_stars]. if_false.
  pose proof (load8_pat pre (42 :: replicate k 42 ++ r) 1 ltac:(simpl; lia)) as H1.
  rewrite H1. change (Z.to_nat 1) with 1%nat. destruct k as [|k].
  - destruct (head_pat r Hr) as (c&Hc&?).
    change ((42 :: replicate 0 42 ++ r) ++ [0]) with (42 :: (r ++ [0])).
    change ((42 :: (r ++ [0])) !! 1%nat) with ((r ++ [0]) !! 0%nat).
    rewrite Hc. mstep. if_false. do 2 f_equal; lia.
  - change (((42 :: replicate (S k) 42 ++ r) ++ [0]) !! 1%nat) with (Some 42). mstep.
    change (42 =? 42) with true. cbv iota.
    pose proof (IH (pre ++ [42]) k Hr ltac:(lia)) as Hi.
    rewrite <- app_assoc, length_app in Hi. cbn [app length] in Hi. cbn [replicate app].
    replace (Z.of_nat (length pre + 1)) with (len pre + 1) in Hi by lia.
    replace (1 + Z.of_nat (S k) + len r - 1) with (1 + Z.of_nat k + len r) by lia.
    rewrite Hi. do 2 f_equal. lia.
Qed.
End loops.

(** ** Facts about the meaning *)

Section glob_facts.
Context (nocase : bool).

Lemma glob_star_iff r t : glob nocase (42 :: r) t ↔ ∃ t1 t2, t = t1 ++ t2 ∧ glob nocase r t2.
Proof.
  split.
  - remember (42 :: r) as p eqn:Hp. intros Hg. revert Hp.
    induction Hg as [|r' t Hg _|r' c t Hg IH| | | |x r' c t [Hx _]]; intros Hp; simplify_eq; try done.
    + exists [], t. done.
    + destruct (IH eq_refl) as (t1&t2&->&?). exists (c :: t1), t2. done.
  - intros (t1&t2&->&Hg). induction t1 as [|c t1 IH]; simpl.
    + by apply glob_star_end.
    + by apply glob_star_more.
Qed.

Lemma glob_stars_collapse k r t :
  glob nocase (42 :: replicate k 42 ++ r) t ↔ glob nocase (42 :: r) t.
Proof.
  revert t. induction k as [|k IH]; intros t; [done|].
  cbn [replicate app]. rewrite glob_star_iff. split.
  - intros (t1&t2&->&Hg). apply IH, glob_star_iff in Hg as (u1&u2&->&Hg).
    apply glob_star_iff. exists (t1 ++ u1), u2. by rewrite app_assoc.
  - intros Hg%IH. by exists [], t.
Qed.

Lemma glob_empty k r :
  head r ≠ Some 42 → glob nocase (replicate k 42 ++ r) [] ↔ r = [].
Proof.
  intros Hr. induction k as [|k IH]; cbn [replicate app].
  - split; [|intros ->; constructor]. intros Hg. inversion Hg; subst; [done|by simpl in Hr].
  - rewrite <- IH, glob_star_iff. split.
    + intros (t1&t2&E&?). symmetry in E. apply app_eq_nil in E as [_ ->]. done.
    + intros. by exists [], [].
Qed.

(** A pattern that does not start with a star consumes a character. *)
Lemma glob_any_iff r c t : glob nocase (63 :: r) (c :: t) ↔ glob nocase r t.
Proof.
  split; [|by constructor]. inversion 1; subst; [done|].
  match goal with H : plain _ _ |- _ => destruct H; naive_solver end.
Qed.

Lemma glob_class_iff r c t :
  glob nocase (91 :: r) (c :: t) ↔
    class_match nocase r c = true ∧ glob nocase (class_rest r) t.
Proof.
  split; [|intros []; by constructor]. inversion 1; subst; [done|].
  match goal with H : plain _ _ |- _ => destruct H; naive_solver end.
Qed.

Lemma glob_escape_iff x r c t :
  glob nocase (92 :: x :: r) (c :: t) ↔ same_char nocase x c ∧ glob nocase r t.
Proof.
  split; [|intros []; by constructor]. inversion 1; subst; [done|].
  match goal with H : plain _ _ |- _ => destruct H; naive_solver end.
Qed.

Lemma glob_plain_iff x r c t :
  plain x r →
  glob nocase (x :: r) (c :: t) ↔ same_char nocase x c ∧ glob nocase r t.
Proof.
  intros Hp. split; [|intros []; by constructor]. destruct Hp as (?&?&?&Hp).
  inversion 1; subst; try done. naive_solver.
Qed.
End glob_facts.

(** ** The matcher *)

Section matcher.
Context (nocase : bool).

(** What a call on the pattern suffix [r] and string suffix [t] decides. *)
Definition decides (r t : list Z) (m : option bool) : Prop :=
  ∃ b, m = Some b ∧ (b = true ↔ match t with [] => r = [] | _ => glob nocase r t end).

(** The calls available to an iteration whose pattern suffix is [r0]: every
    shorter suffix is decided. *)
Definition decided_below (again : Z → Z → Z → Z → option bool) (pre r0 str : list Z) : Prop :=
  ∀ used r spre t, r0 = used ++ r → used ≠ [] → str = spre ++ t →
    decides r t (again (len (pre ++ used)) (len r) (len spre) (len t)).

Lemma advance_spec again pre r0 str used r spre t p plen :
  decided_below again pre r0 str → r0 = used ++ r → used ≠ [] → str = spre ++ t →
  p + 1 = len (pre ++ used) → plen - 1 = len r →
  ∃ b, advance again (pre ++ r0 ++ [0]) p plen (len spre) (len t) = Some b ∧
    (b = true ↔ glob nocase r t).
Proof.
  intros Hrec -> Hu -> Hp Hl. unfold advance. rewrite Hp, Hl. destruct t as [|c t].
  - change (len [] =? 0) with true. cbv iota. destruct (leading_stars r) as (k&r'&->&Hr).
    replace (pre ++ (used ++ replicate k 42 ++ r') ++ [0])
      with ((pre ++ used) ++ (replicate k 42 ++ r') ++ [0]) by (by rewrite <- !app_assoc).
    replace (len (replicate k 42 ++ r')) with (Z.of_nat k + len r') by len_lia.
    rewrite skip_stars_spec by (done || len_lia). mstep. eexists. split; [done|].
    rewrite glob_empty, andb_true_r by done. destruct r'; [done|]. split; [simpl; lia|done].
  - if_false. apply (Hrec used r spre (c :: t)); done.
Qed.

Lemma try_suffixes_spec call r str spre t :
  str = spre ++ t → r ≠ [] → head r ≠ Some 42 →
  (∀ spre t, str = spre ++ t → decides r t (call (len spre) (len t))) →
  ∃ b, try_suffixes call (length t) (len spre) (len t) = Some b ∧
    (b = true ↔ glob nocase (42 :: r) t).
Proof.
  intros -> Hne Hr Hcall. revert spre Hcall. induction t as [|c t IH]; intros spre Hcall; simpl.
  - exists false. split; [done|]. split; [done|]. rewrite glob_star_iff.
    intros (t1&t2&E&Hg). symmetry in E. apply app_eq_nil in E as [_ ->].
    by apply (glob_empty nocase 0) in Hg.
  - destruct (Hcall spre (c :: t) eq_refl) as (b&Hb&Hiff). cbn [length] in Hb.
    rewrite Hb. mstep. destruct b.
    + exists true. split; [done|]. split; [|done]. intros _. by apply glob_star_end, Hiff.
    + destruct (IH (spre ++ [c])) as (b&Hb'&Hiff').
      { rewrite <- app_assoc. exact Hcall. }
      rewrite length_app in Hb'. cbn [length] in Hb'.
      replace (Z.of_nat (length spre + 1)) with (len spre + 1) in Hb' by lia.
      replace (Z.of_nat (S (length t)) - 1) with (len t) by lia.
      exists b. split; [done|]. rewrite Hiff'. split; [by apply glob_star_more|].
      rewrite !glob_star_iff. intros ([|d t1]&t2&E&Hg).
      * simpl in E. subst t2. apply Hiff in Hg. done.
      * injection E as -> ->. by exists t1, t2.
Qed.

(** The three kinds of iteration, on the pattern suffix [x :: r]. *)
Lemma star_iteration again pre r str spre c t :
  decided_below again pre (42 :: r) str → str = spre ++ c :: t →
  ∃ b, (z ← skip_next_stars (S (length (pre ++ (42 :: r) ++ [0]))) (pre ++ (42 :: r) ++ [0])
              (len pre) (len (42 :: r));
        let '(p, plen) := z in
        if plen =? 1 then Some true
        else try_suffixes (again (p + 1) (plen - 1)) (length (c :: t)) (len spre) (len (c :: t)))
       = Some b ∧ (b = true ↔ glob nocase (42 :: r) (c :: t)).
Proof.
  intros Hrec Hstr. destruct (leading_stars r) as (k&r'&->&Hr).
  replace (len (42 :: replicate k 42 ++ r')) with (1 + Z.of_nat k + len r')
    by (cbn [length]; len_lia).
  rewrite skip_next_stars_spec by (done || cbn [app length]; len_lia). mstep.
  setoid_rewrite glob_stars_collapse. case_if.
  - exists true. split; [done|]. split; [|done]. intros _. destruct r'; [|simpl in *; lia].
    apply glob_star_iff. exists (c :: t), []. split; [by rewrite app_nil_r|constructor].
  - apply (try_suffixes_spec _ r' str); [done| |done|].
    { intros ->. simpl in *. lia. }
    intros spre' t' Hstr'.
    pose proof (Hrec (42 :: replicate k 42) r' spre' t' eq_refl ltac:(done) Hstr') as Hd.
    replace (len (pre ++ 42 :: replicate k 42)) with (len pre + Z.of_nat k + 1) in Hd
      by (rewrite length_app; cbn [length]; len_lia).
    by replace (1 + len r' - 1) with (len r') by lia.
Qed.

Lemma class_iteration again pre r str spre c t :
  decided_below again pre (91 :: r) str → str = spre ++ c :: t →
  ∃ b, (d ← load8 (pre ++ (91 :: r) ++ [0]) (len pre + 1);
        let not := d =? 94 in
        let '(p, plen) := if not then (len pre + 1 + 1, len (91 :: r) - 1 - 1)
                          else (len pre + 1, len (91 :: r) - 1) in
        sc ← load8 str (len spre);
        z ← class_loop (S (length (pre ++ (91 :: r) ++ [0]))) (pre ++ (91 :: r) ++ [0])
              p plen sc nocase false;
        let '(p, plen, mt) := z in
        let mt := if not then negb mt else mt in
        if negb mt then Some false
        else advance again (pre ++ (91 :: r) ++ [0]) p plen (len spre + 1) (len (c :: t) - 1))
       = Some b ∧ (b = true ↔ glob nocase (91 :: r) (c :: t)).
Proof.
  intros Hrec ->.
  pose proof (load8_pat pre (91 :: r) 1 ltac:(simpl; lia)) as H1. rewrite H1.
  change (((91 :: r) ++ [0]) !! Z.to_nat 1) with ((r ++ [0]) !! 0%nat).
  assert (∃ d, (r ++ [0]) !! 0%nat = Some d ∧ (d =? 94) = class_negated r) as (d&->&Hd).
  { unfold class_negated. destruct r as [|d r]; [by exists 0|]. exists d. split; [done|].
    cbn [head]. destruct (decide (d = 94)) as [->|]; [done|].
    rewrite bool_decide_eq_false_2 by naive_solver. lia. }
  mstep. rewrite Hd. rewrite load8_app by done. mstep.
  destruct (class_items_suffix (class_body r)) as [used Hused].
  set (caret := if class_negated r then [94] else []).
  assert (Hr : r = caret ++ class_body r).
  { subst caret. unfold class_body, class_negated. case_bool_decide as Hh; [|done].
    destruct r; [done|]. by injection Hh as ->. }
  replace (if class_negated r then _ else _)
    with (len (pre ++ 91 :: caret), len (class_body r)).
  2:{ assert (len r = len caret + len (class_body r)) by (rewrite Hr at 1; len_lia).
      rewrite length_app. cbn [length]. subst caret.
      destruct (class_negated r); cbn [length] in *; f_equal; lia. }
  assert (Hpat : pre ++ (91 :: r) ++ [0] = (pre ++ 91 :: caret) ++ class_body r ++ [0]).
  { rewrite Hr at 1. rewrite <- !app_assoc. cbn [app]. by rewrite <- app_assoc. }
  rewrite Hpat, class_loop_spec by len_lia. mstep. rewrite orb_false_l.
  setoid_rewrite glob_class_iff. unfold class_match, class_rest.
  replace (if class_negated r then negb _ else _)
    with (xorb (class_negated r) (existsb (item_match nocase c) (class_items (class_body r)).1))
    by (by destruct (class_negated r); destruct (existsb _ _)).
  destruct (xorb _ _); cbn [negb].
  2:{ exists false. split; [done|]. naive_solver. }
  rewrite <- Hpat.
  replace (len spre + 1) with (len (spre ++ [c])) by len_lia.
  replace (len (c :: t) - 1) with (len t) by (cbn [length]; lia).
  destruct (advance_spec again pre (91 :: r) (spre ++ c :: t) (91 :: caret ++ used)
    (class_items (class_body r)).2 (spre ++ [c]) t
    (len ((pre ++ 91 :: caret) ++ class_body r) - len (class_items (class_body r)).2 - 1)
    (len (class_items (class_body r)).2 + 1)) as (b&->&Hb); try done; try lia.
  - cbn [app]. f_equal. rewrite Hr at 1. rewrite <- app_assoc. by f_equal.
  - by rewrite <- app_assoc.
  - rewrite Hused at 1. rewrite <- !app_assoc. cbn [app]. rewrite !length_app. cbn [length].
    len_lia.
  - exists b. split; [done|]. rewrite Hb. naive_solver.
Qed.

Lemma char_iteration again pre x r str spre c t :
  decided_below again pre (x :: r) str → str = spre ++ c :: t →
  x ≠ 42 → x ≠ 63 → x ≠ 91 →
  ∃ b, (let '(p, plen) :=
          if (x =? 92) && (len (x :: r) >=? 2)
          then (len pre + 1, len (x :: r) - 1) else (len pre, len (x :: r)) in
        d ← load8 (pre ++ (x :: r) ++ [0]) p;
        sc ← load8 str (len spre);
        if negb (chareq nocase d sc) then Some false
        else advance again (pre ++ (x :: r) ++ [0]) p plen (len spre + 1) (len (c :: t) - 1))
       = Some b ∧ (b = true ↔ glob nocase (x :: r) (c :: t)).
Proof.
  intros Hrec -> H1 H2 H3.
  replace (len (c :: t) - 1) with (len t) by (cbn [length]; lia).
  assert (Hfin : ∀ p plen d used r', x :: r = used ++ r' → used ≠ [] →
    p + 1 = len (pre ++ used) → plen - 1 = len r' →
    load8 (pre ++ (x :: r) ++ [0]) p = Some d →
    (glob nocase (x :: r) (c :: t) ↔ same_char nocase d c ∧ glob nocase r' t) →
    ∃ b, (d ← load8 (pre ++ (x :: r) ++ [0]) p;
          sc ← load8 (spre ++ c :: t) (len spre);
          if negb (chareq nocase d sc) then Some false
          else advance again (pre ++ (x :: r) ++ [0]) p plen (len spre + 1) (len t)) = Some b ∧
      (b = true ↔ glob nocase (x :: r) (c :: t))).
  { intros p plen d used r' Hu Hne Hp Hl -> Hg. mstep. rewrite load8_app by done. mstep.
    setoid_rewrite Hg. rewrite chareq_spec. case_bool_decide; cbn [negb].
    2:{ exists false. split; [done|]. naive_solver. }
    destruct (advance_spec again pre (x :: r) (spre ++ c :: t) used r' (spre ++ [c]) t p plen)
      as (b&Hb&Hiff); try done; [by rewrite <- app_assoc|].
    rewrite length_app in Hb. cbn [length] in Hb.
    replace (Z.of_nat (length spre + 1)) with (len spre + 1) in Hb by lia.
    exists b. split; [done|]. rewrite Hiff. naive_solver. }
  destruct ((x =? 92) && (len (x :: r) >=? 2)) eqn:Ex.
  - assert (x = 92) as -> by lia. destruct r as [|y r]; [simpl in Ex; lia|].
    apply (Hfin _ _ y [92; y] r); try done; try (cbn [length]; len_lia).
    + pose proof (load8_pat pre (92 :: y :: r) 1 ltac:(simpl; lia)) as Hl. by rewrite Hl.
    + apply glob_escape_iff.
  - apply (Hfin _ _ x [x] r); try done; try (cbn [length]; len_lia).
    + by apply load8_app.
    + apply glob_plain_iff. split_and!; try done. intros ->. destruct r; [done|].
      cbn [length] in Ex. lia.
Qed.

Lemma stringmatchlen_spec fuel pre r spre t :
  (length r < fuel)%nat →
  decides r t (stringmatchlen fuel (pre ++ r ++ [0]) (len pre) (len r)
                 (spre ++ t) (len spre) (len t) nocase).
Proof.
  revert pre r spre t. induction fuel as [|fuel IH]; intros pre r spre t Hf; [lia|].
  cbn [stringmatchlen]. unfold decides.
  destruct ((len r =? 0) || (len t =? 0)) eqn:E0.
  { eexists. split; [done|]. destruct t as [|c t].
    - rewrite andb_true_r. destruct r; [done|]. split; [simpl; lia|done].
    - rewrite andb_false_r. split; [done|]. destruct r; [|simpl in E0; lia]. inversion 1. }
  destruct r as [|x r]; [done|]. destruct t as [|c t]; [simpl in E0; lia|]. clear E0.
  set (again := λ p plen s slen : Z,
         stringmatchlen fuel (pre ++ (x :: r) ++ [0]) p plen (spre ++ c :: t) s slen nocase).
  assert (Hrec : decided_below again pre (x :: r) (spre ++ c :: t)).
  { intros used r' spre' t' Hu Hne Hs. subst again. cbv beta. rewrite Hu, Hs.
    replace (pre ++ (used ++ r') ++ [0]) with ((pre ++ used) ++ r' ++ [0])
      by (by rewrite <- !app_assoc).
    apply IH. destruct used; [done|]. injection Hu as _ ->. cbn [length] in Hf. len_lia. }
  assert (Hx : load8 (pre ++ (x :: r) ++ [0]) (len pre) = Some x) by (by apply load8_app).
  rewrite Hx. mstep.
  destruct (x =? 42) eqn:E1; [|destruct (x =? 63) eqn:E2; [|destruct (x =? 91) eqn:E3]].
  - apply Z.eqb_eq in E1 as ->. rewrite Nat2Z.id.
    exact (star_iteration again pre r _ spre c t Hrec eq_refl).
  - apply Z.eqb_eq in E2 as ->.
    replace (len (c :: t) - 1) with (len t) by (cbn [length]; lia).
    replace (len spre + 1) with (len (spre ++ [c])) by len_lia.
    setoid_rewrite glob_any_iff.
    apply (advance_spec again pre (63 :: r) (spre ++ c :: t) [63] r (spre ++ [c]) t); try done;
      [by rewrite <- app_assoc|len_lia|cbn [length]; lia].
  - apply Z.eqb_eq in E3 as ->. by apply class_iteration.
  - apply char_iteration; done || lia.
Qed.
End matcher.

(** ** Properties *)

(** C18: on a non-empty string the matcher terminates, reads neither buffer out
    of bounds, and decides the meaning of the pattern. *)
Theorem stringmatchlen_correct nocase pattern string :
  string ≠ [] →
  ∃ b, match_call pattern string nocase = Some b ∧ (b = true ↔ glob nocase pattern string).
Proof.
  intros Hs. destruct (stringmatchlen_spec nocase (S (length pattern)) [] pattern [] string)
    as (b&Hb&Hiff); [lia|]. exists b. split; [exact Hb|]. by destruct string.
Qed.

Lemma stringmatchlen_correct_witness :
  ∃ b, match_call (bytes_of "h[a-c]*o") (bytes_of "hbxxo") true = Some b ∧
    (b = true ↔ glob true (bytes_of "h[a-c]*o") (bytes_of "hbxxo")).
Proof. apply (stringmatchlen_correct true (bytes_of "h[a-c]*o") (bytes_of "hbxxo")). done. Defined.

(** C38: on the empty string only the empty pattern matches; a star does not. *)
Theorem stringmatchlen_empty nocase pattern :
  match_call pattern [] nocase = Some (bool_decide (pattern = [])).
Proof.
  destruct (stringmatchlen_spec nocase (S (length pattern)) [] pattern [] [])
    as (b&Hb&Hiff); [lia|]. unfold match_call. cbn [app] in Hb.
  change (len []) with 0 in Hb. change (len []) with 0. rewrite Hb. f_equal.
  destruct b; symmetry; [apply bool_decide_eq_true|apply bool_decide_eq_false]; naive_solver.
Qed.
