(* ===== verification/SdsText.v ===== *)
(** Text functions of src/redis-7.0.0/src/sds.c: the printing of integers
    (sdsll2str, sdsull2str, sdsfromlonglong). *)
From S2P Require Import Prelude UtilNum.

Definition SDS_LLSTR_SIZE : Z := 21.

(** [do { *p++ = '0'+(v%10); v /= 10; } while(v)]. *)
Fixpoint digit_loop (fuel : nat) (s : list Z) (p v : Z) : option (list Z * Z) :=
  match fuel with
  | O => None
  | S fuel =>
    s ← store8 s p (48 + v mod 10);
    if v / 10 =? 0 then Some (s, p + 1) else digit_loop fuel s (p + 1) (v / 10)
  end.

(** [while(s < p)]: swaps the ends and moves them together. *)
Fixpoint reverse_loop (fuel : nat) (m : list Z) (s p : Z) : option (list Z) :=
  if s <? p then
    match fuel with
    | O => None
    | S fuel =>
      aux ← load8 m s;
      b ← load8 m p;
      m ← store8 m s b;
      m ← store8 m p aux;
      reverse_loop fuel m (s + 1) (p - 1)
    end
  else Some m.

(** The buffer and the length; a 64-bit number has at most 20 digits. *)
Definition sdsll2str (s : list Z) (value : Z) : option (list Z * Z) :=
  let v :=
    if value <? 0 then
      if negb (value =? LLONG_MIN) then - value else u64 (LLONG_MAX + 1)
    else value in
  '(s, p) ← digit_loop 20 s 0 v;
  '(s, p) ← (if value <? 0 then s ← store8 s p 45; Some (s, p + 1) else Some (s, p));
  let l := p in
  s ← store8 s p 0;
  s ← reverse_loop (length s) s 0 (p - 1);
  Some (s, l).

Definition sdsull2str (s : list Z) (v : Z) : option (list Z * Z) :=
  '(s, p) ← digit_loop 20 s 0 v;
  let l := p in
  s ← store8 s p 0;
  s ← reverse_loop (length s) s 0 (p - 1);
  Some (s, l).

(** The string made from what [buf], a local array, holds then. *)
Definition sdsfromlonglong (buf : list Z) (value : Z) : option (list Z) :=
  '(buf, l) ← sdsll2str buf value;
  load buf 0 l.

(** ** Lemmas *)

Lemma dec_u_step v : 0 <= v < 2 ^ 64 →
  dec_u v = (if v <? 10 then [] else dec_u (v / 10)) ++ [48 + v mod 10].
Proof.
  intros Hv. pose proof (digits10_correct v Hv) as Hn. pose proof (ndig_ge1 _ _ Hn) as [Hd _].
  rewrite (dec_u_dec _ _ Hn). destruct (Z.ltb_spec v 10) as [Hlt|Hge].
  - rewrite (ndig_small _ _ Hn Hlt). change (Z.to_nat 1) with 1%nat. cbn [dec]. done.
  - destruct (ndig_div _ _ Hd Hge Hn) as [H2 Hn']. rewrite (dec_u_dec _ _ Hn').
    replace (Z.to_nat (digits10 v)) with (S (Z.to_nat (digits10 v - 1))) by lia. done.
Qed.

Lemma digit_loop_spec fuel a junk v : 0 <= v < 2 ^ 64 → v < 10 ^ Z.of_nat fuel → (0 < fuel)%nat →
  (length (dec_u v) <= length junk)%nat →
  digit_loop fuel (a ++ junk) (len a) v =
  Some (a ++ reverse (dec_u v) ++ drop (length (dec_u v)) junk, len a + len (dec_u v)).
Proof.
  revert a junk v. induction fuel as [|fuel IH]; intros a junk v Hv Hf Hpos Hl; [lia|]. cbn [digit_loop].
  pose proof (dec_u_step v Hv) as Hstep.
  assert (Hne : (0 < length (dec_u v))%nat) by (rewrite Hstep, length_app; cbn [length]; lia).
  destruct junk as [|j junk]; [cbn [length] in Hl; lia|]. rewrite store8_app by done. mnext.
  rewrite wrapu_small by div_lia. set (d := 48 + v mod 10) in *.
  destruct (Z.eqb_spec (v / 10) 0) as [H0|H0].
  - replace (v <? 10) with true in Hstep by div_lia. rewrite Hstep. cbn [app length reverse]. 
    rewrite reverse_singleton. cbn. rewrite drop_0. do 3 f_equal.
  - replace (v <? 10) with false in Hstep by div_lia. rewrite Hstep in *. rewrite length_app in *. cbn [length] in *.
    replace (a ++ d :: junk) with ((a ++ [d]) ++ junk) by (rewrite <- app_assoc; reflexivity).
    replace (len a + 1) with (len (a ++ [d])) by len_lia.
    assert (Hpow : v < 10 * 10 ^ Z.of_nat fuel).
    { replace (Z.of_nat (S fuel)) with (1 + Z.of_nat fuel) in Hf by lia. by rewrite Z.pow_add_r in Hf by lia. }
    rewrite IH; [|div_lia|div_lia| |lia].
    2: { destruct fuel; [|lia]. cbn in Hpow. div_lia. }
    rewrite reverse_snoc, <- app_assoc. rewrite Nat.add_comm. cbn [app Nat.add drop]. do 2 f_equal. len_lia.
Qed.

Lemma reverse_loop_spec fuel a l c : bytes_ok l → (length l <= fuel)%nat →
  reverse_loop fuel (a ++ l ++ c) (len a) (len a + len l - 1) = Some (a ++ reverse l ++ c).
Proof.
  remember (length l) as n eqn:Hn. revert fuel a l c Hn. induction (lt_wf n) as [n _ IH].
  intros fuel a l c -> Hb Hf. destruct l as [|x l]; [|destruct l as [|y l _] using rev_ind].
  - cbn [length app]. destruct fuel; cbn [reverse_loop]; by replace (_ <? _) with false by lia.
  - destruct fuel; cbn [reverse_loop length]; by replace (_ <? _) with false by lia.
  - destruct fuel as [|fuel]; [cbn in Hf; lia|]. cbn [reverse_loop].
    apply Forall_cons in Hb as [Hx Hb]. apply Forall_app in Hb as [Hb Hy]. apply Forall_cons in Hy as [Hy _].
    assert (Hl : len (x :: l ++ [y]) = len l + 2) by (cbn [length]; len_lia).
    rewrite Hl. replace (_ <? _) with true by lia.
    assert (Hassoc : ∀ u v, a ++ (u :: l ++ [v]) ++ c = (a ++ u :: l) ++ v :: c).
    { intros u v. rewrite <- !app_assoc. cbn [app]. by rewrite <- app_assoc. }
    cbn [app]. rewrite (load8_app a x _ (len a)) by done. mnext. change (x :: (l ++ [y]) ++ c) with ((x :: l ++ [y]) ++ c).
    rewrite Hassoc, load8_app by (simpl_len; cbn [length]; lia). mnext.
    rewrite <- Hassoc. cbn [app]. rewrite (store8_app a x y _ (len a)) by done. mnext. rewrite is_byte_wrap by done.
    change (y :: (l ++ [y]) ++ c) with ((y :: l ++ [y]) ++ c).
    rewrite Hassoc, store8_app by (simpl_len; cbn [length]; lia). mnext. rewrite is_byte_wrap by done.
    replace ((a ++ y :: l) ++ x :: c) with ((a ++ [y]) ++ l ++ (x :: c)) by (rewrite <- !app_assoc; reflexivity).
    replace (len a + 1) with (len (a ++ [y])) by len_lia.
    replace (len a + (len l + 2) - 1 - 1) with (len (a ++ [y]) + len l - 1) by len_lia.
    rewrite (IH (length l)); [|len_lia|done|done|cbn in Hf; rewrite length_app in Hf; cbn in Hf; lia].
    rewrite reverse_cons, reverse_app. cbn. rewrite <- !app_assoc. reflexivity.
Qed.

(** The common end: the digits, least significant first, are terminated and
    reversed. *)
Lemma finish_digits l junk : bytes_ok l → (1 <= length junk)%nat →
  (s ← store8 (reverse l ++ junk) (len l) 0;
   s ← reverse_loop (length s) s 0 (len l - 1); Some (s, len l)) =
  Some (l ++ 0 :: drop 1 junk, len l).
Proof.
  intros Hb Hj. destruct junk as [|j junk]; [cbn in Hj; lia|]. rewrite store8_app by len_lia. mnext.
  pose proof (reverse_loop_spec (length (reverse l ++ u8 0 :: junk)) [] (reverse l) (u8 0 :: junk)) as Hr.
  cbn [app length] in Hr. change (Z.of_nat 0) with 0 in Hr. rewrite Z.add_0_l in Hr. replace (len (reverse l) - 1) with (len l - 1) in Hr by len_lia.
  rewrite Hr; [|by apply Forall_reverse|len_lia]. mnext. by rewrite reverse_involutive.
Qed.

Lemma sdsll2str_spec s v : LLONG_MIN <= v <= LLONG_MAX → SDS_LLSTR_SIZE <= len s →
  sdsll2str s v = Some (dec_string v ++ 0 :: drop (S (length (dec_string v))) s, len (dec_string v)).
Proof.
  intros Hv Hs. pose proof (length_dec_string v Hv) as Hl. pose proof (dec_string_ok v) as Hb.
  unfold SDS_LLSTR_SIZE, LONG_STR_SIZE, LLONG_MIN, LLONG_MAX in *. unfold sdsll2str.
  set (u := if v <? 0 then _ else v). assert (Hu : u = Z.abs v).
  { unfold u, LLONG_MIN, LLONG_MAX. destruct (Z.ltb_spec v 0); [|lia].
    destruct (Z.eqb_spec v (- 2 ^ 63)); cbn [negb]; [|lia]. rewrite wrapu_small by lia. lia. }
  clearbody u. subst u. unfold dec_string in *. destruct (Z.ltb_spec v 0) as [Hneg|Hpos].
  - rewrite Z.abs_neq by lia. cbn [length] in Hl.
    pose proof (digit_loop_spec 20 [] s (- v)) as Hd. cbn [app length] in Hd. change (Z.of_nat 0) with 0 in Hd. rewrite Hd; clear Hd; [|lia|change (Z.of_nat 20) with 20; lia|lia|lia].
    mnext. rewrite Z.add_0_l. set (ds := dec_u (- v)) in *.
    destruct (drop (length ds) s) as [|j junk] eqn:Hj; [apply (f_equal length) in Hj; rewrite length_drop in Hj; cbn [length] in Hj; lia|].
    rewrite store8_app by len_lia. mnext. mnext.
    pose proof (finish_digits (45 :: ds) junk Hb) as Hf. rewrite reverse_cons, <- app_assoc in Hf. cbn [app length] in Hf.
    replace (Z.of_nat (S (length ds))) with (len ds + 1) in * by lia. change (u8 45) with 45. rewrite Hf.
    + cbn [length]. replace (drop (S (S (length ds))) s) with (drop 2 (drop (length ds) s))
        by (rewrite drop_drop; f_equal; lia). rewrite Hj. do 2 f_equal. lia.
    + apply (f_equal length) in Hj. rewrite length_drop in Hj. cbn [length] in Hj. lia.
  - rewrite Z.abs_eq by lia.
    pose proof (digit_loop_spec 20 [] s v) as Hd. cbn [app length] in Hd. change (Z.of_nat 0) with 0 in Hd. rewrite Hd; clear Hd; [|lia|change (Z.of_nat 20) with 20; lia|lia|lia].
    mnext. mnext. rewrite Z.add_0_l, finish_digits by (done || rewrite length_drop; lia).
    by rewrite drop_drop, Nat.add_1_r.
Qed.

Lemma sdsull2str_spec s v : 0 <= v < 2 ^ 64 → SDS_LLSTR_SIZE <= len s →
  sdsull2str s v = Some (dec_u v ++ 0 :: drop (S (length (dec_u v))) s, len (dec_u v)).
Proof.
  intros Hv Hs. unfold SDS_LLSTR_SIZE in Hs. unfold sdsull2str.
  assert (Hl : 1 <= len (dec_u v) <= 20).
  { rewrite length_dec_u by done. pose proof (digits10_correct v Hv) as Hn. destruct (ndig_ge1 _ _ Hn) as [H1 _].
    split; [done|]. destruct Hn as [[-> _]|[Hn Hr]]; [lia|]. apply Z.nlt_ge. intros Hlt.
    assert (10 ^ 20 <= 10 ^ (digits10 v - 1)) by (apply Z.pow_le_mono_r; lia). lia. }
  pose proof (digit_loop_spec 20 [] s v) as Hd. cbn [app length] in Hd. change (Z.of_nat 0) with 0 in Hd. rewrite Hd; clear Hd; [|lia|change (Z.of_nat 20) with 20; lia|lia|lia].
  mnext. pose proof (dec_string_ok v) as Hb. rewrite dec_string_nonneg in Hb by lia.
  rewrite Z.add_0_l, finish_digits by (done || rewrite length_drop; lia). by rewrite drop_drop, Nat.add_1_r.
Qed.

(** Sdsfromlonglong and sdsull2str print the decimal notation of every 64-bit
    signed and unsigned number, also of LLONG_MIN whose negation does not exist, and
    a buffer of SDS_LLSTR_SIZE bytes is enough. *)
Theorem sdsll2str_correct s v u : LLONG_MIN <= v <= LLONG_MAX → 0 <= u < 2 ^ 64 → SDS_LLSTR_SIZE <= len s →
  sdsfromlonglong s v = Some (dec_string v) ∧
  sdsull2str s u = Some (dec_u u ++ 0 :: drop (S (length (dec_u u))) s, len (dec_u u)).
Proof.
  intros Hv Hu Hs. split; [|by apply sdsull2str_spec]. unfold sdsfromlonglong.
  rewrite sdsll2str_spec by done. mnext. by apply load_app0.
Qed.

Lemma sdsll2str_correct_witness :
  sdsfromlonglong (replicate 21 0) LLONG_MIN = Some (dec_string LLONG_MIN) ∧
  sdsull2str (replicate 21 0) 40 = Some ([52; 48; 0] ++ replicate 18 0, 2).
Proof. apply (sdsll2str_correct (replicate 21 0) LLONG_MIN 40); done. Defined.
