(* ===== verification/Sds.v ===== *)
(** Dynamic strings: src/redis-7.0.0/src/sds.h and sds.c.

    An sds string is a pointer behind a header that depends on its type.  Here it
    is the record of what the header holds, the type, the length and the
    allocation, and of the bytes from the pointer to the end of the allocated
    block.  The fields have the width the type gives them: 5 bits of the flags
    byte, with no allocation, or 8, 16, 32, 64 bits.  [None] is an access outside
    the block or a failed assertion; the allocator is a parameter ([Malloc]). *)
From S2P Require Import Prelude UtilText SdsText.

Definition SDS_MAX_PREALLOC : Z := 1024 * 1024.

Definition SDS_TYPE_5 : Z := 0.
Definition SDS_TYPE_8 : Z := 1.
Definition SDS_TYPE_16 : Z := 2.
Definition SDS_TYPE_32 : Z := 3.
Definition SDS_TYPE_64 : Z := 4.

Record sds := mk_sds { s_type : Z; s_len : Z; s_alloc : Z; s_buf : list Z }.

(** The bits of the length field of a type. *)
Definition field_width (type : Z) : Z :=
  if type =? SDS_TYPE_5 then 5 else if type =? SDS_TYPE_8 then 8
  else if type =? SDS_TYPE_16 then 16 else if type =? SDS_TYPE_32 then 32 else 64.

Definition sdslen (s : sds) : Z := s_len s.

(** The operands of the subtraction are promoted to int for the small types. *)
Definition sdsavail (s : sds) : Z :=
  if s_type s =? SDS_TYPE_5 then 0
  else if s_type s =? SDS_TYPE_32 then u32 (s_alloc s - s_len s)
  else u64 (s_alloc s - s_len s).

Definition set_buf (s : sds) (buf : list Z) : sds := mk_sds (s_type s) (s_len s) (s_alloc s) buf.

Definition sdssetlen (s : sds) (newlen : Z) : sds :=
  mk_sds (s_type s) (wrapu (field_width (s_type s)) newlen) (s_alloc s) (s_buf s).

Definition sdsinclen (s : sds) (inc : Z) : sds :=
  mk_sds (s_type s) (wrapu (field_width (s_type s)) (s_len s + inc)) (s_alloc s) (s_buf s).

Definition sdsalloc (s : sds) : Z := if s_type s =? SDS_TYPE_5 then s_len s else s_alloc s.

Definition sdssetalloc (s : sds) (newlen : Z) : sds :=
  if s_type s =? SDS_TYPE_5 then s
  else mk_sds (s_type s) (s_len s) (wrapu (field_width (s_type s)) newlen) (s_buf s).

Definition sdsHdrSize (type : Z) : Z :=
  if type =? SDS_TYPE_5 then 1 else if type =? SDS_TYPE_8 then 3
  else if type =? SDS_TYPE_16 then 5 else if type =? SDS_TYPE_32 then 9 else 17.

Definition sdsReqType (string_size : Z) : Z :=
  if string_size <? Z.shiftl 1 5 then SDS_TYPE_5
  else if string_size <? Z.shiftl 1 8 then SDS_TYPE_8
  else if string_size <? Z.shiftl 1 16 then SDS_TYPE_16
  else if string_size <? Z.shiftl 1 32 then SDS_TYPE_32
  else SDS_TYPE_64.

Definition sdsTypeMaxSize (type : Z) : Z :=
  if type =? SDS_TYPE_5 then Z.shiftl 1 5 - 1
  else if type =? SDS_TYPE_8 then Z.shiftl 1 8 - 1
  else if type =? SDS_TYPE_16 then Z.shiftl 1 16 - 1
  else if type =? SDS_TYPE_32 then Z.shiftl 1 32 - 1
  else 2 ^ 64 - 1.

(** strlen, from the start of a block. *)
Fixpoint strlen (m : list Z) : option Z :=
  match m with
  | [] => None
  | c :: m => if c =? 0 then Some 0 else n ← strlen m; Some (n + 1)
  end.

(** memset. *)
Definition memset (m : list Z) (off c n : Z) : option (list Z) :=
  store m off (replicate (Z.to_nat n) c).

(** The argument [init]: NULL, SDS_NOINIT or bytes. *)
Inductive initial := NULL | SDS_NOINIT | Bytes (bs : list Z).

Section sds.
Context `{Malloc}.

(** The block of [size] bytes behind a header of [hdrlen] bytes, and [usable]. *)
Definition s_malloc_usable (hdrlen size : Z) : list Z * Z :=
  (replicate (Z.to_nat (usable_size size - hdrlen)) junk, usable_size size).
Definition s_realloc_usable (buf : list Z) (hdrlen size : Z) : list Z * Z :=
  (realloc junk buf (usable_size size - hdrlen), usable_size size).

(** [ok] is whether an allocation that may fail does not; the inner [None] is
    NULL. *)
Definition _sdsnewlen (init : initial) (initlen : Z) (trymalloc ok : bool) : option (option sds) :=
  let type := sdsReqType initlen in
  let type := if (type =? SDS_TYPE_5) && (initlen =? 0) then SDS_TYPE_8 else type in
  let hdrlen := sdsHdrSize type in
  if negb (u64 (initlen + hdrlen + 1) >? initlen) then None
  else if trymalloc && negb ok then Some None
  else
    let '(buf, usable) := s_malloc_usable hdrlen (hdrlen + initlen + 1) in
    buf ← match init with NULL => memset buf 0 0 (initlen + 1) | _ => Some buf end;
    let usable := usable - hdrlen - 1 in
    let usable := if usable >? sdsTypeMaxSize type then sdsTypeMaxSize type else usable in
    let s := sdssetalloc (sdssetlen (mk_sds type 0 0 buf) initlen) usable in
    buf ← match init with
          | Bytes bs =>
            if negb (initlen =? 0) then bs ← load bs 0 initlen; store (s_buf s) 0 bs else Some (s_buf s)
          | _ => Some (s_buf s)
          end;
    buf ← store8 buf initlen 0;
    Some (Some (set_buf s buf)).

Definition sdsnewlen (init : initial) (initlen : Z) : option sds :=
  r ← _sdsnewlen init initlen false true; r.
Definition sdstrynewlen (init : initial) (initlen : Z) (ok : bool) : option (option sds) :=
  _sdsnewlen init initlen true ok.
Definition sdsempty : option sds := sdsnewlen (Bytes [0]) 0.

(** [init] is NULL or the memory that begins with the C string. *)
Definition sdsnew (init : option (list Z)) : option sds :=
  match init with
  | None => sdsnewlen NULL 0
  | Some bs => initlen ← strlen bs; sdsnewlen (Bytes bs) initlen
  end.
Definition sdsdup (s : sds) : option sds := sdsnewlen (Bytes (s_buf s)) (sdslen s).

Definition sdsupdatelen (s : sds) : option sds :=
  reallen ← strlen (s_buf s);
  Some (sdssetlen s reallen).

Definition sdsclear (s : sds) : option sds :=
  let s := sdssetlen s 0 in
  buf ← store8 (s_buf s) 0 0;
  Some (set_buf s buf).

Definition _sdsMakeRoomFor (s : sds) (addlen : Z) (greedy : bool) : option sds :=
  let avail := sdsavail s in
  let oldtype := s_type s in
  if avail >=? addlen then Some s
  else
    let l := sdslen s in
    let newlen := u64 (l + addlen) in
    let reqlen := newlen in
    if negb (newlen >? l) then None
    else
      let newlen :=
        if greedy then
          if newlen <? SDS_MAX_PREALLOC then newlen * 2 else u64 (newlen + SDS_MAX_PREALLOC)
        else newlen in
      let type := sdsReqType newlen in
      let type := if type =? SDS_TYPE_5 then SDS_TYPE_8 else type in
      let hdrlen := sdsHdrSize type in
      if negb (u64 (hdrlen + newlen + 1) >? reqlen) then None
      else
        '(s, usable) ←
          (if oldtype =? type then
             let '(buf, usable) := s_realloc_usable (s_buf s) hdrlen (hdrlen + newlen + 1) in
             Some (set_buf s buf, usable)
           else
             let '(buf, usable) := s_malloc_usable hdrlen (hdrlen + newlen + 1) in
             bs ← load (s_buf s) 0 (l + 1);
             buf ← store buf 0 bs;
             Some (sdssetlen (mk_sds type 0 0 buf) l, usable));
        let usable := usable - hdrlen - 1 in
        let usable := if usable >? sdsTypeMaxSize type then sdsTypeMaxSize type else usable in
        Some (sdssetalloc s usable).

Definition sdsMakeRoomFor (s : sds) (addlen : Z) : option sds := _sdsMakeRoomFor s addlen true.
Definition sdsMakeRoomForNonGreedy (s : sds) (addlen : Z) : option sds := _sdsMakeRoomFor s addlen false.

Definition sdsRemoveFreeSpace (s : sds) : option sds :=
  let oldtype := s_type s in
  let oldhdrlen := sdsHdrSize oldtype in
  let l := sdslen s in
  let avail := sdsavail s in
  if avail =? 0 then Some s
  else
    let type := sdsReqType l in
    let hdrlen := sdsHdrSize type in
    s ← (if (oldtype =? type) || (type >? SDS_TYPE_8) then
           Some (set_buf s (fst (s_realloc_usable (s_buf s) oldhdrlen (oldhdrlen + l + 1))))
         else
           bs ← load (s_buf s) 0 (l + 1);
           buf ← store (fst (s_malloc_usable hdrlen (hdrlen + l + 1))) 0 bs;
           Some (sdssetlen (mk_sds type 0 0 buf) l));
    Some (sdssetalloc s l).

Definition sdsResize (s : sds) (size : Z) : option sds :=
  let oldtype := s_type s in
  let oldhdrlen := sdsHdrSize oldtype in
  let l := sdslen s in
  if sdsalloc s =? size then Some s
  else
    let l := if size <? l then size else l in
    let type := sdsReqType size in
    let type := if type =? SDS_TYPE_5 then SDS_TYPE_8 else type in
    let hdrlen := sdsHdrSize type in
    s ← (if (oldtype =? type) || ((type <? oldtype) && (type >? SDS_TYPE_8)) then
           Some (set_buf s (fst (s_realloc_usable (s_buf s) oldhdrlen (oldhdrlen + size + 1))))
         else
           bs ← load (s_buf s) 0 l;
           buf ← store (fst (s_malloc_usable hdrlen (hdrlen + size + 1))) 0 bs;
           Some (mk_sds type 0 0 buf));
    buf ← store8 (s_buf s) l 0;
    Some (sdssetalloc (sdssetlen (set_buf s buf) l) size).

Definition sdsAllocSize (s : sds) : Z := sdsHdrSize (s_type s) + sdsalloc s + 1.

(** The assertion depends on the type: the casts to unsigned int and the
    promotions to int are those of the code. *)
Definition incr_allowed (s : sds) (incr : Z) : bool :=
  if s_type s =? SDS_TYPE_5 then
    ((incr >? 0) && (s_len s + incr <? 32)) || ((incr <? 0) && (s_len s >=? u32 (- incr)))
  else if (s_type s =? SDS_TYPE_8) || (s_type s =? SDS_TYPE_16) then
    ((incr >=? 0) && (s_alloc s - s_len s >=? incr)) || ((incr <? 0) && (s_len s >=? u32 (- incr)))
  else if s_type s =? SDS_TYPE_32 then
    ((incr >=? 0) && (u32 (s_alloc s - s_len s) >=? u32 incr)) || ((incr <? 0) && (s_len s >=? u32 (- incr)))
  else
    ((incr >=? 0) && (u64 (s_alloc s - s_len s) >=? incr)) || ((incr <? 0) && (s_len s >=? - incr)).

(** For type 5 the terminator goes to [oldlen+incr], which the assertion bounds;
    for the others to the new value of the field. *)
Definition sdsIncrLen (s : sds) (incr : Z) : option sds :=
  if negb (incr_allowed s incr) then None
  else
    let l := if s_type s =? SDS_TYPE_5 then u64 (s_len s + incr) else s_len (sdsinclen s incr) in
    let s := sdsinclen s incr in
    buf ← store8 (s_buf s) l 0;
    Some (set_buf s buf).

Definition sdsgrowzero (s : sds) (l : Z) : option sds :=
  let curlen := sdslen s in
  if l <=? curlen then Some s
  else
    s ← sdsMakeRoomFor s (l - curlen);
    buf ← memset (s_buf s) curlen 0 (l - curlen + 1);
    Some (sdssetlen (set_buf s buf) l).

(** [t] is the memory the argument points to. *)
Definition sdscatlen (s : sds) (t : list Z) (l : Z) : option sds :=
  let curlen := sdslen s in
  s ← sdsMakeRoomFor s l;
  bs ← load t 0 l;
  buf ← store (s_buf s) curlen bs;
  let s := sdssetlen (set_buf s buf) (curlen + l) in
  buf ← store8 (s_buf s) (curlen + l) 0;
  Some (set_buf s buf).

Definition sdscat (s : sds) (t : list Z) : option sds := l ← strlen t; sdscatlen s t l.
Definition sdscatsds (s t : sds) : option sds := sdscatlen s (s_buf t) (sdslen t).

Definition sdscpylen (s : sds) (t : list Z) (l : Z) : option sds :=
  s ← (if sdsalloc s <? l then sdsMakeRoomFor s (l - sdslen s) else Some s);
  bs ← load t 0 l;
  buf ← store (s_buf s) 0 bs;
  buf ← store8 buf l 0;
  Some (sdssetlen (set_buf s buf) l).

Definition sdscpy (s : sds) (t : list Z) : option sds := l ← strlen t; sdscpylen s t l.

(** strchr(cset, c) for the C string [cset]: its terminator is found too. *)
Definition strchr (cset : list Z) (c : Z) : bool := bool_decide (c ∈ cset ++ [0]).

(** [while(sp <= end && strchr(cset, *sp)) sp++]. *)
Fixpoint trim_left (fuel : nat) (m cset : list Z) (sp end_ : Z) : option Z :=
  if sp <=? end_ then
    match fuel with
    | O => None
    | S fuel =>
      c ← load8 m sp;
      if strchr cset c then trim_left fuel m cset (sp + 1) end_ else Some sp
    end
  else Some sp.

(** [while(ep > sp && strchr(cset, *ep)) ep--]. *)
Fixpoint trim_right (fuel : nat) (m cset : list Z) (sp ep : Z) : option Z :=
  if ep >? sp then
    match fuel with
    | O => None
    | S fuel =>
      c ← load8 m ep;
      if strchr cset c then trim_right fuel m cset sp (ep - 1) else Some ep
    end
  else Some ep.

(** [cset] without its terminator. *)
Definition sdstrim (s : sds) (cset : list Z) : option sds :=
  let end_ := sdslen s - 1 in
  sp ← trim_left (length (s_buf s)) (s_buf s) cset 0 end_;
  ep ← trim_right (length (s_buf s)) (s_buf s) cset sp end_;
  let l := ep - sp + 1 in
  buf ← (if negb (sp =? 0) then memmove (s_buf s) 0 sp l else Some (s_buf s));
  buf ← store8 buf l 0;
  Some (sdssetlen (set_buf s buf) l).

Definition sdssubstr (s : sds) (start l : Z) : option sds :=
  let oldlen := sdslen s in
  let '(start, l) := if start >=? oldlen then (0, 0) else (start, l) in
  let l := if l >? oldlen - start then oldlen - start else l in
  buf ← (if negb (l =? 0) then memmove (s_buf s) 0 start l else Some (s_buf s));
  buf ← store8 buf l 0;
  Some (sdssetlen (set_buf s buf) l).

(** [len + start] is computed without sign and assigned to a signed variable;
    the arguments of sdssubstr are without sign again. *)
Definition sdsrange (s : sds) (start end_ : Z) : option sds :=
  let l := sdslen s in
  if l =? 0 then Some s
  else
    let start := if start <? 0 then s64 (l + start) else start in
    let end_ := if end_ <? 0 then s64 (l + end_) else end_ in
    let newlen := if start >? end_ then 0 else end_ - start + 1 in
    sdssubstr s (u64 start) (u64 newlen).

Definition toupper (c : Z) : Z := if (97 <=? c) && (c <=? 122) then c - 32 else c.

(** [for (j = 0; j < len; j++) s[j] = f(s[j])]. *)
Fixpoint map_loop (fuel : nat) (f : Z → Z) (m : list Z) (j : Z) : option (list Z) :=
  match fuel with
  | O => Some m
  | S fuel => c ← load8 m j; m ← store8 m j (f c); map_loop fuel f m (j + 1)
  end.
Definition map_chars (f : Z → Z) (s : sds) : option sds :=
  buf ← map_loop (Z.to_nat (sdslen s)) f (s_buf s) 0;
  Some (set_buf s buf).
Definition sdstolower (s : sds) : option sds := map_chars tolower s.
Definition sdstoupper (s : sds) : option sds := map_chars toupper s.

(** The inner loop: the first character of [from] that is [c] gives the one of
    [to]. *)
Fixpoint substitute (from to : list Z) (c : Z) : Z :=
  match from, to with
  | a :: from, b :: to => if c =? a then b else substitute from to c
  | _, _ => c
  end.
Definition sdsmapchars (s : sds) (from to : list Z) (setlen : Z) : option sds :=
  from ← load from 0 setlen;
  to ← load to 0 setlen;
  map_chars (substitute from to) s.

(** ** sdscatfmt *)

(** The variable arguments, as va_arg reads them: the memory of a C string, an
    sds string, integers of 32 and 64 bits. *)
Inductive fmt_arg := FStr (t : list Z) | FSds (t : sds) | FInt (v : Z) | FLongLong (v : Z)
  | FUInt (v : Z) | FULongLong (v : Z).

(** [memcpy(s+i,str,l); sdsinclen(s,l)] after making room. *)
Definition put (s : sds) (i : Z) (t : list Z) (l : Z) : option sds :=
  s ← (if sdsavail s <? l then sdsMakeRoomFor s l else Some s);
  bs ← load t 0 l;
  buf ← store (s_buf s) i bs;
  Some (sdsinclen (set_buf s buf) l).

(** The conversion after a percent sign: the string, the position and the
    arguments left.  An argument of another kind than the conversion has no
    meaning in C. *)
Definition convert (s : sds) (i next : Z) (args : list fmt_arg) : option (sds * Z * list fmt_arg) :=
  let number r :=
    '(buf, l) ← r; s ← put s i buf l; Some (s, i + l, drop 1 args) in
  let digits := replicate (Z.to_nat SDS_LLSTR_SIZE) junk in
  if next =? 115 then
    match args with FStr t :: _ => l ← strlen t; s ← put s i t l; Some (s, i + l, drop 1 args) | _ => None end
  else if next =? 83 then
    match args with
    | FSds t :: _ => s ← put s i (s_buf t) (sdslen t); Some (s, i + sdslen t, drop 1 args)
    | _ => None
    end
  else if next =? 105 then
    match args with FInt v :: _ => number (sdsll2str digits v) | _ => None end
  else if next =? 73 then
    match args with FLongLong v :: _ => number (sdsll2str digits v) | _ => None end
  else if next =? 117 then
    match args with FUInt v :: _ => number (sdsull2str digits v) | _ => None end
  else if next =? 85 then
    match args with FULongLong v :: _ => number (sdsull2str digits v) | _ => None end
  else
    buf ← store8 (s_buf s) i next;
    Some (sdsinclen (set_buf s buf) 1, i + 1, args).

(** The loop over the format, a block with a C string, from [f]. *)
Fixpoint fmt_loop (fuel : nat) (fmt : list Z) (f : Z) (s : sds) (i : Z) (args : list fmt_arg) :
    option (sds * Z) :=
  c ← load8 fmt f;
  if c =? 0 then Some (s, i)
  else
    match fuel with
    | O => None
    | S fuel =>
      s ← (if sdsavail s =? 0 then sdsMakeRoomFor s 1 else Some s);
      if c =? 37 then
        next ← load8 fmt (f + 1);
        if next =? 0 then fmt_loop fuel fmt (f + 1) s i args
        else
          '(s, i, args) ← convert s i next args;
          fmt_loop fuel fmt (f + 2) s i args
      else
        buf ← store8 (s_buf s) i c;
        fmt_loop fuel fmt (f + 1) (sdsinclen (set_buf s buf) 1) (i + 1) args
    end.

Definition sdscatfmt (s : sds) (fmt : list Z) (args : list fmt_arg) : option sds :=
  let initlen := sdslen s in
  n ← strlen fmt;
  s ← sdsMakeRoomFor s (u64 (n * 2));
  '(s, i) ← fmt_loop (length fmt) fmt 0 s initlen args;
  buf ← store8 (s_buf s) i 0;
  Some (set_buf s buf).

(** ** Joining *)

Fixpoint join_loop (join : sds) (argv : list (list Z)) (sep : list Z) : option sds :=
  match argv with
  | [] => Some join
  | a :: argv =>
    join ← sdscat join a;
    join ← match argv with [] => Some join | _ => sdscat join sep end;
    join_loop join argv sep
  end.
(** The arguments are the memory of C strings. *)
Definition sdsjoin (argv : list (list Z)) (sep : list Z) : option sds :=
  join ← sdsempty;
  join_loop join argv sep.

Fixpoint joinsds_loop (join : sds) (argv : list sds) (sep : list Z) (seplen : Z) : option sds :=
  match argv with
  | [] => Some join
  | a :: argv =>
    join ← sdscatsds join a;
    join ← match argv with [] => Some join | _ => sdscatlen join sep seplen end;
    joinsds_loop join argv sep seplen
  end.
Definition sdsjoinsds (argv : list sds) (sep : list Z) (seplen : Z) : option sds :=
  join ← sdsempty;
  joinsds_loop join argv sep seplen.
End sds.
