(* ===== verification/SdsTheorems.v ===== *)
(** Dynamic strings (sds.c): every operation does on the header and the block what
    it means on the string of bytes.

    [sds_rep s str]: the header and the block [s] hold the string [str]. *)
From S2P Require Import Prelude UtilNum UtilText SdsText Sds.

(** ** Well-formed strings *)

(** The type is one of the five, the length is at most the allocation, which the
    field can hold, and the block has room for the allocation and a terminator. *)
Definition sds_wf (s : sds) : Prop :=
  0 <= s_type s <= 4 ∧ 0 <= s_len s <= sdsalloc s ∧
  sdsalloc s < 2 ^ field_width (s_type s) ∧ sdsalloc s < len (s_buf s).

Definition sds_rep (s : sds) (str : list Z) : Prop :=
  sds_wf s ∧ s_len s = len str ∧ ∃ rest, s_buf s = str ++ 0 :: rest.

Lemma type_cases t : 0 <= t <= 4 → t = 0 ∨ t = 1 ∨ t = 2 ∨ t = 3 ∨ t = 4.
Proof. lia. Qed.

Lemma field_width_bounds t : 5 <= field_width t <= 64.
Proof. unfold field_width. repeat case_if; lia. Qed.

Lemma field_width_le t : 2 ^ field_width t <= 2 ^ 64.
Proof. apply Z.pow_le_mono_r; [lia|]. pose proof (field_width_bounds t). lia. Qed.

Lemma type_max t : 0 <= t <= 4 → sdsTypeMaxSize t = 2 ^ field_width t - 1.
Proof. intros Ht. destruct (type_cases t Ht) as [->|[->|[->|[->| ->]]]]; done. Qed.

Lemma type_values :
  (SDS_TYPE_5 = 0 ∧ SDS_TYPE_8 = 1 ∧ SDS_TYPE_16 = 2 ∧ SDS_TYPE_32 = 3 ∧ SDS_TYPE_64 = 4) ∧
  2 ^ field_width SDS_TYPE_5 = 32 ∧ 2 ^ field_width SDS_TYPE_8 = 256 ∧ 2 ^ field_width SDS_TYPE_16 = 65536 ∧
  2 ^ field_width SDS_TYPE_32 = 2 ^ 32 ∧ 2 ^ field_width SDS_TYPE_64 = 2 ^ 64.
Proof. done. Qed.

Lemma req_type n : 0 <= n < 2 ^ 64 → 0 <= sdsReqType n <= 4 ∧ n < 2 ^ field_width (sdsReqType n).
Proof.
  intros Hn. unfold sdsReqType. change (Z.shiftl 1 5) with 32. change (Z.shiftl 1 8) with 256.
  change (Z.shiftl 1 16) with 65536. change (Z.shiftl 1 32) with (2 ^ 32).
  pose proof type_values. repeat case_if; lia.
Qed.

(** The type of a string that will grow. *)
Lemma grow_type n : 0 <= n < 2 ^ 64 →
  let t := if sdsReqType n =? SDS_TYPE_5 then SDS_TYPE_8 else sdsReqType n in 1 <= t <= 4 ∧ n < 2 ^ field_width t.
Proof.
  intros Hn. pose proof (req_type n Hn) as [Ht Hb]. cbv zeta. destruct (Z.eqb_spec (sdsReqType n) SDS_TYPE_5) as [E|E].
  - rewrite E in Hb. pose proof type_values. lia.
  - unfold SDS_TYPE_5 in E. lia.
Qed.

Lemma hdr_size t : 1 <= sdsHdrSize t <= 17.
Proof. unfold sdsHdrSize. repeat case_if; lia. Qed.

Lemma avail_wf s : sds_wf s → sdsavail s = sdsalloc s - s_len s.
Proof.
  intros (Ht & Hl & Ha & _). unfold sdsavail, sdsalloc in *. case_if; [lia|].
  pose proof (field_width_le (s_type s)). case_if.
  - rewrite E0 in Ha. change (field_width SDS_TYPE_32) with 32 in Ha. apply wrapu_small. lia.
  - apply wrapu_small. lia.
Qed.

Lemma sdsalloc_setlen s buf n : s_type s ≠ 0 → sdsalloc (sdssetlen (set_buf s buf) n) = sdsalloc s.
Proof. intros Ht. unfold sdsalloc, SDS_TYPE_5; cbn. by replace (_ =? 0) with false by lia. Qed.

(** A new length within the allocation, and a new block of the same size. *)
Lemma set_wf s buf n : sds_wf s → length buf = length (s_buf s) → 0 <= n <= sdsalloc s →
  sds_wf (sdssetlen (set_buf s buf) n) ∧ s_len (sdssetlen (set_buf s buf) n) = n.
Proof.
  intros (Ht & Hl & Ha & Hb) Hbuf Hn.
  assert (Hlen : s_len (sdssetlen (set_buf s buf) n) = n) by (cbn; apply wrapu_small; lia).
  split; [|done]. unfold sds_wf. rewrite Hlen. cbn [s_type sdssetlen set_buf s_buf].
  destruct (decide (s_type s = 0)) as [H0|H0].
  - unfold sdsalloc in *. cbn [s_type sdssetlen set_buf]. change (SDS_TYPE_5) with 0 in *. rewrite H0 in *. cbn [Z.eqb] in *.
    rewrite Hlen. rewrite Hbuf. lia.
  - rewrite (sdsalloc_setlen s) by done. rewrite Hbuf. lia.
Qed.

Lemma rep_intro s buf str rest n : sds_wf s → length buf = length (s_buf s) → n = len str → len str <= sdsalloc s →
  buf = str ++ 0 :: rest → sds_rep (sdssetlen (set_buf s buf) n) str.
Proof.
  intros Hwf Hl -> Hn ->. destruct (set_wf s (str ++ 0 :: rest) (len str) Hwf Hl) as [? ?]; [lia|].
  split; [done|]. split; [done|]. by exists rest.
Qed.

Lemma store_nil (m : list Z) off : 0 <= off <= len m → store m off [] = Some m.
Proof.
  intros Ho. unfold store, in_range. cbn [length app]. replace (_ && _) with true by lia. by rewrite Nat.add_0_r, take_drop.
Qed.

Lemma load_all (l : list Z) : load l 0 (len l) = Some l.
Proof. pose proof (load_app0 l [] (len l) eq_refl) as Hl. by rewrite app_nil_r in Hl. Qed.

Section allocation.
Context `{Malloc}.

(** ** Making room *)

Lemma usable_cap t buf l size : 1 <= t <= 4 → 0 <= l <= size → size < 2 ^ field_width t → size <= len buf - 1 →
  let s := sdssetalloc (mk_sds t l 0 buf)
    (if len buf - 1 >? sdsTypeMaxSize t then sdsTypeMaxSize t else len buf - 1) in
  sds_wf s ∧ s_len s = l ∧ s_buf s = buf ∧ size <= sdsalloc s.
Proof.
  intros Ht Hl Hs Hb. cbv zeta. rewrite type_max by lia.
  set (u := if _ >? _ then _ else len buf - 1). assert (Hu : size <= u < 2 ^ field_width t ∧ u <= len buf - 1) by (unfold u; case_if; lia).
  clearbody u. unfold sdssetalloc. cbn [s_type]. unfold SDS_TYPE_5. replace (t =? 0) with false by lia.
  assert (sdsalloc (mk_sds t l (wrapu (field_width t) u) buf) = u) as Ha.
  { unfold sdsalloc; cbn. unfold SDS_TYPE_5. replace (t =? 0) with false by lia. apply wrapu_small. lia. }
  unfold sds_wf. cbn [s_type s_len s_buf]. rewrite Ha. split_and!; (done || lia).
Qed.

Lemma room s addlen greedy : sds_wf s → 0 <= addlen → s_len s + addlen < 2 ^ 63 →
  ∃ s', _sdsMakeRoomFor s addlen greedy = Some s' ∧ sds_wf s' ∧ s_len s' = s_len s ∧
    s_len s + addlen <= sdsalloc s' ∧
    take (Z.to_nat (s_len s) + 1) (s_buf s') = take (Z.to_nat (s_len s) + 1) (s_buf s).
Proof.
  intros Hwf Ha Hmax. pose proof Hwf as (Ht & Hl & Hcap & Hb). unfold _sdsMakeRoomFor, sdslen. rewrite avail_wf by done.
  destruct (Z.geb_spec (sdsalloc s - s_len s) addlen); [exists s; split_and!; (done || lia)|]. cbv zeta.
  rewrite (wrapu_small 64 (s_len s + addlen)) by lia. replace (negb (s_len s + addlen >? s_len s)) with false by lia.
  set (newlen := if greedy then _ else s_len s + addlen).
  assert (Hnew : s_len s + addlen <= newlen < 2 ^ 64 - 100).
  { unfold newlen, SDS_MAX_PREALLOC. destruct greedy; [|lia]. case_if; [lia|]. rewrite wrapu_small; lia. }
  clearbody newlen. pose proof (grow_type newlen ltac:(lia)) as Htype. cbv zeta in Htype.
  set (type := if _ =? SDS_TYPE_5 then SDS_TYPE_8 else _) in *. clearbody type. destruct Htype as [Htype Hfit].
  pose proof (hdr_size type) as Hh. set (h := sdsHdrSize type) in *. clearbody h.
  rewrite wrapu_small by lia. replace (negb _) with false by lia.
  pose proof (usable_size_ge (h + newlen + 1)) as Hu. set (usz := usable_size (h + newlen + 1)) in *.
  assert (Hgo : ∀ buf, len buf = usz - h →
    take (Z.to_nat (s_len s) + 1) buf = take (Z.to_nat (s_len s) + 1) (s_buf s) →
    let s1 := mk_sds type (s_len s) 0 buf in
    ∃ s', Some (sdssetalloc s1 (if usz - h - 1 >? sdsTypeMaxSize type then sdsTypeMaxSize type else usz - h - 1)) = Some s' ∧
    sds_wf s' ∧ s_len s' = s_len s ∧ s_len s + addlen <= sdsalloc s' ∧
    take (Z.to_nat (s_len s) + 1) (s_buf s') = take (Z.to_nat (s_len s) + 1) (s_buf s)).
  { intros buf Hbuf Htake. cbv zeta. eexists. split; [done|]. rewrite <- Hbuf.
    destruct (usable_cap type buf (s_len s) newlen Htype) as (? & ? & Hsb & ?); [lia..|]. split_and!; [done|done|lia|]. by rewrite Hsb. }
  cbv zeta in Hgo. destruct (Z.eqb_spec (s_type s) type) as [Et|Et].
  - unfold s_realloc_usable. mnext. fold usz.
    destruct (Hgo (realloc junk (s_buf s) (usz - h))) as (s' & Hs' & Hrest).
    + unfold realloc. len_lia.
    + unfold realloc. rewrite take_app_le by len_lia. rewrite take_take. f_equal. lia.
    + exists s'. split; [|done]. rewrite <- Hs', <- Et. unfold sdssetalloc. cbn [s_type set_buf s_len s_buf].
      unfold SDS_TYPE_5. by replace (s_type s =? 0) with false by lia.
  - unfold s_malloc_usable. fold usz. cbv iota. unfold load, in_range. replace (_ && _) with true by lia. mnext.
    rewrite drop_0. unfold store, in_range. rewrite length_take, length_replicate.
    replace (_ && _) with true by lia. mnext. mnext. cbn [s_type].
    set (buf := take (Z.to_nat 0) _ ++ _).
    destruct (Hgo buf) as (s' & Hs' & Hrest).
    + unfold buf. len_lia.
    + unfold buf. rewrite take_0. cbn [app]. rewrite take_app_le by (rewrite length_take; lia). rewrite take_take. f_equal. lia.
    + exists s'. split; [|done]. rewrite <- Hs'. unfold sdssetlen; cbn [s_type s_alloc s_buf].
      rewrite wrapu_small by lia. done.
Qed.

Lemma room_rep s str addlen greedy : sds_rep s str → 0 <= addlen → len str + addlen < 2 ^ 63 →
  ∃ s', _sdsMakeRoomFor s addlen greedy = Some s' ∧ sds_rep s' str ∧ len str + addlen <= sdsalloc s'.
Proof.
  intros (Hwf & Hl & rest & Hb) Ha Hmax. destruct (room s addlen greedy Hwf Ha) as (s' & -> & Hwf' & Hl' & Hcap & Ht); [lia|].
  exists s'. split; [done|]. split; [|lia]. split; [done|]. split; [lia|].
  exists (drop (length str + 1) (s_buf s')). rewrite <- (take_drop (length str + 1) (s_buf s')) at 1.
  rewrite Hl, Nat2Z.id in Ht. rewrite Ht, Hb. rewrite take_app, take_ge by lia.
  replace (length str + 1 - length str)%nat with 1%nat by lia. cbn [take]. by rewrite <- app_assoc.
Qed.

(** Bytes stored at [off] and a terminator after them. *)
Lemma place m off bs : 0 <= off → off + len bs < len m →
  ∃ m1 m2 rest, store m off bs = Some m1 ∧ store8 m1 (off + len bs) 0 = Some m2 ∧
    m2 = (take (Z.to_nat off) m ++ bs) ++ 0 :: rest ∧ length m2 = length m.
Proof.
  intros Ho Hb. set (a := take (Z.to_nat off) m). set (t := drop (Z.to_nat off) m).
  assert (Hm : m = a ++ take (length bs) t ++ drop (length bs) t) by (unfold a, t; by rewrite !take_drop).
  assert (Ha : len a = off) by (unfold a; len_lia).
  assert (Ht : (length bs < length t)%nat) by (unfold t; len_lia).
  destruct (drop (length bs) t) as [|x rest] eqn:E.
  { apply (f_equal length) in E. rewrite length_drop in E. cbn in E. lia. }
  exists (a ++ bs ++ x :: rest), ((a ++ bs) ++ 0 :: rest), rest. split_and!; [|..|done|].
  - rewrite Hm at 1. apply store_app; [lia|]. rewrite length_take. lia.
  - rewrite app_assoc. rewrite (store8_app _ x) by len_lia. done.
  - apply (f_equal length) in Hm. rewrite Hm. len_lia.
Qed.

Lemma rep_take s str : sds_rep s str → take (Z.to_nat (len str)) (s_buf s) = str.
Proof. intros (_ & _ & rest & ->). rewrite Nat2Z.id. apply take_app_length. Qed.

(** ** Creation *)

Lemma newlen_fresh type buf l : 0 <= type <= 4 → 0 <= l → l < 2 ^ field_width type → l < len buf →
  let s := sdssetalloc (sdssetlen (mk_sds type 0 0 buf) l)
    (if len buf - 1 >? sdsTypeMaxSize type then sdsTypeMaxSize type else len buf - 1) in
  sds_wf s ∧ s_len s = l ∧ s_buf s = buf ∧ l <= sdsalloc s.
Proof.
  intros Ht Hl Hf Hb. cbv zeta. unfold sdssetlen. cbn [s_type s_alloc s_buf]. rewrite wrapu_small by lia.
  destruct (decide (type = 0)) as [->|H0]; [|apply usable_cap; lia].
  unfold sdssetalloc, sds_wf, sdsalloc. cbn in *. split_and!; (done || lia).
Qed.

Lemma buf_fresh type buf l u : s_buf (sdssetalloc (sdssetlen (mk_sds type 0 0 buf) l) u) = buf.
Proof. unfold sdssetalloc. by destruct (_ =? _). Qed.

Definition init_bytes (init : initial) (l : Z) : option (list Z) :=
  match init with
  | NULL => Some (replicate (Z.to_nat l) 0)
  | SDS_NOINIT => Some (replicate (Z.to_nat l) junk)
  | Bytes bs => load bs 0 l
  end.

Lemma newlen_spec init l bs try : 0 <= l < 2 ^ 63 → init_bytes init l = Some bs →
  ∃ s, _sdsnewlen init l try true = Some (Some s) ∧ sds_rep s bs.
Proof.
  intros Hl Hi. assert (Hbs : len bs = l).
  { destruct init; cbn in Hi; [injection Hi as <-; len_lia..|]. apply load_spec in Hi as (_ & _ & ? & ->). len_lia. }
  unfold _sdsnewlen. cbv zeta. rewrite andb_false_r.
  assert (Htype : ∃ type, (if (sdsReqType l =? SDS_TYPE_5) && (l =? 0) then SDS_TYPE_8 else sdsReqType l) = type ∧
    0 <= type <= 4 ∧ l < 2 ^ field_width type).
  { eexists. split; [done|]. pose proof (req_type l ltac:(lia)). pose proof type_values. case_if; lia. }
  destruct Htype as (type & -> & Ht & Hf). pose proof (hdr_size type) as Hh. set (h := sdsHdrSize type) in *.
  rewrite wrapu_small by lia. replace (negb _) with false by lia. unfold s_malloc_usable.
  pose proof (usable_size_ge (h + l + 1)) as Hu. set (usz := usable_size (h + l + 1)) in *.
  set (buf0 := replicate (Z.to_nat (usz - h)) junk). assert (Hb0 : len buf0 = usz - h) by (unfold buf0; len_lia).
  assert (Hfin : ∀ buf, len buf = usz - h → (∃ rest, buf = bs ++ rest) →
    let s := sdssetalloc (sdssetlen (mk_sds type 0 0 buf) l)
      (if usz - h - 1 >? sdsTypeMaxSize type then sdsTypeMaxSize type else usz - h - 1) in
    ∃ s', (b ← store8 buf l 0; Some (Some (set_buf s b))) = Some (Some s') ∧ sds_rep s' bs).
  { intros buf Hlb [rest ->]. cbv zeta. replace (usz - h - 1) with (len (bs ++ rest) - 1) by lia.
    destruct (newlen_fresh type (bs ++ rest) l) as (Hwf & Hsl & Hsb & Hcap); [done|lia|lia|lia|].
    set (s := sdssetalloc _ _) in *. destruct rest as [|x rest]; [rewrite app_nil_r in Hlb; lia|].
    rewrite (store8_app bs x) by lia. mnext. eexists. split; [done|]. change (u8 0) with 0.
    replace (set_buf s (bs ++ 0 :: rest)) with (sdssetlen (set_buf s (bs ++ 0 :: rest)) l).
    - apply (rep_intro _ _ _ rest); [done|rewrite Hsb; len_lia|lia|lia|done].
    - unfold sdssetlen, set_buf. cbn. f_equal. rewrite Hsl. apply wrapu_small.
      destruct Hwf as (_ & ? & ? & _). lia. }
  cbv zeta in Hfin. destruct init as [| |mem]; cbn [init_bytes] in Hi.
  - injection Hi as <-. unfold memset, store, in_range. rewrite length_replicate. replace (_ && _) with true by lia. mnext.
    rewrite buf_fresh. mnext. apply Hfin; [len_lia|]. rewrite take_0. cbn [app]. replace (Z.to_nat (l + 1)) with (S (Z.to_nat l)) by lia.
    rewrite replicate_S_end, <- app_assoc. by eexists.
  - injection Hi as <-. mnext. rewrite buf_fresh. mnext. apply Hfin; [done|]. unfold buf0.
    exists (replicate (Z.to_nat (usz - h) - Z.to_nat l) junk). rewrite <- replicate_add. f_equal. lia.
  - mnext. destruct (Z.eqb_spec l 0) as [->|H0]; cbn [negb].
    + destruct bs; [|cbn in Hbs; lia]. rewrite buf_fresh. mnext. apply Hfin; [done|]. by exists buf0.
    + rewrite Hi. mnext. rewrite buf_fresh.
      unfold store, in_range. replace (_ && _) with true by lia. mnext. cbn [Z.to_nat Nat.add]. rewrite take_0. cbn [app].
      destruct (Hfin (bs ++ drop (length bs) buf0)) as (s' & Hs' & Hr); [len_lia|by eexists|].
      exists s'. split; [|done]. rewrite <- Hs'. unfold sdssetalloc. by destruct (_ =? _).
Qed.

(** ** Growing *)

(** Storing [bs] at [off] and cutting the string there. *)
Lemma rep_place s off bs : sds_wf s → 0 <= off → off + len bs <= sdsalloc s →
  ∃ m1 m2, store (s_buf s) off bs = Some m1 ∧ store8 m1 (off + len bs) 0 = Some m2 ∧
    sds_rep (sdssetlen (set_buf s m2) (off + len bs)) (take (Z.to_nat off) (s_buf s) ++ bs).
Proof.
  intros Hwf Ho Hb. pose proof Hwf as (_ & _ & _ & Hbuf).
  destruct (place (s_buf s) off bs Ho) as (m1 & m2 & rest & H1 & H2 & Hm2 & Hl); [lia|]. exists m1, m2. split_and!; [done..|].
  apply (rep_intro _ _ _ rest); [done|done|..|done]; rewrite length_app, length_take; lia.
Qed.

Lemma catlen_spec s str t l bs : sds_rep s str → load t 0 l = Some bs → len str + l < 2 ^ 63 →
  ∃ s', sdscatlen s t l = Some s' ∧ sds_rep s' (str ++ bs).
Proof.
  intros Hrep Hload Hmax. pose proof Hload as (_ & Hl0 & Hlt & Hbs)%load_spec. assert (Hlb : len bs = l) by (rewrite Hbs; len_lia).
  unfold sdscatlen, sdslen, sdsMakeRoomFor. pose proof Hrep as (_ & Hlen & _). rewrite Hlen.
  destruct (room_rep s str l true Hrep) as (s1 & -> & Hrep1 & Hcap); [lia..|]. mnext. rewrite Hload. mnext.
  pose proof Hrep1 as (Hwf1 & _). destruct (rep_place s1 (len str) bs Hwf1) as (m1 & m2 & -> & H2 & Hr); [lia..|].
  rewrite Hlb in H2, Hr. mnext. cbn [s_buf sdssetlen set_buf]. rewrite H2. mnext. eexists. split; [done|].
  rewrite rep_take in Hr by done. exact Hr.
Qed.

Lemma cpylen_spec s str t l bs : sds_rep s str → load t 0 l = Some bs → l < 2 ^ 63 →
  ∃ s', sdscpylen s t l = Some s' ∧ sds_rep s' bs.
Proof.
  intros Hrep Hload Hmax. pose proof Hload as (_ & Hl0 & Hlt & Hbs)%load_spec. assert (Hlb : len bs = l) by (rewrite Hbs; len_lia).
  unfold sdscpylen, sdslen. pose proof Hrep as (Hwf & Hlen & _).
  assert (∃ s1, (if sdsalloc s <? l then sdsMakeRoomFor s (l - s_len s) else Some s) = Some s1 ∧ sds_wf s1 ∧ l <= sdsalloc s1)
    as (s1 & -> & Hwf1 & Hcap).
  { destruct (Z.ltb_spec (sdsalloc s) l); [|by exists s]. destruct Hwf as (_ & ? & _).
    destruct (room_rep s str (l - s_len s) true Hrep) as (s1 & Hs1 & (? & _) & ?); [lia..|]. exists s1. split_and!; [done..|lia]. }
  mnext. rewrite Hload. mnext. destruct (rep_place s1 0 bs Hwf1) as (m1 & m2 & -> & H2 & Hr); [lia..|].
  rewrite Z.add_0_l, Hlb in H2, Hr. mnext. rewrite H2. mnext. eexists. split; [done|]. exact Hr.
Qed.

Lemma growzero_spec s str n : sds_rep s str → n < 2 ^ 63 →
  ∃ s', sdsgrowzero s n = Some s' ∧ sds_rep s' (str ++ replicate (Z.to_nat n - length str) 0).
Proof.
  intros Hrep Hmax. unfold sdsgrowzero, sdslen, sdsMakeRoomFor. pose proof Hrep as (_ & Hlen & _). rewrite Hlen.
  destruct (Z.leb_spec n (len str)).
  { exists s. split; [done|]. replace (Z.to_nat n - length str)%nat with 0%nat by lia. by rewrite app_nil_r. }
  destruct (room_rep s str (n - len str) true Hrep) as (s1 & -> & Hrep1 & Hcap); [lia..|]. mnext.
  pose proof Hrep1 as ((_ & _ & _ & Hb1) & _). pose proof (rep_take _ _ Hrep1) as Htake. pose proof Hrep1 as (Hwf1 & _).
  unfold memset, store, in_range. rewrite length_replicate. replace (_ && _) with true by lia. mnext. eexists. split; [done|].
  set (k := (Z.to_nat n - length str)%nat). replace (Z.to_nat (n - len str + 1)) with (S k) by lia.
  rewrite replicate_S_end, <- (app_assoc _ [0]), Htake, app_assoc.
  eapply (rep_intro _ _ _ (drop _ _)); [done| |rewrite length_app, length_replicate; lia..|done].
  apply (f_equal length) in Htake. len_lia.
Qed.

(** The documented use of sdsIncrLen: room is made, [bs] is written after the end,
    and the length is set. *)
Definition append_in_place (s : sds) (bs : list Z) : option sds :=
  s ← sdsMakeRoomFor s (len bs);
  buf ← store (s_buf s) (sdslen s) bs;
  sdsIncrLen (set_buf s buf) (len bs).

Lemma incr_allowed_wf s n : sds_wf s → s_type s ≠ 0 → 0 <= n → s_len s + n <= sdsalloc s → incr_allowed s n = true.
Proof.
  intros (Ht & Hl & Hf & _) H0 Hn Hc. unfold incr_allowed, sdsalloc, SDS_TYPE_5 in *. pose proof (field_width_le (s_type s)).
  replace (s_type s =? 0) with false in * by lia. case_if; [lia|].
  destruct (Z.eqb_spec (s_type s) SDS_TYPE_32) as [E32|]; [|rewrite wrapu_small; lia]. rewrite E32 in Hf. change (field_width SDS_TYPE_32) with 32 in Hf.
  rewrite (wrapu_small 32 (s_alloc s - s_len s)), (wrapu_small 32 n) by lia. lia.
Qed.

Lemma set_buf_wf o m : sds_wf o → length m = length (s_buf o) → sds_wf (set_buf o m).
Proof. unfold sds_wf, sdsalloc. cbn. by intros ? ->. Qed.

Lemma rep_set_buf o str str' rest : sds_rep o str → s_buf o = str ++ 0 :: rest → length str' = length str →
  sds_rep (set_buf o (str' ++ 0 :: rest)) str'.
Proof.
  intros (Hwf & Hl & _) Hb Hlen. split; [|split; [cbn; congruence|by exists rest]].
  unfold sds_wf, sdsalloc in *. cbn. rewrite Hb in Hwf. rewrite !length_app in *. cbn [length] in *. by rewrite Hlen.
Qed.

Lemma incrlen_any s d str x rest : sds_wf s → (s_type s ≠ 0 ∨ d < 0) → - 2 ^ 31 <= d → s_len s + d = len str →
  len str <= sdsalloc s → s_buf s = str ++ x :: rest →
  ∃ s', sdsIncrLen s d = Some s' ∧ sds_rep s' str ∧ s_buf s' = str ++ 0 :: rest.
Proof.
  intros Hwf Ht Hd Hl Ha Hb. unfold sdsIncrLen. pose proof Hwf as (_ & ? & ? & _). pose proof (field_width_le (s_type s)).
  assert (incr_allowed s d = true) as ->.
  { destruct (decide (0 <= d)); [apply incr_allowed_wf; (done || lia)|].
    unfold incr_allowed. rewrite wrapu_small by lia. repeat case_if; lia. }
  cbn [negb]. assert ((if s_type s =? SDS_TYPE_5 then u64 (s_len s + d) else s_len (sdsinclen s d)) = len str) as ->.
  { unfold sdsinclen. cbn [s_len]. rewrite Hl. case_if; rewrite wrapu_small; lia. }
  cbn [s_buf sdsinclen]. rewrite Hb, store8_app by done. mnext. eexists. split; [done|]. split; [|done].
  pose proof (rep_intro s (str ++ 0 :: rest) str rest (s_len s + d) Hwf) as Hr. unfold sdssetlen, set_buf, sdsinclen in *. cbn in *.
  apply Hr; [by rewrite Hb, !length_app|done..].
Qed.

Lemma room_type o n str : sds_rep o str → 0 < n → len str + n <= sdsalloc o → s_type o ≠ 0.
Proof.
  intros (_ & Hl & _) Hn Hc E. unfold sdsalloc in Hc. rewrite E in Hc. change (0 =? SDS_TYPE_5) with true in Hc. cbv iota in Hc. lia.
Qed.

(** Bytes stored after the string, in room that is there. *)
Lemma append_room s str bs : sds_rep s str → 0 < len bs → len str + len bs <= sdsalloc s →
  ∃ m s', store (s_buf s) (len str) bs = Some m ∧ sdsIncrLen (set_buf s m) (len bs) = Some s' ∧ sds_rep s' (str ++ bs).
Proof.
  intros Hrep Hpos Hcap. pose proof (room_type s _ _ Hrep Hpos Hcap) as Ht. pose proof Hrep as (Hwf & Hl & rest & Hb). pose proof Hwf as (_ & _ & _ & Hlb).
  assert (Hlr : len bs <= len rest) by (rewrite Hb in Hlb; rewrite length_app in Hlb; cbn [length] in Hlb; lia).
  destruct (drop (length bs) (0 :: rest)) as [|x rest'] eqn:E; [apply (f_equal length) in E; rewrite length_drop in E; cbn [length] in E; lia|].
  rewrite Hb, <- (take_drop (length bs) (0 :: rest)), E.
  rewrite store_app by (try done; rewrite length_take; cbn [length]; lia). eexists. 
  destruct (incrlen_any (set_buf s (str ++ bs ++ x :: rest')) (len bs) (str ++ bs) x rest') as (s' & Hinc & Hr & _); [|by left|lia|..|by exists s'].
  - apply set_buf_wf; [done|]. rewrite Hb, <- (take_drop (length bs) (0 :: rest)), E, !length_app, length_take. cbn [length]. lia.
  - cbn. rewrite length_app. lia.
  - rewrite length_app. change (sdsalloc (set_buf s _)) with (sdsalloc s). lia.
  - cbn. by rewrite <- app_assoc.
Qed.

Lemma append_spec s str bs : sds_rep s str → 0 < len bs → len str + len bs < 2 ^ 63 →
  ∃ s', append_in_place s bs = Some s' ∧ sds_rep s' (str ++ bs).
Proof.
  intros Hrep Hpos Hmax. unfold append_in_place, sdslen, sdsMakeRoomFor.
  destruct (room_rep s str (len bs) true Hrep) as (s1 & -> & Hrep1 & Hcap); [lia..|]. mnext.
  pose proof Hrep1 as (_ & Hlen1 & _). rewrite Hlen1.
  destruct (append_room s1 str bs Hrep1 Hpos Hcap) as (m & s' & -> & Hinc & Hr). mnext. eauto.
Qed.

(** ** Shrinking *)

Lemma clear_spec s str : sds_rep s str → ∃ s', sdsclear s = Some s' ∧ sds_rep s' [].
Proof.
  intros (Hwf & _). unfold sdsclear. cbn [s_buf sdssetlen]. pose proof Hwf as (_ & ? & _).
  destruct (rep_place s 0 [] Hwf) as (m1 & m2 & Hm1 & Hm2 & Hr); [done|cbn; lia|].
  rewrite store_nil in Hm1 by lia. injection Hm1 as <-.
  change (0 + len []) with 0 in *. rewrite Hm2. mnext. eexists. split; [done|]. exact Hr.
Qed.

(** The string up to its first zero byte. *)
Fixpoint cstring (str : list Z) : list Z :=
  match str with
  | [] => []
  | c :: str => if c =? 0 then [] else c :: cstring str
  end.

Lemma strlen_spec str rest : strlen (str ++ 0 :: rest) = Some (len (cstring str)).
Proof.
  induction str as [|c str IH]; [done|]. cbn [app strlen cstring]. case_if; [done|]. rewrite IH. mnext. cbn [length]. f_equal. lia.
Qed.

Lemma cstring_prefix str : ∃ r, str = cstring str ++ r ∧ (r = [] ∨ ∃ r', r = 0 :: r').
Proof.
  induction str as [|c str (r & Hr & H0)]; [exists []; auto|]. cbn [cstring]. case_if.
  - subst. exists (0 :: str). eauto.
  - exists r. split; [by rewrite Hr at 1|done].
Qed.

Lemma updatelen_spec s str : sds_rep s str → ∃ s', sdsupdatelen s = Some s' ∧ sds_rep s' (cstring str).
Proof.
  intros (Hwf & Hl & rest & Hb). unfold sdsupdatelen. rewrite Hb, strlen_spec. mnext. eexists. split; [done|].
  destruct (cstring_prefix str) as (r & Hr & H0). assert (Hle : len (cstring str) <= len str) by (rewrite Hr at 2; len_lia).
  pose proof Hwf as (_ & ? & _).
  assert (∃ rest', s_buf s = cstring str ++ 0 :: rest') as [rest' Hb'].
  { assert (Hx : str ++ 0 :: rest = cstring str ++ r ++ 0 :: rest) by (rewrite app_assoc, <- Hr; done).
    rewrite Hb, Hx. destruct H0 as [->|[r' ->]]; by eexists. }
  change (sdssetlen s (len (cstring str))) with (sdssetlen (set_buf s (s_buf s)) (len (cstring str))).
  apply (rep_intro _ _ _ rest'); (done || lia).
Qed.

Lemma substr_spec s str start l : sds_rep s str → 0 <= start → 0 <= l →
  ∃ s', sdssubstr s start l = Some s' ∧ sds_rep s' (take (Z.to_nat l) (drop (Z.to_nat start) str)).
Proof.
  intros (Hwf & Hlen & rest & Hb) Hs Hl. unfold sdssubstr, sdslen. rewrite Hlen. pose proof Hwf as (_ & ? & _).
  set (part := take (Z.to_nat l) (drop (Z.to_nat start) str)).
  assert (∃ start' l', (let '(start, l) := if start >=? len str then (0, 0) else (start, l) in
      (start, if l >? len str - start then len str - start else l)) = (start', l') ∧
      part = take (Z.to_nat l') (drop (Z.to_nat start') str) ∧ 0 <= start' ∧ 0 <= l' ∧ start' + l' <= len str)
    as (start' & l' & Heq & Hpart & Hs' & Hl' & Hsum).
  { unfold part. destruct (Z.geb_spec start (len str)).
    - eexists 0, _. split; [done|]. replace (0 >? len str - 0) with false by lia. split_and!; [|lia..].
      rewrite drop_ge by lia. by rewrite take_nil.
    - eexists start, _. split; [done|]. case_if; [|split_and!; [done|lia..]]. split_and!; [|lia..].
      rewrite !take_ge by (rewrite length_drop; lia). done. }
  destruct (if start >=? len str then (0, 0) else (start, l)) as [st ll]. injection Heq as Hst Hll. subst st. rewrite Hll. cbv zeta.
  assert (Hlp : len part = l') by (rewrite Hpart, length_take, length_drop; lia).
  assert (Hmove : ∃ r, length r = (length (s_buf s) - length part)%nat ∧
    (if negb (l' =? 0) then memmove (s_buf s) 0 start' l' else Some (s_buf s)) = Some (part ++ r)).
  { destruct (Z.eqb_spec l' 0) as [->|Hl0]; cbn [negb].
    - exists (s_buf s). destruct part; [|cbn in Hlp; lia]. split; [cbn; lia|done].
    - exists (drop (length part) (s_buf s)). split; [rewrite length_drop; lia|]. unfold memmove, load, in_range.
      rewrite Hb at 1. replace (_ && _) with true by len_lia. mnext.
      assert (take (Z.to_nat l') (drop (Z.to_nat start') (s_buf s)) = part) as ->.
      { rewrite Hb, drop_app_le, take_app_le by (rewrite ?length_drop; lia). done. }
      unfold store, in_range. rewrite Hb at 1. replace (_ && _) with true by len_lia. done. }
  destruct Hmove as (r & Hr & ->). mnext. destruct r as [|x r].
  { cbn [length] in Hr. rewrite Hb in Hr. rewrite length_app in Hr. cbn [length] in Hr. lia. }
  rewrite (store8_app part x) by lia. mnext. eexists. split; [done|]. change (u8 0) with 0.
  apply (rep_intro _ _ _ r); [done| |lia|lia|done]. rewrite length_app in *. cbn [length] in *. lia.
Qed.

(** The meaning of sdsrange: a negative index counts from the end; an index that
    is still negative is beyond the end. *)
Definition range_of (start end_ : Z) (str : list Z) : list Z :=
  let abs i := if i <? 0 then len str + i else i in
  if (abs start <? 0) || (abs start >? abs end_) then []
  else take (Z.to_nat (abs end_ - abs start + 1)) (drop (Z.to_nat (abs start)) str).

Lemma range_spec s str start end_ : sds_rep s str → - 2 ^ 63 <= start < 2 ^ 63 → - 2 ^ 63 <= end_ < 2 ^ 63 → len str < 2 ^ 63 →
  ∃ s', sdsrange s start end_ = Some s' ∧ sds_rep s' (range_of start end_ str).
Proof.
  intros Hrep Hs He Hmax. unfold sdsrange, sdslen. pose proof Hrep as (_ & Hlen & _). rewrite Hlen.
  destruct (Z.eqb_spec (len str) 0) as [H0|H0].
  { exists s. split; [done|]. destruct str; [|cbn in H0; lia]. unfold range_of. cbv zeta. case_if; [done|].
    by rewrite drop_nil, take_nil. }
  unfold range_of. cbv zeta. set (abs := λ i, if i <? 0 then len str + i else i).
  assert (Habs : ∀ i, - 2 ^ 63 <= i < 2 ^ 63 → (if i <? 0 then s64 (len str + i) else i) = abs i ∧ - 2 ^ 63 <= abs i < 2 ^ 63).
  { intros i Hi. unfold abs. destruct (Z.ltb_spec i 0); [|lia]. rewrite wraps_small; lia. }
  destruct (Habs start Hs) as [-> Ha]. destruct (Habs end_ He) as [-> Hb]. change (if start <? 0 then _ else _) with (abs start).
  change (if end_ <? 0 then _ else _) with (abs end_).
  set (a := abs start) in *. set (b := abs end_) in *. clearbody a b.
  assert (Hn : ∃ n, (if a >? b then 0 else b - a + 1) = n ∧ 0 <= n <= 2 ^ 64) by (eexists; split; [done|]; case_if; lia).
  destruct (Z.ltb_spec a 0) as [Hneg|Hneg]; cbn [orb].
  - assert (Hu : u64 a = 2 ^ 64 + a) by (unfold wrapu; rewrite <- (Z.mod_add a 1), Z.mod_small by lia; lia). rewrite Hu.
    destruct (substr_spec s str (2 ^ 64 + a) (u64 (if a >? b then 0 else b - a + 1)) Hrep) as (s' & -> & Hr);
      [lia|by apply wrapu_range|]. exists s'. split; [done|]. rewrite drop_ge, take_nil in Hr by lia. done.
  - rewrite (wrapu_small 64 a) by lia. destruct (Z.gtb_spec a b).
    + destruct (substr_spec s str a 0 Hrep) as (s' & Hs' & Hr); [lia..|]. by exists s'.
    + rewrite wrapu_small by lia. apply substr_spec; (done || lia).
Qed.

Lemma incrlen_cut s str n : sds_rep s str → 0 < n <= len str → n < 2 ^ 32 →
  ∃ s', sdsIncrLen s (- n) = Some s' ∧ sds_rep s' (take (Z.to_nat (len str - n)) str).
Proof.
  intros (Hwf & Hlen & rest & Hb) Hn H32. unfold sdsIncrLen. rewrite Hlen.
  assert (incr_allowed s (- n) = true) as ->.
  { unfold incr_allowed. rewrite Hlen, Z.opp_involutive, wrapu_small by lia. repeat case_if; lia. }
  cbn [negb]. pose proof Hwf as (_ & ? & ? & _). pose proof (field_width_le (s_type s)).
  assert ((if s_type s =? SDS_TYPE_5 then u64 (len str + - n) else s_len (sdsinclen s (- n))) = len str - n) as ->.
  { unfold sdsinclen. cbn [s_len]. rewrite Hlen. case_if; rewrite wrapu_small; lia. }
  destruct (rep_place s (len str - n) [] Hwf) as (m1 & m2 & Hm1 & Hm2 & Hr); [lia|cbn; lia|].
  rewrite store_nil in Hm1 by (cbn [length]; destruct Hwf as (_ & _ & _ & ?); lia). injection Hm1 as <-.
  cbn [length] in *. rewrite Z.add_0_r in *. change (s_buf (sdsinclen s (- n))) with (s_buf s). rewrite Hm2. mnext.
  eexists. split; [done|]. rewrite app_nil_r, Hb, take_app_le in Hr by lia.
  unfold sdsinclen, sdssetlen, set_buf in *. cbn in *. by rewrite Hlen.
Qed.

(** ** Trimming *)

Fixpoint strip_left (P : Z → bool) (l : list Z) : list Z :=
  match l with
  | [] => []
  | c :: l => if P c then strip_left P l else c :: l
  end.
Definition strip_right (P : Z → bool) (l : list Z) : list Z := reverse (strip_left P (reverse l)).

Lemma strip_left_suffix P l : ∃ k, l = take k l ++ strip_left P l ∧ (k <= length l)%nat.
Proof.
  induction l as [|c l (k & Hk & Hl)]; [by exists 0%nat|]. cbn [strip_left]. destruct (P c).
  - exists (S k). cbn [take app length]. split; [by f_equal|lia].
  - exists 0%nat. split; [done|lia].
Qed.

Lemma trim_left_spec fuel pre l post cset : (length l <= fuel)%nat →
  trim_left fuel (pre ++ l ++ post) cset (len pre) (len pre + len l - 1) =
  Some (len pre + len l - len (strip_left (strchr cset) l)).
Proof.
  revert fuel pre. induction l as [|c l IH]; intros fuel pre Hf.
  { destruct fuel; cbn [trim_left length strip_left]; replace (_ <=? _) with false by lia; f_equal; lia. }
  destruct fuel as [|fuel]; [cbn in Hf; lia|]. cbn [trim_left]. replace (_ <=? _) with true by (cbn [length]; lia).
  cbn [app]. rewrite load8_app by done. mnext. cbn [strip_left]. destruct (strchr cset c).
  - specialize (IH fuel (pre ++ [c]) ltac:(cbn [length] in Hf; lia)). rewrite <- app_assoc in IH. cbn [app] in IH.
    replace (len (pre ++ [c])) with (len pre + 1) in IH by len_lia.
    replace (len pre + len (c :: l) - 1) with (len pre + 1 + len l - 1) by (cbn [length]; lia).
    rewrite IH. f_equal. cbn [length]. lia.
  - f_equal. lia.
Qed.

(** The first character of [l] is kept: the loop stops there. *)
Lemma trim_right_spec fuel pre l post cset : (length l <= fuel)%nat →
  (∀ c, head l = Some c → strchr cset c = false) →
  trim_right fuel (pre ++ l ++ post) cset (len pre) (len pre + len l - 1) =
  Some (len pre + len (strip_right (strchr cset) l) - 1).
Proof.
  revert fuel post. induction l as [|c l IH] using rev_ind; intros fuel post Hf Hhd.
  { destruct fuel; cbn [trim_right length]; replace (_ >? _) with false by lia; done. }
  rewrite length_app in Hf. cbn [length] in Hf. destruct fuel as [|fuel]; [lia|]. cbn [trim_right].
  unfold strip_right. rewrite reverse_snoc. cbn [strip_left]. fold (strip_right (strchr cset) l).
  destruct l as [|d l].
  { cbn [app length]. replace (_ >? _) with false by lia. rewrite Hhd by done. done. }
  assert (Hdl : len (d :: l) >= 1) by (cbn [length]; lia). rewrite length_app.
  replace (_ >? _) with true by (cbn [length] in *; lia). rewrite <- !app_assoc, app_assoc. cbn [app].
  rewrite (load8_app (pre ++ d :: l) c) by len_lia. mnext. destruct (strchr cset c).
  - rewrite <- app_assoc. specialize (IH fuel (c :: post) ltac:(cbn [length] in *; lia)). cbn [app] in IH.
    replace (len pre + Z.of_nat (length (d :: l) + length [c]) - 1 - 1) with (len pre + len (d :: l) - 1) by (cbn [length]; lia).
    apply IH. intros x Hx. by apply Hhd.
  - f_equal. rewrite length_reverse. cbn [length]. rewrite length_reverse. cbn [length]. lia.
Qed.

Lemma strip_left_head P l c : head (strip_left P l) = Some c → P c = false.
Proof. induction l as [|d l IH]; [done|]. cbn [strip_left]. destruct (P d) eqn:E; [done|]. by intros [= ->]. Qed.

Lemma strip_right_prefix P l : ∃ r, l = strip_right P l ++ r.
Proof.
  unfold strip_right. destruct (strip_left_suffix P (reverse l)) as (k & Hk & _). exists (reverse (take k (reverse l))).
  rewrite <- reverse_app. rewrite <- Hk. by rewrite reverse_involutive.
Qed.

(** What is left of a string when its ends are trimmed; strchr finds the
    terminator of the set, so zero bytes are trimmed too. *)
Definition trimmed (cset str : list Z) : list Z := strip_right (strchr cset) (strip_left (strchr cset) str).

Lemma trim_spec s str cset : sds_rep s str → ∃ s', sdstrim s cset = Some s' ∧ sds_rep s' (trimmed cset str).
Proof.
  intros (Hwf & Hlen & rest & Hb). unfold sdstrim, sdslen. rewrite Hlen, Hb. pose proof Hwf as (_ & Hcap & _).
  pose proof (trim_left_spec (length (str ++ 0 :: rest)) [] str (0 :: rest) cset) as Hleft.
  cbn [app] in Hleft. change (len []) with 0 in Hleft. rewrite Z.add_0_l in Hleft. rewrite Hleft by len_lia. mnext.
  destruct (strip_left_suffix (strchr cset) str) as (k & Hk & Hkl). set (l1 := strip_left _ str) in *.
  assert (Hl1 : length str = (k + length l1)%nat) by (rewrite Hk at 1; rewrite length_app, length_take; lia).
  pose proof (trim_right_spec (length (str ++ 0 :: rest)) (take k str) l1 (0 :: rest) cset) as Hright.
  rewrite app_assoc, <- Hk in Hright. replace (len (take k str)) with (len str - len l1) in Hright by len_lia.
  replace (len str - len l1 + len l1 - 1) with (len str - 1) in Hright by lia.
  rewrite Hright by (first [len_lia|intros c Hc; by eapply strip_left_head]). mnext.
  fold (trimmed cset str). replace (strip_right (strchr cset) l1) with (trimmed cset str) by done.
  destruct (strip_right_prefix (strchr cset) l1) as [r Hr]. change (strip_right (strchr cset) l1) with (trimmed cset str) in Hr.
  set (t := trimmed cset str) in *. assert (Hlt : length l1 = (length t + length r)%nat) by (rewrite Hr at 1; apply length_app).
  set (sp := len str - len l1). replace (sp + len t - 1 - sp + 1) with (len t) by lia.
  assert (Hmove : ∃ u, length (t ++ u) = length (str ++ 0 :: rest) ∧
    (if negb (sp =? 0) then memmove (str ++ 0 :: rest) 0 sp (len t) else Some (str ++ 0 :: rest)) = Some (t ++ u)).
  { destruct (Z.eqb_spec sp 0) as [Hs0|Hs0]; cbn [negb].
    - exists (r ++ 0 :: rest). assert (k = 0%nat) as -> by lia. change (take 0 str ++ l1) with l1 in Hk.
      assert (Hall : str ++ 0 :: rest = t ++ r ++ 0 :: rest) by (rewrite app_assoc, <- Hr, <- Hk; done). by rewrite Hall.
    - exists (drop (length t) (str ++ 0 :: rest)). split; [len_lia|]. unfold memmove.
      assert (load (str ++ 0 :: rest) sp (len t) = Some t) as ->.
      { assert (Hall : str ++ 0 :: rest = take k str ++ t ++ r ++ 0 :: rest)
          by (rewrite (app_assoc t), <- Hr, app_assoc, <- Hk; done).
        rewrite Hall. apply load_app; [rewrite length_take; lia|done]. }
      mnext. unfold store, in_range. replace (_ && _) with true by len_lia. done. }
  destruct Hmove as (u & Hu & ->). mnext. rewrite length_app in Hu. destruct u as [|x u].
  { rewrite length_app in Hu. cbn [length] in Hu. lia. }
  rewrite (store8_app t x) by done. mnext. eexists. split; [done|]. change (u8 0) with 0.
  apply (rep_intro _ _ _ u); [done| |done|lia|done]. rewrite Hb. clear - Hu. len_lia.
Qed.

(** ** Reallocation *)

Lemma setalloc_rep t x buf str a rest : 0 <= t <= 4 → len str <= a < 2 ^ field_width t → a < len buf →
  (t = 0 → a = len str) → buf = str ++ 0 :: rest → sds_rep (sdssetalloc (mk_sds t (len str) x buf) a) str.
Proof.
  intros Ht Ha Hb H0 ->. unfold sdssetalloc, SDS_TYPE_5. cbn [s_type s_len s_buf]. destruct (Z.eqb_spec t 0) as [->|Hn].
  - split; [|by eauto]. unfold sds_wf, sdsalloc. cbn in *. lia.
  - split; [|by eauto]. unfold sds_wf, sdsalloc, SDS_TYPE_5. cbn [s_type s_len s_alloc s_buf].
    replace (t =? 0) with false by lia. rewrite wrapu_small by lia. lia.
Qed.

Lemma realloc_keeps buf n k : 0 <= k <= n → k <= len buf → take (Z.to_nat k) (realloc junk buf n) = take (Z.to_nat k) buf.
Proof. intros Hk Hb. unfold realloc. rewrite take_app_le by len_lia. rewrite take_take. f_equal. lia. Qed.

(** A block that keeps the string, its terminator included. *)
Lemma keeps_rest buf str : take (length str + 1) buf = str ++ [0] → buf = str ++ 0 :: drop (length str + 1) buf.
Proof. intros Ht. rewrite <- (take_drop (length str + 1) buf) at 1. rewrite Ht. by rewrite <- app_assoc. Qed.

Lemma rep_take_end s str : sds_rep s str → take (length str + 1) (s_buf s) = str ++ [0].
Proof.
  intros (_ & _ & rest & ->). rewrite take_app, take_ge by lia. replace (length str + 1 - length str)%nat with 1%nat by lia. done.
Qed.

Lemma removefree_spec s str : sds_rep s str → len str < 2 ^ 63 →
  ∃ s', sdsRemoveFreeSpace s = Some s' ∧ sds_rep s' str ∧ sdsavail s' = 0.
Proof.
  intros Hrep Hmax. pose proof Hrep as (Hwf & Hlen & rest & Hb). pose proof Hwf as (Ht & Hcap & Hf & Hlb).
  unfold sdsRemoveFreeSpace, sdslen. destruct (Z.eqb_spec (sdsavail s) 0) as [H0|H0]; [by exists s|]. rewrite Hlen.
  assert (Hty : s_type s ≠ 0) by (intros E; rewrite avail_wf in H0 by done; unfold sdsalloc, SDS_TYPE_5 in *; rewrite E in *; cbn in *; lia).
  assert (Hfin : ∀ t x buf, 0 <= t <= 4 → len str < 2 ^ field_width t → take (length str + 1) buf = str ++ [0] →
    len str < len buf → ∃ s', Some (sdssetalloc (mk_sds t (len str) x buf) (len str)) = Some s' ∧ sds_rep s' str ∧ sdsavail s' = 0).
  { intros t x buf Ht' Hf' Hk Hl'. eexists. split; [done|].
    assert (Hr : sds_rep (sdssetalloc (mk_sds t (len str) x buf) (len str)) str) by
      (eapply setalloc_rep; [done|lia|done|done|by apply keeps_rest]).
    split; [done|]. rewrite avail_wf by apply Hr. destruct Hr as (_ & -> & _). unfold sdssetalloc, sdsalloc, SDS_TYPE_5.
    cbn [s_type]. destruct (Z.eqb_spec t 0) as [->|Hn]; cbn [s_type s_alloc s_len]; [cbn; lia|].
    replace (t =? 0) with false by lia. rewrite wrapu_small; lia. }
  pose proof (rep_take_end s str Hrep) as Hte.
  destruct ((s_type s =? sdsReqType (len str)) || (sdsReqType (len str) >? SDS_TYPE_8)).
  - mnext. unfold s_realloc_usable. cbn [fst]. pose proof (hdr_size (s_type s)) as Hh. set (h := sdsHdrSize (s_type s)) in *.
    pose proof (usable_size_ge (h + len str + 1)) as Hu. unfold set_buf. rewrite Hlen. apply Hfin; [done|lia| |].
    + rewrite <- Hte. replace (length str + 1)%nat with (Z.to_nat (len str + 1)) by lia. apply realloc_keeps; lia.
    + rewrite length_realloc; lia.
  - unfold load, in_range. replace (_ && _) with true by lia. mnext. rewrite drop_0.
    replace (Z.to_nat (len str + 1)) with (length str + 1)%nat by lia. rewrite Hte. unfold s_malloc_usable. cbn [fst].
    pose proof (req_type (len str) ltac:(lia)) as [Hrt Hrf]. set (t := sdsReqType (len str)) in *.
    pose proof (hdr_size t) as Hh. set (h := sdsHdrSize t) in *. pose proof (usable_size_ge (h + len str + 1)) as Hu.
    unfold store, in_range. rewrite length_app, length_replicate. cbn [length]. replace (_ && _) with true by lia. mnext. mnext.
    rewrite take_0. cbn [app]. unfold sdssetlen. cbn [s_type s_alloc s_buf]. rewrite wrapu_small by lia.
    apply Hfin; [done|done| |len_lia]. rewrite take_app_le by len_lia. rewrite take_ge by len_lia. done.
Qed.

Lemma field_width_mono t t' : 0 <= t <= t' → t' <= 4 → 2 ^ field_width t <= 2 ^ field_width t'.
Proof.
  intros Ht Ht'. apply Z.pow_le_mono_r; [lia|]. destruct (type_cases t) as [->|[->|[->|[->| ->]]]]; [lia|..];
    destruct (type_cases t') as [->|[->|[->|[->| ->]]]]; cbn; lia.
Qed.

Lemma resize_spec s str size : sds_rep s str → 0 <= size < 2 ^ 63 → len str < 2 ^ 63 →
  ∃ s', sdsResize s size = Some s' ∧ sds_rep s' (take (Z.to_nat size) str) ∧ sdsalloc s' = size.
Proof.
  intros Hrep Hs Hmax. pose proof Hrep as (Hwf & Hlen & rest & Hb). pose proof Hwf as (Ht & Hcap & Hf & Hlb).
  unfold sdsResize, sdslen. destruct (Z.eqb_spec (sdsalloc s) size) as [He|He].
  { exists s. split; [done|]. split; [|done]. rewrite take_ge by lia. done. }
  rewrite Hlen. set (str' := take (Z.to_nat size) str).
  assert ((if size <? len str then size else len str) = len str') as -> by (unfold str'; rewrite length_take; case_if; lia).
  assert (Hle : len str' <= size ∧ len str' <= len str) by (unfold str'; rewrite length_take; lia).
  pose proof (grow_type size ltac:(lia)) as Hg. cbv zeta in Hg. set (t := if _ =? SDS_TYPE_5 then SDS_TYPE_8 else _) in *.
  assert (Hfin : ∀ ty x l buf, 1 <= ty <= 4 → size < 2 ^ field_width ty → (∃ r, buf = str' ++ r) → size < len buf →
    ∃ s', (b ← store8 buf (len str') 0; Some (sdssetalloc (sdssetlen (set_buf (mk_sds ty l x buf) b) (len str')) size)) = Some s' ∧
      sds_rep s' str' ∧ sdsalloc s' = size).
  { intros ty x l buf Hty Hfy [r ->] Hl. destruct r as [|y r]; [rewrite app_nil_r in Hl; lia|].
    rewrite (store8_app str' y) by done. mnext. eexists. split; [done|]. change (u8 0) with 0.
    unfold sdssetlen, set_buf. cbn [s_type s_len s_alloc s_buf]. rewrite wrapu_small by lia. split.
    - apply (setalloc_rep _ _ _ _ _ r); [lia..| |lia|done]. rewrite length_app in *. cbn [length] in *. lia.
    - unfold sdsalloc, sdssetalloc, SDS_TYPE_5. cbn [s_type]. replace (ty =? 0) with false by lia.
      cbn [s_type s_alloc]. replace (ty =? 0) with false by lia. apply wrapu_small. lia. }
  assert (Hpre : take (length str') (s_buf s) = str').
  { rewrite Hb, take_app_le by lia. unfold str'. rewrite length_take. destruct (decide (Z.to_nat size <= length str)%nat).
    - by rewrite Nat.min_l.
    - rewrite Nat.min_r by lia. by rewrite !take_ge by lia. }
  destruct ((s_type s =? t) || ((t <? s_type s) && (t >? SDS_TYPE_8))) eqn:E.
  - mnext. unfold s_realloc_usable. cbn [fst]. pose proof (hdr_size (s_type s)) as Hh. set (h := sdsHdrSize (s_type s)) in *.
    pose proof (usable_size_ge (h + size + 1)) as Hu. unfold set_buf at 1. 
    assert (Hmono : 2 ^ field_width t <= 2 ^ field_width (s_type s)) by (apply field_width_mono; lia).
    change (s_buf (set_buf s ?b)) with b. destruct s as [ty l x buf]. cbn [s_type s_len s_alloc s_buf] in *.
    change (set_buf (mk_sds ty l x buf) ?b) with (mk_sds ty l x b). apply Hfin; [lia|lia| |rewrite length_realloc; lia].
    exists (drop (length str') (realloc junk buf (usable_size (h + size + 1) - h))).
    rewrite <- (take_drop (length str')) at 1. f_equal. rewrite <- Hpre at 2.
    replace (length str') with (Z.to_nat (len str')) by lia. apply realloc_keeps; lia.
  - unfold load, in_range. replace (_ && _) with true by lia. mnext. rewrite drop_0, Nat2Z.id, Hpre. unfold s_malloc_usable. cbn [fst].
    pose proof (hdr_size t) as Hh. set (h := sdsHdrSize t) in *. pose proof (usable_size_ge (h + size + 1)) as Hu.
    unfold store, in_range. rewrite length_replicate. replace (_ && _) with true by lia. mnext. mnext. rewrite take_0. cbn [app s_buf].
    apply Hfin; [lia|lia|by eexists|len_lia].
Qed.

(** ** Characters *)

Lemma map_loop_spec f pre l post : Forall (λ c, is_byte (f c)) l →
  map_loop (length l) f (pre ++ l ++ post) (len pre) = Some (pre ++ map f l ++ post).
Proof.
  revert pre. induction l as [|c l IH]; intros pre Hl; [done|]. apply Forall_cons in Hl as [Hc Hl]. cbn [map_loop length].
  cbn [app]. rewrite load8_app by done. mnext. rewrite (store8_app pre c) by done. mnext.
  rewrite wrapu_small by exact Hc. specialize (IH (pre ++ [f c]) Hl). rewrite <- !app_assoc in IH. cbn [app] in IH.
  replace (len (pre ++ [f c])) with (len pre + 1) in IH by len_lia. rewrite IH. done.
Qed.

Lemma map_chars_spec s str f : sds_rep s str → Forall (λ c, is_byte (f c)) str →
  ∃ s', map_chars f s = Some s' ∧ sds_rep s' (map f str).
Proof.
  intros (Hwf & Hlen & rest & Hb) Hf. unfold map_chars, sdslen. rewrite Hlen, Nat2Z.id, Hb.
  pose proof (map_loop_spec f [] str (0 :: rest) Hf) as Hm. cbn [app] in Hm. change (len []) with 0 in Hm. rewrite Hm. mnext.
  eexists. split; [done|]. split; [|cbn; rewrite length_map; split; [done|by eexists]].
  unfold sds_wf, sdsalloc in *. cbn. rewrite Hb in Hwf. rewrite !length_app, length_map in *. done.
Qed.

(** ** Formatted text *)

(** The string so far, with no terminator yet. *)
Definition sds_part (s : sds) (str : list Z) : Prop := sds_wf s ∧ s_len s = len str ∧ ∃ rest, s_buf s = str ++ rest.

Lemma room_part s str addlen : sds_part s str → 0 <= addlen → len str + addlen < 2 ^ 63 →
  ∃ s', sdsMakeRoomFor s addlen = Some s' ∧ sds_part s' str ∧ len str + addlen <= sdsalloc s'.
Proof.
  intros (Hwf & Hl & rest & Hb) Ha Hmax. destruct (room s addlen true Hwf Ha) as (s' & Hs' & Hwf' & Hl' & Hcap & Ht); [lia|].
  exists s'. split; [done|]. split; [|lia]. split; [done|]. split; [lia|]. exists (drop (length str) (s_buf s')).
  rewrite <- (take_drop (length str) (s_buf s')) at 1. f_equal. apply (f_equal (take (length str))) in Ht.
  rewrite !take_take, Hl, Nat2Z.id, !Nat.min_l, Hb, take_app_length in Ht by lia. done.
Qed.

(** Bytes stored after the string, and the length raised by them. *)
Lemma inclen_part s str bs : sds_part s str → len str + len bs <= sdsalloc s →
  ∃ buf, store (s_buf s) (len str) bs = Some buf ∧ sds_part (sdsinclen (set_buf s buf) (len bs)) (str ++ bs).
Proof.
  intros (Hwf & Hl & rest & Hb) Hcap. pose proof Hwf as (Ht & _ & Hf & Hlb).
  assert (Hrest : len bs < len rest) by (rewrite Hb in Hlb; rewrite length_app in Hlb; lia).
  exists (str ++ bs ++ drop (length bs) rest). split.
  { rewrite Hb. rewrite <- (take_drop (length bs) rest) at 1. apply store_app; [done|]. rewrite length_take. lia. }
  destruct (set_wf s (str ++ bs ++ drop (length bs) rest) (len str + len bs) Hwf) as [Hwf' Hl']; [rewrite Hb; len_lia|lia|].
  unfold sdsinclen, sdssetlen in *. cbn [s_type s_len s_alloc s_buf set_buf] in *. rewrite Hl. split; [exact Hwf'|].
  cbn [s_len s_buf]. split; [rewrite length_app; lia|]. eexists. by rewrite app_assoc.
Qed.

Lemma put_part s str t l bs : sds_part s str → load t 0 l = Some bs → len str + l < 2 ^ 63 →
  ∃ s', put s (len str) t l = Some s' ∧ sds_part s' (str ++ bs).
Proof.
  intros Hp Hload Hmax. pose proof Hload as (_ & Hl0 & Hlt & Hbs)%load_spec. assert (Hlb : len bs = l) by (rewrite Hbs; len_lia).
  unfold put. pose proof Hp as (Hwf & Hl & _).
  assert (∃ s1, (if sdsavail s <? l then sdsMakeRoomFor s l else Some s) = Some s1 ∧ sds_part s1 str ∧ len str + l <= sdsalloc s1)
    as (s1 & -> & Hp1 & Hcap).
  { rewrite avail_wf by done. destruct (Z.ltb_spec (sdsalloc s - s_len s) l); [by apply room_part|]. exists s. split_and!; [done..|lia]. }
  mnext. rewrite Hload. mnext. destruct (inclen_part s1 str bs Hp1) as (buf & -> & Hp2); [lia|]. mnext. rewrite Hlb in Hp2.
  eexists. split; [done|exact Hp2].
Qed.

Lemma put_char s str c : sds_part s str → is_byte c → len str + 1 <= sdsalloc s →
  ∃ buf, store8 (s_buf s) (len str) c = Some buf ∧ sds_part (sdsinclen (set_buf s buf) 1) (str ++ [c]).
Proof.
  intros Hp Hc Hcap. destruct (inclen_part s str [c] Hp) as (buf & Hs & Hp'); [done|]. exists buf. split; [|done].
  unfold store8. rewrite wrapu_small by exact Hc. done.
Qed.

(** The text of an argument for the conversion [next]. *)
Definition arg_text (next : Z) (a : fmt_arg) : option (list Z) :=
  match a with
  | FStr t => if next =? 115 then l ← strlen t; load t 0 l else None
  | FSds t => if next =? 83 then load (s_buf t) 0 (sdslen t) else None
  | FInt v => if (next =? 105) && bool_decide (- 2 ^ 31 <= v < 2 ^ 31) then Some (dec_string v) else None
  | FLongLong v => if (next =? 73) && bool_decide (- 2 ^ 63 <= v < 2 ^ 63) then Some (dec_string v) else None
  | FUInt v => if (next =? 117) && bool_decide (0 <= v < 2 ^ 32) then Some (dec_u v) else None
  | FULongLong v => if (next =? 85) && bool_decide (0 <= v < 2 ^ 64) then Some (dec_u v) else None
  end.

Definition is_conversion (next : Z) : bool := bool_decide (next ∈ [115; 83; 105; 73; 117; 85]).

(** What a format, without its terminator, stands for. *)
Fixpoint render (fmt : list Z) (args : list fmt_arg) : option (list Z) :=
  match fmt with
  | [] => Some []
  | c :: fmt =>
    if c =? 37 then
      match fmt with
      | [] => Some []
      | next :: fmt =>
        if is_conversion next then
          match args with
          | [] => None
          | a :: args => t ← arg_text next a; out ← render fmt args; Some (t ++ out)
          end
        else out ← render fmt args; Some (next :: out)
      end
    else out ← render fmt args; Some (c :: out)
  end.

Lemma convert_arg s str next a args t : is_conversion next = true → arg_text next a = Some t →
  sds_part s str → len str + len t < 2 ^ 63 →
  ∃ s', convert s (len str) next (a :: args) = Some (s', len str + len t, args) ∧ sds_part s' (str ++ t).
Proof.
  intros Hc Ht Hp Hmax. unfold convert. cbv zeta. cbn [drop].
  assert (Hnum : ∀ (r : option (list Z * Z)) buf, r = Some (t ++ buf, len t) →
    ∃ s', ('(buf, l) ← r; s ← put s (len str) buf l; Some (s, len str + l, args)) = Some (s', len str + len t, args) ∧
      sds_part s' (str ++ t)).
  { intros r buf ->. mnext. destruct (put_part s str (t ++ buf) (len t) t Hp) as (s' & -> & Hp'); [by apply load_app0|done|].
    mnext. by eexists. }
  assert (Hd : SDS_LLSTR_SIZE <= len (replicate (Z.to_nat SDS_LLSTR_SIZE) junk)) by (unfold SDS_LLSTR_SIZE; len_lia).
  destruct a as [m|q|v|v|v|v]; cbn [arg_text] in Ht.
  - revert Ht. destruct (Z.eqb_spec next 115) as [->|]; intros Ht; [|done]. cbv iota. destruct (strlen m) as [l|]; [|done]. mstep in Ht. mnext.
    assert (Hl : len t = l) by (apply load_spec in Ht as (_ & ? & ? & ->); len_lia).
    destruct (put_part s str m l t Hp Ht) as (s' & -> & Hp'); [lia|]. mnext. rewrite Hl. by eexists.
  - revert Ht. destruct (Z.eqb_spec next 83) as [->|]; intros Ht; [|done]. change (83 =? 115) with false. change (83 =? 83) with true. cbv iota.
    assert (Hl : len t = sdslen q) by (apply load_spec in Ht as (_ & ? & ? & ->); len_lia).
    destruct (put_part s str (s_buf q) (sdslen q) t Hp Ht) as (s' & -> & Hp'); [lia|]. mnext. rewrite Hl. by eexists.
  - revert Ht. destruct (Z.eqb_spec next 105) as [->|]; intros Ht; [|done]. cbn [andb] in Ht. case_bool_decide; [|done]. injection Ht as <-.
    eapply Hnum. rewrite sdsll2str_spec by (done || (unfold LLONG_MIN, LLONG_MAX; lia)). done.
  - revert Ht. destruct (Z.eqb_spec next 73) as [->|]; intros Ht; [|done]. cbn [andb] in Ht. case_bool_decide; [|done]. injection Ht as <-.
    eapply Hnum. rewrite sdsll2str_spec by (done || (unfold LLONG_MIN, LLONG_MAX; lia)). done.
  - revert Ht. destruct (Z.eqb_spec next 117) as [->|]; intros Ht; [|done]. cbn [andb] in Ht. case_bool_decide; [|done]. injection Ht as <-.
    eapply Hnum. rewrite sdsull2str_spec by (done || lia). done.
  - revert Ht. destruct (Z.eqb_spec next 85) as [->|]; intros Ht; [|done]. cbn [andb] in Ht. case_bool_decide; [|done]. injection Ht as <-.
    eapply Hnum. rewrite sdsull2str_spec by (done || lia). done.
Qed.

Lemma convert_other s str next args : is_conversion next = false → is_byte next → sds_part s str → len str + 1 <= sdsalloc s →
  ∃ s', convert s (len str) next args = Some (s', len str + 1, args) ∧ sds_part s' (str ++ [next]).
Proof.
  intros Hc Hn Hp Hcap. unfold is_conversion in Hc. apply bool_decide_eq_false in Hc. rewrite !elem_of_cons in Hc.
  unfold convert. cbv zeta. repeat (replace (next =? _) with false by (symmetry; apply Z.eqb_neq; tauto)).
  destruct (put_char s str next Hp Hn Hcap) as (buf & -> & Hp'). mnext. by eexists.
Qed.

Lemma fmt_loop_spec fuel pre fmt post s str args out : bytes_ok fmt → Forall (λ c, c ≠ 0) fmt → (length fmt <= fuel)%nat →
  sds_part s str → render fmt args = Some out → len str + len out + 1 < 2 ^ 63 →
  ∃ s', fmt_loop fuel (pre ++ fmt ++ 0 :: post) (len pre) s (len str) args = Some (s', len str + len out) ∧
    sds_part s' (str ++ out).
Proof.
  revert pre fmt s str args out. induction fuel as [|fuel IH]; intros pre fmt s str args out Hb Hz Hf Hp Hout Hmax.
  { destruct fmt; [|cbn in Hf; lia]. cbn [fmt_loop app]. rewrite (load8_app pre _ _ (len pre)) by done. mnext. injection Hout as <-.
    exists s. rewrite Z.add_0_r, app_nil_r. done. }
  destruct fmt as [|c fmt].
  { cbn [fmt_loop app]. rewrite (load8_app pre _ _ (len pre)) by done. mnext. injection Hout as <-. exists s. rewrite Z.add_0_r, app_nil_r. done. }
  apply Forall_cons in Hb as [Hcb Hb]. apply Forall_cons in Hz as [Hc0 Hz]. cbn [length] in Hf.
  cbn [fmt_loop app]. rewrite (load8_app pre _ _ (len pre)) by done. mnext. replace (c =? 0) with false by lia.
  assert (∃ s1, (if sdsavail s =? 0 then sdsMakeRoomFor s 1 else Some s) = Some s1 ∧ sds_part s1 str ∧ len str + 1 <= sdsalloc s1)
    as (s1 & -> & Hp1 & Hcap).
  { pose proof Hp as (Hwf & Hl & _). rewrite avail_wf by done. destruct (Z.eqb_spec (sdsalloc s - s_len s) 0); [apply room_part; (done || lia)|].
    exists s. split_and!; [done..|]. destruct Hwf as (_ & ? & _). lia. }
  clear s Hp. mnext. cbn [render] in Hout. destruct (Z.eqb_spec c 37) as [->|Hc37].
  - destruct fmt as [|next fmt].
    { injection Hout as <-. assert (Hend : load8 (pre ++ 37 :: [] ++ 0 :: post) (len pre + 1) = Some 0).
      { change (pre ++ 37 :: [] ++ 0 :: post) with (pre ++ [37] ++ 0 :: post). rewrite app_assoc. apply load8_app. len_lia. }
      rewrite Hend. mnext. change (0 =? 0) with true. cbv iota. destruct (IH (pre ++ [37]) [] s1 str args []) as (s' & Hs' & Hp'); [done|done|cbn; lia|done|done|done|].
      rewrite <- app_assoc in Hs'. cbn [app] in Hs'. replace (len (pre ++ [37])) with (len pre + 1) in Hs' by len_lia. by exists s'. }
    apply Forall_cons in Hb as [Hnb Hb]. apply Forall_cons in Hz as [Hn0 Hz]. cbn [length] in Hf.
    assert (Hnext : load8 (pre ++ 37 :: (next :: fmt) ++ 0 :: post) (len pre + 1) = Some next).
    { replace (pre ++ 37 :: (next :: fmt) ++ 0 :: post) with ((pre ++ [37]) ++ next :: fmt ++ 0 :: post) by by rewrite <- app_assoc.
      apply load8_app. len_lia. }
    rewrite Hnext. mnext. replace (next =? 0) with false by lia.
    assert (Hgo : ∀ s2 t args' out', sds_part s2 (str ++ t) → render fmt args' = Some out' → out = t ++ out' →
      ∃ s', fmt_loop fuel (pre ++ 37 :: (next :: fmt) ++ 0 :: post) (len pre + 2) s2 (len str + len t) args' =
        Some (s', len str + len out) ∧ sds_part s' (str ++ out)).
    { intros s2 t args' out' Hp2 Hr ->. rewrite length_app in *.
      destruct (IH (pre ++ [37; next]) fmt s2 (str ++ t) args' out') as (s' & Hs' & Hp'); [done|done|lia|done|done|rewrite length_app; lia|].
      exists s'. rewrite <- !app_assoc in *. cbn [app] in *. rewrite !length_app in Hs'. cbn [length] in Hs'.
      replace (Z.of_nat (length pre + 2)) with (len pre + 2) in Hs' by lia.
      replace (Z.of_nat (length str + length t)) with (len str + len t) in Hs' by lia. rewrite Hs'. split; [|done]. do 2 f_equal. lia. }
    destruct (is_conversion next) eqn:Econv.
    + destruct args as [|a args]; [done|]. destruct (arg_text next a) as [t|] eqn:Et; [|done]. mstep in Hout.
      destruct (render fmt args) as [out'|] eqn:Er; [|done]. mstep in Hout. injection Hout as <-. rewrite length_app in Hmax.
      destruct (convert_arg s1 str next a args t Econv Et Hp1) as (s2 & -> & Hp2); [lia|]. mnext. by eapply Hgo.
    + destruct (render fmt args) as [out'|] eqn:Er; [|done]. mstep in Hout. injection Hout as <-.
      destruct (convert_other s1 str next args Econv Hnb Hp1 Hcap) as (s2 & -> & Hp2). mnext. by apply (Hgo s2 [next] args out').
  - destruct (render fmt args) as [out'|] eqn:Er; [|done]. mstep in Hout. injection Hout as <-.
    destruct (put_char s1 str c Hp1 Hcb Hcap) as (buf & -> & Hp2). mnext.
    destruct (IH (pre ++ [c]) fmt _ (str ++ [c]) args out' Hb Hz ltac:(lia) Hp2 Er) as (s' & Hs' & Hp'); [rewrite length_app in *; cbn [length] in *; lia|].
    exists s'. rewrite <- !app_assoc in *. cbn [app] in *. rewrite !length_app in Hs'. cbn [length] in *.
    replace (Z.of_nat (length pre + 1)) with (len pre + 1) in Hs' by lia.
    replace (Z.of_nat (length str + 1)) with (len str + 1) in Hs' by lia. rewrite Hs'. split; [|done]. do 2 f_equal. lia.
Qed.

Lemma catfmt_spec s str fmt post args out : sds_rep s str → bytes_ok fmt → Forall (λ c, c ≠ 0) fmt →
  render fmt args = Some out → len str + 2 * len fmt + len out + 1 < 2 ^ 63 →
  ∃ s', sdscatfmt s (fmt ++ 0 :: post) args = Some s' ∧ sds_rep s' (str ++ out).
Proof.
  intros Hrep Hb Hz Hout Hmax. pose proof Hrep as (Hwf & Hlen & rest & Hbuf). unfold sdscatfmt, sdslen.
  assert (strlen (fmt ++ 0 :: post) = Some (len fmt)) as ->.
  { rewrite strlen_spec. do 2 f_equal. clear - Hz. f_equal. induction Hz as [|c fmt Hc _ IH]; [done|]. cbn [cstring].
    replace (c =? 0) with false by lia. by rewrite IH. }
  mnext. rewrite wrapu_small by lia. assert (Hp : sds_part s str) by (split_and!; [done..|by eexists]).
  destruct (room_part s str (len fmt * 2) Hp) as (s1 & -> & Hp1 & _); [lia..|]. mnext. rewrite Hlen.
  destruct (fmt_loop_spec (length (fmt ++ 0 :: post)) [] fmt post s1 str args out) as (s2 & Hs2 & Hp2); [done|done|len_lia|done|done|lia|].
  cbn [app] in Hs2. change (len []) with 0 in Hs2. rewrite Hs2. mnext.
  destruct Hp2 as (Hwf2 & Hl2 & rest2 & Hb2). pose proof Hwf2 as (_ & Hcap2 & Hf2 & Hlb2). rewrite Hb2 in Hlb2 |- *.
  rewrite length_app in Hl2. destruct rest2 as [|x rest2]; [rewrite app_nil_r, length_app in Hlb2; lia|].
  rewrite (store8_app (str ++ out) x) by len_lia. mnext. eexists. split; [done|]. change (u8 0) with 0.
  split; [|split; [cbn; rewrite length_app; lia|by eexists]]. unfold sds_wf, sdsalloc in *. cbn.
  rewrite Hb2 in Hwf2. rewrite !length_app in *. cbn [length] in *. done.
Qed.

(** ** Joining *)

(** The strings with [sep] between them. *)
Fixpoint joined (strs : list (list Z)) (sep : list Z) : list Z :=
  match strs with
  | [] => []
  | [a] => a
  | a :: strs => a ++ sep ++ joined strs sep
  end.

Lemma empty_rep : ∃ s, sdsempty = Some s ∧ sds_rep s [].
Proof.
  unfold sdsempty, sdsnewlen. destruct (newlen_spec (Bytes [0]) 0 [] false) as (s & -> & Hr); [lia|done|]. mnext. by exists s.
Qed.

Lemma rep_load s str : sds_rep s str → load (s_buf s) 0 (sdslen s) = Some str.
Proof. intros (_ & Hl & rest & ->). unfold sdslen. rewrite Hl. by apply load_app0. Qed.

Lemma joinsds_spec argv strs sep post join str : Forall2 sds_rep argv strs → sds_rep join str →
  len str + len (joined strs sep) < 2 ^ 63 →
  ∃ s', joinsds_loop join argv (sep ++ post) (len sep) = Some s' ∧ sds_rep s' (str ++ joined strs sep).
Proof.
  intros Hall. revert join str. induction Hall as [|a sa argv strs Ha Hall IH]; intros join str Hj Hmax.
  { exists join. by rewrite app_nil_r. }
  cbn [joinsds_loop]. unfold sdscatsds.
  assert (Hle : len sa <= len (joined (sa :: strs) sep)) by (destruct strs; cbn [joined]; [lia|rewrite length_app; lia]).
  destruct (catlen_spec join str (s_buf a) (sdslen a) sa Hj) as (j1 & -> & Hj1); [by apply rep_load| |].
  { destruct Ha as (_ & Hl & _). unfold sdslen. lia. }
  mnext. destruct Hall as [|b sb argv strs Hb Hall].
  { mnext. destruct (IH j1 (str ++ sa) Hj1) as (s' & Hs' & Hr); [cbn [joined length] in *; rewrite length_app; lia|].
    cbn [joinsds_loop] in Hs'. exists s'. cbn [joined] in *. rewrite app_nil_r in Hr. done. }
  change (joined (sa :: sb :: strs) sep) with (sa ++ sep ++ joined (sb :: strs) sep) in *. rewrite !length_app in Hmax.
  destruct (catlen_spec j1 (str ++ sa) (sep ++ post) (len sep) sep Hj1) as (j2 & -> & Hj2); [by apply load_app0|rewrite length_app; lia|].
  mnext. destruct (IH j2 ((str ++ sa) ++ sep) Hj2) as (s' & Hs' & Hr); [rewrite !length_app; lia|].
  exists s'. rewrite Hs'. rewrite <- !app_assoc in Hr. done.
Qed.

(** ** Sequences of operations *)

Inductive sds_op :=
  | OpCat (t : list Z) | OpCpy (t : list Z) | OpGrowZero (n : Z) | OpAppend (bs : list Z) | OpFmt (fmt : list Z) (args : list fmt_arg)
  | OpTrim (cset : list Z) | OpSubstr (start n : Z) | OpRange (start end_ : Z) | OpCut (n : Z) | OpClear | OpUpdateLen
  | OpMakeRoom (n : Z) (greedy : bool) | OpRemoveFreeSpace | OpResize (n : Z)
  | OpLower | OpUpper | OpMap (from to : list Z).

Definition sds_exec (op : sds_op) (s : sds) : option sds :=
  match op with
  | OpCat t => sdscatlen s t (len t)
  | OpCpy t => sdscpylen s t (len t)
  | OpGrowZero n => sdsgrowzero s n
  | OpAppend bs => append_in_place s bs
  | OpFmt fmt args => sdscatfmt s (fmt ++ [0]) args
  | OpTrim cset => sdstrim s cset
  | OpSubstr start n => sdssubstr s start n
  | OpRange start end_ => sdsrange s start end_
  | OpCut n => sdsIncrLen s (- n)
  | OpClear => sdsclear s
  | OpUpdateLen => sdsupdatelen s
  | OpMakeRoom n greedy => _sdsMakeRoomFor s n greedy
  | OpRemoveFreeSpace => sdsRemoveFreeSpace s
  | OpResize n => sdsResize s n
  | OpLower => sdstolower s
  | OpUpper => sdstoupper s
  | OpMap from to => sdsmapchars s from to (len from)
  end.

(** The operations on strings of bytes. *)
Definition string_op (op : sds_op) (str : list Z) : list Z :=
  match op with
  | OpCat t | OpAppend t => str ++ t
  | OpCpy t => t
  | OpGrowZero n => str ++ replicate (Z.to_nat n - length str) 0
  | OpFmt fmt args => str ++ default [] (render fmt args)
  | OpTrim cset => trimmed cset str
  | OpSubstr start n => take (Z.to_nat n) (drop (Z.to_nat start) str)
  | OpRange start end_ => range_of start end_ str
  | OpCut n => take (Z.to_nat (len str - n)) str
  | OpClear => []
  | OpUpdateLen => cstring str
  | OpMakeRoom _ _ | OpRemoveFreeSpace => str
  | OpResize n => take (Z.to_nat n) str
  | OpLower => map tolower str
  | OpUpper => map toupper str
  | OpMap from to => map (substitute from to) str
  end.

(** The arguments have the C type's range, and sizes stay below 2^63. *)
Definition op_allowed (op : sds_op) (str : list Z) : Prop :=
  match op with
  | OpCat t => len str + len t < 2 ^ 63
  | OpCpy t => len t < 2 ^ 63
  | OpGrowZero n => n < 2 ^ 63
  | OpAppend bs => 0 < len bs ∧ len str + len bs < 2 ^ 63
  | OpFmt fmt args => bytes_ok fmt ∧ Forall (λ c, c ≠ 0) fmt ∧ ∃ out, render fmt args = Some out ∧
      len str + 2 * len fmt + len out + 1 < 2 ^ 63
  | OpTrim _ | OpClear | OpUpdateLen | OpRemoveFreeSpace => True
  | OpSubstr start n => 0 <= start ∧ 0 <= n
  | OpRange start end_ => - 2 ^ 63 <= start < 2 ^ 63 ∧ - 2 ^ 63 <= end_ < 2 ^ 63
  | OpCut n => 0 < n <= len str ∧ n < 2 ^ 32
  | OpMakeRoom n _ => 0 <= n ∧ len str + n < 2 ^ 63
  | OpResize n => 0 <= n < 2 ^ 63
  | OpLower | OpUpper => bytes_ok str
  | OpMap from to => length from = length to ∧ bytes_ok to ∧ bytes_ok str
  end.

Lemma substitute_ok from to c : bytes_ok to → is_byte c → is_byte (substitute from to c).
Proof.
  intros Hto Hc. revert to Hto. induction from as [|a from IH]; intros to Hto; [done|]. destruct Hto as [|b to Hb Hto]; [done|].
  cbn [substitute]. destruct (c =? a); [done|by apply IH].
Qed.

Lemma exec_refines op s str : sds_rep s str → op_allowed op str → len str < 2 ^ 63 →
  ∃ s', sds_exec op s = Some s' ∧ sds_rep s' (string_op op str).
Proof.
  intros Hrep Hok Hmax. destruct op; cbn [op_allowed sds_exec string_op] in *.
  - apply catlen_spec; [done|apply load_all|done].
  - eapply cpylen_spec; [done|apply load_all|done].
  - by apply growzero_spec.
  - apply append_spec; tauto.
  - destruct Hok as (? & ? & out & Hr & ?). rewrite Hr. cbn [default]. by apply catfmt_spec.
  - by apply trim_spec.
  - apply substr_spec; tauto.
  - apply range_spec; tauto.
  - apply incrlen_cut; tauto.
  - by eapply clear_spec.
  - by apply updatelen_spec.
  - destruct (room_rep s str n greedy Hrep) as (s' & ? & ? & _); [lia..|]. by exists s'.
  - destruct (removefree_spec s str Hrep Hmax) as (s' & ? & ? & _). by exists s'.
  - destruct (resize_spec s str n Hrep) as (s' & ? & ? & _); [lia..|]. by exists s'.
  - apply map_chars_spec; [done|]. eapply Forall_impl; [exact Hok|]. intros c Hc. unfold is_byte, tolower in *. case_if; lia.
  - apply map_chars_spec; [done|]. eapply Forall_impl; [exact Hok|]. intros c Hc. unfold is_byte, toupper in *. case_if; lia.
  - destruct Hok as (Hl & Hto & Hs). unfold sdsmapchars.
    rewrite load_all, Hl, load_all. mnext. mnext. apply map_chars_spec; [done|].
    eapply Forall_impl; [exact Hs|]. intros c Hc. by apply substitute_ok.
Qed.

(** A history of a string: how it is created and what is done to it. *)
Fixpoint sds_run (ops : list sds_op) (s : sds) : option sds :=
  match ops with
  | [] => Some s
  | op :: ops => s ← sds_exec op s; sds_run ops s
  end.

Fixpoint ops_allowed (ops : list sds_op) (str : list Z) : Prop :=
  match ops with
  | [] => True
  | op :: ops => len str < 2 ^ 63 ∧ op_allowed op str ∧ ops_allowed ops (string_op op str)
  end.

Lemma run_refines ops s str : sds_rep s str → ops_allowed ops str →
  ∃ s', sds_run ops s = Some s' ∧ sds_rep s' (foldl (λ str op, string_op op str) str ops).
Proof.
  revert s str. induction ops as [|op ops IH]; intros s str Hrep Hok; [by exists s|]. destruct Hok as (Hmax & Hop & Hok).
  destruct (exec_refines op s str Hrep Hop Hmax) as (s1 & Hs1 & Hrep1). cbn [sds_run foldl]. rewrite Hs1. mnext. by apply IH.
Qed.
End allocation.

(** C10: any sequence of operations on a string made by sdsnewlen never leaves its
    block or fails an assertion, whatever sizes the allocator rounds to, and the
    header and the block hold, with a terminator, the string that the same
    operations on strings of bytes give. *)
Theorem sds_refines `{Malloc} init l bs ops : 0 <= l < 2 ^ 63 → init_bytes init l = Some bs → ops_allowed ops bs →
  ∃ s s', sdsnewlen init l = Some s ∧ sds_run ops s = Some s' ∧
    sds_rep s' (foldl (λ str op, string_op op str) bs ops).
Proof.
  intros Hl Hi Hok. destruct (newlen_spec init l bs false Hl Hi) as (s & Hs & Hrep). exists s. unfold sdsnewlen. rewrite Hs. mnext.
  destruct (run_refines ops s bs Hrep Hok) as (s' & ? & ?). by exists s'.
Qed.

(** An allocator that rounds up to 8 bytes. *)
#[local] Instance rounding_malloc : Malloc.
Proof. refine {| usable_size n := n + (- n) mod 8; junk := 85 |}. intros n. pose proof (Z.mod_pos_bound (- n) 8). lia. Defined.

Definition sample_ops : list sds_op :=
  [OpCat [32; 102; 111; 111; 32]; OpTrim [32]; OpFmt [58; 37; 105] [FInt (-42)]; OpGrowZero 300; OpRange 0 9; OpUpper; OpRemoveFreeSpace].

Lemma sds_refines_witness :
  foldl (λ str op, string_op op str) [97] sample_ops = [65; 32; 70; 79; 79; 58; 45; 52; 50; 0] ∧
  ∃ s s', sdsnewlen (Bytes [97]) 1 = Some s ∧ sds_run sample_ops s = Some s' ∧
    sds_rep s' (foldl (λ str op, string_op op str) [97] sample_ops).
Proof.
  split; [by vm_compute|]. apply (sds_refines (Bytes [97]) 1 [97]); [lia|done|].
  cbn [ops_allowed sample_ops op_allowed]. split_and!; try exact I; try by_decision.
  eexists. split; [vm_compute; reflexivity|by_decision].
Defined.

(** Sdscatfmt appends exactly the text its format stands for: it makes room as
    it goes and writes only inside the block. *)
Theorem sdscatfmt_correct `{Malloc} s str fmt post args out : sds_rep s str → bytes_ok fmt → Forall (λ c, c ≠ 0) fmt →
  render fmt args = Some out → len str + 2 * len fmt + len out + 1 < 2 ^ 63 →
  ∃ s', sdscatfmt s (fmt ++ 0 :: post) args = Some s' ∧ sds_rep s' (str ++ out).
Proof. apply catfmt_spec. Qed.

Lemma sdscatfmt_correct_witness : ∃ s, sdsempty = Some s ∧
  ∃ s', sdscatfmt s ([37; 85; 37; 37] ++ [0]) [FULongLong (2 ^ 64 - 1)] = Some s' ∧
    sds_rep s' ([] ++ dec_u (2 ^ 64 - 1) ++ [37]).
Proof.
  destruct empty_rep as (s & Hs & Hr). exists s. split; [exact Hs|].
  apply (sdscatfmt_correct s [] [37; 85; 37; 37] [] [FULongLong (2 ^ 64 - 1)] (dec_u (2 ^ 64 - 1) ++ [37]) Hr);
    [by_decision|by_decision|vm_compute; reflexivity|vm_compute; reflexivity].
Defined.

(** SdsMakeRoomFor gives room for what was asked and keeps the string; a request
    that does not fit a size_t fails its assertion instead of allocating too
    little. *)
Theorem sdsMakeRoomFor_correct `{Malloc} s str addlen greedy : sds_rep s str → 0 <= addlen < 2 ^ 64 → len str < 2 ^ 63 →
  (len str + addlen < 2 ^ 63 → ∃ s', _sdsMakeRoomFor s addlen greedy = Some s' ∧ sds_rep s' str ∧ addlen <= sdsavail s') ∧
  (2 ^ 64 <= len str + addlen → _sdsMakeRoomFor s addlen greedy = None).
Proof.
  intros Hrep Ha Hmax. split; intros Hsum.
  - destruct (room s addlen greedy) as (s' & Hs' & Hwf & Hl & Hcap & _); [apply Hrep|lia|destruct Hrep as (_ & -> & _); lia|].
    destruct (room_rep s str addlen greedy Hrep) as (s'' & Hs'' & Hrep' & _); [lia..|]. rewrite Hs' in Hs''. injection Hs'' as <-.
    exists s'. split; [done|]. split; [done|]. rewrite avail_wf by done. rewrite Hl. lia.
  - destruct Hrep as (Hwf & Hl & _). pose proof Hwf as (_ & Hcap & Hf & _). pose proof (field_width_le (s_type s)).
    unfold _sdsMakeRoomFor. rewrite avail_wf by done. replace (_ >=? addlen) with false by lia. cbv zeta. unfold sdslen.
    assert (u64 (s_len s + addlen) = s_len s + addlen - 2 ^ 64) as ->.
    { unfold wrapu. rewrite <- (Z.mod_add _ (-1)), Z.mod_small by lia. lia. }
    by replace (negb _) with true by lia.
Qed.

Lemma sdsMakeRoomFor_correct_witness : ∃ s, sdsnewlen (Bytes [97]) 1 = Some s ∧
  (1 + 100 < 2 ^ 63 → ∃ s', _sdsMakeRoomFor s 100 true = Some s' ∧ sds_rep s' [97] ∧ 100 <= sdsavail s') ∧
  _sdsMakeRoomFor s (2 ^ 64 - 1) true = None.
Proof.
  destruct (newlen_spec (Bytes [97]) 1 [97] false ltac:(lia) eq_refl) as (s & Hs & Hr). exists s.
  split; [unfold sdsnewlen; rewrite Hs; reflexivity|]. split.
  - apply (sdsMakeRoomFor_correct s [97] 100 true Hr); [lia|cbn; lia].
  - apply (sdsMakeRoomFor_correct s [97] (2 ^ 64 - 1) true Hr); [lia|cbn; lia|cbn; lia].
Defined.
