(* ===== verification/SdsArgs.v ===== *)
(** Splitting and quoting of strings: sdssplitlen, sdscatrepr, sdsneedsrepr and
    sdssplitargs of src/redis-7.0.0/src/sds.c.

    Strings that are built are given by their bytes (SdsTheorems.v shows that the
    operations on sds strings are those on bytes); what is read is a block of
    memory, a read outside of it is [None].  Characters are classified as in the C
    locale, the one the server keeps for LC_CTYPE. *)
From S2P Require Import Prelude UtilText Sds SdsTheorems.

(** ** Code *)

Definition isprint (c : Z) : bool := (32 <=? c) && (c <=? 126).

(** [seplen == 1 && *(s+j) == sep[0] || memcmp(s+j,sep,seplen) == 0]. *)
Definition sep_at (s : list Z) (j : Z) (sep : list Z) (seplen : Z) : option bool :=
  first ← (if seplen =? 1 then c ← load8 s j; d ← load8 sep 0; Some (c =? d) else Some false);
  if first : bool then Some true
  else a ← load s j seplen; b ← load sep 0 seplen; Some (bool_decide (a = b)).

(** [tokens[elements] = t] in an array of [slots]. *)
Definition add_token (tokens : list (list Z)) (slots : Z) (t : list Z) : option (list (list Z)) :=
  if len tokens <? slots then Some (tokens ++ [t]) else None.

Fixpoint split_loop (fuel : nat) (s : list Z) (l : Z) (sep : list Z) (seplen start j slots : Z)
    (tokens : list (list Z)) : option (Z * Z * list (list Z)) :=
  if j <? l - (seplen - 1) then
    match fuel with
    | O => None
    | S fuel =>
      let slots := if slots <? len tokens + 2 then s32 (slots * 2) else slots in
      found ← sep_at s j sep seplen;
      if found : bool then
        t ← load s start (j - start);
        tokens ← add_token tokens slots t;
        split_loop fuel s l sep seplen (j + seplen) (j + seplen - 1 + 1) slots tokens
      else split_loop fuel s l sep seplen start (j + 1) slots tokens
    end
  else Some (start, slots, tokens).

(** The inner [None] is NULL. *)
Definition sdssplitlen (s : list Z) (l : Z) (sep : list Z) (seplen : Z) : option (option (list (list Z))) :=
  if (seplen <? 1) || (l <=? 0) then Some None
  else
    '(start, slots, tokens) ← split_loop (Z.to_nat l) s l sep seplen 0 0 5 [];
    t ← load s start (l - start);
    tokens ← add_token tokens slots t;
    Some (Some tokens).

(** The digit that %x prints. *)
Definition hex_char (n : Z) : Z := if n <? 10 then 48 + n else 87 + n.

(** What is appended for one character: the escapes are those of the switch, the
    default prints the character or its code. *)
Definition repr_char (c : Z) : list Z :=
  if (c =? 92) || (c =? 34) then [92; c]
  else if c =? 10 then [92; 110]
  else if c =? 13 then [92; 114]
  else if c =? 9 then [92; 116]
  else if c =? 7 then [92; 97]
  else if c =? 8 then [92; 98]
  else if isprint c then [c]
  else [92; 120; hex_char (c / 16); hex_char (c mod 16)].

Fixpoint repr_loop (s p : list Z) : list Z :=
  match p with
  | [] => s
  | c :: p => repr_loop (s ++ repr_char c) p
  end.

Definition sdscatrepr (s p : list Z) (l : Z) : option (list Z) :=
  bs ← load p 0 l;
  Some (repr_loop (s ++ [34]) bs ++ [34]).

Fixpoint sdsneedsrepr (s : list Z) : bool :=
  match s with
  | [] => false
  | c :: s =>
    if (c =? 92) || (c =? 34) || (c =? 10) || (c =? 13) || (c =? 9) || (c =? 7) || (c =? 8)
       || negb (isprint c) || isspace c
    then true else sdsneedsrepr s
  end.

Definition is_hex_digit (c : Z) : bool :=
  ((48 <=? c) && (c <=? 57)) || ((97 <=? c) && (c <=? 102)) || ((65 <=? c) && (c <=? 70)).

Definition hex_digit_to_int (c : Z) : Z :=
  if (48 <=? c) && (c <=? 57) then c - 48
  else if (97 <=? c) && (c <=? 102) then c - 87
  else if (65 <=? c) && (c <=? 70) then c - 55
  else 0.

(** The condition of the first case within double quotes, read from left to right:
    the byte of an escape of two hexadecimal digits at [p]. *)
Definition hex_escape (line : list Z) (p : Z) : option (option Z) :=
  c0 ← load8 line p;
  if negb (c0 =? 92) then Some None
  else
    c1 ← load8 line (p + 1);
    if negb (c1 =? 120) then Some None
    else
      c2 ← load8 line (p + 2);
      if negb (is_hex_digit c2) then Some None
      else
        c3 ← load8 line (p + 3);
        if negb (is_hex_digit c3) then Some None
        else Some (Some (u8 (hex_digit_to_int c2 * 16 + hex_digit_to_int c3))).

Definition unescape (c : Z) : Z :=
  if c =? 110 then 10 else if c =? 114 then 13 else if c =? 116 then 9
  else if c =? 98 then 8 else if c =? 97 then 7 else c.

(** What one turn of the token loop decides: an error, the end of the token, or to
    go on, from [p] before the step to the next character that ends the turn. *)
Inductive turn := TErr | TDone (p : Z) | TGo (p : Z) (inq insq : bool) (current : list Z).

(** A closing quote must be followed by a space or nothing at all. *)
Definition closing (line : list Z) (p : Z) : option turn :=
  c1 ← load8 line (p + 1);
  Some (if negb (c1 =? 0) && negb (isspace c1) then TErr else TDone p).

Definition token_turn (line : list Z) (p : Z) (inq insq : bool) (current : list Z) : option turn :=
  c ← load8 line p;
  if inq then
    h ← hex_escape line p;
    match h with
    | Some byte => Some (TGo (p + 3) inq insq (current ++ [byte]))
    | None =>
      c1 ← (if c =? 92 then load8 line (p + 1) else Some 0);
      if (c =? 92) && negb (c1 =? 0) then Some (TGo (p + 1) inq insq (current ++ [unescape c1]))
      else if c =? 34 then closing line p
      else if c =? 0 then Some TErr
      else Some (TGo p inq insq (current ++ [c]))
    end
  else if insq then
    c1 ← (if c =? 92 then load8 line (p + 1) else Some 0);
    if (c =? 92) && (c1 =? 39) then Some (TGo (p + 1) inq insq (current ++ [39]))
    else if c =? 39 then closing line p
    else if c =? 0 then Some TErr
    else Some (TGo p inq insq (current ++ [c]))
  else
    Some (if (c =? 32) || (c =? 10) || (c =? 13) || (c =? 9) || (c =? 0) then TDone p
          else if c =? 34 then TGo p true insq current
          else if c =? 39 then TGo p inq true current
          else TGo p inq insq (current ++ [c])).

(** The step to the next character, which stays at the terminator. *)
Definition next_char (line : list Z) (p : Z) : option Z :=
  c ← load8 line p; Some (if negb (c =? 0) then p + 1 else p).

(** [while(!done)]; the inner [None] is the jump to [err]. *)
Fixpoint token_loop (fuel : nat) (line : list Z) (p : Z) (inq insq : bool) (current : list Z) :
    option (option (list Z * Z)) :=
  match fuel with
  | O => None
  | S fuel =>
    t ← token_turn line p inq insq current;
    match t with
    | TErr => Some None
    | TDone p => p ← next_char line p; Some (Some (current, p))
    | TGo p inq insq current => p ← next_char line p; token_loop fuel line p inq insq current
    end
  end.

(** Skips blanks. *)
Fixpoint skip_blanks (fuel : nat) (line : list Z) (p : Z) : option Z :=
  c ← load8 line p;
  if negb (c =? 0) && isspace c then
    match fuel with O => None | S fuel => skip_blanks fuel line (p + 1) end
  else Some p.

Fixpoint args_loop (fuel : nat) (line : list Z) (p : Z) (vector : list (list Z)) : option (option (list (list Z))) :=
  match fuel with
  | O => None
  | S fuel =>
    p ← skip_blanks (length line) line p;
    c ← load8 line p;
    if negb (c =? 0) then
      t ← token_loop (length line + 1) line p false false [];
      match t with
      | None => Some None
      | Some (current, p) => args_loop fuel line p (vector ++ [current])
      end
    else Some (Some vector)
  end.

Definition sdssplitargs (line : list Z) : option (option (list (list Z))) :=
  args_loop (length line + 1) line 0 [].

(** ** Quoting and splitting are inverse *)

(** The three shapes of an escaped character. *)
Definition shape_ok (c : Z) : bool :=
  match repr_char c with
  | [a] => (a =? c) && negb (c =? 92) && negb (c =? 34) && negb (c =? 0)
  | [a; e] => (a =? 92) && negb (e =? 120) && negb (e =? 0) && (unescape e =? c)
  | [a; x; h1; h2] => (a =? 92) && (x =? 120) && is_hex_digit h1 && is_hex_digit h2 && negb (h2 =? 0)
      && (u8 (hex_digit_to_int h1 * 16 + hex_digit_to_int h2) =? c)
  | _ => false
  end.

Lemma repr_shape c : is_byte c → shape_ok c = true.
Proof. intros Hc. apply (forall_below shape_ok 256 ltac:(by vm_compute) c Hc). Qed.

Lemma load8_part_at pre m k c : load8 m k = Some c → load8 (pre ++ m) (len pre + k) = Some c.
Proof. intros Hk. rewrite load8_skip; [done|]. unfold load8 in Hk. by destruct (Z.leb_spec 0 k). Qed.

(** Follows a run whose reads are known. *)
Ltac follow := repeat (first [match goal with H : load8 _ _ = Some _ |- _ => rewrite H end | rewrite some_bind]; cbv beta iota).

Lemma repr_turn pre c rest current : is_byte c → ∃ q,
  token_turn (pre ++ repr_char c ++ rest) (len pre) true false current = Some (TGo q true false (current ++ [c])) ∧
  next_char (pre ++ repr_char c ++ rest) q = Some (len pre + len (repr_char c)).
Proof.
  intros Hc. pose proof (repr_shape c Hc) as Hs. unfold shape_ok in Hs. unfold token_turn, hex_escape.
  destruct (repr_char c) as [|a [|e [|h1 [|h2 [|]]]]]; try done; to_prop; subst.
  - assert (Hr0 : load8 (pre ++ [c] ++ rest) (len pre) = Some c) by by apply load8_app.
    follow. replace (c =? 92) with false by lia. cbn [negb andb]. follow.
    replace (c =? 34) with false by lia. replace (c =? 0) with false by lia. eexists. split; [done|].
    unfold next_char. follow. replace (c =? 0) with false by lia. done.
  - assert (Hr0 : load8 (pre ++ [92; e] ++ rest) (len pre) = Some 92) by by apply load8_app.
    assert (Hr1 : load8 (pre ++ [92; e] ++ rest) (len pre + 1) = Some e) by by apply load8_part_at.
    follow. change (92 =? 92) with true. cbn [negb]. follow. replace (e =? 120) with false by lia. cbn [negb]. follow.
    replace (e =? 0) with false by lia. cbn [andb negb].
    eexists. split; [done|]. unfold next_char. follow. replace (e =? 0) with false by lia. cbn [negb length]. f_equal. lia.
  - assert (Hr0 : load8 (pre ++ [92; 120; h1; h2] ++ rest) (len pre) = Some 92) by by apply load8_app.
    assert (Hr1 : load8 (pre ++ [92; 120; h1; h2] ++ rest) (len pre + 1) = Some 120) by by apply load8_part_at.
    assert (Hr2 : load8 (pre ++ [92; 120; h1; h2] ++ rest) (len pre + 2) = Some h1) by by apply load8_part_at.
    assert (Hr3 : load8 (pre ++ [92; 120; h1; h2] ++ rest) (len pre + 3) = Some h2) by by apply load8_part_at.
    follow. change (92 =? 92) with true. cbn [negb]. follow. change (120 =? 120) with true. cbn [negb]. follow.
    repeat match goal with H : is_hex_digit ?h = true |- _ => rewrite H; clear H end. cbn [negb]. follow.
    eexists. split; [done|]. unfold next_char. follow. replace (h2 =? 0) with false by lia. cbn [negb length]. f_equal. lia.
Qed.

(** A string between quotes, with its characters escaped. *)
Definition escaped (s : list Z) : list Z := concat (map repr_char s).
Definition quoted (s : list Z) : list Z := [34] ++ escaped s ++ [34].

Lemma repr_loop_spec s p : repr_loop s p = s ++ escaped p.
Proof.
  revert s. induction p as [|c p IH]; intros s; cbn [repr_loop]; [by rewrite app_nil_r|]. rewrite IH, <- app_assoc. done.
Qed.

Lemma sdscatrepr_spec s p : sdscatrepr s p (len p) = Some (s ++ quoted p).
Proof.
  unfold sdscatrepr. rewrite load_all. mnext. rewrite repr_loop_spec. unfold quoted. by rewrite <- !app_assoc.
Qed.

Lemma quoted_loop s fuel pre rest current : bytes_ok s → (length s < fuel)%nat →
  (∃ c, head rest = Some c ∧ (c = 0 ∨ isspace c = true)) →
  token_loop fuel (pre ++ escaped s ++ 34 :: rest) (len pre) true false current =
  Some (Some (current ++ s, len pre + len (escaped s) + 1)).
Proof.
  intros Hs. revert fuel pre current. induction Hs as [|c s Hc Hs IH]; intros fuel pre current Hf Hr.
  - destruct fuel as [|fuel]; [cbn in Hf; lia|]. cbn [token_loop escaped map concat app]. unfold token_turn, hex_escape.
    assert (H0 : load8 (pre ++ 34 :: rest) (len pre) = Some 34) by by apply load8_app.
    destruct rest as [|r rest]; [by destruct Hr as (? & ? & _)|]. destruct Hr as (c & [= <-] & Hr).
    assert (H1 : load8 (pre ++ 34 :: r :: rest) (len pre + 1) = Some r) by by apply load8_part_at.
    follow. change (34 =? 92) with false. cbn [negb andb]. follow. change (34 =? 34) with true. unfold closing. follow.
    replace (negb (r =? 0) && negb (isspace r)) with false by (destruct Hr as [->| ->]; [done|by rewrite andb_false_r]).
    follow. unfold next_char. follow. change (34 =? 0) with false. cbn [negb]. follow. rewrite app_nil_r. cbn [length]. do 4 f_equal. lia.
  - destruct fuel as [|fuel]; [cbn in Hf; lia|]. cbn [length] in Hf. unfold escaped. cbn [map concat]. fold (escaped s).
    rewrite <- app_assoc. cbn [token_loop].
    destruct (repr_turn pre c (escaped s ++ 34 :: rest) current Hc) as (q & -> & Hq). mnext. rewrite Hq. mnext.
    specialize (IH fuel (pre ++ repr_char c) (current ++ [c]) ltac:(lia) Hr).
    rewrite <- !app_assoc in IH. cbn [app] in IH. rewrite length_app in IH.
    replace (Z.of_nat (length pre + length (repr_char c))) with (len pre + len (repr_char c)) in IH by lia. rewrite IH.
    rewrite length_app. do 3 f_equal. lia.
Qed.

Lemma quoted_token a pre rest : bytes_ok a → (∃ c, head rest = Some c ∧ (c = 0 ∨ isspace c = true)) →
  token_loop (length (pre ++ quoted a ++ rest) + 1) (pre ++ quoted a ++ rest) (len pre) false false [] =
  Some (Some (a, len pre + len (quoted a))).
Proof.
  intros Ha Hr. rewrite Nat.add_1_r. cbn [token_loop].
  assert (H0 : load8 (pre ++ quoted a ++ rest) (len pre) = Some 34) by by apply load8_app.
  unfold token_turn. follow. cbn [Z.eqb Pos.eqb orb]. unfold next_char. follow. cbn [Z.eqb negb]. follow.
  assert (Hlen : (length a <= length (escaped a))%nat).
  { clear - Ha. induction Ha as [|c a Hc _ IH]; [done|]. unfold escaped in *. cbn [map concat length]. rewrite length_app.
    assert (1 <= length (repr_char c))%nat; [|lia]. unfold repr_char. repeat case_if; cbn [length]; lia. }
  pose proof (quoted_loop a (length (pre ++ quoted a ++ rest)) (pre ++ [34]) rest [] Ha) as Hq.
  unfold quoted in *. rewrite <- !app_assoc in *. cbn [app] in *. rewrite !length_app in Hq. cbn [length] in Hq.
  rewrite !length_app in *. cbn [length] in *. rewrite ?length_app in *. cbn [length] in *.
  replace (Z.of_nat (length pre + 1)) with (len pre + 1) in Hq by lia.
  rewrite Hq; [|lia|done]. do 3 f_equal. lia.
Qed.

Lemma skip_none fuel pre c rest : c = 0 ∨ isspace c = false →
  skip_blanks fuel (pre ++ c :: rest) (len pre) = Some (len pre).
Proof.
  intros Hc. assert (H0 : load8 (pre ++ c :: rest) (len pre) = Some c) by by apply load8_app.
  assert (negb (c =? 0) && isspace c = false) as Hf by (destruct Hc as [->| ->]; [done|by rewrite andb_false_r]).
  destruct fuel; cbn [skip_blanks]; follow; by rewrite Hf.
Qed.

Lemma skip_one fuel pre c rest : c = 0 ∨ isspace c = false → (0 < fuel)%nat →
  skip_blanks fuel (pre ++ 32 :: c :: rest) (len pre) = Some (len pre + 1).
Proof.
  intros Hc Hf. destruct fuel as [|fuel]; [lia|]. cbn [skip_blanks].
  assert (H0 : load8 (pre ++ 32 :: c :: rest) (len pre) = Some 32) by by apply load8_app. follow. cbn [Z.eqb negb isspace andb orb].
  change (isspace 32) with true. cbv iota. pose proof (skip_none fuel (pre ++ [32]) c rest Hc) as Hs.
  rewrite <- app_assoc in Hs. cbn [app] in Hs. replace (len (pre ++ [32])) with (len pre + 1) in Hs by len_lia. done.
Qed.

(** The line after its first argument. *)
Fixpoint more_args (args : list (list Z)) : list Z :=
  match args with
  | [] => [0]
  | a :: args => [32] ++ quoted a ++ more_args args
  end.

Lemma joined_more a args : joined (map quoted (a :: args)) [32] ++ [0] = quoted a ++ more_args args.
Proof.
  revert a. induction args as [|b args IH]; intros a; [done|].
  change (joined (map quoted (a :: b :: args)) [32]) with (quoted a ++ [32] ++ joined (map quoted (b :: args)) [32]).
  rewrite <- !app_assoc, IH. done.
Qed.

Lemma more_args_head args : ∃ c, head (more_args args) = Some c ∧ (c = 0 ∨ isspace c = true).
Proof. destruct args; cbn; eauto. Qed.

Lemma one_arg fuel pre blank a rest vector : bytes_ok a → blank = [] ∨ blank = [32] →
  (∃ c, head rest = Some c ∧ (c = 0 ∨ isspace c = true)) →
  args_loop (S fuel) (pre ++ blank ++ quoted a ++ rest) (len pre) vector =
  args_loop fuel (pre ++ blank ++ quoted a ++ rest) (len pre + len blank + len (quoted a)) (vector ++ [a]).
Proof.
  intros Ha Hb Hr. cbn [args_loop].
  assert (skip_blanks (length (pre ++ blank ++ quoted a ++ rest)) (pre ++ blank ++ quoted a ++ rest) (len pre) =
    Some (len pre + len blank)) as ->.
  { destruct Hb as [->| ->].
    - cbn [length]. rewrite Z.add_0_r. apply skip_none. by right.
    - apply skip_one; [by right|]. len_lia. }
  mnext. assert (H0 : load8 (pre ++ blank ++ quoted a ++ rest) (len pre + len blank) = Some 34).
  { rewrite app_assoc. apply load8_app. len_lia. }
  follow. cbn [Z.eqb negb]. pose proof (quoted_token a (pre ++ blank) rest Ha Hr) as Ht. rewrite <- !app_assoc in Ht.
  replace (len (pre ++ blank)) with (len pre + len blank) in Ht by len_lia. rewrite Ht. mnext. done.
Qed.

Lemma split_more args fuel pre vector : Forall (Forall is_byte) args → (length args < fuel)%nat →
  args_loop fuel (pre ++ more_args args) (len pre) vector = Some (Some (vector ++ args)).
Proof.
  intros Hargs. revert fuel pre vector. induction Hargs as [|a args Ha Hargs IH]; intros fuel pre vector Hf.
  - destruct fuel as [|fuel]; [cbn in Hf; lia|]. cbn [args_loop more_args].
    assert (H0 : load8 (pre ++ [0]) (len pre) = Some 0) by by apply load8_app.
    rewrite skip_none by by left. follow. by rewrite app_nil_r.
  - destruct fuel as [|fuel]; [cbn in Hf; lia|]. cbn [length] in Hf. cbn [more_args].
    rewrite (one_arg fuel pre [32] a) by first [done|by right|apply more_args_head].
    specialize (IH fuel (pre ++ [32] ++ quoted a) (vector ++ [a]) ltac:(lia)). rewrite <- !app_assoc in IH.
    replace (len (pre ++ [32] ++ quoted a)) with (len pre + len [32] + len (quoted a)) in IH by len_lia. exact IH.
Qed.

(** C25: a line made of strings quoted by sdscatrepr, separated by blanks, is split
    by sdssplitargs into exactly these strings, whatever bytes they hold. *)
Theorem sdssplitargs_sdscatrepr args : Forall (Forall is_byte) args →
  (∀ a, a ∈ args → sdscatrepr [] a (len a) = Some (quoted a)) ∧
  sdssplitargs (joined (map quoted args) [32] ++ [0]) = Some (Some args).
Proof.
  intros Hargs. split; [intros a _; apply sdscatrepr_spec|]. unfold sdssplitargs. destruct args as [|a args].
  - done.
  - rewrite joined_more. apply Forall_cons in Hargs as [Ha Hargs]. rewrite Nat.add_1_r.
    pose proof (one_arg (length (quoted a ++ more_args args)) [] [] a (more_args args) []) as H1. cbn [app] in H1.
    change (len []) with 0 in H1. rewrite H1 by first [done|by left|apply more_args_head]. cbn [app].
    apply (split_more args _ (quoted a) [a] Hargs). rewrite length_app.
    assert (length args < length (more_args args))%nat; [|lia]. clear. induction args as [|b args IH]; [cbn; lia|].
    cbn [more_args length]. rewrite !length_app. cbn [length]. lia.
Qed.

Lemma sdssplitargs_sdscatrepr_witness :
  (∀ a, a ∈ [[0; 255; 92]; []; [39]] → sdscatrepr [] a (len a) = Some (quoted a)) ∧
  sdssplitargs (joined (map quoted [[0; 255; 92]; []; [39]]) [32] ++ [0]) = Some (Some [[0; 255; 92]; []; [39]]).
Proof. apply (sdssplitargs_sdscatrepr [[0; 255; 92]; []; [39]]). by_decision. Defined.

(** ** Splitting any line *)

Section any_line.
Context (l : list Z) (Hl : Forall (λ c, c ≠ 0) l).

Lemma line_char p : 0 <= p <= len l → ∃ c, load8 (l ++ [0]) p = Some c ∧ (p < len l → c ≠ 0) ∧ (p = len l → c = 0).
Proof.
  intros Hp. destruct (decide (p = len l)) as [->|Hne].
  - exists 0. split; [by apply load8_app|]. split; [lia|done].
  - destruct (lookup_lt_is_Some_2 l (Z.to_nat p)) as [c Hc]; [lia|]. exists c. split_and!; [|intros _|lia].
    + unfold load8. if_true. by apply lookup_app_l_Some.
    + exact (Forall_lookup_1 (λ c, c ≠ 0) l (Z.to_nat p) c Hl Hc).
Qed.

Lemma char_below p c : 0 <= p <= len l → load8 (l ++ [0]) p = Some c → c ≠ 0 → p < len l.
Proof.
  intros Hp Hc Hn. destruct (line_char p Hp) as (c' & Hc' & _ & H0). rewrite Hc in Hc'. injection Hc' as <-.
  destruct (decide (p = len l)); [by apply H0 in e|lia].
Qed.

Lemma hex_digit_nonzero c : is_hex_digit c = true → c ≠ 0.
Proof. unfold is_hex_digit. lia. Qed.

(** Reads of the escape stay before the terminator, and it ends at a digit. *)
Lemma hex_total p : 0 <= p <= len l → ∃ h, hex_escape (l ++ [0]) p = Some h ∧ (h ≠ None → p + 3 < len l).
Proof.
  intros Hp. unfold hex_escape. destruct (line_char p Hp) as (c0 & Hr0 & _). rewrite Hr0. mnext.
  case_if; [by eexists|]. assert (p < len l) by (eapply char_below; [done|done|lia]).
  destruct (line_char (p + 1)) as (c1 & Hr1 & _); [lia|]. rewrite Hr1. mnext. case_if; [by eexists|].
  assert (p + 1 < len l) by (eapply char_below; [|done|]; lia).
  destruct (line_char (p + 2)) as (c2 & Hr2 & _); [lia|]. rewrite Hr2. mnext. case_if; [by eexists|].
  assert (p + 2 < len l) by (eapply char_below; [|done|by apply hex_digit_nonzero]; lia).
  destruct (line_char (p + 3)) as (c3 & Hr3 & _); [lia|]. rewrite Hr3. mnext. case_if; [by eexists|].
  eexists. split; [done|]. intros _. eapply char_below; [|done|by apply hex_digit_nonzero]. lia.
Qed.

Lemma closing_total p : 0 <= p < len l → ∃ t, closing (l ++ [0]) p = Some t ∧ (t = TErr ∨ t = TDone p).
Proof.
  intros Hp. unfold closing. destruct (line_char (p + 1)) as (c & -> & _); [lia|]. mnext. case_if; eauto.
Qed.

Lemma turn_total p inq insq current : 0 <= p <= len l →
  ∃ t, token_turn (l ++ [0]) p inq insq current = Some t ∧
    match t with TErr => True | TDone q => q = p | TGo q _ _ _ => p <= q < len l end.
Proof.
  intros Hp. unfold token_turn. destruct (line_char p Hp) as (c & Hc & _). rewrite Hc. mnext.
  assert (Hlt : c ≠ 0 → p < len l) by (intros; by eapply char_below).
  assert (Hnext : ∃ c1, (if c =? 92 then load8 (l ++ [0]) (p + 1) else Some 0) = Some c1 ∧ (c1 ≠ 0 → p + 1 < len l)).
  { case_if; [|by eexists]. destruct (line_char (p + 1)) as (c1 & H1 & _); [lia|]. exists c1. split; [done|].
    intros Hn. eapply char_below; [|done..]. lia. }
  assert (Hclose : c ≠ 0 → ∃ t, closing (l ++ [0]) p = Some t ∧
    match t with TErr => True | TDone q => q = p | TGo q _ _ _ => p <= q < len l end).
  { intros Hn. destruct (closing_total p) as (t & -> & [->| ->]); [specialize (Hlt Hn); lia|by eexists..]. }
  destruct inq; [|destruct insq].
  - destruct (hex_total p Hp) as (h & -> & Hh). mnext. destruct h as [b|]; [eexists; split; [done|]; specialize (Hh ltac:(done)); cbv iota; lia|].
    destruct Hnext as (c1 & -> & H1). mnext. case_if; [eexists; split; [done|]; cbv iota; lia|]. case_if; [apply Hclose; lia|].
    case_if; [by eexists|]. eexists. split; [done|]. specialize (Hlt ltac:(lia)). cbv iota. lia.
  - destruct Hnext as (c1 & -> & H1). mnext. case_if; [eexists; split; [done|]; cbv iota; lia|]. case_if; [apply Hclose; lia|].
    case_if; [by eexists|]. eexists. split; [done|]. specialize (Hlt ltac:(lia)). cbv iota. lia.
  - eexists. split; [done|]. case_if; [done|]. specialize (Hlt ltac:(lia)). repeat case_if; cbv iota; lia.
Qed.

Lemma advance_total p : 0 <= p <= len l → next_char (l ++ [0]) p = Some (if p <? len l then p + 1 else p).
Proof.
  intros Hp. unfold next_char. destruct (line_char p Hp) as (c & -> & Hn & H0). mnext. destruct (Z.ltb_spec p (len l)).
  - replace (c =? 0) with false by (symmetry; apply Z.eqb_neq; by apply Hn). done.
  - replace c with 0 by (symmetry; apply H0; lia). done.
Qed.

Lemma token_total fuel p inq insq current : 0 <= p <= len l → len l - p < Z.of_nat fuel →
  ∃ r, token_loop fuel (l ++ [0]) p inq insq current = Some r ∧
    ∀ cur q, r = Some (cur, q) → p <= q <= len l ∧ (p < len l → p < q).
Proof.
  revert p inq insq current. induction fuel as [|fuel IH]; intros p inq insq current Hp Hf; [lia|]. cbn [token_loop].
  destruct (turn_total p inq insq current Hp) as (t & -> & Ht). mnext. destruct t as [|q|q inq' insq' cur'].
  - eexists. by split.
  - subst q. rewrite advance_total by done. mnext. eexists. split; [done|]. intros cur q [= <- <-]. case_if; lia.
  - rewrite advance_total by lia. mnext. replace (q <? len l) with true by lia.
    destruct (IH (q + 1) inq' insq' cur') as (r & -> & Hr); [lia..|]. exists r. split; [done|]. intros cur q' Hq.
    destruct (Hr cur q' Hq). lia.
Qed.

Lemma skip_total fuel p : 0 <= p <= len l → len l - p <= Z.of_nat fuel →
  ∃ q, skip_blanks fuel (l ++ [0]) p = Some q ∧ p <= q <= len l.
Proof.
  revert p. induction fuel as [|fuel IH]; intros p Hp Hf; cbn [skip_blanks];
    destruct (line_char p Hp) as (c & Hc & _ & H0); rewrite Hc; mnext.
  - rewrite H0 by lia. exists p. split; [done|lia].
  - case_if; [|exists p; split; [done|lia]]. assert (p < len l) by (eapply char_below; [done|done|lia]).
    destruct (IH (p + 1)) as (q & Hq & ?); [lia..|]. exists q. split; [done|lia].
Qed.

Lemma args_total fuel p vector : 0 <= p <= len l → len l - p < Z.of_nat fuel →
  ∃ r, args_loop fuel (l ++ [0]) p vector = Some r.
Proof.
  revert p vector. induction fuel as [|fuel IH]; intros p vector Hp Hf; [lia|]. cbn [args_loop].
  destruct (skip_total (length (l ++ [0])) p Hp) as (q & -> & Hq); [len_lia|]. mnext.
  destruct (line_char q) as (c & Hc & _); [lia|]. rewrite Hc. mnext. case_if; [|by eexists].
  assert (q < len l) by (eapply char_below; [|done|]; lia).
  destruct (token_total (length (l ++ [0]) + 1) q false false []) as (r & -> & Hr); [lia|len_lia|]. mnext.
  destruct r as [[cur q']|]; [|by eexists]. destruct (Hr cur q' eq_refl). apply IH; lia.
Qed.
End any_line.

(** ** What follows the terminator does not matter *)

Section frame.
Context (line rest : list Z).

Lemma load8_grow p c : load8 line p = Some c → load8 (line ++ rest) p = Some c.
Proof. unfold load8. case_if; [|done]. apply lookup_app_l_Some. Qed.

(** A computation that succeeds on the line does the same on the longer block. *)
Ltac grow :=
  repeat match goal with
  | H : (load8 line ?p ≫= _) = Some _ |- _ =>
    let c := fresh "c" in let E := fresh "E" in destruct (load8 line p) as [c|] eqn:E; [|done]; rewrite (load8_grow p c E);
    rewrite some_bind in H; rewrite some_bind
  | H : (if ?b then _ else _) = Some _ |- _ => destruct b
  end.

Lemma hex_grow p h : hex_escape line p = Some h → hex_escape (line ++ rest) p = Some h.
Proof. unfold hex_escape. intros Hx. by grow. Qed.
Lemma closing_grow p t : closing line p = Some t → closing (line ++ rest) p = Some t.
Proof. unfold closing. intros Hx. by grow. Qed.
Lemma next_grow p q : next_char line p = Some q → next_char (line ++ rest) p = Some q.
Proof. unfold next_char. intros Hx. by grow. Qed.

Lemma escape_grow c k (f g : Z → option turn) t : (∀ c1, f c1 = Some t → g c1 = Some t) →
  (if c =? 92 then load8 line k else Some 0) ≫= f = Some t → (if c =? 92 then load8 (line ++ rest) k else Some 0) ≫= g = Some t.
Proof.
  intros Hf Hx. destruct (c =? 92); [|by apply Hf].
  destruct (load8 line k) as [c1|] eqn:E; [|done]. rewrite (load8_grow _ _ E). by apply Hf.
Qed.

Lemma turn_grow p inq insq cur t : token_turn line p inq insq cur = Some t → token_turn (line ++ rest) p inq insq cur = Some t.
Proof.
  unfold token_turn. intros Hx. destruct (load8 line p) as [c|] eqn:E; [|done]. rewrite (load8_grow _ _ E). rewrite some_bind in Hx. rewrite some_bind.
  destruct inq; [|destruct insq; [|done]].
  - destruct (hex_escape line p) as [h|] eqn:Eh; [|done]. rewrite (hex_grow _ _ Eh). rewrite some_bind in Hx. rewrite some_bind. destruct h; [done|].
    eapply escape_grow; [|exact Hx]. cbv beta. intros c1 Hc. destruct (_ && _); [done|].
    destruct (c =? 34); [by apply closing_grow|done].
  - eapply escape_grow; [|exact Hx]. cbv beta. intros c1 Hc. destruct (_ && _); [done|].
    destruct (c =? 39); [by apply closing_grow|done].
Qed.

Lemma token_grow fuel : ∀ fuel' p inq insq cur r, (fuel <= fuel')%nat → token_loop fuel line p inq insq cur = Some r →
  token_loop fuel' (line ++ rest) p inq insq cur = Some r.
Proof.
  induction fuel as [|fuel IH]; intros [|fuel'] p inq insq cur r Hf Hx; [done..|lia|]. cbn [token_loop] in *.
  destruct (token_turn line p inq insq cur) as [t|] eqn:Et; [|done]. rewrite (turn_grow _ _ _ _ _ Et). rewrite some_bind in Hx. rewrite some_bind.
  destruct t as [|q|q inq' insq' cur']; [done|..]; (destruct (next_char line q) as [q'|] eqn:En; [|done]); rewrite (next_grow _ _ En);
    rewrite some_bind in Hx; rewrite some_bind; [done|]. apply IH; [lia|done].
Qed.

Lemma skip_grow fuel : ∀ fuel' p q, (fuel <= fuel')%nat → skip_blanks fuel line p = Some q → skip_blanks fuel' (line ++ rest) p = Some q.
Proof.
  induction fuel as [|fuel IH]; intros fuel' p q Hf Hx; cbn [skip_blanks] in Hx; destruct (load8 line p) as [c|] eqn:E; try done;
    rewrite some_bind in Hx; destruct fuel'; cbn [skip_blanks]; rewrite (load8_grow _ _ E), some_bind; destruct (_ && _); try done; [lia|].
  apply IH; [lia|done].
Qed.

Lemma args_grow fuel : ∀ fuel' p v r, (fuel <= fuel')%nat → args_loop fuel line p v = Some r → args_loop fuel' (line ++ rest) p v = Some r.
Proof.
  induction fuel as [|fuel IH]; intros [|fuel'] p v r Hf Hx; [done..|lia|]. cbn [args_loop] in *.
  destruct (skip_blanks _ line p) as [q|] eqn:Es; [|done]. rewrite (skip_grow (length line) (length (line ++ rest)) _ _ ltac:(len_lia) Es). rewrite some_bind in Hx. rewrite some_bind.
  destruct (load8 line q) as [c|] eqn:E; [|done]. rewrite (load8_grow _ _ E). rewrite some_bind in Hx. rewrite some_bind. destruct (negb _); [|done].
  destruct (token_loop _ line q false false []) as [t|] eqn:Et; [|done].
  rewrite (token_grow (length line + 1) (length (line ++ rest) + 1) _ _ _ _ _ ltac:(len_lia) Et). rewrite some_bind in Hx. rewrite some_bind.
  destruct t as [[cur q']|]; [|done]. apply IH; [lia|done].
Qed.

Lemma splitargs_grow r : sdssplitargs line = Some r → sdssplitargs (line ++ rest) = Some r.
Proof. apply args_grow. len_lia. Qed.
End frame.

Lemma splitargs_total l : Forall (λ c, c ≠ 0) l → ∃ r, sdssplitargs (l ++ [0]) = Some r.
Proof. intros Hl. apply args_total; [done|lia|len_lia]. Qed.

(** Sdssplitargs ends on every line and never reads past its terminator, even
    where an escape or a quote is cut off by the end of the line. *)
Theorem sdssplitargs_safe l : Forall (λ c, c ≠ 0) l → ∃ r, sdssplitargs (l ++ [0]) = Some r.
Proof. apply splitargs_total. Qed.

Lemma sdssplitargs_safe_witness :
  sdssplitargs ([34; 92; 120; 52] ++ [0]) = Some None ∧ ∃ r, sdssplitargs ([34; 92; 120; 52] ++ [0]) = Some r.
Proof. split; [by vm_compute|]. apply (sdssplitargs_safe [34; 92; 120; 52]). by_decision. Defined.

(** ** Strings that need no quotes *)

Lemma plain_chars s fuel pre cur : sdsneedsrepr s = false → 39 ∉ s → (length s < fuel)%nat →
  token_loop fuel (pre ++ s ++ [0]) (len pre) false false cur = Some (Some (cur ++ s, len pre + len s)).
Proof.
  revert fuel pre cur. induction s as [|c s IH]; intros fuel pre cur Hn Hq Hf.
  - destruct fuel as [|fuel]; [cbn in Hf; lia|]. cbn [token_loop app].
    assert (Hload : load8 (pre ++ [0]) (len pre) = Some 0) by by apply load8_app.
    unfold token_turn, next_char. follow. cbn [Z.eqb orb]. follow. cbn [Z.eqb negb length]. rewrite app_nil_r, Z.add_0_r. done.
  - destruct fuel as [|fuel]; [cbn in Hf; lia|]. cbn [token_loop sdsneedsrepr length] in *. revert Hn. case_if; [done|]. intros Hn.
    assert (Hload : load8 (pre ++ (c :: s) ++ [0]) (len pre) = Some c) by by apply load8_app.
    assert (Hc39 : c ≠ 39) by set_solver. unfold isprint, isspace in *.
    unfold token_turn, next_char. follow. replace ((c =? 32) || (c =? 10) || (c =? 13) || (c =? 9) || (c =? 0)) with false by lia.
    replace (c =? 34) with false by lia. replace (c =? 39) with false by lia. follow. replace (c =? 0) with false by lia. cbn [negb].
    specialize (IH fuel (pre ++ [c]) (cur ++ [c]) Hn ltac:(set_solver) ltac:(lia)). rewrite <- !app_assoc in IH. cbn [app] in *.
    replace (len (pre ++ [c])) with (len pre + 1) in IH by len_lia. rewrite IH. do 3 f_equal. lia.
Qed.

(** A string that sdsneedsrepr says needs no quotes, and that is not empty and has
    no single quote, is one argument as it stands. *)
Lemma plain_split s : sdsneedsrepr s = false → 39 ∉ s → s ≠ [] → sdssplitargs (s ++ [0]) = Some (Some [s]).
Proof.
  intros Hn Hq Hne. unfold sdssplitargs. destruct s as [|c s]; [done|]. rewrite Nat.add_1_r. cbn [args_loop].
  assert (Hc : isspace c = false ∧ c ≠ 0).
  { cbn [sdsneedsrepr] in Hn. revert Hn. case_if; [done|]. intros _. unfold isprint, isspace in *. lia. }
  rewrite (skip_none _ [] c (s ++ [0])) by (right; tauto). mnext. change (len []) with 0.
  assert (Hload : load8 ((c :: s) ++ [0]) 0 = Some c) by done. follow. replace (c =? 0) with false by lia. cbn [negb].
  pose proof (plain_chars (c :: s) (length ((c :: s) ++ [0]) + 1) [] [] Hn Hq ltac:(len_lia)) as Ht.
  change (len []) with 0 in Ht. cbn [app] in Ht |- *. rewrite Ht. mnext.
  assert (Hend : load8 (c :: s ++ [0]) (0 + len (c :: s)) = Some 0).
  { change (c :: s ++ [0]) with ((c :: s) ++ [0]). by apply load8_app. }
  rewrite length_cons. cbn [args_loop]. rewrite Z.add_0_l in *.
  pose proof (skip_none (length (c :: s ++ [0])) (c :: s) 0 []) as Hs. cbn [app] in Hs. rewrite Hs by by left. mnext.
  follow. done.
Qed.

Lemma no_repr_cons c s : sdsneedsrepr (c :: s) = false → c ≠ 92 ∧ c ≠ 34 ∧ isspace c = false ∧ c ≠ 0 ∧ sdsneedsrepr s = false.
Proof. cbn [sdsneedsrepr]. case_if; [done|]. intros Hn. unfold isprint, isspace in *. split_and!; try done; lia. Qed.

(** A token with a single quote loses a character. *)
Lemma quote_loses s : ∀ fuel pre cur cur' p' (insq : bool), sdsneedsrepr s = false → insq = true ∨ 39 ∈ s → token_loop fuel (pre ++ s ++ [0]) (len pre) false insq cur = Some (Some (cur', p')) → len cur' < len cur + len s.
Proof.
  induction s as [|c s IH]; intros fuel pre cur cur' p' insq Hn Hq Ht; (destruct fuel as [|fuel]; [done|]); cbn [token_loop] in Ht; unfold token_turn, next_char in Ht.
  - assert (Hload : load8 (pre ++ [0]) (len pre) = Some 0) by by apply load8_app. destruct Hq as [->|Hq]; [|by apply elem_of_nil in Hq]. cbn [app] in Ht. rewrite Hload, some_bind in Ht. done.
  - apply no_repr_cons in Hn as (H92 & H34 & Hsp & H0c & Hn). assert (Hload : load8 (pre ++ (c :: s) ++ [0]) (len pre) = Some c) by by apply load8_app. rewrite Hload, some_bind in Ht. cbv beta iota in Ht. replace (c =? 92) with false in Ht by lia.
    assert (Hgo : ∀ q cur0, (q = true ∨ 39 ∈ s) → (p ← (c ← load8 (pre ++ (c :: s) ++ [0]) (len pre); Some (if negb (c =? 0) then len pre + 1 else len pre)); token_loop fuel (pre ++ (c :: s) ++ [0]) p false q cur0) = Some (Some (cur', p')) → len cur' < len cur0 + len s).
    { intros q cur0 Hq0 Hr. rewrite Hload, some_bind in Hr. cbv beta iota in Hr. replace (c =? 0) with false in Hr by lia. cbn [negb] in Hr. rewrite some_bind in Hr. cbv beta in Hr.
      apply (IH fuel (pre ++ [c]) cur0 cur' p' q Hn Hq0). rewrite <- app_assoc. by replace (len (pre ++ [c])) with (len pre + 1) by len_lia. }
    cbn [length]. destruct insq; cbn [andb] in Ht.
    + rewrite some_bind in Ht. cbv beta iota in Ht. destruct (c =? 39) eqn:E39; to_prop.
      * unfold closing in Ht. destruct s as [|c1 s].
        -- replace (load8 (pre ++ [c] ++ [0]) (len pre + 1)) with (Some 0) in Ht by (symmetry; rewrite app_assoc; apply load8_app; len_lia). rewrite !some_bind in Ht. cbn [Z.eqb negb andb] in Ht. rewrite Hload, !some_bind in Ht. injection Ht as <- _. cbn [length]. lia.
        -- apply no_repr_cons in Hn as (_ & _ & Hsp1 & H01 & _). replace (load8 (pre ++ (c :: c1 :: s) ++ [0]) (len pre + 1)) with (Some c1) in Ht by (symmetry; change (pre ++ (c :: c1 :: s) ++ [0]) with (pre ++ [c] ++ c1 :: s ++ [0]); rewrite app_assoc; apply load8_app; len_lia).
           rewrite !some_bind in Ht. rewrite Hsp1 in Ht. replace (c1 =? 0) with false in Ht by lia. done.
      * replace (c =? 0) with false in Ht by lia. rewrite some_bind in Ht. apply Hgo in Ht; [|by left]. rewrite length_app in Ht. cbn [length] in Ht. lia.
    + unfold isspace in Hsp. replace ((c =? 32) || (c =? 10) || (c =? 13) || (c =? 9) || (c =? 0)) with false in Ht by lia. rewrite some_bind in Ht. cbv beta iota in Ht. replace (c =? 34) with false in Ht by lia. destruct (c =? 39) eqn:E39; to_prop.
      * apply Hgo in Ht; [lia|by left].
      * apply Hgo in Ht; [rewrite length_app in Ht; cbn [length] in Ht; lia|]. right. destruct Hq as [?|[?|?]%elem_of_cons]; [done|congruence|done].
Qed.

Lemma args_extend fuel : ∀ line p v r, args_loop fuel line p v = Some (Some r) → ∃ w, r = v ++ w.
Proof.
  induction fuel as [|fuel IH]; intros line p v r; [done|]. cbn [args_loop]. intros (q & _ & (c & _ & E)%bind_Some)%bind_Some. destruct (negb (c =? 0)); [|injection E as <-; exists []; by rewrite app_nil_r].
  apply bind_Some in E as ([[cur p']|] & _ & E); [|done]. apply IH in E as [w ->]. exists (cur :: w). by rewrite <- app_assoc.
Qed.

(** C39: when sdsneedsrepr says that a string needs no quotes, sdssplitargs takes it for one
    argument, itself, exactly if it is not empty and has no single quote: the two cases
    that the function misses. *)
Theorem sdsneedsrepr_exact s : sdsneedsrepr s = false → sdssplitargs (s ++ [0]) = Some (Some [s]) ↔ s ≠ [] ∧ 39 ∉ s.
Proof.
  intros Hn. split; [|intros [? ?]; by apply plain_split]. intros Hs. destruct s as [|c s]; [done|]. split; [done|]. intros Hq. pose proof (no_repr_cons c s Hn) as (_ & _ & Hsp & H0c & _).
  unfold sdssplitargs in Hs. rewrite Nat.add_1_r in Hs. cbn [args_loop] in Hs. rewrite (skip_none _ [] c (s ++ [0])) in Hs by (right; tauto). rewrite some_bind in Hs. change (len []) with 0 in Hs.
  assert (Hload : load8 ((c :: s) ++ [0]) 0 = Some c) by done. rewrite Hload, some_bind in Hs. replace (c =? 0) with false in Hs by lia. cbn [negb] in Hs.
  apply bind_Some in Hs as ([[cur p']|] & Ht & Hs); [|done]. apply args_extend in Hs as [w Hw]. injection Hw as <- _. apply (quote_loses (c :: s) _ [] [] _ _ _ Hn) in Ht; [cbn [length] in Ht; lia|by right].
Qed.

Lemma sdsneedsrepr_exact_witness : sdsneedsrepr [105; 116; 39; 115] = false ∧ ¬ sdssplitargs ([105; 116; 39; 115] ++ [0]) = Some (Some [[105; 116; 39; 115]]).
Proof. split; [done|]. rewrite (sdsneedsrepr_exact [105; 116; 39; 115]) by done. intros [_ Hq]. apply Hq. by_decision. Defined.

(** ** Splitting at a separator *)

Definition occurs (sep t : list Z) : Prop := ∃ a b, t = a ++ sep ++ b.

Section splitting.
Context (s sep : list Z) (Hsep : sep ≠ []) (Hsmall : len s < 2 ^ 29).

Lemma sep_at_spec j : 0 <= j → j + len sep <= len s →
  sep_at s j sep (len sep) = Some (bool_decide (take (length sep) (drop (Z.to_nat j) s) = sep)).
Proof.
  intros Hj Hb. unfold sep_at. rewrite load_all.
  assert (Hload : load s j (len sep) = Some (take (length sep) (drop (Z.to_nat j) s))).
  { unfold load, in_range. replace (_ && _) with true by lia. by rewrite Nat2Z.id. }
  rewrite Hload. destruct (Z.eqb_spec (len sep) 1) as [H1|H1]; [|done].
  destruct sep as [|d [|]]; [done| |cbn in H1; lia]. destruct (load8_total s j) as [c Hc]; [cbn [length] in *; lia|].
  rewrite Hc, load8_head. mnext. mnext. cbn [length] in *.
  assert (Htake : take 1 (drop (Z.to_nat j) s) = [c]).
  { unfold load8 in Hc. replace (0 <=? j) with true in Hc by lia. rewrite (drop_S _ c) by done. done. }
  rewrite Htake. do 3 mnext. destruct (Z.eqb_spec c d) as [->|Hne]; [by rewrite bool_decide_true|done].
Qed.

(** What is found so far: the tokens, each ended by a separator, make up the string
    up to [start], and there is no separator between [start] and [j]. *)
Definition ended (tokens : list (list Z)) : list Z := concat (map (λ t, t ++ sep) tokens).

Definition none_from (start j : Z) : Prop :=
  ∀ i, start <= i < j → take (length sep) (drop (Z.to_nat i) s) ≠ sep.

Lemma none_occurs start l : 0 <= start → 0 <= l → start + l <= len s → none_from start (start + l - len sep + 1) →
  ¬ occurs sep (take (Z.to_nat l) (drop (Z.to_nat start) s)).
Proof.
  intros Hs Hl Hb Hn (a & b & Hab). assert (Hlen : len a + len sep + len b = l).
  { apply (f_equal length) in Hab. rewrite !length_app, length_take, length_drop in Hab. lia. }
  apply (Hn (start + len a)); [lia|].
  assert (Hdrop : drop (Z.to_nat start) s = a ++ sep ++ b ++ drop (Z.to_nat l) (drop (Z.to_nat start) s)).
  { rewrite <- (take_drop (Z.to_nat l) (drop (Z.to_nat start) s)) at 1. rewrite Hab. by rewrite <- !app_assoc. }
  replace (Z.to_nat (start + len a)) with (Z.to_nat start + length a)%nat by lia.
  rewrite <- drop_drop, Hdrop, drop_app_length, take_app_length. done.
Qed.

Lemma split_loop_spec fuel start j slots tokens : len s - j <= Z.of_nat fuel →
  0 <= start <= j → j <= len s → take (Z.to_nat start) s = ended tokens → Forall (λ t, ¬ occurs sep t) tokens →
  none_from start j → len tokens + 1 <= slots <= Z.max 5 (2 * len tokens + 2) →
  ∃ start' slots' tokens', split_loop fuel s (len s) sep (len sep) start j slots tokens = Some (start', slots', tokens') ∧
    0 <= start' <= len s ∧ take (Z.to_nat start') s = ended tokens' ∧ Forall (λ t, ¬ occurs sep t) tokens' ∧
    none_from start' (len s - len sep + 1) ∧ len tokens' < slots'.
Proof.
  assert (Hpos : 1 <= len sep) by (destruct sep; [done|cbn [length]; lia]).
  assert (Hshort : ∀ tokens n, take n s = ended tokens → len tokens <= len s).
  { intros ts n Ht. apply (f_equal length) in Ht. rewrite length_take in Ht.
    assert (length ts <= length (ended ts))%nat; [|lia]. clear - Hpos. unfold ended. induction ts as [|t ts IH]; [done|].
    cbn [map concat length]. rewrite !length_app. lia. }
  revert start j slots tokens. induction fuel as [|fuel IH]; intros start j slots tokens Hf Hsj Hj Htake Hno Hn Hslots.
  { cbn [split_loop]. replace (_ <? _) with false by lia. eexists _, _, _. split_and!; [done|lia..|done|done| |lia].
    intros i Hi. apply Hn. lia. }
  cbn [split_loop]. destruct (Z.ltb_spec j (len s - (len sep - 1))).
  2:{ eexists _, _, _. split_and!; [done|lia..|done|done| |lia]. intros i Hi. apply Hn. lia. }
  pose proof (Hshort tokens _ Htake) as Hts. cbv zeta. set (slots1 := if slots <? _ then _ else slots).
  assert (Hslots1 : len tokens + 2 <= slots1 <= Z.max 5 (2 * len tokens + 2)).
  { unfold slots1. case_if; [|lia]. rewrite wraps_small; lia. }
  clearbody slots1. rewrite sep_at_spec by lia. mnext. case_bool_decide as Hm.
  - unfold load, in_range. replace (_ && _) with true by lia. mnext.
    set (t := take (Z.to_nat (j - start)) (drop (Z.to_nat start) s)). unfold add_token. replace (_ <? _) with true by lia. mnext.
    replace (j + len sep - 1 + 1) with (j + len sep) by lia. apply IH; [lia|lia|lia| | | |rewrite length_app; cbn [length]; lia].
    + unfold ended. rewrite map_app, concat_app. cbn [map concat]. fold (ended tokens). rewrite <- Htake, app_nil_r.
      replace (Z.to_nat (j + len sep)) with (Z.to_nat start + (Z.to_nat (j - start) + length sep))%nat by lia.
      rewrite <- (take_take_drop s (Z.to_nat start)). f_equal. rewrite <- take_take_drop. unfold t. f_equal.
      rewrite drop_drop. rewrite <- Hm at 2. do 2 f_equal. lia.
    + apply Forall_app. split; [done|]. apply Forall_singleton. unfold t. apply none_occurs; [lia..|].
      intros i Hi. apply Hn. lia.
    + intros i Hi. lia.
  - apply IH; [lia|lia|lia|done|done| |lia]. intros i Hi. destruct (decide (i = j)) as [->|]; [done|]. apply Hn. lia.
Qed.

Lemma joined_ended tokens t : joined (tokens ++ [t]) sep = ended tokens ++ t.
Proof.
  induction tokens as [|a tokens IH]; [done|].
  assert (joined ((a :: tokens) ++ [t]) sep = a ++ sep ++ joined (tokens ++ [t]) sep) as ->.
  { cbn [app]. by destruct (tokens ++ [t]) eqn:E; [destruct tokens|]. }
  rewrite IH. unfold ended. cbn [map concat]. by rewrite <- !app_assoc.
Qed.
End splitting.

(** Sdssplitlen cuts a string at every occurrence of the separator: the tokens,
    joined by the separator, are the string, and none of them contains it.  The
    token array never overflows. *)
Theorem sdssplitlen_correct s sep : sep ≠ [] → s ≠ [] → len s < 2 ^ 29 →
  ∃ tokens, sdssplitlen s (len s) sep (len sep) = Some (Some tokens) ∧ joined tokens sep = s ∧
    Forall (λ t, ¬ occurs sep t) tokens.
Proof.
  intros Hsep Hs Hsmall. unfold sdssplitlen.
  assert (1 <= len sep ∧ 1 <= len s) by (destruct sep; [done|]; destruct s; [done|]; cbn [length]; lia).
  replace ((len sep <? 1) || (len s <=? 0)) with false by lia.
  destruct (split_loop_spec s sep Hsep Hsmall (Z.to_nat (len s)) 0 0 5 []) as (start & slots & tokens & -> & Hst & Htake & Hno & Hn & Hslots);
    [lia|lia|lia|done|constructor|intros i ?; lia|cbn [length]; lia|].
  mnext. unfold load, in_range. replace (_ && _) with true by lia. mnext. unfold add_token. replace (_ <? _) with true by lia. mnext.
  eexists. split; [done|]. split.
  - rewrite joined_ended, <- Htake. rewrite (take_ge (drop _ s)) by (rewrite length_drop; lia). apply take_drop.
  - apply Forall_app. split; [done|]. apply Forall_singleton. apply none_occurs; [lia..|].
    intros i Hi. apply Hn. lia.
Qed.

Lemma sdssplitlen_correct_witness :
  sdssplitlen [97; 44; 32; 98; 44; 32] 6 [44; 32] 2 = Some (Some [[97]; [98]; []]) ∧
  ∃ tokens, sdssplitlen [97; 44; 32; 98; 44; 32] 6 [44; 32] 2 = Some (Some tokens) ∧
    joined tokens [44; 32] = [97; 44; 32; 98; 44; 32] ∧ Forall (λ t, ¬ occurs [44; 32] t) tokens.
Proof. split; [by vm_compute|]. apply (sdssplitlen_correct [97; 44; 32; 98; 44; 32] [44; 32]); (done || (cbn; lia)). Defined.
