(* ===== verification/Crc.v ===== *)
(** Checksums: src/redis-7.0.0/src/crc16.c (crc16), keyHashSlot of cluster.c,
    crc64.c (the bit by bit _crc64 and the table driven crc64) and the 64-bit
    half of crcspeed.c (slice-by-8 tables, for both byte orders).

    The theorems: the table driven crc16 is the CRC of the polynomial the
    comment in crc16.c names; a key's slot is below 16384 and depends only on
    its hash tag; the slice-by-8 crc64 is the bit by bit CRC on every buffer,
    for any alignment of the buffer and on both kinds of host. *)
From S2P Require Import Prelude Bits Endian.

(** ** crc16.c *)

Definition crc16tab : list Z :=
  [0x0000; 0x1021; 0x2042; 0x3063; 0x4084; 0x50a5; 0x60c6; 0x70e7;
   0x8108; 0x9129; 0xa14a; 0xb16b; 0xc18c; 0xd1ad; 0xe1ce; 0xf1ef;
   0x1231; 0x0210; 0x3273; 0x2252; 0x52b5; 0x4294; 0x72f7; 0x62d6;
   0x9339; 0x8318; 0xb37b; 0xa35a; 0xd3bd; 0xc39c; 0xf3ff; 0xe3de;
   0x2462; 0x3443; 0x0420; 0x1401; 0x64e6; 0x74c7; 0x44a4; 0x5485;
   0xa56a; 0xb54b; 0x8528; 0x9509; 0xe5ee; 0xf5cf; 0xc5ac; 0xd58d;
   0x3653; 0x2672; 0x1611; 0x0630; 0x76d7; 0x66f6; 0x5695; 0x46b4;
   0xb75b; 0xa77a; 0x9719; 0x8738; 0xf7df; 0xe7fe; 0xd79d; 0xc7bc;
   0x48c4; 0x58e5; 0x6886; 0x78a7; 0x0840; 0x1861; 0x2802; 0x3823;
   0xc9cc; 0xd9ed; 0xe98e; 0xf9af; 0x8948; 0x9969; 0xa90a; 0xb92b;
   0x5af5; 0x4ad4; 0x7ab7; 0x6a96; 0x1a71; 0x0a50; 0x3a33; 0x2a12;
   0xdbfd; 0xcbdc; 0xfbbf; 0xeb9e; 0x9b79; 0x8b58; 0xbb3b; 0xab1a;
   0x6ca6; 0x7c87; 0x4ce4; 0x5cc5; 0x2c22; 0x3c03; 0x0c60; 0x1c41;
   0xedae; 0xfd8f; 0xcdec; 0xddcd; 0xad2a; 0xbd0b; 0x8d68; 0x9d49;
   0x7e97; 0x6eb6; 0x5ed5; 0x4ef4; 0x3e13; 0x2e32; 0x1e51; 0x0e70;
   0xff9f; 0xefbe; 0xdfdd; 0xcffc; 0xbf1b; 0xaf3a; 0x9f59; 0x8f78;
   0x9188; 0x81a9; 0xb1ca; 0xa1eb; 0xd10c; 0xc12d; 0xf14e; 0xe16f;
   0x1080; 0x00a1; 0x30c2; 0x20e3; 0x5004; 0x4025; 0x7046; 0x6067;
   0x83b9; 0x9398; 0xa3fb; 0xb3da; 0xc33d; 0xd31c; 0xe37f; 0xf35e;
   0x02b1; 0x1290; 0x22f3; 0x32d2; 0x4235; 0x5214; 0x6277; 0x7256;
   0xb5ea; 0xa5cb; 0x95a8; 0x8589; 0xf56e; 0xe54f; 0xd52c; 0xc50d;
   0x34e2; 0x24c3; 0x14a0; 0x0481; 0x7466; 0x6447; 0x5424; 0x4405;
   0xa7db; 0xb7fa; 0x8799; 0x97b8; 0xe75f; 0xf77e; 0xc71d; 0xd73c;
   0x26d3; 0x36f2; 0x0691; 0x16b0; 0x6657; 0x7676; 0x4615; 0x5634;
   0xd94c; 0xc96d; 0xf90e; 0xe92f; 0x99c8; 0x89e9; 0xb98a; 0xa9ab;
   0x5844; 0x4865; 0x7806; 0x6827; 0x18c0; 0x08e1; 0x3882; 0x28a3;
   0xcb7d; 0xdb5c; 0xeb3f; 0xfb1e; 0x8bf9; 0x9bd8; 0xabbb; 0xbb9a;
   0x4a75; 0x5a54; 0x6a37; 0x7a16; 0x0af1; 0x1ad0; 0x2ab3; 0x3a92;
   0xfd2e; 0xed0f; 0xdd6c; 0xcd4d; 0xbdaa; 0xad8b; 0x9de8; 0x8dc9;
   0x7c26; 0x6c07; 0x5c64; 0x4c45; 0x3ca2; 0x2c83; 0x1ce0; 0x0cc1;
   0xef1f; 0xff3e; 0xcf5d; 0xdf7c; 0xaf9b; 0xbfba; 0x8fd9; 0x9ff8;
   0x6e17; 0x7e36; 0x4e55; 0x5e74; 0x2e93; 0x3eb2; 0x0ed1; 0x1ef0].

(** The loop of [crc16]: [n] bytes left, [*buf++] at [p].  [crc << 8] is kept
    to 16 bits by the assignment to a [uint16_t]. *)
Fixpoint crc16_loop (n : nat) (buf : list Z) (p crc : Z) : option Z :=
  match n with
  | O => Some crc
  | S n =>
    b ← load8 buf p;
    t ← load8 crc16tab (Z.land (Z.lxor (Z.shiftr crc 8) b) 0x00FF);
    crc16_loop n buf (p + 1) (u16 (Z.lxor (Z.shiftl crc 8) t))
  end.

(** [crc16(buf + p, len)]. *)
Definition crc16 (buf : list Z) (p len : Z) : option Z :=
  crc16_loop (Z.to_nat len) buf p 0.

(** ** cluster.c *)

(** [for (; i < i + n; i++) if (key[i] == c) break;] *)
Fixpoint find_byte (n : nat) (key : list Z) (c i : Z) : option Z :=
  match n with
  | O => Some i
  | S n =>
    k ← load8 key i;
    if k =? c then Some i else find_byte n key c (i + 1)
  end.

Definition lbrace : Z := 123.
Definition rbrace : Z := 125.

Definition keyHashSlot (key : list Z) (keylen : Z) : option Z :=
  s ← find_byte (Z.to_nat keylen) key lbrace 0;
  if s =? keylen then (λ c, Z.land c 0x3FFF) <$> crc16 key 0 keylen
  else
    e ← find_byte (Z.to_nat (keylen - (s + 1))) key rbrace (s + 1);
    if (e =? keylen) || (e =? s + 1)
    then (λ c, Z.land c 0x3FFF) <$> crc16 key 0 keylen
    else (λ c, Z.land c 0x3FFF) <$> crc16 key (s + 1) (e - s - 1).

(** ** crc64.c *)

Definition POLY : Z := 0xad93d23594c935a9.

(** [data_len - 1] turns of the loop after the first bit. *)
Fixpoint crc_reflect_loop (n : nat) (data ret : Z) : Z :=
  match n with
  | O => ret
  | S n =>
    let data := Z.shiftr data 1 in
    crc_reflect_loop n data (Z.lor (u64 (Z.shiftl ret 1)) (Z.land data 1))
  end.

Definition crc_reflect (data data_len : Z) : Z :=
  crc_reflect_loop (Z.to_nat (data_len - 1)) data (Z.land data 1).

(** One turn of the inner loop of [_crc64], for the mask [i]. *)
Definition crc64_bit (c crc i : Z) : Z :=
  let bit := negb (Z.land crc 0x8000000000000000 =? 0) in
  let bit := if negb (Z.land c i =? 0) then negb bit else bit in
  let crc := u64 (Z.shiftl crc 1) in
  if bit then Z.lxor crc POLY else crc.

(** The values [i] takes in [for (i = 0x01; i & 0xff; i <<= 1)]. *)
Definition bit_masks : list Z := [1; 2; 4; 8; 16; 32; 64; 128].

Fixpoint _crc64_loop (n : nat) (data : list Z) (offset crc : Z) : option Z :=
  match n with
  | O => Some crc
  | S n =>
    c ← load8 data offset;
    let crc := foldl (crc64_bit c) crc bit_masks in
    _crc64_loop n data (offset + 1) (Z.land crc 0xffffffffffffffff)
  end.

Definition _crc64 (crc : Z) (in_data : list Z) (len : Z) : option Z :=
  crc ← _crc64_loop (Z.to_nat len) in_data 0 crc;
  Some (Z.lxor (crc_reflect (Z.land crc 0xffffffffffffffff) 64) 0).

(** ** crcspeed.c *)

(** [uint64_t table[8][256]] and its accesses. *)
Abbreviation crc_table := (list (list Z)).
Definition tab (t : crc_table) (k i : Z) : option Z :=
  if (0 <=? k) && (0 <=? i) then row ← t !! Z.to_nat k; row !! Z.to_nat i else None.

(** The entry the inner loop over [k] of the second loop stores in
    [table[k][n]], from [table[0]] and [crc = table[0][n]]. *)
Fixpoint nested_crc (row0 : list Z) (crc : Z) (k : nat) : option Z :=
  match k with
  | O => Some crc
  | S k =>
    crc ← nested_crc row0 crc k;
    t ← load8 row0 (Z.land crc 0xff);
    Some (Z.lxor t (Z.shiftr crc 8))
  end.

Definition crcspeed64little_init
    (crcfn : Z → list Z → Z → option Z) : option crc_table :=
  row0 ← mapM (λ n, crcfn 0 [n] 1) (Z.of_nat <$> seq 0 256);
  mapM (λ k, mapM (λ crc, nested_crc row0 crc k) row0) (seq 0 8).

(** [__builtin_bswap64]. *)
Definition rev8 (a : Z) : Z := le_val (reverse (le_bytes 8 a)).

Definition crcspeed64big_init
    (fn : Z → list Z → Z → option Z) : option crc_table :=
  big_table ← crcspeed64little_init fn;
  Some (map (map rev8) big_table).

(** The bodies of the loops of crcspeed64little and crcspeed64big: one byte
    at a time, and one 8-byte word at a time. *)
Definition byte_step_little (t : crc_table) (crc b : Z) : option Z :=
  x ← tab t 0 (Z.land (Z.lxor crc b) 0xff);
  Some (Z.lxor x (Z.shiftr crc 8)).

Definition word_step_little (t : crc_table) (crc w : Z) : option Z :=
  let crc := Z.lxor crc w in
  x7 ← tab t 7 (Z.land crc 0xff);
  x6 ← tab t 6 (Z.land (Z.shiftr crc 8) 0xff);
  x5 ← tab t 5 (Z.land (Z.shiftr crc 16) 0xff);
  x4 ← tab t 4 (Z.land (Z.shiftr crc 24) 0xff);
  x3 ← tab t 3 (Z.land (Z.shiftr crc 32) 0xff);
  x2 ← tab t 2 (Z.land (Z.shiftr crc 40) 0xff);
  x1 ← tab t 1 (Z.land (Z.shiftr crc 48) 0xff);
  x0 ← tab t 0 (Z.shiftr crc 56);
  Some (Z.lxor (Z.lxor (Z.lxor (Z.lxor (Z.lxor (Z.lxor (Z.lxor
    x7 x6) x5) x4) x3) x2) x1) x0).

Definition byte_step_big (t : crc_table) (crc b : Z) : option Z :=
  x ← tab t 0 (Z.lxor (Z.shiftr crc 56) b);
  Some (Z.lxor x (u64 (Z.shiftl crc 8))).

Definition word_step_big (t : crc_table) (crc w : Z) : option Z :=
  let crc := Z.lxor crc w in
  x0 ← tab t 0 (Z.land crc 0xff);
  x1 ← tab t 1 (Z.land (Z.shiftr crc 8) 0xff);
  x2 ← tab t 2 (Z.land (Z.shiftr crc 16) 0xff);
  x3 ← tab t 3 (Z.land (Z.shiftr crc 24) 0xff);
  x4 ← tab t 4 (Z.land (Z.shiftr crc 32) 0xff);
  x5 ← tab t 5 (Z.land (Z.shiftr crc 40) 0xff);
  x6 ← tab t 6 (Z.land (Z.shiftr crc 48) 0xff);
  x7 ← tab t 7 (Z.shiftr crc 56);
  Some (Z.lxor (Z.lxor (Z.lxor (Z.lxor (Z.lxor (Z.lxor (Z.lxor
    x0 x1) x2) x3) x4) x5) x6) x7).

(** The three loops both routines are made of.  [next] is the memory from the
    pointer [next] on, [addr] the pointer's value, [n] the length left. *)
Section loops.
Context `{Host} (byte_step word_step : Z → Z → option Z).

Definition pop8 (next : list Z) : option (Z * list Z) :=
  match next with [] => None | b :: next => Some (b, next) end.

(** [while (len && ((uintptr_t)next & 7) != 0)] *)
Fixpoint align_loop (n : nat) (addr : Z) (next : list Z) (crc : Z) :
    option (nat * list Z * Z) :=
  match n with
  | O => Some (O, next, crc)
  | S n' =>
    if Z.land addr 7 =? 0 then Some (n, next, crc)
    else
      '(b, next) ← pop8 next;
      crc ← byte_step crc b;
      align_loop n' (addr + 1) next crc
  end.

(** [while (len >= 8)], at most [fuel] turns: [len] turns are enough. *)
Fixpoint words_loop (fuel n : nat) (next : list Z) (crc : Z) :
    option (nat * list Z * Z) :=
  match fuel with
  | O => None
  | S fuel =>
    if (8 <=? n)%nat then
      w ← load next 0 8;
      crc ← word_step crc (host_val w);
      words_loop fuel (n - 8) (drop 8 next) crc
    else Some (n, next, crc)
  end.

(** [while (len)] *)
Fixpoint bytes_loop (n : nat) (next : list Z) (crc : Z) : option Z :=
  match n with
  | O => Some crc
  | S n =>
    '(b, next) ← pop8 next;
    crc ← byte_step crc b;
    bytes_loop n next crc
  end.

Definition crcspeed_loops (crc addr : Z) (buf : list Z) (len : Z) : option Z :=
  '(n, next, crc) ← align_loop (Z.to_nat len) addr buf crc;
  '(n, next, crc) ← words_loop (S n) n next crc;
  bytes_loop n next crc.
End loops.

Definition crcspeed64little `{Host} (t : crc_table) (crc addr : Z)
    (buf : list Z) (len : Z) : option Z :=
  crcspeed_loops (byte_step_little t) (word_step_little t) crc addr buf len.

Definition crcspeed64big `{Host} (t : crc_table) (crc addr : Z)
    (buf : list Z) (len : Z) : option Z :=
  rev8 <$> crcspeed_loops (byte_step_big t) (word_step_big t) (rev8 crc) addr buf len.

(** The first byte in memory of [uint64_t n = 1]. *)
Definition first_byte_of_one `{Host} : option Z := load8 (host_bytes 8 1) 0.

Definition crcspeed64native `{Host} (t : crc_table) (crc addr : Z)
    (buf : list Z) (len : Z) : option Z :=
  c ← first_byte_of_one;
  if negb (c =? 0) then crcspeed64little t crc addr buf len
  else crcspeed64big t crc addr buf len.

Definition crcspeed64native_init `{Host}
    (fn : Z → list Z → Z → option Z) : option crc_table :=
  c ← first_byte_of_one;
  if negb (c =? 0) then crcspeed64little_init fn else crcspeed64big_init fn.

(** ** crc64.c, the entry points: [crc64_table] is what [crc64_init] leaves. *)

Definition crc64_init `{Host} : option crc_table := crcspeed64native_init _crc64.

Definition crc64 `{Host} (crc64_table : crc_table) (crc addr : Z)
    (s : list Z) (l : Z) : option Z :=
  crcspeed64native crc64_table crc addr s l.

(** ** Specification *)

(** The CRC of [crc16]: the register shifts left, 16 bits wide, and the
    polynomial x^16 + x^12 + x^5 + 1 is added when a one falls out. *)
Definition crc16_shift (crc : Z) : Z :=
  if Z.testbit crc 15 then Z.lxor (u16 (Z.shiftl crc 1)) 0x1021
  else u16 (Z.shiftl crc 1).

Definition crc16_ref (bs : list Z) : Z :=
  foldl (λ crc b, Nat.iter 8 crc16_shift (Z.lxor crc (Z.shiftl b 8))) 0 bs.

(** The reflected 64-bit register: it shifts right, and the reflected
    polynomial is added when a one falls out. *)
Definition POLY_reflected : Z := 0x95ac9329ac4bc9b5.

Definition crc64_shift (crc : Z) : Z :=
  Z.lxor (Z.shiftr crc 1) (if Z.odd crc then POLY_reflected else 0).

Definition crc64_byte (crc : Z) : Z := Nat.iter 8 crc64_shift crc.

Definition crc64_ref (crc : Z) (bs : list Z) : Z :=
  foldl (λ crc b, crc64_byte (Z.lxor crc b)) crc bs.

(** ** A shift register as a linear map *)

Section register.
Context (P : Z).

Let step (x : Z) : Z := Z.lxor (Z.shiftr x 1) (if Z.odd x then P else 0).

Lemma step_xor x y : step (Z.lxor x y) = Z.lxor (step x) (step y).
Proof.
  unfold step. rewrite Z.shiftr_lxor, <- !Z.bit0_odd, Z.lxor_spec.
  destruct (Z.testbit x 0), (Z.testbit y 0); simpl; bits i;
    rewrite !Z.lxor_spec, ?Z.bits_0;
    repeat destruct (Z.testbit _ i); done.
Qed.

Lemma iter_xor n x y :
  Nat.iter n step (Z.lxor x y) = Z.lxor (Nat.iter n step x) (Nat.iter n step y).
Proof. induction n as [|n IH]; simpl; [done|]. by rewrite IH, step_xor. Qed.

(** Zeros that fall out leave a plain shift. *)
Lemma iter_shiftl n h : Nat.iter n step (Z.shiftl h (Z.of_nat n)) = h.
Proof.
  revert h. induction n as [|n IH]; intros h; [apply Z.shiftl_0_r|].
  rewrite Nat.iter_succ_r. rewrite <- (IH h) at 2. f_equal. unfold step.
  replace (Z.of_nat (S n)) with (Z.of_nat n + 1) by lia.
  rewrite <- Z.shiftl_shiftl, Z.shiftr_shiftl_l, Z.shiftl_0_r by lia.
  rewrite <- Z.bit0_odd, Z.shiftl_spec_low by lia. by rewrite Z.lxor_0_r.
Qed.

(** A byte of the register is looked up, the rest shifts. *)
Lemma iter_split n x :
  Nat.iter n step x =
  Z.lxor (Nat.iter n step (x mod 2 ^ Z.of_nat n)) (Z.shiftr x (Z.of_nat n)).
Proof.
  rewrite <- (iter_shiftl n (Z.shiftr x (Z.of_nat n))) at 1.
  rewrite <- iter_xor. f_equal. bits i.
  rewrite Z.lxor_spec, Z.shiftl_spec by done. destruct (decide (i < Z.of_nat n)).
  - rewrite Z.mod_pow2_bits_low, (Z.testbit_neg_r _ (i - Z.of_nat n)) by lia.
    by rewrite xorb_false_r.
  - rewrite Z.mod_pow2_bits_high, Z.shiftr_spec by lia.
    rewrite xorb_false_l. f_equal. lia.
Qed.
End register.

(** ** crc16 *)

(** The left-shifting 16-bit register, looked at through [2 ^ 16]: the table
    entry of the byte about to fall out, added to the rest shifted. *)
Lemma crc16_shift_xor x y :
  crc16_shift (Z.lxor x y) = Z.lxor (crc16_shift x) (crc16_shift y).
Proof.
  unfold crc16_shift. rewrite Z.lxor_spec, Z.shiftl_lxor.
  assert (∀ a b, u16 (Z.lxor a b) = Z.lxor (u16 a) (u16 b)) as Hu.
  { intros a b. bits i. rewrite Z.lxor_spec, !testbit_wrapu, Z.lxor_spec by lia.
    by destruct (i <? 16), (Z.testbit a i), (Z.testbit b i). }
  rewrite Hu. destruct (Z.testbit x 15), (Z.testbit y 15); simpl; bits i;
    rewrite !Z.lxor_spec; repeat destruct (Z.testbit _ i); done.
Qed.

Lemma iter_crc16_xor n x y : Nat.iter n crc16_shift (Z.lxor x y) =
  Z.lxor (Nat.iter n crc16_shift x) (Nat.iter n crc16_shift y).
Proof. induction n as [|n IH]; simpl; [done|]. by rewrite IH, crc16_shift_xor. Qed.

(** The table of the source is that register run on each byte. *)
Lemma crc16tab_spec i : is_byte i →
  load8 crc16tab i = Some (Nat.iter 8 crc16_shift (Z.shiftl i 8)).
Proof.
  intros Hi. unfold is_byte in Hi.
  assert (crc16tab = (λ n, Nat.iter 8 crc16_shift (Z.shiftl (Z.of_nat n) 8)) <$>
    seq 0 256) as -> by (vm_compute; reflexivity).
  unfold load8. if_true. rewrite list_lookup_fmap, lookup_seq_lt by lia. simpl.
  by rewrite Z2Nat.id by lia.
Qed.

Lemma crc16_shift_low i : is_byte i → Nat.iter 8 crc16_shift i = Z.shiftl i 8.
Proof.
  intros Hi. unfold is_byte in Hi.
  assert ((λ n, Nat.iter 8 crc16_shift (Z.of_nat n)) <$> seq 0 256 =
    (λ n, Z.shiftl (Z.of_nat n) 8) <$> seq 0 256) as HE by (vm_compute; reflexivity).
  apply (f_equal (lookup (Z.to_nat i))) in HE.
  rewrite !list_lookup_fmap, lookup_seq_lt in HE by lia. simpl in HE.
  rewrite Z2Nat.id in HE by lia. by injection HE.
Qed.

Lemma crc16_split crc b : 0 <= crc < 2 ^ 16 → is_byte b →
  Z.lxor crc (Z.shiftl b 8) =
  Z.lxor (Z.shiftl (Z.land (Z.lxor (Z.shiftr crc 8) b) 255) 8) (crc mod 256).
Proof.
  intros Hc Hb. change 255 with (Z.ones 8). change 256 with (2 ^ 8).
  rewrite Z.land_ones by lia. bits i. rewrite !Z.lxor_spec, !Z.shiftl_spec by lia.
  destruct (decide (i < 8)).
  - rewrite !(Z.testbit_neg_r _ (i - 8)), Z.mod_pow2_bits_low by lia.
    by rewrite xorb_false_l, xorb_false_r.
  - rewrite (Z.mod_pow2_bits_high crc) by lia. destruct (decide (i < 16)).
    + rewrite Z.mod_pow2_bits_low, Z.lxor_spec, Z.shiftr_spec by lia.
      rewrite xorb_false_r. do 2 f_equal. lia.
    + rewrite Z.mod_pow2_bits_high, (bits_above 16 crc), (bits_above 8 b)
        by (done || lia). done.
Qed.

Lemma crc16_shift_range n x :
  0 <= x < 2 ^ 16 → 0 <= Nat.iter n crc16_shift x < 2 ^ 16.
Proof.
  intros Hx. induction n as [|n IH]; [done|]. rewrite Nat.iter_succ.
  generalize (Nat.iter n crc16_shift x). intros y. unfold crc16_shift.
  case_if; [apply lxor_range; [|lia]|]; apply wrapu_range; lia.
Qed.

Lemma crc16_step crc b : 0 <= crc < 2 ^ 16 → is_byte b →
  (t ← load8 crc16tab (Z.land (Z.lxor (Z.shiftr crc 8) b) 0x00FF);
   Some (u16 (Z.lxor (Z.shiftl crc 8) t))) =
  Some (Nat.iter 8 crc16_shift (Z.lxor crc (Z.shiftl b 8))).
Proof.
  intros Hc Hb. rewrite crc16_split, iter_crc16_xor by done.
  assert (is_byte (crc mod 256)) by (apply Z.mod_pos_bound; lia).
  assert (is_byte (Z.land (Z.lxor (Z.shiftr crc 8) b) 255)) as Hi.
  { rewrite land_255. apply Z.mod_pos_bound. lia. }
  rewrite (crc16_shift_low (crc mod 256)), crc16tab_spec by done. mstep. f_equal.
  set (t := Nat.iter _ _ _). assert (0 <= t < 2 ^ 16).
  { apply crc16_shift_range. rewrite Z.shiftl_mul_pow2 by lia. unfold is_byte in Hi. lia. }
  bits i. rewrite testbit_wrapu, !Z.lxor_spec, !Z.shiftl_spec by lia.
  destruct (Z.ltb_spec i 16); simpl.
  - rewrite xorb_comm. f_equal. destruct (decide (i < 8)).
    + by rewrite !Z.testbit_neg_r by lia.
    + change 256 with (2 ^ 8). by rewrite Z.mod_pow2_bits_low by lia.
  - change 256 with (2 ^ 8). by rewrite (bits_above 16 t), Z.mod_pow2_bits_high by lia.
Qed.

Lemma crc16_loop_spec a bs c crc : bytes_ok bs → 0 <= crc < 2 ^ 16 →
  crc16_loop (length bs) (a ++ bs ++ c) (len a) crc =
  Some (foldl (λ crc b, Nat.iter 8 crc16_shift (Z.lxor crc (Z.shiftl b 8))) crc bs).
Proof.
  intros Hbs. revert a crc. induction Hbs as [|b bs Hb Hbs IH]; intros a crc Hc; [done|].
  cbn [length app crc16_loop foldl]. rewrite load8_app by done. mstep.
  pose proof (crc16_step crc b Hc Hb) as Hs.
  destruct (load8 crc16tab _) as [t|]; [|done]. mstep in Hs. apply (inj Some) in Hs. mstep.
  rewrite Hs. specialize (IH (a ++ [b])). rewrite <- app_assoc in IH.
  replace (len (a ++ [b])) with (len a + 1) in IH by len_lia. apply IH.
  rewrite <- Hs. apply wrapu_range. lia.
Qed.

Lemma crc16_spec a bs c : bytes_ok bs →
  crc16 (a ++ bs ++ c) (len a) (len bs) = Some (crc16_ref bs).
Proof. intros. unfold crc16. rewrite Nat2Z.id. by apply crc16_loop_spec. Qed.

Lemma crc16_whole bs : bytes_ok bs → crc16 bs 0 (len bs) = Some (crc16_ref bs).
Proof. intros. rewrite <- (app_nil_r bs) at 1. by apply (crc16_spec [] bs []). Qed.

(** ** keyHashSlot *)

Lemma find_byte_found a l x r : x ∉ l →
  ∀ n, (length l < n)%nat →
  find_byte n (a ++ l ++ x :: r) x (len a) = Some (len a + len l).
Proof.
  revert a. induction l as [|y l IH]; intros a Hx n Hn; (destruct n; [simpl in Hn; lia|]).
  - cbn [find_byte app]. rewrite load8_app by done. mstep. rewrite Z.eqb_refl.
    f_equal. simpl. lia.
  - apply not_elem_of_cons in Hx as [? ?]. cbn [find_byte app length].
    rewrite load8_app by done. mstep. if_false. specialize (IH (a ++ [y])).
    rewrite <- app_assoc in IH. replace (len (a ++ [y])) with (len a + 1) in IH by len_lia.
    simpl in *. rewrite IH by (done || lia). f_equal. lia.
Qed.

Lemma find_byte_absent a l x : x ∉ l →
  find_byte (length l) (a ++ l) x (len a) = Some (len a + len l).
Proof.
  revert a. induction l as [|y l IH]; intros a Hx; [simpl; f_equal; lia|].
  apply not_elem_of_cons in Hx as [? ?]. cbn [find_byte app length].
  rewrite load8_app by done. mstep. if_false. specialize (IH (a ++ [y])).
  rewrite <- app_assoc in IH. replace (len (a ++ [y])) with (len a + 1) in IH by len_lia.
  simpl in *. rewrite IH by done. f_equal. lia.
Qed.

Lemma find_byte_found0 l x r n : x ∉ l → (length l < n)%nat →
  find_byte n (l ++ x :: r) x 0 = Some (len l).
Proof. intros. by apply (find_byte_found []). Qed.

Lemma find_byte_absent0 l x : x ∉ l → find_byte (length l) l x 0 = Some (len l).
Proof. intros. by apply (find_byte_absent []). Qed.

(** What the cluster specification says is hashed: the bytes between the
    first opening brace and the first closing brace after it, unless there is
    no such pair or nothing between them. *)
Inductive hashed : list Z → list Z → Prop :=
  | hashed_tag a tag b :
      lbrace ∉ a → rbrace ∉ tag → tag ≠ [] →
      hashed (a ++ lbrace :: tag ++ rbrace :: b) tag
  | hashed_no_open key : lbrace ∉ key → hashed key key
  | hashed_no_close a r :
      lbrace ∉ a → rbrace ∉ r → hashed (a ++ lbrace :: r) (a ++ lbrace :: r)
  | hashed_empty a b :
      lbrace ∉ a → hashed (a ++ lbrace :: rbrace :: b) (a ++ lbrace :: rbrace :: b).

Lemma first_occurrence (x : Z) l : x ∈ l → ∃ a b, l = a ++ x :: b ∧ x ∉ a.
Proof.
  induction l as [|y l IH]; [by intros ?%elem_of_nil|].
  intros Hx. destruct (decide (x = y)) as [<-|].
  - exists [], l. split; [done|]. apply not_elem_of_nil.
  - apply elem_of_cons in Hx as [?|(a&b&->&?)%IH]; [done|].
    exists (y :: a), b. split; [done|]. by apply not_elem_of_cons.
Qed.

Lemma hashed_total key : ∃ tag, hashed key tag.
Proof.
  destruct (decide (lbrace ∈ key)) as [(a&r&->&Ha)%first_occurrence|];
    [|eexists; by constructor 2].
  destruct (decide (rbrace ∈ r)) as [(t&b&->&Ht)%first_occurrence|];
    [|eexists; by constructor 3].
  destruct t as [|x t]; eexists; [by constructor 4|by constructor 1].
Qed.

Lemma slot_mask c : Z.land c 0x3FFF = c mod 16384.
Proof. by apply (Z.land_ones c 14). Qed.

Lemma slot_whole key : bytes_ok key →
  (λ c, Z.land c 0x3FFF) <$> crc16 key 0 (len key) = Some (crc16_ref key mod 16384).
Proof. intros. rewrite crc16_whole by done. mstep. by rewrite slot_mask. Qed.

Lemma keyHashSlot_spec key tag : bytes_ok key → hashed key tag →
  keyHashSlot key (len key) = Some (crc16_ref tag mod 16384).
Proof.
  intros Hk Hh. unfold keyHashSlot. rewrite Nat2Z.id. destruct Hh as [a tag b Ha Ht Hne|key Ho|a r Ha Hr|a b Ha].
  - rewrite find_byte_found0 by (done || len_lia). mstep. if_false.
    pose proof (find_byte_found (a ++ [lbrace]) tag rbrace b Ht) as Hf.
    rewrite <- !app_assoc in Hf. cbn [app] in Hf.
    replace (len (a ++ [lbrace])) with (len a + 1) in Hf by len_lia.
    rewrite Hf by len_lia. mstep.
    assert (length tag ≠ 0%nat) by (by destruct tag). if_false.
    pose proof (crc16_spec (a ++ [lbrace]) tag (rbrace :: b)) as Hc.
    rewrite <- !app_assoc in Hc. cbn [app] in Hc.
    replace (len a + 1) with (len (a ++ [lbrace])) by len_lia.
    replace (_ + _ - _ - 1) with (len tag) by len_lia.
    rewrite Hc. { mstep. by rewrite slot_mask. }
    rewrite !Forall_app, !Forall_cons in Hk. rewrite Forall_app in Hk. naive_solver.
  - rewrite find_byte_absent0 by done. mstep. if_true. by apply slot_whole.
  - rewrite find_byte_found0 by (done || len_lia). mstep. if_false.
    pose proof (find_byte_absent (a ++ [lbrace]) r rbrace Hr) as Hf.
    rewrite <- app_assoc in Hf. cbn [app] in Hf.
    replace (Z.to_nat _) with (length r) by len_lia.
    replace (len a + 1) with (len (a ++ [lbrace])) by len_lia.
    rewrite Hf. mstep. if_true. by apply slot_whole.
  - rewrite find_byte_found0 by (done || len_lia). mstep. if_false.
    pose proof (find_byte_found (a ++ [lbrace]) [] rbrace b (not_elem_of_nil _)) as Hf.
    rewrite <- app_assoc in Hf. cbn [app] in Hf.
    replace (len a + 1) with (len (a ++ [lbrace])) by len_lia.
    rewrite Hf by len_lia. mstep. if_true. by apply slot_whole.
Qed.

(** ** crc64: the tables *)

(** Entry [i] of row [k]: the register after [i] and then [8 * k] zero bits. *)
Definition table_ok (t : crc_table) : Prop :=
  ∀ k i, 0 <= k < 8 → is_byte i →
  tab t k i = Some (Nat.iter (8 * S (Z.to_nat k)) crc64_shift i).

Lemma crc64_byte_split x : crc64_byte x = Z.lxor (crc64_byte (x mod 256)) (Z.shiftr x 8).
Proof. apply (iter_split POLY_reflected 8). Qed.

Lemma crc64_byte_shiftl x y :
  crc64_byte (Z.lxor x (Z.shiftl y 8)) = Z.lxor (crc64_byte x) y.
Proof.
  unfold crc64_byte. rewrite (iter_xor POLY_reflected).
  f_equal. apply (iter_shiftl POLY_reflected 8).
Qed.

Lemma iter_byte n x :
  Nat.iter (8 * S n) crc64_shift x = Nat.iter (8 * n) crc64_shift (crc64_byte x).
Proof.
  unfold crc64_byte. rewrite <- Nat.iter_add. f_equal. lia.
Qed.

Lemma iter_byte_last n x :
  Nat.iter (8 * S n) crc64_shift x = crc64_byte (Nat.iter (8 * n) crc64_shift x).
Proof.
  unfold crc64_byte. rewrite <- Nat.iter_add. f_equal. lia.
Qed.

#[global] Opaque crc64_shift crc64_byte.

Lemma byte_mod x : is_byte (x mod 256).
Proof. apply Z.mod_pos_bound. lia. Qed.

(** [table[0]], computed with the bit by bit routine, is the register run on
    each byte. *)
Lemma row0_computed :
  mapM (λ n, _crc64 0 [n] 1) (Z.of_nat <$> seq 0 256) =
  Some ((λ n, crc64_byte (Z.of_nat n)) <$> seq 0 256).
Proof. vm_compute. reflexivity. Qed.

Lemma nested_crc_spec row0 c k :
  (∀ i, is_byte i → load8 row0 i = Some (crc64_byte i)) →
  nested_crc row0 c k = Some (Nat.iter (8 * k) crc64_shift c).
Proof.
  intros Hr. induction k as [|k IH]; [done|]. cbn [nested_crc]. rewrite IH. mstep.
  rewrite land_255, Hr by apply byte_mod. mstep. f_equal.
  rewrite <- crc64_byte_split. symmetry. apply iter_byte_last.
Qed.

Lemma little_table_ok : ∃ t,
  crcspeed64little_init _crc64 = Some t ∧ table_ok t.
Proof.
  unfold crcspeed64little_init. rewrite row0_computed. mstep.
  set (row0 := _ <$> seq 0 256).
  assert (∀ i, is_byte i → row0 !! Z.to_nat i = Some (crc64_byte i)) as Hl.
  { intros i Hi. unfold is_byte in Hi. unfold row0.
    rewrite list_lookup_fmap, lookup_seq_lt by lia. simpl. by rewrite Z2Nat.id by lia. }
  clearbody row0.
  assert (∀ i, is_byte i → load8 row0 i = Some (crc64_byte i)) as Hr.
  { intros i Hi. unfold load8. unfold is_byte in Hi. if_true. by apply Hl. }
  erewrite (mapM_total _ (λ k, Nat.iter (8 * k) crc64_shift <$> row0)).
  2:{ apply Forall_forall. intros k _. apply mapM_total, Forall_forall.
      intros c _. by apply nested_crc_spec. }
  eexists. split; [reflexivity|]. intros k i Hk Hi. unfold tab.
  assert (0 <= i) by (unfold is_byte in Hi; lia). if_true.
  rewrite list_lookup_fmap, lookup_seq_lt by lia. mstep.
  rewrite list_lookup_fmap, Hl by done. mstep.
  by rewrite iter_byte.
Qed.

Definition big_table_ok (t : crc_table) : Prop :=
  ∀ k i, 0 <= k < 8 → is_byte i →
  tab t k i = Some (rev8 (Nat.iter (8 * S (Z.to_nat k)) crc64_shift i)).

Lemma tab_rev8 t k i : tab (map (map rev8) t) k i = rev8 <$> tab t k i.
Proof.
  unfold tab. case_if; [|done]. rewrite list_lookup_fmap.
  destruct (t !! _); [|done]. simpl. by rewrite list_lookup_fmap.
Qed.

Lemma big_table_ok_init : ∃ t, crcspeed64big_init _crc64 = Some t ∧ big_table_ok t.
Proof.
  destruct little_table_ok as (t & Ht & Hok). unfold crcspeed64big_init. rewrite Ht.
  eexists. split; [reflexivity|]. intros k i Hk Hi. by rewrite tab_rev8, Hok.
Qed.

(** ** crc64: the steps *)

Lemma byte_step_little_spec t crc b : table_ok t → is_byte b →
  byte_step_little t crc b = Some (crc64_byte (Z.lxor crc b)).
Proof.
  intros Ht Hb. unfold byte_step_little. rewrite land_255, Ht by (lia || apply byte_mod).
  mstep. rewrite iter_byte. simpl Nat.iter. f_equal.
  rewrite (crc64_byte_split (Z.lxor crc b)). f_equal.
  rewrite Z.shiftr_lxor.
  replace (Z.shiftr b 8) with 0; [by rewrite Z.lxor_0_r|].
  symmetry. rewrite Z.shiftr_div_pow2 by lia. by apply Z.div_small.
Qed.

(** Eight bytes in the register fall out one after the other. *)
Fixpoint slices (n : nat) (x : Z) : Z :=
  match n with
  | O => 0
  | S n => Z.lxor (Nat.iter (8 * S n) crc64_shift (x mod 256)) (slices n (Z.shiftr x 8))
  end.

Lemma slices_spec n x : 0 <= x < 2 ^ (8 * Z.of_nat n) →
  Nat.iter (8 * n) crc64_shift x = slices n x.
Proof.
  revert x. induction n as [|n IH]; intros x Hx.
  { simpl in *. lia. }
  cbn [slices]. rewrite <- (IH (Z.shiftr x 8)).
  2:{ apply shiftr_range; [lia| |lia]. replace (_ + 8) with (8 * Z.of_nat (S n)) by lia. done. }
  rewrite !iter_byte, (crc64_byte_split x). apply (iter_xor POLY_reflected).
Qed.

Lemma word_step_little_spec t crc w :
  table_ok t → 0 <= crc < 2 ^ 64 → 0 <= w < 2 ^ 64 →
  word_step_little t crc w = Some (Nat.iter (8 * 8) crc64_shift (Z.lxor crc w)).
Proof.
  intros Ht Hc Hw. assert (0 <= Z.lxor crc w < 2 ^ 64) as Hx by by apply lxor_range.
  rewrite slices_spec by done. unfold word_step_little.
  set (x := Z.lxor crc w) in *. clearbody x.
  assert (0 <= Z.shiftr x 56 < 2 ^ 8) as H56 by (apply shiftr_range; lia).
  rewrite !land_255, !Ht by (lia || apply byte_mod || done). mstep.
  cbn [slices]. rewrite !Z.shiftr_shiftr by lia. simpl (_ + _).
  rewrite Z.lxor_0_r, (Z.mod_small (Z.shiftr x 56)) by lia.
  by rewrite !Z.lxor_assoc.
Qed.

(** ** Byte reversal *)

Lemma testbit_rev8 a i : 0 <= i →
  Z.testbit (rev8 a) i = (i <? 64) && Z.testbit a (56 - 8 * (i / 8) + i mod 8).
Proof.
  intros Hi. unfold rev8. rewrite testbit_le_val by (done || apply Forall_reverse, le_bytes_ok).
  destruct (Z.ltb_spec i 64); simpl.
  - rewrite reverse_lookup by (simpl_len; div_lia).
    rewrite length_le_bytes, le_bytes_lookup by div_lia. simpl. change 256 with (2 ^ 8).
    rewrite Z.mod_pow2_bits_low, Z.shiftr_spec by div_lia. f_equal. div_lia.
  - rewrite lookup_ge_None_2; [done|]. simpl_len. div_lia.
Qed.

Lemma rev8_range a : 0 <= rev8 a < 2 ^ 64.
Proof.
  assert (bytes_ok (reverse (le_bytes 8 a))) as Hb by apply Forall_reverse, le_bytes_ok.
  apply le_val_range in Hb. by simpl_len.
Qed.

Lemma rev8_xor a b : rev8 (Z.lxor a b) = Z.lxor (rev8 a) (rev8 b).
Proof.
  bits i. rewrite Z.lxor_spec, !testbit_rev8, Z.lxor_spec by done.
  by destruct (i <? 64).
Qed.

Lemma rev8_involutive a : 0 <= a < 2 ^ 64 → rev8 (rev8 a) = a.
Proof.
  intros Ha. bits i. rewrite testbit_rev8 by done. destruct (Z.ltb_spec i 64); simpl.
  - rewrite testbit_rev8 by div_lia.
    destruct (Z.ltb_spec (56 - 8 * (i / 8) + i mod 8) 64); simpl; [f_equal|]; div_lia.
  - by rewrite (bits_above 64 a).
Qed.

(** Byte [k] of the reversed word is byte [7 - k] of the word. *)
Lemma rev8_byte a k s s' : 0 <= k < 8 → s = 8 * k → s' = 8 * (7 - k) →
  Z.shiftr (rev8 a) s mod 256 = Z.shiftr a s' mod 256.
Proof.
  intros Hk -> ->. change 256 with (2 ^ 8). bits i. destruct (decide (i < 8)).
  - rewrite !Z.mod_pow2_bits_low, !Z.shiftr_spec, testbit_rev8 by lia.
    rewrite (proj2 (Z.ltb_lt _ _)) by lia. simpl. f_equal. div_lia.
  - by rewrite !Z.mod_pow2_bits_high by lia.
Qed.

Lemma rev8_top a : Z.shiftr (rev8 a) 56 = a mod 256.
Proof.
  pose proof (rev8_byte a 7 56 0 ltac:(lia) eq_refl eq_refl) as Hb.
  rewrite Z.shiftr_0_r in Hb.
  rewrite <- Hb, Z.mod_small; [done|].
  apply (shiftr_range 8); [lia|apply rev8_range|lia].
Qed.

Lemma rev8_shift a : 0 <= a < 2 ^ 64 → u64 (Z.shiftl (rev8 a) 8) = rev8 (Z.shiftr a 8).
Proof.
  intros Ha. bits i. rewrite testbit_wrapu, Z.shiftl_spec, (testbit_rev8 (Z.shiftr a 8)) by lia.
  destruct (Z.ltb_spec i 64); simpl; [|done]. rewrite Z.shiftr_spec by div_lia.
  destruct (decide (i < 8)).
  - rewrite Z.testbit_neg_r, (bits_above 64 a) by div_lia. done.
  - rewrite testbit_rev8 by lia.
    rewrite (proj2 (Z.ltb_lt _ _)) by lia. simpl. f_equal. div_lia.
Qed.

Lemma byte_step_big_spec t c b :
  big_table_ok t → is_byte b → 0 <= c < 2 ^ 64 →
  byte_step_big t (rev8 c) b = Some (rev8 (crc64_byte (Z.lxor c b))).
Proof.
  intros Ht Hb Hc. unfold byte_step_big. rewrite rev8_top, rev8_shift by done.
  assert (Z.lxor (c mod 256) b = Z.lxor c b mod 256) as ->.
  { change 256 with (2 ^ 8). bits i. rewrite Z.lxor_spec. destruct (decide (i < 8)).
    - by rewrite !Z.mod_pow2_bits_low, Z.lxor_spec by lia.
    - by rewrite !Z.mod_pow2_bits_high, (bits_above 8 b) by (done || lia). }
  rewrite Ht by (lia || apply byte_mod). mstep. rewrite iter_byte. simpl Nat.iter.
  rewrite <- rev8_xor. do 2 f_equal. rewrite (crc64_byte_split (Z.lxor c b)). f_equal.
  rewrite Z.shiftr_lxor. replace (Z.shiftr b 8) with 0; [by rewrite Z.lxor_0_r|].
  symmetry. rewrite Z.shiftr_div_pow2 by lia. by apply Z.div_small.
Qed.

Lemma word_step_big_spec t c w :
  big_table_ok t → 0 <= c < 2 ^ 64 → 0 <= w < 2 ^ 64 →
  word_step_big t (rev8 c) (rev8 w) =
  Some (rev8 (Nat.iter (8 * 8) crc64_shift (Z.lxor c w))).
Proof.
  intros Ht Hc Hw. assert (0 <= Z.lxor c w < 2 ^ 64) as Hx by by apply lxor_range.
  rewrite slices_spec by done. unfold word_step_big. rewrite <- rev8_xor.
  set (x := Z.lxor c w) in *. clearbody x. rewrite rev8_top.
  assert (0 <= Z.shiftr x 56 < 2 ^ 8) as H56 by (apply shiftr_range; lia).
  rewrite !land_255. rewrite <- (Z.shiftr_0_r (rev8 x)) at 1.
  rewrite (rev8_byte x 0 0 56), (rev8_byte x 1 8 48), (rev8_byte x 2 16 40),
    (rev8_byte x 3 24 32), (rev8_byte x 4 32 24), (rev8_byte x 5 40 16),
    (rev8_byte x 6 48 8) by lia.
  rewrite !Ht by (lia || apply byte_mod || done). mstep.
  cbn [slices]. rewrite !Z.shiftr_shiftr by lia. simpl (_ + _).
  rewrite Z.lxor_0_r, <- !rev8_xor. do 2 f_equal.
  do 7 (rewrite Z.lxor_comm; apply f_equal2; [reflexivity|]). reflexivity.
Qed.

(** ** crc64: the loops *)

Lemma crc64_byte_range x : 0 <= x < 2 ^ 64 → 0 <= crc64_byte x < 2 ^ 64.
Proof.
  intros Hx. Transparent crc64_byte crc64_shift. unfold crc64_byte.
  assert (∀ n, 0 <= Nat.iter n crc64_shift x < 2 ^ 64) as Hn; [|apply Hn].
  induction n as [|n IH]; [done|]. rewrite Nat.iter_succ.
  generalize dependent (Nat.iter n crc64_shift x). intros y Hy. unfold crc64_shift.
  apply lxor_range; [|unfold POLY_reflected; case_if; lia].
  pose proof (shiftr_range 63 y 1). lia.
Qed.
#[global] Opaque crc64_shift crc64_byte.

(** Feeding bytes one at a time is feeding the word they make. *)
Lemma crc64_ref_word bs c : bytes_ok bs →
  crc64_ref c bs = Nat.iter (8 * length bs) crc64_shift (Z.lxor c (le_val bs)).
Proof.
  intros Hb. revert c. induction Hb as [|b bs Hb Hbs IH]; intros c.
  { by rewrite Z.lxor_0_r. }
  change (crc64_ref c (b :: bs)) with (crc64_ref (crc64_byte (Z.lxor c b)) bs).
  rewrite IH. cbn [length]. rewrite iter_byte, le_val_cons_xor, <- Z.lxor_assoc by done.
  by rewrite crc64_byte_shiftl.
Qed.

Lemma crc64_ref_range bs c :
  bytes_ok bs → 0 <= c < 2 ^ 64 → 0 <= crc64_ref c bs < 2 ^ 64.
Proof.
  intros Hb. revert c. induction Hb as [|b bs Hb _ IH]; intros c Hc; [done|].
  apply IH, crc64_byte_range, lxor_range; [done|]. unfold is_byte in Hb. lia.
Qed.

(** The three loops compute [crc64_ref] for any step functions that do, where
    the register is kept as [enc] of its value. *)
Section loops_spec.
Context `{Host} (byte_step word_step : Z → Z → option Z) (enc : Z → Z).
Hypothesis byte_ok : ∀ c b, 0 <= c < 2 ^ 64 → is_byte b →
  byte_step (enc c) b = Some (enc (crc64_byte (Z.lxor c b))).
Hypothesis word_ok : ∀ c bs, 0 <= c < 2 ^ 64 → bytes_ok bs → length bs = 8%nat →
  word_step (enc c) (host_val bs) = Some (enc (crc64_ref c bs)).

Lemma crc_byte_range c b : 0 <= c < 2 ^ 64 → is_byte b →
  0 <= crc64_byte (Z.lxor c b) < 2 ^ 64.
Proof. intros ? Hb. apply crc64_byte_range, lxor_range; [done|]. unfold is_byte in Hb. lia. Qed.

Lemma bytes_loop_spec bs r c : bytes_ok bs → 0 <= c < 2 ^ 64 →
  bytes_loop byte_step (length bs) (bs ++ r) (enc c) = Some (enc (crc64_ref c bs)).
Proof.
  intros Hb. revert c. induction Hb as [|b bs Hb Hbs IH]; intros c Hc; [done|].
  cbn [bytes_loop length app pop8]. mstep. rewrite byte_ok by done. mstep.
  apply IH. by apply crc_byte_range.
Qed.

Lemma align_loop_spec bs r c addr : bytes_ok bs → 0 <= c < 2 ^ 64 →
  ∃ b1 b2, bs = b1 ++ b2 ∧
  align_loop byte_step (length bs) addr (bs ++ r) (enc c) =
  Some (length b2, b2 ++ r, enc (crc64_ref c b1)).
Proof.
  intros Hb. revert c addr. induction Hb as [|b bs Hb Hbs IH]; intros c addr Hc.
  { by exists [], []. }
  cbn [align_loop length app pop8]. case_if; [by exists [], (b :: bs)|]. mstep.
  rewrite byte_ok by done. mstep.
  destruct (IH (crc64_byte (Z.lxor c b)) (addr + 1)) as (b1&b2&->&->);
    [by apply crc_byte_range|]. by exists (b :: b1), b2.
Qed.

Lemma words_loop_spec fuel bs r c : bytes_ok bs → 0 <= c < 2 ^ 64 →
  (length bs < fuel)%nat → ∃ b1 b2, bs = b1 ++ b2 ∧
  words_loop word_step fuel (length bs) (bs ++ r) (enc c) =
  Some (length b2, b2 ++ r, enc (crc64_ref c b1)).
Proof.
  revert bs c. induction fuel as [|fuel IH]; intros bs c Hb Hc Hf; [lia|].
  cbn [words_loop]. destruct (Nat.leb_spec 8 (length bs)); [|by exists [], bs].
  destruct (decide (length (take 8 bs) = 8%nat)) as [Hl|Hl]; [|len_lia].
  rewrite <- (take_drop 8 bs) in Hb |- *. apply Forall_app in Hb as [H1 H2].
  rewrite <- app_assoc, load_app0 by lia. mstep. rewrite word_ok by done. mstep.
  rewrite drop_app_length' by done. rewrite length_app, Hl.
  replace (8 + _ - 8)%nat with (length (drop 8 bs)) by lia.
  destruct (IH (drop 8 bs) (crc64_ref c (take 8 bs))) as (b1&b2&Hd&->);
    [done|by apply crc64_ref_range|len_lia|].
  exists (take 8 bs ++ b1), b2. rewrite Hd, <- app_assoc. split; [done|].
  unfold crc64_ref. by rewrite foldl_app.
Qed.

Lemma crcspeed_loops_spec bs r c addr : bytes_ok bs → 0 <= c < 2 ^ 64 →
  crcspeed_loops byte_step word_step (enc c) addr (bs ++ r) (len bs) =
  Some (enc (crc64_ref c bs)).
Proof.
  intros Hb Hc. unfold crcspeed_loops. rewrite Nat2Z.id.
  destruct (align_loop_spec bs r c addr) as (b1&b2&->&->); [done..|]. mstep.
  apply Forall_app in Hb as [Hb1 Hb2].
  assert (0 <= crc64_ref c b1 < 2 ^ 64) by by apply crc64_ref_range.
  destruct (words_loop_spec (S (length b2)) b2 r (crc64_ref c b1))
    as (b3&b4&->&->); [done..|lia|]. mstep.
  apply Forall_app in Hb2 as [Hb3 Hb4].
  rewrite bytes_loop_spec by (done || by apply crc64_ref_range).
  unfold crc64_ref. by rewrite !foldl_app.
Qed.
End loops_spec.

(** ** The bit by bit routine *)

Lemma crc_reflect_loop_spec n x ret k : 0 <= k → k + Z.of_nat n < 64 →
  (∀ i, 0 <= i → Z.testbit ret i = (i <=? k) && Z.testbit x (k - i)) →
  ∀ i, 0 <= i → Z.testbit (crc_reflect_loop n (Z.shiftr x k) ret) i =
    (i <=? k + Z.of_nat n) && Z.testbit x (k + Z.of_nat n - i).
Proof.
  revert k ret. induction n as [|n IH]; intros k ret Hk Hn Hr i Hi.
  { cbn [crc_reflect_loop]. rewrite Hr by done. f_equal; f_equal; lia. }
  cbn [crc_reflect_loop]. rewrite Z.shiftr_shiftr by lia.
  rewrite (IH (k + 1)); [f_equal; f_equal; lia|lia..| |done].
  clear i Hi. intros i Hi.
  rewrite Z.lor_spec, testbit_wrapu, Z.shiftl_spec, Z.land_spec, Z.shiftr_spec by lia.
  destruct (decide (i = 0)) as [->|].
  - rewrite (Z.testbit_neg_r ret) by lia. simpl. rewrite andb_true_r.
    rewrite (proj2 (Z.leb_le 0 (k + 1))) by lia. simpl. f_equal. lia.
  - rewrite Hr, (bits_above 1 1 i), andb_false_r, orb_false_r by lia.
    destruct (Z.leb_spec i (k + 1)), (Z.leb_spec (i - 1) k), (Z.ltb_spec i 64);
      simpl; try lia; try done; f_equal; lia.
Qed.

Lemma testbit_crc_reflect x i : 0 <= i →
  Z.testbit (crc_reflect x 64) i = (i <? 64) && Z.testbit x (63 - i).
Proof.
  intros Hi. unfold crc_reflect. rewrite <- (Z.shiftr_0_r x) at 1.
  rewrite (crc_reflect_loop_spec 63 x (Z.land x 1) 0); [f_equal; lia|lia..| |done].
  clear i Hi. intros i Hi. rewrite Z.land_spec. destruct (decide (i = 0)) as [->|].
  - apply andb_true_r.
  - rewrite (bits_above 1 1 i), andb_false_r by lia.
    by rewrite (proj2 (Z.leb_gt i 0)) by lia.
Qed.

Lemma crc_reflect_xor x y :
  crc_reflect (Z.lxor x y) 64 = Z.lxor (crc_reflect x 64) (crc_reflect y 64).
Proof.
  bits i. rewrite Z.lxor_spec, !testbit_crc_reflect, Z.lxor_spec by done.
  by destruct (i <? 64).
Qed.

Lemma crc_reflect_shift x :
  crc_reflect (u64 (Z.shiftl x 1)) 64 = Z.shiftr (crc_reflect x 64) 1.
Proof.
  bits i. rewrite Z.shiftr_spec, !testbit_crc_reflect, testbit_wrapu by lia.
  destruct (Z.ltb_spec i 64), (Z.ltb_spec (i + 1) 64); simpl; try lia; try done;
    rewrite Z.shiftl_spec by lia; 
    rewrite (proj2 (Z.ltb_lt (63 - i) 64)) by lia; simpl; [f_equal; lia|].
  by rewrite (Z.testbit_neg_r x) by lia.
Qed.

Lemma crc_reflect_POLY : crc_reflect POLY 64 = POLY_reflected.
Proof. vm_compute. reflexivity. Qed.

#[global] Opaque crc_reflect.

(** One input bit, seen through the reflection. *)
Lemma crc64_bit_reflect c x j : 0 <= j →
  Z.lxor (crc_reflect (crc64_bit c x (2 ^ j)) 64) (Z.shiftr c (j + 1)) =
  crc64_shift (Z.lxor (crc_reflect x 64) (Z.shiftr c j)).
Proof.
  Transparent crc64_shift. intros Hj. unfold crc64_bit, crc64_shift.
  change 0x8000000000000000 with (2 ^ 63). rewrite !land_pow2, !negb_involutive by lia.
  rewrite <- Z.bit0_odd, Z.lxor_spec, testbit_crc_reflect, Z.shiftr_spec by lia.
  rewrite Z.shiftr_lxor, Z.shiftr_shiftr by lia. 
  change (0 <? 64) with true. rewrite andb_true_l, Z.add_0_l. change (63 - 0) with 63.
  destruct (Z.testbit x 63), (Z.testbit c j); cbn [negb xorb];
    rewrite ?crc_reflect_xor, crc_reflect_shift, ?crc_reflect_POLY, ?Z.lxor_0_r, ?Z.lxor_assoc.
  1,4: reflexivity.
  all: rewrite (Z.lxor_comm POLY_reflected); reflexivity.
Qed.
#[global] Opaque crc64_shift.

Lemma crc64_bits_reflect c x n : (n <= 8)%nat →
  Z.lxor (crc_reflect (foldl (crc64_bit c) x (take n bit_masks)) 64)
    (Z.shiftr c (Z.of_nat n)) =
  Nat.iter n crc64_shift (Z.lxor (crc_reflect x 64) c).
Proof.
  induction n as [|n IH]; intros Hn. { by rewrite Z.shiftr_0_r. }
  assert (bit_masks !! n = Some (2 ^ Z.of_nat n)) as Hm.
  { do 8 (destruct n as [|n]; [done|]). lia. }
  rewrite (take_S_r _ _ _ Hm), foldl_app. cbn [foldl].
  replace (Z.of_nat (S n)) with (Z.of_nat n + 1) by lia.
  rewrite crc64_bit_reflect by lia. rewrite IH by lia. done.
Qed.

Lemma crc64_bit_range c x i : 0 <= crc64_bit c x i < 2 ^ 64.
Proof.
  unfold crc64_bit. repeat case_if; try apply lxor_range;
    solve [apply wrapu_range; lia | unfold POLY; lia].
Qed.

Lemma crc64_bits_byte c x : is_byte c →
  crc_reflect (Z.land (foldl (crc64_bit c) x bit_masks) 0xffffffffffffffff) 64 =
  crc64_byte (Z.lxor (crc_reflect x 64) c).
Proof.
  Transparent crc64_byte. intros Hc. unfold crc64_byte. rewrite <- crc64_bits_reflect by lia.
  replace (Z.shiftr c (Z.of_nat 8)) with 0.
  2:{ symmetry. rewrite Z.shiftr_div_pow2 by lia. by apply Z.div_small. }
  rewrite Z.lxor_0_r. f_equal. change 0xffffffffffffffff with (Z.ones 64).
  rewrite Z.land_ones by lia. apply Z.mod_small.
  change (foldl (crc64_bit c) x bit_masks) with
    (crc64_bit c (foldl (crc64_bit c) x (take 7 bit_masks)) 128).
  apply crc64_bit_range.
Qed.
#[global] Opaque crc64_byte.

Lemma _crc64_loop_spec a bs x : bytes_ok bs → ∃ y,
  _crc64_loop (length bs) (a ++ bs) (len a) x = Some y ∧
  crc_reflect y 64 = crc64_ref (crc_reflect x 64) bs.
Proof.
  intros Hb. revert a x. induction Hb as [|b bs Hb Hbs IH]; intros a x; [by eexists|].
  cbn [length _crc64_loop]. rewrite load8_app by done. cbv beta. mstep.
  specialize (IH (a ++ [b])). rewrite <- app_assoc in IH. cbn [app] in IH.
  replace (len (a ++ [b])) with (len a + 1) in IH by len_lia.
  destruct (IH (Z.land (foldl (crc64_bit b) x bit_masks) 0xffffffffffffffff))
    as (y & -> & Hy).
  exists y. split; [done|]. by rewrite Hy, crc64_bits_byte.
Qed.

Lemma crc_reflect_land x :
  crc_reflect (Z.land x 0xffffffffffffffff) 64 = crc_reflect x 64.
Proof.
  bits i. rewrite !testbit_crc_reflect by done. change 0xffffffffffffffff with (Z.ones 64).
  rewrite Z.land_ones by lia. destruct (Z.ltb_spec i 64); [|done]. simpl.
  by rewrite Z.mod_pow2_bits_low by lia.
Qed.

(** [_crc64], the routine that works bit by bit and most significant bit
    first, computes the reflected 64-bit CRC of any bytes. *)
Theorem _crc64_correct s : bytes_ok s → _crc64 0 s (len s) = Some (crc64_ref 0 s).
Proof.
  intros Hs. unfold _crc64. rewrite Nat2Z.id.
  destruct (_crc64_loop_spec [] s 0 Hs) as (y & Hy & Hr).
  change (len []) with 0 in Hy. rewrite app_nil_l in Hy. rewrite Hy. mstep.
  by rewrite Z.lxor_0_r, crc_reflect_land, Hr.
Qed.

Lemma _crc64_correct_witness :
  bytes_ok [49; 50; 51] ∧ _crc64 0 [49; 50; 51] 3 = Some (crc64_ref 0 [49; 50; 51]).
Proof.
  assert (bytes_ok [49; 50; 51]) as H by (repeat constructor; lia).
  split; [exact H|]. exact (_crc64_correct _ H).
Defined.

Lemma crc64_spec `{Host} : ∃ t, crc64_init = Some t ∧
  ∀ crc addr s r, bytes_ok s → 0 <= crc < 2 ^ 64 →
  crc64 t crc addr (s ++ r) (len s) = Some (crc64_ref crc s).
Proof.
  unfold crc64_init, crcspeed64native_init, crc64, crcspeed64native, first_byte_of_one,
    host_bytes, load8. simpl (0 <=? 0). cbv iota.
  destruct big_endian eqn:E; change (Z.to_nat 0) with 0%nat.
  - change (reverse (le_bytes 8 1) !! 0%nat) with (Some 0). mstep. cbn [negb Z.eqb].
    destruct big_table_ok_init as (t & -> & Ht). exists t. split; [done|].
    intros crc addr s r Hs Hc. unfold crcspeed64big.
    rewrite (crcspeed_loops_spec _ _ rev8); [|intros; by apply byte_step_big_spec| |done..].
    { mstep. by rewrite rev8_involutive by by apply crc64_ref_range. }
    intros c bs ? Hb Hl. unfold host_val. rewrite E, crc64_ref_word, Hl by done.
    rewrite <- word_step_big_spec with (t := t) (w := le_val bs); [|done..|].
    2:{ apply le_val_range in Hb. by rewrite Hl in Hb. }
    f_equal. unfold rev8. by rewrite <- Hl, le_bytes_val.
  - change (le_bytes 8 1 !! 0%nat) with (Some 1). mstep. cbn [negb Z.eqb].
    destruct little_table_ok as (t & -> & Ht). exists t. split; [done|].
    intros crc addr s r Hs Hc. unfold crcspeed64little.
    apply (crcspeed_loops_spec _ _ id); [intros; by apply byte_step_little_spec| |done..].
    intros c bs ? Hb Hl. unfold host_val. rewrite E, crc64_ref_word, Hl by done.
    apply word_step_little_spec; [done..|]. apply le_val_range in Hb. by rewrite Hl in Hb.
Qed.

(** C20: after [crc64_init], the slice-by-8 [crc64] continues the CRC [crc] over
    any bytes exactly as the bit by bit register does, whatever the address of
    the buffer and on both kinds of host. *)
Theorem crc64_correct `{Host} : ∃ t, crc64_init = Some t ∧
  ∀ crc addr s r, bytes_ok s → 0 <= crc < 2 ^ 64 →
  crc64 t crc addr (s ++ r) (len s) = Some (crc64_ref crc s).
Proof. apply crc64_spec. Qed.

Lemma crc64_correct_witness : ∃ t, @crc64_init be_host = Some t ∧
  @crc64 be_host t 0 3 [49; 50; 51] 3 = Some (crc64_ref 0 [49; 50; 51]).
Proof.
  destruct (@crc64_correct be_host) as (t & Ht & Hc). exists t. split; [exact Ht|].
  apply (Hc 0 3 [49; 50; 51] []); [repeat constructor; lia|lia].
Defined.

(** The check values the comments of the source give. *)
Example crc16_check_value : crc16 [49; 50; 51; 52; 53; 54; 55; 56; 57] 0 9 = Some 0x31C3.
Proof. reflexivity. Qed.

Example crc64_check_value :
  _crc64 0 [49; 50; 51; 52; 53; 54; 55; 56; 57] 9 = Some 0xe9c6d914c4b8d9ca.
Proof. vm_compute. reflexivity. Qed.

(** [crc16] with its table computes the XMODEM CRC, polynomial
    x^16 + x^12 + x^5 + 1, of the [len] bytes at any position of a buffer. *)
Theorem crc16_correct a s r : bytes_ok s →
  crc16 (a ++ s ++ r) (len a) (len s) = Some (crc16_ref s).
Proof. apply crc16_spec. Qed.

Lemma crc16_correct_witness :
  bytes_ok [49; 50] ∧ crc16 [7; 49; 50; 9] 1 2 = Some (crc16_ref [49; 50]).
Proof.
  assert (bytes_ok [49; 50]) as H by (repeat constructor; lia).
  split; [exact H|]. exact (crc16_correct [7] [49; 50] [9] H).
Defined.

(** Every key has a hashed part, as the cluster specification defines
    it, and [keyHashSlot] is the CRC of that part modulo 16384; so the slot is
    a valid one and keys with the same hash tag share it. *)
Theorem keyHashSlot_correct key : bytes_ok key →
  (∃ tag, hashed key tag) ∧
  ∀ tag, hashed key tag →
    keyHashSlot key (len key) = Some (crc16_ref tag mod 16384).
Proof.
  intros Hk. split; [apply hashed_total|]. intros tag Ht. by apply keyHashSlot_spec.
Qed.

(** The key [a{bc}d] is hashed by [bc]. *)
Lemma keyHashSlot_correct_witness :
  bytes_ok [97; 123; 98; 99; 125; 100] ∧
  keyHashSlot [97; 123; 98; 99; 125; 100] 6 = Some (crc16_ref [98; 99] mod 16384).
Proof.
  assert (bytes_ok [97; 123; 98; 99; 125; 100]) as H by (repeat constructor; lia).
  split; [exact H|]. apply (proj2 (keyHashSlot_correct _ H)).
  apply (hashed_tag [97] [98; 99] [100]); [set_solver by lia..|done].
Defined.
