(* ===== verification/Dict.v ===== *)
(** The hash table: src/redis-7.0.0/src/dict.c and dict.h.

    A [dict] has two tables of buckets; while [rehashidx] is not -1 buckets
    are being moved from the first to the second, a few per operation.  A
    bucket's chain of [dictEntry] is a list of key and value pairs.  A pointer
    to an entry is the position of the entry: table, bucket and place in the
    chain.  What the code reads or writes outside an array, a NULL table or a
    failed [assert] makes the result [None].

    What a dict is given from outside is the interface [DictType]: the hash
    and the comparison of its keys and whether it may grow. *)
From stdpp Require Export gmap.
From S2P Require Import Prelude.

(** [dictType]: the callbacks the code uses, with what it relies on.  The
    comparison identifies a key, so two keys that compare equal are one key
    here; [key == he->key] of the code is a shortcut for it. *)
Class DictType (K : Type) `{Countable K} := {
  hashFunction : K → Z;
  keyCompare : K → K → bool;
  (** [expandAllowed moreMem used size], [None] when the member is NULL. *)
  expandAllowed : option (Z → Z → Z → bool);
  hash_range : ∀ k, 0 <= hashFunction k < 2 ^ 64;
  keyCompare_spec : ∀ a b, keyCompare a b = true ↔ a = b;
}.

(** The static variable of dict.c that [dictEnableResize] and
    [dictDisableResize] set. *)
Class DictGlobals := { dict_can_resize : bool }.

Definition dictEnableResize : DictGlobals := {| dict_can_resize := true |}.
Definition dictDisableResize : DictGlobals := {| dict_can_resize := false |}.

Definition dict_force_resize_ratio : Z := 5.
Definition DICT_OK : Z := 0.
Definition DICT_ERR : Z := 1.
Definition DICT_HT_INITIAL_EXP : Z := 2.
Definition DICT_HT_INITIAL_SIZE : Z := Z.shiftl 1 DICT_HT_INITIAL_EXP.
Definition LONG_MAX_ul : Z := 2 ^ 63 - 1.
Definition sizeof_ptr : Z := 8.

Definition DICTHT_SIZE (exp : Z) : Z := if exp =? -1 then 0 else u64 (Z.shiftl 1 exp).
Definition DICTHT_SIZE_MASK (exp : Z) : Z :=
  if exp =? -1 then 0 else u64 (DICTHT_SIZE exp - 1).

(** [while(1) { if ((1 << e) >= size) return e; e++; }] *)
Fixpoint next_exp_loop (fuel : nat) (size e : Z) : option Z :=
  match fuel with
  | O => None
  | S fuel =>
    if u64 (Z.shiftl 1 e) >=? size then Some e else next_exp_loop fuel size (e + 1)
  end.

Definition _dictNextExp (size : Z) : option Z :=
  if size >=? LONG_MAX_ul then Some 63
  else next_exp_loop 64 size DICT_HT_INITIAL_EXP.

Section dict.
Context `{DictType K} {V : Type} `{DictGlobals}.

(** A [dictEntry] without its [next], and a chain of them. *)
Abbreviation entry := (K * V)%type.
Abbreviation bucket := (list entry).

(** The fields of [dict] that are indexed by table, and the rest. *)
Record ht := Ht {
  ht_table : option (list (list entry));
  ht_used : Z;
  ht_size_exp : Z;
}.
Record dict := Dict { ht0 : ht; ht1 : ht; rehashidx : Z; pauserehash : Z }.

Definition get_ht (d : dict) (htidx : Z) : ht := if htidx =? 0 then ht0 d else ht1 d.
Definition set_ht (d : dict) (htidx : Z) (h : ht) : dict :=
  if htidx =? 0 then Dict h (ht1 d) (rehashidx d) (pauserehash d)
  else Dict (ht0 d) h (rehashidx d) (pauserehash d).
Definition set_rehashidx (d : dict) (i : Z) : dict :=
  Dict (ht0 d) (ht1 d) i (pauserehash d).
Definition set_pauserehash (d : dict) (i : Z) : dict :=
  Dict (ht0 d) (ht1 d) (rehashidx d) i.

Definition dictIsRehashing (d : dict) : bool := negb (rehashidx d =? -1).
Definition dictSize (d : dict) : Z := u64 (ht_used (ht0 d) + ht_used (ht1 d)).
Definition dictSlots (d : dict) : Z :=
  u64 (DICTHT_SIZE (ht_size_exp (ht0 d)) + DICTHT_SIZE (ht_size_exp (ht1 d))).
Definition dictPauseRehashing (d : dict) : dict :=
  set_pauserehash d (s16 (pauserehash d + 1)).
Definition dictResumeRehashing (d : dict) : dict :=
  set_pauserehash d (s16 (pauserehash d - 1)).

(** [table[i]] and the assignment to it. *)
Definition get_bucket (h : ht) (i : Z) : option bucket :=
  t ← ht_table h; if 0 <=? i then t !! Z.to_nat i else None.
Definition set_bucket (h : ht) (i : Z) (b : bucket) : option ht :=
  t ← ht_table h;
  if (0 <=? i) && (i <? len t)
  then Some (Ht (Some (<[Z.to_nat i := b]> t)) (ht_used h) (ht_size_exp h)) else None.
Definition add_used (h : ht) (n : Z) : ht :=
  Ht (ht_table h) (u64 (ht_used h + n)) (ht_size_exp h).

Definition reset_ht : ht := Ht None 0 (-1).
Definition _dictReset (d : dict) (htidx : Z) : dict := set_ht d htidx reset_ht.

(** What [_dictInit] assigns, in a fresh object. *)
Definition dictCreate : dict :=
  let d := Dict reset_ht reset_ht 0 0 in
  let d := _dictReset d 0 in
  let d := _dictReset d 1 in
  set_pauserehash (set_rehashidx d (-1)) 0.

(** [malloc_failed] is NULL for [dictExpand]; [Some ok] says whether
    [ztrycalloc] of [dictTryExpand] finds the memory.  The result is the
    return value and [*malloc_failed]. *)
Definition _dictExpand (d : dict) (size : Z) (malloc_failed : option bool) :
    option (dict * Z * bool) :=
  if dictIsRehashing d || (ht_used (ht0 d) >? size) then Some (d, DICT_ERR, false)
  else
    new_ht_size_exp ← _dictNextExp size;
    let newsize := u64 (Z.shiftl 1 new_ht_size_exp) in
    if (newsize <? size) || (u64 (newsize * sizeof_ptr) <? newsize)
    then Some (d, DICT_ERR, false)
    else if new_ht_size_exp =? ht_size_exp (ht0 d) then Some (d, DICT_ERR, false)
    else if bool_decide (malloc_failed = Some false) then Some (d, DICT_ERR, true)
    else
      let new_ht := Ht (Some (replicate (Z.to_nat newsize) [])) 0 new_ht_size_exp in
      match ht_table (ht0 d) with
      | None => Some (set_ht d 0 new_ht, DICT_OK, false)
      | Some _ => Some (set_rehashidx (set_ht d 1 new_ht) 0, DICT_OK, false)
      end.

Definition dictExpand (d : dict) (size : Z) : option (dict * Z) :=
  '(d, r, _) ← _dictExpand d size None; Some (d, r).

Definition dictTryExpand (d : dict) (size : Z) (alloc_ok : bool) : option (dict * Z) :=
  '(d, _, malloc_failed) ← _dictExpand d size (Some alloc_ok);
  Some (d, if (malloc_failed : bool) then DICT_ERR else DICT_OK).

Definition dictResize (d : dict) : option (dict * Z) :=
  if negb dict_can_resize || dictIsRehashing d then Some (d, DICT_ERR)
  else
    let minimal := ht_used (ht0 d) in
    let minimal := if minimal <? DICT_HT_INITIAL_SIZE then DICT_HT_INITIAL_SIZE
                   else minimal in
    dictExpand d minimal.

(** The loop over empty buckets of [dictRehash], from [idx], with [ev] visits
    left: the index reached, the visits left, and whether it returned 1. *)
Fixpoint skip_empty (fuel : nat) (h : ht) (idx ev : Z) : option (Z * Z * bool) :=
  match fuel with
  | O => None
  | S fuel =>
    b ← get_bucket h idx;
    match b with
    | [] =>
      let ev := s32 (ev - 1) in
      if ev =? 0 then Some (idx + 1, ev, true) else skip_empty fuel h (idx + 1) ev
    | _ => Some (idx, ev, false)
    end
  end.

(** [while(de)]: the entries of a bucket go to the front of their buckets of
    the second table. *)
Fixpoint move_bucket (de : bucket) (h0 h1 : ht) : option (ht * ht) :=
  match de with
  | [] => Some (h0, h1)
  | (k, v) :: nextde =>
    let h := Z.land (hashFunction k) (DICTHT_SIZE_MASK (ht_size_exp h1)) in
    chain ← get_bucket h1 h;
    h1 ← set_bucket h1 h ((k, v) :: chain);
    move_bucket nextde (add_used h0 (-1)) (add_used h1 1)
  end.

(** [while(n-- && d->ht_used[0] != 0)]: the dict and whether it returned 1
    from inside.  The number of buckets bounds the inner loop. *)
Fixpoint rehash_loop (n : nat) (d : dict) (empty_visits : Z) : option (dict * bool) :=
  match n with
  | O => Some (d, false)
  | S n =>
    if ht_used (ht0 d) =? 0 then Some (d, false)
    else if negb (DICTHT_SIZE (ht_size_exp (ht0 d)) >? u64 (rehashidx d)) then None
    else
      t ← ht_table (ht0 d);
      '(idx, ev, stop) ← skip_empty (S (length t)) (ht0 d) (rehashidx d) empty_visits;
      let d := set_rehashidx d idx in
      if (stop : bool) then Some (d, true)
      else
        de ← get_bucket (ht0 d) idx;
        '(h0, h1) ← move_bucket de (ht0 d) (ht1 d);
        h0 ← set_bucket h0 idx [];
        rehash_loop n (set_rehashidx (set_ht (set_ht d 0 h0) 1 h1) (idx + 1)) ev
  end.

(** [n], the number of buckets to move, is not negative. *)
Definition dictRehash (d : dict) (n : nat) : option (dict * Z) :=
  let empty_visits := s32 (Z.of_nat n * 10) in
  if negb (dictIsRehashing d) then Some (d, 0)
  else
    '(d, stop) ← rehash_loop n d empty_visits;
    if (stop : bool) then Some (d, 1)
    else if ht_used (ht0 d) =? 0 then
      let d := set_ht d 0 (ht1 d) in
      let d := _dictReset d 1 in
      Some (set_rehashidx d (-1), 0)
    else Some (d, 1).

Definition _dictRehashStep (d : dict) : option dict :=
  if pauserehash d =? 0 then fst <$> dictRehash d 1 else Some d.

(** [if (dictIsRehashing(d)) _dictRehashStep(d);] of every operation. *)
Definition rehash_step_if (d : dict) : option dict :=
  if dictIsRehashing d then _dictRehashStep d else Some d.

(** [clock i] is the [i]-th reading of [timeInMilliseconds]. *)
Fixpoint rehash_ms_loop (fuel : nat) (clock : nat → Z) (i : nat) (ms : Z)
    (d : dict) (rehashes : Z) : option (dict * Z) :=
  match fuel with
  | O => None
  | S fuel =>
    '(d, r) ← dictRehash d 100;
    if r =? 0 then Some (d, rehashes)
    else
      let rehashes := s32 (rehashes + 100) in
      if clock i - clock 0%nat >? ms then Some (d, rehashes)
      else rehash_ms_loop fuel clock (S i) ms d rehashes
  end.

Definition dictRehashMilliseconds (clock : nat → Z) (d : dict) (ms : Z) :
    option (dict * Z) :=
  if pauserehash d >? 0 then Some (d, 0)
  else rehash_ms_loop (2 + Z.to_nat (DICTHT_SIZE (ht_size_exp (ht0 d))))
         clock 1 ms d 0.

(** ** Lookup, insertion, deletion *)

(** A pointer to an entry: its table, bucket and place in the chain. *)
Abbreviation eref := (Z * Z * nat)%type.

Definition entry_at (d : dict) (r : eref) : option entry :=
  let '(table, idx, pos) := r in b ← get_bucket (get_ht d table) idx; b !! pos.

Definition dictSetVal (d : dict) (r : eref) (val : V) : option dict :=
  let '(table, idx, pos) := r in
  b ← get_bucket (get_ht d table) idx;
  '(k, _) ← b !! pos;
  h ← set_bucket (get_ht d table) idx (<[pos := (k, val)]> b);
  Some (set_ht d table h).

(** [while(he)]: the place of the first entry whose key matches. *)
Fixpoint find_in_chain (he : bucket) (key : K) (pos : nat) : option nat :=
  match he with
  | [] => None
  | (k, _) :: next =>
    if keyCompare key k then Some pos else find_in_chain next key (S pos)
  end.

(** One turn of the loops over the two tables: the bucket the key belongs to
    and the place where it was found. *)
Definition search_table (d : dict) (table hash : Z) (key : K) : option (Z * option nat) :=
  let idx := Z.land hash (DICTHT_SIZE_MASK (ht_size_exp (get_ht d table))) in
  b ← get_bucket (get_ht d table) idx;
  Some (idx, find_in_chain b key 0).

(** [for (table = 0; table <= 1; table++)] with the exit when the dict is not
    rehashing: the last bucket looked at, and the entry found. *)
Definition search_tables (d : dict) (hash : Z) (key : K) : option (Z * option eref) :=
  '(idx, found) ← search_table d 0 hash key;
  match found with
  | Some pos => Some (idx, Some (0, idx, pos))
  | None =>
    if negb (dictIsRehashing d) then Some (idx, None)
    else
      '(idx, found) ← search_table d 1 hash key;
      Some (idx, match found with Some pos => Some (1, idx, pos) | None => None end)
  end.

Definition dictFind (d : dict) (key : K) : option (dict * option eref) :=
  if dictSize d =? 0 then Some (d, None)
  else
    d ← rehash_step_if d;
    '(_, found) ← search_tables d (hashFunction key) key;
    Some (d, found).

(** The value is NULL, [None], when the key is absent. *)
Definition dictFetchValue (d : dict) (key : K) : option (dict * option V) :=
  '(d, he) ← dictFind d key;
  match he with
  | None => Some (d, None)
  | Some r => '(_, v) ← entry_at d r; Some (d, Some v)
  end.

Definition dictTypeExpandAllowed (d : dict) : option bool :=
  match expandAllowed with
  | None => Some true
  | Some f =>
    e ← _dictNextExp (u64 (ht_used (ht0 d) + 1));
    Some (f (u64 (DICTHT_SIZE e * sizeof_ptr)) (ht_used (ht0 d))
            (DICTHT_SIZE (ht_size_exp (ht0 d))))
  end.

Definition _dictExpandIfNeeded (d : dict) : option (dict * Z) :=
  if dictIsRehashing d then Some (d, DICT_OK)
  else
    let size := DICTHT_SIZE (ht_size_exp (ht0 d)) in
    let used := ht_used (ht0 d) in
    if size =? 0 then dictExpand d DICT_HT_INITIAL_SIZE
    else if (used >=? size) &&
            (dict_can_resize || (used / size >? dict_force_resize_ratio)) then
      allowed ← dictTypeExpandAllowed d;
      if (allowed : bool) then dictExpand d (u64 (used + 1)) else Some (d, DICT_OK)
    else Some (d, DICT_OK).

(** The index, or -1 with [*existing]. *)
Definition _dictKeyIndex (d : dict) (key : K) (hash : Z) :
    option (dict * Z * option eref) :=
  '(d, r) ← _dictExpandIfNeeded d;
  if r =? DICT_ERR then Some (d, -1, None)
  else
    '(idx, found) ← search_tables d hash key;
    match found with
    | Some he => Some (d, -1, Some he)
    | None => Some (d, idx, None)
    end.

(** The entry added, if any, and [*existing].  The value of a new entry is
    whatever the allocation holds, [junk]; its metadata are not modelled. *)
Definition dictAddRaw (junk : V) (d : dict) (key : K) :
    option (dict * option eref * option eref) :=
  d ← rehash_step_if d;
  '(d, index, existing) ← _dictKeyIndex d key (hashFunction key);
  if index =? -1 then Some (d, None, existing)
  else
    let htidx := if dictIsRehashing d then 1 else 0 in
    chain ← get_bucket (get_ht d htidx) index;
    h ← set_bucket (get_ht d htidx) index ((key, junk) :: chain);
    Some (set_ht d htidx (add_used h 1), Some (htidx, index, 0%nat), existing).

Definition dictAdd (junk : V) (d : dict) (key : K) (val : V) : option (dict * Z) :=
  '(d, entry, _) ← dictAddRaw junk d key;
  match entry with
  | None => Some (d, DICT_ERR)
  | Some r => d ← dictSetVal d r val; Some (d, DICT_OK)
  end.

(** 1 when added, 0 when the value was replaced; [*existing] is dereferenced. *)
Definition dictReplace (junk : V) (d : dict) (key : K) (val : V) : option (dict * Z) :=
  '(d, entry, existing) ← dictAddRaw junk d key;
  match entry with
  | Some r => d ← dictSetVal d r val; Some (d, 1)
  | None =>
    r ← existing;
    d ← dictSetVal d r val;
    Some (d, 0)
  end.

Definition dictAddOrFind (junk : V) (d : dict) (key : K) : option (dict * option eref) :=
  '(d, entry, existing) ← dictAddRaw junk d key;
  Some (d, match entry with Some r => Some r | None => existing end).

(** The entry unlinked from the table, if any.  [nofree] only decides who
    frees it. *)
Definition dictGenericDelete (d : dict) (key : K) : option (dict * option entry) :=
  if dictSize d =? 0 then Some (d, None)
  else
    d ← rehash_step_if d;
    '(_, found) ← search_tables d (hashFunction key) key;
    match found with
    | None => Some (d, None)
    | Some (table, idx, pos) =>
      b ← get_bucket (get_ht d table) idx;
      he ← b !! pos;
      h ← set_bucket (get_ht d table) idx (delete pos b);
      Some (set_ht d table (add_used h (-1)), Some he)
    end.

Definition dictDelete (d : dict) (key : K) : option (dict * Z) :=
  '(d, he) ← dictGenericDelete d key;
  Some (d, match he with Some _ => DICT_OK | None => DICT_ERR end).

Definition dictUnlink (d : dict) (key : K) : option (dict * option entry) :=
  dictGenericDelete d key.

(** The loop of [_dictClear] from bucket [i], [n] buckets left: the entries
    freed.  The callback does not touch the dict. *)
Fixpoint clear_loop (n : nat) (h : ht) (i : Z) : option (list entry) :=
  match n with
  | O => Some []
  | S n =>
    if ht_used h >? 0 then
      he ← get_bucket h i;
      freed ← clear_loop n (add_used h (- len he)) (i + 1);
      Some (he ++ freed)
    else Some []
  end.

Definition _dictClear (d : dict) (htidx : Z) : option (dict * list entry) :=
  let h := get_ht d htidx in
  freed ← clear_loop (Z.to_nat (DICTHT_SIZE (ht_size_exp h))) h 0;
  Some (_dictReset d htidx, freed).

Definition dictEmpty (d : dict) : option (dict * list entry) :=
  '(d, f0) ← _dictClear d 0;
  '(d, f1) ← _dictClear d 1;
  Some (set_pauserehash (set_rehashidx d (-1)) 0, f0 ++ f1).

(** What [dictRelease] frees before the dict itself. *)
Definition dictRelease (d : dict) : option (list entry) :=
  '(d, f0) ← _dictClear d 0;
  '(_, f1) ← _dictClear d 1;
  Some (f0 ++ f1).

Definition dictGetHash (key : K) : Z := hashFunction key.

(** ** Well-formed dicts *)

(** A table of [2 ^ e] buckets in which every entry is in the bucket its hash
    selects.  [e] is at most 60: a larger array of pointers overflows. *)
Definition placed (t : list bucket) (e : Z) : Prop :=
  ∀ i b k v, t !! i = Some b → (k, v) ∈ b → hashFunction k mod 2 ^ e = Z.of_nat i.
Definition table_ok (t : list bucket) (e : Z) : Prop :=
  0 <= e <= 60 ∧ len t = 2 ^ e ∧ placed t e.

Definition mk_ht (t : list bucket) (e : Z) : ht := Ht (Some t) (len (concat t)) e.

Abbreviation keys l := (fst <$> l).

(** No more than [2 ^ 60] entries: memory holds no more. *)
Definition entries_ok (l : list entry) : Prop := NoDup (keys l) ∧ len l <= 2 ^ 60.

(** The first [i] buckets have been moved. *)
Definition emptied (t : list bucket) (i : Z) : Prop :=
  0 <= i <= len t ∧ ∀ j, (j < Z.to_nat i)%nat → t !! j = Some [].

Inductive dict_wf : dict → Prop :=
  | wf_null p : dict_wf (Dict reset_ht reset_ht (-1) p)
  | wf_plain t e p :
      table_ok t e → entries_ok (concat t) →
      dict_wf (Dict (mk_ht t e) reset_ht (-1) p)
  | wf_rehash t0 e0 t1 e1 i p :
      table_ok t0 e0 → table_ok t1 e1 → emptied t0 i →
      entries_ok (concat t0 ++ concat t1) →
      dict_wf (Dict (mk_ht t0 e0) (mk_ht t1 e1) i p).

(** The entries of a dict, and the finite map it represents. *)
Definition ht_entries (h : ht) : list entry := concat (default [] (ht_table h)).
Definition entries (d : dict) : list entry := ht_entries (ht0 d) ++ ht_entries (ht1 d).
Definition dict_map (d : dict) : gmap K V := list_to_map (entries d).

(** ** Lemmas on tables *)

Lemma DICTHT_SIZE_pow e : 0 <= e <= 60 → DICTHT_SIZE e = 2 ^ e.
Proof.
  intros He. unfold DICTHT_SIZE. if_false. rewrite Z.shiftl_1_l. apply wrapu_small.
  split; [lia|]. apply Z.pow_lt_mono_r; lia.
Qed.

Lemma pow2_60 e : 0 <= e <= 60 → 1 <= 2 ^ e <= 2 ^ 60.
Proof. intros. pose proof (Z.pow_pos_nonneg 2 e). pose proof (Z.pow_le_mono_r 2 e 60). lia. Qed.

Lemma land_mask h e : 0 <= e <= 60 → Z.land h (DICTHT_SIZE_MASK e) = h mod 2 ^ e.
Proof.
  intros He. unfold DICTHT_SIZE_MASK. if_false. rewrite DICTHT_SIZE_pow by done.
  pose proof (pow2_60 e He). rewrite wrapu_small by lia.
  rewrite Z.sub_1_r, <- Z.ones_equiv. apply Z.land_ones. lia.
Qed.

Lemma concat_insert (t : list bucket) i b b' : t !! i = Some b →
  concat (<[i := b']> t) ≡ₚ b' ++ concat (<[i := []]> t).
Proof.
  revert i. induction t as [|c t IH]; intros [|i] Hi; simplify_eq/=; [done|].
  rewrite IH by done. apply Permutation_app_swap_app.
Qed.

Lemma concat_lookup (t : list bucket) i b : t !! i = Some b →
  concat t ≡ₚ b ++ concat (<[i := []]> t).
Proof. intros Hi. rewrite <- concat_insert by done. by rewrite list_insert_id. Qed.

Lemma length_concat_insert (t : list bucket) i b b' : t !! i = Some b →
  len (concat (<[i := b']> t)) = len (concat t) - len b + len b'.
Proof.
  intros Hi. pose proof (Permutation_length (concat_insert t i b b' Hi)).
  pose proof (Permutation_length (concat_lookup t i b Hi)). len_lia.
Qed.

Lemma table_ok_insert t e i b :
  table_ok t e → (∀ k v, (k, v) ∈ b → hashFunction k mod 2 ^ e = Z.of_nat i) →
  table_ok (<[i := b]> t) e.
Proof.
  intros (He & Hl & Hp) Hb. split_and!; [lia..|len_lia|].
  intros j b' k v [(->&->&?)|[? Hj]]%list_lookup_insert_Some ?; eauto.
Qed.

Lemma get_bucket_mk t e i b : t !! Z.to_nat i = Some b → 0 <= i →
  get_bucket (mk_ht t e) i = Some b.
Proof. intros Ht Hi. unfold get_bucket, mk_ht. simpl. by if_true. Qed.

Lemma set_bucket_ht t u e i b : 0 <= i < len t →
  set_bucket (Ht (Some t) u e) i b = Some (Ht (Some (<[Z.to_nat i := b]> t)) u e).
Proof. intros. unfold set_bucket. simpl. by if_true. Qed.

Lemma bucket_exists t e h : table_ok t e → 
  0 <= h mod 2 ^ e < len t ∧ ∃ b, t !! Z.to_nat (h mod 2 ^ e) = Some b.
Proof.
  intros (He & Hl & _). pose proof (pow2_60 e He).
  pose proof (Z.mod_pos_bound h (2 ^ e)). split; [lia|].
  apply lookup_lt_is_Some_2. lia.
Qed.

Lemma add_used_mk t u e n : 0 <= u + n < 2 ^ 64 → u + n = len (concat t) →
  add_used (Ht (Some t) u e) n = mk_ht t e.
Proof. intros Hr Hu. unfold add_used, mk_ht. simpl. rewrite wrapu_small by lia. by rewrite Hu. Qed.

(** ** Rehashing *)

Lemma skip_empty_spec fuel t e i ev :
  (∃ j b, Z.of_nat j >= i ∧ t !! j = Some b ∧ b ≠ []) →
  0 <= i → (Z.to_nat (len t - i) < fuel)%nat →
  ∃ i' ev' stop, skip_empty fuel (mk_ht t e) i ev = Some (i', ev', stop) ∧
    i <= i' <= len t ∧
    (∀ j, (Z.to_nat i <= j < Z.to_nat i')%nat → t !! j = Some []) ∧
    (if (stop : bool) then i < i'
     else ∃ b, t !! Z.to_nat i' = Some b ∧ b ≠ []).
Proof.
  revert i ev. induction fuel as [|fuel IH]; intros i ev (j&b&Hj&Hb&Hne) Hi Hf; [lia|].
  apply lookup_lt_Some in Hb as Hlt. cbn [skip_empty].
  destruct (lookup_lt_is_Some_2 t (Z.to_nat i)) as [b0 Hb0]; [lia|].
  rewrite (get_bucket_mk _ _ _ _ Hb0 Hi). mstep. destruct b0 as [|x b0].
  2:{ eexists i, ev, false. split; [done|]. split; [lia|]. split; [lia|]. eauto. }
  assert (i ≠ Z.of_nat j). { intros ->. rewrite Nat2Z.id in Hb0. congruence. }
  assert (∀ j', (Z.to_nat i <= j' < Z.to_nat (i + 1))%nat → t !! j' = Some []) as He.
  { intros j' Hj'. by replace j' with (Z.to_nat i) by lia. }
  case_if.
  - eexists (i + 1), _, true. split; [done|]. split; [lia|]. split; [done|lia].
  - destruct (IH (i + 1) (s32 (ev - 1))) as (i'&ev'&stop&->&Hi'&He'&Hs);
      [exists j, b; split_and!; [lia|done..]|lia..|].
    eexists i', ev', stop. split; [done|]. split; [lia|]. split.
    + intros j' Hj'. destruct (decide (j' < Z.to_nat (i + 1))%nat); [apply He|apply He']; lia.
    + destruct stop; [lia|done].
Qed.

Lemma hash_bucket t e k : table_ok t e →
  ∃ b, get_bucket (mk_ht t e) (Z.land (hashFunction k) (DICTHT_SIZE_MASK e)) = Some b ∧
    t !! Z.to_nat (hashFunction k mod 2 ^ e) = Some b ∧
    0 <= hashFunction k mod 2 ^ e < len t.
Proof.
  intros Ht. destruct (bucket_exists t e (hashFunction k) Ht) as [? [b Hb]].
  exists b. rewrite land_mask by apply Ht. split; [|done].
  apply get_bucket_mk; [done|lia].
Qed.

(** An entry put at the front of its bucket. *)
Lemma push_entry t e k v b :
  table_ok t e → t !! Z.to_nat (hashFunction k mod 2 ^ e) = Some b →
  let t' := <[Z.to_nat (hashFunction k mod 2 ^ e) := (k, v) :: b]> t in
  table_ok t' e ∧ concat t' ≡ₚ (k, v) :: concat t.
Proof.
  intros Ht Hb t'. destruct (bucket_exists t e (hashFunction k) Ht) as [? _]. split.
  - apply table_ok_insert; [done|]. intros k' v' [?|Hin]%elem_of_cons; simplify_eq; [lia|].
    destruct Ht as (_ & _ & Hp). by eapply Hp in Hin.
  - unfold t'. rewrite concat_insert by done. by rewrite (concat_lookup t) by done.
Qed.

Lemma move_bucket_spec b t0 u0 e0 t1 e1 : table_ok t1 e1 →
  len b <= u0 < 2 ^ 64 → len b + len (concat t1) < 2 ^ 64 →
  ∃ t1', move_bucket b (Ht t0 u0 e0) (mk_ht t1 e1) =
           Some (Ht t0 (u0 - len b) e0, mk_ht t1' e1) ∧
    table_ok t1' e1 ∧ concat t1' ≡ₚ b ++ concat t1.
Proof.
  revert u0 t1. induction b as [|[k v] b IH]; intros u0 t1 Ht Hu Hl.
  { exists t1. rewrite Z.sub_0_r. done. }
  cbn [move_bucket]. change (ht_size_exp (mk_ht t1 e1)) with e1.
  destruct (hash_bucket t1 e1 k Ht) as (c&->&Hc'&Hr). mstep.
  rewrite land_mask by apply Ht. unfold mk_ht at 1. rewrite set_bucket_ht by done. mstep.
  destruct (push_entry t1 e1 k v c Ht Hc') as [Ht' Hp].
  apply Permutation_length in Hp as Hpl. cbn [length] in *.
  rewrite (add_used_mk _ _ _ 1) by lia.
  unfold add_used at 1. cbn [ht_table ht_used ht_size_exp].
  rewrite wrapu_small by lia.
  destruct (IH (u0 + -1) _ Ht') as (t1'&->&?&Hp'); [lia..|].
  exists t1'. split; [|split; [done|]]; [do 3 f_equal; lia|].
  rewrite Hp', Hp. simpl. by rewrite Permutation_middle.
Qed.

Lemma nonempty_bucket (t : list bucket) i : emptied t i → concat t ≠ [] →
  ∃ j b, Z.of_nat j >= i ∧ t !! j = Some b ∧ b ≠ [].
Proof.
  intros [Hi He] Hne. destruct (concat t) as [|x l] eqn:E; [done|].
  assert (x ∈ concat t) as Hx by (rewrite E; left).
  apply elem_of_concat in Hx as (b & Hxb & [j Hj]%list_elem_of_lookup).
  exists j, b. assert (b ≠ []) by (intros ->; by apply elem_of_nil in Hxb).
  split_and!; [|done..]. destruct (decide (Z.of_nat j < i)); [|lia].
  rewrite He in Hj by lia. congruence.
Qed.

(** A dict in the middle of rehashing, with what [dictRehash] relies on. *)
Definition rehash_ok (t0 : list bucket) (e0 : Z) (t1 : list bucket) (e1 i : Z) : Prop :=
  table_ok t0 e0 ∧ table_ok t1 e1 ∧ emptied t0 i ∧ entries_ok (concat t0 ++ concat t1).

Lemma entries_ok_perm l l' : l ≡ₚ l' → entries_ok l → entries_ok l'.
Proof. intros Hp [? ?]. split; by rewrite <- Hp. Qed.

Lemma emptied_move t i b j : emptied t i → i <= j → t !! Z.to_nat j = Some b →
  (∀ k, (Z.to_nat i <= k < Z.to_nat j)%nat → t !! k = Some []) →
  emptied (<[Z.to_nat j := []]> t) (j + 1).
Proof.
  intros [Hi He] Hj Hb Hk. apply lookup_lt_Some in Hb as Hlt. split; [len_lia|].
  intros k Hkj. destruct (decide (k = Z.to_nat j)) as [->|].
  - by rewrite list_lookup_insert_eq by lia.
  - rewrite list_lookup_insert_ne by done.
    destruct (decide (k < Z.to_nat i)%nat); [apply He|apply Hk]; lia.
Qed.

Lemma emptied_skip t i j : emptied t i → i <= j <= len t →
  (∀ k, (Z.to_nat i <= k < Z.to_nat j)%nat → t !! k = Some []) → emptied t j.
Proof.
  intros [Hi He] Hj Hk. split; [lia|]. intros k Hkj.
  destruct (decide (k < Z.to_nat i)%nat); [apply He|apply Hk]; lia.
Qed.

Lemma rehash_loop_spec n t0 e0 t1 e1 i p ev : rehash_ok t0 e0 t1 e1 i →
  ∃ t0' t1' i' stop,
    rehash_loop n (Dict (mk_ht t0 e0) (mk_ht t1 e1) i p) ev =
      Some (Dict (mk_ht t0' e0) (mk_ht t1' e1) i' p, stop) ∧
    rehash_ok t0' e0 t1' e1 i' ∧
    concat t0' ++ concat t1' ≡ₚ concat t0 ++ concat t1 ∧
    i <= i' ∧ (concat t0 = [] → stop = false ∧ t0' = t0) ∧
    ((0 < n)%nat → concat t0 ≠ [] → i < i').
Proof.
  revert t0 t1 i ev. induction n as [|n IH]; intros t0 t1 i ev Hok.
  { exists t0, t1, i, false. split_and!; try done; lia. }
  cbn [rehash_loop ht0 ht1 rehashidx mk_ht ht_used ht_size_exp ht_table].
  case_if. { exists t0, t1, i, false. split_and!; try (done || lia).
    intros _ []. apply nil_length_inv. lia. }
  assert (concat t0 ≠ []) as Hc by (intros Hc; by rewrite Hc in E).
  destruct Hok as (Ht0 & Ht1 & Hi & Hes). pose proof Hi as [Hi1 _].
  destruct (nonempty_bucket t0 i Hi Hc) as (j&b&Hj&Hb&Hne).
  apply lookup_lt_Some in Hb as Hlt. pose proof Ht0 as (He0 & Hl0 & _).
  pose proof (pow2_60 e0 He0). rewrite DICTHT_SIZE_pow, wrapu_small by lia. if_false. mstep.
  change (Ht (Some t0) _ e0) with (mk_ht t0 e0).
  destruct (skip_empty_spec (S (length t0)) t0 e0 i ev) as (i'&ev'&stop&->&Hi'&Hsk&Hs);
    [by exists j, b|lia..|]. mstep. destruct stop.
  - exists t0, t1, i', true. split; [done|].
    split; [|split_and!; [done|lia|done|lia]]. split; [done|]. split; [done|]. split; [by eapply emptied_skip|done].
  - destruct Hs as (b' & Hb' & Hne'). cbn [set_rehashidx ht0 ht1 rehashidx].
    rewrite (get_bucket_mk _ _ _ _ Hb') by lia. mstep. 
    pose proof (Permutation_length (concat_lookup _ _ _ Hb')) as Hpl. simpl_len.
    pose proof (proj2 Hes) as Hb60. simpl_len.
    destruct (move_bucket_spec b' (Some t0) (len (concat t0)) e0 t1 e1 Ht1)
      as (t1'&Hm&Ht1'&Hp1); [lia..|].
    change (Ht (Some t0) (len (concat t0)) e0) with (mk_ht t0 e0) in Hm.
    rewrite Hm. mstep. apply lookup_lt_Some in Hb' as Hlt'.
    rewrite set_bucket_ht by lia. mstep.
    assert (Ht (Some (<[Z.to_nat i':=[]]> t0)) (len (concat t0) - len b') e0 =
      mk_ht (<[Z.to_nat i':=[]]> t0) e0) as ->.
    { unfold mk_ht. f_equal. rewrite (length_concat_insert _ _ b') by done. simpl. lia. }
    unfold set_ht, set_rehashidx. cbn [ht0 ht1 rehashidx pauserehash Z.eqb].
    assert (concat (<[Z.to_nat i':=[]]> t0) ++ concat t1' ≡ₚ concat t0 ++ concat t1) as HP.
    { rewrite Hp1, (concat_lookup t0) by done. solve_Permutation. }
    edestruct (IH (<[Z.to_nat i':=[]]> t0) t1' (i' + 1) ev')
      as (t0''&t1''&i''&st&->&Hok'&Hp'&Hi''&_).
    { split_and!; [apply table_ok_insert; [done|]|done| |].
      - intros ? ? Hn. by apply elem_of_nil in Hn.
      - apply (emptied_move t0 i b' i'); [done|lia|done..].
      - by eapply entries_ok_perm. }
    exists t0'', t1'', i'', st. split_and!; [done|done|by rewrite Hp'|lia|done|lia].
Qed.

(** [dictRehash]: the entries are the same, the dict stays well formed, and
    unless the dict is done the index moves. *)
Lemma dictRehash_spec d n : dict_wf d →
  ∃ d' r, dictRehash d n = Some (d', r) ∧ dict_wf d' ∧ entries d' ≡ₚ entries d ∧
    pauserehash d' = pauserehash d ∧ (r = 0 ↔ rehashidx d' = -1) ∧
    (r ≠ 0 → (0 < n)%nat → ht_size_exp (ht0 d') = ht_size_exp (ht0 d) ∧
       rehashidx d < rehashidx d').
Proof.
  intros Hwf. destruct Hwf as [p|t e p Ht Hes|t0 e0 t1 e1 i p Ht0 Ht1 Hi Hes].
  1: exists (Dict reset_ht reset_ht (-1) p), 0; split_and!; [done|constructor|done..].
  1: eexists _, 0; split_and!; [done|by constructor|done..].
  unfold dictRehash, dictIsRehashing. cbn [rehashidx].
  pose proof Hi as [Hi0 _]. rewrite (proj2 (Z.eqb_neq i (-1))) by lia. cbn [negb].
  destruct (rehash_loop_spec n t0 e0 t1 e1 i p (s32 (Z.of_nat n * 10)))
    as (t0'&t1'&i'&stop&->&(Ht0'&Ht1'&Hi'&Hes')&Hp&Hle&Hnil&Hlt); [done|]. mstep.
  pose proof Hi' as [Hi1 _].
  assert (dict_wf (Dict (mk_ht t0' e0) (mk_ht t1' e1) i' p)) by by constructor.
  assert (stop = true ∨ concat t0' ≠ [] → (0 < n)%nat → i < i') as Hprog.
  { intros Hs Hn. apply Hlt; [done|]. intros Hc. destruct (Hnil Hc) as [-> ->].
    destruct Hs; congruence. }
  destruct stop.
  { eexists _, 1. split_and!; [done|done|done|done|simpl; lia|].
    intros _ Hn. split; [done|]. simpl. auto. }
  cbn [ht0 ht_used mk_ht]. case_if.
  - assert (concat t0' = []) as Hc by (apply nil_length_inv; lia).
    rewrite Hc in Hp, Hes'. eexists _, 0. split; [done|]. split; [by constructor|].
    split; [|done]. unfold entries, ht_entries; simpl. by rewrite app_nil_r.
  - eexists _, 1. split_and!; [done|done|done|done|simpl; lia|].
    intros _ Hn. split; [done|]. simpl. apply Hprog; [|done].
    right. intros Hc. by rewrite Hc in E.
Qed.

Lemma rehash_step_if_spec d : dict_wf d →
  ∃ d', rehash_step_if d = Some d' ∧ dict_wf d' ∧ entries d' ≡ₚ entries d ∧
    pauserehash d' = pauserehash d.
Proof.
  intros Hwf. unfold rehash_step_if, _dictRehashStep. repeat case_if; [|by exists d..].
  destruct (dictRehash_spec d 1 Hwf) as (d'&r&->&?&?&?&_). by exists d'.
Qed.

(** ** Maps of permuted entries *)

Lemma entries_wf d : dict_wf d → entries_ok (entries d).
Proof.
  destruct 1; unfold entries, ht_entries; simpl; rewrite ?app_nil_r; [|done..].
  split; [constructor|]. simpl. lia.
Qed.

Lemma dict_map_perm d l : dict_wf d → entries d ≡ₚ l → dict_map d = list_to_map l.
Proof.
  intros Hwf Hp. apply list_to_map_proper; [|done]. by apply entries_wf.
Qed.

Lemma dict_map_cons d k v l : dict_wf d → entries d ≡ₚ (k, v) :: l →
  dict_map d = <[k := v]> (list_to_map l) ∧ (list_to_map l : gmap K V) !! k = None.
Proof.
  intros Hwf Hp. split; [by rewrite (dict_map_perm d ((k, v) :: l))|].
  apply not_elem_of_list_to_map_1. apply entries_wf in Hwf as [Hnd _].
  rewrite Hp in Hnd. simpl in Hnd. by apply NoDup_cons in Hnd as [? _].
Qed.

(** ** Replacing a table *)

Lemma get_ht_wf d table : dict_wf d → ht_table (get_ht d table) ≠ None →
  ∃ t e, get_ht d table = mk_ht t e ∧ table_ok t e.
Proof.
  intros Hwf. unfold get_ht. destruct Hwf; case_if; simpl; try done; eauto.
Qed.

Lemma entries_set_ht d table t e t' x x' rest :
  get_ht d table = mk_ht t e → concat t ≡ₚ x ++ rest → concat t' ≡ₚ x' ++ rest →
  ∃ l, entries d ≡ₚ x ++ l ∧ entries (set_ht d table (mk_ht t' e)) ≡ₚ x' ++ l.
Proof.
  intros Hg Hx Hx'. unfold get_ht in Hg. unfold entries, set_ht.
  destruct (table =? 0); rewrite Hg; cbn [ht0 ht1].
  - exists (rest ++ ht_entries (ht1 d)). unfold ht_entries at 1 3. simpl.
    by rewrite Hx, Hx', <- !app_assoc.
  - exists (ht_entries (ht0 d) ++ rest). unfold ht_entries at 2 4. simpl.
    by rewrite Hx, Hx', !(Permutation_app_swap_app (ht_entries (ht0 d))).
Qed.

Lemma wf_set_ht d table t e t' :
  dict_wf d → get_ht d table = mk_ht t e → table_ok t' e →
  (∀ j, (j < Z.to_nat (rehashidx d))%nat → table = 0 → t !! j = Some [] → t' !! j = Some []) →
  entries_ok (entries (set_ht d table (mk_ht t' e))) →
  dict_wf (set_ht d table (mk_ht t' e)).
Proof.
  intros Hwf Hg Ht' Hj Hes. unfold get_ht in Hg. unfold set_ht in *.
  destruct (Z.eqb_spec table 0) as [Ht|Ht];
    destruct Hwf as [p|u f p Hu Hue|t0 e0 t1 e1 i p Ht0 Ht1 Hi Hue];
    cbn [ht0 ht1 rehashidx pauserehash] in *; try done.
  - constructor; [done|]. unfold entries, ht_entries in Hes. simpl in Hes.
    by rewrite app_nil_r in Hes.
  - injection Hg as -> _ ->. constructor; [done..| |done].
    destruct Hi as [Hi He]. destruct Ht0 as (_ & Hl & _), Ht' as (_ & Hl' & _).
    split; [lia|]. auto.
  - injection Hg as -> _ ->. by constructor.
Qed.

Lemma entry_at_inv d table idx pos kv : dict_wf d →
  entry_at d (table, idx, pos) = Some kv →
  ∃ t e b, get_ht d table = mk_ht t e ∧ table_ok t e ∧ 0 <= idx < len t ∧
    get_bucket (get_ht d table) idx = Some b ∧
    t !! Z.to_nat idx = Some b ∧ b !! pos = Some kv.
Proof.
  intros Hwf. unfold entry_at. destruct (get_bucket _ idx) as [b|] eqn:Hb; [|done].
  mstep. intros Hp. destruct (get_ht_wf d table Hwf) as (t & e & Hg & Ht).
  { unfold get_bucket in Hb. by destruct (ht_table _). }
  exists t, e, b. rewrite Hg in *. unfold get_bucket in Hb. simpl in Hb.
  destruct (Z.leb_spec 0 idx); [|done]. apply lookup_lt_Some in Hb as Hlt.
  split_and!; try (done || lia); apply Ht.
Qed.

(** Replacing the chain [b] by [b'], one of whose entries takes the place of
    [kv] or is gone. *)
Lemma set_chain d table t e idx b b' x rest :
  dict_wf d → get_ht d table = mk_ht t e → table_ok t e →
  0 <= idx < len t → t !! Z.to_nat idx = Some b → b ≠ [] →
  keys b' ⊆ keys b → len b' <= len b →
  ∀ y, b ≡ₚ x ++ rest → b' ≡ₚ y ++ rest → keys y `sublist_of` keys x →
  ∃ l, set_bucket (get_ht d table) idx b' =
         Some (Ht (Some (<[Z.to_nat idx := b']> t)) (len (concat t)) e) ∧
    entries d ≡ₚ x ++ l ∧
    entries (set_ht d table (mk_ht (<[Z.to_nat idx := b']> t) e)) ≡ₚ y ++ l ∧
    dict_wf (set_ht d table (mk_ht (<[Z.to_nat idx := b']> t) e)).
Proof.
  intros Hwf Hg Ht Hidx Hb Hne Hk Hlen y Hx Hy Hsub.
  destruct (entries_set_ht d table t e (<[Z.to_nat idx := b']> t) x y
    (rest ++ concat (<[Z.to_nat idx := []]> t)) Hg) as (l & Hl & Hl').
  { by rewrite (concat_lookup t) by done; rewrite Hx, app_assoc. }
  { by rewrite concat_insert by done; rewrite Hy, app_assoc. }
  exists l. split; [rewrite Hg; by apply set_bucket_ht|]. split; [done|]. split; [done|].
  eapply wf_set_ht; [done..| | |].
  - apply table_ok_insert; [done|]. intros k v Hin.
    assert (k ∈ keys b) as [[k' v'] [-> Hin']]%list_elem_of_fmap.
    { apply Hk. apply list_elem_of_fmap. by exists (k, v). }
    destruct Ht as (_ & _ & Hp). by eapply Hp.
  - intros j _ _ Hj. rewrite list_lookup_insert_ne; [done|]. intros <-. congruence.
  - pose proof (entries_wf d Hwf) as Hes. apply (entries_ok_perm _ _ Hl) in Hes as [Hnd Hs].
    apply (entries_ok_perm (y ++ l)); [done|]. split.
    + rewrite fmap_app in *. eapply sublist_NoDup; [done|]. by apply sublist_app.
    + apply sublist_length in Hsub. len_lia.
Qed.

Lemma dictSetVal_spec d r k v val : dict_wf d → entry_at d r = Some (k, v) →
  ∃ d' l, dictSetVal d r val = Some d' ∧ dict_wf d' ∧
    entries d ≡ₚ (k, v) :: l ∧ entries d' ≡ₚ (k, val) :: l.
Proof.
  destruct r as [[table idx] pos]. intros Hwf Hr.
  destruct (entry_at_inv _ _ _ _ _ Hwf Hr) as (t&e&b&Hg&Ht&Hidx&Hb&Hbt&Hp).
  unfold dictSetVal. rewrite Hb. mstep. rewrite Hp. mstep.
  pose proof (take_drop_middle b pos (k, v) Hp) as Hsplit.
  apply lookup_lt_Some in Hp as Hlt.
  destruct (set_chain d table t e idx b (<[pos := (k, val)]> b) [(k, v)]
    (take pos b ++ drop (S pos) b) Hwf Hg Ht Hidx Hbt) with (y := [(k, val)])
    as (l & -> & Hl & Hl' & Hwf').
  - by intros ->.
  - rewrite <- Hsplit at 2. rewrite insert_take_drop by done. by rewrite !fmap_app.
  - len_lia.
  - rewrite <- Hsplit at 1. simpl. by rewrite Permutation_middle.
  - rewrite insert_take_drop by done. simpl. by rewrite Permutation_middle.
  - done.
  - mstep. eexists _, l. split; [|split; [exact Hwf'|done]]. do 2 f_equal. unfold mk_ht.
    f_equal. rewrite (length_concat_insert _ _ b) by done. len_lia.
Qed.

Lemma unlink_spec d table idx pos k v : dict_wf d →
  entry_at d (table, idx, pos) = Some (k, v) →
  ∃ b h l, get_bucket (get_ht d table) idx = Some b ∧ b !! pos = Some (k, v) ∧
    set_bucket (get_ht d table) idx (delete pos b) = Some h ∧
    dict_wf (set_ht d table (add_used h (-1))) ∧
    entries d ≡ₚ (k, v) :: l ∧ entries (set_ht d table (add_used h (-1))) ≡ₚ l.
Proof.
  intros Hwf Hr. destruct (entry_at_inv _ _ _ _ _ Hwf Hr) as (t&e&b&Hg&Htk&Hidx&Hb&Hbt&Hp).
  pose proof (take_drop_middle b pos (k, v) Hp) as Hsplit.
  apply lookup_lt_Some in Hp as Hlt. pose proof (length_delete b pos) as Hld.
  destruct (set_chain d table t e idx b (delete pos b) [(k, v)]
    (take pos b ++ drop (S pos) b) Hwf Hg Htk Hidx Hbt) with (y := @nil (K * V))
    as (l & Hs & Hl & Hl' & Hwf').
  - by intros ->.
  - rewrite <- Hsplit at 2. rewrite delete_take_drop, !fmap_app. simpl. set_solver.
  - rewrite Hld by (by eexists). lia.
  - rewrite <- Hsplit at 1. simpl. by rewrite Permutation_middle.
  - by rewrite delete_take_drop.
  - apply sublist_nil_l.
  - eexists b, _, l. split; [done|]. split; [done|]. split; [exact Hs|].
    assert (add_used (Ht (Some (<[Z.to_nat idx:=delete pos b]> t)) (len (concat t)) e) (-1) =
      mk_ht (<[Z.to_nat idx:=delete pos b]> t) e) as ->; [|done].
    pose proof (Permutation_length (concat_lookup _ _ _ Hbt)) as Hpl.
    pose proof (length_concat_insert _ _ b (delete pos b) Hbt) as Hli.
    rewrite Hld in Hli by (by eexists).
    pose proof (proj2 (entries_wf d Hwf)) as H60. apply Permutation_length in Hl, Hl'.
    assert (len (concat t) <= len (entries d)).
    { unfold entries, get_ht in *. destruct (table =? 0); rewrite Hg; unfold ht_entries at 1 2;
        simpl; len_lia. }
    simpl_len. apply add_used_mk; lia.
Qed.

(** ** Searching *)

Lemma find_in_chain_spec b key pos :
  match find_in_chain b key pos with
  | Some p => ∃ v, (pos <= p)%nat ∧ b !! (p - pos)%nat = Some (key, v)
  | None => key ∉ keys b
  end.
Proof.
  revert pos. induction b as [|[k v] b IH]; intros pos; simpl; [apply not_elem_of_nil|].
  destruct (keyCompare key k) eqn:E.
  - apply keyCompare_spec in E as <-. exists v. by rewrite Nat.sub_diag.
  - specialize (IH (S pos)). destruct (find_in_chain b key (S pos)) as [p|].
    + destruct IH as (v' & ? & Hp). exists v'. split; [lia|].
      by replace (p - pos)%nat with (S (p - S pos)) by lia.
    + apply not_elem_of_cons. split; [|done]. intros ->.
      rewrite (proj2 (keyCompare_spec k k)) in E; done.
Qed.

Lemma search_table_spec d table t e key :
  get_ht d table = mk_ht t e → table_ok t e →
  ∃ found, search_table d table (hashFunction key) key =
      Some (hashFunction key mod 2 ^ e, found) ∧
    match found with
    | Some pos => ∃ v, entry_at d (table, hashFunction key mod 2 ^ e, pos) = Some (key, v)
    | None => key ∉ keys (concat t)
    end.
Proof.
  intros Hg Ht. unfold search_table, entry_at. rewrite Hg.
  destruct (hash_bucket t e key Ht) as (b&Hb&Hbt&_). change (ht_size_exp _) with e.
  rewrite Hb, land_mask in * by apply Ht. mstep. eexists. split; [done|].
  pose proof (find_in_chain_spec b key 0) as Hf. destruct (find_in_chain b key 0) as [p|].
  - destruct Hf as (v & _ & Hv). rewrite Nat.sub_0_r in Hv. exists v.
    rewrite Hb. by mstep.
  - intros ([k v] & Hk & (b' & Hin & [i Hi]%list_elem_of_lookup)%elem_of_concat)%list_elem_of_fmap.
    simpl in Hk. subst k. destruct Ht as (_ & _ & Hp). pose proof (Hp _ _ _ _ Hi Hin) as Hh.
    rewrite Hh, Nat2Z.id in Hbt. simplify_eq. apply Hf, list_elem_of_fmap. by exists (key, v).
Qed.

(** The table new keys go to. *)
Definition insert_table (d : dict) : Z := if dictIsRehashing d then 1 else 0.

Lemma insert_table_wf d : dict_wf d → ht_table (ht0 d) ≠ None →
  ∃ t e, get_ht d (insert_table d) = mk_ht t e ∧ table_ok t e.
Proof.
  unfold insert_table, dictIsRehashing.
  destruct 1 as [p|t e p|t0 e0 t1 e1 i p ? ? [? _]]; cbn [rehashidx]; [done|by eauto|].
  intros _. case_if; cbn [get_ht Z.eqb ht1]; [|lia]. by eauto.
Qed.

Lemma search_tables_spec d key : dict_wf d → ht_table (ht0 d) ≠ None →
  ∃ idx found, search_tables d (hashFunction key) key = Some (idx, found) ∧
    match found with
    | Some r => ∃ v, entry_at d r = Some (key, v)
    | None => (key ∉ keys (entries d)) ∧
        idx = hashFunction key mod 2 ^ ht_size_exp (get_ht d (insert_table d))
    end.
Proof.
  intros Hwf Hn. unfold search_tables.
  destruct (get_ht_wf d 0 Hwf Hn) as (t & e & Hg & Ht).
  destruct (search_table_spec d 0 t e key Hg Ht) as (found & -> & Hf). mstep.
  destruct found as [pos|]; [eauto|].
  destruct Hwf as [p|u f p Hu Hue|t0 e0 t1 e1 i p Ht0 Ht1 Hi Hue]; [done|..].
  - unfold dictIsRehashing. cbn [rehashidx negb Z.eqb Pos.eqb]. eexists _, None.
    split; [done|]. injection Hg as <- _ <-. unfold entries, ht_entries. simpl.
    by rewrite app_nil_r.
  - unfold insert_table, dictIsRehashing. cbn [rehashidx].
    pose proof Hi as [? _]. rewrite (proj2 (Z.eqb_neq i (-1))) by lia. cbn [negb].
    destruct (search_table_spec (Dict (mk_ht t0 e0) (mk_ht t1 e1) i p) 1 t1 e1 key)
      as (found & -> & Hf1); [done..|]. mstep. eexists _, _. split; [done|].
    destruct found as [pos|]; [eauto|]. split; [|done]. injection Hg as <- _ <-.
    unfold entries, ht_entries. simpl. rewrite fmap_app. set_solver.
Qed.

Lemma wf_size_zero d : dict_wf d → (dictSize d =? 0) = bool_decide (entries d = []).
Proof.
  intros Hwf. pose proof (proj2 (entries_wf d Hwf)).
  assert (dictSize d = len (entries d)) as ->.
  { unfold dictSize. rewrite wrapu_small; destruct Hwf;
      unfold entries, ht_entries in *; simpl in *; simpl_len; lia. }
  case_bool_decide as Hn; [rewrite Hn; done|]. apply Z.eqb_neq.
  destruct (entries d); [done|]. simpl. lia.
Qed.

Lemma wf_nonnull d : dict_wf d → entries d ≠ [] → ht_table (ht0 d) ≠ None.
Proof. by destruct 1. Qed.

(** ** Growing *)

Lemma next_exp_loop_spec fuel size e :
  0 <= e <= 60 → 0 <= size <= 2 ^ 60 → (Z.to_nat (61 - e) <= fuel)%nat →
  ∃ e', next_exp_loop fuel size e = Some e' ∧ e <= e' <= 60 ∧ size <= 2 ^ e'.
Proof.
  revert e. induction fuel as [|fuel IH]; intros e He Hs Hf; [lia|].
  cbn [next_exp_loop]. rewrite Z.shiftl_1_l.
  pose proof (pow2_60 e He). rewrite wrapu_small by lia.
  case_if; [exists e; split_and!; [done|lia..]|]. assert (e ≠ 60) by (intros ->; lia).
  destruct (IH (e + 1)) as (e' & -> & ? & ?); [lia..|]. exists e'. split_and!; [done|lia..].
Qed.

Lemma dictNextExp_spec size : 0 <= size <= 2 ^ 60 →
  ∃ e, _dictNextExp size = Some e ∧ 2 <= e <= 60 ∧ size <= 2 ^ e.
Proof.
  intros Hs. unfold _dictNextExp, LONG_MAX_ul, DICT_HT_INITIAL_EXP. if_false.
  apply next_exp_loop_spec; lia.
Qed.

Lemma concat_replicate_nil n : concat (replicate n (@nil entry)) = [].
Proof. induction n; simpl; auto. Qed.

Lemma empty_table_ok e : 0 <= e <= 60 → table_ok (replicate (Z.to_nat (2 ^ e)) []) e.
Proof.
  intros He. pose proof (pow2_60 e He). split_and!; [lia..|len_lia|].
  intros i b k v [-> _]%lookup_replicate_1 Hin. by apply elem_of_nil in Hin.
Qed.

Lemma dictExpand_spec d size : dict_wf d → 0 <= size <= 2 ^ 60 →
  ∃ d' r, dictExpand d size = Some (d', r) ∧ dict_wf d' ∧ entries d' = entries d ∧
    pauserehash d' = pauserehash d ∧
    ((r = DICT_ERR ∧ d' = d) ∨ (r = DICT_OK ∧ ht_table (ht0 d') ≠ None)) ∧
    (dictIsRehashing d = false → ht_used (ht0 d) <= size →
     ht_table (ht0 d) = None ∨ 2 ^ ht_size_exp (ht0 d) < size → r = DICT_OK).
Proof.
  intros Hwf Hs. unfold dictExpand, _dictExpand. case_if.
  { mstep. exists d, DICT_ERR. split_and!; try done; [by left|]. destruct E; lia. }
  destruct (dictNextExp_spec size Hs) as (e & -> & He & Hse). mstep.
  rewrite Z.shiftl_1_l. pose proof (pow2_60 e ltac:(lia)).
  rewrite (wrapu_small 64 (2 ^ e)), wrapu_small by (unfold sizeof_ptr; lia).
  unfold sizeof_ptr. if_false. case_if.
  { mstep. exists d, DICT_ERR. split_and!; try done; [by left|]. intros _ _ [Hn|Hlt].
    - exfalso. destruct Hwf; simpl in *; [lia|done..].
    - exfalso. rewrite <- E in Hlt. lia. }
  rewrite bool_decide_eq_false_2 by done. cbn [ht_table].
  destruct Hwf as [p|t f p Htk Hes|t0 e0 t1 e1 i p Ht0 Ht1 [Hi _] Hes];
    unfold dictIsRehashing in *; cbn [rehashidx] in *; [| |lia]; simpl; eexists _, DICT_OK; (split; [done|]).
  - split; [|split_and!; try done; [|by right]].
    + unfold set_ht. simpl. replace (Ht _ 0 e) with (mk_ht (replicate (Z.to_nat (2 ^ e)) []) e).
      2:{ unfold mk_ht. by rewrite concat_replicate_nil. }
      constructor; [by apply empty_table_ok; lia|]. rewrite concat_replicate_nil.
      split; [constructor|simpl; lia].
    + unfold entries, ht_entries. simpl. by rewrite concat_replicate_nil.
  - split; [|split_and!; try done; [|by right]].
    + unfold set_ht, set_rehashidx. simpl.
      replace (Ht _ 0 e) with (mk_ht (replicate (Z.to_nat (2 ^ e)) []) e).
      2:{ unfold mk_ht. by rewrite concat_replicate_nil. }
      constructor; [done|by apply empty_table_ok; lia|split; [lia|intros; lia]|].
      by rewrite concat_replicate_nil, app_nil_r.
    + unfold entries, ht_entries. simpl. by rewrite concat_replicate_nil.
Qed.

Lemma dictTypeExpandAllowed_total d :
  0 <= ht_used (ht0 d) < 2 ^ 60 → ∃ b, dictTypeExpandAllowed d = Some b.
Proof.
  intros Hu. unfold dictTypeExpandAllowed. destruct expandAllowed as [f|]; [|eauto].
  destruct (dictNextExp_spec (u64 (ht_used (ht0 d) + 1))) as (e'&->&_);
    [rewrite wrapu_small; lia|]. mstep. eauto.
Qed.

Lemma dictExpandIfNeeded_spec d : dict_wf d → len (entries d) < 2 ^ 60 →
  ∃ d', _dictExpandIfNeeded d = Some (d', DICT_OK) ∧ dict_wf d' ∧
    entries d' = entries d ∧ pauserehash d' = pauserehash d ∧ ht_table (ht0 d') ≠ None.
Proof.
  intros Hwf Hlen. unfold _dictExpandIfNeeded. case_if.
  { exists d. split_and!; try done. unfold dictIsRehashing in E. by destruct Hwf. }
  assert (0 <= ht_used (ht0 d) < 2 ^ 60) as Hu.
  { destruct Hwf; unfold entries, ht_entries in Hlen; simpl in *; simpl_len; lia. }
  assert (∀ size, 0 <= size <= 2 ^ 60 → ht_used (ht0 d) <= size →
    ht_table (ht0 d) = None ∨ 2 ^ ht_size_exp (ht0 d) < size →
    ∃ d', dictExpand d size = Some (d', DICT_OK) ∧ dict_wf d' ∧
    entries d' = entries d ∧ pauserehash d' = pauserehash d ∧ ht_table (ht0 d') ≠ None)
    as Hexp.
  { intros size Hs Hus Hgrow.
    destruct (dictExpand_spec d size Hwf Hs) as (d'&r&->&?&?&?&Hr&Hok).
    rewrite Hok in * by done. exists d'. split_and!; try done.
    by destruct Hr as [[? _]|[_ ?]]. }
  destruct Hwf as [p|t e p Ht Hes|t0 e0 t1 e1 i p Ht0 Ht1 [Hi _] Hes];
    [| |unfold dictIsRehashing in E; simpl in E; lia].
  { change (DICTHT_SIZE _ =? 0) with true. cbv beta iota zeta.
    apply Hexp; [vm_compute; split; congruence|vm_compute; congruence|by left]. }
  assert (dict_wf (Dict (mk_ht t e) reset_ht (-1) p)) by by constructor.
  cbn [ht0 ht_size_exp ht_used mk_ht] in *. pose proof (proj1 Ht) as He.
  pose proof (pow2_60 e He). rewrite DICTHT_SIZE_pow by done. if_false. case_if; [|by eexists].
  destruct (dictTypeExpandAllowed_total (Dict (mk_ht t e) reset_ht (-1) p) Hu) as [[] ->];
    mstep; [|by eexists]. rewrite wrapu_small by lia. apply Hexp; lia.
Qed.

(** ** Adding *)

(** [dictAddRaw]: either the key is there and nothing is added, or an entry
    with it is. *)
Lemma dictAddRaw_spec junk d key : dict_wf d → len (entries d) < 2 ^ 60 →
  ∃ d' added existing, dictAddRaw junk d key = Some (d', added, existing) ∧
    dict_wf d' ∧ pauserehash d' = pauserehash d ∧
    match added, existing with
    | None, Some r => ∃ v, entry_at d' r = Some (key, v) ∧ entries d' ≡ₚ entries d
    | Some r, None =>
        (key ∉ keys (entries d)) ∧ entry_at d' r = Some (key, junk) ∧
        entries d' ≡ₚ (key, junk) :: entries d
    | _, _ => False
    end.
Proof.
  intros Hwf Hlen. unfold dictAddRaw.
  destruct (rehash_step_if_spec d Hwf) as (d1&->&Hwf1&Hp1&Hpa1). mstep.
  destruct (dictExpandIfNeeded_spec d1 Hwf1) as (d2&Hx&Hwf2&He2&Hpa2&Hn2).
  { apply Permutation_length in Hp1. lia. }
  unfold _dictKeyIndex. rewrite Hx. mstep. cbn [Z.eqb DICT_OK DICT_ERR].
  destruct (search_tables_spec d2 key Hwf2 Hn2) as (idx&found&->&Hf). mstep.
  destruct found as [r|]; mstep.
  { destruct Hf as (v & Hv). eexists _, None, (Some r). split_and!; try done; [congruence|].
    exists v. rewrite He2. done. }
  destruct Hf as [Hnot ->].
  destruct (insert_table_wf d2 Hwf2 Hn2) as (t & e & Hg & Ht).
  destruct (bucket_exists t e (hashFunction key) Ht) as [Hr [b Hb]].
  change (if dictIsRehashing d2 then 1 else 0) with (insert_table d2).
  rewrite Hg. change (ht_size_exp (mk_ht t e)) with e. if_false.
  rewrite (get_bucket_mk _ _ _ _ Hb) by lia. mstep.
  unfold mk_ht. rewrite set_bucket_ht by done. mstep.
  destruct (push_entry t e key junk b Ht Hb) as [Ht' Hp'].
  set (t' := <[_ := _]> t) in *.
  destruct (entries_set_ht d2 (insert_table d2) t e t' [] [(key, junk)] (concat t) Hg)
    as (l & Hl & Hl'); [done|done|]. rewrite app_nil_l in Hl.
  assert (len (concat t) <= len (entries d2)).
  { clear -Hg. unfold entries, get_ht in *. destruct (_ =? 0); rewrite Hg;
      unfold ht_entries at 1 2; simpl; len_lia. }
  rewrite He2 in *. apply Permutation_length in Hp1 as Hpl, Hp' as Hpl'. simpl in Hpl'.
  rewrite add_used_mk by lia.
  assert (entries (set_ht d2 (insert_table d2) (mk_ht t' e)) ≡ₚ (key, junk) :: entries d1)
    as Hperm by by rewrite Hl', Hl.
  eexists _, (Some _), None. split; [done|]. split_and!.
  - eapply wf_set_ht; [done|done|done| |].
    + intros j Hj Ht0 Hjn. exfalso. unfold insert_table, dictIsRehashing in Ht0.
      destruct Hwf2 as [| |? ? ? ? i ? ? ? [? _]]; simpl in *; [lia|lia|].
      destruct (Z.eqb_spec i (-1)); simpl in *; lia.
    + apply (entries_ok_perm _ _ (symmetry Hperm)). split; [|simpl; lia].
      simpl. constructor; [done|]. by apply entries_wf.
  - unfold set_ht. case_if; simpl; congruence.
  - by rewrite <- Hp1.
  - unfold entry_at. 
    assert (get_ht (set_ht d2 (insert_table d2) (mk_ht t' e)) (insert_table d2) = mk_ht t' e) as ->.
    { unfold get_ht, set_ht. by case_if. }
    rewrite (get_bucket_mk _ _ _ ((key, junk) :: b)); [done| |lia].
    unfold t'. by rewrite list_lookup_insert_eq by lia.
  - by rewrite Hperm, Hp1.
Qed.

End dict.

(** ** The dict implements a finite map *)

Section correct.
Context `{DictType K} {V : Type} `{DictGlobals}.
Implicit Types (d : dict (K:=K) (V:=V)).

Lemma not_in_map d k : dict_wf d → k ∉ (entries d).*1 ↔ dict_map d !! k = None.
Proof. intros. apply not_elem_of_list_to_map. Qed.

Lemma size_dict_map d : dict_wf d → size (dict_map d) = length (entries d).
Proof.
  intros Hwf. unfold dict_map. rewrite map_size_list_to_map; [done|].
  by apply entries_wf.
Qed.

(** C26: rehashing is invisible: any number of steps of [dictRehash] on a well
    formed dict runs without an out-of-bounds access or a failed assertion and
    keeps the map; it returns 0 exactly when the dict is no longer rehashing,
    and otherwise the index of the next bucket to move has grown, so that
    repeated calls end. *)
Theorem dictRehash_correct d n : dict_wf d →
  ∃ d' r, dictRehash d n = Some (d', r) ∧ dict_wf d' ∧ dict_map d' = dict_map d ∧
    (r = 0 ↔ dictIsRehashing d' = false) ∧
    (r ≠ 0 → (0 < n)%nat →
     rehashidx d < rehashidx d' <= DICTHT_SIZE (ht_size_exp (ht0 d')) ∧
     ht_size_exp (ht0 d') = ht_size_exp (ht0 d)).
Proof.
  intros Hwf. destruct (dictRehash_spec d n Hwf) as (d'&r&Hr&Hwf'&Hp&_&Hr0&Hprog).
  exists d', r. split_and!; [done|done|..].
  - apply dict_map_perm; [done|]. by rewrite Hp.
  - unfold dictIsRehashing. rewrite Hr0. lia.
  - intros Hne Hn. destruct (Hprog Hne Hn) as [He Hlt]. split_and!; [done| |done].
    destruct Hwf' as [| |? ? ? ? i ? (?&Hl&_) ? [? _]]; simpl in *; [lia|lia|].
    rewrite DICTHT_SIZE_pow by done. lia.
Qed.

Lemma dictAdd_map junk d key val :
  dict_wf d → Z.of_nat (size (dict_map d)) < 2 ^ 60 →
  ∃ d' r, dictAdd junk d key val = Some (d', r) ∧ dict_wf d' ∧
    match dict_map d !! key with
    | None => r = DICT_OK ∧ dict_map d' = <[key := val]> (dict_map d)
    | Some _ => r = DICT_ERR ∧ dict_map d' = dict_map d
    end.
Proof.
  intros Hwf Hlen. rewrite size_dict_map in Hlen by done. unfold dictAdd.
  destruct (dictAddRaw_spec junk d key Hwf Hlen) as (d1&a&x&->&Hwf1&_&Hm). mstep.
  destruct a as [r|], x as [r'|]; try done.
  - destruct Hm as (Hnot & Hr & Hp).
    destruct (dictSetVal_spec d1 r key junk val Hwf1 Hr) as (d2&l&->&Hwf2&Hp1&Hp2). mstep.
    eexists d2, _. split; [done|]. split; [done|].
    rewrite (proj1 (not_in_map d key Hwf) Hnot). split; [done|].
    rewrite (dict_map_perm d2 ((key, val) :: entries d)); [done..|].
    rewrite Hp in Hp1. apply (inj (cons _)) in Hp1. by rewrite Hp2, Hp1.
  - destruct Hm as (v & Hr & Hp). eexists d1, _. split; [done|]. split; [done|].
    destruct (dictSetVal_spec d1 r' key v val Hwf1 Hr) as (d2&l&_&_&Hp1&_).
    rewrite Hp in Hp1. destruct (dict_map_cons d key v l Hwf Hp1) as [Hd _].
    rewrite Hd, lookup_insert_eq. split; [done|]. rewrite <- Hd.
    apply dict_map_perm; [done|]. by rewrite Hp.
Qed.

(** C5: [dictAdd] on a well formed dict adds the binding and returns
    [DICT_OK] when the key is absent, and otherwise leaves the map alone and
    returns [DICT_ERR], whether or not the dict is being rehashed or must
    grow. *)
Theorem dictAdd_correct junk d key val :
  dict_wf d → Z.of_nat (size (dict_map d)) < 2 ^ 60 →
  ∃ d' r, dictAdd junk d key val = Some (d', r) ∧ dict_wf d' ∧
    match dict_map d !! key with
    | None => r = DICT_OK ∧ dict_map d' = <[key := val]> (dict_map d)
    | Some _ => r = DICT_ERR ∧ dict_map d' = dict_map d
    end.
Proof. apply dictAdd_map. Qed.

(** [dictReplace] binds the key to the value, and returns 1 when the key
    is new and 0 when a value was replaced. *)
Theorem dictReplace_correct junk d key val :
  dict_wf d → Z.of_nat (size (dict_map d)) < 2 ^ 60 →
  ∃ d' r, dictReplace junk d key val = Some (d', r) ∧ dict_wf d' ∧
    dict_map d' = <[key := val]> (dict_map d) ∧
    r = match dict_map d !! key with Some _ => 0 | None => 1 end.
Proof.
  intros Hwf Hlen. rewrite size_dict_map in Hlen by done. unfold dictReplace.
  destruct (dictAddRaw_spec junk d key Hwf Hlen) as (d1&a&x&->&Hwf1&_&Hm). mstep.
  destruct a as [r|], x as [r'|]; try done.
  - destruct Hm as (Hnot & Hr & Hp).
    destruct (dictSetVal_spec d1 r key junk val Hwf1 Hr) as (d2&l&->&Hwf2&Hp1&Hp2). mstep.
    eexists d2, _. split; [done|]. split; [done|].
    rewrite (proj1 (not_in_map d key Hwf) Hnot). split; [|done].
    rewrite (dict_map_perm d2 ((key, val) :: entries d)); [done..|].
    rewrite Hp in Hp1. apply (inj (cons _)) in Hp1. by rewrite Hp2, Hp1.
  - destruct Hm as (v & Hr & Hp). mstep.
    destruct (dictSetVal_spec d1 r' key v val Hwf1 Hr) as (d2&l&->&Hwf2&Hp1&Hp2). mstep.
    eexists d2, _. split; [done|]. split; [done|].
    rewrite Hp in Hp1. destruct (dict_map_cons d key v l Hwf Hp1) as [Hd _].
    destruct (dict_map_cons d2 key val l Hwf2 Hp2) as [Hd2 _].
    rewrite Hd, Hd2, lookup_insert_eq, insert_insert_eq. done.
Qed.

(** What every search starts with: an empty dict has no entry; otherwise one
    step of rehashing and a table to search. *)
Lemma search_start d : dict_wf d → entries d ≠ [] →
  ∃ d', rehash_step_if d = Some d' ∧ dict_wf d' ∧ entries d' ≡ₚ entries d ∧
    ht_table (ht0 d') ≠ None.
Proof.
  intros Hwf Hne. destruct (rehash_step_if_spec d Hwf) as (d'&->&Hwf'&Hp&_).
  exists d'. split_and!; try done. apply wf_nonnull; [done|]. intros He.
  rewrite He in Hp. by apply Permutation_nil_l in Hp.
Qed.

Lemma dictFetchValue_map d key : dict_wf d →
  ∃ d', dictFetchValue d key = Some (d', dict_map d !! key) ∧ dict_wf d' ∧
    dict_map d' = dict_map d.
Proof.
  intros Hwf. unfold dictFetchValue, dictFind. rewrite wf_size_zero by done.
  case_bool_decide as He.
  { mstep. exists d. unfold dict_map. by rewrite He. }
  destruct (search_start d Hwf He) as (d1&->&Hwf1&Hp&Hn). mstep.
  destruct (search_tables_spec d1 key Hwf1 Hn) as (idx&found&->&Hf). mstep.
  assert (dict_map d1 = dict_map d) as Hm by (apply dict_map_perm; [done|by rewrite Hp]).
  destruct found as [r|].
  - destruct Hf as (v & Hv). rewrite Hv. mstep. exists d1. split; [|done].
    destruct (dictSetVal_spec d1 r key v v Hwf1 Hv) as (_&l&_&_&Hp1&_).
    destruct (dict_map_cons d1 key v l Hwf1 Hp1) as [Hd _].
    by rewrite <- Hm, Hd, lookup_insert_eq.
  - destruct Hf as [Hnot _]. exists d1. split; [|done].
    apply (not_in_map d1) in Hnot; [|done]. by rewrite <- Hm, Hnot.
Qed.

(** [dictFetchValue] returns what the map has for the key, and the step
    of rehashing it does on the way keeps the map. *)
Theorem dictFetchValue_correct d key : dict_wf d →
  ∃ d', dictFetchValue d key = Some (d', dict_map d !! key) ∧ dict_wf d' ∧
    dict_map d' = dict_map d.
Proof. apply dictFetchValue_map. Qed.

Lemma dictDelete_map d key : dict_wf d →
  ∃ d' r, dictDelete d key = Some (d', r) ∧ dict_wf d' ∧
    dict_map d' = delete key (dict_map d) ∧
    r = match dict_map d !! key with Some _ => DICT_OK | None => DICT_ERR end.
Proof.
  intros Hwf. unfold dictDelete, dictGenericDelete. rewrite wf_size_zero by done.
  case_bool_decide as He.
  { mstep. exists d, DICT_ERR. unfold dict_map. rewrite He. simpl.
    by rewrite delete_empty. }
  destruct (search_start d Hwf He) as (d1&->&Hwf1&Hp&Hn). mstep.
  destruct (search_tables_spec d1 key Hwf1 Hn) as (idx&found&->&Hf). mstep.
  assert (dict_map d1 = dict_map d) as Hm by (apply dict_map_perm; [done|by rewrite Hp]).
  destruct found as [[[table idx'] pos]|].
  - destruct Hf as (v & Hv).
    destruct (unlink_spec d1 table idx' pos key v Hwf1 Hv) as (b&h&l&->&Hb&Hs&Hwf2&Hp1&Hp2).
    mstep. rewrite Hb. mstep. rewrite Hs. mstep. eexists _, _. split; [done|]. split; [done|].
    destruct (dict_map_cons d1 key v l Hwf1 Hp1) as [Hd Hl].
    rewrite (dict_map_perm _ _ Hwf2 Hp2), <- Hm, Hd, lookup_insert_eq.
    by rewrite delete_insert_id.
  - destruct Hf as [Hnot _]. eexists d1, _. split; [done|]. split; [done|].
    apply (not_in_map d1) in Hnot; [|done]. rewrite Hm in Hnot |- *.
    by rewrite delete_id, Hnot.
Qed.

(** [dictDelete] removes the binding of the key and says whether there
    was one. *)
Theorem dictDelete_correct d key : dict_wf d →
  ∃ d' r, dictDelete d key = Some (d', r) ∧ dict_wf d' ∧
    dict_map d' = delete key (dict_map d) ∧
    r = match dict_map d !! key with Some _ => DICT_OK | None => DICT_ERR end.
Proof. apply dictDelete_map. Qed.

(** [dictResize], which shrinks or grows the table to the number of
    elements, keeps the map, and a dict that is rehashing is left alone. *)
Theorem dictResize_correct d : dict_wf d →
  ∃ d' r, dictResize d = Some (d', r) ∧ dict_wf d' ∧ dict_map d' = dict_map d ∧
    (dictIsRehashing d = true → d' = d ∧ r = DICT_ERR).
Proof.
  intros Hwf. unfold dictResize. case_if.
  { by exists d, DICT_ERR. }
  assert (0 <= ht_used (ht0 d) <= 2 ^ 60) as Hu.
  { pose proof (proj2 (entries_wf d Hwf)) as Hl.
    destruct Hwf; unfold entries, ht_entries in Hl; simpl in *; simpl_len; lia. }
  set (m := if _ : bool then _ else _).
  assert (0 <= m <= 2 ^ 60) as Hm.
  { unfold m. case_if; [vm_compute; split; congruence|done]. }
  destruct (dictExpand_spec d m Hwf Hm) as (d'&r&->&Hwf'&He&_).
  exists d', r. split_and!; [done..| |congruence]. unfold dict_map. by rewrite He.
Qed.

Lemma clear_loop_spec (t : list (list (K * V))) e u i n :
  (i + n = length t)%nat → u = len (concat (drop i t)) → u < 2 ^ 64 →
  clear_loop n (Ht (Some t) u e) (Z.of_nat i) = Some (concat (drop i t)).
Proof.
  revert i u. induction n as [|n IH]; intros i u Hn Hu H64.
  { by rewrite drop_ge by lia. }
  cbn [clear_loop ht_used]. destruct (lookup_lt_is_Some_2 t i) as [b Hb]; [lia|].
  rewrite (drop_S _ _ _ Hb) in Hu |- *. cbn [concat] in *. simpl_len. case_if.
  - unfold get_bucket. cbn [ht_table]. mstep. if_true. rewrite Nat2Z.id, Hb. mstep.
    unfold add_used. cbn [ht_table ht_used ht_size_exp].
    replace (Z.of_nat i + 1) with (Z.of_nat (S i)) by lia.
    rewrite IH; [done|lia|rewrite wrapu_small; lia|].
    apply wrapu_range. lia.
  - f_equal. symmetry. apply nil_length_inv. len_lia.
Qed.

Lemma clear_mk (t : list (list (K * V))) e : table_ok t e → len (concat t) < 2 ^ 64 →
  clear_loop (Z.to_nat (DICTHT_SIZE e)) (mk_ht t e) 0 = Some (concat t).
Proof.
  intros (He & Hl & _) ?. rewrite DICTHT_SIZE_pow by done. rewrite <- Hl, Nat2Z.id.
  by apply (clear_loop_spec t e _ 0).
Qed.

Lemma dictClear_spec d htidx t e : get_ht d htidx = mk_ht t e → table_ok t e →
  len (concat t) < 2 ^ 64 → _dictClear d htidx = Some (_dictReset d htidx, concat t).
Proof.
  intros Hg Ht Hl. unfold _dictClear. rewrite Hg. change (ht_size_exp _) with e.
  by rewrite clear_mk.
Qed.

(** [dictEmpty] frees every entry of the dict once and leaves a dict as
    [dictCreate] makes it. *)
Theorem dictEmpty_correct d : dict_wf d →
  dictEmpty d = Some (dictCreate, entries d).
Proof.
  intros Hwf. unfold dictEmpty.
  destruct Hwf as [p|t e p Ht [_ Hes]|t0 e0 t1 e1 i p Ht0 Ht1 Hi [_ Hes]]; [done|..].
  - rewrite (dictClear_spec _ 0 t e) by (done || lia). done.
  - simpl_len. rewrite (dictClear_spec _ 0 t0 e0) by (done || lia). mstep.
    by rewrite (dictClear_spec _ 1 t1 e1) by (done || lia).
Qed.

(** Calls to [dictRehash] until it is done or the clock says stop. *)
Lemma rehash_ms_loop_spec fuel clock i ms d rehashes : dict_wf d →
  (Z.to_nat (DICTHT_SIZE (ht_size_exp (ht0 d)) - rehashidx d) < fuel)%nat →
  ∃ d' r, rehash_ms_loop fuel clock i ms d rehashes = Some (d', r) ∧ dict_wf d' ∧
    dict_map d' = dict_map d ∧
    ((∀ i, clock i - clock 0%nat <= ms) → dictIsRehashing d' = false).
Proof.
  revert i d rehashes. induction fuel as [|fuel IH]; intros i d rehashes Hwf Hf; [lia|].
  cbn [rehash_ms_loop].
  destruct (dictRehash_spec d 100 Hwf) as (d1&r&->&Hwf1&Hp&_&Hr&Hprog). mstep.
  assert (dict_map d1 = dict_map d) as Hm by (apply dict_map_perm; [done|by rewrite Hp]).
  case_if.
  { eexists d1, _. split_and!; [done..|]. intros _. unfold dictIsRehashing.
    rewrite (proj1 Hr) by done. done. }
  destruct (Hprog E) as [He Hlt]; [lia|]. case_if.
  { eexists d1, _. split_and!; [done..|]. intros Hc. specialize (Hc i). lia. }
  destruct (IH (S i) d1 (s32 (rehashes + 100)) Hwf1) as (d2&r2&->&?&?&?).
  { assert (rehashidx d1 <= DICTHT_SIZE (ht_size_exp (ht0 d1))); [|rewrite He in *; lia].
    destruct Hwf1 as [| |? ? ? ? j ? (?&Hl&_) ? [? _]]; simpl in *; [done|lia|].
    rewrite DICTHT_SIZE_pow by done. lia. }
  eexists d2, _. split_and!; [done..|congruence|done].
Qed.

(** [dictRehashMilliseconds] ends, whatever the clock shows, with the same
    map; when the clock never passes [ms] and rehashing is not paused, the
    dict is completely rehashed. *)
Theorem dictRehashMilliseconds_correct clock d ms : dict_wf d →
  ∃ d' r, dictRehashMilliseconds clock d ms = Some (d', r) ∧ dict_wf d' ∧
    dict_map d' = dict_map d ∧
    (pauserehash d = 0 → (∀ i, clock i - clock 0%nat <= ms) →
     dictIsRehashing d' = false).
Proof.
  intros Hwf. unfold dictRehashMilliseconds.
  case_if; [exists d, 0; split_and!; try done; lia|].
  edestruct rehash_ms_loop_spec as (d'&r&->&?&?&Hc); [exact Hwf| |by exists d', r; auto].
  destruct Hwf as [| |? ? ? ? ? ? ? ? [? _]]; cbn [rehashidx]; lia.
Qed.

End correct.

(** ** A dict in the middle of rehashing *)

Section example.

#[local] Instance example_type : DictType Z.
Proof.
  refine {| hashFunction := λ k, k mod 2 ^ 64; keyCompare := Z.eqb; expandAllowed := None |}.
  - intros k. apply Z.mod_pos_bound. lia.
  - intros a b. apply Z.eqb_eq.
Defined.
#[local] Existing Instance dictEnableResize.

Definition example_t0 : list (list (Z * Z)) := [[]; [(1, 10)]; [(2, 20)]; []].
Definition example_t1 : list (list (Z * Z)) := [[(8, 80)]; []; []; []; []; []; []; []].
Definition example_dict : dict := Dict (mk_ht example_t0 2) (mk_ht example_t1 3) 1 0.

Lemma example_wf : dict_wf example_dict.
Proof.
  constructor.
  - split_and!; [lia..|done|]. intros i b k v Hi Hin.
    do 5 (destruct i as [|i]; [simplify_eq/=; set_solver|]). done.
  - split_and!; [lia..|done|]. intros i b k v Hi Hin.
    do 9 (destruct i as [|i]; [simplify_eq/=; set_solver|]). done.
  - split; [simpl; lia|]. intros [|j] Hj; [done|lia].
  - split; [|simpl; lia]. simpl. repeat (constructor; [set_solver|]). constructor.
Qed.

Lemma dictRehash_correct_witness : ∃ d' r,
  dict_wf example_dict ∧ dictRehash example_dict 1 = Some (d', r) ∧
  dict_map d' = dict_map example_dict.
Proof.
  destruct (dictRehash_correct example_dict 1 example_wf) as (d'&r&?&?&?&?).
  exists d', r. split_and!; [exact example_wf|assumption..].
Defined.

Lemma dictAdd_correct_witness : ∃ d',
  dict_wf example_dict ∧ dictAdd 0 example_dict 9 90 = Some (d', DICT_OK) ∧
  dict_map d' = <[9 := 90]> (dict_map example_dict).
Proof.
  destruct (dictAdd_correct 0 example_dict 9 90 example_wf) as (d'&r&Ha&?&Hm);
    [vm_compute; reflexivity|].
  change (dict_map example_dict !! 9) with (@None Z) in Hm. destruct Hm as [-> Hm].
  exists d'. split_and!; [exact example_wf|assumption..].
Defined.

Lemma dictReplace_correct_witness : ∃ d',
  dict_wf example_dict ∧ dictReplace 0 example_dict 2 21 = Some (d', 0) ∧
  dict_map d' = <[2 := 21]> (dict_map example_dict).
Proof.
  destruct (dictReplace_correct 0 example_dict 2 21 example_wf) as (d'&r&Ha&?&Hm&Hr);
    [vm_compute; reflexivity|]. vm_compute in Hr. subst r.
  exists d'. split_and!; [exact example_wf|assumption..].
Defined.

Lemma dictFetchValue_correct_witness : ∃ d',
  dict_wf example_dict ∧ dictFetchValue example_dict 8 = Some (d', Some 80).
Proof.
  destruct (dictFetchValue_correct example_dict 8 example_wf) as (d'&Ha&_).
  exists d'. split; [exact example_wf|exact Ha].
Defined.

Lemma dictDelete_correct_witness : ∃ d',
  dict_wf example_dict ∧ dictDelete example_dict 2 = Some (d', DICT_OK) ∧
  dict_map d' = delete 2 (dict_map example_dict).
Proof.
  destruct (dictDelete_correct example_dict 2 example_wf) as (d'&r&Ha&?&Hm&Hr).
  vm_compute in Hr. subst r. exists d'. split_and!; [exact example_wf|assumption..].
Defined.

Lemma dictResize_correct_witness : ∃ d' r,
  dict_wf example_dict ∧ dictResize example_dict = Some (d', r) ∧
  dict_map d' = dict_map example_dict.
Proof.
  destruct (dictResize_correct example_dict example_wf) as (d'&r&Ha&?&Hm&_).
  exists d', r. split_and!; [exact example_wf|assumption..].
Defined.

Lemma dictEmpty_correct_witness :
  dict_wf example_dict ∧ dictEmpty example_dict = Some (dictCreate, entries example_dict).
Proof. split; [exact example_wf|exact (dictEmpty_correct example_dict example_wf)]. Defined.

Lemma dictRehashMilliseconds_correct_witness : ∃ d' r,
  dict_wf example_dict ∧
  dictRehashMilliseconds (λ i, Z.of_nat i) example_dict 10 = Some (d', r) ∧
  dict_map d' = dict_map example_dict.
Proof.
  destruct (dictRehashMilliseconds_correct (λ i, Z.of_nat i) example_dict 10 example_wf)
    as (d'&r&Ha&?&Hm&_). exists d', r. split_and!; [exact example_wf|assumption..].
Defined.

End example.
