(* ===== verification/DictScan.v ===== *)
(** Scanning the hash table: [rev] and [dictScan] of src/redis-7.0.0/src/dict.c.

    The cursor of a scan is incremented from its highest bit down, on the
    bits the mask of the table covers.  Seen through [rev], which reverses its
    64 bits, it only grows: the theorem [dictScan_complete] says that a scan
    returns every key that stays in the dict from its beginning to its end,
    even when the dict is rehashed, grows or shrinks between the calls, and
    [dictScan_terminates] that the scan ends. *)
From S2P Require Import Prelude Bits Dict.
Local Open Scope Z_scope.

(** [while ((s >>= 1) > 0)]; [s] is 64 at first, so seven tests are enough. *)
Fixpoint rev_loop (fuel : nat) (v s mask : Z) : option Z :=
  match fuel with
  | O => None
  | S fuel =>
    let s := Z.shiftr s 1 in
    if s >? 0 then
      let mask := Z.lxor mask (u64 (Z.shiftl mask s)) in
      let v := Z.lor (Z.land (Z.shiftr v s) mask)
                 (Z.land (u64 (Z.shiftl v s)) (u64 (Z.lnot mask))) in
      rev_loop fuel v s mask
    else Some v
  end.

Definition rev (v : Z) : option Z := rev_loop 7 v 64 (u64 (Z.lnot 0)).

(** [v |= ~m; v = rev(v); v++; v = rev(v);] *)
Definition increment_cursor (v m : Z) : option Z :=
  let v := Z.lor v (u64 (Z.lnot m)) in
  v ← rev v;
  let v := u64 (v + 1) in
  rev v.

Section scan.
Context `{DictType K} {V : Type}.
Implicit Types (d : dict (K:=K) (V:=V)).

(** The [do ... while (v & (m0 ^ m1))] loop over the larger table. *)
Fixpoint scan_expansions (fuel : nat) (h1 : ht (K:=K) (V:=V)) (m0 m1 v : Z) :
    option (list (K * V) * Z) :=
  match fuel with
  | O => None
  | S fuel =>
    de ← get_bucket h1 (Z.land v m1);
    v ← increment_cursor v m1;
    if negb (Z.land v (Z.lxor m0 m1) =? 0) then
      '(des, v) ← scan_expansions fuel h1 m0 m1 v;
      Some (de ++ des, v)
    else Some (de, v)
  end.

(** The entries [fn] is called with, in order, and the new cursor; [fn] and
    [bucketfn] do not change the dict. *)
Definition dictScan d (v : Z) : option (dict (K:=K) (V:=V) * list (K * V) * Z) :=
  if dictSize d =? 0 then Some (d, [], 0)
  else
    let d := dictPauseRehashing d in
    '(emitted, v) ←
      (if negb (dictIsRehashing d) then
         let m0 := DICTHT_SIZE_MASK (ht_size_exp (ht0 d)) in
         de ← get_bucket (ht0 d) (Z.land v m0);
         v ← increment_cursor v m0;
         Some (de, v)
       else
         let swap := DICTHT_SIZE (ht_size_exp (ht0 d)) >? DICTHT_SIZE (ht_size_exp (ht1 d)) in
         let small := if swap then ht1 d else ht0 d in
         let large := if swap then ht0 d else ht1 d in
         let m0 := DICTHT_SIZE_MASK (ht_size_exp small) in
         let m1 := DICTHT_SIZE_MASK (ht_size_exp large) in
         de ← get_bucket small (Z.land v m0);
         '(des, v) ← scan_expansions (S (Z.to_nat m1)) large m0 m1 v;
         Some (de ++ des, v));
    Some (dictResumeRehashing d, emitted, v).

(** A complete scan: the caller starts with cursor [v] and calls again with
    the cursor it got until that is 0; [ds] are the states of the dict at the
    successive calls.  [None] when the states run out before the scan ends. *)
Fixpoint scan_all (ds : list (dict (K:=K) (V:=V))) (v : Z) : option (list (K * V)) :=
  match ds with
  | [] => None
  | d :: ds =>
    '(_, es, v) ← dictScan d v;
    if v =? 0 then Some es else (es ++.) <$> scan_all ds v
  end.

End scan.

(** ** Reversing bits *)

(** The assignment to [v] in one turn of the loop, for [s = 2 ^ j]. *)
Definition rev_turn (j mask v : Z) : Z :=
  Z.lor (Z.land (Z.shiftr v (2 ^ j)) mask)
    (Z.land (u64 (Z.shiftl v (2 ^ j))) (u64 (Z.lnot mask))).

Lemma lxor_pow2 i j : 0 <= j < 6 → 0 <= i < 64 →
  Z.lxor i (2 ^ j) = if Z.testbit i j then i - 2 ^ j else i + 2 ^ j.
Proof.
  intros Hj Hi. apply Z.eqb_eq. revert i Hi. apply (forall_below _ 64).
  revert j Hj. apply (forall_below _ 6). vm_compute. reflexivity.
Qed.

(** It swaps the groups of [2 ^ j] bits that differ in bit [j] of their
    position. *)
Lemma testbit_rev_turn j mask v i : 0 <= j < 6 → 0 <= i < 64 →
  Z.testbit mask i = negb (Z.testbit i j) →
  Z.testbit (rev_turn j mask v) i = Z.testbit v (Z.lxor i (2 ^ j)).
Proof.
  intros Hj Hi Hm. unfold rev_turn.
  rewrite Z.lor_spec, !Z.land_spec, !testbit_wrapu, Z.lnot_spec, Hm, Z.shiftr_spec,
    Z.shiftl_spec, negb_involutive, lxor_pow2 by lia.
  rewrite (proj2 (Z.ltb_lt i 64)) by lia. simpl (true && _).
  by destruct (Z.testbit i j); rewrite ?andb_false_r, ?andb_true_r, ?orb_false_r.
Qed.

Lemma rev_turn_range j mask v : 0 <= mask < 2 ^ 64 → 0 <= rev_turn j mask v < 2 ^ 64.
Proof.
  intros Hm. unfold rev_turn. apply bits_below; [|lia|].
  - apply Z.lor_nonneg. rewrite !Z.land_nonneg.
    pose proof (wrapu_range 64 (Z.lnot mask)). lia.
  - intros i Hi. rewrite Z.lor_spec, !Z.land_spec, !testbit_wrapu by lia.
    rewrite (bits_above 64 mask) by lia. rewrite (proj2 (Z.ltb_ge i 64)) by lia.
    by rewrite andb_false_r.
Qed.

Definition reversed (v : Z) : Z :=
  rev_turn 0 0x5555555555555555 (rev_turn 1 0x3333333333333333
    (rev_turn 2 0x0f0f0f0f0f0f0f0f (rev_turn 3 0x00ff00ff00ff00ff
      (rev_turn 4 0x0000ffff0000ffff (rev_turn 5 0x00000000ffffffff v))))).

Lemma rev_reversed v : rev v = Some (reversed v).
Proof. reflexivity. Qed.

Lemma reversed_range v : 0 <= reversed v < 2 ^ 64.
Proof. apply rev_turn_range. lia. Qed.

Lemma mask_bits j mask : 0 <= j →
  forallb (λ i, eqb (Z.testbit mask (Z.of_nat i)) (negb (Z.testbit (Z.of_nat i) j)))
    (seq 0 64) = true →
  ∀ i, 0 <= i < 64 → Z.testbit mask i = negb (Z.testbit i j).
Proof.
  intros Hj Hf i Hi. apply eqb_prop. revert i Hi. apply (forall_below _ 64). done.
Qed.

(** [rev] reverses the 64 bits. *)
Lemma testbit_reversed v i : 0 <= i < 64 → Z.testbit (reversed v) i = Z.testbit v (63 - i).
Proof.
  intros Hi. unfold reversed.
  assert (∀ j k, 0 <= j < 6 → 0 <= k < 64 → 0 <= Z.lxor k (2 ^ j) < 64) as Hr.
  { intros j k Hj Hk. apply (lxor_range 6); [lia|]. split; [lia|].
    apply Z.pow_lt_mono_r; lia. }
  rewrite !testbit_rev_turn by (repeat apply Hr; lia ||
    (apply mask_bits; [lia|reflexivity|repeat apply Hr; lia])).
  f_equal. clear Hr. apply Z.eqb_eq. revert i Hi. apply (forall_below _ 64). reflexivity.
Qed.

#[global] Opaque reversed.

Lemma reversed_involutive v : 0 <= v < 2 ^ 64 → reversed (reversed v) = v.
Proof.
  intros Hv. bits i. destruct (decide (i < 64)).
  - rewrite !testbit_reversed by lia. f_equal. lia.
  - rewrite !(bits_above 64) by (lia || apply reversed_range). done.
Qed.

(** Cursors whose reversals agree above the low [64 - e] bits select the same
    bucket of a table of [2 ^ e] buckets. *)
Lemma same_bucket e h v : 0 <= e <= 64 →
  reversed h / 2 ^ (64 - e) = reversed v / 2 ^ (64 - e) → h mod 2 ^ e = v mod 2 ^ e.
Proof.
  intros He Heq. bits i. destruct (decide (i < e)).
  - rewrite !Z.mod_pow2_bits_low by lia.
    apply (f_equal (λ x, Z.testbit x (e - 1 - i))) in Heq.
    rewrite <- !Z.shiftr_div_pow2, !Z.shiftr_spec, !testbit_reversed in Heq by lia.
    by replace (63 - (e - 1 - i + (64 - e))) with i in Heq by lia.
  - by rewrite !Z.mod_pow2_bits_high by lia.
Qed.

Lemma reversed_lor e v : 0 <= e <= 64 →
  reversed (Z.lor v (u64 (Z.lnot (2 ^ e - 1)))) =
  reversed v / 2 ^ (64 - e) * 2 ^ (64 - e) + (2 ^ (64 - e) - 1).
Proof.
  intros He. rewrite <- Z.shiftr_div_pow2, <- Z.shiftl_mul_pow2 by lia.
  assert (∀ n, 2 ^ n - 1 = Z.ones n) as Hones by (intros; rewrite Z.ones_equiv; lia).
  rewrite !Hones.
  assert (Z.land (Z.shiftl (Z.shiftr (reversed v) (64 - e)) (64 - e)) (Z.ones (64 - e)) = 0)
    as H0.
  { bits i. rewrite Z.land_spec, Z.bits_0, Z.shiftl_spec by lia.
    destruct (decide (i < 64 - e)).
    - by rewrite (Z.testbit_neg_r _ (i - (64 - e))) by lia.
    - by rewrite Z.ones_spec_high, andb_false_r by lia. }
  rewrite Z.add_nocarry_lxor, Z.lxor_lor by done. clear H0 Hones.
  bits i. rewrite Z.lor_spec, Z.shiftl_spec by lia. destruct (decide (i < 64)).
  - rewrite testbit_reversed, Z.lor_spec, testbit_wrapu, Z.lnot_spec by lia.
    rewrite (proj2 (Z.ltb_lt (63 - i) 64)) by lia.
    destruct (decide (i < 64 - e)).
    + rewrite (Z.ones_spec_high e), (Z.ones_spec_low (64 - e)) by lia.
      by rewrite !orb_true_r.
    + rewrite (Z.ones_spec_low e), (Z.ones_spec_high (64 - e)) by lia.
      rewrite Z.shiftr_spec by lia. replace (i - (64 - e) + (64 - e)) with i by lia.
      by rewrite testbit_reversed, !orb_false_r by lia.
  - rewrite (bits_above 64 (reversed _)) by (apply reversed_range || lia).
    rewrite Z.ones_spec_high, orb_false_r, Z.shiftr_spec by lia.
    by rewrite (bits_above 64 (reversed _)) by (apply reversed_range || lia).
Qed.

(** The end of the block of [2 ^ (64 - e)] reversed cursors that [v] is in. *)
Definition block_end (e v : Z) : Z := (reversed v / 2 ^ (64 - e) + 1) * 2 ^ (64 - e).

Lemma increment_cursor_spec e v : 0 <= e <= 60 →
  ∃ v', increment_cursor v (DICTHT_SIZE_MASK e) = Some v' ∧ 0 <= v' < 2 ^ 64 ∧
    reversed v' = block_end e v mod 2 ^ 64.
Proof.
  intros He. unfold increment_cursor. rewrite !rev_reversed. mstep. rewrite rev_reversed.
  eexists. split; [done|]. split; [apply reversed_range|].
  rewrite reversed_involutive by (apply wrapu_range; lia).
  assert (DICTHT_SIZE_MASK e = 2 ^ e - 1) as ->.
  { unfold DICTHT_SIZE_MASK. rewrite DICTHT_SIZE_pow by done. if_false.
    pose proof (pow2_60 e He). apply wrapu_small. lia. }
  rewrite reversed_lor by lia. unfold wrapu, block_end. f_equal. lia.
Qed.

#[global] Opaque rev increment_cursor.

(** ** One call *)

Section scan_spec.
Context `{DictType K} {V : Type}.
Implicit Types (d : dict (K:=K) (V:=V)) (t : list (list (K * V))).

(** The bucket a cursor selects holds the entries whose hash agrees with it. *)
Lemma cursor_bucket t e v : table_ok t e →
  ∃ b, get_bucket (mk_ht t e) (Z.land v (DICTHT_SIZE_MASK e)) = Some b ∧ b ⊆ concat t ∧
    ∀ k x, (k, x) ∈ concat t → hashFunction k mod 2 ^ e = v mod 2 ^ e → (k, x) ∈ b.
Proof.
  intros Ht. pose proof Ht as (He & Hl & Hp). rewrite land_mask by done.
  destruct (bucket_exists t e v Ht) as [Hr [b Hb]]. exists b. split_and!.
  - apply get_bucket_mk; [done|lia].
  - intros kx Hin. apply elem_of_concat. exists b. split; [done|].
    by eapply list_elem_of_lookup_2.
  - intros k x (b' & Hin & [i Hi]%list_elem_of_lookup)%elem_of_concat Hh.
    pose proof (Hp _ _ _ _ Hi Hin) as Hih. rewrite <- Hh, Hih, Nat2Z.id in Hb. congruence.
Qed.

Lemma pow_split e : 0 <= e <= 60 → 2 ^ 64 = 2 ^ e * 2 ^ (64 - e) ∧ 0 < 2 ^ (64 - e).
Proof. intros. rewrite <- Z.pow_add_r by lia. split; [f_equal; lia|lia]. Qed.

Lemma block_end_range e v : 0 <= e <= 60 →
  reversed v < block_end e v <= 2 ^ 64 ∧ block_end e v - 2 ^ (64 - e) <= reversed v.
Proof.
  intros He. unfold block_end. destruct (pow_split e He) as [H64 Hk].
  pose proof (reversed_range v). pose proof (Z.div_mod (reversed v) (2 ^ (64 - e))).
  pose proof (Z.mod_pos_bound (reversed v) (2 ^ (64 - e)) Hk).
  assert (reversed v / 2 ^ (64 - e) < 2 ^ e) by (apply Z.div_lt_upper_bound; lia).
  split; [split|]; nia.
Qed.

Lemma in_block e v h : 0 <= e <= 60 →
  reversed v <= reversed h < block_end e v → h mod 2 ^ e = v mod 2 ^ e.
Proof.
  intros He Hr. destruct (pow_split e He) as [_ Hk]. apply same_bucket; [lia|].
  destruct (block_end_range e v He) as [_ Hb].
  unfold block_end in *. symmetry. apply Z.div_unique with (reversed h -
    2 ^ (64 - e) * (reversed v / 2 ^ (64 - e))); [|lia].
  pose proof (Z.mul_div_le (reversed v) (2 ^ (64 - e)) Hk). lia.
Qed.

(** [v & (m0 ^ m1)] is zero when the reversed cursor ends a block of the
    smaller table. *)
Lemma land_masks e0 e1 v : 0 <= e0 <= e1 → e1 <= 60 → 0 <= v < 2 ^ 64 →
  reversed v mod 2 ^ (64 - e1) = 0 →
  (Z.land v (Z.lxor (DICTHT_SIZE_MASK e0) (DICTHT_SIZE_MASK e1)) =? 0) =
  (reversed v mod 2 ^ (64 - e0) =? 0).
Proof.
  intros He0 He1 Hv Hm.
  assert (∀ e, 0 <= e <= 60 → DICTHT_SIZE_MASK e = Z.ones e) as Hones.
  { intros e He. unfold DICTHT_SIZE_MASK. rewrite DICTHT_SIZE_pow by done. if_false.
    pose proof (pow2_60 e He). rewrite wrapu_small by lia. rewrite Z.ones_equiv. lia. }
  rewrite !Hones by lia. apply eq_bool_prop_intro. rewrite !Is_true_true, !Z.eqb_eq.
  assert (∀ i, 0 <= i → i < 64 - e1 → Z.testbit (reversed v) i = false) as Hlow.
  { intros i Hi Hi1. rewrite <- (Z.mod_pow2_bits_low _ (64 - e1)) by lia.
    by rewrite Hm, Z.bits_0. }
  split; intros Hz; bits i; rewrite Z.bits_0.
  - destruct (decide (i < 64 - e0)); [|by rewrite Z.mod_pow2_bits_high by lia].
    rewrite Z.mod_pow2_bits_low by lia. destruct (decide (i < 64 - e1)); [auto with lia|].
    rewrite testbit_reversed by lia.
    apply (f_equal (λ x, Z.testbit x (63 - i))) in Hz.
    rewrite Z.land_spec, Z.lxor_spec, Z.ones_spec_high, Z.ones_spec_low, Z.bits_0 in Hz by lia.
    simpl in Hz. by rewrite andb_true_r in Hz.
  - rewrite Z.land_spec, Z.lxor_spec. destruct (decide (i < e0)).
    { by rewrite !Z.ones_spec_low, andb_false_r by lia. }
    destruct (decide (i < e1)).
    2:{ by rewrite !Z.ones_spec_high, andb_false_r by lia. }
    apply (f_equal (λ x, Z.testbit x (63 - i))) in Hz.
    rewrite Z.mod_pow2_bits_low, testbit_reversed, Z.bits_0 in Hz by lia.
    replace (63 - (63 - i)) with i in Hz by lia. by rewrite Hz.
Qed.

(** Blocks of a larger table refine those of a smaller one. *)
Lemma block_end_refine e0 e1 v : 0 <= e0 <= e1 → e1 <= 60 →
  block_end e1 v <= block_end e0 v ∧
  ∃ q, block_end e0 v = block_end e1 v + q * 2 ^ (64 - e1).
Proof.
  intros He0 He1. destruct (pow_split e0 ltac:(lia)) as [_ Hk0].
  destruct (pow_split e1 ltac:(lia)) as [_ Hk1].
  assert (2 ^ (64 - e0) = 2 ^ (e1 - e0) * 2 ^ (64 - e1)) as Hpow.
  { rewrite <- Z.pow_add_r by lia. f_equal. lia. }
  assert (0 < 2 ^ (e1 - e0)) by lia.
  destruct (block_end_range e0 v ltac:(lia)) as [? ?].
  destruct (block_end_range e1 v ltac:(lia)) as [? ?].
  assert (∃ q, block_end e0 v = block_end e1 v + q * 2 ^ (64 - e1)) as [q Hq].
  { exists ((reversed v / 2 ^ (64 - e0) + 1) * 2 ^ (e1 - e0) -
      (reversed v / 2 ^ (64 - e1) + 1)). unfold block_end. rewrite Hpow at 2. ring. }
  split; [|by exists q]. assert (-1 < q) by nia. nia.
Qed.

Lemma block_end_mod e v : 0 <= e <= 60 →
  (block_end e v mod 2 ^ 64) mod 2 ^ (64 - e) = 0.
Proof.
  intros He. destruct (pow_split e He) as [-> Hk]. unfold block_end.
  rewrite Z.mul_mod_distr_r by lia. apply Z.mod_mul. lia.
Qed.

(** A cursor further on in the block of [v], not at its end, is in that block
    and not at its beginning. *)
Lemma same_block e v v1 : 0 <= e <= 60 →
  reversed v < reversed v1 < block_end e v →
  block_end e v1 = block_end e v ∧ reversed v1 mod 2 ^ (64 - e) ≠ 0.
Proof.
  intros He Hr. destruct (pow_split e He) as [_ Hk].
  destruct (block_end_range e v He) as [_ Hb].
  assert (reversed v1 / 2 ^ (64 - e) = reversed v / 2 ^ (64 - e)) as Hdiv.
  { symmetry. unfold block_end in *. generalize dependent (reversed v / 2 ^ (64 - e)).
    intros D ? ?. apply Z.div_unique with (reversed v1 - 2 ^ (64 - e) * D); lia. }
  split; [unfold block_end; by rewrite Hdiv|]. intros Hz.
  apply Z.div_exact in Hz; [|lia]. rewrite Hdiv in Hz. unfold block_end in Hb. lia.
Qed.

Lemma block_end_next e v v1 : 0 <= e <= 60 → reversed v1 = block_end e v →
  block_end e v1 = block_end e v + 2 ^ (64 - e).
Proof.
  intros He Hr. destruct (pow_split e He) as [_ Hk]. unfold block_end at 1.
  rewrite Hr. unfold block_end. rewrite Z.div_mul by lia. lia.
Qed.

Lemma scan_expansions_spec fuel t e1 e0 v : table_ok t e1 → 0 <= e0 <= e1 →
  0 <= v < 2 ^ 64 →
  block_end e0 v - (block_end e1 v - 2 ^ (64 - e1)) <= Z.of_nat fuel * 2 ^ (64 - e1) →
  ∃ es v', scan_expansions fuel (mk_ht t e1) (DICTHT_SIZE_MASK e0) (DICTHT_SIZE_MASK e1) v =
      Some (es, v') ∧
    0 <= v' < 2 ^ 64 ∧ reversed v' = block_end e0 v mod 2 ^ 64 ∧ es ⊆ concat t ∧
    ∀ k x, (k, x) ∈ concat t →
      reversed v <= reversed (hashFunction k) < block_end e0 v → (k, x) ∈ es.
Proof.
  intros Ht He. pose proof (proj1 Ht) as He1. destruct (pow_split e1 He1) as [_ Hk1].
  revert v. induction fuel as [|fuel IH]; intros v Hv Hf.
  { destruct (block_end_refine e0 e1 v); lia. }
  cbn [scan_expansions]. destruct (cursor_bucket t e1 v Ht) as (b & -> & Hsub & Hb). mnext.
  destruct (increment_cursor_spec e1 v He1) as (v1 & -> & Hv1 & Hr1). mnext.
  destruct (block_end_range e1 v He1) as [Hb1 Hb1'].
  destruct (block_end_range e0 v ltac:(lia)) as [Hb0 _].
  destruct (block_end_refine e0 e1 v He ltac:(lia)) as [Hle _].
  pose proof (reversed_range v) as Hrv.
  rewrite land_masks by (done || lia || by rewrite Hr1; apply block_end_mod).
  destruct (decide (block_end e1 v = block_end e0 v)) as [Heq|Hne].
  - rewrite Hr1, Heq, block_end_mod by lia. cbn [negb Z.eqb]. exists b, v1.
    split_and!; [done|lia|lia|congruence|done|].
    intros k x Hin Hr. apply Hb; [done|]. apply in_block; lia.
  - rewrite Z.mod_small in Hr1 by lia.
    destruct (same_block e0 v v1) as [Hbe Hnz]; [lia..|].
    rewrite (proj2 (Z.eqb_neq _ 0)) by done. cbn [negb].
    destruct (IH v1 Hv1) as (es & v2 & -> & ? & Hr2 & Hsub2 & Hes).
    { rewrite Hbe, (block_end_next e1 v v1) by done. lia. }
    mnext. exists (b ++ es), v2. rewrite Hbe in *.
    split_and!; [done|lia|lia|done|set_solver|].
    intros k x Hin Hr. apply elem_of_app.
    destruct (decide (reversed (hashFunction k) < block_end e1 v)).
    + left. apply Hb; [done|]. apply in_block; lia.
    + right. apply Hes; [done|]. lia.
Qed.

Lemma reversed_0 : reversed 0 = 0.
Proof. vm_compute. reflexivity. Qed.

(** What a call that moved the cursor over a block has emitted. *)
Definition scanned (es : list (K * V)) (v e : Z) d : Prop :=
  ∀ k x, (k, x) ∈ entries d →
    reversed v <= reversed (hashFunction k) < block_end e v → (k, x) ∈ es.

Lemma scan_fuel e0 e1 v : 0 <= e0 <= 60 → 0 <= e1 <= 60 →
  block_end e0 v - (block_end e1 v - 2 ^ (64 - e1)) <=
  Z.of_nat (S (Z.to_nat (DICTHT_SIZE_MASK e1))) * 2 ^ (64 - e1).
Proof.
  intros He0 He1. pose proof (pow2_60 e1 He1). destruct (pow_split e1 He1) as [H64 Hk].
  unfold DICTHT_SIZE_MASK. rewrite DICTHT_SIZE_pow by done. if_false.
  rewrite wrapu_small by lia. replace (Z.of_nat _) with (2 ^ e1) by lia.
  rewrite <- H64. destruct (block_end_range e0 v He0) as [? _].
  assert (0 <= block_end e1 v - 2 ^ (64 - e1)); [|lia].
  unfold block_end. pose proof (reversed_range v).
  assert (0 <= reversed v / 2 ^ (64 - e1)) by (apply Z.div_pos; lia). nia.
Qed.

(** The bucket of the smaller table and its expansions in the larger one. *)
Lemma scan_two_tables (ts tl : list (list (K * V))) es el v : table_ok ts es → table_ok tl el → es <= el →
  0 <= v < 2 ^ 64 → ∃ b out v',
  get_bucket (mk_ht ts es) (Z.land v (DICTHT_SIZE_MASK es)) = Some b ∧
  scan_expansions (S (Z.to_nat (DICTHT_SIZE_MASK el))) (mk_ht tl el)
    (DICTHT_SIZE_MASK es) (DICTHT_SIZE_MASK el) v = Some (out, v') ∧
  0 <= v' < 2 ^ 64 ∧ reversed v' = block_end es v mod 2 ^ 64 ∧
  b ++ out ⊆ concat ts ++ concat tl ∧
  ∀ k x, (k, x) ∈ concat ts ++ concat tl →
    reversed v <= reversed (hashFunction k) < block_end es v → (k, x) ∈ b ++ out.
Proof.
  intros Hts Htl Hle Hv. pose proof (proj1 Hts) as Hes. pose proof (proj1 Htl) as Hel.
  destruct (cursor_bucket ts es v Hts) as (b & Hb & Hsub & Hin).
  destruct (scan_expansions_spec (S (Z.to_nat (DICTHT_SIZE_MASK el))) tl el es v)
    as (out & v' & Hout & Hv' & Hr & Hsub' & Hin'); [done|lia|done|by apply scan_fuel|].
  exists b, out, v'. split_and!; [done|done|lia|lia|done|set_solver|].
  intros k x [Hk|Hk]%elem_of_app Hrange; apply elem_of_app.
  - left. apply Hin; [done|]. apply in_block; lia.
  - right. by apply Hin'.
Qed.

Lemma dictScan_step d v : dict_wf d → 0 <= v < 2 ^ 64 →
  ∃ d' es v', dictScan d v = Some (d', es, v') ∧ 0 <= v' < 2 ^ 64 ∧ es ⊆ entries d ∧
    (- 2 ^ 15 <= pauserehash d < 2 ^ 15 → d' = d) ∧
    ((v' = 0 ∧ entries d = []) ∨
     ∃ e, 0 <= e <= 60 ∧ (e = ht_size_exp (ht0 d) ∨ e = ht_size_exp (ht1 d)) ∧
       reversed v' = block_end e v mod 2 ^ 64 ∧ scanned es v e d).
Proof.
  intros Hwf Hv. unfold dictScan. rewrite wf_size_zero by done. case_bool_decide as Hnil.
  { exists d, [], 0. split_and!; [done|lia|lia|set_solver|done|by left]. }
  assert (- 2 ^ 15 <= pauserehash d < 2 ^ 15 →
    dictResumeRehashing (dictPauseRehashing d) = d) as Hpause.
  { intros Hp. destruct d. unfold dictResumeRehashing, dictPauseRehashing, set_pauserehash.
    simpl in *. f_equal. unfold wraps. simpl. div_lia. }
  unfold dictIsRehashing. change (rehashidx (dictPauseRehashing d)) with (rehashidx d).
  change (ht0 (dictPauseRehashing d)) with (ht0 d).
  change (ht1 (dictPauseRehashing d)) with (ht1 d).
  destruct Hwf as [p|t e p Ht Hes|t0 e0 t1 e1 i p Ht0 Ht1 [Hi _] Hes]; [done|..];
    cbn [rehashidx ht0 ht1] in *.
  - cbn [negb Z.eqb Pos.eqb]. change (ht_size_exp (mk_ht t e)) with e.
    destruct (cursor_bucket t e v Ht) as (b & -> & Hsub & Hin). mnext.
    destruct (increment_cursor_spec e v (proj1 Ht)) as (v1 & -> & Hv1 & Hr1). mnext. mnext.
    eexists _, b, v1. split_and!; [done|lia|lia| |done|right].
    + unfold entries, ht_entries. simpl. by rewrite app_nil_r.
    + exists e. split_and!; [apply Ht..|by left|done|]. intros k x Hk Hr.
      unfold entries, ht_entries in Hk. simpl in Hk. rewrite app_nil_r in Hk.
      apply Hin; [done|]. apply in_block; [apply Ht|done].
  - rewrite (proj2 (Z.eqb_neq i (-1))) by lia. cbn [negb].
    change (ht_size_exp (mk_ht t0 e0)) with e0. change (ht_size_exp (mk_ht t1 e1)) with e1.
    rewrite !DICTHT_SIZE_pow by (apply Ht0 || apply Ht1).
    change (entries _) with (concat t0 ++ concat t1). unfold scanned.
    change (entries _) with (concat t0 ++ concat t1).
    destruct (Z.gtb_spec (2 ^ e0) (2 ^ e1)) as [Hgt|Hle]; cbv beta iota zeta;
      change (ht_size_exp (mk_ht t0 e0)) with e0; change (ht_size_exp (mk_ht t1 e1)) with e1.
    + apply Z.pow_lt_mono_r_iff in Hgt; [|lia|apply Ht0].
      destruct (scan_two_tables t1 t0 e1 e0 v)
        as (b&out&v'&->&Hout&?&?&Hsub&Hin); [done..|lia|done|]. mnext. rewrite Hout. mnext. mnext.
      eexists _, _, _. split_and!; [done|lia|lia|set_solver|done|right].
      exists e1. split_and!; [apply Ht1..|by right|done|]. intros k x Hk. apply Hin. set_solver.
    + apply Z.pow_le_mono_r_iff in Hle; [|lia|apply Ht1].
      destruct (scan_two_tables t0 t1 e0 e1 v)
        as (b&out&v'&->&Hout&?&?&Hsub&Hin); [done..|]. mnext. rewrite Hout. mnext. mnext.
      eexists _, _, _. split_and!; [done|lia|lia|done|done|right].
      exists e0. split_and!; [apply Ht0..|by left|done|done].
Qed.

(** ** A whole scan *)

Lemma reversed_eq_0 v : 0 <= v < 2 ^ 64 → reversed v = 0 → v = 0.
Proof. intros Hv Hr. by rewrite <- (reversed_involutive v Hv), Hr, reversed_0. Qed.

(** From a cursor that has not passed the hash of [k]. *)
Lemma scan_all_from ds v k es : 0 <= v < 2 ^ 64 →
  Forall (λ d, dict_wf d ∧ is_Some (dict_map d !! k)) ds →
  reversed v <= reversed (hashFunction k) →
  scan_all ds v = Some es → k ∈ es.*1.
Proof.
  revert v es. induction ds as [|d ds IH]; intros v es Hv Hds Hk Hscan; [done|].
  apply Forall_cons in Hds as [[Hwf [x Hx]] Hds]. cbn [scan_all] in Hscan.
  destruct (dictScan_step d v Hwf Hv) as (d'&es1&v1&Hs&Hv1&_&_&Hcase).
  rewrite Hs, some_bind in Hscan. cbv beta iota in Hscan.
  assert ((k, x) ∈ entries d) as Hin by (by apply elem_of_list_to_map_2).
  destruct Hcase as [[_ Hnil]|(e&He&_&Hr&Hsc)].
  { rewrite Hnil in Hin. by apply elem_of_nil in Hin. }
  destruct (block_end_range e v He) as [[Hlt Hle] _]. pose proof (reversed_range (hashFunction k)).
  destruct (decide (reversed (hashFunction k) < block_end e v)) as [Hnow|Hlater].
  { assert (k ∈ es1.*1) as Hk1 by (apply list_elem_of_fmap; exists (k, x); auto).
    destruct (v1 =? 0); [congruence|]. destruct (scan_all ds v1); simplify_eq/=.
    rewrite fmap_app. apply elem_of_app. by left. }
  rewrite Z.mod_small in Hr by (pose proof (reversed_range v); lia).
  destruct (Z.eqb_spec v1 0) as [Hz|].
  { rewrite Hz, reversed_0 in Hr. pose proof (reversed_range v). lia. }
  destruct (scan_all ds v1) as [es2|] eqn:Hs2; simplify_eq/=.
  rewrite fmap_app. apply elem_of_app. right. apply (IH v1 es2); [done|done|lia|done].
Qed.

(** C1: the guarantee of SCAN.  A scan that starts with cursor 0 and goes on
    until the cursor is 0 again returns every key that is in the dict at every
    call, whatever else happens to the dict between the calls: insertions and
    deletions of other keys, growing, shrinking, rehashing in any stage. *)
Theorem dictScan_complete ds k es :
  Forall (λ d, dict_wf d ∧ is_Some (dict_map d !! k)) ds →
  scan_all ds 0 = Some es → k ∈ es.*1.
Proof.
  intros Hds. apply scan_all_from; [lia|done|]. rewrite reversed_0. apply reversed_range.
Qed.

Lemma scan_all_ends E ds v : 0 <= E <= 60 → 0 <= v < 2 ^ 64 →
  reversed v mod 2 ^ (64 - E) = 0 →
  Forall (λ d, dict_wf d ∧ ht_size_exp (ht0 d) <= E ∧ ht_size_exp (ht1 d) <= E) ds →
  2 ^ 64 - reversed v <= len ds * 2 ^ (64 - E) → ∃ es, scan_all ds v = Some es.
Proof.
  intros HE. destruct (pow_split E HE) as [H64 Hk].
  revert v. induction ds as [|d ds IH]; intros v Hv Hm Hds Hlen.
  { pose proof (reversed_range v). simpl in Hlen. lia. }
  apply Forall_cons in Hds as [(Hwf & He0 & He1) Hds]. cbn [scan_all].
  destruct (dictScan_step d v Hwf Hv) as (d'&es1&v1&->&Hv1&_&_&Hcase). mnext.
  destruct (Z.eqb_spec v1 0) as [|Hne]; [eauto|].
  destruct Hcase as [[? _]|(e&He&Hexp&Hr&_)]; [done|].
  assert (e <= E) as HeE by (destruct Hexp as [->| ->]; done).
  destruct (block_end_range e v He) as [Hb _]. pose proof (reversed_range v).
  destruct (decide (block_end e v = 2 ^ 64)) as [Heq|].
  { rewrite Heq, Z.mod_same in Hr by lia. by apply reversed_eq_0 in Hr. }
  rewrite Z.mod_small in Hr by lia.
  destruct (IH v1 Hv1) as [es2 ->]; [|done| |eauto].
  - rewrite Hr. unfold block_end.
    replace (2 ^ (64 - e)) with (2 ^ (E - e) * 2 ^ (64 - E)) at 2
      by (rewrite <- Z.pow_add_r by lia; f_equal; lia).
    rewrite Z.mul_assoc. apply Z.mod_mul. lia.
  - cbn [length] in Hlen.
    assert (reversed v + 2 ^ (64 - E) <= reversed v1); [|lia]. rewrite Hr.
    destruct (block_end_refine e E v) as [Hle _]; [lia..|].
    apply Z.div_exact in Hm; [|lia].
    assert (block_end E v = reversed v + 2 ^ (64 - E)); [unfold block_end|]; lia.
Qed.

(** C33: a scan ends: if no table has more than [2 ^ E] buckets meanwhile,
    after at most [2 ^ E] calls the cursor is 0 again. *)
Theorem dictScan_terminates E ds : 0 <= E <= 60 →
  Forall (λ d, dict_wf d ∧ ht_size_exp (ht0 d) <= E ∧ ht_size_exp (ht1 d) <= E) ds →
  2 ^ E <= len ds → ∃ es, scan_all ds 0 = Some es.
Proof.
  intros HE Hds Hlen. apply (scan_all_ends E); [done|lia| |done|]; rewrite reversed_0.
  - apply Z.mod_0_l. lia.
  - destruct (pow_split E HE) as [-> Hk]. nia.
Qed.

(** One call of [dictScan] stays inside the tables, emits only entries of
    the dict, and leaves the dict as it was. *)
Theorem dictScan_safe d v : dict_wf d → 0 <= v < 2 ^ 64 →
  - 2 ^ 15 <= pauserehash d < 2 ^ 15 →
  ∃ es v', dictScan d v = Some (d, es, v') ∧ es ⊆ entries d ∧ 0 <= v' < 2 ^ 64.
Proof.
  intros Hwf Hv Hp. destruct (dictScan_step d v Hwf Hv) as (d'&es&v'&Hs&?&?&Hd&_).
  rewrite (Hd Hp) in Hs. by exists es, v'.
Qed.

End scan_spec.

(** ** Instances *)

Section example.
#[local] Existing Instance example_type.

Lemma dictScan_complete_witness : ∃ es,
  scan_all (replicate 4 example_dict) 0 = Some es ∧ 2 ∈ es.*1.
Proof.
  eexists. split; [vm_compute; reflexivity|].
  apply (dictScan_complete (replicate 4 example_dict)); [|vm_compute; reflexivity].
  apply Forall_replicate. split; [exact example_wf|]. exists 20. vm_compute. reflexivity.
Defined.

Lemma dictScan_terminates_witness : ∃ es, scan_all (replicate 8 example_dict) 0 = Some es.
Proof.
  apply (dictScan_terminates 3); [lia| |simpl; lia].
  apply Forall_replicate. split; [exact example_wf|]. vm_compute. split; congruence.
Defined.

Lemma dictScan_safe_witness : ∃ es v',
  dictScan example_dict 5 = Some (example_dict, es, v') ∧ es ⊆ entries example_dict.
Proof.
  destruct (dictScan_safe example_dict 5 example_wf) as (es&v'&?&?&_);
    [lia|vm_compute; split; congruence|].
  exists es, v'. split; assumption.
Defined.

End example.
