(* ===== verification/Listpack.v ===== *)
(** Listpacks: src/redis-7.0.0/src/listpack.c.

    A listpack is one heap block: a header with the total number of bytes and
    the number of elements, the entries, and an end marker.  An entry is an
    encoded integer or string followed by its own length, written so that it
    can be read backwards.  The block is a list of bytes, a pointer into it an
    offset, NULL is [None] of an inner option; an access outside the block or
    a failed assertion makes the result [None].

    This file has the code; ListpackSpec.v what it does on well-formed blocks
    and on untrusted ones. *)
From S2P Require Import Prelude UtilNum.

Definition lp_malloc `{Malloc} (n : Z) : list Z := replicate (Z.to_nat (usable_size n)) junk.
Definition lp_realloc `{Malloc} (m : list Z) (n : Z) : list Z := realloc junk m (usable_size n).
Definition lp_malloc_size (m : list Z) : Z := len m.

Definition LP_HDR_SIZE : Z := 6.
Definition LP_HDR_NUMELE_UNKNOWN : Z := 65535.
Definition LP_MAX_BACKLEN_SIZE : Z := 5.
Definition LP_EOF : Z := 0xFF.
Definition UINT32_MAX : Z := 2 ^ 32 - 1.
Definition UINT64_MAX : Z := 2 ^ 64 - 1.
Definition LP_INTBUF_SIZE : Z := 21.
Definition LISTPACK_MAX_SAFETY_SIZE : Z := Z.shiftl 1 30.

Definition LP_ENCODING_IS_7BIT_UINT (b : Z) : bool := Z.land b 0x80 =? 0.
Definition LP_ENCODING_IS_6BIT_STR (b : Z) : bool := Z.land b 0xC0 =? 0x80.
Definition LP_ENCODING_IS_13BIT_INT (b : Z) : bool := Z.land b 0xE0 =? 0xC0.
Definition LP_ENCODING_IS_12BIT_STR (b : Z) : bool := Z.land b 0xF0 =? 0xE0.
Definition LP_ENCODING_IS_16BIT_INT (b : Z) : bool := Z.land b 0xFF =? 0xF1.
Definition LP_ENCODING_IS_24BIT_INT (b : Z) : bool := Z.land b 0xFF =? 0xF2.
Definition LP_ENCODING_IS_32BIT_INT (b : Z) : bool := Z.land b 0xFF =? 0xF3.
Definition LP_ENCODING_IS_64BIT_INT (b : Z) : bool := Z.land b 0xFF =? 0xF4.
Definition LP_ENCODING_IS_32BIT_STR (b : Z) : bool := Z.land b 0xFF =? 0xF0.

(** [p[0] | p[1]<<8 | ...] over [n] bytes. *)
Fixpoint or_bytes (n : nat) (m : list Z) (p shift : Z) : option Z :=
  match n with
  | O => Some 0
  | S n =>
    b ← load8 m p;
    r ← or_bytes n m (p + 1) (shift + 8);
    Some (Z.lor (Z.shiftl b shift) r)
  end.

Definition LP_ENCODING_6BIT_STR_LEN (m : list Z) (p : Z) : option Z :=
  b ← load8 m p; Some (Z.land b 0x3F).
Definition LP_ENCODING_12BIT_STR_LEN (m : list Z) (p : Z) : option Z :=
  b0 ← load8 m p; b1 ← load8 m (p + 1);
  Some (Z.lor (Z.shiftl (Z.land b0 0xF) 8) b1).
Definition LP_ENCODING_32BIT_STR_LEN (m : list Z) (p : Z) : option Z :=
  or_bytes 4 m (p + 1) 0.

Definition lpGetTotalBytes (m : list Z) : option Z := or_bytes 4 m 0 0.
Definition lpGetNumElements (m : list Z) : option Z := or_bytes 2 m 4 0.

Definition lpSetTotalBytes (m : list Z) (v : Z) : option (list Z) :=
  m ← store8 m 0 (Z.land v 0xff);
  m ← store8 m 1 (Z.land (Z.shiftr v 8) 0xff);
  m ← store8 m 2 (Z.land (Z.shiftr v 16) 0xff);
  store8 m 3 (Z.land (Z.shiftr v 24) 0xff).
Definition lpSetNumElements (m : list Z) (v : Z) : option (list Z) :=
  m ← store8 m 4 (Z.land v 0xff);
  store8 m 5 (Z.land (Z.shiftr v 8) 0xff).

Definition lpBytes (m : list Z) : option Z := lpGetTotalBytes m.

(** [assert(...)]: nothing, or the end of the program. *)
Definition assert (b : bool) : option unit := if b then Some tt else None.

Definition ASSERT_INTEGRITY (m : list Z) (p : Z) : option unit :=
  total ← lpGetTotalBytes m;
  assert ((p >=? LP_HDR_SIZE) && (p <? total)).
Definition ASSERT_INTEGRITY_LEN (m : list Z) (p len : Z) : option unit :=
  total ← lpGetTotalBytes m;
  assert ((p >=? LP_HDR_SIZE) && (p + len <? total)).

(** [lp] is NULL for [None]. *)
Definition lpSafeToAdd (lp : option (list Z)) (add : Z) : option Z :=
  len ← match lp with Some m => lpGetTotalBytes m | None => Some 0 end;
  Some (if u64 (len + add) >? LISTPACK_MAX_SAFETY_SIZE then 0 else 1).

(** [Some None] is the return value 0, [Some (Some v)] is 1 with [*value = v]. *)
Definition lpStringToInt64 (s : list Z) (slen : Z) : option (option Z) :=
  if (0 =? slen) || (slen >=? LONG_STR_SIZE) then Some None
  else
    c ← load8 s 0;
    if (slen =? 1) && (c =? 48) then Some (Some 0)
    else
      let negative := c =? 45 in
      let plen := if negative then 1 else 0 in
      if negative && (plen =? slen) then Some None
      else
        c ← load8 s plen;
        if (c >=? 49) && (c <=? 57) then
          r ← parse_digits (Z.to_nat (slen - (plen + 1))) s (plen + 1) (c - 48);
          match r with
          | None => Some None
          | Some (plen, v) =>
            if plen <? slen then Some None
            else if negative then
              if v >? u64 (u64 (- (LLONG_MIN + 1)) + 1) then Some None
              else Some (Some (s64 (u64 (- v))))
            else if v >? LLONG_MAX then Some None
            else Some (Some v)
          end
        else Some None.

(** ** Encoding *)

(** The bytes of [intenc]; [*enclen] is their number. *)
Definition lpEncodeIntegerGetType (v : Z) : list Z :=
  if (v >=? 0) && (v <=? 127) then [u8 v]
  else if (v >=? -4096) && (v <=? 4095) then
    let v := if v <? 0 then Z.shiftl 1 13 + v else v in
    [u8 (Z.lor (Z.shiftr v 8) 0xC0); Z.land v 0xff]
  else if (v >=? -32768) && (v <=? 32767) then
    let v := if v <? 0 then Z.shiftl 1 16 + v else v in
    [0xF1; Z.land v 0xff; u8 (Z.shiftr v 8)]
  else if (v >=? -8388608) && (v <=? 8388607) then
    let v := if v <? 0 then Z.shiftl 1 24 + v else v in
    [0xF2; Z.land v 0xff; Z.land (Z.shiftr v 8) 0xff; u8 (Z.shiftr v 16)]
  else if (v >=? -2147483648) && (v <=? 2147483647) then
    let v := if v <? 0 then Z.shiftl 1 32 + v else v in
    [0xF3; Z.land v 0xff; Z.land (Z.shiftr v 8) 0xff; Z.land (Z.shiftr v 16) 0xff;
     u8 (Z.shiftr v 24)]
  else
    let uv := u64 v in
    [0xF4; Z.land uv 0xff; Z.land (Z.shiftr uv 8) 0xff; Z.land (Z.shiftr uv 16) 0xff;
     Z.land (Z.shiftr uv 24) 0xff; Z.land (Z.shiftr uv 32) 0xff;
     Z.land (Z.shiftr uv 40) 0xff; Z.land (Z.shiftr uv 48) 0xff; u8 (Z.shiftr uv 56)].

(** The encoded integer, if the string is one, and [*enclen]. *)
Definition lpEncodeGetType (ele : list Z) (size : Z) : option (option (list Z) * Z) :=
  r ← lpStringToInt64 ele size;
  match r with
  | Some v => let intenc := lpEncodeIntegerGetType v in Some (Some intenc, len intenc)
  | None =>
    Some (None, if size <? 64 then 1 + size else if size <? 4096 then 2 + size else 5 + size)
  end.

(** The bytes written to [buf]; their number is the return value. *)
Definition lpEncodeBacklen (l : Z) : list Z :=
  if l <=? 127 then [u8 l]
  else if l <? 16383 then
    [u8 (Z.shiftr l 7); Z.lor (Z.land l 127) 128]
  else if l <? 2097151 then
    [u8 (Z.shiftr l 14); Z.lor (Z.land (Z.shiftr l 7) 127) 128; Z.lor (Z.land l 127) 128]
  else if l <? 268435455 then
    [u8 (Z.shiftr l 21); Z.lor (Z.land (Z.shiftr l 14) 127) 128;
     Z.lor (Z.land (Z.shiftr l 7) 127) 128; Z.lor (Z.land l 127) 128]
  else
    [u8 (Z.shiftr l 28); Z.lor (Z.land (Z.shiftr l 21) 127) 128;
     Z.lor (Z.land (Z.shiftr l 14) 127) 128; Z.lor (Z.land (Z.shiftr l 7) 127) 128;
     Z.lor (Z.land l 127) 128].

(** The loop reads at most five bytes. *)
Fixpoint decode_backlen_loop (fuel : nat) (m : list Z) (p val shift : Z) : option Z :=
  match fuel with
  | O => None
  | S fuel =>
    b ← load8 m p;
    let val := Z.lor val (u64 (Z.shiftl (Z.land b 127) shift)) in
    if Z.land b 128 =? 0 then Some val
    else
      let shift := shift + 7 in
      if shift >? 28 then Some UINT64_MAX
      else decode_backlen_loop fuel m (p - 1) val shift
  end.

Definition lpDecodeBacklen (m : list Z) (p : Z) : option Z := decode_backlen_loop 5 m p 0 0.

Definition lpEncodeString (m : list Z) (buf : Z) (s : list Z) (len : Z) : option (list Z) :=
  if len <? 64 then
    m ← store8 m buf (Z.lor len 0x80);
    store m (buf + 1) s
  else if len <? 4096 then
    m ← store8 m buf (Z.lor (Z.shiftr len 8) 0xE0);
    m ← store8 m (buf + 1) (Z.land len 0xff);
    store m (buf + 2) s
  else
    m ← store8 m buf 0xF0;
    m ← store8 m (buf + 1) (Z.land len 0xff);
    m ← store8 m (buf + 2) (Z.land (Z.shiftr len 8) 0xff);
    m ← store8 m (buf + 3) (Z.land (Z.shiftr len 16) 0xff);
    m ← store8 m (buf + 4) (Z.land (Z.shiftr len 24) 0xff);
    store m (buf + 5) s.

Definition lpCurrentEncodedSizeUnsafe (m : list Z) (p : Z) : option Z :=
  b ← load8 m p;
  if LP_ENCODING_IS_7BIT_UINT b then Some 1
  else if LP_ENCODING_IS_6BIT_STR b then
    l ← LP_ENCODING_6BIT_STR_LEN m p; Some (u32 (1 + l))
  else if LP_ENCODING_IS_13BIT_INT b then Some 2
  else if LP_ENCODING_IS_16BIT_INT b then Some 3
  else if LP_ENCODING_IS_24BIT_INT b then Some 4
  else if LP_ENCODING_IS_32BIT_INT b then Some 5
  else if LP_ENCODING_IS_64BIT_INT b then Some 9
  else if LP_ENCODING_IS_12BIT_STR b then
    l ← LP_ENCODING_12BIT_STR_LEN m p; Some (u32 (2 + l))
  else if LP_ENCODING_IS_32BIT_STR b then
    l ← LP_ENCODING_32BIT_STR_LEN m p; Some (u32 (5 + l))
  else if b =? LP_EOF then Some 1
  else Some 0.

Definition lpCurrentEncodedSizeBytes (m : list Z) (p : Z) : option Z :=
  b ← load8 m p;
  Some (if LP_ENCODING_IS_7BIT_UINT b then 1
        else if LP_ENCODING_IS_6BIT_STR b then 1
        else if LP_ENCODING_IS_13BIT_INT b then 1
        else if LP_ENCODING_IS_16BIT_INT b then 1
        else if LP_ENCODING_IS_24BIT_INT b then 1
        else if LP_ENCODING_IS_32BIT_INT b then 1
        else if LP_ENCODING_IS_64BIT_INT b then 1
        else if LP_ENCODING_IS_12BIT_STR b then 2
        else if LP_ENCODING_IS_32BIT_STR b then 5
        else if b =? LP_EOF then 1
        else 0).

(** ** Moving around *)

Definition lpSkip (m : list Z) (p : Z) : option Z :=
  entrylen ← lpCurrentEncodedSizeUnsafe m p;
  Some (p + (entrylen + len (lpEncodeBacklen entrylen))).

(** The return value and [*pp] on exit; [pp] is not NULL. *)
Definition lpValidateNext (m : list Z) (p : option Z) (lpbytes : Z) :
    option (Z * option Z) :=
  let OUT_OF_RANGE p := (p <? LP_HDR_SIZE) || (p >? lpbytes - 1) in
  match p with
  | None => Some (0, p)
  | Some q =>
    if OUT_OF_RANGE q then Some (0, p)
    else
      b ← load8 m q;
      if b =? LP_EOF then Some (1, None)
      else
        lenbytes ← lpCurrentEncodedSizeBytes m q;
        if lenbytes =? 0 then Some (0, p)
        else if OUT_OF_RANGE (q + lenbytes) then Some (0, p)
        else
          entrylen ← lpCurrentEncodedSizeUnsafe m q;
          let encodedBacklen := len (lpEncodeBacklen entrylen) in
          let entrylen := entrylen + encodedBacklen in
          if OUT_OF_RANGE (q + entrylen) then Some (0, p)
          else
            let q := q + entrylen in
            prevlen ← lpDecodeBacklen m (q - 1);
            if negb (u64 (prevlen + encodedBacklen) =? entrylen) then Some (0, p)
            else Some (1, Some q)
  end.

Definition lpAssertValidEntry (m : list Z) (lpbytes p : Z) : option unit :=
  '(r, _) ← lpValidateNext m (Some p) lpbytes;
  assert (negb (r =? 0)).

Definition lpNext (m : list Z) (p : Z) : option (option Z) :=
  p ← lpSkip m p;
  b ← load8 m p;
  if b =? LP_EOF then Some None
  else
    bytes ← lpBytes m;
    lpAssertValidEntry m bytes p ≫= λ _, Some (Some p).

Definition lpPrev (m : list Z) (p : Z) : option (option Z) :=
  if p =? LP_HDR_SIZE then Some None
  else
    let p := p - 1 in
    prevlen ← lpDecodeBacklen m p;
    let prevlen := u64 (prevlen + len (lpEncodeBacklen prevlen)) in
    let p := p - (prevlen - 1) in
    bytes ← lpBytes m;
    lpAssertValidEntry m bytes p ≫= λ _, Some (Some p).

Definition lpFirst (m : list Z) : option (option Z) :=
  let p := LP_HDR_SIZE in
  b ← load8 m p;
  if b =? LP_EOF then Some None
  else
    bytes ← lpBytes m;
    lpAssertValidEntry m bytes p ≫= λ _, Some (Some p).

Definition lpLast (m : list Z) : option (option Z) :=
  total ← lpGetTotalBytes m;
  lpPrev m (total - 1).

(** [while(p) { count++; p = lpNext(lp,p); }] *)
Fixpoint length_loop (fuel : nat) (m : list Z) (p : option Z) (count : Z) : option Z :=
  match p with
  | None => Some count
  | Some q =>
    match fuel with
    | O => None
    | S fuel => p ← lpNext m q; length_loop fuel m p (u32 (count + 1))
    end
  end.

(** The block, whose header it may correct, and the count. *)
Definition lpLength (m : list Z) : option (list Z * Z) :=
  numele ← lpGetNumElements m;
  if negb (numele =? LP_HDR_NUMELE_UNKNOWN) then Some (m, numele)
  else
    p ← lpFirst m;
    count ← length_loop (length m) m p 0;
    m ← (if count <? LP_HDR_NUMELE_UNKNOWN then lpSetNumElements m count else Some m);
    Some (m, count).

(** [while (index > 0 && ele)] and its mirror image. *)
Fixpoint seek_forward (n : nat) (m : list Z) (ele : option Z) : option (option Z) :=
  match n, ele with
  | S n, Some p => ele ← lpNext m p; seek_forward n m ele
  | _, _ => Some ele
  end.
Fixpoint seek_backward (n : nat) (m : list Z) (ele : option Z) : option (option Z) :=
  match n, ele with
  | S n, Some p => ele ← lpPrev m p; seek_backward n m ele
  | _, _ => Some ele
  end.

Definition lpSeek (m : list Z) (index : Z) : option (option Z) :=
  numele ← lpGetNumElements m;
  let forward index := ele ← lpFirst m; seek_forward (Z.to_nat index) m ele in
  let backward index := ele ← lpLast m; seek_backward (Z.to_nat (-1 - index)) m ele in
  if negb (numele =? LP_HDR_NUMELE_UNKNOWN) then
    let index := if index <? 0 then numele + index else index in
    if index <? 0 then Some None
    else if index >=? numele then Some None
    else if index >? numele / 2 then backward (index - numele)
    else forward index
  else if index <? 0 then backward index
  else forward index.

(** ** Reading elements *)

(** What [lpGet] returns: a pointer into the listpack and a length, or an
    integer in [*count] with NULL. *)
Inductive lpvalue :=
  | LpStr (p count : Z)
  | LpInt (count : Z).

(** The value and [*entry_size], when it is assigned; [intbuf] is NULL. *)
Definition lpGetWithSize (m : list Z) (p : Z) : option (lpvalue * option Z) :=
  let as_signed uval negstart negmax entry_size :=
    let val := if uval >=? negstart then - (negmax - uval) - 1 else uval in
    Some (LpInt val, entry_size) in
  b ← load8 m p;
  if LP_ENCODING_IS_7BIT_UINT b then as_signed (Z.land b 0x7f) UINT64_MAX 0 (Some 2)
  else if LP_ENCODING_IS_6BIT_STR b then
    count ← LP_ENCODING_6BIT_STR_LEN m p;
    Some (LpStr (p + 1) count, Some (1 + count + len (lpEncodeBacklen (count + 1))))
  else if LP_ENCODING_IS_13BIT_INT b then
    b1 ← load8 m (p + 1);
    as_signed (Z.lor (Z.shiftl (Z.land b 0x1f) 8) b1) (Z.shiftl 1 12) 8191 (Some 3)
  else if LP_ENCODING_IS_16BIT_INT b then
    uval ← or_bytes 2 m (p + 1) 0; as_signed uval (Z.shiftl 1 15) 65535 (Some 4)
  else if LP_ENCODING_IS_24BIT_INT b then
    uval ← or_bytes 3 m (p + 1) 0;
    as_signed uval (Z.shiftl 1 23) (Z.shiftr UINT32_MAX 8) (Some 5)
  else if LP_ENCODING_IS_32BIT_INT b then
    uval ← or_bytes 4 m (p + 1) 0; as_signed uval (Z.shiftl 1 31) UINT32_MAX (Some 6)
  else if LP_ENCODING_IS_64BIT_INT b then
    uval ← or_bytes 8 m (p + 1) 0; as_signed uval (Z.shiftl 1 63) UINT64_MAX (Some 10)
  else if LP_ENCODING_IS_12BIT_STR b then
    count ← LP_ENCODING_12BIT_STR_LEN m p;
    Some (LpStr (p + 2) count, Some (2 + count + len (lpEncodeBacklen (count + 2))))
  else if LP_ENCODING_IS_32BIT_STR b then
    count ← LP_ENCODING_32BIT_STR_LEN m p;
    Some (LpStr (p + 5) count, Some (5 + count + len (lpEncodeBacklen (count + 5))))
  else as_signed (12345678900000000 + b) UINT64_MAX 0 None.

Definition lpGet (m : list Z) (p : Z) : option lpvalue := fst <$> lpGetWithSize m p.

(** With an [intbuf] of [LP_INTBUF_SIZE] bytes: the bytes the result points
    to, [*count] of them. *)
Definition lpGet_intbuf (m : list Z) (p : Z) (intbuf : list Z) : option (list Z) :=
  r ← lpGet m p;
  match r with
  | LpStr q count => load m q count
  | LpInt val =>
    '(intbuf, count) ← ll2string intbuf LP_INTBUF_SIZE val;
    load intbuf 0 count
  end.

(** [memcmp(a, s, n) == 0] with [a] at [p]. *)
Definition memeq (m : list Z) (p : Z) (s : list Z) : option bool :=
  a ← load m p (len s); Some (bool_decide (a = s)).

(** [s] is the [slen] bytes of the string. *)
Definition lpCompare (m : list Z) (p : Z) (s : list Z) : option Z :=
  let slen := len s in
  b ← load8 m p;
  if b =? LP_EOF then Some 0
  else
    value ← lpGet m p;
    match value with
    | LpStr q sz =>
      if slen =? sz then eq ← memeq m q s; Some (Z.b2z eq) else Some 0
    | LpInt sz =>
      r ← lpStringToInt64 s slen;
      match r with Some sval => Some (Z.b2z (sz =? sval)) | None => Some 0 end
    end.

(** [vencoding] and [vll]: not computed yet, not an integer, an integer. *)
Inductive vencoding := VUnknown | VNone | VInt (vll : Z).

Definition compute_vencoding (venc : vencoding) (s : list Z) : option vencoding :=
  match venc with
  | VUnknown =>
    let slen := len s in
    if (slen >=? 32) || (slen =? 0) then Some VNone
    else
      r ← lpStringToInt64 s slen;
      Some (match r with Some vll => VInt vll | None => VNone end)
  | _ => Some venc
  end.

(** The loop of [lpFind]; [entry_size] keeps its value when [lpGetWithSize]
    does not assign it. *)
Fixpoint find_loop (fuel : nat) (m : list Z) (p : Z) (s : list Z) (skip skipcnt : Z)
    (venc : vencoding) (entry_size lp_bytes : Z) : option (option Z) :=
  match fuel with
  | O => None
  | S fuel =>
    let continue p skipcnt venc entry_size :=
      (if p + 8 >=? lp_bytes then lpAssertValidEntry m lp_bytes p
       else assert ((p >=? LP_HDR_SIZE) && (p <? lp_bytes))) ≫= λ _,
      b ← load8 m p;
      if b =? LP_EOF then Some None
      else find_loop fuel m p s skip skipcnt venc entry_size lp_bytes in
    if skipcnt =? 0 then
      '(value, es) ← lpGetWithSize m p;
      let entry_size := default entry_size es in
      match value with
      | LpStr q ll =>
        assert ((p >=? LP_HDR_SIZE) && (p + entry_size <? lp_bytes)) ≫= λ _,
        eq ← (if len s =? ll then memeq m q s else Some false);
        if (eq : bool) then Some (Some p)
        else continue (p + entry_size) skip venc entry_size
      | LpInt ll =>
        venc ← compute_vencoding venc s;
        if match venc with VInt vll => ll =? vll | _ => false end then Some (Some p)
        else continue (p + entry_size) skip venc entry_size
      end
    else
      q ← lpSkip m p;
      continue q (skipcnt - 1) venc entry_size
  end.

Definition lpFind (m : list Z) (p : Z) (s : list Z) (skip : Z) : option (option Z) :=
  lp_bytes ← lpBytes m;
  find_loop (length m) m p s skip 0 VUnknown 123456789 lp_bytes.

(** ** Changing a listpack *)

Inductive lpwhere := LP_BEFORE | LP_AFTER | LP_REPLACE.

(** The element to insert: a string, an encoded integer, or nothing, which
    deletes. *)
Inductive lpelement :=
  | EleStr (s : list Z)
  | EleInt (intenc : list Z)
  | EleNone.

Section alloc.
Context `{Malloc}.

Definition lpNew (capacity : Z) : option (list Z) :=
  let m := lp_malloc (if capacity >? LP_HDR_SIZE + 1 then capacity else LP_HDR_SIZE + 1) in
  m ← lpSetTotalBytes m (LP_HDR_SIZE + 1);
  m ← lpSetNumElements m 0;
  store8 m LP_HDR_SIZE LP_EOF.

Definition lpShrinkToFit (m : list Z) : option (list Z) :=
  size ← lpGetTotalBytes m;
  Some (if size <? lp_malloc_size m then lp_realloc m size else m).

(** The new block and [*newp], or NULL when the listpack would be too long. *)
Definition lpInsert (m : list Z) (ele : lpelement) (p : Z) (where_ : lpwhere) :
    option (option (list Z * option Z)) :=
  let delete := match ele with EleNone => true | _ => false end in
  let where_ := if delete then LP_REPLACE else where_ in
  '(p, where_) ← match where_ with
    | LP_AFTER => p ← lpSkip m p; ASSERT_INTEGRITY m p ≫= λ _, Some (p, LP_BEFORE)
    | _ => Some (p, where_)
    end;
  let poff := p in
  (* The encoded integer, if the element is one, and enclen. *)
  '(eleint, enclen) ← match ele with
    | EleStr s => lpEncodeGetType s (len s)
    | EleInt intenc => Some (Some intenc, len intenc)
    | EleNone => Some (None, 0)
    end;
  let backlen := if delete then [] else lpEncodeBacklen enclen in
  let backlen_size := len backlen in
  old_listpack_bytes ← lpGetTotalBytes m;
  let replace := match where_ with LP_REPLACE => true | _ => false end in
  replaced_len ← (if replace then
      l ← lpCurrentEncodedSizeUnsafe m p;
      let l := u32 (l + len (lpEncodeBacklen l)) in
      ASSERT_INTEGRITY_LEN m p l ≫= λ _, Some l
    else Some 0);
  let new_listpack_bytes :=
    u64 (old_listpack_bytes + enclen + backlen_size - replaced_len) in
  if new_listpack_bytes >? UINT32_MAX then Some None
  else
    let m :=
      if (new_listpack_bytes >? old_listpack_bytes) &&
         (new_listpack_bytes >? lp_malloc_size m)
      then lp_realloc m new_listpack_bytes else m in
    let dst := poff in
    m ← (if replace then
           let lendiff := enclen + backlen_size - replaced_len in
           memmove m (dst + replaced_len + lendiff) (dst + replaced_len)
             (old_listpack_bytes - poff - replaced_len)
         else memmove m (dst + enclen + backlen_size) dst (old_listpack_bytes - poff));
    let m := if new_listpack_bytes <? old_listpack_bytes
             then lp_realloc m new_listpack_bytes else m in
    b ← load8 m dst;
    let newp := if delete && (b =? LP_EOF) then None else Some dst in
    m ← (if delete then Some m
         else
           m ← match eleint, ele with
               | Some intenc, _ => store m dst intenc
               | None, EleStr s => lpEncodeString m dst s (len s)
               | None, _ => None
               end;
           store m (dst + enclen) backlen);
    m ← (if negb replace || delete then
           num_elements ← lpGetNumElements m;
           if negb (num_elements =? LP_HDR_NUMELE_UNKNOWN) then
             if delete then lpSetNumElements m (u32 (num_elements - 1))
             else lpSetNumElements m (num_elements + 1)
           else Some m
         else Some m);
    m ← lpSetTotalBytes m new_listpack_bytes;
    Some (Some (m, newp)).

Definition lpInsertString (m s : list Z) (p : Z) (where_ : lpwhere) :=
  lpInsert m (EleStr s) p where_.
Definition lpInsertInteger (m : list Z) (lval p : Z) (where_ : lpwhere) :=
  lpInsert m (EleInt (lpEncodeIntegerGetType lval)) p where_.

Definition lpAppend (m ele : list Z) : option (option (list Z)) :=
  listpack_bytes ← lpGetTotalBytes m;
  r ← lpInsert m (EleStr ele) (listpack_bytes - 1) LP_BEFORE;
  Some (option_map fst r).
Definition lpAppendInteger (m : list Z) (lval : Z) : option (option (list Z)) :=
  listpack_bytes ← lpGetTotalBytes m;
  r ← lpInsertInteger m lval (listpack_bytes - 1) LP_BEFORE;
  Some (option_map fst r).

Definition lpPrepend (m s : list Z) : option (option (list Z)) :=
  p ← lpFirst m;
  match p with
  | None => lpAppend m s
  | Some p => r ← lpInsert m (EleStr s) p LP_BEFORE; Some (option_map fst r)
  end.
Definition lpPrependInteger (m : list Z) (lval : Z) : option (option (list Z)) :=
  p ← lpFirst m;
  match p with
  | None => lpAppendInteger m lval
  | Some p => r ← lpInsertInteger m lval p LP_BEFORE; Some (option_map fst r)
  end.

Definition lpReplace (m : list Z) (p : Z) (s : list Z) := lpInsert m (EleStr s) p LP_REPLACE.
Definition lpReplaceInteger (m : list Z) (p lval : Z) := lpInsertInteger m lval p LP_REPLACE.
Definition lpDelete (m : list Z) (p : Z) := lpInsert m EleNone p LP_REPLACE.

(** [while (num--)]: the end of the range and the number of entries in it. *)
Fixpoint delete_range_loop (num : nat) (m : list Z) (bytes tail deleted : Z) :
    option (Z * Z) :=
  match num with
  | O => Some (tail, deleted)
  | S num =>
    let deleted := deleted + 1 in
    tail ← lpSkip m tail;
    b ← load8 m tail;
    if b =? LP_EOF then Some (tail, deleted)
    else lpAssertValidEntry m bytes tail ≫= λ _, delete_range_loop num m bytes tail deleted
  end.

Definition lpDeleteRangeWithEntry (m : list Z) (p : Z) (num : nat) :
    option (list Z * option Z) :=
  bytes ← lpBytes m;
  let eofptr := bytes - 1 in
  if (num =? 0)%nat then Some (m, Some p)
  else
    '(tail, deleted) ← delete_range_loop num m bytes p 0;
    m ← memmove m p tail (eofptr - tail + 1);
    m ← lpSetTotalBytes m (bytes - (tail - p));
    numele ← lpGetNumElements m;
    m ← (if negb (numele =? LP_HDR_NUMELE_UNKNOWN)
         then lpSetNumElements m (u32 (numele - deleted)) else Some m);
    m ← lpShrinkToFit m;
    b ← load8 m p;
    Some (m, if b =? LP_EOF then None else Some p).

Definition lpDeleteRange (m : list Z) (index : Z) (num : nat) : option (list Z) :=
  numele ← lpGetNumElements m;
  if (num =? 0)%nat then Some m
  else
    r ← lpSeek m index;
    match r with
    | None => Some m
    | Some p =>
      let known := negb (numele =? LP_HDR_NUMELE_UNKNOWN) in
      let index := if known && (index <? 0) then numele + index else index in
      if known && (u64 (numele - u64 index) <=? Z.of_nat num) then
        m ← store8 m p LP_EOF;
        m ← lpSetTotalBytes m (p + 1);
        m ← lpSetNumElements m index;
        lpShrinkToFit m
      else option_map fst (lpDeleteRangeWithEntry m p num)
    end.

(** [first] and [second] are two different blocks; the result is the merged
    one. *)
Definition lpMerge (first second : list Z) : option (list Z) :=
  first_bytes ← lpBytes first;
  '(first, first_len) ← lpLength first;
  second_bytes ← lpBytes second;
  '(second, second_len) ← lpLength second;
  let append := first_bytes >=? second_bytes in
  let '(target, target_bytes, source, source_bytes) :=
    if append then (first, first_bytes, second, second_bytes)
    else (second, second_bytes, first, first_bytes) in
  let lpbytes := u64 (first_bytes + second_bytes - LP_HDR_SIZE - 1) in
  assert (lpbytes <? UINT32_MAX) ≫= λ _,
  let lplength := u64 (first_len + second_len) in
  let lplength := if lplength <? 65535 then lplength else 65535 in
  let target := lp_realloc target lpbytes in
  target ← (if append then
      bs ← load source LP_HDR_SIZE (source_bytes - LP_HDR_SIZE);
      store target (target_bytes - 1) bs
    else
      target ← memmove target (source_bytes - 1) LP_HDR_SIZE (target_bytes - LP_HDR_SIZE);
      bs ← load source 0 (source_bytes - 1);
      store target 0 bs);
  target ← lpSetNumElements target lplength;
  lpSetTotalBytes target lpbytes.

End alloc.

(** ** Untrusted blocks *)

Definition lpValidateFirst (m : list Z) : option (option Z) :=
  b ← load8 m LP_HDR_SIZE;
  Some (if b =? LP_EOF then None else Some LP_HDR_SIZE).

(** [while(p && p[0] != LP_EOF)]: [None] inside when it returned 0, else the
    last [p] and [count].  [entry_cb prev numele] is the caller's check. *)
Fixpoint integrity_loop (fuel : nat) (entry_cb : Z → Z → bool) (m : list Z)
    (p : option Z) (bytes numele count : Z) : option (option (option Z * Z)) :=
  match fuel with
  | O => None
  | S fuel =>
    match p with
    | None => Some (Some (None, count))
    | Some q =>
      b ← load8 m q;
      if b =? LP_EOF then Some (Some (p, count))
      else
        '(r, p) ← lpValidateNext m p bytes;
        if r =? 0 then Some None
        else if negb (entry_cb q numele) then Some None
        else integrity_loop fuel entry_cb m p bytes numele (u32 (count + 1))
    end
  end.

Definition lpValidateIntegrity (m : list Z) (size deep : Z) (entry_cb : Z → Z → bool) :
    option Z :=
  if size <? LP_HDR_SIZE + 1 then Some 0
  else
    bytes ← lpGetTotalBytes m;
    if negb (bytes =? size) then Some 0
    else
      b ← load8 m (size - 1);
      if negb (b =? LP_EOF) then Some 0
      else if deep =? 0 then Some 1
      else
        numele ← lpGetNumElements m;
        r ← integrity_loop (S (length m)) entry_cb m (Some LP_HDR_SIZE) bytes numele 0;
        match r with
        | None => Some 0
        | Some (p, count) =>
          if bool_decide (p ≠ Some (size - 1)) then Some 0
          else if negb (numele =? LP_HDR_NUMELE_UNKNOWN) && negb (numele =? count) then Some 0
          else Some 1
        end.
