(* ===== verification/ListpackSpec.v ===== *)
(** Listpack blocks and the code that walks and changes them.

    [lp_rep m es] says that the block [m] holds the entries [es], each the raw
    bytes of one entry with its length at the end.  This file has the lemmas:
    how the code moves between entries, how elements are encoded, and what
    lpInsert does to the list of entries.  The theorems are in
    ListpackTheorems.v. *)
From S2P Require Import Prelude Bits UtilNum Listpack.

(** ** Bytes *)

Ltac byte_cases b :=
  let H := fresh in
  intros H; apply eqb_prop; revert b H; apply (forall_below _ 256); vm_compute; reflexivity.

Lemma is_7bit b : is_byte b → LP_ENCODING_IS_7BIT_UINT b = (b <? 128).
Proof. byte_cases b. Qed.
Lemma is_6bit_str b : is_byte b → LP_ENCODING_IS_6BIT_STR b = (128 <=? b) && (b <? 192).
Proof. byte_cases b. Qed.
Lemma is_13bit b : is_byte b → LP_ENCODING_IS_13BIT_INT b = (192 <=? b) && (b <? 224).
Proof. byte_cases b. Qed.
Lemma is_12bit_str b : is_byte b → LP_ENCODING_IS_12BIT_STR b = (224 <=? b) && (b <? 240).
Proof. byte_cases b. Qed.
Lemma is_16bit b : is_byte b → LP_ENCODING_IS_16BIT_INT b = (b =? 0xF1).
Proof. byte_cases b. Qed.
Lemma is_24bit b : is_byte b → LP_ENCODING_IS_24BIT_INT b = (b =? 0xF2).
Proof. byte_cases b. Qed.
Lemma is_32bit b : is_byte b → LP_ENCODING_IS_32BIT_INT b = (b =? 0xF3).
Proof. byte_cases b. Qed.
Lemma is_64bit b : is_byte b → LP_ENCODING_IS_64BIT_INT b = (b =? 0xF4).
Proof. byte_cases b. Qed.
Lemma is_32bit_str b : is_byte b → LP_ENCODING_IS_32BIT_STR b = (b =? 0xF0).
Proof. byte_cases b. Qed.

Lemma land_63 b : is_byte b → Z.land b 0x3F = b mod 64.
Proof. intros. by apply (Z.land_ones b 6). Qed.
Lemma land_15 b : Z.land b 0xF = b mod 16.
Proof. by apply (Z.land_ones b 4). Qed.
Lemma land_31 b : Z.land b 0x1f = b mod 32.
Proof. by apply (Z.land_ones b 5). Qed.
Lemma land_127 b : Z.land b 127 = b mod 128.
Proof. by apply (Z.land_ones b 7). Qed.

Lemma or_bytes_spec a bs c s : bytes_ok bs → 0 <= s →
  or_bytes (length bs) (a ++ bs ++ c) (len a) s = Some (Z.shiftl (le_val bs) s).
Proof.
  intros Hbs. revert a s. induction Hbs as [|b bs Hb Hbs IH]; intros a s Hs.
  { by rewrite Z.shiftl_0_l. }
  cbn [length or_bytes app]. rewrite load8_app by done. mstep.
  specialize (IH (a ++ [b]) (s + 8)). rewrite <- app_assoc in IH. cbn [app] in IH.
  replace (len (a ++ [b])) with (len a + 1) in IH by len_lia. rewrite IH by lia. mstep.
  f_equal. rewrite le_val_cons, (Z.add_comm s 8), <- Z.shiftl_shiftl, <- Z.shiftl_lor by lia. f_equal.
  rewrite Z.lor_comm, lor_shiftl by (lia || done). lia.
Qed.

Lemma or_bytes_0 n a bs c p : bytes_ok bs → n = length bs → p = len a →
  or_bytes n (a ++ bs ++ c) p 0 = Some (le_val bs).
Proof. intros ? -> ->. rewrite or_bytes_spec by (done || lia). by rewrite Z.shiftl_0_r. Qed.

(** ** Reading a part of a block *)

(** A read inside [e] is the same read in a block that has [e] at [len a]. *)
Lemma load8_part a e c i x : load8 e i = Some x → load8 (a ++ e ++ c) (len a + i) = Some x.
Proof.
  unfold load8. destruct (Z.leb_spec 0 i); [|done]. intros Hx.
  if_true. apply lookup_lt_Some in Hx as Hlt.
  rewrite Z2Nat.inj_add, Nat2Z.id, lookup_app_r by lia.
  replace (_ + _ - _)%nat with (Z.to_nat i) by lia. by rewrite lookup_app_l.
Qed.

Lemma or_bytes_part a e c n i s x :
  or_bytes n e i s = Some x → or_bytes n (a ++ e ++ c) (len a + i) s = Some x.
Proof.
  revert i s x. induction n as [|n IH]; intros i s x; [done|]. cbn [or_bytes].
  destruct (load8 e i) as [b|] eqn:Hb; [|done]. rewrite (load8_part _ _ _ _ _ Hb). mstep.
  destruct (or_bytes n e (i + 1) (s + 8)) as [r|] eqn:Hr; [|done].
  apply IH in Hr. rewrite Z.add_assoc in Hr. by rewrite Hr.
Qed.

Lemma encoded_size_part a e c i x : lpCurrentEncodedSizeUnsafe e i = Some x →
  lpCurrentEncodedSizeUnsafe (a ++ e ++ c) (len a + i) = Some x.
Proof.
  unfold lpCurrentEncodedSizeUnsafe, LP_ENCODING_6BIT_STR_LEN, LP_ENCODING_12BIT_STR_LEN,
    LP_ENCODING_32BIT_STR_LEN.
  destruct (load8 e i) as [b|] eqn:Hb; [|done]. rewrite (load8_part _ _ _ _ _ Hb). mstep.
  repeat (case_if; [done || idtac|]); try done.
  - destruct (load8 e (i + 1)) as [b1|] eqn:Hb1; [|done].
    apply (load8_part a _ c) in Hb1. rewrite Z.add_assoc in Hb1. by rewrite Hb1.
  - destruct (or_bytes 4 e (i + 1) 0) as [l|] eqn:Hl; [|done].
    apply (or_bytes_part a _ c) in Hl. rewrite Z.add_assoc in Hl. by rewrite Hl.
Qed.

Lemma size_bytes_part a e c i x : lpCurrentEncodedSizeBytes e i = Some x →
  lpCurrentEncodedSizeBytes (a ++ e ++ c) (len a + i) = Some x.
Proof.
  unfold lpCurrentEncodedSizeBytes.
  destruct (load8 e i) as [b|] eqn:Hb; [|done]. by rewrite (load8_part _ _ _ _ _ Hb).
Qed.

Lemma decode_loop_part a e c fuel i val shift x :
  decode_backlen_loop fuel e i val shift = Some x →
  decode_backlen_loop fuel (a ++ e ++ c) (len a + i) val shift = Some x.
Proof.
  revert i val shift. induction fuel as [|fuel IH]; intros i val shift; [done|].
  cbn [decode_backlen_loop].
  destruct (load8 e i) as [b|] eqn:Hb; [|done]. rewrite (load8_part _ _ _ _ _ Hb). mstep.
  case_if; [done|]. case_if; [done|]. intros Hr. apply IH in Hr.
  by rewrite Z.add_sub_assoc in Hr.
Qed.

Lemma decode_backlen_part a e c i x : lpDecodeBacklen e i = Some x →
  lpDecodeBacklen (a ++ e ++ c) (len a + i) = Some x.
Proof. apply decode_loop_part. Qed.

(** ** The length at the end of an entry *)

Lemma flag_byte x : Z.lor (Z.land x 127) 128 = 128 + x mod 128.
Proof.
  rewrite land_127. pose proof (Z.mod_pos_bound x 128). rewrite (lor_add _ _ 7); [lia..|].
  by exists 1.
Qed.

Lemma lor_digit val y shift : 0 <= shift <= 28 → 0 <= val < 2 ^ shift → 0 <= y < 128 →
  Z.lor val (u64 (Z.shiftl y shift)) = val + y * 2 ^ shift.
Proof.
  intros Hs Hv Hy. rewrite Z.shiftl_mul_pow2 by lia.
  assert (2 ^ shift <= 2 ^ 28) by (apply Z.pow_le_mono_r; lia).
  rewrite wrapu_small by nia. apply (lor_add _ _ shift); [lia|done|]. by exists y.
Qed.

Lemma land_128 b : (Z.land b 128 =? 0) = negb (Z.testbit b 7).
Proof. by apply (land_pow2 b 7). Qed.

Lemma decode_last fuel m p val shift b : load8 m p = Some b → 0 <= b < 128 →
  0 <= shift <= 28 → 0 <= val < 2 ^ shift →
  decode_backlen_loop (S fuel) m p val shift = Some (val + b * 2 ^ shift).
Proof.
  intros Hp Hb Hs Hv. cbn [decode_backlen_loop]. rewrite Hp. mstep.
  rewrite land_127, Z.mod_small, lor_digit by lia.
  rewrite land_128, (bits_above 7) by lia. done.
Qed.

Lemma decode_more fuel m p val shift y : load8 m p = Some (128 + y) → 0 <= y < 128 →
  0 <= shift <= 21 → 0 <= val < 2 ^ shift →
  decode_backlen_loop (S fuel) m p val shift =
  decode_backlen_loop fuel m (p - 1) (val + y * 2 ^ shift) (shift + 7).
Proof.
  intros Hp Hy Hs Hv. cbn [decode_backlen_loop]. rewrite Hp. mstep.
  rewrite land_127. replace ((128 + y) mod 128) with y by div_lia.
  rewrite lor_digit by lia. rewrite land_128.
  assert (Z.testbit (128 + y) 7 = true) as ->.
  { rewrite Z.testbit_true by lia. change (2 ^ 7) with 128. div_lia. }
  cbn [negb]. cbv beta iota zeta. by if_false.
Qed.

Lemma backlen_length l : 1 <= len (lpEncodeBacklen l) <= 5.
Proof. unfold lpEncodeBacklen. repeat case_if; simpl; lia. Qed.

Lemma backlen_bytes l : bytes_ok (lpEncodeBacklen l).
Proof.
  unfold lpEncodeBacklen. rewrite !flag_byte.
  repeat case_if; repeat constructor; try (apply wrapu_range; lia); div_lia.
Qed.

Lemma shiftr7 l k : Z.shiftr l (7 * Z.of_nat k) = l / 128 ^ Z.of_nat k.
Proof. rewrite Z.shiftr_div_pow2, Z.pow_mul_r by lia. done. Qed.

(** Reading it backwards gives the length back. *)
Lemma decode_encode_backlen l : 0 <= l < 2 ^ 32 →
  lpDecodeBacklen (lpEncodeBacklen l) (len (lpEncodeBacklen l) - 1) = Some l.
Proof.
  intros Hl. unfold lpEncodeBacklen, lpDecodeBacklen. rewrite !flag_byte.
  rewrite (Z.shiftr_div_pow2 l 7), (Z.shiftr_div_pow2 l 14), (Z.shiftr_div_pow2 l 21),
    (Z.shiftr_div_pow2 l 28) by lia.
  change (2 ^ 7) with 128. change (2 ^ 14) with 16384. change (2 ^ 21) with 2097152.
  change (2 ^ 28) with 268435456.
  repeat case_if; cbn [length];
    repeat (erewrite decode_more; [|reflexivity|div_lia|lia|simpl; div_lia]);
    (erewrite decode_last; [|reflexivity|unfold wrapu; div_lia|lia|simpl; div_lia]);
    f_equal; unfold wrapu; simpl; div_lia.
Qed.

(** ** The header *)

Lemma u8_land x : u8 (Z.land x 0xff) = x mod 256.
Proof. rewrite land_255. apply Z.mod_mod. lia. Qed.

Lemma store_bytes_4 a b c d r v :
  lpSetTotalBytes (a :: b :: c :: d :: r) v = Some (le_bytes 4 v ++ r).
Proof.
  unfold lpSetTotalBytes. do 3 (rewrite store8_insert by len_lia; mstep).
  rewrite store8_insert by len_lia. rewrite !u8_land, !Z.shiftr_div_pow2 by lia.
  f_equal. unfold le_bytes. rewrite !Z.div_div by lia. done.
Qed.

Lemma set_total h r v : length h = 4%nat →
  lpSetTotalBytes (h ++ r) v = Some (le_bytes 4 v ++ r).
Proof.
  intros Hh. do 4 (destruct h as [|? h]; [done|]). destruct h; [|done]. apply store_bytes_4.
Qed.

Lemma set_num h h' r v : length h = 4%nat → length h' = 2%nat →
  lpSetNumElements (h ++ h' ++ r) v = Some (h ++ le_bytes 2 v ++ r).
Proof.
  intros Hh Hh'. do 2 (destruct h' as [|? h']; [done|]). destruct h'; [|done].
  unfold lpSetNumElements. cbn [app]. rewrite (store8_app h) by lia. mstep.
  rewrite cons_middle, app_assoc, (store8_app (h ++ [_])) by len_lia.
  rewrite <- app_assoc, !u8_land, !Z.shiftr_div_pow2 by lia. done.
Qed.

Lemma get_total t r : lpGetTotalBytes (le_bytes 4 t ++ r) = Some (t mod 2 ^ 32).
Proof.
  unfold lpGetTotalBytes. change (2 ^ 32) with (2 ^ (8 * Z.of_nat 4)).
  rewrite <- le_val_bytes. by apply (or_bytes_0 4 [] (le_bytes 4 t) r 0 (le_bytes_ok 4 t)).
Qed.

Lemma get_num t n r : lpGetNumElements (le_bytes 4 t ++ le_bytes 2 n ++ r) = Some (n mod 65536).
Proof.
  unfold lpGetNumElements.
  rewrite (or_bytes_0 2 _ (le_bytes 2 n)); [|apply le_bytes_ok|done..]. by rewrite le_val_bytes.
Qed.

(** ** Entries and blocks *)

(** The raw bytes of an entry whose encoded element has [L] bytes. *)
Record entry_size (e : list Z) (L : Z) : Prop := {
  es_bytes : bytes_ok e;
  es_head : load8 e 0 ≠ Some LP_EOF;
  es_size : lpCurrentEncodedSizeUnsafe e 0 = Some L;
  es_hdr : ∃ n, lpCurrentEncodedSizeBytes e 0 = Some n ∧ 1 <= n <= L;
  es_max : L < 2 ^ 32;
  es_len : len e = L + len (lpEncodeBacklen L);
  es_back : lpDecodeBacklen e (len e - 1) = Some L;
}.
Definition entry_ok (e : list Z) : Prop := ∃ L, entry_size e L.

Definition lp_total (es : list (list Z)) : Z := LP_HDR_SIZE + len (concat es) + 1.

Definition blob (num : Z) (es : list (list Z)) (slack : list Z) : list Z :=
  le_bytes 4 (lp_total es) ++ le_bytes 2 num ++ concat es ++ LP_EOF :: slack.

(** The count in the header is exact or says that it is unknown. *)
Definition num_ok (num : Z) (es : list (list Z)) : Prop :=
  0 <= num <= LP_HDR_NUMELE_UNKNOWN ∧ (num = len es ∨ num = LP_HDR_NUMELE_UNKNOWN).

Definition lp_rep (m : list Z) (es : list (list Z)) : Prop :=
  ∃ num slack, m = blob num es slack ∧ Forall entry_ok es ∧ num_ok num es ∧
    lp_total es < 2 ^ 32.

(** The offset of the entry after [pre]. *)
Definition offset (pre : list (list Z)) : Z := LP_HDR_SIZE + len (concat pre).

Lemma entry_nonempty e L : entry_size e L → 2 <= len e ∧ 1 <= L.
Proof.
  intros He. destruct (es_hdr e L He) as (n & _ & ?). rewrite (es_len e L He).
  pose proof (backlen_length L). lia.
Qed.

Lemma entry_first e L : entry_size e L → ∃ b r, e = b :: r ∧ b ≠ LP_EOF.
Proof.
  intros He. pose proof (entry_nonempty e L He). destruct e as [|b r]; [simpl in *; lia|].
  exists b, r. split; [done|]. intros ->. by apply (es_head _ _ He).
Qed.

Lemma len_concat_entries es : Forall entry_ok es → 2 * len es <= len (concat es).
Proof.
  induction 1 as [|e es [L He] _ IH]; simpl; [lia|].
  destruct (entry_nonempty e L He). len_lia.
Qed.

(** A block seen around one entry. *)
Definition before (num : Z) (es pre : list (list Z)) : list Z :=
  le_bytes 4 (lp_total es) ++ le_bytes 2 num ++ concat pre.

Lemma len_before num es pre : len (before num es pre) = offset pre.
Proof. unfold before, offset, LP_HDR_SIZE. len_lia. Qed.

Lemma blob_split num pre post slack :
  blob num (pre ++ post) slack =
  before num (pre ++ post) pre ++ concat post ++ LP_EOF :: slack.
Proof. unfold blob, before. rewrite concat_app. by rewrite <- !app_assoc. Qed.

Lemma blob_entry num pre e post slack :
  blob num (pre ++ e :: post) slack =
  before num (pre ++ e :: post) pre ++ e ++ concat post ++ LP_EOF :: slack.
Proof. rewrite blob_split. cbn [concat]. by rewrite <- !app_assoc. Qed.

Lemma blob_end num es slack : blob num es slack = before num es es ++ LP_EOF :: slack.
Proof. unfold blob, before. by rewrite <- !app_assoc. Qed.

Lemma blob_total num es slack : lp_total es < 2 ^ 32 →
  lpGetTotalBytes (blob num es slack) = Some (lp_total es).
Proof.
  intros. unfold blob. rewrite get_total, Z.mod_small; [done|].
  unfold lp_total, LP_HDR_SIZE in *. lia.
Qed.

Lemma blob_num_range num es slack : 0 <= num <= 65535 →
  lpGetNumElements (blob num es slack) = Some num.
Proof. intros. unfold blob. by rewrite get_num, Z.mod_small by lia. Qed.

Lemma blob_num num es slack : num_ok num es →
  lpGetNumElements (blob num es slack) = Some num.
Proof. intros [? _]. by apply blob_num_range. Qed.

Lemma offset_snoc pre e : offset (pre ++ [e]) = offset pre + len e.
Proof. unfold offset. rewrite concat_app. cbn [concat]. len_lia. Qed.

Lemma offset_total pre post :
  lp_total (pre ++ post) = offset pre + len (concat post) + 1.
Proof. unfold lp_total, offset. rewrite concat_app. len_lia. Qed.

Lemma offset_end es : offset es = lp_total es - 1.
Proof. unfold lp_total, offset. lia. Qed.

(** ** Moving around *)

(** An entry as lpValidateNext sees it: the length at the end is read in the
    block, and may extend to the bytes [a] before the entry. *)
Record entry_after (a e : list Z) (L : Z) : Prop := {
  ea_bytes : bytes_ok e;
  ea_head : load8 e 0 ≠ Some LP_EOF;
  ea_size : lpCurrentEncodedSizeUnsafe e 0 = Some L;
  ea_hdr : ∃ n, lpCurrentEncodedSizeBytes e 0 = Some n ∧ 1 <= n <= L;
  ea_max : L < 2 ^ 32;
  ea_len : len e = L + len (lpEncodeBacklen L);
  ea_back : lpDecodeBacklen (a ++ e) (len a + len e - 1) = Some L;
}.

Lemma entry_size_after a e L : entry_size e L → entry_after a e L.
Proof.
  intros [? ? ? ? ? ? Hb]. split; try done. rewrite <- Z.add_sub_assoc, <- (app_nil_r (a ++ e)).
  rewrite <- app_assoc. by apply decode_backlen_part.
Qed.

Lemma validate_after a e c L lpbytes : entry_after a e L →
  LP_HDR_SIZE <= len a → len a + len e < lpbytes →
  lpValidateNext (a ++ e ++ c) (Some (len a)) lpbytes = Some (1, Some (len a + len e)).
Proof.
  intros He Ha Ht. destruct (ea_hdr _ _ _ He) as (n & Hn & Hn'). pose proof (ea_head _ _ _ He).
  pose proof (backlen_length L). pose proof (ea_len _ _ _ He). pose proof (ea_max _ _ _ He).
  destruct e as [|b e]; [simpl in *; lia|]. rewrite load8_head in *.
  unfold lpValidateNext. if_false. cbn [app]. rewrite load8_app by done. mstep.
  replace (b =? LP_EOF) with false by (symmetry; apply Z.eqb_neq; congruence).
  pose proof (size_bytes_part a _ c _ _ Hn) as Hn2. rewrite Z.add_0_r in Hn2.
  pose proof (encoded_size_part a _ c _ _ (ea_size _ _ _ He)) as Hs. rewrite Z.add_0_r in Hs.
  cbn [app] in Hn2, Hs. rewrite Hn2. mstep. if_false. if_false. rewrite Hs. mstep. if_false.
  pose proof (decode_backlen_part [] _ c _ _ (ea_back _ _ _ He)) as Hd. cbn [app] in Hd.
  rewrite <- app_assoc, Z.add_0_l in Hd. cbn [app] in Hd.
  replace (len a + (L + len (lpEncodeBacklen L)) - 1) with (len a + len (b :: e) - 1) by lia.
  rewrite Hd. mstep. rewrite wrapu_small by lia. if_false. do 3 f_equal. lia.
Qed.

(** Any pointer the code works with is one of these. *)
Section nav.
Context (num : Z) (pre : list (list Z)) (e : list Z) (post : list (list Z)) (slack : list Z).
Context (L : Z) (He : entry_size e L).
Let m := blob num (pre ++ e :: post) slack.

Lemma load8_entry i x : load8 e i = Some x → load8 m (offset pre + i) = Some x.
Proof.
  unfold m. rewrite blob_entry, <- (len_before num (pre ++ e :: post)). apply load8_part.
Qed.

Lemma size_entry : lpCurrentEncodedSizeUnsafe m (offset pre) = Some L.
Proof.
  unfold m. rewrite blob_entry, <- (len_before num (pre ++ e :: post)).
  rewrite <- (Z.add_0_r (len _)). apply encoded_size_part, (es_size _ _ He).
Qed.

Lemma back_entry : lpDecodeBacklen m (offset pre + len e - 1) = Some L.
Proof.
  unfold m. rewrite blob_entry, <- (len_before num (pre ++ e :: post)).
  rewrite <- Z.add_sub_assoc. apply decode_backlen_part, (es_back _ _ He).
Qed.

Lemma head_entry : ∃ b, load8 m (offset pre) = Some b ∧ b ≠ LP_EOF.
Proof.
  destruct (load8 e 0) as [b|] eqn:Hb.
  - exists b. pose proof (load8_entry 0 b Hb) as Hl. rewrite Z.add_0_r in Hl. split; [done|].
    intros ->. by apply (es_head _ _ He).
  - pose proof (es_size _ _ He) as Hs. unfold lpCurrentEncodedSizeUnsafe in Hs.
    by rewrite Hb in Hs.
Qed.

Lemma skip_entry : lpSkip m (offset pre) = Some (offset (pre ++ [e])).
Proof.
  unfold lpSkip. rewrite size_entry. mstep. by rewrite offset_snoc, (es_len _ _ He).
Qed.

Lemma validate_entry : lp_total (pre ++ e :: post) < 2 ^ 32 →
  lpValidateNext m (Some (offset pre)) (lp_total (pre ++ e :: post)) =
  Some (1, Some (offset (pre ++ [e]))).
Proof.
  intros Ht. unfold m. rewrite blob_entry, offset_snoc.
  rewrite <- (len_before num (pre ++ e :: post) pre). apply (validate_after _ _ _ L).
  - by apply entry_size_after.
  - rewrite len_before. unfold offset, LP_HDR_SIZE. lia.
  - rewrite len_before, offset_total. cbn [concat]. len_lia.
Qed.
End nav.

(** The pointer to the entry after [pre], NULL at the end. *)
Definition cursor (pre post : list (list Z)) : option Z :=
  match post with [] => None | _ => Some (offset pre) end.

Lemma entry_at es pre e post : Forall entry_ok es → es = pre ++ e :: post →
  ∃ L, entry_size e L.
Proof. intros Hes ->. decompose_Forall. done. Qed.

Section walk.
Context (num : Z) (es : list (list Z)) (slack : list Z).
Context (Hes : Forall entry_ok es) (Ht : lp_total es < 2 ^ 32).
Let m := blob num es slack.

Lemma load8_end : load8 m (offset es) = Some LP_EOF.
Proof. unfold m. rewrite blob_end. apply load8_app. by rewrite len_before. Qed.

Lemma validate_end :
  lpValidateNext m (Some (offset es)) (lp_total es) = Some (1, None).
Proof.
  unfold lpValidateNext. rewrite offset_end. unfold lp_total, LP_HDR_SIZE in *.
  if_false. replace (_ - 1) with (offset es) by (unfold offset, LP_HDR_SIZE; lia).
  by rewrite load8_end.
Qed.

Lemma assert_valid_at pre post : es = pre ++ post →
  lpAssertValidEntry m (lp_total es) (offset pre) = Some tt.
Proof.
  intros Heq. unfold lpAssertValidEntry. destruct post as [|e post].
  - rewrite app_nil_r in Heq. subst pre. by rewrite validate_end.
  - destruct (entry_at _ _ _ _ Hes Heq) as [L He]. unfold m. rewrite Heq in *.
    by rewrite (validate_entry _ _ _ _ _ _ He Ht).
Qed.

(** Looking at the byte at a pointer tells the end from an entry. *)
Lemma at_end pre post : es = pre ++ post →
  ∃ b, load8 m (offset pre) = Some b ∧ (b =? LP_EOF) = bool_decide (post = []).
Proof.
  intros Heq. destruct post as [|e post].
  - rewrite app_nil_r in Heq. subst pre. exists LP_EOF. by rewrite load8_end.
  - destruct (entry_at _ _ _ _ Hes Heq) as [L He].
    destruct (head_entry num pre e post slack L He) as (b & Hb & Hb').
    rewrite <- Heq in Hb. exists b. split; [done|]. by apply Z.eqb_neq.
Qed.

Lemma cursor_valid pre post : es = pre ++ post →
  (if bool_decide (post = []) then Some None
   else bytes ← lpBytes m;
        lpAssertValidEntry m bytes (offset pre) ≫= λ _, Some (Some (offset pre))) =
  Some (cursor pre post).
Proof.
  intros Heq. unfold lpBytes, m. rewrite blob_total by done. mstep.
  fold m. rewrite (assert_valid_at _ _ Heq). by destruct post.
Qed.

Lemma next_spec pre e post : es = pre ++ e :: post →
  lpNext m (offset pre) = Some (cursor (pre ++ [e]) post).
Proof.
  intros Heq. destruct (entry_at _ _ _ _ Hes Heq) as [L He]. unfold lpNext.
  unfold m. rewrite Heq at 1. rewrite (skip_entry _ _ _ _ _ _ He). mstep. fold m.
  rewrite cons_middle, app_assoc in Heq. destruct (at_end _ _ Heq) as (b & -> & Hb). mstep.
  rewrite Hb. by apply cursor_valid.
Qed.

Lemma first_spec : lpFirst m = Some (cursor [] es).
Proof.
  unfold lpFirst. change LP_HDR_SIZE with (offset []).
  destruct (at_end [] es eq_refl) as (b & -> & Hb). mstep.
  rewrite Hb. by apply (cursor_valid [] es).
Qed.

Lemma prev_spec pre e post : es = pre ++ e :: post →
  lpPrev m (offset (pre ++ [e])) = Some (Some (offset pre)).
Proof.
  intros Heq. destruct (entry_at _ _ _ _ Hes Heq) as [L He]. unfold lpPrev.
  pose proof (entry_nonempty _ _ He). pose proof (backlen_length L).
  pose proof (es_len _ _ He). pose proof (es_max _ _ He).
  rewrite offset_snoc. assert (LP_HDR_SIZE <= offset pre) by (unfold offset; lia). if_false.
  unfold m. rewrite Heq at 1. rewrite (back_entry _ _ _ _ _ _ He). mstep. fold m.
  rewrite wrapu_small by lia. unfold lpBytes, m. rewrite blob_total by done. mstep. fold m.
  replace (_ - _) with (offset pre) by lia. by rewrite (assert_valid_at _ _ Heq).
Qed.

Lemma prev_first : lpPrev m (offset []) = Some None.
Proof. done. Qed.

Lemma last_spec : lpLast m = Some (match last es with
  | None => None | Some e => Some (offset (take (length es - 1) es)) end).
Proof.
  unfold lpLast, m. rewrite blob_total by done. mstep. fold m. rewrite <- offset_end.
  destruct (decide (es = [])) as [Heq|(pre & e & Heq)%exists_last].
  - rewrite Heq. apply prev_first.
  - rewrite Heq at 1. rewrite (prev_spec pre e [] Heq), Heq, last_snoc. do 3 f_equal.
    rewrite length_app, Nat.add_sub. by rewrite take_app_length.
Qed.

Lemma length_loop_spec fuel pre post count : es = pre ++ post →
  (length post <= fuel)%nat → 0 <= count → count + len post < 2 ^ 32 →
  length_loop fuel m (cursor pre post) count = Some (count + len post).
Proof.
  revert fuel pre count. induction post as [|e post IH]; intros fuel pre count Heq Hf H0 Hc.
  { destruct fuel; simpl; f_equal; lia. }
  destruct fuel as [|fuel]; simpl in Hf; [lia|]. cbn [length_loop cursor].
  rewrite (next_spec _ _ _ Heq). mstep. rewrite cons_middle, app_assoc in Heq.
  rewrite wrapu_small, (IH _ _ _ Heq) by len_lia. f_equal. len_lia.
Qed.

Lemma seek_forward_spec n pre post : es = pre ++ post →
  seek_forward n m (cursor pre post) = Some (cursor (pre ++ take n post) (drop n post)).
Proof.
  revert pre post. induction n as [|n IH]; intros pre post Heq.
  { rewrite app_nil_r. by destruct (cursor _ _). }
  destruct post as [|e post]; [by rewrite app_nil_r|]. cbn [seek_forward cursor].
  rewrite (next_spec _ _ _ Heq). mstep. rewrite cons_middle, app_assoc in Heq.
  rewrite (IH _ _ Heq). by rewrite <- app_assoc.
Qed.

(** Going back [n] entries from the one after [pre]. *)
Lemma seek_backward_spec n pre post : es = pre ++ post →
  seek_backward n m (Some (offset pre)) =
  Some (if decide (n <= length pre)%nat then Some (offset (take (length pre - n) pre)) else None).
Proof.
  revert pre post. induction n as [|n IH]; intros pre post Heq.
  { rewrite decide_True by lia. by rewrite Nat.sub_0_r, firstn_all. }
  cbn [seek_backward]. destruct (decide (pre = [])) as [->|(pre' & e & ->)%exists_last].
  { rewrite prev_first. mstep. rewrite decide_False by (simpl; lia). by destruct n. }
  rewrite <- app_assoc in Heq. rewrite (prev_spec _ _ _ Heq). mstep. rewrite (IH _ _ Heq).
  rewrite length_app. cbn [length]. f_equal. do 2 case_decide; try lia; [|done].
  do 2 f_equal. rewrite take_app_le by lia. f_equal. lia.
Qed.
End walk.

(** ** Counting and seeking *)

(** The element an index names, counting from the end when it is negative. *)
Definition lp_index (n index : Z) : option nat :=
  let i := if index <? 0 then n + index else index in
  if (0 <=? i) && (i <? n) then Some (Z.to_nat i) else None.

Lemma lp_index_out n i : n <= i → 0 <= i → lp_index n i = None.
Proof. intros. unfold lp_index. if_false. by if_false. Qed.

Lemma lp_index_some n index i : lp_index n index = Some i →
  Z.of_nat i < n ∧ Z.of_nat i = if index <? 0 then n + index else index.
Proof.
  unfold lp_index. destruct (_ && _) eqn:E; [|done]. intros [= <-]. to_prop.
  destruct (index <? 0); lia.
Qed.

Lemma lp_index_back n i : 0 <= i < n → lp_index n (i - n) = lp_index n i.
Proof.
  intros. unfold lp_index. if_true. if_false. by replace (n + (i - n)) with i by lia.
Qed.

(** Both searches start after the same adjustment. *)
Lemma lp_index_adjust n index i : i = (if index <? 0 then n + index else index) →
  lp_index n index = if 0 <=? i then lp_index n i else None.
Proof.
  unfold lp_index. intros <-. destruct (Z.leb_spec 0 i); cbn [andb]; [|done]. replace (i <? 0) with false by lia. destruct (Z.leb_spec 0 i); [done|lia].
Qed.

Lemma count_bound es : Forall entry_ok es → lp_total es < 2 ^ 32 → len es < 2 ^ 31.
Proof. intros Hes%len_concat_entries Ht. unfold lp_total, LP_HDR_SIZE in *. lia. Qed.

Lemma length_blob num es slack : len (blob num es slack) = lp_total es + len slack.
Proof. unfold blob, lp_total, LP_HDR_SIZE. len_lia. Qed.

Lemma blob_set_num num es slack v :
  lpSetNumElements (blob num es slack) v = Some (blob v es slack).
Proof. unfold blob. by rewrite set_num by len_lia. Qed.

(** What [lpLength] leaves in the header. *)
Definition counted (num n : Z) : Z :=
  if (num =? LP_HDR_NUMELE_UNKNOWN) && (n <? LP_HDR_NUMELE_UNKNOWN) then n else num.

Lemma counted_ok num es : num_ok num es → num_ok (counted num (len es)) es.
Proof. unfold num_ok, counted. intros ?. case_if; lia. Qed.

Lemma length_blob_spec num es slack :
  Forall entry_ok es → num_ok num es → lp_total es < 2 ^ 32 →
  lpLength (blob num es slack) = Some (blob (counted num (len es)) es slack, len es).
Proof.
  intros Hes Hnum Ht. unfold lpLength, counted. rewrite blob_num by done. mnext.
  destruct (Z.eqb_spec num LP_HDR_NUMELE_UNKNOWN) as [Hu|Hu]; cbn [negb andb].
  2: { destruct Hnum as [_ [->|?]]; [done|lia]. }
  rewrite first_spec by done. mnext.
  assert (2 * len es <= len (concat es)) by by apply len_concat_entries.
  rewrite (length_loop_spec _ _ _ Hes Ht); [| done | | lia | ].
  - mnext. rewrite Z.add_0_l. case_if; [by rewrite blob_set_num|done].
  - pose proof (length_blob num es slack). unfold lp_total, LP_HDR_SIZE in *. lia.
  - pose proof (count_bound es Hes Ht). lia.
Qed.

Lemma forward_spec num es slack index : Forall entry_ok es → lp_total es < 2 ^ 32 →
  0 <= index →
  (ele ← lpFirst (blob num es slack); seek_forward (Z.to_nat index) (blob num es slack) ele) =
  Some ((λ i, offset (take i es)) <$> lp_index (len es) index).
Proof.
  intros Hes Ht Hi. rewrite first_spec by done. mnext.
  rewrite (seek_forward_spec _ _ _ Hes Ht _ [] es eq_refl). unfold lp_index. if_false.
  destruct (decide (index < len es)).
  - if_true. destruct (drop _ es) eqn:Hd; [|done].
    apply (f_equal length) in Hd. rewrite length_drop in Hd. simpl in Hd. lia.
  - if_false. by rewrite drop_ge by lia.
Qed.

Lemma backward_spec num es slack index : Forall entry_ok es → lp_total es < 2 ^ 32 →
  index < 0 →
  (ele ← lpLast (blob num es slack);
   seek_backward (Z.to_nat (-1 - index)) (blob num es slack) ele) =
  Some ((λ i, offset (take i es)) <$> lp_index (len es) index).
Proof.
  intros Hes Ht Hi. rewrite last_spec by done. mnext. unfold lp_index. if_true.
  destruct (decide (es = [])) as [->|(pre & e & Heq)%exists_last].
  { simpl. by destruct index, (Z.to_nat _). }
  assert (last es = Some e) as -> by by rewrite Heq, last_snoc.
  assert (take (length es - 1) es = pre) as ->
    by by rewrite Heq, length_app, Nat.add_sub, take_app_length.
  rewrite (seek_backward_spec _ _ _ Hes Ht _ pre [e]) by done. f_equal.
  rewrite Heq, length_app. cbn [length]. case_decide.
  - if_true. cbn. rewrite take_app_le by lia. do 3 f_equal. lia.
  - by if_false.
Qed.

Lemma seek_blob_spec num es slack index :
  Forall entry_ok es → num_ok num es → lp_total es < 2 ^ 32 →
  lpSeek (blob num es slack) index =
  Some ((λ i, offset (take i es)) <$> lp_index (len es) index).
Proof.
  intros Hes Hnum Ht. unfold lpSeek. rewrite blob_num by done. mnext.
  case_if.
  - destruct Hnum as [_ [->|?]]; [|lia].
    cbv zeta. rewrite (lp_index_adjust (len es) index _ eq_refl).
    generalize (if index <? 0 then len es + index else index) as i; intros i.
    case_if; [by if_false|]. if_true.
    case_if; [by rewrite lp_index_out by lia|]. case_if.
    + rewrite backward_spec by (done || lia). by rewrite lp_index_back by lia.
    + by rewrite forward_spec by (done || lia).
  - cbv zeta. case_if; [by apply backward_spec|apply forward_spec; done || lia].
Qed.

(** ** The encoding of elements *)

Inductive int_code : Z → list Z → Prop :=
  | code_7 v : 0 <= v < 128 → int_code v [v]
  | code_13 v : -4096 <= v < 4096 → int_code v [192 + v / 256 mod 32; v mod 256]
  | code_16 v : - 2 ^ 15 <= v < 2 ^ 15 → int_code v (0xF1 :: le_bytes 2 v)
  | code_24 v : - 2 ^ 23 <= v < 2 ^ 23 → int_code v (0xF2 :: le_bytes 3 v)
  | code_32 v : - 2 ^ 31 <= v < 2 ^ 31 → int_code v (0xF3 :: le_bytes 4 v)
  | code_64 v : - 2 ^ 63 <= v < 2 ^ 63 → int_code v (0xF4 :: le_bytes 8 v).

Lemma byte_of x k : 0 <= k → Z.land (Z.shiftr x k) 0xff = x / 2 ^ k mod 256.
Proof. intros. by rewrite land_255, Z.shiftr_div_pow2. Qed.

Lemma low_bytes v w n : w = 8 * Z.of_nat n →
  le_bytes n (if v <? 0 then Z.shiftl 1 w + v else v) = le_bytes n v.
Proof.
  intros ->. case_if; [|done]. rewrite Z.shiftl_1_l.
  rewrite <- le_bytes_mod, <- (le_bytes_mod n v). f_equal.
  rewrite <- (Z.mul_1_l (2 ^ _)) at 1. rewrite Z.add_comm. apply Z_mod_plus_full.
Qed.

Lemma bytes_2 x : le_bytes 2 x = [x mod 256; x / 2 ^ 8 mod 2 ^ 8].
Proof. reflexivity. Qed.
Lemma bytes_3 x : le_bytes 3 x = [x mod 256; x / 2 ^ 8 mod 256; x / 2 ^ 16 mod 2 ^ 8].
Proof. unfold le_bytes. by rewrite !Z.div_div by lia. Qed.
Lemma bytes_4 x :
  le_bytes 4 x = [x mod 256; x / 2 ^ 8 mod 256; x / 2 ^ 16 mod 256; x / 2 ^ 24 mod 2 ^ 8].
Proof. unfold le_bytes. by rewrite !Z.div_div by lia. Qed.
Lemma bytes_8 x :
  le_bytes 8 x = [x mod 256; x / 2 ^ 8 mod 256; x / 2 ^ 16 mod 256; x / 2 ^ 24 mod 256;
    x / 2 ^ 32 mod 256; x / 2 ^ 40 mod 256; x / 2 ^ 48 mod 256; x / 2 ^ 56 mod 2 ^ 8].
Proof. unfold le_bytes. by rewrite !Z.div_div by lia. Qed.

Lemma lpEncodeIntegerGetType_code v : LLONG_MIN <= v <= LLONG_MAX →
  int_code v (lpEncodeIntegerGetType v).
Proof.
  unfold LLONG_MIN, LLONG_MAX. intros Hv. unfold lpEncodeIntegerGetType.
  case_if. { rewrite wrapu_small by lia. constructor. lia. }
  case_if.
  { change (Z.shiftl 1 13) with 8192. set (v' := if v <? 0 then _ else v).
    assert ((v' = v ∨ v' = 8192 + v) ∧ 0 <= v' < 8192) as [Hv' ?] by (unfold v'; case_if; lia).
    rewrite land_255, Z.shiftr_div_pow2 by lia. change (2 ^ 8) with 256.
    rewrite (lor_add _ _ 6) by (try (by exists 3); div_lia). rewrite wrapu_small by div_lia.
    replace (v' / 256 + 192) with (192 + v / 256 mod 32) by div_lia.
    replace (v' mod 256) with (v mod 256) by div_lia. constructor. lia. }
  rewrite !byte_of, !land_255 by lia. unfold wrapu at 1 2 3 5. rewrite !Z.shiftr_div_pow2 by lia.
  case_if; [|case_if; [|case_if]].
  - rewrite <- bytes_2, low_bytes by done. constructor. lia.
  - rewrite <- bytes_3, low_bytes by done. constructor. lia.
  - rewrite <- bytes_4, low_bytes by done. constructor. lia.
  - rewrite <- bytes_8. unfold u64. rewrite (le_bytes_mod 8). constructor. lia.
Qed.

Definition str_header (n : Z) : list Z :=
  if n <? 64 then [128 + n]
  else if n <? 4096 then [224 + n / 256; n mod 256]
  else 0xF0 :: le_bytes 4 n.

(** A decoded element. *)
Inductive lpdata := DStr (s : list Z) | DInt (v : Z).

Inductive elem_code : lpdata → list Z → Prop :=
  | code_int v enc : int_code v enc → elem_code (DInt v) enc
  | code_str s : bytes_ok s → len s < 2 ^ 32 - 5 →
      elem_code (DStr s) (str_header (len s) ++ s).

(** Decides the tests on a first byte whose range is known. *)
Ltac head_tests :=
  rewrite ?is_7bit, ?is_6bit_str, ?is_13bit, ?is_16bit, ?is_24bit, ?is_32bit, ?is_64bit,
    ?is_12bit_str, ?is_32bit_str by (unfold is_byte; div_lia);
  repeat match goal with
  | |- context [if ?b then _ else _] =>
      (replace b with true by (symmetry; div_lia)) ||
      (replace b with false by (symmetry; div_lia))
  end; cbv beta iota zeta.

Lemma code_first d enc : elem_code d enc →
  ∃ b r, enc = b :: r ∧ is_byte b ∧ b ≠ LP_EOF ∧ bytes_ok r.
Proof.
  intros Hc. unfold is_byte, LP_EOF. destruct Hc as [v enc [] | s Hs Hl];
    [| | | | | | unfold str_header; case_if; [|case_if]]; do 2 eexists; (split; [done|]);
    (split; [div_lia|]); (split; [div_lia|]);
    repeat (apply Forall_app; split); repeat constructor; try apply le_bytes_ok; try done;
    div_lia.
Qed.

Lemma tag_bytes k t v c : or_bytes k ((t :: le_bytes k v) ++ c) (0 + 1) 0 =
  Some (v mod 2 ^ (8 * Z.of_nat k)).
Proof.
  rewrite <- le_val_bytes. apply (or_bytes_0 k [t] (le_bytes k v) c); [|len_lia|done].
  apply le_bytes_ok.
Qed.

Lemma str_len_6 n r : 0 <= n < 64 → LP_ENCODING_6BIT_STR_LEN (128 + n :: r) 0 = Some n.
Proof.
  intros. unfold LP_ENCODING_6BIT_STR_LEN. rewrite load8_head. mstep.
  rewrite land_63 by (unfold is_byte; lia). f_equal. div_lia.
Qed.

Lemma str_len_12 n r : 0 <= n < 4096 →
  LP_ENCODING_12BIT_STR_LEN (224 + n / 256 :: n mod 256 :: r) 0 = Some n.
Proof.
  intros. unfold LP_ENCODING_12BIT_STR_LEN. rewrite load8_head. mstep.
  change (load8 _ (0 + 1)) with (Some (n mod 256)). mstep.
  rewrite land_15, lor_shiftl by (lia || (simpl; div_lia)). f_equal. change (2 ^ 8) with 256.
  div_lia.
Qed.

Lemma str_len_32 n c : 0 <= n < 2 ^ 32 →
  LP_ENCODING_32BIT_STR_LEN ((0xF0 :: le_bytes 4 n) ++ c) 0 = Some n.
Proof.
  intros. unfold LP_ENCODING_32BIT_STR_LEN. rewrite tag_bytes. f_equal. by apply Z.mod_small.
Qed.

Lemma size_code d enc c : elem_code d enc →
  lpCurrentEncodedSizeUnsafe (enc ++ c) 0 = Some (len enc) ∧
  ∃ n, lpCurrentEncodedSizeBytes (enc ++ c) 0 = Some n ∧ 1 <= n <= len enc.
Proof.
  intros Hc. unfold lpCurrentEncodedSizeUnsafe, lpCurrentEncodedSizeBytes.
  destruct Hc as [v enc Hi|s Hs Hl].
  { destruct Hi; cbn [app]; rewrite load8_head; mstep; head_tests;
      (split; [simpl_len; done|]); eexists; (split; [done|]); len_lia. }
  unfold str_header. case_if; [|case_if]; cbn [app]; rewrite load8_head; mstep; head_tests;
    (split; [|eexists; (split; [done|]); len_lia]).
  - rewrite str_len_6 by lia. mstep. f_equal. rewrite wrapu_small; len_lia.
  - rewrite str_len_12 by lia. mstep. f_equal. rewrite wrapu_small; len_lia.
  - rewrite <- app_assoc, app_comm_cons, str_len_32 by lia. mstep. f_equal.
    rewrite wrapu_small; len_lia.
Qed.

(** Where the bytes of a string are. *)
Definition data_value (d : lpdata) (enc : list Z) : lpvalue :=
  match d with
  | DStr s => LpStr (len enc - len s) (len s)
  | DInt v => LpInt v
  end.

(** Undoing two's complement in [k] bits. *)
Lemma decode_signed k v : 0 < k → - 2 ^ (k - 1) <= v < 2 ^ (k - 1) →
  (if v mod 2 ^ k >=? Z.shiftl 1 (k - 1) then - (2 ^ k - 1 - v mod 2 ^ k) - 1
   else v mod 2 ^ k) = v.
Proof.
  intros Hk Hv. rewrite Z.shiftl_1_l.
  assert (2 ^ k = 2 * 2 ^ (k - 1)) as Hp.
  { rewrite <- Z.pow_succ_r by lia. f_equal. lia. }
  destruct (decide (0 <= v)).
  - rewrite Z.mod_small by lia. by if_false.
  - rewrite <- (Z_mod_plus_full v 1), Z.mod_small by lia. if_true. lia.
Qed.

Lemma str_value h s k n : len h = k → n = len s →
  Some (LpStr k n, Some (k + n + len (lpEncodeBacklen (n + k)))) =
  Some (data_value (DStr s) (h ++ s),
        Some (len (h ++ s) + len (lpEncodeBacklen (len (h ++ s))))).
Proof.
  intros <- ->. unfold data_value. simpl_len. rewrite Nat2Z.inj_add.
  do 2 f_equal; [f_equal; lia|]. do 3 f_equal. do 2 f_equal. lia.
Qed.

Lemma get_code d enc c : elem_code d enc →
  lpGetWithSize (enc ++ c) 0 =
  Some (data_value d enc, Some (len enc + len (lpEncodeBacklen (len enc)))).
Proof.
  intros Hc. unfold lpGetWithSize. destruct Hc as [v enc Hi|s Hs Hl].
  - destruct Hi; cbn [app]; rewrite load8_head; mstep; head_tests;
      rewrite ?app_comm_cons, ?tag_bytes; mstep; simpl_len.
    + rewrite land_127, Z.mod_small by lia. unfold UINT64_MAX. by if_false.
    + change (load8 _ (0 + 1)) with (Some (v mod 256)). mstep.
      rewrite land_31, lor_shiftl by (lia || (simpl; div_lia)).
      replace (_ * 2 ^ 8 + v mod 256) with (v mod 2 ^ 13) by (change (2 ^ 13) with 8192; div_lia).
      by rewrite (decode_signed 13).
    + by rewrite (decode_signed 16).
    + by rewrite (decode_signed 24).
    + by rewrite (decode_signed 32).
    + by rewrite (decode_signed 64).
  - unfold str_header. case_if; [|case_if]; cbn [app]; rewrite load8_head; mstep; head_tests.
    + rewrite str_len_6 by lia. by apply (str_value [_]).
    + rewrite str_len_12 by lia. by apply (str_value [_; _]).
    + rewrite <- app_assoc, app_comm_cons, str_len_32 by lia. by apply (str_value (_ :: _)).
Qed.

(** Encoded elements followed by their length are entries. *)
Definition entry_bytes (enc : list Z) : list Z := enc ++ lpEncodeBacklen (len enc).

Lemma elem_code_length d enc : elem_code d enc → 1 <= len enc < 2 ^ 32.
Proof.
  intros Hc. destruct (code_first _ _ Hc) as (b & r & Hr & _). split; [rewrite Hr; len_lia|].
  destruct Hc as [v enc []|s Hs Hl]; simpl_len; try (simpl; lia).
  unfold str_header. repeat case_if; len_lia.
Qed.

Lemma entry_code d enc : elem_code d enc → entry_size (entry_bytes enc) (len enc).
Proof.
  intros Hc. destruct (size_code d enc (lpEncodeBacklen (len enc)) Hc) as [Hs Hn].
  pose proof (elem_code_length _ _ Hc) as Hl. pose proof (backlen_length (len enc)).
  unfold entry_bytes. split; [|..]; try done; try len_lia.
  - apply Forall_app. split; [|apply backlen_bytes].
    destruct (code_first _ _ Hc) as (b & r & -> & ? & _ & ?). by constructor.
  - destruct (code_first _ _ Hc) as (b & r & -> & _ & Hb & _). cbn [app]. rewrite load8_head.
    congruence.
  - pose proof (decode_encode_backlen (len enc) ltac:(lia)) as Hd.
    apply (decode_backlen_part enc _ []) in Hd. rewrite app_nil_r in Hd.
    rewrite <- Hd. f_equal. len_lia.
Qed.

(** ** Inserting, replacing and deleting *)

(** The integer a string is stored as. *)
Definition string_int (s : list Z) : option Z := default None (lpStringToInt64 s (len s)).

Lemma string_int_spec s : lpStringToInt64 s (len s) = Some (string_int s) ∧
  ∀ v, string_int s = Some v ↔ LLONG_MIN <= v <= LLONG_MAX ∧ s = dec_string v.
Proof.
  destruct (string2ll_spec s) as (r & Hr & Hv). change (string2ll s (len s)) with
    (lpStringToInt64 s (len s)) in Hr. unfold string_int. by rewrite Hr.
Qed.

Definition element_enc (ele : lpelement) : list Z :=
  match ele with
  | EleStr s =>
    match string_int s with
    | Some v => lpEncodeIntegerGetType v
    | None => str_header (len s) ++ s
    end
  | EleInt intenc => intenc
  | EleNone => []
  end.

(** The entry an element becomes. *)
Definition element_entries (ele : lpelement) : list (list Z) :=
  match ele with EleNone => [] | _ => [entry_bytes (element_enc ele)] end.

Definition element_ok (ele : lpelement) : Prop :=
  match ele with
  | EleStr s => bytes_ok s ∧ len s < 2 ^ 32
  | EleInt enc => ∃ v, LLONG_MIN <= v <= LLONG_MAX ∧ enc = lpEncodeIntegerGetType v
  | EleNone => True
  end.

Definition element_data (ele : lpelement) : lpdata :=
  match ele with
  | EleStr s => match string_int s with Some v => DInt v | None => DStr s end
  | _ => DStr []
  end.

Lemma length_str_header n :
  len (str_header n) = if n <? 64 then 1 else if n <? 4096 then 2 else 5.
Proof. unfold str_header. repeat case_if; simpl_len; done. Qed.

Lemma element_code ele : element_ok ele → ele ≠ EleNone → len (element_enc ele) < 2 ^ 32 →
  ∃ d, elem_code d (element_enc ele).
Proof.
  destruct ele as [s|enc|]; [|intros (v & Hv & ->) _ _|done]; simpl.
  - intros [Hs _] _ Hl. destruct (string_int s) as [v|] eqn:Hv.
    + exists (DInt v). constructor. apply lpEncodeIntegerGetType_code.
      by apply (proj2 (string_int_spec s)) in Hv as [? _].
    + exists (DStr s). constructor; [done|]. rewrite length_app, Nat2Z.inj_add in Hl.
      rewrite length_str_header in Hl. revert Hl. repeat case_if; lia.
  - exists (DInt v). constructor. by apply lpEncodeIntegerGetType_code.
Qed.

(** The first half of lpInsert: the encoded integer, if any, and the length. *)
Lemma element_type_spec ele : element_ok ele → ∃ eleint,
  match ele with
  | EleStr s => lpEncodeGetType s (len s)
  | EleInt intenc => Some (Some intenc, len intenc)
  | EleNone => Some (None, 0)
  end = Some (eleint, len (element_enc ele)) ∧
  match eleint with
  | Some enc => enc = element_enc ele
  | None => match ele with
            | EleStr s => element_enc ele = str_header (len s) ++ s | EleInt _ => False | EleNone => True end
  end.
Proof.
  destruct ele as [s|enc|]; intros Hok; [|by eexists..].
  unfold lpEncodeGetType. destruct (string_int_spec s) as [-> _]. mstep. simpl.
  destruct (string_int s) as [v|]; [by eexists (Some _)|exists None; split; [|done]].
  do 2 f_equal. rewrite length_app, Nat2Z.inj_add, length_str_header. repeat case_if; lia.
Qed.

Lemma lor_byte n k x : 0 <= k → 0 <= n < 2 ^ k → x mod 2 ^ k = 0 → 0 <= n + x < 256 →
  u8 (Z.lor n x) = n + x.
Proof.
  intros Hk Hn Hx ?. rewrite (lor_add _ _ k); [|lia|done|].
  - by apply wrapu_small.
  - exists (x / 2 ^ k). rewrite Z.mul_comm. apply Z_div_exact_full_2; lia.
Qed.

Lemma encode_string_spec a g c s buf : buf = len a → len g = len (str_header (len s)) + len s →
  len s < 2 ^ 32 →
  lpEncodeString (a ++ g ++ c) buf s (len s) = Some (a ++ (str_header (len s) ++ s) ++ c).
Proof.
  intros -> Hg Hs. rewrite length_str_header in Hg. unfold lpEncodeString, str_header.
  destruct (Z.ltb_spec (len s) 64); [|destruct (Z.ltb_spec (len s) 4096)].
  - destruct g as [|x g]; [simpl in Hg; lia|]. cbn [app]. rewrite store8_app by done. mstep.
    rewrite cons_middle, app_assoc, (store_app (a ++ [_])) by len_lia. f_equal.
    rewrite (lor_byte _ 6) by (done || lia). rewrite <- app_assoc. cbn [app].
    by rewrite (Z.add_comm 128).
  - do 2 (destruct g as [|? g]; [simpl in Hg; lia|]). cbn [app].
    rewrite store8_app by done. mstep.
    rewrite cons_middle, app_assoc, (store8_app (a ++ [_])) by len_lia. mstep.
    rewrite cons_middle, app_assoc, (store_app ((a ++ [_]) ++ [_])) by len_lia. f_equal.
    rewrite Z.shiftr_div_pow2 by lia. change (2 ^ 8) with 256.
    rewrite (lor_byte _ 5) by (done || div_lia). rewrite u8_land.
    rewrite <- !app_assoc. cbn [app]. by rewrite (Z.add_comm 224).
  - do 5 (destruct g as [|? g]; [simpl in Hg; lia|]). cbn [app].
    rewrite store8_app by done. mstep.
    rewrite cons_middle, app_assoc, (store8_app (a ++ [_])) by len_lia. mstep.
    do 3 (rewrite cons_middle, app_assoc, store8_app by len_lia; mstep).
    rewrite cons_middle, app_assoc, store_app by len_lia. f_equal.
    rewrite !u8_land, !Z.shiftr_div_pow2, bytes_4 by lia. rewrite <- !app_assoc. done.
Qed.

Section insert.
Context `{Malloc}.

(** Making room: the two reallocations and the move between them. *)
Lemma make_room a r t s old new n : old = len a + len r + len t → new = len a + n + len t →
  0 <= n → (0 < length t)%nat →
  ∃ g s1 s2 s3,
    (let m := a ++ r ++ t ++ s in
     if (new >? old) && (new >? lp_malloc_size m) then lp_realloc m new else m) =
      a ++ r ++ t ++ s1 ∧
    memmove (a ++ r ++ t ++ s1) (len a + n) (len a + len r) (len t) =
      Some (a ++ g ++ t ++ s2) ∧
    (let m := a ++ g ++ t ++ s2 in if new <? old then lp_realloc m new else m) =
      a ++ g ++ t ++ s3 ∧ len g = n.
Proof.
  intros -> -> Hn Ht. unfold lp_malloc_size, lp_realloc. cbv zeta.
  pose proof (usable_size_ge (len a + n + len t)) as Hu.
  destruct (decide (len a + n + len t <= len (a ++ r ++ t ++ s))) as [Hfit|Hfit].
  - destruct (memmove_splice a r t s n _ _ _ Hn eq_refl eq_refl eq_refl) as (g & s2 & Hm & Hg & _).
    { len_lia. }
    destruct (realloc_keep junk (a ++ g ++ t) s2 _ ltac:(etransitivity; [|exact Hu]; len_lia))
      as (s3 & Hs3 & _).
    rewrite <- !app_assoc in Hs3. exists g, s, s2, (if len a + n + len t <? len a + len r + len t then s3 else s2).
    split; [by if_false|]. split; [done|]. split; [by case_if|done].
  - destruct (realloc_keep junk (a ++ r ++ t ++ s) [] (usable_size (len a + n + len t)))
      as (s1' & Hs1 & Hl1); [lia|].
    rewrite app_nil_r, <- !app_assoc in Hs1.
    destruct (memmove_splice a r t (s ++ s1') n _ _ _ Hn eq_refl eq_refl eq_refl)
      as (g & s2 & Hm & Hg & _); [len_lia|].
    exists g, (s ++ s1'), s2, s2. split; [by if_true|]. split; [done|]. split; [by if_false|done].
Qed.

Definition is_delete (ele : lpelement) : bool :=
  match ele with EleNone => true | _ => false end.

(** What the code needs to know of the encoded integer it found. *)
Definition eleint_ok (ele : lpelement) (eleint : option (list Z)) : Prop :=
  match eleint with
  | Some enc => enc = element_enc ele
  | None =>
    match ele with
    | EleStr s => element_enc ele = str_header (len s) ++ s ∧ len s < 2 ^ 32
    | EleInt _ => False
    | EleNone => True
    end
  end.

Lemma write_element ele eleint a g t dst : eleint_ok ele eleint → dst = len a →
  len g = len (concat (element_entries ele)) →
  (if is_delete ele then Some (a ++ g ++ t)
   else
     m ← match eleint, ele with
         | Some intenc, _ => store (a ++ g ++ t) dst intenc
         | None, EleStr s => lpEncodeString (a ++ g ++ t) dst s (len s)
         | None, _ => None
         end;
     store m (dst + len (element_enc ele))
       (if is_delete ele then [] else lpEncodeBacklen (len (element_enc ele)))) =
  Some (a ++ concat (element_entries ele) ++ t).
Proof.
  intros Hok -> Hg. destruct (is_delete ele) eqn:Hd.
  { destruct ele; try done. by destruct g. }
  assert (concat (element_entries ele) = entry_bytes (element_enc ele)) as Heq
    by (destruct ele; simpl; by rewrite ?app_nil_r).
  rewrite Heq in *. unfold entry_bytes in *. set (enc := element_enc ele) in *.
  rewrite <- (take_drop (length enc) g), <- (app_assoc (take _ _)).
  assert (match eleint, ele with
       | Some intenc, _ => store (a ++ take (length enc) g ++ drop (length enc) g ++ t) (len a) intenc
       | None, EleStr s =>
         lpEncodeString (a ++ take (length enc) g ++ drop (length enc) g ++ t) (len a) s (len s)
       | None, _ => None
       end = Some (a ++ enc ++ drop (length enc) g ++ t)) as ->.
  { destruct eleint as [i|]; simpl in Hok.
    - subst i. apply store_app; len_lia.
    - destruct ele as [s| |]; [|done..]. destruct Hok as [Henc ?].
      change (element_enc _) with enc in Henc. clearbody enc. subst enc.
      apply encode_string_spec; [done|len_lia|done]. }
  mstep. rewrite app_assoc, (store_app (a ++ enc)) by len_lia. by rewrite <- !app_assoc.
Qed.

(** The count lpInsert leaves: [c] says that it changes, [delete] how. *)
Definition new_count (c delete : bool) (num : Z) : Z :=
  if c && negb (num =? LP_HDR_NUMELE_UNKNOWN)
  then if delete then u32 (num - 1) else num + 1 else num.

Lemma update_header t num r new (c delete : bool) (newp : option Z) : 0 <= num <= 65535 →
  let m := le_bytes 4 t ++ le_bytes 2 num ++ r in
  (m ← (if c then
          num_elements ← lpGetNumElements m;
          if negb (num_elements =? LP_HDR_NUMELE_UNKNOWN) then
            if delete then lpSetNumElements m (u32 (num_elements - 1))
            else lpSetNumElements m (num_elements + 1)
          else Some m
        else Some m);
   m ← lpSetTotalBytes m new;
   Some (Some (m, newp))) =
  Some (Some (le_bytes 4 new ++ le_bytes 2 (new_count c delete num) ++ r, newp)).
Proof.
  intros Hn m. unfold new_count. destruct c; cbn [andb].
  - unfold m. rewrite get_num, Z.mod_small by lia. mstep. destruct (negb _); [destruct delete|];
      rewrite ?set_num by len_lia; mstep; by rewrite set_total by len_lia.
  - mstep. unfold m. by rewrite set_total by len_lia.
Qed.

Lemma new_count_ok num pre mid post (ele : lpelement) :
  num_ok num (pre ++ mid ++ post) → (length mid <= 1)%nat → (ele = EleNone → mid ≠ []) →
  num_ok (new_count (negb (bool_decide (mid ≠ [])) || is_delete ele) (is_delete ele) num)
    (pre ++ element_entries ele ++ post).
Proof.
  intros [Hr Hn] Hmid Hdel. unfold new_count, num_ok in *.
  unfold LP_HDR_NUMELE_UNKNOWN in *. simpl_len.
  destruct mid as [|e [|]]; [| |simpl in Hmid; lia]; destruct ele; simpl in *; try done;
    try (by destruct (Hdel eq_refl)); destruct (Z.eqb_spec num 65535); simpl;
    rewrite ?wrapu_small; lia.
Qed.

Lemma length_entries ele : len (concat (element_entries ele)) =
  len (element_enc ele) +
  len (if is_delete ele then [] else lpEncodeBacklen (len (element_enc ele))).
Proof. destruct ele; [| |done]; simpl; unfold entry_bytes; len_lia. Qed.

(** The byte lpInsert looks at to set [*newp]. *)
Lemma load8_dst num pre mid post ele g s :
  Forall entry_ok post → (ele = EleNone → g = []) →
  ∃ b, load8 (before num (pre ++ mid ++ post) pre ++ g ++ (concat post ++ [LP_EOF]) ++ s)
         (offset pre) = Some b ∧
    is_delete ele && (b =? LP_EOF) = is_delete ele && bool_decide (post = []).
Proof.
  intros Hpost Hg. rewrite <- (len_before num (pre ++ mid ++ post)).
  destruct (is_delete ele) eqn:Hd; cbn [andb].
  - rewrite Hg by by destruct ele. cbn [app]. destruct post as [|e post].
    + exists LP_EOF. cbn [concat app]. by rewrite load8_app.
    + inversion_clear Hpost as [|? ? [L He] _].
      destruct (entry_first e L He) as (b & r & -> & Hb). exists b. cbn [concat app].
      rewrite load8_app by done. split; [done|]. by apply Z.eqb_neq.
  - destruct (g ++ _) as [|b r] eqn:Hr; [by destruct g, (concat post)|].
    exists b. by rewrite load8_app.
Qed.

(** The insertion after the place and the sizes are known: [rlen] bytes at
    [poff] give way to the element. *)
Lemma insert_splice num pre mid post slack ele eleint (replace : bool) new rlen :
  num_ok num (pre ++ mid ++ post) → Forall entry_ok post → eleint_ok ele eleint →
  rlen = len (concat mid) → replace = bool_decide (mid ≠ []) → (length mid <= 1)%nat →
  new = lp_total (pre ++ element_entries ele ++ post) → new <= UINT32_MAX →
  (ele = EleNone → mid ≠ []) →
  let m := blob num (pre ++ mid ++ post) slack in
  let old := lp_total (pre ++ mid ++ post) in
  let delete := is_delete ele in
  let enclen := len (element_enc ele) in
  let backlen := if delete then [] else lpEncodeBacklen enclen in
  let dst := offset pre in
  ∃ num' slack',
    (let m := if (new >? old) && (new >? lp_malloc_size m) then lp_realloc m new else m in
    m ← (if replace then
           let lendiff := enclen + len backlen - rlen in
           memmove m (dst + rlen + lendiff) (dst + rlen) (old - dst - rlen)
         else memmove m (dst + enclen + len backlen) dst (old - dst));
    let m := if new <? old then lp_realloc m new else m in
    b ← load8 m dst;
    let newp := if delete && (b =? LP_EOF) then None else Some dst in
    m ← (if delete then Some m
         else
           m ← match eleint, ele with
               | Some intenc, _ => store m dst intenc
               | None, EleStr s => lpEncodeString m dst s (len s)
               | None, _ => None
               end;
           store m (dst + enclen) backlen);
    m ← (if negb replace || delete then
           num_elements ← lpGetNumElements m;
           if negb (num_elements =? LP_HDR_NUMELE_UNKNOWN) then
             if delete then lpSetNumElements m (u32 (num_elements - 1))
             else lpSetNumElements m (num_elements + 1)
           else Some m
         else Some m);
    m ← lpSetTotalBytes m new;
    Some (Some (m, newp))) =
    Some (Some (blob num' (pre ++ element_entries ele ++ post) slack',
      if delete && bool_decide (post = []) then None else Some dst)) ∧
    num_ok num' (pre ++ element_entries ele ++ post).
Proof.
  intros Hnum Hpost Hint -> -> Hmid -> Hmax Hdel m old delete enclen backlen dst.
  destruct (make_room (before num (pre ++ mid ++ post) pre) (concat mid)
    (concat post ++ [LP_EOF]) slack old (lp_total (pre ++ element_entries ele ++ post))
    (enclen + len backlen)) as (g & s1 & s2 & s3 & H1 & H2 & H3 & Hg).
  { unfold old. rewrite len_before, offset_total, concat_app. len_lia. }
  { rewrite len_before, offset_total, concat_app. pose proof (length_entries ele) as Hx.
    fold delete enclen in Hx. fold backlen in Hx. len_lia. }
  1-2: len_lia.
  replace m with (before num (pre ++ mid ++ post) pre ++ concat mid ++
    (concat post ++ [LP_EOF]) ++ slack) by (unfold m; rewrite blob_split, concat_app;
    by rewrite <- !app_assoc).
  cbv zeta in H1, H3 |- *. rewrite H1.
  replace (if bool_decide _ then _ else _) with
    (Some (before num (pre ++ mid ++ post) pre ++ g ++ (concat post ++ [LP_EOF]) ++ s2)).
  2: { rewrite <- H2, len_before. unfold old. rewrite offset_total, concat_app.
       case_bool_decide as Hc; [|assert (length (concat mid) = 0%nat) by by rewrite Hc];
         f_equal; fold dst; len_lia. }
  mnext. rewrite H3.
  destruct (load8_dst num pre mid post ele g s3 Hpost) as (b & Hb & Hnewp).
  { intros ->. by destruct g. }
  fold delete in Hnewp. unfold dst. rewrite Hb. mnext. rewrite Hnewp.
  replace (if delete then Some _ else _) with
    (Some (before num (pre ++ mid ++ post) pre ++ concat (element_entries ele) ++
      (concat post ++ [LP_EOF]) ++ s3)).
  2: { symmetry. apply write_element; [done|by rewrite len_before|].
       by rewrite Hg, length_entries. }
  mnext. unfold before. rewrite <- !app_assoc, update_header by apply Hnum.
  exists (new_count (negb (bool_decide (mid ≠ [])) || delete) delete num), s3.
  split; [|by apply new_count_ok]. unfold blob. rewrite !concat_app.
  by rewrite <- !app_assoc.
Qed.

(** What an insertion, replacement or deletion has to give: the block of the
    new entries, or NULL when it would not fit its 32-bit size. *)
Definition insert_result (r : option (option (list Z * option Z))) (es : list (list Z))
    (newp : option Z) : Prop :=
  if UINT32_MAX <? lp_total es then r = Some None
  else ∃ m, r = Some (Some (m, newp)) ∧ lp_rep m es.

Lemma entries_ok ele pre post : element_ok ele →
  lp_total (pre ++ element_entries ele ++ post) <= UINT32_MAX →
  Forall entry_ok (element_entries ele).
Proof.
  intros Hok Ht. rewrite offset_total, concat_app in Ht. simpl_len.
  pose proof (length_entries ele). unfold offset, LP_HDR_SIZE, UINT32_MAX in *.
  destruct (is_delete ele) eqn:Hd; [by destruct ele|].
  destruct (element_code ele) as [d Hd']; [done|by destruct ele|lia|].
  destruct ele; [| |done]; repeat constructor; eexists; by eapply entry_code.
Qed.

(** The conclusion from [insert_splice]. *)
Lemma splice_result pre mid post ele num' slack' :
  Forall entry_ok (pre ++ mid ++ post) → element_ok ele →
  lp_total (pre ++ element_entries ele ++ post) <= UINT32_MAX →
  num_ok num' (pre ++ element_entries ele ++ post) →
  lp_rep (blob num' (pre ++ element_entries ele ++ post) slack')
    (pre ++ element_entries ele ++ post).
Proof.
  intros Hes Hok Ht Hn. pose proof (entries_ok _ _ _ Hok Ht). unfold UINT32_MAX in Ht.
  exists num', slack'. split; [done|]. decompose_Forall.
  split; [by repeat apply Forall_app_2|]. split; [done|lia].
Qed.

Lemma element_type_ok ele : element_ok ele → ∃ eleint,
  match ele with
  | EleStr s => lpEncodeGetType s (len s)
  | EleInt intenc => Some (Some intenc, len intenc)
  | EleNone => Some (None, 0)
  end = Some (eleint, len (element_enc ele)) ∧ eleint_ok ele eleint.
Proof.
  intros Hok. destruct (element_type_spec ele Hok) as (eleint & -> & Hi).
  exists eleint. split; [done|]. destruct eleint; [done|]. by destruct ele; simpl in *; naive_solver.
Qed.

Lemma element_enc_length ele : element_ok ele → len (element_enc ele) < 2 ^ 33.
Proof.
  assert (Hint : ∀ v, len (lpEncodeIntegerGetType v) < 2 ^ 33)
    by (intros v; unfold lpEncodeIntegerGetType; repeat case_if; simpl; lia).
  destruct ele as [s|enc|]; simpl; [|intros (v & _ & ->); apply Hint|lia].
  intros [_ Hl]. destruct (string_int s); [apply Hint|].
  rewrite length_app, Nat2Z.inj_add, length_str_header. repeat case_if; lia.
Qed.

Lemma insert_before_spec num pre post slack ele :
  Forall entry_ok (pre ++ post) → num_ok num (pre ++ post) → lp_total (pre ++ post) < 2 ^ 32 →
  element_ok ele → ele ≠ EleNone →
  insert_result (lpInsert (blob num (pre ++ post) slack) ele (offset pre) LP_BEFORE)
    (pre ++ element_entries ele ++ post) (Some (offset pre)).
Proof.
  intros Hes Hnum Ht Hok Hne. unfold insert_result, lpInsert.
  change (match ele with EleNone => true | _ => false end) with (is_delete ele).
  assert (is_delete ele = false) as Hd by by destruct ele. rewrite Hd.
  cbv zeta. mnext.
  destruct (element_type_ok ele Hok) as (eleint & -> & Hi). mnext.
  rewrite blob_total by done. mnext. mnext.
  pose proof (length_entries ele) as Hx. rewrite Hd in Hx.
  assert (Hnew : u64 (lp_total (pre ++ post) + len (element_enc ele) +
     len (lpEncodeBacklen (len (element_enc ele))) - 0) =
    lp_total (pre ++ element_entries ele ++ post)).
  { pose proof (backlen_length (len (element_enc ele))). pose proof (element_enc_length ele Hok).
    rewrite offset_total in Ht. rewrite !offset_total, concat_app.
    assert (LP_HDR_SIZE <= offset pre) by (unfold offset; lia). unfold LP_HDR_SIZE in *.
    simpl_len. rewrite wrapu_small; lia. }
  rewrite Hnew.
  destruct (Z.ltb_spec UINT32_MAX (lp_total (pre ++ element_entries ele ++ post))).
  { by if_true. }
  if_false. destruct (insert_splice num pre [] post slack ele eleint false
    (lp_total (pre ++ element_entries ele ++ post)) 0) as (num' & slack' & Heq & Hn); try done.
  { by decompose_Forall. }
  { simpl; lia. }
  cbv zeta in Heq. rewrite Hd in Heq. eexists. split; [exact Heq|]. by apply (splice_result pre []).
Qed.

(** The length of the entry that is replaced. *)
Lemma replaced_spec num pre e post slack :
  Forall entry_ok (pre ++ e :: post) → lp_total (pre ++ e :: post) < 2 ^ 32 →
  let m := blob num (pre ++ e :: post) slack in
  (l ← lpCurrentEncodedSizeUnsafe m (offset pre);
   ASSERT_INTEGRITY_LEN m (offset pre) (u32 (l + len (lpEncodeBacklen l))) ≫=
   λ _, Some (u32 (l + len (lpEncodeBacklen l)))) = Some (len e).
Proof.
  intros Hes Ht m. destruct (entry_at _ pre e post Hes eq_refl) as [L He]. unfold m.
  rewrite (size_entry _ _ _ _ _ _ He). mnext. rewrite <- (es_len _ _ He).
  pose proof (offset_total pre (e :: post)) as Hold. cbn [concat] in Hold.
  assert (6 <= offset pre) by (unfold offset, LP_HDR_SIZE; lia).
  rewrite (wrapu_small 32) by len_lia. unfold ASSERT_INTEGRITY_LEN. rewrite blob_total by done.
  mnext. unfold assert, LP_HDR_SIZE. by if_true.
Qed.

Lemma insert_replace_spec num pre e post slack ele :
  Forall entry_ok (pre ++ e :: post) → num_ok num (pre ++ e :: post) →
  lp_total (pre ++ e :: post) < 2 ^ 32 → element_ok ele →
  insert_result (lpInsert (blob num (pre ++ e :: post) slack) ele (offset pre) LP_REPLACE)
    (pre ++ element_entries ele ++ post)
    (if is_delete ele && bool_decide (post = []) then None else Some (offset pre)).
Proof.
  intros Hes Hnum Ht Hok. unfold insert_result, lpInsert.
  change (match ele with EleNone => true | _ => false end) with (is_delete ele).
  replace (if is_delete ele then LP_REPLACE else LP_REPLACE) with LP_REPLACE by by case_if.
  cbv zeta. mnext. destruct (element_type_ok ele Hok) as (eleint & -> & Hi). mnext.
  rewrite blob_total by done. mnext. rewrite replaced_spec by done. mnext.
  pose proof (length_entries ele) as Hx.
  pose proof (element_enc_length ele Hok). pose proof (offset_total pre (e :: post)) as Hold.
  pose proof (offset_total pre (element_entries ele ++ post)) as Hnew.
  rewrite concat_app in Hnew. cbn [concat] in Hold.
  assert (6 <= offset pre) by (unfold offset, LP_HDR_SIZE; lia).
  assert (len (if is_delete ele then [] else lpEncodeBacklen (len (element_enc ele))) <= 5)
    by (case_if; [simpl; lia|apply backlen_length]).
  rewrite (wrapu_small 64) by len_lia.
  replace (lp_total (pre ++ e :: post) + _ + _ - _)
    with (lp_total (pre ++ element_entries ele ++ post)) by len_lia.
  destruct (Z.ltb_spec UINT32_MAX (lp_total (pre ++ element_entries ele ++ post))).
  { by if_true. }
  replace (lp_total (pre ++ element_entries ele ++ post) >? UINT32_MAX) with false by lia.
  destruct (insert_splice num pre [e] post slack ele eleint true
    (lp_total (pre ++ element_entries ele ++ post)) (len e)) as (num' & slack' & Heq & Hn); try done.
  { by decompose_Forall. }
  { simpl. by rewrite app_nil_r. }
  cbv zeta in Heq. eexists. split; [exact Heq|]. by apply (splice_result pre [e]).
Qed.

(** Inserting after an entry is inserting before the next. *)
Lemma insert_after_spec num pre e post slack ele :
  Forall entry_ok (pre ++ e :: post) → num_ok num (pre ++ e :: post) →
  lp_total (pre ++ e :: post) < 2 ^ 32 → element_ok ele → ele ≠ EleNone →
  insert_result (lpInsert (blob num (pre ++ e :: post) slack) ele (offset pre) LP_AFTER)
    (pre ++ e :: element_entries ele ++ post) (Some (offset (pre ++ [e]))).
Proof.
  intros Hes Hnum Ht Hok Hne. destruct (entry_at _ pre e post Hes eq_refl) as [L He].
  assert (lpInsert (blob num (pre ++ e :: post) slack) ele (offset pre) LP_AFTER =
    lpInsert (blob num (pre ++ e :: post) slack) ele (offset (pre ++ [e])) LP_BEFORE) as ->.
  { assert (ASSERT_INTEGRITY (blob num (pre ++ e :: post) slack) (offset (pre ++ [e])) = Some tt)
      as Ha.
    { unfold ASSERT_INTEGRITY. rewrite blob_total by done. mnext. unfold assert.
      rewrite offset_snoc, offset_total. cbn [concat]. unfold offset, LP_HDR_SIZE. by if_true. }
    unfold lpInsert. destruct ele; [| |done]; cbv zeta;
      rewrite (skip_entry _ _ _ _ _ _ He); mnext; rewrite Ha; by mnext. }
  pose proof (insert_before_spec num (pre ++ [e]) post slack ele) as Hb.
  rewrite <- !app_assoc in Hb. by apply Hb.
Qed.
End insert.
