(* ===== verification/Skiplist.v ===== *)
(** The skiplist of sorted sets: src/redis-7.0.0/src/t_zset.c.

    Nodes live in a heap, a finite map from addresses to nodes; each node has
    an array of levels with a forward pointer and its span, the number of
    elements it crosses.  A read of an address that is not allocated, or of a
    level a node does not have, gives [None], and so does a failed assertion.
    The level zslRandomLevel draws is an argument of the insertion, and the
    hash table side of a sorted set a parameter of the range deletions.

    This file has the code; SkiplistSpec.v what it does. *)
From stdpp Require Import gmap.
From S2P Require Import Prelude.
Local Open Scope Z_scope.

(** ** Scores *)

(** A double as comparisons see it: finite values are the multiples of
    2^-1074 they are, so that zero has one sign. *)
Inductive double := NaN | NegInf | Fin (v : Z) | PosInf.

Definition isnan (x : double) : bool := match x with NaN => true | _ => false end.

(** [x < y] and [x == y]; every comparison with NaN is false. *)
Definition dlt (x y : double) : bool :=
  match x, y with
  | NaN, _ | _, NaN => false
  | NegInf, NegInf => false
  | NegInf, _ => true
  | _, NegInf => false
  | PosInf, _ => false
  | _, PosInf => true
  | Fin v, Fin w => v <? w
  end.
Definition deq (x y : double) : bool :=
  match x, y with
  | NegInf, NegInf | PosInf, PosInf => true
  | Fin v, Fin w => v =? w
  | _, _ => false
  end.
Definition dle (x y : double) : bool := dlt x y || deq x y.

(** ** Strings *)

(** The sign of [memcmp] on the common prefix, and of [sdscmp]. *)
Fixpoint memcmp (a b : list Z) : Z :=
  match a, b with
  | x :: a, y :: b => if x =? y then memcmp a b else if x <? y then -1 else 1
  | _, _ => 0
  end.
Definition sdscmp (s1 s2 : list Z) : Z :=
  let l1 := len s1 in
  let l2 := len s2 in
  let cmp := memcmp s1 s2 in
  if cmp =? 0 then (if l1 >? l2 then 1 else if l1 <? l2 then -1 else 0) else cmp.

(** ** Nodes *)

Definition ZSKIPLIST_MAXLEVEL : nat := 32.

(** Spans and lengths count nodes that are in memory, so they do not wrap. *)
Record zskiplistLevel := mk_level { forward : option nat; span : Z }.

(** The header has no element. *)
Record zskiplistNode := mk_node {
  node_ele : option (list Z);
  node_score : double;
  backward : option nat;
  levels : list zskiplistLevel;
}.

Record zskiplist := mk_zsl {
  header : nat;
  tail : option nat;
  zlength : Z;
  zlevel : nat;
}.

Abbreviation heap := (gmap nat zskiplistNode).

Definition get_level (h : heap) (x i : nat) : option zskiplistLevel :=
  node ← h !! x; levels node !! i.

Definition set_level (h : heap) (x i : nat) (lv : zskiplistLevel) : option heap :=
  node ← h !! x;
  if (i <? length (levels node))%nat
  then Some (<[x := mk_node (node_ele node) (node_score node) (backward node)
                            (<[i := lv]> (levels node))]> h)
  else None.

(** [x->level[i].forward = f] and [x->level[i].span = s]. *)
Definition set_forward (h : heap) (x i : nat) (f : option nat) : option heap :=
  lv ← get_level h x i; set_level h x i (mk_level f (span lv)).
Definition set_span (h : heap) (x i : nat) (s : Z) : option heap :=
  lv ← get_level h x i; set_level h x i (mk_level (forward lv) s).

Definition set_backward (h : heap) (x : nat) (b : option nat) : option heap :=
  node ← h !! x;
  Some (<[x := mk_node (node_ele node) (node_score node) b (levels node)]> h).
Definition set_score (h : heap) (x : nat) (s : double) : option heap :=
  node ← h !! x;
  Some (<[x := mk_node (node_ele node) s (backward node) (levels node)]> h).

(** [zmalloc] gives an address not in use; the fields it leaves unset are
    written before they are read. *)
Definition zslCreateNode (h : heap) (level : nat) (score : double) (ele : option (list Z)) :
    heap * nat :=
  let x := fresh (dom h) in
  (<[x := mk_node ele score None (replicate level (mk_level None 0))]> h, x).

Definition zslCreate (h : heap) : heap * zskiplist :=
  let '(h, x) := zslCreateNode h ZSKIPLIST_MAXLEVEL (Fin 0) None in
  (h, mk_zsl x None 0 1).

Definition zslFreeNode (h : heap) (x : nat) : option heap :=
  _ ← h !! x; Some (delete x h).

(** [while(node)]. *)
Fixpoint free_loop (fuel : nat) (h : heap) (node : option nat) : option heap :=
  match node with
  | None => Some h
  | Some x =>
    match fuel with
    | O => None
    | S fuel =>
      lv ← get_level h x 0;
      h ← zslFreeNode h x;
      free_loop fuel h (forward lv)
    end
  end.

Definition zslFree (h : heap) (zsl : zskiplist) : option heap :=
  lv ← get_level h (header zsl) 0;
  free_loop (size h) (delete (header zsl) h) (forward lv).

(** [random() < threshold] for the drawn numbers, at most as many as there are
    levels. *)
Fixpoint random_level_loop (draws : list bool) (level : nat) : nat :=
  match draws with
  | true :: draws => random_level_loop draws (level + 1)
  | _ => level
  end.
Definition zslRandomLevel (draws : list bool) : nat :=
  let level := random_level_loop draws 1 in
  if (level <? ZSKIPLIST_MAXLEVEL)%nat then level else ZSKIPLIST_MAXLEVEL.

(** ** Searching *)

(** [while (x->level[i].forward && ...) x = x->level[i].forward], with the
    crossed spans added up; [go traversed level next] is the condition on the
    next node. *)
Fixpoint walk (fuel : nat) (h : heap) (go : Z → zskiplistLevel → zskiplistNode → bool)
    (x i : nat) (traversed : Z) : option (nat * Z) :=
  match fuel with
  | O => None
  | S fuel =>
    lv ← get_level h x i;
    match forward lv with
    | None => Some (x, traversed)
    | Some f =>
      node ← h !! f;
      if go traversed lv node then walk fuel h go f i (traversed + span lv)
      else Some (x, traversed)
    end
  end.

(** [for (i = zsl->level-1; i >= 0; i--)]: the node reached, [update] and
    [rank]. *)
Fixpoint descend (h : heap) (go : Z → zskiplistLevel → zskiplistNode → bool)
    (n x : nat) (traversed : Z) (update : list nat) (rank : list Z) :
    option (nat * list nat * list Z) :=
  match n with
  | O => Some (x, update, rank)
  | S i =>
    '(x, traversed) ← walk (S (size h)) h go x i traversed;
    descend h go i x traversed (x :: update) (traversed :: rank)
  end.

Definition search (h : heap) (zsl : zskiplist)
    (go : Z → zskiplistLevel → zskiplistNode → bool) : option (nat * list nat * list Z) :=
  descend h go (zlevel zsl) (header zsl) 0 [] [].

(** The element of a node that is not the header. *)
Definition ele_of (node : zskiplistNode) : list Z := default [] (node_ele node).

(** [score < s || (score == s && sdscmp(ele,e) < 0)] of the next node. *)
Definition key_before (score : double) (ele : list Z) (node : zskiplistNode) : bool :=
  dlt (node_score node) score ||
  (deq (node_score node) score && (sdscmp (ele_of node) ele <? 0)).

Definition before_key (score : double) (ele : list Z) (_ : Z) (_ : zskiplistLevel)
    (node : zskiplistNode) : bool := key_before score ele node.

(** ** Insertion *)

(** [for (i = zsl->level; i < level; i++)] for the levels above the list's. *)
Fixpoint raise_loop (n i : nat) (h : heap) (zsl : zskiplist) (update : list nat)
    (rank : list Z) : option (heap * list nat * list Z) :=
  match n with
  | O => Some (h, update, rank)
  | S n =>
    h ← set_span h (header zsl) i (zlength zsl);
    raise_loop n (S i) h zsl (update ++ [header zsl]) (rank ++ [0])
  end.

(** [for (i = 0; i < level; i++)]: links the new node [x]. *)
Fixpoint link_loop (n i : nat) (h : heap) (x : nat) (update : list nat) (rank : list Z) :
    option heap :=
  match n with
  | O => Some h
  | S n =>
    u ← update !! i;
    rank0 ← rank !! 0%nat;
    ranki ← rank !! i;
    lv ← get_level h u i;
    h ← set_forward h x i (forward lv);
    h ← set_forward h u i (Some x);
    lv ← get_level h u i;
    h ← set_span h x i (span lv - (rank0 - ranki));
    h ← set_span h u i (rank0 - ranki + 1);
    link_loop n (S i) h x update rank
  end.

(** [for (i = level; i < zsl->level; i++) update[i]->level[i].span++]. *)
Fixpoint untouched_loop (n i : nat) (h : heap) (update : list nat) : option heap :=
  match n with
  | O => Some h
  | S n =>
    u ← update !! i;
    lv ← get_level h u i;
    h ← set_span h u i (span lv + 1);
    untouched_loop n (S i) h update
  end.

(** [level] is what zslRandomLevel returned. *)
Definition zslInsert (h : heap) (zsl : zskiplist) (score : double) (ele : list Z)
    (level : nat) : option (heap * zskiplist * nat) :=
  if isnan score then None
  else
    '(_, update, rank) ← search h zsl (before_key score ele);
    '(h, update, rank) ← raise_loop (level - zlevel zsl) (zlevel zsl) h zsl update rank;
    let zl := if (zlevel zsl <? level)%nat then level else zlevel zsl in
    let '(h, x) := zslCreateNode h level score (Some ele) in
    h ← link_loop level 0 h x update rank;
    h ← untouched_loop (zl - level) level h update;
    u0 ← update !! 0%nat;
    h ← set_backward h x (if (u0 =? header zsl)%nat then None else Some u0);
    lv ← get_level h x 0;
    '(h, tl) ← match forward lv with
      | Some f => h ← set_backward h f (Some x); Some (h, tail zsl)
      | None => Some (h, Some x)
      end;
    Some (h, mk_zsl (header zsl) tl (zlength zsl + 1) zl, x).

(** ** Deletion *)

(** [for (i = 0; i < zsl->level; i++)] of zslDeleteNode. *)
Fixpoint unlink_loop (n i : nat) (h : heap) (x : nat) (update : list nat) : option heap :=
  match n with
  | O => Some h
  | S n =>
    u ← update !! i;
    lv ← get_level h u i;
    h ← (if bool_decide (forward lv = Some x) then
           xlv ← get_level h x i;
           h ← set_span h u i (span lv + (span xlv - 1));
           set_forward h u i (forward xlv)
         else set_span h u i (span lv - 1));
    unlink_loop n (S i) h x update
  end.

(** [while(zsl->level > 1 && zsl->header->level[zsl->level-1].forward == NULL)]. *)
Fixpoint lower_level (level : nat) (h : heap) (hd : nat) : option nat :=
  match level with
  | S (S _ as l) =>
    lv ← get_level h hd l;
    match forward lv with
    | None => lower_level l h hd
    | Some _ => Some level
    end
  | _ => Some level
  end.

Definition zslDeleteNode (h : heap) (zsl : zskiplist) (x : nat) (update : list nat) :
    option (heap * zskiplist) :=
  h ← unlink_loop (zlevel zsl) 0 h x update;
  node ← h !! x;
  lv ← levels node !! 0%nat;
  '(h, tl) ← match forward lv with
    | Some f => h ← set_backward h f (backward node); Some (h, tail zsl)
    | None => Some (h, backward node)
    end;
  zl ← lower_level (zlevel zsl) h (header zsl);
  Some (h, mk_zsl (header zsl) tl (zlength zsl - 1) zl).

(** [*node = x] when [keep], else the node is freed. *)
Definition zslDelete (h : heap) (zsl : zskiplist) (score : double) (ele : list Z)
    (keep : bool) : option (heap * zskiplist * option nat * Z) :=
  '(x, update, _) ← search h zsl (before_key score ele);
  lv ← get_level h x 0;
  match forward lv with
  | None => Some (h, zsl, None, 0)
  | Some x =>
    node ← h !! x;
    if deq score (node_score node) && (sdscmp (ele_of node) ele =? 0) then
      '(h, zsl) ← zslDeleteNode h zsl x update;
      if keep then Some (h, zsl, Some x, 1)
      else h ← zslFreeNode h x; Some (h, zsl, None, 1)
    else Some (h, zsl, None, 0)
  end.

(** [level] is drawn when the node has to be inserted anew. *)
Definition zslUpdateScore (h : heap) (zsl : zskiplist) (curscore : double) (ele : list Z)
    (newscore : double) (level : nat) : option (heap * zskiplist * nat) :=
  '(x, update, _) ← search h zsl (before_key curscore ele);
  lv ← get_level h x 0;
  x ← forward lv;
  node ← h !! x;
  if deq curscore (node_score node) && (sdscmp (ele_of node) ele =? 0) then
    lv ← levels node !! 0%nat;
    back_ok ← match backward node with
      | None => Some true
      | Some b => nb ← h !! b; Some (dlt (node_score nb) newscore)
      end;
    same_place ← (if back_ok : bool then
        match forward lv with
        | None => Some true
        | Some f => nf ← h !! f; Some (dlt newscore (node_score nf))
        end
      else Some false);
    if same_place : bool then h ← set_score h x newscore; Some (h, zsl, x)
    else
      '(h, zsl) ← zslDeleteNode h zsl x update;
      '(h, zsl, newnode) ← zslInsert h zsl newscore (ele_of node) level;
      h ← zslFreeNode h x;
      Some (h, zsl, newnode)
  else None.

(** ** Ranges of scores *)

Record zrangespec := mk_range { rmin : double; rmax : double; rminex : bool; rmaxex : bool }.

Definition zslValueGteMin (value : double) (spec : zrangespec) : bool :=
  if rminex spec then dlt (rmin spec) value else dle (rmin spec) value.
Definition zslValueLteMax (value : double) (spec : zrangespec) : bool :=
  if rmaxex spec then dlt value (rmax spec) else dle value (rmax spec).

Definition zslIsInRange (h : heap) (zsl : zskiplist) (range : zrangespec) : option bool :=
  if dlt (rmax range) (rmin range) ||
     (deq (rmin range) (rmax range) && (rminex range || rmaxex range)) then Some false
  else
    match tail zsl with
    | None => Some false
    | Some x =>
      node ← h !! x;
      if negb (zslValueGteMin (node_score node) range) then Some false
      else
        lv ← get_level h (header zsl) 0;
        match forward lv with
        | None => Some false
        | Some x => node ← h !! x; Some (zslValueLteMax (node_score node) range)
        end
    end.

(** NULL is [Some None]. *)
Definition zslFirstInRange (h : heap) (zsl : zskiplist) (range : zrangespec) :
    option (option nat) :=
  inrange ← zslIsInRange h zsl range;
  if negb inrange then Some None
  else
    '(x, _, _) ← search h zsl (λ _ _ node, negb (zslValueGteMin (node_score node) range));
    lv ← get_level h x 0;
    x ← forward lv;
    node ← h !! x;
    Some (if negb (zslValueLteMax (node_score node) range) then None else Some x).

Definition zslLastInRange (h : heap) (zsl : zskiplist) (range : zrangespec) :
    option (option nat) :=
  inrange ← zslIsInRange h zsl range;
  if negb inrange then Some None
  else
    '(x, _, _) ← search h zsl (λ _ _ node, zslValueLteMax (node_score node) range);
    node ← h !! x;
    Some (if negb (zslValueGteMin (node_score node) range) then None else Some x).

(** ** Ranges of strings *)

(** A bound is a string or one of the shared objects for the smallest and the
    largest string, which are compared by address. *)
Inductive lexbound := LexMin | LexMax | LexStr (s : list Z).

Record zlexrangespec := mk_lexrange {
  lmin : lexbound; lmax : lexbound; lminex : bool; lmaxex : bool
}.

(** A string is never at the address of another one here. *)
Definition sdscmplex (a b : lexbound) : Z :=
  match a, b with
  | LexMin, LexMin | LexMax, LexMax => 0
  | LexMin, _ | _, LexMax => -1
  | LexMax, _ | _, LexMin => 1
  | LexStr a, LexStr b => sdscmp a b
  end.

Definition zslLexValueGteMin (value : list Z) (spec : zlexrangespec) : bool :=
  if lminex spec then sdscmplex (LexStr value) (lmin spec) >? 0
  else sdscmplex (LexStr value) (lmin spec) >=? 0.
Definition zslLexValueLteMax (value : list Z) (spec : zlexrangespec) : bool :=
  if lmaxex spec then sdscmplex (LexStr value) (lmax spec) <? 0
  else sdscmplex (LexStr value) (lmax spec) <=? 0.

Definition zslIsInLexRange (h : heap) (zsl : zskiplist) (range : zlexrangespec) :
    option bool :=
  let cmp := sdscmplex (lmin range) (lmax range) in
  if (cmp >? 0) || ((cmp =? 0) && (lminex range || lmaxex range)) then Some false
  else
    match tail zsl with
    | None => Some false
    | Some x =>
      node ← h !! x;
      if negb (zslLexValueGteMin (ele_of node) range) then Some false
      else
        lv ← get_level h (header zsl) 0;
        match forward lv with
        | None => Some false
        | Some x => node ← h !! x; Some (zslLexValueLteMax (ele_of node) range)
        end
    end.

Definition zslFirstInLexRange (h : heap) (zsl : zskiplist) (range : zlexrangespec) :
    option (option nat) :=
  inrange ← zslIsInLexRange h zsl range;
  if negb inrange then Some None
  else
    '(x, _, _) ← search h zsl (λ _ _ node, negb (zslLexValueGteMin (ele_of node) range));
    lv ← get_level h x 0;
    x ← forward lv;
    node ← h !! x;
    Some (if negb (zslLexValueLteMax (ele_of node) range) then None else Some x).

Definition zslLastInLexRange (h : heap) (zsl : zskiplist) (range : zlexrangespec) :
    option (option nat) :=
  inrange ← zslIsInLexRange h zsl range;
  if negb inrange then Some None
  else
    '(x, _, _) ← search h zsl (λ _ _ node, zslLexValueLteMax (ele_of node) range);
    node ← h !! x;
    Some (if negb (zslLexValueGteMin (ele_of node) range) then None else Some x).

(** A range argument, the bytes of a string object: its bound and whether it
    is exclusive, or an error.  The buffer ends in a NUL after its length. *)
Definition zslParseLexRangeItem (c : list Z) : option (lexbound * bool) :=
  match c with
  | 43 :: r => match r with [] | 0 :: _ => Some (LexMax, true) | _ => None end
  | 45 :: r => match r with [] | 0 :: _ => Some (LexMin, true) | _ => None end
  | 40 :: r => Some (LexStr r, true)
  | 91 :: r => Some (LexStr r, false)
  | _ => None
  end.

(** [None] is C_ERR; an argument is [None] when it is integer encoded. *)
Definition zslParseLexRange (min max : option (list Z)) : option zlexrangespec :=
  min ← min; max ← max;
  '(lo, minex) ← zslParseLexRangeItem min;
  '(hi, maxex) ← zslParseLexRangeItem max;
  Some (mk_lexrange lo hi minex maxex).

(** ** Deleting ranges *)

Section ranges.
(** The hash table of the sorted set and its dictDelete. *)
Context {D : Type} (dictDelete : D → list Z → option D).

(** [while (x && ...)] with the condition [stay traversed node]; the number of
    removed nodes is counted in [removed]. *)
Fixpoint delete_loop (fuel : nat) (stay : Z → zskiplistNode → bool) (h : heap)
    (zsl : zskiplist) (dict : D) (x : option nat) (update : list nat)
    (traversed removed : Z) : option (heap * zskiplist * D * Z) :=
  match x with
  | None => Some (h, zsl, dict, removed)
  | Some x =>
    match fuel with
    | O => None
    | S fuel =>
      node ← h !! x;
      if stay traversed node then
        lv ← levels node !! 0%nat;
        '(h, zsl) ← zslDeleteNode h zsl x update;
        dict ← dictDelete dict (ele_of node);
        h ← zslFreeNode h x;
        delete_loop fuel stay h zsl dict (forward lv) update (traversed + 1) (removed + 1)
      else Some (h, zsl, dict, removed)
    end
  end.

Definition zslDeleteRangeByScore (h : heap) (zsl : zskiplist) (range : zrangespec) (dict : D) :
    option (heap * zskiplist * D * Z) :=
  '(x, update, _) ← search h zsl (λ _ _ node, negb (zslValueGteMin (node_score node) range));
  lv ← get_level h x 0;
  delete_loop (size h) (λ _ node, zslValueLteMax (node_score node) range)
    h zsl dict (forward lv) update 0 0.

Definition zslDeleteRangeByLex (h : heap) (zsl : zskiplist) (range : zlexrangespec) (dict : D) :
    option (heap * zskiplist * D * Z) :=
  '(x, update, _) ← search h zsl (λ _ _ node, negb (zslLexValueGteMin (ele_of node) range));
  lv ← get_level h x 0;
  delete_loop (size h) (λ _ node, zslLexValueLteMax (ele_of node) range)
    h zsl dict (forward lv) update 0 0.

(** [start] and [end] are 1-based and 32 bits wide. *)
Definition zslDeleteRangeByRank (h : heap) (zsl : zskiplist) (start end_ : Z) (dict : D) :
    option (heap * zskiplist * D * Z) :=
  '(x, update, rank) ← search h zsl (λ traversed lv _, traversed + span lv <? start);
  traversed ← rank !! 0%nat;
  let traversed := traversed + 1 in
  lv ← get_level h x 0;
  delete_loop (size h) (λ traversed _, traversed <=? end_)
    h zsl dict (forward lv) update traversed 0.

End ranges.

(** ** Ranks *)

Fixpoint get_rank_loop (n : nat) (h : heap) (score : double) (ele : list Z) (x : nat)
    (rank : Z) : option Z :=
  match n with
  | O => Some 0
  | S i =>
    '(x, rank) ← walk (S (size h)) h (λ _ _ node,
        dlt (node_score node) score ||
        (deq (node_score node) score && (sdscmp (ele_of node) ele <=? 0))) x i rank;
    node ← h !! x;
    match node_ele node with
    | Some e =>
      if deq (node_score node) score && (sdscmp e ele =? 0) then Some rank
      else get_rank_loop i h score ele x rank
    | None => get_rank_loop i h score ele x rank
    end
  end.

Definition zslGetRank (h : heap) (zsl : zskiplist) (score : double) (ele : list Z) : option Z :=
  get_rank_loop (zlevel zsl) h score ele (header zsl) 0.

Fixpoint by_rank_loop (n : nat) (h : heap) (rank : Z) (x : nat) (traversed : Z) :
    option (option nat) :=
  match n with
  | O => Some None
  | S i =>
    '(x, traversed) ← walk (S (size h)) h
      (λ traversed lv _, traversed + span lv <=? rank) x i traversed;
    if traversed =? rank then Some (Some x) else by_rank_loop i h rank x traversed
  end.

Definition zslGetElementByRank (h : heap) (zsl : zskiplist) (rank : Z) : option (option nat) :=
  by_rank_loop (zlevel zsl) h rank (header zsl) 0.
