(* ===== verification/SkiplistSpec.v ===== *)
(** Skiplists as lists of elements: representation and lemmas for Skiplist.v.

    [zsl_rep h zsl xs] says that the heap [h] and the struct [zsl] hold the
    elements [xs]: every forward pointer of level [i] leads to the next node
    with more than [i] levels and its span counts the nodes on the way,
    whatever the levels that were drawn.  The theorems are in
    SkiplistTheorems.v. *)
From stdpp Require Import gmap sorting.
From S2P Require Import Prelude Skiplist.
Local Open Scope Z_scope.

(** ** The order of elements *)

Fixpoint lexcmp (a b : list Z) : comparison :=
  match a, b with
  | [], [] => Eq
  | [], _ => Lt
  | _, [] => Gt
  | x :: a, y :: b => match x ?= y with Eq => lexcmp a b | c => c end
  end.

Lemma sdscmp_lexcmp a b :
  sdscmp a b = match lexcmp a b with Eq => 0 | Lt => -1 | Gt => 1 end.
Proof.
  unfold sdscmp. revert b. induction a as [|x a IH]; intros [|y b]; try done.
  specialize (IH b). cbn [memcmp lexcmp]. destruct (Z.compare_spec x y) as [->|Hlt|Hgt].
  - rewrite Z.eqb_refl. rewrite <- IH. case_if; [|done]. cbn [length].
    repeat case_if; lia.
  - replace (x =? y) with false by lia. by replace (x <? y) with true by lia.
  - replace (x =? y) with false by lia. by replace (x <? y) with false by lia.
Qed.

Lemma lexcmp_refl a : lexcmp a a = Eq.
Proof. induction a as [|x a IH]; [done|]. cbn. by rewrite Z.compare_refl. Qed.

Lemma lexcmp_eq a b : lexcmp a b = Eq → a = b.
Proof.
  revert b. induction a as [|x a IH]; intros [|y b]; try done. cbn.
  destruct (Z.compare_spec x y); [|done..]. intros ?%IH. congruence.
Qed.

Lemma lexcmp_sym a b : lexcmp b a = CompOpp (lexcmp a b).
Proof.
  revert b. induction a as [|x a IH]; intros [|y b]; try done. cbn.
  rewrite (Z.compare_antisym x y). destruct (x ?= y); [apply IH|done..].
Qed.

Lemma lexcmp_trans a b c : lexcmp a b = Lt → lexcmp b c = Lt → lexcmp a c = Lt.
Proof.
  revert b c. induction a as [|x a IH]; intros [|y b] [|z c]; try done. cbn.
  destruct (Z.compare_spec x y), (Z.compare_spec y z), (Z.compare_spec x z);
    try done; try lia. apply IH.
Qed.

(** An element with its node's address and number of levels. *)
Record elem := mk_elem { aid : nat; aht : nat; ascore : double; aele : list Z }.

(** The order of the list: by score, then by element. *)
Definition key_lt (s1 : double) (e1 : list Z) (s2 : double) (e2 : list Z) : bool :=
  dlt s1 s2 || (deq s1 s2 && (sdscmp e1 e2 <? 0)).

Abbreviation real s := (isnan s = false) (only parsing).

Lemma dlt_trans x y z : dlt x y = true → dlt y z = true → dlt x z = true.
Proof. destruct x, y, z; simpl; try done. lia. Qed.
Lemma deq_true x y : deq x y = true → x = y.
Proof. destruct x, y; simpl; try done. intros ?%Z.eqb_eq. congruence. Qed.
Lemma deq_sym x y : deq x y = deq y x.
Proof. destruct x, y; simpl; try done. apply Z.eqb_sym. Qed.
Lemma deq_refl x : real x → deq x x = true.
Proof. destruct x; simpl; try done. lia. Qed.
Lemma dlt_irrefl x : dlt x x = false.
Proof. destruct x; simpl; try done. lia. Qed.
Lemma dlt_total x y : real x → real y → dlt x y = true ∨ x = y ∨ dlt y x = true.
Proof.
  destruct x, y; simpl; auto; try done. intros _ _.
  destruct (Z.lt_trichotomy v v0) as [?|[->|?]]; [left|right; left|right; right]; try done; lia.
Qed.
Lemma dlt_asym x y : dlt x y = true → dlt y x = false ∧ deq x y = false ∧ deq y x = false.
Proof. destruct x, y; simpl; try done. lia. Qed.

Lemma key_lt_spec s1 e1 s2 e2 : key_lt s1 e1 s2 e2 = true ↔
  dlt s1 s2 = true ∨ deq s1 s2 = true ∧ lexcmp e1 e2 = Lt.
Proof.
  unfold key_lt. rewrite sdscmp_lexcmp, orb_true_iff, andb_true_iff.
  destruct (lexcmp e1 e2); cbn; intuition congruence.
Qed.

Lemma key_lt_trans s1 e1 s2 e2 s3 e3 :
  key_lt s1 e1 s2 e2 = true → key_lt s2 e2 s3 e3 = true → key_lt s1 e1 s3 e3 = true.
Proof.
  rewrite !key_lt_spec. intros [H1|[H1 H1']] [H2|[H2 H2']].
  - left. by eapply dlt_trans.
  - apply deq_true in H2 as ->. auto.
  - apply deq_true in H1 as ->. auto.
  - apply deq_true in H1 as ->. right. eauto using lexcmp_trans.
Qed.

Lemma key_lt_irrefl s e : key_lt s e s e = false.
Proof.
  apply not_true_is_false. rewrite key_lt_spec, dlt_irrefl, lexcmp_refl. naive_solver.
Qed.

Lemma key_lt_asym s1 e1 s2 e2 : key_lt s1 e1 s2 e2 = true → key_lt s2 e2 s1 e1 = false.
Proof.
  intros H1. apply not_true_is_false. intros H2.
  pose proof (key_lt_trans _ _ _ _ _ _ H1 H2) as H. by rewrite key_lt_irrefl in H.
Qed.

Lemma key_lt_total s1 e1 s2 e2 : real s1 → real s2 →
  key_lt s1 e1 s2 e2 = true ∨ (s1 = s2 ∧ e1 = e2) ∨ key_lt s2 e2 s1 e1 = true.
Proof.
  intros H1 H2. rewrite !key_lt_spec.
  destruct (dlt_total s1 s2 H1 H2) as [?|[->|?]]; [auto| |auto].
  rewrite deq_refl by done. rewrite (lexcmp_sym e1 e2).
  destruct (lexcmp e1 e2) eqn:E; [apply lexcmp_eq in E as ->|..]; simpl; auto 10.
Qed.

Definition elem_lt (a b : elem) : Prop := key_lt (ascore a) (aele a) (ascore b) (aele b) = true.

(** ** The heap *)

(** A node without its levels. *)
Definition base (h : heap) (x : nat) : option (option (list Z) * double * option nat) :=
  (λ n, (node_ele n, node_score n, backward n)) <$> h !! x.

Definition same_base (h h' : heap) : Prop := ∀ y, base h' y = base h y.

(** [h'] is [h] with the level [i] of [x] changed to [lv]. *)
Definition level_set (h : heap) (x i : nat) (lv : zskiplistLevel) (h' : heap) : Prop :=
  same_base h h' ∧
  ∀ y j, get_level h' y j = if decide (y = x ∧ j = i) then Some lv else get_level h y j.

Lemma set_level_spec h x i lv lv0 : get_level h x i = Some lv0 →
  ∃ h', set_level h x i lv = Some h' ∧ level_set h x i lv h'.
Proof.
  unfold get_level, set_level. destruct (h !! x) as [n|] eqn:Hn; [|done]. mstep. intros Hi.
  apply lookup_lt_Some in Hi as Hlt. apply Nat.ltb_lt in Hlt as ->. eexists. split; [done|].
  split.
  - intros y. unfold base. destruct (decide (y = x)) as [->|Hy].
    + by rewrite lookup_insert_eq, Hn.
    + by rewrite lookup_insert_ne by done.
  - intros y j. unfold get_level. destruct (decide (y = x ∧ j = i)) as [[-> ->]|Hne].
    + rewrite lookup_insert_eq. cbn. apply list_lookup_insert_eq. by eapply lookup_lt_Some.
    + destruct (decide (y = x)) as [->|Hy].
      * rewrite lookup_insert_eq, Hn. cbn. apply list_lookup_insert_ne. naive_solver.
      * by rewrite lookup_insert_ne by done.
Qed.

Lemma set_forward_spec h x i f lv : get_level h x i = Some lv →
  ∃ h', set_forward h x i f = Some h' ∧ level_set h x i (mk_level f (span lv)) h'.
Proof. intros Hi. unfold set_forward. rewrite Hi. mstep. by eapply set_level_spec. Qed.

Lemma set_span_spec h x i s lv : get_level h x i = Some lv →
  ∃ h', set_span h x i s = Some h' ∧ level_set h x i (mk_level (forward lv) s) h'.
Proof. intros Hi. unfold set_span. rewrite Hi. mstep. by eapply set_level_spec. Qed.

Lemma same_base_refl h : same_base h h.
Proof. by intros y. Qed.
Lemma same_base_trans h1 h2 h3 : same_base h1 h2 → same_base h2 h3 → same_base h1 h3.
Proof. intros H1 H2 y. by rewrite H2. Qed.

(** [set_backward] and [set_score] leave the levels alone. *)
Lemma set_backward_spec h x b e s b0 : base h x = Some (e, s, b0) →
  ∃ h', set_backward h x b = Some h' ∧ (∀ y j, get_level h' y j = get_level h y j) ∧
    ∀ y, base h' y = if decide (y = x) then Some (e, s, b) else base h y.
Proof.
  unfold base, set_backward. destruct (h !! x) as [n|] eqn:Hn; [|done]. intros [= <- <- <-].
  eexists. split; [done|]. split.
  - intros y j. unfold get_level. destruct (decide (y = x)) as [->|Hy].
    + by rewrite lookup_insert_eq, Hn.
    + by rewrite lookup_insert_ne by done.
  - intros y. destruct (decide (y = x)) as [->|Hy].
    + by rewrite lookup_insert_eq.
    + by rewrite lookup_insert_ne by done.
Qed.

Lemma set_score_spec h x s e s0 b : base h x = Some (e, s0, b) →
  ∃ h', set_score h x s = Some h' ∧ (∀ y j, get_level h' y j = get_level h y j) ∧
    ∀ y, base h' y = if decide (y = x) then Some (e, s, b) else base h y.
Proof.
  unfold base, set_score. destruct (h !! x) as [n|] eqn:Hn; [|done]. intros [= <- <- <-].
  eexists. split; [done|]. split.
  - intros y j. unfold get_level. destruct (decide (y = x)) as [->|Hy].
    + by rewrite lookup_insert_eq, Hn.
    + by rewrite lookup_insert_ne by done.
  - intros y. destruct (decide (y = x)) as [->|Hy].
    + by rewrite lookup_insert_eq.
    + by rewrite lookup_insert_ne by done.
Qed.

Lemma base_lookup h x e s b : base h x = Some (e, s, b) →
  ∃ n, h !! x = Some n ∧ node_ele n = e ∧ node_score n = s ∧ backward n = b.
Proof. unfold base. destruct (h !! x) as [n|]; [|done]. intros [= <- <- <-]. by exists n. Qed.

(** ** Levels *)

(** What level [i] of a node must be when [l] are the elements after it. *)
Fixpoint link (i : nat) (l : list elem) : zskiplistLevel :=
  match l with
  | [] => mk_level None 0
  | a :: l =>
    if (i <? aht a)%nat then mk_level (Some (aid a)) 1
    else mk_level (forward (link i l)) (span (link i l) + 1)
  end.

Abbreviation short i := (Forall (λ b, (aht b <= i)%nat)).

Lemma link_short i q l : short i q →
  link i (q ++ l) = mk_level (forward (link i l)) (span (link i l) + len q).
Proof.
  induction 1 as [|b q Hb _ IH]; cbn [link app length].
  - destruct (link i l). by rewrite Z.add_0_r.
  - replace (i <? aht b)%nat with false by (symmetry; by apply Nat.ltb_ge). rewrite IH. cbn.
    f_equal. lia.
Qed.

Lemma link_tall i a l : (i < aht a)%nat → link i (a :: l) = mk_level (Some (aid a)) 1.
Proof. intros Hi. cbn [link]. by apply Nat.ltb_lt in Hi as ->. Qed.

(** What comes after a tall node does not matter. *)
Lemma link_stop i q b l l' : b ∈ q → (i < aht b)%nat → link i (q ++ l) = link i (q ++ l').
Proof.
  intros Hb Hi. induction q as [|a q IH]; [set_solver|]. cbn [link app].
  destruct (i <? aht a)%nat eqn:Ha; [done|]. apply elem_of_cons in Hb as [->|Hb].
  - apply Nat.ltb_ge in Ha. lia.
  - by rewrite IH.
Qed.

Lemma first_tall i q : short i q ∨ ∃ q1 b q2, q = q1 ++ b :: q2 ∧ short i q1 ∧ (i < aht b)%nat.
Proof.
  induction q as [|a q IH]; [by left|]. destruct (decide (i < aht a)%nat).
  - right. exists [], a, q. auto.
  - destruct IH as [?|(q1 & b & q2 & -> & ? & ?)].
    + left. constructor; [lia|done].
    + right. exists (a :: q1), b, q2. split; [done|]. split; [constructor; [lia|done]|done].
Qed.

Lemma link_none i l : forward (link i l) = None ↔ short i l.
Proof.
  destruct (first_tall i l) as [Hs|(q1 & b & q2 & -> & Hs & Hb)].
  - split; [done|]. intros _. rewrite <- (app_nil_r l), link_short by done. done.
  - rewrite link_short, link_tall by done. split; [done|].
    intros [_ Hf]%Forall_app. inversion Hf. lia.
Qed.

Lemma link_forward i l x : forward (link i l) = Some x → ∃ q1 b q2,
  l = q1 ++ b :: q2 ∧ x = aid b ∧ short i q1 ∧ (i < aht b)%nat.
Proof.
  destruct (first_tall i l) as [Hs%link_none|(q1 & b & q2 & -> & Hs & Hb)]; [congruence|].
  rewrite link_short, link_tall by done. intros [= <-]. eauto 10.
Qed.

(** ** Representation *)

(** The levels below [zl] of the nodes of [l], when [tl] comes after them. *)
Definition links_ok (h : heap) (zl : nat) (l tl : list elem) : Prop :=
  ∀ p a q i, l = p ++ a :: q → (i < aht a)%nat → (i < zl)%nat →
    get_level h (aid a) i = Some (link i (q ++ tl)).

(** The other fields of the nodes; [prev] is the node before them. *)
Fixpoint bases_ok (h : heap) (prev : option nat) (l : list elem) : Prop :=
  match l with
  | [] => True
  | a :: l =>
    base h (aid a) = Some (Some (aele a), ascore a, prev) ∧ bases_ok h (Some (aid a)) l
  end.

Definition last_id (prev : option nat) (l : list elem) : option nat :=
  match last l with Some a => Some (aid a) | None => prev end.

(** The header as an element that is always there. *)
Definition hdr (zsl : zskiplist) : elem := mk_elem (header zsl) ZSKIPLIST_MAXLEVEL (Fin 0) [].

Record zsl_rep (h : heap) (zsl : zskiplist) (xs : list elem) : Prop := {
  rep_nodup : NoDup (header zsl :: (aid <$> xs));
  rep_links : links_ok h (zlevel zsl) (hdr zsl :: xs) [];
  rep_top : ∀ i, (zlevel zsl <= i < ZSKIPLIST_MAXLEVEL)%nat →
    ∃ s, get_level h (header zsl) i = Some (mk_level None s);
  rep_hdr : ∃ s b, base h (header zsl) = Some (None, s, b);
  rep_bases : bases_ok h None xs;
  rep_tail : tail zsl = last_id None xs;
  rep_len : zlength zsl = len xs;
  rep_lvl : (1 <= zlevel zsl <= ZSKIPLIST_MAXLEVEL)%nat;
  rep_hts : Forall (λ a, 1 <= aht a <= zlevel zsl)%nat xs;
  rep_max : zlevel zsl = 1%nat ∨ ∃ a, a ∈ xs ∧ aht a = zlevel zsl;
  rep_real : Forall (λ a, real (ascore a)) xs;
  rep_sorted : StronglySorted elem_lt xs;
}.

Lemma links_app h zl l1 l2 tl :
  links_ok h zl (l1 ++ l2) tl ↔ links_ok h zl l1 (l2 ++ tl) ∧ links_ok h zl l2 tl.
Proof.
  split.
  - intros Hl. split; intros p a q i -> Hi Hz.
    + rewrite (Hl p a (q ++ l2) i); [by rewrite <- app_assoc|by rewrite <- app_assoc|done..].
    + apply (Hl (l1 ++ p) a q i); [by rewrite <- app_assoc|done..].
  - intros [H1 H2] p a q i Heq Hi Hz.
    apply app_eq_inv in Heq as [(k & Hl1 & Hk)|(k & -> & ->)].
    + destruct k as [|b k]; cbn in Hk.
      * subst l2. rewrite app_nil_r in Hl1. subst. by apply (H2 [] a q i).
      * injection Hk as <- ->. rewrite <- app_assoc. by apply (H1 p a k i).
    + by apply (H2 k a q i).
Qed.

Lemma bases_app h prev l1 l2 :
  bases_ok h prev (l1 ++ l2) ↔ bases_ok h prev l1 ∧ bases_ok h (last_id prev l1) l2.
Proof.
  revert prev. induction l1 as [|a l1 IH]; intros prev; cbn [app bases_ok]; [naive_solver|].
  rewrite IH. unfold last_id. rewrite last_cons. destruct (last l1); naive_solver.
Qed.

Lemma bases_base h prev l p a q : bases_ok h prev l → l = p ++ a :: q →
  base h (aid a) = Some (Some (aele a), ascore a, last_id prev p).
Proof. intros Hb ->. apply bases_app in Hb as [_ Hb]. apply Hb. Qed.

Lemma bases_same h h' prev l : (∀ a, a ∈ l → base h' (aid a) = base h (aid a)) →
  bases_ok h prev l → bases_ok h' prev l.
Proof.
  revert prev. induction l as [|a l IH]; intros prev Hsame; [done|]. cbn.
  intros [Ha Hl]. rewrite Hsame by set_solver. split; [done|]. apply IH; [set_solver|done].
Qed.

Lemma links_same h h' zl l tl :
  (∀ a i, a ∈ l → (i < aht a)%nat → (i < zl)%nat → get_level h' (aid a) i = get_level h (aid a) i) →
  links_ok h zl l tl → links_ok h' zl l tl.
Proof. intros Hsame Hl p a q i -> Hi Hz. rewrite Hsame by set_solver. by apply (Hl p a q i). Qed.

(** ** Searching *)

(** [us] and [rs] have, for each level, the last node of [hd :: pre] that has
    this level, and its rank. *)
Definition update_ok (zl : nat) (hd : elem) (pre : list elem) (us : list nat) (rs : list Z) :
    Prop :=
  ∀ i, (i < zl)%nat → ∃ p a q, hd :: pre = p ++ a :: q ∧ us !! i = Some (aid a) ∧
    rs !! i = Some (len p) ∧ (i < aht a)%nat ∧ short i q.

Section search.
Context (h : heap) (zl : nat) (hd : elem) (pre post : list elem).
Context (Hlinks : links_ok h zl (hd :: pre ++ post) []).
Context (go : Z → zskiplistLevel → zskiplistNode → bool).
(** The condition holds for the nodes of [pre] and for no later one. *)
Context (Hgo : ∀ p b q, pre ++ post = p ++ b :: q → ∃ n, h !! aid b = Some n ∧
  ∀ t lv, t + span lv = len p + 1 → go t lv n = (len p <? len pre)).

Lemma walk_spec fuel p a q i : hd :: pre = p ++ a :: q → (i < aht a)%nat → (i < zl)%nat →
  (length q < fuel)%nat →
  ∃ p' a' q', hd :: pre = p' ++ a' :: q' ∧ (i < aht a')%nat ∧ short i q' ∧
    walk fuel h go (aid a) i (len p) = Some (aid a', len p').
Proof.
  revert p a q. induction fuel as [|fuel IH]; intros p a q Heq Hi Hz Hf; [lia|]. cbn [walk].
  assert (get_level h (aid a) i = Some (link i (q ++ post))) as ->.
  { rewrite (Hlinks p a (q ++ post) i); [by rewrite app_nil_r| |done..].
    by rewrite app_comm_cons, Heq, <- app_assoc. }
  mstep. destruct (first_tall i q) as [Hs|(q1 & b & q2 & -> & Hs & Hb)].
  - exists p, a, q. split; [done|]. split; [done|]. split; [done|].
    rewrite link_short by done. cbn [forward span].
    destruct (forward (link i post)) as [x|] eqn:Hx; [|done].
    apply link_forward in Hx as (r1 & c & r2 & Hpost & -> & Hr1 & Hc).
    destruct (Hgo (pre ++ r1) c r2) as (n & -> & Hn); [rewrite Hpost; by rewrite app_assoc|].
    mstep. rewrite Hn; [case_if; [len_lia|done]|]. cbn [span]. rewrite Hpost.
    rewrite link_short, link_tall by done. cbn [span].
    apply (f_equal length) in Heq. rewrite length_app in Heq. cbn [length] in Heq. len_lia.
  - rewrite <- app_assoc, link_short by done. cbn [app]. rewrite link_tall by done.
    cbn [forward span].
    assert (hd :: pre = (p ++ a :: q1) ++ b :: q2) as Heq'
      by (rewrite Heq; by rewrite <- app_assoc).
    destruct (Hgo (tl (p ++ a :: q1)) b (q2 ++ post)) as (n & -> & Hn).
    { apply (f_equal tl) in Heq'. cbn in Heq'. rewrite Heq'. destruct p; cbn; by rewrite <- ?app_assoc. }
    mstep. assert (len (tl (p ++ a :: q1)) = len p + len q1) as Htl by (destruct p; cbn; len_lia).
    rewrite Hn by (cbn [span]; lia).
    apply (f_equal length) in Heq as Hlen. cbn [length] in Hlen. rewrite length_app in Hlen. cbn [length] in Hlen.
    rewrite Htl. rewrite length_app in Hlen, Hf. cbn [length] in Hlen, Hf.
    replace (_ <? _) with true by lia.
    replace (len p + (1 + len q1)) with (len (p ++ a :: q1)) by len_lia.
    apply IH with (q := q2); [done|done|done|lia].
Qed.

Lemma descend_spec n p a q us rs : (length pre <= size h)%nat → (n <= zl)%nat → (n <= aht a)%nat →
  hd :: pre = p ++ a :: q →
  ∃ us' rs' x, descend h go n (aid a) (len p) us rs = Some (x, us' ++ us, rs' ++ rs) ∧
    length us' = n ∧ length rs' = n ∧ update_ok n hd pre us' rs' ∧
    (n = 0%nat → x = aid a) ∧ (∀ y, head us' = Some y → x = y).
Proof.
  intros Hsize. revert p a q us rs. induction n as [|i IH]; intros p a q us rs Hz Ha Heq.
  { exists [], [], (aid a). cbn. do 3 (split; [done|]). split; [intros i Hi; lia|]. done. }
  cbn [descend].
  destruct (walk_spec (S (size h)) p a q i Heq) as (p' & a' & q' & Heq' & Hi' & Hs & ->); [lia|lia| |].
  { apply (f_equal length) in Heq. rewrite length_app in Heq. cbn [length] in Heq. lia. }
  mnext. destruct (IH p' a' q' (aid a' :: us) (len p' :: rs)) as
    (us' & rs' & x & -> & Hus & Hrs & Hup & Hx0 & Hx); [lia|lia|done|].
  exists (us' ++ [aid a']), (rs' ++ [len p']), x. rewrite <- !app_assoc. split; [done|].
  rewrite !length_app. cbn [length]. split; [lia|]. split; [lia|]. split; [|split; [done|]].
  - intros j Hj. destruct (decide (j = i)) as [->|Hne].
    + exists p', a', q'. rewrite !lookup_app_r by lia. rewrite Hus, Hrs, Nat.sub_diag. done.
    + rewrite !lookup_app_l by lia. apply Hup. lia.
  - intros y. destruct us' as [|u us']; [|by intros [= <-]; apply Hx].
    cbn. intros [= <-]. apply Hx0. by rewrite <- Hus.
Qed.
End search.

(** ** Facts about represented lists *)

Lemma base_some h prev l a : bases_ok h prev l → a ∈ l → ∃ n, h !! aid a = Some n ∧
  node_ele n = Some (aele a) ∧ node_score n = ascore a.
Proof.
  intros Hb (p & q & ->)%list_elem_of_split.
  destruct (base_lookup _ _ _ _ _ (bases_base _ _ _ _ _ _ Hb eq_refl)) as (n & ? & ? & ? & _). eauto.
Qed.

Lemma heap_size h zsl xs : zsl_rep h zsl xs → (length xs < size h)%nat.
Proof.
  intros Hr. rewrite <- (size_dom h).
  assert (list_to_set (header zsl :: (aid <$> xs)) ⊆ dom h) as Hsub.
  { intros x Hx. rewrite elem_of_list_to_set in Hx. apply elem_of_dom.
    apply elem_of_cons in Hx as [->|(a & -> & Ha)%list_elem_of_fmap].
    - destruct (rep_hdr _ _ _ Hr) as (s & b & (n & -> & _)%base_lookup). by eexists.
    - destruct (base_some _ _ _ _ (rep_bases _ _ _ Hr) Ha) as (n & -> & _). by eexists. }
  apply subseteq_size in Hsub. rewrite size_list_to_set in Hsub by apply (rep_nodup _ _ _ Hr).
  cbn in Hsub. rewrite length_fmap in Hsub. lia.
Qed.

(** The last node of [hd :: pre] has level 0. *)
Lemma update_zero zl hd pre us rs : update_ok zl hd pre us rs → (0 < zl)%nat →
  Forall (λ a, 1 <= aht a)%nat pre →
  ∃ p a, hd :: pre = p ++ [a] ∧ us !! 0%nat = Some (aid a) ∧ rs !! 0%nat = Some (len pre).
Proof.
  intros Hup Hz Hpre. destruct (Hup 0%nat Hz) as (p & a & q & Heq & Hu & Hr & _ & Hs).
  assert (q = []) as ->.
  { destruct q as [|b q]; [done|]. inversion_clear Hs.
    assert (b ∈ pre) as Hb.
    { apply (f_equal (tl)) in Heq. cbn in Heq. rewrite Heq.
      destruct p; cbn; set_solver. }
    rewrite Forall_forall in Hpre. specialize (Hpre b Hb). lia. }
  exists p, a. split; [done|]. split; [done|]. rewrite Hr. f_equal.
  apply (f_equal length) in Heq. rewrite length_app in Heq. cbn in Heq. lia.
Qed.

Lemma search_spec h zsl pre post go : zsl_rep h zsl (pre ++ post) →
  (∀ p b q n t lv, pre ++ post = p ++ b :: q → node_ele n = Some (aele b) →
    node_score n = ascore b → t + span lv = len p + 1 → go t lv n = (len p <? len pre)) →
  ∃ us rs p a, search h zsl go = Some (aid a, us, rs) ∧
    update_ok (zlevel zsl) (hdr zsl) pre us rs ∧
    length us = zlevel zsl ∧ length rs = zlevel zsl ∧
    hdr zsl :: pre = p ++ [a] ∧ us !! 0%nat = Some (aid a) ∧ rs !! 0%nat = Some (len pre).
Proof.
  intros Hr Hgo. pose proof (heap_size _ _ _ Hr) as Hsize. rewrite length_app in Hsize.
  destruct (descend_spec h (zlevel zsl) (hdr zsl) pre post (rep_links _ _ _ Hr) go)
    with (n := zlevel zsl) (p := @nil elem) (a := hdr zsl) (q := pre) (us := @nil nat) (rs := @nil Z)
    as (us & rs & x & Hd & Hus & Hrs & Hup & _ & Hx).
  - intros p b q Heq. assert (b ∈ pre ++ post) as Hb by (rewrite Heq; set_solver).
    destruct (base_some _ _ _ _ (rep_bases _ _ _ Hr) Hb) as (n & Hn & He & Hs).
    exists n. split; [done|]. intros t lv Ht. by eapply Hgo.
  - lia.
  - done.
  - apply (rep_lvl _ _ _ Hr).
  - done.
  - pose proof (rep_lvl _ _ _ Hr). pose proof (rep_hts _ _ _ Hr) as Hh.
    apply Forall_app in Hh as [Hh _].
    destruct (update_zero _ _ _ _ _ Hup) as (p & a & Heq & Hu & Hrk); [lia|by eapply Forall_impl; [done|]; cbn; lia|].
    rewrite !app_nil_r in Hd. exists us, rs, p, a. unfold search.
    change (header zsl) with (aid (hdr zsl)). change 0 with (len (@nil elem)) at 1. rewrite Hd.
    destruct us as [|u us]; [done|]. injection Hu as ->. rewrite (Hx (aid a)) by done. done.
Qed.

(** ** Insertion *)

(** Two positions of a list: the same one, or one before the other. *)
Lemma split_cases {A} (l p q p' q' : list A) a a' :
  l = p ++ a :: q → l = p' ++ a' :: q' → (p = p' ∧ a = a' ∧ q = q') ∨ a ∈ q' ∨ a' ∈ q.
Proof.
  intros -> Heq. apply app_eq_inv in Heq as [(k & -> & Hk)|(k & -> & Hk)];
    destruct k as [|b k]; rewrite ?app_nil_r in *; simplify_list_eq; auto;
    right; set_solver.
Qed.

Lemma nodup_split {A B} (f : A → B) (l p q p' q' : list A) a a' :
  NoDup (f <$> l) → l = p ++ a :: q → l = p' ++ a' :: q' → f a = f a' →
  p = p' ∧ a = a' ∧ q = q'.
Proof.
  assert (Hno : ∀ p q (a b : A), NoDup (f <$> p ++ a :: q) → b ∈ q → f b = f a → False).
  { intros ? r x y Hnd Hy Hf. rewrite fmap_app in Hnd. apply NoDup_app in Hnd as (_ & _ & Hnd).
    cbn in Hnd. apply NoDup_cons in Hnd as [Hn _]. apply Hn. rewrite <- Hf. set_solver. }
  intros Hnd H1 H2 Hf. destruct (split_cases _ _ _ _ _ _ _ H1 H2) as [?|[?|?]]; [done|..]; exfalso.
  - rewrite H2 in Hnd. by eapply Hno.
  - rewrite H1 in Hnd. by eapply Hno.
Qed.

Lemma short_S i l : short i l → short (S i) l.
Proof. intros Hl. eapply Forall_impl; [done|]. cbn. lia. Qed.

Lemma raise_loop_spec n i h zsl xs pre us rs :
  zlength zsl = len xs → links_ok h i (hdr zsl :: xs) [] → short i xs → short i pre →
  (i + n <= ZSKIPLIST_MAXLEVEL)%nat →
  (∀ j, (i <= j < ZSKIPLIST_MAXLEVEL)%nat → ∃ s, get_level h (header zsl) j = Some (mk_level None s)) →
  update_ok i (hdr zsl) pre us rs → length us = i → length rs = i →
  ∃ h' us' rs', raise_loop n i h zsl us rs = Some (h', us', rs') ∧ same_base h h' ∧
    links_ok h' (i + n) (hdr zsl :: xs) [] ∧
    (∀ j, (i + n <= j < ZSKIPLIST_MAXLEVEL)%nat →
      ∃ s, get_level h' (header zsl) j = Some (mk_level None s)) ∧
    update_ok (i + n) (hdr zsl) pre us' rs'.
Proof.
  intros Hlen. revert i h us rs.
  induction n as [|n IH]; intros i h us rs Hl Hxs Hpre Hmax Htop Hup Hus Hrs.
  { cbn [raise_loop]. rewrite Nat.add_0_r. exists h, us, rs. eauto 10 using same_base_refl. }
  cbn [raise_loop]. destruct (Htop i) as [s Hs]; [lia|].
  destruct (set_span_spec h (header zsl) i (zlength zsl) _ Hs) as (h1 & -> & Hb1 & Hg1). mnext.
  rewrite <- Nat.add_succ_comm.
  destruct (IH (S i) h1 (us ++ [header zsl]) (rs ++ [0])) as
    (h' & us' & rs' & Hrun & Hb & Hrest); try (rewrite length_app; cbn; lia);
    [|by apply short_S..|lia| | |].
  - intros p a q j Heq Hj Hji. rewrite Hg1, app_nil_r. case_decide as Hc.
    + destruct Hc as [Ha ->]. destruct p as [|b p]; injection Heq as <- Heq.
      * subst q. rewrite <- (app_nil_r xs), link_short by done. cbn. do 2 f_equal. lia.
      * rewrite Heq in Hxs. apply Forall_app in Hxs as [_ Hxs]. inversion Hxs. lia.
    + assert (j < i)%nat.
      { destruct (decide (j = i)) as [->|]; [|lia]. exfalso. destruct p as [|b p]; injection Heq as <- Heq.
        - by apply Hc.
        - rewrite Heq in Hxs. apply Forall_app in Hxs as [_ Hxs]. inversion Hxs. lia. }
      rewrite (Hl p a q j Heq) by done. by rewrite app_nil_r.
  - intros j Hj. rewrite Hg1. case_decide; [eauto|]. apply Htop. lia.
  - intros j Hj. destruct (decide (j = i)) as [->|].
    + exists [], (hdr zsl), pre. rewrite !lookup_app_r by lia. rewrite Hus, Hrs, Nat.sub_diag.
      do 3 (split; [done|]). split; [cbn; lia|done].
    + rewrite !lookup_app_l by lia. apply Hup. lia.
  - exists h', us', rs'. split; [done|]. split; [by eapply same_base_trans|done].
Qed.

(** Levels below [j] lead to [new] after the nodes of [hd :: pre], the others
    still to [old]. *)
Definition relinked (zl : nat) (hd : elem) (pre old new : list elem) (j : nat) (h : heap) : Prop :=
  ∀ p a q i, hd :: pre = p ++ a :: q → (i < aht a)%nat → (i < zl)%nat →
    get_level h (aid a) i = Some (link i (q ++ if (i <? j)%nat then new else old)).

(** Only the last node with a level has a link of this level that leaves
    [hd :: pre]. *)
Lemma relinked_step zl hd pre old new j h h' p a q :
  relinked zl hd pre old new j h → NoDup (aid <$> hd :: pre) →
  hd :: pre = p ++ a :: q → short j q → (j < aht a)%nat →
  get_level h' (aid a) j = Some (link j (q ++ new)) →
  (∀ b i, b ∈ hd :: pre → ¬ (aid b = aid a ∧ i = j) → get_level h' (aid b) i = get_level h (aid b) i) →
  relinked zl hd pre old new (S j) h'.
Proof.
  intros H1 Hnd Heq Hs Ha Hnew Hother p' a' q' i Heq' Hi Hz.
  assert (a' ∈ hd :: pre) as Hin' by (rewrite Heq'; set_solver).
  destruct (decide (i = j)) as [->|Hij].
  - rewrite (proj2 (Nat.ltb_lt j (S j))) by lia.
    destruct (split_cases _ _ _ _ _ _ _ Heq Heq') as [(-> & -> & ->)|[Hin|Hin]].
    + done.
    + rewrite Hother; [|done|].
      * rewrite (H1 p' a' q' j Heq' Hi Hz). f_equal. by apply (link_stop _ _ a).
      * intros [Haa _]. destruct (nodup_split aid (hd :: pre) p' q' p q a' a) as (_ & _ & ->); try done.
        rewrite Forall_forall in Hs. specialize (Hs a Hin). lia.
    + rewrite Forall_forall in Hs. specialize (Hs a' Hin). lia.
  - rewrite Hother by naive_solver. rewrite (H1 p' a' q' i Heq' Hi Hz). do 3 f_equal.
    replace (i <? S j)%nat with (i <? j)%nat; [done|].
    apply eq_true_iff_eq. rewrite !Nat.ltb_lt. lia.
Qed.

Lemma relinked_end zl hd pre old new h : relinked zl hd pre old new zl h →
  links_ok h zl (hd :: pre) new.
Proof.
  intros H1 p a q i Heq Hi Hz. rewrite (H1 p a q i Heq Hi Hz).
  by rewrite (proj2 (Nat.ltb_lt i zl)).
Qed.

Section linking.
Context (zl : nat) (hd : elem) (pre post : list elem) (new : elem) (us : list nat) (rs : list Z).
Context (Hup : update_ok zl hd pre us rs) (Hr0 : rs !! 0%nat = Some (len pre)).
Context (Hnd : NoDup (aid <$> hd :: pre ++ new :: post)).

Context (h0 : heap).

(** The levels below [j] are those of the list with [new], the others not yet;
    the header's levels that the list does not use are as in [h0]. *)
Record linked (j : nat) (h : heap) : Prop := {
  lk_pre : relinked zl hd pre post (new :: post) j h;
  lk_post : links_ok h zl post [];
  lk_new : ∀ i, (i < aht new)%nat → is_Some (get_level h (aid new) i) ∧
    ((i < j)%nat → get_level h (aid new) i = Some (link i post));
  lk_top : ∀ i, (zl <= i)%nat → get_level h (aid hd) i = get_level h0 (aid hd) i;
}.

Lemma pre_not_new p a q : hd :: pre = p ++ a :: q → aid a ≠ aid new.
Proof.
  intros Heq Ha. change (hd :: pre ++ new :: post) with ((hd :: pre) ++ new :: post) in Hnd.
  rewrite Heq, !fmap_app in Hnd. apply NoDup_app in Hnd as (_ & Hn & _).
  apply (Hn (aid a)); rewrite ?fmap_cons; set_solver.
Qed.

Lemma post_not_pre p a q b : hd :: pre = p ++ a :: q → b ∈ post → aid b ≠ aid a ∧ aid b ≠ aid new.
Proof.
  intros Heq Hb. change (hd :: pre ++ new :: post) with ((hd :: pre) ++ new :: post) in Hnd.
  rewrite Heq, fmap_app in Hnd. apply NoDup_app in Hnd as (_ & Hn & Hnd').
  rewrite fmap_cons in Hnd'. apply NoDup_cons in Hnd' as [Hnew _].
  split; intros Hab.
  - apply (Hn (aid a)); [rewrite fmap_app; set_solver|]. rewrite <- Hab. set_solver.
  - apply Hnew. rewrite <- Hab. set_solver.
Qed.

Lemma linked_step j h h' p a q : linked j h → (j < zl)%nat →
  hd :: pre = p ++ a :: q → (j < aht a)%nat → short j q →
  (∀ y k, get_level h' y k =
    if decide (y = aid a ∧ k = j) then Some (link j (q ++ new :: post))
    else if decide (y = aid new ∧ k = j ∧ (j < aht new)%nat) then Some (link j post)
    else get_level h y k) →
  linked (S j) h'.
Proof.
  intros [H1 H2 H3 H4] Hj Heq Ha Hs Hg. split.
  - apply (relinked_step zl hd pre _ _ j h h' p a q); try done.
    + change (hd :: pre ++ new :: post) with ((hd :: pre) ++ new :: post) in Hnd.
      rewrite fmap_app in Hnd. by apply NoDup_app in Hnd as (? & _).
    + by rewrite Hg, decide_True.
    + intros b i (p' & q' & Hb)%list_elem_of_split Hne. rewrite Hg, !decide_False; try done.
      intros [? _]. by eapply (pre_not_new p' b q').
  - intros p' b q' i Hb Hi Hz. assert (b ∈ post) as Hin by (rewrite Hb; set_solver).
    destruct (post_not_pre p a q b Heq Hin). rewrite Hg, !decide_False by naive_solver.
    by apply (H2 p' b q' i).
  - intros i Hi. destruct (H3 i Hi) as [Hsome Hdone]. rewrite Hg.
    rewrite decide_False by (intros [? _]; by eapply (pre_not_new p a q)).
    destruct (decide (aid new = aid new ∧ i = j ∧ (j < aht new)%nat)) as [(_ & -> & _)|Hc]; [eauto|].
    split; [done|]. intros Hij. apply Hdone. destruct (decide (i = j)); [naive_solver|lia].
  - intros i Hi. rewrite Hg, !decide_False by lia. by apply H4.
Qed.

Lemma link_loop_spec n j h : linked j h → (j + n = aht new)%nat → (aht new <= zl)%nat →
  ∃ h', link_loop n j h (aid new) us rs = Some h' ∧ same_base h h' ∧ linked (aht new) h'.
Proof.
  revert j h. induction n as [|n IH]; intros j h Hlk Hjn Hz.
  { exists h. rewrite Nat.add_0_r in Hjn. subst j. eauto using same_base_refl. }
  cbn [link_loop]. destruct (Hup j) as (p & a & q & Heq & Hu & Hrk & Ha & Hs); [lia|].
  rewrite Hu, Hr0, Hrk. do 3 mnext.
  assert (Hne : aid a ≠ aid new) by by eapply pre_not_new.
  assert (Hq : len pre - len p = len q).
  { apply (f_equal length) in Heq. rewrite length_app in Heq. cbn in Heq. lia. }
  pose proof (lk_pre j h Hlk p a q j Heq Ha ltac:(lia)) as Hlv. rewrite Nat.ltb_irrefl in Hlv.
  rewrite Hlv. mnext. destruct (lk_new j h Hlk j ltac:(lia)) as [[lvx Hx] _].
  destruct (set_forward_spec h (aid new) j (forward (link j (q ++ post))) _ Hx) as (h1 & -> & Hb1 & Hg1). mnext.
  destruct (set_forward_spec h1 (aid a) j (Some (aid new)) (link j (q ++ post))) as (h2 & -> & Hb2 & Hg2).
  { rewrite Hg1, decide_False by naive_solver. done. }
  mnext. rewrite Hg2, decide_True by done. mnext.
  destruct (set_span_spec h2 (aid new) j (span (link j (q ++ post)) - (len pre - len p))
    (mk_level (forward (link j (q ++ post))) (span lvx))) as (h3 & Hrun3 & Hb3 & Hg3).
  { rewrite Hg2, decide_False by naive_solver. by rewrite Hg1, decide_True. }
  cbn [span]. rewrite Hrun3. mnext.
  destruct (set_span_spec h3 (aid a) j (len pre - len p + 1)
    (mk_level (Some (aid new)) (span (link j (q ++ post))))) as (h4 & -> & Hb4 & Hg4).
  { rewrite Hg3, decide_False by naive_solver. by rewrite Hg2, decide_True. }
  mnext. destruct (IH (S j) h4) as (h' & -> & Hb & Hlk'); [|lia|lia|].
  - apply (linked_step j h h4 p a q); try done; [lia|]. intros y k.
    rewrite link_short in Hg1, Hg3 by done. cbn [forward span] in *.
    rewrite Hg4, Hg3, Hg2, Hg1. rewrite (link_short j q (new :: post)), link_tall by (done || lia).
    cbn [forward span]. case_decide as H1.
    { rewrite Hq. do 2 f_equal. lia. }
    destruct (decide (y = aid new ∧ k = j)) as [[-> ->]|H2].
    + rewrite decide_True by (split_and!; done || lia). rewrite Hq.
      destruct (link j post) as [f s]. cbn. do 2 f_equal. lia.
    + by rewrite (decide_False (P := _ ∧ _ ∧ _)) by naive_solver.
  - exists h'. split; [done|]. split; [|done].
    intros y. by rewrite Hb, Hb4, Hb3, Hb2, Hb1.
Qed.

Lemma untouched_loop_spec n j h : linked j h → (j + n = zl)%nat → (aht new <= j)%nat →
  ∃ h', untouched_loop n j h us = Some h' ∧ same_base h h' ∧ linked zl h'.
Proof.
  revert j h. induction n as [|n IH]; intros j h Hlk Hjn Hz.
  { exists h. rewrite Nat.add_0_r in Hjn. subst j. eauto using same_base_refl. }
  cbn [untouched_loop]. destruct (Hup j) as (p & a & q & Heq & Hu & Hrk & Ha & Hs); [lia|].
  rewrite Hu. mnext.
  pose proof (lk_pre j h Hlk p a q j Heq Ha ltac:(lia)) as Hlv. rewrite Nat.ltb_irrefl in Hlv.
  rewrite Hlv. mnext.
  destruct (set_span_spec h (aid a) j (span (link j (q ++ post)) + 1) _ Hlv) as (h1 & -> & Hb1 & Hg1).
  mnext. destruct (IH (S j) h1) as (h' & -> & Hb & Hlk'); [|lia|lia|].
  - apply (linked_step j h h1 p a q); try done; [lia|]. intros y k. rewrite Hg1.
    rewrite !link_short by done. cbn [link].
    replace (j <? aht new)%nat with false by (symmetry; apply Nat.ltb_ge; lia). cbn [forward span].
    case_decide; [do 2 f_equal; lia|]. by rewrite decide_False by (intros (_ & _ & ?); lia).
  - exists h'. split; [done|]. split; [by eapply same_base_trans|done].
Qed.

(** At the end the levels are those of the list with [new]. *)
Lemma linked_links h : linked zl h → links_ok h zl (hd :: pre ++ new :: post) [].
Proof.
  intros [H1 H2 H3 _]. change (hd :: pre ++ new :: post) with ((hd :: pre) ++ new :: post).
  apply links_app. split; [rewrite app_nil_r; by eapply relinked_end|].
  intros p a q i Heq Hi Hz. rewrite app_nil_r. destruct p as [|b p]; injection Heq as <- Heq.
  - subst q. by apply H3.
  - rewrite (H2 p a q i Heq Hi Hz). by rewrite app_nil_r.
Qed.
End linking.

(** *** The place of a key *)

(** A property that, once false, stays false splits the list. *)
Lemma split_at (P : elem → bool) xs :
  (∀ a b, elem_lt a b → P b = true → P a = true) → StronglySorted elem_lt xs →
  ∃ pre post, xs = pre ++ post ∧ Forall (λ a, P a = true) pre ∧ Forall (λ a, P a = false) post.
Proof.
  intros HP. induction 1 as [|a xs Hs IH Ha].
  { by exists [], []. }
  destruct (P a) eqn:E.
  - destruct IH as (pre & post & -> & ? & ?). exists (a :: pre), post. auto.
  - exists [], (a :: xs). split; [done|]. split; [done|]. constructor; [done|].
    eapply Forall_impl; [done|]. intros b Hab. apply not_true_is_false. intros Hb.
    by rewrite (HP a b Hab Hb) in E.
Qed.

Lemma split_position {A} (pre post p q : list A) b : pre ++ post = p ++ b :: q →
  (len p < len pre ∧ b ∈ pre) ∨ (len pre <= len p ∧ b ∈ post).
Proof.
  intros Heq. apply app_eq_inv in Heq as [(k & -> & Hk)|(k & -> & Hk)].
  - destruct k as [|c k]; simplify_list_eq; [right|left]; split; try len_lia; set_solver.
  - right. subst. split; [len_lia|set_solver].
Qed.

(** A condition on nodes that tells [pre] from [post] is one for the search. *)
Lemma go_split (P : elem → bool) (f : zskiplistNode → bool) pre post :
  Forall (λ a, P a = true) pre → Forall (λ a, P a = false) post →
  (∀ a n, a ∈ pre ++ post → node_ele n = Some (aele a) → node_score n = ascore a → f n = P a) →
  ∀ p b q n (t : Z) (lv : zskiplistLevel), pre ++ post = p ++ b :: q → node_ele n = Some (aele b) →
    node_score n = ascore b → t + span lv = len p + 1 → f n = (len p <? len pre).
Proof.
  intros Hpre Hpost Hf p b q n t lv Heq He Hs _.
  rewrite (Hf b n) by (done || (rewrite Heq; set_solver)).
  rewrite Forall_forall in Hpre, Hpost.
  destruct (split_position _ _ _ _ _ Heq) as [[? ?]|[? ?]].
  - rewrite Hpre by done. symmetry. by apply Z.ltb_lt.
  - rewrite Hpost by done. symmetry. by apply Z.ltb_ge.
Qed.

Lemma key_before_spec s e a n : node_ele n = Some (aele a) → node_score n = ascore a →
  key_before s e n = key_lt (ascore a) (aele a) s e.
Proof. intros He Hs. unfold key_before, key_lt, ele_of. by rewrite He, Hs. Qed.

(** The search for a key stops after the smaller ones. *)
Lemma key_split s e xs : StronglySorted elem_lt xs →
  ∃ pre post, xs = pre ++ post ∧
    Forall (λ a, key_lt (ascore a) (aele a) s e = true) pre ∧
    Forall (λ a, key_lt (ascore a) (aele a) s e = false) post.
Proof.
  apply (split_at (λ a, key_lt (ascore a) (aele a) s e)). intros a b Hab Hb.
  by eapply key_lt_trans.
Qed.

Lemma search_key h zsl s e pre post : zsl_rep h zsl (pre ++ post) →
  Forall (λ a, key_lt (ascore a) (aele a) s e = true) pre →
  Forall (λ a, key_lt (ascore a) (aele a) s e = false) post →
  ∃ us rs p a, search h zsl (before_key s e) = Some (aid a, us, rs) ∧
    update_ok (zlevel zsl) (hdr zsl) pre us rs ∧
    length us = zlevel zsl ∧ length rs = zlevel zsl ∧
    hdr zsl :: pre = p ++ [a] ∧ us !! 0%nat = Some (aid a) ∧ rs !! 0%nat = Some (len pre).
Proof.
  intros Hr Hpre Hpost. apply (search_spec _ _ _ post); [done|]. unfold before_key.
  apply (go_split (λ a, key_lt (ascore a) (aele a) s e) (λ n, key_before s e n)); try done.
  intros. by apply key_before_spec.
Qed.

(** Allocation. *)
Lemma create_node_spec h level score ele h' x : zslCreateNode h level score ele = (h', x) →
  h !! x = None ∧ (∀ y j, y ≠ x → get_level h' y j = get_level h y j) ∧
  (∀ j, (j < level)%nat → get_level h' x j = Some (mk_level None 0)) ∧
  ∀ y, base h' y = if decide (y = x) then Some (ele, score, None) else base h y.
Proof.
  unfold zslCreateNode. intros [= <- <-]. set (x := fresh (dom h)).
  assert (h !! x = None) as Hx by (apply not_elem_of_dom, is_fresh).
  split; [done|]. split; [|split].
  - intros y j Hy. unfold get_level. by rewrite lookup_insert_ne.
  - intros j Hj. unfold get_level. rewrite lookup_insert_eq. cbn. by apply lookup_replicate_2.
  - intros y. unfold base. destruct (decide (y = x)) as [->|Hy].
    + by rewrite lookup_insert_eq.
    + by rewrite lookup_insert_ne.
Qed.

(** The [backward] pointer after a change before [post], or the tail. *)
Lemma relink_back h prev b post tl0 : bases_ok h prev post → NoDup (aid <$> post) →
  Forall (λ a, 1 <= aht a)%nat post →
  ∃ h', match forward (link 0 post) with
        | Some f => h ← set_backward h f b; Some (h, tl0)
        | None => Some (h, b)
        end = Some (h', match post with [] => b | _ => tl0 end) ∧
    bases_ok h' b post ∧ (∀ y j, get_level h' y j = get_level h y j) ∧
    ∀ y, y ∉ (aid <$> post) → base h' y = base h y.
Proof.
  intros Hb Hnd Hh. destruct post as [|a post]; [by exists h|].
  inversion_clear Hh. rewrite link_tall by lia. cbn [forward]. destruct Hb as [Ha Hb].
  destruct (set_backward_spec h (aid a) b _ _ _ Ha) as (h' & -> & Hg & Hb').
  exists h'. split; [done|]. split; [|split; [done|]].
  - cbn. rewrite Hb', decide_True by done. split; [done|].
    apply (bases_same h); [|done]. intros c Hc. rewrite Hb', decide_False; [done|].
    intros Hca. apply NoDup_cons in Hnd as [Hn _]. apply Hn. rewrite <- Hca. set_solver.
  - intros y Hy. rewrite Hb', decide_False; [done|]. set_solver.
Qed.

Lemma last_id_app prev l1 l2 : last_id prev (l1 ++ l2) = last_id (last_id prev l1) l2.
Proof. unfold last_id. rewrite last_app. by destruct (last l2). Qed.

Lemma nodup_insert (hd : nat) (pre post : list elem) new :
  NoDup (hd :: (aid <$> pre ++ post)) → aid new ∉ hd :: (aid <$> pre ++ post) →
  NoDup (hd :: (aid <$> pre ++ new :: post)).
Proof.
  intros Hnd Hnew. rewrite fmap_app, fmap_cons.
  rewrite fmap_app in Hnd, Hnew.
  assert (hd :: (aid <$> pre) ++ aid new :: (aid <$> post) ≡ₚ aid new :: hd :: (aid <$> pre) ++ (aid <$> post)) as ->
    by (by rewrite <- Permutation_middle, Permutation_swap).
  by constructor.
Qed.

Lemma rep_ids h zsl xs x : zsl_rep h zsl xs → h !! x = None → x ∉ header zsl :: (aid <$> xs).
Proof.
  intros Hr Hx [->|(a & -> & Ha)%list_elem_of_fmap]%elem_of_cons.
  - destruct (rep_hdr _ _ _ Hr) as (s & b & (n & ? & _)%base_lookup). congruence.
  - destruct (base_some _ _ _ _ (rep_bases _ _ _ Hr) Ha) as (n & ? & _). congruence.
Qed.

Lemma base_none h x : base h x = None ↔ h !! x = None.
Proof. unfold base. by destruct (h !! x). Qed.

(** A node just allocated. *)
Lemma linked_fresh zl hd pre post new h1 h2 :
  links_ok h1 zl (hd :: pre ++ post) [] → aid new ∉ aid <$> hd :: pre ++ post →
  (∀ y j, y ≠ aid new → get_level h2 y j = get_level h1 y j) →
  (∀ j, (j < aht new)%nat → get_level h2 (aid new) j = Some (mk_level None 0)) →
  linked zl hd pre post new h1 0 h2.
Proof.
  intros Hl Hn Hg Hx. change (hd :: pre ++ post) with ((hd :: pre) ++ post) in *.
  apply links_app in Hl as [Hl1 Hl2]. rewrite fmap_app in Hn. split.
  - intros p a q i Heq Hi Hzi. rewrite Hg.
    + rewrite (Hl1 p a q i Heq Hi Hzi). by rewrite app_nil_r.
    + intros Ha. apply Hn, elem_of_app. left. rewrite Heq, <- Ha. set_solver.
  - eapply links_same; [|done]. intros a i Ha _ _. apply Hg. intros Haa. apply Hn, elem_of_app.
    right. rewrite <- Haa. set_solver.
  - intros i Hi. rewrite Hx by done. split; [done|]. lia.
  - intros i _. apply Hg. set_solver.
Qed.

(** The levels after an insertion, before the [backward] pointers are set. *)
Lemma insert_links h zsl pre post s e level us rs :
  zsl_rep h zsl (pre ++ post) → (1 <= level <= ZSKIPLIST_MAXLEVEL)%nat →
  update_ok (zlevel zsl) (hdr zsl) pre us rs → length us = zlevel zsl → length rs = zlevel zsl →
  let zl := (zlevel zsl + (level - zlevel zsl))%nat in
  ∃ h1 us1 rs1 h2 x h3 h4, let new := mk_elem x level s e in
    raise_loop (level - zlevel zsl) (zlevel zsl) h zsl us rs = Some (h1, us1, rs1) ∧
    zslCreateNode h1 level s (Some e) = (h2, x) ∧
    link_loop level 0 h2 x us1 rs1 = Some h3 ∧
    untouched_loop (zl - level) level h3 us1 = Some h4 ∧
    update_ok zl (hdr zsl) pre us1 rs1 ∧ h !! x = None ∧
    links_ok h4 zl (hdr zsl :: pre ++ new :: post) [] ∧
    (∀ i, (zl <= i < ZSKIPLIST_MAXLEVEL)%nat →
      ∃ s, get_level h4 (header zsl) i = Some (mk_level None s)) ∧
    (∀ y, base h4 y = if decide (y = x) then Some (Some e, s, None) else base h y).
Proof.
  intros Hr Hlevel Hup Hus Hrs zl. pose proof (rep_lvl _ _ _ Hr) as Hlvl.
  assert (short (zlevel zsl) (pre ++ post)) as Hxs
    by (eapply Forall_impl; [apply (rep_hts _ _ _ Hr)|]; cbn; lia).
  apply Forall_app in Hxs as Hsh. destruct Hsh as [Hpre _].
  destruct (raise_loop_spec (level - zlevel zsl) (zlevel zsl) h zsl (pre ++ post) pre us rs)
    as (h1 & us1 & rs1 & Hraise & Hb1 & Hl1 & Htop1 & Hup1); try done;
    [apply (rep_len _ _ _ Hr)|apply (rep_links _ _ _ Hr)|lia|apply (rep_top _ _ _ Hr)|].
  fold zl in Hl1, Htop1, Hup1.
  destruct (zslCreateNode h1 level s (Some e)) as [h2 x] eqn:Hcreate.
  pose proof (create_node_spec _ _ _ _ _ _ Hcreate) as (Hx & Hg2 & Hgx & Hb2).
  assert (h !! x = None) as Hx0 by (apply base_none; rewrite <- Hb1; by apply base_none).
  pose proof (rep_ids _ _ _ _ Hr Hx0) as Hxn.
  set (new := mk_elem x level s e).
  assert (NoDup (aid <$> hdr zsl :: pre ++ new :: post)) as Hnd
    by (apply nodup_insert; [apply (rep_nodup _ _ _ Hr)|done]).
  destruct (update_zero _ _ _ _ _ Hup1) as (p & a & Heq & Hu0 & Hr0);
    [unfold zl; lia|pose proof (rep_hts _ _ _ Hr) as Hh; apply Forall_app in Hh as [Hh _];
     eapply Forall_impl; [done|]; cbn; lia|].
  assert (linked zl (hdr zsl) pre post new h1 0 h2) as Hlk.
  { by apply linked_fresh. }
  destruct (link_loop_spec zl (hdr zsl) pre post new us1 rs1 Hup1 Hr0 Hnd h1 level 0 h2 Hlk)
    as (h3 & Hlink & Hb3 & Hlk3); [done|cbn; unfold zl; lia|].
  destruct (untouched_loop_spec zl (hdr zsl) pre post new us1 rs1 Hup1 Hr0 Hnd h1 (zl - level) level h3 Hlk3)
    as (h4 & Hunt & Hb4 & Hlk4); [unfold zl; lia|done|].
  exists h1, us1, rs1, h2, x, h3, h4. do 6 (split; [done|]).
  split; [by eapply linked_links|]. split.
  - intros i Hi. change (header zsl) with (aid (hdr zsl)).
    rewrite (lk_top _ _ _ _ _ _ _ _ Hlk4) by lia. by apply Htop1.
  - intros y. rewrite Hb4, Hb3, Hb2. case_decide; [done|]. by rewrite Hb1.
Qed.

Lemma sorted_insert pre post new : StronglySorted elem_lt (pre ++ post) →
  Forall (λ a, elem_lt a new) pre → Forall (elem_lt new) post →
  StronglySorted elem_lt (pre ++ new :: post).
Proof.
  rewrite !StronglySorted_app, !Forall_forall. intros (Hpp & ? & ?) Hpre Hpost.
  split; [|split; [done|by constructor; [done|by apply Forall_forall]]].
  intros a b Ha [->|Hb]%elem_of_cons; eauto.
Qed.

(** The header is the last node before [post] exactly when [pre] is empty. *)
Lemma last_before zsl pre p a : hdr zsl :: pre = p ++ [a] → header zsl ∉ aid <$> pre →
  (if (aid a =? header zsl)%nat then None else Some (aid a)) = last_id None pre.
Proof.
  intros Heq Hn. destruct p as [|b p]; injection Heq as <- Heq.
  - subst pre. cbn. by rewrite Nat.eqb_refl.
  - subst pre. unfold last_id. rewrite last_snoc. case_if; [|done]. exfalso. apply Hn.
    apply Nat.eqb_eq in E as <-. rewrite fmap_app. set_solver.
Qed.

(** The list with [new] is represented once its levels, the other fields and
    the tail are right. *)
Lemma insert_assemble h zsl pre post new zl h' tl' :
  zsl_rep h zsl (pre ++ post) → aid new ∉ header zsl :: (aid <$> pre ++ post) →
  real (ascore new) → (1 <= aht new <= ZSKIPLIST_MAXLEVEL)%nat →
  zl = (zlevel zsl + (aht new - zlevel zsl))%nat →
  Forall (λ a, elem_lt a new) pre → Forall (elem_lt new) post →
  links_ok h' zl (hdr zsl :: pre ++ new :: post) [] →
  (∀ i, (zl <= i < ZSKIPLIST_MAXLEVEL)%nat →
    ∃ s, get_level h' (header zsl) i = Some (mk_level None s)) →
  base h' (header zsl) = base h (header zsl) → bases_ok h' None (pre ++ new :: post) →
  tl' = last_id None (pre ++ new :: post) →
  zsl_rep h' (mk_zsl (header zsl) tl' (zlength zsl + 1) zl) (pre ++ new :: post).
Proof.
  intros Hr Hnew Hreal Hht -> Hpre Hpost Hl Htop Hhdr Hb Htl.
  pose proof (rep_lvl _ _ _ Hr). pose proof (rep_hts _ _ _ Hr) as Hh.
  pose proof (rep_real _ _ _ Hr) as Hre. apply Forall_app in Hh as [Hh1 Hh2].
  apply Forall_app in Hre as [Hre1 Hre2]. split; cbn [header tail zlength zlevel]; try done.
  - apply nodup_insert; [apply (rep_nodup _ _ _ Hr)|done].
  - rewrite Hhdr. apply (rep_hdr _ _ _ Hr).
  - rewrite (rep_len _ _ _ Hr). len_lia.
  - lia.
  - apply Forall_app. split; [|constructor; [lia|]];
      (eapply Forall_impl; [exact Hh1 || exact Hh2|]); cbv beta; lia.
  - destruct (decide (zlevel zsl < aht new)%nat).
    + right. exists new. split; [set_solver|]. lia.
    + destruct (rep_max _ _ _ Hr) as [?|(a & Ha & ?)]; [left; lia|right].
      exists a. split; [set_solver|]. lia.
  - apply Forall_app. split; [done|by constructor].
  - apply sorted_insert; [apply (rep_sorted _ _ _ Hr)|done..].
Qed.

Lemma insert_rep h zsl pre post s e level :
  zsl_rep h zsl (pre ++ post) → real s → (1 <= level <= ZSKIPLIST_MAXLEVEL)%nat →
  Forall (λ a, key_lt (ascore a) (aele a) s e = true) pre →
  Forall (λ a, key_lt s e (ascore a) (aele a) = true) post →
  ∃ h' zsl' x, zslInsert h zsl s e level = Some (h', zsl', x) ∧
    zsl_rep h' zsl' (pre ++ mk_elem x level s e :: post) ∧ header zsl' = header zsl ∧
    h !! x = None ∧ ∀ y, y ∉ aid <$> post → h !! y ≠ None → base h' y = base h y.
Proof.
  intros Hr Hs Hlevel Hpre Hpost. unfold zslInsert. rewrite Hs.
  destruct (search_key h zsl s e pre post Hr Hpre) as (us & rs & p0 & a0 & -> & Hup & Hus & Hrs & _).
  { eapply Forall_impl; [exact Hpost|]. cbn. intros a. apply key_lt_asym. }
  mnext. destruct (insert_links h zsl pre post s e level us rs Hr Hlevel Hup Hus Hrs)
    as (h1 & us1 & rs1 & h2 & x & h3 & h4 & -> & Hc & Hlink & Hunt & Hup1 & Hx & Hl & Htop & Hb).
  mnext. rewrite Hc. cbv beta iota. rewrite Hlink. mnext.
  set (zl := (zlevel zsl + (level - zlevel zsl))%nat) in *.
  replace (if (zlevel zsl <? level)%nat then level else zlevel zsl) with zl
    by (unfold zl; case_if; [apply Nat.ltb_lt in E|apply Nat.ltb_ge in E]; lia).
  rewrite Hunt. mnext. set (new := mk_elem x level s e) in *.
  pose proof (rep_lvl _ _ _ Hr) as Hlvl. pose proof (rep_hts _ _ _ Hr) as Hhts.
  assert (Forall (λ a, 1 <= aht a)%nat (pre ++ post)) as H1 by (eapply Forall_impl; [done|]; cbn; lia).
  apply Forall_app in H1 as [H1pre H1post].
  destruct (update_zero _ _ _ _ _ Hup1) as (p & a & Heq & -> & _); [unfold zl; lia|done|]. mnext.
  pose proof (rep_ids _ _ _ _ Hr Hx) as Hxn. pose proof (rep_nodup _ _ _ Hr) as Hnd.
  assert (header zsl ∉ aid <$> pre) as Hhp.
  { apply NoDup_cons in Hnd as [Hn _]. rewrite fmap_app in Hn. set_solver. }
  rewrite (last_before _ _ _ _ Heq Hhp).
  destruct (set_backward_spec h4 x (last_id None pre) (Some e) s None) as (h5 & -> & Hg5 & Hb5).
  { by rewrite Hb, decide_True. }
  mnext. rewrite Hg5.
  assert (get_level h4 x 0 = Some (link 0 post)) as ->.
  { rewrite <- (app_nil_r post). apply (Hl (hdr zsl :: pre) new post 0%nat); cbn; done || lia. }
  mnext. pose proof (rep_bases _ _ _ Hr) as Hbs. apply bases_app in Hbs as [Hbpre Hbpost].
  assert (Hb4 : ∀ y, y ≠ x → base h5 y = base h y).
  { intros y Hy. by rewrite Hb5, decide_False, Hb, decide_False. }
  assert (Hne : ∀ a, a ∈ pre ++ post → aid a ≠ x).
  { intros b Hb' <-. apply Hxn. set_solver. }
  destruct (relink_back h5 (last_id None pre) (Some x) post (tail zsl)) as (h6 & -> & Hbp & Hg6 & Hb6).
  { apply (bases_same h); [|done]. intros b Hb'. apply Hb4, Hne. set_solver. }
  { apply NoDup_cons in Hnd as [_ Hnd]. rewrite fmap_app in Hnd. by apply NoDup_app in Hnd as (_ & _ & ?). }
  { done. }
  mnext. do 3 eexists. split; [done|]. split; [|split; [done|split; [done|]]].
  2: { intros y Hy Hyn. rewrite Hb6 by done. apply Hb4. congruence. }
  assert (Hdis : header zsl ∉ aid <$> post ∧ x ∉ aid <$> post ∧ ∀ b, b ∈ pre → aid b ∉ aid <$> post).
  { rewrite fmap_app in Hnd, Hxn. apply NoDup_cons in Hnd as [? Hnd].
    apply NoDup_app in Hnd as (_ & Hd & _). split_and!; [set_solver..|]. intros b Hb'. apply Hd. set_solver. }
  destruct Hdis as (Hd1 & Hd2 & Hd3).
  apply (insert_assemble h zsl pre post new zl); try done.
  - eapply links_same; [|exact Hl]. intros. by rewrite Hg6, Hg5.
  - intros i Hi. rewrite Hg6, Hg5. by apply Htop.
  - rewrite Hb6 by done. apply Hb4. set_solver.
  - apply bases_app. split; [|split; [|done]].
    + apply (bases_same h); [|done]. intros b Hb'. rewrite Hb6 by auto. apply Hb4, Hne. set_solver.
    + cbn. by rewrite Hb6, Hb5, decide_True by done.
  - rewrite last_id_app. unfold last_id at 1. rewrite last_cons. rewrite (rep_tail _ _ _ Hr), last_id_app.
    unfold last_id at 1. destruct (last post) eqn:Hlast, post; try done.
    by apply last_None in Hlast.
Qed.

(** ** Deletion *)

Section unlinking.
Context (zl : nat) (hd : elem) (pre post : list elem) (d : elem) (us : list nat) (rs : list Z).
Context (Hup : update_ok zl hd pre us rs).
Context (Hnd : NoDup (aid <$> hd :: pre ++ d :: post)).
Context (h0 : heap).

(** Levels below [j] no longer lead to [d], whose own levels stay. *)
Record unlinked (j : nat) (h : heap) : Prop := {
  ul_pre : relinked zl hd pre (d :: post) post j h;
  ul_post : links_ok h zl (d :: post) [];
  ul_top : ∀ i, (zl <= i)%nat → get_level h (aid hd) i = get_level h0 (aid hd) i;
}.

Lemma nodup_parts : NoDup (aid <$> hd :: pre) ∧
  (∀ a b, a ∈ hd :: pre → b ∈ d :: post → aid b ≠ aid a) ∧ aid d ∉ aid <$> post ∧
  NoDup (aid <$> post).
Proof.
  change (hd :: pre ++ d :: post) with ((hd :: pre) ++ d :: post) in Hnd.
  rewrite fmap_app in Hnd. apply NoDup_app in Hnd as (? & Hdis & Hnd2).
  split; [done|]. split.
  - intros a b Ha Hb Hab. apply (Hdis (aid a)); [by apply list_elem_of_fmap_2|].
    rewrite <- Hab. by apply list_elem_of_fmap_2.
  - by apply NoDup_cons in Hnd2.
Qed.

Lemma unlinked_step j h h' p a q : unlinked j h → (j < zl)%nat →
  hd :: pre = p ++ a :: q → (j < aht a)%nat → short j q →
  (∀ y k, get_level h' y k =
    if decide (y = aid a ∧ k = j) then Some (link j (q ++ post)) else get_level h y k) →
  unlinked (S j) h'.
Proof.
  intros [H1 H2 H3] Hj Heq Ha Hs Hg. destruct nodup_parts as (Hnd1 & Hdis & _). split.
  - apply (relinked_step zl hd pre _ _ j h h' p a q); try done.
    + by rewrite Hg, decide_True.
    + intros b i _ Hne. by rewrite Hg, decide_False.
  - eapply links_same; [|done]. intros b i Hb _ _. rewrite Hg, decide_False; [done|].
    intros [? _]. apply (Hdis a b); [|done..]. rewrite Heq. set_solver.
  - intros i Hi. rewrite Hg, decide_False by lia. by apply H3.
Qed.

(** One level of the loop: [a] is the last node before [d] that has it. *)
Lemma unlink_level_spec j h a q : unlinked j h → (j < zl)%nat → short j q →
  get_level h (aid a) j = Some (link j (q ++ d :: post)) →
  let lv := link j (q ++ d :: post) in
  ∃ h1, (if bool_decide (forward lv = Some (aid d)) then
           xlv ← get_level h (aid d) j;
           h ← set_span h (aid a) j (span lv + (span xlv - 1));
           set_forward h (aid a) j (forward xlv)
         else set_span h (aid a) j (span lv - 1)) = Some h1 ∧ same_base h h1 ∧
    ∀ y k, get_level h1 y k =
      if decide (y = aid a ∧ k = j) then Some (link j (q ++ post)) else get_level h y k.
Proof.
  intros Hul Hj Hs Hlv lv. destruct nodup_parts as (_ & _ & Hn & _).
  unfold lv. rewrite !link_short in * by done. clear lv. cbn [forward span].
  destruct (decide (j < aht d)%nat) as [Hd|Hd].
  - rewrite link_tall in * by done. cbn [forward span] in *. rewrite bool_decide_eq_true_2 by done.
    rewrite (ul_post j h Hul [] d post j eq_refl Hd), app_nil_r by lia. mnext.
    destruct (set_span_spec h (aid a) j (1 + len q + (span (link j post) - 1)) _ Hlv) as (h1 & -> & Hb1 & Hg1).
    mnext. destruct (set_forward_spec h1 (aid a) j (forward (link j post))
      (mk_level (Some (aid d)) (1 + len q + (span (link j post) - 1)))) as (h2 & -> & Hb2 & Hg2).
    { by rewrite Hg1, decide_True. }
    exists h2. split; [done|]. split; [by eapply same_base_trans|]. intros y k. rewrite Hg2, Hg1.
    case_decide; [|done]. cbn. do 2 f_equal. lia.
  - cbn [link] in *. replace (j <? aht d)%nat with false in * by (symmetry; apply Nat.ltb_ge; lia).
    cbn [forward span] in *. rewrite bool_decide_eq_false_2.
    2: { intros (q1 & b & q2 & Hpost & Hb & _)%link_forward.
         apply Hn. rewrite Hpost, Hb, fmap_app. set_solver. }
    destruct (set_span_spec h (aid a) j (span (link j post) + 1 + len q - 1) _ Hlv) as (h1 & -> & Hb1 & Hg1).
    exists h1. split; [done|]. split; [done|]. intros y k. rewrite Hg1.
    case_decide; [|done]. cbn. do 2 f_equal. lia.
Qed.

Lemma unlink_loop_spec n j h : unlinked j h → (j + n = zl)%nat →
  ∃ h', unlink_loop n j h (aid d) us = Some h' ∧ same_base h h' ∧ unlinked zl h'.
Proof.
  revert j h. induction n as [|n IH]; intros j h Hul Hjn.
  { exists h. rewrite Nat.add_0_r in Hjn. subst j. eauto using same_base_refl. }
  cbn [unlink_loop]. destruct (Hup j) as (p & a & q & Heq & Hu & Hrk & Ha & Hs); [lia|].
  rewrite Hu. mnext.
  pose proof (ul_pre j h Hul p a q j Heq Ha ltac:(lia)) as Hlv. rewrite Nat.ltb_irrefl in Hlv.
  rewrite Hlv. mnext.
  destruct (unlink_level_spec j h a q Hul) as (h1 & -> & Hb1 & Hg1); [lia|done|done|].
  mnext. destruct (IH (S j) h1) as (h' & -> & Hb & Hul'); [|lia|].
  - apply (unlinked_step j h h1 p a q); done || lia.
  - exists h'. split; [done|]. split; [by eapply same_base_trans|done].
Qed.
End unlinking.

Lemma lower_level_spec level h hd xs : (1 <= level)%nat → short level xs →
  (∀ i, (i < level)%nat → get_level h hd i = Some (link i xs)) →
  ∃ zl, lower_level level h hd = Some zl ∧ (1 <= zl <= level)%nat ∧ short zl xs ∧
    (zl = 1%nat ∨ ∃ a, a ∈ xs ∧ aht a = zl).
Proof.
  induction level as [|l IH]; intros H1 Hs Hl; [lia|]. destruct l as [|l]; [by exists 1%nat; auto|].
  change (lower_level (S (S l)) h hd) with (lv ← get_level h hd (S l);
    match forward lv with None => lower_level (S l) h hd | Some _ => Some (S (S l)) end).
  rewrite (Hl (S l)) by lia. mnext.
  destruct (forward (link (S l) xs)) as [x|] eqn:Hx.
  - exists (S (S l)). split; [done|]. split; [lia|]. split; [done|]. right.
    apply link_forward in Hx as (q1 & b & q2 & -> & _ & _ & Hb). exists b. split; [set_solver|].
    apply Forall_app in Hs as [_ Hs]. inversion Hs. lia.
  - apply link_none in Hx. destruct IH as (zl & -> & ? & ? & ?); [lia|done|intros; apply Hl; lia|].
    exists zl. split; [done|]. split; [lia|done].
Qed.

Lemma sorted_delete (pre post : list elem) d :
  StronglySorted elem_lt (pre ++ d :: post) → StronglySorted elem_lt (pre ++ post).
Proof.
  rewrite !StronglySorted_app. intros (Hpp & ? & Hd). inversion_clear Hd.
  split; [|done]. intros a b Ha Hb. apply Hpp; set_solver.
Qed.

(** The list without [d] is represented once the levels, the other fields and
    the tail are right. *)
Lemma delete_assemble h zsl pre d post zl h' tl' :
  zsl_rep h zsl (pre ++ d :: post) → (1 <= zl <= zlevel zsl)%nat → short zl (pre ++ post) →
  (zl = 1%nat ∨ ∃ a, a ∈ pre ++ post ∧ aht a = zl) →
  links_ok h' (zlevel zsl) (hdr zsl :: pre ++ post) [] →
  (∀ i, (zlevel zsl <= i)%nat → get_level h' (header zsl) i = get_level h (header zsl) i) →
  base h' (header zsl) = base h (header zsl) → bases_ok h' None (pre ++ post) →
  tl' = last_id None (pre ++ post) →
  zsl_rep h' (mk_zsl (header zsl) tl' (zlength zsl - 1) zl) (pre ++ post).
Proof.
  intros Hr Hzl Hs Hmax Hl Htop Hhdr Hb Htl.
  pose proof (rep_lvl _ _ _ Hr) as Hlvl. pose proof (rep_hts _ _ _ Hr) as Hh.
  pose proof (rep_real _ _ _ Hr) as Hre. pose proof (rep_nodup _ _ _ Hr) as Hnd.
  split; cbn [header tail zlength zlevel]; try done.
  - rewrite fmap_app in *. cbn in Hnd. rewrite <- Permutation_middle, Permutation_swap in Hnd.
    by apply NoDup_cons in Hnd as [_ ?].
  - intros p a q i Heq Hi Hz. apply (Hl p a q i Heq Hi). lia.
  - intros i Hi. destruct (decide (i < zlevel zsl)%nat).
    + pose proof (Hl [] (hdr zsl) (pre ++ post) i eq_refl) as Hg. cbn in Hg.
      rewrite Hg, app_nil_r by lia. destruct (link i (pre ++ post)) as [f sp] eqn:E.
      exists sp. do 2 f_equal. change f with (forward (mk_level f sp)). rewrite <- E.
      apply link_none. eapply Forall_impl; [exact Hs|]. cbv beta. lia.
    + rewrite Htop by lia. apply (rep_top _ _ _ Hr). lia.
  - rewrite Hhdr. apply (rep_hdr _ _ _ Hr).
  - rewrite (rep_len _ _ _ Hr). len_lia.
  - lia.
  - rewrite Forall_forall in Hs, Hh |- *. intros a Ha. split; [|by apply Hs].
    apply Hh. set_solver.
  - apply Forall_app in Hre as [? Hre]. inversion_clear Hre. by apply Forall_app.
  - eapply sorted_delete, (rep_sorted _ _ _ Hr).
Qed.

Lemma delete_node_spec h zsl pre d post us rs :
  zsl_rep h zsl (pre ++ d :: post) → update_ok (zlevel zsl) (hdr zsl) pre us rs →
  ∃ h' zsl', zslDeleteNode h zsl (aid d) us = Some (h', zsl') ∧
    zsl_rep h' zsl' (pre ++ post) ∧ header zsl' = header zsl ∧
    (zlevel zsl' <= zlevel zsl)%nat ∧ (∀ y, is_Some (h !! y) → is_Some (h' !! y)) ∧
    ∃ n, h' !! aid d = Some n ∧ node_ele n = Some (aele d).
Proof.
  intros Hr Hup. unfold zslDeleteNode. set (zl := zlevel zsl).
  pose proof (rep_nodup _ _ _ Hr) as Hnd. pose proof (rep_lvl _ _ _ Hr) as Hlvl.
  pose proof (rep_links _ _ _ Hr) as Hl.
  change (hdr zsl :: pre ++ d :: post) with ((hdr zsl :: pre) ++ d :: post) in Hl.
  apply links_app in Hl as [Hl1 Hl2]. rewrite app_nil_r in Hl1.
  destruct (unlink_loop_spec zl (hdr zsl) pre post d us rs Hup Hnd h zl 0 h)
    as (h1 & -> & Hb1 & [Hu1 Hu2 Hu3]); [|done|].
  { split; [|done|done]. intros p a q i Heq Hi Hz. by apply (Hl1 p a q i). }
  mnext. pose proof (rep_bases _ _ _ Hr) as Hbs. pose proof (rep_hts _ _ _ Hr) as Hhts.
  pose proof (bases_base _ _ _ pre d post Hbs eq_refl) as Hbd.
  destruct (base_lookup h1 (aid d) (Some (aele d)) (ascore d) (last_id None pre)) as (n & Hn & Hne & Hns & Hnb).
  { by rewrite Hb1. }
  rewrite Hn. mnext.
  assert (Hlv0 : levels n !! 0%nat = Some (link 0 post)).
  { pose proof (Hu2 [] d post 0%nat eq_refl) as Hg. unfold get_level in Hg. rewrite Hn, app_nil_r in Hg.
    apply Hg; [|lia]. apply Forall_app in Hhts as [_ Hhts]. inversion_clear Hhts. lia. }
  rewrite Hlv0, Hnb. mnext.
  apply bases_app in Hbs as [Hbpre [_ Hbpost]].
  assert (Forall (λ a, 1 <= aht a <= zl)%nat (pre ++ post)) as Hhts'.
  { apply Forall_app in Hhts as [? Hhts]. inversion_clear Hhts. by apply Forall_app. }
  destruct (nodup_parts (hdr zsl) pre post d Hnd) as (_ & Hdis & Hdp & Hnp).
  assert (Hpost : ∀ a, a ∈ hdr zsl :: pre → aid a ∉ aid <$> post).
  { intros a Ha (b & Hab & Hb)%list_elem_of_fmap. apply (Hdis a b); [done|set_solver|done]. }
  destruct (relink_back h1 (Some (aid d)) (last_id None pre) post (tail zsl)) as (h2 & -> & Hbp & Hg2 & Hb2).
  { apply (bases_same h); [|done]. intros. apply Hb1. }
  { done. }
  { apply Forall_app in Hhts' as [_ ?]. eapply Forall_impl; [done|]. cbv beta. lia. }
  mnext. assert (links_ok h2 zl (hdr zsl :: pre ++ post) []) as Hlinks.
  { apply (links_same h1); [by intros|].
    change (hdr zsl :: pre ++ post) with ((hdr zsl :: pre) ++ post). apply links_app. split.
    - rewrite app_nil_r. by eapply relinked_end.
    - by apply (links_app _ _ [d]) in Hu2 as [_ ?]. }
  destruct (lower_level_spec zl h2 (header zsl) (pre ++ post)) as (zl' & -> & Hzl & Hs & Hmax);
    [lia|by eapply Forall_impl; [exact Hhts'|]; cbv beta; lia| |].
  { intros i Hi. rewrite <- (app_nil_r (pre ++ post)). apply (Hlinks [] (hdr zsl)); cbn; done || lia. }
  mnext. do 2 eexists. split; [done|].
  split; [|split; [done|split; [cbn; lia|split]]].
  - apply (delete_assemble h zsl pre d post); try done.
    + intros i Hi. rewrite Hg2. by apply Hu3.
    + rewrite Hb2, Hb1; [done|]. apply (Hpost (hdr zsl)). set_solver.
    + apply bases_app. split; [|done]. apply (bases_same h); [|done].
      intros a Ha. rewrite Hb2, Hb1; [done|]. apply Hpost. set_solver.
    + rewrite (rep_tail _ _ _ Hr), !last_id_app. unfold last_id. rewrite last_cons.
      destruct post as [|b post]; [done|]. destruct (last (b :: post)) eqn:Hlast; [done|].
      by apply last_None in Hlast.
  - intros y Hy. apply not_eq_None_Some. intros Hno%base_none.
    destruct (decide (y ∈ aid <$> post)) as [(a & -> & Ha)%list_elem_of_fmap|Hy'].
    + destruct (base_some _ _ _ _ Hbp Ha) as (? & Ha' & _). apply base_none in Hno. congruence.
    + rewrite Hb2, Hb1 in Hno by done. apply base_none in Hno. rewrite Hno in Hy. by destruct Hy.
  - destruct (base_lookup h2 (aid d) (Some (aele d)) (ascore d) (last_id None pre)) as (n2 & ? & ? & _); [|eauto].
    by rewrite Hb2, Hb1.
Qed.
