(* ===== verification/SkiplistTheorems.v ===== *)
(** The skiplist theorems (t_zset.c).

    Whatever levels were drawn, the operations refine those on the sorted list
    of elements: insertion, deletion, score updates and range deletions change
    it as they should and keep every pointer and span right; rank and range
    queries find what the list has. *)
From stdpp Require Import gmap sorting.
From S2P Require Import Prelude Skiplist SkiplistSpec.
Local Open Scope Z_scope.

#[export] Instance double_eq_dec : EqDecision double.
Proof. solve_decision. Defined.

(** The sorted list an abstract sorted set is. *)
Definition contents (xs : list elem) : list (double * list Z) :=
  (λ a, (ascore a, aele a)) <$> xs.

Fixpoint insert_key (s : double) (e : list Z) (l : list (double * list Z)) :
    list (double * list Z) :=
  match l with
  | [] => [(s, e)]
  | (s', e') :: l =>
    if key_lt s' e' s e then (s', e') :: insert_key s e l else (s, e) :: (s', e') :: l
  end.

Lemma insert_key_split s e pre post :
  Forall (λ a, key_lt (ascore a) (aele a) s e = true) pre →
  Forall (λ a, key_lt (ascore a) (aele a) s e = false) post →
  insert_key s e (contents (pre ++ post)) = contents pre ++ (s, e) :: contents post.
Proof.
  intros Hpre Hpost. induction Hpre as [|a pre Ha _ IH].
  - destruct Hpost as [|b post Hb _]; [done|]. cbn. by rewrite Hb.
  - change (contents ((a :: pre) ++ post)) with ((ascore a, aele a) :: contents (pre ++ post)).
    cbn [insert_key]. by rewrite Ha, IH.
Qed.

Lemma elem_of_contents s e xs : (s, e) ∈ contents xs ↔
  ∃ a, a ∈ xs ∧ ascore a = s ∧ aele a = e.
Proof.
  unfold contents. rewrite list_elem_of_fmap. split.
  - intros (a & [= -> ->] & Ha). eauto.
  - intros (a & Ha & <- & <-). eauto.
Qed.

(** Smaller, equal and greater keys. *)
Lemma key_cases s e xs : StronglySorted elem_lt xs → Forall (λ a, real (ascore a)) xs → real s →
  (s, e) ∉ contents xs → ∃ pre post, xs = pre ++ post ∧
    Forall (λ a, key_lt (ascore a) (aele a) s e = true) pre ∧
    Forall (λ a, key_lt s e (ascore a) (aele a) = true) post.
Proof.
  intros Hsort Hreal Hs Hno. destruct (key_split s e xs Hsort) as (pre & post & -> & Hpre & Hpost).
  exists pre, post. split; [done|]. split; [done|]. rewrite Forall_forall in *. intros b Hb.
  destruct (key_lt_total s e (ascore b) (aele b) Hs) as [?|[[-> ->]|Hlt]]; [apply Hreal; set_solver|done|..].
  - exfalso. apply Hno, elem_of_contents. exists b. set_solver.
  - by rewrite Hpost in Hlt.
Qed.

Lemma greater_not_smaller s e (xs : list elem) :
  Forall (λ a, key_lt s e (ascore a) (aele a) = true) xs →
  Forall (λ a, key_lt (ascore a) (aele a) s e = false) xs.
Proof. intros Hx. eapply Forall_impl; [exact Hx|]. intros a. apply key_lt_asym. Qed.

Lemma zsl_insert_spec h zsl xs s e level : zsl_rep h zsl xs → real s →
  (1 <= level <= ZSKIPLIST_MAXLEVEL)%nat → (s, e) ∉ contents xs →
  ∃ h' zsl' x xs', zslInsert h zsl s e level = Some (h', zsl', x) ∧ zsl_rep h' zsl' xs' ∧
    contents xs' = insert_key s e (contents xs) ∧ header zsl' = header zsl ∧ h !! x = None ∧
    (∀ y, y ∈ aid <$> xs' ↔ y = x ∨ y ∈ aid <$> xs) ∧
    ∀ y, y ∉ aid <$> xs → is_Some (h !! y) → is_Some (h' !! y).
Proof.
  intros Hr Hs Hlevel Hno.
  destruct (key_cases s e xs (rep_sorted _ _ _ Hr) (rep_real _ _ _ Hr) Hs Hno)
    as (pre & post & -> & Hpre & Hpost).
  destruct (insert_rep h zsl pre post s e level Hr Hs Hlevel Hpre Hpost)
    as (h' & zsl' & x & Hins & Hr' & Hhd & Hx & Hframe).
  exists h', zsl', x, (pre ++ mk_elem x level s e :: post). do 2 (split; [done|]).
  rewrite insert_key_split by (done || by apply greater_not_smaller). unfold contents.
  rewrite fmap_app. do 3 (split; [done|]). rewrite !fmap_app. split; [set_solver|].
  intros y Hy [n Hn]. apply not_eq_None_Some. intros Hno'%base_none.
  rewrite Hframe in Hno' by (congruence || set_solver). apply base_none in Hno'. congruence.
Qed.

(** C4: zslInsert of a new element puts it at its place in the order by score
    and then by string, for every level zslRandomLevel may draw: all forward
    pointers, spans, backward pointers, the tail, the length and the list's
    level are right afterwards. *)
Theorem zslInsert_correct h zsl xs s e level : zsl_rep h zsl xs → real s →
  (1 <= level <= ZSKIPLIST_MAXLEVEL)%nat → (s, e) ∉ contents xs →
  ∃ h' zsl' x xs', zslInsert h zsl s e level = Some (h', zsl', x) ∧ zsl_rep h' zsl' xs' ∧
    contents xs' = insert_key s e (contents xs).
Proof.
  intros Hr Hs Hl Hno. destruct (zsl_insert_spec h zsl xs s e level Hr Hs Hl Hno)
    as (h' & zsl' & x & xs' & ? & ? & ? & _). eauto 10.
Qed.

(** ** Deletion *)

Lemma free_rep h zsl xs x : zsl_rep h zsl xs → x ∉ header zsl :: (aid <$> xs) →
  zsl_rep (delete x h) zsl xs.
Proof.
  intros Hr Hx.
  assert (Hg : ∀ y i, y ≠ x → get_level (delete x h) y i = get_level h y i).
  { intros y i Hy. unfold get_level. by rewrite lookup_delete_ne. }
  assert (Hb : ∀ y, y ≠ x → base (delete x h) y = base h y).
  { intros y Hy. unfold base. by rewrite lookup_delete_ne. }
  assert (Hh : header zsl ≠ x) by set_solver.
  assert (Ha : ∀ a, a ∈ xs → aid a ≠ x) by (intros a Ha <-; set_solver).
  destruct Hr as [? Hl Htop Hhdr Hbs ? ? ? ? ? ? ?]. split; try done.
  - eapply links_same; [|done]. intros a i [->|Hin]%elem_of_cons _ _; apply Hg; auto.
  - intros i Hi. rewrite Hg by done. by apply Htop.
  - by rewrite Hb.
  - eapply bases_same; [|done]. auto.
Qed.

Lemma next_of_last h zsl pre post p a : zsl_rep h zsl (pre ++ post) → hdr zsl :: pre = p ++ [a] →
  get_level h (aid a) 0 = Some (link 0 post) ∧ forward (link 0 post) = aid <$> head post.
Proof.
  intros Hr Heq. pose proof (rep_lvl _ _ _ Hr). pose proof (rep_hts _ _ _ Hr) as Hh.
  apply Forall_app in Hh as [Hpre Hpost]. split.
  - rewrite <- (app_nil_r post). apply (rep_links _ _ _ Hr p a post 0%nat); [| |lia].
    + by rewrite app_comm_cons, Heq, <- app_assoc.
    + destruct p as [|b p]; injection Heq as <- Heq; [cbn; lia|]. subst pre.
      apply Forall_app in Hpre as [_ Ha]. inversion Ha. lia.
  - destruct Hpost as [|b post Hb]; [done|]. by rewrite link_tall by lia.
Qed.

Lemma key_lt_elem s e a : key_lt (ascore a) (aele a) s e = false → real s → real (ascore a) →
  ¬ key_lt s e (ascore a) (aele a) = true → ascore a = s ∧ aele a = e.
Proof.
  intros H1 Hs Ha H2. destruct (key_lt_total s e (ascore a) (aele a) Hs Ha) as [?|[[-> ->]|?]];
    [done|done|congruence].
Qed.

(** A key that is there is the first one that is not smaller. *)
Lemma found_first s e pre post : StronglySorted elem_lt (pre ++ post) →
  Forall (λ a, key_lt (ascore a) (aele a) s e = true) pre →
  Forall (λ a, key_lt (ascore a) (aele a) s e = false) post →
  (s, e) ∈ contents (pre ++ post) → ∃ b post', post = b :: post' ∧ ascore b = s ∧ aele b = e.
Proof.
  intros Hsort Hpre Hpost (a & Ha & <- & <-)%elem_of_contents. rewrite Forall_forall in Hpre.
  apply elem_of_app in Ha as [Ha|Ha].
  { specialize (Hpre a Ha). cbn in Hpre. by rewrite key_lt_irrefl in Hpre. }
  destruct post as [|b post]; [set_solver|]. exists b, post. split; [done|].
  apply elem_of_cons in Ha as [->|Ha]; [done|]. exfalso.
  apply StronglySorted_app_1_r in Hsort. inversion_clear Hsort as [|? ? _ Hb].
  rewrite Forall_forall in Hb. inversion_clear Hpost as [|? ? Hb' _].
  specialize (Hb a Ha). unfold elem_lt in Hb. congruence.
Qed.

Lemma contents_nodup xs : StronglySorted elem_lt xs → NoDup (contents xs).
Proof.
  induction 1 as [|a xs _ IH Ha]; [constructor|]. cbn. constructor; [|done].
  intros (b & Hb & Hs & He)%elem_of_contents. rewrite Forall_forall in Ha. specialize (Ha b Hb).
  unfold elem_lt in Ha. rewrite Hs, He, key_lt_irrefl in Ha. done.
Qed.

Lemma filter_remove s e pre b post : StronglySorted elem_lt (pre ++ b :: post) →
  ascore b = s → aele b = e →
  filter (λ k, k ≠ (s, e)) (contents (pre ++ b :: post)) = contents (pre ++ post).
Proof.
  intros Hsort <- <-. pose proof (contents_nodup _ Hsort) as Hnd. unfold contents in *.
  rewrite !fmap_app in *. cbn [fmap list_fmap] in *.
  assert ((ascore b, aele b) ∉ (λ a, (ascore a, aele a)) <$> pre ∧
    (ascore b, aele b) ∉ (λ a, (ascore a, aele a)) <$> post) as [H1 H2].
  { apply NoDup_app in Hnd as (_ & Hd & Hnd). apply NoDup_cons in Hnd as [? _].
    split; [|done]. intros Hin. apply (Hd _ Hin). set_solver. }
  rewrite filter_app, filter_cons_False by (cbn; auto).
  rewrite !filter_all; [done|..]; apply Forall_forall; intros k Hk ->; done.
Qed.

Lemma node_of h zsl xs a : zsl_rep h zsl xs → a ∈ xs → ∃ n, h !! aid a = Some n ∧
  node_ele n = Some (aele a) ∧ node_score n = ascore a.
Proof. intros Hr. apply (base_some _ None), (rep_bases _ _ _ Hr). Qed.

(** The test for the searched element. *)
Lemma same_key_test s e a n : node_ele n = Some (aele a) → node_score n = ascore a →
  real (ascore a) →
  deq s (node_score n) && (sdscmp (ele_of n) e =? 0) = bool_decide (ascore a = s ∧ aele a = e).
Proof.
  intros He Hs Hr. unfold ele_of. rewrite He, Hs. cbn. rewrite sdscmp_lexcmp.
  case_bool_decide as Hc.
  - destruct Hc as [<- <-]. rewrite deq_refl by done. by rewrite lexcmp_refl.
  - apply not_true_is_false. intros [Hd Hl]%andb_true_iff. apply Hc.
    apply deq_true in Hd. split; [done|]. apply lexcmp_eq. by destruct (lexcmp _ _).
Qed.

Lemma delete_ids h zsl pre b post : zsl_rep h zsl (pre ++ b :: post) →
  aid b ∉ header zsl :: (aid <$> pre ++ post).
Proof.
  intros Hr. pose proof (rep_nodup _ _ _ Hr) as Hnd. rewrite fmap_app in *. cbn in Hnd.
  rewrite <- Permutation_middle, Permutation_swap in Hnd. by apply NoDup_cons in Hnd as [? _].
Qed.

(** The loops write to the nodes that are there. *)
Lemma set_level_dom h x i lv h' : set_level h x i lv = Some h' → dom h' = dom h.
Proof.
  unfold set_level. intros (n & Hn & E)%bind_Some. destruct (_ <? _)%nat; [|done]. injection E as <-. apply dom_insert_lookup_L. by eexists.
Qed.

Lemma set_span_dom h x i s h' : set_span h x i s = Some h' → dom h' = dom h.
Proof. unfold set_span. intros (lv & _ & E)%bind_Some. by eapply set_level_dom. Qed.
Lemma set_forward_dom h x i f h' : set_forward h x i f = Some h' → dom h' = dom h.
Proof. unfold set_forward. intros (lv & _ & E)%bind_Some. by eapply set_level_dom. Qed.
Lemma set_backward_dom h x b h' : set_backward h x b = Some h' → dom h' = dom h.
Proof. unfold set_backward. intros (n & Hn & [= <-])%bind_Some. apply dom_insert_lookup_L. by eexists. Qed.

Lemma unlink_loop_dom n : ∀ i h x update h', unlink_loop n i h x update = Some h' → dom h' = dom h.
Proof.
  induction n as [|n IH]; intros i h x update h'; cbn [unlink_loop]; [by intros [= <-]|]. intros (u & _ & (lv & _ & (h1 & E & Hrec)%bind_Some)%bind_Some)%bind_Some. apply IH in Hrec. rewrite Hrec. case_bool_decide.
  - apply bind_Some in E as (xlv & _ & (h2 & E1%set_span_dom & E2%set_forward_dom)%bind_Some). congruence.
  - by apply set_span_dom in E.
Qed.

Lemma delete_node_dom h zsl x update h' zsl' : zslDeleteNode h zsl x update = Some (h', zsl') → dom h' = dom h.
Proof.
  unfold zslDeleteNode. intros (h1 & <-%unlink_loop_dom & (n & _ & (lv & _ & ([h2 tl] & E & (zl & _ & [= -> _])%bind_Some)%bind_Some)%bind_Some)%bind_Some)%bind_Some. destruct (forward lv); [|by injection E as <- _]. apply bind_Some in E as (h3 & E & [= -> _]). by apply set_backward_dom in E.
Qed.

(** What zslDelete leaves of the nodes: [x] is the node of the element. *)
Definition deleted (h h' : heap) (zsl zsl' : zskiplist) (xs xs' : list elem) (nd : option nat) (e : list Z) (found keep : bool) : Prop :=
  if found then
    ∃ x, aid <$> xs ≡ₚ x :: (aid <$> xs') ∧
      if keep then nd = Some x ∧ dom h' = dom h ∧ ∃ n, h' !! x = Some n ∧ node_ele n = Some e else nd = None ∧ dom h' = dom h ∖ {[x]}
  else nd = None ∧ h' = h ∧ zsl' = zsl.

Lemma zsl_delete_spec h zsl xs s e keep : zsl_rep h zsl xs → real s →
  ∃ h' zsl' xs' nd, zslDelete h zsl s e keep =
      Some (h', zsl', nd, Z.b2z (bool_decide ((s, e) ∈ contents xs))) ∧
    zsl_rep h' zsl' xs' ∧ contents xs' = filter (λ k, k ≠ (s, e)) (contents xs) ∧
    deleted h h' zsl zsl' xs xs' nd e (bool_decide ((s, e) ∈ contents xs)) keep.
Proof.
  intros Hr Hs. destruct (key_split s e xs (rep_sorted _ _ _ Hr)) as (pre & post & -> & Hpre & Hpost).
  unfold zslDelete.
  destruct (search_key h zsl s e pre post Hr Hpre Hpost) as (us & rs & p & a & -> & Hup & _ & _ & Heq & _).
  mnext. destruct (next_of_last _ _ _ _ _ _ Hr Heq) as [-> Hf]. mnext. rewrite Hf.
  assert (Hno : (s, e) ∉ contents (pre ++ post) → ∃ h' zsl' xs' nd,
    Some (h, zsl, None, 0) = Some (h', zsl', nd, Z.b2z (bool_decide ((s, e) ∈ contents (pre ++ post)))) ∧
    zsl_rep h' zsl' xs' ∧ contents xs' = filter (λ k, k ≠ (s, e)) (contents (pre ++ post)) ∧
    deleted h h' zsl zsl' (pre ++ post) xs' nd e (bool_decide ((s, e) ∈ contents (pre ++ post))) keep).
  { intros Hn. exists h, zsl, (pre ++ post), None. rewrite bool_decide_eq_false_2 by done.
    split; [done|]. split; [done|]. split; [|done].
    symmetry. apply filter_all, Forall_forall. by intros k Hk ->. }
  pose proof (rep_sorted _ _ _ Hr) as Hsort. pose proof (rep_real _ _ _ Hr) as Hreal.
  destruct post as [|b post]; cbn [head fmap option_fmap option_map].
  { apply Hno. intros (? & ? & ? & _)%found_first; done. }
  destruct (node_of _ _ _ b Hr) as (n & Hn & Hne & Hns); [set_solver|]. rewrite Hn. mnext.
  assert (isnan (ascore b) = false) as Hb by (rewrite Forall_forall in Hreal; apply Hreal; set_solver).
  rewrite (same_key_test s e b n Hne Hns Hb).
  destruct (decide (ascore b = s ∧ aele b = e)) as [Hc|Hc].
  2: { rewrite (bool_decide_eq_false_2 (_ ∧ _)) by done. apply Hno.
       intros (? & ? & [= <- <-] & ?)%found_first; done. }
  rewrite (bool_decide_eq_true_2 (_ ∧ _)) by done.
  destruct (delete_node_spec h zsl pre b post us rs Hr Hup)
    as (h1 & zsl1 & Hdel & Hr1 & Hhd & _ & _ & n1 & Hn1 & Hne1). rewrite Hdel. mnext. apply delete_node_dom in Hdel.
  rewrite bool_decide_eq_true_2 by (apply elem_of_contents; exists b; set_solver). assert (Hperm : aid <$> pre ++ b :: post ≡ₚ aid b :: (aid <$> pre ++ post)) by (by rewrite <- Permutation_middle).
  rewrite (filter_remove s e pre b post Hsort) by apply Hc. destruct keep.
  - exists h1, zsl1, (pre ++ post), (Some (aid b)). do 3 (split; [done|]). exists (aid b). split; [done|]. split_and!; [done|done|].
    destruct Hc as [_ <-]. eauto.
  - unfold zslFreeNode. rewrite Hn1. mnext. exists (delete (aid b) h1), zsl1, (pre ++ post), None.
    split; [done|]. split; [|split; [done|]]; [apply free_rep; [done|]; rewrite Hhd; by eapply delete_ids|]. exists (aid b). split; [done|]. split; [done|]. by rewrite dom_delete_L, Hdel.
Qed.

(** C22: zslDelete removes the element with the score and string exactly when it is there,
    says so, and leaves the rest of the list in order with right pointers and spans.  Its
    node is the only one that is freed, or it is handed out, with its string, when that is
    asked for; when the element is not there nothing changes. *)
Theorem zslDelete_correct h zsl xs s e keep : zsl_rep h zsl xs → real s →
  ∃ h' zsl' xs' nd, zslDelete h zsl s e keep =
      Some (h', zsl', nd, Z.b2z (bool_decide ((s, e) ∈ contents xs))) ∧
    zsl_rep h' zsl' xs' ∧ contents xs' = filter (λ k, k ≠ (s, e)) (contents xs) ∧
    deleted h h' zsl zsl' xs xs' nd e (bool_decide ((s, e) ∈ contents xs)) keep.
Proof. apply zsl_delete_spec. Qed.

(** ** Ranks *)

Lemma key_le_spec s e a n : node_ele n = Some (aele a) → node_score n = ascore a →
  real s → real (ascore a) →
  dlt (node_score n) s || (deq (node_score n) s && (sdscmp (ele_of n) e <=? 0)) =
  negb (key_lt s e (ascore a) (aele a)).
Proof.
  intros He Hn Hs Ha. unfold ele_of, key_lt. rewrite He, Hn. cbn. rewrite !sdscmp_lexcmp.
  rewrite (lexcmp_sym (aele a) e).
  destruct (dlt_total (ascore a) s Ha Hs) as [Hlt|[->|Hlt]].
  - destruct (dlt_asym _ _ Hlt) as (-> & -> & ->). by rewrite Hlt.
  - rewrite dlt_irrefl, deq_refl by done. by destruct (lexcmp (aele a) e).
  - destruct (dlt_asym _ _ Hlt) as (-> & -> & ->). by rewrite Hlt.
Qed.

(** Walking one level in a represented list. *)
Lemma walk_rep h zsl pre post go p a q i : zsl_rep h zsl (pre ++ post) →
  (∀ p b q n t lv, pre ++ post = p ++ b :: q → node_ele n = Some (aele b) →
    node_score n = ascore b → t + span lv = len p + 1 → go t lv n = (len p <? len pre)) →
  hdr zsl :: pre = p ++ a :: q → (i < aht a)%nat → (i < zlevel zsl)%nat →
  ∃ p' a' q', hdr zsl :: pre = p' ++ a' :: q' ∧ (i < aht a')%nat ∧ short i q' ∧
    walk (S (size h)) h go (aid a) i (len p) = Some (aid a', len p').
Proof.
  intros Hr Hgo Heq Hi Hz. pose proof (heap_size _ _ _ Hr) as Hsize. rewrite length_app in Hsize.
  apply (walk_spec h (zlevel zsl) (hdr zsl) pre post (rep_links _ _ _ Hr)) with (q := q); try done.
  - intros p1 b q1 Hb. destruct (node_of _ _ _ b Hr) as (n & Hn & He & Hs); [rewrite Hb; set_solver|].
    exists n. split; [done|]. intros t lv Ht. by eapply Hgo.
  - apply (f_equal length) in Heq. rewrite length_app in Heq. cbn in Heq. lia.
Qed.

(** A node of [hd :: pre] that is not the header is in [pre]. *)
Lemma header_or_elem zsl pre p a q : hdr zsl :: pre = p ++ a :: q →
  (p = [] ∧ a = hdr zsl ∧ q = pre) ∨ ∃ p', p = hdr zsl :: p' ∧ pre = p' ++ a :: q.
Proof. intros Heq. destruct p as [|b p]; injection Heq as <- Heq; [auto|]. right. eauto. Qed.

Lemma short_zero q : short 0 q → Forall (λ a, 1 <= aht a)%nat q → q = [].
Proof. destruct q; [done|]. intros Hs Hh. inversion_clear Hs. inversion_clear Hh. lia. Qed.

Lemma get_rank_loop_spec n h zsl pre post s e p a q : zsl_rep h zsl (pre ++ post) → real s →
  Forall (λ a, key_lt s e (ascore a) (aele a) = false) pre →
  Forall (λ a, key_lt s e (ascore a) (aele a) = true) post →
  hdr zsl :: pre = p ++ a :: q → (n <= aht a)%nat → (n <= zlevel zsl)%nat →
  (n = 0%nat → (s, e) ∉ contents pre) →
  get_rank_loop n h s e (aid a) (len p) =
  Some (if bool_decide ((s, e) ∈ contents pre) then len pre else 0).
Proof.
  intros Hr Hs Hpre Hpost. revert p a q.
  induction n as [|i IH]; intros p a q Heq Ha Hz H0.
  { rewrite bool_decide_eq_false_2 by auto. done. }
  cbn [get_rank_loop].
  destruct (walk_rep h zsl pre post (λ _ _ node, dlt (node_score node) s ||
    (deq (node_score node) s && (sdscmp (ele_of node) e <=? 0))) p a q i Hr)
    as (p' & a' & q' & Heq' & Ha' & Hs' & ->); [|done|lia|lia|].
  { apply (go_split (λ a, negb (key_lt s e (ascore a) (aele a))) (λ n, dlt (node_score n) s ||
      (deq (node_score n) s && (sdscmp (ele_of n) e <=? 0)))).
    - eapply Forall_impl; [exact Hpre|]. intros b Hb. cbn in *. by rewrite Hb.
    - eapply Forall_impl; [exact Hpost|]. intros b Hb. cbn in *. by rewrite Hb.
    - intros b n Hb He Hn. apply key_le_spec; try done.
      pose proof (rep_real _ _ _ Hr) as Hreal. rewrite Forall_forall in Hreal. by apply Hreal. }
  mnext. pose proof (rep_hts _ _ _ Hr) as Hh. pose proof (rep_sorted _ _ _ Hr) as Hsort.
  pose proof (rep_real _ _ _ Hr) as Hreal. apply StronglySorted_app_1_l in Hsort.
  apply Forall_app in Hh as [Hh _]. apply Forall_app in Hreal as [Hreal _].
  assert (Hh1 : Forall (λ a, 1 <= aht a)%nat pre) by (eapply Forall_impl; [exact Hh|]; cbv beta; lia).
  destruct (header_or_elem _ _ _ _ _ Heq') as [(-> & -> & ->)|(p1 & -> & Hp1)].
  - destruct (rep_hdr _ _ _ Hr) as (s0 & b0 & (n & Hn & He & _)%base_lookup).
    change (aid (hdr zsl)) with (header zsl). rewrite Hn. mnext. rewrite He.
    apply (IH [] (hdr zsl) pre); [done|lia|lia|]. intros ->.
    rewrite (short_zero pre) by done. apply not_elem_of_nil.
  - assert (a' ∈ pre) as Hin by (rewrite Hp1; set_solver).
    destruct (node_of _ _ _ a' Hr) as (n & -> & Hne & Hns); [set_solver|]. mnext. rewrite Hne.
    pose proof (same_key_test s e a' n Hne Hns) as Htest. unfold ele_of in Htest. rewrite Hne in Htest.
    cbn [default id] in Htest. rewrite deq_sym, Htest by (rewrite Forall_forall in Hreal; by apply Hreal).
    rewrite Hp1 in Hsort. apply StronglySorted_app in Hsort as (Hbefore & _ & Hafter).
    inversion_clear Hafter as [|? ? _ Hlt]. rewrite Forall_forall in Hlt, Hpre.
    destruct (decide (ascore a' = s ∧ aele a' = e)) as [Hc|Hc];
      [rewrite (bool_decide_eq_true_2 (_ ∧ _)) by done|rewrite (bool_decide_eq_false_2 (_ ∧ _)) by done].
    + destruct Hc as [<- <-]. rewrite bool_decide_eq_true_2 by (apply elem_of_contents; eauto).
      f_equal. destruct q' as [|b q']; [rewrite Hp1; len_lia|]. exfalso.
      specialize (Hlt b ltac:(set_solver)). unfold elem_lt in Hlt. rewrite Hpre in Hlt; [done|]. rewrite Hp1. set_solver.
    + apply (IH (hdr zsl :: p1) a' q'); [done|lia|lia|]. intros ->.
      rewrite (short_zero q') in * by (done || (rewrite Hp1 in Hh1; apply Forall_app in Hh1 as [_ Hh1]; by inversion Hh1)).
      intros (b & Hb & <- & <-)%elem_of_contents. rewrite Hp1 in Hb.
      apply elem_of_app in Hb as [Hb|Hb]; [|set_solver].
      specialize (Hbefore b a' Hb ltac:(set_solver)). unfold elem_lt in Hbefore.
      by rewrite Hpre in Hbefore.
Qed.

Lemma le_split s e xs : StronglySorted elem_lt xs →
  ∃ pre post, xs = pre ++ post ∧ Forall (λ a, key_lt s e (ascore a) (aele a) = false) pre ∧
    Forall (λ a, key_lt s e (ascore a) (aele a) = true) post.
Proof.
  intros Hsort.
  destruct (split_at (λ a, negb (key_lt s e (ascore a) (aele a))) xs) as (pre & post & -> & H1 & H2); [|done|].
  - intros a b Hab Hb. apply negb_true_iff in Hb. apply negb_true_iff.
    apply not_true_is_false. intros Ha. by rewrite (key_lt_trans _ _ _ _ _ _ Ha Hab) in Hb.
  - exists pre, post. split; [done|].
    split; (eapply Forall_impl; [eassumption|]); intros a Ha; cbn in *; by destruct (key_lt _ _ _ _).
Qed.

(** Of the keys that are not greater the searched one is the last. *)
Lemma found_last s e pre p b q : StronglySorted elem_lt pre →
  Forall (λ a, key_lt s e (ascore a) (aele a) = false) pre → pre = p ++ b :: q →
  ascore b = s → aele b = e → q = [].
Proof.
  intros Hsort Hpre -> <- <-. destruct q as [|c q]; [done|]. exfalso.
  apply StronglySorted_app_1_r in Hsort. inversion_clear Hsort as [|? ? _ Hc].
  inversion_clear Hc as [|? ? Hbc _]. apply Forall_app in Hpre as [_ Hpre].
  inversion_clear Hpre as [|? ? _ Hpre']. inversion_clear Hpre'. unfold elem_lt in Hbc. congruence.
Qed.

(** ZslGetRank returns the 1-based position of the element in the sorted
    order, and 0 exactly when it is not in the list. *)
Theorem zslGetRank_correct h zsl xs s e : zsl_rep h zsl xs → real s →
  ∃ r, zslGetRank h zsl s e = Some r ∧ 0 <= r ∧
    (r = 0 → (s, e) ∉ contents xs) ∧
    ∀ k, contents xs !! k = Some (s, e) ↔ r = Z.of_nat k + 1.
Proof.
  intros Hr Hs. pose proof (rep_sorted _ _ _ Hr) as Hsort.
  destruct (le_split s e xs Hsort) as (pre & post & -> & Hpre & Hpost). unfold zslGetRank.
  pose proof (rep_lvl _ _ _ Hr) as Hlvl.
  pose proof (get_rank_loop_spec (zlevel zsl) h zsl pre post s e [] (hdr zsl) pre Hr Hs Hpre Hpost) as Hg.
  change (get_rank_loop (zlevel zsl) h s e (header zsl) 0) with
    (get_rank_loop (zlevel zsl) h s e (aid (hdr zsl)) (len (@nil elem))).
  rewrite Hg by (done || cbn; lia). clear Hg. eexists. split; [done|].
  assert (Hpost' : (s, e) ∉ contents post).
  { intros (b & Hb & <- & <-)%elem_of_contents. rewrite Forall_forall in Hpost.
    specialize (Hpost b Hb). cbn in Hpost. by rewrite key_lt_irrefl in Hpost. }
  assert (Happ : contents (pre ++ post) = contents pre ++ contents post) by apply fmap_app.
  case_bool_decide as Hin.
  - apply StronglySorted_app_1_l in Hsort as Hsort'.
    apply elem_of_contents in Hin as Hb. destruct Hb as (b & (p & q & Hp)%list_elem_of_split & Hbs & Hbe).
    rewrite (found_last s e pre p b q) in Hp by done.
    assert (contents (pre ++ post) !! length p = Some (s, e)) as Hk.
    { rewrite Hp. unfold contents. rewrite list_lookup_fmap, <- app_assoc. cbn.
      rewrite list_lookup_middle by done. cbn. congruence. }
    split; [lia|]. split; [rewrite Hp; len_lia|]. intros k. rewrite Hp, length_app. cbn. split.
    + intros Hk'. rewrite (NoDup_lookup (contents (pre ++ post)) k (length p) (s, e)); [lia| |congruence|done].
      by apply contents_nodup.
    + intros Heq. rewrite <- Hp. by replace k with (length p) by lia.
  - split; [done|]. rewrite Happ. split; [rewrite elem_of_app; naive_solver|].
    intros k. split; [|lia]. intros Hk%list_elem_of_lookup_2. set_solver.
Qed.

Lemma by_rank_loop_spec n h zsl pre post rank p a q : zsl_rep h zsl (pre ++ post) →
  (len pre = rank ∨ post = [] ∧ len pre < rank) →
  hdr zsl :: pre = p ++ a :: q → (n <= aht a)%nat → (n <= zlevel zsl)%nat →
  (n = 0%nat → len pre ≠ rank) →
  ∃ p' a', hdr zsl :: pre = p' ++ [a'] ∧
    by_rank_loop n h rank (aid a) (len p) =
    Some (if bool_decide (len pre = rank) then Some (aid a') else None).
Proof.
  intros Hr Hrank. revert p a q. induction n as [|i IH]; intros p a q Heq Ha Hz H0.
  { destruct (exists_last (l := hdr zsl :: pre)) as (p' & a' & Hp); [done|].
    exists p', a'. split; [done|]. rewrite bool_decide_eq_false_2 by auto. done. }
  cbn [by_rank_loop].
  destruct (walk_rep h zsl pre post (λ traversed lv _, traversed + span lv <=? rank) p a q i Hr)
    as (p' & a' & q' & Heq' & Ha' & Hs' & ->); [|done|lia|lia|].
  { intros p1 b q1 n t lv Hb _ _ ->. apply (f_equal length) in Hb. rewrite !length_app in Hb.
    cbn in Hb. destruct Hrank as [?|[-> ?]]; cbn in Hb; lia. }
  mnext. apply (f_equal length) in Heq' as Hlen. rewrite length_app in Hlen. cbn in Hlen.
  destruct (Z.eqb_spec (len p') rank) as [Hp'|Hp'].
  - assert (q' = []) as -> by (destruct q'; [done|]; cbn in *; lia).
    exists p', a'. split; [done|]. rewrite bool_decide_eq_true_2; [done|]. cbn in *. lia.
  - apply (IH p' a' q'); [done|lia|lia|]. intros ->.
    pose proof (rep_hts _ _ _ Hr) as Hh. apply Forall_app in Hh as [Hh _].
    assert (q' = []) as ->; [|cbn in *; lia]. apply short_zero; [done|].
    destruct (header_or_elem _ _ _ _ _ Heq') as [(_ & _ & ->)|(p1 & _ & Hp1)].
    + eapply Forall_impl; [exact Hh|]. cbv beta. lia.
    + rewrite Hp1 in Hh. apply Forall_app in Hh as [_ Hh]. inversion_clear Hh.
      eapply Forall_impl; [eassumption|]. cbv beta. lia.
Qed.

(** ZslGetElementByRank returns the node of the element with the 1-based
    rank, and NULL exactly for a rank beyond the length. *)
Theorem zslGetElementByRank_correct h zsl xs rank : zsl_rep h zsl xs → 1 <= rank →
  zslGetElementByRank h zsl rank = Some (aid <$> xs !! Z.to_nat (rank - 1)).
Proof.
  intros Hr Hrank. unfold zslGetElementByRank. pose proof (rep_lvl _ _ _ Hr) as Hlvl.
  rewrite <- (take_drop (Z.to_nat rank) xs) in Hr.
  destruct (by_rank_loop_spec (zlevel zsl) h zsl (take (Z.to_nat rank) xs) (drop (Z.to_nat rank) xs)
    rank [] (hdr zsl) (take (Z.to_nat rank) xs) Hr) as (p & a & Heq & Hrun); [|done|cbn; lia|lia|lia|].
  { destruct (decide (rank <= len xs)); [left; len_lia|right]. split; [apply drop_ge|]; len_lia. }
  change (by_rank_loop (zlevel zsl) h rank (header zsl) 0) with
    (by_rank_loop (zlevel zsl) h rank (aid (hdr zsl)) (len (@nil elem))). rewrite Hrun. f_equal.
  case_bool_decide as Hlen.
  - destruct (header_or_elem _ _ _ _ _ Heq) as [(-> & _ & Hnil)|(p1 & _ & Hp1)].
    { rewrite <- Hnil in Hlen. simpl in Hlen. lia. }
    assert (xs !! Z.to_nat (rank - 1) = Some a) as ->; [|done].
    apply (f_equal length) in Hp1 as Hl. rewrite length_app in Hl. cbn in Hl.
    rewrite <- (lookup_take_lt xs (Z.to_nat rank)) by lia. rewrite Hp1.
    rewrite lookup_app_r by lia. by replace (_ - _)%nat with 0%nat by lia.
  - rewrite (lookup_ge_None_2 xs); [done|]. len_lia.
Qed.

(** ** Changing a score *)

Lemma elem_lt_before pre b s : StronglySorted elem_lt pre →
  (∀ a, last pre = Some a → dlt (ascore a) s = true) →
  Forall (λ a, key_lt (ascore a) (aele a) s b = true) pre.
Proof.
  intros Hsort Hlast. apply Forall_forall. intros a Ha.
  destruct (last pre) as [c|] eqn:Hc; [|by apply last_None in Hc as ->; set_solver].
  assert (key_lt (ascore c) (aele c) s b = true) as Hcb.
  { unfold key_lt. by rewrite (Hlast c eq_refl). }
  apply last_Some in Hc as [p ->]. apply elem_of_app in Ha as [Ha|Ha]; [|set_solver].
  apply StronglySorted_app in Hsort as (Hlt & _ & _).
  eapply key_lt_trans; [exact (Hlt a c Ha ltac:(set_solver))|done].
Qed.

Lemma elem_lt_after post b s : StronglySorted elem_lt post →
  (∀ a, head post = Some a → dlt s (ascore a) = true) →
  Forall (λ a, key_lt s b (ascore a) (aele a) = true) post.
Proof.
  intros Hsort Hhead. destruct Hsort as [|c post _ Hlt]; [constructor|].
  assert (key_lt s b (ascore c) (aele c) = true) as Hcb.
  { unfold key_lt. by rewrite (Hhead c eq_refl). }
  constructor; [done|]. eapply Forall_impl; [exact Hlt|]. intros a Ha. by eapply key_lt_trans.
Qed.

Lemma links_rescore h zl l1 b b' l2 : aid b' = aid b → aht b' = aht b →
  links_ok h zl (l1 ++ b :: l2) [] → links_ok h zl (l1 ++ b' :: l2) [].
Proof.
  intros Hid Hht [H1 H2]%links_app. apply links_app.
  assert (Hlink : ∀ i q, link i (q ++ b' :: l2) = link i (q ++ b :: l2)).
  { intros i q. induction q as [|c q IH]; cbn [link app]; [by rewrite Hid, Hht|by rewrite IH]. }
  split.
  - intros p a q i Heq Hi Hz. rewrite app_nil_r, Hlink. rewrite <- (app_nil_r (b :: l2)). by apply (H1 p a q).
  - intros [|c p] a q i Heq Hi Hz; injection Heq as Ha Heq.
    + subst a q. rewrite Hid. apply (H2 [] b l2); [done|by rewrite <- Hht|done].
    + apply (H2 (b :: p) a q); [by rewrite Heq|done..].
Qed.

(** Writing the score of a node that keeps its place. *)
Lemma set_score_rep h zsl pre b post s : zsl_rep h zsl (pre ++ b :: post) → real s →
  Forall (λ a, key_lt (ascore a) (aele a) s (aele b) = true) pre →
  Forall (λ a, key_lt s (aele b) (ascore a) (aele a) = true) post →
  ∃ h', set_score h (aid b) s = Some h' ∧
    zsl_rep h' zsl (pre ++ mk_elem (aid b) (aht b) s (aele b) :: post).
Proof.
  intros Hr Hs Hpre Hpost. pose proof (delete_ids _ _ _ _ _ Hr) as Hids. rewrite fmap_app in Hids.
  assert (Hhb : header zsl ≠ aid b) by set_solver.
  assert (Hpb : ∀ a, a ∈ pre ∨ a ∈ post → aid a ≠ aid b) by (intros a Ha Heq; rewrite <- Heq in Hids; set_solver).
  destruct Hr as [Hnd Hl Htop Hhdr Hbs Htl Hlen Hlvl Hhts Hmax Hreal Hsort].
  apply bases_app in Hbs as [Hb1 [Hb2 Hb3]].
  destruct (set_score_spec h (aid b) s _ _ _ Hb2) as (h' & Hset & Hg & Hb). exists h'.
  split; [done|]. set (b' := mk_elem (aid b) (aht b) s (aele b)).
  split.
  - rewrite fmap_app in *. exact Hnd.
  - eapply links_same; [by intros a i _ _ _; apply Hg|].
    by apply (links_rescore h (zlevel zsl) (hdr zsl :: pre) b b' post).
  - intros i Hi. rewrite Hg. by apply Htop.
  - rewrite Hb, decide_False by done. done.
  - apply bases_app. split; [|split].
    + eapply bases_same; [|exact Hb1]. intros a Ha. rewrite Hb, decide_False; auto.
    + rewrite Hb, decide_True by done. done.
    + eapply bases_same; [|exact Hb3]. intros a Ha. rewrite Hb, decide_False; auto.
  - rewrite Htl, !last_id_app. unfold last_id. rewrite !last_cons. by destruct (last post).
  - rewrite Hlen, !length_app. done.
  - done.
  - apply Forall_app in Hhts as [H1 H2]. inversion_clear H2. apply Forall_app. auto.
  - destruct Hmax as [?|(a & Ha & Hh)]; [by left|right].
    apply elem_of_app in Ha as [Ha|[->|Ha]%elem_of_cons]; [exists a; set_solver|exists b'|exists a]; set_solver.
  - apply Forall_app in Hreal as [H1 H2]. inversion_clear H2. apply Forall_app. auto.
  - apply sorted_insert; [|done..]. by eapply sorted_delete.
Qed.

(** The test whether the node may stay where it is. *)
Lemma same_place_spec h zsl pre b post s n lv : zsl_rep h zsl (pre ++ b :: post) →
  h !! aid b = Some n → levels n !! 0%nat = Some lv →
  ∃ back_ok stay : bool,
    match backward n with
    | None => Some true
    | Some c => nb ← h !! c; Some (dlt (node_score nb) s)
    end = Some back_ok ∧
    (if back_ok : bool then
       match forward lv with
       | None => Some true
       | Some f => nf ← h !! f; Some (dlt s (node_score nf))
       end
     else Some false) = Some stay ∧
    (stay = true → Forall (λ a, key_lt (ascore a) (aele a) s (aele b) = true) pre ∧
      Forall (λ a, key_lt s (aele b) (ascore a) (aele a) = true) post).
Proof.
  intros Hr Hn Hlv. pose proof (rep_sorted _ _ _ Hr) as Hsort.
  apply StronglySorted_app in Hsort as (_ & Hs1 & Hs2).
  inversion_clear Hs2 as [|? ? Hs3 _].
  assert (backward n = last_id None pre) as ->.
  { pose proof (bases_base _ _ _ pre b post (rep_bases _ _ _ Hr) eq_refl) as Hb.
    apply base_lookup in Hb as (n' & Hn' & _ & _ & <-). congruence. }
  assert (forward lv = aid <$> head post) as ->.
  { destruct (next_of_last h zsl (pre ++ [b]) post (hdr zsl :: pre) b) as [Hg <-];
      [by rewrite <- app_assoc|done|]. unfold get_level in Hg. rewrite Hn in Hg. cbn in Hg. congruence. }
  assert (∃ bo : bool, match last_id None pre with
      | None => Some true | Some c => nb ← h !! c; Some (dlt (node_score nb) s) end = Some bo ∧
      (bo = true → Forall (λ a, key_lt (ascore a) (aele a) s (aele b) = true) pre)) as (bo & -> & Hbo).
  { unfold last_id. destruct (last pre) as [c|] eqn:Hc.
    - destruct (node_of _ _ _ c Hr) as (nc & -> & _ & Hsc).
      { apply last_Some_elem_of in Hc. set_solver. }
      eexists. split; [done|]. rewrite Hsc. intros Hlt. apply elem_lt_before; [done|]. congruence.
    - exists true. split; [done|]. intros _. by apply last_None in Hc as ->. }
  exists bo. destruct bo; [|by exists false]. destruct post as [|c post].
  { exists true. do 2 (split; [done|]). intros _. auto. }
  destruct (node_of _ _ _ c Hr) as (nc & Hnc & _ & Hsc); [set_solver|].
  cbn [head fmap option_fmap option_map]. rewrite Hnc. mnext. eexists. do 2 (split; [done|]). rewrite Hsc.
  intros Hlt. split; [auto|]. apply elem_lt_after; [done|]. intros a [= <-]. done.
Qed.

(** ZslUpdateScore of an element that is there changes its score and moves
    it to its place: the outcome is that of deleting and inserting it, also when
    the node is kept and only its score is written. *)
Theorem zslUpdateScore_correct h zsl xs cur e new level : zsl_rep h zsl xs → real cur → real new →
  (1 <= level <= ZSKIPLIST_MAXLEVEL)%nat → (cur, e) ∈ contents xs →
  (new = cur ∨ (new, e) ∉ contents xs) →
  ∃ h' zsl' x xs', zslUpdateScore h zsl cur e new level = Some (h', zsl', x) ∧
    zsl_rep h' zsl' xs' ∧ x ∈ aid <$> xs' ∧
    contents xs' = insert_key new e (filter (λ k, k ≠ (cur, e)) (contents xs)).
Proof.
  intros Hr Hcur Hnew Hlevel Hin Hno. pose proof (rep_sorted _ _ _ Hr) as Hsort.
  destruct (key_split cur e xs Hsort) as (pre & rest & -> & Hpre & Hrest).
  destruct (found_first cur e pre rest) as (b & post & -> & Hbs & Hbe); [done..|].
  rewrite (filter_remove cur e pre b post) by done. unfold zslUpdateScore.
  destruct (search_key h zsl cur e pre (b :: post) Hr Hpre Hrest) as (us & rs & p & a & -> & Hup & _ & _ & Heq & _).
  mnext. destruct (next_of_last _ _ _ _ _ _ Hr Heq) as [-> Hf]. mnext. rewrite Hf.
  cbn [head fmap option_fmap option_map]. mnext.
  destruct (node_of _ _ _ b Hr) as (n & Hn & Hne & Hns); [set_solver|]. rewrite Hn. mnext.
  rewrite (same_key_test cur e b n Hne Hns), bool_decide_eq_true_2 by (congruence || done).
  destruct (next_of_last h zsl (pre ++ [b]) post (hdr zsl :: pre) b) as [Hlv Hfw];
    [by rewrite <- app_assoc|done|].
  unfold get_level in Hlv. rewrite Hn in Hlv. cbn [mbind option_bind] in Hlv. rewrite Hlv. mnext.
  destruct (same_place_spec h zsl pre b post new n _ Hr Hn Hlv) as (bo & stay & -> & Hst & Hok).
  mnext. rewrite Hst. mnext. destruct stay.
  - destruct (Hok eq_refl) as [H1 H2].
    destruct (set_score_rep h zsl pre b post new Hr Hnew H1 H2) as (h' & -> & Hr'). mnext.
    eexists _, _, _, _. split; [done|]. split; [exact Hr'|]. rewrite fmap_app.
    split; [set_solver|]. rewrite Hbe in H1, H2.
    rewrite insert_key_split by (done || by apply greater_not_smaller). unfold contents.
    rewrite fmap_app, <- Hbe. done.
  - destruct (delete_node_spec h zsl pre b post us rs Hr Hup)
      as (h1 & zsl1 & -> & Hr1 & Hhd & _ & _ & n1 & Hn1 & _). mnext.
    unfold ele_of. rewrite Hne, Hbe. cbn [default id].
    destruct (zsl_insert_spec h1 zsl1 (pre ++ post) new e level)
      as (h2 & zsl2 & x & xs' & -> & Hr2 & Hc & Hhd2 & Hx & Hids & Hfr); [done..| |].
    { pose proof (contents_nodup _ Hsort) as Hnd. intros Hin'. destruct Hno as [->|Hno].
      - rewrite <- (filter_remove cur e pre b post) in Hin' by done.
        by apply list_elem_of_filter in Hin' as [? _].
      - apply Hno. rewrite <- (filter_remove cur e pre b post) in Hin' by done.
        by apply list_elem_of_filter in Hin' as [_ ?]. }
    mnext. pose proof (delete_ids _ _ _ _ _ Hr) as Hb.
    apply not_elem_of_cons in Hb as [Hbh Hbi].
    destruct (Hfr (aid b) Hbi) as [n2 Hn2]; [by rewrite Hn1|].
    unfold zslFreeNode. rewrite Hn2. mnext. eexists _, _, _, _. split; [done|]. split; [|].
    + apply free_rep; [exact Hr2|]. rewrite Hhd2, Hhd.
      intros [Hb'|[Hb'|Hb']%Hids]%elem_of_cons; [done|congruence|done].
    + split; [|done]. apply Hids. by left.
Qed.

(** ** Creating and freeing *)

Lemma create_rep h h' zsl : zslCreate h = (h', zsl) → zsl_rep h' zsl [].
Proof.
  unfold zslCreate. destruct (zslCreateNode h ZSKIPLIST_MAXLEVEL (Fin 0) None) as [h1 x] eqn:Hc.
  intros [= <- <-]. destruct (create_node_spec _ _ _ _ _ _ Hc) as (_ & _ & Hg & Hb).
  split; cbn [header zlevel tail zlength].
  - apply NoDup_singleton.
  - intros [|? p] a q i Heq Hi Hz; injection Heq as <- Heq; [|by destruct p]. subst q. apply Hg.
    cbn in *. lia.
  - intros i Hi. exists 0. apply Hg. lia.
  - exists (Fin 0), None. by rewrite Hb, decide_True.
  - done.
  - done.
  - done.
  - unfold ZSKIPLIST_MAXLEVEL. lia.
  - constructor.
  - by left.
  - constructor.
  - constructor.
Qed.

(** ZslCreate makes a represented, empty list in any heap. *)
Theorem zslCreate_correct h : zsl_rep (zslCreate h).1 (zslCreate h).2 [].
Proof. apply (create_rep h). by destruct (zslCreate h). Qed.

Lemma freed_cell (y x : nat) (l : list nat) (h : heap) :
  (if decide (y ∈ l) then None else delete x h !! y) =
  if decide (y ∈ x :: l) then None else h !! y.
Proof.
  destruct (decide (y ∈ l)) as [Hl|Hl].
  - rewrite decide_True; [done|]. by right.
  - destruct (decide (y = x)) as [->|Hy].
    + rewrite decide_True by left. apply lookup_delete_eq.
    + rewrite decide_False by (intros [?|?]%elem_of_cons; done). by apply lookup_delete_ne.
Qed.

Lemma free_loop_spec fuel h xs :
  (∀ p a q, xs = p ++ a :: q → ∃ lv, get_level h (aid a) 0 = Some lv ∧ forward lv = aid <$> head q) →
  NoDup (aid <$> xs) → (length xs <= fuel)%nat →
  ∃ h', free_loop fuel h (aid <$> head xs) = Some h' ∧
    ∀ y, h' !! y = if decide (y ∈ aid <$> xs) then None else h !! y.
Proof.
  revert h xs. induction fuel as [|fuel IH]; intros h [|a xs] Hl Hnd Hf; cbn in Hf; try lia.
  1, 2: exists h; split; [done|]; intros y; by rewrite decide_False by apply not_elem_of_nil.
  cbn [head fmap option_fmap option_map free_loop].
  destruct (Hl [] a xs eq_refl) as (lv & Hlv & Hfw). rewrite Hlv. mnext.
  unfold get_level in Hlv. unfold zslFreeNode. destruct (h !! aid a) as [n|] eqn:Hn; [|done]. mnext.
  rewrite Hfw. cbn [fmap list_fmap] in Hnd. apply NoDup_cons in Hnd as [Ha Hnd].
  destruct (IH (delete (aid a) h) xs) as (h' & Hrun & Hh'); [|done|lia|].
  - intros p b q ->. destruct (Hl (a :: p) b q eq_refl) as (lv' & Hlv' & Hfw'). exists lv'.
    split; [|done]. unfold get_level. rewrite lookup_delete_ne; [done|].
    intros Heq. apply Ha. rewrite Heq, fmap_app. set_solver.
  - exists h'. split; [exact Hrun|]. intros y. rewrite Hh'.
    apply freed_cell.
Qed.

(** ZslFree frees the header and every node exactly once, and nothing
    else of the heap. *)
Theorem zslFree_correct h zsl xs : zsl_rep h zsl xs →
  ∃ h', zslFree h zsl = Some h' ∧
    ∀ y, h' !! y = if decide (y ∈ header zsl :: (aid <$> xs)) then None else h !! y.
Proof.
  intros Hr. unfold zslFree. pose proof (rep_nodup _ _ _ Hr) as [Hhd Hnd]%NoDup_cons.
  destruct (next_of_last h zsl [] xs [] (hdr zsl)) as [Hg Hf]; [done..|].
  change (aid (hdr zsl)) with (header zsl) in Hg. rewrite Hg. mnext. rewrite Hf.
  pose proof (heap_size _ _ _ Hr).
  destruct (free_loop_spec (size h) (delete (header zsl) h) xs) as (h' & -> & Hh'); [|done|lia|].
  - intros p a q ->. destruct (next_of_last h zsl (p ++ [a]) q (hdr zsl :: p) a) as [Ha Hfw];
      [by rewrite <- app_assoc|done|]. exists (link 0 q). split; [|done]. rewrite <- Ha.
    unfold get_level. rewrite lookup_delete_ne; [done|]. intros Heq. apply Hhd. rewrite Heq, fmap_app. set_solver.
  - exists h'. split; [done|]. intros y. rewrite Hh'. apply freed_cell.
Qed.

(** ** An example *)

Definition ex_run : option (heap * zskiplist * nat) :=
  let '(h, zsl) := zslCreate ∅ in
  '(h, zsl, _) ← zslInsert h zsl (Fin 10) [98] 1;
  '(h, zsl, _) ← zslInsert h zsl (Fin 10) [97] 3;
  zslInsert h zsl (Fin 20) [97] 2.
Definition ex_heap : heap := from_option (λ r, r.1.1) ∅ ex_run.
Definition ex_zsl : zskiplist := from_option (λ r, r.1.2) (mk_zsl 0 None 0 0) ex_run.
Definition ex_elems : list elem :=
  [mk_elem 2 3 (Fin 10) [97]; mk_elem 1 1 (Fin 10) [98]; mk_elem 3 2 (Fin 20) [97]].

Fixpoint links_check (h : heap) (zl : nat) (l : list elem) : Prop :=
  match l with
  | [] => True
  | a :: q =>
    Forall (λ i, get_level h (aid a) i = Some (link i q)) (seq 0 (aht a `min` zl)) ∧
    links_check h zl q
  end.

Lemma links_checked h zl l : links_check h zl l → links_ok h zl l [].
Proof.
  induction l as [|b l IH]; intros Hc p a q i Heq Hi Hz; [by destruct p|]. destruct Hc as [Hb Hc].
  destruct p as [|c p]; injection Heq as -> Heq; [|by apply (IH Hc p)]. subst l. rewrite app_nil_r.
  rewrite Forall_forall in Hb. apply Hb, elem_of_seq. lia.
Qed.

#[export] Instance zskiplistLevel_eq_dec : EqDecision zskiplistLevel.
Proof. solve_decision. Defined.

Lemma ex_rep : zsl_rep ex_heap ex_zsl ex_elems.
Proof.
  split.
  - by_decision.
  - apply links_checked. split; [by_decision|]. do 3 (split; [by_decision|]). done.
  - intros i Hi. assert (i ∈ seq 3 29) as Hin.
    { apply elem_of_seq. vm_compute in Hi. lia. }
    assert (Forall (λ i, get_level ex_heap (header ex_zsl) i = Some (mk_level None 0)) (seq 3 29)) as Hall
      by by_decision.
    rewrite Forall_forall in Hall. eexists. by apply Hall.
  - exists (Fin 0), None. by vm_compute.
  - by vm_compute.
  - by vm_compute.
  - by vm_compute.
  - vm_compute. lia.
  - by_decision.
  - right. exists (mk_elem 2 3 (Fin 10) [97]). split; [left|by vm_compute].
  - by_decision.
  - repeat constructor.
Qed.

Lemma zslInsert_correct_witness : ∃ h' zsl' x xs',
  zslInsert ex_heap ex_zsl (Fin 15) [99] 4 = Some (h', zsl', x) ∧ zsl_rep h' zsl' xs' ∧
  contents xs' = [(Fin 10, [97]); (Fin 10, [98]); (Fin 15, [99]); (Fin 20, [97])].
Proof.
  apply (zslInsert_correct ex_heap ex_zsl ex_elems (Fin 15) [99] 4);
    [exact ex_rep|reflexivity|by_decision|by_decision].
Defined.

Lemma zslDelete_correct_witness : ∃ h' zsl' xs' nd,
  zslDelete ex_heap ex_zsl (Fin 10) [97] false = Some (h', zsl', nd, 1) ∧
  zsl_rep h' zsl' xs' ∧ contents xs' = [(Fin 10, [98]); (Fin 20, [97])] ∧ deleted ex_heap h' ex_zsl zsl' ex_elems xs' nd [97] true false.
Proof.
  apply (zslDelete_correct ex_heap ex_zsl ex_elems (Fin 10) [97] false); [exact ex_rep|reflexivity].
Defined.

Lemma zslGetRank_correct_witness : ∃ r, zslGetRank ex_heap ex_zsl (Fin 20) [97] = Some r ∧ 0 <= r ∧
  (r = 0 → (Fin 20, [97]) ∉ contents ex_elems) ∧
  ∀ k, contents ex_elems !! k = Some (Fin 20, [97]) ↔ r = Z.of_nat k + 1.
Proof. apply (zslGetRank_correct ex_heap ex_zsl ex_elems (Fin 20) [97]); [exact ex_rep|reflexivity]. Defined.

Lemma zslGetElementByRank_correct_witness :
  zslGetElementByRank ex_heap ex_zsl 2 = Some (Some 1%nat).
Proof. apply (zslGetElementByRank_correct ex_heap ex_zsl ex_elems 2); [exact ex_rep|lia]. Defined.

Lemma zslUpdateScore_correct_witness : ∃ h' zsl' x xs',
  zslUpdateScore ex_heap ex_zsl (Fin 10) [97] (Fin 30) 2 = Some (h', zsl', x) ∧
  zsl_rep h' zsl' xs' ∧ x ∈ aid <$> xs' ∧
  contents xs' = [(Fin 10, [98]); (Fin 20, [97]); (Fin 30, [97])].
Proof.
  apply (zslUpdateScore_correct ex_heap ex_zsl ex_elems (Fin 10) [97] (Fin 30) 2);
    [exact ex_rep|reflexivity|reflexivity|by_decision|by_decision|right; by_decision].
Defined.

Lemma zslFree_correct_witness : ∃ h', zslFree ex_heap ex_zsl = Some h' ∧
  ∀ y, h' !! y = if decide (y ∈ [0; 2; 1; 3]%nat) then None else ex_heap !! y.
Proof. apply (zslFree_correct ex_heap ex_zsl ex_elems). exact ex_rep. Defined.
