(* ===== verification/SkiplistRanges.v ===== *)
(** Ranges of a skiplist (t_zset.c): the first and the last element of a range
    of scores or of strings, and the removal of a range by score, by string or
    by rank. *)
From stdpp Require Import gmap sorting.
From S2P Require Import Prelude Skiplist SkiplistSpec SkiplistTheorems.
Local Open Scope Z_scope.

Lemma split_by (P : elem → bool) xs :
  (∀ a b, a ∈ xs → b ∈ xs → elem_lt a b → P b = true → P a = true) → StronglySorted elem_lt xs →
  ∃ pre post, xs = pre ++ post ∧ Forall (λ a, P a = true) pre ∧ Forall (λ a, P a = false) post.
Proof.
  intros HP. induction 1 as [|a xs Hs IH Ha].
  { by exists [], []. }
  destruct (P a) eqn:E.
  - destruct IH as (pre & post & -> & ? & ?); [set_solver|]. exists (a :: pre), post. auto.
  - exists [], (a :: xs). split; [done|]. split; [done|]. constructor; [done|].
    rewrite Forall_forall in *. intros b Hb. apply not_true_is_false. intros HPb.
    rewrite (HP a b) in E by set_solver. done.
Qed.

(** A range: which elements are not below and which are not above it, as the
    nodes tell it.  In the order of the list one is upward and the other
    downward closed. *)
Record range_ok (gte lte : zskiplistNode → bool) (g l : elem → bool) (xs : list elem) : Prop := {
  range_gte : ∀ a n, a ∈ xs → node_ele n = Some (aele a) → node_score n = ascore a → gte n = g a;
  range_lte : ∀ a n, a ∈ xs → node_ele n = Some (aele a) → node_score n = ascore a → lte n = l a;
  range_up : ∀ a b, a ∈ xs → b ∈ xs → elem_lt a b → g a = true → g b = true;
  range_down : ∀ a b, a ∈ xs → b ∈ xs → elem_lt a b → l b = true → l a = true;
}.

Lemma filter_false {A} (P : A → Prop) `{∀ x, Decision (P x)} (l : list A) :
  Forall (λ x, ¬ P x) l → filter P l = [].
Proof. induction 1; [done|]. by rewrite filter_cons_False. Qed.

Lemma filter_app_last {A} (P : A → Prop) `{∀ x, Decision (P x)} (pre post : list A) :
  Forall (λ x, ¬ P x) post → filter P (pre ++ post) = filter P pre.
Proof. intros Hp. by rewrite filter_app, (filter_false P post), app_nil_r. Qed.

Lemma first_least xs a : StronglySorted elem_lt xs → head xs = Some a →
  ∀ b, b ∈ xs → b = a ∨ elem_lt a b.
Proof.
  intros Hs Ha b Hb. destruct xs as [|c xs]; [done|].
  injection Ha as ->. inversion_clear Hs as [|? ? _ Hall]. rewrite Forall_forall in Hall. set_solver.
Qed.
Lemma last_greatest xs a : StronglySorted elem_lt xs → last xs = Some a →
  ∀ b, b ∈ xs → b = a ∨ elem_lt b a.
Proof.
  intros Hs (ys & Heq)%last_Some b Hb. rewrite Heq in Hs, Hb.
  apply StronglySorted_app in Hs as (Hs & _ & _). set_solver.
Qed.

Section queries.
Context (h : heap) (zsl : zskiplist) (xs : list elem) (Hr : zsl_rep h zsl xs).
Context (gte lte : zskiplistNode → bool) (g l : elem → bool) (Hok : range_ok gte lte g l xs).
(** The quick test for ranges no element can be in. *)
Context (void : bool) (Hvoid : void = true → ∀ a, g a && l a = false).

Definition is_in_range : option bool :=
  if void then Some false
  else
    match tail zsl with
    | None => Some false
    | Some x =>
      node ← h !! x;
      if negb (gte node) then Some false
      else
        lv ← get_level h (header zsl) 0;
        match forward lv with
        | None => Some false
        | Some x => node ← h !! x; Some (lte node)
        end
    end.

Definition first_in_range : option (option nat) :=
  inrange ← is_in_range;
  if negb inrange then Some None
  else
    '(x, _, _) ← search h zsl (λ _ _ node, negb (gte node));
    lv ← get_level h x 0;
    x ← forward lv;
    node ← h !! x;
    Some (if negb (lte node) then None else Some x).

Definition last_in_range : option (option nat) :=
  inrange ← is_in_range;
  if negb inrange then Some None
  else
    '(x, _, _) ← search h zsl (λ _ _ node, lte node);
    node ← h !! x;
    Some (if negb (gte node) then None else Some x).

Abbreviation inside := (filter (λ a, g a && l a) xs).

Lemma inside_nil : (∀ a, a ∈ xs → g a && l a = false) → inside = [].
Proof.
  intros Hn. apply elem_of_nil_inv. intros a [Hin Ha]%list_elem_of_filter.
  rewrite Hn in Hin by done. done.
Qed.

Lemma forward_header : ∃ lv, get_level h (header zsl) 0 = Some lv ∧ forward lv = aid <$> head xs.
Proof.
  destruct (next_of_last h zsl [] xs [] (hdr zsl)) as [Hg Hf]; [done..|]. eauto.
Qed.

(** It says no only when nothing is in the range, and yes only when the ends of
    the list allow for it. *)
Lemma is_in_range_spec :
  (is_in_range = Some false ∧ inside = []) ∨
  (is_in_range = Some true ∧ ∃ a b, head xs = Some a ∧ last xs = Some b ∧ l a = true ∧ g b = true).
Proof.
  unfold is_in_range. destruct (decide (void = true)) as [Hv|Hv%not_true_is_false]; rewrite Hv;
    [left; split; [done|]; apply inside_nil; auto|].
  rewrite (rep_tail _ _ _ Hr). unfold last_id. destruct (last xs) as [b|] eqn:Hb.
  2: { left. split; [done|]. apply last_None in Hb as ->. done. }
  assert (b ∈ xs) as Hbin by by apply last_Some_elem_of.
  destruct (node_of _ _ _ b Hr) as (n & -> & Hne & Hns); [done|]. mnext.
  rewrite (range_gte _ _ _ _ _ Hok b n) by done. destruct (g b) eqn:Hgb; cbn [negb].
  2: { left. split; [done|]. apply inside_nil. intros a Ha. apply andb_false_iff. left.
       apply not_true_is_false. intros Hga. destruct (last_greatest xs b (rep_sorted _ _ _ Hr) Hb a Ha) as [->|Hlt]; [congruence|].
       by rewrite (range_up _ _ _ _ _ Hok a b) in Hgb. }
  destruct forward_header as (lv & -> & Hf). mnext. rewrite Hf.
  destruct (head xs) as [a|] eqn:Ha; [|by apply head_None in Ha; rewrite Ha in Hbin; set_solver].
  assert (a ∈ xs) as Hain by by apply head_Some_elem_of. cbn [fmap option_fmap option_map].
  destruct (node_of _ _ _ a Hr) as (n' & -> & Hne' & Hns'); [done|]. mnext.
  rewrite (range_lte _ _ _ _ _ Hok a n') by done. destruct (l a) eqn:Hla; [right; eauto 10|].
  left. split; [done|]. apply inside_nil. intros c Hc. apply andb_false_iff. right.
  apply not_true_is_false. intros Hlc. destruct (first_least xs a (rep_sorted _ _ _ Hr) Ha c Hc) as [->|Hlt]; [congruence|].
  by rewrite (range_down _ _ _ _ _ Hok a c) in Hla.
Qed.

Lemma first_in_range_spec : first_in_range = Some (aid <$> head inside).
Proof.
  unfold first_in_range.
  destruct is_in_range_spec as [[-> ->]|(-> & a & b & Ha & Hb & Hla & Hgb)]; [done|]. mnext.
  destruct (split_by (λ a, negb (g a)) xs) as (pre & post & Heq & Hpre & Hpost).
  { intros c d Hc Hd Hlt Hn. apply negb_true_iff in Hn. apply negb_true_iff, not_true_is_false.
    intros Hgc. by rewrite (range_up _ _ _ _ _ Hok c d) in Hn. }
  { apply (rep_sorted _ _ _ Hr). }
  assert (Hr' := Hr). rewrite Heq in Hr'.
  destruct (search_spec h zsl pre post (λ _ _ node, negb (gte node)) Hr')
    as (us & rs & p & x & -> & _ & _ & _ & Hx & _).
  { apply (go_split (λ a, negb (g a)) (λ n, negb (gte n))); [done..|].
    intros c n Hc He Hs. by rewrite (range_gte _ _ _ _ _ Hok c n) by (done || by rewrite Heq). }
  mnext. destruct (next_of_last _ _ _ _ _ _ Hr' Hx) as [-> Hf]. mnext. rewrite Hf.
  assert (Hin : inside = filter (λ a, g a && l a) post).
  { rewrite Heq, filter_app, (filter_false _ pre); [done|]. eapply Forall_impl; [exact Hpre|].
    intros c Hc. cbn in Hc. apply negb_true_iff in Hc. rewrite Hc. cbn. auto. }
  destruct post as [|c post].
  { exfalso. apply last_Some_elem_of in Hb. rewrite Heq, app_nil_r in Hb. rewrite Forall_forall in Hpre.
    specialize (Hpre b Hb). cbn in Hpre. by rewrite Hgb in Hpre. }
  cbn [head fmap option_fmap option_map]. mnext.
  destruct (node_of _ _ _ c Hr') as (n & -> & Hne & Hns); [set_solver|]. mnext.
  rewrite (range_lte _ _ _ _ _ Hok c n) by (done || (rewrite Heq; set_solver)).
  inversion_clear Hpost as [|? ? Hgc _]. cbn in Hgc. apply negb_false_iff in Hgc.
  rewrite Hin. destruct (l c) eqn:Hlc; cbn [negb].
  - rewrite filter_cons_True by (by rewrite Hgc, Hlc). done.
  - rewrite filter_false; [done|]. apply Forall_forall. intros d Hd [_ Hld]%Is_true_true_1%andb_true_iff.
    apply elem_of_cons in Hd as [->|Hd]; [congruence|].
    pose proof (rep_sorted _ _ _ Hr') as Hs. apply StronglySorted_app_1_r in Hs.
    inversion_clear Hs as [|? ? _ Hall]. rewrite Forall_forall in Hall.
    rewrite (range_down _ _ _ _ _ Hok c d) in Hlc; (done || auto || rewrite Heq; set_solver).
Qed.

Lemma last_in_range_spec : last_in_range = Some (aid <$> last inside).
Proof.
  unfold last_in_range.
  destruct is_in_range_spec as [[-> ->]|(-> & a & b & Ha & Hb & Hla & Hgb)]; [done|]. mnext.
  destruct (split_by l xs) as (pre & post & Heq & Hpre & Hpost);
    [apply (range_down _ _ _ _ _ Hok)|apply (rep_sorted _ _ _ Hr)|].
  assert (Hr' := Hr). rewrite Heq in Hr'.
  destruct (search_spec h zsl pre post (λ _ _ node, lte node) Hr')
    as (us & rs & p & x & -> & _ & _ & _ & Hx & _).
  { apply (go_split l lte); [done..|].
    intros c n Hc He Hs. by rewrite (range_lte _ _ _ _ _ Hok c n) by (done || by rewrite Heq). }
  mnext.
  assert (Hin : inside = filter (λ a, g a && l a) pre).
  { rewrite Heq, filter_app_last; [done|]. eapply Forall_impl; [exact Hpost|].
    intros c Hc. cbn in Hc. rewrite Hc, andb_false_r. cbn. auto. }
  destruct (header_or_elem _ _ _ _ _ Hx) as [(-> & -> & Hnil)|(p1 & -> & Hp1)].
  { exfalso. subst pre. apply head_Some_elem_of in Ha. rewrite Heq in Ha. cbn in Ha.
    rewrite Forall_forall in Hpost. specialize (Hpost a Ha). cbn in Hpost. congruence. }
  assert (x ∈ pre) as Hxin by (rewrite Hp1; set_solver).
  destruct (node_of _ _ _ x Hr') as (n & -> & Hne & Hns); [set_solver|]. mnext.
  rewrite (range_gte _ _ _ _ _ Hok x n) by (done || (rewrite Heq; set_solver)).
  rewrite Forall_forall in Hpre. specialize (Hpre x Hxin) as Hlx. cbn in Hlx.
  rewrite Hin, Hp1, filter_app. destruct (g x) eqn:Hgx; cbn [negb].
  - assert (filter (λ a, g a && l a) [x] = [x]) as ->
      by by rewrite filter_cons_True by (by rewrite Hgx, Hlx).
    by rewrite last_snoc.
  - rewrite !filter_false; [done|..].
    + constructor; [|done]. rewrite Hgx. cbn. auto.
    + apply Forall_forall. intros d Hd [Hgd _]%Is_true_true_1%andb_true_iff.
      pose proof (rep_sorted _ _ _ Hr') as Hs. apply StronglySorted_app_1_l in Hs. rewrite Hp1 in Hs.
      apply StronglySorted_app in Hs as (Hs & _ & _).
      rewrite (range_up _ _ _ _ _ Hok d x) in Hgx; (done || (apply Hs; set_solver) || rewrite Heq, Hp1; set_solver).
Qed.

End queries.

(** ** Ranges of scores *)

Definition in_score_range (range : zrangespec) (s : double) : bool :=
  zslValueGteMin s range && zslValueLteMax s range.

Lemma elem_lt_score a b : elem_lt a b → dlt (ascore a) (ascore b) = true ∨ ascore a = ascore b.
Proof.
  unfold elem_lt, key_lt. intros [?|[? _]%andb_true_iff]%orb_true_iff; [by left|right].
  by apply deq_true.
Qed.

Lemma score_range_ok range xs :
  range_ok (λ n, zslValueGteMin (node_score n) range) (λ n, zslValueLteMax (node_score n) range)
    (λ a, zslValueGteMin (ascore a) range) (λ a, zslValueLteMax (ascore a) range) xs.
Proof.
  split; try (intros a n _ _ ->; done); intros a b _ _ [Hlt|Heq]%elem_lt_score; rewrite ?Heq; try done;
    unfold zslValueGteMin, zslValueLteMax, dle; destruct range as [mn mx mnex mxex]; cbn;
    destruct (ascore a), (ascore b); try done.
  all: destruct mnex, mn; try done; destruct mxex, mx; try done; cbn in *; lia.
Qed.

Lemma score_range_void range s :
  dlt (rmax range) (rmin range) ||
    (deq (rmin range) (rmax range) && (rminex range || rmaxex range)) = true →
  in_score_range range s = false.
Proof.
  unfold in_score_range, zslValueGteMin, zslValueLteMax, dle.
  destruct range as [mn mx mnex mxex]; cbn. destruct mn, mx, mnex, mxex, s; cbn; try done; lia.
Qed.

(** ZslFirstInRange and zslLastInRange return the first and the last
    element with a score in the range, with exclusive and infinite bounds, and
    NULL exactly when there is none. *)
Theorem zslScoreRange_correct h zsl xs range : zsl_rep h zsl xs →
  let inside := filter (λ a, in_score_range range (ascore a)) xs in
  zslFirstInRange h zsl range = Some (aid <$> head inside) ∧
  zslLastInRange h zsl range = Some (aid <$> last inside).
Proof.
  intros Hr. split;
    [apply (first_in_range_spec h zsl xs Hr) with (1 := score_range_ok range xs)
    |apply (last_in_range_spec h zsl xs Hr) with (1 := score_range_ok range xs)];
    intros Hv a; by apply score_range_void.
Qed.

(** ** Ranges of strings *)

Definition in_lex_range (range : zlexrangespec) (e : list Z) : bool :=
  zslLexValueGteMin e range && zslLexValueLteMax e range.

(** The scores are all the same, which ZRANGEBYLEX asks for. *)
Definition one_score (xs : list elem) : Prop := ∀ a b, a ∈ xs → b ∈ xs → ascore a = ascore b.

Lemma elem_lt_ele a b xs : one_score xs → a ∈ xs → b ∈ xs → elem_lt a b →
  lexcmp (aele a) (aele b) = Lt.
Proof.
  intros Hone Ha Hb. unfold elem_lt, key_lt. rewrite (Hone a b Ha Hb), dlt_irrefl, sdscmp_lexcmp.
  cbn. intros [_ Hl]%andb_true_iff. by destruct (lexcmp _ _).
Qed.

Lemma lexcmp_le_trans a b c : lexcmp a b = Lt → lexcmp b c ≠ Gt → lexcmp a c = Lt.
Proof.
  intros H1 H2. destruct (lexcmp b c) eqn:E; [|by eapply lexcmp_trans|done].
  by apply lexcmp_eq in E as <-.
Qed.

Lemma lexcmp_trans_le a b c : lexcmp b c = Lt → lexcmp a b ≠ Gt → lexcmp a c = Lt.
Proof.
  intros H1 H2. destruct (lexcmp a b) eqn:E; [|by eapply lexcmp_trans|done].
  by apply lexcmp_eq in E as ->.
Qed.

Lemma lex_range_ok range xs : one_score xs →
  range_ok (λ n, zslLexValueGteMin (ele_of n) range) (λ n, zslLexValueLteMax (ele_of n) range)
    (λ a, zslLexValueGteMin (aele a) range) (λ a, zslLexValueLteMax (aele a) range) xs.
Proof.
  intros Hone. split; try (intros a n _ He _; unfold ele_of; by rewrite He);
    intros a b Ha Hb Hlt; pose proof (elem_lt_ele a b xs Hone Ha Hb Hlt) as Hc; clear Hlt;
    unfold zslLexValueGteMin, zslLexValueLteMax; destruct range as [mn mx mnex mxex]; cbn.
  - destruct mn as [| |s]; cbn; [by destruct mnex..|]. rewrite !sdscmp_lexcmp.
    rewrite (lexcmp_sym s (aele a)), (lexcmp_sym s (aele b)).
    destruct (lexcmp s (aele a)) eqn:E; [| |by destruct mnex].
    all: rewrite (lexcmp_trans_le s (aele a) (aele b)) by (done || congruence); by destruct mnex.
  - destruct mx as [| |s]; cbn; [by destruct mxex..|]. rewrite !sdscmp_lexcmp.
    destruct (lexcmp (aele b) s) eqn:E; [| |by destruct mxex].
    all: rewrite (lexcmp_le_trans (aele a) (aele b) s) by (done || congruence); by destruct mxex.
Qed.

Lemma lex_range_void range e :
  let cmp := sdscmplex (lmin range) (lmax range) in
  (cmp >? 0) || ((cmp =? 0) && (lminex range || lmaxex range)) = true →
  in_lex_range range e = false.
Proof.
  unfold in_lex_range, zslLexValueGteMin, zslLexValueLteMax. destruct range as [mn mx mnex mxex].
  cbn. destruct mn as [| |s], mx as [| |t], mnex, mxex; cbn; try done;
    rewrite ?andb_false_r; try done; rewrite !sdscmp_lexcmp, ?(lexcmp_sym s e);
    destruct (lexcmp s e) eqn:E1; cbn; try done;
    destruct (lexcmp e t) eqn:E2; cbn; try done;
    try apply lexcmp_eq in E1 as <-; try apply lexcmp_eq in E2 as <-; rewrite ?lexcmp_refl, ?E1, ?E2;
    try done; by rewrite (lexcmp_trans s e t).
Qed.

(** In a sorted set of one score, zslFirstInLexRange and zslLastInLexRange
    return the first and the last element in the range of strings, and NULL
    exactly when there is none. *)
Theorem zslLexRange_correct h zsl xs range : zsl_rep h zsl xs → one_score xs →
  let inside := filter (λ a, in_lex_range range (aele a)) xs in
  zslFirstInLexRange h zsl range = Some (aid <$> head inside) ∧
  zslLastInLexRange h zsl range = Some (aid <$> last inside).
Proof.
  intros Hr Hone. split;
    [apply (first_in_range_spec h zsl xs Hr) with (1 := lex_range_ok range xs Hone)
    |apply (last_in_range_spec h zsl xs Hr) with (1 := lex_range_ok range xs Hone)];
    intros Hv a; by apply lex_range_void.
Qed.

(** ** Removing ranges *)

Section removal.
Context {D : Type} (dictDelete : D → list Z → option D).

(** The elements are removed from the hash table one after the other. *)
Fixpoint dict_delete_all (dict : D) (es : list (list Z)) : option D :=
  match es with
  | [] => Some dict
  | e :: es => dict ← dictDelete dict e; dict_delete_all dict es
  end.

Lemma update_ok_level zl zl' hd pre us rs : update_ok zl hd pre us rs → (zl' <= zl)%nat →
  update_ok zl' hd pre us rs.
Proof. intros Hup Hle i Hi. apply Hup. lia. Qed.

Lemma delete_loop_spec fuel stay h zsl dict dict' pre del post us rs t k :
  zsl_rep h zsl (pre ++ del ++ post) → update_ok (zlevel zsl) (hdr zsl) pre us rs →
  (length del < fuel)%nat → dict_delete_all dict (aele <$> del) = Some dict' →
  (∀ p b q n, del ++ post = p ++ b :: q → node_ele n = Some (aele b) → node_score n = ascore b →
    stay (t + len p) n = (len p <? len del)) →
  ∃ h' zsl', delete_loop dictDelete fuel stay h zsl dict (aid <$> head (del ++ post)) us t k =
      Some (h', zsl', dict', k + len del) ∧ zsl_rep h' zsl' (pre ++ post).
Proof.
  revert h zsl dict del t k. induction fuel as [|fuel IH]; intros h zsl dict del t k Hr Hup Hf Hd Hstay; [lia|].
  destruct del as [|d del].
  - injection Hd as <-. exists h, zsl. split; [|done]. rewrite Z.add_0_r. destruct post as [|b post]; [done|].
    cbn [app head fmap option_fmap option_map delete_loop].
    destruct (node_of _ _ _ b Hr) as (n & -> & He & Hs); [set_solver|]. mnext.
    specialize (Hstay [] b post n eq_refl He Hs). change (len []) with 0 in Hstay.
    rewrite Z.add_0_r in Hstay. by rewrite Hstay.
  - cbn [app head fmap option_fmap option_map delete_loop].
    destruct (node_of _ _ _ d Hr) as (n & Hn & He & Hs); [set_solver|]. rewrite Hn. mnext.
    pose proof (Hstay [] d (del ++ post) n eq_refl He Hs) as Hd0.
    change (len []) with 0 in Hd0. rewrite Z.add_0_r in Hd0. rewrite Hd0.
    replace (0 <? len (d :: del)) with true by (symmetry; apply Z.ltb_lt; len_lia).
    destruct (next_of_last h zsl (pre ++ [d]) (del ++ post) (hdr zsl :: pre) d) as [Hlv Hfw];
      [by rewrite <- app_assoc|done|].
    unfold get_level in Hlv. rewrite Hn in Hlv. cbn [mbind option_bind] in Hlv. rewrite Hlv. mnext.
    destruct (delete_node_spec h zsl pre d (del ++ post) us rs Hr Hup)
      as (h1 & zsl1 & -> & Hr1 & Hhd & Hzl & _ & n1 & Hn1 & _). mnext.
    unfold ele_of. rewrite He. cbn [default id]. cbn [fmap list_fmap dict_delete_all] in Hd.
    destruct (dictDelete dict (aele d)) as [dict1|]; [|done]. mnext. unfold zslFreeNode. rewrite Hn1. mnext.
    rewrite Hfw. destruct (IH (delete (aid d) h1) zsl1 dict1 del (t + 1) (k + 1)) as (h2 & zsl2 & Hrun & Hr2).
    + apply free_rep; [done|]. rewrite Hhd. by eapply delete_ids.
    + unfold hdr. rewrite Hhd. by eapply update_ok_level.
    + cbn in Hf. lia.
    + done.
    + intros p b q n2 Heq He2 Hs2. specialize (Hstay (d :: p) b q n2 ltac:(cbn; by rewrite Heq) He2 Hs2).
      replace (t + 1 + len p) with (t + len (d :: p)) by len_lia. rewrite Hstay.
      apply eq_bool_prop_intro. rewrite !Is_true_true, !Z.ltb_lt. len_lia.
    + exists h2, zsl2. split; [|done]. etransitivity; [exact Hrun|]. do 2 f_equal. len_lia.
Qed.

(** Removal by score and by string. *)
Lemma zsl_delete_range_spec h zsl xs gte lte g l dict dict' : zsl_rep h zsl xs →
  range_ok gte lte g l xs →
  dict_delete_all dict (aele <$> filter (λ a, g a && l a) xs) = Some dict' →
  ∃ h' zsl', ('(x, update, _) ← search h zsl (λ _ _ node, negb (gte node));
    lv ← get_level h x 0;
    delete_loop dictDelete (size h) (λ _ node, lte node) h zsl dict (forward lv) update 0 0) =
      Some (h', zsl', dict', len (filter (λ a, g a && l a) xs)) ∧
    zsl_rep h' zsl' (filter (λ a, ¬ (g a && l a)) xs).
Proof.
  intros Hr Hok Hd. pose proof (rep_sorted _ _ _ Hr) as Hsort.
  destruct (split_by (λ a, negb (g a)) xs) as (pre & rest & -> & Hpre & Hrest); [|done|].
  { intros c d Hc Hdd Hlt Hn. apply negb_true_iff in Hn. apply negb_true_iff, not_true_is_false.
    intros Hgc. by rewrite (range_up _ _ _ _ _ Hok c d) in Hn. }
  destruct (split_by l rest) as (del & post & -> & Hdel & Hpost).
  { intros c d Hc Hdd Hlt. apply (range_down _ _ _ _ _ Hok c d); [set_solver..|done]. }
  { by apply StronglySorted_app_1_r in Hsort. }
  apply Forall_app in Hrest as [Hg1 Hg2].
  assert (Hpre' : Forall (λ a, ¬ Is_true (g a && l a)) pre).
  { eapply Forall_impl; [exact Hpre|]. intros c ->%negb_true_iff. cbn. auto. }
  assert (Hpost' : Forall (λ a, ¬ Is_true (g a && l a)) post).
  { eapply Forall_impl; [exact Hpost|]. intros c Hc. cbn in Hc. rewrite Hc, andb_false_r. cbn. auto. }
  assert (Hdel' : Forall (λ a, Is_true (g a && l a)) del).
  { rewrite Forall_forall in *. intros c Hc. specialize (Hg1 c Hc). specialize (Hdel c Hc).
    cbn in Hg1, Hdel. apply negb_false_iff in Hg1. by rewrite Hg1, Hdel. }
  assert (filter (λ a, g a && l a) (pre ++ del ++ post) = del) as Hin.
  { by rewrite !filter_app, (filter_false _ pre), (filter_false _ post), app_nil_r, filter_all. }
  assert (filter (λ a, ¬ (g a && l a)) (pre ++ del ++ post) = pre ++ post) as Hout.
  { rewrite !filter_app, (filter_all _ pre), (filter_all _ post), (filter_false _ del); [done|..|done|done].
    eapply Forall_impl; [exact Hdel'|]. auto. }
  rewrite Hin in *. rewrite Hout.
  destruct (search_spec h zsl pre (del ++ post) (λ _ _ node, negb (gte node)) Hr)
    as (us & rs & p & x & -> & Hup & _ & _ & Hx & _).
  { apply (go_split (λ a, negb (g a)) (λ n, negb (gte n))); [done|..].
    - apply Forall_app. done.
    - intros c n Hc He Hs. by rewrite (range_gte _ _ _ _ _ Hok c n). }
  mnext. destruct (next_of_last _ _ _ _ _ _ Hr Hx) as [-> Hfw]. mnext. rewrite Hfw.
  pose proof (heap_size _ _ _ Hr) as Hsize. rewrite !length_app in Hsize.
  apply delete_loop_spec with (rs := rs); [done|done|lia|done|].
  intros p1 b q n Heq He Hs. rewrite (range_lte _ _ _ _ _ Hok b n) by (done || (rewrite Heq; set_solver)).
  rewrite Forall_forall in Hdel, Hpost. destruct (split_position _ _ _ _ _ Heq) as [[? Hb]|[? Hb]].
  - rewrite Hdel by done. symmetry. by apply Z.ltb_lt.
  - rewrite Hpost by done. symmetry. by apply Z.ltb_ge.
Qed.

(** ZslDeleteRangeByScore removes exactly the elements with a score in the
    range, from the list and from the hash table, and returns their number. *)
Theorem zslDeleteRangeByScore_correct h zsl xs range dict dict' : zsl_rep h zsl xs →
  let inside := filter (λ a, in_score_range range (ascore a)) xs in
  dict_delete_all dict (aele <$> inside) = Some dict' →
  ∃ h' zsl', zslDeleteRangeByScore dictDelete h zsl range dict =
      Some (h', zsl', dict', len inside) ∧
    zsl_rep h' zsl' (filter (λ a, ¬ in_score_range range (ascore a)) xs).
Proof. intros Hr inside Hd. exact (zsl_delete_range_spec h zsl xs _ _ _ _ dict dict' Hr (score_range_ok range xs) Hd). Qed.

(** In a sorted set of one score zslDeleteRangeByLex removes exactly the
    elements in the range of strings, from the list and from the hash table. *)
Theorem zslDeleteRangeByLex_correct h zsl xs range dict dict' : zsl_rep h zsl xs → one_score xs →
  let inside := filter (λ a, in_lex_range range (aele a)) xs in
  dict_delete_all dict (aele <$> inside) = Some dict' →
  ∃ h' zsl', zslDeleteRangeByLex dictDelete h zsl range dict =
      Some (h', zsl', dict', len inside) ∧
    zsl_rep h' zsl' (filter (λ a, ¬ in_lex_range range (aele a)) xs).
Proof. intros Hr Hone inside Hd. exact (zsl_delete_range_spec h zsl xs _ _ _ _ dict dict' Hr (lex_range_ok range xs Hone) Hd). Qed.

(** ZslDeleteRangeByRank removes exactly the elements whose 1-based rank is
    between start and end, from the list and from the hash table. *)
Theorem zslDeleteRangeByRank_correct h zsl xs start end_ dict dict' : zsl_rep h zsl xs →
  1 <= start → start <= end_ + 1 →
  let pre := take (Z.to_nat (start - 1)) xs in
  let del := take (Z.to_nat (end_ - start + 1)) (drop (Z.to_nat (start - 1)) xs) in
  dict_delete_all dict (aele <$> del) = Some dict' →
  ∃ h' zsl', zslDeleteRangeByRank dictDelete h zsl start end_ dict =
      Some (h', zsl', dict', len del) ∧
    zsl_rep h' zsl' (pre ++ drop (Z.to_nat end_) xs).
Proof.
  intros Hr Hstart Hend pre del Hd.
  assert (xs = pre ++ del ++ drop (Z.to_nat end_) xs) as Hxs.
  { unfold pre, del. rewrite <- (take_drop (Z.to_nat (start - 1)) xs) at 1. f_equal.
    rewrite <- (take_drop (Z.to_nat (end_ - start + 1)) (drop _ xs)) at 1. f_equal.
    rewrite drop_drop. f_equal. lia. }
  set (post := drop (Z.to_nat end_) xs) in *. rewrite Hxs in Hr. unfold zslDeleteRangeByRank.
  assert (Hlen : len pre = start - 1 ∨ del ++ post = [] ∧ len pre < start - 1).
  { assert (del ++ post = drop (Z.to_nat (start - 1)) xs) as ->.
    { apply (app_inv_head pre). rewrite <- Hxs. unfold pre. by rewrite take_drop. }
    destruct (decide (start - 1 <= len xs)); [left|right]; subst pre.
    - rewrite length_take. lia.
    - split; [apply drop_ge; lia|]. rewrite length_take. lia. }
  destruct (search_spec h zsl pre (del ++ post) (λ t lv _, t + span lv <? start) Hr)
    as (us & rs & p & x & -> & Hup & _ & _ & Hx & _ & Hrank).
  { intros p b q n t lv Heq _ _ ->. apply (f_equal length) in Heq. rewrite !length_app in Heq. cbn in Heq.
    destruct Hlen as [?|[Hnil ?]]; [lia|]. apply app_eq_nil in Hnil as [-> ->]. cbn in Heq. lia. }
  mnext. rewrite Hrank. mnext. destruct (next_of_last _ _ _ _ _ _ Hr Hx) as [-> Hfw]. mnext. rewrite Hfw.
  pose proof (heap_size _ _ _ Hr) as Hsize. rewrite !length_app in Hsize.
  apply delete_loop_spec with (rs := rs); [done|done|lia|done|].
  intros p1 b q n Heq _ _. destruct Hlen as [Hlen|[Hnil _]]; [|rewrite Hnil in Heq; by destruct p1].
  assert (start - 1 <= len xs) by (unfold pre in Hlen; rewrite length_take in Hlen; lia).
  rewrite Hlen. assert (len del = end_ - start + 1 ∨ post = [] ∧ len del < end_ - start + 1) as Hdl.
  { unfold del, post. rewrite length_take, length_drop. destruct (decide (end_ <= len xs)); [left; lia|right].
    split; [apply drop_ge|]; lia. }
  apply (f_equal length) in Heq. rewrite !length_app in Heq. cbn in Heq.
  destruct Hdl as [?|[-> ?]]; cbn in Heq; apply eq_bool_prop_intro; rewrite !Is_true_true, Z.leb_le, Z.ltb_lt; lia.
Qed.

End removal.

(** ** Examples *)

Lemma zslScoreRange_correct_witness :
  let range := mk_range (Fin 10) PosInf true false in
  zslFirstInRange ex_heap ex_zsl range = Some (Some 3%nat) ∧
  zslLastInRange ex_heap ex_zsl range = Some (Some 3%nat).
Proof.
  apply (zslScoreRange_correct ex_heap ex_zsl ex_elems (mk_range (Fin 10) PosInf true false)).
  exact ex_rep.
Defined.

Definition ex_lex : option (heap * zskiplist * nat) :=
  let '(h, zsl) := zslCreate ∅ in
  '(h, zsl, _) ← zslInsert h zsl (Fin 0) [98] 1;
  zslInsert h zsl (Fin 0) [97] 2.
Definition lex_heap : heap := from_option (λ r, r.1.1) ∅ ex_lex.
Definition lex_zsl : zskiplist := from_option (λ r, r.1.2) (mk_zsl 0 None 0 0) ex_lex.
Definition lex_elems : list elem := [mk_elem 2 2 (Fin 0) [97]; mk_elem 1 1 (Fin 0) [98]].

Lemma lex_rep : zsl_rep lex_heap lex_zsl lex_elems.
Proof.
  split.
  - by_decision.
  - apply links_checked. do 3 (split; [by_decision|]). done.
  - intros i Hi. assert (i ∈ seq 2 30) as Hin.
    { apply elem_of_seq. vm_compute in Hi. lia. }
    assert (Forall (λ i, get_level lex_heap (header lex_zsl) i = Some (mk_level None 0)) (seq 2 30)) as Hall
      by by_decision.
    rewrite Forall_forall in Hall. eexists. by apply Hall.
  - exists (Fin 0), None. by vm_compute.
  - by vm_compute.
  - by vm_compute.
  - by vm_compute.
  - vm_compute. lia.
  - by_decision.
  - right. exists (mk_elem 2 2 (Fin 0) [97]). split; [left|by vm_compute].
  - by_decision.
  - repeat constructor.
Qed.

Lemma lex_one_score : one_score lex_elems.
Proof. intros a b Ha Hb. unfold lex_elems in *. set_solver. Qed.

Lemma zslLexRange_correct_witness :
  let range := mk_lexrange (LexStr [97]) LexMax true true in
  zslFirstInLexRange lex_heap lex_zsl range = Some (Some 1%nat) ∧
  zslLastInLexRange lex_heap lex_zsl range = Some (Some 1%nat).
Proof.
  apply (zslLexRange_correct lex_heap lex_zsl lex_elems (mk_lexrange (LexStr [97]) LexMax true true));
    [exact lex_rep|exact lex_one_score].
Defined.

(** A hash table as the list of its keys. *)
Definition ex_delete (dict : list (list Z)) (e : list Z) : option (list (list Z)) :=
  if bool_decide (e ∈ dict) then Some (filter (λ x, x ≠ e) dict) else None.

Lemma zslDeleteRangeByScore_correct_witness : ∃ h' zsl',
  zslDeleteRangeByScore ex_delete lex_heap lex_zsl (mk_range (Fin 0) (Fin 5) false true) [[97]; [98]; [99]] =
    Some (h', zsl', [[99]], 2) ∧ zsl_rep h' zsl' [].
Proof.
  apply (zslDeleteRangeByScore_correct ex_delete lex_heap lex_zsl lex_elems
    (mk_range (Fin 0) (Fin 5) false true) [[97]; [98]; [99]] [[99]]); [exact lex_rep|reflexivity].
Defined.

Lemma zslDeleteRangeByLex_correct_witness : ∃ h' zsl',
  zslDeleteRangeByLex ex_delete lex_heap lex_zsl (mk_lexrange LexMin (LexStr [98]) true true) [[97]; [98]] =
    Some (h', zsl', [[98]], 1) ∧ zsl_rep h' zsl' [mk_elem 1 1 (Fin 0) [98]].
Proof.
  apply (zslDeleteRangeByLex_correct ex_delete lex_heap lex_zsl lex_elems
    (mk_lexrange LexMin (LexStr [98]) true true) [[97]; [98]] [[98]]);
    [exact lex_rep|exact lex_one_score|reflexivity].
Defined.

Lemma zslDeleteRangeByRank_correct_witness : ∃ h' zsl',
  zslDeleteRangeByRank ex_delete lex_heap lex_zsl 2 9 [[97]; [98]] =
    Some (h', zsl', [[97]], 1) ∧ zsl_rep h' zsl' [mk_elem 2 2 (Fin 0) [97]].
Proof.
  apply (zslDeleteRangeByRank_correct ex_delete lex_heap lex_zsl lex_elems 2 9 [[97]; [98]] [[97]]);
    [exact lex_rep|lia|lia|reflexivity].
Defined.
