(* ===== verification/Lzf.v ===== *)
(** LZF compression: src/redis-7.0.0/src/lzf_c.c (lzf_compress), lzf_d.c
    (lzf_decompress) and the settings of lzfP.h (HLOG 16, VERY_FAST,
    INIT_HTAB 0, CHECK_INPUT, pointers in the hash table).

    [ip] and [op] are offsets into the input and the output buffer; an access
    outside a buffer is [None].  The compressor's hash table holds pointers, that
    is addresses: the input is at the address [in_data], and what the table, a
    local variable that is not initialised, holds at the start is a parameter. *)
From S2P Require Import Prelude.

(** ** Decompression *)

(** [*op++ = *ip++], [n] times. *)
Fixpoint copy_literals (n : nat) (input out : list Z) (ip op : Z) : option (list Z) :=
  match n with
  | O => Some out
  | S n =>
    b ← load8 input ip;
    out ← store8 out op b;
    copy_literals n input out (ip + 1) (op + 1)
  end.

(** [*op++ = *ref++], [n] times, within the output. *)
Fixpoint copy_octets (n : nat) (out : list Z) (ref op : Z) : option (list Z) :=
  match n with
  | O => Some out
  | S n =>
    b ← load8 out ref;
    out ← store8 out op b;
    copy_octets n out (ref + 1) (op + 1)
  end.

(** The switch over [len]: the cases up to 9 copy octet by octet, the default
    uses memcpy when the areas are disjoint. *)
Definition copy_reference (out : list Z) (ref op l : Z) : option (list Z) :=
  if l <=? 9 then copy_octets (Z.to_nat (l + 2)) out ref op
  else if op >=? ref + (l + 2) then
    bs ← load out ref (l + 2); store out op bs
  else copy_octets (Z.to_nat (l + 2)) out ref op.

(** The loop over the input.  The outcome is the buffer and the length returned,
    0 for an error. *)
Fixpoint decompress_loop (fuel : nat) (input out : list Z) (ip op : Z) : option (list Z * Z) :=
  let in_end := len input in
  let out_end := len out in
  if ip <? in_end then
    match fuel with
    | O => None
    | S fuel =>
      ctrl ← load8 input ip;
      let ip := ip + 1 in
      if ctrl <? Z.shiftl 1 5 then
        let ctrl := ctrl + 1 in
        if op + ctrl >? out_end then Some (out, 0)
        else if ip + ctrl >? in_end then Some (out, 0)
        else
          out ← copy_literals (Z.to_nat ctrl) input out ip op;
          decompress_loop fuel input out (ip + ctrl) (op + ctrl)
      else
        let l := Z.shiftr ctrl 5 in
        let ref := op - Z.shiftl (Z.land ctrl 0x1f) 8 - 1 in
        if ip >=? in_end then Some (out, 0)
        else
          r ← (if l =? 7 then
                 b ← load8 input ip;
                 Some (if ip + 1 >=? in_end then None else Some (l + b, ip + 1))
               else Some (Some (l, ip)));
          match r with
          | None => Some (out, 0)
          | Some (l, ip) =>
            b ← load8 input ip;
            let ref := ref - b in
            let ip := ip + 1 in
            if op + l + 2 >? out_end then Some (out, 0)
            else if ref <? 0 then Some (out, 0)
            else
              out ← copy_reference out ref op l;
              decompress_loop fuel input out ip (op + (l + 2))
          end
    end
  else Some (out, op).

Definition lzf_decompress (input out : list Z) : option (list Z * Z) :=
  decompress_loop (length input) input out 0 0.

(** ** Compression *)

Definition HLOG : Z := 16.
Definition HSIZE : Z := Z.shiftl 1 HLOG.
Definition MAX_LIT : Z := Z.shiftl 1 5.
Definition MAX_OFF : Z := Z.shiftl 1 13.
Definition MAX_REF : Z := Z.shiftl 1 8 + Z.shiftl 1 3.

Definition FRST (input : list Z) (p : Z) : option Z :=
  b0 ← load8 input p;
  b1 ← load8 input (p + 1);
  Some (Z.lor (Z.shiftl b0 8) b1).
Definition NEXT (v : Z) (input : list Z) (p : Z) : option Z :=
  b2 ← load8 input (p + 2);
  Some (Z.lor (u32 (Z.shiftl v 8)) b2).
Definition IDX (h : Z) : Z :=
  Z.land (u32 (Z.shiftr h (3 * 8 - HLOG) - u32 (h * 5))) (HSIZE - 1).

(** The table of LZF_HSLOT pointers. *)
Abbreviation htable := (Z → Z).
Definition set_slot (htab : htable) (i v : Z) : htable := λ j, if j =? i then v else htab j.

Record cstate := mk_state {
  c_ip : Z; c_op : Z; c_lit : Z; c_hval : Z; c_htab : htable; c_out : list Z
}.

(** Two octets as the comparison of 16-bit values reads them. *)
Definition pair_at (input : list Z) (p : Z) : option Z :=
  b0 ← load8 input p;
  b1 ← load8 input (p + 1);
  Some (Z.lor (Z.shiftl b1 8) b0).

(** The condition of a match at the address [ref]; [Some off] when it holds. *)
Definition match_at (in_data : Z) (input : list Z) (ip ref : Z) : option (option Z) :=
  let off := u64 (in_data + ip - ref - 1) in
  if negb (off <? MAX_OFF) then Some None
  else if negb (ref >? in_data) then Some None
  else
    let r := ref - in_data in
    a ← load8 input (r + 2);
    b ← load8 input (ip + 2);
    if negb (a =? b) then Some None
    else
      a ← pair_at input r;
      b ← pair_at input ip;
      Some (if a =? b then Some off else None).

(** [len++; if (ref [len] != ip [len]) break;], [n] times: the length, and whether
    all of them were equal. *)
Fixpoint unrolled (n : nat) (input : list Z) (r ip l : Z) : option (Z * bool) :=
  match n with
  | O => Some (l, true)
  | S n =>
    let l := l + 1 in
    a ← load8 input (r + l);
    b ← load8 input (ip + l);
    if negb (a =? b) then Some (l, false) else unrolled n input r ip l
  end.

(** [do len++; while (len < maxlen && ref[len] == ip[len])]. *)
Fixpoint match_loop (fuel : nat) (input : list Z) (r ip maxlen l : Z) : option Z :=
  match fuel with
  | O => None
  | S fuel =>
    let l := l + 1 in
    if l <? maxlen then
      a ← load8 input (r + l);
      b ← load8 input (ip + l);
      if a =? b then match_loop fuel input r ip maxlen l else Some l
    else Some l
  end.

Definition match_length (input : list Z) (r ip : Z) : option Z :=
  let l := 2 in
  let maxlen := len input - ip - l in
  let maxlen := if maxlen >? MAX_REF then MAX_REF else maxlen in
  '(l, equal) ← (if maxlen >? 16 then unrolled 16 input r ip l else Some (l, true));
  if equal : bool then match_loop (Z.to_nat maxlen + 1) input r ip maxlen l else Some l.

(** Ends the run of literals: writes its length before it. *)
Definition stop_run (out : list Z) (op lit : Z) : option (list Z) :=
  store8 out (op - lit - 1) (lit - 1).

(** A literal byte; the caller has checked the room, or there is enough. *)
Definition literal (input : list Z) (st : cstate) : option cstate :=
  b ← load8 input (c_ip st);
  out ← store8 (c_out st) (c_op st) b;
  let lit := c_lit st + 1 in
  let op := c_op st + 1 in
  let ip := c_ip st + 1 in
  if lit =? MAX_LIT then
    out ← stop_run out op lit;
    Some (mk_state ip (op + 1) 0 (c_hval st) (c_htab st) out)
  else Some (mk_state ip op lit (c_hval st) (c_htab st) out).

(** What follows a match at offset [off] behind [ip]: [None] is [return 0]; the
    flag tells that the loop is left. *)
Definition emit_match (in_data : Z) (input : list Z) (st : cstate) (off : Z) :
    option (option (cstate * bool)) :=
  let '(mk_state ip op lit hval htab out) := st in
  let in_end := len input in
  let out_end := len out in
  let notlit := if lit =? 0 then 1 else 0 in
  if (op + 3 + 1 >=? out_end) && (op - notlit + 3 + 1 >=? out_end) then Some None
  else
    out ← stop_run out op lit;
    let op := op - notlit in
    l ← match_length input (ip - off - 1) ip;
    let l := l - 2 in
    let ip := ip + 1 in
    '(out, op) ←
      (if l <? 7 then
         out ← store8 out op (Z.shiftr off 8 + Z.shiftl l 5);
         Some (out, op + 1)
       else
         out ← store8 out op (Z.shiftr off 8 + Z.shiftl 7 5);
         out ← store8 out (op + 1) (l - 7);
         Some (out, op + 2));
    out ← store8 out op off;
    let op := op + 1 in
    let op := op + 1 in
    let ip := ip + (l + 1) in
    if ip >=? in_end - 2 then Some (Some (mk_state ip op 0 hval htab out, true))
    else
      let ip := ip - 2 in
      hval ← FRST input ip;
      hval ← NEXT hval input ip;
      let htab := set_slot htab (IDX hval) (in_data + ip) in
      let ip := ip + 1 in
      hval ← NEXT hval input ip;
      let htab := set_slot htab (IDX hval) (in_data + ip) in
      let ip := ip + 1 in
      Some (Some (mk_state ip op 0 hval htab out, false)).

(** One turn of the main loop. *)
Definition compress_step (in_data : Z) (input : list Z) (st : cstate) :
    option (option (cstate * bool)) :=
  let '(mk_state ip op lit hval htab out) := st in
  hval ← NEXT hval input ip;
  let ref := htab (IDX hval) in
  let htab := set_slot htab (IDX hval) (in_data + ip) in
  let st := mk_state ip op lit hval htab out in
  m ← match_at in_data input ip ref;
  match m with
  | Some off => emit_match in_data input st off
  | None =>
    if op >=? len out then Some None
    else st ← literal input st; Some (Some (st, false))
  end.

(** [while (ip < in_end - 2)]. *)
Fixpoint compress_loop (fuel : nat) (in_data : Z) (input : list Z) (st : cstate) :
    option (option cstate) :=
  if c_ip st <? len input - 2 then
    match fuel with
    | O => None
    | S fuel =>
      r ← compress_step in_data input st;
      match r with
      | None => Some None
      | Some (st, true) => Some (Some st)
      | Some (st, false) => compress_loop fuel in_data input st
      end
    end
  else Some (Some st).

(** [while (ip < in_end)]. *)
Fixpoint tail_loop (fuel : nat) (input : list Z) (st : cstate) : option cstate :=
  if c_ip st <? len input then
    match fuel with
    | O => None
    | S fuel => st ← literal input st; tail_loop fuel input st
    end
  else Some st.

(** The output buffer and the length returned; [Some None] is [return 0], which
    leaves the output buffer unspecified.  [next] are the octets after the input:
    [FRST] reads one of them when the input has one octet. *)
Definition lzf_compress (in_data : Z) (htab : htable) (input next out : list Z) :
    option (option (list Z * Z)) :=
  if (len input =? 0) || (len out =? 0) then Some None
  else
    hval ← FRST (input ++ next) 0;
    r ← compress_loop (length input) in_data input (mk_state 0 1 0 hval htab out);
    match r with
    | None => Some None
    | Some st =>
      if c_op st + 3 >? len (c_out st) then Some None
      else
        st ← tail_loop 3 input st;
        out ← stop_run (c_out st) (c_op st) (c_lit st);
        Some (Some (out, c_op st - (if c_lit st =? 0 then 1 else 0)))
    end.
