(* ===== verification/LzfTheorems.v ===== *)
(** LZF (lzf_c.c, lzf_d.c): the compressed format as a list of tokens, the
    decompressor as their expansion, and the compressor as a producer of tokens
    that expand to its input, whatever the hash table holds. *)
From S2P Require Import Prelude Bits Endian Lzf.

(** ** The format *)

Inductive token := Lit (bs : list Z) | Ref (off n : Z).

Definition enc (t : token) : list Z :=
  match t with
  | Lit bs => (len bs - 1) :: bs
  | Ref off n =>
    if n - 2 <? 7 then [off / 256 + 32 * (n - 2); off mod 256]
    else [off / 256 + 224; n - 9; off mod 256]
  end.
Definition encs (ts : list token) : list Z := ts ≫= enc.

(** Appends [n] octets, each the one [off + 1] octets before its place. *)
Fixpoint ref_copy (n : nat) (acc : list Z) (off : Z) : list Z :=
  match n with
  | O => acc
  | S n => ref_copy n (acc ++ [default 0 (acc !! Z.to_nat (len acc - off - 1))]) off
  end.

Definition expand1 (acc : list Z) (t : token) : list Z :=
  match t with
  | Lit bs => acc ++ bs
  | Ref off n => ref_copy (Z.to_nat n) acc off
  end.
Definition expand : list Z → list token → list Z := foldl expand1.

Definition token_ok (acc : list Z) (t : token) : Prop :=
  match t with
  | Lit bs => bytes_ok bs ∧ 1 <= len bs <= 32
  | Ref off n => 0 <= off < 8192 ∧ off < len acc ∧ 3 <= n <= 264
  end.
Fixpoint tokens_ok (acc : list Z) (ts : list token) : Prop :=
  match ts with
  | [] => True
  | t :: ts => token_ok acc t ∧ tokens_ok (expand1 acc t) ts
  end.

Lemma tokens_ok_snoc acc ts t :
  tokens_ok acc (ts ++ [t]) ↔ tokens_ok acc ts ∧ token_ok (expand acc ts) t.
Proof. revert acc. induction ts as [|t' ts IH]; intros acc; cbn; [tauto|]. rewrite IH. tauto. Qed.

Lemma expand_snoc acc ts t : expand acc (ts ++ [t]) = expand1 (expand acc ts) t.
Proof. apply foldl_snoc. Qed.

Lemma encs_snoc ts t : encs (ts ++ [t]) = encs ts ++ enc t.
Proof. unfold encs. rewrite bind_app. cbn. by rewrite app_nil_r. Qed.

(** ** Copying *)

Lemma ref_copy_S n acc off : ref_copy (S n) acc off =
  ref_copy n acc off ++ [default 0 (ref_copy n acc off !! Z.to_nat (len (ref_copy n acc off) - off - 1))].
Proof. revert acc. induction n as [|n IH]; intros acc; [done|]. cbn [ref_copy] in *. by rewrite <- IH. Qed.

Lemma length_ref_copy n acc off : length (ref_copy n acc off) = (length acc + n)%nat.
Proof. revert acc. induction n as [|n IH]; intros acc; cbn [ref_copy]; [lia|]. rewrite IH. len_lia. Qed.

Lemma ref_copy_ok n acc off : bytes_ok acc → bytes_ok (ref_copy n acc off).
Proof.
  revert acc. induction n as [|n IH]; intros acc Hacc; [done|]. cbn [ref_copy]. apply IH, Forall_app. split; [done|].
  constructor; [|done]. destruct (acc !! _) as [x|] eqn:Hx; [by eapply Forall_lookup_1|done].
Qed.

(** A reference that does not overlap what it produces. *)
Lemma ref_copy_disjoint n acc off : 0 <= off < len acc → (Z.of_nat n <= off + 1) →
  ref_copy n acc off = acc ++ take n (drop (Z.to_nat (len acc - off - 1)) acc).
Proof.
  intros Ho. induction n as [|n IH]; intros Hn; [by rewrite take_0, app_nil_r|].
  rewrite ref_copy_S, IH by lia. set (k := Z.to_nat (len acc - off - 1)).
  destruct (lookup_lt_is_Some_2 (drop k acc) n) as [x Hx]; [rewrite length_drop; lia|].
  rewrite (take_S_r _ _ x Hx), <- app_assoc. do 3 f_equal.
  rewrite length_app, length_take, length_drop, lookup_app_l by len_lia. rewrite lookup_drop in Hx.
  replace (Z.to_nat (Z.of_nat (length acc + n `min` (length acc - k)) - off - 1)) with (k + n)%nat by lia.
  by rewrite Hx.
Qed.

(** A reference to octets equal to the following ones reproduces these. *)
Lemma ref_copy_take s ip off n : 0 <= off < Z.of_nat ip → (ip + n <= length s)%nat →
  (∀ k, (k < n)%nat → s !! (Z.to_nat (Z.of_nat ip - off - 1) + k)%nat = s !! (ip + k)%nat) →
  ref_copy n (take ip s) off = take (ip + n) s.
Proof.
  intros Ho. induction n as [|n IH]; intros Hn Heq; [by rewrite Nat.add_0_r|].
  rewrite ref_copy_S, IH by (try lia; intros; apply Heq; lia).
  destruct (lookup_lt_is_Some_2 s (ip + n)) as [x Hx]; [lia|].
  rewrite Nat.add_succ_r, (take_S_r s _ x Hx), length_take. do 2 f_equal.
  rewrite lookup_take_lt by lia.
  replace (Z.to_nat (Z.of_nat ((ip + n) `min` length s) - off - 1)) with
    (Z.to_nat (Z.of_nat ip - off - 1) + n)%nat by lia.
  by rewrite Heq, Hx by lia.
Qed.

Lemma copy_literals_spec bs pre post acc junk : bytes_ok bs → (length bs <= length junk)%nat →
  copy_literals (length bs) (pre ++ bs ++ post) (acc ++ junk) (len pre) (len acc) =
  Some ((acc ++ bs) ++ drop (length bs) junk).
Proof.
  revert pre acc junk. induction bs as [|b bs IH]; intros pre acc junk Hb Hl.
  { cbn. by rewrite app_nil_r. }
  apply Forall_cons in Hb as [Hb Hbs]. destruct junk as [|j junk]; [cbn in Hl; lia|].
  cbn [copy_literals length app]. rewrite load8_app by done. mnext. rewrite store8_app by done. mnext.
  rewrite is_byte_wrap by done. cbn [drop]. cbn [length] in Hl.
  specialize (IH (pre ++ [b]) (acc ++ [b]) junk Hbs ltac:(lia)). rewrite <- !app_assoc in IH.
  cbn [app] in IH. rewrite !length_app in IH. cbn [length] in IH.
  replace (len pre + 1) with (Z.of_nat (length pre + 1)) by lia.
  replace (len acc + 1) with (Z.of_nat (length acc + 1)) by lia.
  rewrite IH. by rewrite <- app_assoc.
Qed.

Lemma copy_octets_spec n acc junk off : bytes_ok acc → 0 <= off < len acc → (n <= length junk)%nat →
  copy_octets n (acc ++ junk) (len acc - off - 1) (len acc) = Some (ref_copy n acc off ++ drop n junk).
Proof.
  revert acc junk. induction n as [|n IH]; intros acc junk Hacc Ho Hn; [done|].
  destruct junk as [|j junk]; [cbn in Hn; lia|]. cbn [copy_octets ref_copy].
  destruct (lookup_lt_is_Some_2 acc (Z.to_nat (len acc - off - 1))) as [x Hx]; [lia|].
  assert (load8 (acc ++ j :: junk) (len acc - off - 1) = Some x) as ->.
  { unfold load8. replace (0 <=? _) with true by lia. rewrite lookup_app_l by lia. done. }
  mnext. rewrite store8_app by done. mnext. assert (is_byte x) by by eapply Forall_lookup_1.
  rewrite is_byte_wrap, Hx by done. cbn [default id]. cbn [length] in Hn.
  replace (len acc - off - 1 + 1) with (len (acc ++ [x]) - off - 1) by len_lia.
  replace (len acc + 1) with (len (acc ++ [x])) by len_lia.
  replace (acc ++ x :: junk) with ((acc ++ [x]) ++ junk) by (by rewrite <- app_assoc).
  rewrite IH; [done|by apply Forall_app, conj, Forall_singleton|len_lia|lia].
Qed.

Lemma copy_reference_spec acc junk off n : bytes_ok acc → 0 <= off < len acc → 2 <= n <= len junk →
  copy_reference (acc ++ junk) (len acc - off - 1) (len acc) (n - 2) =
  Some (ref_copy (Z.to_nat n) acc off ++ drop (Z.to_nat n) junk).
Proof.
  intros Hacc Ho Hn. unfold copy_reference. replace (n - 2 + 2) with n by lia.
  case_if; [apply copy_octets_spec; (done || lia)|]. case_if; [|apply copy_octets_spec; (done || lia)].
  set (k := Z.to_nat (len acc - off - 1)).
  assert (load (acc ++ junk) (len acc - off - 1) n = Some (take (Z.to_nat n) (drop k acc))) as ->.
  { unfold load, in_range. replace (_ && _) with true by len_lia. fold k.
    by rewrite drop_app_le, take_app_le by (rewrite ?length_drop; lia). }
  mnext. rewrite <- (take_drop (Z.to_nat n) junk) at 1. rewrite store_app by len_lia.
  rewrite ref_copy_disjoint by lia. fold k. by rewrite <- app_assoc.
Qed.

(** ** Decompression *)

Lemma expand1_ok acc t : bytes_ok acc → token_ok acc t → bytes_ok (expand1 acc t).
Proof.
  destruct t as [bs|off n]; cbn; [intros ? [? _]; by apply Forall_app|intros ? _; by apply ref_copy_ok].
Qed.

(** The control octet of a reference, and its parts. *)
Lemma ref_octet h l : 0 <= h < 32 → 1 <= l <= 7 →
  is_byte (h + 32 * l) ∧ (h + 32 * l <? 32) = false ∧
  Z.shiftr (h + 32 * l) 5 = l ∧ Z.land (h + 32 * l) 31 = h.
Proof.
  intros Hh Hl. unfold is_byte. rewrite Z.shiftr_div_pow2 by lia. rewrite (Z.land_ones _ 5) by lia.
  change (2 ^ 5) with 32. split_and!; [lia..|div_lia|div_lia].
Qed.

Lemma load8_mid (pre l post : list Z) i p x : p = len pre + i → 0 <= i → l !! Z.to_nat i = Some x →
  load8 (pre ++ l ++ post) p = Some x.
Proof.
  intros -> Hi Hx. apply lookup_lt_Some in Hx as Hlt. unfold load8. replace (0 <=? _) with true by lia.
  rewrite lookup_app_r by lia. replace (_ - _)%nat with (Z.to_nat i) by lia. by rewrite lookup_app_l.
Qed.

(** One token of the input. *)
Lemma decompress_literal fuel pre bs post acc junk : bytes_ok bs → 1 <= len bs <= 32 → len bs <= len junk →
  decompress_loop (S fuel) (pre ++ enc (Lit bs) ++ post) (acc ++ junk) (len pre) (len acc) =
  decompress_loop fuel (pre ++ enc (Lit bs) ++ post) ((acc ++ bs) ++ drop (length bs) junk)
    (len (pre ++ enc (Lit bs))) (len (acc ++ bs)).
Proof.
  intros Hbs Hl Hroom. cbn [decompress_loop]. rewrite (load8_mid _ _ _ 0 (len pre) (len bs - 1)) by (lia || reflexivity).
  replace (len pre <? _) with true by (cbn [enc]; simpl_len; cbn [length]; lia). mnext. change (Z.shiftl 1 5) with 32.
  replace (len bs - 1 <? 32) with true by lia. replace (len bs - 1 + 1) with (len bs) by lia.
  replace (len acc + len bs >? _) with false by len_lia.
  replace (_ >? _) with false by (cbn [enc]; simpl_len; cbn [length]; lia).
  pose proof (copy_literals_spec bs (pre ++ [len bs - 1]) post acc junk Hbs ltac:(lia)) as Hc.
  rewrite <- app_assoc in Hc. cbn [app] in Hc.
  replace (len (pre ++ [len bs - 1])) with (len pre + 1) in Hc by len_lia.
  rewrite Nat2Z.id. cbn [enc app]. rewrite Hc. mnext. f_equal; simpl_len; cbn [length]; lia.
Qed.

Lemma decompress_reference fuel pre off n post acc junk : bytes_ok acc → 0 <= off < 8192 → off < len acc →
  3 <= n <= 264 → n <= len junk →
  decompress_loop (S fuel) (pre ++ enc (Ref off n) ++ post) (acc ++ junk) (len pre) (len acc) =
  decompress_loop fuel (pre ++ enc (Ref off n) ++ post) (ref_copy (Z.to_nat n) acc off ++ drop (Z.to_nat n) junk)
    (len (pre ++ enc (Ref off n))) (len acc + n).
Proof.
  intros Hacc Hoff Hoa Hn Hroom. set (input := pre ++ enc (Ref off n) ++ post).
  assert (Hd : 0 <= off / 256 < 32) by div_lia. assert (Hm : 0 <= off mod 256 < 256) by div_lia.
  assert (Hrest : ∀ ip, (if len acc + (n - 2) + 2 >? len (acc ++ junk) then Some (acc ++ junk, 0)
    else if len acc - Z.shiftl (off / 256) 8 - 1 - off mod 256 <? 0 then Some (acc ++ junk, 0)
    else out ← copy_reference (acc ++ junk) (len acc - Z.shiftl (off / 256) 8 - 1 - off mod 256) (len acc) (n - 2);
      decompress_loop fuel input out ip (len acc + (n - 2 + 2))) = decompress_loop fuel input
    (ref_copy (Z.to_nat n) acc off ++ drop (Z.to_nat n) junk) ip (len acc + n)).
  { intros ip. assert (len acc - Z.shiftl (off / 256) 8 - 1 - off mod 256 = len acc - off - 1) as ->.
    { rewrite Z.shiftl_mul_pow2 by lia. change (2 ^ 8) with 256. div_lia. }
    replace (_ >? _) with false by len_lia. replace (_ <? 0) with false by lia.
    rewrite copy_reference_spec by (done || lia). mnext. f_equal. lia. }
  destruct (ref_octet (off / 256) (if n - 2 <? 7 then n - 2 else 7) Hd) as (_ & Hlt & Hsh & Hla); [case_if; lia|].
  assert (Hload : ∀ i p x, p = len pre + i → 0 <= i → enc (Ref off n) !! Z.to_nat i = Some x →
    load8 input p = Some x) by (intros; by eapply load8_mid).
  cbn [decompress_loop]. destruct (n - 2 <? 7) eqn:Hs.
  - assert (Henc : enc (Ref off n) = [off / 256 + 32 * (n - 2); off mod 256]) by (cbn; by rewrite Hs).
    assert (Hl : len input = len pre + 2 + len post) by (unfold input; rewrite Henc; simpl_len; cbn [length]; lia).
    replace (len pre <? _) with true by lia.
    rewrite (Hload 0 (len pre) (off / 256 + 32 * (n - 2))) by (rewrite ?Henc; lia || reflexivity).
    mnext. change (Z.shiftl 1 5) with 32. rewrite Hlt, Hsh, Hla. replace (_ >=? _) with false by lia.
    replace (n - 2 =? 7) with false by lia. mnext.
    rewrite (Hload 1 (len pre + 1) (off mod 256)) by (rewrite ?Henc; lia || reflexivity). mnext.
    rewrite Hrest. f_equal. rewrite Henc. simpl_len. cbn [length]. lia.
  - assert (Henc : enc (Ref off n) = [off / 256 + 224; n - 9; off mod 256]) by (cbn; by rewrite Hs).
    assert (Hl : len input = len pre + 3 + len post) by (unfold input; rewrite Henc; simpl_len; cbn [length]; lia).
    change (32 * 7) with 224 in *. replace (len pre <? _) with true by lia.
    rewrite (Hload 0 (len pre) (off / 256 + 224)) by (rewrite ?Henc; lia || reflexivity).
    mnext. change (Z.shiftl 1 5) with 32. rewrite Hlt, Hsh, Hla. replace (_ >=? _) with false by lia.
    change (7 =? 7) with true. cbv iota.
    rewrite (Hload 1 (len pre + 1) (n - 9)) by (rewrite ?Henc; lia || reflexivity). mnext.
    replace (_ >=? _) with false by lia. mnext.
    rewrite (Hload 2 (len pre + 1 + 1) (off mod 256)) by (rewrite ?Henc; lia || reflexivity). mnext.
    replace (7 + (n - 9)) with (n - 2) by lia.
    rewrite Hrest. f_equal. rewrite Henc. simpl_len. cbn [length]. lia.
Qed.

Lemma length_expand1 acc t : token_ok acc t →
  len (expand1 acc t) = len acc + match t with Lit bs => len bs | Ref _ n => n end.
Proof. destruct t as [bs|off n]; cbn [expand1 token_ok]; intros Hok; [len_lia|]. rewrite length_ref_copy. lia. Qed.

Lemma length_expand acc ts : (length acc <= length (expand acc ts))%nat.
Proof.
  revert acc. induction ts as [|t ts IH]; intros acc; [done|]. cbn [expand foldl].
  etrans; [|apply IH]. destruct t; cbn [expand1]; rewrite ?length_ref_copy; len_lia.
Qed.

(** The whole input. *)
Lemma decompress_tokens ts fuel pre acc junk : bytes_ok acc → tokens_ok acc ts → (length ts <= fuel)%nat →
  len (expand acc ts) <= len (acc ++ junk) →
  decompress_loop fuel (pre ++ encs ts) (acc ++ junk) (len pre) (len acc) =
  Some (expand acc ts ++ drop (length (expand acc ts) - length acc) junk, len (expand acc ts)).
Proof.
  revert fuel pre acc junk. induction ts as [|t ts IH]; intros fuel pre acc junk Hacc Hok Hf Hroom.
  { cbn [encs mbind list_bind expand foldl]. rewrite app_nil_r, Nat.sub_diag.
    destruct fuel; cbn [decompress_loop]; by replace (_ <? _) with false by lia. }
  destruct Hok as [Ht Hts]. destruct fuel as [|fuel]; [cbn in Hf; lia|].
  pose proof (length_expand1 acc t Ht) as Hlt. pose proof (expand1_ok acc t Hacc Ht) as Ht'.
  pose proof (length_expand (expand1 acc t) ts) as Hmono.
  change (encs (t :: ts)) with (enc t ++ encs ts). change (expand acc (t :: ts)) with (expand (expand1 acc t) ts) in *.
  specialize (IH fuel (pre ++ enc t) (expand1 acc t)).
  destruct t as [bs|off n]; cbn [expand1 token_ok] in *.
  - rewrite decompress_literal by (try tauto; len_lia). rewrite app_assoc.
    rewrite IH by (done || (cbn in Hf; lia) || len_lia). rewrite drop_drop.
    do 4 f_equal. len_lia.
  - destruct Ht as (? & ? & ?). rewrite decompress_reference by (done || len_lia). rewrite app_assoc.
    rewrite <- Hlt, IH by (done || (cbn in Hf; lia) || len_lia). rewrite drop_drop.
    do 4 f_equal. len_lia.
Qed.

(** No input makes the decompressor leave its buffers. *)
Lemma copy_literals_total n input out ip op : 0 <= ip → 0 <= op → ip + Z.of_nat n <= len input →
  op + Z.of_nat n <= len out →
  ∃ out', copy_literals n input out ip op = Some out' ∧ length out' = length out.
Proof.
  revert out ip op. induction n as [|n IH]; intros out ip op ? ? ? ?; cbn [copy_literals]; [by eexists|].
  destruct (load8_total input ip) as [b ->]; [lia|]. mnext.
  destruct (store8_total out op b) as (out' & -> & Hl); [lia|]. mnext. rewrite <- Hl. apply IH; lia.
Qed.

Lemma copy_octets_total n out ref op : 0 <= ref <= op → op + Z.of_nat n <= len out →
  ∃ out', copy_octets n out ref op = Some out' ∧ length out' = length out.
Proof.
  revert out ref op. induction n as [|n IH]; intros out ref op ? ?; cbn [copy_octets]; [by eexists|].
  destruct (load8_total out ref) as [b ->]; [lia|]. mnext.
  destruct (store8_total out op b) as (out' & -> & Hl); [lia|]. mnext. rewrite <- Hl. apply IH; lia.
Qed.

Lemma copy_reference_total out ref op l : 0 <= ref <= op → 0 <= l → op + l + 2 <= len out →
  ∃ out', copy_reference out ref op l = Some out' ∧ length out' = length out.
Proof.
  intros. unfold copy_reference. case_if; [apply copy_octets_total; lia|].
  case_if; [|apply copy_octets_total; lia]. unfold load, store, in_range.
  replace (_ && _) with true by lia. mnext. replace (_ && _) with true by len_lia.
  eexists. split; [done|]. len_lia.
Qed.

Lemma decompress_loop_total fuel input out ip op : bytes_ok input → 0 <= ip <= len input → 0 <= op <= len out →
  len input - ip <= Z.of_nat fuel →
  ∃ out' n, decompress_loop fuel input out ip op = Some (out', n) ∧ length out' = length out ∧ 0 <= n <= len out.
Proof.
  intros Hin. assert (Hbyte : ∀ p, 0 <= p < len input → ∃ b, load8 input p = Some b ∧ is_byte b).
  { intros p Hp. destruct (load8_total input p Hp) as [b Hb]. exists b. split; [done|].
    unfold load8 in Hb. destruct (0 <=? p); [|done]. by eapply Forall_lookup_1. }
  revert out ip op. induction fuel as [|fuel IH]; intros out ip op Hip Hop Hf; cbn [decompress_loop].
  { replace (ip <? _) with false by lia. eauto with lia. }
  case_if; [|by eauto with lia]. destruct (Hbyte ip) as (ctrl & -> & Hc); [lia|]. mnext. unfold is_byte in Hc.
  change (Z.shiftl 1 5) with 32. case_if.
  - case_if; [by eauto with lia|]. case_if; [by eauto with lia|].
    destruct (copy_literals_total (Z.to_nat (ctrl + 1)) input out (ip + 1) op) as (out' & -> & Hl); [lia..|].
    mnext. rewrite <- Hl. apply IH; lia.
  - case_if; [by eauto with lia|]. rewrite (Z.land_ones _ 5), !Z.shiftr_div_pow2, Z.shiftl_mul_pow2 by lia.
    change (2 ^ 5) with 32. change (2 ^ 8) with 256.
    assert (Hrest : ∀ l p, 0 <= l → ip < p < len input →
      ∃ out' n, (b ← load8 input p;
        if op + l + 2 >? len out then Some (out, 0)
        else if op - ctrl mod 32 * 256 - 1 - b <? 0 then Some (out, 0)
        else out ← copy_reference out (op - ctrl mod 32 * 256 - 1 - b) op l;
          decompress_loop fuel input out (p + 1) (op + (l + 2))) = Some (out', n) ∧
      length out' = length out ∧ 0 <= n <= len out).
    { intros l p Hl Hp. destruct (Hbyte p) as (b & -> & Hb); [lia|]. mnext. unfold is_byte in Hb.
      case_if; [by eauto with lia|]. case_if; [by eauto with lia|]. assert (0 <= ctrl mod 32) by div_lia.
      destruct (copy_reference_total out (op - ctrl mod 32 * 256 - 1 - b) op l) as (out' & -> & Hlo); [lia..|].
      mnext. rewrite <- Hlo. apply IH; lia. }
    case_if.
    + destruct (Hbyte (ip + 1)) as (b & -> & Hb); [lia|]. mnext. unfold is_byte in Hb. case_if; mnext; [by eauto with lia|].
      apply Hrest; lia.
    + mnext. apply Hrest; div_lia.
Qed.

Lemma decompress_total input out : bytes_ok input →
  ∃ out' n, lzf_decompress input out = Some (out', n) ∧ length out' = length out ∧ 0 <= n <= len out.
Proof. intros. apply decompress_loop_total; (done || lia). Qed.

(** C31: (memory safety) On any input, compressed or corrupt, lzf_decompress
    ends, reads only inside the input and writes only inside the output buffer. *)
Theorem lzf_decompress_safe input out : bytes_ok input →
  ∃ out' n, lzf_decompress input out = Some (out', n) ∧ length out' = length out ∧ 0 <= n <= len out.
Proof. apply decompress_total. Qed.

Lemma lzf_decompress_safe_witness :
  lzf_decompress [0; 65; 224; 9; 200] (replicate 8 0) = Some ([65; 0; 0; 0; 0; 0; 0; 0], 0) ∧
  ∃ out' n, lzf_decompress [0; 65; 224; 9; 200] (replicate 8 0) = Some (out', n) ∧
    length out' = length (replicate 8 0) ∧ 0 <= n <= len (replicate 8 0).
Proof. split; [reflexivity|]. apply lzf_decompress_safe. by_decision. Defined.

(** ** Compression *)

(** The octets of the input at [r] and [ip] agree on the first [n]. *)
Definition agree (input : list Z) (r ip : Z) (n : Z) : Prop :=
  ∀ k, 0 <= k < n → input !! Z.to_nat (r + k) = input !! Z.to_nat (ip + k).

Lemma agree_step input r ip n a : 0 <= r → 0 <= ip → 0 <= n → agree input r ip n →
  load8 input (r + n) = Some a → load8 input (ip + n) = Some a → agree input r ip (n + 1).
Proof.
  unfold load8. intros ? ? ? Hag Ha Hb k Hk. destruct (decide (k = n)) as [->|]; [|apply Hag; lia].
  replace (0 <=? r + n) with true in Ha by lia. replace (0 <=? ip + n) with true in Hb by lia. congruence.
Qed.

Lemma unrolled_spec n input r ip l : 0 <= r <= ip → 2 <= l → ip + l + Z.of_nat n < len input → agree input r ip (l + 1) →
  ∃ l' eq, unrolled n input r ip l = Some (l', eq) ∧ l <= l' <= l + Z.of_nat n ∧
    (if eq : bool then l' = l + Z.of_nat n ∧ agree input r ip (l' + 1) else l < l' ∧ agree input r ip l').
Proof.
  revert l. induction n as [|n IH]; intros l Hr Hl Hin Hag; cbn [unrolled].
  { eexists _, true. split; [done|]. replace (l + Z.of_nat 0) with l by lia. by split_and!; try lia. }
  destruct (load8_total input (r + (l + 1))) as [a Ha]; [lia|].
  destruct (load8_total input (ip + (l + 1))) as [b Hb]; [lia|].
  rewrite Ha, Hb. mnext. mnext. destruct (Z.eqb_spec a b) as [->|Hne]; cbn [negb].
  - destruct (IH (l + 1)) as (l' & eq & -> & Hl' & Hcase); [lia..|eapply agree_step; eauto with lia|].
    exists l', eq. split; [done|]. split; [lia|]. destruct eq; [split; [lia|tauto]|split; [lia|tauto]].
  - eexists _, false. split; [done|]. split_and!; [lia..|done].
Qed.

Lemma match_loop_spec fuel input r ip maxlen l : 0 <= r <= ip → 2 <= l → ip + maxlen <= len input → 
  maxlen - l <= Z.of_nat fuel → (0 < fuel)%nat → agree input r ip (l + 1) →
  ∃ l', match_loop fuel input r ip maxlen l = Some l' ∧ l < l' <= Z.max maxlen (l + 1) ∧ agree input r ip l'.
Proof.
  revert l. induction fuel as [|fuel IH]; intros l Hr Hl Hin Hf Hpos Hag; [lia|]. cbn [match_loop].
  destruct (Z.ltb_spec (l + 1) maxlen) as [Hlt|Hge]; [|eexists; split; [done|]; split; [lia|done]].
  destruct (load8_total input (r + (l + 1))) as [a Ha]; [lia|].
  destruct (load8_total input (ip + (l + 1))) as [b Hb]; [lia|].
  rewrite Ha, Hb. mnext. mnext. destruct (Z.eqb_spec a b) as [->|Hne].
  - destruct (IH (l + 1)) as (l' & -> & Hl' & Hag'); [lia..|eapply agree_step; eauto with lia|].
    exists l'. split; [done|]. split; [lia|done].
  - eexists. split; [done|]. split; [lia|done].
Qed.

Lemma match_length_spec input r ip : 0 <= r <= ip → ip + 2 < len input → agree input r ip 3 →
  ∃ l, match_length input r ip = Some l ∧ 3 <= l <= 264 ∧ ip + l <= len input ∧ agree input r ip l.
Proof.
  intros Hr Hin Hag. unfold match_length. change MAX_REF with 264. set (maxlen := if len input - ip - 2 >? 264 then 264 else len input - ip - 2).
  assert (Hm : 1 <= maxlen <= 264 ∧ ip + 2 + maxlen <= len input) by (unfold maxlen; case_if; lia).
  destruct (Z.gtb_spec maxlen 16) as [Hgt|Hle].
  - destruct (unrolled_spec 16 input r ip 2) as (l & eq & -> & Hl & Hcase); [lia..|done|]. mnext. destruct eq.
    + destruct Hcase as [-> Hag']. change (2 + Z.of_nat 16) with 18 in *.
      destruct (match_loop_spec (Z.to_nat maxlen + 1) input r ip maxlen 18) as (l & -> & Hl' & ?); [lia..|done|].
      eexists. split; [done|]. split_and!; [lia..|done].
    + eexists. split; [done|]. destruct Hcase. split_and!; [lia..|done].
  - mnext. destruct (match_loop_spec (Z.to_nat maxlen + 1) input r ip maxlen 2) as (l & -> & Hl' & ?); [lia..|done|].
    eexists. split; [done|]. split_and!; [lia..|done].
Qed.

Section compress.
(** The input at an address that is no small number, as in any address space with
    an unmapped first page, and the table at its start. *)
Context (in_data : Z) (input : list Z).
Hypothesis Hinput : bytes_ok input.
Hypothesis Haddr : 8192 <= in_data.
Hypothesis Hend : in_data + len input < 2 ^ 64.

Definition htab_ok (htab : htable) : Prop := ∀ i, 0 <= htab i < 2 ^ 64.

Lemma set_slot_ok htab i ip : htab_ok htab → 0 <= ip < len input → htab_ok (set_slot htab i (in_data + ip)).
Proof. intros Hh Hip j. unfold set_slot. case_if; [lia|apply Hh]. Qed.

Lemma pair_at_spec p : 0 <= p → p + 1 < len input → ∃ a b, load8 input p = Some a ∧ load8 input (p + 1) = Some b ∧
  is_byte a ∧ is_byte b ∧ pair_at input p = Some (Z.lor (Z.shiftl b 8) a).
Proof.
  intros Hp Hin. destruct (load8_total input p) as [a Ha]; [lia|]. destruct (load8_total input (p + 1)) as [b Hb]; [lia|].
  exists a, b. unfold pair_at. rewrite Ha, Hb. mnext. mnext. unfold load8 in *.
  replace (0 <=? p) with true in Ha by lia. replace (0 <=? p + 1) with true in Hb by lia.
  split_and!; try done; by eapply Forall_lookup_1.
Qed.

Lemma pair_inj a b a' b' : is_byte a → is_byte a' → 
  Z.lor (Z.shiftl b 8) a = Z.lor (Z.shiftl b' 8) a' → a = a' ∧ b = b'.
Proof.
  unfold is_byte. intros Ha Ha' Heq. rewrite !(lor_shiftl _ _ 8) in Heq by lia.
  change (2 ^ 8) with 256 in Heq. lia.
Qed.

(** The condition of a match, for any address in the table. *)
Lemma match_at_spec ip ref : 0 <= ip → ip + 2 < len input → 0 <= ref < 2 ^ 64 →
  ∃ m, match_at in_data input ip ref = Some m ∧
    ∀ off, m = Some off → 0 <= off < 8192 ∧ off < ip ∧ agree input (ip - off - 1) ip 3.
Proof.
  intros Hip Hin Href. unfold match_at. change MAX_OFF with 8192.
  destruct (Z.ltb_spec (u64 (in_data + ip - ref - 1)) 8192) as [Hoff|]; cbn [negb]; [|by eexists].
  destruct (Z.gtb_spec ref in_data) as [Hgt|]; cbn [negb]; [|by eexists].
  assert (Hu : u64 (in_data + ip - ref - 1) = in_data + ip - ref - 1 ∧ 0 <= in_data + ip - ref - 1).
  { unfold wrapu in *. destruct (Z_lt_le_dec (in_data + ip - ref - 1) 0).
    - rewrite <- (Z.mod_unique _ (2 ^ 64) (-1) (in_data + ip - ref - 1 + 2 ^ 64)) in Hoff by lia. lia.
    - split; [|lia]. apply Z.mod_small. lia. }
  destruct Hu as [Hu Hpos]. rewrite Hu in Hoff. rewrite Hu. set (off := in_data + ip - ref - 1) in *.
  replace (ref - in_data) with (ip - off - 1) by (unfold off; lia).
  assert (Hlt : off < ip) by (unfold off; lia). clearbody off.
  destruct (load8_total input (ip - off - 1 + 2)) as [a2 Ha2]; [lia|].
  destruct (load8_total input (ip + 2)) as [b2 Hb2]; [lia|]. rewrite Ha2, Hb2. mnext. mnext.
  destruct (Z.eqb_spec a2 b2) as [->|]; cbn [negb]; [|by eexists].
  destruct (pair_at_spec (ip - off - 1)) as (a0 & a1 & Ha0 & Ha1 & Hba0 & _ & ->); [lia..|]. mnext.
  destruct (pair_at_spec ip) as (b0 & b1 & Hb0 & Hb1 & Hbb0 & _ & ->); [lia..|]. mnext.
  destruct (Z.eqb_spec (Z.lor (Z.shiftl a1 8) a0) (Z.lor (Z.shiftl b1 8) b0)) as [Heq|]; [|by eexists].
  apply pair_inj in Heq as [-> ->]; [|done..]. eexists. split; [done|]. intros off' [= <-].
  split_and!; [lia..|]. apply (agree_step _ _ _ 2 b2); [lia..| |done|done].
  apply (agree_step _ _ _ 1 b1); [lia..| |done|done].
  apply (agree_step _ _ _ 0 b0); [lia..| |by rewrite Z.add_0_r|by rewrite Z.add_0_r]. intros k Hk. lia.
Qed.

(** ** The output so far *)

(** The state of the loop: the output has the tokens [ts], then room for the
    length of the pending run of literals [pend], then that run.  The tokens expand
    to what was read, and cost at most 33 octets for each 32. *)
Record inv (out_len : Z) (st : cstate) (ts : list token) (pend rest : list Z) : Prop := {
  inv_out : c_out st = encs ts ++ rest;
  inv_run : rest = [] ∧ pend = [] ∨ ∃ h junk, rest = h :: pend ++ junk;
  inv_lit : c_lit st = len pend ∧ c_lit st < 32;
  inv_op : c_op st = len (encs ts) + 1 + c_lit st;
  inv_ok : tokens_ok [] ts;
  inv_read : expand [] ts ++ pend = take (Z.to_nat (c_ip st)) input;
  inv_ip : 0 <= c_ip st <= len input;
  inv_htab : htab_ok (c_htab st);
  inv_len : len (c_out st) = out_len;
  inv_cost : 32 * len (encs ts) <= 33 * len (expand [] ts)
}.

Lemma pend_ok out_len st ts pend rest : inv out_len st ts pend rest → bytes_ok pend.
Proof.
  intros []. assert (bytes_ok (expand [] ts ++ pend)) as Hb by (rewrite inv_read0; by apply Forall_take).
  by apply Forall_app in Hb as [_ ?].
Qed.

Lemma read_length out_len st ts pend rest : inv out_len st ts pend rest →
  len (expand [] ts) + c_lit st = c_ip st.
Proof.
  intros []. apply (f_equal length) in inv_read0. rewrite length_app, length_take in inv_read0. lia.
Qed.

(** Ending the run of literals, when its first octet is inside the buffer. *)
Lemma stop_run_spec out_len st ts pend rest : inv out_len st ts pend rest → c_op st <= out_len →
  ∃ ts' junk, stop_run (c_out st) (c_op st) (c_lit st) = Some (encs ts' ++ junk) ∧
    len (encs ts' ++ junk) = out_len ∧ len (encs ts') = c_op st - (if c_lit st =? 0 then 1 else 0) ∧
    tokens_ok [] ts' ∧ expand [] ts' = take (Z.to_nat (c_ip st)) input ∧
    32 * len (encs ts') <= 33 * c_ip st + 31.
Proof.
  intros Hinv Hop. pose proof (pend_ok _ _ _ _ _ Hinv) as Hpend. pose proof (read_length _ _ _ _ _ Hinv) as Hrl.
  destruct Hinv as [Hout Hrun [Hlit Hlit'] Hop' Hok Hread _ _ Hlen Hcost].
  destruct Hrun as [[-> ->]|(h & junk & ->)]; [rewrite Hout, app_nil_r in Hlen; cbn in Hlit; lia|].
  unfold stop_run. rewrite Hout, store8_app by lia. destruct (Z.eqb_spec (c_lit st) 0) as [H0|H0].
  - destruct pend; [|cbn in Hlit; lia]. exists ts, (u8 (c_lit st - 1) :: junk). split; [done|].
    rewrite app_nil_r in Hread. rewrite Hout in Hlen. split_and!; [|lia|done|done|lia].
    rewrite <- Hlen, !length_app. done.
  - exists (ts ++ [Lit pend]), junk. rewrite encs_snoc, tokens_ok_snoc, expand_snoc. cbn [enc expand1 token_ok].
    rewrite is_byte_wrap by (unfold is_byte; lia). rewrite Hlit, <- app_assoc. split; [done|].
    rewrite Hout in Hlen. split_and!; try done; simpl_len; cbn [length] in *; lia.
Qed.

(** A literal octet. *)
Lemma literal_spec out_len st ts pend rest : inv out_len st ts pend rest → c_ip st < len input → c_op st < out_len →
  ∃ st' ts' pend' rest', literal input st = Some st' ∧ inv out_len st' ts' pend' rest' ∧ c_ip st' = c_ip st + 1 ∧
    (c_op st' = c_op st + 1 ∨ c_op st' = c_op st + 2 ∧ c_lit st = 31 ∧ c_lit st' = 0).
Proof.
  intros Hinv Hip Hop. pose proof (pend_ok _ _ _ _ _ Hinv) as Hpend. pose proof (read_length _ _ _ _ _ Hinv) as Hrl.
  pose proof Hinv as [Hout Hrun [Hlit Hlit'] Hop' Hok Hread Hip' Hht Hlen Hcost].
  destruct (lookup_lt_is_Some_2 input (Z.to_nat (c_ip st))) as [b Hb]; [lia|].
  pose proof (Forall_lookup_1 _ _ _ _ Hinput Hb) as Hbb.
  unfold literal. assert (load8 input (c_ip st) = Some b) as ->.
  { unfold load8. by replace (0 <=? _) with true by lia. }
  mnext. assert (∃ h j junk, rest = h :: pend ++ j :: junk) as (h & j & junk & ->).
  { rewrite Hout in Hlen. rewrite length_app in Hlen. destruct Hrun as [[-> ->]|(h & [|j junk] & ->)].
    - cbn [length] in *. lia.
    - rewrite app_nil_r in *. cbn [length] in *. lia.
    - eauto. }
  rewrite Hout. replace (encs ts ++ h :: pend ++ j :: junk) with ((encs ts ++ h :: pend) ++ j :: junk)
    by (rewrite <- app_assoc; reflexivity).
  rewrite store8_app by (simpl_len; cbn [length]; lia). mnext. rewrite is_byte_wrap by done.
  replace ((encs ts ++ h :: pend) ++ b :: junk) with (encs ts ++ h :: (pend ++ [b]) ++ junk)
    by (rewrite <- !app_assoc; reflexivity).
  assert (Hread' : expand [] ts ++ pend ++ [b] = take (Z.to_nat (c_ip st + 1)) input).
  { rewrite app_assoc, Hread, Z2Nat.inj_add by lia. change (Z.to_nat 1) with 1%nat.
    by rewrite Nat.add_1_r, (take_S_r _ _ b). }
  assert (Hlen' : len (encs ts ++ h :: (pend ++ [b]) ++ junk) = out_len).
  { rewrite <- Hlen, Hout. simpl_len. cbn [length]. simpl_len. cbn [length]. lia. }
  change MAX_LIT with 32. destruct (Z.eqb_spec (c_lit st + 1) 32) as [Hmax|Hmax].
  - unfold stop_run. rewrite store8_app by lia. mnext. rewrite is_byte_wrap by (unfold is_byte; lia).
    eexists _, (ts ++ [Lit (pend ++ [b])]), [], junk. split; [done|]. split; [|cbn; split; [done|right; split_and!; lia]].
    assert (Hl32 : len (pend ++ [b]) = 32) by len_lia.
    split; cbn [c_out c_lit c_op c_ip c_htab]; rewrite ?encs_snoc, ?tokens_ok_snoc, ?expand_snoc; cbn [enc expand1].
    + rewrite <- (app_assoc (encs ts)), Hl32. cbn [app]. by replace (c_lit st + 1 - 1) with (32 - 1) by lia.
    + destruct junk as [|j' junk]; [by left|right; by eexists _, _].
    + done.
    + simpl_len. cbn [length]. lia.
    + split; [done|]. split; [|lia]. apply Forall_app; split; [done|by apply Forall_singleton].
    + by rewrite app_nil_r.
    + lia.
    + done.
    + rewrite <- Hlen'. simpl_len. cbn [length]. lia.
    + simpl_len. cbn [length]. lia.
  - eexists _, ts, (pend ++ [b]), (h :: (pend ++ [b]) ++ junk). split; [done|]. split; [|cbn; split; [done|by left]].
    split; cbn [c_out c_lit c_op c_ip c_htab]; try done; [right; by eexists _, _|len_lia|lia|lia].
Qed.

(** Writing a reference. *)
Lemma write_reference ts junk off n op : op = len (encs ts) → 0 <= off < 8192 → 3 <= n <= 264 → 3 <= len junk →
  ∃ junk', ('(out, op) ←
      (if n - 2 <? 7 then
         out ← store8 (encs ts ++ junk) op (Z.shiftr off 8 + Z.shiftl (n - 2) 5);
         Some (out, op + 1)
       else
         out ← store8 (encs ts ++ junk) op (Z.shiftr off 8 + Z.shiftl 7 5);
         out ← store8 out (op + 1) (n - 2 - 7);
         Some (out, op + 2));
    out ← store8 out op off;
    Some (out, op + 1)) = Some (encs (ts ++ [Ref off n]) ++ junk', len (encs (ts ++ [Ref off n]))) ∧
    length (encs (ts ++ [Ref off n]) ++ junk') = length (encs ts ++ junk).
Proof.
  intros -> Hoff Hn Hj. rewrite !Z.shiftr_div_pow2, !Z.shiftl_mul_pow2 by lia.
  change (2 ^ 8) with 256. change (2 ^ 5) with 32. change (7 * 32) with 224.
  assert (Hd : 0 <= off / 256 < 32) by div_lia. rewrite encs_snoc. cbn [enc].
  destruct junk as [|j0 [|j1 [|j2 junk]]]; cbn [length] in Hj; [lia..|]. destruct (Z.ltb_spec (n - 2) 7).
  - rewrite store8_app by done. mnext. mnext. rewrite is_byte_wrap by (unfold is_byte; lia).
    rewrite (Z.mul_comm (n - 2)). set (c := off / 256 + 32 * (n - 2)).
    replace (encs ts ++ c :: j1 :: j2 :: junk) with ((encs ts ++ [c]) ++ j1 :: j2 :: junk)
      by (rewrite <- app_assoc; reflexivity).
    rewrite store8_app by len_lia. mnext. exists (j2 :: junk). rewrite <- !app_assoc. cbn [app].
    split; [do 3 f_equal; simpl_len; cbn [length]; lia|]. simpl_len. cbn [length]. lia.
  - rewrite store8_app by done. mnext. rewrite is_byte_wrap by (unfold is_byte; lia).
    set (c := off / 256 + 224).
    replace (encs ts ++ c :: j1 :: j2 :: junk) with ((encs ts ++ [c]) ++ j1 :: j2 :: junk)
      by (rewrite <- app_assoc; reflexivity).
    rewrite store8_app by len_lia. mnext. mnext. rewrite is_byte_wrap by (unfold is_byte; lia).
    replace ((encs ts ++ [c]) ++ n - 2 - 7 :: j2 :: junk) with ((encs ts ++ [c; n - 9]) ++ j2 :: junk)
      by (rewrite <- !app_assoc; cbn [app]; do 3 f_equal; lia).
    rewrite store8_app by (simpl_len; cbn [length]; lia). mnext. exists junk. rewrite <- !app_assoc. cbn [app].
    split; [do 3 f_equal; simpl_len; cbn [length]; lia|]. simpl_len. cbn [length]. lia.
Qed.

Lemma first_octets p : 0 <= p → p + 1 < len input → ∃ h, FRST input p = Some h.
Proof.
  intros. unfold FRST. destruct (load8_total input p) as [a ->]; [lia|].
  destruct (load8_total input (p + 1)) as [b ->]; [lia|]. by eexists.
Qed.

Lemma next_octet v p : 0 <= p → p + 2 < len input → ∃ h, NEXT v input p = Some h.
Proof. intros. unfold NEXT. destruct (load8_total input (p + 2)) as [a ->]; [lia|]. by eexists. Qed.

(** What a turn of the loop promises: it stops for want of room only when the
    buffer is small, or else it goes on with more input read. *)
Definition step_post (out_len ip : Z) (r : option (cstate * bool)) : Prop :=
  match r with
  | None => 32 * out_len < 33 * len input + 128
  | Some (st', stop) => (∃ ts pend rest, inv out_len st' ts pend rest) ∧ ip < c_ip st' ∧
      (stop = true → len input - 2 <= c_ip st')
  end.

Lemma emit_match_spec out_len st ts pend rest off : inv out_len st ts pend rest → c_ip st + 2 < len input →
  0 <= off < 8192 → off < c_ip st → agree input (c_ip st - off - 1) (c_ip st) 3 →
  ∃ r, emit_match in_data input st off = Some r ∧ step_post out_len (c_ip st) r.
Proof.
  intros Hinv Hip Hoff Hoi Hag. pose proof (read_length _ _ _ _ _ Hinv) as Hrl.
  pose proof Hinv as [Hout Hrun [Hlit Hlit'] Hop' Hok Hread Hip' Hht Hlen Hcost].
  unfold emit_match. destruct st as [ip op lit hval htab out] eqn:Est. cbn [c_ip c_op c_lit c_hval c_htab c_out] in *.
  rewrite Hlen. set (notlit := if lit =? 0 then 1 else 0).
  assert (Hnl : 0 <= notlit <= 1) by (unfold notlit; case_if; lia).
  destruct ((op + 3 + 1 >=? out_len) && (op - notlit + 3 + 1 >=? out_len)) eqn:Hroom.
  { eexists. split; [done|]. cbn [step_post]. lia. }
  destruct (stop_run_spec _ _ _ _ _ Hinv) as (ts' & junk & Hstop & Hlen' & Hle & Hok' & Hread' & Hcost');
    [cbn; lia|]. cbn [c_ip c_op c_lit c_out] in *. rewrite Hstop. mnext.
  destruct (match_length_spec input (ip - off - 1) ip) as (l & -> & Hl & Hil & Hagl); [lia..|done|]. mnext.
  fold notlit in Hle. assert (Hjunk : 5 <= len junk) by (rewrite length_app in Hlen'; lia).
  destruct (write_reference ts' junk off l (op - notlit)) as (junk' & Hw & Hlw); [lia..|].
  set (ts2 := ts' ++ [Ref off l]) in *.
  assert (Hok2 : tokens_ok [] ts2).
  { apply tokens_ok_snoc. split; [done|]. cbn [token_ok]. rewrite Hread', length_take. lia. }
  assert (Hread2 : expand [] ts2 = take (Z.to_nat (ip + l)) input).
  { unfold ts2. rewrite expand_snoc, Hread'. cbn [expand1]. rewrite Z2Nat.inj_add by lia. apply ref_copy_take; [lia..|].
    intros k Hk. specialize (Hagl (Z.of_nat k) ltac:(lia)).
    replace (Z.to_nat (Z.of_nat (Z.to_nat ip) - off - 1) + k)%nat with (Z.to_nat (ip - off - 1 + Z.of_nat k)) by lia.
    replace (Z.to_nat ip + k)%nat with (Z.to_nat (ip + Z.of_nat k)) by lia. done. }
  assert (Hlr : len (expand [] ts2) = ip + l) by (rewrite Hread2, length_take; lia).
  assert (Hcost2 : 32 * len (encs ts2) <= 33 * len (expand [] ts2)).
  { rewrite Hlr. unfold ts2. rewrite encs_snoc, length_app. cbn [enc]. case_if; cbn [length]; lia. }
  assert (Hinv2 : ∀ hval' htab', htab_ok htab' →
    inv out_len (mk_state (ip + l) (len (encs ts2) + 1) 0 hval' htab' (encs ts2 ++ junk')) ts2 [] junk').
  { intros hval' htab' Hh. split; cbn [c_out c_lit c_op c_ip c_htab]; try done; try lia.
    - destruct junk' as [|j' junk']; [by left|right; by eexists _, _].
    - by rewrite app_nil_r. }
  match type of Hw with (?m ≫= _) = _ => destruct m as [[o1 p1]|]; [|done] end. rewrite some_bind in Hw. mnext.
  cbv beta iota in Hw. destruct (store8 o1 p1 off) as [o2|]; [|done]. rewrite some_bind in Hw. mnext.
  injection Hw as -> Hp1. replace (p1 + 1 + 1) with (len (encs ts2) + 1) by lia.
  replace (ip + 1 + (l - 2 + 1)) with (ip + l) by lia. destruct (Z.geb_spec (ip + l) (len input - 2)).
  { eexists. split; [done|]. cbn [step_post c_ip]. split_and!; [by eexists _, _, _; apply Hinv2|lia|lia]. }
  destruct (first_octets (ip + l - 2)) as [h0 ->]; [lia..|]. mnext.
  destruct (next_octet h0 (ip + l - 2)) as [h1 ->]; [lia..|]. mnext.
  destruct (next_octet h1 (ip + l - 2 + 1)) as [h2 ->]; [lia..|]. mnext.
  replace (ip + l - 2 + 1 + 1) with (ip + l) by lia. eexists. split; [done|].
  cbn [step_post c_ip]. split_and!; [|lia|done]. eexists _, _, _. apply Hinv2.
  apply set_slot_ok; [apply set_slot_ok; [done|lia]|lia].
Qed.

Lemma compress_step_spec out_len st ts pend rest : inv out_len st ts pend rest → c_ip st + 2 < len input →
  ∃ r, compress_step in_data input st = Some r ∧ step_post out_len (c_ip st) r.
Proof.
  intros Hinv Hip. pose proof (read_length _ _ _ _ _ Hinv) as Hrl.
  pose proof Hinv as [Hout Hrun [Hlit Hlit'] Hop' Hok Hread Hip' Hht Hlen Hcost].
  unfold compress_step. destruct st as [ip op lit hval htab out]. cbn [c_ip c_op c_lit c_hval c_htab c_out] in *.
  destruct (next_octet hval ip) as [h ->]; [lia..|]. mnext.
  set (htab' := set_slot htab (IDX h) (in_data + ip)).
  assert (Hinv' : inv out_len (mk_state ip op lit h htab' out) ts pend rest).
  { split; cbn [c_ip c_op c_lit c_hval c_htab c_out]; try done. apply set_slot_ok; [done|lia]. }
  destruct (match_at_spec ip (htab (IDX h))) as (m & -> & Hm); [lia..|apply Hht|]. mnext.
  destruct m as [off|].
  - destruct (Hm off eq_refl) as (? & ? & ?). by apply (emit_match_spec out_len (mk_state ip op lit h htab' out) ts pend rest off Hinv').
  - destruct (Z.geb_spec op (len out)); [eexists; split; [done|]; cbn [step_post]; lia|].
    destruct (literal_spec _ _ _ _ _ Hinv') as (st' & ts' & pend' & rest' & -> & Hinv2 & Hip2 & _); [cbn; lia..|].
    mnext. eexists. split; [done|]. cbn [step_post]. cbn [c_ip] in Hip2. split_and!; [by eexists _, _, _|cbn; lia|done].
Qed.

Lemma compress_loop_spec out_len fuel st ts pend rest : inv out_len st ts pend rest →
  len input - c_ip st <= Z.of_nat fuel →
  ∃ r, compress_loop fuel in_data input st = Some r ∧
    match r with
    | None => 32 * out_len < 33 * len input + 128
    | Some st' => (∃ ts pend rest, inv out_len st' ts pend rest) ∧ len input - 2 <= c_ip st'
    end.
Proof.
  revert st ts pend rest. induction fuel as [|fuel IH]; intros st ts pend rest Hinv Hf;
    pose proof (inv_ip _ _ _ _ _ Hinv); cbn [compress_loop].
  { replace (_ <? _) with false by lia. eexists. split; [done|]. split; [by eexists _, _, _|lia]. }
  destruct (Z.ltb_spec (c_ip st) (len input - 2)); [|eexists; split; [done|]; split; [by eexists _, _, _|lia]].
  destruct (compress_step_spec _ _ _ _ _ Hinv) as (r & -> & Hr); [lia|]. mnext.
  destruct r as [[st' []]|]; cbn [step_post] in Hr.
  - eexists. split; [done|]. split; [tauto|]. apply Hr. done.
  - destruct Hr as ((ts' & pend' & rest' & Hinv') & Hlt & _). eapply IH; [done|lia].
  - by eexists.
Qed.

(** The last octets: at most two, and at most three more octets of output. *)
Lemma tail_loop_spec out_len st ts pend rest : inv out_len st ts pend rest → len input - 2 <= c_ip st →
  c_op st + 3 <= out_len →
  ∃ st' ts' pend' rest', tail_loop 3 input st = Some st' ∧ inv out_len st' ts' pend' rest' ∧
    c_ip st' = len input ∧ c_op st' <= out_len.
Proof.
  intros Hinv Hip Hop. cbn [tail_loop]. pose proof (inv_ip _ _ _ _ _ Hinv).
  destruct (Z.ltb_spec (c_ip st) (len input)); [|eexists _, _, _, _; split; [done|]; split_and!; [done|lia..]].
  destruct (literal_spec _ _ _ _ _ Hinv) as (st1 & ts1 & pend1 & rest1 & -> & Hinv1 & Hip1 & Hop1); [lia..|]. mnext.
  destruct (Z.ltb_spec (c_ip st1) (len input)); [|eexists _, _, _, _; split; [done|]; split_and!; [done|lia..]].
  destruct (literal_spec _ _ _ _ _ Hinv1) as (st2 & ts2 & pend2 & rest2 & -> & Hinv2 & Hip2 & Hop2); [lia..|]. mnext.
  replace (_ <? _) with false by lia. eexists _, _, _, _. split; [done|]. split_and!; [done|lia..].
Qed.
End compress.

(** ** The whole compressor *)

Section roundtrip.
Context (in_data : Z) (htab : htable) (input next out : list Z).
Hypothesis Hinput : bytes_ok input.
Hypothesis Hnext : 2 <= len input ∨ 1 <= len input ∧ next ≠ [].
Hypothesis Haddr : 8192 <= in_data.
Hypothesis Hend : in_data + len input < 2 ^ 64.
Hypothesis Hhtab : htab_ok htab.

Lemma compress_spec : ∃ r, lzf_compress in_data htab input next out = Some r ∧
  match r with
  | None => 32 * len out < 33 * len input + 128
  | Some (out', n) => ∃ ts junk, out' = encs ts ++ junk ∧ n = len (encs ts) ∧ length out' = length out ∧
      tokens_ok [] ts ∧ expand [] ts = input ∧ 32 * n <= 33 * len input + 31
  end.
Proof.
  unfold lzf_compress. replace (len input =? 0) with false by lia. cbn [orb].
  destruct (Z.eqb_spec (len out) 0); [eexists; split; [done|]; cbv iota; lia|].
  assert (∃ h, FRST (input ++ next) 0 = Some h) as [h ->].
  { assert (2 <= len (input ++ next)).
    { rewrite length_app. destruct Hnext as [?|[? Hne]]; [lia|].
      destruct (decide (length next = 0%nat)) as [H0|]; [by apply nil_length_inv in H0|lia]. }
    unfold FRST. destruct (load8_total (input ++ next) 0) as [a ->]; [lia|].
    destruct (load8_total (input ++ next) (0 + 1)) as [b ->]; [lia|]. by eexists. }
  mnext. assert (Hinv : inv input (len out) (mk_state 0 1 0 h htab out) [] [] out).
  { split; cbn; try done; try lia. destruct out as [|x l]; [by left|right; by eexists _, _]. }
  destruct (compress_loop_spec in_data input Hinput Haddr Hend _ (length input) _ _ _ _ Hinv) as (r & -> & Hr);
    [cbn; lia|]. mnext. destruct r as [st|]; [|by eexists].
  destruct Hr as ((ts & pend & rest & Hinv1) & Hip). pose proof (inv_len _ _ _ _ _ _ Hinv1) as Hlen.
  pose proof (inv_ip _ _ _ _ _ _ Hinv1). pose proof (read_length _ _ _ _ _ _ Hinv1).
  pose proof (inv_op _ _ _ _ _ _ Hinv1). pose proof (inv_cost _ _ _ _ _ _ Hinv1).
  pose proof (inv_lit _ _ _ _ _ _ Hinv1).
  rewrite Hlen. destruct (Z.gtb_spec (c_op st + 3) (len out)); [eexists; split; [done|]; cbv iota; lia|].
  destruct (tail_loop_spec input Hinput _ _ _ _ _ Hinv1) as (st' & ts' & pend' & rest' & -> & Hinv2 & Hip2 & Hop2);
    [lia..|]. mnext.
  destruct (stop_run_spec input Hinput _ _ _ _ _ Hinv2) as (ts2 & junk & -> & Hl & Hle & Hok & Hex & Hc2); [done|].
  mnext. eexists. split; [done|]. exists ts2, junk. split_and!; try done; [lia| |lia].
  rewrite Hex, Hip2. apply take_ge. lia.
Qed.
End roundtrip.

Lemma lzf_roundtrip_spec in_data htab input next out buf : bytes_ok input →
  2 <= len input ∨ 1 <= len input ∧ next ≠ [] → 8192 <= in_data → in_data + len input < 2 ^ 64 →
  htab_ok htab → len input <= len buf →
  ∃ r, lzf_compress in_data htab input next out = Some r ∧
    ∀ out' n, r = Some (out', n) → 0 < n <= len out ∧ length out' = length out ∧
      lzf_decompress (take (Z.to_nat n) out') buf = Some (input ++ drop (length input) buf, len input).
Proof.
  intros Hin Hnext Haddr Hend Hh Hbuf.
  destruct (compress_spec in_data htab input next out Hin Hnext Haddr Hend Hh) as (r & -> & Hr).
  exists r. split; [done|]. intros out' n ->. destruct Hr as (ts & junk & -> & -> & Hl & Hok & Hex & _).
  assert (Hpos : 0 < len (encs ts)).
  { destruct ts as [|[bs|off m] ts]; [cbn in Hex; subst; cbn in Hnext; lia|..];
      change (encs (?t :: ts)) with (enc t ++ encs ts); rewrite length_app; cbn [enc]; try case_if; cbn [length]; lia. }
  rewrite length_app in Hl. split_and!; [lia..|by rewrite length_app|].
  rewrite Nat2Z.id, take_app_length. unfold lzf_decompress.
  assert (Hfuel : (length ts <= length (encs ts))%nat).
  { clear. induction ts as [|[bs|off m] ts IH]; [done|..];
      change (encs (?t :: ts)) with (enc t ++ encs ts); rewrite length_app; cbn [enc]; try case_if; cbn [length]; lia. }
  pose proof (decompress_tokens ts (length (encs ts)) [] [] buf) as Hd. rewrite Hex in Hd. cbn [app length] in Hd.
  rewrite Nat.sub_0_r in Hd. apply Hd; (done || lia).
Qed.

(** C6: what lzf_compress produces, lzf_decompress turns back into the input, for any
    input, any size of the output buffer and whatever the compressor's uninitialised hash
    table holds; neither leaves its buffers.  An input of a single octet is followed by
    another one in memory, which the compressor reads; the input is not in the lowest 8192
    addresses and does not wrap around the address space. *)
Theorem lzf_roundtrip in_data htab input next out buf : bytes_ok input →
  (len input = 1 → next ≠ []) → 8192 <= in_data → in_data + len input < 2 ^ 64 →
  htab_ok htab → len input <= len buf →
  ∃ r, lzf_compress in_data htab input next out = Some r ∧
    ∀ out' n, r = Some (out', n) → 0 < n <= len out ∧ length out' = length out ∧
      lzf_decompress (take (Z.to_nat n) out') buf = Some (input ++ drop (length input) buf, len input).
Proof.
  intros Hin Hnext. destruct (decide (input = [])) as [->|Hne]; [intros; by exists None|]. apply lzf_roundtrip_spec; [done|].
  destruct input as [|x [|y input]]; [done|right|left]; cbn [length] in *; [|lia]. split; [lia|]. by apply Hnext.
Qed.

Lemma lzf_roundtrip_witness :
  let input := replicate 40 97 ++ [98; 99] in
  ∃ r, lzf_compress 8192 (λ i, 8190 + i mod 50) input [] (replicate 30 0) = Some r ∧
    ∀ out' n, r = Some (out', n) → 0 < n <= 30 ∧ length out' = 30%nat ∧
      lzf_decompress (take (Z.to_nat n) out') (replicate 50 7) = Some (input ++ replicate 8 7, 42).
Proof.
  apply (lzf_roundtrip 8192 (λ i, 8190 + i mod 50) (replicate 40 97 ++ [98; 99]) [] (replicate 30 0) (replicate 50 7));
    [by_decision|done|lia|cbn; lia| |cbn; lia].
  intros i. pose proof (Z.mod_pos_bound i 50 ltac:(lia)). cbv beta. lia.
Defined.

(** With an output buffer of 33/32 of the input and 4 octets more,
    lzf_compress never gives up. *)
Theorem lzf_compress_fits in_data htab input next out : bytes_ok input →
  2 <= len input ∨ 1 <= len input ∧ next ≠ [] → 8192 <= in_data → in_data + len input < 2 ^ 64 →
  htab_ok htab → 33 * len input + 128 <= 32 * len out →
  ∃ out' n, lzf_compress in_data htab input next out = Some (Some (out', n)) ∧ 32 * n <= 33 * len input + 31.
Proof.
  intros Hin Hnext Haddr Hend Hh Hout.
  destruct (compress_spec in_data htab input next out Hin Hnext Haddr Hend Hh) as (r & -> & Hr).
  destruct r as [[out' n]|]; [|lia]. destruct Hr as (_ & _ & _ & _ & _ & _ & _ & Hc). by eexists _, _.
Qed.

Lemma lzf_compress_fits_witness :
  lzf_compress 8192 (λ _, 0) [1; 2; 3] [] (replicate 8 0) = Some (Some ([2; 1; 2; 3; 0; 0; 0; 0], 4)) ∧
  ∃ out' n, lzf_compress 8192 (λ _, 0) [1; 2; 3] [] (replicate 8 0) = Some (Some (out', n)) ∧ 32 * n <= 33 * 3 + 31.
Proof.
  split; [by vm_compute|].
  apply (lzf_compress_fits 8192 (λ _, 0) [1; 2; 3] [] (replicate 8 0)); [by_decision|by left; cbn; lia|cbn; lia..| |cbn; lia].
  intros i. lia.
Defined.
