(* ===== verification/Bitops.v ===== *)
(** Bit arrays: src/redis-7.0.0/src/bitops.c.

    The low level routines (population count, first bit, bit fields and their
    overflow rules) and the commands SETBIT, GETBIT, BITOP, BITCOUNT, BITPOS and
    BITFIELD on the value of a key.  A pointer is an offset into a buffer whose
    first byte is at the address [addr]; words are read in the byte order of the
    host.  [None] is an access outside a buffer, a failed assertion or a shift by
    the whole width. *)
From Stdlib Require Import String.
From S2P Require Import Prelude Endian UtilNum UtilText.

(** ** Counting bits *)

Definition bitsinbyte : list Z :=
  [0; 1; 1; 2; 1; 2; 2; 3; 1; 2; 2; 3; 2; 3; 3; 4; 1; 2; 2; 3; 2; 3; 3; 4; 2; 3; 3; 4; 3; 4; 4; 5;
   1; 2; 2; 3; 2; 3; 3; 4; 2; 3; 3; 4; 3; 4; 4; 5; 2; 3; 3; 4; 3; 4; 4; 5; 3; 4; 4; 5; 4; 5; 5; 6;
   1; 2; 2; 3; 2; 3; 3; 4; 2; 3; 3; 4; 3; 4; 4; 5; 2; 3; 3; 4; 3; 4; 4; 5; 3; 4; 4; 5; 4; 5; 5; 6;
   2; 3; 3; 4; 3; 4; 4; 5; 3; 4; 4; 5; 4; 5; 5; 6; 3; 4; 4; 5; 4; 5; 5; 6; 4; 5; 5; 6; 5; 6; 6; 7;
   1; 2; 2; 3; 2; 3; 3; 4; 2; 3; 3; 4; 3; 4; 4; 5; 2; 3; 3; 4; 3; 4; 4; 5; 3; 4; 4; 5; 4; 5; 5; 6;
   2; 3; 3; 4; 3; 4; 4; 5; 3; 4; 4; 5; 4; 5; 5; 6; 3; 4; 4; 5; 4; 5; 5; 6; 4; 5; 5; 6; 5; 6; 6; 7;
   2; 3; 3; 4; 3; 4; 4; 5; 3; 4; 4; 5; 4; 5; 5; 6; 3; 4; 4; 5; 4; 5; 5; 6; 4; 5; 5; 6; 5; 6; 6; 7;
   3; 4; 4; 5; 4; 5; 5; 6; 4; 5; 5; 6; 5; 6; 6; 7; 4; 5; 5; 6; 5; 6; 6; 7; 5; 6; 6; 7; 6; 7; 7; 8].

(** [bits += bitsinbyte[*p++]].  A buffer is too small for the count to overflow
    a long long. *)
Definition count_byte (m : list Z) (p : Z) : option Z :=
  b ← load8 m p; bitsinbyte !! Z.to_nat b.

(** [while((unsigned long)p & 3 && count)]. *)
Fixpoint pop_align (fuel : nat) (addr : Z) (m : list Z) (p count bits : Z) :
    option (Z * Z * Z) :=
  if negb (Z.land (addr + p) 3 =? 0) && negb (count =? 0) then
    match fuel with
    | O => None
    | S fuel => b ← count_byte m p; pop_align fuel addr m (p + 1) (count - 1) (bits + b)
    end
  else Some (p, count, bits).

Definition load_u32 `{Host} (m : list Z) (p : Z) : option Z := host_val <$> load m p 4.
Definition load_u64 `{Host} (m : list Z) (p : Z) : option Z := host_val <$> load m p 8.

(** The counts of the 4-bit groups of a word, and of its bytes. *)
Definition nibble_counts (aux : Z) : Z :=
  let aux := u32 (aux - Z.land (Z.shiftr aux 1) 0x55555555) in
  u32 (Z.land aux 0x33333333 + Z.land (Z.shiftr aux 2) 0x33333333).
Definition byte_counts (aux : Z) : Z :=
  Z.land (u32 (aux + Z.shiftr aux 4)) 0x0F0F0F0F.

(** [while(count>=28)]. *)
Fixpoint pop_blocks `{Host} (fuel : nat) (m : list Z) (p count bits : Z) :
    option (Z * Z * Z) :=
  if count >=? 28 then
    match fuel with
    | O => None
    | S fuel =>
      aux1 ← load_u32 m p;
      aux2 ← load_u32 m (p + 4);
      aux3 ← load_u32 m (p + 8);
      aux4 ← load_u32 m (p + 12);
      aux5 ← load_u32 m (p + 16);
      aux6 ← load_u32 m (p + 20);
      aux7 ← load_u32 m (p + 24);
      let c x := byte_counts (nibble_counts x) in
      let sum := u32 (c aux1 + c aux2 + c aux3 + c aux4 + c aux5 + c aux6 + c aux7) in
      pop_blocks fuel m (p + 28) (count - 28)
        (bits + Z.shiftr (u32 (sum * 0x01010101)) 24)
    end
  else Some (p, count, bits).

(** [while(count--)]. *)
Fixpoint pop_rest (fuel : nat) (m : list Z) (p count bits : Z) : option Z :=
  if count =? 0 then Some bits
  else
    match fuel with
    | O => None
    | S fuel => b ← count_byte m p; pop_rest fuel m (p + 1) (count - 1) (bits + b)
    end.

Definition redisPopcount `{Host} (addr : Z) (m : list Z) (s count : Z) : option Z :=
  let fuel := Z.to_nat count in
  '(p, count, bits) ← pop_align fuel addr m s count 0;
  '(p, count, bits) ← pop_blocks fuel m p count bits;
  pop_rest fuel m p count bits.

(** ** The first bit *)

Definition UCHAR_MAX : Z := 255.
Definition ULONG_MAX : Z := 2 ^ 64 - 1.

(** The bytes before the first word; the flag is [found]. *)
Fixpoint skip_bytes (fuel : nat) (addr : Z) (m : list Z) (skipval c count pos : Z) :
    option (bool * Z * Z * Z) :=
  if negb (Z.land (addr + c) 7 =? 0) && negb (count =? 0) then
    match fuel with
    | O => None
    | S fuel =>
      b ← load8 m c;
      if negb (b =? skipval) then Some (true, c, count, pos)
      else skip_bytes fuel addr m skipval (c + 1) (count - 1) (pos + 8)
    end
  else Some (false, c, count, pos).

(** [while (count >= sizeof( *l))]. *)
Fixpoint skip_words `{Host} (fuel : nat) (m : list Z) (skipval l count pos : Z) :
    option (Z * Z * Z) :=
  if count >=? 8 then
    match fuel with
    | O => None
    | S fuel =>
      w ← load_u64 m l;
      if negb (w =? skipval) then Some (l, count, pos)
      else skip_words fuel m skipval (l + 8) (count - 8) (pos + 64)
    end
  else Some (l, count, pos).

(** [for (j = 0; j < sizeof( *l); j++)]: up to 8 bytes, most significant first. *)
Fixpoint load_word (n : nat) (m : list Z) (c count word : Z) : option Z :=
  match n with
  | O => Some word
  | S n =>
    let word := u64 (Z.shiftl word 8) in
    if negb (count =? 0) then
      b ← load8 m c; load_word n m (c + 1) (count - 1) (Z.lor word b)
    else load_word n m c count word
  end.

(** [while(one)]; running out of bits is the panic at the end. *)
Fixpoint scan_word (fuel : nat) (word bit one pos : Z) : option Z :=
  match fuel with
  | O => None
  | S fuel =>
    if one =? 0 then None
    else if Z.b2z (negb (Z.land one word =? 0)) =? bit then Some pos
    else scan_word fuel word bit (Z.shiftr one 1) (pos + 1)
  end.

Definition redisBitpos `{Host} (addr : Z) (m : list Z) (s count bit : Z) : option Z :=
  let fuel := Z.to_nat count in
  '(found, c, count, pos) ←
    skip_bytes fuel addr m (if bit =? 0 then UCHAR_MAX else 0) s count 0;
  '(l, count, pos) ←
    (if found : bool then Some (c, count, pos)
     else skip_words fuel m (if bit =? 0 then ULONG_MAX else 0) c count pos);
  word ← load_word 8 m l count 0;
  if (bit =? 1) && (word =? 0) then Some (-1)
  else scan_word 65 word bit (u64 (Z.lnot (Z.shiftr ULONG_MAX 1))) pos.

(** ** Bit fields *)

Fixpoint set_field_loop (n : nat) (p : list Z) (offset bits value j : Z) : option (list Z) :=
  match n with
  | O => Some p
  | S n =>
    let bitval := Z.b2z (negb (Z.land value (Z.shiftl 1 (bits - 1 - j)) =? 0)) in
    let byte := Z.shiftr offset 3 in
    let bit := 7 - Z.land offset 7 in
    byteval ← load8 p byte;
    let byteval := Z.land byteval (Z.lnot (Z.shiftl 1 bit)) in
    let byteval := Z.lor byteval (Z.shiftl bitval bit) in
    p ← store8 p byte (Z.land byteval 255);
    set_field_loop n p (u64 (offset + 1)) bits value (j + 1)
  end.
Definition setUnsignedBitfield (p : list Z) (offset bits value : Z) : option (list Z) :=
  set_field_loop (Z.to_nat bits) p offset bits value 0.

Definition setSignedBitfield (p : list Z) (offset bits value : Z) : option (list Z) :=
  setUnsignedBitfield p offset bits (u64 value).

Fixpoint get_field_loop (n : nat) (p : list Z) (offset value : Z) : option Z :=
  match n with
  | O => Some value
  | S n =>
    let byte := Z.shiftr offset 3 in
    let bit := 7 - Z.land offset 7 in
    byteval ← load8 p byte;
    let bitval := Z.land (Z.shiftr byteval bit) 1 in
    get_field_loop n p (u64 (offset + 1)) (Z.lor (u64 (Z.shiftl value 1)) bitval)
  end.
Definition getUnsignedBitfield (p : list Z) (offset bits : Z) : option Z :=
  get_field_loop (Z.to_nat bits) p offset 0.

Definition getSignedBitfield (p : list Z) (offset bits : Z) : option Z :=
  u ← getUnsignedBitfield p offset bits;
  let value := s64 u in
  Some (if (bits <? 64) && negb (Z.land (u64 value) (Z.shiftl 1 (bits - 1)) =? 0)
        then s64 (Z.lor (u64 value) (u64 (Z.shiftl (-1) bits)))
        else value).

(** ** Overflow *)

Inductive owtype := BFOVERFLOW_WRAP | BFOVERFLOW_SAT | BFOVERFLOW_FAIL.

(** [(uint64_t)x << n], undefined for the whole width. *)
Definition shl64 (x n : Z) : option Z :=
  if (0 <=? n) && (n <? 64) then Some (u64 (Z.shiftl x n)) else None.

(** The result and [*limit], which is [None] when it is not written. *)
Definition checkUnsignedBitfieldOverflow (value incr bits : Z) (ow : owtype) :
    option (Z * option Z) :=
  let max := if bits =? 64 then 2 ^ 64 - 1 else Z.shiftl 1 bits - 1 in
  let maxincr := s64 (u64 (max - value)) in
  let minincr := s64 (u64 (- value)) in
  let handle_wrap :=
    mask ← shl64 (2 ^ 64 - 1) bits;
    Some (1, Some (Z.land (u64 (value + incr)) (u64 (Z.lnot mask)))) in
  if (value >? max) || ((incr >? 0) && (incr >? maxincr)) then
    match ow with
    | BFOVERFLOW_WRAP => handle_wrap
    | BFOVERFLOW_SAT => Some (1, Some max)
    | BFOVERFLOW_FAIL => Some (1, None)
    end
  else if (incr <? 0) && (incr <? minincr) then
    match ow with
    | BFOVERFLOW_WRAP => handle_wrap
    | BFOVERFLOW_SAT => Some (-1, Some 0)
    | BFOVERFLOW_FAIL => Some (-1, None)
    end
  else Some (0, None).

(** The subtraction [min-value] is signed and wraps here when it overflows, which
    C leaves undefined; its value is used only when it does not. *)
Definition checkSignedBitfieldOverflow (value incr bits : Z) (ow : owtype) :
    option (Z * option Z) :=
  let max := if bits =? 64 then 2 ^ 63 - 1 else Z.shiftl 1 (bits - 1) - 1 in
  let min := - max - 1 in
  let maxincr := s64 (u64 (max - value)) in
  let minincr := s64 (min - value) in
  let handle_wrap :=
    let msb := Z.shiftl 1 (bits - 1) in
    let c := u64 (u64 value + u64 incr) in
    c ← (if bits <? 64 then
           mask ← shl64 (2 ^ 64 - 1) bits;
           Some (if negb (Z.land c msb =? 0) then Z.lor c mask
                 else Z.land c (u64 (Z.lnot mask)))
         else Some c);
    Some (1, Some (s64 c)) in
  if (value >? max) || (negb (bits =? 64) && (incr >? maxincr)) ||
     ((value >=? 0) && (incr >? 0) && (incr >? maxincr)) then
    match ow with
    | BFOVERFLOW_WRAP => handle_wrap
    | BFOVERFLOW_SAT => Some (1, Some max)
    | BFOVERFLOW_FAIL => Some (1, None)
    end
  else if (value <? min) || (negb (bits =? 64) && (incr <? minincr)) ||
          ((value <? 0) && (incr <? 0) && (incr <? minincr)) then
    match ow with
    | BFOVERFLOW_WRAP => handle_wrap
    | BFOVERFLOW_SAT => Some (-1, Some min)
    | BFOVERFLOW_FAIL => Some (-1, None)
    end
  else Some (0, None).

(** ** Values and replies *)

(** The value of a key: a string, a string stored as an integer, or a value of
    another type. *)
Inductive value := VStr (s : list Z) | VInt (n : Z) | VOther.

Inductive err :=
  | ErrOffset | ErrType | ErrBit | ErrWrongType | ErrSyntax | ErrSingleKey | ErrNotInt
  | ErrBitArg | ErrOverflowType | ErrReadonly.

Inductive reply := RInt (n : Z) | RNull | RErr (e : err) | RArray (l : list reply).

(** What a command does besides changing the value: signalModifiedKey,
    notifyKeyspaceEvent and changes of server.dirty. *)
Inductive effect := SignalModified | Notify (event : string) | Dirty (n : Z).

(** [getDecodedObject] of an integer: its digits. *)
Definition decoded (n : Z) : option (list Z) :=
  '(buf, count) ← ll2string (replicate 32 0) 32 n; load buf 0 count.

(** The bytes of a string object; NULL is the empty string. *)
Definition getObjectReadOnlyString (o : option value) : option (list Z) :=
  match o with
  | Some (VInt n) =>
    '(llbuf, count) ← ll2string (replicate (Z.to_nat LONG_STR_SIZE) 0) LONG_STR_SIZE n;
    load llbuf 0 count
  | Some (VStr s) => Some s
  | Some VOther => None
  | None => Some []
  end.

Definition sdsgrowzero (s : list Z) (n : Z) : list Z :=
  if n <=? len s then s else s ++ replicate (Z.to_nat (n - len s)) 0.

(** The string after padding and [*dirty], or the error of a wrong type. *)
Definition lookupStringForBitCommand (o : option value) (maxbit : Z) :
    option (list Z * bool + err) :=
  let byte := Z.shiftr maxbit 3 in
  match o with
  | None => Some (inl (replicate (Z.to_nat (byte + 1)) 0, true))
  | Some VOther => Some (inr ErrWrongType)
  | Some (VStr s) =>
    let s' := sdsgrowzero s (byte + 1) in Some (inl (s', negb (len s =? len s')))
  | Some (VInt n) =>
    s ← decoded n;
    let s' := sdsgrowzero s (byte + 1) in Some (inl (s', negb (len s =? len s')))
  end.

(** A C string ends at its first NUL. *)
Definition cstr (s : list Z) : list Z := take_while (λ c, negb (c =? 0)) s.

(** [getLongLongFromObjectOrReply] of an argument; a long is as wide. *)
Definition getLongLongFromArgument (o : list Z) : option (option Z) := string2ll o (len o).

Section commands.
Context `{Host}.
(** [mustObeyClient(c)] and [server.proto_max_bulk_len]. *)
Context (obey : bool) (proto_max_bulk_len : Z).

(** The multiplication wraps here when it overflows, which C leaves undefined. *)
Definition getBitOffsetFromArgument (o : list Z) (hash : bool) (bits : Z) :
    option (option Z) :=
  let usehash := bool_decide (head o = Some 35) && hash && (bits >? 0) in
  let p := if usehash then tail o else o in
  r ← string2ll p (len p);
  match r with
  | None => Some None
  | Some loffset =>
    let loffset := if usehash then s64 (loffset * bits) else loffset in
    Some (if (loffset <? 0) ||
             (negb obey && (Z.shiftr loffset 3 >=? proto_max_bulk_len))
          then None else Some loffset)
  end.

(** [Some (sign, bits)] or an error. *)
Definition getBitfieldTypeFromArgument (o : list Z) : option (option (bool * Z)) :=
  let parse (sign : bool) p :=
    r ← string2ll (cstr p) (len (cstr p));
    match r with
    | None => Some None
    | Some llbits =>
      Some (if (llbits <? 1) || (sign && (llbits >? 64)) || (negb sign && (llbits >? 63))
            then None else Some (sign, llbits))
    end in
  match o with
  | 105 :: p => parse true p
  | 117 :: p => parse false p
  | _ => Some None
  end.

(** ** SETBIT and GETBIT *)

Definition setbitCommand (o : option value) (arg_offset arg_on : list Z) :
    option (option value * list effect * reply) :=
  r ← getBitOffsetFromArgument arg_offset false 0;
  match r with
  | None => Some (o, [], RErr ErrOffset)
  | Some bitoffset =>
    r ← getLongLongFromArgument arg_on;
    match r with
    | None => Some (o, [], RErr ErrBit)
    | Some on =>
      if negb (Z.land on (Z.lnot 1) =? 0) then Some (o, [], RErr ErrBit)
      else
        r ← lookupStringForBitCommand o bitoffset;
        match r with
        | inr e => Some (o, [], RErr e)
        | inl (s, dirty) =>
          let byte := Z.shiftr bitoffset 3 in
          byteval ← load8 s byte;
          let bit := 7 - Z.land bitoffset 7 in
          let bitval := Z.land byteval (Z.shiftl 1 bit) in
          let reply := RInt (if bitval =? 0 then 0 else 1) in
          if dirty || negb (Z.b2z (negb (bitval =? 0)) =? on) then
            let byteval := Z.land byteval (Z.lnot (Z.shiftl 1 bit)) in
            let byteval := Z.lor byteval (Z.shiftl (Z.land on 1) bit) in
            s ← store8 s byte byteval;
            Some (Some (VStr s), [SignalModified; Notify "setbit"; Dirty 1], reply)
          else Some (Some (VStr s), [], reply)
        end
    end
  end.

Definition getbitCommand (o : option value) (arg_offset : list Z) : option reply :=
  r ← getBitOffsetFromArgument arg_offset false 0;
  match r, o with
  | None, _ => Some (RErr ErrOffset)
  | Some _, None => Some (RInt 0)
  | Some _, Some VOther => Some (RErr ErrWrongType)
  | Some bitoffset, Some o =>
    let byte := Z.shiftr bitoffset 3 in
    let bit := 7 - Z.land bitoffset 7 in
    bitval ← match o with
      | VStr s =>
        if byte <? len s then b ← load8 s byte; Some (Z.land b (Z.shiftl 1 bit)) else Some 0
      | VInt n =>
        '(llbuf, count) ← ll2string (replicate 32 0) 32 n;
        if byte <? count then b ← load8 llbuf byte; Some (Z.land b (Z.shiftl 1 bit)) else Some 0
      | VOther => None
      end;
    Some (RInt (if bitval =? 0 then 0 else 1))
  end.

(** ** BITOP *)

Inductive bitop := BITOP_AND | BITOP_OR | BITOP_XOR | BITOP_NOT.

Definition bitop_of_name (opname : list Z) : option bitop :=
  let first a b := bool_decide (head opname = Some a) || bool_decide (head opname = Some b) in
  if first 97 65 && strcaseeq (cstr opname) "and" then Some BITOP_AND
  else if first 111 79 && strcaseeq (cstr opname) "or" then Some BITOP_OR
  else if first 120 88 && strcaseeq (cstr opname) "xor" then Some BITOP_XOR
  else if first 110 78 && strcaseeq (cstr opname) "not" then Some BITOP_NOT
  else None.

(** The source strings, NULL as the empty one, with [maxlen] and [minlen]; an
    error when one is no string. *)
Fixpoint bitop_sources (os : list (option value)) (j : nat) (src : list (list Z))
    (maxlen minlen : Z) : option (list (list Z) * Z * Z + err) :=
  match os with
  | [] => Some (inl (src, maxlen, minlen))
  | None :: os => bitop_sources os (S j) (src ++ [[]]) maxlen 0
  | Some VOther :: _ => Some (inr ErrWrongType)
  | Some o :: os =>
    s ← match o with VStr s => Some s | VInt n => decoded n | VOther => None end;
    bitop_sources os (S j) (src ++ [s])
      (if len s >? maxlen then len s else maxlen)
      (if (j =? 0)%nat || (len s <? minlen) then len s else minlen)
  end.

(** [lres[k] op= lp[i][k]] on words at [off]. *)
Definition word_binop (f : Z → Z → Z) (res src : list Z) (off : Z) : option (list Z) :=
  a ← load_u64 res off;
  b ← load_u64 src off;
  store res off (host_bytes 8 (f a b)).

Fixpoint block_sources (f : Z → Z → Z) (res : list Z) (srcs : list (list Z)) (j : Z) :
    option (list Z) :=
  match srcs with
  | [] => Some res
  | s :: srcs =>
    res ← word_binop f res s j;
    res ← word_binop f res s (j + 8);
    res ← word_binop f res s (j + 16);
    res ← word_binop f res s (j + 24);
    block_sources f res srcs j
  end.

Definition word_not (res : list Z) (off : Z) : option (list Z) :=
  a ← load_u64 res off; store res off (host_bytes 8 (u64 (Z.lnot a))).

(** One pass of the fast path over 32 bytes at [j]; [srcs] are the sources after
    the first. *)
Definition bitop_block (op : bitop) (res : list Z) (srcs : list (list Z)) (j : Z) :
    option (list Z) :=
  match op with
  | BITOP_AND => block_sources Z.land res srcs j
  | BITOP_OR => block_sources Z.lor res srcs j
  | BITOP_XOR => block_sources Z.lxor res srcs j
  | BITOP_NOT =>
    res ← word_not res j;
    res ← word_not res (j + 8);
    res ← word_not res (j + 16);
    word_not res (j + 24)
  end.

Fixpoint bitop_fast (fuel : nat) (op : bitop) (res : list Z) (srcs : list (list Z))
    (j minlen : Z) : option (list Z * Z) :=
  if minlen >=? 32 then
    match fuel with
    | O => None
    | S fuel =>
      res ← bitop_block op res srcs j;
      bitop_fast fuel op res srcs (j + 32) (minlen - 32)
    end
  else Some (res, j).

Definition byte_at (s : list Z) (j : Z) : option Z :=
  if len s <=? j then Some 0 else load8 s j.

(** The inner loop over the sources after the first, which stops early. *)
Fixpoint bitop_byte (op : bitop) (output : Z) (srcs : list (list Z)) (j : Z) : option Z :=
  match srcs with
  | [] => Some output
  | s :: srcs =>
    byte ← byte_at s j;
    match op with
    | BITOP_AND =>
      let output := Z.land output byte in
      if output =? 0 then Some output else bitop_byte op output srcs j
    | BITOP_OR =>
      let output := Z.lor output byte in
      if output =? 255 then Some output else bitop_byte op output srcs j
    | BITOP_XOR => bitop_byte op (Z.lxor output byte) srcs j
    | BITOP_NOT => bitop_byte op output srcs j
    end
  end.

(** [for (; j < maxlen; j++)]. *)
Fixpoint bitop_slow (n : nat) (op : bitop) (res : list Z) (src0 : list Z)
    (srcs : list (list Z)) (j : Z) : option (list Z) :=
  match n with
  | O => Some res
  | S n =>
    output ← byte_at src0 j;
    let output := match op with BITOP_NOT => u8 (Z.lnot output) | _ => output end in
    output ← bitop_byte op output srcs j;
    res ← store8 res j output;
    bitop_slow n op res src0 srcs (j + 1)
  end.

(** The result string of [maxlen] bytes.  [aligned] is USE_ALIGNED_ACCESS. *)
Definition bitop_compute (aligned : bool) (op : bitop) (src : list (list Z))
    (maxlen minlen : Z) : option (list Z) :=
  match src with
  | [] => None
  | src0 :: srcs =>
    let res := replicate (Z.to_nat maxlen) 0 in
    '(res, j) ←
      (if negb aligned && (minlen >=? 32) && (len src <=? 16) then
         bs ← load src0 0 minlen;
         res ← store res 0 bs;
         bitop_fast (Z.to_nat minlen) op res srcs 0 minlen
       else Some (res, 0));
    bitop_slow (Z.to_nat (maxlen - j)) op res src0 srcs j
  end.

(** The new value of the target key [target]. *)
Definition bitopCommand (aligned : bool) (opname : list Z) (target : option value)
    (os : list (option value)) : option (option value * list effect * reply) :=
  match bitop_of_name opname with
  | None => Some (target, [], RErr ErrSyntax)
  | Some op =>
    if match op with BITOP_NOT => negb (len os =? 1) | _ => false end
    then Some (target, [], RErr ErrSingleKey)
    else
      r ← bitop_sources os 0 [] 0 0;
      match r with
      | inr e => Some (target, [], RErr e)
      | inl (src, maxlen, minlen) =>
        if negb (maxlen =? 0) then
          res ← bitop_compute aligned op src maxlen minlen;
          Some (Some (VStr res), [SignalModified; Notify "set"; Dirty 1], RInt maxlen)
        else
          match target with
          | Some _ => Some (None, [SignalModified; Notify "del"; Dirty 1], RInt maxlen)
          | None => Some (None, [], RInt maxlen)
          end
      end
  end.

(** ** BITCOUNT *)

(** [BIT] or [BYTE]: whether offsets count bits, or a syntax error. *)
Definition unit_of_argument (arg : option (list Z)) : option bool :=
  match arg with
  | None => Some false
  | Some u => if strcaseeq (cstr u) "bit" then Some true
              else if strcaseeq (cstr u) "byte" then Some false else None
  end.

(** Negative indexes count from the end; both are brought into the string. *)
Definition clamp_range (totlen start end_ : Z) : Z * Z :=
  let start := if start <? 0 then totlen + start else start in
  let end_ := if end_ <? 0 then totlen + end_ else end_ in
  let start := if start <? 0 then 0 else start in
  let end_ := if end_ <? 0 then 0 else end_ in
  (start, if end_ >=? totlen then totlen - 1 else end_).

(** The masks of the bits of the first and of the last byte that are outside of
    a range of bits. *)
Definition first_neg_mask (start : Z) : Z :=
  Z.land (Z.lnot (Z.shiftl 1 (8 - Z.land start 7) - 1)) 255.
Definition last_neg_mask (end_ : Z) : Z := Z.shiftl 1 (7 - Z.land end_ 7) - 1.

(** The byte range and the masks of a range in bits or bytes. *)
Definition byte_range (isbit : bool) (start end_ : Z) : Z * Z * Z * Z :=
  if isbit && (start <=? end_)
  then (Z.shiftr start 3, Z.shiftr end_ 3, first_neg_mask start, last_neg_mask end_)
  else (start, end_, 0, 0).

(** The start, the end and the masks, or the reply that ends the command. *)
Definition bitcount_range (strlen : Z) (args : list (list Z)) :
    option (Z * Z * Z * Z + reply) :=
  match args with
  | [] => Some (inl (0, strlen - 1, 0, 0))
  | arg_start :: arg_end :: ([] | [_]) =>
    if strlen >? Z.shiftr LLONG_MAX 3 then None
    else
      r ← getLongLongFromArgument arg_start;
      match r with
      | None => Some (inr (RErr ErrNotInt))
      | Some start =>
        r ← getLongLongFromArgument arg_end;
        match r with
        | None => Some (inr (RErr ErrNotInt))
        | Some end_ =>
          if (start <? 0) && (end_ <? 0) && (start >? end_) then Some (inr (RInt 0))
          else
            match unit_of_argument (args !! 2%nat) with
            | None => Some (inr (RErr ErrSyntax))
            | Some isbit =>
              let totlen := if isbit then Z.shiftl strlen 3 else strlen in
              let '(start, end_) := clamp_range totlen start end_ in
              Some (inl (byte_range isbit start end_))
            end
        end
      end
  | _ => Some (inr (RErr ErrSyntax))
  end.

(** The last part of the command.  [addr] and [addr2] are the addresses of the
    string and of [firstlast]. *)
Definition bitcount_reply (addr addr2 : Z) (p : list Z) (start end_ first_mask last_mask : Z) :
    option reply :=
  if start >? end_ then Some (RInt 0)
  else
    count ← redisPopcount addr p start (end_ - start + 1);
    if negb (first_mask =? 0) || negb (last_mask =? 0) then
      b0 ← (if negb (first_mask =? 0) then b ← load8 p start; Some (Z.land b first_mask)
            else Some 0);
      b1 ← (if negb (last_mask =? 0) then b ← load8 p end_; Some (Z.land b last_mask)
            else Some 0);
      out ← redisPopcount addr2 [b0; b1] 0 2;
      Some (RInt (count - out))
    else Some (RInt count).

Definition bitcountCommand (addr addr2 : Z) (o : option value) (args : list (list Z)) :
    option reply :=
  match o with
  | None => Some (RInt 0)
  | Some VOther => Some (RErr ErrWrongType)
  | Some _ =>
    p ← getObjectReadOnlyString o;
    r ← bitcount_range (len p) args;
    match r with
    | inr r => Some r
    | inl (start, end_, first_mask, last_mask) =>
      bitcount_reply addr addr2 p start end_ first_mask last_mask
    end
  end.

(** ** BITPOS *)

Definition bitpos_range (strlen : Z) (args : list (list Z)) :
    option (bool * (Z * Z * Z * Z) + err) :=
  match args with
  | [] => Some (inl (false, (0, strlen - 1, 0, 0)))
  | arg_start :: ([] | [_] | [_; _]) =>
    if strlen >? Z.shiftr LLONG_MAX 3 then None
    else
      r ← getLongLongFromArgument arg_start;
      match r with
      | None => Some (inr ErrNotInt)
      | Some start =>
        match unit_of_argument (args !! 2%nat) with
        | None => Some (inr ErrSyntax)
        | Some isbit =>
          r ← (match args !! 1%nat with
            | Some arg_end =>
              r ← getLongLongFromArgument arg_end; Some (option_map (λ e : Z, (e, true)) r)
            | None =>
              Some (Some (if isbit then Z.shiftl strlen 3 + 7 else strlen - 1, false))
            end : option (option (Z * bool)));
          match r with
          | None => Some (inr ErrNotInt)
          | Some (end_, end_given) =>
            let totlen := if isbit then Z.shiftl strlen 3 else strlen in
            let '(start, end_) := clamp_range totlen start end_ in
            Some (inl (end_given, byte_range isbit start end_))
          end
        end
      end
  | _ => Some (inr ErrSyntax)
  end.

(** [tmpchar] with the bits of [mask] made such that they are not found. *)
Definition mask_byte (bit b mask : Z) : Z :=
  if negb (bit =? 0) then Z.land b (u8 (Z.lnot mask)) else Z.lor b mask.

(** The search, with the values of [pos], [start] and [bytes] at [result]. *)
Definition bitpos_search (addr addr2 : Z) (p : list Z) (bit start end_ first_mask last_mask : Z) :
    option (Z * Z * Z) :=
  let bytes := end_ - start + 1 in
  r ← (if negb (first_mask =? 0) then
         b ← load8 p start;
         let tmpchar := mask_byte bit b first_mask in
         let tmpchar :=
           if negb (last_mask =? 0) && (bytes =? 1) then mask_byte bit tmpchar last_mask
           else tmpchar in
         pos ← redisBitpos addr2 [tmpchar] 0 1 bit;
         Some (if (bytes =? 1) || (negb (pos =? -1) && negb (pos =? 8))
               then inl (pos, start, bytes) else inr (start + 1, bytes - 1))
       else Some (inr (start, bytes)));
  match r with
  | inl res => Some res
  | inr (start, bytes) =>
    let curbytes := bytes - (if negb (last_mask =? 0) then 1 else 0) in
    r ← (if curbytes >? 0 then
           pos ← redisBitpos addr p start curbytes bit;
           Some (if (bytes =? curbytes) ||
                    (negb (pos =? -1) && negb (pos =? Z.shiftl curbytes 3))
                 then inl (pos, start, bytes) else inr (start + curbytes, bytes - curbytes))
         else Some (inr (start, bytes)));
    match r with
    | inl res => Some res
    | inr (start, bytes) =>
      b ← load8 p end_;
      pos ← redisBitpos addr2 [mask_byte bit b last_mask] 0 1 bit;
      Some (pos, start, bytes)
    end
  end.

Definition bitposCommand (addr addr2 : Z) (o : option value) (arg_bit : list Z)
    (args : list (list Z)) : option reply :=
  r ← getLongLongFromArgument arg_bit;
  match r with
  | None => Some (RErr ErrNotInt)
  | Some bit =>
    if negb (bit =? 0) && negb (bit =? 1) then Some (RErr ErrBitArg)
    else
      match o with
      | None => Some (RInt (if negb (bit =? 0) then -1 else 0))
      | Some VOther => Some (RErr ErrWrongType)
      | Some _ =>
        p ← getObjectReadOnlyString o;
        r ← bitpos_range (len p) args;
        match r with
        | inr e => Some (RErr e)
        | inl (end_given, (start, end_, first_mask, last_mask)) =>
          if start >? end_ then Some (RInt (-1))
          else
            '(pos, start, bytes) ← bitpos_search addr addr2 p bit start end_ first_mask last_mask;
            Some (RInt (if end_given && (bit =? 0) && (pos =? Z.shiftl bytes 3) then -1
                        else if negb (pos =? -1) then pos + Z.shiftl start 3 else pos))
        end
      end
  end.

(** ** BITFIELD *)

Inductive bitfield_opcode := BITFIELDOP_GET | BITFIELDOP_SET | BITFIELDOP_INCRBY.

Record bitfieldOp := mk_op {
  op_offset : Z; op_i64 : Z; op_code : bitfield_opcode; op_ow : owtype; op_bits : Z;
  op_sign : bool
}.

(** The type and the offset argument of an operation. *)
Definition type_and_offset (ty off : list Z) : option (bool * Z * Z + err) :=
  r ← getBitfieldTypeFromArgument ty;
  match r with
  | None => Some (inr ErrType)
  | Some (sign, bits) =>
    r ← getBitOffsetFromArgument off true bits;
    match r with
    | None => Some (inr ErrOffset)
    | Some bitoffset => Some (inl (sign, bits, bitoffset))
    end
  end.

(** The loop over the arguments: the operations, whether all of them are reads,
    and the farthest bit written. *)
Fixpoint bitfield_parse (args : list (list Z)) (ow : owtype) (ops : list bitfieldOp)
    (readonly : bool) (highest : Z) : option (list bitfieldOp * bool * Z + err) :=
  let write code ty off arg rest :=
    r ← type_and_offset ty off;
    match r with
    | inr e => Some (inr e)
    | inl (sign, bits, bitoffset) =>
      let last := u64 (bitoffset + bits - 1) in
      let highest := if highest <? last then last else highest in
      r ← getLongLongFromArgument arg;
      match r with
      | None => Some (inr ErrNotInt)
      | Some i64 =>
        bitfield_parse rest ow (ops ++ [mk_op bitoffset i64 code ow bits sign]) false highest
      end
    end in
  match args with
  | [] => Some (inl (ops, readonly, highest))
  | subcmd :: rest0 =>
    let named := strcaseeq (cstr subcmd) in
    match rest0 with
    | ty :: rest1 =>
      if named "get"%string && (len rest0 >=? 2) then
        match rest1 with
        | off :: rest2 =>
          r ← type_and_offset ty off;
          match r with
          | inr e => Some (inr e)
          | inl (sign, bits, bitoffset) =>
            bitfield_parse rest2 ow
              (ops ++ [mk_op bitoffset 0 BITFIELDOP_GET ow bits sign]) readonly highest
          end
        | [] => None
        end
      else if named "set"%string && (len rest0 >=? 3) then
        match rest1 with
        | off :: arg :: rest3 => write BITFIELDOP_SET ty off arg rest3
        | _ => None
        end
      else if named "incrby"%string && (len rest0 >=? 3) then
        match rest1 with
        | off :: arg :: rest3 => write BITFIELDOP_INCRBY ty off arg rest3
        | _ => None
        end
      else if named "overflow"%string && (len rest0 >=? 1) then
        if strcaseeq (cstr ty) "wrap" then bitfield_parse rest1 BFOVERFLOW_WRAP ops readonly highest
        else if strcaseeq (cstr ty) "sat" then bitfield_parse rest1 BFOVERFLOW_SAT ops readonly highest
        else if strcaseeq (cstr ty) "fail" then bitfield_parse rest1 BFOVERFLOW_FAIL ops readonly highest
        else Some (inr ErrOverflowType)
      else Some (inr ErrSyntax)
    | [] => Some (inr ErrSyntax)
    end
  end.

(** SET and INCRBY on the string [s]: the string, the reply, and whether
    [changes] is incremented.  [wrapped] is read only when it was written, or
    else when its value does not matter. *)
Definition bitfield_write (s : list Z) (dirty : bool) (op : bitfieldOp) :
    option (list Z * reply * bool) :=
  oldval ← (if op_sign op then getSignedBitfield s (op_offset op) (op_bits op)
            else getUnsignedBitfield s (op_offset op) (op_bits op));
  let incr := match op_code op with BITFIELDOP_INCRBY => true | _ => false end in
  let base := if incr then oldval else if op_sign op then op_i64 op else u64 (op_i64 op) in
  let sum := if op_sign op then s64 (oldval + op_i64 op) else u64 (oldval + op_i64 op) in
  '(overflow, wrapped) ←
    (if op_sign op
     then checkSignedBitfieldOverflow base (if incr then op_i64 op else 0) (op_bits op) (op_ow op)
     else checkUnsignedBitfieldOverflow base (if incr then op_i64 op else 0) (op_bits op) (op_ow op));
  let newval := if negb (overflow =? 0) then wrapped else Some (if incr then sum else base) in
  if negb (negb (overflow =? 0) && match op_ow op with BFOVERFLOW_FAIL => true | _ => false end) then
    newval ← newval;
    let retval := if incr then newval else oldval in
    s ← (if op_sign op then setSignedBitfield s (op_offset op) (op_bits op) newval
         else setUnsignedBitfield s (op_offset op) (op_bits op) newval);
    Some (s, RInt (s64 retval), dirty || negb (oldval =? newval))
  else Some (s, RNull, false).

(** [for (i = 0; i < 9; i++)]: copies what there is of 9 bytes. *)
Fixpoint copy_loop (n : nat) (i : Z) (buf src : list Z) (byte : Z) : option (list Z) :=
  match n with
  | O => Some buf
  | S n =>
    if u64 (i + byte) >=? len src then Some buf
    else
      b ← load8 src (u64 (i + byte));
      buf ← store8 buf i b;
      copy_loop n (i + 1) buf src byte
  end.

Definition bitfield_get (o : option value) (op : bitfieldOp) : option reply :=
  src ← getObjectReadOnlyString o;
  let byte := Z.shiftr (op_offset op) 3 in
  buf ← copy_loop 9 0 (replicate 9 0) src byte;
  let off := u64 (op_offset op - byte * 8) in
  val ← (if op_sign op then getSignedBitfield buf off (op_bits op)
         else getUnsignedBitfield buf off (op_bits op));
  Some (RInt (s64 val)).

(** The loop over the operations; the value, the replies and [changes]. *)
Fixpoint bitfield_run (ops : list bitfieldOp) (dirty : bool) (o : option value)
    (replies : list reply) (changes : Z) : option (option value * list reply * Z) :=
  match ops with
  | [] => Some (o, replies, changes)
  | op :: ops =>
    match op_code op with
    | BITFIELDOP_GET =>
      r ← bitfield_get o op;
      bitfield_run ops dirty o (replies ++ [r]) changes
    | _ =>
      match o with
      | Some (VStr s) =>
        '(s, r, changed) ← bitfield_write s dirty op;
        bitfield_run ops dirty (Some (VStr s)) (replies ++ [r])
          (if changed : bool then changes + 1 else changes)
      | _ => None
      end
    end
  end.

(** [ro] is BITFIELD_FLAG_READONLY. *)
Definition bitfieldGeneric (ro : bool) (o : option value) (args : list (list Z)) :
    option (option value * list effect * reply) :=
  r ← bitfield_parse args BFOVERFLOW_WRAP [] true 0;
  match r with
  | inr e => Some (o, [], RErr e)
  | inl (ops, readonly, highest) =>
    r ← (if readonly : bool then
           Some match o with Some VOther => inr ErrWrongType | _ => inl (o, false) end
         else if ro then Some (inr ErrReadonly)
         else
           r ← lookupStringForBitCommand o highest;
           Some match r with inl (s, dirty) => inl (Some (VStr s), dirty) | inr e => inr e end);
    match r with
    | inr e => Some (o, [], RErr e)
    | inl (o, dirty) =>
      '(o, replies, changes) ← bitfield_run ops dirty o [] 0;
      Some (o,
        if negb (changes =? 0) then [SignalModified; Notify "setbit"; Dirty changes] else [],
        RArray replies)
    end
  end.

Definition bitfieldCommand := bitfieldGeneric false.
Definition bitfieldroCommand := bitfieldGeneric true.

End commands.
