(* ===== verification/BitopsSpec.v ===== *)
(** The low level routines of bitops.c against their meaning on the list of bits
    of a string, the most significant bit of each byte first: population count,
    first bit, bit fields and the overflow rules. *)
From S2P Require Import Prelude Bits Endian Bitops.

(** ** Bits of a string *)

Definition byte_bits (b : Z) : list bool := (λ k, Z.testbit b (7 - k)) <$> [0; 1; 2; 3; 4; 5; 6; 7].
Definition bits_of (s : list Z) : list bool := s ≫= byte_bits.

(** [n] bytes from [p] on. *)
Definition sub (m : list Z) (p n : Z) : list Z := take (Z.to_nat n) (drop (Z.to_nat p) m).

Definition ones (l : list bool) : Z := len (filter Is_true l).

Lemma bits_of_app a b : bits_of (a ++ b) = bits_of a ++ bits_of b.
Proof. apply bind_app. Qed.

Lemma length_bits_of s : len (bits_of s) = 8 * len s.
Proof.
  induction s as [|b s IH]; [done|]. change (bits_of (b :: s)) with (byte_bits b ++ bits_of s).
  rewrite length_app, Nat2Z.inj_add, IH. cbn [length]. unfold byte_bits. rewrite length_fmap. cbn. lia.
Qed.

Lemma ones_app a b : ones (a ++ b) = ones a + ones b.
Proof. unfold ones. rewrite filter_app, length_app. lia. Qed.

Lemma sub_nil m p : sub m p 0 = [].
Proof. done. Qed.

Lemma length_sub m p n : 0 <= p → 0 <= n → p + n <= len m → len (sub m p n) = n.
Proof. intros. unfold sub. len_lia. Qed.

Lemma sub_app m p n k : 0 <= p → 0 <= n → 0 <= k → sub m p (n + k) = sub m p n ++ sub m (p + n) k.
Proof.
  intros. unfold sub. rewrite !Z2Nat.inj_add, <- drop_drop by done.
  by rewrite take_take_drop.
Qed.

Lemma sub_ok m p n : bytes_ok m → bytes_ok (sub m p n).
Proof. intros Hm. by apply Forall_take, Forall_drop. Qed.

Lemma load_sub m p n : 0 <= p → 0 <= n → p + n <= len m → load m p n = Some (sub m p n).
Proof. intros. by apply load_spec. Qed.

Lemma sub_one m p : bytes_ok m → 0 <= p < len m →
  ∃ b, load8 m p = Some b ∧ is_byte b ∧ sub m p 1 = [b].
Proof.
  intros Hm Hp. unfold load8, sub. if_true.
  destruct (lookup_lt_is_Some_2 m (Z.to_nat p)) as [b Hb]; [lia|]. exists b. split; [done|].
  split; [by eapply Forall_lookup_1|]. by rewrite (drop_S m b).
Qed.

Lemma sub_cons m p n : bytes_ok m → 0 <= p → 0 < n → p + n <= len m →
  ∃ b, load8 m p = Some b ∧ is_byte b ∧ sub m p n = b :: sub m (p + 1) (n - 1).
Proof.
  intros Hm Hp Hn Hl. destruct (sub_one m p) as (b & Hb & Hby & Hs); [done|lia|].
  exists b. do 2 (split; [done|]). replace n with (1 + (n - 1)) at 1 by lia.
  by rewrite sub_app, Hs by lia.
Qed.

(** ** Population count *)

Lemma bitsinbyte_spec b : is_byte b → bitsinbyte !! Z.to_nat b = Some (ones (byte_bits b)).
Proof.
  intros Hb. pose proof (forall_below (λ b, bool_decide (bitsinbyte !! Z.to_nat b =
    Some (ones (byte_bits b)))) 256 ltac:(by vm_compute) b Hb) as Ht.
  by apply bool_decide_eq_true_1 in Ht.
Qed.

Lemma count_byte_spec m p b : load8 m p = Some b → is_byte b →
  count_byte m p = Some (ones (byte_bits b)).
Proof. intros Hb Hby. unfold count_byte. rewrite Hb. mnext. by apply bitsinbyte_spec. Qed.

Lemma ones_cons b s : ones (bits_of (b :: s)) = ones (byte_bits b) + ones (bits_of s).
Proof. apply ones_app. Qed.

Lemma pop_rest_spec fuel m p count bits : bytes_ok m → 0 <= p → 0 <= count →
  p + count <= len m → (Z.to_nat count <= fuel)%nat →
  pop_rest fuel m p count bits = Some (bits + ones (bits_of (sub m p count))).
Proof.
  intros Hm. revert p count bits. induction fuel as [|fuel IH]; intros p count bits Hp Hc Hl Hf; cbn [pop_rest].
  - assert (count = 0) as -> by lia. by rewrite Z.add_0_r.
  - destruct (Z.eqb_spec count 0) as [->|Hne]; [by rewrite Z.add_0_r|].
    destruct (sub_cons m p count) as (b & Hb & Hby & ->); [done|lia..|].
    rewrite (count_byte_spec m p b) by done. mnext. rewrite IH by lia. rewrite ones_cons. f_equal. lia.
Qed.

Lemma pop_align_spec fuel addr m p count bits : bytes_ok m → 0 <= p → 0 <= count →
  p + count <= len m → (Z.to_nat count <= fuel)%nat →
  ∃ p' c' bits', pop_align fuel addr m p count bits = Some (p', c', bits') ∧
    p <= p' ∧ 0 <= c' ∧ p' + c' = p + count ∧
    bits' + ones (bits_of (sub m p' c')) = bits + ones (bits_of (sub m p count)).
Proof.
  intros Hm. revert p count bits. induction fuel as [|fuel IH]; intros p count bits Hp Hc Hl Hf; cbn [pop_align].
  - assert (count = 0) as -> by lia. rewrite andb_false_r. eexists _, _, _. split; [done|]. lia.
  - destruct (negb (Z.land (addr + p) 3 =? 0)); cbn [andb]; [|eexists _, _, _; split; [done|]; lia].
    destruct (Z.eqb_spec count 0) as [->|Hne]; cbn [negb]; [eexists _, _, _; split; [done|]; lia|].
    destruct (sub_cons m p count) as (b & Hb & Hby & ->); [done|lia..|].
    rewrite (count_byte_spec m p b) by done. mnext.
    destruct (IH (p + 1) (count - 1) (bits + ones (byte_bits b))) as (p' & c' & bits' & -> & ? & ? & ? & Hs); [lia..|].
    exists p', c', bits'. rewrite ones_cons. split; [done|]. lia.
Qed.

(** *** Words as lanes of bytes *)

Lemma le_val_sub {A} (f g : A → Z) l :
  le_val (f <$> l) - le_val (g <$> l) = le_val ((λ x, f x - g x) <$> l).
Proof. induction l as [|x l IH]; [done|]. rewrite !fmap_cons, !le_val_cons. lia. Qed.
Lemma le_val_add {A} (f g : A → Z) l :
  le_val (f <$> l) + le_val (g <$> l) = le_val ((λ x, f x + g x) <$> l).
Proof. induction l as [|x l IH]; [done|]. rewrite !fmap_cons, !le_val_cons. lia. Qed.

(** A shift under a mask that keeps what comes from another byte out works on
    each byte. *)
Lemma land_shift_lanes k m n bs : bytes_ok bs → 0 <= k <= 8 → 0 <= m < 2 ^ (8 - k) → n = length bs →
  Z.land (Z.shiftr (le_val bs) k) (le_val (replicate n m)) =
  le_val ((λ b, Z.land (Z.shiftr b k) m) <$> bs).
Proof.
  intros Hbs Hk Hm ->.
  assert (2 ^ (8 - k) <= 2 ^ 8) by (apply Z.pow_le_mono_r; lia).
  assert (Hmb : is_byte m) by (unfold is_byte; lia).
  assert (bytes_ok ((λ b, Z.land (Z.shiftr b k) m) <$> bs)).
  { apply Forall_fmap, Forall_forall. intros b _. unfold is_byte. cbn.
    change 256 with (2 ^ 8). apply bits_below; [apply Z.land_nonneg; right; lia|lia|].
    intros i Hi. rewrite Z.land_spec, (bits_above 8 m) by lia. apply andb_false_r. }
  bits i. rewrite Z.land_spec, Z.shiftr_spec by lia.
  rewrite !testbit_le_val by (done || lia || by apply Forall_replicate).
  rewrite list_lookup_fmap.
  destruct (decide (i mod 8 < 8 - k)) as [Hlow|Hhigh].
  - replace ((i + k) / 8) with (i / 8) by div_lia. replace ((i + k) mod 8) with (i mod 8 + k) by div_lia.
    destruct (bs !! Z.to_nat (i / 8)) as [b|] eqn:Hb; cbn [fmap option_fmap option_map default].
    + rewrite lookup_replicate_2 by by eapply lookup_lt_Some. cbn.
      by rewrite Z.land_spec, Z.shiftr_spec by (apply Z.mod_pos_bound; lia).
    + done.
  - assert (Z.testbit m (i mod 8) = false) as Hf by (apply (bits_above (8 - k)); lia).
    destruct (bs !! Z.to_nat (i / 8)) as [b|] eqn:Hb; cbn [fmap option_fmap option_map default].
    + rewrite lookup_replicate_2 by by eapply lookup_lt_Some. cbn. by rewrite Z.land_spec, Hf, !andb_false_r.
    + apply lookup_ge_None_1 in Hb. rewrite (lookup_ge_None_2 (replicate _ _)); [cbn; apply andb_false_r|].
      by rewrite length_replicate.
Qed.

(** What happens to one byte. *)
Definition pair_lane (b : Z) : Z := b - Z.land (Z.shiftr b 1) 0x55.
Definition nibble_lane (b : Z) : Z :=
  Z.land (pair_lane b) 0x33 + Z.land (Z.shiftr (pair_lane b) 2) 0x33.

Definition nib_ok (b : Z) : bool :=
  (0 <=? pair_lane b) && (pair_lane b <? 256) && (0 <=? nibble_lane b) && (nibble_lane b <=? 0x44) &&
  (nibble_lane b mod 16 <=? 4) &&
  ((nibble_lane b + nibble_lane b / 16) mod 16 =? ones (byte_bits b)).

Lemma lanes_ok b : is_byte b → 0 <= pair_lane b < 256 ∧ 0 <= nibble_lane b <= 0x44 ∧
  nibble_lane b mod 16 <= 4 ∧ (nibble_lane b + nibble_lane b / 16) mod 16 = ones (byte_bits b).
Proof.
  intros Hb. pose proof (forall_below nib_ok 256 ltac:(by vm_compute) b Hb) as Hn.
  unfold nib_ok in Hn. to_prop. lia.
Qed.

Lemma nibble_counts_lanes bs : bytes_ok bs → length bs = 4%nat →
  nibble_counts (le_val bs) = le_val (nibble_lane <$> bs).
Proof.
  intros Hbs Hl. unfold nibble_counts.
  assert (Hpair : bytes_ok (pair_lane <$> bs)).
  { apply Forall_fmap. eapply Forall_impl; [exact Hbs|]. intros b Hb. apply lanes_ok in Hb. cbn. unfold is_byte. lia. }
  assert (Hnib : bytes_ok (nibble_lane <$> bs)).
  { apply Forall_fmap. eapply Forall_impl; [exact Hbs|]. intros b Hb. apply lanes_ok in Hb. cbn. unfold is_byte. lia. }
  change 0x55555555 with (le_val (replicate 4 0x55)). change 0x33333333 with (le_val (replicate 4 0x33)).
  rewrite land_shift_lanes by (done || lia).
  assert (le_val bs - le_val ((λ b, Z.land (Z.shiftr b 1) 0x55) <$> bs) = le_val (pair_lane <$> bs)) as ->.
  { rewrite <- (list_fmap_id bs) at 1. by rewrite le_val_sub. }
  rewrite (wrapu_small 32 (le_val (pair_lane <$> bs))).
  2: { pose proof (le_val_range _ Hpair) as Hr. rewrite length_fmap, Hl in Hr. exact Hr. }
  rewrite <- (Z.shiftr_0_r (le_val (pair_lane <$> bs))) at 1.
  rewrite !land_shift_lanes by (done || lia || by rewrite length_fmap).
  rewrite <- !list_fmap_compose, le_val_add.
  rewrite wrapu_small; [done|]. pose proof (le_val_range _ Hnib) as Hr. rewrite length_fmap, Hl in Hr.
  exact Hr.
Qed.

Lemma byte_counts_lanes bs : bytes_ok bs → length bs = 4%nat →
  byte_counts (le_val (nibble_lane <$> bs)) = le_val ((λ b, ones (byte_bits b)) <$> bs).
Proof.
  intros Hbs Hl. destruct bs as [|b0 [|b1 [|b2 [|b3 [|]]]]]; try done. clear Hl.
  repeat match goal with
  | H : bytes_ok (_ :: _) |- _ => apply Forall_cons in H as [?%lanes_ok H]
  end.
  unfold byte_counts. rewrite !fmap_cons, fmap_nil.
  set (n0 := nibble_lane b0) in *. set (n1 := nibble_lane b1) in *.
  set (n2 := nibble_lane b2) in *. set (n3 := nibble_lane b3) in *.
  assert (le_val [n0; n1; n2; n3] + Z.shiftr (le_val [n0; n1; n2; n3]) 4 =
    le_val [n0 + n0 / 16 + 16 * (n1 mod 16); n1 + n1 / 16 + 16 * (n2 mod 16);
            n2 + n2 / 16 + 16 * (n3 mod 16); n3 + n3 / 16]) as ->.
  { rewrite Z.shiftr_div_pow2 by lia. change (2 ^ 4) with 16. unfold le_val. div_lia. }
  rewrite wrapu_small by (unfold le_val; div_lia).
  change 0x0F0F0F0F with (le_val (replicate 4 15)). rewrite <- (Z.shiftr_0_r (le_val [_; _; _; _])).
  assert (Hmod : ∀ n k, Z.land (Z.shiftr (n + 16 * k) 0) 15 = n mod 16).
  { intros n k. rewrite Z.shiftr_0_r. rewrite (Z.land_ones _ 4) by lia. change (2 ^ 4) with 16.
    rewrite Z.add_comm, Z.mul_comm. by rewrite Z.add_comm, Z_mod_plus_full. }
  rewrite land_shift_lanes; [|repeat constructor; unfold is_byte; div_lia|lia|lia|done].
  rewrite !fmap_cons, fmap_nil, !Hmod. rewrite <- (Z.add_0_r (n3 + n3 / 16)).
  change (n3 + n3 / 16 + 0) with (n3 + n3 / 16 + 16 * 0). rewrite Hmod. repeat f_equal; lia.
Qed.

Lemma ones_byte b : 0 <= ones (byte_bits b) <= 8.
Proof.
  unfold ones. pose proof (length_filter Is_true (byte_bits b)) as Hl.
  change (length (byte_bits b)) with 8%nat in Hl. lia.
Qed.

(** The bytes of the word the two steps give are the counts of the bytes. *)
Lemma word_counts `{Host} bs : bytes_ok bs → length bs = 4%nat →
  ∃ x0 x1 x2 x3, byte_counts (nibble_counts (host_val bs)) = x0 + 256 * x1 + 65536 * x2 + 16777216 * x3 ∧
    0 <= x0 <= 8 ∧ 0 <= x1 <= 8 ∧ 0 <= x2 <= 8 ∧ 0 <= x3 <= 8 ∧
    x0 + x1 + x2 + x3 = ones (bits_of bs).
Proof.
  intros Hbs Hl.
  assert (∃ cs, host_val bs = le_val cs ∧ bytes_ok cs ∧ length cs = 4%nat ∧ ones (bits_of cs) = ones (bits_of bs))
    as (cs & -> & Hcs & Hlc & <-).
  { unfold host_val. destruct big_endian; [|by exists bs]. exists (reverse bs).
    split; [done|]. split; [by apply Forall_reverse|]. rewrite length_reverse. split; [done|].
    destruct bs as [|b0 [|b1 [|b2 [|b3 [|]]]]]; try done.
    change (reverse [b0; b1; b2; b3]) with [b3; b2; b1; b0]. rewrite !ones_cons. lia. }
  rewrite nibble_counts_lanes, byte_counts_lanes by done.
  destruct cs as [|b0 [|b1 [|b2 [|b3 [|]]]]]; try done.
  exists (ones (byte_bits b0)), (ones (byte_bits b1)), (ones (byte_bits b2)), (ones (byte_bits b3)).
  pose proof (ones_byte b0). pose proof (ones_byte b1). pose proof (ones_byte b2). pose proof (ones_byte b3).
  split; [unfold le_val; cbn [fmap list_fmap]; lia|]. do 4 (split; [done|]).
  rewrite !ones_cons. change (ones (bits_of [])) with 0. lia.
Qed.

Lemma lane_sum a0 a1 a2 a3 : 0 <= a0 <= 56 → 0 <= a1 <= 56 → 0 <= a2 <= 56 → 0 <= a3 <= 56 →
  Z.shiftr (u32 (u32 (a0 + 256 * a1 + 65536 * a2 + 16777216 * a3) * 0x01010101)) 24 =
  a0 + a1 + a2 + a3.
Proof.
  intros. rewrite (wrapu_small 32 (_ + _)) by lia. rewrite Z.shiftr_div_pow2 by lia.
  unfold wrapu. change (2 ^ 24) with 16777216. change (2 ^ 32) with 4294967296.
  change 0x01010101 with 16843009. div_lia.
Qed.

Lemma load_u32_sub `{Host} m p : 0 <= p → p + 4 <= len m → load_u32 m p = Some (host_val (sub m p 4)).
Proof. intros. unfold load_u32. by rewrite load_sub by lia. Qed.

Lemma pop_blocks_spec `{Host} fuel m p count bits : bytes_ok m → 0 <= p → 0 <= count →
  p + count <= len m → (Z.to_nat count <= fuel)%nat →
  ∃ p' c' bits', pop_blocks fuel m p count bits = Some (p', c', bits') ∧
    p <= p' ∧ 0 <= c' ∧ p' + c' = p + count ∧
    bits' + ones (bits_of (sub m p' c')) = bits + ones (bits_of (sub m p count)).
Proof.
  intros Hm. revert p count bits. induction fuel as [|fuel IH]; intros p count bits Hp Hc Hl Hf; cbn [pop_blocks].
  { if_false. eexists _, _, _. split; [done|]. lia. }
  destruct (Z.geb_spec count 28) as [Hge|Hlt]; [|eexists _, _, _; split; [done|]; lia].
  rewrite !load_u32_sub by lia. do 7 mnext.
  assert (Hw : ∀ q, p <= q → q + 4 <= p + count → ∃ x0 x1 x2 x3,
    byte_counts (nibble_counts (host_val (sub m q 4))) = x0 + 256 * x1 + 65536 * x2 + 16777216 * x3 ∧
    0 <= x0 <= 8 ∧ 0 <= x1 <= 8 ∧ 0 <= x2 <= 8 ∧ 0 <= x3 <= 8 ∧
    x0 + x1 + x2 + x3 = ones (bits_of (sub m q 4))).
  { intros q Hq1 Hq2. apply word_counts; [by apply sub_ok|]. pose proof (length_sub m q 4). lia. }
  destruct (Hw p) as (a0 & a1 & a2 & a3 & -> & ? & ? & ? & ? & Ha); [lia..|].
  destruct (Hw (p + 4)) as (b0 & b1 & b2 & b3 & -> & ? & ? & ? & ? & Hb); [lia..|].
  destruct (Hw (p + 8)) as (c0 & c1 & c2 & c3 & -> & ? & ? & ? & ? & Hc'); [lia..|].
  destruct (Hw (p + 12)) as (d0 & d1 & d2 & d3 & -> & ? & ? & ? & ? & Hd); [lia..|].
  destruct (Hw (p + 16)) as (e0 & e1 & e2 & e3 & -> & ? & ? & ? & ? & He); [lia..|].
  destruct (Hw (p + 20)) as (f0 & f1 & f2 & f3 & -> & ? & ? & ? & ? & Hf'); [lia..|].
  destruct (Hw (p + 24)) as (g0 & g1 & g2 & g3 & -> & ? & ? & ? & ? & Hg); [lia..|].
  match goal with |- context [u32 ?s * 0x01010101] =>
    replace s with ((a0 + b0 + c0 + d0 + e0 + f0 + g0) + 256 * (a1 + b1 + c1 + d1 + e1 + f1 + g1) +
      65536 * (a2 + b2 + c2 + d2 + e2 + f2 + g2) + 16777216 * (a3 + b3 + c3 + d3 + e3 + f3 + g3)) by lia
  end.
  rewrite lane_sum by lia.
  match goal with |- context [pop_blocks fuel m _ _ ?b] =>
    destruct (IH (p + 28) (count - 28) b) as (p' & c' & bits' & -> & ? & ? & ? & Hs); [lia..|]
  end.
  exists p', c', bits'. split; [done|]. do 3 (split; [lia|]). rewrite Hs.
  replace (sub m p count) with (sub m p 4 ++ sub m (p + 4) 4 ++ sub m (p + 8) 4 ++ sub m (p + 12) 4 ++
    sub m (p + 16) 4 ++ sub m (p + 20) 4 ++ sub m (p + 24) 4 ++ sub m (p + 28) (count - 28)).
  - rewrite !bits_of_app, !ones_app. lia.
  - replace count with (4 + (4 + (4 + (4 + (4 + (4 + (4 + (count - 28)))))))) at 2 by lia.
    do 7 (rewrite sub_app by lia). rewrite <- !Z.add_assoc. done.
Qed.

Lemma popcount_spec `{Host} addr m s count : bytes_ok m → 0 <= s → 0 <= count → s + count <= len m →
  redisPopcount addr m s count = Some (ones (bits_of (sub m s count))).
Proof.
  intros Hm Hs Hc Hl. unfold redisPopcount.
  destruct (pop_align_spec (Z.to_nat count) addr m s count 0) as (p1 & c1 & b1 & -> & ? & ? & ? & Hb1); [done|lia..|].
  mnext. destruct (pop_blocks_spec (Z.to_nat count) m p1 c1 b1) as (p2 & c2 & b2 & -> & ? & ? & ? & Hb2); [done|lia..|].
  mnext. rewrite pop_rest_spec by (done || lia). f_equal. lia.
Qed.

(** ** The first bit *)

Fixpoint first_bit (b : bool) (l : list bool) : option Z :=
  match l with
  | [] => None
  | x :: l => if Bool.eqb x b then Some 0 else Z.succ <$> first_bit b l
  end.

Lemma first_bit_app b l1 l2 : first_bit b (l1 ++ l2) =
  match first_bit b l1 with Some i => Some i | None => Z.add (len l1) <$> first_bit b l2 end.
Proof.
  induction l1 as [|x l1 IH]; cbn [app first_bit].
  - destruct (first_bit b l2); [|done]. cbn. done.
  - destruct (Bool.eqb x b); [done|]. rewrite IH. destruct (first_bit b l1); [done|]. cbn.
    destruct (first_bit b l2); cbn; [|done]. f_equal. lia.
Qed.

Lemma first_bit_range b l i : first_bit b l = Some i → 0 <= i < len l.
Proof.
  revert i. induction l as [|x l IH]; intros i; cbn [first_bit]; [done|].
  destruct (Bool.eqb x b); [intros [= <-]; cbn; lia|].
  destruct (first_bit b l) as [k|]; [|done]. intros [= <-]. specialize (IH k eq_refl). cbn [length]. lia.
Qed.

Lemma first_bit_replicate b c n : (0 < n)%nat →
  first_bit b (replicate n c) = if Bool.eqb c b then Some 0 else None.
Proof.
  intros Hn. destruct (Bool.eqb c b) eqn:E.
  - destruct n; [lia|]. cbn. by rewrite E.
  - clear Hn. induction n; cbn; [done|]. by rewrite E, IHn.
Qed.

(** The byte that has no bit [b]. *)
Definition skip_byte (b : bool) : Z := if b then 0 else 255.

Lemma first_bit_byte b x : is_byte x → first_bit b (byte_bits x) = None ↔ x = skip_byte b.
Proof.
  intros Hx. pose proof (forall_below (λ x, Bool.eqb (bool_decide (first_bit b (byte_bits x) = None))
    (x =? skip_byte b)) 256 ltac:(by destruct b; vm_compute) x Hx) as Ht.
  apply Bool.eqb_prop in Ht. rewrite <- Z.eqb_eq, <- Ht. symmetry. apply bool_decide_eq_true.
Qed.

Lemma first_bit_bytes b s : bytes_ok s → first_bit b (bits_of s) = None ↔ s = replicate (length s) (skip_byte b).
Proof.
  induction 1 as [|x s Hx _ IH]; [done|]. change (bits_of (x :: s)) with (byte_bits x ++ bits_of s).
  rewrite first_bit_app. cbn [length replicate]. pose proof (first_bit_byte b x Hx) as Hxb. split.
  - destruct (first_bit b (byte_bits x)); [done|]. destruct (first_bit b (bits_of s)); [done|].
    intros _. f_equal; [by apply Hxb|by apply IH].
  - intros Heq. injection Heq as Hx1 Hs1. apply Hxb in Hx1 as ->. apply IH in Hs1 as ->. done.
Qed.

Lemma skip_bytes_spec fuel addr m b c count pos : bytes_ok m → 0 <= c → 0 <= count →
  c + count <= len m → (Z.to_nat count <= fuel)%nat →
  ∃ found c' count', skip_bytes fuel addr m (skip_byte b) c count pos =
      Some (found, c', count', pos + 8 * (c' - c)) ∧
    c <= c' ∧ 0 <= count' ∧ c' + count' = c + count ∧
    first_bit b (bits_of (sub m c (c' - c))) = None ∧
    (found = true → 0 < count' ∧ first_bit b (bits_of (sub m c' 1)) ≠ None).
Proof.
  intros Hm. revert c count pos. induction fuel as [|fuel IH]; intros c count pos Hc Hn Hl Hf; cbn [skip_bytes].
  { assert (count = 0) as -> by lia. rewrite andb_false_r. exists false, c, 0.
    rewrite Z.sub_diag, Z.add_0_r. split; [done|]. do 3 (split; [lia|]). done. }
  assert (Hstop : ∃ found c' count', Some (false, c, count, pos) = Some (found, c', count', pos + 8 * (c' - c)) ∧
    c <= c' ∧ 0 <= count' ∧ c' + count' = c + count ∧ first_bit b (bits_of (sub m c (c' - c))) = None ∧
    (found = true → 0 < count' ∧ first_bit b (bits_of (sub m c' 1)) ≠ None)).
  { exists false, c, count. rewrite Z.sub_diag, Z.add_0_r. split; [done|]. do 3 (split; [lia|]). done. }
  destruct (negb (Z.land (addr + c) 7 =? 0)); cbn [andb]; [|done].
  destruct (Z.eqb_spec count 0) as [->|Hne]; cbn [negb]; [done|].
  destruct (sub_one m c) as (x & Hx & Hby & Hs1); [done|lia|]. rewrite Hx. mnext.
  destruct (Z.eqb_spec x (skip_byte b)) as [Hskip|Hskip]; cbn [negb].
  - destruct (IH (c + 1) (count - 1) (pos + 8)) as (found & c' & count' & -> & ? & ? & ? & Hfb & Hfd); [lia..|].
    exists found, c', count'. split; [do 2 f_equal; lia|]. do 3 (split; [lia|]). split; [|done].
    replace (c' - c) with (1 + (c' - (c + 1))) by lia. rewrite sub_app, bits_of_app, first_bit_app, Hs1 by lia.
    change (bits_of [x]) with (byte_bits x ++ []). rewrite app_nil_r.
    rewrite (proj2 (first_bit_byte b x Hby) Hskip), Hfb. done.
  - exists true, c, count. rewrite Z.sub_diag, Z.add_0_r. split; [done|]. do 3 (split; [lia|]).
    split; [done|]. intros _. split; [lia|]. rewrite Hs1.
    change (bits_of [x]) with (byte_bits x ++ []). rewrite app_nil_r. by rewrite first_bit_byte.
Qed.

Lemma host_val_inj `{Host} bs cs : bytes_ok bs → bytes_ok cs → length bs = length cs →
  host_val bs = host_val cs → bs = cs.
Proof.
  assert (Hle : ∀ bs cs, bytes_ok bs → bytes_ok cs → length bs = length cs → le_val bs = le_val cs → bs = cs).
  { intros b1 b2 H1 H2 Hl Heq. rewrite <- (le_bytes_val b1), <- (le_bytes_val b2) by done. by rewrite Hl, Heq. }
  intros H1 H2 Hl. unfold host_val. destruct big_endian; intros Heq; [|by apply Hle].
  apply (inj reverse), Hle; [by apply Forall_reverse..| |done]. by rewrite !length_reverse.
Qed.

Lemma skip_word_val `{Host} (b : bool) :
  host_val (replicate 8 (skip_byte b)) = if b then 0 else ULONG_MAX.
Proof. unfold host_val. destruct big_endian, b; done. Qed.

Lemma skip_words_spec `{Host} fuel m (b : bool) c count pos : bytes_ok m → 0 <= c → 0 <= count →
  c + count <= len m → (Z.to_nat count <= fuel)%nat →
  ∃ c' count', skip_words fuel m (if b then 0 else ULONG_MAX) c count pos =
      Some (c', count', pos + 8 * (c' - c)) ∧
    c <= c' ∧ 0 <= count' ∧ c' + count' = c + count ∧
    first_bit b (bits_of (sub m c (c' - c))) = None ∧
    (count' < 8 ∨ first_bit b (bits_of (sub m c' 8)) ≠ None).
Proof.
  intros Hm. revert c count pos. induction fuel as [|fuel IH]; intros c count pos Hc Hn Hl Hf; cbn [skip_words].
  { if_false. exists c, count. rewrite Z.sub_diag, Z.add_0_r. split; [done|]. do 3 (split; [lia|]).
    split; [done|]. lia. }
  destruct (Z.geb_spec count 8) as [Hge|Hlt].
  2: { exists c, count. rewrite Z.sub_diag, Z.add_0_r. split; [done|]. do 3 (split; [lia|]). split; [done|]. lia. }
  unfold load_u64. rewrite load_sub by lia. mstep. rewrite <- skip_word_val.
  assert (Hok : bytes_ok (sub m c 8)) by by apply sub_ok.
  pose proof (length_sub m c 8 Hc ltac:(lia) ltac:(lia)) as Hlen.
  assert (Hiff : host_val (sub m c 8) = host_val (replicate 8 (skip_byte b)) ↔
    first_bit b (bits_of (sub m c 8)) = None).
  { rewrite first_bit_bytes by done. replace (length (sub m c 8)) with 8%nat by lia. split.
    - apply host_val_inj; [done| |rewrite length_replicate; lia]. apply Forall_replicate. by destruct b.
    - by intros ->. }
  destruct (Z.eqb_spec (host_val (sub m c 8)) (host_val (replicate 8 (skip_byte b)))) as [Heq|Hne]; cbn [negb].
  - rewrite skip_word_val.
    destruct (IH (c + 8) (count - 8) (pos + 64)) as (c' & count' & -> & ? & ? & ? & Hfb & Hend); [lia..|].
    exists c', count'. split; [do 2 f_equal; lia|]. do 3 (split; [lia|]). split; [|done].
    replace (c' - c) with (8 + (c' - (c + 8))) by lia. rewrite sub_app, bits_of_app, first_bit_app by lia.
    apply Hiff in Heq as ->. by rewrite Hfb.
  - exists c, count. rewrite Z.sub_diag, Z.add_0_r. split; [done|]. do 3 (split; [lia|]). split; [done|].
    right. by rewrite <- Hiff.
Qed.

(** The [n] low bits of a word, the most significant first. *)
Fixpoint wbits (n : nat) (w : Z) : list bool :=
  match n with
  | O => []
  | S n => Z.testbit w (Z.of_nat n) :: wbits n w
  end.

Lemma length_wbits n w : length (wbits n w) = n.
Proof. induction n; cbn; auto. Qed.

Lemma wbits_ext n w w' : (∀ i, 0 <= i < Z.of_nat n → Z.testbit w i = Z.testbit w' i) → wbits n w = wbits n w'.
Proof. induction n as [|n IH]; intros Hi; cbn; [done|]. rewrite Hi, IH by (intros; try apply Hi; lia). done. Qed.

Lemma wbits_byte b : wbits 8 b = byte_bits b.
Proof. done. Qed.

Lemma wbits_app n k w : wbits (n + k) w = wbits n (Z.shiftr w (Z.of_nat k)) ++ wbits k w.
Proof.
  induction n as [|n IH]; [done|]. cbn [Nat.add wbits app]. rewrite <- IH. f_equal.
  rewrite Z.shiftr_spec by lia. f_equal. lia.
Qed.

Lemma wbits_push n word x : is_byte x → (n + 8 <= 64)%nat →
  wbits (n + 8) (Z.lor (u64 (Z.shiftl word 8)) x) = wbits n word ++ byte_bits x.
Proof.
  intros Hx Hn. rewrite wbits_app. change (byte_bits x) with (wbits 8 x). f_equal; apply wbits_ext; intros i Hi.
  - rewrite Z.shiftr_spec, Z.lor_spec, testbit_wrapu, Z.shiftl_spec by lia.
    rewrite (bits_above 8 x) by (done || lia). rewrite orb_false_r.
    replace (i + Z.of_nat 8 <? 64) with true by lia. cbn [andb]. f_equal. lia.
  - rewrite Z.lor_spec, testbit_wrapu, Z.shiftl_spec by lia.
    rewrite (Z.testbit_neg_r word) by lia. by rewrite andb_false_r.
Qed.

(** [n] bytes, with zeros for those that are not there. *)
Definition padded (n : nat) (s : list Z) : list Z := take n s ++ replicate (n - length s) 0.

Lemma lor_u64 x y : 0 <= x < 2 ^ 64 → 0 <= y < 2 ^ 64 → 0 <= Z.lor x y < 2 ^ 64.
Proof.
  intros Hx Hy. apply bits_below; [apply Z.lor_nonneg; lia|lia|]. intros i Hi.
  by rewrite Z.lor_spec, !(bits_above 64).
Qed.

Lemma load_word_spec n m c count word : bytes_ok m → 0 <= c → 0 <= count → c + count <= len m →
  (n <= 8)%nat → 0 <= word < 2 ^ 64 →
  ∃ w, load_word n m c count word = Some w ∧ 0 <= w < 2 ^ 64 ∧
    wbits 64 w = wbits (64 - 8 * n) word ++ bits_of (padded n (sub m c count)).
Proof.
  intros Hm. revert c count word. induction n as [|n IH]; intros c count word Hc Hn Hl Hle Hw; cbn [load_word].
  { exists word. split; [done|]. split; [done|]. unfold padded. rewrite take_0.
    change (bits_of ([] ++ replicate (0 - _) 0)) with (@nil bool). by rewrite app_nil_r. }
  assert (Hpush : ∀ x, is_byte x → wbits (64 - 8 * n) (Z.lor (u64 (Z.shiftl word 8)) x) =
    wbits (64 - 8 * S n) word ++ byte_bits x).
  { intros x Hx. replace (64 - 8 * n)%nat with (64 - 8 * S n + 8)%nat by lia. apply wbits_push; [done|lia]. }
  assert (Hu : 0 <= u64 (Z.shiftl word 8) < 2 ^ 64) by (apply wrapu_range; lia).
  destruct (Z.eqb_spec count 0) as [->|Hne]; cbn [negb].
  - destruct (IH c 0 (u64 (Z.shiftl word 8))) as (w & -> & Hwr & Hwb); [lia..|done|]. exists w.
    split; [done|]. split; [done|]. rewrite Hwb, <- (Z.lor_0_r (u64 (Z.shiftl word 8))), Hpush
      by (unfold is_byte; lia).
    rewrite <- app_assoc, sub_nil. unfold padded. rewrite !take_nil, !Nat.sub_0_r. done.
  - destruct (sub_cons m c count) as (x & -> & Hby & Hs); [done|lia..|]. mnext.
    destruct (IH (c + 1) (count - 1) (Z.lor (u64 (Z.shiftl word 8)) x)) as (w & -> & Hwr & Hwb); [lia..| |].
    { apply lor_u64; [done|]. unfold is_byte in Hby. lia. }
    exists w. split; [done|]. split; [done|]. rewrite Hwb, Hpush, <- app_assoc by done. f_equal. rewrite Hs. done.
Qed.

Lemma scan_word_spec fuel k word (b : bool) pos : (k < fuel)%nat →
  scan_word fuel word (Z.b2z b) (if (k =? 0)%nat then 0 else 2 ^ (Z.of_nat k - 1)) pos =
  Z.add pos <$> first_bit b (wbits k word).
Proof.
  revert k pos. induction fuel as [|fuel IH]; intros k pos Hf; [lia|]. cbn [scan_word].
  destruct k as [|k]; cbn [Nat.eqb wbits first_bit]; [done|].
  assert (Hpow : 0 < 2 ^ (Z.of_nat (S k) - 1)) by lia.
  replace (2 ^ (Z.of_nat (S k) - 1) =? 0) with false by lia.
  replace (Z.of_nat (S k) - 1) with (Z.of_nat k) by lia.
  rewrite Z.land_comm, land_pow2, negb_involutive by lia.
  assert ((Z.b2z (Z.testbit word (Z.of_nat k)) =? Z.b2z b) = Bool.eqb (Z.testbit word (Z.of_nat k)) b) as ->
    by by destruct (Z.testbit word (Z.of_nat k)), b.
  destruct (Bool.eqb (Z.testbit word (Z.of_nat k)) b); [mstep; by rewrite Z.add_0_r|].
  assert (Z.shiftr (2 ^ Z.of_nat k) 1 = if (k =? 0)%nat then 0 else 2 ^ (Z.of_nat k - 1)) as ->.
  { destruct k as [|k]; [done|]. cbn [Nat.eqb]. rewrite Z.shiftr_div_pow2, <- Z.pow_sub_r by lia. done. }
  rewrite IH by lia. destruct (first_bit b (wbits k word)); cbn; [|done]. f_equal. lia.
Qed.

Lemma wbits_zero w : 0 <= w < 2 ^ 64 → first_bit true (wbits 64 w) = None ↔ w = 0.
Proof.
  intros Hw. assert (Hgen : ∀ n, first_bit true (wbits n w) = None ↔ ∀ i, 0 <= i < Z.of_nat n → Z.testbit w i = false).
  { induction n as [|n IH]; cbn [wbits first_bit]; [split; [lia|done]|].
    destruct (Z.testbit w (Z.of_nat n)) eqn:E; cbn [Bool.eqb].
    - split; [done|]. intros Hi. rewrite Hi in E by lia. done.
    - rewrite fmap_None, IH. split; [|intros Hi i ?; apply Hi; lia].
      intros Hi i ?. destruct (decide (i = Z.of_nat n)) as [->|]; [done|]. apply Hi. lia. }
  rewrite Hgen. split; [|intros ->; intros; apply Z.bits_0].
  intros Hi. bits i. rewrite Z.bits_0. destruct (decide (i < 64)); [apply Hi; lia|].
  apply (bits_above 64); lia.
Qed.

(** What redisBitpos is to return for the bits [l]. *)
Definition bitpos_of (b : bool) (l : list bool) : Z :=
  default (if b then -1 else len l) (first_bit b l).

(** The last word decides, when it has the bit or there is nothing after it. *)
Lemma last_word b m l count : bytes_ok m → 0 <= l → 0 <= count → l + count <= len m →
  (count < 8 ∨ first_bit b (bits_of (sub m l (Z.min count 8))) ≠ None) →
  first_bit b (bits_of (padded 8 (sub m l count))) =
  match first_bit b (bits_of (sub m l count)) with
  | Some i => Some i
  | None => if b then None else Some (8 * count)
  end.
Proof.
  intros Hm Hl Hc Hlen Hend. pose proof (length_sub m l count Hl Hc Hlen) as Hls.
  destruct (decide (count < 8)) as [Hlt|Hge].
  - unfold padded. rewrite take_ge by lia. rewrite bits_of_app, first_bit_app.
    destruct (first_bit b (bits_of (sub m l count))); [done|].
    replace (bits_of (replicate (8 - length (sub m l count)) 0)) with
      (replicate (8 * (8 - length (sub m l count))) false).
    + rewrite first_bit_replicate by lia. destruct b; cbn [Bool.eqb]; [done|]. mstep.
      f_equal. rewrite length_bits_of. lia.
    + generalize (8 - length (sub m l count))%nat. intros k. induction k as [|k IH]; [done|].
      replace (8 * S k)%nat with (8 + 8 * k)%nat by lia. rewrite replicate_add. cbn [replicate app].
      change (bits_of (0 :: replicate k 0)) with (byte_bits 0 ++ bits_of (replicate k 0)). by rewrite <- IH.
  - destruct Hend as [|Hend]; [lia|]. rewrite Z.min_r in Hend by lia.
    unfold padded. replace (8 - length (sub m l count))%nat with 0%nat by lia. rewrite app_nil_r.
    assert (take 8 (sub m l count) = sub m l 8) as ->.
    { unfold sub. rewrite take_take. f_equal. lia. }
    replace count with (8 + (count - 8)) by lia. rewrite sub_app, bits_of_app, first_bit_app by lia.
    by destruct (first_bit b (bits_of (sub m l 8))).
Qed.

Lemma bitpos_spec `{Host} addr m s count (b : bool) : bytes_ok m → 0 <= s → 0 <= count →
  s + count <= len m →
  redisBitpos addr m s count (Z.b2z b) = Some (bitpos_of b (bits_of (sub m s count))).
Proof.
  intros Hm Hs Hc Hl. unfold redisBitpos.
  replace (if Z.b2z b =? 0 then UCHAR_MAX else 0) with (skip_byte b) by by destruct b.
  destruct (skip_bytes_spec (Z.to_nat count) addr m b s count 0)
    as (found & c1 & n1 & -> & ? & ? & ? & Hf1 & Hfound); [done|lia..|]. mnext.
  assert (∃ c2 n2, (if found then Some (c1, n1, 0 + 8 * (c1 - s)) else
      skip_words (Z.to_nat count) m (if Z.b2z b =? 0 then ULONG_MAX else 0) c1 n1 (0 + 8 * (c1 - s))) =
      Some (c2, n2, 8 * (c2 - s)) ∧ c1 <= c2 ∧ 0 <= n2 ∧ c2 + n2 = s + count ∧
      first_bit b (bits_of (sub m c1 (c2 - c1))) = None ∧
      (n2 < 8 ∨ first_bit b (bits_of (sub m c2 (Z.min n2 8))) ≠ None)) as (c2 & n2 & -> & ? & ? & ? & Hf2 & Hend).
  { destruct found.
    - exists c1, n1. rewrite Z.sub_diag. split; [done|]. do 3 (split; [lia|]). split; [done|]. right.
      destruct Hfound as [? Hb]; [done|]. replace (Z.min n1 8) with (1 + (Z.min n1 8 - 1)) by lia.
      rewrite sub_app, bits_of_app, first_bit_app by lia. by destruct (first_bit b (bits_of (sub m c1 1))).
    - replace (if Z.b2z b =? 0 then ULONG_MAX else 0) with (if b then 0 else ULONG_MAX) by by destruct b.
      destruct (skip_words_spec (Z.to_nat count) m b c1 n1 (0 + 8 * (c1 - s)))
        as (c2 & n2 & -> & ? & ? & ? & Hf2 & Hend); [done|lia..|].
      exists c2, n2. split; [do 2 f_equal; lia|]. do 3 (split; [lia|]). split; [done|].
      destruct (decide (n2 < 8)); [by left|right]. rewrite Z.min_r by lia. destruct Hend; [lia|done]. }
  mnext. destruct (load_word_spec 8 m c2 n2 0) as (w & -> & Hw & Hwb); [done|lia..|]. mnext.
  change (wbits (64 - 8 * 8) 0 ++ ?l) with l in Hwb.
  assert (Hbits : bits_of (sub m s count) = bits_of (sub m s (c2 - s)) ++ bits_of (sub m c2 n2)).
  { rewrite <- bits_of_app. f_equal. replace count with ((c2 - s) + n2) by lia. rewrite sub_app by lia.
    do 2 f_equal. lia. }
  assert (Hskip : first_bit b (bits_of (sub m s (c2 - s))) = None).
  { replace (c2 - s) with ((c1 - s) + (c2 - c1)) by lia. rewrite sub_app, bits_of_app, first_bit_app, Hf1 by lia.
    replace (s + (c1 - s)) with c1 by lia. by rewrite Hf2. }
  pose proof (last_word b m c2 n2 Hm ltac:(lia) ltac:(lia) ltac:(lia) Hend) as Hlast.
  rewrite <- Hwb in Hlast. unfold bitpos_of. rewrite length_bits_of, length_sub, Hbits, first_bit_app, Hskip by lia.
  rewrite length_bits_of, length_sub by lia.
  change (u64 (Z.lnot (Z.shiftr ULONG_MAX 1))) with (2 ^ (Z.of_nat 64 - 1)).
  rewrite (scan_word_spec 65 64) by lia. rewrite Hlast.
  destruct b; cbn [Z.b2z Z.eqb Pos.eqb andb].
  - destruct (Z.eqb_spec w 0) as [Hz|Hz].
    + apply wbits_zero in Hz; [|done]. rewrite Hz in Hlast. by destruct (first_bit true (bits_of (sub m c2 n2))).
    + rewrite <- wbits_zero, Hlast in Hz by done. by destruct (first_bit true (bits_of (sub m c2 n2))).
  - destruct (first_bit false (bits_of (sub m c2 n2))); [done|]. cbn. f_equal. lia.
Qed.
