(* ===== verification/Bitfields.v ===== *)
(** Bit fields (bitops.c): writing a field changes exactly its bits, reading it
    gives the number back, and the overflow checks say when a sum leaves the
    field and what to store then. *)
From S2P Require Import Prelude Bits Bitops BitopsSpec.

(** ** Single bits *)

Lemma bits_lookup s i : 0 <= i →
  bits_of s !! Z.to_nat i = (λ b, Z.testbit b (7 - i mod 8)) <$> s !! Z.to_nat (i / 8).
Proof.
  revert i. induction s as [|b s IH]; intros i Hi; [done|].
  change (bits_of (b :: s)) with (byte_bits b ++ bits_of s). destruct (decide (i < 8)) as [Hlt|Hge].
  - rewrite (Z.div_small i 8), (Z.mod_small i 8) by lia.
    assert (i = 0 ∨ i = 1 ∨ i = 2 ∨ i = 3 ∨ i = 4 ∨ i = 5 ∨ i = 6 ∨ i = 7) as Hc by lia.
    repeat destruct Hc as [->|Hc]; try done. by subst i.
  - rewrite lookup_app_r by (cbn; lia). change (length (byte_bits b)) with 8%nat.
    replace (Z.to_nat i - 8)%nat with (Z.to_nat (i - 8)) by lia. rewrite IH by lia.
    replace (Z.to_nat (i / 8)) with (S (Z.to_nat ((i - 8) / 8))) by div_lia. cbn [lookup list_lookup].
    by replace ((i - 8) mod 8) with (i mod 8) by div_lia.
Qed.

Definition set_bit (x bit : Z) (v : bool) : Z :=
  Z.lor (Z.land x (Z.lnot (Z.shiftl 1 bit))) (Z.shiftl (Z.b2z v) bit).

Lemma testbit_set_bit x bit v i : 0 <= bit → 0 <= i →
  Z.testbit (set_bit x bit v) i = if i =? bit then v else Z.testbit x i.
Proof.
  intros Hb Hi. unfold set_bit. rewrite Z.lor_spec, Z.land_spec, Z.lnot_spec, !Z.shiftl_spec by lia.
  destruct (Z.eqb_spec i bit) as [->|Hne].
  - rewrite Z.sub_diag. cbn [Z.testbit Pos.testbit negb]. rewrite andb_false_r. by destruct v.
  - assert (Hone : ∀ w, Z.testbit (Z.b2z w) (i - bit) = false).
    { intros w. destruct (decide (i < bit)); [by apply Z.testbit_neg_r; lia|].
      apply (bits_above 1); [destruct w; cbn; lia|lia]. }
    rewrite (Hone v). change 1 with (Z.b2z true). rewrite (Hone true). cbn [negb].
    by rewrite andb_true_r, orb_false_r.
Qed.

Lemma set_bit_byte x bit v : is_byte x → 0 <= bit < 8 → is_byte (set_bit x bit v).
Proof.
  intros Hx Hb. unfold is_byte. change 256 with (2 ^ 8).
  apply bits_below; [|lia|].
  - unfold set_bit. apply Z.lor_nonneg. split; [|apply Z.shiftl_nonneg; destruct v; cbn; lia].
    apply Z.land_nonneg. left. apply Hx.
  - intros i Hi. rewrite testbit_set_bit by lia. destruct (Z.eqb_spec i bit); [lia|].
    by apply (bits_above 8).
Qed.

Lemma bits_set_bit p off x v : 0 <= off → p !! Z.to_nat (off / 8) = Some x →
  bits_of (<[Z.to_nat (off / 8) := set_bit x (7 - off mod 8) v]> p) = <[Z.to_nat off := v]> (bits_of p).
Proof.
  intros Hoff Hx. apply list_eq. intros n. pose proof (Nat2Z.id n) as Hn. rewrite <- Hn.
  set (i := Z.of_nat n). assert (0 <= i) as Hi by lia. clearbody i. clear Hn n.
  assert (off mod 8 < 8 ∧ 0 <= off mod 8 ∧ i mod 8 < 8 ∧ 0 <= i mod 8) as (? & ? & ? & ?) by div_lia.
  destruct (decide (i / 8 = off / 8)) as [Heq|Hne].
  - rewrite bits_lookup, Heq by done. rewrite list_lookup_insert_eq by by eapply lookup_lt_Some.
    cbn [fmap option_fmap option_map]. rewrite testbit_set_bit by lia.
    destruct (decide (i = off)) as [->|Hio].
    + rewrite list_lookup_insert_eq.
      * by rewrite Z.eqb_refl.
      * pose proof (length_bits_of p). apply lookup_lt_Some in Hx. div_lia.
    + rewrite list_lookup_insert_ne by lia. rewrite bits_lookup, Heq, Hx by done. cbn.
      destruct (Z.eqb_spec (7 - i mod 8) (7 - off mod 8)); [div_lia|done].
  - rewrite bits_lookup, list_lookup_insert_ne by (done || div_lia).
    rewrite list_lookup_insert_ne by (intros ?; apply Hne; f_equal; lia). by rewrite bits_lookup.
Qed.

Lemma shiftr_3 x : Z.shiftr x 3 = x / 8.
Proof. by rewrite Z.shiftr_div_pow2 by lia. Qed.

(** The step of writing bit [off]. *)
Lemma store_bit p off v : bytes_ok p → 0 <= off < 8 * len p →
  ∃ x, load8 p (Z.shiftr off 3) = Some x ∧ is_byte x ∧
    Z.testbit x (7 - off mod 8) = default false (bits_of p !! Z.to_nat off) ∧
    ∃ p', store8 p (Z.shiftr off 3) (Z.land (set_bit x (7 - Z.land off 7) v) 255) = Some p' ∧
      store8 p (Z.shiftr off 3) (set_bit x (7 - Z.land off 7) v) = Some p' ∧
      bytes_ok p' ∧ length p' = length p ∧ bits_of p' = <[Z.to_nat off := v]> (bits_of p).
Proof.
  intros Hp Hoff. rewrite shiftr_3, land_7. assert (0 <= off / 8 < len p) as Hb by div_lia.
  destruct (lookup_lt_is_Some_2 p (Z.to_nat (off / 8))) as [x Hx]; [lia|].
  assert (is_byte x) as Hxb by by eapply Forall_lookup_1.
  exists x. unfold load8. replace (0 <=? off / 8) with true by lia. do 2 (split; [done|]).
  split; [by rewrite bits_lookup, Hx by lia|].
  assert (is_byte (set_bit x (7 - off mod 8) v)) as Hs by (apply set_bit_byte; [done|div_lia]).
  rewrite land_255, !store8_insert by done. unfold wrapu. change (2 ^ 8) with 256.
  rewrite Zmod_mod, Z.mod_small by done. eexists. do 2 (split; [done|]). split; [by apply Forall_insert|].
  split; [apply length_insert|]. apply bits_set_bit; [lia|done].
Qed.

(** ** Fields *)

Lemma take_drop_insert {A} (l : list A) k n x : (k < n)%nat →
  drop n (<[k := x]> l) = drop n l.
Proof. intros. by apply drop_insert_lt. Qed.

Lemma set_field_loop_spec n p off bits value : bytes_ok p → 0 <= off →
  off + Z.of_nat n <= 8 * len p → 8 * len p < 2 ^ 64 → (Z.of_nat n <= bits)%Z →
  ∃ p', set_field_loop n p off bits value (bits - Z.of_nat n) = Some p' ∧ bytes_ok p' ∧
    length p' = length p ∧
    bits_of p' = take (Z.to_nat off) (bits_of p) ++ wbits n value ++ drop (Z.to_nat off + n) (bits_of p).
Proof.
  revert p off. induction n as [|n IH]; intros p off Hp Hoff Hl Hsz Hn.
  { exists p. split; [done|]. do 2 (split; [done|]). rewrite Nat.add_0_r. cbn [wbits app]. by rewrite take_drop. }
  cbn [set_field_loop].
  replace (bits - 1 - (bits - Z.of_nat (S n))) with (Z.of_nat n) by lia.
  rewrite (Z.shiftl_1_l (Z.of_nat n)), land_pow2, negb_involutive by lia.
  destruct (store_bit p off (Z.testbit value (Z.of_nat n))) as (x & -> & _ & _ & p1 & Hst & _ & Hp1 & Hlen & Hb); [done|lia|].
  mnext. unfold set_bit in Hst. rewrite Hst. mnext.
  rewrite (wrapu_small 64 (off + 1)) by lia.
  replace (bits - Z.of_nat (S n) + 1) with (bits - Z.of_nat n) by lia.
  destruct (IH p1 (off + 1)) as (p' & -> & Hp' & Hlen' & Hb'); [done|lia|rewrite Hlen; lia|by rewrite Hlen|lia|].
  exists p'. split; [done|]. split; [done|]. split; [lia|]. rewrite Hb', Hb.
  pose proof (length_bits_of p) as Hlb.
  assert (Hlt : (Z.to_nat off < length (bits_of p))%nat) by lia.
  replace (Z.to_nat (off + 1)) with (S (Z.to_nat off)) by lia.
  rewrite (take_S_r _ _ (Z.testbit value (Z.of_nat n))) by by apply list_lookup_insert_eq.
  rewrite take_insert_ge by lia. rewrite drop_insert_lt by lia.
  rewrite <- app_assoc. cbn [wbits app]. by replace (S (Z.to_nat off) + n)%nat with (Z.to_nat off + S n)%nat by lia.
Qed.

Lemma set_field_spec p off bits value : bytes_ok p → 0 <= off → 0 <= bits →
  off + bits <= 8 * len p → 8 * len p < 2 ^ 64 →
  ∃ p', setUnsignedBitfield p off bits value = Some p' ∧ bytes_ok p' ∧ length p' = length p ∧
    bits_of p' = take (Z.to_nat off) (bits_of p) ++ wbits (Z.to_nat bits) value ++
      drop (Z.to_nat (off + bits)) (bits_of p).
Proof.
  intros Hp Hoff Hb Hl Hsz. unfold setUnsignedBitfield.
  destruct (set_field_loop_spec (Z.to_nat bits) p off bits value) as (p' & Hs & ? & ? & Hbits); [done|lia..|].
  rewrite Z2Nat.id, Z.sub_diag in Hs by lia. rewrite <- Z2Nat.inj_add in Hbits by lia. eauto.
Qed.

(** The number a list of bits stands for. *)
Definition push_bit (v : Z) (b : bool) : Z := 2 * v + Z.b2z b.
Definition bits_val (l : list bool) : Z := foldl push_bit 0 l.

Lemma get_field_loop_spec n p off v : bytes_ok p → 0 <= off → off + Z.of_nat n <= 8 * len p →
  8 * len p < 2 ^ 64 → 0 <= v < 2 ^ (64 - Z.of_nat n) → (n <= 64)%nat →
  get_field_loop n p off v = Some (foldl push_bit v (take n (drop (Z.to_nat off) (bits_of p)))).
Proof.
  revert off v. induction n as [|n IH]; intros off v Hp Hoff Hl Hsz Hv Hn; [done|]. cbn [get_field_loop].
  destruct (store_bit p off false) as (x & -> & Hx & Hbit & _); [done|lia|]. mnext.
  assert (2 ^ (64 - Z.of_nat n) = 2 * 2 ^ (64 - Z.of_nat (S n))) as Hpow
    by (rewrite <- Z.pow_succ_r by lia; f_equal; lia).
  assert (2 ^ (64 - Z.of_nat (S n)) <= 2 ^ 63) by (apply Z.pow_le_mono_r; lia).
  rewrite (wrapu_small 64 (off + 1)), (wrapu_small 64 (Z.shiftl v 1)), Z.shiftl_mul_pow2 by
    (rewrite ?Z.shiftl_mul_pow2; lia).
  assert (Z.land (Z.shiftr x (7 - Z.land off 7)) 1 = Z.b2z (Z.testbit x (7 - off mod 8))) as ->.
  { rewrite land_7. rewrite (Z.land_ones _ 1), Z.testbit_spec' by (try apply Z.mod_pos_bound; div_lia).
    rewrite Z.shiftr_div_pow2 by div_lia. done. }
  assert (Z.lor (v * 2 ^ 1) (Z.b2z (Z.testbit x (7 - off mod 8))) = push_bit v (Z.testbit x (7 - off mod 8))) as ->.
  { unfold push_bit. rewrite Z.mul_comm. change (2 ^ 1) with 2.
    destruct v as [|q|q]; [|destruct (Z.testbit x (7 - off mod 8)); done|lia].
    by destruct (Z.testbit x (7 - off mod 8)). }
  pose proof (length_bits_of p) as Hlb.
  destruct (lookup_lt_is_Some_2 (bits_of p) (Z.to_nat off)) as [b Hb]; [lia|].
  rewrite Hb in Hbit. cbn in Hbit. rewrite Hbit, (drop_S _ _ _ Hb). cbn [take foldl].
  replace (S (Z.to_nat off)) with (Z.to_nat (off + 1)) by lia. apply IH; try done; try lia.
  unfold push_bit. assert (0 <= Z.b2z b <= 1) by by destruct b. lia.
Qed.

Lemma get_field_spec p off bits : bytes_ok p → 0 <= off → 0 <= bits <= 64 →
  off + bits <= 8 * len p → 8 * len p < 2 ^ 64 →
  getUnsignedBitfield p off bits =
  Some (bits_val (take (Z.to_nat bits) (drop (Z.to_nat off) (bits_of p)))).
Proof. intros. unfold getUnsignedBitfield. apply get_field_loop_spec; (done || lia). Qed.

Lemma foldl_push_wbits n v acc : foldl push_bit acc (wbits n v) = acc * 2 ^ Z.of_nat n + v mod 2 ^ Z.of_nat n.
Proof.
  revert acc. induction n as [|n IH]; intros acc; cbn [wbits foldl]; [rewrite Z.mod_1_r; lia|].
  rewrite IH, Nat2Z.inj_succ, Z.pow_succ_r by lia. unfold push_bit.
  assert (v mod (2 * 2 ^ Z.of_nat n) = v mod 2 ^ Z.of_nat n + 2 ^ Z.of_nat n * Z.b2z (Z.testbit v (Z.of_nat n))) as ->.
  { rewrite Z.mul_comm, Z.rem_mul_r by lia. by rewrite Z.testbit_spec' by lia. }
  lia.
Qed.

Lemma bits_val_wbits n v : bits_val (wbits n v) = v mod 2 ^ Z.of_nat n.
Proof. unfold bits_val. rewrite foldl_push_wbits. lia. Qed.

Lemma bits_val_range l : 0 <= bits_val l < 2 ^ len l.
Proof.
  assert (Hg : ∀ l acc, 0 <= acc → acc * 2 ^ len l <= foldl push_bit acc l < (acc + 1) * 2 ^ len l).
  { clear l. induction l as [|b l IH]; intros acc Hacc; [cbn; lia|].
    cbn [foldl length]. rewrite Nat2Z.inj_succ, Z.pow_succ_r by lia.
    specialize (IH (push_bit acc b)). unfold push_bit in *. destruct b; cbn [Z.b2z] in *; lia. }
  specialize (Hg l 0). unfold bits_val. lia.
Qed.

(** The sign bit copied upwards. *)
Lemma sign_extend bits u : 1 <= bits <= 64 → 0 <= u < 2 ^ bits →
  (if (bits <? 64) && negb (Z.land (u64 (s64 u)) (Z.shiftl 1 (bits - 1)) =? 0)
   then s64 (Z.lor (u64 (s64 u)) (u64 (Z.shiftl (-1) bits))) else s64 u) = wraps bits u.
Proof.
  intros Hb Hu. assert (Hp : 2 ^ bits = 2 * 2 ^ (bits - 1)) by (rewrite <- Z.pow_succ_r by lia; f_equal; lia).
  destruct (decide (bits = 64)) as [->|Hne]; [done|].
  replace (bits <? 64) with true by lia. cbn [andb].
  assert (2 ^ bits <= 2 ^ 63) by (apply Z.pow_le_mono_r; lia).
  rewrite (s64_small u), (wrapu_small 64 u) by lia.
  rewrite Z.shiftl_1_l, land_pow2, negb_involutive by lia.
  assert (Hsign : Z.testbit u (bits - 1) = (2 ^ (bits - 1) <=? u)).
  { apply eq_bool_prop_intro. rewrite !Is_true_true, Z.leb_le, Z.testbit_true by lia.
    assert (u / 2 ^ (bits - 1) = if 2 ^ (bits - 1) <=? u then 1 else 0) as ->.
    { destruct (Z.leb_spec (2 ^ (bits - 1)) u); [|by rewrite Z.div_small by lia].
      symmetry. apply (Z.div_unique _ _ _ (u - 2 ^ (bits - 1))); lia. }
    destruct (Z.leb_spec (2 ^ (bits - 1)) u); [change (1 mod 2) with 1|change (0 mod 2) with 0]; split; (lia || done). }
  rewrite Hsign. unfold wraps at 2. destruct (Z.leb_spec (2 ^ (bits - 1)) u).
  - assert (Z.lor u (u64 (Z.shiftl (-1) bits)) = u + (2 ^ 64 - 2 ^ bits)) as ->.
    { assert (u64 (Z.shiftl (-1) bits) = 2 ^ 64 - 2 ^ bits) as ->.
      { unfold wrapu. rewrite Z.shiftl_mul_pow2 by lia. symmetry. apply (Z.mod_unique _ _ (-1)); lia. }
      rewrite <- Z.add_lor_land. replace (Z.land u (2 ^ 64 - 2 ^ bits)) with 0; [lia|].
      symmetry. bits i. rewrite Z.land_spec, Z.bits_0. destruct (decide (i < bits)).
      - replace (2 ^ 64 - 2 ^ bits) with ((2 ^ (64 - bits) - 1) * 2 ^ bits).
        + rewrite Z.mul_pow2_bits_low by lia. apply andb_false_r.
        + rewrite Z.mul_sub_distr_r, <- Z.pow_add_r by lia. replace (64 - bits + bits) with 64 by lia. lia.
      - by rewrite (bits_above bits u) by lia. }
    rewrite <- (Z.mod_unique (u + 2 ^ (bits - 1)) (2 ^ bits) 1 (u - 2 ^ (bits - 1))) by lia.
    unfold wraps. rewrite <- (Z.mod_unique (u + (2 ^ 64 - 2 ^ bits) + 2 ^ (64 - 1)) (2 ^ 64) 1 (u - 2 ^ bits + 2 ^ 63)) by lia.
    lia.
  - rewrite Z.mod_small by lia. lia.
Qed.

Lemma get_signed_spec p off bits : bytes_ok p → 0 <= off → 1 <= bits <= 64 →
  off + bits <= 8 * len p → 8 * len p < 2 ^ 64 →
  getSignedBitfield p off bits =
  Some (wraps bits (bits_val (take (Z.to_nat bits) (drop (Z.to_nat off) (bits_of p))))).
Proof.
  intros Hp Hoff Hb Hl Hsz. unfold getSignedBitfield. rewrite get_field_spec by (done || lia). mnext.
  f_equal. apply sign_extend; [done|].
  pose proof (bits_val_range (take (Z.to_nat bits) (drop (Z.to_nat off) (bits_of p)))) as Hr.
  pose proof (length_bits_of p). rewrite length_take, length_drop in Hr.
  replace (Z.of_nat _) with bits in Hr by lia. done.
Qed.

Lemma field_of_set {A} (l w : list A) bits off : length w = bits → (off <= length l)%nat →
  take bits (drop off (take off l ++ w ++ drop (off + bits) l)) = w.
Proof.
  intros Hw Ho. rewrite drop_app_length' by (rewrite length_take; lia). by apply take_app_length'.
Qed.

(** A value written to a bit field is read back as its low bits, unsigned or
    sign extended, and no other bit of the string changes. *)
Theorem bitfield_roundtrip p off bits v : bytes_ok p → 0 <= off → 1 <= bits <= 64 →
  off + bits <= 8 * len p → 8 * len p < 2 ^ 64 →
  ∃ p', setSignedBitfield p off bits v = Some p' ∧
    getSignedBitfield p' off bits = Some (wraps bits v) ∧
    getUnsignedBitfield p' off bits = Some (v mod 2 ^ bits) ∧
    bits_of p' = take (Z.to_nat off) (bits_of p) ++ wbits (Z.to_nat bits) v ++
      drop (Z.to_nat (off + bits)) (bits_of p).
Proof.
  intros Hp Hoff Hb Hl Hsz. unfold setSignedBitfield.
  destruct (set_field_spec p off bits (u64 v)) as (p' & Hs & Hp' & Hlen & Hbits); [done|lia..|].
  assert (Hwv : wbits (Z.to_nat bits) (u64 v) = wbits (Z.to_nat bits) v).
  { apply wbits_ext. intros i Hi. rewrite testbit_wrapu by lia. by replace (i <? 64) with true by lia. }
  rewrite Hwv in Hbits. exists p'. split; [done|]. pose proof (length_bits_of p).
  assert (Hfield : take (Z.to_nat bits) (drop (Z.to_nat off) (bits_of p')) = wbits (Z.to_nat bits) v).
  { rewrite Hbits, Z2Nat.inj_add by lia. apply field_of_set; [apply length_wbits|lia]. }
  rewrite get_signed_spec, get_field_spec by (done || rewrite ?Hlen; lia).
  rewrite Hfield, bits_val_wbits, Z2Nat.id by lia. rewrite wraps_mod by lia. done.
Qed.

Lemma bitfield_roundtrip_witness : ∃ p', setSignedBitfield [0; 255; 0] 5 7 (-3) = Some p' ∧
  getSignedBitfield p' 5 7 = Some (-3) ∧ getUnsignedBitfield p' 5 7 = Some 125 ∧ 
  bits_of p' = take 5 (bits_of [0; 255; 0]) ++ wbits 7 (-3) ++ drop 12 (bits_of [0; 255; 0]).
Proof.
  apply (bitfield_roundtrip [0; 255; 0] 5 7 (-3)); [by_decision|lia|lia|cbn; lia|cbn; lia].
Defined.

(** ** Overflow *)

(** The outcome for the exact result [x] and a field that holds [lo] to [hi]:
    nothing, or the direction and what to store instead, which is [wrapped] on
    wrap-around.  On wrap-around the direction is always reported as 1. *)
Definition overflow_spec (lo hi wrapped x : Z) (ow : owtype) : Z * option Z :=
  if (lo <=? x) && (x <=? hi) then (0, None)
  else
    match ow with
    | BFOVERFLOW_WRAP => (1, Some wrapped)
    | BFOVERFLOW_SAT => if hi <? x then (1, Some hi) else (-1, Some lo)
    | BFOVERFLOW_FAIL => (if hi <? x then 1 else -1, None)
    end.

Lemma shl64_ones bits : 0 <= bits < 64 → shl64 (2 ^ 64 - 1) bits = Some (2 ^ 64 - 2 ^ bits).
Proof.
  intros Hb. unfold shl64. if_true. f_equal. rewrite Z.shiftl_mul_pow2 by lia. unfold wrapu.
  assert (2 ^ bits < 2 ^ 64) by (apply Z.pow_lt_mono_r; lia). assert (0 < 2 ^ bits) by lia.
  symmetry. apply (Z.mod_unique _ _ (2 ^ bits - 1)); lia.
Qed.

Lemma low_mask bits : 0 <= bits < 64 → u64 (Z.lnot (2 ^ 64 - 2 ^ bits)) = Z.ones bits.
Proof.
  intros Hb. assert (2 ^ bits < 2 ^ 64) by (apply Z.pow_lt_mono_r; lia). assert (0 < 2 ^ bits) by lia.
  rewrite Z.ones_equiv. unfold wrapu. pose proof (Z.add_lnot_diag (2 ^ 64 - 2 ^ bits)).
  symmetry. apply (Z.mod_unique _ _ (-1)); lia.
Qed.

Lemma check_unsigned_spec value incr bits ow : 1 <= bits <= 63 →
  - 2 ^ 63 <= incr < 2 ^ 63 → 0 <= value < 2 ^ 64 → (value < 2 ^ bits ∨ incr = 0) →
  checkUnsignedBitfieldOverflow value incr bits ow =
  Some (overflow_spec 0 (2 ^ bits - 1) ((value + incr) mod 2 ^ bits) (value + incr) ow).
Proof.
  intros Hb Hi Hv Hcase. unfold checkUnsignedBitfieldOverflow, overflow_spec.
  assert (2 ^ bits <= 2 ^ 63) by (apply Z.pow_le_mono_r; lia). assert (2 <= 2 ^ bits).
  { change 2 with (2 ^ 1) at 1. apply Z.pow_le_mono_r; lia. }
  replace (bits =? 64) with false by lia. rewrite Z.shiftl_1_l.
  rewrite shl64_ones by lia. mnext. rewrite low_mask, Z.land_ones by lia.
  assert (u64 (value + incr) mod 2 ^ bits = (value + incr) mod 2 ^ bits) as ->.
  { unfold wrapu. replace (2 ^ 64) with (2 ^ bits * 2 ^ (64 - bits)) by (rewrite <- Z.pow_add_r by lia; f_equal; lia).
    rewrite Z.rem_mul_r by lia. rewrite Z.mul_comm, Z_mod_plus_full. apply Zmod_mod. }
  destruct (Z.ltb_spec (2 ^ bits - 1) value) as [Hbig|Hsmall].
  { replace (value >? 2 ^ bits - 1) with true by lia. cbn [orb].
    replace (0 <=? value + incr) with true by lia. replace (value + incr <=? 2 ^ bits - 1) with false by lia.
    cbn [andb]. replace (2 ^ bits - 1 <? value + incr) with true by lia. by destruct ow. }
  replace (value >? 2 ^ bits - 1) with false by lia. cbn [orb].
  assert (s64 (u64 (2 ^ bits - 1 - value)) = 2 ^ bits - 1 - value) as ->.
  { rewrite (wrapu_small 64) by lia. apply s64_small. lia. }
  assert (s64 (u64 (- value)) = - value) as ->.
  { unfold wrapu. rewrite (wraps_mod 64) by lia. apply s64_small. lia. }
  destruct (decide (2 ^ bits - 1 < value + incr)) as [Hover|Hnover].
  { replace ((incr >? 0) && (incr >? 2 ^ bits - 1 - value)) with true by lia.
    replace (value + incr <=? 2 ^ bits - 1) with false by lia. rewrite andb_false_r.
    replace (2 ^ bits - 1 <? value + incr) with true by lia. by destruct ow. }
  replace ((incr >? 0) && (incr >? 2 ^ bits - 1 - value)) with false by lia.
  replace (value + incr <=? 2 ^ bits - 1) with true by lia. rewrite andb_true_r.
  replace ((incr <? 0) && (incr <? - value)) with (negb (0 <=? value + incr)) by lia.
  replace (2 ^ bits - 1 <? value + incr) with false by lia.
  destruct (0 <=? value + incr); [done|]. by destruct ow.
Qed.

(** CheckUnsignedBitfieldOverflow of a value in the field and an increment,
    or of a value to store, reports exactly when the result does not fit, in
    which direction, and the wrapped or saturated value; no shift is by the
    whole width. *)
Theorem checkUnsigned_correct value incr bits ow : 1 <= bits <= 63 →
  - 2 ^ 63 <= incr < 2 ^ 63 → 0 <= value < 2 ^ 64 → (value < 2 ^ bits ∨ incr = 0) →
  checkUnsignedBitfieldOverflow value incr bits ow =
  Some (overflow_spec 0 (2 ^ bits - 1) ((value + incr) mod 2 ^ bits) (value + incr) ow).
Proof. apply check_unsigned_spec. Qed.

Lemma checkUnsigned_correct_witness : checkUnsignedBitfieldOverflow 250 10 8 BFOVERFLOW_WRAP = Some (1, Some 4).
Proof. apply (checkUnsigned_correct 250 10 8 BFOVERFLOW_WRAP); lia. Defined.

(** The wrap-around of the signed check. *)
Lemma signed_wrap value incr bits : 1 <= bits <= 64 →
  (c ← (if bits <? 64 then
          mask ← shl64 (2 ^ 64 - 1) bits;
          Some (if negb (Z.land (u64 (u64 value + u64 incr)) (Z.shiftl 1 (bits - 1)) =? 0)
                then Z.lor (u64 (u64 value + u64 incr)) mask
                else Z.land (u64 (u64 value + u64 incr)) (u64 (Z.lnot mask)))
        else Some (u64 (u64 value + u64 incr)));
   Some (1, Some (s64 c))) = Some (1, Some (wraps bits (value + incr))).
Proof.
  intros Hb. set (c := u64 (u64 value + u64 incr)).
  assert (Hc : c = u64 (value + incr)) by (unfold c, wrapu; by rewrite <- Z.add_mod).
  assert (Hcr : 0 <= c < 2 ^ 64) by (apply wrapu_range; lia).
  assert (Hcm : c mod 2 ^ bits = (value + incr) mod 2 ^ bits).
  { rewrite Hc. unfold wrapu. replace (2 ^ 64) with (2 ^ bits * 2 ^ (64 - bits)) by (rewrite <- Z.pow_add_r by lia; f_equal; lia).
    rewrite Z.rem_mul_r by lia. rewrite Z.mul_comm, Z_mod_plus_full. apply Zmod_mod. }
  destruct (Z.ltb_spec bits 64) as [Hlt|Hge].
  2: { assert (bits = 64) as -> by lia. mnext. do 3 f_equal. rewrite Hc. unfold wrapu. by rewrite wraps_mod by lia. }
  rewrite shl64_ones by lia. mnext. mnext. do 3 f_equal. rewrite low_mask, Z.land_ones by lia.
  rewrite Z.shiftl_1_l, land_pow2, negb_involutive by lia.
  assert (Hu : 0 <= c mod 2 ^ bits < 2 ^ bits) by (apply Z.mod_pos_bound; lia).
  rewrite <- (wraps_mod bits (value + incr)) by lia. rewrite <- Hcm.
  rewrite <- (sign_extend bits (c mod 2 ^ bits)) by (done || lia). replace (bits <? 64) with true by lia.
  cbn [andb]. assert (2 ^ bits <= 2 ^ 63) by (apply Z.pow_le_mono_r; lia).
  rewrite !(s64_small (c mod 2 ^ bits)) by lia. rewrite (wrapu_small 64 (c mod 2 ^ bits)) by lia.
  rewrite Z.shiftl_1_l, land_pow2, negb_involutive, Z.mod_pow2_bits_low by lia.
  destruct (Z.testbit c (bits - 1)); [|apply s64_small; lia]. f_equal.
  assert (u64 (Z.shiftl (-1) bits) = 2 ^ 64 - 2 ^ bits) as ->.
  { unfold wrapu. rewrite Z.shiftl_mul_pow2 by lia. symmetry. apply (Z.mod_unique _ _ (-1)); lia. }
  replace (2 ^ 64 - 2 ^ bits) with ((2 ^ (64 - bits) - 1) * 2 ^ bits)
    by (rewrite Z.mul_sub_distr_r, <- Z.pow_add_r by lia; replace (64 - bits + bits) with 64 by lia; lia).
  bits i. rewrite !Z.lor_spec. destruct (decide (i < bits)).
  - by rewrite Z.mod_pow2_bits_low by lia.
  - rewrite Z.mod_pow2_bits_high, Z.mul_pow2_bits by lia. destruct (decide (i < 64)).
    + replace (2 ^ (64 - bits) - 1) with (Z.ones (64 - bits)) by (rewrite Z.ones_equiv; lia).
      rewrite Z.ones_spec_low by lia. by rewrite !orb_true_r.
    + by rewrite (bits_above 64 c) by lia.
Qed.

Lemma check_signed_spec value incr bits ow : 1 <= bits <= 64 →
  - 2 ^ 63 <= incr < 2 ^ 63 → - 2 ^ 63 <= value < 2 ^ 63 →
  (- 2 ^ (bits - 1) <= value < 2 ^ (bits - 1) ∨ (incr = 0 ∧ 2 ^ (bits - 1) - 1 - value < 2 ^ 63)) →
  checkSignedBitfieldOverflow value incr bits ow =
  Some (overflow_spec (- 2 ^ (bits - 1)) (2 ^ (bits - 1) - 1) (wraps bits (value + incr)) (value + incr) ow).
Proof.
  intros Hb Hi Hv Hcase. unfold checkSignedBitfieldOverflow. rewrite signed_wrap by done.
  set (h := 2 ^ (bits - 1)) in *.
  assert ((if bits =? 64 then 2 ^ 63 - 1 else Z.shiftl 1 (bits - 1) - 1) = h - 1) as ->.
  { rewrite Z.shiftl_1_l. destruct (Z.eqb_spec bits 64) as [->|]; done. }
  assert (bits ≠ 64 → h <= 2 ^ 62) by (intros; apply Z.pow_le_mono_r; lia).
  assert (bits = 64 → h = 2 ^ 63) by (intros ->; done). assert (1 <= h) by (unfold h; lia).
  assert (Hmax : h - 1 - value < 2 ^ 63 → s64 (u64 (h - 1 - value)) = h - 1 - value).
  { intros. unfold wrapu. rewrite (wraps_mod 64) by lia. apply s64_small. lia. }
  assert (Hmin : - 2 ^ 63 <= - h - value → s64 (- h - value) = - h - value) by (intros; apply s64_small; lia).
  replace (- (h - 1) - 1) with (- h) by lia. unfold overflow_spec.
  set (m1 := s64 (u64 (h - 1 - value))) in *. set (m2 := s64 (- h - value)) in *.
  destruct (decide (h - 1 < value + incr)) as [Hover|Hnover].
  { replace ((value >? h - 1) || (negb (bits =? 64) && (incr >? m1)) || ((value >=? 0) && (incr >? 0) && (incr >? m1)))
      with true by lia.
    replace ((- h <=? value + incr) && (value + incr <=? h - 1)) with false by lia.
    replace (h - 1 <? value + incr) with true by lia. by destruct ow. }
  replace ((value >? h - 1) || (negb (bits =? 64) && (incr >? m1)) || ((value >=? 0) && (incr >? 0) && (incr >? m1)))
    with false by lia.
  replace ((value <? - h) || (negb (bits =? 64) && (incr <? m2)) || ((value <? 0) && (incr <? 0) && (incr <? m2)))
    with (negb (- h <=? value + incr)) by lia.
  replace (value + incr <=? h - 1) with true by lia. rewrite andb_true_r.
  replace (h - 1 <? value + incr) with false by lia. destruct (- h <=? value + incr); [done|]. by destruct ow.
Qed.

(** CheckSignedBitfieldOverflow of a value in the field and an increment, or
    of a value to store that is not below the maximum by 2^63 or more, reports
    exactly when the result does not fit, in which direction, and the wrapped or
    saturated value. *)
Theorem checkSigned_correct value incr bits ow : 1 <= bits <= 64 →
  - 2 ^ 63 <= incr < 2 ^ 63 → - 2 ^ 63 <= value < 2 ^ 63 →
  (- 2 ^ (bits - 1) <= value < 2 ^ (bits - 1) ∨ (incr = 0 ∧ 2 ^ (bits - 1) - 1 - value < 2 ^ 63)) →
  checkSignedBitfieldOverflow value incr bits ow =
  Some (overflow_spec (- 2 ^ (bits - 1)) (2 ^ (bits - 1) - 1) (wraps bits (value + incr)) (value + incr) ow).
Proof. apply check_signed_spec. Qed.

Lemma checkSigned_correct_witness : checkSignedBitfieldOverflow (-100) (-50) 8 BFOVERFLOW_SAT = Some (-1, Some (-128)).
Proof. apply (checkSigned_correct (-100) (-50) 8 BFOVERFLOW_SAT); lia. Defined.

(** C36: a value so far below the field that the distance to its maximum
    overflows is taken for one above it: with saturation the smallest long long
    is stored as the maximum of the field instead of the minimum. *)
Theorem checkSigned_saturates_up bits : 1 <= bits <= 63 →
  checkSignedBitfieldOverflow (- 2 ^ 63) 0 bits BFOVERFLOW_SAT = Some (1, Some (2 ^ (bits - 1) - 1)).
Proof.
  intros Hb. unfold checkSignedBitfieldOverflow. replace (bits =? 64) with false by lia.
  rewrite Z.shiftl_1_l. set (h := 2 ^ (bits - 1)).
  assert (1 <= h <= 2 ^ 62).
  { split; [unfold h; lia|]. apply Z.pow_le_mono_r; lia. }
  assert (s64 (u64 (h - 1 - - 2 ^ 63)) = h - 1 - 2 ^ 63) as ->.
  { unfold wrapu. rewrite (wraps_mod 64) by lia. unfold wraps.
    rewrite <- (Z.mod_unique _ (2 ^ 64) 1 (h - 1)) by lia. lia. }
  replace (_ || _) with true by lia. done.
Qed.

Lemma checkSigned_saturates_up_witness :
  checkSignedBitfieldOverflow (- 2 ^ 63) 0 8 BFOVERFLOW_SAT = Some (1, Some 127).
Proof. apply (checkSigned_saturates_up 8). lia. Defined.
