(* ===== verification/BitopsTheorems.v ===== *)
(** The bit commands of bitops.c on the bits of a string value: SETBIT, GETBIT,
    BITCOUNT and BITPOS with every form of their arguments. *)
From Stdlib Require Import String.
From S2P Require Import Prelude Bits Endian UtilNum UtilText Bitops BitopsSpec Bitfields.

(** RedisPopcount counts the set bits of the bytes it is given, whatever
    their number and alignment and whatever the byte order of the host, and reads
    only these bytes. *)
Theorem redisPopcount_correct `{Host} addr m s count : bytes_ok m → 0 <= s → 0 <= count →
  s + count <= len m →
  redisPopcount addr m s count = Some (ones (bits_of (sub m s count))).
Proof. apply popcount_spec. Qed.

Lemma redisPopcount_correct_witness :
  redisPopcount (H := be_host) 3 (replicate 40 0x81) 1 38 = Some 76.
Proof.
  apply (redisPopcount_correct (H := be_host) 3 (replicate 40 0x81) 1 38); [by_decision|cbn; lia..].
Defined.

(** RedisBitpos returns the position of the first bit with the given value;
    when there is none, -1 for a set bit and the number of bits for a clear one.
    It reads only the bytes it is given and never reaches its panic. *)
Theorem redisBitpos_correct `{Host} addr m s count (b : bool) : bytes_ok m → 0 <= s → 0 <= count →
  s + count <= len m →
  redisBitpos addr m s count (Z.b2z b) = Some (bitpos_of b (bits_of (sub m s count))).
Proof. apply bitpos_spec. Qed.

Lemma redisBitpos_correct_witness :
  redisBitpos (H := le_host) 3 (replicate 20 0 ++ [16]) 0 21 1 = Some 163.
Proof.
  apply (redisBitpos_correct (H := le_host) 3 (replicate 20 0 ++ [16]) 0 21 true); [by_decision|cbn; lia..].
Defined.

(** ** Values *)

(** The string a value stands for; no value is the empty string. *)
Definition value_string (o : option value) : option (list Z) :=
  match o with
  | None => Some []
  | Some (VStr s) => Some s
  | Some (VInt n) => Some (dec_string n)
  | Some VOther => None
  end.

(** An integer value is a long, a string's bytes are bytes, and it is shorter
    than 2^60 bytes. *)
Definition value_ok (o : option value) : Prop :=
  match o with
  | Some (VStr s) => bytes_ok s ∧ len s < 2 ^ 60
  | Some (VInt n) => LLONG_MIN <= n <= LLONG_MAX
  | _ => True
  end.

Lemma ll2string_digits n size : LLONG_MIN <= n <= LLONG_MAX → LONG_STR_SIZE <= size →
  ∃ rest, ll2string (replicate (Z.to_nat size) 0) size n = Some (dec_string n ++ rest, len (dec_string n)).
Proof.
  intros Hn Hs. pose proof (length_dec_string n Hn). unfold LONG_STR_SIZE in *.
  pose proof (ll2string_spec (replicate (Z.to_nat size) 0) size n Hn) as Hl.
  replace (len (dec_string n) <? size) with true in Hl by lia. eexists. apply Hl. len_lia.
Qed.

Lemma decoded_spec n : LLONG_MIN <= n <= LLONG_MAX → decoded n = Some (dec_string n).
Proof.
  intros Hn. unfold decoded. destruct (ll2string_digits n 32 Hn) as (rest & Hl); [done|].
  change (Z.to_nat 32) with 32%nat in Hl. rewrite Hl. mnext. by apply load_app0.
Qed.

Lemma read_only_spec o s : value_ok o → value_string o = Some s →
  getObjectReadOnlyString o = Some s ∧ bytes_ok s ∧ len s < 2 ^ 60.
Proof.
  intros Hok Hs. destruct o as [[t|n|]|]; cbn in Hs; simplify_eq; cbn [value_ok] in Hok.
  - done.
  - split; [|split; [apply dec_string_ok|]].
    + unfold getObjectReadOnlyString. destruct (ll2string_digits n LONG_STR_SIZE Hok) as (rest & ->); [done|].
      mnext. by apply load_app0.
    + pose proof (length_dec_string n Hok). unfold LONG_STR_SIZE in *. lia.
  - split; [done|]. split; [constructor|]. done.
Qed.

(** [s] with zeros up to [n] bytes. *)
Definition grown (s : list Z) (n : Z) : list Z := s ++ replicate (Z.to_nat (n - len s)) 0.

Lemma sdsgrowzero_spec s n : sdsgrowzero s n = grown s n.
Proof.
  unfold sdsgrowzero, grown. destruct (Z.leb_spec n (len s)); [|done].
  replace (Z.to_nat (n - len s)) with 0%nat by lia. by rewrite app_nil_r.
Qed.

Lemma grown_ok s n : bytes_ok s → bytes_ok (grown s n).
Proof. intros Hs. apply Forall_app. split; [done|]. by apply Forall_replicate. Qed.

(** The string for writing bit [maxbit]; it is dirty when it is new or longer. *)
Lemma lookup_string_spec o s maxbit : value_ok o → value_string o = Some s → 0 <= maxbit →
  ∃ dirty, lookupStringForBitCommand o maxbit = Some (inl (grown s (maxbit / 8 + 1), dirty)) ∧
    (dirty = false → len s >= maxbit / 8 + 1 ∧ is_Some o).
Proof.
  intros Hok Hs Hm. unfold lookupStringForBitCommand. rewrite shiftr_3.
  assert (0 <= maxbit / 8) by div_lia.
  assert (Hd : negb (len s =? len (grown s (maxbit / 8 + 1))) = false → len s >= maxbit / 8 + 1).
  { unfold grown. rewrite length_app, length_replicate. lia. }
  destruct o as [[t|n|]|]; cbn in Hs; simplify_eq; cbn [value_ok] in Hok.
  - eexists. rewrite sdsgrowzero_spec. split; [done|]. eauto.
  - rewrite decoded_spec by done. mnext. eexists. rewrite sdsgrowzero_spec. split; [done|]. eauto.
  - exists true. split; [|done]. unfold grown. cbn [app length]. by rewrite Z.sub_0_r.
Qed.

Lemma parse_offset (obey : bool) maxlen arg off : arg = dec_string off → 0 <= off < 2 ^ 63 →
  (obey = true ∨ off / 8 < maxlen) →
  getBitOffsetFromArgument obey maxlen arg false 0 = Some (Some off).
Proof.
  intros -> Hoff Hmax. unfold getBitOffsetFromArgument. rewrite andb_false_r. cbn [andb].
  destruct (string2ll_spec (dec_string off)) as (r & -> & Hr). mnext.
  assert (r = Some off) as -> by (apply Hr; unfold LLONG_MIN, LLONG_MAX; split; [lia|done]).
  rewrite shiftr_3. assert ((off <? 0) || negb obey && (off / 8 >=? maxlen) = false) as ->; [|done].
  destruct Hmax as [->|?]; [|destruct obey]; lia.
Qed.

Lemma parse_int v : LLONG_MIN <= v <= LLONG_MAX → getLongLongFromArgument (dec_string v) = Some (Some v).
Proof.
  intros Hv. unfold getLongLongFromArgument. destruct (string2ll_spec (dec_string v)) as (r & -> & Hr).
  f_equal. by apply Hr.
Qed.

Lemma bits_grown s n : bits_of (grown s n) = bits_of s ++ replicate (8 * Z.to_nat (n - len s)) false.
Proof.
  unfold grown. rewrite bits_of_app. f_equal. generalize (Z.to_nat (n - len s)). intros k.
  induction k as [|k IH]; [done|]. replace (8 * S k)%nat with (8 + 8 * k)%nat by lia.
  rewrite replicate_add. cbn [replicate app].
  change (bits_of (0 :: replicate k 0)) with (byte_bits 0 ++ bits_of (replicate k 0)). by rewrite IH.
Qed.

(** Bit [i] of a string, zero beyond its end. *)
Definition bit_at (s : list Z) (i : Z) : bool := default false (bits_of s !! Z.to_nat i).

Lemma bit_at_grown s n i : 0 <= i → bit_at (grown s n) i = bit_at s i.
Proof.
  intros Hi. unfold bit_at. rewrite bits_grown. destruct (decide (Z.to_nat i < length (bits_of s))%nat).
  - by rewrite lookup_app_l.
  - rewrite lookup_app_r by lia. rewrite (lookup_ge_None_2 (bits_of s)) by lia.
    destruct (replicate _ false !! _) eqn:E; [|done]. apply lookup_replicate in E as [-> _]. done.
Qed.

Lemma bitval_test x bit : 0 <= bit → (Z.land x (Z.shiftl 1 bit) =? 0) = negb (Z.testbit x bit).
Proof. intros. rewrite Z.shiftl_1_l. by apply land_pow2. Qed.

(** SETBIT replies the old bit and sets it to the given value in the string
    padded with zeros; every other bit keeps its value.  Nothing is signalled
    exactly when nothing changed. *)
Theorem setbit_correct (obey : bool) maxlen o s off (on : bool) : value_ok o → value_string o = Some s →
  0 <= off < 2 ^ 63 → (obey = true ∨ off / 8 < maxlen) →
  ∃ s' effs, setbitCommand obey maxlen o (dec_string off) (dec_string (Z.b2z on)) =
      Some (Some (VStr s'), effs, RInt (Z.b2z (bit_at s off))) ∧
    bits_of s' = <[Z.to_nat off := on]> (bits_of (grown s (off / 8 + 1))) ∧
    (effs = [] → o ≠ None ∧ s' = s) ∧ (effs ≠ [] → effs = [SignalModified; Notify "setbit"; Dirty 1]).
Proof.
  intros Hok Hs Hoff Hmax. unfold setbitCommand. rewrite (parse_offset obey maxlen _ off) by done. mnext.
  rewrite parse_int by (unfold LLONG_MIN, LLONG_MAX; destruct on; cbn; lia). mnext.
  assert (negb (Z.land (Z.b2z on) (Z.lnot 1) =? 0) = false) as -> by by destruct on.
  destruct (lookup_string_spec o s off Hok Hs) as (dirty & -> & Hdirty); [lia|]. mnext.
  destruct (read_only_spec o s Hok Hs) as (_ & Hbs & _).
  set (g := grown s (off / 8 + 1)) in *. assert (Hg : bytes_ok g) by by apply grown_ok.
  assert (Hlg : off < 8 * len g).
  { unfold g, grown. rewrite length_app, length_replicate. div_lia. }
  destruct (store_bit g off on) as (x & -> & Hx & Hbit & g' & _ & Hst & Hg' & Hlen & Hbits); [done|lia|]. mnext.
  assert (Hmod : 0 <= 7 - off mod 8) by div_lia.
  rewrite land_7, !bitval_test, !negb_involutive, !Hbit by done.
  change (default false (bits_of g !! Z.to_nat off)) with (bit_at g off).
  assert (bit_at g off = bit_at s off) as -> by (apply bit_at_grown; lia).
  assert ((if negb (bit_at s off) then 0 else 1) = Z.b2z (bit_at s off)) as -> by by destruct (bit_at s off).
  rewrite land_7 in Hst. unfold set_bit in Hst.
  replace (Z.land (Z.b2z on) 1) with (Z.b2z on) by by destruct on. rewrite Hst. mnext.
  destruct (dirty || negb (Z.b2z (bit_at s off) =? Z.b2z on)) eqn:E.
  - eexists _, _. split; [done|]. split; [done|]. split; [done|]. done.
  - apply orb_false_iff in E as [-> E]. eexists _, _. split; [done|].
    destruct Hdirty as [Hge Hsome]; [done|].
    assert (g = s) as Hgs.
    { unfold g, grown. replace (Z.to_nat (off / 8 + 1 - len s)) with 0%nat by lia. apply app_nil_r. }
    split; [|split; [intros _; split; [by destruct Hsome as [? ->]|done]|done]].
    rewrite list_insert_id; [done|]. unfold bit_at in E. rewrite Hgs.
    pose proof (length_bits_of s). destruct (lookup_lt_is_Some_2 (bits_of s) (Z.to_nat off)) as [b Hb]; [div_lia|].
    rewrite Hb in *. cbn in E. f_equal. by destruct b, on.
Qed.

Lemma setbit_correct_witness : ∃ s' effs,
  setbitCommand false 512 (Some (VInt 7)) (dec_string 10) (dec_string 1) =
    Some (Some (VStr s'), effs, RInt 0) ∧
  bits_of s' = <[10%nat := true]> (bits_of [55; 0]) ∧
  (effs = [] → Some (VInt 7) ≠ None ∧ s' = [55]) ∧
  (effs ≠ [] → effs = [SignalModified; Notify "setbit"; Dirty 1]).
Proof.
  apply (setbit_correct false 512 (Some (VInt 7)) [55] 10 true);
    [vm_compute; split; discriminate|reflexivity|lia|right; reflexivity].
Defined.

(** GETBIT replies the bit at the offset and 0 beyond the end of the string,
    for a raw and for an integer encoded value alike. *)
Theorem getbit_correct (obey : bool) maxlen o s off : value_ok o → value_string o = Some s →
  0 <= off < 2 ^ 63 → (obey = true ∨ off / 8 < maxlen) →
  getbitCommand obey maxlen o (dec_string off) = Some (RInt (Z.b2z (bit_at s off))).
Proof.
  intros Hok Hs Hoff Hmax. unfold getbitCommand. rewrite (parse_offset obey maxlen _ off) by done. mnext.
  assert (0 <= off / 8 ∧ 0 <= 7 - off mod 8) as [Hb0 Hmod] by div_lia.
  assert (Hread : ∀ t rest, bytes_ok t → (if off / 8 <? len t then
      b ← load8 (t ++ rest) (off / 8); Some (Z.land b (Z.shiftl 1 (7 - off mod 8))) else Some 0) =
      Some (if bit_at t off then 2 ^ (7 - off mod 8) else 0)).
  { intros t rest Ht. destruct (Z.ltb_spec (off / 8) (len t)).
    - destruct (lookup_lt_is_Some_2 t (Z.to_nat (off / 8))) as [x Hx]; [lia|]. unfold load8.
      replace (0 <=? off / 8) with true by lia. rewrite lookup_app_l, Hx by lia. mnext. f_equal.
      unfold bit_at. rewrite bits_lookup, Hx by lia. cbn [fmap option_fmap option_map default].
      rewrite Z.shiftl_1_l. bits i. rewrite Z.land_spec, Z.pow2_bits_eqb by lia.
      destruct (Z.eqb_spec (7 - off mod 8) i) as [<-|Hne].
      + rewrite andb_true_r. destruct (Z.testbit x (7 - off mod 8)); cbv iota; [|by rewrite Z.bits_0].
        symmetry. apply Z.pow2_bits_true. lia.
      + rewrite andb_false_r. destruct (Z.testbit x (7 - off mod 8)); cbv iota; [|by rewrite Z.bits_0].
        symmetry. apply Z.pow2_bits_false. lia.
    - unfold bit_at. rewrite lookup_ge_None_2; [done|]. pose proof (length_bits_of t). div_lia. }
  assert (Hrep : ∀ b : bool, RInt (if (if b then 2 ^ (7 - off mod 8) else 0) =? 0 then 0 else 1) = RInt (Z.b2z b)).
  { intros b. f_equal. destruct b; [|done]. assert (0 < 2 ^ (7 - off mod 8)) by lia. by if_false. }
  destruct (read_only_spec o s Hok Hs) as (_ & Hbs & _). rewrite shiftr_3, land_7.
  destruct o as [[t|n|]|]; cbn in Hs; simplify_eq; cbn [value_ok] in Hok.
  - specialize (Hread s []). rewrite app_nil_r in Hread. rewrite Hread by done. mnext. by rewrite Hrep.
  - destruct (ll2string_digits n 32 Hok) as (rest & Hl); [done|]. change (Z.to_nat 32) with 32%nat in Hl.
    rewrite Hl. mnext. rewrite Hread by done. mnext. by rewrite Hrep.
  - done.
Qed.

Lemma getbit_correct_witness : getbitCommand false 512 (Some (VInt 7)) (dec_string 3) = Some (RInt 1).
Proof.
  apply (getbit_correct false 512 (Some (VInt 7)) [55] 3);
    [vm_compute; split; discriminate|reflexivity|lia|right; reflexivity].
Defined.

(** ** Ranges *)

(** The range of bits a command means: unset start and end for the whole string,
    negative ones count from the end, [isbit] says in which unit. *)
Definition index_of (tot i : Z) : Z := if i <? 0 then tot + i else i.
Definition range_start (isbit : bool) (n start : Z) : Z :=
  Z.max 0 (index_of (if isbit then 8 * n else n) start) * (if isbit then 1 else 8).
Definition range_end (isbit : bool) (n end_ : Z) : Z :=
  let tot := if isbit then 8 * n else n in
  if isbit then Z.min (Z.max 0 (index_of tot end_)) (tot - 1)
  else 8 * Z.min (Z.max 0 (index_of tot end_)) (tot - 1) + 7.

(** Bits [from] to [to], both included. *)
Definition bits_between (l : list bool) (from to : Z) : list bool :=
  take (Z.to_nat (to - from + 1)) (drop (Z.to_nat from) l).

Lemma clamp_spec (isbit : bool) n start end_ : 0 <= n →
  let '(s, e) := clamp_range (if isbit then Z.shiftl n 3 else n) start end_ in
  range_start isbit n start = s * (if isbit then 1 else 8) ∧
  range_end isbit n end_ = (if isbit then e else 8 * e + 7) ∧ 0 <= s ∧ e < (if isbit then 8 * n else n) ∧ -1 <= e.
Proof.
  intros Hn. unfold clamp_range, range_start, range_end, index_of.
  rewrite Z.shiftl_mul_pow2 by lia. change (2 ^ 3) with 8.
  destruct isbit; cbv zeta iota; destruct (Z.ltb_spec start 0), (Z.ltb_spec end_ 0); cbv iota;
    repeat match goal with
    | |- context [?x <? ?y] => destruct (Z.ltb_spec x y); cbv iota
    | |- context [?x >=? ?y] => destruct (Z.geb_spec x y); cbv iota
    end; lia.
Qed.

(** A masked byte: the bits outside of the range. *)
Lemma first_mask_bits x s : is_byte x → 0 <= s →
  ones (byte_bits (Z.land x (first_neg_mask s))) = ones (take (Z.to_nat (s mod 8)) (byte_bits x)) ∧
  is_byte (Z.land x (first_neg_mask s)) ∧ (first_neg_mask s = 0 ↔ s mod 8 = 0).
Proof.
  intros Hx Hs. unfold first_neg_mask. rewrite land_7.
  assert (0 <= s mod 8 < 8) as Hm by div_lia. set (k := s mod 8) in *. clearbody k.
  pose proof (forall_below (λ k, forallb (λ n, let x := Z.of_nat n in
    let m := Z.land (Z.lnot (Z.shiftl 1 (8 - k) - 1)) 255 in
    (ones (byte_bits (Z.land x m)) =? ones (take (Z.to_nat k) (byte_bits x))) &&
    (0 <=? Z.land x m) && (Z.land x m <? 256) && Bool.eqb (m =? 0) (k =? 0)) (seq 0 256)) 8
    ltac:(by vm_compute) k Hm) as Hf.
  cbv beta in Hf. rewrite forallb_forall in Hf. specialize (Hf (Z.to_nat x)).
  rewrite Z2Nat.id in Hf by apply Hx. cbv zeta in Hf.
  assert (In (Z.to_nat x) (seq 0 256)) as Hin by (apply in_seq; unfold is_byte in Hx; lia).
  specialize (Hf Hin). to_prop. apply Bool.eqb_prop in H0. unfold is_byte.
  set (m := Z.land (Z.lnot (Z.shiftl 1 (8 - k) - 1)) 255) in *. clearbody m. lia.
Qed.

Lemma last_mask_bits x e : is_byte x → 0 <= e →
  ones (byte_bits (Z.land x (last_neg_mask e))) = ones (drop (Z.to_nat (e mod 8 + 1)) (byte_bits x)) ∧
  is_byte (Z.land x (last_neg_mask e)) ∧ (last_neg_mask e = 0 ↔ e mod 8 = 7).
Proof.
  intros Hx Hs. unfold last_neg_mask. rewrite land_7.
  assert (0 <= e mod 8 < 8) as Hm by div_lia. set (k := e mod 8) in *. clearbody k.
  pose proof (forall_below (λ k, forallb (λ n, let x := Z.of_nat n in
    let m := Z.shiftl 1 (7 - k) - 1 in
    (ones (byte_bits (Z.land x m)) =? ones (drop (Z.to_nat (k + 1)) (byte_bits x))) &&
    (0 <=? Z.land x m) && (Z.land x m <? 256) && Bool.eqb (m =? 0) (k =? 7)) (seq 0 256)) 8
    ltac:(by vm_compute) k Hm) as Hf.
  cbv beta in Hf. rewrite forallb_forall in Hf. specialize (Hf (Z.to_nat x)).
  rewrite Z2Nat.id in Hf by apply Hx. cbv zeta in Hf.
  assert (In (Z.to_nat x) (seq 0 256)) as Hin by (apply in_seq; unfold is_byte in Hx; lia).
  specialize (Hf Hin). to_prop. apply Bool.eqb_prop in H0. unfold is_byte.
  set (m := Z.shiftl 1 (7 - k) - 1) in *. clearbody m. lia.
Qed.

Lemma bits_of_take n s : bits_of (take n s) = take (8 * n) (bits_of s).
Proof.
  destruct (decide (n <= length s)%nat) as [Hn|Hn].
  - rewrite <- (take_drop n s) at 2. rewrite bits_of_app, take_app_length'; [done|].
    pose proof (length_bits_of (take n s)) as Hl. rewrite length_take in Hl. lia.
  - pose proof (length_bits_of s). rewrite !take_ge by lia. done.
Qed.
Lemma bits_of_drop n s : bits_of (drop n s) = drop (8 * n) (bits_of s).
Proof.
  destruct (decide (n <= length s)%nat) as [Hn|Hn].
  - rewrite <- (take_drop n s) at 2. rewrite bits_of_app, drop_app_length'; [done|].
    pose proof (length_bits_of (take n s)) as Hl. rewrite length_take in Hl. lia.
  - pose proof (length_bits_of s). rewrite !drop_ge by lia. done.
Qed.

Lemma bits_of_sub m p n : 0 <= p → 0 <= n →
  bits_of (sub m p n) = bits_between (bits_of m) (8 * p) (8 * (p + n) - 1).
Proof.
  intros Hp Hn. unfold sub, bits_between. rewrite bits_of_take, bits_of_drop. f_equal; [lia|]. f_equal. lia.
Qed.

Lemma length_bits_between l from to : 0 <= from → to < len l → from <= to + 1 →
  len (bits_between l from to) = to - from + 1.
Proof. intros. unfold bits_between. rewrite length_take, length_drop. lia. Qed.

(** A range splits at any point. *)
Lemma bits_between_split l a b c : 0 <= a → a <= b → b <= c + 1 →
  bits_between l a c = bits_between l a (b - 1) ++ bits_between l b c.
Proof.
  intros. unfold bits_between. replace (Z.to_nat (c - a + 1)) with (Z.to_nat (b - a) + Z.to_nat (c - b + 1))%nat by lia.
  rewrite <- take_take_drop, drop_drop. f_equal; f_equal; try lia. f_equal. lia.
Qed.

Lemma bits_between_byte m p x : 0 <= p → load8 m p = Some x →
  bits_between (bits_of m) (8 * p) (8 * p + 7) = byte_bits x.
Proof.
  intros Hp Hx. replace (8 * p + 7) with (8 * (p + 1) - 1) by lia. rewrite <- bits_of_sub by lia.
  unfold load8 in Hx. replace (0 <=? p) with true in Hx by lia. unfold sub. rewrite (drop_S m x) by done. cbn.
  done.
Qed.

(** The first and the last byte of a range of bits. *)
Lemma edge_bits m p x k : 0 <= p → load8 m p = Some x → 0 <= k <= 8 →
  bits_between (bits_of m) (8 * p) (8 * p + k - 1) = take (Z.to_nat k) (byte_bits x) ∧
  bits_between (bits_of m) (8 * p + k) (8 * p + 7) = drop (Z.to_nat k) (byte_bits x).
Proof.
  intros Hp Hx Hk. rewrite <- (bits_between_byte m p x) by done. unfold bits_between. split.
  - rewrite take_take. f_equal. lia.
  - rewrite skipn_firstn_comm, drop_drop. f_equal; [lia|]. f_equal. lia.
Qed.

Lemma count_range `{Host} addr addr2 p (isbit : bool) s e st en m1 m2 : bytes_ok p →
  byte_range isbit s e = (st, en, m1, m2) → 0 <= s → s <= e → e < (if isbit then 8 * len p else len p) →
  bitcount_reply addr addr2 p st en m1 m2 =
  Some (RInt (ones (bits_between (bits_of p) (s * (if isbit then 1 else 8)) (if isbit then e else 8 * e + 7)))).
Proof.
  intros Hp Hr Hs Hse He. unfold byte_range in Hr. replace (s <=? e) with true in Hr by lia.
  rewrite andb_true_r in Hr. unfold bitcount_reply. destruct isbit.
  2: { injection Hr as <- <- <- <-. replace (s >? e) with false by lia. rewrite popcount_spec by (done || lia). mnext. cbn [Z.eqb negb orb].
       do 3 f_equal. rewrite bits_of_sub by lia. f_equal; lia. }
  injection Hr as <- <- <- <-. rewrite !shiftr_3.
  assert (0 <= s / 8 ∧ s / 8 <= e / 8 ∧ e / 8 < len p) as (? & ? & ?) by div_lia.
  replace (s / 8 >? e / 8) with false by lia. rewrite popcount_spec by (done || lia). mnext.
  destruct (sub_one p (s / 8)) as (x & Hx & Hxb & _); [done|lia|].
  destruct (sub_one p (e / 8)) as (y & Hy & Hyb & _); [done|lia|].
  destruct (first_mask_bits x s Hxb Hs) as (Hm1 & Hb1 & Hz1).
  destruct (last_mask_bits y e Hyb ltac:(lia)) as (Hm2 & Hb2 & Hz2).
  assert (Hall : ones (bits_of (sub p (s / 8) (e / 8 - s / 8 + 1))) =
    ones (take (Z.to_nat (s mod 8)) (byte_bits x)) + ones (bits_between (bits_of p) s e) +
    ones (drop (Z.to_nat (e mod 8 + 1)) (byte_bits y))).
  { rewrite bits_of_sub by lia.
    rewrite (bits_between_split _ _ s), (bits_between_split _ s (e + 1)), !ones_app by div_lia.
    destruct (edge_bits p (s / 8) x (s mod 8)) as [He1 _]; [lia|done|div_lia|].
    destruct (edge_bits p (e / 8) y (e mod 8 + 1)) as [_ He2]; [lia|done|div_lia|].
    rewrite <- He1, <- He2. replace (8 * (s / 8) + s mod 8 - 1) with (s - 1) by div_lia.
    replace (8 * (e / 8) + (e mod 8 + 1)) with (e + 1) by div_lia.
    replace (8 * (s / 8 + (e / 8 - s / 8 + 1)) - 1) with (8 * (e / 8) + 7) by lia.
    replace (e + 1 - 1) with e by lia. lia. }
  rewrite Hall.
  assert (Hedge1 : ∃ b0, (if negb (first_neg_mask s =? 0) then b ← load8 p (s / 8); Some (Z.land b (first_neg_mask s))
    else Some 0) = Some b0 ∧ is_byte b0 ∧ ones (byte_bits b0) = ones (take (Z.to_nat (s mod 8)) (byte_bits x))).
  { rewrite Hx. destruct (Z.eqb_spec (first_neg_mask s) 0) as [Hz|Hz]; cbn [negb]; mstep; eexists; (split; [done|]).
    - apply Hz1 in Hz as ->. split; [done|]. done.
    - done. }
  assert (Hedge2 : ∃ b1, (if negb (last_neg_mask e =? 0) then b ← load8 p (e / 8); Some (Z.land b (last_neg_mask e))
    else Some 0) = Some b1 ∧ is_byte b1 ∧ ones (byte_bits b1) = ones (drop (Z.to_nat (e mod 8 + 1)) (byte_bits y))).
  { rewrite Hy. destruct (Z.eqb_spec (last_neg_mask e) 0) as [Hz|Hz]; cbn [negb]; mstep; eexists; (split; [done|]).
    - apply Hz2 in Hz as ->. split; [done|]. done.
    - done. }
  destruct (negb (first_neg_mask s =? 0) || negb (last_neg_mask e =? 0)) eqn:E.
  - destruct Hedge1 as (b0 & -> & Hb0 & Ho0). destruct Hedge2 as (b1 & -> & Hb1' & Ho1). do 2 mnext.
    assert (bytes_ok [b0; b1]) by by do 2 (apply Forall_cons; split; [done|]).
    rewrite popcount_spec by (done || cbn; lia). mnext. do 2 f_equal.
    change (sub [b0; b1] 0 2) with [b0; b1]. rewrite !ones_cons, Ho0, Ho1. change (ones (bits_of [])) with 0. rewrite Z.mul_1_r. lia.
  - apply orb_false_iff in E as [E1 E2]. apply negb_false_iff, Z.eqb_eq in E1, E2.
    apply Hz1 in E1 as ->. apply Hz2 in E2 as ->. do 2 f_equal. rewrite Z.mul_1_r.
    change (take (Z.to_nat 0) (byte_bits x)) with (@nil bool).
    change (drop (Z.to_nat (7 + 1)) (byte_bits y)) with (@nil bool). change (ones []) with 0. lia.
Qed.

Lemma bitcount_body `{Host} addr addr2 s (isbit : bool) start end_ st en m1 m2 : bytes_ok s →
  0 <= start → -1 <= end_ → end_ < (if isbit then 8 * len s else len s) →
  byte_range isbit start end_ = (st, en, m1, m2) →
  bitcount_reply addr addr2 s st en m1 m2 =
  Some (RInt (ones (bits_between (bits_of s) (start * (if isbit then 1 else 8))
                     (if isbit then end_ else 8 * end_ + 7)))).
Proof.
  intros Hs Hst He0 He Hr. destruct (decide (start <= end_)) as [Hle|Hgt]; [by eapply count_range|].
  unfold byte_range in Hr. replace (start <=? end_) with false in Hr by lia. rewrite andb_false_r in Hr.
  injection Hr as <- <- <- <-. unfold bitcount_reply. replace (start >? end_) with true by lia.
  unfold bits_between. replace (Z.to_nat (_ - _ + 1)) with 0%nat by (destruct isbit; lia). done.
Qed.

(** BITCOUNT replies the number of set bits of the string, or of the given
    range in bytes or in bits, negative indexes counting from the end; for any
    alignment of the string and any byte order. *)
Theorem bitcount_correct `{Host} addr addr2 o s start end_ u isbit : value_ok o → o ≠ None →
  value_string o = Some s →
  LLONG_MIN <= start <= LLONG_MAX → LLONG_MIN <= end_ <= LLONG_MAX → unit_of_argument u = Some isbit →
  bitcountCommand addr addr2 o [] = Some (RInt (ones (bits_of s))) ∧
  bitcountCommand addr addr2 o (dec_string start :: dec_string end_ :: option_list u) =
  Some (RInt (if (start <? 0) && (end_ <? 0) && (start >? end_) then 0
              else ones (bits_between (bits_of s) (range_start isbit (len s) start)
                           (range_end isbit (len s) end_)))).
Proof.
  intros Hok Ho Hs Hst Hen Hu. destruct (read_only_spec o s Hok Hs) as (Hro & Hbs & Hlen).
  assert (Hcmd : ∀ args, bitcountCommand addr addr2 o args = r ← bitcount_range (len s) args;
    match r with
    | inr r => Some r
    | inl (st, en, m1, m2) => bitcount_reply addr addr2 s st en m1 m2
    end).
  { intros args. destruct o as [[t|n|]|]; try done; unfold bitcountCommand; by rewrite Hro. }
  split; rewrite Hcmd; clear Hcmd.
  - unfold bitcount_range. mnext.
    rewrite (bitcount_body addr addr2 s false 0 (len s - 1)) by (done || lia).
    do 3 f_equal. unfold bits_between. pose proof (length_bits_of s). rewrite take_ge; [done|].
    rewrite length_drop. lia.
  - assert (bitcount_range (len s) (dec_string start :: dec_string end_ :: option_list u) =
      if (start <? 0) && (end_ <? 0) && (start >? end_) then Some (inr (RInt 0))
      else let '(start, end_) := clamp_range (if isbit then Z.shiftl (len s) 3 else len s) start end_ in
        Some (inl (byte_range isbit start end_))) as ->.
    { unfold bitcount_range. assert ((len s >? Z.shiftr LLONG_MAX 3) = false) as Hlm.
      { unfold LLONG_MAX. rewrite Z.shiftr_div_pow2 by lia. change ((2 ^ 63 - 1) / 2 ^ 3) with (2 ^ 60 - 1). lia. }
      destruct u as [u|]; cbn [option_list option_rect]; rewrite Hlm, (parse_int start) by done; mnext;
        rewrite (parse_int end_) by done; mnext; cbn [lookup list_lookup]; rewrite Hu;
        destruct (_ && _ && _); done. }
    destruct ((start <? 0) && (end_ <? 0) && (start >? end_)); [done|].
    pose proof (clamp_spec isbit (len s) start end_ ltac:(lia)) as Hc.
    destruct (clamp_range _ start end_) as [st en]. destruct Hc as (-> & -> & ? & ? & ?). mnext.
    destruct (byte_range isbit st en) as [[[? ?] ?] ?] eqn:Hr. by apply (bitcount_body addr addr2 s).
Qed.

Lemma bitcount_correct_witness :
  bitcountCommand (H := le_host) 5 0 (Some (VStr [102; 111; 111; 98; 97; 114])) [] = Some (RInt 26) ∧
  bitcountCommand (H := le_host) 5 0 (Some (VStr [102; 111; 111; 98; 97; 114]))
    (dec_string 5 :: dec_string (-18) :: option_list (Some [66; 73; 84])) = Some (RInt 17).
Proof.
  apply (bitcount_correct (H := le_host) 5 0 (Some (VStr [102; 111; 111; 98; 97; 114]))
    [102; 111; 111; 98; 97; 114] 5 (-18) (Some [66; 73; 84]) true);
    [split; [by_decision|done]|done|done|by_decision|by_decision|reflexivity].
Defined.

(** ** BITPOS *)

(** The bits of a byte whose bits outside of the range are made unfindable. *)
Lemma mask_first (b : bool) x s : is_byte x → 0 <= s →
  byte_bits (mask_byte (Z.b2z b) x (first_neg_mask s)) =
    replicate (Z.to_nat (s mod 8)) (negb b) ++ drop (Z.to_nat (s mod 8)) (byte_bits x) ∧
  is_byte (mask_byte (Z.b2z b) x (first_neg_mask s)).
Proof.
  intros Hx Hs. unfold first_neg_mask. rewrite land_7.
  assert (0 <= s mod 8 < 8) as Hm by div_lia. set (k := s mod 8) in *. clearbody k.
  pose proof (forall_below (λ k, forallb (λ n, let x := Z.of_nat n in
    let y := mask_byte (Z.b2z b) x (Z.land (Z.lnot (Z.shiftl 1 (8 - k) - 1)) 255) in
    bool_decide (byte_bits y = replicate (Z.to_nat k) (negb b) ++ drop (Z.to_nat k) (byte_bits x)) &&
    bool_decide (is_byte y)) (seq 0 256)) 8 ltac:(by destruct b; vm_compute) k Hm) as Hf.
  cbv beta in Hf. rewrite forallb_forall in Hf. specialize (Hf (Z.to_nat x)).
  rewrite Z2Nat.id in Hf by apply Hx. cbv zeta in Hf.
  assert (In (Z.to_nat x) (seq 0 256)) as Hin by (apply in_seq; unfold is_byte in Hx; lia).
  apply Hf, andb_true_iff in Hin as [H1 H2]. apply bool_decide_eq_true_1 in H1, H2. done.
Qed.

Lemma mask_last (b : bool) x e : is_byte x → 0 <= e →
  byte_bits (mask_byte (Z.b2z b) x (last_neg_mask e)) =
    take (Z.to_nat (e mod 8 + 1)) (byte_bits x) ++ replicate (Z.to_nat (7 - e mod 8)) (negb b) ∧
  is_byte (mask_byte (Z.b2z b) x (last_neg_mask e)).
Proof.
  intros Hx Hs. unfold last_neg_mask. rewrite land_7.
  assert (0 <= e mod 8 < 8) as Hm by div_lia. set (k := e mod 8) in *. clearbody k.
  pose proof (forall_below (λ k, forallb (λ n, let x := Z.of_nat n in
    let y := mask_byte (Z.b2z b) x (Z.shiftl 1 (7 - k) - 1) in
    bool_decide (byte_bits y = take (Z.to_nat (k + 1)) (byte_bits x) ++ replicate (Z.to_nat (7 - k)) (negb b)) &&
    bool_decide (is_byte y)) (seq 0 256)) 8 ltac:(by destruct b; vm_compute) k Hm) as Hf.
  cbv beta in Hf. rewrite forallb_forall in Hf. specialize (Hf (Z.to_nat x)).
  rewrite Z2Nat.id in Hf by apply Hx. cbv zeta in Hf.
  assert (In (Z.to_nat x) (seq 0 256)) as Hin by (apply in_seq; unfold is_byte in Hx; lia).
  apply Hf, andb_true_iff in Hin as [H1 H2]. apply bool_decide_eq_true_1 in H1, H2. done.
Qed.

Lemma first_bit_unfindable b n l : first_bit b (replicate n (negb b) ++ l) = Z.add (Z.of_nat n) <$> first_bit b l.
Proof.
  rewrite first_bit_app, length_replicate. destruct n as [|n]; [done|].
  rewrite first_bit_replicate by lia. by destruct b.
Qed.

Lemma first_bit_unfindable_end b n l : first_bit b (l ++ replicate n (negb b)) = first_bit b l.
Proof.
  rewrite first_bit_app. destruct (first_bit b l); [done|]. destruct n as [|n]; [done|].
  rewrite first_bit_replicate by lia. by destruct b.
Qed.

(** What the search must have found at [result]: the position of the first bit
    [F] of the range from bit [sb] on, relative to the byte [start]. *)
Definition found_ok (b : bool) (F : option Z) (sb : Z) (r : Z * Z * Z) : Prop :=
  let '(pos, start, bytes) := r in
  match F with
  | Some i => pos + 8 * start = sb + i ∧ 0 <= pos < 8 * bytes
  | None => pos = if b then -1 else 8 * bytes
  end.

(** A stage of the search that ends it. *)
Lemma stage_ends b F sb L start bytes : len L <= 8 * bytes →
  F = (λ i, i + 8 * start - sb) <$> first_bit b L → (F = None → len L = 8 * bytes) →
  found_ok b F sb (bitpos_of b L, start, bytes).
Proof.
  intros Hlen HF Hnone. unfold found_ok, bitpos_of.
  destruct (first_bit b L) as [i|] eqn:Hi; cbn [fmap option_fmap option_map default id] in *; subst F.
  - apply first_bit_range in Hi. split; [|lia]. lia.
  - destruct b; [done|]. by apply Hnone.
Qed.

(** A stage that does not end it found nothing. *)
Lemma stage_test b L : negb (bitpos_of b L =? -1) && negb (bitpos_of b L =? len L) = bool_decide (is_Some (first_bit b L)).
Proof.
  unfold bitpos_of. destruct (first_bit b L) as [i|] eqn:Hi; cbn [default id].
  - apply first_bit_range in Hi. rewrite bool_decide_eq_true_2 by done. lia.
  - rewrite bool_decide_eq_false_2 by (intros [? ?]; done). destruct b; lia.
Qed.

Section bitpos_search.
Context `{Host} (addr addr2 : Z) (p : list Z) (b : bool) (sb eb : Z).
Context (Hp : bytes_ok p) (Hsb : 0 <= sb <= eb) (Heb : eb < 8 * len p).

Abbreviation B := (bits_of p).
Abbreviation F := (first_bit b (bits_between B sb eb)).

(** Nothing before the byte [start]. *)
Definition none_before (start : Z) : Prop :=
  sb <= 8 * start ∧ start <= eb / 8 ∧ first_bit b (bits_between B sb (8 * start - 1)) = None.

Lemma range_from start k : none_before start → 8 * start <= k <= eb + 1 →
  F = match first_bit b (bits_between B (8 * start) (k - 1)) with
      | Some i => Some (i + 8 * start - sb)
      | None => (λ i, i + k - sb) <$> first_bit b (bits_between B k eb)
      end.
Proof.
  intros (H1 & H2 & Hn) Hk. pose proof (length_bits_of p).
  assert (8 * (eb / 8) <= eb) by div_lia.
  rewrite (bits_between_split B sb (8 * start)) by lia. rewrite first_bit_app, Hn.
  rewrite (bits_between_split B (8 * start) k eb) by lia. rewrite first_bit_app.
  rewrite !length_bits_between by lia.
  destruct (first_bit b (bits_between B (8 * start) (k - 1))); mstep; [f_equal; lia|].
  destruct (first_bit b (bits_between B k eb)); mstep; [f_equal; lia|done].
Qed.

Lemma bitpos_byte x : is_byte x → redisBitpos addr2 [x] 0 1 (Z.b2z b) = Some (bitpos_of b (byte_bits x)).
Proof.
  intros Hx. rewrite bitpos_spec by (cbn; lia || by apply Forall_singleton).
  change (bits_of (sub [x] 0 1)) with (byte_bits x ++ []). by rewrite app_nil_r.
Qed.

(** The last byte. *)
Lemma search_last start bytes : none_before start → start = eb / 8 → bytes = 1 →
  ∃ y pos, load8 p (eb / 8) = Some y ∧
    redisBitpos addr2 [mask_byte (Z.b2z b) y (last_neg_mask eb)] 0 1 (Z.b2z b) = Some pos ∧
    found_ok b F sb (pos, start, bytes).
Proof.
  intros Hnb -> ->. destruct (sub_one p (eb / 8)) as (y & Hy & Hyb & _); [done|div_lia|].
  destruct (mask_last b y eb Hyb ltac:(lia)) as [Hbits Hok]. exists y, (bitpos_of b (byte_bits (mask_byte (Z.b2z b) y (last_neg_mask eb)))).
  split; [done|]. split; [by apply bitpos_byte|]. rewrite Hbits.
  destruct (edge_bits p (eb / 8) y (eb mod 8 + 1)) as [He _]; [div_lia|done|div_lia|].
  replace (8 * (eb / 8) + (eb mod 8 + 1) - 1) with eb in He by div_lia. rewrite <- He.
  pose proof (length_bits_of p).
  assert (Hlen : len (bits_between B (8 * (eb / 8)) eb ++ replicate (Z.to_nat (7 - eb mod 8)) (negb b)) = 8).
  { rewrite length_app, length_replicate, Nat2Z.inj_add, length_bits_between by div_lia. div_lia. }
  apply stage_ends; [lia| |lia]. rewrite first_bit_unfindable_end.
  pose proof (range_from (eb / 8) (eb + 1) Hnb ltac:(div_lia)) as HF. rewrite HF.
  replace (eb + 1 - 1) with eb by lia. destruct (first_bit b (bits_between B (8 * (eb / 8)) eb)); [done|].
  unfold bits_between. by replace (Z.to_nat (eb - (eb + 1) + 1)) with 0%nat by lia.
Qed.

(** The bytes in the middle and the last one. *)
Lemma search_rest start bytes m2 : none_before start → bytes = eb / 8 - start + 1 →
  m2 = last_neg_mask eb →
  ∃ r, (let curbytes := bytes - (if negb (m2 =? 0) then 1 else 0) in
    r ← (if curbytes >? 0 then
           pos ← redisBitpos addr p start curbytes (Z.b2z b);
           Some (if (bytes =? curbytes) || (negb (pos =? -1) && negb (pos =? Z.shiftl curbytes 3))
                 then inl (pos, start, bytes) else inr (start + curbytes, bytes - curbytes))
         else Some (inr (start, bytes)));
    match r with
    | inl res => Some res
    | inr (start, bytes) =>
      y ← load8 p (eb / 8);
      pos ← redisBitpos addr2 [mask_byte (Z.b2z b) y m2] 0 1 (Z.b2z b);
      Some (pos, start, bytes)
    end) = Some r ∧ found_ok b F sb r.
Proof.
  intros Hnb Hby ->. cbv zeta. pose proof Hnb as (Hsb' & Hst & Hn).
  destruct (sub_one p (eb / 8)) as (y0 & _ & Hyb0 & _); [done|div_lia|].
  destruct (last_mask_bits y0 eb Hyb0 ltac:(lia)) as (_ & _ & Hz).
  assert (He : 8 * (eb / 8) <= eb < 8 * (eb / 8) + 8 ∧ eb = 8 * (eb / 8) + eb mod 8) by div_lia.
  destruct (Z.eqb_spec (last_neg_mask eb) 0) as [Hm|Hm]; cbn [negb].
  - (* the whole last byte is in the range *)
    apply Hz in Hm. rewrite Z.sub_0_r. replace (bytes >? 0) with true by lia.
    rewrite bitpos_spec by (done || lia). mnext. rewrite Z.eqb_refl. cbn [orb]. mnext.
    eexists. split; [done|]. rewrite bits_of_sub by lia.
    replace (8 * (start + bytes) - 1) with eb by lia. pose proof (length_bits_of p).
    assert (Hl : len (bits_between B (8 * start) eb) = 8 * bytes) by (rewrite length_bits_between; lia).
    apply stage_ends; [lia| |lia]. rewrite (range_from start (eb + 1) Hnb) by lia.
    replace (eb + 1 - 1) with eb by lia. destruct (first_bit b (bits_between B (8 * start) eb)); [done|].
    unfold bits_between. by replace (Z.to_nat (eb - (eb + 1) + 1)) with 0%nat by lia.
  - assert (Hlast : ∀ start', none_before start' → start' = eb / 8 →
      ∃ r, (y ← load8 p (eb / 8);
        pos ← redisBitpos addr2 [mask_byte (Z.b2z b) y (last_neg_mask eb)] 0 1 (Z.b2z b);
        Some (pos, start', 1)) = Some r ∧ found_ok b F sb r).
    { intros start' Hnb' Hs'. destruct (search_last start' 1 Hnb' Hs' eq_refl) as (y & pos & -> & Hpos & Hok).
      mnext. rewrite Hpos. mnext. eauto. }
    destruct (decide (bytes = 1)) as [Hone|Hmore].
    { rewrite Hone. change (1 - 1 >? 0) with false. cbv iota. mnext. apply Hlast; [done|lia]. }
    replace (bytes - 1 >? 0) with true by lia. rewrite bitpos_spec by (done || lia). mnext.
    replace (bytes =? bytes - 1) with false by lia. cbn [orb].
    set (L := bits_of (sub p start (bytes - 1))).
    assert (HlenL : len L = 8 * (bytes - 1)) by (unfold L; rewrite length_bits_of, length_sub; lia).
    rewrite Z.shiftl_mul_pow2, (Z.mul_comm (bytes - 1)) by lia. change (2 ^ 3) with 8. rewrite <- HlenL, stage_test.
    assert (HL : L = bits_between B (8 * start) (8 * (eb / 8) - 1)).
    { unfold L. rewrite bits_of_sub by lia. f_equal. lia. }
    pose proof (range_from start (8 * (eb / 8)) Hnb ltac:(lia)) as HF. rewrite <- HL in HF.
    case_bool_decide as Hfound; mnext.
    + eexists. split; [done|]. destruct Hfound as [i Hi]. rewrite Hi in HF.
      apply stage_ends; [lia|by rewrite HF, Hi|by rewrite HF].
    + replace (bytes - (bytes - 1)) with 1 by lia. replace (start + (bytes - 1)) with (eb / 8) by lia.
      apply Hlast; [|done]. split; [lia|]. split; [lia|]. rewrite (bits_between_split B sb (8 * start)) by lia.
      rewrite first_bit_app, Hn, <- HL. by destruct (first_bit b L) as [i|]; [destruct Hfound|].
Qed.

(** The whole search in a range of bits. *)
Lemma search_bits :
  ∃ r, bitpos_search addr addr2 p (Z.b2z b) (sb / 8) (eb / 8) (first_neg_mask sb) (last_neg_mask eb) = Some r ∧
    found_ok b F sb r.
Proof.
  unfold bitpos_search. destruct (sub_one p (sb / 8)) as (x & Hx & Hxb & _); [done|div_lia|].
  destruct (first_mask_bits x sb Hxb ltac:(lia)) as (_ & _ & Hz).
  assert (Hd : 0 <= sb / 8 <= eb / 8 ∧ sb = 8 * (sb / 8) + sb mod 8 ∧ 0 <= sb mod 8 < 8 ∧
    8 * (eb / 8) <= eb < 8 * (eb / 8) + 8 ∧ eb = 8 * (eb / 8) + eb mod 8) by div_lia.
  pose proof (length_bits_of p) as HlB.
  destruct (Z.eqb_spec (first_neg_mask sb) 0) as [Hm|Hm]; cbn [negb].
  { mnext. apply Hz in Hm. apply search_rest; [|done|done]. split; [lia|]. split; [lia|].
    unfold bits_between. by replace (Z.to_nat _) with 0%nat by lia. }
  rewrite Hx. mnext. destruct (mask_first b x sb Hxb ltac:(lia)) as [Hbits Hok].
  destruct (edge_bits p (sb / 8) x (sb mod 8)) as [_ He1]; [lia|done|lia|].
  replace (8 * (sb / 8) + sb mod 8) with sb in He1 by lia.
  destruct (decide (eb / 8 = sb / 8)) as [Hone|Hmore].
  - (* one byte *)
    replace (eb / 8 - sb / 8 + 1 =? 1) with true by lia. rewrite andb_true_r. cbn [orb].
    assert (Htmp : ∃ t, (if negb (last_neg_mask eb =? 0) then
        mask_byte (Z.b2z b) (mask_byte (Z.b2z b) x (first_neg_mask sb)) (last_neg_mask eb)
        else mask_byte (Z.b2z b) x (first_neg_mask sb)) = t ∧ is_byte t ∧
        byte_bits t = replicate (Z.to_nat (sb mod 8)) (negb b) ++ bits_between B sb eb ++
          replicate (Z.to_nat (7 - eb mod 8)) (negb b)).
    { eexists. split; [done|].
      destruct (last_mask_bits x eb Hxb ltac:(lia)) as (_ & _ & Hz2).
      destruct (mask_last b _ eb Hok ltac:(lia)) as [Hbits2 Hok2].
      assert (Heq : take (Z.to_nat (eb mod 8 + 1)) (replicate (Z.to_nat (sb mod 8)) (negb b) ++
        bits_between B sb (8 * (sb / 8) + 7)) = replicate (Z.to_nat (sb mod 8)) (negb b) ++ bits_between B sb eb).
      { rewrite (take_app_ge) by (rewrite length_replicate; lia). f_equal. rewrite length_replicate.
        unfold bits_between. rewrite take_take. f_equal. lia. }
      destruct (Z.eqb_spec (last_neg_mask eb) 0) as [Hz0|Hz0]; cbn [negb].
      - split; [done|]. apply Hz2 in Hz0. rewrite Hz0. cbn [Z.sub Z.to_nat replicate]. rewrite app_nil_r, Hbits.
        f_equal. rewrite <- He1. f_equal. lia.
      - split; [done|]. rewrite Hbits2, Hbits, <- He1, Heq. by rewrite <- app_assoc. }
    destruct Htmp as (t & -> & Ht & Htb). rewrite bitpos_byte by done. do 2 mnext. eexists. split; [done|].
    rewrite Htb. assert (len (replicate (Z.to_nat (sb mod 8)) (negb b) ++ bits_between B sb eb ++
      replicate (Z.to_nat (7 - eb mod 8)) (negb b)) = 8) as Hl.
    { rewrite !length_app, !length_replicate, !Nat2Z.inj_add, length_bits_between by lia. lia. }
    apply stage_ends; [lia| |lia]. rewrite first_bit_unfindable, first_bit_unfindable_end.
    destruct (first_bit b (bits_between B sb eb)); mstep; [f_equal; lia|done].
  - replace (eb / 8 - sb / 8 + 1 =? 1) with false by lia. rewrite andb_false_r. cbn [orb].
    rewrite bitpos_byte by done. mnext. rewrite Hbits, <- He1.
    set (T := replicate (Z.to_nat (sb mod 8)) (negb b) ++ bits_between B sb (8 * (sb / 8) + 7)).
    assert (HlT : len T = 8).
    { unfold T. rewrite length_app, length_replicate, Nat2Z.inj_add, length_bits_between by lia. lia. }
    assert (HT : first_bit b T = Z.add (sb mod 8) <$> first_bit b (bits_between B sb (8 * (sb / 8) + 7))).
    { unfold T. rewrite first_bit_unfindable. by rewrite Z2Nat.id by lia. }
    pose proof (stage_test b T) as Htest. rewrite HlT in Htest. rewrite Htest.
    case_bool_decide as Hfound; mnext.
    + eexists. split; [done|]. apply stage_ends; [lia| |].
      * rewrite (bits_between_split B sb (8 * (sb / 8) + 8)), first_bit_app by lia.
        replace (8 * (sb / 8) + 8 - 1) with (8 * (sb / 8) + 7) by lia. rewrite HT in Hfound |- *.
        destruct (first_bit b (bits_between B sb (8 * (sb / 8) + 7))) as [i|]; mstep; [f_equal; lia|].
        by destruct Hfound.
      * rewrite (bits_between_split B sb (8 * (sb / 8) + 8)), first_bit_app by lia.
        replace (8 * (sb / 8) + 8 - 1) with (8 * (sb / 8) + 7) by lia. rewrite HT in Hfound.
        destruct (first_bit b (bits_between B sb (8 * (sb / 8) + 7))) as [i|]; [done|by destruct Hfound].
    + apply search_rest; [|lia|done]. split; [lia|]. split; [lia|].
      replace (8 * (sb / 8 + 1) - 1) with (8 * (sb / 8) + 7) by lia. rewrite HT in Hfound.
      destruct (first_bit b (bits_between B sb (8 * (sb / 8) + 7))); [|done]. by destruct Hfound.
Qed.

End bitpos_search.

(** The reply once the range is known. *)
Lemma bitpos_reply `{Host} addr addr2 p (b end_given isbit : bool) s e st en m1 m2 : bytes_ok p →
  (isbit = true → end_given = true) →
  byte_range isbit s e = (st, en, m1, m2) → 0 <= s → -1 <= e → e < (if isbit then 8 * len p else len p) →
  let sb := s * (if isbit then 1 else 8) in
  let eb := if isbit then e else 8 * e + 7 in
  (if st >? en then Some (RInt (-1))
   else
     '(pos, start, bytes) ← bitpos_search addr addr2 p (Z.b2z b) st en m1 m2;
     Some (RInt (if end_given && (Z.b2z b =? 0) && (pos =? Z.shiftl bytes 3) then -1
                 else if negb (pos =? -1) then pos + Z.shiftl start 3 else pos))) =
  Some (RInt match first_bit b (bits_between (bits_of p) sb eb) with
             | Some i => sb + i
             | None => if end_given || b || (eb <? sb) then -1 else eb + 1
             end).
Proof.
  intros Hp Hgiven Hr Hs He0 He. cbv zeta. unfold byte_range in Hr.
  destruct (decide (s <= e)) as [Hle|Hgt].
  2: { replace (s <=? e) with false in Hr by lia. rewrite andb_false_r in Hr. injection Hr as <- <- <- <-.
       replace (s >? e) with true by lia. do 2 f_equal. unfold bits_between.
       replace (Z.to_nat (_ - _ + 1)) with 0%nat by (destruct isbit; lia). cbn [take first_bit].
       replace ((if isbit then e else 8 * e + 7) <? s * (if isbit then 1 else 8)) with true by (destruct isbit; lia).
       by rewrite orb_true_r. }
  replace (s <=? e) with true in Hr by lia. rewrite andb_true_r in Hr. destruct isbit; injection Hr as <- <- <- <-.
  - rewrite Hgiven, Z.mul_1_r, !shiftr_3 by done. cbn [andb orb].
    replace (s / 8 >? e / 8) with false by div_lia.
    destruct (search_bits addr addr2 p b s e Hp) as ([[pos start] bytes] & -> & Hok); [lia..|]. mnext. do 2 f_equal.
    unfold found_ok in Hok. rewrite !Z.shiftl_mul_pow2 by lia. change (2 ^ 3) with 8.
    destruct (first_bit b (bits_between (bits_of p) s e)) as [i|].
    + replace (pos =? bytes * 8) with false by lia. rewrite andb_false_r. replace (pos =? -1) with false by lia.
      cbn [negb]. lia.
    + destruct b; subst pos; cbn [Z.b2z Z.eqb andb negb]; [done|]. by replace (8 * bytes =? bytes * 8) with true by lia.
  - replace (s >? e) with false by lia. unfold bitpos_search. cbn [Z.eqb negb]. mnext.
    rewrite Z.sub_0_r. replace (e - s + 1 >? 0) with true by lia. rewrite bitpos_spec by (done || lia). mnext.
    rewrite Z.eqb_refl. cbn [orb]. do 2 mnext. do 2 f_equal. rewrite bits_of_sub by lia.
    replace (8 * (s + (e - s + 1)) - 1) with (8 * e + 7) by lia. rewrite (Z.mul_comm s 8).
    pose proof (length_bits_of p). unfold bitpos_of. rewrite length_bits_between by lia.
    rewrite !Z.shiftl_mul_pow2 by lia. change (2 ^ 3) with 8.
    destruct (first_bit b (bits_between (bits_of p) (8 * s) (8 * e + 7))) as [i|] eqn:Hi; cbn [default id].
    + apply first_bit_range in Hi. rewrite length_bits_between in Hi by lia.
      replace (i =? (e - s + 1) * 8) with false by lia. rewrite andb_false_r. replace (i =? -1) with false by lia.
      cbn [negb]. lia.
    + replace (8 * e + 7 <? 8 * s) with false by lia. rewrite orb_false_r.
      destruct b; cbn [Z.b2z Z.eqb]; [by rewrite andb_false_r, orb_true_r|]. rewrite andb_true_r, orb_false_r.
      replace (8 * e + 7 - 8 * s + 1 =? (e - s + 1) * 8) with true by lia. rewrite andb_true_r.
      destruct end_given; [done|]. replace (_ =? -1) with false by lia. cbn [negb]. lia.
Qed.

(** BITPOS replies the first bit with the given value in the string or in the
    given range of bytes or bits, counted from the start of the string; when
    there is none the reply is -1, but for a clear bit and no given end it is the
    position after the string. *)
Theorem bitpos_correct `{Host} addr addr2 o s (b : bool) start end_ u isbit : value_ok o → o ≠ None →
  value_string o = Some s →
  LLONG_MIN <= start <= LLONG_MAX → LLONG_MIN <= end_ <= LLONG_MAX → unit_of_argument u = Some isbit →
  let spec (given : bool) from to := RInt
    match first_bit b (bits_between (bits_of s) from to) with
    | Some i => from + i
    | None => if given || b || (to <? from) then -1 else to + 1
    end in
  let reply := bitposCommand addr addr2 o (dec_string (Z.b2z b)) in
  reply [] = Some (spec false 0 (8 * len s - 1)) ∧
  reply [dec_string start] = Some (spec false (range_start false (len s) start) (8 * len s - 1)) ∧
  reply (dec_string start :: dec_string end_ :: option_list u) =
    Some (spec true (range_start isbit (len s) start) (range_end isbit (len s) end_)).
Proof.
  intros Hok Ho Hs Hst Hen Hu spec reply. destruct (read_only_spec o s Hok Hs) as (Hro & Hbs & Hlen).
  assert (Hlm : (len s >? Z.shiftr LLONG_MAX 3) = false).
  { unfold LLONG_MAX. rewrite Z.shiftr_div_pow2 by lia. change ((2 ^ 63 - 1) / 2 ^ 3) with (2 ^ 60 - 1). lia. }
  assert (Hcmd : ∀ args, reply args = r ← bitpos_range (len s) args;
    match r with
    | inr e => Some (RErr e)
    | inl (end_given, (st, en, m1, m2)) =>
      if st >? en then Some (RInt (-1))
      else
        '(pos, start, bytes) ← bitpos_search addr addr2 s (Z.b2z b) st en m1 m2;
        Some (RInt (if end_given && (Z.b2z b =? 0) && (pos =? Z.shiftl bytes 3) then -1
                    else if negb (pos =? -1) then pos + Z.shiftl start 3 else pos))
    end).
  { intros args. unfold reply, bitposCommand. rewrite parse_int by (unfold LLONG_MIN, LLONG_MAX; destruct b; cbn; lia).
    mnext. replace (negb (Z.b2z b =? 0) && negb (Z.b2z b =? 1)) with false by by destruct b.
    destruct o as [[t|n|]|]; try done; by rewrite Hro. }
  rewrite !Hcmd. clear Hcmd reply. split; [|split].
  - unfold bitpos_range. mnext.
    rewrite (bitpos_reply addr addr2 s b false false 0 (len s - 1)) by (done || lia).
    unfold spec. replace (8 * (len s - 1) + 7) with (8 * len s - 1) by lia. done.
  - assert (bitpos_range (len s) [dec_string start] =
      let '(st, en) := clamp_range (len s) start (len s - 1) in
      Some (inl (false, byte_range false st en))) as ->.
    { unfold bitpos_range. rewrite Hlm, (parse_int start) by done. mnext. cbn [lookup list_lookup unit_of_argument].
      mnext. done. }
    pose proof (clamp_spec false (len s) start (len s - 1) ltac:(lia)) as Hc. cbv iota in Hc.
    destruct (clamp_range (len s) start (len s - 1)) as [st en]. destruct Hc as (Hs1 & He1 & ? & ? & ?). mnext.
    destruct (byte_range false st en) as [[[? ?] ?] ?] eqn:Hr.
    rewrite (bitpos_reply addr addr2 s b false false st en) by done. unfold spec. rewrite Hs1.
    assert (8 * en + 7 = 8 * len s - 1) as ->; [|done].
    rewrite <- He1. unfold range_end, index_of. destruct (Z.ltb_spec (len s - 1) 0); lia.
  - assert (bitpos_range (len s) (dec_string start :: dec_string end_ :: option_list u) =
      let '(st, en) := clamp_range (if isbit then Z.shiftl (len s) 3 else len s) start end_ in
      Some (inl (true, byte_range isbit st en))) as ->.
    { unfold bitpos_range. destruct u as [u|]; cbn [option_list option_rect]; rewrite Hlm, (parse_int start) by done;
        mnext; cbn [lookup list_lookup]; rewrite Hu, (parse_int end_) by done; mnext; mstep; done. }
    pose proof (clamp_spec isbit (len s) start end_ ltac:(lia)) as Hc.
    destruct (clamp_range _ start end_) as [st en]. destruct Hc as (Hs1 & He1 & ? & ? & ?). mnext.
    destruct (byte_range isbit st en) as [[[? ?] ?] ?] eqn:Hr.
    rewrite (bitpos_reply addr addr2 s b true isbit st en) by done. unfold spec. by rewrite Hs1, He1.
Qed.

Lemma bitpos_correct_witness :
  let o := Some (VStr [255; 240; 0]) in
  let reply := bitposCommand (H := le_host) 5 0 o (dec_string (Z.b2z false)) in
  reply [] = Some (RInt 12) ∧ reply [dec_string 2] = Some (RInt 16) ∧
  reply (dec_string 2 :: dec_string 9 :: option_list (Some [98; 105; 116])) = Some (RInt (-1)).
Proof.
  apply (bitpos_correct (H := le_host) 5 0 (Some (VStr [255; 240; 0])) [255; 240; 0] false 2 9
    (Some [98; 105; 116]) true);
    [split; [by_decision|done]|done|done|by_decision|by_decision|reflexivity].
Defined.
