(* ===== verification/BitopCommand.v ===== *)
(** BITOP (bitops.c): the word by word fast path and the byte by byte rest give
    the bytewise operation on the source strings padded with zeros. *)
From Stdlib Require Import String.
From S2P Require Import Prelude Bits Endian UtilNum UtilText Bitops BitopsSpec BitopsTheorems.

(** Byte [i] of a string, zero beyond its end. *)
Definition byte0 (s : list Z) (i : Z) : Z := default 0 (s !! Z.to_nat i).

Lemma byte0_ok s i : bytes_ok s → is_byte (byte0 s i).
Proof.
  intros Hs. unfold byte0. destruct (s !! Z.to_nat i) as [x|] eqn:E; [|done].
  by eapply Forall_lookup_1.
Qed.

Lemma byte0_sub m p n k : 0 <= p → 0 <= k < n → byte0 (sub m p n) k = byte0 m (p + k).
Proof.
  intros Hp Hk. unfold byte0, sub. rewrite lookup_take_lt, lookup_drop by lia.
  by replace (Z.to_nat p + Z.to_nat k)%nat with (Z.to_nat (p + k)) by lia.
Qed.

Lemma byte0_eq s t : length s = length t → (∀ i, 0 <= i < len s → byte0 s i = byte0 t i) → s = t.
Proof.
  intros Hl Hb. apply list_eq. intros n. destruct (decide (n < length s)%nat) as [Hn|Hn].
  - specialize (Hb (Z.of_nat n) ltac:(lia)). unfold byte0 in Hb. rewrite !Nat2Z.id in Hb.
    destruct (lookup_lt_is_Some_2 s n) as [x Hx]; [done|]. destruct (lookup_lt_is_Some_2 t n) as [y Hy]; [lia|].
    rewrite Hx, Hy in *. cbn in Hb. congruence.
  - rewrite !lookup_ge_None_2 by lia. done.
Qed.

(** ** Words *)

(** Operations on each pair of bits. *)
Definition bitwise (f : Z → Z → Z) : Prop :=
  ∃ g : bool → bool → bool, g false false = false ∧
    ∀ x y i, Z.testbit (f x y) i = g (Z.testbit x i) (Z.testbit y i).

Lemma bitwise_land : bitwise Z.land.
Proof. exists andb. split; [done|]. apply Z.land_spec. Qed.
Lemma bitwise_lor : bitwise Z.lor.
Proof. exists orb. split; [done|]. apply Z.lor_spec. Qed.
Lemma bitwise_lxor : bitwise Z.lxor.
Proof. exists xorb. split; [done|]. apply Z.lxor_spec. Qed.

Section bitwise.
Context (f : Z → Z → Z) (Hf : bitwise f).

Lemma bitwise_mod x y : f x y mod 256 = f (x mod 256) (y mod 256).
Proof.
  destruct Hf as (g & Hg & Hs). change 256 with (2 ^ 8). bits i. rewrite Hs.
  destruct (decide (i < 8)).
  - by rewrite !Z.mod_pow2_bits_low, Hs by lia.
  - by rewrite !Z.mod_pow2_bits_high by lia.
Qed.

Lemma bitwise_div x y : f x y / 256 = f (x / 256) (y / 256).
Proof.
  destruct Hf as (g & Hg & Hs). change 256 with (2 ^ 8). rewrite <- !Z.shiftr_div_pow2 by lia.
  bits i. by rewrite Hs, !Z.shiftr_spec, Hs by lia.
Qed.

Lemma bitwise_byte x y : is_byte x → is_byte y → is_byte (f x y).
Proof.
  intros Hx Hy. unfold is_byte in *. rewrite <- (Z.mod_small x 256), <- (Z.mod_small y 256), <- bitwise_mod by lia.
  apply Z.mod_pos_bound. lia.
Qed.

Lemma le_bytes_bitwise a b : bytes_ok a → bytes_ok b → length a = length b →
  le_bytes (length a) (f (le_val a) (le_val b)) = zip_with f a b.
Proof.
  intros Ha. revert b. induction Ha as [|x a Hx _ IH]; intros b Hb Hl; [by destruct b|].
  destruct Hb as [|y b Hy Hb]; [done|]. cbn [length] in *. unfold is_byte in Hx, Hy.
  change (le_bytes (S (length a)) ?z) with (z mod 256 :: le_bytes (length a) (z / 256)). cbn [zip_with].
  rewrite bitwise_mod, bitwise_div, !le_val_cons, !(Z.mul_comm 256), !Z_mod_plus_full, !Z.div_add by lia.
  rewrite !(Z.mod_small _ 256), !(Z.div_small _ 256), !Z.add_0_l by lia. f_equal. apply IH; [done|lia].
Qed.

Lemma zip_with_reverse {A B C} (h : A → B → C) a b : length a = length b →
  zip_with h (reverse a) (reverse b) = reverse (zip_with h a b).
Proof.
  revert b. induction a as [|x a IH]; intros [|y b] Hl; try done. cbn [zip_with length] in *.
  rewrite !reverse_cons, zip_with_app, IH by (rewrite ?length_reverse; lia). done.
Qed.

Lemma host_bytes_bitwise `{Host} n a b : bytes_ok a → bytes_ok b → length a = n → length b = n →
  host_bytes n (f (host_val a) (host_val b)) = zip_with f a b.
Proof.
  intros Ha Hb <- Hl. unfold host_bytes, host_val. destruct big_endian; [|by apply le_bytes_bitwise].
  rewrite <- (length_reverse a), le_bytes_bitwise by (rewrite ?length_reverse; auto; by apply Forall_reverse).
  by rewrite zip_with_reverse, reverse_involutive by done.
Qed.

End bitwise.

Lemma le_bytes_not a : bytes_ok a →
  le_bytes (length a) (2 ^ (8 * len a) - 1 - le_val a) = (λ x, 255 - x) <$> a.
Proof.
  induction 1 as [|x a Hx _ IH]; [done|]. cbn [length]. unfold is_byte in Hx.
  change (le_bytes (S (length a)) ?z) with (z mod 256 :: le_bytes (length a) (z / 256)).
  rewrite le_val_cons, fmap_cons, <- IH.
  replace (2 ^ (8 * Z.of_nat (S (length a))) - 1 - (x + 256 * le_val a)) with
    ((255 - x) + (2 ^ (8 * len a) - 1 - le_val a) * 256).
  - rewrite Z_mod_plus_full, Z.div_add, Z.mod_small, Z.div_small, Z.add_0_l by lia. done.
  - replace (8 * Z.of_nat (S (length a))) with (8 + 8 * len a) by lia. rewrite Z.pow_add_r by lia. lia.
Qed.

Lemma host_bytes_not `{Host} a : bytes_ok a → length a = 8%nat →
  host_bytes 8 (u64 (Z.lnot (host_val a))) = (λ x, 255 - x) <$> a.
Proof.
  intros Ha Hl. assert (Hn : ∀ c, bytes_ok c → length c = 8%nat →
    le_bytes 8 (u64 (Z.lnot (le_val c))) = (λ x, 255 - x) <$> c).
  { intros c Hc Hlc. rewrite <- le_bytes_not by done. rewrite Hlc. f_equal.
    pose proof (le_val_range c Hc) as Hr. rewrite Hlc in Hr. change (8 * Z.of_nat 8) with 64 in *.
    pose proof (Z.add_lnot_diag (le_val c)). unfold wrapu. symmetry. apply (Z.mod_unique _ _ (-1)); lia. }
  unfold host_bytes, host_val. destruct big_endian; [|by apply Hn].
  rewrite Hn by (rewrite ?length_reverse; auto; by apply Forall_reverse).
  by rewrite fmap_reverse, reverse_involutive.
Qed.

(** ** The fast path *)

(** [res'] is [res] with the bytes of [lo, hi) given by [h]. *)
Definition patched (lo hi : Z) (h : Z → Z) (res res' : list Z) : Prop :=
  bytes_ok res' ∧ length res' = length res ∧
  ∀ i, 0 <= i → byte0 res' i = if (lo <=? i) && (i <? hi) then h i else byte0 res i.

Lemma store_patched res off w h : bytes_ok res → bytes_ok w → 0 <= off → off + len w <= len res →
  (∀ k, 0 <= k < len w → byte0 w k = h (off + k)) →
  ∃ res', store res off w = Some res' ∧ patched off (off + len w) h res res'.
Proof.
  intros Hres Hw Hoff Hl Hh. unfold store, in_range. if_true. eexists. split; [done|]. split; [|split].
  - apply Forall_app. split; [by apply Forall_take|]. apply Forall_app. split; [done|by apply Forall_drop].
  - len_lia.
  - intros i Hi. unfold byte0. destruct (decide (i < off)) as [H1|H1].
    + rewrite lookup_app_l by len_lia. rewrite lookup_take_lt by lia. by if_false.
    + rewrite lookup_app_r by len_lia. rewrite length_take. destruct (decide (i < off + len w)) as [H2|H2].
      * rewrite lookup_app_l by lia. if_true. specialize (Hh (i - off) ltac:(lia)). unfold byte0 in Hh.
        replace (off + (i - off)) with i in Hh by lia. rewrite <- Hh. do 2 f_equal. lia.
      * rewrite lookup_app_r by lia. rewrite lookup_drop. if_false. do 2 f_equal. lia.
Qed.

Lemma word_binop_spec `{Host} f res src off : bitwise f → bytes_ok res → bytes_ok src → 0 <= off →
  off + 8 <= len res → off + 8 <= len src →
  ∃ res', word_binop f res src off = Some res' ∧
    patched off (off + 8) (λ i, f (byte0 res i) (byte0 src i)) res res'.
Proof.
  intros Hf Hres Hsrc Hoff H1 H2. unfold word_binop, load_u64. rewrite !load_sub by lia. mstep.
  pose proof (length_sub res off 8 Hoff ltac:(lia) H1) as L1.
  pose proof (length_sub src off 8 Hoff ltac:(lia) H2) as L2.
  assert (bytes_ok (sub res off 8)) as O1 by by apply sub_ok.
  assert (bytes_ok (sub src off 8)) as O2 by by apply sub_ok.
  rewrite (host_bytes_bitwise f Hf) by (done || lia).
  assert (Hlz : len (zip_with f (sub res off 8) (sub src off 8)) = 8) by (rewrite length_zip_with; lia).
  destruct (store_patched res off (zip_with f (sub res off 8) (sub src off 8))
    (λ i, f (byte0 res i) (byte0 src i))) as (res' & -> & Hp); [done| |done|lia| |].
  - eapply Forall_zip_with_fst; [exact O1|]. eapply Forall_impl; [exact O2|]. intros y Hy x Hx.
    by apply (bitwise_byte f Hf).
  - intros k Hk. rewrite Hlz in Hk. rewrite <- !(byte0_sub _ off 8) by lia. unfold byte0. rewrite lookup_zip_with.
    destruct (lookup_lt_is_Some_2 (sub res off 8) (Z.to_nat k)) as [x ->]; [lia|].
    destruct (lookup_lt_is_Some_2 (sub src off 8) (Z.to_nat k)) as [y ->]; [lia|]. done.
  - rewrite Hlz in Hp. eauto.
Qed.

Lemma word_not_spec `{Host} res off : bytes_ok res → 0 <= off → off + 8 <= len res →
  ∃ res', word_not res off = Some res' ∧ patched off (off + 8) (λ i, 255 - byte0 res i) res res'.
Proof.
  intros Hres Hoff H1. unfold word_not, load_u64. rewrite load_sub by lia. mstep.
  pose proof (length_sub res off 8 Hoff ltac:(lia) H1) as L1.
  assert (bytes_ok (sub res off 8)) as O1 by by apply sub_ok.
  rewrite host_bytes_not by (done || lia).
  destruct (store_patched res off ((λ x, 255 - x) <$> sub res off 8) (λ i, 255 - byte0 res i))
    as (res' & -> & Hp); [done| |done|rewrite length_fmap; lia| |].
  - apply Forall_fmap. eapply Forall_impl; [exact O1|]. unfold is_byte. cbn. lia.
  - intros k Hk. rewrite length_fmap in Hk. rewrite <- (byte0_sub _ off 8) by lia. unfold byte0.
    rewrite list_lookup_fmap. destruct (lookup_lt_is_Some_2 (sub res off 8) (Z.to_nat k)) as [x ->]; [lia|]. done.
  - rewrite length_fmap, L1 in Hp. eauto.
Qed.

(** Patching neighbouring ranges, and the same range again. *)
Lemma patched_next lo mid hi (F : Z → Z → Z) res r1 r2 : lo <= mid → mid <= hi →
  patched lo mid (λ i, F i (byte0 res i)) res r1 → patched mid hi (λ i, F i (byte0 r1 i)) r1 r2 →
  patched lo hi (λ i, F i (byte0 res i)) res r2.
Proof.
  intros Hlm Hmh (_ & L1 & E1) (O2 & L2 & E2). split; [done|]. split; [lia|]. intros i Hi.
  rewrite E2, E1 by done. destruct (decide (lo <= i < mid)), (decide (mid <= i < hi)); try lia.
  - replace ((mid <=? i) && (i <? hi)) with false by lia. replace ((lo <=? i) && (i <? mid)) with true by lia.
    by replace ((lo <=? i) && (i <? hi)) with true by lia.
  - replace ((mid <=? i) && (i <? hi)) with true by lia. replace ((lo <=? i) && (i <? mid)) with false by lia.
    by replace ((lo <=? i) && (i <? hi)) with true by lia.
  - replace ((mid <=? i) && (i <? hi)) with false by lia. replace ((lo <=? i) && (i <? mid)) with false by lia.
    by replace ((lo <=? i) && (i <? hi)) with false by lia.
Qed.

Lemma patched_again lo hi (F G : Z → Z → Z) res r1 r2 :
  patched lo hi (λ i, F i (byte0 res i)) res r1 → patched lo hi (λ i, G i (byte0 r1 i)) r1 r2 →
  patched lo hi (λ i, G i (F i (byte0 res i))) res r2.
Proof.
  intros (_ & L1 & E1) (O2 & L2 & E2). split; [done|]. split; [lia|]. intros i Hi.
  rewrite E2, E1 by done. by destruct ((lo <=? i) && (i <? hi)).
Qed.

Lemma patched_refl lo hi (F : Z → Z → Z) res : bytes_ok res →
  (∀ i, lo <= i < hi → 0 <= i → F i (byte0 res i) = byte0 res i) →
  patched lo hi (λ i, F i (byte0 res i)) res res.
Proof.
  intros Hres HF. split; [done|]. split; [done|]. intros i Hi.
  destruct ((lo <=? i) && (i <? hi)) eqn:E; [|done]. rewrite HF by lia. done.
Qed.

(** The bytes of the sources at [i]. *)
Abbreviation at_ srcs i := ((λ s, byte0 s i) <$> srcs).

Lemma block_sources_spec `{Host} f res srcs j : bitwise f → bytes_ok res → Forall bytes_ok srcs → 0 <= j →
  j + 32 <= len res → Forall (λ s, j + 32 <= len s) srcs →
  ∃ res', block_sources f res srcs j = Some res' ∧
    patched j (j + 32) (λ i, foldl f (byte0 res i) (at_ srcs i)) res res'.
Proof.
  intros Hf Hres Hsrcs Hj Hl Hls. revert res Hres Hl.
  induction Hsrcs as [|s srcs Hs Hsrcs IH]; intros res Hres Hl; cbn [block_sources].
  { exists res. split; [done|]. apply (patched_refl j (j + 32) (λ _ x, x)); done. }
  inversion_clear Hls as [|? ? Hl1 Hls'].
  destruct (word_binop_spec f res s j) as (r1 & -> & P1); [done..|lia|lia|]. mnext. pose proof P1 as (O1 & L1 & _).
  destruct (word_binop_spec f r1 s (j + 8)) as (r2 & -> & P2); [done..|lia|lia|lia|]. mnext. pose proof P2 as (O2 & L2 & _).
  destruct (word_binop_spec f r2 s (j + 16)) as (r3 & -> & P3); [done..|lia|lia|lia|]. mnext. pose proof P3 as (O3 & L3 & _).
  destruct (word_binop_spec f r3 s (j + 24)) as (r4 & -> & P4); [done..|lia|lia|lia|]. mnext. pose proof P4 as (O4 & L4 & _).
  rewrite <- Z.add_assoc in P2, P3, P4. cbn [Z.add Pos.add Pos.succ] in P2, P3, P4.
  pose proof (patched_next j (j + 8) (j + 16) (λ i x, f x (byte0 s i)) res r1 r2 ltac:(lia) ltac:(lia) P1 P2) as Q2.
  pose proof (patched_next j (j + 16) (j + 24) (λ i x, f x (byte0 s i)) res r2 r3 ltac:(lia) ltac:(lia) Q2 P3) as Q3.
  pose proof (patched_next j (j + 24) (j + 32) (λ i x, f x (byte0 s i)) res r3 r4 ltac:(lia) ltac:(lia) Q3 P4) as Q4.
  destruct (IH Hls' r4 O4) as (res' & -> & P5); [lia|]. exists res'. split; [done|].
  exact (patched_again j (j + 32) (λ i x, f x (byte0 s i)) (λ i x, foldl f x (at_ srcs i)) res r4 res' Q4 P5).
Qed.

(** The operation on one byte of each source. *)
Definition combine (op : bitop) (x : Z) (ys : list Z) : Z :=
  match op with
  | BITOP_AND => foldl Z.land x ys
  | BITOP_OR => foldl Z.lor x ys
  | BITOP_XOR => foldl Z.lxor x ys
  | BITOP_NOT => 255 - x
  end.

Lemma bitop_block_spec `{Host} op res srcs j : bytes_ok res → Forall bytes_ok srcs → 0 <= j →
  j + 32 <= len res → Forall (λ s, j + 32 <= len s) srcs →
  ∃ res', bitop_block op res srcs j = Some res' ∧
    patched j (j + 32) (λ i, combine op (byte0 res i) (at_ srcs i)) res res'.
Proof.
  intros Hres Hsrcs Hj Hl Hls. unfold bitop_block. destruct op; cbn [combine].
  - apply block_sources_spec; auto using bitwise_land.
  - apply block_sources_spec; auto using bitwise_lor.
  - apply block_sources_spec; auto using bitwise_lxor.
  - destruct (word_not_spec res j) as (r1 & -> & P1); [done..|lia|]. mnext. pose proof P1 as (O1 & L1 & _).
    destruct (word_not_spec r1 (j + 8)) as (r2 & -> & P2); [done..|lia|lia|]. mnext. pose proof P2 as (O2 & L2 & _).
    destruct (word_not_spec r2 (j + 16)) as (r3 & -> & P3); [done..|lia|lia|]. mnext. pose proof P3 as (O3 & L3 & _).
    destruct (word_not_spec r3 (j + 24)) as (r4 & -> & P4); [done..|lia|lia|].
    rewrite <- Z.add_assoc in P2, P3, P4. cbn [Z.add Pos.add Pos.succ] in P2, P3, P4. exists r4. split; [done|].
    pose proof (patched_next j (j + 8) (j + 16) (λ _ x, 255 - x) res r1 r2 ltac:(lia) ltac:(lia) P1 P2) as Q2.
    pose proof (patched_next j (j + 16) (j + 24) (λ _ x, 255 - x) res r2 r3 ltac:(lia) ltac:(lia) Q2 P3) as Q3.
    exact (patched_next j (j + 24) (j + 32) (λ _ x, 255 - x) res r3 r4 ltac:(lia) ltac:(lia) Q3 P4).
Qed.

Lemma bitop_fast_spec `{Host} fuel op res srcs j minlen : bytes_ok res → Forall bytes_ok srcs → 0 <= j →
  0 <= minlen → j + minlen <= len res → Forall (λ s, j + minlen <= len s) srcs → (Z.to_nat minlen <= fuel)%nat →
  ∃ res' j', bitop_fast fuel op res srcs j minlen = Some (res', j') ∧ j <= j' <= j + minlen ∧
    patched j j' (λ i, combine op (byte0 res i) (at_ srcs i)) res res'.
Proof.
  revert res j minlen. induction fuel as [|fuel IH]; intros res j minlen Hres Hsrcs Hj Hm Hl Hls Hf; cbn [bitop_fast].
  { if_false. exists res, j. split; [done|]. split; [lia|].
    apply (patched_refl j j (λ i x, combine op x (at_ srcs i))); [done|lia]. }
  destruct (Z.geb_spec minlen 32) as [Hge|Hlt].
  2: { exists res, j. split; [done|]. split; [lia|].
       apply (patched_refl j j (λ i x, combine op x (at_ srcs i))); [done|lia]. }
  destruct (bitop_block_spec op res srcs j) as (r1 & -> & P1); [done..|lia| |].
  { eapply Forall_impl; [exact Hls|]. cbn. lia. }
  mnext. pose proof P1 as (O1 & L1 & _).
  destruct (IH r1 (j + 32) (minlen - 32)) as (res' & j' & -> & Hj' & P2); [done..|lia|lia|lia| |lia|].
  { eapply Forall_impl; [exact Hls|]. cbn. lia. }
  exists res', j'. split; [done|]. split; [lia|].
  exact (patched_next j (j + 32) j' (λ i x, combine op x (at_ srcs i)) res r1 res' ltac:(lia) ltac:(lia) P1 P2).
Qed.

(** ** The bytes that are left *)

Lemma byte_at_spec s j : 0 <= j → byte_at s j = Some (byte0 s j).
Proof.
  intros Hj. unfold byte_at, byte0, load8. destruct (Z.leb_spec (len s) j).
  - by rewrite lookup_ge_None_2 by lia.
  - if_true. destruct (lookup_lt_is_Some_2 s (Z.to_nat j)) as [x ->]; [lia|]. done.
Qed.

Lemma foldl_land_0 ys : foldl Z.land 0 ys = 0.
Proof. induction ys as [|y ys IH]; [done|]. cbn [foldl]. by rewrite Z.land_0_l. Qed.

Lemma lor_255 y : is_byte y → Z.lor 255 y = 255.
Proof.
  intros Hy. pose proof (forall_below (λ y, Z.lor 255 y =? 255) 256 ltac:(by vm_compute) y Hy). lia.
Qed.

Lemma foldl_lor_255 ys : bytes_ok ys → foldl Z.lor 255 ys = 255.
Proof. induction 1 as [|y ys Hy _ IH]; [done|]. cbn [foldl]. by rewrite lor_255. Qed.

Lemma at_ok srcs i : Forall bytes_ok srcs → bytes_ok (at_ srcs i).
Proof. intros Hs. apply Forall_fmap. eapply Forall_impl; [exact Hs|]. intros s Hsb. by apply byte0_ok. Qed.

(** Leaving the loop early makes no difference. *)
Lemma bitop_byte_spec op x srcs j : Forall bytes_ok srcs → 0 <= j →
  bitop_byte op x srcs j = Some (match op with BITOP_NOT => x | _ => combine op x (at_ srcs j) end).
Proof.
  intros Hs Hj. revert x. induction Hs as [|s srcs Hs Hsrcs IH]; intros x; cbn [bitop_byte].
  { by destruct op. }
  rewrite byte_at_spec by done. mnext. destruct op; cbn [combine]; rewrite ?fmap_cons; cbn [foldl]; try apply IH.
  - destruct (Z.eqb_spec (Z.land x (byte0 s j)) 0) as [->|]; [by rewrite foldl_land_0|apply IH].
  - destruct (Z.eqb_spec (Z.lor x (byte0 s j)) 255) as [->|]; [|apply IH].
    rewrite foldl_lor_255; [done|]. by apply at_ok.
Qed.

Lemma combine_byte op x ys : is_byte x → bytes_ok ys → is_byte (combine op x ys).
Proof.
  intros Hx Hys. destruct op; cbn [combine]; [| | |unfold is_byte in *; lia];
    revert x Hx; induction Hys as [|y ys Hy _ IH]; intros x Hx; cbn [foldl]; auto; apply IH.
  - by apply (bitwise_byte _ bitwise_land).
  - by apply (bitwise_byte _ bitwise_lor).
  - by apply (bitwise_byte _ bitwise_lxor).
Qed.

Lemma bitop_slow_spec n op res src0 srcs j : bytes_ok res → bytes_ok src0 → Forall bytes_ok srcs → 0 <= j →
  j + Z.of_nat n <= len res →
  ∃ res', bitop_slow n op res src0 srcs j = Some res' ∧
    patched j (j + Z.of_nat n) (λ i, combine op (byte0 src0 i) (at_ srcs i)) res res'.
Proof.
  intros Hres H0 Hsrcs. revert res j Hres. induction n as [|n IH]; intros res j Hres Hj Hl; cbn [bitop_slow].
  { exists res. split; [done|]. split; [done|]. split; [done|]. intros i Hi. by if_false. }
  rewrite byte_at_spec by done. mnext. rewrite bitop_byte_spec by done. mnext.
  assert (Hx : is_byte (byte0 src0 j)) by by apply byte0_ok.
  match goal with |- context [store8 res j ?v] => assert (v = combine op (byte0 src0 j) (at_ srcs j)) as -> end.
  { destruct op; try done. cbn [combine]. unfold wrapu, is_byte in *. pose proof (Z.add_lnot_diag (byte0 src0 j)).
    symmetry. apply (Z.mod_unique _ _ (-1)); lia. }
  assert (Hc : is_byte (combine op (byte0 src0 j) (at_ srcs j))) by (apply combine_byte; [done|by apply at_ok]).
  destruct (store_patched res j [u8 (combine op (byte0 src0 j) (at_ srcs j))]
    (λ i, combine op (byte0 src0 i) (at_ srcs i))) as (r1 & Hst & P1); [done| |done|cbn; lia| |].
  { apply Forall_singleton. by rewrite is_byte_wrap. }
  { intros k Hk. cbn in Hk. assert (k = 0) as -> by lia. rewrite Z.add_0_r. unfold byte0 at 1. cbn.
    by apply is_byte_wrap. }
  unfold store8. rewrite Hst. mnext. cbn [length] in P1. change (Z.of_nat 1) with 1 in P1. pose proof P1 as (O1 & L1 & _).
  destruct (IH r1 (j + 1) O1) as (res' & -> & P2); [lia|lia|]. exists res'. split; [done|].
  replace (j + Z.of_nat (S n)) with (j + 1 + Z.of_nat n) by lia.
  exact (patched_next j (j + 1) (j + 1 + Z.of_nat n) (λ i _, combine op (byte0 src0 i) (at_ srcs i)) res r1 res' ltac:(lia) ltac:(lia) P1 P2).
Qed.

(** The result the command is to store. *)
Definition bitop_result (op : bitop) (src : list (list Z)) (n : Z) : list Z :=
  (λ i, combine op (byte0 (default [] (head src)) i) (at_ (tail src) i)) <$> seqZ 0 n.

Lemma byte0_result op src n i : 0 <= i < n →
  byte0 (bitop_result op src n) i = combine op (byte0 (default [] (head src)) i) (at_ (tail src) i).
Proof.
  intros Hi. unfold byte0 at 1, bitop_result. rewrite list_lookup_fmap, lookup_seqZ_lt by lia. cbn.
  by replace (Z.of_nat (Z.to_nat i)) with i by lia.
Qed.

Lemma bitop_compute_spec `{Host} aligned op src maxlen minlen : Forall bytes_ok src → src ≠ [] → 0 <= minlen →
  minlen <= maxlen → Forall (λ s, minlen <= len s) src →
  bitop_compute aligned op src maxlen minlen = Some (bitop_result op src maxlen).
Proof.
  intros Hok Hne Hmin Hle Hlen. unfold bitop_compute. destruct src as [|src0 srcs]; [done|].
  inversion_clear Hok as [|? ? H0 Hsrcs]. inversion_clear Hlen as [|? ? L0 Ls].
  assert (Hzero : bytes_ok (replicate (Z.to_nat maxlen) 0)) by by apply Forall_replicate.
  assert (∃ res j, (if negb aligned && (minlen >=? 32) && (len (src0 :: srcs) <=? 16) then
       bs ← load src0 0 minlen;
       res ← store (replicate (Z.to_nat maxlen) 0) 0 bs;
       bitop_fast (Z.to_nat minlen) op res srcs 0 minlen
     else Some (replicate (Z.to_nat maxlen) 0, 0)) = Some (res, j) ∧ 0 <= j <= minlen ∧ bytes_ok res ∧
     len res = maxlen ∧ ∀ i, 0 <= i < j → byte0 res i = combine op (byte0 src0 i) (at_ srcs i))
    as (res & j & -> & Hj & Hres & Hlres & Hpre).
  { destruct (negb aligned && (minlen >=? 32) && (len (src0 :: srcs) <=? 16)).
    2: { eexists _, _. split; [done|]. split; [lia|]. split; [done|]. split; [len_lia|]. intros i Hi. lia. }
    rewrite load_sub by lia. mnext. pose proof (length_sub src0 0 minlen ltac:(lia) Hmin ltac:(lia)) as Lsub.
    destruct (store_patched (replicate (Z.to_nat maxlen) 0) 0 (sub src0 0 minlen) (byte0 src0))
      as (r0 & -> & P0); [done|by apply sub_ok|lia|len_lia| |].
    { intros k Hk. by rewrite byte0_sub by lia. }
    mnext. pose proof P0 as (O0 & Lr0 & E0). rewrite length_replicate in Lr0.
    destruct (bitop_fast_spec (Z.to_nat minlen) op r0 srcs 0 minlen) as (res & j & -> & Hj & (O1 & L1 & E1));
      [done|done|lia|lia|lia|eapply Forall_impl; [exact Ls|]; cbn; lia|lia|].
    exists res, j. split; [done|]. split; [lia|]. split; [done|]. split; [lia|]. intros i Hi.
    rewrite E1 by lia. if_true. rewrite E0 by lia. rewrite Lsub. by if_true. }
  mnext. destruct (bitop_slow_spec (Z.to_nat (maxlen - j)) op res src0 srcs j) as (r & -> & (O2 & L2 & E2)); [done..|lia|lia|].
  f_equal. apply byte0_eq.
  - unfold bitop_result. rewrite length_fmap, length_seqZ. lia.
  - intros i Hi. rewrite byte0_result by lia. cbn [head tail default id]. rewrite E2 by lia.
    destruct (decide (i < j)).
    + replace ((j <=? i) && (i <? j + Z.of_nat (Z.to_nat (maxlen - j)))) with false by lia. by apply Hpre; lia.
    + by replace ((j <=? i) && (i <? j + Z.of_nat (Z.to_nat (maxlen - j)))) with true by lia.
Qed.

(** The loop over the source keys: the strings, the longest and the shortest
    length. *)
Lemma bitop_sources_spec os srcs j pre maxlen minlen : Forall value_ok os →
  mapM value_string os = Some srcs →
  Forall bytes_ok pre → (j = length pre)%nat → 0 <= minlen <= maxlen → Forall (λ s, minlen <= len s <= maxlen) pre →
  ∃ maxlen' minlen', bitop_sources os j pre maxlen minlen = Some (inl (pre ++ srcs, maxlen', minlen')) ∧
    Forall bytes_ok (pre ++ srcs) ∧ 0 <= minlen' <= maxlen' ∧
    Forall (λ s, minlen' <= len s <= maxlen') (pre ++ srcs) ∧
    maxlen' = foldl Z.max maxlen ((λ s, len s) <$> srcs).
Proof.
  intros Hok. revert srcs j pre maxlen minlen. induction Hok as [|o os Ho Hos IH];
    intros srcs j pre maxlen minlen Hs Hpre Hj Hm Hb.
  { injection Hs as <-. rewrite app_nil_r. cbn [bitop_sources fmap list_fmap foldl]. eauto 10. }
  apply bind_Some in Hs as (s & Hs & Hs'). apply bind_Some in Hs' as (srcs' & Hs' & [= <-]).
  destruct (read_only_spec o s Ho Hs) as (_ & Hsb & _).
  assert (Hmx : (if len s >? maxlen then len s else maxlen) = Z.max maxlen (len s))
    by (destruct (Z.gtb_spec (len s) maxlen); lia).
  assert (Hstep : ∀ mx mn, mx = Z.max maxlen (len s) → 0 <= mn → (mn <= len s) → (pre = [] ∨ mn <= minlen) →
    ∃ maxlen' minlen', bitop_sources os (S j) (pre ++ [s]) mx mn = Some (inl (pre ++ s :: srcs', maxlen', minlen')) ∧
    Forall bytes_ok (pre ++ s :: srcs') ∧ 0 <= minlen' <= maxlen' ∧
    Forall (λ s, minlen' <= len s <= maxlen') (pre ++ s :: srcs') ∧
    maxlen' = foldl Z.max maxlen ((λ s, len s) <$> s :: srcs')).
  { intros mx mn Hmx' Hmn Hle Hp. destruct (IH srcs' (S j) (pre ++ [s]) mx mn Hs')
      as (mx' & mn' & Hrun & ? & ? & ? & Hfold).
    - apply Forall_app. split; [done|]. by apply Forall_singleton.
    - rewrite length_app. cbn. lia.
    - lia.
    - apply Forall_app. split; [|apply Forall_singleton; lia]. destruct Hp as [->|Hp]; [constructor|].
      eapply Forall_impl; [exact Hb|]. cbn. lia.
    - rewrite <- app_assoc in *. cbn [app] in *. exists mx', mn'. do 4 (split; [done|]).
      rewrite Hfold, fmap_cons. cbn [foldl]. by rewrite Hmx'. }
  assert (Hmn : let mn := if (j =? 0)%nat || (len s <? minlen) then len s else minlen in
    0 <= mn ∧ mn <= len s ∧ (pre = [] ∨ mn <= minlen)).
  { cbv zeta. destruct (Nat.eqb_spec j 0) as [->|]; cbn [orb].
    - split; [lia|]. split; [lia|]. left. by apply nil_length_inv.
    - destruct (Z.ltb_spec (len s) minlen); (split; [lia|split; [lia|right; lia]]). }
  cbv zeta in Hmn. destruct Hmn as (H1 & H2 & H3).
  destruct o as [[t|n|]|]; cbn in Hs; simplify_eq; cbn [bitop_sources].
  - mnext. by apply Hstep.
  - cbn in Ho. rewrite decoded_spec by done. mnext. by apply Hstep.
  - apply Hstep; [cbn; lia|lia|lia|]. right. lia.
Qed.

(** C23: BITOP stores the bytewise AND, OR, XOR or NOT of the sources, each padded
    with zeros to the longest, and replies its length; a missing key is the empty
    string, and when all are empty the target is deleted.  The fast path on words
    makes no difference, whatever the byte order. *)
Theorem bitop_correct `{Host} aligned opname op target os srcs : Forall value_ok os →
  mapM value_string os = Some srcs → bitop_of_name opname = Some op → os ≠ [] →
  (op = BITOP_NOT → length os = 1%nat) →
  let n := foldl Z.max 0 ((λ s, len s) <$> srcs) in
  bitopCommand aligned opname target os =
  Some (if n =? 0 then (None, if target then [SignalModified; Notify "del"; Dirty 1] else [], RInt 0)
        else (Some (VStr (bitop_result op srcs n)), [SignalModified; Notify "set"; Dirty 1], RInt n)).
Proof.
  intros Hok Hs Hop Hne Hnot n. unfold bitopCommand. rewrite Hop.
  assert (match op with BITOP_NOT => negb (len os =? 1) | _ => false end = false) as ->.
  { destruct op; try done. rewrite Hnot by done. done. }
  destruct (bitop_sources_spec os srcs 0 [] 0 0 Hok Hs) as (mx & mn & -> & Hb & Hm & Hf & Hmx);
    [constructor|done|lia|constructor|]. mnext. cbn [app] in *. fold n in Hmx. subst mx.
  destruct (Z.eqb_spec n 0) as [->|Hn]; cbn [negb]; [by destruct target|].
  rewrite bitop_compute_spec; [done|done| |lia|lia|eapply Forall_impl; [exact Hf|]; cbn; lia].
  intros ->. destruct os as [|o os]; [done|].
  apply bind_Some in Hs as (? & _ & Hs'). by apply bind_Some in Hs' as (? & _ & ?).
Qed.

Lemma bitop_correct_witness :
  bitopCommand (H := be_host) false [79; 82] None [Some (VStr [1; 2; 3]); Some (VInt 5); None] =
  Some (Some (VStr [53; 2; 3]), [SignalModified; Notify "set"; Dirty 1], RInt 3).
Proof.
  assert (Hok : Forall value_ok [Some (VStr [1; 2; 3]); Some (VInt 5); None]).
  { apply Forall_cons. split; [split; [by_decision|done]|]. apply Forall_cons. split; [by_decision|].
    apply Forall_cons. done. }
  rewrite (bitop_correct (H := be_host) false [79; 82] BITOP_OR None
    [Some (VStr [1; 2; 3]); Some (VInt 5); None] [[1; 2; 3]; [53]; []] Hok);
    [vm_compute; reflexivity|vm_compute; reflexivity|vm_compute; reflexivity|done|done].
Defined.
