(* ===== verification/BitfieldCommand.v ===== *)
(** BITFIELD (bitops.c): what one operation does to the bits and replies, and
    that no arguments make the command leave its string. *)
From Stdlib Require Import String.
From S2P Require Import Prelude Bits Endian UtilNum UtilText Bitops BitopsSpec Bitfields BitopsTheorems.

(** The field of an operation as a number. *)
Definition field_bits (s : list Z) (off bits : Z) : list bool :=
  take (Z.to_nat bits) (drop (Z.to_nat off) (bits_of s)).
Definition field_val (sign : bool) (bits : Z) (l : list bool) : Z :=
  if sign then wraps bits (bits_val l) else bits_val l.

(** The smallest and the largest value of a field, and its wrap-around. *)
Definition field_min (sign : bool) (bits : Z) : Z := if sign then - 2 ^ (bits - 1) else 0.
Definition field_max (sign : bool) (bits : Z) : Z := if sign then 2 ^ (bits - 1) - 1 else 2 ^ bits - 1.
Definition field_wrap (sign : bool) (bits x : Z) : Z := if sign then wraps bits x else x mod 2 ^ bits.

(** A type getBitfieldTypeFromArgument accepts. *)
Definition type_ok (op : bitfieldOp) : Prop :=
  1 <= op_bits op <= (if op_sign op then 64 else 63).

(** The result before overflow is handled. *)
Definition exact_result (op : bitfieldOp) (old : Z) : Z :=
  match op_code op with
  | BITFIELDOP_INCRBY => old + op_i64 op
  | _ => if op_sign op then op_i64 op else u64 (op_i64 op)
  end.

(** What is stored, or nothing when the operation fails. *)
Definition new_value (op : bitfieldOp) (old : Z) : option Z :=
  let x := exact_result op old in
  let '(overflow, limit) := overflow_spec (field_min (op_sign op) (op_bits op))
    (field_max (op_sign op) (op_bits op)) (field_wrap (op_sign op) (op_bits op) x) x (op_ow op) in
  if overflow =? 0 then Some x else limit.

Lemma field_val_range op l : type_ok op → len l = op_bits op →
  field_min (op_sign op) (op_bits op) <= field_val (op_sign op) (op_bits op) l <= field_max (op_sign op) (op_bits op).
Proof.
  intros Ht Hl. unfold type_ok, field_min, field_max, field_val in *. pose proof (bits_val_range l) as Hr. rewrite Hl in Hr.
  destruct (op_sign op); [|lia]. pose proof (wraps_range (op_bits op) (bits_val l)). lia.
Qed.

Lemma field_bounds op : type_ok op → - 2 ^ 63 <= field_min (op_sign op) (op_bits op) ∧
  field_max (op_sign op) (op_bits op) < 2 ^ 63.
Proof.
  intros Ht. unfold type_ok, field_min, field_max in *. destruct (op_sign op).
  - assert (2 ^ (op_bits op - 1) <= 2 ^ 63) by (apply Z.pow_le_mono_r; lia). lia.
  - assert (2 ^ op_bits op <= 2 ^ 63) by (apply Z.pow_le_mono_r; lia). lia.
Qed.

(** Fetching the old value. *)
Lemma fetch_spec s op : bytes_ok s → type_ok op → 0 <= op_offset op →
  op_offset op + op_bits op <= 8 * len s → 8 * len s < 2 ^ 64 →
  (if op_sign op then getSignedBitfield s (op_offset op) (op_bits op)
   else getUnsignedBitfield s (op_offset op) (op_bits op)) =
  Some (field_val (op_sign op) (op_bits op) (field_bits s (op_offset op) (op_bits op))).
Proof.
  intros Hs Ht Ho Hl Hsz. unfold field_val, field_bits, type_ok in *. destruct (op_sign op).
  - apply get_signed_spec; (done || lia).
  - apply get_field_spec; (done || lia).
Qed.

(** The overflow check of an operation. *)
Lemma check_spec op old : type_ok op → op_code op ≠ BITFIELDOP_GET → - 2 ^ 63 <= op_i64 op < 2 ^ 63 →
  field_min (op_sign op) (op_bits op) <= old <= field_max (op_sign op) (op_bits op) →
  (op_sign op = true → op_code op = BITFIELDOP_SET → op_bits op < 64 →
    field_max true (op_bits op) - op_i64 op < 2 ^ 63) →
  let incr := match op_code op with BITFIELDOP_INCRBY => true | _ => false end in
  let base := if incr then old else if op_sign op then op_i64 op else u64 (op_i64 op) in
  (if op_sign op
   then checkSignedBitfieldOverflow base (if incr then op_i64 op else 0) (op_bits op) (op_ow op)
   else checkUnsignedBitfieldOverflow base (if incr then op_i64 op else 0) (op_bits op) (op_ow op)) =
  Some (overflow_spec (field_min (op_sign op) (op_bits op)) (field_max (op_sign op) (op_bits op))
    (field_wrap (op_sign op) (op_bits op) (exact_result op old)) (exact_result op old) (op_ow op)).
Proof.
  intros Ht Hc Hi Hold Hset incr base. pose proof (field_bounds op Ht) as Hb. unfold type_ok in Ht.
  assert (Hex : base + (if incr then op_i64 op else 0) = exact_result op old).
  { unfold base, incr, exact_result. destruct (op_code op); [done|lia|lia]. }
  rewrite <- Hex. unfold field_min, field_max, field_wrap in *. destruct (op_sign op).
  - apply check_signed_spec; [lia| | |].
    + destruct incr; lia.
    + unfold base. destruct incr; lia.
    + unfold base, incr. destruct (op_code op); [done| |left; lia].
      destruct (decide (op_bits op < 64)); [right; split; [done|]; by apply Hset|].
      left. replace (op_bits op) with 64 by lia. change (64 - 1) with 63. lia.
  - apply check_unsigned_spec; [lia| | |].
    + destruct incr; lia.
    + assert (0 <= u64 (op_i64 op) < 2 ^ 64) by (apply wrapu_range; lia). unfold base. destruct incr; lia.
    + unfold base, incr. destruct (op_code op); [done|by right|left; lia].
Qed.

(** Storing the new value. *)
Lemma put_spec s op v : bytes_ok s → type_ok op → 0 <= op_offset op →
  op_offset op + op_bits op <= 8 * len s → 8 * len s < 2 ^ 64 →
  ∃ s', (if op_sign op then setSignedBitfield s (op_offset op) (op_bits op) v
         else setUnsignedBitfield s (op_offset op) (op_bits op) v) = Some s' ∧
    bytes_ok s' ∧ length s' = length s ∧
    bits_of s' = take (Z.to_nat (op_offset op)) (bits_of s) ++ wbits (Z.to_nat (op_bits op)) v ++
      drop (Z.to_nat (op_offset op + op_bits op)) (bits_of s).
Proof.
  intros Hs Ht Ho Hl Hsz. unfold type_ok in Ht. assert (op_bits op <= 64) by (destruct (op_sign op); lia).
  assert (Hw : ∀ v', (∀ i, 0 <= i < 64 → Z.testbit v' i = Z.testbit v i) →
    wbits (Z.to_nat (op_bits op)) v' = wbits (Z.to_nat (op_bits op)) v).
  { intros v' Hv'. apply wbits_ext. intros i Hi. apply Hv'. lia. }
  destruct (set_field_spec s (op_offset op) (op_bits op) (if op_sign op then u64 v else v))
    as (s' & Hset & Hok & Hlen & Hb); [done|lia..|].
  rewrite Hw in Hb.
  2: { intros i Hi. destruct (op_sign op); [|done]. rewrite testbit_wrapu by lia. by replace (i <? 64) with true by lia. }
  exists s'. split; [|done]. by destruct (op_sign op).
Qed.

Lemma write_spec s dirty op : bytes_ok s → type_ok op → op_code op ≠ BITFIELDOP_GET →
  - 2 ^ 63 <= op_i64 op < 2 ^ 63 → 0 <= op_offset op →
  op_offset op + op_bits op <= 8 * len s → 8 * len s < 2 ^ 64 →
  (op_sign op = true → op_code op = BITFIELDOP_SET → op_bits op < 64 →
    field_max true (op_bits op) - op_i64 op < 2 ^ 63) →
  let old := field_val (op_sign op) (op_bits op) (field_bits s (op_offset op) (op_bits op)) in
  match new_value op old with
  | Some new => ∃ s', bitfield_write s dirty op = Some (s',
        RInt match op_code op with BITFIELDOP_INCRBY => new | _ => old end, dirty || negb (old =? new)) ∧
      bytes_ok s' ∧ length s' = length s ∧
      bits_of s' = take (Z.to_nat (op_offset op)) (bits_of s) ++ wbits (Z.to_nat (op_bits op)) new ++
        drop (Z.to_nat (op_offset op + op_bits op)) (bits_of s)
  | None => bitfield_write s dirty op = Some (s, RNull, false)
  end.
Proof.
  intros Hs Ht Hc Hi Ho Hl Hsz Hset old. unfold bitfield_write. rewrite fetch_spec by done. fold old. mnext.
  assert (Hlen : len (field_bits s (op_offset op) (op_bits op)) = op_bits op).
  { unfold field_bits. pose proof (length_bits_of s). rewrite length_take, length_drop. unfold type_ok in Ht. lia. }
  pose proof (field_val_range op _ Ht Hlen) as Hold. fold old in Hold. pose proof (field_bounds op Ht) as Hb.
  pose proof (check_spec op old Ht Hc Hi Hold Hset) as Hck. cbv zeta in Hck. rewrite Hck. clear Hck.
  unfold new_value. cbv zeta. set (x := exact_result op old). unfold overflow_spec.
  assert (Hsum : (field_min (op_sign op) (op_bits op) <=? x) && (x <=? field_max (op_sign op) (op_bits op)) = true →
    (if match op_code op with BITFIELDOP_INCRBY => true | _ => false end
     then (if op_sign op then s64 (old + op_i64 op) else u64 (old + op_i64 op))
     else (if match op_code op with BITFIELDOP_INCRBY => true | _ => false end then old
           else if op_sign op then op_i64 op else u64 (op_i64 op))) = x).
  { intros Hx. unfold x, exact_result in *. destruct (op_code op); try done. destruct (op_sign op).
    - apply s64_small. cbn in *. lia.
    - apply wrapu_small. cbn in *. lia. }
  assert (Hrep : ∀ v, field_min (op_sign op) (op_bits op) <= v <= field_max (op_sign op) (op_bits op) →
    s64 v = v) by (intros; apply s64_small; lia).
  assert (Hput : ∀ v, field_min (op_sign op) (op_bits op) <= v <= field_max (op_sign op) (op_bits op) →
    ∃ s', (s' ← (if op_sign op then setSignedBitfield s (op_offset op) (op_bits op) v
         else setUnsignedBitfield s (op_offset op) (op_bits op) v);
       Some (s', RInt (s64 (if match op_code op with BITFIELDOP_INCRBY => true | _ => false end then v else old)),
         dirty || negb (old =? v))) = Some (s', RInt match op_code op with BITFIELDOP_INCRBY => v | _ => old end,
         dirty || negb (old =? v)) ∧ bytes_ok s' ∧ length s' = length s ∧
      bits_of s' = take (Z.to_nat (op_offset op)) (bits_of s) ++ wbits (Z.to_nat (op_bits op)) v ++
        drop (Z.to_nat (op_offset op + op_bits op)) (bits_of s)).
  { intros v Hv. destruct (put_spec s op v) as (s' & -> & ?); [done..|]. mnext. exists s'. split; [|done].
    do 3 f_equal. destruct (op_code op); by rewrite Hrep. }
  destruct ((field_min (op_sign op) (op_bits op) <=? x) && (x <=? field_max (op_sign op) (op_bits op))) eqn:Hin.
  - mnext. cbn [Z.eqb negb andb]. mnext. rewrite (Hsum eq_refl). apply Hput. lia.
  - clear Hsum. destruct (op_ow op); mnext.
    + cbn [Z.eqb negb andb]. mnext. apply Hput. unfold field_wrap, field_min, field_max, type_ok in *.
      destruct (op_sign op); [pose proof (wraps_range (op_bits op) x); lia|].
      pose proof (Z.mod_pos_bound x (2 ^ op_bits op)). lia.
    + assert (Hlim : field_min (op_sign op) (op_bits op) <= field_max (op_sign op) (op_bits op)) by lia.
      destruct (field_max (op_sign op) (op_bits op) <? x); cbn [Z.eqb negb andb]; mnext; apply Hput; lia.
    + destruct (field_max (op_sign op) (op_bits op) <? x); done.
Qed.

(** SET and INCRBY of BITFIELD store the value or sum, wrapped, saturated or
    refused when it does not fit the field as the overflow type says, reply the
    old value, the new value or nil, and change no other bit.  A signed SET is
    covered for values less than 2^63 below the maximum of the field. *)
Theorem bitfield_write_correct s dirty op : bytes_ok s → type_ok op → op_code op ≠ BITFIELDOP_GET →
  - 2 ^ 63 <= op_i64 op < 2 ^ 63 → 0 <= op_offset op →
  op_offset op + op_bits op <= 8 * len s → 8 * len s < 2 ^ 64 →
  (op_sign op = true → op_code op = BITFIELDOP_SET → op_bits op < 64 →
    field_max true (op_bits op) - op_i64 op < 2 ^ 63) →
  let old := field_val (op_sign op) (op_bits op) (field_bits s (op_offset op) (op_bits op)) in
  match new_value op old with
  | Some new => ∃ s', bitfield_write s dirty op = Some (s',
        RInt match op_code op with BITFIELDOP_INCRBY => new | _ => old end, dirty || negb (old =? new)) ∧
      bytes_ok s' ∧ length s' = length s ∧
      bits_of s' = take (Z.to_nat (op_offset op)) (bits_of s) ++ wbits (Z.to_nat (op_bits op)) new ++
        drop (Z.to_nat (op_offset op + op_bits op)) (bits_of s)
  | None => bitfield_write s dirty op = Some (s, RNull, false)
  end.
Proof. apply write_spec. Qed.

Lemma bitfield_write_correct_witness :
  ∃ s', bitfield_write [0; 200; 0] false (mk_op 8 100 BITFIELDOP_INCRBY BFOVERFLOW_SAT 8 false) =
      Some (s', RInt 255, true) ∧ bytes_ok s' ∧ length s' = 3%nat ∧
    bits_of s' = take 8 (bits_of [0; 200; 0]) ++ wbits 8 255 ++ drop 16 (bits_of [0; 200; 0]).
Proof.
  apply (bitfield_write_correct [0; 200; 0] false (mk_op 8 100 BITFIELDOP_INCRBY BFOVERFLOW_SAT 8 false));
    [by_decision|unfold type_ok; cbn; lia|done|cbn; lia|cbn; lia|cbn; lia|cbn; lia|done].
Defined.

(** ** Reading *)

Lemma copy_loop_spec n src byte : bytes_ok src → 0 <= byte < 2 ^ 62 → (n <= 9)%nat →
  (9 - n <= length (drop (Z.to_nat byte) src))%nat →
  copy_loop n (9 - Z.of_nat n) (take (9 - n) (drop (Z.to_nat byte) src) ++ replicate n 0) src byte =
  Some (padded 9 (drop (Z.to_nat byte) src)).
Proof.
  intros Hs Hb. set (d := drop (Z.to_nat byte) src). assert (Hd : bytes_ok d) by by apply Forall_drop.
  assert (Hld : length d = (length src - Z.to_nat byte)%nat) by apply length_drop.
  induction n as [|n IH]; intros Hn Hl; cbn [copy_loop].
  { rewrite app_nil_r, Nat.sub_0_r. unfold padded. replace (9 - length d)%nat with 0%nat by lia. by rewrite app_nil_r. }
  set (i := 9 - Z.of_nat (S n)). assert (Hi : i = Z.of_nat (9 - S n)) by lia.
  rewrite wrapu_small by lia. destruct (Z.geb_spec (i + byte) (len src)) as [Hge|Hlt].
  { unfold padded. rewrite !take_ge by lia. do 3 f_equal. lia. }
  destruct (lookup_lt_is_Some_2 d (9 - S n)) as [x Hx]; [lia|].
  assert (Hx' : load8 src (i + byte) = Some x).
  { unfold load8. replace (0 <=? i + byte) with true by lia. unfold d in Hx. rewrite lookup_drop in Hx.
    rewrite <- Hx. f_equal. lia. }
  rewrite Hx'. mnext. cbn [replicate]. assert (is_byte x) by by eapply Forall_lookup_1.
  rewrite store8_app by (rewrite length_take; lia). mnext. rewrite is_byte_wrap by done.
  replace (i + 1) with (9 - Z.of_nat n) by lia. rewrite <- IH by lia. f_equal.
  replace (9 - n)%nat with (S (9 - S n)) by lia. rewrite (take_S_r d _ x) by done. by rewrite <- app_assoc.
Qed.

(** The bits of a field of the string padded with zeros. *)
Definition padded_field (s : list Z) (off bits : Z) : list bool := bit_at s <$> seqZ off bits.

Lemma padded_bits s byte k : 0 <= byte → 0 <= k < 72 →
  bits_of (padded 9 (drop (Z.to_nat byte) s)) !! Z.to_nat k = Some (bit_at s (8 * byte + k)).
Proof.
  intros Hb Hk. rewrite bits_lookup by lia. unfold bit_at. rewrite bits_lookup by lia.
  replace ((8 * byte + k) mod 8) with (k mod 8) by div_lia.
  replace (Z.to_nat ((8 * byte + k) / 8)) with (Z.to_nat byte + Z.to_nat (k / 8))%nat by div_lia.
  assert (Hk8 : (Z.to_nat (k / 8) < 9)%nat) by div_lia. unfold padded.
  destruct (s !! (Z.to_nat byte + Z.to_nat (k / 8))%nat) as [x|] eqn:Hx.
  - apply lookup_lt_Some in Hx as Hlt. rewrite lookup_app_l by (rewrite length_take, length_drop; lia).
    rewrite lookup_take_lt, lookup_drop, Hx by lia. done.
  - apply lookup_ge_None_1 in Hx. rewrite lookup_app_r by (rewrite length_take, length_drop; lia).
    rewrite lookup_replicate_2 by (rewrite length_take, length_drop; lia). cbn. f_equal. apply Z.bits_0.
Qed.

Lemma get_spec o s op : getObjectReadOnlyString o = Some s → bytes_ok s → type_ok op →
  0 <= op_offset op < 2 ^ 64 →
  bitfield_get o op =
  Some (RInt (field_val (op_sign op) (op_bits op) (padded_field s (op_offset op) (op_bits op)))).
Proof.
  intros Hro Hsb Ht Ho. unfold bitfield_get. rewrite Hro. mnext. rewrite shiftr_3. set (byte := op_offset op / 8).
  assert (Hb : 0 <= byte < 2 ^ 62) by (unfold byte; div_lia).
  pose proof (copy_loop_spec 9 s byte Hsb Hb ltac:(lia) ltac:(lia)) as Hcopy.
  change (9 - Z.of_nat 9) with 0 in Hcopy. change (9 - 9)%nat with 0%nat in Hcopy. rewrite take_0 in Hcopy.
  cbn [app] in Hcopy. rewrite Hcopy. mnext. set (buf := padded 9 (drop (Z.to_nat byte) s)).
  assert (Hbuf : bytes_ok buf).
  { apply Forall_app. split; [by apply Forall_take, Forall_drop|by apply Forall_replicate]. }
  assert (Hlen : len buf = 9) by (unfold buf, padded; rewrite length_app, length_take, length_replicate; lia).
  assert (Hoff : u64 (op_offset op - byte * 8) = op_offset op mod 8).
  { unfold byte. rewrite wrapu_small by div_lia. div_lia. }
  assert (Hm : 0 <= op_offset op mod 8 < 8) by div_lia.
  pose proof (fetch_spec buf (mk_op (op_offset op mod 8) 0 BITFIELDOP_GET BFOVERFLOW_WRAP (op_bits op) (op_sign op)))
    as Hf. cbn [op_offset op_bits op_sign] in Hf. rewrite Hoff, Hf; clear Hf; [|done|done|lia|..].
  2: { unfold type_ok in Ht. destruct (op_sign op); lia. }
  2: { rewrite Hlen. done. }
  mnext. assert (field_bits buf (op_offset op mod 8) (op_bits op) = padded_field s (op_offset op) (op_bits op)) as ->.
  { unfold type_ok in Ht. assert (op_bits op <= 64) by (destruct (op_sign op); lia).
    unfold field_bits, padded_field. pose proof (length_bits_of buf) as Hlb. apply list_eq. intros k.
    destruct (decide (Z.of_nat k < op_bits op)) as [Hk|Hk].
    - rewrite lookup_take_lt, lookup_drop by lia. rewrite list_lookup_fmap, lookup_seqZ_lt by lia.
      replace (Z.to_nat (op_offset op mod 8) + k)%nat with (Z.to_nat (op_offset op mod 8 + Z.of_nat k)) by lia.
      unfold buf. rewrite padded_bits by lia. cbn. do 2 f_equal. unfold byte. div_lia.
    - rewrite !lookup_ge_None_2; [done|rewrite length_fmap, length_seqZ; lia|].
      rewrite length_take, length_drop. lia. }
  do 2 f_equal. pose proof (field_bounds op Ht).
  assert (len (padded_field s (op_offset op) (op_bits op)) = op_bits op) as Hlp.
  { unfold padded_field. rewrite length_fmap, length_seqZ. unfold type_ok in Ht. lia. }
  pose proof (field_val_range op _ Ht Hlp). apply s64_small. lia.
Qed.

(** GET of BITFIELD replies the field of the string, with zeros beyond its
    end, unsigned or sign extended, for raw, integer encoded and missing values. *)
Theorem bitfield_get_correct o s op : value_ok o → value_string o = Some s → type_ok op →
  0 <= op_offset op < 2 ^ 64 →
  bitfield_get o op =
  Some (RInt (field_val (op_sign op) (op_bits op) (padded_field s (op_offset op) (op_bits op)))).
Proof.
  intros Hok Hs Ht Ho. destruct (read_only_spec o s Hok Hs) as (Hro & Hsb & _). by apply get_spec.
Qed.

Lemma bitfield_get_correct_witness :
  bitfield_get (Some (VInt 7)) (mk_op 4 0 BITFIELDOP_GET BFOVERFLOW_WRAP 8 true) = Some (RInt 112).
Proof.
  apply (bitfield_get_correct (Some (VInt 7)) [55] (mk_op 4 0 BITFIELDOP_GET BFOVERFLOW_WRAP 8 true));
    [by_decision|reflexivity|unfold type_ok; cbn; lia|cbn; lia].
Defined.

(** ** The whole command *)

(** The overflow check never shifts by the whole width of a word, and it writes
    the value to store whenever it reports an overflow that is not a failure. *)
Lemma check_total op base incr : type_ok op →
  ∃ ov w, (if op_sign op then checkSignedBitfieldOverflow base incr (op_bits op) (op_ow op)
           else checkUnsignedBitfieldOverflow base incr (op_bits op) (op_ow op)) = Some (ov, w) ∧
    (ov ≠ 0 → op_ow op ≠ BFOVERFLOW_FAIL → is_Some w).
Proof.
  intros Ht. unfold type_ok in Ht. unfold checkSignedBitfieldOverflow, checkUnsignedBitfieldOverflow, shl64.
  replace (0 <=? op_bits op) with true by lia. cbn [andb].
  destruct (op_sign op).
  - destruct (op_bits op <? 64); mnext; repeat case_match; eauto; eexists _, _; split; done.
  - replace (op_bits op <? 64) with true by lia. mnext. repeat case_match; eauto; eexists _, _; split; done.
Qed.

Lemma write_total s dirty op : bytes_ok s → type_ok op → 0 <= op_offset op →
  op_offset op + op_bits op <= 8 * len s → 8 * len s < 2 ^ 64 →
  ∃ s' r ch, bitfield_write s dirty op = Some (s', r, ch) ∧ bytes_ok s' ∧ length s' = length s.
Proof.
  intros Hs Ht Ho Hl Hsz. unfold bitfield_write. rewrite fetch_spec by done. mnext.
  set (old := field_val _ _ _). set (incr := match op_code op with BITFIELDOP_INCRBY => true | _ => false end).
  destruct (check_total op (if incr then old else if op_sign op then op_i64 op else u64 (op_i64 op))
    (if incr then op_i64 op else 0) Ht) as (ov & w & -> & Hw). mnext.
  destruct (Z.eqb_spec ov 0) as [Hz|Hnz]; cbn [negb andb].
  - mnext. match goal with |- context [setSignedBitfield _ _ _ ?v] =>
      destruct (put_spec s op v) as (s' & -> & ? & ? & _); [done..|] end. mnext. eauto 10.
  - destruct (op_ow op) eqn:How; cbn [negb]; [| |eauto 10].
    all: destruct Hw as [v ->]; [done..|]; mnext;
      destruct (put_spec s op v) as (s' & -> & ? & ? & _); [done..|]; mnext; eauto 10.
Qed.

(** What the parser promises of every operation: the type is valid, the offset is
    a long long, and a write stays below the farthest bit written. *)
Definition op_ok (highest : Z) (op : bitfieldOp) : Prop :=
  type_ok op ∧ 0 <= op_offset op < 2 ^ 63 ∧
  (op_code op ≠ BITFIELDOP_GET → op_offset op + op_bits op - 1 <= highest).

Lemma op_ok_mono h h' op : h <= h' → op_ok h op → op_ok h' op.
Proof. intros Hh (? & ? & Hw). split_and!; [done|lia|lia|]. intros Hc. specialize (Hw Hc). lia. Qed.

Lemma string2ll_total s : ∃ r, string2ll s (len s) = Some r ∧
  (∀ v, r = Some v → LLONG_MIN <= v <= LLONG_MAX).
Proof. destruct (string2ll_spec s) as (r & -> & Hr). exists r. split; [done|]. intros v ->. by apply (Hr v). Qed.

Section safety.
Context (obey : bool) (maxlen : Z).

Lemma type_and_offset_total ty off : ∃ r, type_and_offset obey maxlen ty off = Some r ∧
  match r with
  | inl (sign, bits, o) => 1 <= bits <= (if sign then 64 else 63) ∧ 0 <= o < 2 ^ 63
  | inr _ => True
  end.
Proof.
  assert (∃ r, getBitfieldTypeFromArgument ty = Some r ∧
    ∀ sign bits, r = Some (sign, bits) → 1 <= bits <= (if sign : bool then 64 else 63)) as (r & Hty & Hr).
  { assert (Hp : ∀ (sign : bool) p, ∃ r, (r ← string2ll (cstr p) (len (cstr p));
      match r with
      | None => Some None
      | Some llbits =>
        Some (if (llbits <? 1) || (sign && (llbits >? 64)) || (negb sign && (llbits >? 63))
              then None else Some (sign, llbits))
      end) = Some r ∧ ∀ sign bits, r = Some (sign, bits) → 1 <= bits <= (if sign : bool then 64 else 63)).
    { intros sign p. destruct (string2ll_total (cstr p)) as (r & -> & _). mnext.
      destruct r as [v|]; [|by eexists]. eexists. split; [done|]. intros sign' bits Hb. destruct sign; case_match; simplify_eq; lia. }
    unfold getBitfieldTypeFromArgument. cbn zeta.
    repeat match goal with |- context [match ?x with _ => _ end] => is_var x; destruct x end; first [apply Hp|by eexists]. }
  unfold type_and_offset. rewrite Hty. mnext. destruct r as [[sign bits]|]; [|by eexists].
  specialize (Hr _ _ eq_refl). unfold getBitOffsetFromArgument.
  destruct (bool_decide (head off = Some 35) && true && (bits >? 0)).
  all: match goal with |- context [string2ll ?s _] => destruct (string2ll_total s) as (v & -> & Hv) end.
  all: mnext; destruct v as [v|]; [specialize (Hv _ eq_refl); unfold LLONG_MIN, LLONG_MAX in Hv|mnext; by eexists].
  1: pose proof (wraps_range 64 (v * bits)).
  all: match goal with |- context [if ?b then None else _] => destruct b eqn:Hb end; mnext; [by eexists|];
    eexists; (split; [done|]); cbn; (split; [done|]); lia.
Qed.

(** The operations are as promised, and only reads when [readonly] says so. *)
Definition parsed_ok (r : list bitfieldOp * bool * Z + err) : Prop :=
  match r with
  | inl (ops, readonly, highest) => 0 <= highest < 2 ^ 63 + 64 ∧ Forall (op_ok highest) ops ∧
      (readonly = true → Forall (λ op, op_code op = BITFIELDOP_GET) ops)
  | inr _ => True
  end.

(** The parser accepts or refuses every list of arguments. *)
Lemma parse_total n args ow ops (readonly : bool) highest : (length args <= n)%nat →
  parsed_ok (inl (ops, readonly, highest)) →
  ∃ r, bitfield_parse obey maxlen args ow ops readonly highest = Some r ∧ parsed_ok r.
Proof.
  revert args ow ops readonly highest.
  induction n as [|n IH]; intros args ow ops readonly highest Hn Hok; cbn in Hok.
  { destruct args; [|cbn in Hn; lia]. by eexists. }
  destruct Hok as (Hh & Hops & Hro).
  assert (Hw : ∀ code ty off arg rest, code ≠ BITFIELDOP_GET → (length rest <= n)%nat → ∃ r,
    (r ← type_and_offset obey maxlen ty off;
    match r with
    | inr e => Some (inr e)
    | inl (sign, bits, bitoffset) =>
      r ← getLongLongFromArgument arg;
      match r with
      | None => Some (inr ErrNotInt)
      | Some i64 =>
        bitfield_parse obey maxlen rest ow (ops ++ [mk_op bitoffset i64 code ow bits sign]) false
          (if highest <? u64 (bitoffset + bits - 1) then u64 (bitoffset + bits - 1) else highest)
      end
    end) = Some r ∧ parsed_ok r).
  { intros code ty off arg rest Hc Hr. destruct (type_and_offset_total ty off) as (r & -> & Hto). mnext.
    destruct r as [[[sign bits] o]|e]; [|by eexists]. destruct Hto as [Hbits Ho].
    assert (bits <= 64) by (destruct sign; lia). rewrite wrapu_small by lia.
    unfold getLongLongFromArgument. destruct (string2ll_total arg) as (r & -> & _). mnext.
    destruct r as [v|]; [|by eexists]. apply IH; [done|].
    set (h := if _ <? _ then _ else highest). assert (Hh' : highest <= h ∧ o + bits - 1 <= h < 2 ^ 63 + 64).
    { unfold h. destruct (Z.ltb_spec highest (o + bits - 1)); lia. }
    unfold parsed_ok. split_and!; [lia..| |done]. apply Forall_app. split.
    - eapply Forall_impl; [done|]. intros op. apply op_ok_mono. lia.
    - constructor; [|constructor]. unfold op_ok, type_ok. cbn [op_sign op_bits op_offset]. lia. }
  destruct args as [|subcmd [|ty rest1]]; [by eexists..|]. cbn [length] in Hn. cbn [bitfield_parse].
  case_match eqn:Eget; [|case_match eqn:Eset; [|case_match eqn:Eincr; [|case_match; [|by eexists]]]].
  - apply andb_prop in Eget as [_ E]. destruct rest1 as [|off rest2]; [cbn in E; lia|].
    destruct (type_and_offset_total ty off) as (r & -> & Hto). mnext.
    destruct r as [[[sign bits] o]|e]; [|by eexists]. destruct Hto as [Hbits Ho]. cbn [length] in Hn.
    apply IH; [lia|]. unfold parsed_ok. split_and!; [lia..| |intros Hr];
      (apply Forall_app; split; [by auto|]; constructor; [|constructor]); [|done].
    unfold op_ok, type_ok. cbn [op_sign op_bits op_offset op_code]. by split_and!; try lia.
  - apply andb_prop in Eset as [_ E]. destruct rest1 as [|off [|arg rest3]]; [cbn in E; lia..|].
    apply Hw; [done|cbn in Hn; lia].
  - apply andb_prop in Eincr as [_ E]. destruct rest1 as [|off [|arg rest3]]; [cbn in E; lia..|].
    apply Hw; [done|cbn in Hn; lia].
  - repeat case_match; try (apply IH; [lia|done]); by eexists.
Qed.

(** Every operation that the parser let through runs: reads on any value, writes
    on a string that reaches the farthest bit written. *)
Lemma run_total highest dirty ops o s replies changes : Forall (op_ok highest) ops →
  getObjectReadOnlyString o = Some s → bytes_ok s → 8 * len s < 2 ^ 64 →
  (Forall (λ op, op_code op = BITFIELDOP_GET) ops ∨ o = Some (VStr s) ∧ highest < 8 * len s) →
  ∃ o' l ch, bitfield_run ops dirty o replies changes = Some (o', replies ++ l, ch) ∧
    length l = length ops ∧ (Forall (λ op, op_code op = BITFIELDOP_GET) ops → o' = o ∧ ch = changes).
Proof.
  intros Hops. revert o s replies changes. induction Hops as [|op ops [Ht [Ho Hw]] Hops IH];
    intros o s replies changes Hs Hb Hlen Hcase.
  { exists o, [], changes. by rewrite app_nil_r. }
  cbn [bitfield_run]. destruct (op_code op) eqn:Hc.
  { rewrite (get_spec o s op) by (done || lia). mnext.
    match goal with |- context [replies ++ ?r] => destruct (IH o s (replies ++ r) changes)
      as (o' & l & ch & -> & Hl & Hro); [done..| |] end.
    { destruct Hcase as [Hg|?]; [left; by inversion Hg|by right]. }
    rewrite <- app_assoc. eexists _, _, _. split; [done|]. cbn [app length]. split; [lia|].
    intros Hg. apply Hro. by inversion Hg. }
  all: destruct Hcase as [Hg|(-> & Hlt)]; [inversion Hg; congruence|]; specialize (Hw ltac:(done));
    destruct (write_total s dirty op) as (s' & r & chg & -> & Hb' & Hl'); [done|done|lia..|]; mnext;
    destruct (IH (Some (VStr s')) s' (replies ++ [r]) (if chg then changes + 1 else changes))
      as (o' & l & ch & -> & Hl & _); [done|done|lia|right; split; [done|lia]|];
    rewrite <- app_assoc; eexists _, _, _; (split; [done|]); cbn [app length];
    (split; [lia|]); intros Hg; inversion Hg; congruence.
Qed.
End safety.

(** C24: BITFIELD is memory safe and total: for any arguments and any value of
    the key the command never leaves the string, the 9-byte buffer or the width of
    a shift, and it ends with an error that changes nothing or with an array of
    replies; BITFIELD_RO never changes anything. *)
Theorem bitfield_safe obey maxlen ro o args : value_ok o →
  ∃ o' eff r, bitfieldGeneric obey maxlen ro o args = Some (o', eff, r) ∧
    match r with
    | RErr _ => o' = o ∧ eff = []
    | RArray _ => ro = true → o' = o ∧ eff = []
    | _ => False
    end.
Proof.
  intros Hok. unfold bitfieldGeneric.
  destruct (parse_total obey maxlen (length args) args BFOVERFLOW_WRAP [] true 0) as (r & -> & Hr); [done|by unfold parsed_ok|].
  mnext. destruct r as [[[ops readonly] highest]|e]; [|by eexists _, _, _]. destruct Hr as (Hh & Hops & Hro).
  destruct (value_string o) as [s|] eqn:Hs.
  2: { destruct o as [[]|]; try discriminate. destruct readonly; [mnext; by eexists _, _, _|].
       destruct ro; [|cbn [lookupStringForBitCommand]; mnext]; mnext; by eexists _, _, _. }
  destruct (read_only_spec o s Hok Hs) as (Hrd & Hb & Hl). destruct readonly.
  - replace (match o with Some VOther => inr ErrWrongType | _ => inl (o, false) end)
      with (inl (B := err) (o, false)) by (by destruct o as [[]|]).
    mnext. destruct (run_total highest false ops o s [] 0) as (o' & l & ch & -> & _ & Hg); [done..|lia|by auto|].
    destruct (Hg (Hro eq_refl)) as [-> ->]. mnext. by eexists _, _, _.
  - destruct ro; [mnext; by eexists _, _, _|].
    destruct (lookup_string_spec o s highest Hok Hs) as (dirty & -> & _); [lia|]. mnext. mnext.
    set (g := grown s (highest / 8 + 1)). assert (Hlg : len g = Z.max (len s) (highest / 8 + 1)).
    { unfold g, grown. rewrite length_app, length_replicate. lia. }
    destruct (run_total highest dirty ops (Some (VStr g)) g [] 0) as (o' & l & ch & -> & _ & _);
      [done|done|by apply grown_ok|div_lia|right; split; [done|div_lia]|].
    mnext. by eexists _, _, _.
Qed.

Lemma bitfield_safe_witness :
  let args := [[115;101;116]; [105;53]; [49;54]; [55]] in
  bitfieldGeneric true 0 true None args = Some (None, [], RErr ErrReadonly) ∧
  ∃ o' eff r, bitfieldGeneric true 0 true None args = Some (o', eff, r) ∧
    match r with
    | RErr _ => o' = None ∧ eff = []
    | RArray _ => true = true → o' = None ∧ eff = []
    | _ => False
    end.
Proof. split; [by vm_compute|]. by apply (bitfield_safe true 0 true None). Defined.
