(* ===== verification/Rdb.v ===== *)
(** The RDB format of lengths, integers and strings: src/redis-7.0.0/src/rdb.c
    (rdbSaveLen to rdbGenericLoadStringObject), on the in-memory stream of rio.c
    and rio.h, and the footer of DUMP payloads of cluster.c.

    A stream [rdb] is a buffer with a position; for writing it may be NULL, then
    the code only counts.  Saving functions return the number of bytes written, -1
    for an error, with the stream after it.  Loading functions return the value or
    NULL, the inner [None].  The report of a corrupt file, which ends the process
    when a file is being loaded, is NULL here, as it is for RESTORE.  [None] is an
    access outside a buffer or a failed assertion. *)
From S2P Require Import Prelude Endian UtilNum SdsText Sds Crc Bitops Lzf.

(** ** Streams *)

Record rio := mk_rio {
  ptr : list Z; pos : Z; read_error : bool; write_error : bool;
  processed_bytes : Z; max_processing_chunk : Z
}.

Definition rioInitWithBuffer (s : list Z) : rio := mk_rio s 0 false false 0 0.

Definition rioBufferWrite (r : rio) (buf : list Z) : rio :=
  mk_rio (ptr r ++ buf) (pos r + len buf) (read_error r) (write_error r)
    (processed_bytes r) (max_processing_chunk r).

(** [None] is the failure for want of data. *)
Definition rioBufferRead (r : rio) (n : Z) : option (option (list Z * rio)) :=
  if u64 (len (ptr r) - pos r) <? n then Some None
  else
    bs ← load (ptr r) (pos r) n;
    Some (Some (bs, mk_rio (ptr r) (pos r + n) (read_error r) (write_error r)
                      (processed_bytes r) (max_processing_chunk r))).

(** The bytes of the next turn of the loops of rioRead and rioWrite. *)
Definition next_chunk (r : rio) (n : Z) : Z :=
  if negb (max_processing_chunk r =? 0) && (max_processing_chunk r <? n)
  then max_processing_chunk r else n.
Definition add_processed (r : rio) (n : Z) : rio :=
  mk_rio (ptr r) (pos r) (read_error r) (write_error r) (u64 (processed_bytes r + n))
    (max_processing_chunk r).

Fixpoint write_loop (fuel : nat) (r : rio) (buf : list Z) : option rio :=
  if len buf =? 0 then Some r
  else
    match fuel with
    | O => None
    | S fuel =>
      let n := next_chunk r (len buf) in
      let r := rioBufferWrite r (take (Z.to_nat n) buf) in
      write_loop fuel (add_processed r n) (drop (Z.to_nat n) buf)
    end.

(** The flag is the result.  The writes of a buffer stream do not fail. *)
Definition rioWrite (r : rio) (buf : list Z) : option (bool * rio) :=
  if write_error r then Some (false, r)
  else r ← write_loop (length buf) r buf; Some (true, r).

Definition set_read_error (r : rio) : rio :=
  mk_rio (ptr r) (pos r) true (write_error r) (processed_bytes r) (max_processing_chunk r).

Fixpoint read_loop (fuel : nat) (r : rio) (n : Z) (acc : list Z) : option (option (list Z) * rio) :=
  if n =? 0 then Some (Some acc, r)
  else
    match fuel with
    | O => None
    | S fuel =>
      let k := next_chunk r n in
      x ← rioBufferRead r k;
      match x with
      | None => Some (None, set_read_error r)
      | Some (bs, r) => read_loop fuel (add_processed r k) (n - k) (acc ++ bs)
      end
    end.

Definition rioRead (r : rio) (n : Z) : option (option (list Z) * rio) :=
  if read_error r then Some (None, r) else read_loop (length (ptr r) + 1) r n [].

(** ** Lengths *)

Definition RDB_6BITLEN : Z := 0.
Definition RDB_14BITLEN : Z := 1.
Definition RDB_32BITLEN : Z := 0x80.
Definition RDB_64BITLEN : Z := 0x81.
Definition RDB_ENCVAL : Z := 3.
Definition RDB_LENERR : Z := 2 ^ 64 - 1.
Definition RDB_ENC_INT8 : Z := 0.
Definition RDB_ENC_INT16 : Z := 1.
Definition RDB_ENC_INT32 : Z := 2.
Definition RDB_ENC_LZF : Z := 3.

Definition rdbWriteRaw (rdb : option rio) (p : list Z) : option (Z * option rio) :=
  match rdb with
  | None => Some (len p, None)
  | Some r =>
    '(ok, r) ← rioWrite r p;
    Some (if ok : bool then len p else -1, Some r)
  end.

Section rdb.
Context `{Host}.

(** [htonl] and [ntohl] of the C library: the bytes of a 32-bit object in memory
    are then the number's bytes, most significant first. *)
Definition htonl (v : Z) : Z := host_val (reverse (le_bytes 4 v)).
Definition ntohl (v : Z) : Z := le_val (reverse (host_bytes 4 v)).

(** The writes of a sequence; the first failure ends it with -1. *)
Definition then_write (x : Z * option rio) (f : option rio → option (Z * option rio)) :
    option (Z * option rio) :=
  let '(n, rdb) := x in
  if n =? -1 then Some (-1, rdb)
  else
    '(m, rdb) ← f rdb;
    Some (if m =? -1 then -1 else n + m, rdb).

Definition rdbSaveLen (rdb : option rio) (l : Z) : option (Z * option rio) :=
  if l <? Z.shiftl 1 6 then
    rdbWriteRaw rdb [Z.lor (Z.land l 0xFF) (Z.shiftl RDB_6BITLEN 6)]
  else if l <? Z.shiftl 1 14 then
    rdbWriteRaw rdb [Z.lor (Z.land (Z.shiftr l 8) 0xFF) (Z.shiftl RDB_14BITLEN 6); Z.land l 0xFF]
  else if l <=? 2 ^ 32 - 1 then
    x ← rdbWriteRaw rdb [RDB_32BITLEN];
    then_write x (λ rdb, rdbWriteRaw rdb (host_bytes 4 (htonl l)))
  else
    x ← rdbWriteRaw rdb [RDB_64BITLEN];
    l ← htonu64 l;
    then_write x (λ rdb, rdbWriteRaw rdb (host_bytes 8 l)).

(** The flag and the length of the stream's next length, or -1. *)
Definition rdbLoadLenByRef (rdb : rio) : option (option (bool * Z) * rio) :=
  '(x, rdb) ← rioRead rdb 1;
  match x with
  | None => Some (None, rdb)
  | Some buf =>
    buf0 ← load8 buf 0;
    let type := Z.shiftr (Z.land buf0 0xC0) 6 in
    if type =? RDB_ENCVAL then Some (Some (true, Z.land buf0 0x3F), rdb)
    else if type =? RDB_6BITLEN then Some (Some (false, Z.land buf0 0x3F), rdb)
    else if type =? RDB_14BITLEN then
      '(x, rdb) ← rioRead rdb 1;
      match x with
      | None => Some (None, rdb)
      | Some buf =>
        buf1 ← load8 buf 0;
        Some (Some (false, Z.lor (Z.shiftl (Z.land buf0 0x3F) 8) buf1), rdb)
      end
    else if buf0 =? RDB_32BITLEN then
      '(x, rdb) ← rioRead rdb 4;
      Some (match x with
            | None => None
            | Some buf => Some (false, ntohl (host_val buf))
            end, rdb)
    else if buf0 =? RDB_64BITLEN then
      '(x, rdb) ← rioRead rdb 8;
      match x with
      | None => Some (None, rdb)
      | Some buf => l ← ntohu64 (host_val buf); Some (Some (false, l), rdb)
      end
    else Some (None, rdb)
  end.

(** The length and [*isencoded]; an error is RDB_LENERR. *)
Definition rdbLoadLen (rdb : rio) : option (Z * bool * rio) :=
  '(x, rdb) ← rdbLoadLenByRef rdb;
  Some (match x with
        | None => (RDB_LENERR, false, rdb)
        | Some (isencoded, l) => (l, isencoded, rdb)
        end).

(** ** Integers *)

(** The bytes written to [enc]; none when the value does not fit. *)
Definition rdbEncodeInteger (value : Z) : list Z :=
  if (value >=? - Z.shiftl 1 7) && (value <=? Z.shiftl 1 7 - 1) then
    [Z.lor (Z.shiftl RDB_ENCVAL 6) RDB_ENC_INT8; Z.land value 0xFF]
  else if (value >=? - Z.shiftl 1 15) && (value <=? Z.shiftl 1 15 - 1) then
    [Z.lor (Z.shiftl RDB_ENCVAL 6) RDB_ENC_INT16; Z.land value 0xFF; Z.land (Z.shiftr value 8) 0xFF]
  else if (value >=? - Z.shiftl 1 31) && (value <=? Z.shiftl 1 31 - 1) then
    [Z.lor (Z.shiftl RDB_ENCVAL 6) RDB_ENC_INT32; Z.land value 0xFF; Z.land (Z.shiftr value 8) 0xFF;
     Z.land (Z.shiftr value 16) 0xFF; Z.land (Z.shiftr value 24) 0xFF]
  else [].

Definition rdbTryIntegerEncoding (s : list Z) : option (list Z) :=
  r ← string2ll s (len s);
  Some match r with Some value => rdbEncodeInteger value | None => [] end.

(** What the loading functions return: memory of zmalloc, an sds string or a
    string object. *)
Inductive loaded := Plain (s : list Z) | Sds (s : list Z) | Obj (o : value).

Inductive load_flags := RDB_LOAD_NONE | RDB_LOAD_ENC | RDB_LOAD_PLAIN | RDB_LOAD_SDS.

Definition rdbLoadIntegerObject (rdb : rio) (enctype : Z) (flags : load_flags) :
    option (option loaded * rio) :=
  '(x, rdb) ←
    (if enctype =? RDB_ENC_INT8 then
       '(x, rdb) ← rioRead rdb 1;
       match x with
       | None => Some (None, rdb)
       | Some enc => e0 ← load8 enc 0; Some (Some (wraps 8 e0), rdb)
       end
     else if enctype =? RDB_ENC_INT16 then
       '(x, rdb) ← rioRead rdb 2;
       match x with
       | None => Some (None, rdb)
       | Some enc =>
         e0 ← load8 enc 0; e1 ← load8 enc 1;
         Some (Some (s16 (u16 (Z.lor e0 (Z.shiftl e1 8)))), rdb)
       end
     else if enctype =? RDB_ENC_INT32 then
       '(x, rdb) ← rioRead rdb 4;
       match x with
       | None => Some (None, rdb)
       | Some enc =>
         e0 ← load8 enc 0; e1 ← load8 enc 1; e2 ← load8 enc 2; e3 ← load8 enc 3;
         Some (Some (s32 (Z.lor (Z.lor (Z.lor e0 (Z.shiftl e1 8)) (Z.shiftl e2 16)) (Z.shiftl e3 24))), rdb)
       end
     else Some (None, rdb));
  match x with
  | None => Some (None, rdb)
  | Some val =>
    r ← match flags with
        | RDB_LOAD_PLAIN | RDB_LOAD_SDS =>
          '(buf, l) ← ll2string (replicate (Z.to_nat LONG_STR_SIZE) 0) LONG_STR_SIZE val;
          s ← load buf 0 l;
          Some match flags with RDB_LOAD_PLAIN => Plain s | _ => Sds s end
        | RDB_LOAD_ENC => Some (Obj (VInt val))
        | RDB_LOAD_NONE =>
          s ← sdsfromlonglong (replicate (Z.to_nat SDS_LLSTR_SIZE) 0) val;
          Some (Obj (VStr s))
        end;
    Some (Some r, rdb)
  end.

(** ** Strings *)

(** What compression depends on: server.rdb_compression, and for lzf_compress the
    address of the string and the contents of its table on the stack.  [junk]
    fills memory that was not initialised, and [trymalloc] says which sizes
    ztrymalloc and sdstrynewlen can give. *)
Record env := mk_env {
  rdb_compression : bool; in_data : Z; htab : htable; junk : Z; trymalloc : Z → bool
}.
Context (e : env).

Definition rdbSaveLzfBlob (rdb : option rio) (data : list Z) (original_len : Z) : option (Z * option rio) :=
  x ← rdbWriteRaw rdb [Z.lor (Z.shiftl RDB_ENCVAL 6) RDB_ENC_LZF];
  x ← then_write x (λ rdb, rdbSaveLen rdb (len data));
  x ← then_write x (λ rdb, rdbSaveLen rdb original_len);
  then_write x (λ rdb, rdbWriteRaw rdb data).

(** 0 when the string is not worth compressing.  A string has its terminator
    behind it. *)
Definition rdbSaveLzfStringObject (rdb : option rio) (s : list Z) : option (Z * option rio) :=
  if len s <=? 4 then Some (0, rdb)
  else
    r ← lzf_compress (in_data e) (htab e) s [0] (replicate (Z.to_nat (len s - 4)) (junk e));
    match r with
    | None => Some (0, rdb)
    | Some (out, comprlen) =>
      data ← load out 0 comprlen;
      rdbSaveLzfBlob rdb data (len s)
    end.

Definition string_of_loaded (flags : load_flags) (val : list Z) : loaded :=
  match flags with
  | RDB_LOAD_PLAIN => Plain val
  | RDB_LOAD_SDS => Sds val
  | _ => Obj (VStr val)
  end.

(** sdstrynewlen with SDS_NOINIT and its assertion on the size; the answer is whether it
    gave memory. *)
Definition try_sds (l : Z) : option bool :=
  let type := sdsReqType l in
  let type := if (type =? SDS_TYPE_5) && (l =? 0) then SDS_TYPE_8 else type in
  if negb (u64 (l + sdsHdrSize type + 1) >? l) then None else Some (trymalloc e l).
(** [OBJ_ENCODING_EMBSTR_SIZE_LIMIT]: shorter strings are made inside of their object, with
    zmalloc, which does not fail. *)
Definition OBJ_ENCODING_EMBSTR_SIZE_LIMIT : Z := 44.
Definition tryCreateStringObject (l : Z) : option bool :=
  if l <=? OBJ_ENCODING_EMBSTR_SIZE_LIMIT then Some true else try_sds l.

Definition rdbLoadLzfStringObject (rdb : rio) (flags : load_flags) : option (option loaded * rio) :=
  '(clen, _, rdb) ← rdbLoadLen rdb;
  if clen =? RDB_LENERR then Some (None, rdb)
  else
    '(l, _, rdb) ← rdbLoadLen rdb;
    if l =? RDB_LENERR then Some (None, rdb)
    else if negb (trymalloc e clen) then Some (None, rdb)
    else
      ok ← match flags with RDB_LOAD_PLAIN => Some (trymalloc e l) | _ => try_sds l end;
      if negb ok then Some (None, rdb)
      else
        '(x, rdb) ← rioRead rdb clen;
        match x with
        | None => Some (None, rdb)
        | Some c =>
          '(val, n) ← lzf_decompress c (replicate (Z.to_nat l) (junk e));
          Some (if negb (n =? l) then None else Some (string_of_loaded flags val), rdb)
        end.

Definition rdbSaveRawString (rdb : option rio) (s : list Z) : option (Z * option rio) :=
  enc ← (if len s <=? 11 then rdbTryIntegerEncoding s else Some []);
  if 0 <? len enc then rdbWriteRaw rdb enc
  else
    '(n, rdb) ← (if rdb_compression e && (len s >? 20) then rdbSaveLzfStringObject rdb s
                 else Some (0, rdb));
    if n =? -1 then Some (-1, rdb)
    else if n >? 0 then Some (n, rdb)
    else
      x ← rdbSaveLen rdb (len s);
      then_write x (λ rdb, if len s >? 0 then rdbWriteRaw rdb s else Some (0, rdb)).

Definition rdbSaveLongLongAsStringObject (rdb : option rio) (value : Z) : option (Z * option rio) :=
  let enc := rdbEncodeInteger value in
  if len enc >? 0 then rdbWriteRaw rdb enc
  else
    '(buf, enclen) ← ll2string (replicate 32 0) 32 value;
    if negb (enclen <? 32) then None
    else
      x ← rdbSaveLen rdb enclen;
      bs ← load buf 0 enclen;
      then_write x (λ rdb, rdbWriteRaw rdb bs).

(** A value of another type fails the assertion. *)
Definition rdbSaveStringObject (rdb : option rio) (obj : value) : option (Z * option rio) :=
  match obj with
  | VInt n => rdbSaveLongLongAsStringObject rdb n
  | VStr s => rdbSaveRawString rdb s
  | VOther => None
  end.

Definition rdbGenericLoadStringObject (rdb : rio) (flags : load_flags) : option (option loaded * rio) :=
  '(l, isencoded, rdb) ← rdbLoadLen rdb;
  if l =? RDB_LENERR then Some (None, rdb)
  else if isencoded : bool then
    if (l =? RDB_ENC_INT8) || (l =? RDB_ENC_INT16) || (l =? RDB_ENC_INT32)
    then rdbLoadIntegerObject rdb l flags
    else if l =? RDB_ENC_LZF then rdbLoadLzfStringObject rdb flags
    else Some (None, rdb)
  else
    ok ← match flags with RDB_LOAD_PLAIN => Some (trymalloc e l) | RDB_LOAD_ENC => tryCreateStringObject l | _ => try_sds l end;
    if negb ok then Some (None, rdb)
    else
      '(x, rdb) ← (if negb (l =? 0) then rioRead rdb l else Some (Some [], rdb));
      Some (match x with None => None | Some buf => Some (string_of_loaded flags buf) end, rdb).

(** ** Times *)

Definition rdbSaveMillisecondTime (rdb : option rio) (t : Z) : option (Z * option rio) :=
  t64 ← memrev64ifbe (host_bytes 8 t) 0;
  rdbWriteRaw rdb t64.

Definition rdbLoadMillisecondTime (rdb : rio) (rdbver : Z) : option (Z * rio) :=
  '(x, rdb) ← rioRead rdb 8;
  match x with
  | None => Some (LLONG_MAX, rdb)
  | Some t64 =>
    t64 ← (if rdbver >=? 9 then memrev64ifbe t64 0 else Some t64);
    Some (s64 (host_val t64), rdb)
  end.

(** ** DUMP payloads *)

Definition RDB_VERSION : Z := 10.

(** The payload after the serialised object: version and checksum.  [t] is the
    table of crc64, [addr] the address of the buffer. *)
Definition dump_footer (t : crc_table) (addr : Z) (payload : list Z) : option (list Z) :=
  let payload := payload ++ [Z.land RDB_VERSION 0xff; Z.land (Z.shiftr RDB_VERSION 8) 0xff] in
  crc ← crc64 t 0 addr payload (len payload);
  crc ← memrev64ifbe (host_bytes 8 crc) 0;
  Some (payload ++ crc).

(** C_OK or C_ERR, with the version read when there is one; [skip] is
    server.skip_checksum_validation. *)
Definition verifyDumpPayload (t : crc_table) (addr : Z) (skip : bool) (p : list Z) :
    option (bool * option Z) :=
  let l := len p in
  if l <? 10 then Some (false, None)
  else
    let footer := l - 10 in
    f1 ← load8 p (footer + 1);
    f0 ← load8 p footer;
    let rdbver := Z.lor (u16 (Z.shiftl f1 8)) f0 in
    if rdbver >? RDB_VERSION then Some (false, Some rdbver)
    else if skip then Some (true, Some rdbver)
    else
      crc ← crc64 t 0 addr p (l - 8);
      crc ← memrev64ifbe (host_bytes 8 crc) 0;
      f ← load p (footer + 2) 8;
      Some (bool_decide (crc = f), Some rdbver).

End rdb.
