(* ===== verification/RdbTheorems.v ===== *)
(** The RDB format (rdb.c): what is saved is loaded again, and no bytes make the
    loading functions leave a buffer.

    A saving function is described by the bytes it appends to any stream
    ([writes]), a loading function by the bytes it takes ([reads]). *)
From S2P Require Import Prelude Bits Endian UtilNum SdsText Sds Crc Bitops Lzf LzfTheorems Rdb BitopsTheorems.

(** ** Streams *)

(** A stream open for writing, and the stream after [bs] was appended. *)
Definition writable (r : rio) : Prop := write_error r = false ∧ 0 <= max_processing_chunk r.

Lemma write_loop_spec fuel r bs : 0 <= max_processing_chunk r → (length bs <= fuel)%nat →
  ∃ r', write_loop fuel r bs = Some r' ∧ ptr r' = ptr r ++ bs ∧ write_error r' = write_error r ∧
    max_processing_chunk r' = max_processing_chunk r.
Proof.
  revert r bs. induction fuel as [|fuel IH]; intros r bs Hc Hf; cbn [write_loop].
  { destruct bs; [|cbn in Hf; lia]. exists r. by rewrite app_nil_r. }
  destruct (Z.eqb_spec (len bs) 0) as [H0|H0].
  { destruct bs; [|cbn in H0; lia]. exists r. by rewrite app_nil_r. }
  assert (Hn : 0 < next_chunk r (len bs) <= len bs) by (unfold next_chunk; case_if; lia).
  set (n := next_chunk r (len bs)) in *. set (r1 := add_processed _ n).
  destruct (IH r1 (drop (Z.to_nat n) bs)) as (r' & Hr & Hp & Hw & Hm); [done|rewrite length_drop; lia|].
  exists r'. split_and!; [done| |done|done]. rewrite Hp. unfold r1. cbn. by rewrite <- app_assoc, take_drop.
Qed.

Lemma rioWrite_spec r bs : writable r →
  ∃ r', rioWrite r bs = Some (true, r') ∧ ptr r' = ptr r ++ bs ∧ writable r'.
Proof.
  intros [Hw Hc]. unfold rioWrite. rewrite Hw. destruct (write_loop_spec (length bs) r bs) as (r' & -> & Hp & Hw' & Hm);
    [done..|]. mnext. exists r'. split_and!; [done..|]. split; [congruence|lia].
Qed.

(** A stream open for reading: what was read and what is left. *)
Definition at_pos (r : rio) (pre rest : list Z) : Prop :=
  ptr r = pre ++ rest ∧ pos r = len pre ∧ read_error r = false ∧
  0 <= max_processing_chunk r ∧ len (ptr r) < 2 ^ 63.

Lemma buffer_read_spec r pre bs post : at_pos r pre (bs ++ post) →
  ∃ r', rioBufferRead r (len bs) = Some (Some (bs, r')) ∧ at_pos r' (pre ++ bs) post ∧
    max_processing_chunk r' = max_processing_chunk r.
Proof.
  intros (Hp & Hpos & He & Hc & Hl). unfold rioBufferRead. rewrite Hp in Hl.
  assert (Hrest : len (ptr r) - pos r = len bs + len post) by (rewrite Hp, Hpos; len_lia).
  rewrite Hrest, wrapu_small by len_lia. replace (_ <? _) with false by lia. rewrite Hp, Hpos, load_app by done. mnext.
  eexists. split; [done|]. split; [|done]. split_and!; cbn; [by rewrite <- app_assoc|len_lia|done|done|by rewrite app_assoc in *].
Qed.

Lemma read_loop_spec fuel r pre bs post acc : at_pos r pre (bs ++ post) → (length bs <= fuel)%nat →
  ∃ r', read_loop fuel r (len bs) acc = Some (Some (acc ++ bs), r') ∧ at_pos r' (pre ++ bs) post.
Proof.
  revert r pre bs acc. induction fuel as [|fuel IH]; intros r pre bs acc Hat Hf; cbn [read_loop].
  { destruct bs; [|cbn in Hf; lia]. exists r. by rewrite !app_nil_r. }
  destruct (Z.eqb_spec (len bs) 0) as [H0|H0].
  { destruct bs; [|cbn in H0; lia]. exists r. by rewrite !app_nil_r. }
  assert (Hn : 0 < next_chunk r (len bs) <= len bs).
  { destruct Hat as (_ & _ & _ & ? & _). unfold next_chunk. case_if; lia. }
  set (n := next_chunk r (len bs)) in *. rewrite <- (take_drop (Z.to_nat n) bs), <- app_assoc in Hat.
  destruct (buffer_read_spec _ _ _ _ Hat) as (r1 & Hr1 & Hat1 & _).
  replace (len (take (Z.to_nat n) bs)) with n in Hr1 by len_lia. rewrite Hr1. mnext.
  destruct (IH (add_processed r1 n) (pre ++ take (Z.to_nat n) bs) (drop (Z.to_nat n) bs) (acc ++ take (Z.to_nat n) bs))
    as (r' & Hr & Hat'); [done|len_lia|].
  replace (len (drop (Z.to_nat n) bs)) with (len bs - n) in Hr by len_lia. exists r'.
  rewrite Hr, <- !app_assoc, take_drop in *. done.
Qed.

Lemma rioRead_spec r pre bs post : at_pos r pre (bs ++ post) →
  ∃ r', rioRead r (len bs) = Some (Some bs, r') ∧ at_pos r' (pre ++ bs) post.
Proof.
  intros Hat. unfold rioRead. pose proof Hat as (Hp & _ & -> & _).
  destruct (read_loop_spec (length (ptr r) + 1) r pre bs post [] Hat) as (r' & Hr & Hat'); [rewrite Hp; len_lia|].
  by exists r'.
Qed.

(** Reading from any stream. *)
Definition rio_ok (r : rio) : Prop :=
  bytes_ok (ptr r) ∧ 0 <= pos r <= len (ptr r) ∧ 0 <= max_processing_chunk r ∧ len (ptr r) < 2 ^ 63.

Lemma read_loop_total fuel r n acc : rio_ok r → 0 <= n → bytes_ok acc → len (ptr r) - pos r < Z.of_nat fuel →
  ∃ x r', read_loop fuel r n acc = Some (x, r') ∧ rio_ok r' ∧
    ∀ bs, x = Some bs → bytes_ok bs ∧ len bs = len acc + n.
Proof.
  revert r n acc. induction fuel as [|fuel IH]; intros r n acc Hr Hn Hacc Hf; [destruct Hr; lia|]. cbn [read_loop].
  pose proof Hr as (Hb & Hpos & Hc & Hl).
  destruct (Z.eqb_spec n 0) as [->|H0]; [eexists _, r; split; [done|]; split; [done|]; intros ? [= <-]; split; [done|lia]|].
  assert (Hk : 0 < next_chunk r n <= n) by (unfold next_chunk; case_if; lia). set (k := next_chunk r n) in *.
  unfold rioBufferRead. rewrite wrapu_small by lia. destruct (Z.ltb_spec (len (ptr r) - pos r) k).
  { mnext. eexists None, _. split; [done|]. by split. }
  unfold load, in_range. replace (_ && _) with true by lia. mnext. mnext.
  match goal with |- context [add_processed ?r1 k] => destruct (IH (add_processed r1 k) (n - k)
    (acc ++ take (Z.to_nat k) (drop (Z.to_nat (pos r)) (ptr r)))) as (x & r' & -> & Hr' & Hx) end.
  - unfold rio_ok; cbn. split_and!; [done|lia..].
  - lia.
  - apply Forall_app. split; [done|]. by apply Forall_take, Forall_drop.
  - cbn. lia.
  - eexists x, r'. split; [done|]. split; [done|]. intros bs Hbs. destruct (Hx bs Hbs). split; [done|].
    rewrite length_app, length_take, length_drop in *. lia.
Qed.

Lemma rioRead_total r n : rio_ok r → 0 <= n →
  ∃ x r', rioRead r n = Some (x, r') ∧ rio_ok r' ∧ ∀ bs, x = Some bs → bytes_ok bs ∧ len bs = n.
Proof.
  intros Hr Hn. unfold rioRead. destruct (read_error r); [by eexists None, r|].
  pose proof Hr as (_ & Hpos & _). destruct (read_loop_total (length (ptr r) + 1) r n []) as (x & r' & -> & ? & Hx);
    [done|done|constructor|lia|]. by eexists x, r'.
Qed.

(** ** Saving and loading *)

(** [f] appends [bs] to any stream, and counts its bytes when there is none. *)
Definition writes (f : option rio → option (Z * option rio)) (bs : list Z) : Prop :=
  f None = Some (len bs, None) ∧
  ∀ r, writable r → ∃ r', f (Some r) = Some (len bs, Some r') ∧ ptr r' = ptr r ++ bs ∧ writable r'.

Lemma writes_raw bs : writes (λ rdb, rdbWriteRaw rdb bs) bs.
Proof.
  split; [done|]. intros r Hr. cbn. destruct (rioWrite_spec r bs Hr) as (r' & -> & Hp & Hw). mnext. by eexists.
Qed.

Lemma writes_then f g a b : writes f a → writes g b → writes (λ rdb, x ← f rdb; then_write x g) (a ++ b).
Proof.
  assert (Hlen : ∀ l : list Z, (len l =? -1) = false) by (intros; lia).
  assert (Happ : len a + len b = len (a ++ b)) by len_lia.
  intros [Hf0 Hf] [Hg0 Hg]. split.
  - rewrite Hf0. mnext. unfold then_write. rewrite Hlen, Hg0. mnext. by rewrite Hlen, Happ.
  - intros r Hr. destruct (Hf r Hr) as (r1 & -> & Hp1 & Hr1). mnext. unfold then_write. rewrite Hlen.
    destruct (Hg r1 Hr1) as (r2 & -> & Hp2 & Hr2). mnext. rewrite Hlen, Happ. eexists. split; [done|].
    split; [|done]. by rewrite Hp2, Hp1, app_assoc.
Qed.

(** [f] takes [bs] from the front of what is left and yields [a]. *)
Definition reads {A} (f : rio → option (A * rio)) (bs : list Z) (a : A) : Prop :=
  ∀ r pre post, at_pos r pre (bs ++ post) → ∃ r', f r = Some (a, r') ∧ at_pos r' (pre ++ bs) post.

(** ** Lengths *)

(** Big-endian numbers. *)
Definition be (n : nat) (z : Z) : list Z := reverse (le_bytes n z).

Lemma length_be n z : length (be n z) = n.
Proof. unfold be. len_lia. Qed.
Lemma be_ok n z : bytes_ok (be n z).
Proof. apply Forall_reverse, le_bytes_ok. Qed.
#[export] Hint Rewrite length_be : len_db.

(** The bytes of a length. *)
Definition len_bytes (l : Z) : list Z :=
  if l <? 64 then [l]
  else if l <? 16384 then [64 + l / 256; l mod 256]
  else if l <? 2 ^ 32 then 128 :: be 4 l
  else 129 :: be 8 l.

Section lengths.
Context `{Host}.

Lemma htonl_bytes l : host_bytes 4 (htonl l) = be 4 l.
Proof. unfold htonl. apply host_bytes_val; [len_lia|apply be_ok]. Qed.

Lemma ntohl_bytes l : 0 <= l < 2 ^ 32 → ntohl (host_val (be 4 l)) = l.
Proof.
  intros Hl. unfold ntohl. rewrite host_bytes_val by (first [apply be_ok|len_lia]).
  unfold be. rewrite reverse_involutive, le_val_bytes. apply Z.mod_small. lia.
Qed.

Lemma memrev64_obj x : length x = 8%nat → bytes_ok x → memrev64 x 0 = Some (reverse x).
Proof. intros Hl Hx. pose proof (memrev64_rev [] x [] Hl Hx) as Hr. by rewrite !app_nil_r in Hr. Qed.

Lemma htonu64_bytes l : ∃ v, htonu64 l = Some v ∧ host_bytes 8 v = be 8 l.
Proof.
  unfold htonu64, intrev64. destruct big_endian eqn:E.
  - eexists. split; [done|]. unfold host_bytes. by rewrite E.
  - rewrite memrev64_obj by (first [apply host_bytes_ok|len_lia]). cbn. eexists. split; [done|].
    rewrite host_bytes_val by (first [apply Forall_reverse, host_bytes_ok|len_lia]). unfold host_bytes. by rewrite E.
Qed.

Lemma ntohu64_bytes l : 0 <= l < 2 ^ 64 → ntohu64 (host_val (be 8 l)) = Some l.
Proof.
  intros Hl. unfold ntohu64, intrev64. rewrite host_bytes_val by (first [apply be_ok|len_lia]).
  assert (Hv : le_val (reverse (be 8 l)) = l).
  { unfold be. rewrite reverse_involutive, le_val_bytes. apply Z.mod_small. lia. }
  destruct big_endian eqn:E; [unfold host_val; by rewrite E, Hv|].
  rewrite memrev64_obj by (first [apply be_ok|len_lia]). cbn. unfold host_val. by rewrite E, Hv.
Qed.

Lemma save_len_writes l : 0 <= l < 2 ^ 64 → writes (λ rdb, rdbSaveLen rdb l) (len_bytes l).
Proof.
  intros Hl. unfold rdbSaveLen, len_bytes. change (Z.shiftl 1 6) with 64. change (Z.shiftl 1 14) with 16384.
  change (Z.shiftl RDB_6BITLEN 6) with 0. change (Z.shiftl RDB_14BITLEN 6) with 64.
  destruct (Z.ltb_spec l 64).
  { rewrite Z.lor_0_r, land_255, Z.mod_small by lia. apply writes_raw. }
  destruct (Z.ltb_spec l 16384).
  { rewrite !land_255, Z.shiftr_div_pow2 by lia. change (2 ^ 8) with 256.
    rewrite (Z.mod_small (l / 256)) by div_lia.
    assert (Z.lor (l / 256) 64 = 64 + l / 256) as ->; [|apply writes_raw].
    rewrite Z.lor_comm. apply (lor_shiftl 1 (l / 256) 6); div_lia. }
  replace (l <=? 2 ^ 32 - 1) with (l <? 2 ^ 32) by lia. destruct (l <? 2 ^ 32).
  - apply (writes_then (λ rdb, rdbWriteRaw rdb [128]) (λ rdb, rdbWriteRaw rdb (host_bytes 4 (htonl l))) [128]);
      [apply writes_raw|]. rewrite htonl_bytes. apply writes_raw.
  - destruct (htonu64_bytes l) as (v & -> & Hv).
    apply (writes_then (λ rdb, rdbWriteRaw rdb [129]) (λ rdb, rdbWriteRaw rdb (host_bytes 8 v)) [129]);
      [apply writes_raw|]. rewrite Hv. apply writes_raw.
Qed.

Lemma read_byte r pre b rest : at_pos r pre (b :: rest) →
  ∃ r', rioRead r 1 = Some (Some [b], r') ∧ at_pos r' (pre ++ [b]) rest.
Proof. apply (rioRead_spec r pre [b] rest). Qed.

Lemma load8_second (a b : Z) rest : load8 (a :: b :: rest) 1 = Some b.
Proof. by apply (load8_app [a]). Qed.

Lemma load8_third (a b c : Z) rest : load8 (a :: b :: c :: rest) 2 = Some c.
Proof. by apply (load8_app [a; b]). Qed.

Lemma load8_fourth (a b c d : Z) rest : load8 (a :: b :: c :: d :: rest) 3 = Some d.
Proof. by apply (load8_app [a; b; c]). Qed.

Lemma read_bytes r pre bs rest n : at_pos r pre (bs ++ rest) → n = len bs →
  ∃ r', rioRead r n = Some (Some bs, r') ∧ at_pos r' (pre ++ bs) rest.
Proof. intros Hat ->. by apply rioRead_spec. Qed.

(** The first byte of a length: two bits of type and six of value. *)
Lemma len_type b : is_byte b → Z.shiftr (Z.land b 0xC0) 6 = b / 64.
Proof.
  intros Hb. apply Z.eqb_eq.
  apply (forall_below (λ b, Z.shiftr (Z.land b 0xC0) 6 =? b / 64) 256 ltac:(by vm_compute) b Hb).
Qed.

Lemma load_len_reads l : 0 <= l < 2 ^ 64 → reads rdbLoadLen (len_bytes l) (l, false).
Proof.
  intros Hl r pre post Hat. unfold rdbLoadLen, rdbLoadLenByRef, len_bytes in *.
  assert (H63 : ∀ b, Z.land b 63 = b mod 64) by (intros; by apply (Z.land_ones b 6)).
  destruct (Z.ltb_spec l 64).
  { destruct (read_byte _ _ _ _ Hat) as (r1 & -> & Hat1). mnext. rewrite load8_head. mnext.
    rewrite len_type, H63, Z.div_small, Z.mod_small by (unfold is_byte; lia). cbn. eauto. }
  destruct (Z.ltb_spec l 16384).
  { destruct (read_byte _ _ _ _ Hat) as (r1 & -> & Hat1). mnext. rewrite load8_head. mnext.
    rewrite len_type, H63 by (unfold is_byte; div_lia). replace ((64 + l / 256) / 64) with 1 by div_lia.
    destruct (read_byte _ _ _ _ Hat1) as (r2 & -> & Hat2).
    change (1 =? RDB_ENCVAL) with false. change (1 =? RDB_6BITLEN) with false. change (1 =? RDB_14BITLEN) with true.
    cbv iota. mnext. rewrite load8_head. mnext. mnext. rewrite <- app_assoc in Hat2. eexists. split; [|done]. do 3 f_equal.
    rewrite lor_shiftl by div_lia. change (2 ^ 8) with 256. div_lia. }
  destruct (Z.ltb_spec l (2 ^ 32)).
  - destruct (read_byte _ _ _ _ Hat) as (r1 & -> & Hat1). mnext. rewrite load8_head. mnext.
    destruct (read_bytes r1 (pre ++ [128]) (be 4 l) post 4 Hat1) as (r2 & Hr2 & Hat2); [len_lia|].
    change (Z.shiftr (Z.land 128 192) 6) with 2. change (2 =? RDB_ENCVAL) with false.
    change (2 =? RDB_6BITLEN) with false. change (2 =? RDB_14BITLEN) with false. change (128 =? RDB_32BITLEN) with true.
    cbv iota. rewrite Hr2. mnext. mnext. rewrite ntohl_bytes by lia. rewrite <- app_assoc in Hat2. eauto.
  - destruct (read_byte _ _ _ _ Hat) as (r1 & -> & Hat1). mnext. rewrite load8_head. mnext.
    destruct (read_bytes r1 (pre ++ [129]) (be 8 l) post 8 Hat1) as (r2 & Hr2 & Hat2); [len_lia|].
    change (Z.shiftr (Z.land 129 192) 6) with 2. change (2 =? RDB_ENCVAL) with false.
    change (2 =? RDB_6BITLEN) with false. change (2 =? RDB_14BITLEN) with false. change (129 =? RDB_32BITLEN) with false.
    change (129 =? RDB_64BITLEN) with true.
    cbv iota. rewrite Hr2. mnext. rewrite ntohu64_bytes by lia. mnext. mnext. rewrite <- app_assoc in Hat2. eauto.
Qed.
End lengths.

(** A length of up to 2^64 - 1 that rdbSaveLen writes is what rdbLoadLen
    reads, in one, two, five or nine bytes, on hosts of either byte order, and the
    bytes do not depend on the host that writes them. *)
Theorem rdb_len_roundtrip (h1 h2 : Host) l : 0 <= l < 2 ^ 64 →
  writes (λ rdb, rdbSaveLen (H := h1) rdb l) (len_bytes l) ∧
  reads (rdbLoadLen (H := h2)) (len_bytes l) (l, false).
Proof. intros. split; [by apply save_len_writes|by apply load_len_reads]. Qed.

Lemma rdb_len_roundtrip_witness :
  writes (λ rdb, rdbSaveLen (H := be_host) rdb 70000) [128; 0; 1; 17; 112] ∧
  reads (rdbLoadLen (H := le_host)) [128; 0; 1; 17; 112] (70000, false).
Proof. apply (rdb_len_roundtrip be_host le_host 70000). lia. Defined.

(** ** Integers *)

(** The bytes of an integer that fits 32 bits, after the byte for its kind. *)
Definition int_bytes (v : Z) : list Z :=
  if (- 2 ^ 7 <=? v) && (v <? 2 ^ 7) then 192 :: le_bytes 1 v
  else if (- 2 ^ 15 <=? v) && (v <? 2 ^ 15) then 193 :: le_bytes 2 v
  else if (- 2 ^ 31 <=? v) && (v <? 2 ^ 31) then 194 :: le_bytes 4 v
  else [].

Lemma encode_integer v : rdbEncodeInteger v = int_bytes v.
Proof.
  unfold rdbEncodeInteger, int_bytes. rewrite !land_255, !Z.shiftr_div_pow2 by lia.
  change (Z.shiftl 1 7) with (2 ^ 7). change (Z.shiftl 1 15) with (2 ^ 15). change (Z.shiftl 1 31) with (2 ^ 31).
  replace ((v >=? - 2 ^ 7) && (v <=? 2 ^ 7 - 1)) with ((- 2 ^ 7 <=? v) && (v <? 2 ^ 7)) by lia.
  replace ((v >=? - 2 ^ 15) && (v <=? 2 ^ 15 - 1)) with ((- 2 ^ 15 <=? v) && (v <? 2 ^ 15)) by lia.
  replace ((v >=? - 2 ^ 31) && (v <=? 2 ^ 31 - 1)) with ((- 2 ^ 31 <=? v) && (v <? 2 ^ 31)) by lia.
  change (2 ^ 16) with (256 * 256). change (2 ^ 24) with (256 * 256 * 256). change (2 ^ 8) with 256.
  rewrite <- !Z.div_div by lia. done.
Qed.

(** What is loaded for an integer. *)
Definition int_loaded (flags : load_flags) (v : Z) : loaded :=
  match flags with
  | RDB_LOAD_PLAIN => Plain (dec_string v)
  | RDB_LOAD_SDS => Sds (dec_string v)
  | RDB_LOAD_ENC => Obj (VInt v)
  | RDB_LOAD_NONE => Obj (VStr (dec_string v))
  end.

Lemma print_loaded flags v : LLONG_MIN <= v <= LLONG_MAX →
  match flags with
  | RDB_LOAD_PLAIN | RDB_LOAD_SDS =>
    '(buf, l) ← ll2string (replicate (Z.to_nat LONG_STR_SIZE) 0) LONG_STR_SIZE v;
    s ← load buf 0 l;
    Some match flags with RDB_LOAD_PLAIN => Plain s | _ => Sds s end
  | RDB_LOAD_ENC => Some (Obj (VInt v))
  | RDB_LOAD_NONE =>
    s ← sdsfromlonglong (replicate (Z.to_nat SDS_LLSTR_SIZE) 0) v;
    Some (Obj (VStr s))
  end = Some (int_loaded flags v).
Proof.
  intros Hv. pose proof (length_dec_string v Hv) as Hl.
  assert (Hll : ll2string (replicate (Z.to_nat LONG_STR_SIZE) 0) LONG_STR_SIZE v = Some (dec_string v ++
    0 :: drop (S (length (dec_string v))) (replicate (Z.to_nat LONG_STR_SIZE) 0), len (dec_string v))).
  { pose proof (ll2string_spec (replicate (Z.to_nat LONG_STR_SIZE) 0) LONG_STR_SIZE v Hv) as Hs.
    replace (_ <? _) with true in Hs by lia. apply Hs. unfold LONG_STR_SIZE. len_lia. }
  assert (Hsds : sdsfromlonglong (replicate (Z.to_nat SDS_LLSTR_SIZE) 0) v = Some (dec_string v)).
  { unfold sdsfromlonglong. rewrite sdsll2str_spec by (done || (unfold SDS_LLSTR_SIZE; len_lia)). mnext. by apply load_app0. }
  destruct flags; rewrite ?Hll, ?Hsds; try mnext; try done; by rewrite load_app0.
Qed.

Lemma lor2 a b : is_byte a → Z.lor a (Z.shiftl b 8) = le_val [a; b].
Proof.
  intros Ha. rewrite Z.lor_comm, lor_shiftl by (unfold is_byte in Ha; lia).
  rewrite !le_val_cons. change (le_val []) with 0. change (2 ^ 8) with 256. lia.
Qed.

Lemma lor4 a b c d : is_byte a → is_byte b → is_byte c →
  Z.lor (Z.lor (Z.lor a (Z.shiftl b 8)) (Z.shiftl c 16)) (Z.shiftl d 24) = le_val [a; b; c; d].
Proof.
  unfold is_byte. intros Ha Hb Hc. rewrite lor2, !le_val_cons by done. change (le_val []) with 0.
  rewrite (Z.lor_comm _ (Z.shiftl c 16)), (lor_shiftl c) by lia.
  rewrite (Z.lor_comm _ (Z.shiftl d 24)), lor_shiftl by lia. lia.
Qed.

Lemma load_integer k n flags v : (k = 0 ∧ n = 1%nat) ∨ (k = 1 ∧ n = 2%nat) ∨ (k = 2 ∧ n = 4%nat) →
  - 2 ^ (8 * Z.of_nat n - 1) <= v < 2 ^ (8 * Z.of_nat n - 1) →
  reads (λ r, rdbLoadIntegerObject r k flags) (le_bytes n v) (Some (int_loaded flags v)).
Proof.
  intros Hk Hv r pre post Hat. unfold rdbLoadIntegerObject.
  assert (Hll : LLONG_MIN <= v <= LLONG_MAX).
  { unfold LLONG_MIN, LLONG_MAX. destruct Hk as [[_ ->]|[[_ ->]|[_ ->]]]; lia. }
  assert (Hval : wraps (8 * Z.of_nat n) (le_val (le_bytes n v)) = v).
  { apply wraps_le_val_bytes; [done|destruct Hk as [[_ ->]|[[_ ->]|[_ ->]]]; lia|done]. }
  destruct (read_bytes r pre (le_bytes n v) post (Z.of_nat n) Hat) as (r1 & Hr1 & Hat1); [len_lia|].
  exists r1. split; [|done]. pose proof (le_bytes_ok n v) as Hb. pose proof (length_le_bytes n v) as Hn.
  generalize dependent (le_bytes n v). intros bs _ Hval Hr1 _ Hb Hn.
  assert (Hone : ∀ b, le_val [b] = b) by (intros b; rewrite le_val_cons; change (le_val []) with 0; lia).
  destruct Hk as [[-> ->]|[[-> ->]|[-> ->]]];
    repeat match goal with Hn : length ?l = _ |- _ => is_var l; destruct l; [discriminate Hn|]; injection Hn as Hn end;
    apply nil_length_inv in Hn as ->; rewrite !Forall_cons in Hb.
  - change (0 =? RDB_ENC_INT8) with true. cbv iota. change (Z.of_nat 1) with 1 in Hr1. rewrite Hr1. mnext.
    rewrite load8_head. mnext. mnext. change (8 * Z.of_nat 1) with 8 in Hval. rewrite Hone in Hval.
    rewrite Hval, print_loaded by done. by mnext.
  - change (1 =? RDB_ENC_INT8) with false. change (1 =? RDB_ENC_INT16) with true. cbv iota.
    change (Z.of_nat 2) with 2 in Hr1. rewrite Hr1. mnext.
    rewrite load8_head. mnext. rewrite load8_second. mnext. mnext.
    rewrite lor2 by tauto. unfold wrapu. rewrite wraps_mod by lia. change (8 * Z.of_nat 2) with 16 in Hval.
    rewrite Hval, print_loaded by done. by mnext.
  - change (2 =? RDB_ENC_INT8) with false. change (2 =? RDB_ENC_INT16) with false.
    change (2 =? RDB_ENC_INT32) with true. cbv iota. change (Z.of_nat 4) with 4 in Hr1. rewrite Hr1. mnext.
    rewrite load8_head. mnext. rewrite load8_second. mnext. rewrite load8_third.
    mnext. rewrite load8_fourth. mnext. mnext.
    rewrite lor4 by tauto. change (8 * Z.of_nat 4) with 32 in Hval. rewrite Hval, print_loaded by done. by mnext.
Qed.

(** ** Strings *)

Lemma writes_ext f g bs : (∀ rdb, f rdb = g rdb) → writes g bs → writes f bs.
Proof. intros Hfg [H0 H1]. split; [by rewrite Hfg|]. intros r Hr. rewrite Hfg. by apply H1. Qed.

Lemma writes_nothing : writes (λ rdb, Some (0, rdb)) [].
Proof. split; [done|]. intros r Hr. exists r. by rewrite app_nil_r. Qed.

(** The characters a loaded value stands for. *)
Definition loaded_string (x : loaded) : option (list Z) :=
  match x with
  | Plain s | Sds s | Obj (VStr s) => Some s
  | Obj (VInt v) => Some (dec_string v)
  | Obj VOther => None
  end.

Lemma int_loaded_string flags v : loaded_string (int_loaded flags v) = Some (dec_string v).
Proof. by destruct flags. Qed.

Lemma string_of_loaded_string flags s : loaded_string (string_of_loaded flags s) = Some s.
Proof. by destruct flags. Qed.

(** The table is the compressor's, and memory for [n] bytes can be had. *)
Lemma sds_hdr_size l : 1 <= sdsHdrSize (sdsReqType l) <= 17.
Proof. unfold sdsHdrSize. repeat case_if; lia. Qed.

(** The assertion of sdstrynewlen fails for the last 18 lengths. *)
Lemma try_sds_ok e l : 0 <= l < 2 ^ 64 - 18 → try_sds e l = Some (trymalloc e l).
Proof.
  intros Hl. unfold try_sds. set (type := if _ && _ then _ else _). assert (1 <= sdsHdrSize type <= 17) as Hh by (unfold type; destruct (_ && _); [by vm_compute|apply sds_hdr_size]). rewrite wrapu_small by lia. by replace (_ >? l) with true by lia.
Qed.

Lemma try_sds_fails e l : 2 ^ 64 - 18 <= l < 2 ^ 64 → try_sds e l = None.
Proof.
  intros Hl. unfold try_sds, sdsReqType. change (Z.shiftl 1 5) with 32. change (Z.shiftl 1 8) with 256. change (Z.shiftl 1 16) with 65536. change (Z.shiftl 1 32) with 4294967296. rewrite !(proj2 (Z.ltb_ge l _)) by lia. change (SDS_TYPE_64 =? SDS_TYPE_5) with false. cbn [andb]. change (sdsHdrSize SDS_TYPE_64) with 17.
  assert (Hw : u64 (l + 17 + 1) = l + 18 - 2 ^ 64) by (unfold wrapu; symmetry; apply Z.mod_unique_pos with 1; lia). rewrite Hw. by replace (_ >? l) with false by lia.
Qed.

Record env_ok (e : env) (n : Z) : Prop := {
  eo_addr : 8192 <= in_data e;
  eo_end : in_data e + n < 2 ^ 63;
  eo_tab : htab_ok (htab e);
  eo_mem : ∀ k, 0 <= k <= n → trymalloc e k = true
}.

Lemma env_ok_le e m n : m <= n → env_ok e n → env_ok e m.
Proof. intros Hm [Ha He Ht Hn]. split; [done|lia|done|]. intros k Hk. apply Hn. lia. Qed.

Section strings.
Context `{Host} (e : env).

Lemma load_encval k : 0 <= k < 64 → reads rdbLoadLen [192 + k] (k, true).
Proof.
  intros Hk r pre post Hat. unfold rdbLoadLen, rdbLoadLenByRef.
  destruct (read_byte _ _ _ _ Hat) as (r1 & -> & Hat1). mnext. rewrite load8_head. mnext.
  rewrite len_type by (unfold is_byte; lia). replace ((192 + k) / 64) with 3 by div_lia.
  change (3 =? RDB_ENCVAL) with true. cbv iota. mnext. exists r1. split; [|done].
  change 63 with (Z.ones 6). rewrite Z.land_ones by lia. do 3 f_equal. change (2 ^ 6) with 64. div_lia.
Qed.

Lemma load_int_bytes flags v : int_bytes v ≠ [] →
  reads (λ r, rdbGenericLoadStringObject e r flags) (int_bytes v) (Some (int_loaded flags v)).
Proof.
  assert (Hgen : ∀ k n, (k = 0 ∧ n = 1%nat) ∨ (k = 1 ∧ n = 2%nat) ∨ (k = 2 ∧ n = 4%nat) →
    - 2 ^ (8 * Z.of_nat n - 1) <= v < 2 ^ (8 * Z.of_nat n - 1) →
    reads (λ r, rdbGenericLoadStringObject e r flags) ((192 + k) :: le_bytes n v) (Some (int_loaded flags v))).
  { intros k n Hk Hv r pre post Hat. unfold rdbGenericLoadStringObject.
    destruct (load_encval k ltac:(lia) r pre (le_bytes n v ++ post) Hat) as (r1 & -> & Hat1). mnext.
    destruct (load_integer k n flags v Hk Hv r1 _ post Hat1) as (r2 & Hr2 & Hat2). rewrite <- app_assoc in Hat2.
    exists r2. split; [|done]. destruct Hk as [[-> ->]|[[-> ->]|[-> ->]]]; exact Hr2. }
  unfold int_bytes. intros Hne. case_if; [apply (Hgen 0 1%nat); [lia|cbn; lia]|].
  case_if; [apply (Hgen 1 2%nat); [lia|cbn; lia]|]. case_if; [apply (Hgen 2 4%nat); [lia|cbn; lia]|done].
Qed.

Lemma writes_raw_string s : len s < 2 ^ 63 →
  writes (λ rdb, x ← rdbSaveLen rdb (len s);
          then_write x (λ rdb, if len s >? 0 then rdbWriteRaw rdb s else Some (0, rdb))) (len_bytes (len s) ++ s).
Proof.
  intros Hl. apply writes_then; [apply save_len_writes; lia|]. case_if; [apply writes_raw|].
  destruct s; [apply writes_nothing|cbn [length] in *; lia].
Qed.

Lemma load_raw_string flags s n : env_ok e n → len s <= n →
  reads (λ r, rdbGenericLoadStringObject e r flags) (len_bytes (len s) ++ s) (Some (string_of_loaded flags s)).
Proof.
  intros [Ha He _ Hm] Hn r pre post Hat. unfold rdbGenericLoadStringObject. rewrite <- app_assoc in Hat.
  destruct (load_len_reads (len s) ltac:(lia) r pre (s ++ post) Hat) as (r1 & -> & Hat1). mnext.
  unfold RDB_LENERR. replace (_ =? _) with false by lia. assert (Hmem : match flags with RDB_LOAD_PLAIN => Some (trymalloc e (len s)) | RDB_LOAD_ENC => tryCreateStringObject e (len s) | _ => try_sds e (len s) end = Some true).
  { unfold tryCreateStringObject. rewrite try_sds_ok, Hm by lia. destruct flags; try done; by case_if. }
  rewrite Hmem. mnext. cbn [negb].
  destruct (rioRead_spec _ _ _ _ Hat1) as (r2 & Hr2 & Hat2). rewrite <- app_assoc in Hat2.
  destruct (Z.eqb_spec (len s) 0) as [H0|H0]; cbn [negb]; [|by rewrite Hr2; mnext; eexists].
  mnext. destruct s; [|cbn in H0; lia]. exists r1. split; [done|]. by rewrite app_nil_r in *.
Qed.

(** A compressed string. *)
Definition lzf_bytes (data : list Z) (l : Z) : list Z := ((([195] ++ len_bytes (len data)) ++ len_bytes l) ++ data).

Lemma writes_lzf data l : len data < 2 ^ 63 → 0 <= l < 2 ^ 63 →
  writes (λ rdb, rdbSaveLzfBlob rdb data l) (lzf_bytes data l).
Proof.
  intros Hd Hl. unfold rdbSaveLzfBlob, lzf_bytes. change (Z.lor _ _) with 195.
  pose proof (writes_then _ _ _ _ (writes_raw [195]) (save_len_writes (len data) ltac:(lia))) as H1.
  pose proof (writes_then _ _ _ _ H1 (save_len_writes l ltac:(lia))) as H2.
  pose proof (writes_then _ _ _ _ H2 (writes_raw data)) as H3.
  eapply writes_ext; [|exact H3]. intros rdb. cbv beta. by rewrite !option_bind_assoc.
Qed.

Lemma load_lzf flags n data s : env_ok e n → len s <= n → len data <= n →
  lzf_decompress data (replicate (length s) (junk e)) = Some (s, len s) →
  reads (λ r, rdbGenericLoadStringObject e r flags) (lzf_bytes data (len s)) (Some (string_of_loaded flags s)).
Proof.
  intros [Ha He _ Hm] Hs Hd Hdec r pre post Hat. unfold lzf_bytes in Hat. rewrite <- !app_assoc in Hat.
  unfold rdbGenericLoadStringObject.
  destruct (load_encval 3 ltac:(lia) r pre _ Hat) as (r1 & -> & Hat1). mnext. cbn [Z.eqb].
  change (3 =? RDB_LENERR) with false. cbv iota. change (3 =? RDB_ENC_LZF) with true.
  unfold rdbLoadLzfStringObject.
  destruct (load_len_reads (len data) ltac:(lia) _ _ _ Hat1) as (r2 & -> & Hat2).
  destruct (load_len_reads (len s) ltac:(lia) _ _ _ Hat2) as (r3 & Hr3 & Hat3).
  destruct (rioRead_spec _ _ _ _ Hat3) as (r4 & Hr4 & Hat4).
  exists r4. rewrite <- !app_assoc in Hat4. unfold lzf_bytes. rewrite <- !app_assoc. split; [|done].
  cbv iota. cbn [orb]. mnext. unfold RDB_LENERR in *. replace (len data =? _) with false by lia. rewrite Hr3. mnext.
  replace (len s =? _) with false by lia. rewrite (Hm (len data)) by lia. cbn [negb]. rewrite try_sds_ok, (Hm (len s)) by lia. destruct flags; mnext; cbn [negb]; rewrite Hr4; mnext; rewrite Nat2Z.id, Hdec; mnext; by rewrite Z.eqb_refl.
Qed.

End strings.

Section roundtrip.
(** The string is saved on one host and loaded on another. *)
Context (h1 h2 : Host) (e1 e2 : env).

(** [f] writes bytes that are loaded as the string [s]. *)
Definition saves (f : option rio → option (Z * option rio)) (s : list Z) : Prop :=
  ∃ bs, writes f bs ∧ ∀ flags, ∃ x,
    reads (λ r, rdbGenericLoadStringObject (H := h2) e2 r flags) bs (Some x) ∧ loaded_string x = Some s.

Lemma saves_ext f g s : (∀ rdb, f rdb = g rdb) → saves g s → saves f s.
Proof. intros Hfg (bs & Hw & Hx). exists bs. split; [by eapply writes_ext|done]. Qed.

Lemma saves_int f v : int_bytes v ≠ [] → (∀ rdb, f rdb = rdbWriteRaw rdb (int_bytes v)) → saves f (dec_string v).
Proof.
  intros Hne Hf. exists (int_bytes v). split; [by eapply writes_ext, writes_raw|]. intros flags.
  eexists. split; [by apply load_int_bytes|apply int_loaded_string].
Qed.

Lemma saves_raw n f s : env_ok e2 n → len s <= n →
  (∀ rdb, f rdb = x ← rdbSaveLen (H := h1) rdb (len s);
          then_write x (λ rdb, if len s >? 0 then rdbWriteRaw rdb s else Some (0, rdb))) → saves f s.
Proof.
  intros He Hn Hf. pose proof (eo_addr _ _ He). pose proof (eo_end _ _ He). exists (len_bytes (len s) ++ s). split.
  - eapply writes_ext; [exact Hf|]. apply writes_raw_string. lia.
  - intros flags. eexists. split; [by eapply load_raw_string|apply string_of_loaded_string].
Qed.

Lemma int_bytes_len v : (0 <? len (int_bytes v)) = bool_decide (int_bytes v ≠ []).
Proof. destruct (int_bytes v); [done|cbn [length]]. rewrite bool_decide_true by done. lia. Qed.

(** The compressor gives up, or what it wrote decompresses to the string. *)
Lemma compress_string s : env_ok e1 (len s) → bytes_ok s → 4 < len s →
  (∀ rdb, rdbSaveLzfStringObject (H := h1) e1 rdb s = Some (0, rdb)) ∨
  ∃ data, (∀ rdb, rdbSaveLzfStringObject (H := h1) e1 rdb s = rdbSaveLzfBlob (H := h1) rdb data (len s)) ∧ len data <= len s ∧
    lzf_decompress data (replicate (length s) (junk e2)) = Some (s, len s).
Proof.
  intros [Ha He Ht _] Hs Hl. unfold rdbSaveLzfStringObject. replace (len s <=? 4) with false by lia.
  destruct (lzf_roundtrip_spec (in_data e1) (htab e1) s [0] (replicate (Z.to_nat (len s - 4)) (junk e1))
    (replicate (length s) (junk e2))) as (r & -> & Hr); [done|lia|done|lia|done|len_lia|].
  destruct r as [[out n]|]; [right|by left]. destruct (Hr out n eq_refl) as (Hn & Hlo & Hd).
  rewrite length_replicate in Hn, Hlo. exists (take (Z.to_nat n) out). split_and!.
  - intros rdb. mnext. unfold load, in_range. replace (_ && _) with true by lia. mnext. by rewrite drop_0.
  - len_lia.
  - rewrite Hd, drop_replicate, Nat.sub_diag, app_nil_r. done.
Qed.

Lemma save_raw_string s : env_ok e1 (len s) → env_ok e2 (len s) → bytes_ok s → saves (λ rdb, rdbSaveRawString (H := h1) e1 rdb s) s.
Proof.
  intros He1 He Hs. unfold rdbSaveRawString.
  assert (∃ enc, (if len s <=? 11 then rdbTryIntegerEncoding s else Some []) = Some enc ∧
    (enc = [] ∨ ∃ v, enc = int_bytes v ∧ s = dec_string v)) as (enc & Heq & Henc).
  { case_if; [|by eauto]. unfold rdbTryIntegerEncoding. destruct (string2ll_spec s) as (r & -> & Hr). mnext.
    eexists. split; [done|]. destruct r as [v|]; [right|by left]. exists v. rewrite encode_integer. by destruct (Hr v) as [[_ ?] _]. }
  eapply saves_ext; [intros rdb; rewrite Heq; mnext; reflexivity|]. destruct (decide (enc = [])) as [->|Hne].
  - clear Henc. change (0 <? len []) with false. cbv iota.
    assert (Hraw : ∀ f, (∀ rdb, f rdb = Some (0, rdb)) → saves (λ rdb, '(n, rdb) ← f rdb;
      if n =? -1 then Some (-1, rdb) else if n >? 0 then Some (n, rdb)
      else x ← rdbSaveLen (H := h1) rdb (len s); then_write x (λ rdb, if len s >? 0 then rdbWriteRaw rdb s else Some (0, rdb))) s).
    { intros f Hf. apply (saves_raw (len s)); [done|done|]. intros rdb. by rewrite Hf. }
    destruct (rdb_compression e1 && (len s >? 20)) eqn:E; [|by apply (Hraw (λ rdb, Some (0, rdb)))].
    destruct (compress_string s He1 Hs ltac:(lia)) as [H0|(data & Hb & Hd & Hdec)]; [by apply Hraw|].
    pose proof (eo_addr _ _ He). pose proof (eo_end _ _ He).
    exists (lzf_bytes data (len s)). destruct (writes_lzf (H := h1) data (len s)) as [Hw0 Hw]; [lia..|].
    assert (Hpos : 0 < len (lzf_bytes data (len s))) by (unfold lzf_bytes; len_lia).
    split; [split|].
    + rewrite Hb, Hw0. mnext. by replace (_ =? -1) with false by lia; replace (_ >? 0) with true by lia.
    + intros r Hr. destruct (Hw r Hr) as (r' & Hr' & ?). exists r'. split; [|done]. rewrite Hb, Hr'. mnext.
      by replace (_ =? -1) with false by lia; replace (_ >? 0) with true by lia.
    + intros flags. eexists. split; [by eapply load_lzf|apply string_of_loaded_string].
  - destruct Henc as [|(v & -> & ->)]; [done|]. apply saves_int; [done|]. intros rdb.
    by rewrite int_bytes_len, bool_decide_true.
Qed.

Lemma save_integer v : env_ok e2 32 → LLONG_MIN <= v <= LLONG_MAX →
  saves (λ rdb, rdbSaveLongLongAsStringObject (H := h1) rdb v) (dec_string v).
Proof.
  intros He Hv. unfold rdbSaveLongLongAsStringObject. cbv zeta. rewrite encode_integer, Z.gtb_ltb, int_bytes_len.
  case_bool_decide; [by apply saves_int|]. pose proof (length_dec_string v Hv) as Hl. unfold LONG_STR_SIZE in Hl.
  pose proof (ll2string_spec (replicate 32 0) 32 v Hv ltac:(cbn; lia)) as Hs.
  replace (_ <? 32) with true in Hs by lia. rewrite Hs. apply (saves_raw 32); [done|lia|]. intros rdb. mnext.
  replace (_ <? 32) with true by lia. cbn [negb]. rewrite load_app0 by done.
  replace (len (dec_string v) >? 0) with true by lia. done.
Qed.
End roundtrip.

(** C7: a string object that rdbSaveStringObject writes is read back by
    rdbGenericLoadStringObject as the same characters under each of its flags, on
    a host of either byte order, whether it was written as an integer, compressed
    by LZF or as it is. *)
Theorem rdb_string_roundtrip h1 h2 e1 e2 obj s : value_string (Some obj) = Some s → value_ok (Some obj) →
  env_ok e1 (len s) → env_ok e2 (Z.max 32 (len s)) →
  ∃ bs, writes (λ rdb, rdbSaveStringObject (H := h1) e1 rdb obj) bs ∧ ∀ flags, ∃ x,
    reads (λ r, rdbGenericLoadStringObject (H := h2) e2 r flags) bs (Some x) ∧ loaded_string x = Some s.
Proof.
  intros Hs Hok He1 He2. destruct obj as [s'|n|]; [|..|done]; injection Hs as <-.
  - apply save_raw_string; [done| |apply Hok]. by eapply env_ok_le; [|exact He2]; lia.
  - apply save_integer; [|done]. by eapply env_ok_le; [|exact He2]; lia.
Qed.

(** Saved on a big-endian host, with a string that compresses. *)
Definition witness_env : env := mk_env true 8192 (λ _, 0) 170 (λ k, k <? 1000).

Lemma witness_env_ok n : n < 1000 → env_ok witness_env n.
Proof. intros Hn. split; cbn; [lia..|intros i; lia|intros k Hk; lia]. Qed.

Lemma rdb_string_roundtrip_witness :
  let s := replicate 40 97 in
  (∃ r, rdbSaveStringObject (H := be_host) witness_env (Some (rioInitWithBuffer [])) (VStr s) = Some (12, Some r) ∧
    ptr r = [195; 9; 40; 1; 97; 97; 224; 27; 0; 1; 97; 97]) ∧
  ∃ bs, writes (λ rdb, rdbSaveStringObject (H := be_host) witness_env rdb (VStr s)) bs ∧ ∀ flags, ∃ x,
    reads (λ r, rdbGenericLoadStringObject (H := le_host) witness_env r flags) bs (Some x) ∧ loaded_string x = Some s.
Proof.
  split; [eexists; split; [vm_compute; reflexivity|done]|].
  apply (rdb_string_roundtrip be_host le_host witness_env witness_env (VStr (replicate 40 97)));
    [done|by split; [by_decision|]|apply witness_env_ok; cbn; lia..].
Defined.

(** ** Loading any bytes *)

(** [f] ends on any stream, without leaving a buffer. *)
Definition total {A} (f : rio → option (A * rio)) (P : A → Prop) : Prop :=
  ∀ r, rio_ok r → ∃ a r', f r = Some (a, r') ∧ rio_ok r' ∧ P a.

Section safety.
Context `{Host} (e : env).

Lemma read_total n : 0 <= n → total (λ r, rioRead r n) (λ x, ∀ bs, x = Some bs → bytes_ok bs ∧ len bs = n).
Proof. intros Hn r Hr. destruct (rioRead_total r n Hr Hn) as (x & r' & ?). by exists x, r'. Qed.

Lemma host_val_range bs : bytes_ok bs → 0 <= host_val bs < 2 ^ (8 * len bs).
Proof.
  intros Hbs. unfold host_val. destruct big_endian; [|by apply le_val_range].
  rewrite <- (length_reverse bs). by apply le_val_range, Forall_reverse.
Qed.

Lemma ntohl_range x : 0 <= ntohl x < 2 ^ 32.
Proof.
  unfold ntohl. pose proof (le_val_range (reverse (host_bytes 4 x))) as Hr. rewrite length_reverse, length_host_bytes in Hr.
  apply Hr, Forall_reverse, host_bytes_ok.
Qed.

Lemma ntohu64_total x : 0 <= x < 2 ^ 64 → ∃ l, ntohu64 x = Some l ∧ 0 <= l < 2 ^ 64.
Proof.
  intros Hx. unfold ntohu64, intrev64. destruct big_endian; [by eauto|].
  rewrite memrev64_obj by (first [apply host_bytes_ok|len_lia]). cbn. eexists. split; [done|].
  pose proof (host_val_range (reverse (host_bytes 8 x))) as Hr. rewrite length_reverse, length_host_bytes in Hr.
  apply Hr, Forall_reverse, host_bytes_ok.
Qed.

Lemma byte_of_one bs : bytes_ok bs → len bs = 1 → ∃ b, bs = [b] ∧ is_byte b.
Proof.
  destruct bs as [|b [|]]; cbn [length]; intros Hb Hl; [lia| |lia]. exists b. by rewrite Forall_singleton in Hb.
Qed.

Lemma load_len_total : total rdbLoadLen (λ x, 0 <= x.1 < 2 ^ 64).
Proof.
  intros r Hr. unfold rdbLoadLen, rdbLoadLenByRef.
  destruct (read_total 1 ltac:(lia) r Hr) as ([buf|] & r1 & -> & Hr1 & Hb); mnext; [|mnext; by eexists _, _].
  destruct (Hb _ eq_refl) as [Hb1 Hb2]. destruct (byte_of_one buf Hb1 Hb2) as (b & -> & Hbb). rewrite load8_head. mnext.
  assert (H63 : ∀ b, Z.land b 63 = b mod 64) by (intros; by apply (Z.land_ones _ 6)). rewrite H63.
  assert (0 <= b mod 64 < 64) by div_lia.
  case_if; [mnext; eexists _, _; split_and!; [done|done|cbn [fst]; lia..]|].
  case_if; [mnext; eexists _, _; split_and!; [done|done|cbn [fst]; lia..]|]. case_if.
  { destruct (read_total 1 ltac:(lia) r1 Hr1) as ([buf|] & r2 & -> & Hr2 & Hc); mnext; [|mnext; by eexists _, _].
    destruct (Hc _ eq_refl) as [Hc1 Hc2]. destruct (byte_of_one buf Hc1 Hc2) as (c & -> & Hcb). rewrite load8_head. mnext. mnext.
    eexists _, _. split_and!; [done|done|..]; cbn [fst]; unfold is_byte in Hcb; rewrite lor_shiftl by lia; lia. }
  case_if.
  { destruct (read_total 4 ltac:(lia) r1 Hr1) as ([buf|] & r2 & -> & Hr2 & Hc); mnext; mnext; [|by eexists _, _].
    pose proof (ntohl_range (host_val buf)). eexists _, _. split_and!; [done|done|cbn [fst]; lia..]. }
  case_if; [|mnext; by eexists _, _].
  destruct (read_total 8 ltac:(lia) r1 Hr1) as ([buf|] & r2 & -> & Hr2 & Hc); mnext; [|mnext; by eexists _, _].
  destruct (Hc _ eq_refl) as [Hc1 Hc2]. pose proof (host_val_range buf Hc1) as Hv. rewrite Hc2 in Hv.
  destruct (ntohu64_total _ Hv) as (l & -> & Hl). mnext. mnext. by eexists _, _.
Qed.

Lemma load_integer_total k flags : total (λ r, rdbLoadIntegerObject r k flags) (λ _, True).
Proof.
  intros r Hr. unfold rdbLoadIntegerObject.
  assert (Hgo : ∀ n (g : list Z → rio → option (option Z * rio)), 0 <= n →
    (∀ bs r, bytes_ok bs → len bs = n → ∃ v, g bs r = Some (Some v, r) ∧ LLONG_MIN <= v <= LLONG_MAX) →
    ∃ x r', ('(x, rdb) ← rioRead r n; match x with None => Some (None, rdb) | Some enc => g enc rdb end) = Some (x, r') ∧
      rio_ok r' ∧ ∀ v, x = Some v → LLONG_MIN <= v <= LLONG_MAX).
  { intros n g Hn Hf. destruct (read_total n Hn r Hr) as ([bs|] & r1 & -> & Hr1 & Hb); mnext; [|by eexists None, _].
    destruct (Hb _ eq_refl) as [Hb1 Hb2]. destruct (Hf bs r1 Hb1 Hb2) as (v & -> & Hv). eexists (Some v), _.
    split_and!; [done..|]. by intros ? [= <-]. }
  assert (Hend : ∀ x r', rio_ok r' → (∀ v, x = Some v → LLONG_MIN <= v <= LLONG_MAX) → ∃ a r'',
    match x with
    | Some val => r ← match flags with
      | RDB_LOAD_PLAIN | RDB_LOAD_SDS =>
        '(buf, l) ← ll2string (replicate (Z.to_nat LONG_STR_SIZE) 0) LONG_STR_SIZE val;
        s ← load buf 0 l; Some match flags with RDB_LOAD_PLAIN => Plain s | _ => Sds s end
      | RDB_LOAD_ENC => Some (Obj (VInt val))
      | RDB_LOAD_NONE => s ← sdsfromlonglong (replicate (Z.to_nat SDS_LLSTR_SIZE) 0) val; Some (Obj (VStr s))
      end; Some (Some r, r')
    | None => Some (None, r')
    end = Some (a, r'') ∧ rio_ok r'' ∧ True).
  { intros [v|] r' Hr' Hx; [|by eexists _, _]. rewrite print_loaded by by apply Hx. mnext. by eexists _, _. }
  assert (Hw : ∀ w x, 0 < w <= 64 → LLONG_MIN <= wraps w x <= LLONG_MAX).
  { intros w x Hw. pose proof (wraps_range w x ltac:(lia)). unfold LLONG_MIN, LLONG_MAX.
    assert (2 ^ (w - 1) <= 2 ^ 63) by (apply Z.pow_le_mono_r; lia). lia. }
  destruct (k =? RDB_ENC_INT8).
  { edestruct (Hgo 1) as (x & r1 & -> & Hr1 & Hx); [lia| |mnext; by apply Hend]. intros bs r1 _ Hl.
    destruct bs as [|a l]; [cbn in Hl; lia|]. rewrite load8_head. mnext. eexists. split; [done|by apply Hw]. }
  destruct (k =? RDB_ENC_INT16).
  { edestruct (Hgo 2) as (x & r1 & -> & Hr1 & Hx); [lia| |mnext; by apply Hend]. intros bs r1 _ Hl.
    destruct bs as [|a [|b l]]; [cbn in Hl; lia..|]. rewrite load8_head. mnext. rewrite load8_second. mnext.
    eexists. split; [done|by apply Hw]. }
  destruct (k =? RDB_ENC_INT32); [|mnext; by eexists None, r].
  edestruct (Hgo 4) as (x & r1 & -> & Hr1 & Hx); [lia| |mnext; by apply Hend]. intros bs r1 _ Hl.
  destruct bs as [|a [|b [|c [|d l]]]]; [cbn in Hl; lia..|]. rewrite load8_head. mnext. rewrite load8_second. mnext.
  rewrite load8_third. mnext. rewrite load8_fourth. mnext. eexists. split; [done|by apply Hw].
Qed.

(** The length announced for the string, when it is not an integer. *)
Definition announced_len (rdb : rio) : option Z :=
  '(l, isencoded, rdb) ← rdbLoadLen rdb;
  if isencoded : bool then
    if l =? RDB_ENC_LZF then '(_, _, rdb) ← rdbLoadLen rdb; '(l, _, _) ← rdbLoadLen rdb; Some l else None
  else Some l.

(** The load ends well, or at the assertion of sdstrynewlen. *)
Definition loads {A} (flags : load_flags) (l : option Z) (x : option (A * rio)) : Prop :=
  match x with Some (_, r) => rio_ok r | None => flags ≠ RDB_LOAD_PLAIN ∧ ∃ k, l = Some k ∧ 2 ^ 64 - 18 <= k < RDB_LENERR end.

Lemma loads_alloc {A} flags l (f : option bool) (g : bool → option (A * rio)) : 0 <= l < RDB_LENERR → (∀ ok, loads flags (Some l) (g ok)) →
  (f = Some (trymalloc e l) ∨ f = Some true ∨ flags ≠ RDB_LOAD_PLAIN ∧ f = try_sds e l) → loads flags (Some l) (ok ← f; g ok).
Proof.
  intros Hl Hg [->|[->|[Hp ->]]]; [mnext; apply Hg|mnext; apply Hg|]. unfold RDB_LENERR in *. destruct (decide (l < 2 ^ 64 - 18)); [rewrite try_sds_ok by lia; mnext; apply Hg|]. rewrite try_sds_fails by lia. split; [done|]. exists l. unfold RDB_LENERR. split; [done|lia].
Qed.

Lemma load_lzf_safe flags r : rio_ok r → loads flags ('(_, _, rdb) ← rdbLoadLen r; '(l, _, _) ← rdbLoadLen rdb; Some l) (rdbLoadLzfStringObject e r flags).
Proof.
  intros Hr. unfold rdbLoadLzfStringObject.
  destruct (load_len_total r Hr) as ([clen enc1] & r1 & -> & Hr1 & Hc). rewrite !some_bind. cbv beta iota. case_if; [done|].
  destruct (load_len_total r1 Hr1) as ([l enc2] & r2 & -> & Hr2 & Hl). rewrite !some_bind. cbv beta iota. case_if; [done|].
  case_if; [done|]. cbn [fst] in *. apply loads_alloc; [unfold RDB_LENERR in *; lia| |destruct flags; eauto].
  intros [|]; cbn [negb]; [|done]. destruct (read_total clen ltac:(lia) r2 Hr2) as ([c|] & r3 & -> & Hr3 & Hb); mnext; [|done].
  destruct (Hb _ eq_refl) as [Hb1 _].
  destruct (decompress_total c (replicate (Z.to_nat l) (junk e)) Hb1) as (out & n & -> & _). by mnext.
Qed.

Lemma load_string_safe flags r : rio_ok r → loads flags (announced_len r) (rdbGenericLoadStringObject e r flags).
Proof.
  intros Hr. unfold rdbGenericLoadStringObject, announced_len.
  destruct (load_len_total r Hr) as ([l enc] & r1 & -> & Hr1 & Hl). rewrite !some_bind. cbv beta iota. destruct (l =? RDB_LENERR) eqn:E; to_prop; [done|].
  destruct enc.
  - destruct (_ || _); [destruct (load_integer_total l flags r1 Hr1) as (x & r2 & -> & Hr2 & _); done|]. destruct (l =? RDB_ENC_LZF); [by apply load_lzf_safe|done].
  - cbn [fst] in *. apply loads_alloc; [unfold RDB_LENERR in *; lia| |unfold tryCreateStringObject; destruct flags; eauto; case_if; eauto].
    intros [|]; cbn [negb]; [|done]. case_if; [|by mnext].
    destruct (read_total l ltac:(lia) r1 Hr1) as (x & r2 & -> & Hr2 & _). by mnext.
Qed.

Lemma load_string_asserts flags r l r1 : rdbLoadLen r = Some (l, false, r1) → 2 ^ 64 - 18 <= l < RDB_LENERR → flags ≠ RDB_LOAD_PLAIN → rdbGenericLoadStringObject e r flags = None.
Proof.
  intros Hr Hl Hp. unfold rdbGenericLoadStringObject. rewrite Hr. mnext. if_false. unfold tryCreateStringObject, OBJ_ENCODING_EMBSTR_SIZE_LIMIT. unfold RDB_LENERR in Hl. replace (l <=? 44) with false by lia. rewrite try_sds_fails by lia. by destruct flags.
Qed.
End safety.

(** C28: loading a string from any bytes, corrupt or hostile ones included, does not leave
    the stream, the compressed block or a digit buffer.  It ends with a string or an error,
    unless the bytes announce a string of 2^64 - 18 bytes or more and it is not loaded as
    plain memory: then the process stops at the assertion of sdstrynewlen, and for a string
    that is not compressed it always does. *)
Theorem rdb_load_string_safe `{Host} e r flags : rio_ok r →
  match rdbGenericLoadStringObject e r flags with
  | Some (_, r') => rio_ok r'
  | None => flags ≠ RDB_LOAD_PLAIN ∧ ∃ l, announced_len r = Some l ∧ 2 ^ 64 - 18 <= l < RDB_LENERR
  end ∧
  ∀ l r1, rdbLoadLen r = Some (l, false, r1) → 2 ^ 64 - 18 <= l < RDB_LENERR → flags ≠ RDB_LOAD_PLAIN → rdbGenericLoadStringObject e r flags = None.
Proof. intros Hr. split; [by apply load_string_safe|]. intros l r1. apply load_string_asserts. Qed.

(** A compressed block that refers to octets before its output. *)
Lemma rdb_load_string_safe_witness :
  let r := rioInitWithBuffer [195; 3; 20; 32; 9; 1] in
  (∃ r', rdbGenericLoadStringObject (H := le_host) witness_env r RDB_LOAD_SDS = Some (None, r') ∧ rio_ok r') ∧
  rdbGenericLoadStringObject (H := le_host) witness_env (rioInitWithBuffer [129; 255; 255; 255; 255; 255; 255; 255; 254]) RDB_LOAD_SDS = None.
Proof.
  split.
  - assert (Hok : rio_ok (rioInitWithBuffer [195; 3; 20; 32; 9; 1])) by (split_and!; [by_decision|cbn; lia..]).
    destruct (rdb_load_string_safe (H := le_host) witness_env _ RDB_LOAD_SDS Hok) as [Hs _]. eexists. split; [vm_compute; reflexivity|exact Hs].
  - assert (Hok : rio_ok (rioInitWithBuffer [129; 255; 255; 255; 255; 255; 255; 255; 254])) by (split_and!; [by_decision|cbn; lia..]).
    destruct (rdb_load_string_safe (H := le_host) witness_env _ RDB_LOAD_SDS Hok) as [_ Ha]. eapply Ha; [vm_compute; reflexivity|by_decision|done].
Defined.

(** ** Times *)

Lemma memrev64ifbe_obj `{Host} x : length x = 8%nat → bytes_ok x →
  memrev64ifbe x 0 = Some (if big_endian then reverse x else x).
Proof. apply (memrevifbe_obj _ 8). intros. by apply memrev64ifbe_host. Qed.

Lemma memrev64ifbe_le `{Host} z : memrev64ifbe (host_bytes 8 z) 0 = Some (le_bytes 8 z).
Proof. rewrite memrev64ifbe_obj by (apply host_bytes_ok || len_lia). by rewrite host_bytes_rev. Qed.

(** Since version 9 of the format, a time of 64 bits saved on a host of either
    byte order is loaded as the same time on a host of either byte order. *)
Theorem rdb_time_roundtrip h1 h2 t ver : LLONG_MIN <= t <= LLONG_MAX → 9 <= ver →
  ∃ bs, writes (λ rdb, rdbSaveMillisecondTime (H := h1) rdb t) bs ∧
    reads (λ r, rdbLoadMillisecondTime (H := h2) r ver) bs t.
Proof.
  unfold LLONG_MIN, LLONG_MAX. intros Ht Hver. exists (le_bytes 8 t). unfold rdbSaveMillisecondTime. split.
  - eapply writes_ext; [|apply writes_raw]. intros rdb. by rewrite memrev64ifbe_le.
  - intros r pre post Hat. unfold rdbLoadMillisecondTime.
    destruct (read_bytes r pre (le_bytes 8 t) post 8 Hat) as (r' & -> & Hat'); [len_lia|]. mnext.
    if_true. rewrite memrev64ifbe_obj by (apply le_bytes_ok || len_lia). mnext.
    rewrite host_val_rev, wraps_le_val_bytes by lia. by exists r'.
Qed.

Lemma rdb_time_roundtrip_witness :
  ∃ bs, writes (λ rdb, rdbSaveMillisecondTime (H := be_host) rdb (-5)) bs ∧
    reads (λ r, rdbLoadMillisecondTime (H := le_host) r 10) bs (-5).
Proof. apply (rdb_time_roundtrip be_host le_host); (done || lia). Defined.

(** ** DUMP payloads *)

(** A table that computes the CRC. *)
Definition crc_ok `{Host} (t : crc_table) : Prop :=
  ∀ addr s r, bytes_ok s → crc64 t 0 addr (s ++ r) (len s) = Some (crc64_ref 0 s).

(** A payload: an object, the version and the checksum of both, little-endian. *)
Definition dump_payload (p : list Z) (ver : Z) : Prop :=
  ∃ body, p = body ++ le_bytes 2 ver ++ le_bytes 8 (crc64_ref 0 (body ++ le_bytes 2 ver)).

Section dump.
Context `{Host} (t : crc_table) (Ht : crc_ok t).

Lemma verify_spec addr skip body v crc : bytes_ok body → 0 <= v < 2 ^ 16 → length crc = 8%nat →
  verifyDumpPayload t addr skip (body ++ le_bytes 2 v ++ crc) =
    Some (bool_decide (v <= RDB_VERSION ∧ (skip = true ∨ crc = le_bytes 8 (crc64_ref 0 (body ++ le_bytes 2 v)))), Some v).
Proof.
  intros Hb Hv Hc. unfold verifyDumpPayload. cbv zeta.
  assert (Hl : len (body ++ le_bytes 2 v ++ crc) = len body + 10) by len_lia. rewrite !Hl.
  replace (_ <? 10) with false by lia. replace (len body + 10 - 10) with (len body) by lia.
  assert (Hbs : le_bytes 2 v = [v mod 256; (v / 256) mod 256]) by done.
  assert (H1 : load8 (body ++ le_bytes 2 v ++ crc) (len body + 1) = Some ((v / 256) mod 256)).
  { rewrite Hbs. change ([v mod 256; (v / 256) mod 256] ++ crc) with ([v mod 256] ++ (v / 256) mod 256 :: crc).
    rewrite app_assoc. apply load8_app. len_lia. }
  assert (H0 : load8 (body ++ le_bytes 2 v ++ crc) (len body) = Some (v mod 256)) by by rewrite Hbs; apply load8_app.
  rewrite H1. mnext. rewrite H0. mnext.
  assert (Z.lor (u16 (Z.shiftl ((v / 256) mod 256) 8)) (v mod 256) = v) as ->.
  { rewrite wrapu_small by (rewrite Z.shiftl_mul_pow2 by lia; div_lia). rewrite lor_shiftl by div_lia. div_lia. }
  destruct (Z.gtb_spec v RDB_VERSION); [rewrite bool_decide_false by lia; done|].
  destruct skip; [rewrite bool_decide_true by auto; done|].
  assert (Hcrc : load (body ++ le_bytes 2 v ++ crc) (len body + 2) 8 = Some crc).
  { pose proof (load_app (body ++ le_bytes 2 v) crc [] (len body + 2) 8) as Hla. rewrite app_nil_r, <- app_assoc in Hla.
    apply Hla; len_lia. }
  rewrite Hcrc, app_assoc. replace (len body + 10 - 8) with (len (body ++ le_bytes 2 v)) by len_lia.
  rewrite Ht by (apply Forall_app; split; [done|apply le_bytes_ok]). mnext. rewrite memrev64ifbe_le. mnext.
  mnext. do 2 f_equal. apply bool_decide_ext. split; [by auto|]. by intros [_ [?|?]].
Qed.

Lemma footer_spec addr body : bytes_ok body →
  ∃ p, dump_footer t addr body = Some p ∧ p = body ++ le_bytes 2 10 ++ le_bytes 8 (crc64_ref 0 (body ++ le_bytes 2 10)).
Proof.
  intros Hb. unfold dump_footer. change [_; _] with (le_bytes 2 10). cbv zeta.
  pose proof (Ht addr (body ++ le_bytes 2 10) []) as Hcrc. rewrite app_nil_r in Hcrc.
  rewrite Hcrc by (apply Forall_app; split; [done|apply le_bytes_ok]). mnext. rewrite memrev64ifbe_le. mnext.
  eexists. split; [done|]. by rewrite app_assoc.
Qed.
End dump.

Lemma crc64_table `{Host} : ∃ t, crc64_init = Some t ∧ crc_ok t.
Proof.
  destruct crc64_spec as (t & Hi & Ht). exists t. split; [done|]. intros addr s r Hs. apply Ht; (done || lia).
Qed.

(** VerifyDumpPayload accepts exactly the payloads that end in a version of at
    most RDB_VERSION and the CRC-64 of everything before it, and refuses all others
    without reading outside of them. *)
Theorem verifyDumpPayload_correct `{Host} : ∃ t, crc64_init = Some t ∧
  ∀ addr p, bytes_ok p → ∃ ok ver, verifyDumpPayload t addr false p = Some (ok, ver) ∧
    (ok = true ↔ ∃ v, 0 <= v <= RDB_VERSION ∧ dump_payload p v).
Proof.
  destruct crc64_table as (t & Hi & Ht). exists t. split; [done|]. intros addr p Hp.
  destruct (decide (len p < 10)) as [Hs|Hs].
  { exists false, None. unfold verifyDumpPayload. cbv zeta. replace (_ <? 10) with true by lia. split; [done|].
    split; [done|]. intros (v & _ & body & ->). len_lia. }
  set (n := (length p - 10)%nat). assert (Hdec : p = take n p ++ take 2 (drop n p) ++ drop 2 (drop n p)).
  { by rewrite !take_drop. }
  assert (Hver : bytes_ok (take 2 (drop n p))) by by apply Forall_take, Forall_drop.
  assert (H2 : length (take 2 (drop n p)) = 2%nat) by (rewrite length_take, length_drop; lia).
  assert (Hl8 : length (drop 2 (drop n p)) = 8%nat) by (rewrite !length_drop; lia).
  rewrite <- (le_bytes_val _ Hver), H2 in Hdec. pose proof (le_val_range _ Hver) as Hr. rewrite H2 in Hr.
  remember (le_val (take 2 (drop n p))) as v eqn:Ev. clear Ev.
  generalize dependent (drop 2 (drop n p)). intros crc Hdec Hc8.
  assert (Hbody : bytes_ok (take n p)) by by apply Forall_take. generalize dependent (take n p). intros body Hdec Hbody.
  clear Hver H2 n. subst p. rewrite (verify_spec t Ht) by done. eexists _, _. split; [done|]. rewrite bool_decide_eq_true. split.
  - intros [Hv [Hskip | ->]]; [done|]. exists v. split; [lia|]. by exists body.
  - intros (v' & Hv' & body' & Heq). unfold RDB_VERSION in *.
    apply app_inj_2 in Heq as [-> Heq]; [|len_lia]. apply app_inj_1 in Heq as [Heq ->]; [|len_lia].
    apply (f_equal le_val) in Heq. rewrite !le_val_bytes, !Z.mod_small in Heq by lia. rewrite Heq. split; [lia|by right].
Qed.

(** The payload of the empty string object. *)
Lemma verifyDumpPayload_correct_witness : ∃ t, crc64_init (H := le_host) = Some t ∧
  ∃ ok ver, verifyDumpPayload (H := le_host) t 0 false [0; 0; 10; 0; 1; 2; 3; 4; 5; 6; 7; 8] = Some (ok, ver) ∧
    (ok = true ↔ ∃ v, 0 <= v <= RDB_VERSION ∧ dump_payload [0; 0; 10; 0; 1; 2; 3; 4; 5; 6; 7; 8] v).
Proof.
  destruct (verifyDumpPayload_correct (H := le_host)) as (t & Hi & Hv). exists t. split; [exact Hi|].
  apply Hv. by_decision.
Defined.

(** What DUMP appends to a serialised object on one host, RESTORE accepts on a
    host of either byte order, with checksums checked or not. *)
Theorem dump_accepted h1 h2 : ∃ t1 t2, crc64_init (H := h1) = Some t1 ∧ crc64_init (H := h2) = Some t2 ∧
  ∀ addr1 addr2 skip body, bytes_ok body → ∃ p, dump_footer (H := h1) t1 addr1 body = Some p ∧
    verifyDumpPayload (H := h2) t2 addr2 skip p = Some (true, Some RDB_VERSION) ∧ take (length body) p = body.
Proof.
  destruct (crc64_table (H := h1)) as (t1 & Hi1 & Ht1). destruct (crc64_table (H := h2)) as (t2 & Hi2 & Ht2).
  exists t1, t2. split_and!; [done..|]. intros addr1 addr2 skip body Hb.
  destruct (footer_spec t1 Ht1 addr1 body Hb) as (p & Hf & ->). eexists. split; [done|]. split; [|by apply take_app_length].
  rewrite (verify_spec t2 Ht2) by (done || len_lia). rewrite bool_decide_true by (split; [done|by right]). done.
Qed.

Lemma dump_accepted_witness : ∃ t1 t2, crc64_init (H := be_host) = Some t1 ∧ crc64_init (H := le_host) = Some t2 ∧
  ∃ p, dump_footer (H := be_host) t1 3 [0; 1; 97] = Some p ∧
    verifyDumpPayload (H := le_host) t2 0 false p = Some (true, Some RDB_VERSION) ∧ take 3 p = [0; 1; 97].
Proof.
  destruct (dump_accepted be_host le_host) as (t1 & t2 & H1 & H2 & Hd). exists t1, t2. split; [exact H1|].
  split; [exact H2|]. apply (Hd 3 0 false [0; 1; 97]). by_decision.
Defined.
