(* ===== verification/Hll.v ===== *)
(** HyperLogLog: src/redis-7.0.0/src/hyperloglog.c.

    The value of a key is an sds string ([sds] of Sds.v): a header of 16 bytes, the
    magic, the encoding and the cached cardinality, and then the 16384 registers,
    packed in 6 bits each (dense) or run-length encoded (sparse).  [None] is an
    access outside a block or a failed assertion.  The arithmetic on indexes is
    that of their C types.  The estimate of the cardinality from the histogram of
    the registers is floating point and a parameter: any function to 64 bits, so also the
    one that converts an infinite or undefined estimate as the machine does. *)
From S2P Require Import Prelude Endian Sds.

Definition HLL_P : Z := 14.
Definition HLL_Q : Z := 64 - HLL_P.
Definition HLL_REGISTERS : Z := Z.shiftl 1 HLL_P.
Definition HLL_P_MASK : Z := HLL_REGISTERS - 1.
Definition HLL_BITS : Z := 6.
Definition HLL_REGISTER_MAX : Z := Z.shiftl 1 HLL_BITS - 1.
Definition HLL_HDR_SIZE : Z := 16.
Definition HLL_DENSE_SIZE : Z := HLL_HDR_SIZE + (HLL_REGISTERS * HLL_BITS + 7) / 8.
Definition HLL_DENSE : Z := 0.
Definition HLL_SPARSE : Z := 1.
Definition HLL_MAX_ENCODING : Z := 1.

(** Offsets of the fields of struct hllhdr. *)
Definition off_encoding : Z := 4.
Definition off_card : Z := 8.

Definition HLL_INVALIDATE_CACHE (m : list Z) : option (list Z) :=
  c ← load8 m (off_card + 7);
  store8 m (off_card + 7) (Z.lor c (Z.shiftl 1 7)).
Definition HLL_VALID_CACHE (m : list Z) : option bool :=
  c ← load8 m (off_card + 7);
  Some (Z.land c (Z.shiftl 1 7) =? 0).

(** ** Registers *)

(** The macros on the registers at the offset [p] of a block.  [w] is the width of
    the type of [regnum], int or long; the division rounds towards zero. *)
Definition HLL_DENSE_GET_REGISTER (w : Z) (m : list Z) (p regnum : Z) : option Z :=
  let bits := wraps w (regnum * HLL_BITS) in
  let byte := Z.quot bits 8 in
  let fb := Z.land bits 7 in
  let fb8 := 8 - fb in
  b0 ← load8 m (p + byte);
  b1 ← load8 m (p + byte + 1);
  Some (Z.land (Z.lor (Z.shiftr b0 fb) (Z.shiftl b1 fb8)) HLL_REGISTER_MAX).

Definition HLL_DENSE_SET_REGISTER (w : Z) (m : list Z) (p regnum val : Z) : option (list Z) :=
  let bits := wraps w (regnum * HLL_BITS) in
  let byte := Z.quot bits 8 in
  let fb := Z.land bits 7 in
  let fb8 := 8 - fb in
  b ← load8 m (p + byte);
  m ← store8 m (p + byte) (Z.land b (Z.lnot (Z.shiftl HLL_REGISTER_MAX fb)));
  b ← load8 m (p + byte);
  m ← store8 m (p + byte) (Z.lor b (Z.shiftl val fb));
  b ← load8 m (p + byte + 1);
  m ← store8 m (p + byte + 1) (Z.land b (Z.lnot (Z.shiftr HLL_REGISTER_MAX fb8)));
  b ← load8 m (p + byte + 1);
  store8 m (p + byte + 1) (Z.lor b (Z.shiftr val fb8)).

(** Opcodes of the sparse representation, by their first byte [b]. *)
Definition HLL_SPARSE_XZERO_BIT : Z := 0x40.
Definition HLL_SPARSE_VAL_BIT : Z := 0x80.
Definition HLL_SPARSE_IS_ZERO (b : Z) : bool := Z.land b 0xc0 =? 0.
Definition HLL_SPARSE_IS_XZERO (b : Z) : bool := Z.land b 0xc0 =? HLL_SPARSE_XZERO_BIT.
Definition HLL_SPARSE_IS_VAL (b : Z) : bool := negb (Z.land b HLL_SPARSE_VAL_BIT =? 0).
Definition HLL_SPARSE_ZERO_LEN (b : Z) : Z := Z.land b 0x3f + 1.
Definition HLL_SPARSE_XZERO_LEN (m : list Z) (p : Z) : option Z :=
  b0 ← load8 m p;
  b1 ← load8 m (p + 1);
  Some (Z.lor (Z.shiftl (Z.land b0 0x3f) 8) b1 + 1).
Definition HLL_SPARSE_VAL_VALUE (b : Z) : Z := Z.land (Z.shiftr b 2) 0x1f + 1.
Definition HLL_SPARSE_VAL_LEN (b : Z) : Z := Z.land b 0x3 + 1.
Definition HLL_SPARSE_VAL_MAX_VALUE : Z := 32.
Definition HLL_SPARSE_VAL_MAX_LEN : Z := 4.
Definition HLL_SPARSE_ZERO_MAX_LEN : Z := 64.
Definition HLL_SPARSE_XZERO_MAX_LEN : Z := 16384.

(** The bytes the setting macros store. *)
Definition HLL_SPARSE_VAL_SET (val l : Z) : list Z :=
  [u8 (Z.lor (Z.lor (Z.shiftl (val - 1) 2) (l - 1)) HLL_SPARSE_VAL_BIT)].
Definition HLL_SPARSE_ZERO_SET (l : Z) : list Z := [u8 (l - 1)].
Definition HLL_SPARSE_XZERO_SET (l : Z) : list Z :=
  let _l := l - 1 in
  [u8 (Z.lor (Z.shiftr _l 8) HLL_SPARSE_XZERO_BIT); u8 (Z.land _l 0xff)].

(** ** Hashing *)

Definition murmur_m : Z := 0xc6a4a7935bd1e995.

(** [data[0] | data[1] << 8 | ...], the value of a word on either kind of host. *)
Definition murmur_word `{Host} (key : list Z) (data : Z) : option Z :=
  if big_endian then
    b0 ← load8 key data; b1 ← load8 key (data + 1); b2 ← load8 key (data + 2); b3 ← load8 key (data + 3);
    b4 ← load8 key (data + 4); b5 ← load8 key (data + 5); b6 ← load8 key (data + 6); b7 ← load8 key (data + 7);
    let k := Z.lor b0 (Z.shiftl b1 8) in
    let k := Z.lor k (Z.shiftl b2 16) in
    let k := Z.lor k (Z.shiftl b3 24) in
    let k := Z.lor k (Z.shiftl b4 32) in
    let k := Z.lor k (Z.shiftl b5 40) in
    let k := Z.lor k (Z.shiftl b6 48) in
    Some (Z.lor k (Z.shiftl b7 56))
  else bs ← load key data 8; Some (host_val bs).

(** The body of the loop over the words. *)
Definition murmur_mix (h k : Z) : Z :=
  let k := u64 (k * murmur_m) in
  let k := Z.lxor k (Z.shiftr k 47) in
  let k := u64 (k * murmur_m) in
  u64 (Z.lxor h k * murmur_m).

Fixpoint murmur_words `{Host} (n : nat) (key : list Z) (data h : Z) : option Z :=
  match n with
  | O => Some h
  | S n => k ← murmur_word key data; murmur_words n key (data + 8) (murmur_mix h k)
  end.

(** The cases of the switch from [len & 7] down to 1. *)
Fixpoint murmur_tail (n : nat) (key : list Z) (data h : Z) : option Z :=
  match n with
  | O => Some h
  | S n =>
    b ← load8 key (data + Z.of_nat n);
    murmur_tail n key data (Z.lxor h (Z.shiftl b (8 * Z.of_nat n)))
  end.

(** A length that is negative as an int makes the loop run past the key. *)
Definition MurmurHash64A `{Host} (key : list Z) (l seed : Z) : option Z :=
  if l <? 0 then None else
  let h := Z.lxor seed (u64 (l * murmur_m)) in
  let words := (l - Z.land l 7) / 8 in
  h ← murmur_words (Z.to_nat words) key 0 h;
  let data := 8 * words in
  h ← (if negb (Z.land l 7 =? 0) then
         h ← murmur_tail (Z.to_nat (Z.land l 7)) key data h; Some (u64 (h * murmur_m))
       else Some h);
  let h := Z.lxor h (Z.shiftr h 47) in
  let h := u64 (h * murmur_m) in
  Some (Z.lxor h (Z.shiftr h 47)).

(** [while((hash & bit) == 0) { count++; bit <<= 1; }]. *)
Fixpoint pat_loop (fuel : nat) (hash bit count : Z) : option Z :=
  if Z.land hash bit =? 0 then
    match fuel with
    | O => None
    | S fuel => pat_loop fuel hash (u64 (Z.shiftl bit 1)) (count + 1)
    end
  else Some count.

(** The count and the register. *)
Definition hllPatLen `{Host} (ele : list Z) (elesize : Z) : option (Z * Z) :=
  hash ← MurmurHash64A ele (s32 elesize) 0xadc83b19;
  let index := Z.land hash HLL_P_MASK in
  let hash := Z.shiftr hash HLL_P in
  let hash := Z.lor hash (Z.shiftl 1 HLL_Q) in
  count ← pat_loop 64 hash 1 1;
  Some (count, index).

(** ** Dense representation *)

Definition hllDenseSet (o : sds) (index count : Z) : option (sds * Z) :=
  oldcount ← HLL_DENSE_GET_REGISTER 64 (s_buf o) HLL_HDR_SIZE index;
  if count >? oldcount then
    m ← HLL_DENSE_SET_REGISTER 64 (s_buf o) HLL_HDR_SIZE index count;
    Some (set_buf o m, 1)
  else Some (o, 0).

(** [reghisto[reg] += k]. *)
Definition histo_add (reghisto : list Z) (reg k : Z) : option (list Z) :=
  if (0 <=? reg) && (reg <? len reghisto) then
    Some (alter (λ n, s32 (n + k)) (Z.to_nat reg) reghisto)
  else None.

(** [reghisto[r]++] for each register. *)
Fixpoint histo_all (reghisto regs : list Z) : option (list Z) :=
  match regs with
  | [] => Some reghisto
  | r :: regs => h ← histo_add reghisto r 1; histo_all h regs
  end.

(** The 16 registers in the 12 bytes at [r]. *)
Definition dense_group (m : list Z) (r : Z) : option (list Z) :=
  b0 ← load8 m r; b1 ← load8 m (r + 1); b2 ← load8 m (r + 2); b3 ← load8 m (r + 3);
  b4 ← load8 m (r + 4); b5 ← load8 m (r + 5); b6 ← load8 m (r + 6); b7 ← load8 m (r + 7);
  b8 ← load8 m (r + 8); b9 ← load8 m (r + 9); b10 ← load8 m (r + 10); b11 ← load8 m (r + 11);
  Some [Z.land b0 63;
        Z.land (Z.lor (Z.shiftr b0 6) (Z.shiftl b1 2)) 63;
        Z.land (Z.lor (Z.shiftr b1 4) (Z.shiftl b2 4)) 63;
        Z.land (Z.shiftr b2 2) 63;
        Z.land b3 63;
        Z.land (Z.lor (Z.shiftr b3 6) (Z.shiftl b4 2)) 63;
        Z.land (Z.lor (Z.shiftr b4 4) (Z.shiftl b5 4)) 63;
        Z.land (Z.shiftr b5 2) 63;
        Z.land b6 63;
        Z.land (Z.lor (Z.shiftr b6 6) (Z.shiftl b7 2)) 63;
        Z.land (Z.lor (Z.shiftr b7 4) (Z.shiftl b8 4)) 63;
        Z.land (Z.shiftr b8 2) 63;
        Z.land b9 63;
        Z.land (Z.lor (Z.shiftr b9 6) (Z.shiftl b10 2)) 63;
        Z.land (Z.lor (Z.shiftr b10 4) (Z.shiftl b11 4)) 63;
        Z.land (Z.shiftr b11 2) 63].

Fixpoint dense_histo_loop (n : nat) (m : list Z) (r : Z) (reghisto : list Z) : option (list Z) :=
  match n with
  | O => Some reghisto
  | S n =>
    regs ← dense_group m r;
    h ← histo_all reghisto regs;
    dense_histo_loop n m (r + 12) h
  end.

(** The registers are those of the default configuration: the fast path is taken. *)
Definition hllDenseRegHisto (m : list Z) (registers : Z) (reghisto : list Z) : option (list Z) :=
  dense_histo_loop 1024 m registers reghisto.

(** ** Sparse representation *)

(** [while(runlen--) { HLL_DENSE_SET_REGISTER(hdr->registers,idx,regval); idx++; }]. *)
Fixpoint dense_set_run (n : nat) (m : list Z) (idx regval : Z) : option (list Z) :=
  match n with
  | O => Some m
  | S n =>
    m ← HLL_DENSE_SET_REGISTER 32 m HLL_HDR_SIZE idx regval;
    dense_set_run n m (s32 (idx + 1)) regval
  end.

(** The loop over the opcodes: the index reached and the dense block. *)
Fixpoint to_dense_loop (fuel : nat) (sparse : list Z) (end_ p idx : Z) (dense : list Z) : option (Z * list Z) :=
  if p <? end_ then
    match fuel with
    | O => None
    | S fuel =>
      b ← load8 sparse p;
      if HLL_SPARSE_IS_ZERO b then
        to_dense_loop fuel sparse end_ (p + 1) (s32 (idx + HLL_SPARSE_ZERO_LEN b)) dense
      else if HLL_SPARSE_IS_XZERO b then
        runlen ← HLL_SPARSE_XZERO_LEN sparse p;
        to_dense_loop fuel sparse end_ (p + 2) (s32 (idx + runlen)) dense
      else
        let runlen := HLL_SPARSE_VAL_LEN b in
        let regval := HLL_SPARSE_VAL_VALUE b in
        if s32 (runlen + idx) >? HLL_REGISTERS then Some (idx, dense)
        else
          dense ← dense_set_run (Z.to_nat runlen) dense idx regval;
          to_dense_loop fuel sparse end_ (p + 1) (s32 (idx + runlen)) dense
    end
  else Some (idx, dense).

Section hll.
Context `{Malloc}.

(** The flag is C_OK. *)
Definition hllSparseToDense (o : sds) : option (sds * bool) :=
  encoding ← load8 (s_buf o) off_encoding;
  if encoding =? HLL_DENSE then Some (o, true)
  else
    dense ← sdsnewlen NULL HLL_DENSE_SIZE;
    oldhdr ← load (s_buf o) 0 HLL_HDR_SIZE;
    m ← store (s_buf dense) 0 oldhdr;
    m ← store8 m off_encoding HLL_DENSE;
    '(idx, m) ← to_dense_loop (length (s_buf o)) (s_buf o) (sdslen o) HLL_HDR_SIZE 0 m;
    if negb (idx =? HLL_REGISTERS) then Some (o, false) else Some (set_buf dense m, true).

(** The loop that locates the opcode of a register: [p], [first], [prev] (NULL is
    [None]) and [span] after it. *)
Fixpoint find_op (fuel : nat) (m : list Z) (end_ index p first : Z) (prev : option Z) (span : Z) :
    option (Z * Z * option Z * Z) :=
  if p <? end_ then
    match fuel with
    | O => None
    | S fuel =>
      b ← load8 m p;
      '(span, oplen) ←
        (if HLL_SPARSE_IS_ZERO b then Some (HLL_SPARSE_ZERO_LEN b, 1)
         else if HLL_SPARSE_IS_VAL b then Some (HLL_SPARSE_VAL_LEN b, 1)
         else l ← HLL_SPARSE_XZERO_LEN m p; Some (l, 2));
      if index <=? first + span - 1 then Some (p, first, prev, span)
      else find_op fuel m end_ index (p + oplen) (first + span) (Some p) span
    end
  else Some (p, first, prev, span).

(** A run of [l] zero registers. *)
Definition zero_run (l : Z) : list Z :=
  if l >? HLL_SPARSE_ZERO_MAX_LEN then HLL_SPARSE_XZERO_SET l else HLL_SPARSE_ZERO_SET l.

(** The sequence that replaces the opcode with the first byte [b]. *)
Definition split_seq (is_zeros : bool) (b first last index count : Z) : list Z :=
  if is_zeros then
    (if negb (index =? first) then zero_run (index - first) else []) ++
    HLL_SPARSE_VAL_SET count 1 ++
    (if negb (index =? last) then zero_run (last - index) else [])
  else
    let curval := HLL_SPARSE_VAL_VALUE b in
    (if negb (index =? first) then HLL_SPARSE_VAL_SET curval (index - first) else []) ++
    HLL_SPARSE_VAL_SET count 1 ++
    (if negb (index =? last) then HLL_SPARSE_VAL_SET curval (last - index) else []).

(** Step 4, [while (p < end && scanlen--)]: merges values of adjacent opcodes. *)
Fixpoint merge_loop (scanlen : nat) (o : sds) (p end_ : Z) : option sds :=
  if p <? end_ then
    match scanlen with
    | O => Some o
    | S scanlen =>
      b ← load8 (s_buf o) p;
      if HLL_SPARSE_IS_XZERO b then merge_loop scanlen o (p + 2) end_
      else if HLL_SPARSE_IS_ZERO b then merge_loop scanlen o (p + 1) end_
      else
        l ← (if p + 1 <? end_ then
               b1 ← load8 (s_buf o) (p + 1);
               let l := HLL_SPARSE_VAL_LEN b + HLL_SPARSE_VAL_LEN b1 in
               Some (if HLL_SPARSE_IS_VAL b1 && (HLL_SPARSE_VAL_VALUE b =? HLL_SPARSE_VAL_VALUE b1)
                        && (l <=? HLL_SPARSE_VAL_MAX_LEN) then Some l else None)
             else Some None);
        match l with
        | Some l =>
          m ← store (s_buf o) (p + 1) (HLL_SPARSE_VAL_SET (HLL_SPARSE_VAL_VALUE b) l);
          m ← memmove m p (p + 1) (end_ - p);
          o ← sdsIncrLen (set_buf o m) (-1);
          merge_loop scanlen o p (end_ - 1)
        | None => merge_loop scanlen o (p + 1) end_
        end
    end
  else Some o.

(** The code at the label [updated]. *)
Definition sparse_updated (o : sds) (prev : option Z) (end_ : Z) : option (sds * Z) :=
  o ← merge_loop 5 o (default HLL_HDR_SIZE prev) end_;
  m ← HLL_INVALIDATE_CACHE (s_buf o);
  Some (set_buf o m, 1).

(** The code at the label [promote]. *)
Definition sparse_promote (o : sds) (index count : Z) : option (sds * Z) :=
  '(o, ok) ← hllSparseToDense o;
  if negb ok then Some (o, -1)
  else
    '(o, dense_retval) ← hllDenseSet o index count;
    if dense_retval =? 1 then Some (o, dense_retval) else None.

(** Steps 2 to 4, once the opcode at [p] that covers the register is located.
    [hll_sparse_max_bytes] is the setting of the server. *)
Definition sparse_set_at (hll_sparse_max_bytes : Z) (o : sds) (index count p first : Z) (prev : option Z) (span : Z) : option (sds * Z) :=
  let m := s_buf o in
  let end_ := sdslen o in
  if (span =? 0) || (p >=? end_) then Some (o, -1)
  else
    b ← load8 m p;
    let next := if HLL_SPARSE_IS_XZERO b then p + 2 else p + 1 in
    let next := if next >=? end_ then None else Some next in
    let is_zero := HLL_SPARSE_IS_ZERO b in
    let is_xzero := negb is_zero && HLL_SPARSE_IS_XZERO b in
    let is_val := negb is_zero && negb is_xzero in
    runlen ← (if is_zero then Some (HLL_SPARSE_ZERO_LEN b)
              else if is_xzero then HLL_SPARSE_XZERO_LEN m p
              else Some (HLL_SPARSE_VAL_LEN b));
    if is_val && (HLL_SPARSE_VAL_VALUE b >=? count) then Some (o, 0)
    else if (is_val || is_zero) && (runlen =? 1) then
      m ← store m p (HLL_SPARSE_VAL_SET count 1);
      sparse_updated (set_buf o m) prev end_
    else
      let last := s32 (first + span - 1) in
      let seq := split_seq (is_zero || is_xzero) b first last index count in
      let seqlen := len seq in
      let oldlen := if is_xzero then 2 else 1 in
      let deltalen := seqlen - oldlen in
      if (deltalen >? 0) && (sdslen o + deltalen >? hll_sparse_max_bytes) then sparse_promote o index count
      else
        m ← match next with
            | Some next => if negb (deltalen =? 0) then memmove m (next + deltalen) next (end_ - next) else Some m
            | None => Some m
            end;
        o ← sdsIncrLen (set_buf o m) deltalen;
        m ← store (s_buf o) p seq;
        sparse_updated (set_buf o m) prev (end_ + deltalen).

Definition hllSparseSet (hll_sparse_max_bytes : Z) (o : sds) (index count : Z) : option (sds * Z) :=
  if count >? HLL_SPARSE_VAL_MAX_VALUE then sparse_promote o index count
  else
    o ← sdsMakeRoomFor o 3;
    '(p, first, prev, span) ← find_op (length (s_buf o)) (s_buf o) (sdslen o) index HLL_HDR_SIZE 0 None 0;
    sparse_set_at hll_sparse_max_bytes o index count p first prev span.

(** The loop: the index reached and the histogram; [p] and [end_] are offsets. *)
Fixpoint sparse_histo_loop (fuel : nat) (m : list Z) (end_ p idx : Z) (reghisto : list Z) : option (Z * list Z) :=
  if p <? end_ then
    match fuel with
    | O => None
    | S fuel =>
      b ← load8 m p;
      if HLL_SPARSE_IS_ZERO b then
        let runlen := HLL_SPARSE_ZERO_LEN b in
        h ← histo_add reghisto 0 runlen;
        sparse_histo_loop fuel m end_ (p + 1) (s32 (idx + runlen)) h
      else if HLL_SPARSE_IS_XZERO b then
        runlen ← HLL_SPARSE_XZERO_LEN m p;
        h ← histo_add reghisto 0 runlen;
        sparse_histo_loop fuel m end_ (p + 2) (s32 (idx + runlen)) h
      else
        let runlen := HLL_SPARSE_VAL_LEN b in
        h ← histo_add reghisto (HLL_SPARSE_VAL_VALUE b) runlen;
        sparse_histo_loop fuel m end_ (p + 1) (s32 (idx + runlen)) h
    end
  else Some (idx, reghisto).

(** The length is an int; the flag is [*invalid]. *)
Definition hllSparseRegHisto (m : list Z) (sparse sparselen : Z) (reghisto : list Z) : option (list Z * bool) :=
  '(idx, h) ← sparse_histo_loop (length m) m (sparse + s32 sparselen) sparse 0 reghisto;
  Some (h, negb (idx =? HLL_REGISTERS)).

(** The loop over the words of 8 registers, each a byte. *)
Fixpoint raw_histo_loop (n : nat) (registers : list Z) (word : Z) (reghisto : list Z) : option (list Z) :=
  match n with
  | O => Some reghisto
  | S n =>
    bytes ← load registers word 8;
    h ← (if bool_decide (bytes = replicate 8 0) then histo_add reghisto 0 8 else histo_all reghisto bytes);
    raw_histo_loop n registers (word + 8) h
  end.
Definition hllRawRegHisto (registers : list Z) (reghisto : list Z) : option (list Z) :=
  raw_histo_loop (Z.to_nat (HLL_REGISTERS / 8)) registers 0 reghisto.

(** ** Counting, adding and merging *)

Context `{Host}.

(** What hllCount computes from the histogram of the registers. *)
Context (estimate : list Z → Z).

Definition empty_histo : list Z := replicate 64 0.

(** The cardinality and [*invalid], for an object. *)
Definition hllCount (o : sds) : option (Z * bool) :=
  encoding ← load8 (s_buf o) off_encoding;
  if encoding =? HLL_DENSE then
    h ← hllDenseRegHisto (s_buf o) HLL_HDR_SIZE empty_histo; Some (estimate h, false)
  else if encoding =? HLL_SPARSE then
    '(h, invalid) ← hllSparseRegHisto (s_buf o) HLL_HDR_SIZE (sdslen o - HLL_HDR_SIZE) empty_histo;
    Some (estimate h, invalid)
  else None.

(** For the internal encoding HLL_RAW of the registers as bytes. *)
Definition hllCount_raw (registers : list Z) : option Z :=
  h ← hllRawRegHisto registers empty_histo; Some (estimate h).

Definition hllDenseAdd (o : sds) (ele : list Z) (elesize : Z) : option (sds * Z) :=
  '(count, index) ← hllPatLen ele elesize;
  hllDenseSet o index (u8 count).

Context (hll_sparse_max_bytes : Z).

Definition hllSparseAdd (o : sds) (ele : list Z) (elesize : Z) : option (sds * Z) :=
  '(count, index) ← hllPatLen ele elesize;
  hllSparseSet hll_sparse_max_bytes o index (u8 count).

Definition hllAdd (o : sds) (ele : list Z) (elesize : Z) : option (sds * Z) :=
  encoding ← load8 (s_buf o) off_encoding;
  if encoding =? HLL_DENSE then hllDenseAdd o ele elesize
  else if encoding =? HLL_SPARSE then hllSparseAdd o ele elesize
  else Some (o, -1).

(** [if (val > max[i]) max[i] = val]. *)
Definition max_at (max : list Z) (i val : Z) : option (list Z) :=
  old ← load8 max i;
  if val >? old then store8 max i val else Some max.

Fixpoint merge_dense_loop (n : nat) (m : list Z) (i : Z) (max : list Z) : option (list Z) :=
  match n with
  | O => Some max
  | S n =>
    val ← HLL_DENSE_GET_REGISTER 32 m HLL_HDR_SIZE i;
    max ← max_at max i val;
    merge_dense_loop n m (i + 1) max
  end.

Fixpoint max_run (n : nat) (max : list Z) (i regval : Z) : option (list Z) :=
  match n with
  | O => Some max
  | S n => max ← max_at max i regval; max_run n max (s32 (i + 1)) regval
  end.

(** [runlen + i] is a long. *)
Fixpoint merge_sparse_loop (fuel : nat) (m : list Z) (end_ p i : Z) (max : list Z) : option (Z * list Z) :=
  if p <? end_ then
    match fuel with
    | O => None
    | S fuel =>
      b ← load8 m p;
      if HLL_SPARSE_IS_ZERO b then
        merge_sparse_loop fuel m end_ (p + 1) (s32 (i + HLL_SPARSE_ZERO_LEN b)) max
      else if HLL_SPARSE_IS_XZERO b then
        runlen ← HLL_SPARSE_XZERO_LEN m p;
        merge_sparse_loop fuel m end_ (p + 2) (s32 (i + runlen)) max
      else
        let runlen := HLL_SPARSE_VAL_LEN b in
        let regval := HLL_SPARSE_VAL_VALUE b in
        if runlen + i >? HLL_REGISTERS then Some (i, max)
        else
          max ← max_run (Z.to_nat runlen) max i regval;
          merge_sparse_loop fuel m end_ (p + 1) (s32 (i + runlen)) max
    end
  else Some (i, max).

(** The array after it and whether the result is C_OK. *)
Definition hllMerge (max : list Z) (hll : sds) : option (list Z * bool) :=
  encoding ← load8 (s_buf hll) off_encoding;
  if encoding =? HLL_DENSE then
    max ← merge_dense_loop (Z.to_nat HLL_REGISTERS) (s_buf hll) 0 max; Some (max, true)
  else
    '(i, max) ← merge_sparse_loop (length (s_buf hll)) (s_buf hll) (sdslen hll) HLL_HDR_SIZE 0 max;
    Some (max, i =? HLL_REGISTERS).

(** ** Commands *)

(** [while(aux)] of createHLLObject: as many XZERO opcodes as needed. *)
Fixpoint create_loop (fuel : nat) (m : list Z) (p aux : Z) : option (list Z * Z) :=
  if aux =? 0 then Some (m, p)
  else
    match fuel with
    | O => None
    | S fuel =>
      let xzero := if HLL_SPARSE_XZERO_MAX_LEN >? aux then aux else HLL_SPARSE_XZERO_MAX_LEN in
      m ← store m p (HLL_SPARSE_XZERO_SET xzero);
      create_loop fuel m (p + 2) (aux - xzero)
    end.

Definition createHLLObject : option sds :=
  let sparselen := HLL_HDR_SIZE +
    (HLL_REGISTERS + (HLL_SPARSE_XZERO_MAX_LEN - 1)) / HLL_SPARSE_XZERO_MAX_LEN * 2 in
  s ← sdsnewlen NULL sparselen;
  '(m, p) ← create_loop (Z.to_nat HLL_REGISTERS) (s_buf s) HLL_HDR_SIZE HLL_REGISTERS;
  if negb (p =? sparselen) then None
  else
    m ← store m 0 [72; 89; 76; 76];
    m ← store8 m off_encoding HLL_SPARSE;
    Some (set_buf s m).

(** The value of a key: a string in an sds, a string stored as an integer, or a
    value of another type. *)
Inductive hll_value := HSds (s : sds) | HInt | HOther.

Inductive hll_reply := ReplyInt (n : Z) | ReplyOk | ReplyWrongType | ReplyNotHLL | ReplyCorrupt.

(** No error, or the reply sent. *)
Definition isHLLObjectOrReply (o : hll_value) : option (sds + hll_reply) :=
  match o with
  | HOther => Some (inr ReplyWrongType)
  | HInt => Some (inr ReplyNotHLL)
  | HSds s =>
    if sdslen s <? HLL_HDR_SIZE then Some (inr ReplyNotHLL)
    else
      magic ← load (s_buf s) 0 4;
      encoding ← load8 (s_buf s) off_encoding;
      Some (if negb (bool_decide (magic = [72; 89; 76; 76])) then inr ReplyNotHLL
            else if encoding >? HLL_MAX_ENCODING then inr ReplyNotHLL
            else if (encoding =? HLL_DENSE) && negb (sdslen s =? HLL_DENSE_SIZE) then inr ReplyNotHLL
            else inl s)
  end.

(** A string that is shared or embedded in its object is copied first. *)
Definition dbUnshareStringValue (own : bool) (s : sds) : option sds := if own then Some s else sdsdup s.

(** What a command did: the value of its key after it, the reply, and the number
    added to server.dirty, 0 when nothing was signalled. *)
Record outcome := mk_outcome { new_value : option hll_value; answer : hll_reply; dirty : Z }.

(** The loop over the elements: [None] is the error of a corrupt value. *)
Fixpoint pfadd_loop (eles : list (list Z)) (o : sds) (updated : Z) : option (sds * option Z) :=
  match eles with
  | [] => Some (o, Some updated)
  | ele :: eles =>
    '(o, retval) ← hllAdd o ele (len ele);
    if retval =? 1 then pfadd_loop eles o (updated + 1)
    else if retval =? -1 then Some (o, None)
    else pfadd_loop eles o updated
  end.

Definition pfaddCommand (own : bool) (key : option hll_value) (eles : list (list Z)) : option outcome :=
  start ← match key with
          | None => o ← createHLLObject; Some (inl (o, 1))
          | Some v =>
            r ← isHLLObjectOrReply v;
            match r with
            | inr e => Some (inr e)
            | inl s => o ← dbUnshareStringValue own s; Some (inl (o, 0))
            end
          end;
  match start with
  | inr e => Some (mk_outcome key e 0)
  | inl (o, updated) =>
    '(o, updated) ← pfadd_loop eles o updated;
    match updated with
    | None => Some (mk_outcome (Some (HSds o)) ReplyCorrupt 0)
    | Some updated =>
      if negb (updated =? 0) then
        m ← HLL_INVALIDATE_CACHE (s_buf o);
        Some (mk_outcome (Some (HSds (set_buf o m))) (ReplyInt 1) updated)
      else Some (mk_outcome (Some (HSds o)) (ReplyInt 0) 0)
    end
  end.

(** Merges the values of some keys into [max]; the flag is [use_dense]. *)
Fixpoint merge_keys (keys : list (option hll_value)) (max : list Z) (use_dense : bool) :
    option (list Z * bool + hll_reply) :=
  match keys with
  | [] => Some (inl (max, use_dense))
  | None :: keys => merge_keys keys max use_dense
  | Some v :: keys =>
    r ← isHLLObjectOrReply v;
    match r with
    | inr e => Some (inr e)
    | inl s =>
      encoding ← load8 (s_buf s) off_encoding;
      let use_dense := use_dense || (encoding =? HLL_DENSE) in
      '(max, ok) ← hllMerge max s;
      if negb ok then Some (inr ReplyCorrupt) else merge_keys keys max use_dense
    end
  end.

Definition empty_max : list Z := replicate (Z.to_nat HLL_REGISTERS) 0.

(** PFCOUNT of several keys. *)
Definition pfcount_many (keys : list (option hll_value)) : option hll_reply :=
  r ← merge_keys keys empty_max false;
  match r with
  | inr e => Some e
  | inl (max, _) => card ← hllCount_raw max; Some (ReplyInt (s64 card))
  end.

(** The cached cardinality. *)
Definition read_card (m : list Z) : option Z :=
  bs ← load m off_card 8; Some (le_val bs).

(** PFCOUNT of one key; the reply of the cardinality is that of an int64_t. *)
Definition pfcount_one (own : bool) (key : option hll_value) : option outcome :=
  match key with
  | None => Some (mk_outcome None (ReplyInt 0) 0)
  | Some v =>
    r ← isHLLObjectOrReply v;
    match r with
    | inr e => Some (mk_outcome key e 0)
    | inl s =>
      o ← dbUnshareStringValue own s;
      valid ← HLL_VALID_CACHE (s_buf o);
      if valid : bool then
        card ← read_card (s_buf o);
        Some (mk_outcome (Some (HSds o)) (ReplyInt (s64 card)) 0)
      else
        '(card, invalid) ← hllCount o;
        if invalid : bool then Some (mk_outcome (Some (HSds o)) ReplyCorrupt 0)
        else
          m ← store (s_buf o) off_card (le_bytes 8 card);
          Some (mk_outcome (Some (HSds (set_buf o m))) (ReplyInt (s64 card)) 1)
    end
  end.

(** [for (j = 0; j < HLL_REGISTERS; j++)]: writes the registers to the object. *)
Fixpoint write_registers (max : list Z) (j : Z) (o : sds) : option sds :=
  match max with
  | [] => Some o
  | v :: max =>
    if v =? 0 then write_registers max (j + 1) o
    else
      encoding ← load8 (s_buf o) off_encoding;
      '(o, _) ← (if encoding =? HLL_DENSE then hllDenseSet o j v
                 else if encoding =? HLL_SPARSE then hllSparseSet hll_sparse_max_bytes o j v
                 else Some (o, 0));
      write_registers max (j + 1) o
  end.

(** [dest] is the first of [keys]. *)
Definition pfmergeCommand (own : bool) (dest : option hll_value) (srcs : list (option hll_value)) : option outcome :=
  r ← merge_keys (dest :: srcs) empty_max false;
  match r with
  | inr e => Some (mk_outcome dest e 0)
  | inl (max, use_dense) =>
    o ← match dest with
        | None => createHLLObject
        | Some (HSds s) => dbUnshareStringValue own s
        | Some _ => None
        end;
    '(o, ok) ← (if use_dense : bool then hllSparseToDense o else Some (o, true));
    if negb ok then Some (mk_outcome (Some (HSds o)) ReplyCorrupt 0)
    else
      o ← write_registers max 0 o;
      m ← HLL_INVALIDATE_CACHE (s_buf o);
      Some (mk_outcome (Some (HSds (set_buf o m))) ReplyOk 1)
  end.
End hll.
