(* ===== verification/HllSpec.v ===== *)
(** HyperLogLog: the registers a value stands for, and the operations on one
    register, dense and sparse.

    [dense_rep o regs] and [sparse_rep o regs]: the sds string [o] holds the 16384
    registers [regs], packed or run-length encoded. *)
From S2P Require Import Prelude Bits Endian UtilText Sds SdsTheorems Hll.

(** ** Packed registers *)

Lemma load8_block pre (bs : list Z) post q b : 0 <= q → bs !! Z.to_nat q = Some b → load8 (pre ++ bs ++ post) (len pre + q) = Some b.
Proof. intros Hq Hl. rewrite load8_skip by done. unfold load8. if_true. by apply lookup_app_l_Some. Qed.

(** Register [i] of a block: 6 bits of the little-endian number it is. *)
Definition reg (bs : list Z) (i : Z) : Z := Z.land (Z.shiftr (le_val bs) (6 * i)) 63.

Lemma testbit_63 t : 0 <= t → Z.testbit 63 t = (t <? 6).
Proof.
  intros Ht. change 63 with (Z.ones 6). destruct (Z.ltb_spec t 6); [by apply Z.ones_spec_low|by apply Z.ones_spec_high].
Qed.

Lemma testbit_reg bs i t : 0 <= i → 0 <= t → Z.testbit (reg bs i) t = (t <? 6) && Z.testbit (le_val bs) (6 * i + t).
Proof.
  intros Hi Ht. unfold reg. rewrite Z.land_spec, testbit_63, Z.shiftr_spec by lia. rewrite andb_comm. do 2 f_equal. lia.
Qed.

Lemma reg_range bs i : 0 <= reg bs i < 64.
Proof. unfold reg. change 63 with (Z.ones 6). rewrite Z.land_ones by lia. apply Z.mod_pos_bound. lia. Qed.

(** The bit [k] of a block, when its byte is known. *)
Lemma bit_of bs k j b : bytes_ok bs → 0 <= j < 8 → 0 <= k → bs !! Z.to_nat k = Some b →
  Z.testbit (le_val bs) (8 * k + j) = Z.testbit b j.
Proof.
  intros Hb Hj Hk Hl. rewrite testbit_le_val by (done || lia).
  replace ((8 * k + j) / 8) with k by div_lia. replace ((8 * k + j) mod 8) with j by div_lia. by rewrite Hl.
Qed.

(** A register lies in two bytes. *)
Lemma reg_two bs i k fb b0 b1 : bytes_ok bs → 0 <= k → 6 * i = 8 * k + fb → 0 <= fb < 8 →
  bs !! Z.to_nat k = Some b0 → bs !! Z.to_nat (k + 1) = Some b1 →
  reg bs i = Z.land (Z.lor (Z.shiftr b0 fb) (Z.shiftl b1 (8 - fb))) 63.
Proof.
  intros Hb Hk Hi Hfb Hb0 Hb1. assert (is_byte b0) by by eapply Forall_lookup_1 in Hb0.
  bits t. rewrite testbit_reg, Z.land_spec, Z.lor_spec, Z.shiftr_spec, Z.shiftl_spec by lia.
  rewrite testbit_63, andb_comm by done. destruct (Z.ltb_spec t 6); [|by rewrite !andb_false_r]. rewrite !andb_true_r.
  destruct (decide (fb + t < 8)).
  - rewrite (Z.testbit_neg_r b1), orb_false_r by lia. replace (6 * i + t) with (8 * k + (fb + t)) by lia.
    rewrite (bit_of bs k (fb + t) b0) by (done || lia). f_equal. lia.
  - rewrite (bits_above 8 b0) by (done || lia). cbn [orb]. replace (6 * i + t) with (8 * (k + 1) + (fb + t - 8)) by lia.
    rewrite (bit_of bs (k + 1) (fb + t - 8) b1) by (done || lia). f_equal. lia.
Qed.

Lemma get_register w bs i pre post : bytes_ok bs → wraps w (i * 6) = i * 6 → 0 <= i → 6 * i / 8 + 1 < len bs →
  HLL_DENSE_GET_REGISTER w (pre ++ bs ++ post) (len pre) i = Some (reg bs i).
Proof.
  intros Hb Hw Hi Hlen. unfold HLL_DENSE_GET_REGISTER, HLL_BITS. rewrite Hw, (Z.mul_comm i 6).
  rewrite Z.quot_div_nonneg by lia. set (k := 6 * i / 8) in *. assert (Hk : 0 <= k) by (unfold k; div_lia).
  change 7 with (Z.ones 3). rewrite Z.land_ones by lia. set (fb := (6 * i) mod 2 ^ 3).
  assert (Hfb : 6 * i = 8 * k + fb ∧ 0 <= fb < 8) by (unfold k, fb; change (2 ^ 3) with 8; div_lia). cbv zeta.
  destruct (lookup_lt_is_Some_2 bs (Z.to_nat k)) as [b0 Hb0]; [lia|].
  destruct (lookup_lt_is_Some_2 bs (Z.to_nat (k + 1))) as [b1 Hb1]; [lia|].
  rewrite (load8_block _ _ _ k b0) by done. mnext. rewrite <- Z.add_assoc, (load8_block _ _ _ (k + 1) b1) by (done || lia). mnext. f_equal.
  symmetry. by apply reg_two with k; [..|lia|lia|done|done].
Qed.

(** Both bytes of a register after it was set. *)
Lemma set_bytes w bs i v pre post b0 b1 : wraps w (i * 6) = i * 6 → 0 <= i →
  let k := 6 * i / 8 in let fb := (6 * i) mod 8 in
  bs !! Z.to_nat k = Some b0 → bs !! Z.to_nat (k + 1) = Some b1 →
  HLL_DENSE_SET_REGISTER w (pre ++ bs ++ post) (len pre) i v =
  Some (pre ++ <[Z.to_nat (k + 1) := u8 (Z.lor (u8 (Z.land b1 (Z.lnot (Z.shiftr 63 (8 - fb))))) (Z.shiftr v (8 - fb)))]>
    (<[Z.to_nat k := u8 (Z.lor (u8 (Z.land b0 (Z.lnot (Z.shiftl 63 fb)))) (Z.shiftl v fb))]> bs) ++ post).
Proof.
  intros Hw Hi k fb H0 H1. unfold HLL_DENSE_SET_REGISTER, HLL_BITS. rewrite Hw, (Z.mul_comm i 6).
  rewrite Z.quot_div_nonneg by lia. fold k. assert (Hk : 0 <= k) by (unfold k; div_lia).
  assert (Hland : Z.land (6 * i) 7 = fb) by (change 7 with (Z.ones 3); by rewrite Z.land_ones by lia). rewrite Hland. cbv zeta.
  change HLL_REGISTER_MAX with 63. rewrite <- (Z.add_assoc (len pre) k 1).
  pose proof (λ bs, load8_block pre bs post) as Hload.
  assert (Hstore : ∀ (l : list Z) q b x, 0 <= q → l !! Z.to_nat q = Some b →
    store8 (pre ++ l ++ post) (len pre + q) x = Some (pre ++ <[Z.to_nat q := u8 x]> l ++ post)).
  { intros l q b x Hq Hl. apply lookup_lt_Some in Hl. rewrite store8_skip, store8_insert by len_lia. cbn. by rewrite insert_app_l. }
  assert (Hne : Z.to_nat k ≠ Z.to_nat (k + 1)) by lia. assert (Hlt := lookup_lt_Some _ _ _ H0). assert (Hlt1 := lookup_lt_Some _ _ _ H1).
  rewrite (Hload bs k b0), some_bind, (Hstore bs k b0), some_bind by done.
  rewrite (Hload _ k _) by (first [done|by apply list_lookup_insert_eq]). rewrite some_bind.
  rewrite (Hstore _ k _) by (first [done|by apply list_lookup_insert_eq]). rewrite some_bind, list_insert_insert_eq.
  rewrite (Hload _ (k + 1) b1) by (first [lia|by rewrite list_lookup_insert_ne]). rewrite some_bind.
  rewrite (Hstore _ (k + 1) b1) by (first [lia|by rewrite list_lookup_insert_ne]). rewrite some_bind.
  rewrite (Hload _ (k + 1) _) by (first [lia|apply list_lookup_insert_eq; len_lia]). rewrite some_bind.
  rewrite (Hstore _ (k + 1) _) by (first [lia|apply list_lookup_insert_eq; len_lia]). by rewrite list_insert_insert_eq.
Qed.

Lemma mask_low b v fb j : 0 <= fb < 8 → 0 <= j < 8 → 0 <= v < 64 →
  Z.testbit (u8 (Z.lor (u8 (Z.land b (Z.lnot (Z.shiftl 63 fb)))) (Z.shiftl v fb))) j =
  if (fb <=? j) && (j <? fb + 6) then Z.testbit v (j - fb) else Z.testbit b j.
Proof.
  intros Hf Hj Hv. rewrite testbit_wrapu, Z.lor_spec, testbit_wrapu, Z.land_spec, Z.lnot_spec, !Z.shiftl_spec by lia.
  replace (j <? 8) with true by lia. cbn [andb]. destruct (Z.leb_spec fb j); cbn [andb].
  - rewrite testbit_63 by lia. destruct (Z.ltb_spec j (fb + 6)).
    + replace (j - fb <? 6) with true by lia. by rewrite andb_false_r.
    + replace (j - fb <? 6) with false by lia. by rewrite (bits_above 6 v), andb_true_r, orb_false_r by lia.
  - rewrite !(Z.testbit_neg_r _ (j - fb)) by lia. by rewrite andb_true_r, orb_false_r.
Qed.

Lemma mask_high b v fb j : 0 <= fb < 8 → 0 <= j < 8 → 0 <= v < 64 →
  Z.testbit (u8 (Z.lor (u8 (Z.land b (Z.lnot (Z.shiftr 63 (8 - fb))))) (Z.shiftr v (8 - fb)))) j =
  if j + 8 <? fb + 6 then Z.testbit v (j + 8 - fb) else Z.testbit b j.
Proof.
  intros Hf Hj Hv. rewrite testbit_wrapu, Z.lor_spec, testbit_wrapu, Z.land_spec, Z.lnot_spec, !Z.shiftr_spec by lia.
  replace (j <? 8) with true by lia. cbn [andb]. rewrite testbit_63 by lia. destruct (Z.ltb_spec (j + 8) (fb + 6)).
  - replace (j + (8 - fb) <? 6) with true by lia. rewrite andb_false_r. cbn [orb]. f_equal. lia.
  - replace (j + (8 - fb) <? 6) with false by lia. by rewrite (bits_above 6 v), andb_true_r, orb_false_r by lia.
Qed.

Lemma set_register w bs i v pre post : bytes_ok bs → wraps w (i * 6) = i * 6 → 0 <= i → 6 * i / 8 + 1 < len bs → 0 <= v < 64 →
  ∃ bs', HLL_DENSE_SET_REGISTER w (pre ++ bs ++ post) (len pre) i v = Some (pre ++ bs' ++ post) ∧
    length bs' = length bs ∧ bytes_ok bs' ∧
    ∀ q, 0 <= q → Z.testbit (le_val bs') q =
      if (6 * i <=? q) && (q <? 6 * i + 6) then Z.testbit v (q - 6 * i) else Z.testbit (le_val bs) q.
Proof.
  intros Hb Hw Hi Hlen Hv. set (k := 6 * i / 8) in *. set (fb := (6 * i) mod 8).
  assert (Hk : 6 * i = 8 * k + fb ∧ 0 <= fb < 8 ∧ 0 <= k) by (unfold k, fb; div_lia).
  destruct (lookup_lt_is_Some_2 bs (Z.to_nat k)) as [b0 H0]; [lia|].
  destruct (lookup_lt_is_Some_2 bs (Z.to_nat (k + 1))) as [b1 H1]; [lia|].
  eexists. split; [by apply (set_bytes w bs i v pre post b0 b1)|]. split; [by rewrite !length_insert|].
  set (x1 := u8 (Z.lor (u8 (Z.land b1 _)) _)). set (x0 := u8 (Z.lor (u8 (Z.land b0 _)) _)).
  assert (Hok : bytes_ok (<[Z.to_nat (k + 1) := x1]> (<[Z.to_nat k := x0]> bs))).
  { apply Forall_insert; [apply Forall_insert; [done|]|]; by apply (wrapu_range 8). }
  split; [exact Hok|]. intros q Hq. change (6 * i / 8) with k. rewrite !testbit_le_val by done.
  set (n := q / 8). set (j := q mod 8). assert (Hn : q = 8 * n + j ∧ 0 <= j < 8 ∧ 0 <= n) by (unfold n, j; div_lia).
  destruct (decide (n = k + 1)) as [->|Hn1].
  { rewrite list_lookup_insert_eq by (rewrite length_insert; lia). rewrite H1. cbn. unfold x1. fold fb.
    rewrite mask_high by lia. repeat case_if; try lia; f_equal; lia. }
  rewrite list_lookup_insert_ne by lia. destruct (decide (n = k)) as [->|Hn0].
  { rewrite list_lookup_insert_eq by lia. rewrite H0. cbn. unfold x0. fold fb. rewrite mask_low by lia.
    repeat case_if; try lia; f_equal; lia. }
  rewrite list_lookup_insert_ne by lia. case_if; [lia|done].
Qed.

(** Setting a register changes that register only. *)
Lemma set_register_reg bs bs' i v : 0 <= i → 0 <= v < 64 →
  (∀ q, 0 <= q → Z.testbit (le_val bs') q =
    if (6 * i <=? q) && (q <? 6 * i + 6) then Z.testbit v (q - 6 * i) else Z.testbit (le_val bs) q) →
  ∀ j, 0 <= j → reg bs' j = if j =? i then v else reg bs j.
Proof.
  intros Hi Hv Hq j Hj. bits t. rewrite testbit_reg, Hq by lia. destruct (Z.ltb_spec t 6); cbn [andb].
  - destruct (Z.eqb_spec j i) as [->|Hne].
    + replace ((6 * i <=? 6 * i + t) && _) with true by lia. f_equal. lia.
    + replace ((6 * i <=? 6 * j + t) && _) with false by lia. rewrite testbit_reg by lia. by replace (t <? 6) with true by lia.
  - case_if; [by rewrite (bits_above 6 v) by lia|]. rewrite testbit_reg by lia. by replace (t <? 6) with false by lia.
Qed.

(** ** Values *)

Definition hll_header (enc : Z) (unused card : list Z) : list Z := [72; 89; 76; 76; enc] ++ unused ++ card.
Definition header_ok (unused card : list Z) : Prop :=
  length unused = 3%nat ∧ length card = 8%nat ∧ bytes_ok unused ∧ bytes_ok card.

Lemma length_header enc unused card : header_ok unused card → length (hll_header enc unused card) = 16%nat.
Proof. intros (Hu & Hc & _). unfold hll_header. rewrite !length_app, Hu, Hc. done. Qed.

(** The registers of a block of packed registers. *)
Definition packed (body regs : list Z) : Prop :=
  len body = 12288 ∧ bytes_ok body ∧ len regs = 16384 ∧
  ∀ i, 0 <= i < 16384 → regs !! Z.to_nat i = Some (reg body i).

Definition dense_rep (o : sds) (unused card regs : list Z) : Prop :=
  header_ok unused card ∧ ∃ body, sds_rep o (hll_header HLL_DENSE unused card ++ body) ∧ packed body regs.

Lemma le_val_snoc0 bs : le_val (bs ++ [0]) = le_val bs.
Proof. induction bs as [|b bs IH]; [done|]. cbn [app]. by rewrite !le_val_cons, IH. Qed.

Lemma reg_snoc0 bs i : reg (bs ++ [0]) i = reg bs i.
Proof. unfold reg. by rewrite le_val_snoc0. Qed.

Lemma index_fits w i : (w = 32 ∨ w = 64) → 0 <= i < 16384 → wraps w (i * 6) = i * 6.
Proof. intros [->| ->] Hi; apply wraps_small; lia. Qed.

(** The body of a packed block after one register was set. *)
Lemma packed_set w body regs pre rest i v : (w = 32 ∨ w = 64) → packed body regs → 0 <= i < 16384 → 0 <= v < 64 →
  ∃ body', HLL_DENSE_SET_REGISTER w (pre ++ body ++ 0 :: rest) (len pre) i v = Some (pre ++ body' ++ 0 :: rest) ∧
    packed body' (<[Z.to_nat i := v]> regs).
Proof.
  intros Hw (Hlen & Hb & Hregs & Hr) Hi Hv.
  assert (Hb0 : bytes_ok (body ++ [0])) by (apply Forall_app; split; [done|by repeat constructor]).
  assert (Hpos : 6 * i / 8 + 1 < len (body ++ [0])) by (simpl_len; div_lia).
  destruct (set_register w (body ++ [0]) i v pre rest Hb0 (index_fits w i Hw Hi) ltac:(lia) Hpos Hv) as (bs' & Hset & Hl' & Hb' & Hbits).
  destruct bs' as [|x body' _] using rev_ind; [rewrite length_app in Hl'; cbn in Hl'; lia|].
  rewrite !length_app in Hl'. cbn [length] in Hl'. pose proof Hb' as Hbok. apply Forall_app in Hb' as [Hbody' Hx]. apply Forall_cons_1 in Hx as [Hx _].
  assert (x = 0) as ->.
  { bits t. rewrite Z.bits_0. destruct (decide (t < 8)); [|by rewrite (bits_above 8 x) by first [exact Hx|lia]].
    pose proof (bit_of (body' ++ [x]) (len body') t x Hbok ltac:(lia) ltac:(lia)) as Hbit.
    rewrite Nat2Z.id, list_lookup_middle in Hbit by done. rewrite <- Hbit by done.
    rewrite Hbits by lia. replace (_ && _) with false by lia.
    rewrite le_val_snoc0. apply (bits_above (8 * len body)); [by apply le_val_range|lia]. }
  exists body'. rewrite <- !app_assoc in Hset. split; [exact Hset|].
  split; [lia|]. split; [done|]. split; [by rewrite length_insert|]. intros n Hn.
  rewrite <- (reg_snoc0 body').
  rewrite (set_register_reg (body ++ [0]) (body' ++ [0]) i v) by (done || lia). rewrite reg_snoc0.
  destruct (Z.eqb_spec n i) as [<-|Hne].
  - apply list_lookup_insert_eq. lia.
  - rewrite list_lookup_insert_ne by lia. by apply Hr.
Qed.

Lemma packed_get w body regs pre rest i v : (w = 32 ∨ w = 64) → packed body regs → 0 <= i < 16384 → regs !! Z.to_nat i = Some v →
  HLL_DENSE_GET_REGISTER w (pre ++ body ++ 0 :: rest) (len pre) i = Some v.
Proof.
  intros Hw (Hlen & Hb & Hregs & Hr) Hi Hv.
  assert (Hb0 : bytes_ok (body ++ [0])) by (apply Forall_app; split; [done|by repeat constructor]).
  pose proof (get_register w (body ++ [0]) i pre rest Hb0 (index_fits w i Hw Hi) ltac:(lia)) as Hg.
  rewrite <- app_assoc in Hg. cbn [app] in Hg. rewrite Hg by (simpl_len; div_lia).
  rewrite reg_snoc0. by rewrite Hr in Hv.
Qed.

Lemma packed_range body regs v : packed body regs → v ∈ regs → 0 <= v < 64.
Proof.
  intros (_ & _ & Hl & Hr) [i Hi]%list_elem_of_lookup_1. pose proof (lookup_lt_Some _ _ _ Hi).
  rewrite <- (Nat2Z.id i), Hr in Hi by lia. injection Hi as <-. apply reg_range.
Qed.

Lemma dense_set_spec o unused card regs index count old : dense_rep o unused card regs → 0 <= index < 16384 →
  regs !! Z.to_nat index = Some old → 0 <= count < 64 →
  ∃ o', hllDenseSet o index count = Some (o', if count >? old then 1 else 0) ∧
    dense_rep o' unused card (<[Z.to_nat index := Z.max old count]> regs).
Proof.
  intros (Hh & body & Hrep & Hp) Hi Hold Hc. pose proof Hrep as (_ & _ & rest & Hbuf). unfold hllDenseSet.
  pose proof (length_header HLL_DENSE unused card Hh) as Hlh. rewrite Hbuf, <- app_assoc.
  change HLL_HDR_SIZE with (Z.of_nat 16). rewrite <- Hlh.
  rewrite (packed_get 64 body regs _ rest index old) by (try done; by right). mnext. destruct (Z.gtb_spec count old).
  - destruct (packed_set 64 body regs (hll_header HLL_DENSE unused card) rest index count) as (body' & -> & Hp'); [by right|done..|].
    mnext. eexists. split; [done|]. split; [done|]. exists body'. rewrite Z.max_r by lia. split; [|done].
    rewrite app_assoc. eapply rep_set_buf; [exact Hrep|exact Hbuf|].
    destruct Hp as (Hl1 & _). destruct Hp' as (Hl2 & _). rewrite !length_app. lia.
  - eexists. split; [done|]. rewrite Z.max_l by lia. rewrite list_insert_id by done. split; [done|]. by exists body.
Qed.
