(* ===== verification/HllSparse.v ===== *)
(** HyperLogLog: the sparse representation.  The opcodes of a value, the loops over
    them, and [hllSparseSet], which updates a register in place by splitting one
    opcode and merging its neighbours, or promotes the value to the dense form. *)
From S2P Require Import Prelude Bits Endian UtilText Sds SdsTheorems Hll HllSpec.

(** ** Opcodes *)

Inductive opcode := ZERO (n : Z) | XZERO (n : Z) | VAL (v n : Z).

Definition op_ok (op : opcode) : Prop :=
  match op with
  | ZERO n => 1 <= n <= 64
  | XZERO n => 1 <= n <= 16384
  | VAL v n => 1 <= v <= 32 ∧ 1 <= n <= 4
  end.
Definition op_bytes (op : opcode) : list Z :=
  match op with
  | ZERO n => [n - 1]
  | XZERO n => [64 + (n - 1) / 256; (n - 1) mod 256]
  | VAL v n => [128 + 4 * (v - 1) + (n - 1)]
  end.
Definition op_len (op : opcode) : Z := match op with ZERO n | XZERO n | VAL _ n => n end.
Definition op_val (op : opcode) : Z := match op with ZERO _ | XZERO _ => 0 | VAL v _ => v end.
Definition op_regs (op : opcode) : list Z := replicate (Z.to_nat (op_len op)) (op_val op).

Definition ops_bytes (ops : list opcode) : list Z := concat (map op_bytes ops).
Definition ops_regs (ops : list opcode) : list Z := concat (map op_regs ops).

Lemma ops_bytes_cons op ops : ops_bytes (op :: ops) = op_bytes op ++ ops_bytes ops.
Proof. done. Qed.
Lemma ops_bytes_app a b : ops_bytes (a ++ b) = ops_bytes a ++ ops_bytes b.
Proof. unfold ops_bytes. by rewrite map_app, concat_app. Qed.
Lemma ops_regs_cons op ops : ops_regs (op :: ops) = op_regs op ++ ops_regs ops.
Proof. done. Qed.
Lemma ops_regs_app a b : ops_regs (a ++ b) = ops_regs a ++ ops_regs b.
Proof. unfold ops_regs. by rewrite map_app, concat_app. Qed.

Lemma op_len_pos op : op_ok op → 1 <= op_len op <= 16384.
Proof. destruct op; cbn; lia. Qed.
Lemma len_op_regs op : op_ok op → len (op_regs op) = op_len op.
Proof. intros Hop%op_len_pos. unfold op_regs. rewrite length_replicate. lia. Qed.
Lemma len_op_bytes op : len (op_bytes op) = match op with XZERO _ => 2 | _ => 1 end.
Proof. by destruct op. Qed.

Lemma op_bytes_ok op : op_ok op → bytes_ok (op_bytes op).
Proof. destruct op; cbn; intros; repeat constructor; unfold is_byte; div_lia. Qed.
Lemma ops_bytes_ok ops : Forall op_ok ops → bytes_ok (ops_bytes ops).
Proof. induction 1; [constructor|]. rewrite ops_bytes_cons. apply Forall_app. eauto using op_bytes_ok. Qed.

Lemma ops_size ops : Forall op_ok ops → len ops <= len (ops_bytes ops) <= 2 * len (ops_regs ops) ∧ len ops <= len (ops_regs ops).
Proof.
  induction 1 as [|op ops Hop _ IH]; [done|]. rewrite ops_bytes_cons, ops_regs_cons, !length_app. cbn [length].
  pose proof (len_op_regs op Hop). pose proof (op_len_pos op Hop). pose proof (len_op_bytes op). destruct op; lia.
Qed.

(** What the macros read in the first byte of an opcode. *)
Lemma byte_tests : ∀ b, 0 <= b < Z.of_nat 256 →
  bool_decide (HLL_SPARSE_IS_ZERO b = (b <? 64) ∧ HLL_SPARSE_IS_XZERO b = (64 <=? b) && (b <? 128) ∧
    HLL_SPARSE_IS_VAL b = (128 <=? b) ∧ HLL_SPARSE_ZERO_LEN b = b mod 64 + 1 ∧
    HLL_SPARSE_VAL_VALUE b = b / 4 mod 32 + 1 ∧ HLL_SPARSE_VAL_LEN b = b mod 4 + 1) = true.
Proof. apply forall_below. by vm_compute. Qed.

Definition decodes (m : list Z) (p : Z) (op : opcode) (b : Z) : Prop :=
  match op with
  | ZERO n => HLL_SPARSE_IS_ZERO b = true ∧ HLL_SPARSE_IS_XZERO b = false ∧ HLL_SPARSE_IS_VAL b = false ∧ HLL_SPARSE_ZERO_LEN b = n
  | XZERO n => HLL_SPARSE_IS_ZERO b = false ∧ HLL_SPARSE_IS_XZERO b = true ∧ HLL_SPARSE_IS_VAL b = false ∧ HLL_SPARSE_XZERO_LEN m p = Some n
  | VAL v n => HLL_SPARSE_IS_ZERO b = false ∧ HLL_SPARSE_IS_XZERO b = false ∧ HLL_SPARSE_IS_VAL b = true ∧
               HLL_SPARSE_VAL_VALUE b = v ∧ HLL_SPARSE_VAL_LEN b = n
  end.

Lemma op_decode op pre post : op_ok op →
  ∃ b, load8 (pre ++ op_bytes op ++ post) (len pre) = Some b ∧ decodes (pre ++ op_bytes op ++ post) (len pre) op b.
Proof.
  intros Hop. destruct op as [n|n|v n]; cbn in Hop; cbn [op_bytes app]; (eexists; split; [by apply load8_app|]);
    match goal with |- decodes _ _ _ ?b =>
      pose proof (byte_tests b ltac:(div_lia)) as (E1 & E2 & E3 & E4 & E5 & E6)%bool_decide_eq_true end;
    cbn [decodes]; rewrite ?E1, ?E2, ?E3, ?E4, ?E5, ?E6; split_and!; try div_lia.
  unfold HLL_SPARSE_XZERO_LEN. rewrite (load8_app pre _ _ (len pre)) by done. mnext.
  rewrite (load8_skip pre) by lia. change (load8 _ 1) with (Some ((n - 1) mod 256)). mnext. f_equal.
  change 63 with (Z.ones 6). rewrite Z.land_ones, lor_shiftl by div_lia. change (2 ^ 6) with 64. change (2 ^ 8) with 256. div_lia.
Qed.

(** What the setting macros store. *)
Lemma val_set v n : op_ok (VAL v n) → HLL_SPARSE_VAL_SET v n = op_bytes (VAL v n).
Proof.
  cbn. intros [Hv Hn]. unfold HLL_SPARSE_VAL_SET, HLL_SPARSE_VAL_BIT. f_equal.
  rewrite lor_shiftl by (change (2 ^ 2) with 4; lia). change (2 ^ 2) with 4.
  rewrite (lor_add _ _ 7) by (first [done|change (2 ^ 7) with 128; lia|by exists 1]). rewrite wrapu_small; lia.
Qed.

Definition zero_op (l : Z) : opcode := if l >? 64 then XZERO l else ZERO l.

Lemma zero_op_facts l : 1 <= l <= 16384 → op_ok (zero_op l) ∧ op_regs (zero_op l) = replicate (Z.to_nat l) 0.
Proof. intros Hl. unfold zero_op. destruct (Z.gtb_spec l 64); cbn; (split; [lia|done]). Qed.

Lemma xzero_set l : 1 <= l <= 16384 → HLL_SPARSE_XZERO_SET l = op_bytes (XZERO l).
Proof.
  intros Hl. unfold HLL_SPARSE_XZERO_SET. cbn [op_bytes]. rewrite land_255, (wrapu_small 8 (_ mod _)) by div_lia.
  f_equal. rewrite Z.shiftr_div_pow2 by lia. change (2 ^ 8) with 256. unfold HLL_SPARSE_XZERO_BIT.
  rewrite (lor_add _ _ 6) by (first [done|change (2 ^ 6) with 64; div_lia|by exists 1]). rewrite wrapu_small; div_lia.
Qed.

Lemma zero_run_op l : 1 <= l <= 16384 → zero_run l = op_bytes (zero_op l).
Proof.
  intros Hl. unfold zero_run, zero_op, HLL_SPARSE_ZERO_MAX_LEN. destruct (Z.gtb_spec l 64); [by apply xzero_set|].
  unfold HLL_SPARSE_ZERO_SET. cbn [op_bytes]. f_equal. rewrite wrapu_small; lia.
Qed.

(** ** Values *)

Definition sparse_rep (o : sds) (unused card regs : list Z) : Prop :=
  header_ok unused card ∧ len regs = 16384 ∧
  ∃ ops, Forall op_ok ops ∧ ops_regs ops = regs ∧ sds_rep o (hll_header HLL_SPARSE unused card ++ ops_bytes ops).

Lemma op_range op : op_ok op → 0 <= op_val op <= 32.
Proof. destruct op; cbn; lia. Qed.

Lemma ops_range ops v : Forall op_ok ops → v ∈ ops_regs ops → 0 <= v <= 32.
Proof.
  induction 1 as [|op ops Hop _ IH]; [by rewrite elem_of_nil|]. rewrite ops_regs_cons, elem_of_app. intros [Hv|]; [|auto].
  apply elem_of_replicate in Hv as [-> _]. by apply op_range.
Qed.

(** ** Conversion to the dense representation *)

Lemma insert_run {A} (dn tl : list A) n x v : <[length dn := v]> (dn ++ replicate (S n) x ++ tl) = (dn ++ [v]) ++ replicate n x ++ tl.
Proof. cbn [replicate app]. rewrite insert_app_r_alt, Nat.sub_diag by lia. cbn. by rewrite <- app_assoc. Qed.

Lemma set_run_spec n body pre rest dn tl v : packed body (dn ++ replicate n 0 ++ tl) → 0 <= v < 64 → len pre = 16 →
  ∃ body', dense_set_run n (pre ++ body ++ 0 :: rest) (len dn) v = Some (pre ++ body' ++ 0 :: rest) ∧
    packed body' (dn ++ replicate n v ++ tl).
Proof.
  revert body dn. induction n as [|n IH]; intros body dn Hp Hv Hpre; [by exists body|]. cbn [dense_set_run].
  assert (Hl : 0 <= len dn < 16384) by (destruct Hp as (_ & _ & Hl & _); rewrite !length_app, length_replicate in Hl; lia).
  change HLL_HDR_SIZE with 16. rewrite <- Hpre.
  destruct (packed_set 32 body _ pre rest (len dn) v (or_introl eq_refl) Hp Hl Hv) as (body1 & -> & Hp1). mnext.
  rewrite Nat2Z.id, insert_run in Hp1. rewrite s32_small by lia.
  destruct (IH body1 (dn ++ [v]) Hp1 Hv Hpre) as (body2 & Hset & Hp2).
  replace (len (dn ++ [v])) with (len dn + 1) in Hset by len_lia. exists body2. split; [done|].
  by rewrite <- app_assoc in Hp2.
Qed.

Lemma to_dense_spec ops : ∀ fuel pre post hdr body rest dn, Forall op_ok ops → (length ops <= fuel)%nat →
  len hdr = 16 → packed body (dn ++ replicate (length (ops_regs ops)) 0) →
  ∃ body', to_dense_loop fuel (pre ++ ops_bytes ops ++ post) (len (pre ++ ops_bytes ops)) (len pre) (len dn) (hdr ++ body ++ 0 :: rest)
    = Some (len dn + len (ops_regs ops), hdr ++ body' ++ 0 :: rest) ∧ packed body' (dn ++ ops_regs ops).
Proof.
  induction ops as [|op ops IH]; intros fuel pre post hdr body rest dn Hops Hf Hhdr Hp.
  { exists body. split; [|done]. unfold ops_bytes. cbn. rewrite app_nil_r, Z.add_0_r. unfold to_dense_loop. destruct fuel; by rewrite Z.ltb_irrefl. }
  apply Forall_cons in Hops as [Hop Hops]. destruct fuel as [|fuel]; [cbn in Hf; lia|]. cbn [length] in Hf.
  assert (Hsum : len dn + op_len op + len (ops_regs ops) = 16384).
  { destruct Hp as (_ & _ & Hl & _). rewrite length_app, length_replicate, ops_regs_cons, length_app in Hl. rewrite <- len_op_regs; [lia|done]. }
  pose proof (op_len_pos op Hop). pose proof (len_op_regs op Hop) as Hlop. pose proof (len_op_bytes op) as Hlb.
  cbn [to_dense_loop]. rewrite (ops_bytes_cons op), (ops_regs_cons op), <- app_assoc.
  destruct (op_decode op pre (ops_bytes ops ++ post) Hop) as (b & Hb & Hd).
  replace (len pre <? len (pre ++ op_bytes op ++ ops_bytes ops)) with true
    by (rewrite !length_app; destruct op; cbn [op_bytes length]; lia). rewrite Hb. mnext.
  assert (Hnext : ∀ body1 p', packed body1 ((dn ++ op_regs op) ++ replicate (length (ops_regs ops)) 0) → p' = len pre + len (op_bytes op) →
    ∃ body', to_dense_loop fuel (pre ++ op_bytes op ++ ops_bytes ops ++ post) (len (pre ++ op_bytes op ++ ops_bytes ops)) p'
      (s32 (len dn + op_len op)) (hdr ++ body1 ++ 0 :: rest) =
      Some (len dn + len (op_regs op ++ ops_regs ops), hdr ++ body' ++ 0 :: rest) ∧ packed body' (dn ++ op_regs op ++ ops_regs ops)).
  { intros body1 p' Hp1 ->. destruct (IH fuel (pre ++ op_bytes op) post hdr body1 rest (dn ++ op_regs op) Hops ltac:(lia) Hhdr Hp1) as (body' & Hr & Hp').
    exists body'. rewrite <- !app_assoc in Hr. rewrite <- !app_assoc in Hp'. split; [|done].
    replace (len (pre ++ op_bytes op)) with (len pre + len (op_bytes op)) in Hr by len_lia.
    replace (len (dn ++ op_regs op)) with (len dn + op_len op) in Hr by (rewrite length_app; lia).
    rewrite s32_small, Hr by lia. do 2 f_equal. rewrite length_app. lia. }
  clear IH. rewrite ops_regs_cons, length_app, replicate_add in Hp. replace (length (op_regs op)) with (Z.to_nat (op_len op)) in Hp by lia.
  destruct op as [n|n|v n]; cbn [decodes] in Hd; [destruct Hd as (-> & _ & _ & ->)|destruct Hd as (-> & -> & _ & ->); mnext|].
  - apply Hnext; [by rewrite <- app_assoc|done].
  - apply Hnext; [by rewrite <- app_assoc|done].
  - destruct Hd as (-> & -> & _ & -> & ->). cbv iota zeta. cbn in Hop. cbn [op_len] in *. rewrite s32_small by lia.
    change HLL_REGISTERS with 16384. replace (n + len dn >? 16384) with false by lia.
    destruct (set_run_spec (Z.to_nat n) body hdr rest dn _ v Hp) as (body1 & -> & Hp1); [lia|done|]. mnext.
    apply Hnext; [by rewrite <- app_assoc|done].
Qed.

Section sparse.
Context `{Malloc}.

Lemma header_load enc unused card rest : load8 (hll_header enc unused card ++ rest) off_encoding = Some enc.
Proof. done. Qed.

Lemma header_store enc unused card rest v :
  store8 (hll_header enc unused card ++ rest) off_encoding v = Some (hll_header (u8 v) unused card ++ rest).
Proof. by apply (store8_app [72; 89; 76; 76]). Qed.

Lemma packed_zero : packed (replicate (Z.to_nat 12288) 0) (replicate (Z.to_nat 16384) 0).
Proof.
  split; [by rewrite length_replicate|]. split; [by apply Forall_replicate|]. split; [by rewrite length_replicate|].
  intros i Hi. rewrite lookup_replicate_2 by lia. f_equal. unfold reg.
  assert (∀ n, le_val (replicate n 0) = 0) as -> by (intros n; induction n as [|n IH]; [done|cbn [replicate]; by rewrite le_val_cons, IH]).
  by rewrite Z.shiftr_0_l.
Qed.

Lemma dense_zeros : replicate (Z.to_nat HLL_DENSE_SIZE) 0 = replicate 16 0 ++ replicate (Z.to_nat 12288) 0.
Proof. by rewrite <- replicate_add. Qed.

Lemma to_dense_sparse o unused card regs : sparse_rep o unused card regs →
  ∃ o', hllSparseToDense o = Some (o', true) ∧ dense_rep o' unused card regs.
Proof.
  intros (Hh & Hregs & ops & Hops & Hr & Hrep). pose proof Hrep as (_ & Hlen & rest & Hbuf). unfold hllSparseToDense, sdslen.
  pose proof (length_header HLL_SPARSE _ _ Hh) as Hlh. rewrite Hbuf, <- app_assoc, header_load. mnext. change (HLL_SPARSE =? HLL_DENSE) with false. cbv iota.
  unfold sdsnewlen. destruct (newlen_spec NULL HLL_DENSE_SIZE (replicate (Z.to_nat HLL_DENSE_SIZE) 0) false) as (d & -> & Hd); [done..|]. mnext.
  rewrite load_app0 by by rewrite Hlh. do 2 mnext. pose proof Hd as (_ & _ & drest & Hdb). rewrite Hdb.
  rewrite dense_zeros, <- app_assoc.
  rewrite store_app0 by by rewrite Hlh. mnext.
  rewrite (header_store HLL_SPARSE unused card). mnext. change (u8 HLL_DENSE) with HLL_DENSE.
  rewrite Hlen. change HLL_HDR_SIZE with (Z.of_nat 16). rewrite <- Hlh.
  pose proof (length_header HLL_DENSE _ _ Hh) as Hlh'.
  edestruct (to_dense_spec ops (length (hll_header HLL_SPARSE unused card ++ ops_bytes ops ++ 0 :: rest))
    (hll_header HLL_SPARSE unused card) (0 :: rest) (hll_header HLL_DENSE unused card)
    (replicate (Z.to_nat 12288) 0) drest [] Hops) as (body & Hloop & Hp).
  - pose proof (ops_size ops Hops). rewrite !length_app. lia.
  - by rewrite Hlh'.
  - rewrite Hr. cbn [app]. replace (length regs) with (Z.to_nat 16384) by lia. apply packed_zero.
  - change (len []) with 0 in Hloop. rewrite Hloop. mnext. rewrite Z.add_0_l, Hr, Hregs. cbn [negb]. eexists. split; [done|].
    split; [done|]. exists body. rewrite Hr in Hp. split; [|exact Hp]. rewrite app_assoc. eapply rep_set_buf; [exact Hd|exact Hdb|].
    destruct Hp as (Hl & _). rewrite length_app, length_replicate, Hlh'. change HLL_DENSE_SIZE with 12304. lia.
Qed.

(** ** Updating a register *)

Lemma find_spec index ops : ∀ fuel pre post first prev span, Forall op_ok ops → (length ops <= fuel)%nat →
  first <= index < first + len (ops_regs ops) →
  ∃ o1 op o2 prev', ops = o1 ++ op :: o2 ∧
    find_op fuel (pre ++ ops_bytes ops ++ post) (len (pre ++ ops_bytes ops)) index (len pre) first prev span =
      Some (len (pre ++ ops_bytes o1), first + len (ops_regs o1), prev', op_len op) ∧
    0 <= index - (first + len (ops_regs o1)) < op_len op ∧
    (o1 = [] ∧ prev' = prev ∨ ∃ o0 q, o1 = o0 ++ [q] ∧ prev' = Some (len (pre ++ ops_bytes o0))).
Proof.
  induction ops as [|op ops IH]; intros fuel pre post first prev span Hops Hf Hi; [cbn in Hi; lia|].
  apply Forall_cons in Hops as [Hop Hops]. destruct fuel as [|fuel]; [cbn in Hf; lia|]. cbn [length] in Hf.
  pose proof (op_len_pos op Hop). pose proof (len_op_regs op Hop) as Hlop. pose proof (len_op_bytes op) as Hlb.
  cbn [find_op]. rewrite (ops_bytes_cons op), <- app_assoc. rewrite (ops_regs_cons op), length_app in Hi.
  destruct (op_decode op pre (ops_bytes ops ++ post) Hop) as (b & Hb & Hd).
  replace (len pre <? len (pre ++ op_bytes op ++ ops_bytes ops)) with true
    by (rewrite !length_app; destruct op; cbn [op_bytes length]; lia). rewrite Hb. mnext.
  assert ((if HLL_SPARSE_IS_ZERO b then Some (HLL_SPARSE_ZERO_LEN b, 1)
           else if HLL_SPARSE_IS_VAL b then Some (HLL_SPARSE_VAL_LEN b, 1)
           else l ← HLL_SPARSE_XZERO_LEN (pre ++ op_bytes op ++ ops_bytes ops ++ post) (len pre); Some (l, 2)) =
          Some (op_len op, len (op_bytes op))) as ->.
  { destruct op; cbn [decodes] in Hd; [destruct Hd as (-> & _ & _ & ->)|destruct Hd as (-> & _ & -> & ->)|destruct Hd as (-> & _ & -> & _ & ->)]; done. }
  mnext. destruct (Z.leb_spec index (first + op_len op - 1)).
  - exists [], op, ops, prev. split; [done|]. unfold ops_bytes, ops_regs. cbn [map concat length]. rewrite app_nil_r, Z.add_0_r.
    split; [done|]. split; [lia|by left].
  - destruct (IH fuel (pre ++ op_bytes op) post (first + op_len op) (Some (len pre)) (op_len op)) as (o1 & op' & o2 & prev' & -> & Hfind & Hrange & Hprev);
      [done|lia|lia|]. exists (op :: o1), op', o2, prev'. split; [done|]. rewrite <- !app_assoc in Hfind.
    replace (len (pre ++ op_bytes op)) with (len pre + len (op_bytes op)) in Hfind by len_lia.
    rewrite Hfind, (ops_bytes_cons op), (ops_regs_cons op), (length_app (op_regs op)). split; [do 4 f_equal; lia|]. split; [lia|]. right.
    destruct Hprev as [[-> ->]|(o0 & q & -> & ->)].
    + exists [], op. unfold ops_bytes. cbn. by rewrite app_nil_r.
    + exists (op :: o0), q. rewrite ops_bytes_cons. by rewrite <- app_assoc.
Qed.

(** Replacing the bytes [old] of a string by [seq], the way step 3 does it. *)
Lemma splice_spec o a old t seq : sds_rep o (a ++ old ++ t) → s_type o ≠ 0 → len (a ++ seq ++ t) <= sdsalloc o →
  - 2 ^ 31 <= len seq - len old →
  let next := len a + len old in let deltalen := len seq - len old in let end_ := len (a ++ old ++ t) in
  ∃ m o1 m1,
    match (if next >=? end_ then None else Some next) with
    | Some next => if negb (deltalen =? 0) then memmove (s_buf o) (next + deltalen) next (end_ - next) else Some (s_buf o)
    | None => Some (s_buf o)
    end = Some m ∧
    sdsIncrLen (set_buf o m) deltalen = Some o1 ∧ store (s_buf o1) (len a) seq = Some m1 ∧
    sds_rep (set_buf o1 m1) (a ++ seq ++ t).
Proof.
  intros (Hwf & Hlen & rest & Hb) Ht Hcap Hd next deltalen end_.
  assert (Hm : ∃ m g s', match (if next >=? end_ then None else Some next) with
    | Some next => if negb (deltalen =? 0) then memmove (s_buf o) (next + deltalen) next (end_ - next) else Some (s_buf o)
    | None => Some (s_buf o)
    end = Some m ∧ m = a ++ g ++ t ++ s' ∧ len g = len seq ∧ length m = length (s_buf o)).
  { pose proof Hwf as (_ & _ & _ & Hbuf). rewrite Hb in *. unfold end_, next, deltalen in *. rewrite !length_app in *. cbn [length] in *. case_if.
    - exists ((a ++ old ++ t) ++ 0 :: rest), (take (length seq) (old ++ 0 :: rest)), (drop (length seq) (old ++ 0 :: rest)).
      split; [done|]. assert (t = []) as -> by (apply nil_length_inv; lia). rewrite app_nil_r. cbn [app]. rewrite take_drop, <- app_assoc.
      split; [done|]. split; [rewrite length_take, length_app; cbn [length]; lia|rewrite !length_app; cbn [length]; lia].
    - destruct (Z.eqb_spec (len seq - len old) 0); cbn [negb].
      + exists ((a ++ old ++ t) ++ 0 :: rest), old, (0 :: rest). split; [done|]. split; [by rewrite <- !app_assoc|]. split; [lia|rewrite !length_app; cbn [length]; lia].
      + rewrite <- !app_assoc. destruct (memmove_splice a old t (0 :: rest) (len seq) (len a + len old + (len seq - len old))
          (len a + len old) (Z.of_nat (length a + (length old + length t)) - (len a + len old))) as (g & s' & -> & Hg & Hs'); [lia..|cbn [length]; lia|].
        exists (a ++ g ++ t ++ s'), g, s'. split; [done|]. split; [done|]. split; [done|]. rewrite !length_app. cbn [length] in *. lia. }
  destruct Hm as (m & g & s' & Hm & Heq & Hg & Hlm). exists m.
  assert (Hwf' : sds_wf (set_buf o m)) by by apply set_buf_wf.
  destruct s' as [|x s'].
  { exfalso. destruct Hwf as (_ & _ & _ & Hbuf). rewrite <- Hlm, Heq in Hbuf. rewrite !length_app in *. cbn [length] in Hbuf. lia. }
  destruct (incrlen_any (set_buf o m) deltalen (a ++ g ++ t) x s') as (o1 & Hinc & Hrep1 & Hb1); [done|by left|done|..].
  { unfold deltalen. cbn. rewrite Hlen, !length_app. lia. }
  { change (sdsalloc (set_buf o m)) with (sdsalloc o). rewrite !length_app in *. lia. }
  { cbn. by rewrite Heq, <- !app_assoc. }
  exists o1, (a ++ seq ++ t ++ 0 :: s'). split; [done|]. split; [done|]. split.
  - rewrite Hb1, <- !app_assoc. apply store_app; [done|lia].
  - rewrite !app_assoc. rewrite <- (app_assoc a). eapply rep_set_buf; [exact Hrep1|by rewrite Hb1|]. rewrite !length_app. lia.
Qed.

(** No opcode for an empty run. *)
Definition run_ops (op : Z → opcode) (k : Z) : list opcode := if k =? 0 then [] else [op k].

Lemma run_ops_facts op n x w k : (∀ l, 1 <= l <= n → op_ok (op l) ∧ op_regs (op l) = replicate (Z.to_nat l) x ∧ len (op_bytes (op l)) <= w) →
  0 <= w → 0 <= k <= n →
  Forall op_ok (run_ops op k) ∧ ops_regs (run_ops op k) = replicate (Z.to_nat k) x ∧ len (ops_bytes (run_ops op k)) <= w.
Proof.
  intros Hop Hw Hk. unfold run_ops. destruct (Z.eqb_spec k 0) as [->|]; [done|]. destruct (Hop k) as (Ho & Hr & Hb); [lia|].
  unfold ops_regs, ops_bytes. cbn [map concat]. rewrite !app_nil_r. split_and!; [by repeat constructor|done..].
Qed.

Lemma run_ops_bytes op n k (bs : list Z) : (1 <= k <= n → bs = op_bytes (op k)) → 0 <= k <= n →
  (if negb (k =? 0) then bs else []) = ops_bytes (run_ops op k).
Proof.
  intros Hb Hk. unfold run_ops. destruct (Z.eqb_spec k 0); [done|]. cbn [negb]. rewrite Hb by lia. unfold ops_bytes. cbn. by rewrite app_nil_r.
Qed.

Lemma split_ops op n x w k count : (∀ l, 1 <= l <= n → op_ok (op l) ∧ op_regs (op l) = replicate (Z.to_nat l) x ∧ len (op_bytes (op l)) <= w) →
  0 <= w → 0 <= k < n → 1 <= count <= 32 →
  let seq := run_ops op k ++ [VAL count 1] ++ run_ops op (n - 1 - k) in
  Forall op_ok seq ∧ ops_regs seq = <[Z.to_nat k := count]> (replicate (Z.to_nat n) x) ∧ len (ops_bytes seq) <= w + 1 + w.
Proof.
  intros Hop Hw Hk Hc seq. destruct (run_ops_facts op n x w k Hop) as (A1 & A2 & A3); [lia..|].
  destruct (run_ops_facts op n x w (n - 1 - k) Hop) as (B1 & B2 & B3); [lia..|]. unfold seq.
  split; [apply Forall_app; split; [done|]; apply Forall_cons; split; [cbn; lia|done]|].
  rewrite !ops_regs_app, !ops_bytes_app, A2, B2. split.
  - rewrite insert_replicate_lt by lia. do 2 f_equal. cbn. do 2 f_equal. lia.
  - rewrite !length_app. cbn. lia.
Qed.

(** The opcodes that stand for an opcode with one register changed. *)
Lemma split_spec op b m p first last index count : op_ok op → decodes m p op b → 1 <= count <= 32 →
  0 <= index - first < op_len op → last = first + op_len op - 1 →
  ∃ seq, split_seq (HLL_SPARSE_IS_ZERO b || (negb (HLL_SPARSE_IS_ZERO b) && HLL_SPARSE_IS_XZERO b)) b first last index count = ops_bytes seq ∧
    Forall op_ok seq ∧ ops_regs seq = <[Z.to_nat (index - first) := count]> (op_regs op) ∧ len (ops_bytes seq) <= len (op_bytes op) + 3.
Proof.
  intros Hop Hd Hc Hi ->. unfold split_seq. set (k := index - first) in *.
  replace (index =? first) with (k =? 0) by lia. replace (index =? first + op_len op - 1) with (op_len op - 1 - k =? 0) by lia.
  replace (first + op_len op - 1 - index) with (op_len op - 1 - k) by lia.
  assert (Hval : HLL_SPARSE_VAL_SET count 1 = ops_bytes [VAL count 1]) by (rewrite val_set by (cbn; lia); done).
  assert (Hz : ∀ n w, n <= 16384 → (w = 2 ∨ n <= 64 ∧ w = 1) → ∀ l, 1 <= l <= n →
    op_ok (zero_op l) ∧ op_regs (zero_op l) = replicate (Z.to_nat l) 0 ∧ len (op_bytes (zero_op l)) <= w).
  { intros n w Hn Hw l Hl. destruct (zero_op_facts l) as [? ?]; [lia|]. split_and!; [done..|]. unfold zero_op. case_if; cbn; lia. }
  assert (Hv : ∀ v n w, 1 <= v <= 32 → n <= 4 → w = 1 → ∀ l, 1 <= l <= n →
    op_ok (VAL v l) ∧ op_regs (VAL v l) = replicate (Z.to_nat l) v ∧ len (op_bytes (VAL v l)) <= w).
  { intros v n w Hv Hn Hw l Hl. split_and!; [cbn; lia|done|cbn; lia]. }
  assert (Hdone : ∀ f n x w (run : Z → list Z), (∀ l, 1 <= l <= n → op_ok (f l) ∧ op_regs (f l) = replicate (Z.to_nat l) x ∧ len (op_bytes (f l)) <= w) →
    (∀ l, 1 <= l <= n → run l = op_bytes (f l)) → 0 <= w → 0 <= k < n → op_regs op = replicate (Z.to_nat n) x → 2 * w <= len (op_bytes op) + 2 →
    ∃ seq, (if negb (k =? 0) then run k else []) ++ HLL_SPARSE_VAL_SET count 1 ++ (if negb (n - 1 - k =? 0) then run (n - 1 - k) else []) = ops_bytes seq ∧
      Forall op_ok seq ∧ ops_regs seq = <[Z.to_nat k := count]> (op_regs op) ∧ len (ops_bytes seq) <= len (op_bytes op) + 3).
  { intros f n x w run Hf Hrun Hw Hk -> Hb. exists (run_ops f k ++ [VAL count 1] ++ run_ops f (n - 1 - k)).
    split. { rewrite !ops_bytes_app, Hval. rewrite !(run_ops_bytes f n) by (lia || auto). done. }
    destruct (split_ops f n x w k count Hf) as (? & ? & ?); [done..|]. split_and!; [done..|lia]. }
  clearbody k. destruct op as [n|n|v n]; cbn [decodes op_len op_bytes] in *; cbn in Hop.
  - destruct Hd as (-> & _). cbn [orb andb negb]. apply (Hdone zero_op n 0 1 zero_run); [apply Hz; lia|intros; apply zero_run_op; lia|done..].
  - destruct Hd as (-> & -> & _). cbn [orb andb negb]. apply (Hdone zero_op n 0 2 zero_run); [apply Hz; lia|intros; apply zero_run_op; lia|done..].
  - destruct Hd as (-> & -> & _ & -> & _). cbn [orb andb negb]. destruct Hop.
    apply (Hdone (VAL v) n v 1 (HLL_SPARSE_VAL_SET v)); [apply Hv; lia|intros; apply val_set; cbn; lia|done..].
Qed.

(** Two adjacent values become one, in place. *)
Lemma merge_two o a b b1 t v n : sds_rep o (a ++ [b; b1] ++ t) → op_ok (VAL v n) →
  ∃ m m' o', store (s_buf o) (len a + 1) (HLL_SPARSE_VAL_SET v n) = Some m ∧
    memmove m (len a) (len a + 1) (len (a ++ [b; b1] ++ t) - len a) = Some m' ∧
    sdsIncrLen (set_buf o m') (-1) = Some o' ∧ sds_rep o' (a ++ op_bytes (VAL v n) ++ t).
Proof.
  intros (Hwf & Hlen & rest & Hb) Hok. rewrite val_set by done. cbn [op_bytes] in *. set (x := _ + (n - 1)).
  exists (a ++ [b] ++ (x :: t ++ [0]) ++ rest). rewrite Hb.
  destruct (memmove_splice a [b] (x :: t ++ [0]) rest 0 (len a) (len a + 1) (len (a ++ [b; b1] ++ t) - len a)) as (g & s' & Hm & Hg & Hs');
    [done|lia|done|rewrite !length_app; cbn [length]; rewrite ?length_app; cbn [length]; lia|lia|].
  exists (a ++ g ++ (x :: t ++ [0]) ++ s'). assert (g = []) as -> by (apply nil_length_inv; lia). cbn [app] in *.
  destruct (incrlen_any (set_buf o (a ++ (x :: t ++ [0]) ++ s')) (-1) (a ++ x :: t) 0 s') as (o' & Ho & Hr & _).
  { apply set_buf_wf; [done|]. rewrite Hb. repeat (rewrite length_app || cbn [length app]). cbn [length] in Hs'. lia. }
  { by right. } { done. }
  { cbn [s_len set_buf]. rewrite Hlen, !length_app. cbn [length]. lia. }
  { destruct Hwf as (? & ? & ? & Hl). change (sdsalloc (set_buf o _)) with (sdsalloc o). revert Hlen. rewrite !length_app. cbn [length]. lia. }
  { cbn [s_buf set_buf app]. by rewrite <- !app_assoc. }
  exists o'. split; [|done]. rewrite <- app_assoc. cbn [app]. rewrite <- (app_assoc t).
  pose proof (store_app (a ++ [b]) [b1] [x] (t ++ 0 :: rest) (len a + 1)) as Hst. rewrite <- !app_assoc in Hst.
  apply Hst; [rewrite length_app; cbn; lia|done].
Qed.

Lemma sparse_merge_spec n : ∀ o a ops, Forall op_ok ops → sds_rep o (a ++ ops_bytes ops) →
  ∃ o' ops', merge_loop n o (len a) (len (a ++ ops_bytes ops)) = Some o' ∧ sds_rep o' (a ++ ops_bytes ops') ∧
    Forall op_ok ops' ∧ ops_regs ops' = ops_regs ops.
Proof.
  induction n as [|n IH]; intros o a ops Hops Hrep.
  { exists o, ops. cbn [merge_loop]. by destruct (_ <? _). }
  destruct ops as [|op ops].
  { exists o, []. unfold ops_bytes. cbn [map concat]. rewrite app_nil_r. cbn [merge_loop]. rewrite Z.ltb_irrefl. split_and!; try done.
    unfold ops_bytes in Hrep. cbn in Hrep. by rewrite app_nil_r in Hrep. }
  apply Forall_cons in Hops as [Hop Hops].
  assert (Hnext : ∃ o' ops', merge_loop n o (len a + len (op_bytes op)) (len (a ++ ops_bytes (op :: ops))) = Some o' ∧
    sds_rep o' (a ++ ops_bytes ops') ∧ Forall op_ok ops' ∧ ops_regs ops' = ops_regs (op :: ops)).
  { rewrite ops_bytes_cons, app_assoc in *. destruct (IH o (a ++ op_bytes op) ops Hops Hrep) as (o' & ops' & Hm & Hr & Ho & Hregs).
    exists o', (op :: ops'). rewrite length_app, Nat2Z.inj_add in Hm at 1.
    split; [done|]. rewrite ops_bytes_cons, !ops_regs_cons, Hregs, app_assoc. split_and!; [done|by constructor|done]. }
  pose proof Hrep as (_ & _ & rest & Hb). cbn [merge_loop]. rewrite ops_bytes_cons, <- !app_assoc in Hb.
  replace (len a <? len (a ++ ops_bytes (op :: ops))) with true by (rewrite ops_bytes_cons, !length_app; pose proof (len_op_bytes op); destruct op; lia).
  destruct (op_decode op a (ops_bytes ops ++ 0 :: rest) Hop) as (b & Hload & Hd). rewrite <- Hb in Hload. rewrite Hload. mnext.
  destruct op as [k|k|v k]; cbn [decodes] in Hd; [destruct Hd as (-> & -> & _)|destruct Hd as (_ & -> & _)|]; [done..|].
  destruct Hd as (-> & -> & _ & -> & ->).
  destruct ops as [|op2 ops].
  { replace (_ <? _) with false by (rewrite ops_bytes_cons, !length_app; cbn; lia). mnext. exact Hnext. }
  replace (_ <? _) with true by (rewrite !ops_bytes_cons, !length_app; pose proof (len_op_bytes op2); destruct op2; cbn [op_bytes length]; lia).
  apply Forall_cons in Hops as [Hop2 Hops].
  destruct (op_decode op2 (a ++ op_bytes (VAL v k)) (ops_bytes ops ++ 0 :: rest) Hop2) as (b1 & Hload1 & Hd1).
  assert (load8 (s_buf o) (len a + 1) = Some b1) as ->.
  { rewrite Hb, ops_bytes_cons, <- app_assoc, app_assoc, <- Hload1. f_equal. rewrite length_app. cbn. lia. }
  mnext. destruct op2 as [k2|k2|v2 k2]; cbn [decodes] in Hd1;
    [destruct Hd1 as (_ & _ & -> & _); exact Hnext|destruct Hd1 as (_ & _ & -> & _); exact Hnext|].
  destruct Hd1 as (_ & _ & -> & -> & ->). cbn [andb]. destruct (Z.eqb_spec v v2) as [<-|]; [|exact Hnext]. cbn [andb].
  unfold HLL_SPARSE_VAL_MAX_LEN. destruct (Z.leb_spec (k + k2) 4); [|exact Hnext]. mnext. cbn in Hop, Hop2.
  assert (Hok : op_ok (VAL v (k + k2))) by (cbn; lia).
  destruct (merge_two o a _ _ (ops_bytes ops) v (k + k2) Hrep Hok) as (m & m' & o1 & Hst & Hmv & Hinc & Hr).
  rewrite Hst. mnext. change (ops_bytes (VAL v k :: VAL v k2 :: ops)) with ([128 + 4 * (v - 1) + (k - 1); 128 + 4 * (v - 1) + (k2 - 1)] ++ ops_bytes ops).
  rewrite Hmv. mnext. rewrite Hinc. mnext.
  destruct (IH o1 a (VAL v (k + k2) :: ops)) as (o' & ops' & Hm & Hr' & Ho & Hregs); [by constructor|done|].
  exists o', ops'. split; [|split_and!; [done..|]].
  - rewrite <- Hm. f_equal. rewrite ops_bytes_cons, !length_app. cbn [length op_bytes]. lia.
  - rewrite Hregs, !ops_regs_cons, app_assoc. f_equal. unfold op_regs. cbn [op_len op_val]. rewrite <- replicate_add. f_equal. lia.
Qed.

(** ** The cached cardinality *)

Definition inv_card (card : list Z) : list Z := alter (λ c, Z.lor c 128) 7%nat card.

Lemma lor_128 c : is_byte c → is_byte (Z.lor c 128) ∧ Z.land (Z.lor c 128) 128 = 128.
Proof.
  intros Hc. apply (proj1 (bool_decide_eq_true _)). revert c Hc.
  apply (forall_below (λ c, bool_decide (is_byte (Z.lor c 128) ∧ Z.land (Z.lor c 128) 128 = 128)) 256). by vm_compute.
Qed.

Lemma inv_card_ok unused card : header_ok unused card → header_ok unused (inv_card card).
Proof.
  intros (Hu & Hc & Hub & Hcb). unfold inv_card. split_and!; [done|by rewrite length_alter|done|].
  apply Forall_alter; [done|]. intros c Hl Hb. by apply lor_128.
Qed.

Lemma invalidate_spec enc unused card rest : header_ok unused card →
  HLL_INVALIDATE_CACHE (hll_header enc unused card ++ rest) = Some (hll_header enc unused (inv_card card) ++ rest).
Proof.
  intros Hh. pose proof Hh as (Hu & Hc & _ & Hcb). unfold HLL_INVALIDATE_CACHE, hll_header. change (off_card + 7) with 15.
  destruct unused as [|u0 [|u1 [|u2 [|]]]]; try done. destruct card as [|c0 [|c1 [|c2 [|c3 [|c4 [|c5 [|c6 [|c7 [|]]]]]]]]]; try done.
  cbn [app]. change (load8 _ 15) with (Some c7). mnext.
  pose proof (store8_app [72; 89; 76; 76; enc; u0; u1; u2; c0; c1; c2; c3; c4; c5; c6] c7 (Z.lor c7 (Z.shiftl 1 7)) rest 15 eq_refl) as Hs.
  cbn [app] in Hs. rewrite Hs. rewrite is_byte_wrap; [done|].
  apply inv_card_ok in Hh as (_ & _ & _ & Hb). by apply (Forall_lookup_1 _ _ 7%nat (Z.lor c7 128)) in Hb.
Qed.

Definition hll_rep (o : sds) (unused card regs : list Z) : Prop :=
  dense_rep o unused card regs ∨ sparse_rep o unused card regs.

(** ** hllSparseSet *)

Lemma updated_spec o unused card o0 tl prev end_ : header_ok unused card → Forall op_ok (o0 ++ tl) → len (ops_regs (o0 ++ tl)) = 16384 →
  let hdr := hll_header HLL_SPARSE unused card in
  sds_rep o (hdr ++ ops_bytes (o0 ++ tl)) → default HLL_HDR_SIZE prev = len (hdr ++ ops_bytes o0) → end_ = len (hdr ++ ops_bytes (o0 ++ tl)) →
  ∃ o', sparse_updated o prev end_ = Some (o', 1) ∧ sparse_rep o' unused (inv_card card) (ops_regs (o0 ++ tl)).
Proof.
  intros Hh Hops Hregs hdr Hrep Hprev ->. unfold sparse_updated. rewrite Hprev. apply Forall_app in Hops as [Ho0 Htl].
  rewrite ops_bytes_app, app_assoc in *. destruct (sparse_merge_spec 5 o (hdr ++ ops_bytes o0) tl Htl Hrep) as (o1 & tl' & -> & Hrep1 & Htl' & Hr'). mnext.
  rewrite <- app_assoc, <- ops_bytes_app in Hrep1. pose proof Hrep1 as (_ & _ & rest & Hb). rewrite Hb, <- app_assoc.
  unfold hdr. rewrite invalidate_spec by done. mnext. eexists. split; [done|].
  split; [by apply inv_card_ok|]. split; [done|]. exists (o0 ++ tl'). split; [by apply Forall_app|].
  split; [by rewrite !ops_regs_app, Hr'|]. rewrite app_assoc. eapply rep_set_buf; [exact Hrep1|exact Hb|].
  unfold hdr. rewrite !length_app, !length_header by (done || by apply inv_card_ok). done.
Qed.

Lemma promote_spec o unused card regs index count old : sparse_rep o unused card regs → 0 <= index < 16384 →
  regs !! Z.to_nat index = Some old → old < count < 64 → 0 <= old →
  ∃ o', sparse_promote o index count = Some (o', 1) ∧ dense_rep o' unused card (<[Z.to_nat index := count]> regs).
Proof.
  intros Hrep Hi Hold Hc H0. unfold sparse_promote. destruct (to_dense_sparse o _ _ _ Hrep) as (d & -> & Hd). mnext. cbn [negb].
  destruct (dense_set_spec d _ _ _ index count old Hd Hi Hold) as (o' & -> & Ho'); [lia|]. mnext.
  replace (count >? old) with true by lia. rewrite Z.max_r in Ho' by lia. by exists o'.
Qed.

(** The registers around an opcode. *)
Lemma regs_split o1 op o2 index old : op_ok op → 0 <= index - len (ops_regs o1) < op_len op →
  ops_regs (o1 ++ op :: o2) !! Z.to_nat index = Some old →
  old = op_val op ∧ ∀ v seq, ops_regs seq = <[Z.to_nat (index - len (ops_regs o1)) := v]> (op_regs op) →
    ops_regs (o1 ++ seq ++ o2) = <[Z.to_nat index := v]> (ops_regs (o1 ++ op :: o2)).
Proof.
  intros Hop Hi. pose proof (len_op_regs op Hop) as Hl. rewrite ops_regs_app, ops_regs_cons.
  rewrite lookup_app_r, lookup_app_l by lia. replace (Z.to_nat index - length (ops_regs o1))%nat with (Z.to_nat (index - len (ops_regs o1))) by lia.
  unfold op_regs at 1. rewrite lookup_replicate. intros [-> _]. split; [done|]. intros v seq Hs.
  rewrite !ops_regs_app, Hs. rewrite insert_app_r_alt by lia. f_equal.
  rewrite insert_app_l by lia. do 2 f_equal. lia.
Qed.

(** Where the update leaves the cached cardinality. *)
Definition card_after (grown : bool) (card card' : list Z) : Prop := card' = card ∨ grown = true ∧ card' = inv_card card.

(** The tests of the code on the first byte of an opcode, in terms of the opcode. *)
Lemma kind_of op b m p count : op_ok op → decodes m p op b → 1 <= count →
  negb (HLL_SPARSE_IS_ZERO b) && negb (negb (HLL_SPARSE_IS_ZERO b) && HLL_SPARSE_IS_XZERO b) && (HLL_SPARSE_VAL_VALUE b >=? count)
    = (op_val op >=? count) ∧
  (negb (HLL_SPARSE_IS_ZERO b) && negb (negb (HLL_SPARSE_IS_ZERO b) && HLL_SPARSE_IS_XZERO b) || HLL_SPARSE_IS_ZERO b) = (len (op_bytes op) =? 1) ∧
  (∀ q, (if HLL_SPARSE_IS_XZERO b then q + 2 else q + 1) = q + len (op_bytes op)) ∧
  (if negb (HLL_SPARSE_IS_ZERO b) && HLL_SPARSE_IS_XZERO b then 2 else 1) = len (op_bytes op).
Proof.
  destruct op; cbn [decodes op_ok]; [intros ? (-> & -> & _)|intros ? (-> & -> & _)|intros ? (-> & -> & _ & -> & _)]; cbn [op_val negb andb orb op_bytes length];
    intros; split_and!; (done || lia).
Qed.

Section at_opcode.
Context (maxb : Z) (o : sds) (unused card : list Z) (o1 : list opcode) (op : opcode) (o2 : list opcode).
Context (index count old : Z) (prev : option Z).
Let hdr := hll_header HLL_SPARSE unused card.
Let regs := ops_regs (o1 ++ op :: o2).
Context (Hh : header_ok unused card) (Ho1 : Forall op_ok o1) (Hop : op_ok op) (Ho2 : Forall op_ok o2).
Context (Hregs : len regs = 16384) (Hrep : sds_rep o (hdr ++ ops_bytes (o1 ++ op :: o2))).
Context (Hcap : len (hdr ++ ops_bytes (o1 ++ op :: o2)) + 3 <= sdsalloc o).
Context (Hi : 0 <= index - len (ops_regs o1) < op_len op) (Hold : regs !! Z.to_nat index = Some old).
Context (Hprev : o1 = [] ∧ prev = None ∨ ∃ o0 q, o1 = o0 ++ [q] ∧ prev = Some (len (hdr ++ ops_bytes o0))).

(** The result of the code. *)
Definition set_result (r : option (sds * Z)) : Prop :=
  ∃ o' card', r = Some (o', if count >? old then 1 else 0) ∧
    hll_rep o' unused card' (<[Z.to_nat index := Z.max old count]> regs) ∧ card_after (count >? old) card card'.

(** [seq] stands for the opcode with the register changed. *)
Definition replaces (seq : list opcode) : Prop :=
  Forall op_ok seq ∧ ops_regs seq = <[Z.to_nat (index - len (ops_regs o1)) := count]> (op_regs op).

Lemma index_bound : 0 <= index < 16384.
Proof. pose proof (len_op_regs op Hop). unfold regs in Hregs. rewrite ops_regs_app, ops_regs_cons, !length_app in Hregs. lia. Qed.

Lemma sparse_here : sparse_rep o unused card regs.
Proof. split; [done|]. split; [done|]. exists (o1 ++ op :: o2). split; [|done]. apply Forall_app. split; [done|by constructor]. Qed.

Lemma updated_at seq on end_ : old < count → replaces seq → sds_rep on (hdr ++ ops_bytes (o1 ++ seq ++ o2)) →
  end_ = len (hdr ++ ops_bytes (o1 ++ seq ++ o2)) → set_result (sparse_updated on prev end_).
Proof.
  intros Hlt [Hseq Hr] Hon ->. destruct (regs_split o1 op o2 index old Hop Hi Hold) as [_ Hins]. specialize (Hins count seq Hr). fold regs in Hins.
  assert (∃ o0 tl, o1 ++ seq ++ o2 = o0 ++ tl ∧ default HLL_HDR_SIZE prev = len (hdr ++ ops_bytes o0)) as (o0 & tl & E & Hp).
  { destruct Hprev as [[-> ->]|(o0 & q & -> & ->)].
    - exists [], (seq ++ o2). split; [done|]. rewrite app_nil_r. unfold hdr. by rewrite length_header.
    - exists o0, ([q] ++ seq ++ o2). by rewrite <- app_assoc. }
  rewrite E in *. destruct (updated_spec on unused card o0 tl prev (len (hdr ++ ops_bytes (o0 ++ tl))) Hh) as (o' & Hu & Hrep'); try done.
  - rewrite <- E. by repeat (apply Forall_app; split).
  - by rewrite Hins, length_insert.
  - exists o', (inv_card card). rewrite Hu. replace (count >? old) with true by lia. split; [done|]. split; [|by right].
    rewrite Z.max_r, <- Hins by lia. by right.
Qed.

Lemma promoted_at : old < count < 64 → set_result (sparse_promote o index count).
Proof.
  intros Hlt. destruct (regs_split o1 op o2 index old Hop Hi Hold) as [Hov _]. pose proof (op_range op Hop).
  destruct (promote_spec o unused card regs index count old) as (o' & -> & Ho'); [apply sparse_here|apply index_bound|done|done|lia|].
  exists o', card. replace (count >? old) with true by lia. rewrite Z.max_r by lia. split; [done|]. split; [by left|by left].
Qed.

(** Steps 3 and 4. *)
Lemma replaced_at seq : old < count → replaces seq → len (ops_bytes seq) <= len (op_bytes op) + 3 →
  let next := len (hdr ++ ops_bytes o1) + len (op_bytes op) in
  let end_ := len (hdr ++ ops_bytes (o1 ++ op :: o2)) in
  let deltalen := len (ops_bytes seq) - len (op_bytes op) in
  set_result
   (m ← match (if next >=? end_ then None else Some next) with
        | Some next => if negb (deltalen =? 0) then memmove (s_buf o) (next + deltalen) next (end_ - next) else Some (s_buf o)
        | None => Some (s_buf o)
        end;
    o ← sdsIncrLen (set_buf o m) deltalen;
    m ← store (s_buf o) (len (hdr ++ ops_bytes o1)) (ops_bytes seq);
    sparse_updated (set_buf o m) prev (end_ + deltalen)).
Proof.
  intros Hlt Hseq Hlen next end_ deltalen. unfold next, end_, deltalen. clear next end_ deltalen. pose proof (room_type o 3 _ Hrep ltac:(lia) Hcap) as Hty.
  assert (E : ∀ s, hdr ++ ops_bytes (o1 ++ s ++ o2) = (hdr ++ ops_bytes o1) ++ ops_bytes s ++ ops_bytes o2).
  { intros s. by rewrite !ops_bytes_app, <- app_assoc. }
  assert (Eop : hdr ++ ops_bytes (o1 ++ op :: o2) = (hdr ++ ops_bytes o1) ++ op_bytes op ++ ops_bytes o2) by by rewrite ops_bytes_app, <- app_assoc.
  pose proof Hrep as Hrep'. pose proof Hcap as Hcap'. rewrite Eop in Hrep', Hcap' |- *.
  destruct (splice_spec o (hdr ++ ops_bytes o1) (op_bytes op) (ops_bytes o2) (ops_bytes seq) Hrep' Hty) as (m & on & m1 & -> & Hinc & Hst & Hr).
  { rewrite !length_app in *. lia. }
  { pose proof (len_op_bytes op) as Hlb. destruct op; lia. }
  mnext. rewrite Hinc. mnext. rewrite Hst. mnext. rewrite <- E in Hr.
  apply (updated_at seq); [done..|]. rewrite E, !length_app. lia.
Qed.

Lemma unchanged_at : count <= old → set_result (Some (o, 0)).
Proof.
  intros Hle. exists o, card. replace (count >? old) with false by lia. split; [done|]. split; [|by left].
  rewrite Z.max_l, list_insert_id by (done || lia). right. apply sparse_here.
Qed.

Lemma set_at_spec : 1 <= count <= 32 →
  set_result (sparse_set_at maxb o index count (len (hdr ++ ops_bytes o1)) (len (ops_regs o1)) prev (op_len op)).
Proof.
  intros Hc. destruct (regs_split o1 op o2 index old Hop Hi Hold) as [Hov _]. pose proof (op_len_pos op Hop) as Hpos. pose proof index_bound as Hib.
  assert (Hlb : 1 <= len (op_bytes op)) by (clear; destruct op; cbn; lia). pose proof Hrep as (_ & Hlen & rest & Hb). unfold sparse_set_at, sdslen. cbv zeta.
  assert (Eop : hdr ++ ops_bytes (o1 ++ op :: o2) = (hdr ++ ops_bytes o1) ++ op_bytes op ++ ops_bytes o2) by by rewrite ops_bytes_app, <- app_assoc.
  rewrite Hlen. replace ((op_len op =? 0) || _) with false
    by (rewrite Eop, (length_app (hdr ++ ops_bytes o1)), (length_app (op_bytes op)); lia).
  destruct (op_decode op (hdr ++ ops_bytes o1) (ops_bytes o2 ++ 0 :: rest) Hop) as (b & Hl & Hd).
  rewrite Eop, <- !app_assoc in Hb. rewrite <- app_assoc, <- Hb in Hl, Hd. rewrite Hl. mnext.
  assert ((if HLL_SPARSE_IS_ZERO b then Some (HLL_SPARSE_ZERO_LEN b)
           else if negb (HLL_SPARSE_IS_ZERO b) && HLL_SPARSE_IS_XZERO b then HLL_SPARSE_XZERO_LEN (s_buf o) (len (hdr ++ ops_bytes o1))
           else Some (HLL_SPARSE_VAL_LEN b)) = Some (op_len op)) as ->.
  { revert Hd. clear. destruct op; cbn [decodes]; [intros (-> & _ & _ & ->)|intros (-> & -> & _ & ->)|intros (-> & -> & _ & _ & ->)]; done. }
  mnext. pose proof (split_spec op b _ _ (len (ops_regs o1)) (s32 (len (ops_regs o1) + op_len op - 1)) index count Hop Hd Hc Hi) as Hsplit.
  destruct (kind_of op b _ _ count Hop Hd ltac:(lia)) as (Hval & Hone & Hnext & Hoplen). rewrite Hval. destruct (Z.geb_spec (op_val op) count); [apply unchanged_at; lia|].
  assert (Hlt : old < count) by lia. rewrite Hone, (Hnext (len (hdr ++ ops_bytes o1))), Hoplen.
  destruct ((len (op_bytes op) =? 1) && (op_len op =? 1)) eqn:E1.
  - rewrite val_set by (cbn; lia). rewrite Hb, (app_assoc hdr), (store_app (hdr ++ ops_bytes o1)) by (done || cbn; lia). mnext.
    apply andb_true_iff in E1 as [Elb%Z.eqb_eq Eol%Z.eqb_eq].
    assert (Enew : hdr ++ ops_bytes (o1 ++ [VAL count 1] ++ o2) = (hdr ++ ops_bytes o1) ++ op_bytes (VAL count 1) ++ ops_bytes o2)
      by by rewrite ops_bytes_app, <- app_assoc.
    apply (updated_at [VAL count 1]); [done|..].
    + split; [apply Forall_singleton; cbn; lia|]. unfold op_regs. replace (index - _) with 0 by lia. by rewrite Eol.
    + rewrite Enew, (app_assoc (op_bytes _)), (app_assoc (hdr ++ ops_bytes o1)).
      eapply rep_set_buf; [exact Hrep|by rewrite Hb, Eop, <- !app_assoc|]. rewrite Eop, !(length_app (hdr ++ ops_bytes o1)), !length_app. cbn [op_bytes length]. lia.
    + rewrite Eop, Enew, !(length_app (hdr ++ ops_bytes o1)), (length_app (op_bytes op)), (length_app (op_bytes (VAL count 1))). cbn [op_bytes length]. lia.
  - destruct Hsplit as (seq & Hseq & Hok & Hr & Hle); [rewrite s32_small; lia|]. rewrite Hseq.
    match goal with |- set_result (if ?c then _ else _) => destruct c end; [apply promoted_at; lia|].
    by apply replaced_at; [|split|].
Qed.
End at_opcode.

Lemma sparse_set_spec maxb o unused card regs index count old : sparse_rep o unused card regs → 0 <= index < 16384 →
  regs !! Z.to_nat index = Some old → 1 <= count < 64 →
  ∃ o' card', hllSparseSet maxb o index count = Some (o', if count >? old then 1 else 0) ∧
    hll_rep o' unused card' (<[Z.to_nat index := Z.max old count]> regs) ∧ card_after (count >? old) card card'.
Proof.
  intros Hsp Hi Hold Hc. pose proof Hsp as (Hh & Hregs & ops & Hops & Hr & Hrep). unfold hllSparseSet.
  assert (Ho : 0 <= old <= 32) by (eapply ops_range; [exact Hops|]; rewrite Hr; eapply list_elem_of_lookup_2, Hold).
  change HLL_SPARSE_VAL_MAX_VALUE with 32. destruct (Z.gtb_spec count 32).
  { destruct (promote_spec o unused card regs index count old Hsp Hi Hold) as (o' & -> & Ho'); [lia..|]. exists o', card.
    replace (count >? old) with true by lia. rewrite Z.max_r by lia. split; [done|]. split; [by left|by left]. }
  pose proof (ops_size ops Hops) as [Hsz _]. pose proof (length_header HLL_SPARSE _ _ Hh) as Hlh.
  unfold sdsMakeRoomFor. destruct (room_rep o _ 3 true Hrep) as (on & -> & Hrep' & Hcap); [done|rewrite length_app, Hlh, Hr in *; lia|]. mnext.
  pose proof Hrep' as (_ & Hlen & rest & Hb). unfold sdslen. rewrite Hlen.
  destruct (find_spec index ops (length (s_buf on)) (hll_header HLL_SPARSE unused card) (0 :: rest) 0 None 0 Hops) as (o1 & op & o2 & prev & -> & Hf & Hrange & Hprev).
  { rewrite Hb, !length_app. lia. } { rewrite Hr. lia. }
  rewrite app_assoc, <- Hb, Hlh in Hf. change HLL_HDR_SIZE with (Z.of_nat 16). rewrite Hf. mnext. rewrite Z.add_0_l in *. subst regs.
  apply Forall_app in Hops as [Ho1 [Hop Ho2]%Forall_cons]. by apply (set_at_spec maxb on unused card o1 op o2 index count old prev); [..|lia].
Qed.
End sparse.
