(* ===== verification/HllTheorems.v ===== *)
(** HyperLogLog: the theorems.  Hashing of an element; adding, merging and counting on
    the registers of a value; PFADD, PFCOUNT and PFMERGE. *)
From S2P Require Import Prelude Bits Endian UtilText Sds SdsTheorems Hll HllSpec HllSparse.

(** ** Hashing *)

Lemma murmur_word_le `{Host} pre bs post : length bs = 8%nat → bytes_ok bs →
  murmur_word (pre ++ bs ++ post) (len pre) = Some (le_val bs).
Proof.
  intros Hl Hb. unfold murmur_word. destruct big_endian eqn:E.
  - destruct bs as [|b0 [|b1 [|b2 [|b3 [|b4 [|b5 [|b6 [|b7 [|]]]]]]]]]; try done.
    pose proof (load8_block pre [b0; b1; b2; b3; b4; b5; b6; b7] post) as Hld.
    rewrite <- (Z.add_0_r (len pre)) at 1. rewrite (Hld 0 b0) by done. mnext.
    rewrite (Hld 1 b1) by done. mnext. rewrite (Hld 2 b2) by done. mnext. rewrite (Hld 3 b3) by done. mnext.
    rewrite (Hld 4 b4) by done. mnext. rewrite (Hld 5 b5) by done. mnext. rewrite (Hld 6 b6) by done. mnext. rewrite (Hld 7 b7) by done. mnext.
    cbv zeta. f_equal. repeat (apply Forall_cons in Hb as [? Hb]). unfold is_byte in *.
    rewrite !Z.shiftl_mul_pow2 by lia.
    repeat match goal with |- context [Z.lor ?a (?b * 2 ^ ?k)] =>
      lazymatch a with context [Z.lor] => fail | _ => rewrite (lor_add a (b * 2 ^ k) k) by first [lia|by eexists] end end.
    rewrite !le_val_cons. change (le_val []) with 0. lia.
  - rewrite load_app by len_lia. mnext. unfold host_val. by rewrite E.
Qed.

Lemma murmur_words_split `{Host} ws : ∀ pre post h, Forall (λ w, length w = 8%nat ∧ bytes_ok w) ws →
  murmur_words (length ws) (pre ++ concat ws ++ post) (len pre) h = Some (foldl murmur_mix h (map le_val ws)).
Proof.
  induction ws as [|w ws IH]; intros pre post h Hw; [done|]. apply Forall_cons in Hw as [[Hl Hb] Hw]. cbn [length murmur_words concat].
  rewrite <- app_assoc, murmur_word_le by done. mnext. rewrite app_assoc.
  replace (len pre + 8) with (len (pre ++ w)) by (rewrite length_app; lia). rewrite IH by done. done.
Qed.

(** The words of a key and the bytes after them. *)
Lemma words_of (n : nat) key : 8 * Z.of_nat n <= len key → bytes_ok key →
  ∃ ws rest, key = concat ws ++ rest ∧ length ws = n ∧ Forall (λ w, length w = 8%nat ∧ bytes_ok w) ws ∧ bytes_ok rest ∧ len rest = len key - 8 * Z.of_nat n.
Proof.
  revert key. induction n as [|n IH]; intros key Hl Hb; [exists [], key; split_and!; (done || constructor || lia)|].
  destruct (IH (drop 8 key)) as (ws & rest & E & Hn & Hw & Hr & Hlr); [rewrite length_drop; lia|by apply Forall_drop|].
  exists (take 8 key :: ws), rest. cbn [concat length]. rewrite <- app_assoc, <- E, take_drop, Hn. split_and!; [done|done| |done|].
  - constructor; [|done]. split; [rewrite length_take; lia|by apply Forall_take].
  - rewrite Hlr, length_drop. lia.
Qed.

Lemma murmur_tail_total n key data h : 0 <= data → data + Z.of_nat n <= len key → bytes_ok key → (n <= 7)%nat → 0 <= h < 2 ^ 64 →
  ∃ h', murmur_tail n key data h = Some h' ∧ 0 <= h' < 2 ^ 64.
Proof.
  revert h. induction n as [|n IH]; intros h Hd Hl Hb Hn Hh; [by exists h|]. cbn [murmur_tail].
  destruct (load8_total key (data + Z.of_nat n)) as [b Hld]; [lia|]. rewrite Hld. mnext.
  assert (Hbb : is_byte b) by (unfold load8 in Hld; destruct (0 <=? _); [|done]; by eapply Forall_lookup_1 in Hld).
  apply IH; try done; try lia. apply lxor_range; [done|]. rewrite Z.shiftl_mul_pow2 by lia. unfold is_byte in Hbb.
  assert (0 < 2 ^ (8 * Z.of_nat n) <= 2 ^ 48) by (split; [lia|apply Z.pow_le_mono_r; lia]). nia.
Qed.

Lemma murmur_mix_range h k : 0 <= murmur_mix h k < 2 ^ 64.
Proof. unfold murmur_mix. cbv zeta. by apply wrapu_range. Qed.

Lemma foldl_mix_range ks h : 0 <= h < 2 ^ 64 → 0 <= foldl murmur_mix h ks < 2 ^ 64.
Proof. revert h. induction ks as [|k ks IH]; intros h Hh; [done|]. cbn. apply IH, murmur_mix_range. Qed.

(** The words do not depend on the byte order of the host. *)
Lemma murmur_words_key `{Host} n key h : 8 * Z.of_nat n <= len key → bytes_ok key →
  ∃ ws, murmur_words n key 0 h = Some (foldl murmur_mix h (map le_val ws)) ∧ length ws = n ∧
    (∃ rest, key = concat ws ++ rest) ∧ Forall (λ w, length w = 8%nat ∧ bytes_ok w) ws.
Proof.
  intros Hl Hb. destruct (words_of n key Hl Hb) as (ws & rest & -> & <- & Hw & _). exists ws. split_and!; [|done|by eexists|done].
  apply (murmur_words_split ws [] rest h Hw).
Qed.

Lemma murmur_total (h1 : Host) key seed : bytes_ok key → len key < 2 ^ 31 → 0 <= seed < 2 ^ 64 →
  ∃ hash, 0 <= hash < 2 ^ 64 ∧ ∀ h : Host, MurmurHash64A (H := h) key (len key) seed = Some hash.
Proof.
  intros Hb Hl Hs. unfold MurmurHash64A. replace (len key <? 0) with false by lia. cbv zeta. rewrite land_7.
  set (words := (len key - len key mod 8) / 8). assert (Hwords : 8 * words + len key mod 8 = len key ∧ 0 <= words ∧ 0 <= len key mod 8 < 8) by (unfold words; div_lia).
  set (h0 := Z.lxor seed (u64 (len key * murmur_m))).
  destruct (words_of (Z.to_nat words) key) as (ws & rest & Hkey & Hn & Hw & _); [lia|done|].
  set (hw := foldl murmur_mix h0 (map le_val ws)).
  assert (Hhw : 0 <= hw < 2 ^ 64) by (apply foldl_mix_range, lxor_range; [done|by apply wrapu_range]).
  destruct (murmur_tail_total (Z.to_nat (len key mod 8)) key (8 * words) hw) as (ht & Htail & Hht); [lia|div_lia|done|div_lia|done|].
  set (hm := if negb (len key mod 8 =? 0) then u64 (ht * murmur_m) else hw).
  assert (Hhm : 0 <= hm < 2 ^ 64) by (unfold hm; destruct (negb _); [by apply wrapu_range|done]).
  eexists. split; [|intros h].
  2: { assert (murmur_words (H := h) (Z.to_nat words) key 0 h0 = Some hw) as ->.
       { rewrite Hkey at 1. rewrite <- Hn. apply (murmur_words_split (H := h) ws [] rest h0 Hw). }
       mnext. rewrite Htail. assert ((if negb (len key mod 8 =? 0) then h ← Some ht; Some (u64 (h * murmur_m)) else Some hw) = Some hm) as ->
         by (unfold hm; by destruct (negb _)). mnext. reflexivity. }
  apply lxor_range; [by apply wrapu_range|]. pose proof (wrapu_range 64 (Z.lxor hm (Z.shiftr hm 47) * murmur_m)) as Hr.
  rewrite Z.shiftr_div_pow2 by lia. split; [apply Z.div_pos; lia|]. apply Z.div_lt_upper_bound; lia.
Qed.

Lemma pat_loop_spec hash fuel i : Z.testbit hash 50 = true → 0 <= i <= 50 → 50 - i < Z.of_nat fuel →
  ∃ count, pat_loop fuel hash (2 ^ i) (i + 1) = Some count ∧ i + 1 <= count <= 51 ∧ Z.testbit hash (count - 1) = true ∧
    ∀ j, i <= j < count - 1 → Z.testbit hash j = false.
Proof.
  revert i. induction fuel as [|fuel IH]; intros i Hbit Hi Hf; [lia|]. cbn [pat_loop]. rewrite land_pow2 by lia.
  destruct (Z.testbit hash i) eqn:E; cbn [negb].
  { exists (i + 1). replace (i + 1 - 1) with i by lia. split_and!; [done|lia|lia|done|lia]. }
  assert (i ≠ 50) by congruence.
  assert (u64 (Z.shiftl (2 ^ i) 1) = 2 ^ (i + 1)) as ->.
  { rewrite Z.shiftl_mul_pow2, <- Z.pow_add_r by lia. apply wrapu_small. split; [lia|]. apply Z.pow_lt_mono_r; lia. }
  destruct (IH (i + 1)) as (count & -> & Hc & Ht & Hz); [done|lia|lia|]. exists count. split_and!; [done|lia|lia|done|].
  intros j Hj. destruct (decide (j = i)) as [->|]; [done|]. apply Hz. lia.
Qed.

Lemma pat_len_spec (h1 : Host) ele : bytes_ok ele → len ele < 2 ^ 31 →
  ∃ hash count, (∀ h : Host, MurmurHash64A (H := h) ele (len ele) 0xadc83b19 = Some hash) ∧
    (∀ h : Host, hllPatLen (H := h) ele (len ele) = Some (count, hash mod 2 ^ 14)) ∧ 0 <= hash < 2 ^ 64 ∧
    1 <= count <= 51 ∧ (∀ j, 14 <= j < 13 + count → Z.testbit hash j = false) ∧ (count = 51 ∨ Z.testbit hash (13 + count) = true).
Proof.
  intros Hb Hl. destruct (murmur_total h1 ele 0xadc83b19 Hb Hl) as (hash & Hr & Hm); [done|]. exists hash.
  change (Z.shiftl 1 HLL_Q) with (2 ^ 50). set (w := Z.lor (Z.shiftr hash HLL_P) (2 ^ 50)).
  assert (Hw : ∀ j, 0 <= j → Z.testbit w j = Z.testbit hash (14 + j) || (50 =? j)).
  { intros j Hj. unfold w. rewrite Z.lor_spec, Z.shiftr_spec, Z.pow2_bits_eqb by lia. do 2 f_equal. unfold HLL_P. lia. }
  destruct (pat_loop_spec w 64 0) as (count & Hloop & Hc & Ht & Hz); [rewrite Hw by lia; by rewrite orb_true_r|lia|lia|].
  change (2 ^ 0) with 1 in Hloop. change (0 + 1) with 1 in *. exists count. split; [done|]. split.
  { intros h. unfold hllPatLen. rewrite s32_small, Hm by lia. mnext. cbv zeta. change (Z.shiftl 1 HLL_Q) with (2 ^ 50). fold w. rewrite Hloop. mnext.
    do 2 f_equal. by apply (Z.land_ones hash 14). }
  split_and!; try lia.
  - intros j Hj. specialize (Hz (j - 14) ltac:(lia)). rewrite Hw in Hz by lia. apply orb_false_iff in Hz as [Hz _]. rewrite <- Hz. f_equal. lia.
  - destruct (decide (count = 51)); [by left|right]. rewrite Hw in Ht by lia. replace (50 =? count - 1) with false in Ht by lia.
    rewrite orb_false_r in Ht. rewrite <- Ht. f_equal. lia.
Qed.

(** ** Adding an element *)

Section commands.
Context `{Malloc} `{Host} (maxb : Z).

(** What an element does to the registers. *)
Definition ele_update (regs ele : list Z) : list Z :=
  match hllPatLen ele (len ele) with
  | Some (count, index) => alter (λ v, Z.max v count) (Z.to_nat index) regs
  | None => regs
  end.
Definition add_all (regs : list Z) (eles : list (list Z)) : list Z := foldl ele_update regs eles.

Definition ele_ok (ele : list Z) : Prop := bytes_ok ele ∧ len ele < 2 ^ 31.

Lemma insert_max (regs : list Z) i old count : regs !! i = Some old → <[i := Z.max old count]> regs = alter (λ v, Z.max v count) i regs.
Proof.
  intros Hl. apply list_eq. intros j. destruct (decide (i = j)) as [<-|Hne].
  - rewrite list_lookup_alter_eq, Hl. apply list_lookup_insert_eq. by eapply lookup_lt_Some.
  - by rewrite list_lookup_insert_ne, list_lookup_alter_ne.
Qed.

Lemma max_changes (regs : list Z) i old count : regs !! i = Some old →
  (count >? old) = negb (bool_decide (alter (λ v, Z.max v count) i regs = regs)).
Proof.
  intros Hl. case_bool_decide as E; cbn.
  - apply (f_equal (.!! i)) in E. rewrite list_lookup_alter_eq, Hl in E. injection E. lia.
  - destruct (Z.gtb_spec count old); [done|]. exfalso. apply E. rewrite <- (insert_max _ _ old) by done. rewrite Z.max_l by lia. by apply list_insert_id.
Qed.

Lemma rep_len o unused card regs : hll_rep o unused card regs → len regs = 16384 ∧ header_ok unused card.
Proof. intros [(? & body & _ & _ & _ & ? & _)|(? & ? & _)]; done. Qed.

Lemma add_spec o unused card regs ele : hll_rep o unused card regs → ele_ok ele →
  ∃ o' card', hllAdd maxb o ele (len ele) = Some (o', if bool_decide (ele_update regs ele = regs) then 0 else 1) ∧
    hll_rep o' unused card' (ele_update regs ele) ∧ card_after (negb (bool_decide (ele_update regs ele = regs))) card card'.
Proof.
  intros Hrep [Hb Hl]. destruct (pat_len_spec _ ele Hb Hl) as (hash & count & _ & Hpat & Hr & Hc & _). unfold ele_update. rewrite Hpat.
  set (index := hash mod 2 ^ 14). assert (Hi : 0 <= index < 16384) by (apply Z.mod_pos_bound; lia).
  destruct (rep_len _ _ _ _ Hrep) as [Hlen Hh].
  destruct (lookup_lt_is_Some_2 regs (Z.to_nat index)) as [old Hold]; [lia|].
  assert (E : ∀ A (x y : A), (if bool_decide (alter (λ v, Z.max v count) (Z.to_nat index) regs = regs) then x else y) = if count >? old then y else x).
  { intros A x y. rewrite (max_changes regs (Z.to_nat index)) by done. by destruct (bool_decide _). }
  rewrite E, <- (max_changes regs _ old), <- (insert_max regs _ old) by done. unfold hllAdd, hllDenseAdd, hllSparseAdd.
  destruct Hrep as [Hd|Hs].
  - destruct Hd as (Hh' & body & Hd & Hp). pose proof Hd as (_ & _ & rest & Hbuf). rewrite Hbuf, <- app_assoc, header_load. mnext.
    change (HLL_DENSE =? HLL_DENSE) with true. cbv iota. rewrite Hpat. mnext. fold index. rewrite is_byte_wrap by (unfold is_byte; lia).
    destruct (dense_set_spec o unused card regs index count old) as (o' & -> & Ho'); [split; [done|by exists body]|done|done|lia|].
    exists o', card. split; [done|]. split; by left.
  - pose proof Hs as (_ & _ & ops & _ & _ & _ & _ & rest & Hbuf). rewrite Hbuf, <- app_assoc, header_load. mnext.
    change (HLL_SPARSE =? HLL_DENSE) with false. change (HLL_SPARSE =? HLL_SPARSE) with true. cbv iota.
    rewrite Hpat. mnext. fold index. rewrite is_byte_wrap by (unfold is_byte; lia). apply sparse_set_spec; (done || lia).
Qed.

Lemma update_grows regs ele : Forall2 Z.le regs (ele_update regs ele).
Proof.
  unfold ele_update. destruct (hllPatLen _ _) as [[count index]|]; [|reflexivity].
  apply Forall2_same_length_lookup_2; [by rewrite length_alter|]. intros i x y Hx Hy.
  destruct (decide (Z.to_nat index = i)) as [<-|]; [rewrite list_lookup_alter_eq, Hx in Hy; injection Hy; lia|].
  rewrite list_lookup_alter_ne in Hy by done. simplify_eq. lia.
Qed.

Lemma le_antisym_regs (a b : list Z) : Forall2 Z.le a b → Forall2 Z.le b a → a = b.
Proof. induction 1; intros Hba; inversion Hba; simplify_eq; [done|]. f_equal; [lia|auto]. Qed.

Lemma add_all_grows regs eles : Forall2 Z.le regs (add_all regs eles).
Proof.
  revert regs. induction eles as [|ele eles IH]; intros regs; [reflexivity|].
  cbn. etrans; [apply update_grows|apply IH].
Qed.

Lemma update_comm regs a b : ele_update (ele_update regs a) b = ele_update (ele_update regs b) a.
Proof.
  unfold ele_update. destruct (hllPatLen a _) as [[ca ia]|], (hllPatLen b _) as [[cb ib]|]; try done.
  destruct (decide (Z.to_nat ia = Z.to_nat ib)) as [->|]; [|by apply list_alter_alter_ne].
  rewrite !list_alter_alter_eq. apply list_alter_ext; [|done]. intros x _. cbn. lia.
Qed.

Lemma add_all_perm regs eles eles' : eles ≡ₚ eles' → add_all regs eles = add_all regs eles'.
Proof.
  intros HP. revert regs. induction HP; intros regs; cbn; [done|auto| |]; [f_equal; apply update_comm|etrans; [apply IHHP1|apply IHHP2]].
Qed.

Lemma add_loop_spec eles : ∀ o unused card regs updated, hll_rep o unused card regs → Forall ele_ok eles →
  ∃ o' card' n, pfadd_loop maxb eles o updated = Some (o', Some (updated + n)) ∧ 0 <= n ∧
    hll_rep o' unused card' (add_all regs eles) ∧ (n = 0 ↔ add_all regs eles = regs) ∧ (n = 0 → card' = card).
Proof.
  induction eles as [|ele eles IH]; intros o unused card regs updated Hrep Hok; cbn [pfadd_loop].
  { exists o, card, 0. rewrite Z.add_0_r. split_and!; done. }
  apply Forall_cons in Hok as [He Hok]. destruct (add_spec o unused card regs ele Hrep He) as (o1 & card1 & -> & Hrep1 & Hcard). mnext.
  case_bool_decide as E; cbn [Z.eqb].
  - destruct (IH o1 unused card1 _ updated Hrep1 Hok) as (o' & card' & n & -> & Hn & Hr & Hz & Hc).
    exists o', card', n. change (add_all regs (ele :: eles)) with (add_all (ele_update regs ele) eles). rewrite E in *.
    destruct Hcard as [->|[? _]]; [|done]. by split_and!.
  - destruct (IH o1 unused card1 _ (updated + 1) Hrep1 Hok) as (o' & card' & n & Hloop & Hn & Hr & Hz & Hc).
    exists o', card', (n + 1). split; [rewrite Hloop; do 3 f_equal; lia|]. split; [lia|]. split; [done|].
    split; [|lia]. split; [lia|]. intros Eq. exfalso. apply E. symmetry. apply le_antisym_regs; [apply update_grows|].
    pose proof (add_all_grows (ele_update regs ele) eles) as Hg. cbn in Eq. unfold add_all in Hg, Eq. by rewrite Eq in Hg.
Qed.

(** ** Checks and creation *)

Lemma header_magic enc unused card rest : load (hll_header enc unused card ++ rest) 0 4 = Some [72; 89; 76; 76].
Proof. exact (load_app0 [72; 89; 76; 76] (([enc] ++ unused ++ card) ++ rest) 4 eq_refl). Qed.

Lemma is_hll_spec o unused card regs : hll_rep o unused card regs → isHLLObjectOrReply (HSds o) = Some (inl o).
Proof.
  intros Hrep. destruct (rep_len _ _ _ _ Hrep) as [_ Hh]. unfold isHLLObjectOrReply, sdslen.
  assert (∃ enc tl, sds_rep o (hll_header enc unused card ++ tl) ∧ (enc = HLL_DENSE ∧ len tl = 12288 ∨ enc = HLL_SPARSE)) as (enc & tl & (_ & Hl & rest & Hb) & Henc).
  { destruct Hrep as [(_ & body & ? & ? & _)|(_ & _ & ops & _ & _ & ?)]; [exists HLL_DENSE, body|exists HLL_SPARSE, (ops_bytes ops)]; auto. }
  pose proof (length_header enc _ _ Hh) as Hlh. rewrite Hl, length_app, Hlh. change HLL_HDR_SIZE with 16.
  replace (_ <? _) with false by lia. rewrite Hb, <- app_assoc, header_load.
  rewrite header_magic. do 2 mnext.
  rewrite bool_decide_eq_true_2 by done. cbn [negb]. destruct Henc as [[-> Htl]| ->]; [|done].
  change (HLL_DENSE >? HLL_MAX_ENCODING) with false. replace (_ =? HLL_DENSE_SIZE) with true by (change HLL_DENSE_SIZE with 12304; lia). done.
Qed.

(** A value is determined by its string. *)
Lemma rep_string o unused card regs : hll_rep o unused card regs →
  ∃ str, sds_rep o str ∧ len str < 2 ^ 63 ∧ ∀ o', sds_rep o' str → hll_rep o' unused card regs.
Proof.
  intros [(Hh & body & Hb & Hp)|(Hh & Hl & ops & Ho & Hr & Hb)].
  - exists (hll_header HLL_DENSE unused card ++ body). split; [done|]. pose proof (length_header HLL_DENSE _ _ Hh). destruct Hp as (? & Hp).
    split; [rewrite length_app; lia|]. intros o' Ho'. left. split; [done|]. exists body. by split_and!.
  - exists (hll_header HLL_SPARSE unused card ++ ops_bytes ops). split; [done|]. pose proof (length_header HLL_SPARSE _ _ Hh).
    pose proof (ops_size ops Ho). rewrite <- Hr in Hl. split; [rewrite length_app; lia|].
    intros o' Ho'. right. split; [done|]. split; [by rewrite <- Hr|]. by exists ops.
Qed.

Lemma unshare_spec own o unused card regs : hll_rep o unused card regs →
  ∃ o', dbUnshareStringValue own o = Some o' ∧ hll_rep o' unused card regs.
Proof.
  intros Hrep. destruct own; [by exists o|]. unfold dbUnshareStringValue, sdsdup, sdsnewlen.
  destruct (rep_string _ _ _ _ Hrep) as (str & Hstr & Hlen & Hall).
  destruct (newlen_spec (Bytes (s_buf o)) (sdslen o) str false) as (o' & -> & Ho').
  - destruct Hstr as (_ & Hl & _). unfold sdslen. lia.
  - by apply rep_load.
  - exists o'. split; [done|]. by apply Hall.
Qed.

Definition zero_regs : list Z := replicate (Z.to_nat 16384) 0.

Lemma create_spec : ∃ o, createHLLObject = Some o ∧ hll_rep o [0; 0; 0] (replicate 8 0) zero_regs.
Proof.
  unfold createHLLObject, sdsnewlen. change (HLL_HDR_SIZE + _) with 18. cbv zeta.
  destruct (newlen_spec NULL 18 (replicate 18 0) false) as (s & -> & Hs); [lia|done|]. pose proof Hs as (_ & _ & rest & Hb). mnext. mnext. rewrite Hb.
  replace (Z.to_nat HLL_REGISTERS) with (S (Z.to_nat 16383)) by (change HLL_REGISTERS with 16384; lia). cbn [create_loop].
  change (HLL_REGISTERS =? 0) with false. cbv iota zeta.
  change (if HLL_SPARSE_XZERO_MAX_LEN >? HLL_REGISTERS then HLL_REGISTERS else HLL_SPARSE_XZERO_MAX_LEN) with 16384.
  change (HLL_SPARSE_XZERO_SET 16384) with [127; 255]. change (replicate 18 0) with (replicate 16 0 ++ [0; 0]). rewrite <- app_assoc.
  rewrite (store_app (replicate 16 0) [0; 0]) by done. mnext. change (HLL_REGISTERS - 16384) with 0.
  assert (∀ n m p, create_loop n m p 0 = Some (m, p)) as -> by (by intros []). mnext. change (negb (HLL_HDR_SIZE + 2 =? 18)) with false. cbv iota.
  change (replicate 16 0) with (replicate 4 0 ++ replicate 12 0). rewrite <- app_assoc, store_app0 by done. mnext.
  pose proof (header_store 0 [0; 0; 0] (replicate 8 0) ([127; 255] ++ 0 :: rest) HLL_SPARSE) as Hst.
  change (hll_header 0 [0; 0; 0] (replicate 8 0) ++ [127; 255] ++ 0 :: rest) with ([72; 89; 76; 76] ++ replicate 12 0 ++ [127; 255] ++ 0 :: rest) in Hst.
  rewrite Hst. mnext. eexists. split; [done|]. right. split; [by split_and!; repeat constructor|]. split; [done|].
  exists [XZERO 16384]. split; [by repeat constructor|]. split; [done|]. change (u8 HLL_SPARSE) with HLL_SPARSE. rewrite app_assoc.
  eapply rep_set_buf; [exact Hs|exact Hb|done].
Qed.

(** ** The cached cardinality *)

Definition valid_card (card : list Z) : bool := Z.land (default 0 (card !! 7%nat)) 128 =? 0.

Lemma valid_cache_spec enc unused card rest : header_ok unused card →
  HLL_VALID_CACHE (hll_header enc unused card ++ rest) = Some (valid_card card).
Proof.
  intros (Hu & Hc & _). destruct unused as [|u0 [|u1 [|u2 [|]]]]; try done.
  by destruct card as [|c0 [|c1 [|c2 [|c3 [|c4 [|c5 [|c6 [|c7 [|]]]]]]]]].
Qed.

Lemma header_card enc unused card rest : header_ok unused card → load (hll_header enc unused card ++ rest) off_card 8 = Some card.
Proof.
  intros (Hu & Hc & _). unfold hll_header. rewrite (app_assoc [72; 89; 76; 76; enc]), <- app_assoc. apply load_app; [|by rewrite Hc].
  by rewrite length_app, Hu.
Qed.

Lemma store_card enc unused card card' rest : header_ok unused card → length card' = 8%nat →
  store (hll_header enc unused card ++ rest) off_card card' = Some (hll_header enc unused card' ++ rest).
Proof.
  intros (Hu & Hc & _) Hl. unfold hll_header. rewrite !(app_assoc [72; 89; 76; 76; enc]), <- !app_assoc. rewrite !(app_assoc [72; 89; 76; 76; enc]).
  apply store_app; [|lia]. by rewrite length_app, Hu.
Qed.

Lemma valid_inv_card unused card : header_ok unused card → valid_card (inv_card card) = false.
Proof.
  intros (_ & Hc & _ & Hb). destruct (lookup_lt_is_Some_2 card 7) as [c Hl]; [lia|]. unfold valid_card, inv_card. rewrite list_lookup_alter_eq, Hl. cbn.
  apply (Forall_lookup_1 _ _ _ _ Hb) in Hl as Hcb. by rewrite (proj2 (lor_128 c Hcb)).
Qed.

Lemma valid_le_bytes x : 0 <= x < 2 ^ 63 → valid_card (le_bytes 8 x) = true.
Proof.
  intros Hx. unfold valid_card. cbn [le_bytes lookup]. change (default 0 _) with (x / 256 / 256 / 256 / 256 / 256 / 256 / 256 mod 256).
  set (y := _ / 256). assert (Hy : 0 <= y < 128) by (unfold y; rewrite !Z.div_div by lia; div_lia). rewrite (Z.mod_small y 256) by lia.
  change 128 with (2 ^ 7) at 1. rewrite land_pow2 by lia. by rewrite (bits_above 7) by lia.
Qed.

(** The cached cardinality of a value may be replaced. *)
Lemma rep_card o unused card card' regs : hll_rep o unused card regs → header_ok unused card' →
  ∃ enc tl, s_buf o = hll_header enc unused card ++ tl ∧ hll_rep (set_buf o (hll_header enc unused card' ++ tl)) unused card' regs.
Proof.
  intros Hrep Hh'. destruct (rep_len _ _ _ _ Hrep) as [_ Hh].
  assert (Hset : ∀ enc body rest, sds_rep o (hll_header enc unused card ++ body) → s_buf o = (hll_header enc unused card ++ body) ++ 0 :: rest →
    sds_rep (set_buf o (hll_header enc unused card' ++ body ++ 0 :: rest)) (hll_header enc unused card' ++ body)).
  { intros enc body rest Hr Hb. rewrite app_assoc. eapply rep_set_buf; [exact Hr|exact Hb|]. by rewrite !length_app, !length_header. }
  destruct Hrep as [(_ & body & Hr & Hp)|(_ & Hl & ops & Ho & Hregs & Hr)]; pose proof Hr as (_ & _ & rest & Hb).
  - exists HLL_DENSE, (body ++ 0 :: rest). split; [by rewrite Hb, <- app_assoc|]. left. split; [done|]. exists body. auto.
  - exists HLL_SPARSE, (ops_bytes ops ++ 0 :: rest). split; [by rewrite Hb, <- app_assoc|]. right. split; [done|]. split; [done|]. exists ops. auto.
Qed.

Lemma inval_spec o unused card regs : hll_rep o unused card regs →
  ∃ m, HLL_INVALIDATE_CACHE (s_buf o) = Some m ∧ hll_rep (set_buf o m) unused (inv_card card) regs.
Proof.
  intros Hrep. destruct (rep_len _ _ _ _ Hrep) as [_ Hh]. destruct (rep_card _ _ _ (inv_card card) _ Hrep) as (enc & tl & -> & Hr); [by apply inv_card_ok|].
  rewrite invalidate_spec by done. eauto.
Qed.

(** ** PFADD *)

(** The value of a key: absent, or a HyperLogLog with these registers. *)
Definition key_rep (key : option hll_value) (unused card regs : list Z) : Prop :=
  match key with
  | None => unused = [0; 0; 0] ∧ card = replicate 8 0 ∧ regs = zero_regs
  | Some (HSds o) => hll_rep o unused card regs
  | Some _ => False
  end.

Lemma pfadd_spec own key unused card regs eles : key_rep key unused card regs → Forall ele_ok eles →
  ∃ o' card' d, let changed := bool_decide (key = None ∨ add_all regs eles ≠ regs) in
    pfaddCommand maxb own key eles = Some (mk_outcome (Some (HSds o')) (ReplyInt (if changed then 1 else 0)) d) ∧
    hll_rep o' unused card' (add_all regs eles) ∧
    if changed then valid_card card' = false ∧ 0 < d else card' = card ∧ d = 0.
Proof.
  intros Hkey Hok.
  assert (∃ o u, (match key with
          | None => o ← createHLLObject; Some (inl (o, 1))
          | Some v => r ← isHLLObjectOrReply v;
            match r with inr e => Some (inr e) | inl s => o ← dbUnshareStringValue own s; Some (inl (o, 0)) end
          end) = Some (inl (o, u)) ∧ hll_rep o unused card regs ∧ u = if bool_decide (key = None) then 1 else 0) as (o & u & Hstart & Hrep & Hu).
  { destruct key as [[s| |]|]; cbn in Hkey; try done.
    - rewrite (is_hll_spec _ _ _ _ Hkey). mnext. destruct (unshare_spec own _ _ _ _ Hkey) as (o & -> & Ho). mnext. by exists o, 0.
    - destruct Hkey as (-> & -> & ->). destruct create_spec as (o & -> & Ho). mnext. by exists o, 1. }
  unfold pfaddCommand. rewrite Hstart. mnext.
  destruct (add_loop_spec eles o unused card regs u Hrep Hok) as (o1 & card1 & n & -> & Hn & Hr & Hz & Hc). mnext.
  assert (Hch : (u + n =? 0) = negb (bool_decide (key = None ∨ add_all regs eles ≠ regs))).
  { destruct (bool_decide (key = None)) eqn:Ek; [apply bool_decide_eq_true in Ek|apply bool_decide_eq_false in Ek]; case_bool_decide as E; cbn; subst u.
    - lia.
    - tauto.
    - apply Z.eqb_neq. intros E0. destruct E as [|E]; [done|]. apply E, Hz. lia.
    - apply Z.eqb_eq. rewrite Z.add_0_l. apply Hz. destruct (decide (add_all regs eles = regs)); [done|tauto]. }
  rewrite Hch, negb_involutive. case_bool_decide as E; cbv zeta iota.
  - destruct (inval_spec _ _ _ _ Hr) as (m & -> & Hm). mnext. exists (set_buf o1 m), (inv_card card1), (u + n). split; [done|]. split; [done|].
    destruct (rep_len _ _ _ _ Hr) as [_ Hh]. split; [by eapply valid_inv_card|]. cbn in Hch. destruct (bool_decide (key = None)); lia.
  - exists o1, card1, 0. split; [done|]. split; [done|]. split; [|done]. apply Hc, Hz. destruct (decide (add_all regs eles = regs)); [done|tauto].
Qed.

(** ** Merging *)

Definition max_ok (mx : list Z) : Prop := len mx = 16384 ∧ Forall (λ v, 0 <= v < 64) mx.

Lemma max_at_spec a x b v : 0 <= v < 256 → max_at (a ++ x :: b) (len a) v = Some (a ++ Z.max x v :: b).
Proof.
  intros Hv. unfold max_at. rewrite load8_app by done. mnext. destruct (Z.gtb_spec v x).
  - rewrite store8_app, is_byte_wrap, Z.max_r by (done || lia). done.
  - by rewrite Z.max_l by lia.
Qed.

Lemma merge_dense_spec regs0 regs : ∀ a b m, (∀ i v, (regs0 ++ regs) !! Z.to_nat i = Some v → 0 <= i < 16384 → HLL_DENSE_GET_REGISTER 32 m HLL_HDR_SIZE i = Some v) →
  Forall (λ v, 0 <= v < 64) regs → length a = length regs0 → length b = length regs → len (regs0 ++ regs) = 16384 →
  merge_dense_loop (length regs) m (len a) (a ++ b) = Some (a ++ zip_with Z.max b regs).
Proof.
  revert regs0. induction regs as [|v regs IH]; intros regs0 a b m Hget Hr Ha Hb Hl; [by destruct b|].
  destruct b as [|x b]; [done|]. apply Forall_cons in Hr as [Hv Hr]. cbn [length merge_dense_loop zip_with].
  rewrite (Hget (len a) v) by (first [rewrite Nat2Z.id, Ha; by apply list_lookup_middle|rewrite length_app in Hl; cbn [length] in Hl; lia]). mnext.
  rewrite max_at_spec by lia. mnext. replace (len a + 1) with (len (a ++ [Z.max x v])) by len_lia.
  change (a ++ Z.max x v :: b) with (a ++ [Z.max x v] ++ b). rewrite app_assoc.
  rewrite (IH (regs0 ++ [v])); [by rewrite <- app_assoc|by rewrite <- app_assoc|done|rewrite !length_app; cbn; lia|by injection Hb|by rewrite <- app_assoc].
Qed.

Lemma max_run_spec b1 : ∀ a b v, 0 <= v < 256 → len (a ++ b1) <= 16384 →
  max_run (length b1) (a ++ b1 ++ b) (len a) v = Some (a ++ map (λ x, Z.max x v) b1 ++ b).
Proof.
  induction b1 as [|x b1 IH]; intros a b v Hv Hl; [done|]. cbn [length max_run map app]. rewrite max_at_spec by done. mnext.
  rewrite length_app in Hl. cbn [length] in Hl. rewrite s32_small by lia. replace (len a + 1) with (len (a ++ [Z.max x v])) by len_lia.
  change (a ++ Z.max x v :: b1 ++ b) with (a ++ [Z.max x v] ++ b1 ++ b). rewrite app_assoc, IH by (done || rewrite !length_app; cbn [length]; lia).
  by rewrite <- app_assoc.
Qed.

Lemma zip_replicate b v n : length b = n → zip_with Z.max b (replicate n v) = map (λ x, Z.max x v) b.
Proof. intros <-. induction b as [|x b IH]; [done|]. cbn. by rewrite IH. Qed.

Lemma map_max0 b : Forall (λ v, 0 <= v < 64) b → map (λ x, Z.max x 0) b = b.
Proof. induction 1; [done|]. cbn. f_equal; [lia|done]. Qed.

Lemma merge_sparse_spec ops : ∀ fuel pre post a b, Forall op_ok ops → (length ops <= fuel)%nat → Forall (λ v, 0 <= v < 64) b →
  length b = length (ops_regs ops) → len (a ++ b) = 16384 →
  merge_sparse_loop fuel (pre ++ ops_bytes ops ++ post) (len (pre ++ ops_bytes ops)) (len pre) (len a) (a ++ b) =
    Some (16384, a ++ zip_with Z.max b (ops_regs ops)).
Proof.
  induction ops as [|op ops IH]; intros fuel pre post a b Hops Hf Hb Hlb Hl.
  { destruct b; [|done]. unfold ops_bytes. change (zip_with Z.max [] _) with (@nil Z). cbn [map concat]. rewrite !app_nil_r in *.
    destruct fuel; cbn [merge_sparse_loop]; by rewrite Z.ltb_irrefl, Hl. }
  apply Forall_cons in Hops as [Hop Hops]. destruct fuel as [|fuel]; [cbn in Hf; lia|]. cbn [length] in Hf.
  pose proof (op_len_pos op Hop) as Hpos. pose proof (len_op_regs op Hop) as Hlop. pose proof (len_op_bytes op) as Hlbs. rewrite ops_regs_cons, length_app in Hlb.
  rewrite <- (take_drop (length (op_regs op)) b) in *. set (b1 := take _ b) in *. set (b2 := drop _ b) in *.
  assert (Hl1 : length b1 = length (op_regs op)) by (unfold b1; rewrite length_take; rewrite length_app in Hlb; unfold b1, b2 in Hlb; rewrite length_take, length_drop in Hlb; lia).
  clearbody b1 b2. apply Forall_app in Hb as [Hb1 Hb2]. rewrite length_app in Hlb.
  cbn [merge_sparse_loop]. rewrite (ops_bytes_cons op), <- app_assoc.
  destruct (op_decode op pre (ops_bytes ops ++ post) Hop) as (x & Hx & Hd).
  replace (len pre <? len (pre ++ op_bytes op ++ ops_bytes ops)) with true by (rewrite !length_app; destruct op; cbn [op_bytes length]; lia). rewrite Hx. mnext.
  assert (Hsum : len a + op_len op <= 16384) by (rewrite !length_app in Hl; lia).
  assert (Hz : zip_with Z.max (b1 ++ b2) (ops_regs (op :: ops)) = map (λ y, Z.max y (op_val op)) b1 ++ zip_with Z.max b2 (ops_regs ops)).
  { rewrite ops_regs_cons, zip_with_app by done. f_equal. unfold op_regs. apply zip_replicate. rewrite Hl1. unfold op_regs. by rewrite length_replicate. }
  assert (Hnext : ∀ p', p' = len pre + len (op_bytes op) →
    merge_sparse_loop fuel (pre ++ op_bytes op ++ ops_bytes ops ++ post) (len (pre ++ op_bytes op ++ ops_bytes ops)) p' (s32 (len a + op_len op))
      (a ++ map (λ y, Z.max y (op_val op)) b1 ++ b2) = Some (16384, a ++ zip_with Z.max (b1 ++ b2) (ops_regs (op :: ops)))).
  { intros p' ->. pose proof (IH fuel (pre ++ op_bytes op) post (a ++ map (λ y, Z.max y (op_val op)) b1) b2 Hops ltac:(lia) Hb2 ltac:(lia)) as Hr.
    rewrite <- !app_assoc in Hr. rewrite Hz, <- Hr by (rewrite !length_app, length_map in *; lia). f_equal; [rewrite length_app; lia|].
    rewrite s32_small, length_app, length_map by lia. lia. }
  clear IH Hz. destruct op as [n|n|v n]; cbn [decodes] in Hd; [destruct Hd as (-> & _ & _ & ->)|destruct Hd as (-> & -> & _ & ->); mnext|].
  - cbn [op_val] in Hnext. rewrite map_max0 in Hnext by done. by apply Hnext.
  - cbn [op_val] in Hnext. rewrite map_max0 in Hnext by done. by apply Hnext.
  - destruct Hd as (-> & -> & _ & -> & ->). cbv iota zeta. cbn in Hop. cbn [op_len op_val] in *.
    change HLL_REGISTERS with 16384. replace (n + len a >? 16384) with false by lia. replace (Z.to_nat n) with (length b1) by lia.
    rewrite max_run_spec by (rewrite ?length_app; lia). mnext. by apply Hnext.
Qed.

Lemma merge_value mx o unused card regs : max_ok mx → hll_rep o unused card regs →
  hllMerge mx o = Some (zip_with Z.max mx regs, true).
Proof.
  intros [Hl Hm] Hrep. unfold hllMerge, sdslen. destruct Hrep as [(Hh & body & Hr & Hp)|(Hh & Hlr & ops & Ho & Hregs & Hr)];
    pose proof Hr as (_ & Hlen & rest & Hb); rewrite Hb, <- app_assoc, header_load; mnext.
  - change (HLL_DENSE =? HLL_DENSE) with true. cbv iota. pose proof Hp as (_ & _ & Hlr & _).
    replace (Z.to_nat HLL_REGISTERS) with (length regs) by (change HLL_REGISTERS with 16384; lia).
    pose proof (length_header HLL_DENSE _ _ Hh) as Hlh.
    rewrite (merge_dense_spec [] regs [] mx); [done|..|lia|done].
    + intros i v Hi Hr0. change HLL_HDR_SIZE with (Z.of_nat 16). rewrite <- Hlh. eapply packed_get; [by left|done..].
    + apply Forall_forall. intros v Hv. by eapply packed_range.
    + done.
  - change (HLL_SPARSE =? HLL_DENSE) with false. cbv iota. pose proof (length_header HLL_SPARSE _ _ Hh) as Hlh. rewrite Hlen.
    change HLL_HDR_SIZE with (Z.of_nat 16). rewrite <- Hlh. pose proof (ops_size ops Ho).
    pose proof (merge_sparse_spec ops (length (hll_header HLL_SPARSE unused card ++ ops_bytes ops ++ 0 :: rest)) (hll_header HLL_SPARSE unused card) (0 :: rest) [] mx Ho) as Hms.
    cbn [app] in Hms. change (len []) with 0 in Hms. rewrite Hms; [mnext; by rewrite Hregs|rewrite !length_app; lia|done|rewrite Hregs; lia|done].
Qed.

(** ** PFMERGE *)

Definition keyed (key : option hll_value) (regs : list Z) : Prop := ∃ unused card, key_rep key unused card regs.
Definition merged (regs : list Z) (others : list (list Z)) : list Z := foldl (zip_with Z.max) regs others.

Lemma rep_range o unused card regs : hll_rep o unused card regs → max_ok regs.
Proof.
  intros Hrep. destruct (rep_len _ _ _ _ Hrep) as [Hl _]. split; [done|]. apply Forall_forall. intros v Hv.
  destruct Hrep as [(_ & body & _ & Hp)|(_ & _ & ops & Ho & Hr & _)]; [by eapply packed_range|].
  rewrite <- Hr in Hv. pose proof (ops_range ops v Ho Hv). lia.
Qed.

Lemma zero_ok : max_ok zero_regs.
Proof. split; [done|]. apply Forall_replicate. lia. Qed.

Lemma keyed_ok key regs : keyed key regs → max_ok regs.
Proof.
  intros (u & c & Hk). destruct key as [[o| |]|]; cbn in Hk; try done; [by eapply rep_range|]. destruct Hk as (_ & _ & ->). apply zero_ok.
Qed.

Lemma max_ok_zip a b : max_ok a → max_ok b → max_ok (zip_with Z.max a b).
Proof.
  intros [Hla Ha] [Hlb Hb]. split; [rewrite length_zip_with; lia|]. eapply Forall_zip_with_fst; [exact Ha|].
  eapply Forall_impl; [exact Hb|]. cbn. lia.
Qed.

Lemma zip_max_comm a b : zip_with Z.max a b = zip_with Z.max b a.
Proof. revert b. induction a as [|x a IH]; intros [|y b]; cbn; [done..|]. by rewrite IH, Z.max_comm. Qed.
Lemma zip_max_assoc a b c : zip_with Z.max (zip_with Z.max a b) c = zip_with Z.max a (zip_with Z.max b c).
Proof. revert b c. induction a as [|x a IH]; intros [|y b] [|z c]; cbn; [done..|]. by rewrite IH, Z.max_assoc. Qed.
Lemma zip_max_idem a : zip_with Z.max a a = a.
Proof. induction a as [|x a IH]; cbn; [done|]. by rewrite IH, Z.max_id. Qed.

Lemma zip_zero_r a : max_ok a → zip_with Z.max a zero_regs = a.
Proof. intros [Hl Ha]. unfold zero_regs. rewrite zip_replicate by lia. by apply map_max0. Qed.
Lemma zip_zero_l a : max_ok a → zip_with Z.max zero_regs a = a.
Proof. intros Ha. rewrite zip_max_comm. by apply zip_zero_r. Qed.

Lemma merge_keys_spec keys regss : Forall2 keyed keys regss → ∀ mx ud, max_ok mx →
  ∃ ud', merge_keys keys mx ud = Some (inl (merged mx regss, ud')) ∧ max_ok (merged mx regss).
Proof.
  induction 1 as [|key regs keys regss Hk Hall IH]; intros mx ud Hm; cbn [merge_keys]; [by exists ud|].
  assert (Hm' : max_ok (zip_with Z.max mx regs)) by (apply max_ok_zip; [done|by eapply keyed_ok]).
  destruct Hk as (unused & card & Hk). destruct key as [[o| |]|]; cbn in Hk; try done.
  - rewrite (is_hll_spec _ _ _ _ Hk). mnext.
    assert (∃ e, load8 (s_buf o) off_encoding = Some e) as [e ->].
    { destruct (rep_len _ _ _ _ Hk) as [_ Hh]. destruct (rep_card _ _ _ card _ Hk Hh) as (enc & tl & -> & _). by eexists. }
    mnext. rewrite (merge_value _ _ _ _ _ Hm Hk). mnext. cbn [negb]. apply IH, Hm'.
  - destruct Hk as (_ & _ & ->). rewrite zip_zero_r in Hm' by done. destruct (IH mx ud Hm) as (ud' & -> & Hok).
    exists ud'. cbn. by rewrite zip_zero_r.
Qed.

(** hllDenseSet or hllSparseSet, by the encoding. *)
Lemma set_any o unused card regs index count old : hll_rep o unused card regs → 0 <= index < 16384 →
  regs !! Z.to_nat index = Some old → 1 <= count < 64 →
  ∃ enc o' card' r, load8 (s_buf o) off_encoding = Some enc ∧
    (if enc =? HLL_DENSE then hllDenseSet o index count
     else if enc =? HLL_SPARSE then hllSparseSet maxb o index count else Some (o, 0)) = Some (o', r) ∧
    hll_rep o' unused card' (<[Z.to_nat index := Z.max old count]> regs).
Proof.
  intros [Hd|Hs] Hi Hold Hc.
  - pose proof Hd as (_ & body & (_ & _ & rest & Hb) & _). destruct (dense_set_spec o _ _ _ index count old Hd Hi Hold) as (o' & He & Ho'); [lia|].
    exists HLL_DENSE, o', card, (if count >? old then 1 else 0). rewrite Hb, <- app_assoc, header_load. split; [done|]. split; [done|by left].
  - pose proof Hs as (_ & _ & ops & _ & _ & _ & _ & rest & Hb). destruct (sparse_set_spec maxb o _ _ _ index count old Hs Hi Hold Hc) as (o' & card' & He & Ho' & _).
    exists HLL_SPARSE, o', card', (if count >? old then 1 else 0). rewrite Hb, <- app_assoc, header_load. by split_and!.
Qed.

Lemma hll_write_spec vs : ∀ o unused card a b, hll_rep o unused card (a ++ b) → length b = length vs → Forall (λ v, 0 <= v < 64) vs →
  ∃ o' card', write_registers maxb vs (len a) o = Some o' ∧ hll_rep o' unused card' (a ++ zip_with Z.max b vs).
Proof.
  induction vs as [|v vs IH]; intros o unused card a b Hrep Hl Hv; [destruct b; [by exists o, card|done]|].
  destruct b as [|x b]; [done|]. apply Forall_cons in Hv as [Hv Hvs]. cbn [write_registers zip_with]. destruct (rep_range _ _ _ _ Hrep) as [Hlen Hr].
  assert (Hx : 0 <= x) by (apply Forall_app in Hr as [_ [? _]%Forall_cons]; lia). injection Hl as Hl.
  assert (Hcons : ∀ y (l : list Z), a ++ y :: l = (a ++ [y]) ++ l) by (intros; by rewrite <- app_assoc).
  assert (Hlx : ∀ y : Z, len a + 1 = len (a ++ [y])) by (intros; len_lia).
  destruct (Z.eqb_spec v 0) as [->|Hne].
  - rewrite Z.max_l by lia. rewrite (Hlx x), (Hcons x (zip_with _ _ _)). rewrite Hcons in Hrep. by apply IH with card.
  - destruct (set_any o unused card _ (len a) v x Hrep) as (enc & o1 & card1 & r & -> & Hset & Hrep1);
      [rewrite length_app in Hlen; cbn [length] in Hlen; lia|rewrite Nat2Z.id; by apply list_lookup_middle|lia|]. mnext. rewrite Hset. mnext.
    rewrite Nat2Z.id, insert_app_r_alt, Nat.sub_diag in Hrep1 by lia. cbn in Hrep1. rewrite (Hlx (Z.max x v)), (Hcons _ (zip_with _ _ _)).
    rewrite Hcons in Hrep1. by apply IH with card1.
Qed.

Lemma merged_zip a regs others : merged (zip_with Z.max a regs) others = zip_with Z.max a (merged regs others).
Proof. revert regs. induction others as [|r others IH]; intros regs; [done|]. cbn. rewrite zip_max_assoc. apply IH. Qed.

Lemma merged_grows regs others : zip_with Z.max regs (merged regs others) = merged regs others.
Proof. by rewrite <- merged_zip, zip_max_idem. Qed.

Lemma to_dense_any o unused card regs : hll_rep o unused card regs → ∃ o', hllSparseToDense o = Some (o', true) ∧ hll_rep o' unused card regs.
Proof.
  intros [Hd|Hs].
  - exists o. pose proof Hd as (_ & body & (_ & _ & rest & Hb) & _). unfold hllSparseToDense. rewrite Hb, <- app_assoc, header_load. split; [done|by left].
  - destruct (to_dense_sparse _ _ _ _ Hs) as (o' & -> & Ho'). exists o'. split; [done|by left].
Qed.

Lemma pfmerge_spec own dest unused card regs srcs others : key_rep dest unused card regs → Forall2 keyed srcs others →
  ∃ o' card', pfmergeCommand maxb own dest srcs = Some (mk_outcome (Some (HSds o')) ReplyOk 1) ∧
    hll_rep o' unused card' (merged regs others) ∧ valid_card card' = false.
Proof.
  intros Hdest Hsrcs. assert (Hkd : keyed dest regs) by by exists unused, card. pose proof (keyed_ok _ _ Hkd) as Hok.
  unfold pfmergeCommand. destruct (merge_keys_spec (dest :: srcs) (regs :: others) (List.Forall2_cons _ _ Hkd Hsrcs) empty_max false) as (ud & -> & Hm);
    [exact zero_ok|]. mnext.
  change (merged empty_max (regs :: others)) with (merged (zip_with Z.max zero_regs regs) others) in *. rewrite zip_zero_l in * by done.
  assert (∃ o, match dest with None => createHLLObject | Some (HSds s) => dbUnshareStringValue own s | Some _ => None end = Some o ∧
    hll_rep o unused card regs) as (o & -> & Hrep).
  { destruct dest as [[s| |]|]; cbn in Hdest; try done; [by apply unshare_spec|]. destruct Hdest as (-> & -> & ->). apply create_spec. }
  mnext. assert (∃ o1, (if ud then hllSparseToDense o else Some (o, true)) = Some (o1, true) ∧ hll_rep o1 unused card regs) as (o1 & -> & Hrep1).
  { destruct ud; [by apply to_dense_any|by exists o]. }
  mnext. cbn [negb]. destruct Hm as [Hml Hmf]. destruct (hll_write_spec (merged regs others) o1 unused card [] regs) as (o2 & card2 & Hw & Hrep2);
    [done|destruct Hok; lia|done|]. change (len []) with 0 in Hw. rewrite Hw. mnext. cbn [app] in Hrep2. rewrite merged_grows in Hrep2.
  destruct (inval_spec _ _ _ _ Hrep2) as (m & -> & Hr). mnext. exists (set_buf o2 m), (inv_card card2). split; [done|]. split; [done|].
  destruct (rep_len _ _ _ _ Hrep2) as [_ Hh]. by eapply valid_inv_card.
Qed.
End commands.
