(* ===== verification/HllCount.v ===== *)
(** HyperLogLog: counting.  The histogram of the registers is computed by three loops,
    on packed registers, on opcodes and on bytes; each is the number of registers with
    each value.  So a count depends on the registers and not on how they are stored,
    and the cardinality cached in a value is never stale. *)
From S2P Require Import Prelude Bits Endian UtilText Sds SdsTheorems Hll HllSpec HllSparse HllTheorems.

(** ** Histograms *)

(** [h] with the registers [regs] counted. *)
Definition counts (h regs : list Z) : list Z :=
  imap (λ v n, n + Z.of_nat (length (filter (λ r, r = Z.of_nat v) regs))) h.
Definition histogram (regs : list Z) : list Z := counts empty_histo regs.

Lemma counts_app h a b : counts h (a ++ b) = counts (counts h a) b.
Proof.
  apply list_eq. intros i. unfold counts. rewrite !list_lookup_imap. destruct (h !! i); [|done]. cbn. f_equal.
  rewrite filter_app, length_app. lia.
Qed.

Lemma counts_nil h : counts h [] = h.
Proof. apply list_eq. intros i. unfold counts. rewrite list_lookup_imap. destruct (h !! i); [|done]. cbn. f_equal. lia. Qed.

(** No entry is above the number of registers counted so far. *)
Definition histo_ok (B : Z) (h : list Z) : Prop := len h = 64 ∧ Forall (λ n, 0 <= n <= B) h.

Lemma length_counts h regs : length (counts h regs) = length h.
Proof. apply length_imap. Qed.

Lemma counts_ok B h regs : histo_ok B h → histo_ok (B + len regs) (counts h regs).
Proof.
  intros [Hl Hh]. split; [by rewrite length_counts|]. apply Forall_lookup_2. intros i x. unfold counts. rewrite list_lookup_imap.
  destruct (h !! i) as [n|] eqn:E; [|done]. cbn. intros [= <-]. apply (Forall_lookup_1 _ _ _ _ Hh) in E.
  pose proof (length_filter (λ r, r = Z.of_nat i) regs). lia.
Qed.

Lemma filter_replicate (v : Z) k w : filter (λ r, r = w) (replicate k v) = if decide (v = w) then replicate k v else [].
Proof.
  induction k as [|k IH]; [by destruct (decide _)|]. cbn [replicate]. destruct (decide (v = w)).
  - rewrite filter_cons_True by done. by rewrite IH.
  - by rewrite filter_cons_False.
Qed.

Lemma histo_add_spec B h v k : histo_ok B h → 0 <= v < 64 → 0 <= k → B + k < 2 ^ 31 →
  histo_add h v k = Some (counts h (replicate (Z.to_nat k) v)).
Proof.
  intros [Hl Hh] Hv Hk Hb. unfold histo_add. replace (_ && _) with true by lia. f_equal. apply list_eq. intros i. unfold counts.
  rewrite list_lookup_imap. rewrite filter_replicate. destruct (decide (i = Z.to_nat v)) as [->|Hne].
  - rewrite list_lookup_alter_eq, Z2Nat.id by lia. rewrite decide_True by done. destruct (h !! Z.to_nat v) as [n|] eqn:E; [|done]. cbn.
    apply (Forall_lookup_1 _ _ _ _ Hh) in E. rewrite s32_small, length_replicate by lia. f_equal. lia.
  - rewrite list_lookup_alter_ne, decide_False by lia. destruct (h !! i); [|done]. cbn. f_equal. lia.
Qed.

Lemma histo_all_spec regs : ∀ B h, histo_ok B h → Forall (λ v, 0 <= v < 64) regs → B + len regs < 2 ^ 31 →
  histo_all h regs = Some (counts h regs).
Proof.
  induction regs as [|r regs IH]; intros B h Hh Hr Hb; cbn [histo_all]; [by rewrite counts_nil|]. apply Forall_cons in Hr as [Hr Hrs]. cbn [length] in Hb.
  rewrite (histo_add_spec B) by (done || lia). mnext. change (replicate (Z.to_nat 1) r) with [r].
  rewrite (IH (B + 1)), <- counts_app; [done|exact (counts_ok B h [r] Hh)|done|lia].
Qed.

(** ** Packed registers *)

Lemma land_low x y k : 6 <= k → Z.land (Z.lor x (Z.shiftl y k)) 63 = Z.land x 63.
Proof.
  intros Hk. bits t. rewrite !Z.land_spec, Z.lor_spec, Z.shiftl_spec, testbit_63 by done. destruct (Z.ltb_spec t 6); [|by rewrite !andb_false_r].
  by rewrite (Z.testbit_neg_r y), orb_false_r by lia.
Qed.

Lemma le_val_split a b : le_val (a ++ b) = le_val a + 2 ^ (8 * len a) * le_val b.
Proof.
  induction a as [|x a IH]; [change (le_val b = 0 + 1 * le_val b); lia|]. cbn [app]. rewrite !le_val_cons, IH. cbn [length].
  replace (8 * Z.of_nat (S (length a))) with (8 + 8 * len a) by lia. rewrite Z.pow_add_r by lia. lia.
Qed.

Lemma reg_skip a bs i : bytes_ok a → length a = 12%nat → 0 <= i → reg (a ++ bs) (16 + i) = reg bs i.
Proof.
  intros Ha Hl Hi. unfold reg. f_equal. rewrite le_val_split, Hl. replace (6 * (16 + i)) with (96 + 6 * i) by lia.
  rewrite <- Z.shiftr_shiftr by lia. f_equal. rewrite Z.shiftr_div_pow2 by lia. pose proof (le_val_range a Ha) as Hr. rewrite Hl in Hr.
  change (8 * Z.of_nat 12) with 96 in Hr. rewrite (Z.mul_comm (2 ^ _)), Z.div_add, Z.div_small by (done || lia). done.
Qed.

Lemma group_spec pre g x tl post : length g = 12%nat → bytes_ok (g ++ x :: tl) →
  dense_group (pre ++ (g ++ x :: tl) ++ post) (len pre) = Some (map (reg (g ++ x :: tl)) (seqZ 0 16)).
Proof.
  intros Hg Hb. destruct g as [|b0 [|b1 [|b2 [|b3 [|b4 [|b5 [|b6 [|b7 [|b8 [|b9 [|b10 [|b11 [|]]]]]]]]]]]]]; try done.
  set (bs := [b0; b1; b2; b3; b4; b5; b6; b7; b8; b9; b10; b11] ++ x :: tl) in *. unfold dense_group.
  rewrite <- (Z.add_0_r (len pre)) at 1. rewrite (load8_block pre bs post 0 b0) by done. mnext.
  rewrite (load8_block pre bs post 1 b1) by done. mnext. rewrite (load8_block pre bs post 2 b2) by done. mnext.
  rewrite (load8_block pre bs post 3 b3) by done. mnext. rewrite (load8_block pre bs post 4 b4) by done. mnext.
  rewrite (load8_block pre bs post 5 b5) by done. mnext. rewrite (load8_block pre bs post 6 b6) by done. mnext.
  rewrite (load8_block pre bs post 7 b7) by done. mnext. rewrite (load8_block pre bs post 8 b8) by done. mnext.
  rewrite (load8_block pre bs post 9 b9) by done. mnext. rewrite (load8_block pre bs post 10 b10) by done. mnext.
  rewrite (load8_block pre bs post 11 b11) by done. mnext. f_equal.
  change (seqZ 0 16) with [0; 1; 2; 3; 4; 5; 6; 7; 8; 9; 10; 11; 12; 13; 14; 15]. cbn [map].
  rewrite (reg_two bs 0 0 0 b0 b1), (reg_two bs 1 0 6 b0 b1), (reg_two bs 2 1 4 b1 b2), (reg_two bs 3 2 2 b2 b3) by done.
  rewrite (reg_two bs 4 3 0 b3 b4), (reg_two bs 5 3 6 b3 b4), (reg_two bs 6 4 4 b4 b5), (reg_two bs 7 5 2 b5 b6) by done.
  rewrite (reg_two bs 8 6 0 b6 b7), (reg_two bs 9 6 6 b6 b7), (reg_two bs 10 7 4 b7 b8), (reg_two bs 11 8 2 b8 b9) by done.
  rewrite (reg_two bs 12 9 0 b9 b10), (reg_two bs 13 9 6 b9 b10), (reg_two bs 14 10 4 b10 b11), (reg_two bs 15 11 2 b11 x) by done.
  change (8 - 0) with 8. change (8 - 2) with 6. change (8 - 4) with 4. change (8 - 6) with 2.
  rewrite !Z.shiftr_0_r, !(land_low _ _ 8), !(land_low _ _ 6) by lia. done.
Qed.

Lemma regs_range bs l : Forall (λ v, 0 <= v < 64) (map (reg bs) l).
Proof. apply Forall_map, Forall_true. intros i. apply reg_range. Qed.

Lemma dense_loop_spec (n : nat) : ∀ pre bs post h B, len bs = 12 * Z.of_nat n + 1 → bytes_ok bs → histo_ok B h → B + 16 * Z.of_nat n < 2 ^ 31 →
  dense_histo_loop n (pre ++ bs ++ post) (len pre) h = Some (counts h (map (reg bs) (seqZ 0 (16 * Z.of_nat n)))).
Proof.
  induction n as [|n IH]; intros pre bs post h B Hl Hb Hh HB; cbn [dense_histo_loop].
  { change (seqZ 0 (16 * Z.of_nat 0)) with (@nil Z). by rewrite counts_nil. }
  rewrite <- (take_drop 12 bs) in *. set (g := take 12 bs) in *. set (bs' := drop 12 bs) in *.
  assert (Hg : length g = 12%nat) by (unfold g; rewrite length_take; rewrite length_app in Hl; unfold g, bs' in Hl; rewrite length_take, length_drop in Hl; lia).
  clearbody g bs'. rewrite length_app in Hl. destruct bs' as [|x tl]; [cbn in Hl; lia|].
  rewrite group_spec by done. mnext. rewrite (histo_all_spec _ B) by (first [done|apply regs_range|rewrite length_map, length_seqZ; lia]). mnext.
  replace (len pre + 12) with (len (pre ++ g)) by (rewrite length_app; lia).
  replace (pre ++ (g ++ x :: tl) ++ post) with ((pre ++ g) ++ (x :: tl) ++ post) by by rewrite <- !app_assoc.
  apply Forall_app in Hb as [Hbg Hb].
  rewrite (IH _ _ _ _ (B + 16)); [|lia|done|exact (counts_ok B h (map (reg (g ++ x :: tl)) (seqZ 0 16)) Hh)|lia].
  rewrite <- counts_app. do 2 f_equal. replace (16 * Z.of_nat (S n)) with (16 + 16 * Z.of_nat n) by lia.
  rewrite (seqZ_app 0 16), map_app by lia. f_equal. rewrite <- (fmap_add_seqZ 16 0), map_map. apply map_ext_in. intros i Hi%list_elem_of_In%elem_of_seqZ.
  symmetry. apply reg_skip; (done || lia).
Qed.

(** ** Opcodes and bytes *)

Lemma sparse_loop_spec ops : ∀ fuel pre post idx h B, Forall op_ok ops → (length ops <= fuel)%nat → histo_ok B h →
  0 <= B → 0 <= idx → B + len (ops_regs ops) < 2 ^ 31 → idx + len (ops_regs ops) < 2 ^ 31 →
  sparse_histo_loop fuel (pre ++ ops_bytes ops ++ post) (len (pre ++ ops_bytes ops)) (len pre) idx h =
    Some (idx + len (ops_regs ops), counts h (ops_regs ops)).
Proof.
  induction ops as [|op ops IH]; intros fuel pre post idx h B Hops Hf Hh H0 Hi HB Hidx.
  { unfold ops_bytes, ops_regs. cbn [map concat]. rewrite counts_nil, app_nil_r, Z.add_0_r. destruct fuel; cbn [sparse_histo_loop]; by rewrite Z.ltb_irrefl. }
  apply Forall_cons in Hops as [Hop Hops]. destruct fuel as [|fuel]; [cbn in Hf; lia|]. cbn [length] in Hf.
  pose proof (op_len_pos op Hop) as Hpos. pose proof (len_op_regs op Hop) as Hlop. rewrite (ops_regs_cons op), length_app in HB, Hidx. rewrite (ops_regs_cons op).
  cbn [sparse_histo_loop]. rewrite (ops_bytes_cons op), <- app_assoc. pose proof (len_op_bytes op) as Hlb.
  destruct (op_decode op pre (ops_bytes ops ++ post) Hop) as (x & Hx & Hd).
  replace (len pre <? len (pre ++ op_bytes op ++ ops_bytes ops)) with true by (rewrite !length_app; destruct op; cbn [op_bytes length]; lia). rewrite Hx. mnext.
  assert (Hadd : histo_add h (op_val op) (op_len op) = Some (counts h (op_regs op))).
  { apply (histo_add_spec B); [done| |lia..]. pose proof (op_range op Hop). lia. }
  assert (Hnext : ∀ p', p' = len pre + len (op_bytes op) →
    sparse_histo_loop fuel (pre ++ op_bytes op ++ ops_bytes ops ++ post) (len (pre ++ op_bytes op ++ ops_bytes ops)) p' (s32 (idx + op_len op))
      (counts h (op_regs op)) = Some (idx + len (op_regs op ++ ops_regs ops), counts h (op_regs op ++ ops_regs ops))).
  { intros p' ->. rewrite s32_small by lia.
    pose proof (IH fuel (pre ++ op_bytes op) post (idx + op_len op) (counts h (op_regs op)) (B + op_len op) Hops ltac:(lia)) as Hr.
    rewrite <- !app_assoc in Hr. rewrite counts_app. replace (len pre + len (op_bytes op)) with (len (pre ++ op_bytes op)) by (rewrite length_app; lia).
    rewrite Hr; [do 2 f_equal; rewrite length_app; lia|rewrite <- Hlop; by apply counts_ok|lia..]. }
  clear IH. destruct op as [n|n|v n]; cbn [decodes] in Hd; cbn [op_val op_len] in Hadd.
  - destruct Hd as (-> & _ & _ & ->). cbv zeta. rewrite Hadd. mnext. by apply Hnext.
  - destruct Hd as (-> & -> & _ & ->). mnext. rewrite Hadd. mnext. by apply Hnext.
  - destruct Hd as (-> & -> & _ & -> & ->). cbv zeta. rewrite Hadd. mnext. by apply Hnext.
Qed.

Lemma raw_loop_spec (n : nat) : ∀ pre bs h B, len bs = 8 * Z.of_nat n → Forall (λ v, 0 <= v < 64) bs → histo_ok B h → 0 <= B → B + len bs < 2 ^ 31 →
  raw_histo_loop n (pre ++ bs) (len pre) h = Some (counts h bs).
Proof.
  induction n as [|n IH]; intros pre bs h B Hl Hb Hh H0 HB; cbn [raw_histo_loop].
  { destruct bs; [by rewrite counts_nil|cbn in Hl; lia]. }
  rewrite <- (take_drop 8 bs) in *. set (g := take 8 bs) in *. set (bs' := drop 8 bs) in *.
  assert (Hg : length g = 8%nat) by (unfold g; rewrite length_take; rewrite length_app in Hl; unfold g, bs' in Hl; rewrite length_take, length_drop in Hl; lia).
  clearbody g bs'. rewrite length_app in Hl, HB. apply Forall_app in Hb as [Hbg Hb]. rewrite load_app by lia. mnext.
  assert ((if bool_decide (g = replicate 8 0) then histo_add h 0 8 else histo_all h g) = Some (counts h g)) as ->.
  { case_bool_decide as E; [rewrite E; apply (histo_add_spec B); (done || lia)|apply (histo_all_spec _ B); (done || lia)]. }
  mnext. rewrite app_assoc. replace (len pre + 8) with (len (pre ++ g)) by (rewrite length_app; lia).
  rewrite (IH _ _ _ (B + 8)); [by rewrite <- counts_app|lia|done| |lia..].
  replace 8 with (len g) by lia. by apply counts_ok.
Qed.

Lemma empty_ok : histo_ok 0 empty_histo.
Proof. split; [done|]. apply Forall_replicate. lia. Qed.

Lemma dense_histo_spec pre body regs rest : packed body regs →
  hllDenseRegHisto (pre ++ body ++ 0 :: rest) (len pre) empty_histo = Some (histogram regs).
Proof.
  intros (Hlb & Hbb & Hlr & Hreg). unfold hllDenseRegHisto. assert (Hn : ∃ n : nat, n = 1024%nat ∧ Z.of_nat n = 1024) by by exists 1024%nat.
  destruct Hn as (n & <- & Hn).
  pose proof (dense_loop_spec n pre (body ++ [0]) rest empty_histo 0) as Hd. rewrite <- app_assoc in Hd. change ([0] ++ rest) with (0 :: rest) in Hd.
  rewrite Hd; [|rewrite length_app, Nat2Z.inj_add, Hlb, Hn; done|apply Forall_app; split; [done|by repeat constructor]|exact empty_ok|lia].
  unfold histogram. do 2 f_equal. apply list_eq. intros i. rewrite list_lookup_fmap, Hn.
  change (16 * 1024) with 16384. destruct (decide (i < Z.to_nat 16384)%nat).
  - rewrite lookup_seqZ_lt by lia. cbn. rewrite reg_snoc0. rewrite <- Hreg by lia. f_equal. lia.
  - rewrite lookup_seqZ_ge, lookup_ge_None_2 by lia. done.
Qed.

Section counting.
Context `{Malloc} `{Host} (estimate : list Z → Z) (maxb : Z).

Lemma count_spec o unused card regs : hll_rep o unused card regs → hllCount estimate o = Some (estimate (histogram regs), false).
Proof.
  intros [(Hh & body & Hr & Hp)|(Hh & Hl & ops & Ho & Hregs & Hr)]; pose proof Hr as (_ & Hlen & rest & Hb); unfold hllCount, sdslen;
    rewrite Hb, <- app_assoc, header_load; mnext.
  - change (HLL_DENSE =? HLL_DENSE) with true. cbv iota. change HLL_HDR_SIZE with (Z.of_nat 16).
    rewrite <- (length_header HLL_DENSE _ _ Hh), (dense_histo_spec _ body regs) by done. done.
  - change (HLL_SPARSE =? HLL_DENSE) with false. change (HLL_SPARSE =? HLL_SPARSE) with true. cbv iota. unfold hllSparseRegHisto.
    pose proof (length_header HLL_SPARSE _ _ Hh) as Hlh. rewrite Hlen. change HLL_HDR_SIZE with (Z.of_nat 16).
    pose proof (ops_size ops Ho). rewrite <- Hregs in Hl. rewrite s32_small by (rewrite length_app, Hlh; lia). rewrite <- Hlh, Z.add_comm, Z.sub_add.
    rewrite (sparse_loop_spec ops _ _ _ _ _ 0); [|done|rewrite !length_app; lia|exact empty_ok|lia..].
    mnext. rewrite Z.add_0_l, Hl, Hregs. done.
Qed.

Lemma count_raw_spec mx : max_ok mx → hllCount_raw estimate mx = Some (estimate (histogram mx)).
Proof.
  intros [Hl Hm]. unfold hllCount_raw, hllRawRegHisto. rewrite (raw_loop_spec _ [] mx empty_histo 0); [done|..|lia|lia]; [|done|exact empty_ok].
  rewrite Hl. change (HLL_REGISTERS / 8) with 2048. lia.
Qed.

(** ** The commands on one key *)

Context (Hest : ∀ h, 0 <= estimate h < 2 ^ 64).

(** The cached cardinality, when it is valid, is that of the registers. *)
Definition cache_ok (card regs : list Z) : Prop := valid_card card = true → le_val card = estimate (histogram regs).

(** The registers a key stands for. *)
Definition rel (key : option hll_value) (st : option (list Z)) : Prop :=
  match key, st with
  | None, None => True
  | Some (HSds o), Some regs => ∃ unused card, hll_rep o unused card regs ∧ cache_ok card regs
  | _, _ => False
  end.

Lemma rel_key key st : rel key st → ∃ unused card, key_rep key unused card (default zero_regs st) ∧ (is_Some key → cache_ok card (default zero_regs st)).
Proof.
  destruct key as [[o| |]|], st as [regs|]; cbn; try done.
  - intros (u & c & Hr & Hc). exists u, c. by split.
  - intros _. eexists _, _. split; [done|]. by intros [].
Qed.

Lemma pfcount_spec own o unused card regs : hll_rep o unused card regs → cache_ok card regs →
  ∃ o' card' d, pfcount_one estimate own (Some (HSds o)) = Some (mk_outcome (Some (HSds o')) (ReplyInt (s64 (estimate (histogram regs)))) d) ∧
    hll_rep o' unused card' regs ∧ cache_ok card' regs.
Proof.
  intros Hrep Hc. pose proof (Hest (histogram regs)) as He. unfold pfcount_one. rewrite (is_hll_spec _ _ _ _ Hrep). mnext.
  destruct (unshare_spec own _ _ _ _ Hrep) as (o1 & -> & Hrep1). mnext. destruct (rep_len _ _ _ _ Hrep1) as [_ Hh].
  destruct (rep_card _ _ _ (le_bytes 8 (estimate (histogram regs))) _ Hrep1) as (enc & tl & Hb & Hrep2).
  { destruct Hh as (? & ? & ? & ?). split_and!; [done|apply length_le_bytes|done|apply le_bytes_ok]. }
  rewrite Hb, valid_cache_spec by done. mnext. destruct (valid_card card) eqn:Ev.
  - unfold read_card. rewrite header_card by done. mnext. mnext. exists o1, card, 0. rewrite Hc by done. by split_and!.
  - rewrite (count_spec _ _ _ _ Hrep1). mnext. rewrite store_card by (done || apply length_le_bytes). mnext.
    eexists _, _, 1. split; [done|]. split; [done|]. intros _. rewrite le_val_bytes. apply Z.mod_small. lia.
Qed.

Lemma pfcount_many_spec keys regss : Forall2 keyed keys regss →
  pfcount_many estimate keys = Some (ReplyInt (s64 (estimate (histogram (merged zero_regs regss))))).
Proof.
  intros Hk. unfold pfcount_many. destruct (merge_keys_spec keys regss Hk empty_max false zero_ok) as (ud & -> & Hm). mnext.
  rewrite count_raw_spec by done. by mnext.
Qed.

Inductive hll_cmd :=
  | PfAdd (eles : list (list Z))
  | PfCount
  | PfMerge (srcs : list (option hll_value)) (others : list (list Z)).

(** [others] are the registers of the sources. *)
Definition cmd_ok (cmd : hll_cmd) : Prop :=
  match cmd with
  | PfAdd eles => Forall ele_ok eles
  | PfCount => True
  | PfMerge srcs others => Forall2 keyed srcs others
  end.

Definition impl_step (own : bool) (cmd : hll_cmd) (key : option hll_value) : option outcome :=
  match cmd with
  | PfAdd eles => pfaddCommand maxb own key eles
  | PfCount => pfcount_one estimate own key
  | PfMerge srcs _ => pfmergeCommand maxb own key srcs
  end.

(** What a command promises: registers grow to the maximum, and a count is the
    estimate for the registers. *)
Definition spec_step (cmd : hll_cmd) (st : option (list Z)) : option (list Z) * hll_reply :=
  let regs := default zero_regs st in
  match cmd with
  | PfAdd eles => (Some (add_all regs eles), ReplyInt (if bool_decide (st = None ∨ add_all regs eles ≠ regs) then 1 else 0))
  | PfCount => (st, ReplyInt (match st with None => 0 | Some regs => s64 (estimate (histogram regs)) end))
  | PfMerge _ others => (Some (merged regs others), ReplyOk)
  end.

Lemma hll_step_refines own cmd key st : rel key st → cmd_ok cmd →
  ∃ key' d, impl_step own cmd key = Some (mk_outcome key' (spec_step cmd st).2 d) ∧ rel key' (spec_step cmd st).1.
Proof.
  intros Hrel Hok. destruct (rel_key key st Hrel) as (unused & card & Hk & Hc). destruct cmd as [eles| |srcs others]; cbn [impl_step spec_step fst snd].
  - destruct (pfadd_spec maxb own key unused card _ eles Hk Hok) as (o' & card' & d & -> & Hrep & Hcard).
    assert (Enone : bool_decide (key = None ∨ add_all (default zero_regs st) eles ≠ default zero_regs st) =
      bool_decide (st = None ∨ add_all (default zero_regs st) eles ≠ default zero_regs st)).
    { apply bool_decide_ext. destruct key as [[]|], st; cbn in Hrel; try done; intuition congruence. }
    rewrite Enone in *. eexists _, d. split; [done|]. exists unused, card'. split; [done|]. intros Hv.
    destruct (bool_decide (st = None ∨ _)) eqn:E; cbv iota in Hcard; [destruct Hcard; congruence|]. apply bool_decide_eq_false in E. destruct Hcard as [-> _].
    assert (Hsame : add_all (default zero_regs st) eles = default zero_regs st) by (destruct (decide (add_all (default zero_regs st) eles = default zero_regs st)); tauto).
    rewrite Hsame. apply Hc; [|done]. destruct key; [done|]. destruct st; [done|tauto].
  - destruct key as [[o| |]|], st as [regs|]; cbn in Hrel; try done.
    + destruct Hrel as (u & c & Hr & Hcc). destruct (pfcount_spec own o u c regs Hr Hcc) as (o' & c' & d & -> & Hr' & Hc'). eexists _, d. split; [done|]. by exists u, c'.
    + by eexists _, 0.
  - destruct (pfmerge_spec maxb own key unused card _ srcs others Hk Hok) as (o' & card' & -> & Hrep & Hv). eexists _, 1. split; [done|].
    exists unused, card'. split; [done|]. intros Hv'. congruence.
Qed.

Fixpoint impl_run (cmds : list (bool * hll_cmd)) (key : option hll_value) : option (option hll_value * list hll_reply) :=
  match cmds with
  | [] => Some (key, [])
  | (own, cmd) :: cmds => out ← impl_step own cmd key; '(key, rs) ← impl_run cmds (new_value out); Some (key, answer out :: rs)
  end.

Fixpoint spec_run (cmds : list (bool * hll_cmd)) (st : option (list Z)) : option (list Z) * list hll_reply :=
  match cmds with
  | [] => (st, [])
  | (_, cmd) :: cmds => let (st, r) := spec_step cmd st in let (st, rs) := spec_run cmds st in (st, r :: rs)
  end.

Lemma hll_run_refines cmds : ∀ key st, rel key st → Forall (λ c, cmd_ok c.2) cmds →
  ∃ key', impl_run cmds key = Some (key', (spec_run cmds st).2) ∧ rel key' (spec_run cmds st).1.
Proof.
  induction cmds as [|[own cmd] cmds IH]; intros key st Hrel Hok; [by exists key|]. apply Forall_cons in Hok as [Hcmd Hok]. cbn [impl_run spec_run].
  destruct (hll_step_refines own cmd key st Hrel Hcmd) as (key1 & d & -> & Hrel1). mnext. destruct (spec_step cmd st) as [st1 r]. cbn [fst snd new_value answer] in *.
  destruct (IH key1 st1 Hrel1 Hok) as (key' & -> & Hrel'). mnext. destruct (spec_run cmds st1) as [st2 rs]. by exists key'.
Qed.
End counting.

(** ** Hostile values *)

Lemma wraps_add w x y : 0 < w → wraps w (wraps w x + y) = wraps w (x + y).
Proof.
  intros Hw. unfold wraps. f_equal.
  replace ((x + 2 ^ (w - 1)) mod 2 ^ w - 2 ^ (w - 1) + y + 2 ^ (w - 1)) with ((x + 2 ^ (w - 1)) mod 2 ^ w + y) by lia.
  rewrite Z.add_mod_idemp_l by lia. f_equal. lia.
Qed.

(** Runs of zero registers move the index, whatever it is. *)
Lemma skip_xzeros n : ∀ fuel pre post end_ i mx, len (pre ++ ops_bytes (replicate n (XZERO 16384))) <= end_ →
  merge_sparse_loop (n + fuel) (pre ++ ops_bytes (replicate n (XZERO 16384)) ++ post) end_ (len pre) (s32 i) mx =
  merge_sparse_loop fuel (pre ++ ops_bytes (replicate n (XZERO 16384)) ++ post) end_
    (len (pre ++ ops_bytes (replicate n (XZERO 16384)))) (s32 (i + 16384 * Z.of_nat n)) mx.
Proof.
  induction n as [|n IH]; intros fuel pre post end_ i mx He.
  { unfold ops_bytes. cbn [replicate map concat]. by rewrite app_nil_r, Z.mul_0_r, Z.add_0_r. }
  cbn [replicate Nat.add merge_sparse_loop] in *. rewrite (ops_bytes_cons (XZERO 16384)), <- app_assoc in *.
  destruct (op_decode (XZERO 16384) pre (ops_bytes (replicate n (XZERO 16384)) ++ post)) as (b & Hb & Hd); [done|].
  replace (len pre <? end_) with true by (rewrite !length_app in He; cbn [op_bytes length] in He; lia). rewrite Hb. mnext.
  destruct Hd as (-> & -> & _ & ->). mnext.
  pose proof (IH fuel (pre ++ op_bytes (XZERO 16384)) post end_ (i + 16384) mx) as Hi. rewrite <- !app_assoc in Hi.
  rewrite wraps_add by lia. replace (len pre + 2) with (len (pre ++ op_bytes (XZERO 16384))) by (rewrite length_app; cbn; lia).
  rewrite Hi by done. do 2 f_equal. lia.
Qed.

Lemma len_xzeros k : len (ops_bytes (replicate k (XZERO 16384))) = 2 * Z.of_nat k.
Proof. induction k as [|k IH]; [done|]. cbn [replicate]. rewrite ops_bytes_cons, length_app. cbn [op_bytes length]. lia. Qed.

(** The string of a value that [isHLLObjectOrReply] accepts: its opcodes stand for more
    than 2^31 registers. *)
Definition hostile (n : nat) : list Z :=
  hll_header HLL_SPARSE [0; 0; 0] (replicate 8 0) ++ ops_bytes (replicate n (XZERO 16384) ++ [VAL 1 1]).

Lemma hostile_merge n o mx : Z.of_nat n = 131072 → sds_rep o (hostile n) → isHLLObjectOrReply (HSds o) = Some (inl o) ∧ hllMerge mx o = None.
Proof.
  intros Hn (_ & Hlen & rest & Hb). unfold hostile in *. rewrite ops_bytes_app in *. set (ops := ops_bytes (replicate n (XZERO 16384))) in *.
  assert (Hl : len ops = 262144) by (unfold ops; rewrite len_xzeros; lia).
  change (ops_bytes [VAL 1 1]) with [128] in *. set (hdr := hll_header HLL_SPARSE [0; 0; 0] (replicate 8 0)) in *.
  assert (Hh : len hdr = 16) by done. split.
  - unfold isHLLObjectOrReply, sdslen. rewrite Hlen, Hb, !length_app, <- !app_assoc. replace (_ <? HLL_HDR_SIZE) with false by (change HLL_HDR_SIZE with 16; lia).
    unfold hdr. rewrite header_magic, header_load. mnext. mnext. done.
  - unfold hllMerge, sdslen. rewrite Hlen, Hb, <- !app_assoc. assert (∀ r, load8 (hdr ++ r) off_encoding = Some HLL_SPARSE) as -> by done. mnext.
    change (HLL_SPARSE =? HLL_DENSE) with false. cbv iota. change HLL_HDR_SIZE with 16. rewrite <- Hh.
    replace (length (hdr ++ ops ++ [128] ++ 0 :: rest)) with (n + S (length ops + 16 + length rest - n + 1))%nat by (rewrite !length_app; cbn [length]; lia).
    set (k := (length ops + _ + _ - n + 1)%nat).
    pose proof (skip_xzeros n (S k) hdr ([128] ++ 0 :: rest) (len (hdr ++ ops ++ [128])) 0 mx) as Hs. fold ops in Hs.
    change (s32 0) with 0 in Hs. rewrite Hs by (rewrite !length_app; lia).
    cbn [merge_sparse_loop]. replace (_ <? _) with true by (rewrite !length_app; cbn [length]; lia).
    change ([128] ++ 0 :: rest) with (128 :: 0 :: rest). rewrite (app_assoc hdr ops (128 :: _)), (load8_app (hdr ++ ops) 128) by done. mnext. change (HLL_SPARSE_IS_ZERO 128) with false. change (HLL_SPARSE_IS_XZERO 128) with false. cbv iota zeta.
    rewrite Hn. change (s32 (0 + 16384 * 131072)) with (- 2 ^ 31). change (HLL_SPARSE_VAL_LEN 128) with 1. change (HLL_SPARSE_VAL_VALUE 128) with 1. done.
Qed.

(** ** Adding the same elements again *)

Section again.
Context `{Host}.

Lemma update_idem regs ele : ele_update (ele_update regs ele) ele = ele_update regs ele.
Proof.
  unfold ele_update. destruct (hllPatLen _ _) as [[count index]|]; [|done]. rewrite list_alter_alter_eq. apply list_alter_ext; [|done]. intros x _. cbn. lia.
Qed.

Lemma add_again regs eles ele : ele ∈ eles → ele_update (add_all regs eles) ele = add_all regs eles.
Proof.
  intros Hin. destruct (list_elem_of_split _ _ Hin) as (l1 & l2 & ->).
  rewrite (add_all_perm regs (l1 ++ ele :: l2) ((l1 ++ l2) ++ [ele])) by (rewrite <- app_assoc; apply Permutation_app_head; by rewrite Permutation_app_comm).
  unfold add_all. rewrite foldl_app. cbn. apply update_idem.
Qed.

Lemma add_all_again regs eles eles' : (∀ e, e ∈ eles' → e ∈ eles) → add_all (add_all regs eles) eles' = add_all regs eles.
Proof.
  induction eles' as [|e eles' IH]; intros Hin; [done|]. cbn. rewrite add_again by (apply Hin; set_solver). apply IH. set_solver.
Qed.
End again.

(** ** Theorems *)

(** C16: PFADD, PFCOUNT and PFMERGE on a key implement registers that only grow.
    For every sequence of these commands the replies and the registers are those of
    the specification: PFADD takes the maximum of the registers of its elements and
    says whether anything changed, PFMERGE the maximum over its sources, and PFCOUNT
    replies the estimate for the registers, whether it comes from the cache or not
    and whichever the encoding, through every promotion from sparse to dense. *)
Theorem hll_refines `{Malloc} `{Host} estimate maxb cmds key st : (∀ h, 0 <= estimate h < 2 ^ 64) →
  rel estimate key st → Forall (λ c, cmd_ok c.2) cmds →
  ∃ key', impl_run estimate maxb cmds key = Some (key', (spec_run estimate cmds st).2) ∧ rel estimate key' (spec_run estimate cmds st).1.
Proof. intros He. by apply hll_run_refines. Qed.

#[local] Instance plain_malloc : Malloc.
Proof. refine {| usable_size n := n; junk := 170 |}. lia. Defined.
#[local] Existing Instance le_host.

(** The registers that are not zero. *)
Definition sample_estimate (h : list Z) : Z := (16384 - default 0 (h !! 0%nat)) mod 2 ^ 64.
Definition sample_cmds : list (bool * hll_cmd) :=
  [(true, PfAdd [[97]; [98]]); (false, PfAdd [[97]]); (true, PfMerge [None] [zero_regs]); (true, PfCount); (false, PfCount)].

Lemma hll_refines_witness :
  (spec_run sample_estimate sample_cmds None).2 = [ReplyInt 1; ReplyInt 0; ReplyOk; ReplyInt 2; ReplyInt 2] ∧
  ∃ key', impl_run sample_estimate 3000 sample_cmds None = Some (key', (spec_run sample_estimate sample_cmds None).2) ∧
    rel sample_estimate key' (spec_run sample_estimate sample_cmds None).1.
Proof.
  split; [by vm_compute|]. apply (hll_refines sample_estimate 3000 sample_cmds None None).
  - intros h. apply Z.mod_pos_bound. lia.
  - done.
  - repeat (constructor; [cbn; repeat constructor|]); [..|constructor]; try by_decision. by eexists _, _.
Defined.

(** C17: Updating a register of a sparse value and of a dense value with the same
    registers gives the same answer and the same registers: the register becomes
    the maximum of its value and the new one, 1 is returned exactly when that is
    larger, and no other register changes.  The sparse update splits opcodes, merges
    neighbours or promotes the value, stays inside the string, and its assertions hold. *)
Theorem hllSparseSet_correct `{Malloc} maxb o d unused unused' card card' regs index count old :
  sparse_rep o unused card regs → dense_rep d unused' card' regs → 0 <= index < 16384 → 1 <= count < 64 → regs !! Z.to_nat index = Some old →
  ∃ o' d' c, hllSparseSet maxb o index count = Some (o', if count >? old then 1 else 0) ∧
    hllDenseSet d index count = Some (d', if count >? old then 1 else 0) ∧
    hll_rep o' unused c (<[Z.to_nat index := Z.max old count]> regs) ∧
    dense_rep d' unused' card' (<[Z.to_nat index := Z.max old count]> regs).
Proof.
  intros Ho Hd Hi Hc Hold. destruct (sparse_set_spec maxb o _ _ _ index count old Ho Hi Hold Hc) as (o' & c & Hs & Hrep & _).
  destruct (dense_set_spec d _ _ _ index count old Hd Hi Hold) as (d' & Hds & Hrep'); [lia|]. by exists o', d', c.
Qed.

Definition sample_sparse : sds := mk_sds 1 18 18 (hll_header HLL_SPARSE [0; 0; 0] (replicate 8 0) ++ [127; 255; 0]).

Lemma sample_sparse_rep : sparse_rep sample_sparse [0; 0; 0] (replicate 8 0) zero_regs.
Proof.
  split; [by split_and!; repeat constructor|]. split; [done|]. exists [XZERO 16384]. split; [by repeat constructor|]. split; [done|].
  split; [by split_and!|]. split; [done|]. by exists [].
Qed.

Lemma hllSparseSet_correct_witness :
  ∃ d o' d' c, hllSparseToDense sample_sparse = Some (d, true) ∧
    hllSparseSet 3000 sample_sparse 5 3 = Some (o', 1) ∧ hllDenseSet d 5 3 = Some (d', 1) ∧
    hll_rep o' [0; 0; 0] c (<[5%nat := 3]> zero_regs) ∧ dense_rep d' [0; 0; 0] (replicate 8 0) (<[5%nat := 3]> zero_regs).
Proof.
  destruct (to_dense_sparse _ _ _ _ sample_sparse_rep) as (d & Hd & Hrep). exists d.
  destruct (hllSparseSet_correct 3000 sample_sparse d _ _ _ _ _ 5 3 0 sample_sparse_rep Hrep) as (o' & d' & c & Hs & Hds & Hr & Hr'); [lia..|done|].
  exists o', d', c. by split_and!.
Defined.

(** The registers after PFADD do not depend on the order of the elements, nor
    on the encoding of the value, and adding again elements that were added changes
    nothing: the reply is 0 and nothing is signalled. *)
Theorem pfadd_any_order `{Malloc} `{Host} maxb own own' key key' unused unused' card card' regs eles eles' :
  key_rep key unused card regs → key_rep key' unused' card' regs → Forall ele_ok eles → eles ≡ₚ eles' →
  ∃ o o' o'' c c' c'' d d' r r', pfaddCommand maxb own key eles = Some (mk_outcome (Some (HSds o)) r d) ∧
    pfaddCommand maxb own' key' eles' = Some (mk_outcome (Some (HSds o')) r' d') ∧
    hll_rep o unused c (add_all regs eles) ∧ hll_rep o' unused' c' (add_all regs eles) ∧
    pfaddCommand maxb own (Some (HSds o)) eles' = Some (mk_outcome (Some (HSds o'')) (ReplyInt 0) 0) ∧
    hll_rep o'' unused c'' (add_all regs eles) ∧ c'' = c.
Proof.
  intros Hk Hk' Hok HP. assert (Hok' : Forall ele_ok eles') by by rewrite <- HP.
  destruct (pfadd_spec maxb own key _ _ _ eles Hk Hok) as (o & c & d & Hr & Hrep & _).
  destruct (pfadd_spec maxb own' key' _ _ _ eles' Hk' Hok') as (o' & c' & d' & Hr' & Hrep' & _).
  destruct (pfadd_spec maxb own (Some (HSds o)) unused c _ eles' Hrep Hok') as (o'' & c'' & d'' & Hr'' & Hrep'' & Hc'').
  rewrite (add_all_again regs eles eles') in * by (intros e; by rewrite HP). rewrite <- (add_all_perm _ _ _ HP) in Hrep'.
  cbv zeta in *. rewrite bool_decide_false in Hr'', Hc'' by (intros [|]; done). destruct Hc'' as [-> ->].
  eexists o, o', o'', c, c', c, d, d', _, _. by split_and!.
Qed.

Lemma pfadd_any_order_witness :
  ∃ o o' o'' c c' c'' d d' r r', pfaddCommand 3000 true None [[97]; [98]; [99]] = Some (mk_outcome (Some (HSds o)) r d) ∧
    pfaddCommand 3000 true (Some (HSds sample_sparse)) [[99]; [97]; [98]] = Some (mk_outcome (Some (HSds o')) r' d') ∧
    hll_rep o [0; 0; 0] c (add_all zero_regs [[97]; [98]; [99]]) ∧ hll_rep o' [0; 0; 0] c' (add_all zero_regs [[97]; [98]; [99]]) ∧
    pfaddCommand 3000 true (Some (HSds o)) [[99]; [97]; [98]] = Some (mk_outcome (Some (HSds o'')) (ReplyInt 0) 0) ∧
    hll_rep o'' [0; 0; 0] c'' (add_all zero_regs [[97]; [98]; [99]]) ∧ c'' = c.
Proof.
  apply (pfadd_any_order 3000 true true None (Some (HSds sample_sparse)) [0; 0; 0] [0; 0; 0] (replicate 8 0) (replicate 8 0)).
  - done.
  - right. apply sample_sparse_rep.
  - by_decision.
  - apply (Permutation_app_comm [[97]; [98]] [[99]]).
Defined.

(** C29: The three loops that count registers agree.  For a dense value, a sparse
    value and an array of bytes with the same registers the histogram has, for each
    value, the number of registers with that value, so the counts are equal; and
    PFCOUNT of several keys is PFCOUNT of the key PFMERGE makes of them. *)
Theorem hllCount_correct `{Malloc} `{Host} estimate maxb own keys regss :
  (∀ h, 0 <= estimate h < 2 ^ 64) → Forall2 keyed keys regss →
  let regs := merged zero_regs regss in
  (∀ v, (v < 64)%nat → histogram regs !! v = Some (Z.of_nat (length (filter (λ r, r = Z.of_nat v) regs)))) ∧
  pfcount_many estimate keys = Some (ReplyInt (s64 (estimate (histogram regs)))) ∧
  ∃ o o' d, pfmergeCommand maxb own None keys = Some (mk_outcome (Some (HSds o)) ReplyOk 1) ∧
    hllCount estimate o = Some (estimate (histogram regs), false) ∧
    pfcount_one estimate own (Some (HSds o)) = Some (mk_outcome (Some (HSds o')) (ReplyInt (s64 (estimate (histogram regs)))) d).
Proof.
  intros He Hk regs. split.
  { intros v Hv. unfold histogram, counts, empty_histo. rewrite list_lookup_imap, lookup_replicate_2 by lia. cbn. done. }
  split; [by apply pfcount_many_spec|].
  destruct (pfmerge_spec maxb own None _ _ _ keys regss (conj eq_refl (conj eq_refl eq_refl)) Hk) as (o & c & Hm & Hrep & Hv).
  destruct (pfcount_spec estimate He own o _ c _ Hrep) as (o' & c' & d & Hc & _); [intros; congruence|].
  exists o, o', d. split; [done|]. split; [by eapply count_spec|done].
Qed.

Lemma hllCount_correct_witness :
  pfcount_many sample_estimate [Some (HSds sample_sparse); None] = Some (ReplyInt 0).
Proof.
  destruct (hllCount_correct sample_estimate 3000 true [Some (HSds sample_sparse); None] [zero_regs; zero_regs]) as (_ & Hc & _).
  - intros h. apply Z.mod_pos_bound. lia.
  - constructor; [eexists _, _; right; apply sample_sparse_rep|]. constructor; [by eexists _, _|constructor].
  - rewrite Hc. vm_compute. reflexivity.
Defined.

(** C34: The register and the run length of an element are in range whatever the
    element, the register number below 16384 and the run between 1 and 51, so it fits
    the 6 bits of a register.  They are the low 14 bits of the hash and the position
    of the first set bit after them, and do not depend on the byte order of the host. *)
Theorem hllPatLen_bounds (h1 h2 : Host) ele : bytes_ok ele → len ele < 2 ^ 31 →
  ∃ hash count, MurmurHash64A (H := h1) ele (len ele) 0xadc83b19 = Some hash ∧ 0 <= hash < 2 ^ 64 ∧
    hllPatLen (H := h1) ele (len ele) = Some (count, hash mod 2 ^ 14) ∧
    hllPatLen (H := h2) ele (len ele) = Some (count, hash mod 2 ^ 14) ∧
    1 <= count <= 51 ∧ (∀ j, 14 <= j < 13 + count → Z.testbit hash j = false) ∧ (count = 51 ∨ Z.testbit hash (13 + count) = true).
Proof.
  intros Hb Hl. destruct (pat_len_spec h1 ele Hb Hl) as (hash & count & Hm & Hp & Hr & Hc & Hz & Ho). exists hash, count. split_and!; first [apply Hm|apply Hp|done|lia].
Qed.

Lemma hllPatLen_bounds_witness :
  hllPatLen (H := le_host) [104; 101; 108; 108; 111; 32; 119; 111; 114; 108; 100] 11 =
  hllPatLen (H := be_host) [104; 101; 108; 108; 111; 32; 119; 111; 114; 108; 100] 11.
Proof.
  destruct (hllPatLen_bounds le_host be_host [104; 101; 108; 108; 111; 32; 119; 111; 114; 108; 100]) as (hash & count & _ & _ & H1 & H2 & _); [by_decision|done|].
  exact (eq_trans H1 (eq_sym H2)).
Defined.

(** C40: A string that isHLLObjectOrReply accepts can make the merge write outside
    the array of registers: the index is an int, and 131072 opcodes of 16384 zero
    registers wrap it around to a negative number, which passes the check before the
    next run of values is written. *)
Theorem hllMerge_overflow n o mx : Z.of_nat n = 131072 → sds_rep o (hostile n) →
  isHLLObjectOrReply (HSds o) = Some (inl o) ∧ hllMerge mx o = None.
Proof. apply hostile_merge. Qed.

Definition hostile_value (n : nat) : sds := mk_sds 3 (len (hostile n)) (len (hostile n)) (hostile n ++ [0]).

Lemma hostile_rep n : Z.of_nat n = 131072 → sds_rep (hostile_value n) (hostile n).
Proof.
  intros Hn. assert (len (hostile n) = 262161) as Hl.
  { unfold hostile. rewrite length_app, ops_bytes_app, length_app. pose proof (len_xzeros n). cbn. lia. }
  split; [|split; [done|by exists []]]. unfold sds_wf, sdsalloc, hostile_value. cbn [s_type s_len s_alloc s_buf]. change (3 =? SDS_TYPE_5) with false.
  change (field_width 3) with 32. cbv iota. rewrite length_app. cbn [length]. lia.
Qed.

Lemma hllMerge_overflow_witness :
  ∃ o, isHLLObjectOrReply (HSds o) = Some (inl o) ∧ hllMerge empty_max o = None.
Proof.
  assert (Hn : Z.of_nat (Z.to_nat 131072) = 131072) by (apply Z2Nat.id; lia).
  exists (hostile_value (Z.to_nat 131072)). exact (hllMerge_overflow _ _ empty_max Hn (hostile_rep _ Hn)).
Defined.
