(* ===== verification/Resp.v ===== *)
(** Requests of a client: src/redis-7.0.0/src/networking.c, from the bytes read to
    the commands handed to processCommand.

    The query buffer is an sds string.  [None] is an access outside a block or a
    failed assertion.  Executing a command is a parameter that says how it leaves
    the flags of the client.  The I/O threads are idle and clients are not freed
    from outside while their input is processed. *)
From S2P Require Import Prelude UtilNum UtilText Sds SdsArgs.

Definition PROTO_IOBUF_LEN : Z := 1024 * 16.
Definition PROTO_INLINE_MAX_SIZE : Z := 1024 * 64.
Definition PROTO_MBULK_BIG_ARG : Z := 1024 * 32.
Definition PROTO_REQ_INLINE : Z := 1.
Definition PROTO_REQ_MULTIBULK : Z := 2.
Definition INT_MAX : Z := 2 ^ 31 - 1.

(** The argument of setProtocolError. *)
Inductive protocol_error :=
  | TooBigInline | UnbalancedQuotes | MasterInline
  | TooBigMbulkCount | InvalidMbulkCount | UnauthMbulkCount
  | TooBigBulkCount | ExpectedDollar (c : Z) | InvalidBulkLength | UnauthBulkLength.

(** The fields of struct client that the parser uses: argv holds the strings of the
    objects, and argc is its length. *)
Record client := mk_client {
  querybuf : sds;
  qb_pos : Z;
  reqtype : Z;
  multibulklen : Z;
  bulklen : Z;
  argv : list (list Z);
  argv_len : Z;
  argv_len_sum : Z;
  reploff : Z;
  read_reploff : Z;
  repl_applied : Z;
  is_master : bool;
  in_multi : bool;
  blocked : bool;
  close_after_reply : bool;
  close_asap : bool;
  errors : list protocol_error;
}.

Definition set_querybuf (c : client) (q : sds) (pos : Z) : client :=
  mk_client q pos (reqtype c) (multibulklen c) (bulklen c) (argv c) (argv_len c) (argv_len_sum c)
    (reploff c) (read_reploff c) (repl_applied c) (is_master c) (in_multi c) (blocked c) (close_after_reply c) (close_asap c) (errors c).
Definition set_pos (c : client) (pos : Z) : client := set_querybuf c (querybuf c) pos.
Definition set_argv (c : client) (args : list (list Z)) (l sum : Z) : client :=
  mk_client (querybuf c) (qb_pos c) (reqtype c) (multibulklen c) (bulklen c) args l sum
    (reploff c) (read_reploff c) (repl_applied c) (is_master c) (in_multi c) (blocked c) (close_after_reply c) (close_asap c) (errors c).
Definition set_parse (c : client) (type mbulk bulk : Z) : client :=
  mk_client (querybuf c) (qb_pos c) type mbulk bulk (argv c) (argv_len c) (argv_len_sum c)
    (reploff c) (read_reploff c) (repl_applied c) (is_master c) (in_multi c) (blocked c) (close_after_reply c) (close_asap c) (errors c).
Definition set_repl (c : client) (off read applied : Z) : client :=
  mk_client (querybuf c) (qb_pos c) (reqtype c) (multibulklen c) (bulklen c) (argv c) (argv_len c) (argv_len_sum c)
    off read applied (is_master c) (in_multi c) (blocked c) (close_after_reply c) (close_asap c) (errors c).
Definition set_flags (c : client) (multi blk close asap : bool) : client :=
  mk_client (querybuf c) (qb_pos c) (reqtype c) (multibulklen c) (bulklen c) (argv c) (argv_len c) (argv_len_sum c)
    (reploff c) (read_reploff c) (repl_applied c) (is_master c) multi blk close asap (errors c).

Definition argc (c : client) : Z := len (argv c).

(** The flag CLIENT_PROTOCOL_ERROR is that [errors] is not empty. *)
Definition setProtocolError (e : protocol_error) (c : client) : client :=
  mk_client (querybuf c) (qb_pos c) (reqtype c) (multibulklen c) (bulklen c) (argv c) (argv_len c) (argv_len_sum c)
    (reploff c) (read_reploff c) (repl_applied c) (is_master c) (in_multi c) (blocked c) true (close_asap c) (errors c ++ [e]).

Definition freeClientArgv (c : client) : client := set_argv c [] 0 0.
Definition resetClient (c : client) : client := set_parse (freeClientArgv c) 0 0 (-1).

(** strchr from the offset [p]: the offset found, or NULL; it stops at a zero byte. *)
Fixpoint strchr_loop (fuel : nat) (m : list Z) (p ch : Z) : option (option Z) :=
  b ← load8 m p;
  if b =? ch then Some (Some p)
  else if b =? 0 then Some None
  else
    match fuel with
    | O => None
    | S fuel => strchr_loop fuel m (p + 1) ch
    end.
Definition strchr_at (m : list Z) (p ch : Z) : option (option Z) := strchr_loop (length m) m p ch.

Definition sum_len (args : list (list Z)) : Z := foldr (λ a n, len a + n) 0 args.

(** The bytes that are not parsed yet. *)
Definition unparsed (c : client) : Z := u64 (sdslen (querybuf c) - qb_pos c).

Section requests.
Context `{Malloc}.

(** The fields of a client of a new connection that the parser uses. *)
Definition createClient : option client :=
  q ← sdsempty;
  Some (mk_client q 0 0 0 (-1) [] 0 0 0 0 0 false false false false false []).

(** What authRequired(c) returns, and server.proto_max_bulk_len. *)
Context (authRequired : bool) (proto_max_bulk_len : Z).

(** The flag is C_OK. *)
Definition processInlineBuffer (c : client) : option (client * bool) :=
  let m := s_buf (querybuf c) in
  newline ← strchr_at m (qb_pos c) 10;
  match newline with
  | None =>
    if unparsed c >? PROTO_INLINE_MAX_SIZE then Some (setProtocolError TooBigInline c, false) else Some (c, false)
  | Some newline =>
    '(newline, linefeed_chars) ←
      (if negb (newline =? qb_pos c) then
         b ← load8 m (newline - 1);
         Some (if b =? 13 then (newline - 1, 2) else (newline, 1))
       else Some (newline, 1));
    let querylen := newline - qb_pos c in
    line ← load m (qb_pos c) querylen;
    aux ← sdsnewlen (Bytes line) querylen;
    args ← sdssplitargs (s_buf aux);
    match args with
    | None => Some (setProtocolError UnbalancedQuotes c, false)
    | Some args =>
      if negb (querylen =? 0) && is_master c then Some (setProtocolError MasterInline c, false)
      else
        let c := set_pos c (qb_pos c + (querylen + linefeed_chars)) in
        let l := if negb (len args =? 0) then len args else argv_len c in
        let sum := if negb (len args =? 0) then 0 else argv_len_sum c in
        Some (set_argv c args l (sum + sum_len args), true)
    end
  end.

(** A line that ends with CR LF, at the current position: the offset of its end, a
    wait for more input, or no end in sight. *)
Inductive line_end := LineAt (newline : Z) | LineIncomplete | LineMissing.
Definition find_line (c : client) : option line_end :=
  newline ← strchr_at (s_buf (querybuf c)) (qb_pos c) 13;
  match newline with
  | None => Some LineMissing
  | Some newline => Some (if newline - qb_pos c >? s64 (u64 (unparsed c - 2)) then LineIncomplete else LineAt newline)
  end.

(** A number from the character after the current one to the end of the line. *)
Definition line_number (c : client) (newline : Z) : option (option Z) :=
  let n := newline - (qb_pos c + 1) in
  s ← load (s_buf (querybuf c)) (qb_pos c + 1) n;
  string2ll s n.

(** The length of the array of arguments: [None] is the answer C_ERR, else the flag
    tells that the request is empty. *)
Definition read_mbulk_count (c : client) : option (client * option bool) :=
  if negb (argc c =? 0) then None
  else
    l ← find_line c;
    match l with
    | LineMissing =>
      if unparsed c >? PROTO_INLINE_MAX_SIZE then Some (setProtocolError TooBigMbulkCount c, None) else Some (c, None)
    | LineIncomplete => Some (c, None)
    | LineAt newline =>
      first ← load8 (s_buf (querybuf c)) (qb_pos c);
      if negb (first =? 42) then None
      else
        ll ← line_number c newline;
        match ll with
        | None => Some (setProtocolError InvalidMbulkCount c, None)
        | Some ll =>
          if ll >? INT_MAX then Some (setProtocolError InvalidMbulkCount c, None)
          else if (ll >? 10) && authRequired then Some (setProtocolError UnauthMbulkCount c, None)
          else
            let c := set_pos c (newline + 2) in
            if ll <=? 0 then Some (c, Some true)
            else Some (set_argv (set_parse c (reqtype c) ll (bulklen c)) (argv c) (Z.min ll 1024) 0, Some false)
        end
    end.

(** The length of an argument: the flag is false to leave the loop and [None] the
    answer C_ERR. *)
Definition read_bulk_len (c : client) : option (client * option bool) :=
  l ← find_line c;
  match l with
  | LineMissing =>
    if unparsed c >? PROTO_INLINE_MAX_SIZE then Some (setProtocolError TooBigBulkCount c, None) else Some (c, Some false)
  | LineIncomplete => Some (c, Some false)
  | LineAt newline =>
    first ← load8 (s_buf (querybuf c)) (qb_pos c);
    if negb (first =? 36) then Some (setProtocolError (ExpectedDollar first) c, None)
    else
      ll ← line_number c newline;
      match ll with
      | None => Some (setProtocolError InvalidBulkLength c, None)
      | Some ll =>
        if (ll <? 0) || (negb (is_master c) && (ll >? proto_max_bulk_len)) then Some (setProtocolError InvalidBulkLength c, None)
        else if (ll >? 16384) && authRequired then Some (setProtocolError UnauthBulkLength c, None)
        else
          let c := set_pos c (newline + 2) in
          c ← (if negb (is_master c) && (ll >=? PROTO_MBULK_BIG_ARG) && (unparsed c <=? u64 (ll + 2)) then
                 q ← sdsrange (querybuf c) (qb_pos c) (-1);
                 q ← sdsMakeRoomForNonGreedy q (u64 (ll + 2 - sdslen q));
                 Some (set_querybuf c q 0)
               else Some c);
          Some (set_parse c (reqtype c) (multibulklen c) ll, Some true)
      end
  end.

(** argv[argc++] = arg, in an array of argv_len pointers. *)
Definition push_arg (c : client) (arg : list Z) : option client :=
  if argc c <? argv_len c then Some (set_argv c (argv c ++ [arg]) (argv_len c) (argv_len_sum c + bulklen c)) else None.

(** An argument whose bytes are all there. *)
Definition read_bulk (c : client) : option client :=
  let l := if argc c >=? argv_len c then
             Z.min (if argv_len c <? INT_MAX / 2 then argv_len c * 2 else INT_MAX) (s32 (argc c + multibulklen c))
           else argv_len c in
  let c := set_argv c (argv c) l (argv_len_sum c) in
  c ← (if negb (is_master c) && (qb_pos c =? 0) && (bulklen c >=? PROTO_MBULK_BIG_ARG)
          && (sdslen (querybuf c) =? u64 (bulklen c + 2)) then
         q ← sdsIncrLen (querybuf c) (-2);
         arg ← load (s_buf q) 0 (sdslen q);
         c ← push_arg c arg;
         q ← sdsnewlen SDS_NOINIT (bulklen c + 2);
         q ← sdsclear q;
         Some (set_querybuf c q (qb_pos c))
       else
         arg ← load (s_buf (querybuf c)) (qb_pos c) (bulklen c);
         c ← push_arg c arg;
         Some (set_pos c (qb_pos c + (bulklen c + 2))));
  Some (set_parse c (reqtype c) (multibulklen c - 1) (-1)).

(** [while(c->multibulklen)]: the flag is false when C_ERR is returned from inside. *)
Fixpoint bulk_loop (fuel : nat) (c : client) : option (client * bool) :=
  if multibulklen c =? 0 then Some (c, true)
  else
    match fuel with
    | O => None
    | S fuel =>
      '(c, go) ← (if bulklen c =? -1 then read_bulk_len c else Some (c, Some true));
      match go with
      | None => Some (c, false)
      | Some false => Some (c, true)
      | Some true =>
        if unparsed c <? u64 (bulklen c + 2) then Some (c, true)
        else c ← read_bulk c; bulk_loop fuel c
      end
    end.

(** The flag is C_OK. *)
Definition processMultibulkBuffer (c : client) : option (client * bool) :=
  '(c, r) ← (if multibulklen c =? 0 then read_mbulk_count c else Some (c, Some false));
  match r with
  | None => Some (c, false)
  | Some true => Some (c, true)
  | Some false =>
    if negb (multibulklen c >? 0) then None
    else
      '(c, ok) ← bulk_loop (S (length (s_buf (querybuf c)))) c;
      Some (c, ok && (multibulklen c =? 0))
  end.

End requests.

(** ** Executing *)

Section executing.
Context `{Malloc}.

(** How processCommand leaves the client: whether it returned C_OK and the flags;
    [freed] is that the client is no longer valid. *)
Record cmd_effect := mk_cmd_effect { ret_ok : bool; e_multi : bool; e_blocked : bool; e_close : bool; e_asap : bool; freed : bool }.

(** The rest of the server. *)
Context {W : Type} (processCommand : W → list (list Z) → W * cmd_effect).

(** authRequired(c), which an executed AUTH changes, and the limits of the configuration. *)
Context (authRequired : W → bool) (proto_max_bulk_len client_max_querybuf_len : Z).

(** What the parser did: the state of the rest of the server, and the bytes given to
    replicationFeedStreamFromMasterStream. *)
Record world := mk_world { server : W; fed : list Z }.

Definition commandProcessed (c : client) (w : world) : option (client * world) :=
  if blocked c then Some (c, w)
  else
    let c := resetClient c in
    let prev_offset := reploff c in
    let off := if is_master c && negb (in_multi c) then read_reploff c - sdslen (querybuf c) + qb_pos c else reploff c in
    let c := set_repl c off (read_reploff c) (repl_applied c) in
    if is_master c then
      let applied := reploff c - prev_offset in
      if negb (applied =? 0) then
        bs ← load (s_buf (querybuf c)) (repl_applied c) applied;
        Some (set_repl c (reploff c) (read_reploff c) (repl_applied c + applied), mk_world (server w) (fed w ++ bs))
      else Some (c, w)
    else Some (c, w).

(** The flag is C_OK: the client is still valid. *)
Definition processCommandAndResetClient (c : client) (w : world) : option (client * world * bool) :=
  let '(s, e) := processCommand (server w) (argv c) in
  let c := set_flags c (e_multi e) (e_blocked e) (close_after_reply c || e_close e) (close_asap c || e_asap e) in
  let w := mk_world s (fed w) in
  '(c, w) ← (if ret_ok e then commandProcessed c w else Some (c, w));
  Some (c, w, negb (freed e)).

(** scriptIsTimedout(). *)
Context (busy : bool).

(** [while(c->qb_pos < sdslen(c->querybuf))]. *)
Fixpoint input_loop (fuel : nat) (c : client) (w : world) : option (client * world * bool) :=
  if qb_pos c <? sdslen (querybuf c) then
    if blocked c then Some (c, w, true)
    else if busy && is_master c then Some (c, w, true)
    else if close_after_reply c || close_asap c then Some (c, w, true)
    else
      match fuel with
      | O => None
      | S fuel =>
        first ← load8 (s_buf (querybuf c)) (qb_pos c);
        let c := if reqtype c =? 0 then
                   set_parse c (if first =? 42 then PROTO_REQ_MULTIBULK else PROTO_REQ_INLINE) (multibulklen c) (bulklen c)
                 else c in
        '(c, ok) ← (if reqtype c =? PROTO_REQ_INLINE then processInlineBuffer c
                    else if reqtype c =? PROTO_REQ_MULTIBULK then
                      processMultibulkBuffer (authRequired (server w)) proto_max_bulk_len c
                    else None);
        if negb ok then Some (c, w, true)
        else if argc c =? 0 then input_loop fuel (resetClient c) w
        else
          '(c, w, alive) ← processCommandAndResetClient c w;
          if negb alive then Some (c, w, false) else input_loop fuel c w
      end
  else Some (c, w, true).

(** The flag is C_OK. *)
Definition processInputBuffer (c : client) (w : world) : option (client * world * bool) :=
  '(c, w, alive) ← input_loop (S (length (s_buf (querybuf c)))) c w;
  if negb alive then Some (c, w, false)
  else
    c ← (if is_master c then
           if negb (repl_applied c =? 0) then
             q ← sdsrange (querybuf c) (repl_applied c) (-1);
             Some (set_repl (set_querybuf c q (qb_pos c - repl_applied c)) (reploff c) (read_reploff c) 0)
           else Some c
         else if negb (qb_pos c =? 0) then
           q ← sdsrange (querybuf c) (qb_pos c) (-1);
           Some (set_querybuf c q 0)
         else Some c);
    Some (c, w, true).

(** ** Reading *)

(** Room for the next read, and how many bytes it may return. *)
Definition read_room (c : client) : option (client * Z) :=
  let big_arg := (reqtype c =? PROTO_REQ_MULTIBULK) && negb (multibulklen c =? 0) && negb (bulklen c =? -1)
                 && (bulklen c >=? PROTO_MBULK_BIG_ARG) in
  let remaining := s64 (u64 (bulklen c + 2) - unparsed c) in
  let readlen := if big_arg && (remaining >? 0) then remaining else PROTO_IOBUF_LEN in
  let readlen := if big_arg && is_master c && (readlen <? PROTO_IOBUF_LEN) then PROTO_IOBUF_LEN else readlen in
  if negb (is_master c) && (big_arg || (sdsalloc (querybuf c) <? PROTO_IOBUF_LEN)) then
    q ← sdsMakeRoomForNonGreedy (querybuf c) readlen;
    Some (set_querybuf c q (qb_pos c), readlen)
  else
    q ← sdsMakeRoomFor (querybuf c) readlen;
    Some (set_querybuf c q (qb_pos c), sdsavail q).

(** What connRead returns: the bytes read, at least one; -1 with the connection still
    there; an error or the end of the stream. *)
Inductive conn_read := ReadBytes (bs : list Z) | ReadAgain | ReadClosed.

(** What became of the client: still there, or freed. *)
Inductive read_result := Alive (c : client) (w : world) | Freed (w : world).

(** [conn n] is the result of a read of up to [n] bytes. *)
Definition readQueryFromClient (conn : Z → conn_read) (c : client) (w : world) : option read_result :=
  '(c, readlen) ← read_room c;
  match conn readlen with
  | ReadAgain => Some (Alive c w)
  | ReadClosed => Some (Freed w)
  | ReadBytes bytes =>
    if (len bytes >? readlen) || (len bytes =? 0) then None
    else
      let qblen := sdslen (querybuf c) in
      m ← store (s_buf (querybuf c)) qblen bytes;
      q ← sdsIncrLen (set_buf (querybuf c) m) (len bytes);
      let c := set_querybuf c q (qb_pos c) in
      let c := if is_master c then set_repl c (reploff c) (read_reploff c + len bytes) (repl_applied c) else c in
      if negb (is_master c) && (sdslen (querybuf c) >? client_max_querybuf_len) then Some (Freed w)
      else
        '(c, w, alive) ← processInputBuffer c w;
        Some (if alive : bool then Alive c w else Freed w)
  end.
End executing.
