(* ===== verification/RespTheorems.v ===== *)
(** Requests of a client: the theorems.  A stream of commands in the format that
    clients send is cut into exactly these commands, whatever the sizes of the reads
    that deliver it. *)
From S2P Require Import Prelude UtilNum UtilText Sds SdsTheorems SdsArgs Resp.

(** ** The format *)

Definition CRLF : list Z := [13; 10].
Definition enc_len (mark n : Z) : list Z := mark :: dec_string n.
Definition enc_arg (a : list Z) : list Z := enc_len 36 (len a) ++ CRLF ++ a ++ CRLF.
Definition enc_args (args : list (list Z)) : list Z := concat (map enc_arg args).
Definition enc_cmd (args : list (list Z)) : list Z := enc_len 42 (len args) ++ CRLF ++ enc_args args.
Definition enc_cmds (cmds : list (list (list Z))) : list Z := concat (map enc_cmd cmds).

Lemma dec_chars n : Forall (λ c, c ≠ 13 ∧ c ≠ 0) (dec_string n).
Proof.
  assert (Hgo : ∀ fuel v, Forall (λ c, c ≠ 13 ∧ c ≠ 0) (dec_go fuel v)).
  { induction fuel as [|fuel IH]; intros v; cbn [dec_go]; [constructor|]. apply Forall_app. split.
    - destruct (v <? 10); [constructor|apply IH].
    - constructor; [|constructor]. pose proof (Z.mod_pos_bound v 10). lia. }
  unfold dec_string, dec_u. destruct (n <? 0); [constructor; [done|]|]; apply Hgo.
Qed.

Lemma enc_len_chars mark n : mark ≠ 13 → mark ≠ 0 → Forall (λ c, c ≠ 13 ∧ c ≠ 0) (enc_len mark n).
Proof. intros. constructor; [done|apply dec_chars]. Qed.

Lemma len_enc_len mark n : 0 <= n < 2 ^ 63 → 2 <= len (enc_len mark n) <= 21.
Proof.
  intros Hn. unfold enc_len. cbn [length]. pose proof (length_dec_string n) as Hl. unfold LLONG_MIN, LLONG_MAX, LONG_STR_SIZE in Hl. lia.
Qed.

(** ** Lines *)

Lemma strchr_found X l ch R fuel : Forall (λ c, c ≠ ch ∧ c ≠ 0) l → (length l <= fuel)%nat →
  strchr_loop fuel (X ++ l ++ ch :: R) (len X) ch = Some (Some (len X + len l)).
Proof.
  revert X fuel. induction l as [|c l IH]; intros X fuel Hl Hf.
  - unfold strchr_loop. destruct fuel; cbn [app]; rewrite load8_app by done; mnext; by rewrite Z.eqb_refl, Z.add_0_r.
  - apply Forall_cons in Hl as [[Hc H0] Hl]. destruct fuel as [|fuel]; [cbn in Hf; lia|]. cbn [strchr_loop app]. rewrite load8_app by done. mnext.
    replace (c =? ch) with false by lia. replace (c =? 0) with false by lia.
    pose proof (IH (X ++ [c]) fuel Hl ltac:(cbn in Hf; lia)) as Hi. rewrite <- app_assoc in Hi. cbn [app] in Hi.
    replace (len (X ++ [c])) with (len X + 1) in Hi by len_lia. rewrite Hi. cbn [length]. do 2 f_equal. lia.
Qed.

Lemma strchr_missing X l ch R fuel : ch ≠ 0 → Forall (λ c, c ≠ ch ∧ c ≠ 0) l → (length l <= fuel)%nat →
  strchr_loop fuel (X ++ l ++ 0 :: R) (len X) ch = Some None.
Proof.
  intros Hch. revert X fuel. induction l as [|c l IH]; intros X fuel Hl Hf.
  - unfold strchr_loop. destruct fuel; cbn [app]; rewrite load8_app by done; mnext; by replace (0 =? ch) with false by lia.
  - apply Forall_cons in Hl as [[Hc H0] Hl]. destruct fuel as [|fuel]; [cbn in Hf; lia|]. cbn [strchr_loop app]. rewrite load8_app by done. mnext.
    replace (c =? ch) with false by lia. replace (c =? 0) with false by lia.
    pose proof (IH (X ++ [c]) fuel Hl ltac:(cbn in Hf; lia)) as Hi. rewrite <- app_assoc in Hi. cbn [app] in Hi.
    by replace (len (X ++ [c])) with (len X + 1) in Hi by len_lia.
Qed.

(** The buffer holds [X], parsed, and [P], not parsed. *)
Definition holds (c : client) (X P : list Z) : Prop :=
  sds_rep (querybuf c) (X ++ P) ∧ qb_pos c = len X ∧ len (X ++ P) < 2 ^ 62.

Lemma unparsed_spec c X P : holds c X P → unparsed c = len P ∧ sdslen (querybuf c) = len X + len P.
Proof.
  intros ((_ & Hl & _) & Hp & Hm). unfold unparsed, sdslen. rewrite Hl, Hp, length_app in *. split; [|lia]. rewrite wrapu_small; lia.
Qed.

(** A prefix of a line with its end. *)
Lemma prefix_cases (h P F T : list Z) : P ++ F = h ++ CRLF ++ T →
  (∃ h', h = P ++ h') ∨ P = h ++ [13] ∨ ∃ P', P = h ++ CRLF ++ P' ∧ P' ++ F = T.
Proof.
  intros E. destruct (decide (length P <= length h)%nat).
  - left. exists (drop (length P) h). apply (f_equal (take (length P))) in E. rewrite take_app_length, take_app_le in E by lia.
    rewrite E at 1. by rewrite take_drop.
  - right. assert (E1 : P = h ++ drop (length h) P).
    { apply (f_equal (take (length h))) in E. rewrite take_app_length, take_app_le in E by lia. rewrite <- E at 1. by rewrite take_drop. }
    set (Q := drop (length h) P) in *. clearbody Q. subst P. rewrite <- app_assoc in E. apply app_inv_head in E.
    destruct Q as [|q0 [|q1 Q]]; [rewrite app_nil_r in *; lia| |].
    + cbn in E. injection E as -> E. by left.
    + cbn in E. injection E as -> -> E. right. by exists Q.
Qed.

Lemma find_line_spec c X P F h T : holds c X P → P ++ F = h ++ CRLF ++ T → Forall (λ c, c ≠ 13 ∧ c ≠ 0) h → h ≠ [] →
  (len P < len h + 2 ∧ ((find_line c = Some LineMissing ∧ len P <= len h) ∨ find_line c = Some LineIncomplete)) ∨
  ∃ P', P = h ++ CRLF ++ P' ∧ P' ++ F = T ∧ find_line c = Some (LineAt (len X + len h)).
Proof.
  intros Hc E Hh Hne. assert (0 < len h) by (destruct h; [done|cbn; lia]). pose proof Hc as ((_ & _ & rest & Hb) & Hp & Hm). unfold find_line, strchr_at. rewrite Hb, Hp, (proj1 (unparsed_spec c X P Hc)).
  destruct (prefix_cases h P F T E) as [[h' Hh']|[->|(P' & -> & ET)]].
  - left. assert (len P <= len h) by (rewrite Hh', length_app; lia). split; [lia|]. left. split; [|done]. rewrite Hh' in Hh. apply Forall_app in Hh as [Hh _].
    rewrite <- app_assoc, strchr_missing by (first [done|rewrite !length_app; lia]). done.
  - left. rewrite length_app. cbn [length]. split; [lia|]. right.
    rewrite <- !app_assoc. change ([13] ++ 0 :: rest) with (13 :: 0 :: rest). rewrite strchr_found by (first [done|rewrite !length_app; lia]). mnext.
    do 2 f_equal. rewrite !length_app in Hm. cbn [length] in Hm. rewrite wrapu_small, s64_small by lia. case_if; [done|lia].
  - right. exists P'. split; [done|]. split; [done|]. rewrite <- !app_assoc. change (CRLF ++ P' ++ 0 :: rest) with (13 :: 10 :: P' ++ 0 :: rest).
    rewrite strchr_found by (first [done|rewrite !length_app; lia]). mnext. rewrite !length_app in *. cbn [length CRLF] in *.
    rewrite wrapu_small, s64_small by lia. case_if; [lia|done].
Qed.

Lemma line_number_spec c X P mark n T : holds c X P → P = enc_len mark n ++ T → 0 <= n < 2 ^ 63 →
  line_number c (len X + len (enc_len mark n)) = Some (Some n) ∧ load8 (s_buf (querybuf c)) (qb_pos c) = Some mark.
Proof.
  intros ((_ & _ & rest & Hb) & Hp & _) -> Hn. unfold line_number. rewrite Hb, Hp. unfold enc_len. cbn [length app].
  assert (E : (X ++ mark :: dec_string n ++ T) ++ 0 :: rest = (X ++ [mark]) ++ dec_string n ++ T ++ 0 :: rest)
    by (rewrite <- !app_assoc; cbn [app]; by rewrite <- app_assoc).
  split.
  - rewrite E, load_app by len_lia. mnext. replace (len X + _ - _) with (len (dec_string n)) by lia.
    destruct (string2ll_spec (dec_string n)) as (r & -> & Hr). f_equal. apply Hr. split; [|done]. unfold LLONG_MIN, LLONG_MAX. lia.
  - rewrite <- app_assoc. cbn [app]. by apply load8_app.
Qed.

Section stream.
Context `{Malloc} (auth : bool) (maxbulk : Z).

(** ** The arguments of a command *)

(** A client that is not a master, with no flag that stops the parsing. *)
Definition plain (c : client) : Prop :=
  is_master c = false ∧ blocked c = false ∧ close_after_reply c = false ∧ close_asap c = false ∧ errors c = [].

Definition arr_ok (c : client) : Prop :=
  1 <= argv_len c ∧ argc c <= argv_len c <= argc c + multibulklen c ∧ argc c + multibulklen c <= INT_MAX.

(** [args] were read and [todo] are to come. *)
Record reading (c : client) (X P : list Z) (args todo : list (list Z)) : Prop := {
  r_holds : holds c X P;
  r_plain : plain c;
  r_type : reqtype c = PROTO_REQ_MULTIBULK;
  r_argv : argv c = args;
  r_todo : multibulklen c = len todo;
  r_arr : arr_ok c;
  r_bulk : bulklen c = -1 ∨ ∃ a r, todo = a :: r ∧ bulklen c = len a;
}.

(** The bytes still to come for them. *)
Definition todo_bytes (c : client) (todo : list (list Z)) : list Z :=
  if bulklen c =? -1 then enc_args todo
  else match todo with a :: r => a ++ CRLF ++ enc_args r | [] => [] end.

Definition arg_ok (a : list Z) : Prop := len a <= maxbulk ∧ (auth = true → len a <= 16384) ∧ len a < 2 ^ 61.

Lemma range_drop X P : range_of (len X) (-1) (X ++ P) = P.
Proof.
  unfold range_of. cbv zeta. rewrite length_app. replace (len X <? 0) with false by lia. change (-1 <? 0) with true. cbv iota.
  destruct P as [|p P].
  - rewrite app_nil_r. cbn [length]. rewrite Nat.add_0_r. replace (_ || _) with true by lia. done.
  - cbn [length]. replace (_ || _) with false by lia. rewrite Nat2Z.id, drop_app_length. apply take_ge. cbn [length]. lia.
Qed.

Lemma trim_spec_at c X P : holds c X P → ∃ q, sdsrange (querybuf c) (qb_pos c) (-1) = Some q ∧ sds_rep q P.
Proof.
  intros (Hr & -> & Hm). rewrite length_app in Hm. destruct (range_spec (querybuf c) (X ++ P) (len X) (-1) Hr) as (q & Hq & Hrep); [lia|lia|rewrite length_app; lia|].
  exists q. split; [done|]. by rewrite range_drop in Hrep.
Qed.

(** The room for a big argument. *)
Lemma len_room c X P n (big : bool) : holds c X P → 0 <= n < 2 ^ 61 →
  ∃ q X', (if big && (unparsed c <=? u64 (n + 2)) then
             q ← sdsrange (querybuf c) (qb_pos c) (-1);
             q ← sdsMakeRoomForNonGreedy q (u64 (n + 2 - sdslen q));
             Some (set_querybuf c q 0)
           else Some c) = Some (set_querybuf c q (len X')) ∧ holds (set_querybuf c q (len X')) X' P.
Proof.
  intros Hh Hn. rewrite (proj1 (unparsed_spec _ _ _ Hh)), wrapu_small by lia. destruct (big && _) eqn:Ebig.
  - destruct (trim_spec_at c _ _ Hh) as (q & -> & Hq). mnext. apply andb_true_iff in Ebig as [_ Ele].
    pose proof Hq as (_ & Hlq & _). unfold sdslen. rewrite Hlq. unfold sdsMakeRoomForNonGreedy. rewrite wrapu_small by lia.
    destruct (room_rep q P (n + 2 - len P) false Hq) as (q' & -> & Hq' & _); [lia..|]. mnext. exists q', []. split; [done|].
    split; [done|]. split; [done|]. cbn [app]. destruct Hh as (_ & _ & Hm). rewrite length_app in Hm. lia.
  - exists (querybuf c), X. destruct Hh as (Hr & Hp & Hm). destruct c. cbn in Hp. subst. by split_and!.
Qed.

Lemma bulk_len_spec c X P F args a r T : reading c X P args (a :: r) → bulklen c = -1 → arg_ok a → P ++ F = enc_arg a ++ T →
  (read_bulk_len auth maxbulk c = Some (c, Some false) ∧ len P < len (enc_len 36 (len a)) + 2) ∨
  ∃ c' X' P', read_bulk_len auth maxbulk c = Some (c', Some true) ∧ reading c' X' P' args (a :: r) ∧ bulklen c' = len a ∧
    P' ++ F = a ++ CRLF ++ T ∧ len P' < len P.
Proof.
  intros [Hh Hpl Hty Har Hto Harr _] Hbl (Hmax & Hauth & Hla) E. unfold enc_arg in E. rewrite <- !app_assoc in E.
  pose proof (len_enc_len 36 (len a) ltac:(lia)) as Hll. set (h := enc_len 36 (len a)) in *.
  pose proof Hpl as (Hnm & _). unfold read_bulk_len.
  destruct (find_line_spec c X P F h _ Hh E) as [(Hlt & [[-> Hle]| ->])|(P' & HP & ET & ->)]; [by apply enc_len_chars|by unfold h, enc_len| | |].
  - left. mnext. rewrite (proj1 (unparsed_spec _ _ _ Hh)). unfold PROTO_INLINE_MAX_SIZE. replace (len P >? _) with false by lia. done.
  - left. mnext. done.
  - right. mnext. destruct (line_number_spec c X P 36 (len a) (CRLF ++ P') Hh HP) as [Hnum Hld]; [lia|]. rewrite Hld. mnext.
    change (negb (36 =? 36)) with false. cbv iota. fold h in Hnum. rewrite Hnum. mnext. rewrite Hnm. cbn [negb andb].
    replace ((len a <? 0) || (len a >? maxbulk)) with false by lia. replace ((len a >? 16384) && auth) with false by (destruct auth; [specialize (Hauth eq_refl)|]; lia).
    cbv zeta. set (c1 := set_pos c (len X + len h + 2)). change (is_master c1) with (is_master c). rewrite Hnm. cbn [negb andb].
    assert (Hh1 : holds c1 (X ++ h ++ CRLF) P').
    { destruct Hh as (Hr & Hp & Hm). rewrite HP in Hr, Hm. split; [by rewrite <- !app_assoc|]. split; [change (qb_pos c1) with (len X + len h + 2); rewrite !length_app; change (length CRLF) with 2%nat; lia|].
      by rewrite <- !app_assoc. }
    assert (Hlp : len P' < len P) by (rewrite HP, !length_app; lia).
    destruct (len_room c1 _ P' (len a) (len a >=? PROTO_MBULK_BIG_ARG) Hh1) as (q & X' & -> & Hh2); [lia|]. mnext.
    eexists _, X', P'. split; [done|]. split; [|done]. constructor; try done. right. by exists a, r.
Qed.

Lemma room_left n l m : 1 <= l → 0 <= n <= l → 1 <= m → l <= n + m → n + m <= INT_MAX →
  let l' := if n >=? l then Z.min (if l <? INT_MAX / 2 then l * 2 else INT_MAX) (s32 (n + m)) else l in
  n + 1 <= l' <= n + m.
Proof.
  intros Hl Hn Hm Hle Hmax. cbv zeta. unfold INT_MAX in *. rewrite s32_small by lia. destruct (Z.geb_spec n l); [|lia].
  change ((2 ^ 31 - 1) / 2) with 1073741823. case_if; lia.
Qed.

(** An argument that is there, with the two bytes after it. *)
Lemma bulk_core c X a e P' args r : reading c X (a ++ e ++ P') args (a :: r) → len e = 2 → bulklen c = len a → len a < 2 ^ 61 →
  ∃ c' X', read_bulk c = Some c' ∧ reading c' X' P' (args ++ [a]) r ∧ bulklen c' = -1.
Proof.
  intros [Hh Hpl Hty Har Hto Harr _] He Hbl Hla. unfold read_bulk.
  destruct Harr as (H1 & H2 & H3). unfold argc in *. cbn [length] in Hto.
  pose proof (room_left (len (argv c)) (argv_len c) (multibulklen c)) as Hroom. cbv zeta in Hroom. destruct Hroom as [Hr1 Hr2]; [lia..|].
  set (l := if len (argv c) >=? argv_len c then _ else _) in *. cbv zeta. set (c1 := set_argv c (argv c) l (argv_len_sum c)).
  assert (Hpush : push_arg c1 a = Some (set_argv c1 (argv c ++ [a]) l (argv_len_sum c + bulklen c))).
  { unfold push_arg, argc. cbn. replace (_ <? l) with true by lia. done. }
  pose proof Hh as (Hr & Hp & Hm). pose proof (unparsed_spec _ _ _ Hh) as [_ Hsl]. pose proof Hpl as (Hnm & _).
  change (is_master c1) with (is_master c). rewrite Hnm. change (qb_pos c1) with (qb_pos c). change (bulklen c1) with (bulklen c).
  change (querybuf c1) with (querybuf c). rewrite Hbl, Hsl, Hp. cbn [negb andb].
  assert (Hdone : ∀ c2 X' , holds c2 X' P' → argv c2 = argv c ++ [a] → argv_len c2 = l → plain c2 → reqtype c2 = reqtype c →
    reading (set_parse c2 (reqtype c2) (multibulklen c - 1) (-1)) X' P' (args ++ [a]) r).
  { intros c2 X' Hh2 Ha2 Hl2 Hp2 Ht2. constructor; try done; [by cbn; rewrite Ht2|by cbn; rewrite Ha2, Har|cbn; lia| |by left].
    unfold arr_ok, argc. cbn. rewrite Ha2, Hl2, length_app. cbn [length]. lia. }
  destruct ((len X =? 0) && _ && _) eqn:Ebig.
  - assert (X = []) as -> by (apply nil_length_inv; lia). cbn [app length] in *.
    assert (P' = []) as ->. { rewrite wrapu_small in Ebig by lia. apply nil_length_inv. rewrite !length_app in Ebig. cbn [length] in Ebig. lia. }
    rewrite app_nil_r in *. destruct (incrlen_cut (querybuf c) (a ++ e) 2 Hr) as (q & Hq & Hqr); [rewrite length_app; cbn; lia|lia|].
    change (- (2)) with (-2) in Hq. rewrite Hq. mnext. replace (Z.to_nat (len (a ++ e) - 2)) with (length a) in Hqr by (rewrite length_app; cbn; lia).
    rewrite take_app_length in Hqr. rewrite (rep_load _ _ Hqr). mnext. rewrite Hpush. mnext. change (bulklen (set_argv c1 _ _ _)) with (bulklen c). rewrite Hbl.
    unfold sdsnewlen. destruct (newlen_spec SDS_NOINIT (len a + 2) (replicate (Z.to_nat (len a + 2)) junk) false) as (q2 & -> & Hq2); [lia|done|].
    do 2 mnext. destruct (clear_spec q2 _ Hq2) as (q3 & -> & Hq3). do 2 mnext. eexists _, []. split; [done|]. split; [|done].
    by apply Hdone.
  - pose proof Hr as (_ & _ & rest & Hb). rewrite Hb. rewrite <- !app_assoc, load_app by done. mnext. rewrite Hpush. do 2 mnext.
    eexists _, (X ++ a ++ e). split; [done|]. split; [|done].
    apply Hdone; try done. split; [by rewrite <- !app_assoc|]. split; [cbn; rewrite !length_app, Hbl; cbn; lia|]. by rewrite <- !app_assoc.
Qed.

Lemma bulk_spec c X P F args a r T : reading c X P args (a :: r) → bulklen c = len a → len a < 2 ^ 61 → P ++ F = a ++ CRLF ++ T →
  len a + 2 <= len P →
  ∃ c' X' P', read_bulk c = Some c' ∧ reading c' X' P' (args ++ [a]) r ∧ bulklen c' = -1 ∧ P' ++ F = T ∧ len P' < len P.
Proof.
  intros Hrd Hbl Hla E Hlen. destruct (prefix_cases a P F T E) as [[h ->]|[->|(P' & -> & ET)]]; [rewrite length_app in Hlen; lia|rewrite length_app in Hlen; cbn in Hlen; lia|].
  destruct (bulk_core c X a CRLF P' args r Hrd eq_refl Hbl Hla) as (c' & X' & ? & ? & ?). exists c', X', P'. split_and!; try done. rewrite !length_app. cbn. lia.
Qed.

(** The loop reads arguments as long as their bytes are there. *)
Lemma bulk_loop_spec todo : ∀ fuel c X P F args T, reading c X P args todo → Forall arg_ok todo → len P < Z.of_nat fuel →
  P ++ F = todo_bytes c todo ++ T →
  ∃ c' X' P' args' todo', bulk_loop auth maxbulk fuel c = Some (c', true) ∧ reading c' X' P' args' todo' ∧
    args ++ todo = args' ++ todo' ∧ P' ++ F = todo_bytes c' todo' ++ T ∧ len P' <= len P ∧
    (todo' = [] ∧ bulklen c' = -1 ∧ (todo ≠ [] → len P' < len P) ∨ len P' < len (todo_bytes c' todo')).
Proof.
  induction todo as [|a r IH]; intros fuel c X P F args T Hrd Hok Hf E.
  - exists c, X, P, args, []. pose proof Hrd as [_ _ _ _ Hto _ Hbl]. destruct fuel; cbn [bulk_loop]; rewrite Hto; split_and!; try done; left;
      (split; [done|]); (split; [|done]); destruct Hbl as [|(? & ? & ? & _)]; done.
  - destruct fuel as [|fuel]; [cbn in Hf; lia|]. cbn [bulk_loop]. pose proof Hrd as [_ _ _ _ Hto _ Hbl].
    replace (multibulklen c =? 0) with false by (rewrite Hto; cbn; lia). apply Forall_cons in Hok as [Ha Hok].
    assert (Hbody : ∀ c1 X1 P1, reading c1 X1 P1 args (a :: r) → bulklen c1 = len a → P1 ++ F = a ++ CRLF ++ enc_args r ++ T → len P1 <= len P →
      ∃ c' X' P' args' todo', (if unparsed c1 <? u64 (bulklen c1 + 2) then Some (c1, true) else c ← read_bulk c1; bulk_loop auth maxbulk fuel c) = Some (c', true) ∧
        reading c' X' P' args' todo' ∧ args ++ a :: r = args' ++ todo' ∧ P' ++ F = todo_bytes c' todo' ++ T ∧ len P' <= len P ∧
        (todo' = [] ∧ bulklen c' = -1 ∧ (a :: r ≠ [] → len P' < len P) ∨ len P' < len (todo_bytes c' todo'))).
    { intros c1 X1 P1 Hrd1 Hbl1 E1 Hle. destruct Ha as (_ & _ & Hla). rewrite (proj1 (unparsed_spec _ _ _ (r_holds _ _ _ _ _ Hrd1))), Hbl1, wrapu_small by lia.
      assert (Htb : todo_bytes c1 (a :: r) = a ++ CRLF ++ enc_args r) by (unfold todo_bytes; rewrite Hbl1; by replace (len a =? -1) with false by lia).
      destruct (Z.ltb_spec (len P1) (len a + 2)).
      - exists c1, X1, P1, args, (a :: r). rewrite Htb. split_and!; try done; [by rewrite <- !app_assoc|right]. rewrite !length_app. cbn [length CRLF]. lia.
      - destruct (bulk_spec c1 X1 P1 F args a r _ Hrd1 Hbl1 Hla E1) as (c2 & X2 & P2 & -> & Hrd2 & Hbl2 & E2 & Hlt); [lia|]. mnext.
        destruct (IH fuel c2 X2 P2 F (args ++ [a]) T Hrd2 Hok) as (c' & X' & P' & args' & todo' & Hl & Hrd' & Hsp & E' & Hle' & Hend); [lia| |].
        { rewrite E2. unfold todo_bytes. by rewrite Hbl2. }
        exists c', X', P', args', todo'. split_and!; try done; [by rewrite <- Hsp, <- app_assoc|lia|]. destruct Hend as [(? & ? & _)|]; [left|by right]. split_and!; [done..|intros _; lia]. }
    destruct (Z.eqb_spec (bulklen c) (-1)) as [Hm|Hm].
    + unfold todo_bytes in E. rewrite Hm in E. change (enc_args (a :: r)) with (enc_arg a ++ enc_args r) in E. cbn [Z.eqb Pos.eqb] in E. rewrite <- app_assoc in E.
      destruct (bulk_len_spec c X P F args a r _ Hrd Hm Ha E) as [[-> Hlt]|(c1 & X1 & P1 & -> & Hrd1 & Hbl1 & E1 & Hlt)].
      * mnext. exists c, X, P, args, (a :: r). unfold todo_bytes. rewrite Hm. cbn [Z.eqb Pos.eqb]. change (enc_args (a :: r)) with (enc_arg a ++ enc_args r).
        split_and!; try done; [by rewrite <- app_assoc|right]. unfold enc_arg. rewrite !length_app. cbn [length CRLF]. lia.
      * mnext. apply (Hbody c1 X1 P1); try done. lia.
    + mnext. destruct Hbl as [|(a' & r' & [= <- <-] & Hbl)]; [done|]. apply (Hbody c X P); try done.
      rewrite E. unfold todo_bytes. rewrite Hbl. replace (len a =? -1) with false by lia. by rewrite <- !app_assoc.
Qed.

(** ** Requests *)

(** A request: an array of arguments, or a line with them. *)
Inductive request := Bulk (args : list (list Z)) | Line (line : list Z) (cr : bool) (args : list (list Z)).

Definition req_args (r : request) : list (list Z) := match r with Bulk args => args | Line _ _ args => args end.
Definition enc_req (r : request) : list Z :=
  match r with
  | Bulk args => enc_cmd args
  | Line line cr _ => line ++ (if cr then CRLF else [10])
  end.
Definition enc_reqs (rs : list request) : list Z := concat (map enc_req rs).
Definition req_type (r : request) : Z := match r with Bulk _ => PROTO_REQ_MULTIBULK | Line _ _ _ => PROTO_REQ_INLINE end.

Definition req_ok (r : request) : Prop :=
  match r with
  | Bulk args => len args <= INT_MAX ∧ (auth = true → len args <= 10) ∧ Forall arg_ok args
  | Line line cr args =>
      Forall (λ c, c ≠ 10 ∧ c ≠ 0) line ∧ len line < PROTO_INLINE_MAX_SIZE ∧ head line ≠ Some 42 ∧
      (cr = false → last line ≠ Some 13) ∧ sdssplitargs (line ++ [0]) = Some (Some args)
  end.

Lemma enc_reqs_cons r rs : enc_reqs (r :: rs) = enc_req r ++ enc_reqs rs.
Proof. done. Qed.

(** Between two requests, or before the end of the first line of one. *)
Definition idle (c : client) (X P : list Z) : Prop :=
  holds c X P ∧ plain c ∧ multibulklen c = 0 ∧ bulklen c = -1 ∧ argv c = [].

(** What the client waits for: [P] was received and not consumed, [F] is to come. *)
Inductive waits (c : client) (X P F : list Z) (rs : list request) : Prop :=
  | waits_idle : idle c X P → P ++ F = enc_reqs rs →
      (reqtype c = 0 ∨ P ≠ [] ∧ ∃ r rs', rs = r :: rs' ∧ reqtype c = req_type r) → waits c X P F rs
  | waits_args args todo rs' : reading c X P args todo → todo ≠ [] → rs = Bulk (args ++ todo) :: rs' →
      P ++ F = todo_bytes c todo ++ enc_reqs rs' → waits c X P F rs.

Lemma mbulk_count_spec c X P F args T : idle c X P → reqtype c = PROTO_REQ_MULTIBULK → len args <= INT_MAX → (auth = true → len args <= 10) →
  P ++ F = enc_cmd args ++ T →
  (read_mbulk_count auth c = Some (c, None) ∧ len P < len (enc_cmd args)) ∨
  ∃ c' X' P', P' ++ F = enc_args args ++ T ∧ len P' < len P ∧
    (args = [] ∧ read_mbulk_count auth c = Some (c', Some true) ∧ idle c' X' P' ∨
     args ≠ [] ∧ read_mbulk_count auth c = Some (c', Some false) ∧ reading c' X' P' [] args ∧ bulklen c' = -1).
Proof.
  intros (Hh & Hpl & Hmb & Hbl & Har) Hty Hmax Hauth E. unfold INT_MAX in Hmax. unfold enc_cmd in *. rewrite <- !app_assoc in E.
  pose proof (len_enc_len 42 (len args) ltac:(lia)) as Hll. set (h := enc_len 42 (len args)) in *. unfold read_mbulk_count, argc.
  rewrite Har. cbn [length Z.of_nat Z.eqb negb].
  destruct (find_line_spec c X P F h _ Hh E) as [(Hlt & [[-> Hle]| ->])|(P' & HP & ET & ->)]; [by apply enc_len_chars|by unfold h, enc_len| | |].
  - left. mnext. rewrite (proj1 (unparsed_spec _ _ _ Hh)). unfold PROTO_INLINE_MAX_SIZE. replace (len P >? _) with false by lia. split; [done|].
    rewrite !length_app. cbn [length CRLF]. lia.
  - left. mnext. split; [done|]. rewrite !length_app. cbn [length CRLF]. lia.
  - right. mnext. destruct (line_number_spec c X P 42 (len args) (CRLF ++ P') Hh HP) as [Hnum Hld]; [lia|]. rewrite Hld. mnext.
    change (negb (42 =? 42)) with false. cbv iota. fold h in Hnum. rewrite Hnum. mnext. unfold INT_MAX. replace (len args >? 2 ^ 31 - 1) with false by lia.
    replace ((len args >? 10) && auth) with false by (destruct auth; [specialize (Hauth eq_refl)|]; lia).
    cbv zeta. set (c1 := set_pos c (len X + len h + 2)).
    assert (Hh1 : holds c1 (X ++ h ++ CRLF) P').
    { destruct Hh as (Hr & Hp & Hm). rewrite HP in Hr, Hm. split; [by rewrite <- !app_assoc|].
      split; [change (qb_pos c1) with (len X + len h + 2); rewrite !length_app; change (length CRLF) with 2%nat; lia|by rewrite <- !app_assoc]. }
    assert (Hlp : len P' < len P) by (rewrite HP, !length_app; lia). destruct (Z.leb_spec (len args) 0).
    + exists c1, (X ++ h ++ CRLF), P'. split; [done|]. split; [done|]. left. split; [apply nil_length_inv; lia|]. split; [done|]. by split_and!.
    + eexists _, (X ++ h ++ CRLF), P'. split; [done|]. split; [done|]. right. split; [by destruct args|]. split; [done|]. split; [|done].
      constructor; try done; [|by left]. unfold arr_ok, argc. cbn. rewrite Har. cbn [length]. unfold INT_MAX. lia.
Qed.

(** A command is there, with the bytes after it. *)
Definition ready (c : client) (X P : list Z) (args : list (list Z)) : Prop :=
  holds c X P ∧ plain c ∧ multibulklen c = 0 ∧ bulklen c = -1 ∧ argv c = args.

(** The first request is not complete. *)
Definition stuck (F : list Z) (rs : list request) : Prop :=
  match rs with [] => True | _ :: rs' => len (enc_reqs rs') < len F end.

Lemma stuck_len (P F B : list Z) r rs : P ++ F = B ++ enc_reqs rs → len P < len B → stuck F (r :: rs).
Proof. intros E Hl. apply (f_equal length) in E. rewrite !length_app in E. cbn. lia. Qed.

(** The arguments that are still missing, and the end of processMultibulkBuffer. *)
Definition read_args (c : client) : option (client * bool) :=
  if negb (multibulklen c >? 0) then None
  else
    '(c, ok) ← bulk_loop auth maxbulk (S (length (s_buf (querybuf c)))) c;
    Some (c, ok && (multibulklen c =? 0)).

(** What a step of the parser did: the first request is complete, or it waits. *)
Definition step_result (c' : client) (ok : bool) (P F : list Z) (r : request) (rs : list request) : Prop :=
  ∃ X' P', if ok then ready c' X' P' (req_args r) ∧ P' ++ F = enc_reqs rs ∧ len P' < len P
           else waits c' X' P' F (r :: rs) ∧ stuck F (r :: rs).

Lemma read_args_spec c X P F args todo rs : reading c X P args todo → todo ≠ [] → Forall arg_ok todo →
  P ++ F = todo_bytes c todo ++ enc_reqs rs →
  ∃ c' ok, read_args c = Some (c', ok) ∧ step_result c' ok P F (Bulk (args ++ todo)) rs.
Proof.
  intros Hrd Hne Hok E. pose proof Hrd as [((_ & _ & rest & Hb) & _ & _) _ _ _ Hto _ _]. unfold read_args.
  assert (0 < len todo) by (destruct todo; [done|cbn; lia]). replace (multibulklen c >? 0) with true by lia. cbn [negb].
  destruct (bulk_loop_spec todo (S (length (s_buf (querybuf c)))) c X P F args (enc_reqs rs) Hrd Hok) as (c' & X' & P' & args' & todo' & -> & Hrd' & Hsp & E' & _ & Hend);
    [rewrite Hb, !length_app; lia|done|]. mnext. pose proof Hrd' as [Hh' Hpl' _ Har' Hto' _ _]. exists c', (multibulklen c' =? 0). split; [done|].
  exists X', P'. destruct todo' as [|a todo'].
  - rewrite Hto'. cbn [length Z.of_nat Z.eqb]. destruct Hend as [(_ & Hbl & Hlt)|Hend].
    + rewrite app_nil_r in Hsp. unfold todo_bytes in E'. rewrite Hbl in E'. split; [|split; [done|by apply Hlt]]. split_and!; try done. cbn. by rewrite Hsp.
    + exfalso. revert Hend. unfold todo_bytes. case_if; cbn; lia.
  - replace (multibulklen c' =? 0) with false by (rewrite Hto'; cbn; lia). destruct Hend as [(? & _)|Hend]; [done|]. rewrite Hsp.
    split; [by eapply waits_args|]. by eapply stuck_len.
Qed.

Lemma multibulk_spec c X P F r rs : waits c X P F (r :: rs) → reqtype c = PROTO_REQ_MULTIBULK → req_type r = PROTO_REQ_MULTIBULK → req_ok r →
  ∃ c' ok, processMultibulkBuffer auth maxbulk c = Some (c', ok) ∧ step_result c' ok P F r rs.
Proof.
  intros Hw Hty Hrt Hok. destruct r as [args|]; [|done]. destruct Hok as (Hmax & Hauth & Hargs).
  unfold processMultibulkBuffer. destruct Hw as [Hid E Hr|args1 todo rs' Hrd Hne [= -> ->] E].
  - pose proof Hid as (_ & _ & Hmb & _). rewrite Hmb. cbn [Z.eqb]. rewrite enc_reqs_cons in E.
    destruct (mbulk_count_spec c X P F args _ Hid Hty Hmax Hauth E) as [[-> Hlt]|(c1 & X1 & P1 & E1 & Hlt & [(-> & -> & Hid1)|(Hne & -> & Hrd1 & Hbl1)])]; mnext.
    + exists c, false. split; [done|]. exists X, P. split; [|by eapply stuck_len]. by apply waits_idle.
    + exists c1, true. split; [done|]. exists X1, P1. split; [done|]. split; [done|lia].
    + fold (read_args c1). destruct (read_args_spec c1 X1 P1 F [] args rs Hrd1 Hne Hargs) as (c' & ok & -> & X' & P' & Hres).
      { unfold todo_bytes. by rewrite Hbl1. }
      exists c', ok. split; [done|]. exists X', P'. destruct ok; [|done]. destruct Hres as (? & ? & ?). split_and!; [done..|lia].
  - pose proof Hrd as [_ _ _ _ Hto _ _]. replace (multibulklen c =? 0) with false by (rewrite Hto; destruct todo; [done|cbn; lia]). mnext.
    apply Forall_app in Hargs as [_ Htodo]. apply (read_args_spec c X P F args1 todo rs' Hrd Hne Htodo E).
Qed.

Lemma prefix_char (L P F T : list Z) x : P ++ F = L ++ x :: T → (∃ h, L = P ++ h) ∨ ∃ P', P = L ++ x :: P' ∧ P' ++ F = T.
Proof.
  intros E. destruct (decide (length P <= length L)%nat).
  - left. exists (drop (length P) L). apply (f_equal (take (length P))) in E. rewrite take_app_length, take_app_le in E by lia.
    rewrite E at 1. by rewrite take_drop.
  - right. assert (E1 : P = L ++ drop (length L) P).
    { apply (f_equal (take (length L))) in E. rewrite take_app_length, take_app_le in E by lia. rewrite <- E at 1. by rewrite take_drop. }
    set (Q := drop (length L) P) in *. clearbody Q. subst P. rewrite <- app_assoc in E. apply app_inv_head in E.
    destruct Q as [|q Q]; [rewrite app_nil_r in *; lia|]. cbn in E. injection E as -> E. by exists Q.
Qed.

(** A line up to its newline, with its carriage return. *)
Definition full_line (line : list Z) (cr : bool) : list Z := if cr then line ++ [13] else line.

Lemma line_cut X line cr Y : (cr = false → last line ≠ Some 13) →
  (if negb (len X + len (full_line line cr) =? len X) then
     b ← load8 (X ++ full_line line cr ++ 10 :: Y) (len X + len (full_line line cr) - 1);
     Some (if b =? 13 then (len X + len (full_line line cr) - 1, 2) else (len X + len (full_line line cr), 1))
   else Some (len X + len (full_line line cr), 1)) = Some (len X + len line, if cr then 2 else 1).
Proof.
  intros Hcr. destruct cr; cbn [full_line].
  - rewrite length_app. cbn [length]. replace (_ =? len X) with false by lia. cbn [negb].
    rewrite <- app_assoc, app_assoc. cbn [app]. rewrite load8_app by (rewrite length_app; lia). mnext. do 2 f_equal. lia.
  - destruct line as [|x line _] using rev_ind; [cbn [length Z.of_nat]; rewrite Z.add_0_r, Z.eqb_refl; done|].
    rewrite last_snoc in Hcr. rewrite length_app. cbn [length]. replace (_ =? len X) with false by lia. cbn [negb].
    rewrite <- app_assoc, app_assoc. cbn [app]. rewrite load8_app by (rewrite length_app; lia). mnext.
    replace (x =? 13) with false; [done|]. symmetry. apply Z.eqb_neq. intros ->. by apply Hcr.
Qed.

(** The client after a line that splits into [args]. *)
Definition after_line (c : client) (n lf : Z) (args : list (list Z)) : client :=
  let c := set_pos c (qb_pos c + (n + lf)) in
  set_argv c args (if negb (len args =? 0) then len args else argv_len c)
    ((if negb (len args =? 0) then 0 else argv_len_sum c) + sum_len args).

Lemma inline_core c X line cr P r : holds c X (full_line line cr ++ 10 :: P) → is_master c = false →
  Forall (λ c, c ≠ 10 ∧ c ≠ 0) line → (cr = false → last line ≠ Some 13) → len line < 2 ^ 62 → sdssplitargs (line ++ [0]) = Some r →
  processInlineBuffer c = Some (match r with
                                | Some args => (after_line c (len line) (if cr then 2 else 1) args, true)
                                | None => (setProtocolError UnbalancedQuotes c, false)
                                end).
Proof.
  intros Hh Hnm Hch Hcr Hlen Hsplit. pose proof Hh as ((_ & _ & rest & Hb) & Hp & Hm). set (L := full_line line cr) in *.
  assert (HLc : Forall (λ c, c ≠ 10 ∧ c ≠ 0) L) by (unfold L, full_line; destruct cr; [apply Forall_app; split; [done|by repeat constructor]|done]).
  unfold processInlineBuffer, strchr_at. rewrite Hb, Hp.
  assert (EB : (X ++ L ++ 10 :: P) ++ 0 :: rest = X ++ L ++ 10 :: P ++ 0 :: rest) by (rewrite <- !app_assoc; done). rewrite EB.
  rewrite strchr_found by (first [done|rewrite !length_app; lia]). mnext. unfold L. rewrite line_cut by done. mnext. cbv zeta.
  replace (len X + len line - len X) with (len line) by lia.
  assert (load (X ++ full_line line cr ++ 10 :: P ++ 0 :: rest) (len X) (len line) = Some line) as ->.
  { unfold full_line. destruct cr; [rewrite <- app_assoc|]; by apply load_app. }
  mnext. unfold sdsnewlen. destruct (newlen_spec (Bytes line) (len line) line false) as (aux & -> & _ & _ & rest' & Haux); [lia|apply load_all|].
  do 2 mnext. rewrite Haux. pose proof (splitargs_grow _ rest' _ Hsplit) as Hsp. rewrite <- app_assoc in Hsp. cbn [app] in Hsp. rewrite Hsp. mnext.
  rewrite Hnm, andb_false_r. destruct r; [|done]. unfold after_line. by rewrite Hp.
Qed.

Lemma line_holds c X line cr P args : holds c X (full_line line cr ++ 10 :: P) →
  holds (after_line c (len line) (if cr then 2 else 1) args) (X ++ full_line line cr ++ [10]) P.
Proof.
  intros (Hr & Hp & Hm). unfold after_line. split; [by cbn; rewrite <- !app_assoc|]. split; [|by rewrite <- !app_assoc].
  cbn [qb_pos set_argv set_pos set_querybuf]. rewrite !length_app. unfold full_line. destruct cr; rewrite ?length_app; cbn [length]; lia.
Qed.

Lemma inline_spec c X P F line cr args rs : idle c X P → reqtype c = PROTO_REQ_INLINE → req_ok (Line line cr args) →
  P ++ F = enc_reqs (Line line cr args :: rs) → P ≠ [] →
  ∃ c' ok, processInlineBuffer c = Some (c', ok) ∧ step_result c' ok P F (Line line cr args) rs.
Proof.
  intros Hid Hty (Hch & Hlen & Hhd & Hcr & Hsplit) E HP. pose proof Hid as (Hh & Hpl & Hmb & Hbl & Har). pose proof Hh as (Hr & Hp & Hm).
  pose proof Hr as (_ & _ & rest & Hb). pose proof Hpl as (Hnm & _). set (L := full_line line cr).
  assert (HL : enc_req (Line line cr args) = L ++ [10]) by (unfold L, full_line; destruct cr; [by rewrite <- app_assoc|done]).
  assert (HLc : Forall (λ c, c ≠ 10 ∧ c ≠ 0) L) by (unfold L, full_line; destruct cr; [apply Forall_app; split; [done|by repeat constructor]|done]).
  assert (HLl : len L <= PROTO_INLINE_MAX_SIZE) by (unfold L, full_line; destruct cr; rewrite ?length_app; cbn [length]; lia).
  assert (E' : P ++ F = L ++ 10 :: enc_reqs rs) by by rewrite E, enc_reqs_cons, HL, <- app_assoc.
  destruct (prefix_char L P F _ 10 E') as [[h Hpre]|(P' & -> & ET)].
  - unfold processInlineBuffer, strchr_at. rewrite Hb, Hp, (proj1 (unparsed_spec _ _ _ Hh)). rewrite Hpre in HLc. apply Forall_app in HLc as [HPc _].
    rewrite <- app_assoc, strchr_missing by (first [done|rewrite !length_app; lia]). mnext.
    assert (len P <= len L) by (rewrite Hpre, length_app; lia). replace (len P >? _) with false by lia.
    exists c, false. split; [done|]. exists X, P. split; [|by apply (stuck_len P F (L ++ [10])); [rewrite <- app_assoc|rewrite length_app; cbn [length]; lia]].
    apply waits_idle; [done..|]. right. split; [done|]. eexists _, _. done.
  - assert (Hc : holds c X (full_line line cr ++ 10 :: P')) by done.
    rewrite (inline_core c X line cr P' (Some args)) by (done || (unfold PROTO_INLINE_MAX_SIZE in Hlen; lia)).
    eexists _, true. split; [done|]. exists (X ++ L ++ [10]), P'. split; [|split; [done|rewrite length_app; cbn; lia]].
    split_and!; try done. by apply line_holds.
Qed.

End stream.

(** ** Executing *)

Section executing.
Context `{Malloc} (maxbulk maxquery : Z).

Context {W : Type} (processCommand : W → list (list Z) → W * cmd_effect) (authRequired : W → bool).

(** The requests are accepted with and without authentication if it is ever required. *)
Context (auth : bool) (Hauth : ∀ s, authRequired s = true → auth = true).
Notation accepted := (req_ok auth maxbulk).

(** Commands that neither block nor close the client. *)
Definition benign : Prop := ∀ s args, ∃ multi, (processCommand s args).2 = mk_cmd_effect true multi false false false false.

Definition exec_req (s : W) (r : request) : W := match req_args r with [] => s | args => (processCommand s args).1 end.
Definition exec_reqs (s : W) (rs : list request) : W := foldl exec_req s rs.

Lemma enc_req_cons r : accepted r → ∃ x t, enc_req r = x :: t ∧ ((x =? 42) = true ↔ req_type r = PROTO_REQ_MULTIBULK).
Proof.
  destruct r as [args|line cr args]; [intros _; by eexists _, _|]. intros (_ & _ & Hh & _). cbn [enc_req req_type].
  destruct line as [|x line].
  - destruct cr; by eexists _, _.
  - eexists x, _. split; [done|]. split; [|done]. intros ->%Z.eqb_eq. done.
Qed.

Lemma todo_bytes_pos c todo : todo ≠ [] → 0 < len (todo_bytes c todo).
Proof.
  intros Hne. destruct todo as [|a todo]; [done|]. unfold todo_bytes. case_if; [|rewrite !length_app; cbn; lia].
  change (enc_args (a :: todo)) with (enc_arg a ++ enc_args todo). unfold enc_arg. rewrite !length_app. cbn. lia.
Qed.

Lemma waits_holds c X P F rs : waits c X P F rs → holds c X P ∧ plain c.
Proof. intros [(? & ? & _) _ _|? ? ? [? ? _ _ _ _ _] _ _ _]; done. Qed.

Lemma ready_reset c X P F args rs w : benign → ready c X P args → args ≠ [] → P ++ F = enc_reqs rs →
  ∃ c', processCommandAndResetClient processCommand c w = Some (c', mk_world (processCommand (server w) args).1 (fed w), true) ∧
    waits c' X P F rs.
Proof.
  intros Hben (Hh & Hpl & Hmb & Hbl & Har) Hne E. unfold processCommandAndResetClient. rewrite Har. destruct (Hben (server w) args) as [multi Hm].
  destruct (processCommand (server w) args) as [s e]. cbn in Hm. subst e. cbv iota zeta. cbn [ret_ok e_multi e_blocked e_close e_asap freed].
  unfold commandProcessed. cbn [blocked set_flags]. destruct Hpl as (Hnm & Hbk & Hcl & Has & Her). cbv zeta. rewrite Hcl, Has. cbn [is_master]. 
  cbn [is_master resetClient set_parse freeClientArgv set_argv set_flags set_repl]. rewrite Hnm. cbn [andb]. mnext. eexists. split; [done|].
  apply waits_idle; [|done|by left]. split_and!; try done.
Qed.

Lemma typed c X P F r rs : waits c X P F (r :: rs) → accepted r → P ≠ [] →
  ∃ first, load8 (s_buf (querybuf c)) (qb_pos c) = Some first ∧
    let c1 := if reqtype c =? 0 then
                set_parse c (if first =? 42 then PROTO_REQ_MULTIBULK else PROTO_REQ_INLINE) (multibulklen c) (bulklen c)
              else c in
    waits c1 X P F (r :: rs) ∧ reqtype c1 = req_type r.
Proof.
  intros Hw Hok HP. destruct P as [|x P]; [done|]. exists x. destruct (waits_holds _ _ _ _ _ Hw) as [((_ & _ & rest & Hb) & Hp & _) _].
  split; [rewrite Hb, Hp, <- app_assoc; by apply load8_app|]. cbv zeta.
  destruct Hw as [Hid E Hr|args todo rs' Hrd Hne [= -> ->] E].
  - destruct (enc_req_cons r Hok) as (y & t & Hy & Hiff). rewrite enc_reqs_cons, Hy in E. injection E as -> E.
    destruct Hr as [Hr|(_ & r' & rs' & [= <- <-] & Hr)].
    + rewrite Hr. cbn [Z.eqb]. assert (Ht : (if y =? 42 then PROTO_REQ_MULTIBULK else PROTO_REQ_INLINE) = req_type r).
      { destruct (y =? 42) eqn:Ey; [symmetry; by apply Hiff|]. destruct r; [|done]. by destruct Hiff as [_ Hiff]; specialize (Hiff eq_refl). }
      rewrite Ht. split; [|done]. apply waits_idle; [done|by rewrite enc_reqs_cons, Hy; cbn; rewrite E|]. right. split; [done|]. by eexists _, _.
    + replace (reqtype c =? 0) with false by (rewrite Hr; by destruct r). split; [|done].
      apply waits_idle; [done|by rewrite enc_reqs_cons, Hy; cbn; rewrite E|]. right. split; [done|]. by eexists _, _.
  - pose proof Hrd as [_ _ Hty _ _ _ _]. rewrite Hty. cbn [Z.eqb]. split; [|done]. by eapply waits_args.
Qed.

(** A request that is accepted when authentication may be required is accepted. *)
Lemma req_ok_mono a maxb r : (a = true → auth = true) → req_ok auth maxb r → req_ok a maxb r.
Proof.
  intros Ha. destruct r as [args|line cr args]; cbn; [|done]. intros (? & ? & Hf). split; [done|]. split; [auto|].
  eapply Forall_impl; [exact Hf|]. intros x (? & ? & ?). split_and!; auto.
Qed.

Lemma step_spec a c X P F r rs : waits c X P F (r :: rs) → reqtype c = req_type r → req_ok a maxbulk r → P ≠ [] →
  ∃ c' ok, (if reqtype c =? PROTO_REQ_INLINE then processInlineBuffer c
            else if reqtype c =? PROTO_REQ_MULTIBULK then processMultibulkBuffer a maxbulk c else None) = Some (c', ok) ∧
    step_result c' ok P F r rs.
Proof.
  intros Hw Hty Hok HP. rewrite Hty. destruct r as [args|line cr args]; cbn [req_type].
  - by apply (multibulk_spec a maxbulk c X P F (Bulk args) rs).
  - destruct Hw as [Hid E Hr|? ? ? _ _ [=] _]. by apply (inline_spec a maxbulk c X P F line cr args rs).
Qed.

Lemma empty_waits c X P args : ready c X P args → args = [] → idle (resetClient c) X P.
Proof. intros (Hh & Hpl & Hmb & Hbl & Har) ->. by split_and!. Qed.

Lemma waits_nil c X F rs : waits c X [] F rs → Forall accepted rs → stuck F rs.
Proof.
  intros Hw Hok. destruct rs as [|r rs]; [done|]. apply Forall_cons in Hok as [Hok _]. destruct Hw as [_ E _|args todo rs' _ Hne [= -> ->] E].
  - rewrite enc_reqs_cons in E. eapply (stuck_len []); [exact E|]. destruct (enc_req_cons r Hok) as (x & t & -> & _). cbn. lia.
  - eapply (stuck_len []); [exact E|]. by apply todo_bytes_pos.
Qed.

Lemma input_loop_spec busy (Hben : benign) fuel : ∀ c w X P F rs, waits c X P F rs → Forall accepted rs → len P < Z.of_nat fuel →
  ∃ c' X' P' ds rs', rs = ds ++ rs' ∧
    input_loop processCommand authRequired maxbulk busy fuel c w = Some (c', mk_world (exec_reqs (server w) ds) (fed w), true) ∧
    waits c' X' P' F rs' ∧ stuck F rs'.
Proof.
  induction fuel as [|fuel IH]; intros c w X P F rs Hw Hok Hf; [lia|]. destruct (waits_holds _ _ _ _ _ Hw) as [Hh (Hnm & Hbk & Hcl & Has & Her)].
  cbn [input_loop]. pose proof (proj2 (unparsed_spec _ _ _ Hh)) as Hsl. pose proof Hh as (_ & Hp & _).
  destruct (decide (P = [])) as [->|HP].
  { if_false. exists c, X, [], [], rs. destruct w. split_and!; try done. by eapply waits_nil. }
  assert (0 < len P) by (destruct P; [done|cbn; lia]). if_true. cbv iota. rewrite Hbk, Hnm, andb_false_r, Hcl, Has. cbn [orb].
  destruct rs as [|r rs]; [destruct Hw as [_ E _|? ? ? _ _ [=] _]; by apply app_eq_nil in E as [-> _]|]. apply Forall_cons in Hok as [Hr Hok].
  destruct (typed c X P F r rs Hw Hr HP) as (first & -> & Hw1 & Hty). mnext. cbv zeta in Hw1, Hty. set (c1 := if reqtype c =? 0 then _ else c) in *. cbv zeta.
  destruct (step_spec (authRequired (server w)) c1 X P F r rs Hw1 Hty (req_ok_mono _ _ _ (Hauth _) Hr) HP) as (c2 & ok & -> & X2 & P2 & Hres). mnext. destruct ok; cbn [negb].
  2: { exists c2, X2, P2, [], (r :: rs). destruct w, Hres. by split_and!. }
  destruct Hres as (Hrdy & E2 & Hlt). unfold argc. pose proof Hrdy as (_ & _ & _ & _ & Har). rewrite Har.
  destruct (decide (req_args r = [])) as [Ha|Ha].
  - rewrite Ha. cbn [length Z.of_nat Z.eqb].
    destruct (IH (resetClient c2) w X2 P2 F rs) as (c' & X' & P' & ds & rs' & -> & -> & Hw' & Hst); [|done|lia|].
    { apply waits_idle; [by eapply empty_waits|done|by left]. }
    exists c', X', P', (r :: ds), rs'. split; [done|]. split; [|done]. do 3 f_equal. unfold exec_reqs. cbn [foldl]. unfold exec_req at 3. by rewrite Ha.
  - replace (len (req_args r) =? 0) with false by (destruct (req_args r); [done|cbn; lia]).
    destruct (ready_reset c2 X2 P2 F _ rs w Hben Hrdy Ha E2) as (c3 & -> & Hw3). mnext. cbn [negb].
    destruct (IH c3 (mk_world (processCommand (server w) (req_args r)).1 (fed w)) X2 P2 F rs) as (c' & X' & P' & ds & rs' & -> & -> & Hw' & Hst); [done|done|lia|].
    exists c', X', P', (r :: ds), rs'. split; [done|]. split; [|done]. do 3 f_equal. unfold exec_reqs. cbn [foldl server fed]. unfold exec_req at 3.
    by destruct (req_args r).
Qed.

(** ** Reading *)

(** The buffer changes and holds the same bytes, or more. *)
Lemma reading_more c q X Y P P' args todo : reading c X P args todo → holds (set_querybuf c q (len Y)) Y P' →
  reading (set_querybuf c q (len Y)) Y P' args todo.
Proof. by intros [_ ? ? ? ? ? ?] Hh. Qed.

Lemma waits_more c q X Y P bs F rs : waits c X P (bs ++ F) rs → holds (set_querybuf c q (len Y)) Y (P ++ bs) →
  waits (set_querybuf c q (len Y)) Y (P ++ bs) F rs.
Proof.
  intros [(_ & Hid) E Hr|args todo rs' Hrd Hne -> E] Hh.
  - apply waits_idle; [done|by rewrite <- app_assoc|]. destruct Hr as [|[Hne Hr]]; [by left|right]. split; [by destruct P|done].
  - eapply waits_args; [by eapply reading_more|done|done|by rewrite <- app_assoc].
Qed.

Lemma waits_bulk c X P F rs : waits c X P F rs → -1 <= bulklen c <= len P + len F.
Proof.
  intros [(_ & _ & _ & -> & _) _ _|args todo rs' [_ _ _ _ _ _ Hb] Hne -> E]; [lia|].
  apply (f_equal length) in E. rewrite !length_app in E. unfold todo_bytes in E. destruct Hb as [->|(a & r & -> & Hb)]; [lia|].
  rewrite Hb in *. replace (len a =? -1) with false in E by lia. rewrite !length_app in E. lia.
Qed.

Lemma room_spec c X P : holds c X P → -1 <= bulklen c < 2 ^ 61 →
  ∃ q n, read_room c = Some (set_querybuf c q (len X), n) ∧ sds_rep q (X ++ P) ∧ 0 < n ∧ len (X ++ P) + n <= sdsalloc q.
Proof.
  intros Hh Hb. pose proof (proj1 (unparsed_spec _ _ _ Hh)) as Hu. destruct Hh as (Hr & Hp & Hm). unfold read_room. cbv zeta. rewrite Hp, Hu.
  assert (Hrem : s64 (u64 (bulklen c + 2) - len P) = bulklen c + 2 - len P).
  { rewrite length_app in Hm. rewrite (wrapu_small 64) by lia. apply wraps_small; lia. }
  rewrite Hrem. set (big := _ && _ && _ && _). set (n0 := if big && _ then _ else _). set (n := if big && is_master c && _ then _ else n0).
  assert (Hn : 0 < n < 2 ^ 62) by (unfold n, n0, PROTO_IOBUF_LEN; repeat case_if; lia).
  unfold sdsMakeRoomFor, sdsMakeRoomForNonGreedy. case_if.
  - destruct (room_rep _ _ n false Hr) as (q & -> & Hq & Hle); [lia|lia|]. mnext. exists q, n. split_and!; (done || lia).
  - destruct (room_rep _ _ n true Hr) as (q & -> & Hq & Hle); [lia|lia|]. mnext. exists q, (sdsavail q).
    pose proof Hq as (Hwf & Hl & _). rewrite avail_wf by done. rewrite Hl. split_and!; (done || lia).
Qed.

Lemma inputBuffer_spec busy (Hben : benign) c w X P F rs : waits c X P F rs → Forall accepted rs →
  ∃ c' P' ds rs', rs = ds ++ rs' ∧
    processInputBuffer processCommand authRequired maxbulk busy c w = Some (c', mk_world (exec_reqs (server w) ds) (fed w), true) ∧
    waits c' [] P' F rs' ∧ stuck F rs'.
Proof.
  intros Hw Hok. unfold processInputBuffer. destruct (waits_holds _ _ _ _ _ Hw) as [((_ & _ & rest & Hb) & _ & _) _].
  destruct (input_loop_spec busy Hben (S (length (s_buf (querybuf c)))) c w X P F rs Hw Hok) as (c' & X' & P' & ds & rs' & -> & -> & Hw' & Hst); [rewrite Hb; len_lia|].
  mnext. cbn [negb]. destruct (waits_holds _ _ _ _ _ Hw') as [Hh (Hnm & _)]. rewrite Hnm. pose proof Hh as (Hr & Hp & Hm). destruct (Z.eqb_spec (qb_pos c') 0) as [E|E]; cbn [negb].
  - mnext. exists c', P', ds, rs'. split_and!; try done. destruct X'; [done|cbn in Hp; lia].
  - destruct (trim_spec_at c' X' P' Hh) as (q & -> & Hq). mnext. exists (set_querybuf c' q 0), P', ds, rs'. split_and!; try done.
    rewrite <- (app_nil_r P'). apply (waits_more c' q X' [] P' [] F rs' Hw'). rewrite app_nil_r. split_and!; [done..|]. rewrite length_app in Hm. cbn. lia.
Qed.

(** A connection that has [stream] to deliver, and gives up to [S n] bytes of it. *)
Definition recv (n : nat) (stream : list Z) (readlen : Z) : nat := Z.to_nat (Z.min (Z.min (Z.of_nat (S n)) (len stream)) (Z.min readlen INT_MAX)).
Definition conn_of (n : nat) (stream : list Z) (readlen : Z) : conn_read :=
  match take (recv n stream readlen) stream with [] => ReadAgain | bs => ReadBytes bs end.

(** The events of a connection: one read for each number, until the client is freed. *)
Fixpoint deliver (busy : bool) (ns : list nat) (stream : list Z) (c : client) (w : world) : option (read_result * list Z) :=
  match ns with
  | [] => Some (Alive c w, stream)
  | n :: ns =>
    '(_, readlen) ← read_room c;
    r ← readQueryFromClient processCommand authRequired maxbulk maxquery busy (conn_of n stream) c w;
    match r with
    | Alive c w => deliver busy ns (drop (recv n stream readlen) stream) c w
    | Freed w => Some (Freed w, drop (recv n stream readlen) stream)
    end
  end.

Lemma read_spec busy (Hben : benign) n c w P F rs : waits c [] P F rs → Forall accepted rs → stuck F rs →
  len P + len F <= maxquery → len P + len F < 2 ^ 61 →
  ∃ c1 readlen c' P' ds rs', read_room c = Some (c1, readlen) ∧ 0 < readlen ∧ rs = ds ++ rs' ∧
    readQueryFromClient processCommand authRequired maxbulk maxquery busy (conn_of n F) c w = Some (Alive c' (mk_world (exec_reqs (server w) ds) (fed w))) ∧
    waits c' [] P' (drop (recv n F readlen) F) rs' ∧ stuck (drop (recv n F readlen) F) rs'.
Proof.
  intros Hw Hok Hst Hq Hlen. destruct (waits_holds _ _ _ _ _ Hw) as [Hh (Hnm & _)]. pose proof (waits_bulk _ _ _ _ _ Hw) as Hb.
  destruct (room_spec c [] P Hh) as (q & readlen & Hroom & Hrq & Hpos & Hcap); [lia|]. cbn [app] in Hrq, Hcap.
  exists (set_querybuf c q 0), readlen. unfold readQueryFromClient. rewrite Hroom. mnext. unfold conn_of. set (k := recv n F readlen).
  assert (Hk : Z.of_nat k <= readlen) by (unfold k, recv, INT_MAX; lia).
  pose proof (take_drop k F) as EF. destruct (take k F) as [|b bs] eqn:Et.
  { exists (set_querybuf c q 0), P, [], rs. cbn [app] in EF. rewrite EF. destruct w. split_and!; try done.
    rewrite <- (app_nil_r P). apply (waits_more c q [] [] P [] F rs Hw). rewrite app_nil_r. split_and!; [done..|]. cbn. lia. }
  rewrite <- Et in EF |- *. assert (Hl : len (take k F) = Z.of_nat k ∧ 0 < len (take k F)).
  { split; [|rewrite Et; cbn; lia]. rewrite length_take. unfold k, recv. lia. }
  set (got := take k F) in *. set (F' := drop k F) in *. if_false. cbv iota. change (querybuf (set_querybuf c q (len []))) with q.
  destruct (append_room q P got Hrq) as (m & q' & Hm & Hq' & Hrep); [lia|lia|].
  replace (sdslen q) with (len P) by (by destruct Hrq as (_ & Hs & _)). rewrite Hm. mnext. rewrite Hq'. mnext.
  cbn [is_master set_querybuf]. rewrite Hnm. cbn [negb andb]. assert (Hsl : sdslen q' = len (P ++ got)) by (by destruct Hrep as (_ & Hs & _)).
  cbn [querybuf set_querybuf]. rewrite Hsl. assert (HF : len F = len got + len F') by (rewrite <- EF at 1; rewrite length_app; lia).
  rewrite length_app. if_false. cbv iota. rewrite <- EF in Hw.
  destruct (inputBuffer_spec busy Hben (set_querybuf c q' 0) w [] (P ++ got) F' rs) as (c' & P' & ds & rs' & -> & Hpi & Hw' & Hst').
  { apply (waits_more c q' [] [] P got F' rs Hw). split_and!; [done..|]. cbn [app]. rewrite length_app. lia. }
  { done. }
  exists c', P', ds, rs'. split_and!; try done. change (set_querybuf (set_querybuf c q (len [])) q' _) with (set_querybuf c q' 0). rewrite Hpi. done.
Qed.

Lemma enc_args_app l k : enc_args (l ++ k) = enc_args l ++ enc_args k.
Proof. unfold enc_args. by rewrite map_app, concat_app. Qed.

Lemma enc_reqs_app l k : enc_reqs (l ++ k) = enc_reqs l ++ enc_reqs k.
Proof. unfold enc_reqs. by rewrite map_app, concat_app. Qed.

Lemma waits_len c X P F rs : waits c X P F rs → len P + len F <= len (enc_reqs rs).
Proof.
  intros [_ E _|args todo rs' _ _ -> E]; apply (f_equal length) in E; rewrite length_app in E; [lia|].
  rewrite enc_reqs_cons. cbn [enc_req]. unfold enc_cmd. rewrite enc_args_app, !length_app in *. unfold todo_bytes in E. destruct (bulklen c =? -1); [lia|].
  destruct todo as [|a r]; [cbn in E; lia|]. change (enc_args (a :: r)) with (enc_arg a ++ enc_args r). unfold enc_arg. rewrite !length_app in *. lia.
Qed.

Lemma deliver_spec busy (Hben : benign) ns : ∀ c w P F rs, waits c [] P F rs → Forall accepted rs → stuck F rs →
  len (enc_reqs rs) <= maxquery → len (enc_reqs rs) < 2 ^ 61 →
  ∃ c' P' F' ds rs', rs = ds ++ rs' ∧
    deliver busy ns F c w = Some (Alive c' (mk_world (exec_reqs (server w) ds) (fed w)), F') ∧
    waits c' [] P' F' rs' ∧ stuck F' rs' ∧ F' `suffix_of` F ∧ len F' <= Z.max 0 (len F - len ns).
Proof.
  induction ns as [|n ns IH]; intros c w P F rs Hw Hok Hst Hq Hlen.
  - exists c, P, F, [], rs. destruct w. split_and!; try done. cbn. lia.
  - pose proof (waits_len _ _ _ _ _ Hw) as Hl. cbn [deliver].
    destruct (read_spec busy Hben n c w P F rs Hw Hok Hst) as (c1 & readlen & c2 & P2 & d2 & rs2 & -> & Hpos & -> & -> & Hw2 & Hst2); [lia|lia|].
    mnext. mnext. set (F2 := drop _ F) in *. apply Forall_app in Hok as [_ Hok]. rewrite enc_reqs_app, length_app in Hq, Hlen.
    destruct (IH c2 (mk_world (exec_reqs (server w) d2) (fed w)) P2 F2 rs2) as (c' & P' & F' & ds & rs' & -> & -> & Hw' & Hst' & Hsuf & HF'); try done; [lia|lia|].
    exists c', P', F', (d2 ++ ds), rs'. split_and!; try done; [by rewrite app_assoc| | |].
    + unfold exec_reqs. by rewrite foldl_app.
    + etrans; [exact Hsuf|]. apply suffix_drop.
    + unfold F2 in HF'. rewrite length_drop in HF'. unfold recv, INT_MAX in HF'. cbn [length]. lia.
Qed.

Lemma new_waits stream : len stream < 2 ^ 61 → ∃ c, createClient = Some c ∧ ∀ rs, stream = enc_reqs rs → waits c [] [] stream rs.
Proof.
  intros Hl. unfold createClient. destruct empty_rep as (q & -> & Hq). mnext. eexists. split; [done|]. intros rs ->.
  apply waits_idle; [|done|by left]. split_and!; try done.
Qed.
End executing.

(** C8: a new client is sent the requests [rs], each an array of arguments or a line;
    the bytes arrive in any number of reads of any size, cut anywhere.  After every
    sequence of reads the commands handed to processCommand are those of the requests
    whose last byte has arrived, with their arguments, once each and in order; the
    client is alive with no protocol error.  When there are as many reads as bytes,
    every request has been executed.  This is for commands that do not block, close or
    free the client ([benign]), for requests within the limits of the protocol, those
    before authentication included ([req_ok]), and for a stream that fits in the query
    buffer limit. *)
Theorem requests_delivered `{Malloc} {W} (processCommand : W → list (list Z) → W * cmd_effect) authRequired auth maxbulk maxquery busy rs ns w :
  benign processCommand → (∀ s, authRequired s = true → auth = true) →
  Forall (req_ok auth maxbulk) rs → len (enc_reqs rs) <= maxquery → len (enc_reqs rs) < 2 ^ 61 →
  ∃ c c' F ds rs', createClient = Some c ∧
    deliver maxbulk maxquery processCommand authRequired busy ns (enc_reqs rs) c w =
      Some (Alive c' (mk_world (exec_reqs processCommand (server w) ds) (fed w)), F) ∧
    rs = ds ++ rs' ∧ F `suffix_of` enc_reqs rs ∧ errors c' = [] ∧
    len F <= len (enc_reqs rs') ∧ stuck F rs' ∧
    (len (enc_reqs rs) <= len ns → ds = rs).
Proof.
  intros Hben Hauth Hok Hq Hlen. destruct (new_waits (enc_reqs rs) Hlen) as (c & Hc & Hw). specialize (Hw rs eq_refl).
  destruct (deliver_spec maxbulk maxquery processCommand authRequired auth Hauth busy Hben ns c w [] (enc_reqs rs) rs) as (c' & P' & F' & ds & rs' & Hrs & Hd & Hw' & Hst & Hsuf & HF); try done.
  { by eapply waits_nil. }
  exists c, c', F', ds, rs'. pose proof (waits_len _ _ _ _ _ Hw'). split_and!; try done.
  - by destruct (waits_holds _ _ _ _ _ Hw') as [_ (_ & _ & _ & _ & ?)].
  - lia.
  - intros Hn. destruct rs' as [|r rs']; [by rewrite Hrs, app_nil_r|]. cbn in Hst. lia.
Qed.

#[local] Instance tight_malloc : Malloc.
Proof. refine {| usable_size n := n; junk := 165 |}. lia. Defined.

(** A server that keeps a log of the commands. *)
#[local] Definition log_command (log : list (list (list Z))) (args : list (list Z)) : list (list (list Z)) * cmd_effect :=
  (log ++ [args], mk_cmd_effect true false false false false false).
#[local] Definition ping_set : list request := [Line [112; 105; 110; 103] true [[112; 105; 110; 103]]; Bulk []; Bulk [[83; 69; 84]; [107]; [13; 10]]].

Lemma requests_delivered_witness : len (enc_reqs ping_set) = 38 ∧
  ∃ c c' F ds rs', createClient = Some c ∧
    deliver 1000 1000 log_command (λ _, true) false (replicate 40 0%nat) (enc_reqs ping_set) c (mk_world [] []) =
      Some (Alive c' (mk_world (exec_reqs log_command [] ds) []), F) ∧
    ping_set = ds ++ rs' ∧ F `suffix_of` enc_reqs ping_set ∧ errors c' = [] ∧
    len F <= len (enc_reqs rs') ∧ stuck F rs' ∧ (len (enc_reqs ping_set) <= len (replicate 40 0%nat) → ds = ping_set).
Proof.
  split; [vm_compute; reflexivity|]. apply (requests_delivered log_command (λ _, true) true 1000 1000 false ping_set (replicate 40 0%nat) (mk_world [] [])).
  - intros s args. by exists false.
  - done.
  - repeat constructor; try (by_decision || done || (cbn; unfold INT_MAX, PROTO_INLINE_MAX_SIZE; lia)).
  - by_decision.
  - by_decision.
Defined.
