(* ===== verification/RespSafety.v ===== *)
(** Requests of a client: whatever bytes arrive, in whatever pieces, and whatever the
    commands do to the client, the parser stays inside its buffers, no assertion fails
    and every loop ends. *)
From S2P Require Import Prelude UtilNum UtilText Sds SdsTheorems SdsArgs Resp RespTheorems.

(** ** Lines of any bytes *)

Lemma first_of ch l : ∃ l1 b l2, l ++ [0] = l1 ++ b :: l2 ∧ Forall (λ c, c ≠ ch ∧ c ≠ 0) l1 ∧ (b = ch ∨ b = 0).
Proof.
  induction l as [|c l (l1 & b & l2 & E & Hl & Hb)]; [exists [], 0, []; auto|].
  destruct (decide (c = ch ∨ c = 0)) as [Hc|Hc]; [by exists [], c, (l ++ [0])|].
  exists (c :: l1), b, l2. split; [cbn; by rewrite E|]. split; [|done]. constructor; [|done]. split; intros ->; apply Hc; auto.
Qed.

Lemma strchr_any X P rest ch : ch ≠ 0 → strchr_at ((X ++ P) ++ 0 :: rest) (len X) ch = Some None ∨
  ∃ h T, P = h ++ ch :: T ∧ Forall (λ c, c ≠ ch ∧ c ≠ 0) h ∧ strchr_at ((X ++ P) ++ 0 :: rest) (len X) ch = Some (Some (len X + len h)).
Proof.
  intros Hch. destruct (first_of ch P) as (h & b & T & E & Hh & Hb). unfold strchr_at.
  assert (EB : (X ++ P) ++ 0 :: rest = X ++ h ++ b :: T ++ rest).
  { replace (0 :: rest) with ([0] ++ rest) by done. rewrite <- (app_assoc X), (app_assoc P), E, <- app_assoc. done. }
  rewrite EB. destruct (decide (b = 0)) as [->|Hb0].
  - left. apply strchr_missing; [done..|]. rewrite !length_app. lia.
  - right. destruct Hb as [->|]; [|done]. destruct T as [|t T _] using rev_ind; [apply app_inj_tail in E as [_ E]; congruence|].
    rewrite app_comm_cons, app_assoc in E. apply app_inj_tail in E as [E _]. exists h, T. split; [done|]. split; [done|].
    apply strchr_found; [done|]. rewrite !length_app. lia.
Qed.

Lemma find_line_any c X P : holds c X P →
  ∃ l, find_line c = Some l ∧ ∀ j, l = LineAt j → ∃ h x T, P = h ++ 13 :: x :: T ∧ j = len X + len h.
Proof.
  intros Hh. pose proof Hh as ((_ & _ & rest & Hb) & Hp & Hm). unfold find_line. rewrite Hb, Hp, (proj1 (unparsed_spec _ _ _ Hh)).
  destruct (strchr_any X P rest 13) as [->|(h & T & HP & _ & ->)]; [done| |]; mnext; [by exists LineMissing|].
  eexists. split; [done|]. intros j. case_if; [done|]. intros [= <-]. destruct T as [|x T]; [|by exists h, x, T]. exfalso.
  rewrite HP, !length_app in *. cbn [length] in *. destruct (decide (h = [])) as [->|Hne].
  - cbn [length] in *. change (s64 (u64 _)) with (-1) in *. lia.
  - assert (0 < len h) by (destruct h; [done|cbn; lia]). rewrite wrapu_small, s64_small in * by lia. lia.
Qed.

Lemma line_number_any c X x h R : holds c X (x :: h ++ R) → ∃ r, line_number c (len X + len (x :: h)) = Some r.
Proof.
  intros ((_ & _ & rest & Hb) & Hp & _). unfold line_number. rewrite Hb, Hp. cbn [length].
  assert (E : (X ++ x :: h ++ R) ++ 0 :: rest = (X ++ [x]) ++ h ++ R ++ 0 :: rest) by (rewrite <- !app_assoc; cbn [app]; by rewrite <- app_assoc).
  rewrite E, load_app by len_lia. mnext. replace (len X + _ - _) with (len h) by lia. destruct (string2ll_spec h) as (r & -> & _). by exists r.
Qed.

(** ** The states of a client *)

Definition stopped (c : client) : Prop := blocked c = true ∨ close_after_reply c = true ∨ close_asap c = true.

(** Between two requests: in a request that starts with a star, the star is still there. *)
Definition between (c : client) (X P : list Z) : Prop :=
  idle c X P ∧ (reqtype c = 0 ∨ reqtype c = PROTO_REQ_INLINE ∨ reqtype c = PROTO_REQ_MULTIBULK ∧ ∃ P', P = 42 :: P').

Definition bulk_ok (c : client) : Prop := -1 <= bulklen c < 2 ^ 61.

(** A client whose bytes [P] are to be parsed. *)
Definition sane (c : client) (X P : list Z) : Prop :=
  holds c X P ∧ is_master c = false ∧ bulk_ok c ∧
  (stopped c ∨ between c X P ∨ ∃ todo, reading c X P (argv c) todo ∧ todo ≠ []).

(** A protocol error was found. *)
Definition broken (c : client) (X P : list Z) : Prop :=
  holds c X P ∧ is_master c = false ∧ close_after_reply c = true ∧ bulk_ok c.

Lemma broken_sane c X P : broken c X P → sane c X P.
Proof. intros (? & ? & ? & ?). split_and!; try done. left. right. by left. Qed.

Lemma error_broken e c X P : holds c X P → is_master c = false → bulk_ok c → broken (setProtocolError e c) X P.
Proof. done. Qed.

Lemma set_pos_holds c X Y P : holds c X (Y ++ P) → holds (set_pos c (len X + len Y)) (X ++ Y) P.
Proof. intros (Hr & _ & Hm). split; [by rewrite <- app_assoc|]. split; [cbn; rewrite length_app; lia|by rewrite <- app_assoc]. Qed.

Lemma reading_todo c X P args todo todo' : reading c X P args todo → length todo = length todo' →
  (bulklen c = -1 ∨ ∃ a r, todo' = a :: r ∧ bulklen c = len a) → reading c X P args todo'.
Proof. intros [? ? ? ? ? ? _] Hl Hb. constructor; try done. lia. Qed.

Section safety.
Context `{Malloc} (auth : bool) (maxbulk : Z) (Hmaxbulk : maxbulk < 2 ^ 61).

(** ** An array of arguments *)

(** What read_bulk_len leaves. *)
Definition len_result (c : client) (X P : list Z) (args todo : list (list Z)) (c' : client) (X' P' : list Z) (r : option bool) : Prop :=
  match r with
  | None => broken c' X' P'
  | Some false => c' = c ∧ X' = X ∧ P' = P
  | Some true => ∃ a rest, reading c' X' P' args (a :: rest) ∧ length todo = S (length rest) ∧ bulklen c' = len a ∧ len a < 2 ^ 61
  end.

Lemma bulk_len_any c X P args todo : reading c X P args todo → todo ≠ [] → bulklen c = -1 →
  ∃ c' r X' P', read_bulk_len auth maxbulk c = Some (c', r) ∧ len P' <= len P ∧
    len_result c X P args todo c' X' P' r.
Proof.
  intros Hrd Hne Hbl. pose proof Hrd as [Hh Hpl Hty Har Hto Harr _]. pose proof Hpl as (Hnm & _). assert (Hbo : bulk_ok c) by (unfold bulk_ok; lia).
  assert (Herr : ∀ e, ∃ c' r X' P', Some (setProtocolError e c, None) = Some (c', r) ∧ len P' <= len P ∧ len_result c X P args todo c' X' P' r).
  { intros e. exists (setProtocolError e c), None, X, P. split; [done|]. split; [done|]. by apply error_broken. }
  unfold read_bulk_len.
  destruct (find_line_any c X P Hh) as (l & -> & Hline). mnext. destruct l as [j| |].
  2: { by exists c, (Some false), X, P. }
  2: { rewrite (proj1 (unparsed_spec _ _ _ Hh)). case_if; [|by exists c, (Some false), X, P]. apply Herr. }
  destruct (Hline j eq_refl) as (h & x & T & HP & ->). pose proof Hh as ((_ & _ & rest & Hb) & Hp & _).
  assert (Hld : ∀ y R, P = y :: R → load8 (s_buf (querybuf c)) (qb_pos c) = Some y).
  { intros y R ->. rewrite Hb, Hp, <- app_assoc. by apply load8_app. }
  destruct h as [|y h]; rewrite (Hld _ _ HP); mnext.
  - apply Herr.
  - destruct (Z.eqb_spec y 36) as [->|Hy]; cbn [negb]; [|apply Herr].
    rewrite HP in Hh. destruct (line_number_any c X 36 h (13 :: x :: T) Hh) as (ll & ->). mnext. destruct ll as [ll|]; [|apply Herr].
    rewrite Hnm. cbn [negb andb]. case_if; [apply Herr|]. case_if; [apply Herr|].
    cbv zeta. set (Y := (36 :: h) ++ [13; x]). replace (len X + len (36 :: h) + 2) with (len X + len Y) by (unfold Y; rewrite length_app; cbn [length]; lia).
    assert (EP : P = Y ++ T) by (unfold Y; rewrite HP; cbn; by rewrite <- app_assoc). rewrite <- HP, EP in Hh. pose proof (set_pos_holds c X Y T Hh) as Hh1.
    change (is_master (set_pos c _)) with (is_master c). rewrite Hnm. cbn [negb andb].
    destruct (len_room (set_pos c (len X + len Y)) (X ++ Y) T ll (ll >=? PROTO_MBULK_BIG_ARG) Hh1) as (q & X' & -> & Hh2); [lia|]. mnext.
    eexists _, (Some true), X', T. split; [done|]. split; [rewrite EP, length_app; lia|]. destruct todo as [|t todo]; [done|].
    exists (replicate (Z.to_nat ll) 0), todo. cbn [bulklen set_parse]. rewrite length_replicate, Z2Nat.id by lia. split_and!; try done; [|lia].
    constructor; try done. right. eexists _, _. split; [done|]. cbn. rewrite length_replicate. lia.
Qed.

Lemma bulk_any c X P args a rest : reading c X P args (a :: rest) → bulklen c = len a → len a < 2 ^ 61 → len a + 2 <= len P →
  ∃ c' X' P' a', read_bulk c = Some c' ∧ reading c' X' P' (args ++ [a']) rest ∧ bulklen c' = -1 ∧ len P' < len P.
Proof.
  intros Hrd Hbl Hla Hlen. set (a' := take (length a) P). set (Q := drop (length a) P).
  assert (Ha' : length a' = length a) by (unfold a'; rewrite length_take; lia).
  assert (EP : P = a' ++ take 2 Q ++ drop 2 Q) by (unfold a', Q; by rewrite !take_drop).
  destruct (bulk_core c X a' (take 2 Q) (drop 2 Q) args rest) as (c' & X' & ? & ? & ?).
  - rewrite <- EP. apply (reading_todo c X P args (a :: rest)); [done|done|]. right. exists a', rest. split; [done|lia].
  - unfold Q. rewrite length_take, length_drop. lia.
  - lia.
  - lia.
  - exists c', X', (drop 2 Q), a'. split_and!; try done. unfold Q. rewrite !length_drop. lia.
Qed.

Lemma bulk_loop_any fuel : ∀ c X P args todo, reading c X P args todo → bulk_ok c → len P < Z.of_nat fuel →
  ∃ c' ok X' P', bulk_loop auth maxbulk fuel c = Some (c', ok) ∧ len P' <= len P ∧
    if ok then ∃ args' todo', reading c' X' P' args' todo' ∧ bulk_ok c' ∧ (todo ≠ [] → todo' = [] → len P' < len P)
    else broken c' X' P'.
Proof.
  induction fuel as [|fuel IH]; intros c X P args todo Hrd Hbo Hf; [lia|]. cbn [bulk_loop]. pose proof Hrd as [_ _ _ _ Hto _ Hb].
  destruct todo as [|a rest].
  { replace (multibulklen c =? 0) with true by (rewrite Hto; done). exists c, true, X, P. split; [done|]. split; [done|]. by exists args, []. }
  replace (multibulklen c =? 0) with false by (rewrite Hto; cbn; lia).
  assert (Hbody : ∀ c1 X1 P1 a1 rest1, reading c1 X1 P1 args (a1 :: rest1) → bulklen c1 = len a1 → len a1 < 2 ^ 61 → len P1 <= len P →
    ∃ c' ok X' P', (if unparsed c1 <? u64 (bulklen c1 + 2) then Some (c1, true) else c ← read_bulk c1; bulk_loop auth maxbulk fuel c) = Some (c', ok) ∧ len P' <= len P ∧
    if ok then ∃ args' todo', reading c' X' P' args' todo' ∧ bulk_ok c' ∧ (a :: rest ≠ [] → todo' = [] → len P' < len P) else broken c' X' P').
  { intros c1 X1 P1 a1 rest1 Hrd1 Hbl1 Hla Hle. pose proof Hrd1 as [Hh1 _ _ _ _ _ _]. rewrite (proj1 (unparsed_spec _ _ _ Hh1)), Hbl1, wrapu_small by lia.
    destruct (Z.ltb_spec (len P1) (len a1 + 2)).
    - exists c1, true, X1, P1. split; [done|]. split; [done|]. exists args, (a1 :: rest1). split_and!; try done; unfold bulk_ok; lia.
    - destruct (bulk_any c1 X1 P1 args a1 rest1 Hrd1 Hbl1 Hla) as (c2 & X2 & P2 & a2 & -> & Hrd2 & Hbl2 & Hlt); [lia|]. mnext.
      destruct (IH c2 X2 P2 _ _ Hrd2) as (c' & ok & X' & P' & -> & Hle' & Hres); [unfold bulk_ok; lia|lia|].
      exists c', ok, X', P'. split; [done|]. split; [lia|]. destruct ok; [|done]. destruct Hres as (args' & todo' & ? & ? & _). exists args', todo'. split_and!; try done. lia. }
  destruct (Z.eqb_spec (bulklen c) (-1)) as [Hm|Hm].
  - destruct (bulk_len_any c X P args (a :: rest) Hrd) as (c1 & r & X1 & P1 & -> & Hle & Hr); [done|done|]. mnext. destruct r as [[]|].
    + destruct Hr as (a1 & rest1 & Hrd1 & _ & Hbl1 & Hla). by apply (Hbody c1 X1 P1 a1 rest1).
    + destruct Hr as (-> & -> & ->). exists c, true, X, P. split; [done|]. split; [done|]. by exists args, (a :: rest).
    + exists c1, false, X1, P1. by split_and!.
  - mnext. destruct Hb as [|(a1 & rest1 & [= <- <-] & Hb)]; [done|]. apply (Hbody c X P a rest); try done. unfold bulk_ok in Hbo. lia.
Qed.

(** What read_mbulk_count leaves. *)
Definition count_result (P : list Z) (c' : client) (X' P' : list Z) (r : option bool) : Prop :=
  match r with
  | None => sane c' X' P' ∧ len P' <= len P
  | Some true => idle c' X' P' ∧ len P' < len P
  | Some false => len P' < len P ∧ bulk_ok c' ∧ ∃ todo, reading c' X' P' [] todo ∧ todo ≠ []
  end.

Lemma count_any c X P P0 : idle c X P → reqtype c = PROTO_REQ_MULTIBULK → P = 42 :: P0 →
  ∃ c' r X' P', read_mbulk_count auth c = Some (c', r) ∧ count_result P c' X' P' r.
Proof.
  intros Hid Hty EP. pose proof Hid as (Hh & Hpl & Hmb & Hbl & Har). pose proof Hpl as (Hnm & _). assert (Hbo : bulk_ok c) by (unfold bulk_ok; lia).
  assert (Hstop : ∀ c', c' = c ∨ broken c' X P → ∃ c1 r X' P', Some (c', None) = Some (c1, r) ∧ count_result P c1 X' P' r).
  { intros c' Hc'. exists c', None, X, P. split; [done|]. split; [|done]. destruct Hc' as [->|]; [|by apply broken_sane].
    split_and!; try done. right. left. split; [done|]. right. right. split; [done|by exists P0]. }
  assert (Herr : ∀ e, broken (setProtocolError e c) X P) by (intros; by apply error_broken).
  unfold read_mbulk_count, argc. rewrite Har. change (negb (len [] =? 0)) with false. cbv iota.
  destruct (find_line_any c X P Hh) as (l & -> & Hline). mnext. destruct l as [j| |].
  2: { apply Hstop. by left. }
  2: { case_if; apply Hstop; [right; apply Herr|by left]. }
  destruct (Hline j eq_refl) as (h & x & T & HP & ->). destruct h as [|y h]; rewrite EP in HP; [discriminate HP|]. cbn [app] in HP. injection HP as <- HP.
  assert (load8 (s_buf (querybuf c)) (qb_pos c) = Some 42) as ->.
  { pose proof Hh as ((_ & _ & rest & ->) & -> & _). rewrite EP, <- app_assoc. by apply load8_app. }
  mnext. change (negb (42 =? 42)) with false. cbv iota. pose proof Hh as Hh0. rewrite EP, HP in Hh0.
  destruct (line_number_any c X 42 h (13 :: x :: T) Hh0) as (ll & ->). mnext. destruct ll as [ll|]; [|apply Hstop; right; apply Herr].
  case_if; [apply Hstop; right; apply Herr|]. case_if; [apply Hstop; right; apply Herr|]. unfold INT_MAX in *.
  cbv zeta. set (Y := (42 :: h) ++ [13; x]). replace (len X + len (42 :: h) + 2) with (len X + len Y) by (unfold Y; rewrite length_app; cbn [length]; lia).
  assert (EY : P = Y ++ T) by (unfold Y; rewrite EP, HP; cbn; by rewrite <- app_assoc). rewrite EY in Hh. pose proof (set_pos_holds c X Y T Hh) as Hh1.
  assert (Hlt : len T < len P) by (rewrite EY, length_app; unfold Y; cbn [length app]; lia). case_if.
  - eexists _, (Some true), (X ++ Y), T. split; [done|]. by split_and!.
  - eexists _, (Some false), (X ++ Y), T. split; [done|]. split; [done|]. split; [done|]. exists (replicate (Z.to_nat ll) []). split; [|by destruct (Z.to_nat ll) eqn:?; [lia|]].
    constructor; try done; [cbn; rewrite length_replicate; lia| |by left]. unfold arr_ok, argc. cbn. rewrite Har. cbn [length]. unfold INT_MAX. lia.
Qed.

Lemma reading_sane c X P args todo : reading c X P args todo → todo ≠ [] → bulk_ok c → sane c X P.
Proof. intros [? (? & ?) ? <- ? ? ?] Hne Hbo. split_and!; try done. right. right. exists todo. by split. Qed.

(** What a step of the parser leaves. *)
Definition step_any (P : list Z) (c' : client) (ok : bool) : Prop :=
  ∃ X' P', if ok then ready c' X' P' (argv c') ∧ len P' < len P else sane c' X' P' ∧ len P' <= len P.

Lemma args_any c X P args todo : reading c X P args todo → todo ≠ [] → bulk_ok c →
  ∃ c' ok, read_args auth maxbulk c = Some (c', ok) ∧ step_any P c' ok.
Proof.
  intros Hrd Hne Hbo. pose proof Hrd as [((_ & _ & rest & Hb) & _ & _) _ _ _ Hto _ _]. unfold read_args.
  replace (multibulklen c >? 0) with true by (rewrite Hto; destruct todo; [done|cbn; lia]). cbn [negb].
  destruct (bulk_loop_any (S (length (s_buf (querybuf c)))) c X P args todo Hrd Hbo) as (c' & ok & X' & P' & -> & Hle & Hres); [rewrite Hb; len_lia|]. mnext.
  destruct ok; cbn [andb].
  - destruct Hres as (args' & todo' & Hrd' & Hbo' & Hlt). pose proof Hrd' as [Hh' Hpl' _ Har' Hto' _ Hb']. eexists _, _. split; [done|]. exists X', P'.
    destruct todo' as [|a r].
    + rewrite Hto'. cbn [length Z.of_nat Z.eqb]. split; [|by apply Hlt]. split_and!; try done. by destruct Hb' as [|(? & ? & ? & _)].
    + replace (multibulklen c' =? 0) with false by (rewrite Hto'; cbn; lia). split; [|done]. by eapply reading_sane.
  - eexists _, _. split; [done|]. exists X', P'. split; [by apply broken_sane|done].
Qed.

Lemma multibulk_any c X P : sane c X P → ¬ stopped c → reqtype c = PROTO_REQ_MULTIBULK →
  ∃ c' ok, processMultibulkBuffer auth maxbulk c = Some (c', ok) ∧ step_any P c' ok.
Proof.
  intros (Hh & Hnm & Hbo & Hst) Hns Hty. unfold processMultibulkBuffer. destruct Hst as [|[(Hid & Hr)|(todo & Hrd & Hne)]]; [done| |].
  - pose proof Hid as (_ & _ & Hmb & _). rewrite Hmb. cbn [Z.eqb]. destruct Hr as [Hr|[Hr|(_ & P0 & EP)]]; [by rewrite Hr in Hty..|].
    destruct (count_any c X P P0 Hid Hty EP) as (c1 & r & X1 & P1 & -> & Hres). mnext. destruct r as [[]|].
    + destruct Hres as [Hid1 Hlt]. exists c1, true. split; [done|]. exists X1, P1. split; [|done]. by destruct Hid1 as (? & ? & ? & ? & ?).
    + destruct Hres as (Hlt & Hbo1 & todo & Hrd1 & Hne). destruct (args_any c1 X1 P1 [] todo Hrd1 Hne Hbo1) as (c' & ok & Ha & X' & P' & Hr').
      exists c', ok. split; [exact Ha|]. exists X', P'. destruct ok; destruct Hr'; (split; [done|lia]).
    + exists c1, false. split; [done|]. by exists X1, P1.
  - pose proof Hrd as [_ _ _ _ Hto _ _]. replace (multibulklen c =? 0) with false by (rewrite Hto; destruct todo; [done|cbn; lia]). mnext. by apply (args_any c X P (argv c) todo).
Qed.

(** ** A line *)

Lemma full_line_any L : ∃ line cr, L = full_line line cr ∧ (cr = false → last line ≠ Some 13).
Proof.
  destruct L as [|x l _] using rev_ind; [by exists [], false|]. destruct (decide (x = 13)) as [->|Hx]; [by exists l, true|].
  exists (l ++ [x]), false. split; [done|]. intros _. rewrite last_snoc. congruence.
Qed.

Lemma inline_any c X P : sane c X P → ¬ stopped c → reqtype c = PROTO_REQ_INLINE →
  ∃ c' ok, processInlineBuffer c = Some (c', ok) ∧ step_any P c' ok.
Proof.
  intros Hs Hns Hty. pose proof Hs as (Hh & Hnm & Hbo & Hst). destruct Hst as [|[(Hid & _)|(todo & [_ _ Ht _ _ _ _] & _)]]; [done| |by rewrite Ht in Hty].
  pose proof Hh as ((_ & _ & rest & Hb) & Hp & Hm). pose proof Hid as (_ & Hpl & Hmb & Hbl & Har).
  assert (Herr : ∀ e, step_any P (setProtocolError e c) false) by (intros; exists X, P; split; [by apply broken_sane, error_broken|done]).
  destruct (strchr_any X P rest 10) as [Hn|(L & T & HP & HL & _)]; [done| |].
  - unfold processInlineBuffer. rewrite Hb, Hp, Hn. mnext. case_if; eexists _, false; (split; [done|]); [apply Herr|by exists X, P].
  - destruct (full_line_any L) as (line & cr & -> & Hcr).
    assert (Hline : Forall (λ c, c ≠ 10 ∧ c ≠ 0) line) by (destruct cr; [by apply Forall_app in HL as [? _]|done]).
    destruct (splitargs_total line) as [r Hr]; [eapply Forall_impl; [exact Hline|]; by intros ? []|]. rewrite HP in Hh.
    rewrite (inline_core c X line cr T r Hh Hnm Hline Hcr); [|rewrite HP, !length_app in Hm; unfold full_line in Hm; destruct cr; rewrite ?length_app in Hm; lia|done].
    destruct r as [args|]; eexists _, _; (split; [done|]); [|apply Herr]. exists (X ++ full_line line cr ++ [10]), T. split; [|rewrite HP, length_app; cbn [length]; lia].
    split_and!; try done. by apply line_holds.
Qed.
End safety.

(** ** Executing *)

Section executing.
Context `{Malloc} (maxbulk maxquery : Z) (Hmaxbulk : maxbulk < 2 ^ 61) (Hmaxquery : maxquery < 2 ^ 60).
Context {W : Type} (processCommand : W → list (list Z) → W * cmd_effect) (authRequired : W → bool) (busy : bool).

(** ProcessCommand returns C_ERR when the client was destroyed. *)
Context (Hcmd : ∀ s args, ret_ok (processCommand s args).2 = false → freed (processCommand s args).2 = true).

Lemma typed_any c X P x P0 : sane c X P → ¬ stopped c → P = x :: P0 →
  load8 (s_buf (querybuf c)) (qb_pos c) = Some x ∧
  let c1 := if reqtype c =? 0 then
              set_parse c (if x =? 42 then PROTO_REQ_MULTIBULK else PROTO_REQ_INLINE) (multibulklen c) (bulklen c)
            else c in
  sane c1 X P ∧ ¬ stopped c1 ∧ (reqtype c1 = PROTO_REQ_INLINE ∨ reqtype c1 = PROTO_REQ_MULTIBULK).
Proof.
  intros Hs Hns EP. pose proof Hs as (Hh & Hnm & Hbo & Hst).
  split. { pose proof Hh as ((_ & _ & rest & ->) & -> & _). rewrite EP, <- app_assoc. by apply load8_app. }
  cbv zeta. destruct Hst as [|[(Hid & Hr)|(todo & Hrd & Hne)]]; [done| |].
  - destruct (Z.eqb_spec (reqtype c) 0) as [E|E]; [|split; [done|split; [done|]]; destruct Hr as [|[|[? _]]]; [done|by left|by right]].
    destruct (Z.eqb_spec x 42) as [->|Hx].
    + split; [|split; [done|by right]]. split_and!; try done. right. left. split; [done|]. right. right. split; [done|by exists P0].
    + split; [|split; [done|by left]]. split_and!; try done. right. left. split; [done|]. right. by left.
  - pose proof Hrd as [_ _ Hty _ _ _ _]. rewrite Hty. cbn [Z.eqb]. split; [done|]. split; [done|by right].
Qed.

Lemma reset_any c X P w : ready c X P (argv c) → ∃ c' w' alive, processCommandAndResetClient processCommand c w = Some (c', w', alive) ∧
  (alive = true → sane c' X P).
Proof.
  intros (Hh & (Hnm & _ & Hcl & Has & Her) & Hmb & Hbl & Har). unfold processCommandAndResetClient. pose proof (Hcmd (server w) (argv c)) as Hc.
  destruct (processCommand (server w) (argv c)) as [s e]. cbn [snd] in Hc. cbv zeta. destruct (ret_ok e).
  - unfold commandProcessed. change (blocked (set_flags c _ _ _ _)) with (e_blocked e). destruct (e_blocked e) eqn:Eb.
    + mnext. eexists _, _, _. split; [done|]. intros _. split_and!; try done; [unfold bulk_ok; cbn; lia|]. left. left. done.
    + cbv zeta. cbn [is_master resetClient set_parse freeClientArgv set_argv set_flags set_repl]. rewrite Hnm. cbn [andb]. mnext. eexists _, _, _. split; [done|]. intros _.
      split_and!; try done. rewrite Hcl, Has. cbn [orb]. destruct (e_close e) eqn:Ec; [left; right; by left|]. destruct (e_asap e) eqn:Ea; [left; right; by right|].
      right. left. split; [by split_and!|by left].
  - mnext. eexists _, _, _. split; [done|]. by rewrite Hc.
Qed.

Lemma loop_any fuel : ∀ c w X P, sane c X P → len P < Z.of_nat fuel →
  ∃ c' w' alive, input_loop processCommand authRequired maxbulk busy fuel c w = Some (c', w', alive) ∧
    (alive = true → ∃ X' P', sane c' X' P' ∧ len P' <= len P).
Proof.
  induction fuel as [|fuel IH]; intros c w X P Hs Hf; [lia|]. pose proof Hs as (Hh & Hnm & Hbo & Hst). cbn [input_loop].
  assert (Hout : ∃ c' w' alive, Some (c, w, true) = Some (c', w', alive) ∧ (alive = true → ∃ X' P', sane c' X' P' ∧ len P' <= len P)).
  { exists c, w, true. split; [done|]. intros _. by exists X, P. }
  destruct (qb_pos c <? sdslen (querybuf c)) eqn:Elt; [|done]. destruct (blocked c) eqn:Ebk; [done|]. rewrite Hnm, andb_false_r. destruct (_ || _) eqn:Ecl; [done|].
  apply orb_false_iff in Ecl as [Ecl Eas]. assert (Hns : ¬ stopped c) by (intros [|[]]; congruence).
  destruct P as [|x P0] eqn:EP. { destruct (unparsed_spec _ _ _ Hh) as [_ Hsl]. pose proof Hh as (_ & Hp & _). cbn [length] in Hsl. lia. }
  rewrite <- EP in *. destruct (typed_any c X P x P0 Hs Hns EP) as (-> & Hs1 & Hns1 & Hty). mnext. cbv zeta in Hs1, Hns1, Hty.
  set (c1 := if reqtype c =? 0 then _ else c) in *. cbv zeta.
  assert (∃ c2 ok, (if reqtype c1 =? PROTO_REQ_INLINE then processInlineBuffer c1
    else if reqtype c1 =? PROTO_REQ_MULTIBULK then processMultibulkBuffer (authRequired (server w)) maxbulk c1 else None) = Some (c2, ok) ∧ step_any P c2 ok)
    as (c2 & ok & -> & X2 & P2 & Hres).
  { destruct Hty as [Hty|Hty]; rewrite Hty; [by apply (inline_any c1 X P)|by apply (multibulk_any _ maxbulk Hmaxbulk c1 X P)]. }
  mnext. destruct ok; cbn [negb]; [|exists c2, w, true; split; [done|]; intros _; by exists X2, P2].
  destruct Hres as [Hrdy Hlt]. unfold argc. destruct (Z.eqb_spec (len (argv c2)) 0) as [E|E].
  - destruct (IH (resetClient c2) w X2 P2) as (c' & w' & alive & -> & Hal); [|lia|].
    { destruct Hrdy as (? & (? & ?) & ? & ? & ?). split_and!; try done. right. left. split; [by split_and!|by left]. }
    exists c', w', alive. split; [done|]. intros Ha. destruct (Hal Ha) as (X' & P' & ? & ?). exists X', P'. split; [done|lia].
  - destruct (reset_any c2 X2 P2 w Hrdy) as (c3 & w3 & alive & -> & Hs3). mnext. destruct alive; cbn [negb]; [|by exists c3, w3, false].
    destruct (IH c3 w3 X2 P2 (Hs3 eq_refl)) as (c' & w' & alive & -> & Hal); [lia|].
    exists c', w', alive. split; [done|]. intros Ha. destruct (Hal Ha) as (X' & P' & ? & ?). exists X', P'. split; [done|lia].
Qed.

(** The buffer changes and holds the same bytes, or more. *)
Lemma sane_more c q X Y P bs : sane c X P → holds (set_querybuf c q (len Y)) Y (P ++ bs) → sane (set_querybuf c q (len Y)) Y (P ++ bs).
Proof.
  intros (_ & Hnm & Hbo & Hst) Hh. split_and!; try done. destruct Hst as [|[((_ & Hid) & Hr)|(todo & Hrd & Hne)]]; [by left| |].
  - right. left. split; [done|]. destruct Hr as [|[|(? & P' & ->)]]; [by left|right; by left|]. right. right. split; [done|]. by exists (P' ++ bs).
  - right. right. exists todo. split; [|done]. by eapply reading_more.
Qed.

Lemma buffer_any c w X P : sane c X P →
  ∃ c' w' alive, processInputBuffer processCommand authRequired maxbulk busy c w = Some (c', w', alive) ∧
    (alive = true → ∃ P', sane c' [] P' ∧ len P' <= len P).
Proof.
  intros Hs. pose proof Hs as (((_ & _ & rest & Hb) & _ & _) & _). unfold processInputBuffer.
  destruct (loop_any (S (length (s_buf (querybuf c)))) c w X P Hs) as (c' & w' & alive & -> & Hal); [rewrite Hb; len_lia|]. mnext.
  destruct alive; cbn [negb]; [|by exists c', w', false]. destruct (Hal eq_refl) as (X' & P' & Hs' & Hle). pose proof Hs' as (Hh & Hnm & _). rewrite Hnm.
  pose proof Hh as (_ & Hp & Hm). destruct (Z.eqb_spec (qb_pos c') 0) as [E|E]; cbn [negb].
  - mnext. exists c', w', true. split; [done|]. intros _. exists P'. split; [|done]. destruct X'; [done|cbn in Hp; lia].
  - destruct (trim_spec_at c' X' P' Hh) as (q & -> & Hq). mnext. exists (set_querybuf c' q 0), w', true. split; [done|]. intros _. exists P'. split; [|done].
    rewrite <- (app_nil_r P'). apply (sane_more c' q X' [] P' [] Hs'). rewrite app_nil_r. split_and!; [done..|]. rewrite length_app in Hm. cbn. lia.
Qed.

(** ** Reading *)

(** ConnRead returns at least one byte, as many as asked for at most, and an int. *)
Definition conn_ok (conn : Z → conn_read) : Prop := ∀ n bs, conn n = ReadBytes bs → 0 < len bs <= Z.min n INT_MAX.

Lemma read_any conn c w P : conn_ok conn → sane c [] P → len P <= Z.max 0 maxquery →
  ∃ r, readQueryFromClient processCommand authRequired maxbulk maxquery busy conn c w = Some r ∧
    ∀ c' w', r = Alive c' w' → ∃ P', sane c' [] P' ∧ len P' <= Z.max 0 maxquery.
Proof.
  intros Hconn Hs Hle. pose proof Hs as (Hh & Hnm & Hbo & _). destruct (room_spec c [] P Hh Hbo) as (q & readlen & Hroom & Hrq & Hpos & Hcap). cbn [app] in Hrq, Hcap.
  unfold readQueryFromClient. rewrite Hroom. mnext. destruct (conn readlen) as [bs| |] eqn:Ec.
  2: { eexists. split; [done|]. intros c' w' [= <- <-]. exists P. split; [|done]. rewrite <- (app_nil_r P). apply (sane_more c q [] [] P []); [done|]. rewrite app_nil_r. split_and!; [done..|]. cbn. lia. }
  2: { eexists. split; [done|]. intros c' w' [=]. }
  pose proof (Hconn _ _ Ec) as Hbs. unfold INT_MAX in Hbs. if_false. cbv iota. change (querybuf (set_querybuf c q (len []))) with q.
  destruct (append_room q P bs Hrq) as (m & q' & Hm & Hq' & Hrep); [lia|lia|].
  replace (sdslen q) with (len P) by (by destruct Hrq as (_ & Hl & _)). rewrite Hm. mnext. rewrite Hq'. mnext.
  cbn [is_master set_querybuf]. rewrite Hnm. cbn [negb andb]. assert (Hsl : sdslen q' = len (P ++ bs)) by (by destruct Hrep as (_ & Hl & _)).
  cbn [querybuf set_querybuf]. rewrite Hsl. repeat change (is_master (set_querybuf ?x ?y ?z)) with (is_master x). rewrite Hnm. cbn [negb andb].
  case_if; [eexists; split; [done|]; intros c' w' [=]|].
  destruct (buffer_any (set_querybuf c q' 0) w [] (P ++ bs)) as (c' & w' & alive & Hpi & Hal).
  { apply (sane_more c q' [] [] P bs Hs). split_and!; [done..|]. cbn [app]. lia. }
  change (set_querybuf (set_querybuf c q (len [])) q' _) with (set_querybuf c q' 0). rewrite Hpi. mnext.
  eexists. split; [done|]. destruct alive; intros c2 w2; [intros [= <- <-]|intros [=]]. destruct (Hal eq_refl) as (P' & Hs' & HP'). exists P'. split; [done|lia].
Qed.

(** The read events of a client, until it is freed. *)
Fixpoint serve (conns : list (Z → conn_read)) (c : client) (w : world) : option read_result :=
  match conns with
  | [] => Some (Alive c w)
  | conn :: conns =>
    r ← readQueryFromClient processCommand authRequired maxbulk maxquery busy conn c w;
    match r with Alive c w => serve conns c w | Freed w => Some (Freed w) end
  end.

Lemma serve_any conns : ∀ c w P, Forall conn_ok conns → sane c [] P → len P <= Z.max 0 maxquery →
  ∃ r, serve conns c w = Some r ∧ ∀ c' w', r = Alive c' w' → ∃ P', sane c' [] P' ∧ len P' <= Z.max 0 maxquery.
Proof.
  induction conns as [|conn conns IH]; intros c w P Hok Hs Hle.
  - eexists. split; [done|]. intros c' w' [= <- <-]. by exists P.
  - apply Forall_cons in Hok as [Hc Hok]. cbn [serve]. destruct (read_any conn c w P Hc Hs Hle) as (r & -> & Hr). mnext.
    destruct r as [c1 w1|w1]; [|eexists; by split]. destruct (Hr c1 w1 eq_refl) as (P1 & Hs1 & Hle1). by apply (IH c1 w1 P1).
Qed.
End executing.

(** C11: whatever bytes the reads of a connection return, however they are cut, whether
    the connection is closed or not, and whatever the commands do to the flags of the
    client (if processCommand returns C_ERR only for a client that is gone), the handler
    of each read event runs to its end: no byte outside the query buffer or the array of
    arguments is touched, no assertion fails, every loop ends.  The client that is left
    is well formed: the position is in the buffer, the array of arguments has room for
    those announced, and a request that is parsed as an array starts with its star. *)
Theorem requests_safe `{Malloc} {W} (processCommand : W → list (list Z) → W * cmd_effect) authRequired maxbulk maxquery busy conns w :
  maxbulk < 2 ^ 61 → maxquery < 2 ^ 60 →
  (∀ s args, ret_ok (processCommand s args).2 = false → freed (processCommand s args).2 = true) →
  Forall conn_ok conns →
  ∃ c r, createClient = Some c ∧ serve maxbulk maxquery processCommand authRequired busy conns c w = Some r ∧
    ∀ c' w', r = Alive c' w' → ∃ P, sane c' [] P ∧ len P <= Z.max 0 maxquery.
Proof.
  intros Hb Hq Hcmd Hok. destruct (new_waits [] ltac:(done)) as (c & Hc & Hw). destruct (waits_holds _ _ _ _ _ (Hw [] eq_refl)) as [Hh (Hnm & _)].
  destruct (serve_any maxbulk maxquery Hb Hq processCommand authRequired busy Hcmd conns c w [] Hok) as (r & Hr & Hal); [|cbn; lia|by exists c, r].
  destruct (Hw [] eq_refl) as [Hid _ [Hr|[? _]]|? ? ? _ _ [=] _]; [|done]. split_and!; try done.
  - destruct Hid as (_ & _ & _ & Hbl & _). unfold bulk_ok. lia.
  - right. left. split; [done|by left].
Qed.

#[local] Instance round_malloc : Malloc.
Proof. refine {| usable_size n := n + (- n) mod 16; junk := 1 |}. intros n. pose proof (Z.mod_pos_bound (- n) 16). lia. Defined.

(** A server that blocks the client after its third command. *)
#[local] Definition third_blocks (n : Z) (args : list (list Z)) : Z * cmd_effect :=
  (n + 1, mk_cmd_effect true false (n =? 2) false false false).
(** A connection that sends an array whose second argument has a negative length, and
    one that is closed. *)
#[local] Definition stray_bytes (n : Z) : conn_read :=
  if 16 <=? n then ReadBytes [42; 50; 13; 10; 36; 49; 13; 10; 0; 13; 10; 36; 45; 49; 13; 10] else ReadAgain.
#[local] Definition stray_reads : list (Z → conn_read) := [stray_bytes; λ _, ReadAgain; stray_bytes].

Lemma stray_ok : Forall conn_ok stray_reads.
Proof.
  assert (Hs : conn_ok stray_bytes) by (intros n bs; unfold stray_bytes; (destruct (Z.leb_spec 16 n); [|done]); intros [= <-]; cbn; unfold INT_MAX; lia).
  unfold stray_reads. rewrite !Forall_cons, Forall_nil. split_and!; try done.
Qed.

Lemma requests_safe_witness :
  (∃ c c' w', createClient = Some c ∧ serve 512 1000 third_blocks (λ _, false) false stray_reads c (mk_world 0 []) = Some (Alive c' w') ∧
     errors c' = [InvalidBulkLength]) ∧
  ∃ c r, createClient = Some c ∧ serve 512 1000 third_blocks (λ _, false) false stray_reads c (mk_world 0 []) = Some r ∧
    ∀ c' w', r = Alive c' w' → ∃ P, sane c' [] P ∧ len P <= Z.max 0 1000.
Proof.
  split; [eexists _, _, _; split; [vm_compute; reflexivity|split; [vm_compute; reflexivity|reflexivity]]|].
  apply (requests_safe third_blocks (λ _, false) 512 1000 false stray_reads (mk_world 0 [])); [lia|lia|done|apply stray_ok].
Defined.
