(* ===== verification/Adlist.v ===== *)
(** Doubly linked lists: src/redis-7.0.0/src/adlist.c and adlist.h.

    The nodes live in a heap of their own; a pointer is a key of it.  [None] is a use
    of NULL or of a node that was freed.  The allocator is a parameter: zmalloc returns
    a block that is not in use (it ends the process when there is none, so that the
    NULL it would return is not modelled). *)
From stdpp Require Import gmap.
From S2P Require Import Prelude.
#[local] Open Scope Z_scope.

Class Zmalloc := {
  zmalloc : ∀ {A}, gmap positive A → positive;
  zmalloc_fresh : ∀ {A} (m : gmap positive A), m !! zmalloc m = None;
}.

Definition AL_START_HEAD : Z := 0.
Definition AL_START_TAIL : Z := 1.

Section adlist.
Context `{Zmalloc} {V : Type} `{EqDecision V}.

Record listNode := mk_node { n_prev : option positive; n_next : option positive; n_value : V }.

(** The nodes, and the values given to a free method. *)
Record mem := mk_mem { nodes : gmap positive listNode; freed_values : list V }.

Record dlist := mk_dlist {
  d_head : option positive;
  d_tail : option positive;
  dup : option (V → option V);
  free : bool;
  matches : option (V → V → bool);
  dlen : Z;
}.

Record listIter := mk_iter { it_next : option positive; direction : Z }.

(** ** Memory *)

Definition new_node (s : mem) (n : listNode) : mem * positive :=
  let p := zmalloc (nodes s) in (mk_mem (<[p := n]> (nodes s)) (freed_values s), p).
Definition node_at (s : mem) (p : positive) : option listNode := nodes s !! p.
Definition put_node (s : mem) (p : positive) (n : listNode) : mem := mk_mem (<[p := n]> (nodes s)) (freed_values s).
Definition set_prev (s : mem) (p : positive) (q : option positive) : option mem :=
  n ← node_at s p; Some (put_node s p (mk_node q (n_next n) (n_value n))).
Definition set_next (s : mem) (p : positive) (q : option positive) : option mem :=
  n ← node_at s p; Some (put_node s p (mk_node (n_prev n) q (n_value n))).
Definition zfree (s : mem) (p : positive) : option mem :=
  match nodes s !! p with Some _ => Some (mk_mem (delete p (nodes s)) (freed_values s)) | None => None end.
Definition free_value (l : dlist) (s : mem) (v : V) : mem :=
  if free l then mk_mem (nodes s) (freed_values s ++ [v]) else s.

Definition set_ends (l : dlist) (h t : option positive) (n : Z) : dlist := mk_dlist h t (dup l) (free l) (matches l) n.

(** ** Operations *)

Definition listCreate : dlist := mk_dlist None None None false None 0.

(** [while(len--)]. *)
Fixpoint empty_nodes (l : dlist) (n : nat) (s : mem) (current : option positive) : option mem :=
  match n with
  | O => Some s
  | S n =>
    p ← current;
    node ← node_at s p;
    s ← zfree (free_value l s (n_value node)) p;
    empty_nodes l n s (n_next node)
  end.
Definition listEmpty (s : mem) (l : dlist) : option (mem * dlist) :=
  s ← empty_nodes l (Z.to_nat (dlen l)) s (d_head l);
  Some (s, set_ends l None None 0).

(** The list itself is a value here: there is nothing else to free. *)
Definition listRelease (s : mem) (l : dlist) : option mem :=
  '(s, _) ← listEmpty s l; Some s.

Definition listAddNodeHead (s : mem) (l : dlist) (value : V) : option (mem * dlist) :=
  if dlen l =? 0 then
    let '(s, node) := new_node s (mk_node None None value) in
    Some (s, set_ends l (Some node) (Some node) (u64 (dlen l + 1)))
  else
    let '(s, node) := new_node s (mk_node None (d_head l) value) in
    h ← d_head l;
    s ← set_prev s h (Some node);
    Some (s, set_ends l (Some node) (d_tail l) (u64 (dlen l + 1))).

Definition listAddNodeTail (s : mem) (l : dlist) (value : V) : option (mem * dlist) :=
  if dlen l =? 0 then
    let '(s, node) := new_node s (mk_node None None value) in
    Some (s, set_ends l (Some node) (Some node) (u64 (dlen l + 1)))
  else
    let '(s, node) := new_node s (mk_node (d_tail l) None value) in
    t ← d_tail l;
    s ← set_next s t (Some node);
    Some (s, set_ends l (d_head l) (Some node) (u64 (dlen l + 1))).

Definition listInsertNode (s : mem) (l : dlist) (old_node : positive) (value : V) (after : bool) : option (mem * dlist) :=
  old ← node_at s old_node;
  let prev := if after then Some old_node else n_prev old in
  let next := if after then n_next old else Some old_node in
  let '(s, node) := new_node s (mk_node prev next value) in
  let t := if after && bool_decide (d_tail l = Some old_node) then Some node else d_tail l in
  let h := if negb after && bool_decide (d_head l = Some old_node) then Some node else d_head l in
  s ← match prev with Some p => set_next s p (Some node) | None => Some s end;
  s ← match next with Some p => set_prev s p (Some node) | None => Some s end;
  Some (s, set_ends l h t (u64 (dlen l + 1))).

Definition listDelNode (s : mem) (l : dlist) (node : positive) : option (mem * dlist) :=
  n ← node_at s node;
  '(s, h) ← match n_prev n with
            | Some p => s ← set_next s p (n_next n); Some (s, d_head l)
            | None => Some (s, n_next n)
            end;
  '(s, t) ← match n_next n with
            | Some p => s ← set_prev s p (n_prev n); Some (s, d_tail l)
            | None => Some (s, n_prev n)
            end;
  s ← zfree (free_value l s (n_value n)) node;
  Some (s, set_ends l h t (u64 (dlen l - 1))).

Definition listGetIterator (l : dlist) (direction : Z) : listIter :=
  if direction =? AL_START_HEAD then mk_iter (d_head l) direction else mk_iter (d_tail l) direction.
Definition listRewind (l : dlist) : listIter := mk_iter (d_head l) AL_START_HEAD.
Definition listRewindTail (l : dlist) : listIter := mk_iter (d_tail l) AL_START_TAIL.

(** The node returned, or NULL, and the iterator. *)
Definition listNext (s : mem) (iter : listIter) : option (option positive * listIter) :=
  match it_next iter with
  | Some current =>
    n ← node_at s current;
    Some (Some current, mk_iter (if direction iter =? AL_START_HEAD then n_next n else n_prev n) (direction iter))
  | None => Some (None, iter)
  end.

(** [while((node = listNext(&iter)) != NULL)] of listDup: the copy, or NULL. *)
Fixpoint dup_loop (fuel : nat) (s : mem) (iter : listIter) (copy : dlist) : option (mem * option dlist) :=
  match fuel with
  | O => None
  | S fuel =>
    '(node, iter) ← listNext s iter;
    match node with
    | None => Some (s, Some copy)
    | Some p =>
      n ← node_at s p;
      match (match dup copy with Some f => f (n_value n) | None => Some (n_value n) end) with
      | None => s ← listRelease s copy; Some (s, None)
      | Some value =>
        '(s, copy) ← listAddNodeTail s copy value;
        dup_loop fuel s iter copy
      end
    end
  end.
Definition listDup (s : mem) (orig : dlist) : option (mem * option dlist) :=
  let copy := listCreate in
  let copy := mk_dlist (d_head copy) (d_tail copy) (dup orig) (free orig) (matches orig) (dlen copy) in
  dup_loop (S (size (nodes s))) s (listRewind orig) copy.

Fixpoint key_loop (fuel : nat) (s : mem) (l : dlist) (iter : listIter) (key : V) : option (option positive) :=
  match fuel with
  | O => None
  | S fuel =>
    '(node, iter) ← listNext s iter;
    match node with
    | None => Some None
    | Some p =>
      n ← node_at s p;
      if (match matches l with Some f => f (n_value n) key | None => bool_decide (key = n_value n) end)
      then Some (Some p) else key_loop fuel s l iter key
    end
  end.
Definition listSearchKey (s : mem) (l : dlist) (key : V) : option (option positive) :=
  key_loop (S (size (nodes s))) s l (listRewind l) key.

(** [while(index-- && n) n = n->next], or [prev]. *)
Fixpoint seek_loop (fuel : nat) (s : mem) (back : bool) (index : Z) (n : option positive) : option (option positive) :=
  match n with
  | Some p =>
    if index =? 0 then Some (Some p)
    else
      match fuel with
      | O => None
      | S fuel => node ← node_at s p; seek_loop fuel s back (index - 1) (if back then n_prev node else n_next node)
      end
  | None => Some None
  end.
(** The negation of the least long has no value. *)
Definition listIndex (s : mem) (l : dlist) (index : Z) : option (option positive) :=
  if index <? 0 then
    if index =? - 2 ^ 63 then None else seek_loop (size (nodes s)) s true (- index - 1) (d_tail l)
  else seek_loop (size (nodes s)) s false index (d_head l).

Definition listRotateTailToHead (s : mem) (l : dlist) : option (mem * dlist) :=
  if dlen l <=? 1 then Some (s, l)
  else
    t ← d_tail l;
    n ← node_at s t;
    t' ← n_prev n;
    s ← set_next s t' None;
    h ← d_head l;
    s ← set_prev s h (Some t);
    s ← set_prev s t None;
    s ← set_next s t (Some h);
    Some (s, set_ends l (Some t) (Some t') (dlen l)).

Definition listRotateHeadToTail (s : mem) (l : dlist) : option (mem * dlist) :=
  if dlen l <=? 1 then Some (s, l)
  else
    h ← d_head l;
    n ← node_at s h;
    h' ← n_next n;
    s ← set_prev s h' None;
    t ← d_tail l;
    s ← set_next s t (Some h);
    s ← set_next s h None;
    s ← set_prev s h (Some t);
    Some (s, set_ends l (Some h') (Some h) (dlen l)).

(** The lists [l] and [o] afterwards. *)
Definition listJoin (s : mem) (l o : dlist) : option (mem * dlist * dlist) :=
  if dlen o =? 0 then Some (s, l, o)
  else
    oh ← d_head o;
    s ← set_prev s oh (d_tail l);
    '(s, h) ← match d_tail l with
              | Some t => s ← set_next s t (Some oh); Some (s, d_head l)
              | None => Some (s, Some oh)
              end;
    Some (s, set_ends l h (d_tail o) (u64 (dlen l + dlen o)), set_ends o None None 0).
End adlist.

Arguments listNode V : clear implicits.
Arguments mem V : clear implicits.
Arguments dlist V : clear implicits.
