(* ===== verification/AdlistTheorems.v ===== *)
(** Doubly linked lists: the operations of adlist.c refine those on lists of values.
    The nodes of a list are a chain in the heap; nothing is leaked and no node is used
    after it was freed. *)
From stdpp Require Import gmap.
From S2P Require Import Prelude Adlist.
#[local] Open Scope Z_scope.

Section chains.
Context {V : Type}.

(** The nodes of a list, in order: their addresses and values. *)
Abbreviation cells := (list (positive * V)).

Definition first (cs : cells) (d : option positive) : option positive := match cs with [] => d | (p, _) :: _ => Some p end.
Fixpoint final (d : option positive) (cs : cells) : option positive := match cs with [] => d | (p, _) :: cs => final (Some p) cs end.

(** The cells are linked in both directions; [prv] is before them and [nxt] after. *)
Fixpoint chain (m : gmap positive (listNode V)) (prv : option positive) (cs : cells) (nxt : option positive) : Prop :=
  match cs with
  | [] => True
  | (p, v) :: cs => m !! p = Some (mk_node prv (first cs nxt) v) ∧ chain m (Some p) cs nxt
  end.

Lemma first_app a b d : first (a ++ b) d = first a (first b d).
Proof. by destruct a as [|[]]. Qed.

Lemma final_app a b d : final d (a ++ b) = final (final d a) b.
Proof. revert d. induction a as [|[p v] a IH]; intros d; cbn; [done|apply IH]. Qed.

Lemma chain_app m a b prv nxt : chain m prv (a ++ b) nxt ↔ chain m prv a (first b nxt) ∧ chain m (final prv a) b nxt.
Proof.
  revert prv. induction a as [|[p v] a IH]; intros prv; cbn; [tauto|]. rewrite IH, first_app. tauto.
Qed.

Lemma chain_frame m m' prv cs nxt : (∀ p, p ∈ cs.*1 → m' !! p = m !! p) → chain m prv cs nxt → chain m' prv cs nxt.
Proof.
  revert prv. induction cs as [|[p v] cs IH]; intros prv Hm; cbn; [done|]. intros [Hp Hc]. split; [rewrite Hm by (cbn; set_solver); done|].
  apply IH; [|done]. intros q Hq. apply Hm. cbn. set_solver.
Qed.

Lemma chain_insert m prv cs nxt p n : p ∉ cs.*1 → chain m prv cs nxt → chain (<[p := n]> m) prv cs nxt.
Proof. intros Hp. apply chain_frame. intros q Hq. rewrite lookup_insert_ne; [done|]. by intros ->. Qed.

Lemma chain_delete m prv cs nxt p : p ∉ cs.*1 → chain m prv cs nxt → chain (delete p m) prv cs nxt.
Proof. intros Hp. apply chain_frame. intros q Hq. rewrite lookup_delete_ne; [done|]. by intros ->. Qed.

Lemma chain_live m prv cs nxt p : chain m prv cs nxt → p ∈ cs.*1 → is_Some (m !! p).
Proof.
  revert prv. induction cs as [|[q v] cs IH]; intros prv; cbn; [set_solver|]. intros [Hq Hc] [->|Hp]%elem_of_cons; [by rewrite Hq|by eapply IH].
Qed.

Lemma chain_fresh m prv cs nxt p : chain m prv cs nxt → m !! p = None → p ∉ cs.*1.
Proof. intros Hc Hp Hin. destruct (chain_live _ _ _ _ _ Hc Hin). congruence. Qed.

Lemma final_last a p v d : final d (a ++ [(p, v)]) = Some p.
Proof. by rewrite final_app. Qed.

(** The pointer at either end of a chain is changed. *)
Lemma chain_set_next m prv a p v nxt q : chain m prv (a ++ [(p, v)]) nxt → p ∉ a.*1 →
  chain (<[p := mk_node (final prv a) q v]> m) prv (a ++ [(p, v)]) q.
Proof.
  rewrite !chain_app. cbn. intros (Ha & Hp & _) Hn. split; [by apply chain_insert|]. by rewrite lookup_insert_eq.
Qed.

Lemma chain_set_prev m prv cs p v nxt q : chain m prv ((p, v) :: cs) nxt → p ∉ cs.*1 →
  chain (<[p := mk_node q (first cs nxt) v]> m) q ((p, v) :: cs) nxt.
Proof. cbn. intros (Hp & Hc) Hn. split; [by rewrite lookup_insert_eq|by apply chain_insert]. Qed.

(** The list [l] has the cells [cs]. *)
Record is_list (s : mem V) (l : dlist V) (cs : cells) : Prop := {
  l_chain : chain (nodes s) None cs None;
  l_head : d_head l = first cs None;
  l_tail : d_tail l = final None cs;
  l_len : dlen l = len cs;
  l_nodup : NoDup cs.*1;
  l_max : len cs < 2 ^ 63;
}.

(** From [s] to [s'] only the cells of the list changed: those that went are freed,
    those that came were not in use. *)
Definition change (s s' : mem V) (cs cs' : cells) : Prop := ∀ p,
  (p ∉ cs.*1 → p ∉ cs'.*1 → nodes s' !! p = nodes s !! p) ∧
  (p ∈ cs.*1 → p ∉ cs'.*1 → nodes s' !! p = None) ∧
  (p ∉ cs.*1 → p ∈ cs'.*1 → nodes s !! p = None).

End chains.

(** Lookups in a heap that was changed at a few addresses. *)
Ltac elems := rewrite ?fmap_app, ?fmap_cons, ?fmap_nil, ?elem_of_app, ?elem_of_cons, ?elem_of_nil; cbn [fst].
Ltac elems_in H := rewrite ?fmap_app, ?fmap_cons, ?fmap_nil, ?elem_of_app, ?elem_of_cons, ?elem_of_nil in H; cbn [fst] in H.
Ltac addr_ne := first [congruence | intros ->; tauto | intros <-; tauto].
Ltac heap_ne := repeat first [rewrite lookup_insert_ne by addr_ne | rewrite lookup_delete_ne by addr_ne].
Ltac by_change := intros q; cbn [nodes put_node]; elems; split_and!; intros; [heap_ne; done|try (exfalso; tauto)|try (exfalso; tauto)].

Section ops.
Context `{Zmalloc} {V : Type} `{EqDecision V}.
Implicit Types (s : mem V) (l : dlist V) (cs : list (positive * V)).

Definition new_addr s : positive := zmalloc (nodes s).

Lemma new_addr_fresh s l cs : is_list s l cs → new_addr s ∉ cs.*1.
Proof. intros [Hc _ _ _ _ _]. eapply chain_fresh; [done|]. apply zmalloc_fresh. Qed.

Definition same_methods l l' : Prop := free l' = free l ∧ dup l' = dup l ∧ matches l' = matches l.

(** An operation on the list with the cells [cs] ends with the cells [cs'] and gave
    the values [fr] to the free method. *)
Definition becomes s l cs (r : option (mem V * dlist V)) cs' (fr : list V) : Prop :=
  ∃ s' l', r = Some (s', l') ∧ is_list s' l' cs' ∧ change s s' cs cs' ∧ freed_values s' = freed_values s ++ fr ∧ same_methods l l'.

Lemma add_head s l cs v : is_list s l cs → len cs + 1 < 2 ^ 63 → becomes s l cs (listAddNodeHead s l v) ((new_addr s, v) :: cs) [].
Proof.
  intros Hl Hmax. pose proof (new_addr_fresh s l cs Hl) as Hf. pose proof (zmalloc_fresh (nodes s)) as Hz. fold (new_addr s) in Hz.
  destruct Hl as [Hc Hh Ht Hn Hd Hm]. unfold listAddNodeHead, new_node. fold (new_addr s). set (p := new_addr s) in *. destruct cs as [|[h w] cs].
  - rewrite Hn. cbn [length Z.of_nat Z.eqb]. eexists _, _. split; [done|]. split; [|split_and!; try done; [|by rewrite app_nil_r]].
    + constructor; try done; [|by apply NoDup_singleton]. split; [|done]. cbn. by rewrite lookup_insert_eq.
    + by_change. naive_solver.
  - replace (dlen l =? 0) with false by (rewrite Hn; cbn; lia). rewrite Hh. cbn [first]. mnext. cbn in Hf, Hd. apply NoDup_cons in Hd as [Hd1 Hd2]. destruct Hc as [Hc1 Hc2].
    unfold set_prev, node_at. cbn [nodes]. rewrite lookup_insert_ne by set_solver. rewrite Hc1. do 2 mnext. eexists _, _. split; [done|]. split; [|split_and!; try done; [|by rewrite app_nil_r]].
    + constructor; try done; [|cbn [dlen set_ends]; rewrite Hn, wrapu_small; cbn [length] in *; lia|cbn; repeat (apply NoDup_cons; split); set_solver|cbn [length] in *; lia].
      cbn. split_and!; [heap_ne; by rewrite lookup_insert_eq|by rewrite lookup_insert_eq|]. apply chain_insert; [done|]. apply chain_insert; [set_solver|done].
    + by_change. naive_solver.
Qed.

Lemma add_tail s l cs v : is_list s l cs → len cs + 1 < 2 ^ 63 → becomes s l cs (listAddNodeTail s l v) (cs ++ [(new_addr s, v)]) [].
Proof.
  intros Hl Hmax. pose proof (new_addr_fresh s l cs Hl) as Hf. pose proof (zmalloc_fresh (nodes s)) as Hz. fold (new_addr s) in Hz.
  destruct Hl as [Hc Hh Ht Hn Hd Hm]. unfold listAddNodeTail, new_node. fold (new_addr s). set (p := new_addr s) in *. destruct cs as [|[t w] cs _] using rev_ind.
  - rewrite Hn. cbn [length Z.of_nat Z.eqb]. eexists _, _. split; [done|]. split; [|split_and!; try done; [|by rewrite app_nil_r]].
    + constructor; try done; [|by apply NoDup_singleton]. split; [|done]. cbn. by rewrite lookup_insert_eq.
    + by_change. naive_solver.
  - rewrite length_app in *. cbn [length] in *. replace (dlen l =? 0) with false by lia. rewrite Ht, final_last. mnext. rewrite fmap_app in *. cbn in Hf, Hd.
    apply NoDup_app in Hd as (Hd1 & Hd2 & _). pose proof Hc as Hc0. apply chain_app in Hc0 as [Hc1 [Hc2 _]].
    unfold set_next, node_at. cbn [nodes]. rewrite lookup_insert_ne by set_solver. rewrite Hc2. do 2 mnext. eexists _, _. split; [done|]. split; [|split_and!; try done; [|by rewrite app_nil_r]].
    + constructor; [| |by rewrite final_last|cbn [dlen set_ends]; rewrite Hn, wrapu_small; rewrite ?length_app; cbn [length]; lia| |rewrite !length_app; cbn [length]; lia].
      * rewrite !chain_app. cbn. rewrite final_last. split_and!; try done; [|by rewrite lookup_insert_eq|heap_ne; by rewrite lookup_insert_eq].
        apply chain_insert; [set_solver|]. apply chain_insert; [set_solver|done].
      * cbn. rewrite Hh. by rewrite !first_app.
      * rewrite !fmap_app. cbn. rewrite <- app_assoc. cbn. apply NoDup_app. split; [done|]. split; [set_solver|]. apply NoDup_cons. split; [set_solver|apply NoDup_singleton].
    + by_change. naive_solver.
Qed.

(** ** Links *)

Lemma set_next_end s prv A nxt q : chain (nodes s) prv A nxt → NoDup A.*1 →
  ∃ s', match final None A with Some x => set_next s x q | None => Some s end = Some s' ∧ chain (nodes s') prv A q ∧
    (∀ y, y ∉ A.*1 → nodes s' !! y = nodes s !! y) ∧ freed_values s' = freed_values s.
Proof.
  intros Hc Hd. destruct A as [|[x v] A _] using rev_ind; [by exists s|]. rewrite final_last. pose proof Hc as Hc0. apply chain_app in Hc0 as [_ [Hx _]].
  unfold set_next, node_at. rewrite Hx. mnext. eexists. split; [done|]. rewrite fmap_app in Hd. apply NoDup_app in Hd as (_ & Hd & _). split; [|split; [|done]].
  - eapply chain_set_next; [done|]. intros Hin. apply (Hd _ Hin). by left.
  - intros y. elems. intros Hy. cbn. heap_ne. done.
Qed.

Lemma set_prev_start s prv B nxt q : chain (nodes s) prv B nxt → NoDup B.*1 →
  ∃ s', match first B None with Some x => set_prev s x q | None => Some s end = Some s' ∧ chain (nodes s') q B nxt ∧
    (∀ y, y ∉ B.*1 → nodes s' !! y = nodes s !! y) ∧ freed_values s' = freed_values s.
Proof.
  intros Hc Hd. destruct B as [|[x v] B]; [by exists s|]. cbn [first]. pose proof Hc as [Hx _]. unfold set_prev, node_at. rewrite Hx. mnext.
  eexists. split; [done|]. cbn in Hd. apply NoDup_cons in Hd as [Hd _]. split; [by eapply chain_set_prev|split; [|done]].
  intros y. elems. intros Hy. cbn. heap_ne. done.
Qed.

Lemma chain_same s s' prv cs nxt (l : list positive) : (∀ y, y ∉ l → nodes s' !! y = nodes s !! y) → (∀ y, y ∈ cs.*1 → y ∉ l) →
  chain (nodes s) prv cs nxt → chain (nodes s') prv cs nxt.
Proof. intros Hs Hd. apply chain_frame. intros p Hp. apply Hs. by apply Hd. Qed.

(** A node is linked in between [A] and [B]. *)
Lemma splice s A B p v : chain (nodes s) None (A ++ B) None → NoDup (A ++ B).*1 → p ∉ (A ++ B).*1 →
  nodes s !! p = Some (mk_node (final None A) (first B None) v) →
  ∃ s1 s2, match final None A with Some x => set_next s x (Some p) | None => Some s end = Some s1 ∧
    match first B None with Some y => set_prev s1 y (Some p) | None => Some s1 end = Some s2 ∧
    chain (nodes s2) None (A ++ (p, v) :: B) None ∧ (∀ q, q ∉ (A ++ B).*1 → nodes s2 !! q = nodes s !! q) ∧ freed_values s2 = freed_values s.
Proof.
  intros Hc Hd Hp Hn. apply chain_app in Hc as [Ha Hb]. rewrite fmap_app in Hd, Hp |- *. apply NoDup_app in Hd as (Hda & Hab & Hdb).
  destruct (set_next_end s None A _ (Some p) Ha Hda) as (s1 & E1 & Ha1 & Hs1 & Hf1).
  assert (Hb1 : chain (nodes s1) (final None A) B None) by (eapply chain_same; [exact Hs1| |exact Hb]; intros y Hy1 Hy2; by apply (Hab y)).
  destruct (set_prev_start s1 _ B None (Some p) Hb1 Hdb) as (s2 & E2 & Hb2 & Hs2 & Hf2). exists s1, s2. split_and!; try done; [| |congruence].
  - apply chain_app. cbn. split; [eapply chain_same; [exact Hs2|exact Hab|exact Ha1]|]. split; [|done].
    rewrite Hs2, Hs1 by set_solver. done.
  - intros q [Hq1 Hq2]%not_elem_of_app. by rewrite Hs2, Hs1.
Qed.

(** A node between [A] and [B] is linked out. *)
Lemma unlink s A B p v : chain (nodes s) None (A ++ (p, v) :: B) None → NoDup (A ++ (p, v) :: B).*1 →
  nodes s !! p = Some (mk_node (final None A) (first B None) v) ∧
  ∃ s1 s2, match final None A with Some x => set_next s x (first B None) | None => Some s end = Some s1 ∧
    match first B None with Some y => set_prev s1 y (final None A) | None => Some s1 end = Some s2 ∧
    chain (nodes s2) None (A ++ B) None ∧ (∀ q, q ∉ (A ++ B).*1 → nodes s2 !! q = nodes s !! q) ∧ freed_values s2 = freed_values s.
Proof.
  intros Hc Hd. apply chain_app in Hc as [Ha [Hn Hb]]. split; [done|]. rewrite fmap_app in Hd |- *. cbn in Hd. apply NoDup_app in Hd as (Hda & Hab & Hdb). apply NoDup_cons in Hdb as [Hpb Hdb].
  destruct (set_next_end s None A _ (first B None) Ha Hda) as (s1 & E1 & Ha1 & Hs1 & Hf1).
  assert (Hb1 : chain (nodes s1) (Some p) B None) by (eapply chain_same; [exact Hs1| |exact Hb]; intros y Hy1 Hy2; apply (Hab y Hy2); by right).
  destruct (set_prev_start s1 _ B None (final None A) Hb1 Hdb) as (s2 & E2 & Hb2 & Hs2 & Hf2). exists s1, s2. split_and!; try done; [| |congruence].
  - apply chain_app. split; [|done]. eapply chain_same; [exact Hs2| |exact Ha1]. intros y Hy1 Hy2. apply (Hab y Hy1). by right.
  - intros q [Hq1 Hq2]%not_elem_of_app. by rewrite Hs2, Hs1.
Qed.

Lemma final_in cs d : cs ≠ [] → ∃ p, final d cs = Some p ∧ p ∈ cs.*1.
Proof.
  destruct cs as [|[p v] cs _] using rev_ind; [done|]. intros _. exists p. rewrite final_last. split; [done|]. elems. tauto.
Qed.

(** Insertion between [A] and [B], once the right ends of the list are known. *)
Lemma insert_between s l A B v h t : is_list s l (A ++ B) → len (A ++ B) + 1 < 2 ^ 63 → h = first (A ++ (new_addr s, v) :: B) None →
  t = final None (A ++ (new_addr s, v) :: B) →
  becomes s l (A ++ B)
    (let '(s, node) := new_node s (mk_node (final None A) (first B None) v) in
     s ← match final None A with Some p => set_next s p (Some node) | None => Some s end;
     s ← match first B None with Some p => set_prev s p (Some node) | None => Some s end;
     Some (s, set_ends l h t (u64 (dlen l + 1)))) (A ++ (new_addr s, v) :: B) [].
Proof.
  intros Hl Hmax Hh Ht. pose proof (new_addr_fresh s l _ Hl) as Hf. pose proof (zmalloc_fresh (nodes s)) as Hz. fold (new_addr s) in Hz.
  destruct Hl as [Hc _ _ Hn Hd Hm]. unfold new_node. fold (new_addr s). set (p := new_addr s) in *. set (n := mk_node _ _ v).
  destruct (splice (mk_mem (<[p := n]> (nodes s)) (freed_values s)) A B p v) as (s1 & s2 & -> & E2 & Hc2 & Hs2 & Hf2); [by apply chain_insert|done|done|by cbn; rewrite lookup_insert_eq|].
  mnext. rewrite E2. mnext. eexists _, _. split; [done|]. split; [|split_and!; try done; [|by rewrite app_nil_r]].
  - constructor; try done; [cbn [dlen set_ends]; rewrite Hn, wrapu_small; rewrite !length_app in *; cbn [length] in *; lia| |rewrite !length_app in *; cbn [length] in *; lia].
    rewrite fmap_app in Hd, Hf |- *. cbn. apply NoDup_app in Hd as (? & Hab & ?). apply not_elem_of_app in Hf as [? ?].
    apply NoDup_app. split_and!; [done| |by apply NoDup_cons]. intros x Hx [->|Hx']%elem_of_cons; [done|by apply (Hab x)].
  - intros q. elems. split_and!.
    + intros Hq1 Hq2. rewrite Hs2 by (elems; tauto). cbn. heap_ne. done.
    + intros. tauto.
    + intros Hq1 [?|[->|?]]; tauto.
Qed.

Lemma insert_node s l C1 C2 o w v (after : bool) : is_list s l (C1 ++ (o, w) :: C2) → len (C1 ++ (o, w) :: C2) + 1 < 2 ^ 63 →
  becomes s l (C1 ++ (o, w) :: C2) (listInsertNode s l o v after)
    (if after then C1 ++ (o, w) :: (new_addr s, v) :: C2 else C1 ++ (new_addr s, v) :: (o, w) :: C2) [].
Proof.
  intros Hl Hmax. pose proof Hl as [Hc Hh Ht _ Hd _]. unfold listInsertNode, node_at. pose proof Hc as Hc0. apply chain_app in Hc0 as [_ [-> _]]. mnext.
  cbn [n_prev n_next]. rewrite fmap_app in Hd. cbn in Hd. apply NoDup_app in Hd as (Hd1 & Hab & Hd2). apply NoDup_cons in Hd2 as [Hd2 _]. destruct after; cbn [andb negb].
  - pose proof (insert_between s l (C1 ++ [(o, w)]) C2 v) as Hi. rewrite final_last in Hi. rewrite <- !app_assoc in Hi. cbn [app] in Hi. apply Hi; [done|done| |].
    + by rewrite Hh, !first_app.
    + rewrite Ht, !final_app. cbn. destruct C2 as [|c C2]; [by rewrite bool_decide_true|]. rewrite bool_decide_false; [done|].
      destruct (final_in (c :: C2) (Some o)) as (x & Hx & Hin); [done|]. rewrite Hx. intros [= ->]. done.
  - apply (insert_between s l C1 ((o, w) :: C2) v); [done|done| |].
    + rewrite Hh, !first_app. destruct C1 as [|[c ?] C1]; cbn; [by rewrite bool_decide_true|]. rewrite bool_decide_false; [done|]. intros [= ->].
      apply (Hab o); by left.
    + by rewrite Ht, !final_app.
Qed.

Lemma del_node s l C1 C2 o w : is_list s l (C1 ++ (o, w) :: C2) →
  becomes s l (C1 ++ (o, w) :: C2) (listDelNode s l o) (C1 ++ C2) (if free l then [w] else []).
Proof.
  intros [Hc Hh Ht Hn Hd Hm]. destruct (unlink s C1 C2 o w Hc Hd) as (Ho & s1 & s2 & E1 & E2 & Hc2 & Hs2 & Hf2).
  assert (Hoc : o ∉ (C1 ++ C2).*1) by (rewrite fmap_app in Hd |- *; cbn in Hd; apply NoDup_app in Hd as (_ & Hab & [? _]%NoDup_cons); apply not_elem_of_app; split; [|done]; intros Hin; apply (Hab o Hin); by left).
  unfold listDelNode, node_at. rewrite Ho. mnext. cbn [n_prev n_next n_value].
  assert (match final None C1 with Some p => s ← set_next s p (first C2 None); Some (s, d_head l) | None => Some (s, first C2 None) end = Some (s1, first (C1 ++ C2) None)) as ->.
  { rewrite Hh, !first_app. destruct C1 as [|[c x] C1 _] using rev_ind; [cbn in *; congruence|]. rewrite final_last in *. rewrite E1. mnext. by destruct C1 as [|[]]. }
  mnext. assert (match first C2 None with Some p => s ← set_prev s1 p (final None C1); Some (s, d_tail l) | None => Some (s1, final None C1) end = Some (s2, final None (C1 ++ C2))) as ->.
  { rewrite Ht, !final_app. cbn. destruct C2 as [|[c x] C2]; cbn in *; [congruence|]. rewrite E2. mnext. done. }
  mnext. assert (Hfv : nodes (free_value l s2 w) = nodes s2 ∧ freed_values (free_value l s2 w) = freed_values s ++ (if free l then [w] else [])).
  { unfold free_value. destruct (free l); cbn; [by rewrite Hf2|by rewrite app_nil_r]. }
  destruct Hfv as [Hfn Hff]. unfold zfree. rewrite Hfn, Hs2, Ho by done. mnext. eexists _, _. split; [done|]. split; [|split_and!; try done].
  - constructor; try done; [by apply chain_delete|cbn [dlen set_ends]; rewrite Hn, wrapu_small; rewrite !length_app in *; cbn [length] in *; lia| |rewrite !length_app in *; cbn [length] in *; lia].
    rewrite fmap_app in Hd |- *. cbn in Hd. apply NoDup_app in Hd as (? & Hab & [_ ?]%NoDup_cons). apply NoDup_app. split_and!; [done| |done]. intros x Hx Hx'. apply (Hab x Hx). by right.
  - intros q. elems. elems_in Hoc. cbn [nodes]. split_and!.
    + intros Hq1 Hq2. heap_ne. rewrite Hs2; [done|]. elems. tauto.
    + intros Hq1 Hq2. destruct (decide (q = o)) as [->|Hq]; [by rewrite lookup_delete_eq|]. tauto.
    + intros Hq1 Hq2. tauto.
Qed.

(** ** The whole list *)

Definition freed_by l (vs : list V) : list V := if free l then vs else [].

Lemma empty_chain l cs : ∀ s prv, chain (nodes s) prv cs None → NoDup cs.*1 →
  ∃ s', empty_nodes l (length cs) s (first cs None) = Some s' ∧ freed_values s' = freed_values s ++ freed_by l cs.*2 ∧
    ∀ q, (q ∈ cs.*1 → nodes s' !! q = None) ∧ (q ∉ cs.*1 → nodes s' !! q = nodes s !! q).
Proof.
  induction cs as [|[p v] cs IH]; intros s prv Hc Hd.
  - exists s. split; [done|]. split; [unfold freed_by; destruct (free l); by rewrite app_nil_r|]. intros q. split; [by intros ?%elem_of_nil|done].
  - destruct Hc as [Hp Hc]. cbn in Hd. apply NoDup_cons in Hd as [Hpn Hd]. cbn [length empty_nodes first]. mnext. unfold node_at. rewrite Hp. mnext. cbn [n_value n_next].
    assert (nodes (free_value l s v) = nodes s) as Hfn by (unfold free_value; by destruct (free l)).
    unfold zfree. rewrite Hfn, Hp. mnext. set (s1 := mk_mem _ _).
    destruct (IH s1 (Some p)) as (s' & -> & Hf & Hq); [by apply chain_delete|done|]. exists s'. split; [done|]. split.
    + rewrite Hf. unfold s1, free_value, freed_by. destruct (free l); cbn; by rewrite <- ?app_assoc.
    + intros q. elems. destruct (Hq q) as [Hq1 Hq2]. cbn in Hq2. split.
      * intros [->|Hin]; [|by apply Hq1]. destruct (decide (p ∈ cs.*1)); [by apply Hq1|]. rewrite Hq2 by done. apply lookup_delete_eq.
      * intros Hn. rewrite Hq2 by tauto. heap_ne. done.
Qed.

Lemma empty_list s l cs : is_list s l cs → becomes s l cs (listEmpty s l) [] (freed_by l cs.*2).
Proof.
  intros [Hc Hh Ht Hn Hd Hm]. unfold listEmpty. rewrite Hn, Nat2Z.id, Hh. destruct (empty_chain l cs s None Hc Hd) as (s' & -> & Hf & Hq). mnext.
  eexists _, _. split; [done|]. split; [|split_and!; try done].
  - constructor; try done. apply NoDup_nil_2.
  - intros q. destruct (Hq q) as [Hq1 Hq2]. split_and!; [auto|auto|intros _ Hin; by apply elem_of_nil in Hin].
Qed.

Lemma rotate_tail s l cs : is_list s l cs →
  becomes s l cs (listRotateTailToHead s l) (match rev cs with [] => [] | c :: r => c :: rev r end) [].
Proof.
  intros Hl. pose proof Hl as [Hc Hh Ht Hn Hd Hm]. unfold listRotateTailToHead. destruct cs as [|[t v] A _] using rev_ind.
  { rewrite Hn. exists s, l. split_and!; try done; by rewrite ?app_nil_r. }
  rewrite rev_app_distr. cbn [rev app]. rewrite rev_involutive. rewrite length_app in *. cbn [length] in *. destruct A as [|a A'] eqn:EA.
  { rewrite Hn. exists s, l. split_and!; try done; by rewrite ?app_nil_r. }
  rewrite <- EA in *. assert (0 < len A) by (rewrite EA; cbn; lia). replace (dlen l <=? 1) with false by lia. rewrite Ht, final_last. mnext.
  apply chain_app in Hc as [Ha [Hnt _]]. unfold node_at at 1. rewrite Hnt. mnext. cbn [n_prev]. rewrite fmap_app in Hd. cbn in Hd. apply NoDup_app in Hd as (Hda & Hta & _).
  assert (Hta' : t ∉ A.*1) by (intros Hin; apply (Hta t Hin); by left).
  destruct (set_next_end s None A _ None Ha Hda) as (s1 & E1 & Ha1 & Hs1 & Hf1). destruct (final_in A None) as (t' & Ht' & _); [by rewrite EA|]. rewrite Ht' in *. mnext. rewrite E1. mnext.
  rewrite Hh, first_app. destruct (set_prev_start s1 None A None (Some t) Ha1 Hda) as (s2 & E2 & Ha2 & Hs2 & Hf2). destruct A as [|[h w] A]; [done|]. cbn [first] in *. mnext. rewrite E2. mnext.
  unfold set_prev, node_at. rewrite Hs2, Hs1, Hnt by done. do 2 mnext. cbn [n_next n_value]. unfold set_next, node_at. cbn [nodes put_node]. rewrite lookup_insert_eq. do 2 mnext. cbn [n_prev n_value].
  eexists _, _. split; [done|]. split; [|split_and!; try done; [|cbn; by rewrite Hf2, Hf1, app_nil_r]].
  - constructor.
    + split; [cbn; by rewrite lookup_insert_eq|cbn [nodes put_node]; by do 2 (apply chain_insert; [done|])].
    + done.
    + cbn [d_tail set_ends]. by rewrite <- Ht'.
    + cbn [length] in *; cbn [dlen set_ends]; lia.
    + by apply NoDup_cons.
    + cbn [length] in *; lia.
  - intros q. elems. split_and!; [intros; cbn [nodes put_node]; heap_ne; rewrite Hs2, Hs1; [done|elems; tauto..]|tauto|tauto].
Qed.

Lemma rotate_head s l cs : is_list s l cs →
  becomes s l cs (listRotateHeadToTail s l) (match cs with [] => [] | c :: r => r ++ [c] end) [].
Proof.
  intros Hl. pose proof Hl as [Hc Hh Ht Hn Hd Hm]. unfold listRotateHeadToTail. destruct cs as [|[h v] A].
  { rewrite Hn. exists s, l. split_and!; try done; by rewrite ?app_nil_r. }
  cbn [length] in *. destruct A as [|a A'] eqn:EA.
  { rewrite Hn. exists s, l. split_and!; try done; by rewrite ?app_nil_r. }
  rewrite <- EA in *. assert (0 < len A) by (rewrite EA; cbn; lia). replace (dlen l <=? 1) with false by lia. rewrite Hh. cbn [first]. mnext.
  destruct Hc as [Hnh Ha]. unfold node_at at 1. rewrite Hnh. mnext. cbn [n_next]. cbn in Hd. apply NoDup_cons in Hd as [Hha Hda].
  destruct (set_prev_start s _ A None None Ha Hda) as (s1 & E1 & Ha1 & Hs1 & Hf1). destruct (final_in A None) as (t & Ht' & _); [by rewrite EA|].
  assert (Htl : final None ((h, v) :: A) = final None A) by (rewrite EA; cbn; by destruct a).
  destruct (set_next_end s1 None A None (Some h) Ha1 Hda) as (s2 & E2 & Ha2 & Hs2 & Hf2). rewrite Ht, Htl, Ht' in *.
  assert (∃ h', first A None = Some h') as [h' Hh'] by (rewrite EA; destruct a; by eexists). rewrite Hh' in *. mnext. rewrite E1. do 2 mnext. rewrite E2. mnext.
  unfold set_next, node_at. rewrite Hs2, Hs1, Hnh by done. do 2 mnext. cbn [n_prev n_value]. unfold set_prev, node_at. cbn [nodes put_node]. rewrite lookup_insert_eq. do 2 mnext. cbn [n_next n_value].
  eexists _, _. split; [done|]. split; [|split_and!; try done; [|cbn; by rewrite Hf2, Hf1, app_nil_r]].
  - constructor; try done.
    + cbn [nodes put_node]. apply chain_app. cbn. rewrite lookup_insert_eq, Ht'. split; [|done]. by do 2 (apply chain_insert; [done|]).
    + rewrite first_app. by rewrite EA in *; destruct a.
    + by rewrite final_last.
    + rewrite length_app. cbn [length dlen set_ends]. lia.
    + rewrite fmap_app. cbn. apply NoDup_app. split_and!; [done| |apply NoDup_singleton]. intros x Hx ->%list_elem_of_singleton. done.
    + rewrite length_app. cbn [length]. lia.
  - intros q. elems. split_and!; [intros; cbn [nodes put_node]; heap_ne; rewrite Hs2, Hs1; [done|tauto..]|tauto|tauto].
Qed.

Lemma join_lists s l o A B : is_list s l A → is_list s o B → (∀ p, p ∈ A.*1 → p ∉ B.*1) → len A + len B < 2 ^ 63 →
  ∃ s' l' o', listJoin s l o = Some (s', l', o') ∧ is_list s' l' (A ++ B) ∧ is_list s' o' [] ∧ freed_values s' = freed_values s ∧
    (∀ q, q ∉ (A ++ B).*1 → nodes s' !! q = nodes s !! q) ∧ same_methods l l' ∧ same_methods o o'.
Proof.
  intros [Hc Hh Ht Hn Hd Hm] Ho Hab Hmax. pose proof Ho as [Hc' Hh' Ht' Hn' Hd' Hm']. unfold listJoin. destruct B as [|[p v] B0] eqn:EB.
  { rewrite Hn'. exists s, l, o. rewrite app_nil_r. by split_and!. }
  replace (dlen o =? 0) with false by (rewrite Hn'; cbn; lia). rewrite <- EB in *. rewrite Hh', Ht.
  destruct (set_prev_start s None B None (final None A) Hc' Hd') as (s1 & E1 & Hc1 & Hs1 & Hf1).
  assert (Ha1 : chain (nodes s1) None A None) by (eapply chain_same; [exact Hs1|exact Hab|exact Hc]).
  destruct (set_next_end s1 None A None (first B None) Ha1 Hd) as (s2 & E2 & Ha2 & Hs2 & Hf2).
  assert (Hfb : first B None = Some p) by (by rewrite EB). rewrite Hfb in *. mnext. rewrite E1. mnext.
  assert (match final None A with Some t => s ← set_next s1 t (Some p); Some (s, d_head l) | None => Some (s1, Some p) end = Some (s2, first (A ++ B) None)) as ->.
  { rewrite first_app, Hfb, Hh. destruct A as [|[c x] A0 _] using rev_ind; [cbn in *; congruence|]. rewrite final_last in *. rewrite E2. mnext. by destruct A0 as [|[]]. }
  mnext. eexists _, _, _. split; [done|]. split_and!; try done.
  - constructor; try done.
    + apply chain_app. rewrite Hfb. split; [done|]. eapply chain_same; [exact Hs2| |exact Hc1]. intros y Hy Hy'. by apply (Hab y).
    + cbn. rewrite Ht', final_app, EB. done.
    + cbn [dlen set_ends]. rewrite wrapu_small, length_app by lia. lia.
    + rewrite fmap_app. apply NoDup_app. by split_and!.
    + rewrite length_app. lia.
  - constructor; try done. apply NoDup_nil_2.
  - congruence.
  - intros q. elems. intros Hq. rewrite Hs2, Hs1 by tauto. done.
Qed.

(** ** Looking for a node *)

Lemma chain_size s prv cs nxt : chain (nodes s) prv cs nxt → NoDup cs.*1 → (length cs <= size (nodes s))%nat.
Proof.
  intros Hc Hd. rewrite <- (length_fmap fst cs), <- (size_list_to_set (C := gset positive)) by done. rewrite <- (size_dom (D := gset positive)). apply subseteq_size.
  intros p Hp%elem_of_list_to_set. apply elem_of_dom. by eapply chain_live.
Qed.

Lemma list_seek_forward s cs : ∀ fuel prv i, chain (nodes s) prv cs None → 0 <= i → (length cs <= fuel)%nat →
  seek_loop fuel s false i (first cs None) = Some (fst <$> cs !! Z.to_nat i).
Proof.
  induction cs as [|[p v] cs IH]; intros fuel prv i Hc Hi Hf; [by destruct fuel|]. destruct Hc as [Hp Hc]. destruct fuel as [|fuel]; [cbn in Hf; lia|].
  cbn [seek_loop first]. destruct (Z.eqb_spec i 0) as [->|Hne]; [done|]. unfold node_at. rewrite Hp. mnext. cbn [n_next].
  rewrite (IH fuel (Some p)) by (done || (cbn in Hf; lia)). replace (Z.to_nat i) with (S (Z.to_nat (i - 1))) by lia. done.
Qed.

Lemma list_seek_backward s cs : ∀ fuel nxt i, chain (nodes s) None cs nxt → 0 <= i → (length cs <= fuel)%nat →
  seek_loop fuel s true i (final None cs) = Some (fst <$> rev cs !! Z.to_nat i).
Proof.
  induction cs as [|[p v] cs IH] using rev_ind; intros fuel nxt i Hc Hi Hf; [by destruct fuel|]. apply chain_app in Hc as [Hc [Hp _]]. rewrite length_app in Hf. cbn [length] in Hf.
  destruct fuel as [|fuel]; [lia|]. rewrite final_last, rev_app_distr. cbn [seek_loop rev app]. destruct (Z.eqb_spec i 0) as [->|Hne]; [done|].
  unfold node_at. rewrite Hp. mnext. cbn [n_prev]. rewrite (IH fuel (Some p)) by (done || lia). replace (Z.to_nat i) with (S (Z.to_nat (i - 1))) by lia. done.
Qed.

(** The element an index names, from the tail when it is negative. *)
Definition at_index {A} (i : Z) (l : list A) : option A := if i <? 0 then rev l !! Z.to_nat (- i - 1) else l !! Z.to_nat i.

Lemma index_spec s l cs i : is_list s l cs → - 2 ^ 63 < i → listIndex s l i = Some (fst <$> at_index i cs).
Proof.
  intros [Hc Hh Ht Hn Hd Hm] Hi. pose proof (chain_size _ _ _ _ Hc Hd). unfold listIndex, at_index. rewrite Hh, Ht. case_if.
  - replace (i =? - 2 ^ 63) with false by lia. by apply (list_seek_backward s cs _ None); [|lia|].
  - by apply (list_seek_forward s cs _ None); [|lia|].
Qed.

Definition key_match l (key v : V) : bool := match matches l with Some f => f v key | None => bool_decide (key = v) end.

Lemma search_spec_from s l key cs : ∀ fuel prv, chain (nodes s) prv cs None → (length cs < fuel)%nat →
  key_loop fuel s l (mk_iter (first cs None) AL_START_HEAD) key = Some (fst <$> List.find (λ c, key_match l key c.2) cs).
Proof.
  induction cs as [|[p v] cs IH]; intros fuel prv Hc Hf; (destruct fuel as [|fuel]; [lia|]); [done|]. destruct Hc as [Hp Hc].
  cbn [key_loop first listNext it_next direction]. unfold listNext. cbn [it_next direction]. unfold node_at. rewrite Hp. do 2 mnext. rewrite Hp. mnext. cbn [n_value n_next]. cbn [List.find]. unfold key_match at 1. cbn [snd].
  destruct (match matches l with Some f => f v key | None => _ end); [done|]. change (AL_START_HEAD =? AL_START_HEAD) with true. cbv iota. apply (IH fuel (Some p)); [done|cbn in Hf; lia].
Qed.

Lemma search_spec_list s l cs key : is_list s l cs → listSearchKey s l key = Some (fst <$> List.find (λ c, key_match l key c.2) cs).
Proof.
  intros [Hc Hh Ht Hn Hd Hm]. pose proof (chain_size _ _ _ _ Hc Hd). unfold listSearchKey, listRewind. rewrite Hh. apply (search_spec_from s l key cs _ None); [done|lia].
Qed.

(** ** Two lists in one heap *)

Lemma change_trans s s1 s2 cs cs1 cs2 : change s s1 cs cs1 → change s1 s2 cs1 cs2 → change s s2 cs cs2.
Proof.
  intros H1 H2 p. destruct (H1 p) as (A1 & A2 & A3), (H2 p) as (B1 & B2 & B3). destruct (decide (p ∈ cs1.*1)) as [Hp|Hp]; split_and!; intros.
  - by rewrite B2, A3.
  - by apply B2.
  - by apply A3.
  - by rewrite B1, A1.
  - by rewrite B1, A2.
  - rewrite <- A1 by done. by apply B3.
Qed.

Definition apart (a b : list (positive * V)) : Prop := ∀ p, p ∈ a.*1 → p ∈ b.*1 → False.

(** What is not part of the list stays. *)
Lemma chain_kept s s' cs cs' prv os nxt : change s s' cs cs' → apart os cs → chain (nodes s) prv os nxt →
  chain (nodes s') prv os nxt ∧ apart os cs'.
Proof.
  intros Hch Hap Hc. assert (Hap' : apart os cs').
  { intros p Hp Hp'. destruct (Hch p) as (_ & _ & H3). destruct (chain_live _ _ _ _ _ Hc Hp) as [n Hn]. rewrite H3 in Hn; [done| |done]. intros Hin. by apply (Hap p). }
  split; [|done]. eapply chain_frame; [|exact Hc]. intros p Hp. destruct (Hch p) as (H1 & _ & _). apply H1; intros Hin; [by apply (Hap p)|by apply (Hap' p)].
Qed.

Lemma list_kept s s' cs cs' o os : change s s' cs cs' → apart os cs → is_list s o os → is_list s' o os ∧ apart os cs'.
Proof. intros Hch Hap [Hc ? ? ? ? ?]. destruct (chain_kept _ _ _ _ _ _ _ Hch Hap Hc) as [Hc' ?]. split; [by constructor|done]. Qed.

(** The values copied until the method fails, and whether it did not. *)
Fixpoint dups (f : V → option V) (vs : list V) : list V * bool :=
  match vs with
  | [] => ([], true)
  | v :: vs => match f v with None => ([], false) | Some w => let '(ws, ok) := dups f vs in (w :: ws, ok) end
  end.
Definition dup_value l (v : V) : option V := match dup l with Some f => f v | None => Some v end.

Lemma same_methods_trans l1 l2 l3 : same_methods l1 l2 → same_methods l2 l3 → same_methods l1 l3.
Proof. intros (? & ? & ?) (? & ? & ?). split_and!; congruence. Qed.

Lemma dup_from rest : ∀ fuel s copy prv C, chain (nodes s) prv rest None → is_list s copy C → apart rest C →
  (length rest < fuel)%nat → len C + len rest < 2 ^ 63 →
  ∃ s' r, dup_loop fuel s (mk_iter (first rest None) AL_START_HEAD) copy = Some (s', r) ∧
    if (dups (dup_value copy) rest.*2).2
    then ∃ copy' C', r = Some copy' ∧ is_list s' copy' (C ++ C') ∧ C'.*2 = (dups (dup_value copy) rest.*2).1 ∧
           change s s' C (C ++ C') ∧ freed_values s' = freed_values s ∧ same_methods copy copy'
    else r = None ∧ change s s' C [] ∧ freed_values s' = freed_values s ++ freed_by copy (C.*2 ++ (dups (dup_value copy) rest.*2).1).
Proof.
  induction rest as [|[p v] rest IH]; intros fuel s copy prv C Hc Hl Hap Hf Hmax; (destruct fuel as [|fuel]; [lia|]).
  - eexists _, _. split; [done|]. exists copy, []. rewrite app_nil_r. by split_and!.
  - destruct Hc as [Hp Hc]. cbn [dup_loop first]. unfold listNext. cbn [it_next direction]. unfold node_at. rewrite Hp. do 2 mnext. rewrite Hp. mnext.
    change (AL_START_HEAD =? AL_START_HEAD) with true. cbv iota. cbn [n_value n_next fmap list_fmap snd dups]. fold (dup_value copy v). destruct (dup_value copy v) as [w|] eqn:Ev.
    + destruct (add_tail s copy C w Hl) as (s1 & copy1 & -> & Hl1 & Hch1 & Hf1 & Hsm1); [cbn [length] in Hmax; lia|]. mnext.
      assert (Hap0 : apart rest C) by (intros q Hq; apply Hap; by right). destruct (chain_kept _ _ _ _ _ _ _ Hch1 Hap0 Hc) as [Hc1 Hap1].
      assert (Edv : dup_value copy1 = dup_value copy) by (unfold dup_value; by destruct Hsm1 as (_ & -> & _)).
      destruct (IH fuel s1 copy1 (Some p) (C ++ [(new_addr s, w)]) Hc1 Hl1 Hap1) as (s' & r & -> & Hres); [cbn in Hf; lia|rewrite length_app; cbn [length] in *; lia|].
      rewrite Edv in Hres. rewrite app_nil_r in Hf1. change (snd <$> rest) with (rest.*2). destruct (dups (dup_value copy) rest.*2) as [ws ok]. cbn [fst snd] in *. exists s', r. split; [done|]. destruct ok.
      * destruct Hres as (copy' & C' & -> & Hl' & HC' & Hch' & Hf' & Hsm'). rewrite <- app_assoc in Hl', Hch'. exists copy', ((new_addr s, w) :: C'). split_and!; try done;
          [cbn; by rewrite HC'|by eapply change_trans|congruence|by eapply same_methods_trans].
      * destruct Hres as (-> & Hch' & Hf'). split_and!; [done|by eapply change_trans|]. rewrite Hf', Hf1, fmap_app, <- app_assoc. cbn. unfold freed_by. by destruct Hsm1 as (-> & _).
    + unfold listRelease. destruct (empty_list s copy C Hl) as (s1 & l1 & -> & _ & Hch1 & Hf1 & _). do 2 mnext. eexists _, _. split; [done|]. cbn [snd fst]. by rewrite app_nil_r.
Qed.

Lemma dup_list s orig cs : is_list s orig cs →
  ∃ s' r, listDup s orig = Some (s', r) ∧
    if (dups (dup_value orig) cs.*2).2
    then ∃ copy C, r = Some copy ∧ is_list s' copy C ∧ C.*2 = (dups (dup_value orig) cs.*2).1 ∧ change s s' [] C ∧
           freed_values s' = freed_values s ∧ same_methods orig copy
    else r = None ∧ change s s' [] [] ∧ freed_values s' = freed_values s ++ freed_by orig (dups (dup_value orig) cs.*2).1.
Proof.
  intros [Hc Hh Ht Hn Hd Hm]. pose proof (chain_size _ _ _ _ Hc Hd). unfold listDup, listRewind. rewrite Hh. cbv zeta.
  apply (dup_from cs _ s (mk_dlist None None (dup orig) (free orig) (matches orig) 0) None []); try done.
  - constructor; try done. apply NoDup_nil_2.
  - intros q _ Hq. by apply elem_of_nil in Hq.
  - lia.
Qed.

(** ** Iteration

    The loop [while((node = listNext(&iter)) != NULL)] that deletes the nodes it does not
    keep, with the values it saw. *)
Fixpoint prune (fuel : nat) (keep : V → bool) s l (iter : listIter) (seen : list V) : option (mem V * dlist V * list V) :=
  match fuel with
  | O => None
  | S fuel =>
    '(node, iter) ← listNext s iter;
    match node with
    | None => Some (s, l, seen)
    | Some p =>
      n ← node_at s p;
      '(s, l) ← (if keep (n_value n) then Some (s, l) else listDelNode s l p);
      prune fuel keep s l iter (seen ++ [n_value n])
    end
  end.

Definition kept (keep : V → bool) cs : list (positive * V) := List.filter (λ c, keep c.2) cs.
Definition dropped (keep : V → bool) (vs : list V) : list V := List.filter (λ v, negb (keep v)) vs.

Lemma becomes_refl s l cs : is_list s l cs → becomes s l cs (Some (s, l)) cs [].
Proof. intros Hl. exists s, l. split_and!; try done. by rewrite app_nil_r. Qed.

(** One turn of the loop. *)
Lemma prune_step (keep : V → bool) s l A p v B : is_list s l (A ++ (p, v) :: B) →
  becomes s l (A ++ (p, v) :: B) (if keep v then Some (s, l) else listDelNode s l p) (A ++ (if keep v then [(p, v)] else []) ++ B)
    (freed_by l (dropped keep [v])).
Proof.
  intros Hl. unfold dropped, freed_by. cbn. destruct (keep v); cbn; [destruct (free l); by apply becomes_refl|]. pose proof (del_node s l A B p v Hl) as Hd. done.
Qed.

Lemma freed_by_app l vs ws : freed_by l (vs ++ ws) = freed_by l vs ++ freed_by l ws.
Proof. unfold freed_by. by destruct (free l). Qed.

Lemma becomes_trans s l cs r cs1 fr1 s1 l1 r2 cs2 fr2 : r = Some (s1, l1) → becomes s l cs r cs1 fr1 → becomes s1 l1 cs1 r2 cs2 fr2 → becomes s l cs r2 cs2 (fr1 ++ fr2).
Proof.
  intros -> (? & ? & [= <- <-] & Hl1 & Hc1 & Hf1 & Hm1) (s2 & l2 & Hr2 & Hl2 & Hc2 & Hf2 & Hm2). exists s2, l2. split_and!; [done|done|by eapply change_trans| |by eapply same_methods_trans].
  by rewrite Hf2, Hf1, app_assoc.
Qed.

Lemma prune_forward keep rest : ∀ fuel s l A seen, is_list s l (A ++ rest) → (length rest < fuel)%nat →
  ∃ s' l', prune fuel keep s l (mk_iter (first rest None) AL_START_HEAD) seen = Some (s', l', seen ++ rest.*2) ∧
    becomes s l (A ++ rest) (Some (s', l')) (A ++ kept keep rest) (freed_by l (dropped keep rest.*2)).
Proof.
  induction rest as [|[p v] rest IH]; intros fuel s l A seen Hl Hf; (destruct fuel as [|fuel]; [lia|]).
  - exists s, l. cbn. rewrite app_nil_r. split; [done|]. unfold freed_by. destruct (free l); by apply becomes_refl.
  - pose proof Hl as [Hc _ _ _ _ _]. apply chain_app in Hc as [_ [Hp _]]. cbn [prune first]. unfold listNext. cbn [it_next direction]. unfold node_at. rewrite Hp. do 2 mnext. rewrite Hp. mnext.
    change (AL_START_HEAD =? AL_START_HEAD) with true. cbv iota. cbn [n_value n_next]. pose proof (prune_step keep s l A p v rest Hl) as Hst. pose proof Hst as (s1 & l1 & Er & Hl1 & _ & _ & Hm1).
    rewrite Er. mnext. rewrite app_assoc in Hl1. destruct (IH fuel s1 l1 _ (seen ++ [v]) Hl1) as (s' & l' & -> & Hb); [cbn in Hf; lia|].
    exists s', l'. rewrite <- app_assoc. split; [done|]. rewrite <- !app_assoc in Hb. pose proof (becomes_trans _ _ _ _ _ _ _ _ _ _ _ Er Hst Hb) as Hbt.
    assert (freed_by l1 = freed_by l) as Ef by (unfold freed_by; by destruct Hm1 as (-> & _)). rewrite Ef, <- freed_by_app in Hbt. clear -Hbt. unfold kept, dropped in *. cbn in *. by destruct (keep v).
Qed.

Lemma prune_backward keep rest : ∀ fuel s l B seen, is_list s l (rest ++ B) → (length rest < fuel)%nat →
  ∃ s' l', prune fuel keep s l (mk_iter (final None rest) AL_START_TAIL) seen = Some (s', l', seen ++ rev rest.*2) ∧
    becomes s l (rest ++ B) (Some (s', l')) (kept keep rest ++ B) (freed_by l (dropped keep (rev rest.*2))).
Proof.
  induction rest as [|[p v] rest IH] using rev_ind; intros fuel s l B seen Hl Hf; (destruct fuel as [|fuel]; [lia|]).
  - exists s, l. cbn. rewrite app_nil_r. split; [done|]. unfold freed_by. destruct (free l); by apply becomes_refl.
  - rewrite length_app in Hf. cbn [length] in Hf. rewrite <- app_assoc in Hl |- *. cbn [app] in Hl |- *. pose proof Hl as [Hc _ _ _ _ _]. apply chain_app in Hc as [_ [Hp _]].
    rewrite final_last. cbn [prune]. unfold listNext. cbn [it_next direction]. unfold node_at. rewrite Hp. do 2 mnext. rewrite Hp. mnext.
    change (AL_START_TAIL =? AL_START_HEAD) with false. cbv iota. cbn [n_value n_prev]. pose proof (prune_step keep s l rest p v B Hl) as Hst. pose proof Hst as (s1 & l1 & Er & Hl1 & _ & _ & Hm1).
    rewrite Er. mnext. destruct (IH fuel s1 l1 _ (seen ++ [v]) Hl1) as (s' & l' & -> & Hb); [lia|].
    exists s', l'. rewrite fmap_app, rev_app_distr. cbn [fmap list_fmap rev app snd]. rewrite <- app_assoc. split; [done|]. pose proof (becomes_trans _ _ _ _ _ _ _ _ _ _ _ Er Hst Hb) as Hbt.
    assert (freed_by l1 = freed_by l) as Ef by (unfold freed_by; by destruct Hm1 as (-> & _)). rewrite Ef, <- freed_by_app in Hbt. clear -Hbt. unfold kept, dropped in *.
    rewrite List.filter_app. cbn in *. destruct (keep v); rewrite <- app_assoc; done.
Qed.

(** ** Positions *)

(** The position that an index names in a list of [n] elements. *)
Definition position (i : Z) (n : nat) : option nat :=
  if i <? 0 then if 0 <=? Z.of_nat n + i then Some (Z.to_nat (Z.of_nat n + i)) else None
  else if i <? Z.of_nat n then Some (Z.to_nat i) else None.

Lemma at_index_position {A} i (l : list A) :
  match at_index i l with
  | Some x => ∃ k, position i (length l) = Some k ∧ l !! k = Some x
  | None => position i (length l) = None
  end.
Proof.
  unfold at_index, position. destruct (Z.ltb_spec i 0).
  - rewrite rev_alt. change (rev_append l []) with (reverse l). destruct (reverse l !! Z.to_nat (- i - 1)) as [x|] eqn:E.
    + apply reverse_lookup_Some in E as [E Hlt]. if_true. cbv iota. eexists. split; [done|]. rewrite <- E. f_equal. lia.
    + apply lookup_ge_None in E. rewrite length_reverse in E. by if_false.
  - destruct (l !! Z.to_nat i) as [x|] eqn:E.
    + pose proof (lookup_lt_Some _ _ _ E). if_true. cbv iota. by eexists.
    + apply lookup_ge_None in E. by if_false.
Qed.

(** The cells before and after the position. *)
Lemma index_split s l cs i : is_list s l cs → - 2 ^ 63 < i →
  match position i (length cs) with
  | Some k => ∃ C1 p v C2, listIndex s l i = Some (Some p) ∧ cs = C1 ++ (p, v) :: C2 ∧ k = length C1
  | None => listIndex s l i = Some None
  end.
Proof.
  intros Hl Hi. rewrite (index_spec s l cs i Hl Hi). pose proof (at_index_position i cs) as Hp. destruct (at_index i cs) as [[p v]|]; [|by rewrite Hp].
  destruct Hp as (k & -> & Hk). exists (take k cs), p, v, (drop (S k) cs). split; [done|]. split; [by rewrite take_drop_middle|].
  rewrite length_take. apply lookup_lt_Some in Hk. lia.
Qed.

(** ** Commands on two lists *)

(** The first flag picks the list; a copy replaces the other list. *)
Inductive list_cmd :=
  | AddHead (a : bool) (v : V) | AddTail (a : bool) (v : V)
  | Insert (a : bool) (i : Z) (v : V) (after : bool) | Delete (a : bool) (i : Z) | DeleteKey (a : bool) (key : V)
  | Empty (a : bool) | RotateTail (a : bool) | RotateHead (a : bool)
  | Join (a : bool) | Copy (a : bool) | Prune (a : bool) (back : bool) (keep : V → bool).

Abbreviation lists := (mem V * dlist V * dlist V)%type.

Definition on_list (a : bool) (f : mem V → dlist V → option (mem V * dlist V)) (w : lists) : option lists :=
  let '(s, l1, l2) := w in
  if a then '(s, l1) ← f s l1; Some (s, l1, l2) else '(s, l2) ← f s l2; Some (s, l1, l2).

Definition swap (w : lists) : lists := let '(s, l1, l2) := w in (s, l2, l1).

Definition run_cmd (c : list_cmd) (w : lists) : option lists :=
  match c with
  | AddHead a v => on_list a (λ s l, listAddNodeHead s l v) w
  | AddTail a v => on_list a (λ s l, listAddNodeTail s l v) w
  | Insert a i v after => on_list a (λ s l, n ← listIndex s l i; match n with Some p => listInsertNode s l p v after | None => Some (s, l) end) w
  | Delete a i => on_list a (λ s l, n ← listIndex s l i; match n with Some p => listDelNode s l p | None => Some (s, l) end) w
  | DeleteKey a key => on_list a (λ s l, n ← listSearchKey s l key; match n with Some p => listDelNode s l p | None => Some (s, l) end) w
  | Empty a => on_list a listEmpty w
  | RotateTail a => on_list a listRotateTailToHead w
  | RotateHead a => on_list a listRotateHeadToTail w
  | Join a =>
    let '(s, l1, l2) := if a then w else swap w in
    w ← listJoin s l1 l2; Some (if a then w else swap w)
  | Copy a =>
    let '(s, l1, l2) := if a then w else swap w in
    '(s, l2) ← listEmpty s l2;
    '(s, copy) ← listDup s l1;
    let w := (s, l1, default l2 copy) in
    Some (if a then w else swap w)
  | Prune a back keep =>
    on_list a (λ s l, '(s, l, _) ← prune (S (size (nodes s))) keep s l (if back then listRewindTail l else listRewind l) []; Some (s, l)) w
  end.

(** The same on lists of values: the lists, and what the free method was given. *)
Abbreviation values := (list V * list V * list V)%type.

Definition on_values (a : bool) (f : list V → list V * list V) (st : values) : values :=
  let '(v1, v2, fr) := st in
  if a then let '(v, x) := f v1 in (v, v2, fr ++ x) else let '(v, x) := f v2 in (v1, v, fr ++ x).
Definition swap_values (st : values) : values := let '(v1, v2, fr) := st in (v2, v1, fr).

Section spec.
Context (dupf : option (V → option V)) (freef : bool) (matchf : option (V → V → bool)).

Definition given (vs : list V) : list V := if freef then vs else [].
Definition spec_cmd (c : list_cmd) (st : values) : values :=
  match c with
  | AddHead a v => on_values a (λ vs, (v :: vs, [])) st
  | AddTail a v => on_values a (λ vs, (vs ++ [v], [])) st
  | Insert a i v after =>
    on_values a (λ vs, (match position i (length vs) with
                        | Some k => let k := if after then S k else k in take k vs ++ v :: drop k vs
                        | None => vs end, [])) st
  | Delete a i =>
    on_values a (λ vs, match position i (length vs) with
                       | Some k => (take k vs ++ drop (S k) vs, given (take 1 (drop k vs)))
                       | None => (vs, []) end) st
  | DeleteKey a key =>
    on_values a (λ vs, match list_find (λ v, match matchf with Some f => f v key | None => bool_decide (key = v) end = true) vs with
                       | Some (k, v) => (take k vs ++ drop (S k) vs, given [v])
                       | None => (vs, []) end) st
  | Empty a => on_values a (λ vs, ([], given vs)) st
  | RotateTail a => on_values a (λ vs, (match rev vs with [] => [] | v :: r => v :: rev r end, [])) st
  | RotateHead a => on_values a (λ vs, (match vs with [] => [] | v :: r => r ++ [v] end, [])) st
  | Join a =>
    let '(v1, v2, fr) := if a then st else swap_values st in
    let st := (v1 ++ v2, [], fr) in if a then st else swap_values st
  | Copy a =>
    let '(v1, v2, fr) := if a then st else swap_values st in
    let '(ws, ok) := dups (λ v, match dupf with Some f => f v | None => Some v end) v1 in
    let st := if ok : bool then (v1, ws, fr ++ given v2) else (v1, [], (fr ++ given v2) ++ given ws) in
    if a then st else swap_values st
  | Prune a back keep =>
    on_values a (λ vs, (List.filter keep vs, given (dropped keep (if back then rev vs else vs)))) st
  end.

(** The lists have these values, nothing else is allocated. *)
Definition world (w : lists) (st : values) : Prop :=
  let '(s, l1, l2) := w in let '(v1, v2, fr) := st in
  ∃ c1 c2, is_list s l1 c1 ∧ is_list s l2 c2 ∧ apart c1 c2 ∧ c1.*2 = v1 ∧ c2.*2 = v2 ∧ freed_values s = fr ∧
    (∀ p, is_Some (nodes s !! p) → p ∈ c1.*1 ∨ p ∈ c2.*1) ∧
    (free l1 = freef ∧ dup l1 = dupf ∧ matches l1 = matchf) ∧ (free l2 = freef ∧ dup l2 = dupf ∧ matches l2 = matchf).

Lemma world_swap w st : world w st → world (swap w) (swap_values st).
Proof.
  destruct w as [[s l1] l2], st as [[v1 v2] fr]. intros (c1 & c2 & H1 & H2 & Hap & Hv1 & Hv2 & Hf & Hlk & Hm1 & Hm2). exists c2, c1.
  split; [done|]. split; [done|]. split; [intros p Hp Hp'; by apply (Hap p)|]. do 3 (split; [done|]). split; [|done].
  intros p Hp. destruct (Hlk p Hp); tauto.
Qed.

(** An operation on one of the lists. *)
Lemma on_left f g s l1 l2 v1 v2 fr : world (s, l1, l2) (v1, v2, fr) →
  (∀ cs, is_list s l1 cs → cs.*2 = v1 → free l1 = freef → dup l1 = dupf → matches l1 = matchf → ∃ cs', becomes s l1 cs (f s l1) cs' (g v1).2 ∧ cs'.*2 = (g v1).1) →
  ∃ w', on_list true f (s, l1, l2) = Some w' ∧ world w' (on_values true g (v1, v2, fr)).
Proof.
  intros (c1 & c2 & H1 & H2 & Hap & Hv1 & Hv2 & Hf & Hlk & (Hm1 & Hm1' & Hm1'') & Hm2) Hop. destruct (Hop c1 H1 Hv1 Hm1 Hm1' Hm1'') as (cs' & (s' & l' & Er & Hl' & Hch & Hf' & Hsm) & Hcs').
  cbn [on_list on_values]. rewrite Er. mnext. destruct (g v1) as [v x]. cbn [fst snd] in *. eexists. split; [done|].
  destruct (list_kept s s' c1 cs' l2 c2 Hch) as [H2' Hap']; [intros p Hp Hp'; by apply (Hap p)|done|]. exists cs', c2.
  split; [done|]. split; [done|]. split; [intros p Hp Hp'; by apply (Hap' p)|]. do 2 (split; [done|]). split; [congruence|]. split.
  - intros p Hp. destruct (decide (p ∈ cs'.*1)) as [|Hn]; [by left|]. destruct (decide (p ∈ c2.*1)) as [|Hn2]; [by right|]. exfalso. destruct (Hch p) as (A1 & A2 & _).
    destruct (decide (p ∈ c1.*1)) as [Hp1|Hp1]; [rewrite A2 in Hp by done; by destruct Hp|]. rewrite A1 in Hp by done. by destruct (Hlk p Hp).
  - destruct Hsm as (E1 & E2 & E3). split; [by rewrite E1, E2, E3|done].
Qed.

Lemma on_either a f g w st : world w st →
  (∀ s l cs, is_list s l cs → free l = freef → dup l = dupf → matches l = matchf → len cs <= len st.1.1 + len st.1.2 →
     ∃ cs', becomes s l cs (f s l) cs' (g cs.*2).2 ∧ cs'.*2 = (g cs.*2).1) →
  ∃ w', on_list a f w = Some w' ∧ world w' (on_values a g st).
Proof.
  intros Hw Hop. destruct w as [[s l1] l2], st as [[v1 v2] fr]. cbn [fst snd] in Hop. destruct a.
  - apply (on_left f g s l1 l2 v1 v2 fr Hw). intros cs Hl <- ? ? ?. apply Hop; try done. rewrite length_fmap. lia.
  - apply world_swap in Hw. destruct (on_left f g s l2 l1 v2 v1 fr Hw) as (w' & Hr & Hw'); [intros cs Hl <- ? ? ?; apply Hop; try done; rewrite length_fmap; lia|].
    cbn [on_list on_values] in *. destruct (f s l2) as [[s' l']|]; [|done]. rewrite some_bind in Hr |- *. cbv beta iota in Hr |- *. injection Hr as <-. eexists. split; [done|].
    destruct (g v2) as [v x]. by apply world_swap in Hw'.
Qed.

Lemma find_cells (P : V → bool) cs :
  match list_find (λ v, P v = true) cs.*2 with
  | Some (k, v) => ∃ C1 p C2, cs = C1 ++ (p, v) :: C2 ∧ k = length C1 ∧ List.find (λ c, P c.2) cs = Some (p, v)
  | None => List.find (λ c, P c.2) cs = None
  end.
Proof.
  induction cs as [|[p v] cs IH]; [done|]. cbn [fmap list_fmap list_find snd List.find]. destruct (decide (P v = true)) as [Hp|Hp].
  - rewrite Hp. by exists [], p, cs.
  - apply not_true_is_false in Hp. rewrite Hp. change (snd <$> cs) with (cs.*2). destruct (list_find _ cs.*2) as [[k w]|]; cbn; [|done].
    destruct IH as (C1 & q & C2 & -> & -> & Hf). by exists ((p, v) :: C1), q, C2.
Qed.

Lemma take_values (C1 C2 : list (positive * V)) c : take (length C1) (C1 ++ c :: C2).*2 = C1.*2 ∧ drop (S (length C1)) (C1 ++ c :: C2).*2 = C2.*2 ∧
  drop (length C1) (C1 ++ c :: C2).*2 = c.2 :: C2.*2 ∧ take (S (length C1)) (C1 ++ c :: C2).*2 = C1.*2 ++ [c.2].
Proof.
  rewrite fmap_app. cbn. rewrite <- (length_fmap snd C1). split_and!.
  - apply take_app_length.
  - rewrite drop_app. rewrite drop_ge by lia. replace (S _ - _)%nat with 1%nat by lia. done.
  - apply drop_app_length.
  - rewrite take_app, take_ge by lia. replace (S _ - _)%nat with 1%nat by lia. done.
Qed.

Lemma cut_cell s l cs C1 p v C2 : is_list s l cs → cs = C1 ++ (p, v) :: C2 → free l = freef → ∃ cs', becomes s l cs (listDelNode s l p) cs' (given [v]) ∧
  cs'.*2 = take (length C1) cs.*2 ++ drop (S (length C1)) cs.*2.
Proof.
  intros Hl -> Hf. exists (C1 ++ C2). pose proof (del_node s l C1 C2 p v Hl) as Hd. rewrite Hf in Hd. split; [done|]. destruct (take_values C1 C2 (p, v)) as (-> & -> & _). by rewrite fmap_app.
Qed.

Lemma values_rev cs : (rev cs).*2 = rev cs.*2.
Proof. induction cs as [|c cs IH]; cbn; [done|]. by rewrite fmap_app, IH. Qed.

Lemma kept_values keep cs : (kept keep cs).*2 = List.filter keep cs.*2.
Proof. unfold kept. induction cs as [|[p v] cs IH]; cbn; [done|]. destruct (keep v); cbn; by rewrite IH. Qed.

Lemma stay s l cs : is_list s l cs → ∃ cs', becomes s l cs (Some (s, l)) cs' [] ∧ cs'.*2 = cs.*2.
Proof. intros Hl. exists cs. split; [by apply becomes_refl|done]. Qed.

Definition index_ok (c : list_cmd) : bool := match c with Insert _ i _ _ | Delete _ i => - 2 ^ 63 <? i | _ => true end.
Definition room_ok (st : values) : bool := let '(v1, v2, _) := st in len v1 + len v2 + 1 <? 2 ^ 63.

Lemma given_freed l vs : free l = freef → freed_by l vs = given vs.
Proof. unfold freed_by, given. by intros ->. Qed.

Lemma step_one c w st : world w st → index_ok c = true → room_ok st = true → match c with Join _ | Copy _ => False | _ => True end →
  ∃ w', run_cmd c w = Some w' ∧ world w' (spec_cmd c st).
Proof.
  intros Hw Hi Hr Hc. destruct st as [[v1 v2] fr] eqn:Est. cbn in Hr. rewrite <- Est in *.
  destruct c as [a v|a v|a i v after|a i|a key|a|a|a|a|a|a back keep]; try done; cbn [run_cmd spec_cmd]; apply (on_either a _ _ _ _ Hw); rewrite Est; cbn [fst snd]; intros s l cs Hl Hf Hd Hm Hlen.
  - eexists. split; [apply add_head; [done|lia]|done].
  - eexists. split; [apply add_tail; [done|lia]|by rewrite fmap_app].
  - cbn in Hi. pose proof (index_split s l cs i Hl) as Hs. rewrite <- (length_fmap snd cs) in Hs. destruct (position i (length cs.*2)) as [k|]; [|rewrite Hs by lia; mnext; by apply stay].
    destruct Hs as (C1 & p & w0 & C2 & -> & Ecs & ->); [lia|]. mnext. rewrite Ecs in *. eexists. split; [apply insert_node; [done|lia]|].
    destruct (take_values C1 C2 (p, w0)) as (E1 & E2 & E3 & E4). destruct after; cbn [fst]; [rewrite E4, E2|rewrite E1, E3]; rewrite !fmap_app; cbn; by rewrite <- ?app_assoc.
  - cbn in Hi. pose proof (index_split s l cs i Hl) as Hs. rewrite <- (length_fmap snd cs) in Hs. destruct (position i (length cs.*2)) as [k|]; [|rewrite Hs by lia; mnext; by apply stay].
    destruct Hs as (C1 & p & w0 & C2 & -> & Ecs & ->); [lia|]. mnext. cbn [fst snd]. destruct (cut_cell s l cs C1 p w0 C2 Hl Ecs Hf) as (cs' & Hb & Hcs'). exists cs'. split; [|done].
    rewrite Ecs at 2. destruct (take_values C1 C2 (p, w0)) as (_ & _ & -> & _). done.
  - rewrite (search_spec_list s l cs key Hl). mnext. pose proof (find_cells (λ v, match matchf with Some f => f v key | None => bool_decide (key = v) end) cs) as Hs.
    assert (List.find (λ c, key_match l key c.2) cs = List.find (λ c, match matchf with Some f => f c.2 key | None => bool_decide (key = c.2) end) cs) as -> by (unfold key_match; by rewrite Hm).
    destruct (list_find _ cs.*2) as [[k v]|]; [|rewrite Hs; by apply stay]. destruct Hs as (C1 & p & C2 & Ecs & -> & ->). cbn [fmap option_fmap option_map fst snd]. by apply (cut_cell s l cs C1 p v C2).
  - eexists. split; [rewrite <- (given_freed l) by done; by apply empty_list|done].
  - eexists. split; [by apply rotate_tail|]. cbn [fst]. rewrite <- values_rev. destruct (rev cs); cbn; [done|]. by rewrite values_rev.
  - eexists. split; [by apply rotate_head|]. destruct cs; cbn; [done|]. by rewrite fmap_app.
  - pose proof Hl as [Hch Hh Ht _ Hnd _]. pose proof (chain_size _ _ _ _ Hch Hnd) as Hsz. rewrite <- (given_freed l) by done.
    pose proof (kept_values keep) as Hfil.
    destruct back; cbn [fst snd]; unfold listRewind, listRewindTail; rewrite ?Hh, ?Ht.
    + destruct (prune_backward keep cs (S (size (nodes s))) s l [] []) as (s' & l' & -> & Hb); [by rewrite app_nil_r|lia|]. mnext. rewrite !app_nil_r in Hb. eexists. split; [exact Hb|apply Hfil].
    + destruct (prune_forward keep cs (S (size (nodes s))) s l [] [] Hl) as (s' & l' & -> & Hb); [lia|]. mnext. eexists. split; [exact Hb|apply Hfil].
Qed.

Lemma join_step s l1 l2 v1 v2 fr : world (s, l1, l2) (v1, v2, fr) → len v1 + len v2 < 2 ^ 63 →
  ∃ w', listJoin s l1 l2 = Some w' ∧ world w' (v1 ++ v2, [], fr).
Proof.
  intros (c1 & c2 & H1 & H2 & Hap & Hv1 & Hv2 & Hf & Hlk & (M1 & M2 & M3) & (N1 & N2 & N3)) Hmax. rewrite <- Hv1, <- Hv2, !length_fmap in Hmax.
  destruct (join_lists s l1 l2 c1 c2 H1 H2) as (s' & l1' & l2' & E & H1' & H2' & Hf' & Hs & (A1 & A2 & A3) & (B1 & B2 & B3)); [intros p Hp Hp'; by apply (Hap p)|done|].
  eexists. split; [exact E|]. exists (c1 ++ c2), []. split; [done|]. split; [done|]. split; [intros p _ Hp; by apply elem_of_nil in Hp|].
  split; [by rewrite fmap_app, Hv1, Hv2|]. split; [done|]. split; [congruence|]. split.
  - intros p Hp. left. destruct (decide (p ∈ (c1 ++ c2).*1)) as [|Hn]; [done|]. rewrite Hs in Hp by done. apply Hlk in Hp. revert Hn. elems. tauto.
  - split; split_and!; congruence.
Qed.

Lemma copy_step s l1 l2 v1 v2 fr : world (s, l1, l2) (v1, v2, fr) → len v1 < 2 ^ 63 →
  ∃ w', ('(s, l2) ← listEmpty s l2; '(s, copy) ← listDup s l1; Some (s, l1, default l2 copy)) = Some w' ∧
    world w' (let '(ws, ok) := dups (λ v, match dupf with Some f => f v | None => Some v end) v1 in
              if ok : bool then (v1, ws, fr ++ given v2) else (v1, [], (fr ++ given v2) ++ given ws)).
Proof.
  intros (c1 & c2 & H1 & H2 & Hap & Hv1 & Hv2 & Hf & Hlk & (M1 & M2 & M3) & (N1 & N2 & N3)) Hmax.
  destruct (empty_list s l2 c2 H2) as (s1 & l2' & -> & H2' & Hch & Hf1 & (B1 & B2 & B3)). mnext. rewrite (given_freed l2), Hf, Hv2 in Hf1 by done.
  destruct (list_kept s s1 c2 [] l1 c1 Hch Hap H1) as [H1' _]. destruct (dup_list s1 l1 c1 H1') as (s2 & r & -> & Hres). mnext.
  assert (Edv : dup_value l1 = (λ v, match dupf with Some f => f v | None => Some v end)) by (unfold dup_value; by rewrite M2). rewrite Edv, Hv1 in Hres.
  assert (Hlk1 : ∀ p, is_Some (nodes s1 !! p) → p ∈ c1.*1).
  { intros p Hp. destruct (Hch p) as (A1 & A2 & _). destruct (decide (p ∈ c2.*1)) as [Hp2|Hp2]; [rewrite A2 in Hp; [by destruct Hp|done|apply not_elem_of_nil]|].
    rewrite A1 in Hp; [by destruct (Hlk p Hp)|done|apply not_elem_of_nil]. }
  destruct (dups _ v1) as [ws ok]. cbn [fst snd] in Hres. eexists. split; [done|]. destruct ok.
  - destruct Hres as (copy & C & -> & HC & HCw & Hch2 & Hf2 & (D1 & D2 & D3)). change (default l2' (Some copy)) with copy.
    assert (apart c1 []) as Hn by (intros p _ Hp; by apply elem_of_nil in Hp). destruct (list_kept s1 s2 [] C l1 c1 Hch2 Hn H1') as [H1'' Hap'].
    exists c1, C. do 5 (split; [done|]). split; [congruence|]. split; [|split; split_and!; congruence].
    intros p Hp. destruct (Hch2 p) as (A1 & _ & _). destruct (decide (p ∈ C.*1)) as [|Hpc]; [by right|]. rewrite A1 in Hp; [left; by apply Hlk1|apply not_elem_of_nil|done].
  - destruct Hres as (-> & Hch2 & Hf2). change (default l2' None) with l2'. assert (apart c1 []) as Hn by (intros p _ Hp; by apply elem_of_nil in Hp).
    destruct (list_kept s1 s2 [] [] l1 c1 Hch2 Hn H1') as [H1'' _]. assert (apart [] ([] : list (positive * V))) as Hn2 by (intros p Hp _; by apply elem_of_nil in Hp).
    destruct (list_kept s1 s2 [] [] l2' [] Hch2 Hn2 H2') as [H2'' _].
    exists c1, []. do 5 (split; [done|]). split; [rewrite Hf2, (given_freed l1) by done; congruence|]. split; [|split; split_and!; congruence].
    intros p Hp. destruct (Hch2 p) as (A1 & _ & _). rewrite A1 in Hp by apply not_elem_of_nil. left. by apply Hlk1.
Qed.

Lemma step_cmd c w st : world w st → index_ok c = true → room_ok st = true → ∃ w', run_cmd c w = Some w' ∧ world w' (spec_cmd c st).
Proof.
  intros Hw Hi Hr. destruct c as [a v|a v|a i v after|a i|a key|a|a|a|a|a|a back keep]; try (by apply step_one); destruct w as [[s l1] l2], st as [[v1 v2] fr]; cbn in Hr; cbn [run_cmd spec_cmd]; destruct a; cbn [swap swap_values].
  - destruct (join_step s l1 l2 v1 v2 fr Hw) as (w' & -> & Hw'); [lia|]. mnext. by exists w'.
  - apply world_swap in Hw. destruct (join_step s l2 l1 v2 v1 fr Hw) as (w' & -> & Hw'); [lia|]. mnext. eexists. split; [done|]. by apply world_swap in Hw'.
  - destruct (copy_step s l1 l2 v1 v2 fr Hw) as (w' & Hr' & Hw'); [lia|]. exists w'. split; [exact Hr'|done].
  - apply world_swap in Hw. destruct (copy_step s l2 l1 v2 v1 fr Hw) as (w' & Hr' & Hw'); [lia|].
    destruct (listEmpty s l1) as [[s1 l1']|]; [|done]. rewrite some_bind in Hr' |- *. cbv beta iota in Hr' |- *. destruct (listDup s1 l2) as [[s2 copy]|]; [|done].
    rewrite some_bind in Hr' |- *. cbv beta iota in Hr' |- *. injection Hr' as <-. eexists. split; [done|]. apply world_swap in Hw'. by destruct (dups _ v2) as [ws []].
Qed.

Fixpoint run_cmds (cmds : list list_cmd) (w : lists) : option lists := match cmds with [] => Some w | c :: cmds => w ← run_cmd c w; run_cmds cmds w end.
Fixpoint spec_cmds (cmds : list list_cmd) (st : values) : values := match cmds with [] => st | c :: cmds => spec_cmds cmds (spec_cmd c st) end.
Fixpoint cmds_ok (cmds : list list_cmd) (st : values) : bool :=
  match cmds with [] => true | c :: cmds => index_ok c && room_ok st && cmds_ok cmds (spec_cmd c st) end.

Lemma run_world cmds : ∀ w st, world w st → cmds_ok cmds st = true → ∃ w', run_cmds cmds w = Some w' ∧ world w' (spec_cmds cmds st).
Proof.
  induction cmds as [|c cmds IH]; intros w st Hw Hok; [by exists w|]. cbn [cmds_ok] in Hok. apply andb_true_iff in Hok as [[Hi Hr]%andb_true_iff Hok].
  cbn [run_cmds spec_cmds]. destruct (step_cmd c w st Hw Hi Hr) as (w1 & -> & Hw1). mnext. by apply IH.
Qed.

(** Two new lists with these methods. *)
Definition new_lists : lists :=
  let l := mk_dlist (d_head (V := V) listCreate) (d_tail (V := V) listCreate) dupf freef matchf (dlen (V := V) listCreate) in (mk_mem ∅ [], l, l).

Lemma new_world : world new_lists ([], [], []).
Proof.
  assert (Hnil : ∀ l s, d_head l = None → d_tail l = None → dlen l = 0 → is_list s l []) by (intros; constructor; try done; apply NoDup_nil_2).
  exists [], []. split; [by apply Hnil|]. split; [by apply Hnil|]. split; [intros p Hp; by apply elem_of_nil in Hp|]. do 3 (split; [done|]).
  split; [|done]. intros p [n Hn]. cbn in Hn; by rewrite lookup_empty in Hn.
Qed.
End spec.
End ops.

Arguments list_cmd V : clear implicits.

(** C12: any sequence of operations on two lists that share a heap (adding at either
    end, inserting before or after the node at an index, deleting by index or by key,
    emptying, rotating, joining, copying with a copy method that may fail, iterating in
    either direction while deleting nodes) runs without using NULL or a freed node, and
    the lists have the values that the same operations on lists of values give.  The
    free method was given exactly the values that went, and the heap holds the nodes of
    the two lists and nothing else: no node is leaked. *)
Theorem adlist_refines `{Zmalloc} {V} `{EqDecision V} dupf freef matchf (cmds : list (list_cmd V)) :
  cmds_ok dupf freef matchf cmds ([], [], []) = true →
  ∃ s l1 l2 c1 c2, run_cmds cmds (new_lists dupf freef matchf) = Some (s, l1, l2) ∧
    is_list s l1 c1 ∧ is_list s l2 c2 ∧ NoDup (c1 ++ c2).*1 ∧
    (c1.*2, c2.*2, freed_values s) = spec_cmds dupf freef matchf cmds ([], [], []) ∧
    ∀ p, is_Some (nodes s !! p) ↔ p ∈ (c1 ++ c2).*1.
Proof.
  intros Hok. destruct (run_world dupf freef matchf cmds _ _ (new_world dupf freef matchf) Hok) as ([[s l1] l2] & Hr & Hw).
  destruct (spec_cmds dupf freef matchf cmds ([], [], [])) as [[v1 v2] fr]. destruct Hw as (c1 & c2 & H1 & H2 & Hap & <- & <- & <- & Hlk & _).
  exists s, l1, l2, c1, c2. split; [done|]. split; [done|]. split; [done|]. pose proof H1 as [Hc1 _ _ _ Hd1 _]. pose proof H2 as [Hc2 _ _ _ Hd2 _]. split; [|split; [done|]].
  - rewrite fmap_app. apply NoDup_app. split_and!; [done|intros p Hp Hp'; by apply (Hap p)|done].
  - intros p. rewrite fmap_app, elem_of_app. split; [apply Hlk|]. intros [Hp|Hp]; [by apply (chain_live _ _ _ _ _ Hc1)|by apply (chain_live _ _ _ _ _ Hc2)].
Qed.

#[local] Instance least_malloc : Zmalloc.
Proof. refine {| zmalloc A m := fresh (dom m) |}. intros A m. apply not_elem_of_dom, is_fresh. Defined.

#[local] Definition sample_list_cmds : list (list_cmd Z) :=
  [AddTail true 1; AddTail true 2; AddHead true 0; Insert true (-1) 7 false; Copy true; Delete true 1; RotateTail true; Join false; Prune false true (λ v, v >? 1); DeleteKey false 7].

Lemma adlist_refines_witness :
  spec_cmds (Some (λ v, if v =? 2 then Some 5 else Some v)) true None sample_list_cmds ([], [], []) = ([], [5; 2; 7], [1; 0; 1; 0; 7]) ∧
  ∃ s l1 l2 c1 c2, run_cmds sample_list_cmds (new_lists (Some (λ v, if v =? 2 then Some 5 else Some v)) true None) = Some (s, l1, l2) ∧
    is_list s l1 c1 ∧ is_list s l2 c2 ∧ NoDup (c1 ++ c2).*1 ∧
    (c1.*2, c2.*2, freed_values s) = spec_cmds (Some (λ v, if v =? 2 then Some 5 else Some v)) true None sample_list_cmds ([], [], []) ∧
    ∀ p, is_Some (nodes s !! p) ↔ p ∈ (c1 ++ c2).*1.
Proof.
  split; [vm_compute; reflexivity|]. apply (adlist_refines (Some (λ v, if v =? 2 then Some 5 else Some v)) true None sample_list_cmds). vm_compute. reflexivity.
Defined.
