(* ===== verification/DictIter.v ===== *)
(** Iterators over hash tables: dictGetSafeIterator, dictNext and dictReleaseIterator of
    src/redis-7.0.0/src/dict.c, on the tables of Dict.v.

    A pointer to an entry is its key, which is in the chain at the position of the
    iterator as long as the entry is not freed; following the pointer to an entry that
    is not there any more is [None].  The fingerprint that an iterator which is not safe
    keeps to detect misuse is not modelled. *)
From S2P Require Import Prelude Dict.
#[local] Open Scope Z_scope.

Section iter.
Context `{DictType K} {V : Type} `{DictGlobals}.

Record dictIterator := mk_iterator { it_index : Z; it_table : Z; it_entry : option K; it_nextEntry : option K }.

Definition dictGetSafeIterator : dictIterator := mk_iterator (-1) 0 None None.

(** [entry->next]: the key of the entry after the one with [key]. *)
Definition entry_next (d : dict (K := K) (V := V)) (table idx : Z) (key : K) : option (option K) :=
  b ← get_bucket (get_ht d table) idx;
  pos ← find_in_chain b key 0;
  Some (fst <$> b !! S pos).

(** [ht_table[table][index]]. *)
Definition bucket_head (d : dict (K := K) (V := V)) (table idx : Z) : option (option K) :=
  b ← get_bucket (get_ht d table) idx; Some (fst <$> b !! O).

(** The entry is returned, and its [next] saved; or the loop goes on. *)
Fixpoint next_loop (fuel : nat) (d : dict (K := K) (V := V)) (iter : dictIterator) : option (dict (K := K) (V := V) * dictIterator * option K) :=
  match fuel with
  | O => None
  | S fuel =>
    '(d, iter, stop) ←
      match it_entry iter with
      | None =>
        let d := if (it_index iter =? -1) && (it_table iter =? 0) then dictPauseRehashing d else d in
        let index := it_index iter + 1 in
        let table := it_table iter in
        if index >=? DICTHT_SIZE (ht_size_exp (get_ht d table)) then
          if dictIsRehashing d && (table =? 0) then
            e ← bucket_head d 1 0; Some (d, mk_iterator 0 1 e (it_nextEntry iter), false)
          else Some (d, mk_iterator index table None (it_nextEntry iter), true)
        else
          e ← bucket_head d table index; Some (d, mk_iterator index table e (it_nextEntry iter), false)
      | Some _ => Some (d, mk_iterator (it_index iter) (it_table iter) (it_nextEntry iter) (it_nextEntry iter), false)
      end;
    if stop : bool then Some (d, iter, None)
    else
      match it_entry iter with
      | Some e =>
        next ← entry_next d (it_table iter) (it_index iter) e;
        Some (d, mk_iterator (it_index iter) (it_table iter) (Some e) next, Some e)
      | None => next_loop fuel d iter
      end
  end.
Definition dictNext (d : dict (K := K) (V := V)) (iter : dictIterator) : option (dict (K := K) (V := V) * dictIterator * option K) :=
  next_loop (3 + Z.to_nat (dictSlots d)) d iter.

Definition dictReleaseIterator (d : dict (K := K) (V := V)) (iter : dictIterator) : dict (K := K) (V := V) :=
  if negb ((it_index iter =? -1) && (it_table iter =? 0)) then dictResumeRehashing d else d.

(** ** The order of the entries *)

(** The chains in the order an iterator meets them. *)
Definition chains (d : dict (K := K) (V := V)) : list (list (K * V)) :=
  default [] (ht_table (ht0 d)) ++ default [] (ht_table (ht1 d)).

Lemma chains_entries d : entries d = concat (chains d).
Proof. unfold entries, chains, ht_entries. by rewrite concat_app. Qed.

Abbreviation table := (dict (K := K) (V := V)).

Definition size0 (d : table) : Z := DICTHT_SIZE (ht_size_exp (ht0 d)).
Definition size1 (d : table) : Z := DICTHT_SIZE (ht_size_exp (ht1 d)).

Lemma size_of (t : list (list (K * V))) e : table_ok t e → DICTHT_SIZE e = len t.
Proof. intros (He & Hl & _). by rewrite DICTHT_SIZE_pow. Qed.

(** The sizes of the tables, with a NULL table of size 0. *)
Lemma chains_len (d : table) : dict_wf d → 0 <= size0 d ∧ 0 <= size1 d ∧ len (chains d) = size0 d + size1 d ∧ (dictIsRehashing d = false → size1 d = 0).
Proof.
  unfold chains, size0, size1, dictIsRehashing. destruct 1 as [p|t e p Ht _|t0 e0 t1 e1 i p Ht0 Ht1 [Hi _] _]; cbn; [done| |].
  - rewrite app_nil_r, (size_of _ _ Ht). split_and!; (done || lia).
  - rewrite length_app, (size_of _ _ Ht0), (size_of _ _ Ht1). split_and!; try lia.
Qed.

Lemma get_chain0 (d : table) n : dict_wf d → 0 <= n < size0 d → get_bucket (get_ht d 0) n = chains d !! Z.to_nat n.
Proof.
  intros Hwf Hn. unfold get_bucket, get_ht, chains, size0 in *. cbn [Z.eqb]. if_true. destruct Hwf as [p|t e p Ht _|t0 e0 t1 e1 i p Ht0 Ht1 [Hi _] _]; cbn in *; [lia| |].
  - by rewrite app_nil_r.
  - rewrite (size_of _ _ Ht0) in Hn. by rewrite lookup_app_l by lia.
Qed.

Lemma get_chain1 (d : table) n : dict_wf d → 0 <= n < size1 d → get_bucket (get_ht d 1) n = chains d !! Z.to_nat (size0 d + n).
Proof.
  intros Hwf Hn. unfold get_bucket, get_ht, chains, size0, size1 in *. cbn [Z.eqb]. if_true. destruct Hwf as [p|t e p Ht _|t0 e0 t1 e1 i p Ht0 Ht1 [Hi _] _]; cbn in *; [lia..|].
  rewrite (size_of _ _ Ht1) in Hn. rewrite (size_of _ _ Ht0). rewrite lookup_app_r by lia. f_equal. lia.
Qed.

(** The iterator is in the chain [n]. *)
Definition at_chain (d : table) (it : dictIterator) (n : Z) : Prop :=
  it_table it = 0 ∧ it_index it = n ∧ 0 <= n < size0 d ∨ it_table it = 1 ∧ it_index it = n - size0 d ∧ size0 d <= n < size0 d + size1 d.

(** The next chain it looks at is [n]. *)
Definition before_chain (d : table) (it : dictIterator) (n : Z) : Prop :=
  it_table it = 0 ∧ it_index it = n - 1 ∧ 0 <= n <= size0 d ∨ it_table it = 1 ∧ it_index it = n - 1 - size0 d ∧ size0 d < n <= size0 d + size1 d ∧ 0 < size1 d.

Lemma at_before d it n e x : at_chain d it n → before_chain d (mk_iterator (it_index it) (it_table it) e x) (n + 1).
Proof. intros [(? & ? & ?)|(? & ? & ?)]; [left|right]; cbn; lia. Qed.

Lemma at_get d it n : dict_wf d → at_chain d it n → get_bucket (get_ht d (it_table it)) (it_index it) = chains d !! Z.to_nat n.
Proof.
  intros Hwf [(-> & -> & ?)|(-> & -> & ?)]; [by apply get_chain0|]. rewrite get_chain1 by (done || lia). f_equal. lia.
Qed.

Definition paused (d : table) : Prop := 0 < pauserehash d < 2 ^ 15 - 1.

Lemma find_head (k : K) (v : V) b : find_in_chain ((k, v) :: b) k 0 = Some O.
Proof. cbn. by rewrite (proj2 (keyCompare_spec k k)). Qed.

(** The search for the next chain that is not empty. *)
Definition scan_result (d : table) (n : Z) (r : option (table * dictIterator * option K)) : Prop :=
  (∃ it, r = Some (d, it, None) ∧ it_entry it = None ∧ ¬ (it_index it = -1) ∧ concat (drop (Z.to_nat n) (chains d)) = []) ∨
  ∃ it m k v b, r = Some (d, it, Some k) ∧ at_chain d it m ∧ it_entry it = Some k ∧ it_nextEntry it = fst <$> b !! O ∧ n <= m ∧
    chains d !! Z.to_nat m = Some ((k, v) :: b) ∧ concat (drop (Z.to_nat n) (chains d)) = (k, v) :: b ++ concat (drop (S (Z.to_nat m)) (chains d)).

Lemma drop_chain {A} (l : list (list A)) n x : l !! n = Some x → concat (drop n l) = x ++ concat (drop (S n) l).
Proof. intros Hx. by rewrite (drop_S _ _ _ Hx). Qed.

Definition started (d : table) (it : dictIterator) : table :=
  if (it_index it =? -1) && (it_table it =? 0) then dictPauseRehashing d else d.

Lemma scan_spec fuel : ∀ d0 d it n, d = started d0 it → dict_wf d → paused d → it_entry it = None → before_chain d it n → len (chains d) - n < Z.of_nat fuel →
  scan_result d n (next_loop fuel d0 it).
Proof.
  induction fuel as [|fuel IH]; intros d0 d it n Hd Hwf Hp He Hb Hf.
  { destruct (chains_len d Hwf) as (? & ? & Hl & _). destruct Hb as [?|?]; lia. }
  destruct (chains_len d Hwf) as (Hs0 & Hs1 & Hl & Hnr). cbn [next_loop]. rewrite He.
  fold (started d0 it). rewrite <- Hd. cbv zeta.
  assert (Hgo : ∀ it', it_nextEntry it' = it_nextEntry it → at_chain d it' n → n < len (chains d) → 
    scan_result d n ('(d0, iter, stop) ← (e ← bucket_head d (it_table it') (it_index it'); Some (d, mk_iterator (it_index it') (it_table it') e (it_nextEntry it), false));
      if stop : bool then Some (d0, iter, None)
      else match it_entry iter with
           | Some e => next ← entry_next d0 (it_table iter) (it_index iter) e; Some (d0, mk_iterator (it_index iter) (it_table iter) (Some e) next, Some e)
           | None => next_loop fuel d0 iter
           end)).
  { intros it' Hne Hat Hlt. assert (0 <= n) by (destruct Hat as [?|?]; lia). pose proof (at_get d it' n Hwf Hat) as Hg. unfold bucket_head. rewrite Hg.
    destruct (lookup_lt_is_Some_2 (chains d) (Z.to_nat n)) as [b Hbn]; [lia|]. rewrite Hbn. do 3 mnext. cbn [it_entry]. pose proof (drop_chain _ _ _ Hbn) as Hdc. destruct b as [|[k v] b]; cbn [lookup list_lookup fmap option_fmap option_map fst].
    - destruct (IH d d (mk_iterator (it_index it') (it_table it') None (it_nextEntry it)) (n + 1)) as [Hend|Hfound]; try done.
      + unfold started. cbn. by replace (_ && _) with false by (destruct Hat as [?|?]; lia).
      + by apply (at_before d it' n).
      + lia.
      + left. replace (Z.to_nat (n + 1)) with (S (Z.to_nat n)) in Hend by lia. by rewrite Hdc.
      + right. destruct Hfound as (it2 & m & k & v & b & ? & ? & ? & ? & ? & ? & Hc). replace (Z.to_nat (n + 1)) with (S (Z.to_nat n)) in Hc by lia.
        exists it2, m, k, v, b. rewrite Hdc. split_and!; try done. lia.
    - cbn [it_table it_index]. unfold entry_next. rewrite Hg, Hbn. mnext. rewrite find_head. do 2 mnext. right. eexists _, n, k, v, b. split; [done|]. split_and!; (done || lia). }
  destruct (Z.geb_spec (it_index it + 1) (DICTHT_SIZE (ht_size_exp (get_ht d (it_table it))))) as [Hge|Hlt].
  - destruct Hb as [(Ht & Hi & Hn)|(Ht & Hi & Hn & Hpos)]; rewrite Ht in *; unfold get_ht in Hge; cbn [Z.eqb Pos.eqb] in *.
    + fold (size0 d) in Hge. rewrite andb_true_r. destruct (dictIsRehashing d) eqn:Er.
      * destruct (decide (size1 d = 0)) as [Hz|Hz]; [exfalso; unfold size1 in Hz; destruct Hwf as [| |t0 e0 t1 e1 i p ? Ht1 ? ?]; [done|done|cbn in Hz; rewrite (size_of _ _ Ht1) in Hz; destruct Ht1 as (? & ? & _); pose proof (Z.pow_pos_nonneg 2 e1); lia]|].
        apply (Hgo (mk_iterator 0 1 None (it_nextEntry it))); [done|right; cbn; lia|lia].
      * mnext. left. eexists. split; [done|]. split; [done|]. split; [cbn; lia|]. rewrite drop_ge; [done|]. rewrite Hnr in Hl by done. lia.
    + fold (size1 d) in Hge. rewrite andb_false_r. mnext. left. eexists. split; [done|]. split; [done|]. split; [cbn; lia|]. rewrite drop_ge; [done|]. lia.
  - apply (Hgo (mk_iterator (it_index it + 1) (it_table it) None (it_nextEntry it))); [done| |].
    + destruct Hb as [(Ht & Hi & Hn)|(Ht & Hi & Hn & Hpos)]; rewrite Ht in *; unfold get_ht in Hlt; cbn [Z.eqb Pos.eqb] in *; [left|right]; cbn; unfold size0, size1 in *; lia.
    + destruct Hb as [(Ht & Hi & Hn)|(Ht & Hi & Hn & Hpos)]; rewrite Ht in *; unfold get_ht in Hlt; cbn [Z.eqb Pos.eqb] in *; unfold size0, size1 in *; lia.
Qed.

(** After an entry was returned: [b1] are the entries of its chain up to it that are
    still there, [b2] those after it. *)
Definition in_chain (d : table) (it : dictIterator) (n : Z) (b1 b2 : list (K * V)) : Prop :=
  at_chain d it n ∧ it_entry it ≠ None ∧ it_nextEntry it = fst <$> b2 !! O ∧ chains d !! Z.to_nat n = Some (b1 ++ b2).

Definition rest_after (d : table) (n : Z) (b2 : list (K * V)) : list (K * V) := b2 ++ concat (drop (S (Z.to_nat n)) (chains d)).

(** What dictNext returns when [l] is to come. *)
Definition next_result (d : table) (l : list (K * V)) (r : option (table * dictIterator * option K)) : Prop :=
  match l with
  | [] => ∃ it, r = Some (d, it, None) ∧ it_index it ≠ -1
  | (k, v) :: l' => ∃ it n b1 b2, r = Some (d, it, Some k) ∧ in_chain d it n (b1 ++ [(k, v)]) b2 ∧ l' = rest_after d n b2
  end.

Lemma scan_next d n r : scan_result d n r → next_result d (concat (drop (Z.to_nat n) (chains d))) r.
Proof.
  intros [(it & -> & _ & Hi & ->)|(it & m & k & v & b & -> & Hat & He & Hne & Hm & Hb & ->)]; [by exists it|].
  exists it, m, [], b. split; [done|]. split; [|done]. split_and!; try done. by rewrite He.
Qed.

Lemma slots_len (d : table) : dict_wf d → dictSlots d = len (chains d).
Proof.
  intros Hwf. destruct (chains_len d Hwf) as (? & ? & -> & _). unfold dictSlots. fold (size0 d) (size1 d). apply wrapu_small.
  unfold size0, size1 in *. destruct Hwf as [p|t e p (? & ? & _) _|t0 e0 t1 e1 i p (? & ? & _) (? & ? & _) _ _]; cbn; rewrite ?DICTHT_SIZE_pow by done.
  - done.
  - pose proof (pow2_60 e). cbn. lia.
  - pose proof (pow2_60 e0). pose proof (pow2_60 e1). lia.
Qed.

Lemma find_after (b1 : list (K * V)) k v b2 pos : k ∉ b1.*1 → find_in_chain (b1 ++ (k, v) :: b2) k pos = Some (pos + length b1)%nat.
Proof.
  revert pos. induction b1 as [|[k' v'] b1 IH]; intros pos Hn; cbn.
  - rewrite (proj2 (keyCompare_spec k k)) by done. f_equal. lia.
  - cbn in Hn. apply not_elem_of_cons in Hn as [Hne Hn]. destruct (keyCompare k k') eqn:E; [by apply keyCompare_spec in E|]. rewrite IH by done. f_equal. lia.
Qed.

Lemma chain_nodup (l : list (list (K * V))) n b : NoDup (concat l).*1 → l !! n = Some b → NoDup b.*1.
Proof. intros Hd Hb. rewrite (concat_lookup l n b Hb), fmap_app in Hd. by apply NoDup_app in Hd as (? & _ & _). Qed.

Lemma wf_nodup (d : table) : dict_wf d → NoDup (concat (chains d)).*1.
Proof. intros Hwf. rewrite <- chains_entries. by apply entries_wf. Qed.

Lemma next_in_chain d it n b1 b2 : dict_wf d → paused d → in_chain d it n b1 b2 → next_result d (rest_after d n b2) (dictNext d it).
Proof.
  intros Hwf Hp (Hat & He & Hne & Hc). unfold dictNext. destruct (it_entry it) as [e|] eqn:Ee; [|done]. destruct (chains_len d Hwf) as (Hs0 & _ & _). assert (0 <= n) by (destruct Hat as [?|?]; lia).
  change (3 + Z.to_nat (dictSlots d))%nat with (S (2 + Z.to_nat (dictSlots d))). cbn [next_loop]. rewrite Ee. mnext. cbn [it_entry it_table it_index]. rewrite Hne.
  destruct b2 as [|[k v] b2]; cbn [lookup list_lookup fmap option_fmap option_map fst].
  - pose proof (scan_spec (2 + Z.to_nat (dictSlots d)) d d (mk_iterator (it_index it) (it_table it) None None) (n + 1)) as Hscan.
    apply scan_next in Hscan; try done.
    + unfold rest_after. cbn [app]. by replace (S (Z.to_nat n)) with (Z.to_nat (n + 1)) by lia.
    + unfold started. cbn. by replace (_ && _) with false by (destruct Hat as [?|?]; lia).
    + by apply (at_before d it n).
    + rewrite slots_len by done. lia.
  - unfold entry_next. rewrite (at_get d it n Hwf Hat), Hc. mnext.
    pose proof (chain_nodup _ _ _ (wf_nodup d Hwf) Hc) as Hnd. rewrite fmap_app in Hnd. cbn in Hnd. apply NoDup_app in Hnd as (_ & Hnd & _).
    rewrite find_after by (intros Hin; apply (Hnd k Hin); by left). do 2 mnext. cbn [Nat.add]. eexists _, n, b1, b2. split; [done|]. split; [|done]. split_and!; try done.
    + cbn. rewrite lookup_app_r by lia. by replace (S (length b1) - length b1)%nat with 1%nat by lia.
    + by rewrite <- app_assoc.
Qed.

Lemma next_start (d0 : table) : dict_wf d0 → 0 <= pauserehash d0 < 2 ^ 15 - 2 →
  dict_wf (dictPauseRehashing d0) ∧ next_result (dictPauseRehashing d0) (entries d0) (dictNext d0 dictGetSafeIterator).
Proof.
  intros Hwf Hp. assert (Hwf' : dict_wf (dictPauseRehashing d0)) by (unfold dictPauseRehashing, set_pauserehash; destruct Hwf; by constructor).
  split; [done|]. replace (entries d0) with (concat (drop (Z.to_nat 0) (chains (dictPauseRehashing d0)))) by (symmetry; apply chains_entries).
  apply scan_next. apply (scan_spec _ d0 (dictPauseRehashing d0) dictGetSafeIterator 0); try done.
  - unfold paused, dictPauseRehashing. cbn. rewrite s16_small; lia.
  - left. cbn. destruct (chains_len _ Hwf'). lia.
  - rewrite slots_len by done. change (chains (dictPauseRehashing d0)) with (chains d0). lia.
Qed.

(** ** Deleting while iterating *)

Lemma same_place (l : list (list (K * V))) n m b b' i j k v v' : NoDup (concat l).*1 → l !! n = Some b → l !! m = Some b' →
  b !! i = Some (k, v) → b' !! j = Some (k, v') → n = m ∧ i = j.
Proof.
  intros Hd Hn Hm Hi Hj. assert (n = m) as ->.
  { destruct (decide (n = m)) as [|Hne]; [done|exfalso]. rewrite (concat_lookup l n b Hn), fmap_app in Hd. apply NoDup_app in Hd as (_ & Hd & _).
    apply (Hd k).
    - apply list_elem_of_fmap. exists (k, v). split; [done|]. by eapply list_elem_of_lookup_2.
    - apply list_elem_of_fmap. exists (k, v'). split; [done|]. apply elem_of_concat. exists b'. split; [by eapply list_elem_of_lookup_2|].
      eapply (list_elem_of_lookup_2 _ m). by rewrite list_lookup_insert_ne. }
  split; [done|]. rewrite Hn in Hm. injection Hm as <-. pose proof (chain_nodup l m b Hd Hn) as Hnd.
  apply (NoDup_lookup b.*1 i j k Hnd); rewrite list_lookup_fmap; [by rewrite Hi|by rewrite Hj].
Qed.

Lemma chains_set (d : table) tb t e idx b b' : dict_wf d → get_ht d tb = mk_ht t e → table_ok t e → 0 <= idx < len t → t !! Z.to_nat idx = Some b →
  let m := if tb =? 0 then Z.to_nat idx else Z.to_nat (size0 d + idx) in
  chains d !! m = Some b ∧ chains (set_ht d tb (mk_ht (<[Z.to_nat idx := b']> t) e)) = <[m := b']> (chains d).
Proof.
  intros Hwf Hg Ht Hidx Hb. cbv zeta. unfold chains, get_ht, set_ht in *. destruct (tb =? 0); cbn [ht0 ht1 ht_table mk_ht default from_option id].
  - rewrite Hg. cbn. split; [by rewrite lookup_app_l by lia|]. by rewrite insert_app_l by lia.
  - rewrite Hg. cbn [ht_table mk_ht]. assert (Hs : size0 d = len (default [] (ht_table (ht0 d)))).
    { unfold size0. destruct Hwf as [p|u f p Hu _|t0 e0 t1 e1 i p Ht0 _ _ _]; cbn; [done|by apply size_of|by apply size_of]. }
    rewrite Hs. change (default [] (Some ?x)) with x. replace (Z.to_nat (len (default [] (ht_table (ht0 d))) + idx)) with (length (default [] (ht_table (ht0 d))) + Z.to_nat idx)%nat by lia.
    split; [by rewrite lookup_app_r, Nat.add_comm, Nat.add_sub by lia|]. by rewrite insert_app_r.
Qed.

Lemma delete_current (d : table) k v n b1 b2 : dict_wf d → pauserehash d ≠ 0 → chains d !! n = Some (b1 ++ (k, v) :: b2) →
  ∃ d', dictDelete d k = Some (d', DICT_OK) ∧ dict_wf d' ∧ chains d' = <[n := b1 ++ b2]> (chains d) ∧ pauserehash d' = pauserehash d ∧ size0 d' = size0 d ∧ size1 d' = size1 d.
Proof.
  intros Hwf Hp Hc. assert (Hin : (k, v) ∈ entries d).
  { rewrite chains_entries. apply elem_of_concat. exists (b1 ++ (k, v) :: b2). split; [apply elem_of_app; right; by left|by eapply list_elem_of_lookup_2]. }
  assert (Hne : entries d ≠ []) by (intros E; rewrite E in Hin; by apply elem_of_nil in Hin).
  unfold dictDelete, dictGenericDelete. rewrite wf_size_zero by done. rewrite bool_decide_eq_false_2 by done.
  assert (rehash_step_if d = Some d) as -> by (unfold rehash_step_if, _dictRehashStep; rewrite (proj2 (Z.eqb_neq _ _) Hp); by destruct (dictIsRehashing d)). mnext.
  destruct (search_tables_spec d k Hwf (wf_nonnull d Hwf Hne)) as (idx & found & -> & Hf). mnext.
  destruct found as [[[tb j] pos]|]; [|destruct Hf as [Hf _]; exfalso; apply Hf, list_elem_of_fmap; by exists (k, v)].
  destruct Hf as (v' & Hv). destruct (entry_at_inv _ _ _ _ _ Hwf Hv) as (t & e & b & Hg & Ht & Hj & Hgb & Htb & Hpos). rewrite Hgb. mnext. rewrite Hpos. mnext.
  destruct (unlink_spec d tb j pos k v' Hwf Hv) as (b0 & h & l & Hb0 & _ & Hs & Hwf' & _ & _). rewrite Hgb in Hb0. injection Hb0 as <-. rewrite Hs. do 2 mnext.
  destruct (chains_set d tb t e j b (delete pos b) Hwf Hg Ht Hj Htb) as [Hcm Hcs]. destruct (same_place _ _ _ _ _ (length b1) pos k v v' (wf_nodup d Hwf) Hc Hcm) as [Hnm Hip]; [|done|].
  { rewrite lookup_app_r, Nat.sub_diag by lia. done. }
  rewrite Hnm, Hcm in Hc. injection Hc as ->. rewrite <- Hip in *.
  assert (Hadd : set_ht d tb (add_used h (-1)) = set_ht d tb (mk_ht (<[Z.to_nat j := delete (length b1) (b1 ++ (k, v) :: b2)]> t) e)).
  { rewrite Hg in Hs. unfold mk_ht in Hs at 1. rewrite set_bucket_ht in Hs by done. injection Hs as <-. f_equal. pose proof (length_concat_insert _ _ _ (delete (length b1) (b1 ++ (k, v) :: b2)) Htb) as Hl.
    rewrite length_delete in Hl by (by eexists). pose proof (Permutation_length (concat_lookup _ _ _ Htb)) as Hl2. rewrite !length_app in *. cbn [length] in *.
    pose proof (proj2 (entries_wf d Hwf)) as H60. assert (len (concat t) <= len (entries d)).
    { unfold entries, get_ht in *. destruct (tb =? 0); rewrite Hg; unfold ht_entries at 1 2; simpl; len_lia. }
    apply add_used_mk; rewrite ?length_app in *; cbn [length] in *; lia. }
  eexists. split; [done|]. split; [done|]. rewrite Hadd, Hcs, <- Hnm. rewrite delete_middle. split; [done|].
  unfold set_ht, size0, size1, get_ht in *. destruct (tb =? 0); cbn; rewrite ?Hg; done.
Qed.

(** The loop [while((de = dictNext(di)) != NULL)] that deletes the entries whose key is
    in [del], with the keys it saw; the iterator is released at its end. *)
Fixpoint walk (fuel : nat) (del : K → bool) (d : table) (it : dictIterator) (seen : list K) : option (table * list K) :=
  match fuel with
  | O => None
  | S fuel =>
    '(d, it, r) ← dictNext d it;
    match r with
    | None => Some (dictReleaseIterator d it, seen)
    | Some k =>
      d ← (if del k then fst <$> dictDelete d k else Some d);
      walk fuel del d it (seen ++ [k])
    end
  end.

Lemma split_chain (d : table) n (b : list (K * V)) : chains d !! n = Some b → entries d = concat (take n (chains d)) ++ b ++ concat (drop (S n) (chains d)).
Proof. intros Hb. rewrite chains_entries. rewrite <- (take_drop_middle _ _ _ Hb) at 1. by rewrite concat_app. Qed.

Lemma walk_deletes del l : ∀ fuel d0 d it seen pre, dict_wf d → paused d → entries d = pre ++ l → next_result d l (dictNext d0 it) → (length l < fuel)%nat →
  ∃ d', walk fuel del d0 it seen = Some (d', seen ++ l.*1) ∧ dict_wf d' ∧ pauserehash d' = pauserehash d - 1 ∧
    entries d' = pre ++ List.filter (λ e, negb (del e.1)) l.
Proof.
  induction l as [|[k v] l IH]; intros fuel d0 d it seen pre Hwf Hp He Hn Hf; (destruct fuel as [|fuel]; [lia|]); cbn [walk].
  - destruct Hn as (it' & -> & Hi). mnext. unfold dictReleaseIterator. replace (negb _) with true by lia. eexists. cbn [fmap list_fmap]. rewrite app_nil_r. split; [done|].
    unfold dictResumeRehashing, paused in *. cbn. split; [unfold set_pauserehash; destruct Hwf; by constructor|]. split; [rewrite s16_small; lia|done].
  - destruct Hn as (it' & n & b1 & b2 & -> & (Hat & Hen & Hne & Hc) & Hl). mnext. rewrite <- app_assoc in Hc. cbn [app] in Hc.
    pose proof (split_chain d _ _ Hc) as Hsp. unfold rest_after in Hl. assert (Hpre : pre = concat (take (Z.to_nat n) (chains d)) ++ b1).
    { rewrite He, Hl in Hsp. rewrite <- app_assoc, (app_assoc _ b1) in Hsp. by apply app_inv_tail in Hsp. }
    cbn [List.filter fst fmap list_fmap]. destruct (del k) eqn:Ed; cbn [negb].
    + assert (Hpz : pauserehash d ≠ 0) by (unfold paused in Hp; lia).
      destruct (delete_current d k v _ b1 b2 Hwf Hpz Hc) as (d1 & -> & Hwf1 & Hc1 & Hp1 & Hs0 & Hs1). cbn [fmap option_fmap option_map fst]. mnext.
      assert (Hlt : (Z.to_nat n < length (chains d))%nat) by (by eapply lookup_lt_Some).
      assert (Hl1 : l = rest_after d1 n b2) by (unfold rest_after; rewrite Hc1, drop_insert_lt by lia; done).
      assert (He1 : entries d1 = pre ++ l).
      { rewrite (split_chain d1 (Z.to_nat n) (b1 ++ b2)) by (rewrite Hc1; by apply list_lookup_insert_eq). rewrite Hc1, take_insert_ge, drop_insert_lt by lia.
        rewrite Hpre, Hl, <- !app_assoc. done. }
      destruct (IH fuel d1 d1 it' (seen ++ [k]) pre) as (d' & -> & Hwf' & Hp' & He'); [done|unfold paused in *; lia|done| |cbn in Hf; lia|].
      * rewrite Hl1. apply (next_in_chain d1 it' n b1 b2 Hwf1); [unfold paused in *; lia|]. split_and!; try done.
        -- unfold at_chain. by rewrite Hs0, Hs1.
        -- rewrite Hc1. by apply list_lookup_insert_eq.
      * exists d'. rewrite <- app_assoc. split; [done|]. split; [done|]. split; [lia|done].
    + mnext. destruct (IH fuel d d it' (seen ++ [k]) (pre ++ [(k, v)])) as (d' & -> & Hwf' & Hp' & He'); [done|done|by rewrite <- app_assoc| |cbn in Hf; lia|].
      * rewrite Hl. apply (next_in_chain d it' n (b1 ++ [(k, v)]) b2 Hwf Hp). split_and!; try done. by rewrite <- app_assoc.
      * exists d'. rewrite <- app_assoc. split; [done|]. rewrite <- app_assoc in He'. by split_and!.
Qed.

(** C27: a safe iterator over a well-formed dict, in any stage of rehashing, returns
    every entry exactly once, in the order of the chains, also when the loop deletes
    the entry it was just given; then the entries left are those not deleted, and
    rehashing goes on as before. *)
Theorem dictNext_complete del (d : table) : dict_wf d → 0 <= pauserehash d < 2 ^ 15 - 2 →
  ∃ d', walk (S (length (entries d))) del d dictGetSafeIterator [] = Some (d', (entries d).*1) ∧ dict_wf d' ∧ pauserehash d' = pauserehash d ∧
    entries d' = List.filter (λ e, negb (del e.1)) (entries d).
Proof.
  intros Hwf Hp. destruct (next_start d Hwf Hp) as [Hwf' Hn]. set (d1 := dictPauseRehashing d) in *.
  assert (Hpz : pauserehash d1 = pauserehash d + 1) by (unfold d1, dictPauseRehashing; cbn; rewrite s16_small; lia).
  destruct (walk_deletes del (entries d) (S (length (entries d))) d d1 dictGetSafeIterator [] []) as (d' & Hw & Hwf2 & Hp2 & He2); [done|unfold paused; lia|done|done|lia|].
  exists d'. split_and!; try done. lia.
Qed.
End iter.

#[local] Existing Instance example_type.
#[local] Existing Instance dictEnableResize.

Lemma dictNext_complete_witness : ∃ d', walk 4 (λ k, k =? 2) example_dict dictGetSafeIterator [] = Some (d', [1; 2; 8]) ∧
  dict_wf d' ∧ entries d' = [(1, 10); (8, 80)].
Proof.
  destruct (dictNext_complete (λ k, k =? 2) example_dict example_wf) as (d' & Hw & Hwf & _ & He); [done|].
  exists d'. split; [exact Hw|]. split; [exact Hwf|exact He].
Defined.
