(* ===== verification/Multi.v ===== *)
(** Transactions: src/redis-7.0.0/src/multi.c (MULTI, EXEC, DISCARD, WATCH, UNWATCH),
    with signalModifiedKey and keyIsExpired of db.c.

    A watchedKey is shared by the list of its client and the list of its key; both hold
    its address.  The list of a key is a value of the table watched_keys of the database,
    by its address too, and is freed with its entry.  Using what was freed, NULL, or a
    failed assertion is [None].  A list is iterated by the address of the next node,
    which is taken before the body runs.

    What a command does is a parameter: the new state of the rest of the server and the
    keys that it changes, each of which it signals. *)
From stdpp Require Import gmap.
From S2P Require Import Prelude Dict DictIter Adlist.
#[local] Open Scope Z_scope.

Section multi.
Context `{DictType K} `{DictGlobals} `{Zmalloc}.
Context {C W : Type}.

Record watchedKey := mk_wk { wk_key : K; wk_db : nat; wk_client : nat; wk_expired : bool }.

(** The fields of struct client; the flags CLIENT_MULTI, CLIENT_DIRTY_CAS,
    CLIENT_DIRTY_EXEC and CLIENT_DENY_BLOCKING; mstate.commands; watched_keys. *)
Record mclient := mk_mclient {
  c_db : nat; f_multi : bool; f_dirty_cas : bool; f_dirty_exec : bool; f_deny_blocking : bool;
  mcommands : list C; watched_keys : list positive;
}.

(** The keys of a database with their expire time, and its watched_keys. *)
Record mdb := mk_mdb { db_keys : gmap K (option Z); db_watched : dict (K := K) (V := positive) }.

Record mserver := mk_mserver {
  m_now : Z; m_rest : W; dbs : list mdb; clients : gmap nat mclient;
  wks : gmap positive watchedKey; wlists : gmap positive (list positive);
}.

Definition set_clients (s : mserver) x : mserver := mk_mserver (m_now s) (m_rest s) (dbs s) x (wks s) (wlists s).
Definition set_wks (s : mserver) x : mserver := mk_mserver (m_now s) (m_rest s) (dbs s) (clients s) x (wlists s).
Definition set_wlists (s : mserver) x : mserver := mk_mserver (m_now s) (m_rest s) (dbs s) (clients s) (wks s) x.
Definition set_rest (s : mserver) x : mserver := mk_mserver (m_now s) x (dbs s) (clients s) (wks s) (wlists s).
Definition set_dbs (s : mserver) x : mserver := mk_mserver (m_now s) (m_rest s) x (clients s) (wks s) (wlists s).

Definition put_client (s : mserver) (c : nat) (cl : mclient) : mserver := set_clients s (<[c := cl]> (clients s)).
Definition put_table (s : mserver) (i : nat) (db : mdb) (d : dict (K := K) (V := positive)) : mserver :=
  set_dbs s (<[i := mk_mdb (db_keys db) d]> (dbs s)).

Definition set_watched (cl : mclient) x : mclient := mk_mclient (c_db cl) (f_multi cl) (f_dirty_cas cl) (f_dirty_exec cl) (f_deny_blocking cl) (mcommands cl) x.
Definition set_commands (cl : mclient) x : mclient := mk_mclient (c_db cl) (f_multi cl) (f_dirty_cas cl) (f_dirty_exec cl) (f_deny_blocking cl) x (watched_keys cl).
Definition set_mflags (cl : mclient) m dc de db : mclient := mk_mclient (c_db cl) m dc de db (mcommands cl) (watched_keys cl).
Definition set_dirty_cas (cl : mclient) : mclient := set_mflags cl (f_multi cl) true (f_dirty_exec cl) (f_deny_blocking cl).

(** The server is not loading, and the time is that of the call. *)
Definition keyIsExpired (s : mserver) (db : mdb) (key : K) : bool :=
  match db_keys db !! key with Some (Some when) => if when <? 0 then false else m_now s >? when | _ => false end.

Definition key_exists (db : mdb) (key : K) : bool := match db_keys db !! key with Some _ => true | None => false end.

(** ** WATCH *)

(** The loop over the keys of the client: is the key among them? *)
Fixpoint already_watched (s : mserver) (ws : list positive) (i : nat) (key : K) : option bool :=
  match ws with
  | [] => Some false
  | w :: ws =>
    wk ← wks s !! w;
    if Nat.eqb (wk_db wk) i && keyCompare key (wk_key wk) then Some true else already_watched s ws i key
  end.

Definition watchForKey (s : mserver) (c : nat) (key : K) : option mserver :=
  cl ← clients s !! c;
  known ← already_watched s (watched_keys cl) (c_db cl) key;
  if known : bool then Some s
  else
    db ← dbs s !! c_db cl;
    '(d, l) ← dictFetchValue (db_watched db) key;
    '(s, d, l) ← match l with
                 | Some l => Some (s, d, l)
                 | None =>
                   let l := zmalloc (wlists s) in
                   '(d, _) ← dictAdd xH d key l;
                   Some (set_wlists s (<[l := []]> (wlists s)), d, l)
                 end;
    let s := put_table s (c_db cl) db d in
    let w := zmalloc (wks s) in
    let s := set_wks s (<[w := mk_wk key (c_db cl) c (keyIsExpired s db key)]> (wks s)) in
    let s := put_client s c (set_watched cl (watched_keys cl ++ [w])) in
    ws ← wlists s !! l;
    Some (set_wlists s (<[l := ws ++ [w]]> (wlists s))).

(** listDelNode of the node of [w]: [None] when it is not in the list. *)
Fixpoint remove_node (ws : list positive) (w : positive) : option (list positive) :=
  match ws with
  | [] => None
  | x :: ws => if bool_decide (x = w) then Some ws else ws ← remove_node ws w; Some (x :: ws)
  end.

(** One turn of the loop of unwatchAllKeys, for the first of the keys: it is taken from
    the list of its key, which goes when it is empty, and from that of the client. *)
Definition unwatch_one (s : mserver) (c : nat) (w : positive) : option mserver :=
  wk ← wks s !! w;
  db ← dbs s !! wk_db wk;
  '(d, l) ← dictFetchValue (db_watched db) (wk_key wk);
  l ← l;
  ws ← wlists s !! l;
  ws ← remove_node ws w;
  '(s, d) ← (if bool_decide (ws = []) then
               '(d, _) ← dictDelete d (wk_key wk); Some (set_wlists s (delete l (wlists s)), d)
             else Some (set_wlists s (<[l := ws]> (wlists s)), d));
  let s := put_table s (wk_db wk) db d in
  cl ← clients s !! c;
  mine ← remove_node (watched_keys cl) w;
  let s := put_client s c (set_watched cl mine) in
  Some (set_wks s (delete w (wks s))).

Fixpoint unwatch_loop (s : mserver) (c : nat) (ws : list positive) : option mserver :=
  match ws with
  | [] => Some s
  | w :: ws => s ← unwatch_one s c w; unwatch_loop s c ws
  end.

Definition unwatchAllKeys (s : mserver) (c : nat) : option mserver :=
  cl ← clients s !! c; unwatch_loop s c (watched_keys cl).

Fixpoint expired_loop (s : mserver) (ws : list positive) : option bool :=
  match ws with
  | [] => Some false
  | w :: ws =>
    wk ← wks s !! w;
    if wk_expired wk then expired_loop s ws
    else
      db ← dbs s !! wk_db wk;
      if keyIsExpired s db (wk_key wk) then Some true else expired_loop s ws
  end.
Definition isWatchedKeyExpired (s : mserver) (c : nat) : option bool :=
  cl ← clients s !! c; expired_loop s (watched_keys cl).

(** The node after that of [w] in a list: [None] when [w] is not in it any more. *)
Fixpoint node_after (ws : list positive) (w : positive) : option (option positive) :=
  match ws with
  | [] => None
  | x :: ws => if bool_decide (x = w) then Some (hd_error ws) else node_after ws w
  end.

Definition clear_expired (s : mserver) (w : positive) (wk : watchedKey) (b : bool) : mserver :=
  set_wks s (<[w := mk_wk (wk_key wk) (wk_db wk) (wk_client wk) b]> (wks s)).

(** The client of a watched key is marked as dirty, and does not watch any more. *)
Definition mark_dirty (s : mserver) (c : nat) : option mserver :=
  cl ← clients s !! c;
  unwatchAllKeys (put_client s c (set_dirty_cas cl)) c.

(** [while((ln = listNext(&li)))] over the list at [l]. *)
Fixpoint touch_loop (fuel : nat) (s : mserver) (i : nat) (key : K) (l : positive) (ln : option positive) : option mserver :=
  match ln with
  | None => Some s
  | Some w =>
    match fuel with
    | O => None
    | S fuel =>
      ws ← wlists s !! l;
      next ← node_after ws w;
      wk ← wks s !! w;
      if wk_expired wk then
        db ← dbs s !! i;
        if Nat.eqb i (wk_db wk) && keyCompare key (wk_key wk) && negb (key_exists db key)
        then touch_loop fuel (clear_expired s w wk false) i key l next
        else Some s
      else
        s ← mark_dirty s (wk_client wk);
        touch_loop fuel s i key l next
    end
  end.

Definition touchWatchedKey (s : mserver) (i : nat) (key : K) : option mserver :=
  db ← dbs s !! i;
  if dictSize (db_watched db) =? 0 then Some s
  else
    '(d, l) ← dictFetchValue (db_watched db) key;
    let s := put_table s i db d in
    match l with
    | None => Some s
    | Some l => ws ← wlists s !! l; touch_loop (length ws) s i key l (hd_error ws)
    end.

(** signalModifiedKey, without the invalidation of cached keys. *)
Definition signalModifiedKey (s : mserver) (i : nat) (key : K) : option mserver := touchWatchedKey s i key.

(** ** A database is emptied or replaced *)

(** dictGetVal of the entry at the iterator. *)
Definition entry_val (d : dict (K := K) (V := positive)) (it : dictIterator (K := K)) (key : K) : option positive :=
  b ← get_bucket (get_ht d (it_table it)) (it_index it);
  pos ← find_in_chain b key 0;
  snd <$> b !! pos.

Definition replaced_has (s : mserver) (replaced : option nat) (key : K) : bool :=
  match replaced with Some r => match dbs s !! r with Some db => key_exists db key | None => false end | None => false end.
Definition replaced_expired (s : mserver) (replaced : option nat) (key : K) : bool :=
  match replaced with Some r => match dbs s !! r with Some db => keyIsExpired s db key | None => false end | None => false end.

Fixpoint touch_all_clients (fuel : nat) (s : mserver) (exists_in_emptied : bool) (replaced : option nat) (key : K) (l : positive) (ln : option positive) : option mserver :=
  match ln with
  | None => Some s
  | Some w =>
    match fuel with
    | O => None
    | S fuel =>
      ws ← wlists s !! l;
      next ← node_after ws w;
      wk ← wks s !! w;
      let go s := touch_all_clients fuel s exists_in_emptied replaced key l next in
      if wk_expired wk then
        if negb (replaced_has s replaced key) then go (clear_expired s w wk false)
        else if replaced_expired s replaced key then go s
        else s ← mark_dirty s (wk_client wk); go s
      else if negb exists_in_emptied && replaced_expired s replaced key then go (clear_expired s w wk true)
      else s ← mark_dirty s (wk_client wk); go s
    end
  end.

Fixpoint touch_all_loop (fuel : nat) (s : mserver) (i : nat) (replaced : option nat) (it : dictIterator (K := K)) : option mserver :=
  match fuel with
  | O => None
  | S fuel =>
    db ← dbs s !! i;
    '(d, it, de) ← dictNext (db_watched db) it;
    let s := put_table s i db d in
    match de with
    | None => Some (put_table s i db (dictReleaseIterator d it))
    | Some key =>
      let exists_in_emptied := key_exists db key in
      if exists_in_emptied || replaced_has s replaced key then
        l ← entry_val d it key;
        ws ← wlists s !! l;
        s ← touch_all_clients (length ws) s exists_in_emptied replaced key l (hd_error ws);
        touch_all_loop fuel s i replaced it
      else touch_all_loop fuel s i replaced it
    end
  end.

Definition touchAllWatchedKeysInDb (s : mserver) (emptied : nat) (replaced_with : option nat) : option mserver :=
  db ← dbs s !! emptied;
  if dictSize (db_watched db) =? 0 then Some s
  else touch_all_loop (S (Z.to_nat (dictSize (db_watched db)))) s emptied replaced_with dictGetSafeIterator.

(** ** Commands *)

(** An array reply has the replies of the commands, whether each was permitted. *)
Inductive reply := ReplyOk | ReplyError | ReplyNull | ReplyAbort | ReplyArray (done : list bool).

Definition watchCommand (s : mserver) (c : nat) (keys : list K) : option (mserver * reply) :=
  cl ← clients s !! c;
  if f_multi cl then Some (s, ReplyError)
  else if f_dirty_cas cl then Some (s, ReplyOk)
  else
    s ← foldl (λ s key, s ← s; watchForKey s c key) (Some s) keys;
    Some (s, ReplyOk).

Definition unwatchCommand (s : mserver) (c : nat) : option (mserver * reply) :=
  s ← unwatchAllKeys s c;
  cl ← clients s !! c;
  Some (put_client s c (set_mflags cl (f_multi cl) false (f_dirty_exec cl) (f_deny_blocking cl)), ReplyOk).

Definition multiCommand (s : mserver) (c : nat) : option (mserver * reply) :=
  cl ← clients s !! c;
  if f_multi cl then Some (s, ReplyError)
  else Some (put_client s c (set_mflags cl true (f_dirty_cas cl) (f_dirty_exec cl) (f_deny_blocking cl)), ReplyOk).

Definition queueMultiCommand (s : mserver) (c : nat) (cmd : C) : option mserver :=
  cl ← clients s !! c;
  if f_dirty_cas cl || f_dirty_exec cl then Some s
  else Some (put_client s c (set_commands cl (mcommands cl ++ [cmd]))).

Definition flagTransaction (s : mserver) (c : nat) : option mserver :=
  cl ← clients s !! c;
  Some (if f_multi cl then put_client s c (set_mflags cl (f_multi cl) (f_dirty_cas cl) true (f_deny_blocking cl)) else s).

(** freeClientMultiState and initClientMultiState. *)
Definition initClientMultiState (cl : mclient) : mclient := set_commands cl [].

Definition discardTransaction (s : mserver) (c : nat) : option mserver :=
  cl ← clients s !! c;
  let cl := initClientMultiState cl in
  unwatchAllKeys (put_client s c (set_mflags cl false false false (f_deny_blocking cl))) c.

Definition discardCommand (s : mserver) (c : nat) : option (mserver * reply) :=
  cl ← clients s !! c;
  if negb (f_multi cl) then Some (s, ReplyError)
  else s ← discardTransaction s c; Some (s, ReplyOk).

(** ACLCheckAllPerm, and what a command does: the rest of the server, and the keys it
    sets (with their expire time) or deletes. *)
Context (permitted : W → C → bool) (call : W → C → W * list (nat * K * option (option Z))).

Definition change_key (s : mserver) (i : nat) (key : K) (v : option (option Z)) : option mserver :=
  db ← dbs s !! i;
  let s := set_dbs s (<[i := mk_mdb (match v with Some e => <[key := e]> (db_keys db) | None => delete key (db_keys db) end) (db_watched db)]> (dbs s)) in
  signalModifiedKey s i key.

Fixpoint change_keys (s : mserver) (cs : list (nat * K * option (option Z))) : option mserver :=
  match cs with
  | [] => Some s
  | (i, key, v) :: cs => s ← change_key s i key v; change_keys s cs
  end.

Definition run_command (s : mserver) (cmd : C) : option mserver :=
  let '(w, cs) := call (m_rest s) cmd in change_keys (set_rest s w) cs.

Fixpoint exec_loop (s : mserver) (cmds : list C) (done : list bool) : option (mserver * list bool) :=
  match cmds with
  | [] => Some (s, done)
  | cmd :: cmds =>
    if permitted (m_rest s) cmd then s ← run_command s cmd; exec_loop s cmds (done ++ [true])
    else exec_loop s cmds (done ++ [false])
  end.

Definition execCommand (s : mserver) (c : nat) : option (mserver * reply) :=
  cl ← clients s !! c;
  if negb (f_multi cl) then Some (s, ReplyError)
  else
    expired ← isWatchedKeyExpired s c;
    let cl := if expired : bool then set_dirty_cas cl else cl in
    let s := put_client s c cl in
    if f_dirty_cas cl || f_dirty_exec cl then
      let r := if f_dirty_exec cl then ReplyAbort else ReplyNull in
      s ← discardTransaction s c;
      Some (s, r)
    else
      let old_deny := f_deny_blocking cl in
      let s := put_client s c (set_mflags cl (f_multi cl) (f_dirty_cas cl) (f_dirty_exec cl) true) in
      s ← unwatchAllKeys s c;
      '(s, done) ← exec_loop s (mcommands cl) [];
      cl ← clients s !! c;
      let s := if old_deny then s else put_client s c (set_mflags cl (f_multi cl) (f_dirty_cas cl) (f_dirty_exec cl) false) in
      s ← discardTransaction s c;
      Some (s, ReplyArray done).

(** The end of processCommand: a command that is not one of those above. *)
Definition processOther (s : mserver) (c : nat) (cmd : C) : option mserver :=
  cl ← clients s !! c;
  if f_multi cl then queueMultiCommand s c cmd else run_command s cmd.

(** createClient and freeClient, for the fields above: selectDb(c,0), no flag, no command,
    no key. *)
Definition create_mclient (s : mserver) (c : nat) : mserver := put_client s c (mk_mclient 0 false false false false [] []).
Definition free_mclient (s : mserver) (c : nat) : option mserver :=
  s ← unwatchAllKeys s c; Some (set_clients s (delete c (clients s))).
End multi.
