(* ===== verification/MultiTheorems.v ===== *)
(** Transactions: the shared lists of watched keys implement, for each client, the
    sequence of keys it watches; EXEC runs the queued commands only if none of them was
    changed. *)
From stdpp Require Import gmap.
From S2P Require Import Prelude Dict DictIter Adlist Multi.
#[local] Open Scope Z_scope.

(** ** Lists without an element *)

Definition without (w : positive) (ws : list positive) : list positive := List.filter (λ x, negb (bool_decide (x = w))) ws.

Lemma elem_without x w ws : x ∈ without w ws ↔ x ∈ ws ∧ x ≠ w.
Proof.
  unfold without. rewrite !list_elem_of_In, List.filter_In. rewrite negb_true_iff, bool_decide_eq_false. done.
Qed.

Lemma without_id w ws : w ∉ ws → without w ws = ws.
Proof.
  induction ws as [|x ws IH]; intros Hn; [done|]. apply not_elem_of_cons in Hn as [Hne Hn]. unfold without. cbn. rewrite bool_decide_false by done. cbn.
  f_equal. by apply IH.
Qed.

Lemma NoDup_without w ws : NoDup ws → NoDup (without w ws).
Proof. rewrite !NoDup_ListNoDup. apply List.NoDup_filter. Qed.

Lemma remove_without w ws : w ∈ ws → NoDup ws → remove_node ws w = Some (without w ws).
Proof.
  induction ws as [|x ws IH]; intros Hin Hd; [by apply elem_of_nil in Hin|]. apply NoDup_cons in Hd as [Hx Hd]. unfold without. cbn. destruct (decide (x = w)) as [->|Hne].
  - rewrite bool_decide_true by done. cbn. f_equal. symmetry. by apply without_id.
  - rewrite bool_decide_false by done. cbn. apply elem_of_cons in Hin as [->|Hin]; [done|]. rewrite IH by done. done.
Qed.

(** A list that is freed when it is empty. *)
Definition shrunk (ws : list positive) : option (list positive) := match ws with [] => None | _ => Some ws end.

Section inv.
Context `{DictType K} `{DictGlobals} `{Zmalloc} {C W : Type}.
Abbreviation server := (mserver (K := K) (C := C) (W := W)).
Implicit Types (s : server).

(** The list of a key, by the tables. *)
Definition tab s (i : nat) (k : K) : option positive := db ← dbs s !! i; dict_map (db_watched db) !! k.
Definition at_key s (w : positive) (i : nat) (k : K) : Prop := ∃ wk, wks s !! w = Some wk ∧ wk_db wk = i ∧ wk_key wk = k.

(** What holds between commands: the lists of the clients and those of the keys are two
    indexes of the same watched keys; nothing is leaked.  No key was expired when it was
    watched. *)
Record inv (n : Z) s : Prop := {
  i_tab : ∀ i db, dbs s !! i = Some db → dict_wf (db_watched db) ∧ Z.of_nat (size (dict_map (db_watched db))) <= n;
  i_client : ∀ c cl, clients s !! c = Some cl → NoDup (watched_keys cl) ∧ ∀ w, w ∈ watched_keys cl ↔ ∃ wk, wks s !! w = Some wk ∧ wk_client wk = c;
  i_wk : ∀ w wk, wks s !! w = Some wk → is_Some (clients s !! wk_client wk) ∧ is_Some (tab s (wk_db wk) (wk_key wk)) ∧ wk_expired wk = false;
  i_one : ∀ w w' wk wk', wks s !! w = Some wk → wks s !! w' = Some wk' → wk_client wk = wk_client wk' → wk_db wk = wk_db wk' → wk_key wk = wk_key wk' → w = w';
  i_list : ∀ i k l, tab s i k = Some l → ∃ ws, wlists s !! l = Some ws ∧ ws ≠ [] ∧ NoDup ws ∧ ∀ w, w ∈ ws ↔ at_key s w i k;
  i_inj : ∀ i k i' k' l, tab s i k = Some l → tab s i' k' = Some l → i = i' ∧ k = k';
  i_leak : ∀ l, is_Some (wlists s !! l) → ∃ i k, tab s i k = Some l;
}.

Lemma tab_put s i db d j k : dbs s !! i = Some db → tab (put_table s i db d) j k = if decide (j = i) then dict_map d !! k else tab s j k.
Proof.
  intros Hi. unfold tab, put_table. cbn [dbs set_dbs]. destruct (decide (j = i)) as [->|Hne].
  - rewrite list_lookup_insert_eq by (by eapply lookup_lt_Some). done.
  - by rewrite list_lookup_insert_ne.
Qed.

Lemma tab_db s i k l : tab s i k = Some l → ∃ db, dbs s !! i = Some db ∧ dict_map (db_watched db) !! k = Some l.
Proof. unfold tab. destruct (dbs s !! i) as [db|]; [|done]. rewrite some_bind. by exists db. Qed.

(** The keys of the databases. *)
Definition keyspace s : list (gmap K (option Z)) := db_keys <$> dbs s.

Lemma keyspace_put s i db d : dbs s !! i = Some db → keyspace (put_table s i db d) = keyspace s.
Proof.
  intros Hi. unfold keyspace, put_table. cbn [dbs set_dbs]. rewrite list_fmap_insert. cbn. apply list_insert_id. by rewrite list_lookup_fmap, Hi.
Qed.

(** Only the lists of watched keys differ. *)
Definition same_data s s' : Prop := m_now s' = m_now s ∧ m_rest s' = m_rest s ∧ keyspace s' = keyspace s.

Lemma same_data_trans s1 s2 s3 : same_data s1 s2 → same_data s2 s3 → same_data s1 s3.
Proof. intros (? & ? & ?) (? & ? & ?). split_and!; congruence. Qed.

(** ** Unwatching *)

(** A watched key is taken out of both lists. *)
Lemma inv_remove n s s' w wk c cl l ws : inv n s → wks s !! w = Some wk → wk_client wk = c → clients s !! c = Some cl →
  tab s (wk_db wk) (wk_key wk) = Some l → wlists s !! l = Some ws →
  wks s' = delete w (wks s) → clients s' = <[c := set_watched cl (without w (watched_keys cl))]> (clients s) →
  (∀ i db, dbs s' !! i = Some db → dict_wf (db_watched db) ∧ Z.of_nat (size (dict_map (db_watched db))) <= n) →
  (∀ l', wlists s' !! l' = if decide (l' = l) then shrunk (without w ws) else wlists s !! l') →
  (∀ i k, tab s' i k = if decide (i = wk_db wk ∧ k = wk_key wk ∧ without w ws = []) then None else tab s i k) →
  inv n s'.
Proof.
  intros Hinv Hw Hc Hcl Hl Hws Ew Ecl Htab Elist Etab.
  destruct (i_list _ _ Hinv _ _ _ Hl) as (ws0 & Hws0 & _ & Hnd & Hmem). rewrite Hws in Hws0. injection Hws0 as <-.
  assert (Hkey : ∀ w' i k, at_key s' w' i k ↔ at_key s w' i k ∧ w' ≠ w).
  { intros w' i k. unfold at_key. rewrite Ew. split.
    - intros (x & Hx & ?). apply lookup_delete_Some in Hx as [Hne Hx]. split; [by exists x|congruence].
    - intros [(x & Hx & ?) Hne]. exists x. rewrite lookup_delete_ne by congruence. done. }
  constructor.
  - exact Htab.
  - intros c' cl'. rewrite Ecl, Ew. intros [(<- & <-)|(Hne & Hcl')]%lookup_insert_Some.
    + destruct (i_client _ _ Hinv _ _ Hcl) as [Hd Hm]. split; [by apply NoDup_without|]. intros x. cbn [watched_keys set_watched]. rewrite elem_without, Hm. split.
      * intros [(y & Hy & ?) Hne]. exists y. by rewrite lookup_delete_ne by congruence.
      * intros (y & Hy & ?). apply lookup_delete_Some in Hy as [? ?]. split; [by exists y|congruence].
    + destruct (i_client _ _ Hinv _ _ Hcl') as [Hd Hm]. split; [done|]. intros x. rewrite Hm. split.
      * intros (y & Hy & ?). exists y. rewrite lookup_delete_ne; [done|]. intros <-. congruence.
      * intros (y & Hy & ?). apply lookup_delete_Some in Hy as [? ?]. by exists y.
  - intros w' wk'. rewrite Ew. intros [Hne Hw']%lookup_delete_Some. destruct (i_wk _ _ Hinv _ _ Hw') as (Hcl' & Ht' & He). split_and!; [|rewrite Etab|done].
    + rewrite Ecl. destruct (decide (c = wk_client wk')) as [<-|Hcn]; [by rewrite lookup_insert_eq|]. by rewrite lookup_insert_ne.
    + case_decide as Hd; [|done]. destruct Hd as (Hd1 & Hd2 & Hnil). exfalso. assert (Hin : w' ∈ without w ws); [|rewrite Hnil in Hin; by apply elem_of_nil in Hin].
      apply elem_without. split; [|congruence]. apply Hmem. by exists wk'.
  - intros w1 w2 k1 k2. rewrite Ew. intros [_ Hk1]%lookup_delete_Some [_ Hk2]%lookup_delete_Some. by apply (i_one _ _ Hinv).
  - intros i k l'. rewrite Etab. case_decide as Hd; [done|]. intros Hl'. destruct (i_list _ _ Hinv _ _ _ Hl') as (ws' & Hws' & Hne' & Hnd' & Hmem'). rewrite Elist. case_decide as El.
    + subst l'. rewrite Hws in Hws'. injection Hws' as <-. destruct (i_inj _ _ Hinv _ _ _ _ _ Hl Hl') as [Ei Ek]. destruct (without w ws) as [|x r] eqn:Er; [by destruct Hd|].
      exists (x :: r). cbn [shrunk]. rewrite <- Er. split_and!; [done|by rewrite Er|by apply NoDup_without|]. intros y. rewrite elem_without, Hkey, Hmem'. done.
    + exists ws'. split_and!; try done. intros y. rewrite Hkey, Hmem'. split; [|by intros []]. intros Hy. split; [done|]. intros ->. destruct Hy as (x & Hx & ? & ?).
      rewrite Hw in Hx. injection Hx as <-. subst. congruence.
  - intros i k i' k' l'. rewrite !Etab. do 2 (case_decide; [done|]). apply (i_inj _ _ Hinv).
  - intros l'. rewrite Elist. case_decide as El; intros Hs.
    + subst l'. exists (wk_db wk), (wk_key wk). rewrite Etab, decide_False; [done|]. intros (_ & _ & Hnil). rewrite Hnil in Hs. by destruct Hs.
    + destruct (i_leak _ _ Hinv l' Hs) as (i & k & Hik). exists i, k. rewrite Etab. case_decide as Hd; [|done]. destruct Hd as (-> & -> & _). congruence.
Qed.

Lemma unwatch_one_spec n s w wk c cl : inv n s → wks s !! w = Some wk → wk_client wk = c → clients s !! c = Some cl →
  ∃ s', unwatch_one s c w = Some s' ∧ inv n s' ∧ wks s' = delete w (wks s) ∧
    clients s' = <[c := set_watched cl (without w (watched_keys cl))]> (clients s) ∧ same_data s s' ∧
    (∀ l, wlists s' !! l = us ← wlists s !! l; shrunk (without w us)).
Proof.
  intros Hinv Hw Hc Hcl. destruct (i_wk _ _ Hinv _ _ Hw) as (_ & [l Hl] & _). destruct (tab_db _ _ _ _ Hl) as (db & Hdb & Hm).
  destruct (i_tab _ _ Hinv _ _ Hdb) as [Hwf Hsz]. destruct (dictFetchValue_map (db_watched db) (wk_key wk) Hwf) as (d1 & Hf & Hwf1 & Hm1). rewrite Hm in Hf.
  destruct (i_list _ _ Hinv _ _ _ Hl) as (ws & Hws & Hne & Hnd & Hmem). assert (Hin : w ∈ ws) by (apply Hmem; by exists wk).
  destruct (i_client _ _ Hinv _ _ Hcl) as [Hndc Hmemc]. assert (Hinc : w ∈ watched_keys cl) by (apply Hmemc; by exists wk).
  assert (Hother : ∀ l' ws', l' ≠ l → wlists s !! l' = Some ws' → shrunk (without w ws') = Some ws').
  { intros l' ws' Hl' Hws'. destruct (i_leak _ _ Hinv l') as (i & k & Hik); [by rewrite Hws'|]. destruct (i_list _ _ Hinv _ _ _ Hik) as (x & Hx & Hxn & _ & Hxm). rewrite Hws' in Hx. injection Hx as <-.
    rewrite without_id; [by destruct ws'|]. intros Hw'. apply Hxm in Hw' as (y & Hy & ? & ?). rewrite Hw in Hy. injection Hy as <-. subst. congruence. }
  assert (Hdel : ∃ d2, (if bool_decide (without w ws = []) then '(d, _) ← dictDelete d1 (wk_key wk); Some (set_wlists s (delete l (wlists s)), d)
                        else Some (set_wlists s (<[l := without w ws]> (wlists s)), d1)) =
      Some (set_wlists s (match shrunk (without w ws) with Some x => <[l := x]> (wlists s) | None => delete l (wlists s) end), d2) ∧
      dict_wf d2 ∧ dict_map d2 = if bool_decide (without w ws = []) then delete (wk_key wk) (dict_map (db_watched db)) else dict_map (db_watched db)).
  { destruct (without w ws) as [|x r] eqn:Er; [rewrite !bool_decide_true by done|by rewrite !bool_decide_false by done; exists d1].
    destruct (dictDelete_map d1 (wk_key wk) Hwf1) as (d2 & r & -> & Hwf2 & Hm2 & _). mnext. exists d2. split_and!; try done. by rewrite Hm2, Hm1. }
  destruct Hdel as (d2 & Hdel & Hwf2 & Hm2).
  unfold unwatch_one. rewrite Hw. mnext. rewrite Hdb. mnext. rewrite Hf. do 2 mnext. rewrite Hws. mnext. rewrite (remove_without w ws Hin Hnd). mnext. rewrite Hdel. mnext.
  cbn [clients put_table set_dbs set_wlists]. rewrite Hcl. mnext. rewrite (remove_without w _ Hinc Hndc). mnext. eexists. split; [done|].
  assert (Hlk : ∀ l', match shrunk (without w ws) with Some x => <[l := x]> (wlists s) | None => delete l (wlists s) end !! l' = if decide (l' = l) then shrunk (without w ws) else wlists s !! l').
  { intros l'. destruct (without w ws) as [|x r]; cbn [shrunk]; case_decide as E; subst; rewrite ?lookup_delete_eq, ?lookup_insert_eq, ?lookup_delete_ne, ?lookup_insert_ne; congruence. }
  set (s' := set_wks _ _). assert (Htabs : ∀ i k, tab s' i k = if decide (i = wk_db wk ∧ k = wk_key wk ∧ without w ws = []) then None else tab s i k).
  { intros i k. change (tab s' i k) with (tab (put_table s (wk_db wk) db d2) i k). rewrite tab_put by done. destruct (decide (i = wk_db wk)) as [->|Hi].
    - rewrite Hm2. case_bool_decide as Hnil; [destruct (decide (k = wk_key wk)) as [->|Hk]|].
      + by rewrite lookup_delete_eq, decide_True.
      + rewrite lookup_delete_ne, decide_False by (congruence || tauto). unfold tab. by rewrite Hdb.
      + rewrite decide_False by tauto. unfold tab. by rewrite Hdb.
    - by rewrite decide_False by tauto. }
  split; [|split; [done|split; [done|split; [|]]]].
  - apply (inv_remove n s s' w wk c cl l ws); try done.
    intros i db'. change (dbs s') with (<[wk_db wk := mk_mdb (db_keys db) d2]> (dbs s)). intros [(<- & <- & _)|(_ & Hdb')]%list_lookup_insert_Some; [|by apply (i_tab _ _ Hinv i)].
    cbn. split; [done|]. rewrite Hm2. case_bool_decide; [|done]. rewrite map_size_delete, Hm. lia.
  - split; [done|]. split; [done|]. by apply (keyspace_put s).
  - intros l'. change (wlists s' !! l') with (match shrunk (without w ws) with Some x => <[l := x]> (wlists s) | None => delete l (wlists s) end !! l'). rewrite Hlk.
    case_decide as E; [subst; by rewrite Hws|]. destruct (wlists s !! l') as [ws'|] eqn:Ews'; [|done]. rewrite some_bind. by rewrite (Hother l' ws').
Qed.

(** Several elements are taken out. *)
Definition minus (ws us : list positive) : list positive := foldl (λ us w, without w us) us ws.

Lemma minus_nil ws : minus ws [] = [].
Proof. induction ws as [|w ws IH]; [done|]. cbn. apply IH. Qed.

Lemma elem_minus x ws us : x ∈ minus ws us ↔ x ∈ us ∧ x ∉ ws.
Proof.
  revert us. induction ws as [|w ws IH]; intros us; cbn; [split; [intros; split; [done|apply not_elem_of_nil]|by intros []]|].
  unfold minus in IH. rewrite IH, elem_without, not_elem_of_cons. tauto.
Qed.

Lemma minus_apart ws us : (∀ x, x ∈ ws → x ∉ us) → minus ws us = us.
Proof.
  revert us. induction ws as [|w ws IH]; intros us Hm; [done|]. change (minus (w :: ws) us) with (minus ws (without w us)).
  rewrite without_id by (apply Hm; by left). apply IH. intros x Hx. apply Hm. by right.
Qed.

Lemma minus_one ws w us : w ∈ ws → w ∉ us → (∀ x, x ∈ ws → x ∈ w :: us → x = w) → minus ws (w :: us) = us.
Proof.
  induction ws as [|x ws IH]; intros Hin Hw Hm; [by apply elem_of_nil in Hin|]. change (minus (x :: ws) (w :: us)) with (minus ws (without x (w :: us))).
  destruct (decide (x = w)) as [->|Hne].
  - assert (without w (w :: us) = us) as ->; [unfold without; cbn; rewrite bool_decide_true by done; by apply without_id|].
    apply minus_apart. intros y Hy Hy'. apply Hw. rewrite <- (Hm y); [done|by right|by right].
  - rewrite without_id by (intros Hx; apply Hne, Hm; [by left|done]). apply IH; [by apply elem_of_cons in Hin as [?|?]|done|]. intros y Hy. apply Hm. by right.
Qed.

Lemma unwatch_loop_spec n c ws : ∀ s cl, inv n s → clients s !! c = Some cl → watched_keys cl = ws →
  ∃ s', unwatch_loop s c ws = Some s' ∧ inv n s' ∧ clients s' = <[c := set_watched cl []]> (clients s) ∧
    (∀ w, wks s' !! w = if decide (w ∈ ws) then None else wks s !! w) ∧ same_data s s' ∧
    (∀ l, wlists s' !! l = us ← wlists s !! l; shrunk (minus ws us)).
Proof.
  induction ws as [|w ws IH]; intros s cl Hinv Hcl Ews; cbn [unwatch_loop].
  - exists s. split_and!; try done.
    + rewrite <- Ews. rewrite insert_id; [done|]. by destruct cl.
    + intros l. destruct (wlists s !! l) as [us|] eqn:El; [|done]. rewrite some_bind. cbn. destruct (i_leak _ _ Hinv l) as (i & k & Hik); [by rewrite El|].
      destruct (i_list _ _ Hinv _ _ _ Hik) as (x & Hx & Hne & _). rewrite El in Hx. injection Hx as <-. by destruct us.
  - destruct (i_client _ _ Hinv _ _ Hcl) as [Hnd Hmem]. rewrite Ews in Hnd, Hmem. apply NoDup_cons in Hnd as [Hw Hnd]. destruct (proj1 (Hmem w)) as (wk & Hwk & Hc); [by left|].
    destruct (unwatch_one_spec n s w wk c cl Hinv Hwk Hc Hcl) as (s1 & -> & Hinv1 & Hw1 & Hcl1 & Hsd1 & Hl1). mnext.
    assert (Hcl1' : clients s1 !! c = Some (set_watched cl ws)).
    { rewrite Hcl1, lookup_insert_eq, Ews. do 2 f_equal. unfold without. cbn. rewrite bool_decide_true by done. cbn. by apply without_id. }
    destruct (IH s1 _ Hinv1 Hcl1' eq_refl) as (s' & -> & Hinv' & Hcl' & Hw' & Hsd' & Hl'). exists s'. split_and!; try done.
    + rewrite Hcl', Hcl1, insert_insert_eq. done.
    + intros x. rewrite Hw', Hw1. destruct (decide (x ∈ ws)) as [Hx|Hx]; [by rewrite decide_True by (by right)|]. destruct (decide (x = w)) as [->|Hne].
      * by rewrite lookup_delete_eq, decide_True by (by left).
      * rewrite lookup_delete_ne, decide_False; [done| |congruence]. by intros [?|?]%elem_of_cons.
    + by eapply same_data_trans.
    + intros l. rewrite Hl', Hl1. destruct (wlists s !! l) as [us|]; [|done]. rewrite !some_bind. cbn [minus foldl]. destruct (without w us) as [|x r] eqn:Er; cbn [shrunk]; [|by rewrite some_bind].
      change (foldl (λ us w, without w us) [] ws) with (minus ws []). by rewrite minus_nil.
Qed.

Lemma unwatch_spec n s c cl : inv n s → clients s !! c = Some cl →
  ∃ s', unwatchAllKeys s c = Some s' ∧ inv n s' ∧ clients s' = <[c := set_watched cl []]> (clients s) ∧
    (∀ w, wks s' !! w = if decide (w ∈ watched_keys cl) then None else wks s !! w) ∧ same_data s s' ∧
    (∀ l, wlists s' !! l = us ← wlists s !! l; shrunk (minus (watched_keys cl) us)).
Proof. intros Hinv Hcl. unfold unwatchAllKeys. rewrite Hcl. mnext. by apply unwatch_loop_spec. Qed.

(** ** What a client sees *)

Record aclient := mk_aclient {
  a_db : nat; a_multi : bool; a_cas : bool; a_exec : bool; a_deny : bool; a_cmds : list C; a_watched : list (nat * K);
}.

Definition pair_of s (w : positive) : option (nat * K) := (λ wk, (wk_db wk, wk_key wk)) <$> wks s !! w.
Definition view s (cl : mclient (C := C)) : aclient :=
  mk_aclient (c_db cl) (f_multi cl) (f_dirty_cas cl) (f_dirty_exec cl) (f_deny_blocking cl) (mcommands cl) (omap (pair_of s) (watched_keys cl)).
Definition aview s (c : nat) : option aclient := view s <$> clients s !! c.

Lemma pairs_same s s' (ws : list positive) : (∀ w, w ∈ ws → wks s' !! w = wks s !! w) → omap (pair_of s') ws = omap (pair_of s) ws.
Proof.
  induction ws as [|w ws IH]; intros Hs; [done|]. cbn. assert (pair_of s' w = pair_of s w) as -> by (unfold pair_of; by rewrite Hs by (by left)). rewrite IH; [done|]. intros x Hx. apply Hs. by right.
Qed.

Lemma elem_pairs n s c cl i k : inv n s → clients s !! c = Some cl → (i, k) ∈ omap (pair_of s) (watched_keys cl) ↔ ∃ w wk, at_key s w i k ∧ wks s !! w = Some wk ∧ wk_client wk = c.
Proof.
  intros Hinv Hcl. destruct (i_client _ _ Hinv _ _ Hcl) as [_ Hm]. rewrite list_elem_of_omap. split.
  - intros (w & Hw & Hp). apply Hm in Hw as (wk & Hwk & Hc). exists w, wk. unfold pair_of in Hp. rewrite Hwk in Hp. cbn in Hp. injection Hp as <- <-. split; [by exists wk|done].
  - intros (w & wk & (wk' & Hwk' & <- & <-) & Hwk & Hc). exists w. split; [apply Hm; by exists wk|]. unfold pair_of. by rewrite Hwk'.
Qed.

(** The flags of a client change. *)
Lemma inv_flags n s c cl cl' : inv n s → clients s !! c = Some cl → watched_keys cl' = watched_keys cl → inv n (put_client s c cl').
Proof.
  intros Hinv Hcl Ew. constructor; try apply Hinv.
  - intros c' cl''. cbn [clients put_client set_clients wks]. intros [(<- & <-)|(_ & Hc')]%lookup_insert_Some; [rewrite Ew|]; by apply (i_client _ _ Hinv).
  - intros w wk Hw. destruct (i_wk _ _ Hinv _ _ Hw) as (Hc & Ht & He). split_and!; try done. cbn. destruct (decide (c = wk_client wk)) as [<-|Hne]; [by rewrite lookup_insert_eq|by rewrite lookup_insert_ne].
Qed.

Lemma aview_put s c cl c' : aview (put_client s c cl) c' = if decide (c' = c) then Some (view s cl) else aview s c'.
Proof. unfold aview. cbn [clients put_client set_clients]. destruct (decide (c' = c)) as [->|Hne]; [by rewrite lookup_insert_eq|by rewrite lookup_insert_ne]. Qed.

(** UnwatchAllKeys, for what the clients see. *)
Definition no_watch (v : aclient) : aclient := mk_aclient (a_db v) (a_multi v) (a_cas v) (a_exec v) (a_deny v) (a_cmds v) [].

Lemma unwatch_view n s c cl : inv n s → clients s !! c = Some cl →
  ∃ s', unwatchAllKeys s c = Some s' ∧ inv n s' ∧ same_data s s' ∧
    (∀ c', aview s' c' = if decide (c' = c) then Some (no_watch (view s cl)) else aview s c') ∧
    (∀ w, wks s' !! w = if decide (w ∈ watched_keys cl) then None else wks s !! w) ∧
    (∀ l, wlists s' !! l = us ← wlists s !! l; shrunk (minus (watched_keys cl) us)) ∧
    clients s' = <[c := set_watched cl []]> (clients s).
Proof.
  intros Hinv Hcl. destruct (unwatch_spec n s c cl Hinv Hcl) as (s' & -> & Hinv' & Hcl' & Hw & Hsd & Hl). exists s'. split_and!; try done.
  intros c'. unfold aview. rewrite Hcl'. destruct (decide (c' = c)) as [->|Hne]; [by rewrite lookup_insert_eq|]. rewrite lookup_insert_ne by done.
  destruct (clients s !! c') as [cl'|] eqn:Ec'; [|done]. cbn. f_equal. unfold view. f_equal. apply pairs_same. intros w Hin. rewrite Hw, decide_False; [done|].
  intros Hin'. apply (i_client _ _ Hinv _ _ Hcl) in Hin' as (wk & Hwk & <-). apply (i_client _ _ Hinv _ _ Ec') in Hin as (wk' & Hwk' & <-). congruence.
Qed.

Definition dirtied (v : aclient) : aclient := mk_aclient (a_db v) (a_multi v) true (a_exec v) (a_deny v) (a_cmds v) [].

Lemma mark_view n s c cl : inv n s → clients s !! c = Some cl →
  ∃ s', mark_dirty s c = Some s' ∧ inv n s' ∧ same_data s s' ∧
    (∀ c', aview s' c' = if decide (c' = c) then Some (dirtied (view s cl)) else aview s c') ∧
    (∀ w, wks s' !! w = if decide (w ∈ watched_keys cl) then None else wks s !! w) ∧
    (∀ l, wlists s' !! l = us ← wlists s !! l; shrunk (minus (watched_keys cl) us)).
Proof.
  intros Hinv Hcl. unfold mark_dirty. rewrite Hcl. mnext. pose proof (inv_flags n s c cl (set_dirty_cas cl) Hinv Hcl eq_refl) as Hinv1.
  destruct (unwatch_view n (put_client s c (set_dirty_cas cl)) c (set_dirty_cas cl) Hinv1) as (s' & -> & Hinv' & Hsd & Hv & Hw & Hl & _); [cbn; by rewrite lookup_insert_eq|].
  exists s'. split_and!; try done. intros c'. rewrite Hv, aview_put. destruct (decide (c' = c)); done.
Qed.

(** A key is touched: the clients that watch it are dirty, and watch nothing. *)
Definition touch_view (i : nat) (k : K) (v : aclient) : aclient := if decide ((i, k) ∈ a_watched v) then dirtied v else v.

Lemma touch_loop_spec n i k l ws : ∀ fuel s, inv n s → NoDup ws → (∀ w, w ∈ ws ↔ at_key s w i k) → (ws ≠ [] → wlists s !! l = Some ws) → (length ws <= fuel)%nat →
  ∃ s', touch_loop fuel s i k l (hd_error ws) = Some s' ∧ inv n s' ∧ same_data s s' ∧ (∀ c, aview s' c = touch_view i k <$> aview s c).
Proof.
  induction ws as [|w ws IH]; intros fuel s Hinv Hnd Hmem Hl Hf.
  - exists s. split; [by destruct fuel|]. split_and!; try done. intros c. unfold aview. destruct (clients s !! c) as [cl|] eqn:Ec; [|done]. cbn. f_equal. unfold touch_view.
    rewrite decide_False; [done|]. cbn. rewrite (elem_pairs n s c cl i k Hinv Ec). intros (w & wk & Hk & _). apply Hmem in Hk. by apply elem_of_nil in Hk.
  - destruct fuel as [|fuel]; [cbn in Hf; lia|]. apply NoDup_cons in Hnd as [Hwn Hnd]. cbn [touch_loop hd_error]. rewrite Hl by done. mnext. cbn [node_after]. rewrite bool_decide_true by done. mnext.
    destruct (proj1 (Hmem w)) as (wk & Hwk & Hdb & Hk); [by left|]. rewrite Hwk. mnext. destruct (i_wk _ _ Hinv _ _ Hwk) as ([cl Hcl] & _ & ->).
    destruct (mark_view n s (wk_client wk) cl Hinv Hcl) as (s1 & -> & Hinv1 & Hsd1 & Hv1 & Hw1 & Hl1). mnext.
    assert (Hmine : ∀ x, x ∈ watched_keys cl → x ∈ w :: ws → x = w).
    { intros x Hx Hx'. apply (i_client _ _ Hinv _ _ Hcl) in Hx as (xk & Hxk & Hxc). apply Hmem in Hx' as (xk' & Hxk' & ? & ?). assert (xk' = xk) as -> by congruence.
      apply (i_one _ _ Hinv x w xk wk); congruence. }
    assert (Hin : w ∈ watched_keys cl) by (apply (i_client _ _ Hinv _ _ Hcl); by exists wk).
    destruct (IH fuel s1 Hinv1 Hnd) as (s' & -> & Hinv' & Hsd' & Hv').
    + intros x. split.
      * intros Hx. destruct (proj1 (Hmem x)) as (xk & Hxk & ? & ?); [by right|]. exists xk. rewrite Hw1, decide_False; [done|]. intros Hx'. apply (Hmine x) in Hx'; [|by right]. by subst.
      * intros (xk & Hxk & ? & ?). rewrite Hw1 in Hxk. case_decide as Hd; [done|]. assert (Hx : x ∈ w :: ws) by (apply Hmem; by exists xk). apply elem_of_cons in Hx as [->|Hx]; done.
    + intros Hne. rewrite Hl1, Hl by done. rewrite some_bind.
      assert (minus (watched_keys cl) (w :: ws) = ws) as ->; [|by destruct ws].
      by apply minus_one.
    + cbn in Hf. lia.
    + exists s'. split_and!; try done; [by eapply same_data_trans|]. intros c. rewrite Hv', Hv1. case_decide as Ec; [|done]. subst c. unfold aview. rewrite Hcl. cbn. f_equal.
      unfold touch_view. cbn [a_watched dirtied]. rewrite decide_False by apply not_elem_of_nil. rewrite decide_True; [done|]. cbn. rewrite (elem_pairs n s _ cl i k Hinv Hcl). exists w, wk. split; [by exists wk|done].
Qed.

Lemma inv_mono n m s : n <= m → inv n s → inv m s.
Proof. intros Hnm Hinv. constructor; try apply Hinv. intros i db Hdb. destruct (i_tab _ _ Hinv i db Hdb). split; [done|lia]. Qed.

(** A database changes, not the map of its watched keys. *)
Lemma inv_db n s i db db' : inv n s → dbs s !! i = Some db → dict_wf (db_watched db') → dict_map (db_watched db') = dict_map (db_watched db) → inv n (set_dbs s (<[i := db']> (dbs s))).
Proof.
  intros Hinv Hdb Hwf Hm. assert (Ht : ∀ j k, tab (set_dbs s (<[i := db']> (dbs s))) j k = tab s j k).
  { intros j k. unfold tab. cbn [dbs set_dbs]. destruct (decide (j = i)) as [->|]; [|by rewrite list_lookup_insert_ne]. rewrite list_lookup_insert_eq by (by eapply lookup_lt_Some). rewrite Hdb, !some_bind. by rewrite Hm. }
  constructor; try apply Hinv.
  - intros j db0. cbn [dbs set_dbs]. intros [(<- & <- & _)|(_ & Hdb')]%list_lookup_insert_Some; [|by apply (i_tab _ _ Hinv j)].
    rewrite Hm. split; [done|]. by apply (i_tab _ _ Hinv i).
  - intros w wk Hw. rewrite Ht. by apply (i_wk _ _ Hinv w).
  - intros j k l. rewrite Ht. apply (i_list _ _ Hinv).
  - intros j k j' k' l. rewrite !Ht. apply (i_inj _ _ Hinv).
  - intros l Hs. destruct (i_leak _ _ Hinv l Hs) as (j & k & Hjk). exists j, k. by rewrite Ht.
Qed.

Lemma touch_spec n s i db k : inv n s → dbs s !! i = Some db →
  ∃ s', touchWatchedKey s i k = Some s' ∧ inv n s' ∧ same_data s s' ∧ (∀ c, aview s' c = touch_view i k <$> aview s c).
Proof.
  intros Hinv Hdb. assert (Hnone : dict_map (db_watched db) !! k = None → ∀ c, aview s c = touch_view i k <$> aview s c).
  { intros Hk c. unfold aview. destruct (clients s !! c) as [cl|] eqn:Ec; [|done]. cbn. f_equal. unfold touch_view. rewrite decide_False; [done|]. cbn.
    rewrite (elem_pairs n s c cl i k Hinv Ec). intros (w & wk & (wk' & Hw & <- & <-) & _). destruct (i_wk _ _ Hinv _ _ Hw) as (_ & [l Hl] & _). unfold tab in Hl. rewrite Hdb, some_bind in Hl. congruence. }
  destruct (i_tab _ _ Hinv _ _ Hdb) as [Hwf _]. unfold touchWatchedKey. rewrite Hdb. mnext. rewrite wf_size_zero by done. case_bool_decide as He.
  - exists s. split_and!; try done. apply Hnone. unfold dict_map. by rewrite He.
  - destruct (dictFetchValue_map (db_watched db) k Hwf) as (d & -> & Hwf' & Hm). mnext. pose proof (inv_db n s i db (mk_mdb (db_keys db) d) Hinv Hdb Hwf' Hm : inv n (put_table s i db d)) as Hinv'.
    assert (Hsd : same_data s (put_table s i db d)) by (split_and!; [done|done|by apply keyspace_put]).
    destruct (dict_map (db_watched db) !! k) as [l|] eqn:El.
    + assert (Ht : tab (put_table s i db d) i k = Some l) by (rewrite tab_put, decide_True by done; by rewrite Hm).
      destruct (i_list _ _ Hinv' _ _ _ Ht) as (ws & Hws & _ & Hnd & Hmem). cbv zeta. rewrite Hws. mnext.
      destruct (touch_loop_spec n i k l ws (length ws) (put_table s i db d) Hinv' Hnd Hmem) as (s' & -> & Hi' & Hsd' & Hv'); [done|done|].
      exists s'. split_and!; try done. by eapply same_data_trans.
    + eexists. split; [done|]. split_and!; try done. by apply Hnone.
Qed.

(** ** Watching *)

Lemma already_spec n s c cl i k (ws : list positive) : inv n s → clients s !! c = Some cl → (∀ w, w ∈ ws → w ∈ watched_keys cl) →
  already_watched s ws i k = Some (bool_decide ((i, k) ∈ omap (pair_of s) ws)).
Proof.
  intros Hinv Hcl. induction ws as [|w ws IH]; intros Hsub; [done|]. cbn [already_watched].
  destruct (proj1 (proj2 (i_client _ _ Hinv _ _ Hcl) w)) as (wk & Hwk & _); [apply Hsub; by left|]. rewrite Hwk. mnext.
  assert (omap (pair_of s) (w :: ws) = (wk_db wk, wk_key wk) :: omap (pair_of s) ws) as -> by (cbn; unfold pair_of at 1; by rewrite Hwk).
  destruct (Nat.eqb_spec (wk_db wk) i) as [Hi|Hi]; cbn [andb]; [destruct (keyCompare k (wk_key wk)) eqn:Ek|].
  - apply keyCompare_spec in Ek. rewrite bool_decide_true; [done|]. rewrite Hi, <- Ek. by left.
  - rewrite IH by (intros x Hx; apply Hsub; by right). f_equal. apply bool_decide_ext. rewrite elem_of_cons. split; [by right|]. intros [[= ? ?]|]; [|done].
    rewrite (proj2 (keyCompare_spec k (wk_key wk))) in Ek; done.
  - rewrite IH by (intros x Hx; apply Hsub; by right). f_equal. apply bool_decide_ext. rewrite elem_of_cons. split; [by right|]. by intros [[= ? ?]|].
Qed.

(** A watched key is added to both lists. *)
Lemma inv_add n s s' w c cl i k l ws : inv n s → clients s !! c = Some cl → wks s !! w = None → (i, k) ∉ omap (pair_of s) (watched_keys cl) →
  (tab s i k = Some l ∧ wlists s !! l = Some ws ∨ tab s i k = None ∧ wlists s !! l = None ∧ ws = []) →
  wks s' = <[w := mk_wk k i c false]> (wks s) → clients s' = <[c := set_watched cl (watched_keys cl ++ [w])]> (clients s) →
  (∀ j db, dbs s' !! j = Some db → dict_wf (db_watched db) ∧ Z.of_nat (size (dict_map (db_watched db))) <= n + 1) →
  wlists s' = <[l := ws ++ [w]]> (wlists s) →
  (∀ j k', tab s' j k' = if decide (j = i ∧ k' = k) then Some l else tab s j k') →
  inv (n + 1) s'.
Proof.
  intros Hinv Hcl Hw Hnot Hl Ew Ecl Htab Elist Etab.
  assert (Hkey : ∀ x j k', at_key s' x j k' ↔ at_key s x j k' ∨ x = w ∧ j = i ∧ k' = k).
  { intros x j k'. unfold at_key. rewrite Ew. split.
    - intros (y & [(<- & <-)|(Hne & Hy)]%lookup_insert_Some & <- & <-); [by right|left; by exists y].
    - intros [(y & Hy & ? & ?)|(-> & -> & ->)]; [|eexists; rewrite lookup_insert_eq; done]. exists y. rewrite lookup_insert_ne; [done|]. congruence. }
  assert (Hws : (tab s i k = None → ws = []) ∧ NoDup ws ∧ ∀ x, x ∈ ws ↔ at_key s x i k).
  { destruct Hl as [[Ht Hws]|(Ht & _ & ->)].
    - destruct (i_list _ _ Hinv _ _ _ Ht) as (x & Hx & _ & Hnd & Hm). rewrite Hws in Hx. injection Hx as <-. split_and!; [congruence|done|done].
    - split_and!; [done|apply NoDup_nil_2|]. intros x. split; [by intros ?%elem_of_nil|]. intros (y & Hy & <- & <-). destruct (i_wk _ _ Hinv _ _ Hy) as (_ & [? ?] & _). congruence. }
  destruct Hws as (Hnil & Hnd & Hmem). assert (Hwn : ∀ x y, wks s !! x = Some y → x ≠ w) by (intros; congruence).
  constructor.
  - exact Htab.
  - intros c' cl'. rewrite Ecl, Ew. intros [(<- & <-)|(Hne & Hcl')]%lookup_insert_Some.
    + destruct (i_client _ _ Hinv _ _ Hcl) as [Hd Hm]. cbn [watched_keys set_watched]. split.
      * apply NoDup_app. split_and!; [done| |apply NoDup_singleton]. intros x Hx ->%list_elem_of_singleton. apply Hm in Hx as (y & ? & _). congruence.
      * intros x. rewrite elem_of_app, list_elem_of_singleton, Hm. split.
        -- intros [(y & Hy & ?)| ->]; [|eexists; rewrite lookup_insert_eq; done]. exists y. rewrite lookup_insert_ne; [done|]. congruence.
        -- intros (y & [(<- & <-)|(Hne & Hy)]%lookup_insert_Some & ?); [by right|left; by exists y].
    + destruct (i_client _ _ Hinv _ _ Hcl') as [Hd Hm]. split; [done|]. intros x. rewrite Hm. split.
      * intros (y & Hy & ?). exists y. rewrite lookup_insert_ne; [done|]. congruence.
      * intros (y & [(<- & <-)|(_ & Hy)]%lookup_insert_Some & ?); [cbn in *; congruence|by exists y].
  - intros x y. rewrite Ew, Ecl, Etab. intros [(<- & <-)|(Hne & Hy)]%lookup_insert_Some.
    + cbn. rewrite lookup_insert_eq, decide_True by done. done.
    + destruct (i_wk _ _ Hinv _ _ Hy) as (Hc' & Ht & He). split_and!; [destruct (decide (c = wk_client y)) as [<-|?]; [by rewrite lookup_insert_eq|by rewrite lookup_insert_ne]|by case_decide|done].
  - assert (Hnew : ∀ x y, wks s !! x = Some y → wk_client y = c → wk_db y = i → wk_key y = k → False).
    { intros x y Hy Hc Hi Hk. apply Hnot. rewrite (elem_pairs n s c cl i k Hinv Hcl). exists x, y. split; [by exists y|done]. }
    intros x x' y y'. rewrite Ew. intros [(<- & <-)|(Hne & Hy)]%lookup_insert_Some [(<- & <-)|(Hne' & Hy')]%lookup_insert_Some; cbn; intros; [done|exfalso; by eapply Hnew|exfalso; by eapply Hnew|by apply (i_one _ _ Hinv x x' y y')].
  - intros j k' l'. rewrite Etab, Elist. case_decide as Hd.
    + intros [= <-]. destruct Hd as [-> ->]. exists (ws ++ [w]). rewrite lookup_insert_eq. split_and!; [done|by destruct ws| |].
      * apply NoDup_app. split_and!; [done| |apply NoDup_singleton]. intros x Hx ->%list_elem_of_singleton. apply Hmem in Hx as (y & ? & _). congruence.
      * intros x. rewrite elem_of_app, list_elem_of_singleton, Hmem, Hkey. naive_solver.
    + intros Hl'. destruct (i_list _ _ Hinv _ _ _ Hl') as (us & Hus & Hne & Hndu & Hmu). exists us. rewrite lookup_insert_ne.
      * split_and!; try done. intros x. rewrite Hmu, Hkey. naive_solver.
      * intros <-. destruct Hl as [[Ht _]|(_ & Hn & _)]; [|congruence]. destruct (i_inj _ _ Hinv _ _ _ _ _ Ht Hl'). naive_solver.
  - intros j k' j' k'' l'. rewrite !Etab. assert (Hno : ∀ j k', ¬ (j = i ∧ k' = k) → tab s j k' = Some l → False).
    { intros a b Hab Ht'. destruct Hl as [[Ht _]|(_ & Hn & _)]; [destruct (i_inj _ _ Hinv _ _ _ _ _ Ht Ht'); naive_solver|].
      destruct (i_list _ _ Hinv _ _ _ Ht') as (us & Hus & _). congruence. }
    repeat case_decide; intros; simplify_eq; [naive_solver|exfalso; by eapply Hno|exfalso; by eapply Hno|by apply (i_inj _ _ Hinv j k' j' k'' l')].
  - intros l'. rewrite Elist. destruct (decide (l' = l)) as [->|Hne].
    + intros _. exists i, k. by rewrite Etab, decide_True.
    + rewrite lookup_insert_ne by done. intros Hs. destruct (i_leak _ _ Hinv l' Hs) as (j & k' & Hjk). exists j, k'. rewrite Etab. case_decide as Hd; [|done]. destruct Hd as [-> ->].
      destruct Hl as [[Ht _]|(Ht & _)]; congruence.
Qed.

(** A key is watched, once. *)
Definition watch_view (i : nat) (k : K) (v : aclient) : aclient :=
  if decide ((i, k) ∈ a_watched v) then v else mk_aclient (a_db v) (a_multi v) (a_cas v) (a_exec v) (a_deny v) (a_cmds v) (a_watched v ++ [(i, k)]).

Lemma add_view n s s' w c cl i k : inv n s → clients s !! c = Some cl → wks s !! w = None → (i, k) ∉ omap (pair_of s) (watched_keys cl) →
  wks s' = <[w := mk_wk k i c false]> (wks s) → clients s' = <[c := set_watched cl (watched_keys cl ++ [w])]> (clients s) →
  ∀ c', aview s' c' = if decide (c' = c) then Some (watch_view i k (view s cl)) else aview s c'.
Proof.
  intros Hinv Hcl Hw Hnot Ew Ecl c'.
  assert (Hold : ∀ c cl, clients s !! c = Some cl → omap (pair_of s') (watched_keys cl) = omap (pair_of s) (watched_keys cl)).
  { intros a b Hab. apply pairs_same. intros x Hx. rewrite Ew, lookup_insert_ne; [done|]. apply (i_client _ _ Hinv _ _ Hab) in Hx as (y & ? & _). congruence. }
  unfold aview. rewrite Ecl. destruct (decide (c' = c)) as [->|Hne].
  - rewrite lookup_insert_eq. cbn. f_equal. unfold watch_view. rewrite decide_False by done. unfold view. cbn [watched_keys set_watched]. rewrite omap_app, (Hold c cl) by done. cbn. unfold pair_of at 2. by rewrite Ew, lookup_insert_eq.
  - rewrite lookup_insert_ne by done. destruct (clients s !! c') as [cl'|] eqn:Ec; [|done]. cbn. f_equal. unfold view. by rewrite (Hold c').
Qed.

Lemma watch_linked n s s' c cl db k w d l ws : inv n s → clients s !! c = Some cl → dbs s !! c_db cl = Some db → wks s !! w = None →
  (c_db cl, k) ∉ omap (pair_of s) (watched_keys cl) →
  (tab s (c_db cl) k = Some l ∧ wlists s !! l = Some ws ∨ tab s (c_db cl) k = None ∧ wlists s !! l = None ∧ ws = []) →
  dict_wf d → Z.of_nat (size (dict_map d)) <= n + 1 → dict_map d = <[k := l]> (dict_map (db_watched db)) →
  s' = mk_mserver (m_now s) (m_rest s) (<[c_db cl := mk_mdb (db_keys db) d]> (dbs s)) (<[c := set_watched cl (watched_keys cl ++ [w])]> (clients s))
         (<[w := mk_wk k (c_db cl) c false]> (wks s)) (<[l := ws ++ [w]]> (wlists s)) →
  inv (n + 1) s' ∧ same_data s s' ∧ ∀ c', aview s' c' = if decide (c' = c) then Some (watch_view (c_db cl) k (view s cl)) else aview s c'.
Proof.
  intros Hinv Hcl Hdb Hw Hin Hl Hd Hsz Hm ->. split_and!; [|by split_and!; [| |apply (keyspace_put s)]|by eapply add_view].
  eapply (inv_add n s _ w c cl (c_db cl) k l ws); try done.
  - cbn [dbs]. intros j db' [(<- & <- & _)|(_ & Hdb')]%list_lookup_insert_Some; [done|]. destruct (i_tab _ _ Hinv j db' Hdb'). split; [done|lia].
  - intros j k'. change (tab _ j k') with (tab (put_table s (c_db cl) db d) j k') at 1. rewrite tab_put, Hm by done. case_decide as Hj; [|by rewrite decide_False by naive_solver]. subst j.
    destruct (decide (k' = k)) as [->|Hk]; [by rewrite lookup_insert_eq, decide_True|]. rewrite lookup_insert_ne, decide_False by naive_solver. unfold tab. by rewrite Hdb.
Qed.

Lemma watch_spec n s c cl db k : inv n s → n + 1 < 2 ^ 60 → clients s !! c = Some cl → dbs s !! c_db cl = Some db → keyIsExpired s db k = false →
  ∃ s', watchForKey s c k = Some s' ∧ inv (n + 1) s' ∧ same_data s s' ∧
    ∀ c', aview s' c' = if decide (c' = c) then Some (watch_view (c_db cl) k (view s cl)) else aview s c'.
Proof.
  intros Hinv Hn Hcl Hdb Hexp. unfold watchForKey. rewrite Hcl. mnext. rewrite (already_spec n s c cl (c_db cl) k (watched_keys cl) Hinv Hcl) by done. mnext.
  case_bool_decide as Hin.
  { exists s. split_and!; try done; [by apply (inv_mono n); [lia|]|]. intros c'. case_decide; [subst c'|done]. unfold aview. rewrite Hcl. cbn. f_equal. unfold watch_view. by rewrite decide_True. }
  rewrite Hdb. mnext. destruct (i_tab _ _ Hinv _ _ Hdb) as [Hwf Hsz]. destruct (dictFetchValue_map (db_watched db) k Hwf) as (d & -> & Hwf' & Hm). mnext.
  assert (Htab : tab s (c_db cl) k = dict_map (db_watched db) !! k) by (unfold tab; by rewrite Hdb).
  pose proof (zmalloc_fresh (wks s)) as Hw. destruct (dict_map (db_watched db) !! k) as [l|] eqn:El.
  - destruct (i_list _ _ Hinv _ _ _ Htab) as (ws & Hws & _). rewrite ?some_bind. cbv beta iota zeta. cbn [wlists put_client set_clients set_wks put_table set_dbs]. rewrite Hws. mnext. eexists. split; [done|].
    eapply (watch_linked n s _ c cl db k (zmalloc (wks s)) d l ws); try done; [by left|rewrite Hm; lia|by rewrite Hm, insert_id|].
    unfold keyIsExpired in *. cbn [m_now put_table set_dbs]. by rewrite Hexp.
  - rewrite <- Hm in El, Hsz. destruct (dictAdd_map xH d k (zmalloc (wlists s)) Hwf') as (d' & r & -> & Hwf2 & Hadd); [lia|]. rewrite El in Hadd. destruct Hadd as [_ Hm2]. mnext.
    rewrite ?some_bind. cbv beta iota zeta. cbn [wlists put_client set_clients set_wks put_table set_dbs set_wlists]. rewrite lookup_insert_eq. mnext. eexists. split; [done|].
    eapply (watch_linked n s _ c cl db k (zmalloc (wks s)) d' (zmalloc (wlists s)) []); try done; [right; split_and!; [done|apply zmalloc_fresh|done]|rewrite Hm2, map_size_insert_None by done; lia|by rewrite Hm2, Hm|].
    unfold keyIsExpired in *. cbn [m_now put_table set_dbs set_wlists]. rewrite Hexp. by rewrite insert_insert_eq.
Qed.
End inv.
