(* ===== verification/MultiSpec.v ===== *)
(** What transactions promise: optimistic concurrency control with a version of each key.

    WATCH records the version of the keys; EXEC compares them with the current ones and
    runs the queue when none has changed.  The server has no versions: it keeps a flag in
    each client, that a change sets by the lists of watched keys.  The theorem is that,
    for any sequence of events, the server gives the replies and the data of the
    specification. *)
From stdpp Require Import gmap.
From S2P Require Import Prelude Dict DictIter Adlist Multi MultiTheorems.
#[local] Open Scope Z_scope.

Section spec.
Context `{DictType K} `{DictGlobals} `{Zmalloc} {C W : Type}.
Context (permitted : W → C → bool) (call : W → C → W * list (nat * K * option (option Z))).

(** ** The specification *)

Record sclient := mk_sclient { sc_db : nat; sc_multi : bool; sc_aborted : bool; sc_cmds : list C; sc_watch : list (nat * K * nat) }.
Record spec := mk_spec {
  sp_now : Z; sp_rest : W; sp_keys : list (gmap K (option Z)); sp_ver : gmap (nat * K) nat; sp_clients : gmap nat sclient;
}.
Implicit Types (a : spec) (sc : sclient).

Definition sp_put a c sc : spec := mk_spec (sp_now a) (sp_rest a) (sp_keys a) (sp_ver a) (<[c := sc]> (sp_clients a)).
Definition version (vs : gmap (nat * K) nat) (p : nat * K) : nat := default 0%nat (vs !! p).
Definition stale (vs : gmap (nat * K) nat) (w : list (nat * K * nat)) : bool := existsb (λ '(p, v), negb (Nat.eqb (version vs p) v)) w.
Definition sp_expired a (p : nat * K) : bool :=
  match sp_keys a !! p.1 with
  | Some keys => match keys !! p.2 with Some (Some when) => if when <? 0 then false else sp_now a >? when | _ => false end
  | None => false
  end.

Definition sp_watch_key a sc (k : K) : sclient :=
  if decide ((sc_db sc, k) ∈ (sc_watch sc).*1) then sc
  else mk_sclient (sc_db sc) (sc_multi sc) (sc_aborted sc) (sc_cmds sc) (sc_watch sc ++ [(sc_db sc, k, version (sp_ver a) (sc_db sc, k))]).

Definition set_key (k : K) (v : option (option Z)) (keys : gmap K (option Z)) : gmap K (option Z) :=
  match v with Some e => <[k := e]> keys | None => delete k keys end.
Definition sp_change a (ch : nat * K * option (option Z)) : spec :=
  let '(i, k, v) := ch in
  mk_spec (sp_now a) (sp_rest a) (alter (set_key k v) i (sp_keys a)) (<[(i, k) := S (version (sp_ver a) (i, k))]> (sp_ver a)) (sp_clients a).
Definition sp_run a (cmd : C) : spec :=
  let '(w, cs) := call (sp_rest a) cmd in foldl sp_change (mk_spec (sp_now a) w (sp_keys a) (sp_ver a) (sp_clients a)) cs.
Fixpoint sp_run_all a (cmds : list C) (replies : list bool) : spec * list bool :=
  match cmds with
  | [] => (a, replies)
  | cmd :: cmds => if permitted (sp_rest a) cmd then sp_run_all (sp_run a cmd) cmds (replies ++ [true]) else sp_run_all a cmds (replies ++ [false])
  end.

(** The transaction is over. *)
Definition sc_reset sc : sclient := mk_sclient (sc_db sc) false false [] [].

Definition sp_exec a (c : nat) sc : spec * reply :=
  if negb (sc_multi sc) then (a, ReplyError)
  else if sc_aborted sc then (sp_put a c (sc_reset sc), ReplyAbort)
  else if stale (sp_ver a) (sc_watch sc) || existsb (λ p, sp_expired a p) (sc_watch sc).*1 then (sp_put a c (sc_reset sc), ReplyNull)
  else let '(a, replies) := sp_run_all (sp_put a c (sc_reset sc)) (sc_cmds sc) [] in (a, ReplyArray replies).

(** ** The events *)

Inductive event :=
| Watch (c : nat) (keys : list K) | Unwatch (c : nat) | Begin (c : nat) | Discard (c : nat) | Exec (c : nat)
| Command (c : nat) (cmd : C) | Reject (c : nat) | Select (c : nat) (i : nat)
| Connect (c : nat) | Disconnect (c : nat) | Change (i : nat) (k : K) (v : option (option Z)) | Tick (now : Z).

(** The server. *)
Definition select_db (s : mserver (K := K) (C := C) (W := W)) (c i : nat) : option mserver :=
  cl ← clients s !! c;
  Some (if bool_decide (i < length (dbs s))%nat
        then put_client s c (mk_mclient i (f_multi cl) (f_dirty_cas cl) (f_dirty_exec cl) (f_deny_blocking cl) (mcommands cl) (watched_keys cl)) else s).

Definition no_reply {A} (s : option A) : option (A * option reply) := s ← s; Some (s, None).
Definition with_reply {A} (s : option (A * reply)) : option (A * option reply) := '(s, r) ← s; Some (s, Some r).

Definition server_step (s : mserver (K := K) (C := C) (W := W)) (e : event) : option (mserver * option reply) :=
  match e with
  | Watch c keys => with_reply (watchCommand s c keys)
  | Unwatch c => with_reply (unwatchCommand s c)
  | Begin c => with_reply (multiCommand s c)
  | Discard c => with_reply (discardCommand s c)
  | Exec c => with_reply (execCommand permitted call s c)
  | Command c cmd => no_reply (processOther call s c cmd)
  | Reject c => no_reply (flagTransaction s c)
  | Select c i => no_reply (select_db s c i)
  | Connect c => Some (create_mclient s c, None)
  | Disconnect c => no_reply (free_mclient s c)
  | Change i k v => no_reply (change_key s i k v)
  | Tick now => Some (mk_mserver now (m_rest s) (dbs s) (clients s) (wks s) (wlists s), None)
  end.

(** The specification. *)
Definition client_step a c sc (e : event) : spec * option reply :=
  match e with
  | Watch _ keys => if sc_multi sc then (a, Some ReplyError) else (sp_put a c (foldl (sp_watch_key a) sc keys), Some ReplyOk)
  | Unwatch _ => (sp_put a c (mk_sclient (sc_db sc) (sc_multi sc) (sc_aborted sc) (sc_cmds sc) []), Some ReplyOk)
  | Begin _ => if sc_multi sc then (a, Some ReplyError) else (sp_put a c (mk_sclient (sc_db sc) true (sc_aborted sc) (sc_cmds sc) (sc_watch sc)), Some ReplyOk)
  | Discard _ => if sc_multi sc then (sp_put a c (sc_reset sc), Some ReplyOk) else (a, Some ReplyError)
  | Exec _ => let '(a, r) := sp_exec a c sc in (a, Some r)
  | Command _ cmd => (if sc_multi sc then sp_put a c (mk_sclient (sc_db sc) (sc_multi sc) (sc_aborted sc) (sc_cmds sc ++ [cmd]) (sc_watch sc)) else sp_run a cmd, None)
  | Reject _ => (if sc_multi sc then sp_put a c (mk_sclient (sc_db sc) (sc_multi sc) true (sc_cmds sc) (sc_watch sc)) else a, None)
  | Select _ i => (if bool_decide (i < length (sp_keys a))%nat then sp_put a c (mk_sclient i (sc_multi sc) (sc_aborted sc) (sc_cmds sc) (sc_watch sc)) else a, None)
  | Disconnect _ => (mk_spec (sp_now a) (sp_rest a) (sp_keys a) (sp_ver a) (delete c (sp_clients a)), None)
  | _ => (a, None)
  end.

Definition event_client (e : event) : option nat :=
  match e with
  | Watch c _ | Unwatch c | Begin c | Discard c | Exec c | Command c _ | Reject c | Select c _ | Disconnect c => Some c
  | Connect _ | Change _ _ _ | Tick _ => None
  end.

Definition sp_step a (e : event) : option (spec * option reply) :=
  match e with
  | Connect c => Some (sp_put a c (mk_sclient 0 false false [] []), None)
  | Change i k v => Some (sp_change a (i, k, v), None)
  | Tick now => Some (mk_spec now (sp_rest a) (sp_keys a) (sp_ver a) (sp_clients a), None)
  | _ => c ← event_client e; sc ← sp_clients a !! c; Some (client_step a c sc e)
  end.

Definition known a (c : nat) : bool := match sp_clients a !! c with Some _ => true | None => false end.
Definition in_multi a (c : nat) : bool := match sp_clients a !! c with Some sc => sc_multi sc | None => false end.

(** The events of the theorem: the clients are connected; the keys that are watched have
    not expired; UNWATCH and SELECT are not queued; the changes are to a database of the
    server. *)
Definition allowed a (e : event) : bool :=
  match e with
  | Watch c keys => match sp_clients a !! c with Some sc => forallb (λ k, negb (sp_expired a (sc_db sc, k))) keys | None => false end
  | Unwatch c | Select c _ => known a c && negb (in_multi a c)
  | Connect c => negb (known a c)
  | Change i _ _ => bool_decide (i < length (sp_keys a))%nat
  | Tick _ => true
  | Begin c | Discard c | Exec c | Command c _ | Reject c | Disconnect c => known a c
  end.

Fixpoint server_run (s : mserver) (es : list event) : option (mserver * list (option reply)) :=
  match es with
  | [] => Some (s, [])
  | e :: es => '(s, r) ← server_step s e; '(s, rs) ← server_run s es; Some (s, r :: rs)
  end.

Fixpoint sp_trace a (es : list event) : option (spec * list (option reply)) :=
  match es with
  | [] => Some (a, [])
  | e :: es => if allowed a e then '(a, r) ← sp_step a e; '(a, rs) ← sp_trace a es; Some (a, r :: rs) else None
  end.

(** How many keys the events watch, at most. *)
Definition watches (e : event) : Z := match e with Watch _ keys => Z.of_nat (length keys) | _ => 0 end.
Definition total_watches (es : list event) : Z := foldr (λ e n, watches e + n) 0 es.
End spec.
