(* ===== verification/MultiSim.v ===== *)
(** Transactions: the server simulates the specification with versions. *)
From stdpp Require Import gmap.
From S2P Require Import Prelude Dict DictIter Adlist Multi MultiTheorems MultiSpec.
#[local] Open Scope Z_scope.

Section sim.
Context `{DictType K} `{DictGlobals} `{Zmalloc} {C W : Type}.
Context (permitted : W → C → bool) (call : W → C → W * list (nat * K * option (option Z))).
Abbreviation server := (mserver (K := K) (C := C) (W := W)).
Implicit Types (s : server) (a : spec (K := K) (C := C) (W := W)) (vs : gmap (nat * K) nat) (v : aclient (K := K) (C := C)) (sc : sclient (K := K) (C := C)).

(** ** Versions *)

Definition bump vs (p : nat * K) : gmap (nat * K) nat := <[p := S (version vs p)]> vs.

Lemma version_bump vs p q : version (bump vs p) q = if decide (q = p) then S (version vs p) else version vs q.
Proof. unfold version, bump. case_decide as E; [subst q; by rewrite lookup_insert_eq|by rewrite lookup_insert_ne]. Qed.

Lemma stale_true vs w : stale vs w = true ↔ ∃ p x, (p, x) ∈ w ∧ version vs p ≠ x.
Proof.
  unfold stale. rewrite existsb_exists. split.
  - intros ([p x] & Hin & Hne). exists p, x. rewrite list_elem_of_In. split; [done|]. by apply negb_true_iff, Nat.eqb_neq in Hne.
  - intros (p & x & Hin & Hne). exists (p, x). rewrite <- list_elem_of_In. split; [done|]. by apply negb_true_iff, Nat.eqb_neq.
Qed.

Lemma stale_false vs w : stale vs w = false ↔ ∀ p x, (p, x) ∈ w → version vs p = x.
Proof.
  rewrite <- not_true_iff_false, stale_true. split.
  - intros Hn p x Hin. destruct (decide (version vs p = x)) as [|Hne]; [done|]. destruct Hn. by exists p, x.
  - intros Ha (p & x & Hin & Hne). by apply Hne, Ha.
Qed.

(** ** The relation *)

Record client_rel vs v sc : Prop := {
  r_db : a_db v = sc_db sc;
  r_multi : a_multi v = sc_multi sc;
  r_exec : a_exec v = sc_aborted sc;
  r_cas : a_cas v = stale vs (sc_watch sc);
  r_watched : a_watched v = if a_cas v then [] else (sc_watch sc).*1;
  r_cmds : a_cas v = false → a_exec v = false → a_cmds v = sc_cmds sc;
  r_idle : a_multi v = false → a_cmds v = [] ∧ sc_cmds sc = [];
  r_le : ∀ p x, (p, x) ∈ sc_watch sc → (x <= version vs p)%nat;
}.

Record rel (n : Z) s a : Prop := {
  s_inv : inv n s;
  s_now : m_now s = sp_now a;
  s_rest : m_rest s = sp_rest a;
  s_keys : keyspace s = sp_keys a;
  s_clients : ∀ c, option_Forall2 (client_rel (sp_ver a)) (aview s c) (sp_clients a !! c);
  s_dbs : ∀ c sc, sp_clients a !! c = Some sc → (sc_db sc < length (sp_keys a))%nat;
}.

Lemma rel_client n s a c sc : rel n s a → sp_clients a !! c = Some sc → ∃ cl, clients s !! c = Some cl ∧ client_rel (sp_ver a) (view s cl) sc.
Proof.
  intros Hrel Hsc. pose proof (s_clients _ _ _ Hrel c) as Hc. rewrite Hsc in Hc. unfold aview in Hc. destruct (clients s !! c) as [cl|]; inversion Hc; subst. by exists cl.
Qed.

Lemma rel_put n m s s' a c v sc : rel n s a → inv m s' → same_data s s' → (∀ c', aview s' c' = if decide (c' = c) then Some v else aview s c') →
  client_rel (sp_ver a) v sc → (sc_db sc < length (sp_keys a))%nat → rel m s' (sp_put a c sc).
Proof.
  intros Hrel Hinv (Hnow & Hrest & Hk) Hv Hc Hdb. destruct Hrel. constructor; cbn [sp_now sp_rest sp_keys sp_put sp_clients sp_ver]; try congruence.
  - intros c'. rewrite Hv. case_decide as Hd; [subst c'; rewrite lookup_insert_eq; by constructor|by rewrite lookup_insert_ne].
  - intros c' sc' [(<- & <-)|(_ & Hc')]%lookup_insert_Some; eauto.
Qed.

(** A client that is put back. *)
Lemma rel_flags n s a c cl cl' sc : rel n s a → clients s !! c = Some cl → watched_keys cl' = watched_keys cl → client_rel (sp_ver a) (view s cl') sc → (sc_db sc < length (sp_keys a))%nat →
  rel n (put_client s c cl') (sp_put a c sc).
Proof.
  intros Hrel Hcl Hw Hc Hdb. eapply rel_put; try done; [by eapply inv_flags; [apply Hrel| |]|intros c'; by rewrite aview_put].
Qed.

Lemma sp_put_id a c sc : sp_clients a !! c = Some sc → sp_put a c sc = a.
Proof. intros Hc. unfold sp_put. rewrite insert_id by done. by destruct a. Qed.

(** ** A key is changed *)

Lemma touch_rel vs v sc i k : client_rel vs v sc → client_rel (bump vs (i, k)) (touch_view i k v) sc.
Proof.
  intros Hr. assert (Hle : ∀ p x, (p, x) ∈ sc_watch sc → (x <= version (bump vs (i, k)) p)%nat).
  { intros p x Hin. pose proof (r_le _ _ _ Hr p x Hin). rewrite version_bump. case_decide; subst; lia. }
  pose proof (r_watched _ _ _ Hr) as Hw. pose proof (r_cas _ _ _ Hr) as Hcas. unfold touch_view. destruct (a_cas v) eqn:Ev.
  - rewrite Hw, decide_False by (by intros ?%elem_of_nil). constructor; try apply Hr; try congruence; [|done].
    rewrite Ev. symmetry in Hcas |- *. rewrite stale_true in *. destruct Hcas as (p & x & Hin & Hne). exists p, x. split; [done|]. pose proof (r_le _ _ _ Hr p x Hin). rewrite version_bump. case_decide; subst; lia.
  - symmetry in Hcas. rewrite stale_false in Hcas. rewrite Hw. case_decide as Hin.
    + constructor; cbn [a_db a_multi a_exec a_cas a_watched a_cmds dirtied]; try apply Hr; try done. symmetry. apply stale_true.
      apply list_elem_of_fmap in Hin as ([p x] & -> & Hin). exists p, x. split; [done|]. rewrite version_bump, decide_True by done. cbn. rewrite <- (Hcas p x Hin). lia.
    + constructor; try apply Hr; try done. rewrite Ev. symmetry. apply stale_false. intros p x Hx. rewrite version_bump, decide_False; [by apply Hcas|]. intros ->. apply Hin, list_elem_of_fmap. by exists (i, k, x).
Qed.

Lemma change_rel n s a i k x : rel n s a → (i < length (sp_keys a))%nat → ∃ s', change_key s i k x = Some s' ∧ rel n s' (sp_change a (i, k, x)).
Proof.
  intros Hrel Hi. unfold change_key. rewrite <- (s_keys _ _ _ Hrel) in Hi. unfold keyspace in Hi. rewrite length_fmap in Hi. destruct (lookup_lt_is_Some_2 _ _ Hi) as [db Hdb].
  rewrite Hdb. mnext. cbv zeta. unfold signalModifiedKey. fold (set_key k x (db_keys db)). set (s1 := set_dbs s _).
  assert (Hinv1 : inv n s1) by (eapply inv_db; [apply Hrel|done| |done]; by apply (i_tab _ _ (s_inv _ _ _ Hrel) i db)).
  destruct (touch_spec n s1 i (mk_mdb (set_key k x (db_keys db)) (db_watched db)) k Hinv1) as (s' & -> & Hinv' & (Hnow & Hrest & Hk) & Hv); [cbn; by rewrite list_lookup_insert_eq|].
  exists s'. split; [done|]. destruct Hrel as [? Hn Hr Hks Hcl Hd]. constructor; cbn [sp_change sp_now sp_rest sp_keys sp_ver sp_clients]; [done|by rewrite Hnow|by rewrite Hrest| | |].
  - rewrite Hk, <- Hks. unfold keyspace, s1. cbn [dbs set_dbs]. rewrite list_fmap_insert. cbn. apply list_eq. intros j.
    destruct (decide (j = i)) as [->|Hne]; [rewrite list_lookup_insert_eq by (by rewrite length_fmap); by rewrite list_lookup_alter_eq, list_lookup_fmap, Hdb|by rewrite list_lookup_insert_ne, list_lookup_alter_ne].
  - intros c. rewrite Hv. pose proof (Hcl c) as Hc. change (aview s1 c) with (aview s c). destruct Hc as [v sc Hc|]; constructor. by apply touch_rel.
  - intros c sc. rewrite length_alter. apply Hd.
Qed.

Lemma changes_rel n cs : ∀ s a, rel n s a → (∀ i k x, (i, k, x) ∈ cs → (i < length (sp_keys a))%nat) → ∃ s', change_keys s cs = Some s' ∧ rel n s' (foldl sp_change a cs).
Proof.
  induction cs as [|[[i k] x] cs IH]; intros s a Hrel Hok; [by exists s|]. cbn [change_keys foldl]. destruct (change_rel n s a i k x Hrel) as (s1 & -> & Hrel1); [apply (Hok i k x); by left|]. mnext.
  apply IH; [done|]. intros j k' x' Hin. cbn. rewrite length_alter. apply (Hok j k' x'). by right.
Qed.

Lemma change_length a ch : length (sp_keys (sp_change a ch)) = length (sp_keys a).
Proof. destruct ch as [[i k] x]. cbn. by rewrite length_alter. Qed.

Lemma changes_length cs : ∀ a, length (sp_keys (foldl sp_change a cs)) = length (sp_keys a).
Proof. induction cs as [|ch cs IH]; intros a; [done|]. cbn [foldl]. by rewrite IH, change_length. Qed.

(** ** Commands *)

(** The commands change the keys of the databases of the server. *)
Definition in_range (dbnum : nat) : Prop := ∀ w cmd i k x, (i, k, x) ∈ snd (call w cmd) → (i < dbnum)%nat.

Lemma run_rel n s a cmd : rel n s a → in_range (length (sp_keys a)) → ∃ s', run_command call s cmd = Some s' ∧ rel n s' (sp_run call a cmd) ∧ length (sp_keys (sp_run call a cmd)) = length (sp_keys a).
Proof.
  intros Hrel Hok. unfold run_command, sp_run. rewrite (s_rest _ _ _ Hrel). specialize (Hok (sp_rest a) cmd). destruct (call (sp_rest a) cmd) as [w cs]. cbn [snd] in Hok.
  destruct (changes_rel n cs (set_rest s w) (mk_spec (sp_now a) w (sp_keys a) (sp_ver a) (sp_clients a))) as (s' & -> & Hrel').
  - destruct Hrel as [Hi]. constructor; try done. destruct Hi. by constructor.
  - exact Hok.
  - exists s'. split_and!; [done|done|]. by rewrite changes_length.
Qed.

Lemma run_all_rel n cmds : ∀ s a rs, rel n s a → in_range (length (sp_keys a)) →
  ∃ s', exec_loop permitted call s cmds rs = Some (s', snd (sp_run_all permitted call a cmds rs)) ∧ rel n s' (fst (sp_run_all permitted call a cmds rs)).
Proof.
  induction cmds as [|cmd cmds IH]; intros s a rs Hrel Hok; [by exists s|]. cbn [exec_loop sp_run_all]. rewrite (s_rest _ _ _ Hrel). destruct (permitted (sp_rest a) cmd).
  - destruct (run_rel n s a cmd Hrel Hok) as (s1 & -> & Hrel1 & Hlen). mnext. apply IH; [done|]. by rewrite Hlen.
  - by apply IH.
Qed.

(** ** WATCH *)

Lemma expired_same n s a i db k : rel n s a → dbs s !! i = Some db → keyIsExpired s db k = sp_expired a (i, k).
Proof.
  intros Hrel Hdb. unfold keyIsExpired, sp_expired. cbn [fst snd]. rewrite <- (s_keys _ _ _ Hrel). unfold keyspace. rewrite list_lookup_fmap, Hdb. cbn. by rewrite (s_now _ _ _ Hrel).
Qed.

Lemma watch_client_rel a v sc k : client_rel (sp_ver a) v sc → a_cas v = false → client_rel (sp_ver a) (watch_view (sc_db sc) k v) (sp_watch_key a sc k).
Proof.
  intros Hr Hcas. pose proof (r_watched _ _ _ Hr) as Hw. rewrite Hcas in Hw. unfold watch_view, sp_watch_key. rewrite Hw. case_decide as Hin; [done|].
  pose proof (r_cas _ _ _ Hr) as Hst. rewrite Hcas in Hst. symmetry in Hst. rewrite stale_false in Hst.
  constructor; cbn [a_db a_multi a_cas a_exec a_cmds a_watched sc_db sc_multi sc_aborted sc_cmds sc_watch]; try apply Hr.
  - rewrite Hcas. symmetry. apply stale_false. intros p x [Hx|[= -> ->]%list_elem_of_singleton]%elem_of_app; [by apply Hst|done].
  - by rewrite Hcas, fmap_app.
  - intros p x [Hx|[= -> ->]%list_elem_of_singleton]%elem_of_app; [by apply (r_le _ _ _ Hr)|done].
Qed.

Lemma watch_dirty_rel a v sc k : client_rel (sp_ver a) v sc → a_cas v = true → client_rel (sp_ver a) v (sp_watch_key a sc k).
Proof.
  intros Hr Hcas. unfold sp_watch_key. case_decide as Hin; [done|]. constructor; cbn [sc_db sc_multi sc_aborted sc_cmds sc_watch]; try apply Hr.
  - rewrite Hcas. symmetry. pose proof (r_cas _ _ _ Hr) as Hst. rewrite Hcas in Hst. symmetry in Hst. rewrite stale_true in *. destruct Hst as (p & x & Hx & Hne). exists p, x. split; [|done]. apply elem_of_app. by left.
  - rewrite Hcas. pose proof (r_watched _ _ _ Hr) as Hw. by rewrite Hcas in Hw.
  - intros p x [Hx|[= -> ->]%list_elem_of_singleton]%elem_of_app; [by apply (r_le _ _ _ Hr)|done].
Qed.

Lemma watch_db a sc k : sc_db (sp_watch_key a sc k) = sc_db sc.
Proof. unfold sp_watch_key. by case_decide. Qed.

Lemma sp_put_put a c sc sc' : sp_put (sp_put a c sc) c sc' = sp_put a c sc'.
Proof. unfold sp_put. cbn. by rewrite insert_insert_eq. Qed.

Lemma watch_key_rel n s a c sc k : rel n s a → n + 1 < 2 ^ 60 → sp_clients a !! c = Some sc → stale (sp_ver a) (sc_watch sc) = false → sp_expired a (sc_db sc, k) = false →
  ∃ s', watchForKey s c k = Some s' ∧ rel (n + 1) s' (sp_put a c (sp_watch_key a sc k)) ∧ stale (sp_ver a) (sc_watch (sp_watch_key a sc k)) = false.
Proof.
  intros Hrel Hn Hsc Hst Hexp. destruct (rel_client n s a c sc Hrel Hsc) as (cl & Hcl & Hr). pose proof (s_dbs _ _ _ Hrel c sc Hsc) as Hdb. pose proof (r_db _ _ _ Hr) as Ed. cbn in Ed.
  assert (Hlt : (c_db cl < length (dbs s))%nat) by (rewrite Ed; rewrite <- (s_keys _ _ _ Hrel) in Hdb; unfold keyspace in Hdb; by rewrite length_fmap in Hdb).
  destruct (lookup_lt_is_Some_2 _ _ Hlt) as [db Hdb']. assert (Hcas : a_cas (view s cl) = false) by (by rewrite (r_cas _ _ _ Hr)).
  destruct (watch_spec n s c cl db k (s_inv _ _ _ Hrel) Hn Hcl Hdb') as (s' & -> & Hinv' & Hsd & Hv); [by rewrite (expired_same n s a (c_db cl)), Ed|]. rewrite Ed in Hv.
  pose proof (watch_client_rel a _ _ k Hr Hcas) as Hr'. exists s'. split_and!; [done| |].
  - eapply rel_put; try done. by rewrite watch_db.
  - rewrite <- (r_cas _ _ _ Hr'). unfold watch_view. by case_decide.
Qed.

Lemma watch_keys_rel keys a c : ∀ n s sc, rel n s (sp_put a c sc) → n + Z.of_nat (length keys) < 2 ^ 60 → stale (sp_ver a) (sc_watch sc) = false →
  forallb (λ k, negb (sp_expired a (sc_db sc, k))) keys = true →
  ∃ s', foldl (λ (o : option server) k, s ← o; watchForKey s c k) (Some s) keys = Some s' ∧ rel (n + Z.of_nat (length keys)) s' (sp_put a c (foldl (sp_watch_key a) sc keys)).
Proof.
  induction keys as [|k keys IH]; intros n s sc Hrel Hn Hst Hexp.
  { exists s. split; [done|]. cbn [length foldl]. by rewrite Z.add_0_r. }
  cbn [foldl length forallb] in *. apply andb_true_iff in Hexp as [He Hexp]. apply negb_true_iff in He.
  destruct (watch_key_rel n s (sp_put a c sc) c sc k Hrel) as (s1 & E & Hrel1 & Hst1); [lia|by apply lookup_insert_eq|done|done|]. rewrite some_bind, E. rewrite sp_put_put in Hrel1.
  change (sp_watch_key (sp_put a c sc) sc k) with (sp_watch_key a sc k) in *.
  destruct (IH (n + 1) s1 (sp_watch_key a sc k)) as (s' & -> & Hrel'); [done|lia|done|by rewrite watch_db|]. exists s'. split; [done|]. by replace (n + Z.of_nat (S (length keys))) with (n + 1 + Z.of_nat (length keys)) by lia.
Qed.

Lemma watch_dirty_all keys a v : ∀ sc, client_rel (sp_ver a) v sc → a_cas v = true → client_rel (sp_ver a) v (foldl (sp_watch_key a) sc keys).
Proof. induction keys as [|k keys IH]; intros sc Hr Hcas; [done|]. cbn [foldl]. apply IH; [|done]. by apply watch_dirty_rel. Qed.

Lemma watch_keys_db keys a : ∀ sc, sc_db (foldl (sp_watch_key a) sc keys) = sc_db sc.
Proof. induction keys as [|k keys IH]; intros sc; [done|]. cbn [foldl]. by rewrite IH, watch_db. Qed.

Lemma rel_mono n m s a : n <= m → rel n s a → rel m s a.
Proof. intros Hnm []. constructor; try done. by eapply inv_mono. Qed.

(** The relation, when only the client of the specification changes. *)
Lemma rel_same n s a c cl sc : rel n s a → clients s !! c = Some cl → client_rel (sp_ver a) (view s cl) sc → (sc_db sc < length (sp_keys a))%nat → rel n s (sp_put a c sc).
Proof.
  intros Hrel Hcl Hc Hdb. eapply rel_put; try done; [apply Hrel|]. intros c'. case_decide; [subst|done]. unfold aview. by rewrite Hcl.
Qed.

Lemma watch_command_rel n s a c sc keys : rel n s a → n + Z.of_nat (length keys) < 2 ^ 60 → sp_clients a !! c = Some sc → forallb (λ k, negb (sp_expired a (sc_db sc, k))) keys = true →
  ∃ s' r, watchCommand s c keys = Some (s', r) ∧ rel (n + Z.of_nat (length keys)) s' (fst (client_step permitted call a c sc (Watch c keys))) ∧ snd (client_step permitted call a c sc (Watch c keys)) = Some r.
Proof.
  intros Hrel Hn Hsc Hexp. destruct (rel_client n s a c sc Hrel Hsc) as (cl & Hcl & Hr). unfold watchCommand. rewrite Hcl. mnext. cbn [client_step]. rewrite <- (r_multi _ _ _ Hr).
  change (a_multi (view s cl)) with (f_multi cl). destruct (f_multi cl) eqn:Em; [exists s, ReplyError; split_and!; [done| |done]; eapply rel_mono; [|done]; lia|].
  destruct (f_dirty_cas cl) eqn:Ec.
  - exists s, ReplyOk. split_and!; [done| |done]. eapply (rel_mono n); [lia|]. eapply rel_same; try done; [by apply watch_dirty_all|]. rewrite watch_keys_db. by apply (s_dbs _ _ _ Hrel c).
  - destruct (watch_keys_rel keys a c n s sc) as (s' & -> & Hrel'); [by rewrite sp_put_id|done|by rewrite <- (r_cas _ _ _ Hr)|done|]. exists s', ReplyOk. done.
Qed.

(** ** The end of a transaction *)

Lemma put_client_put s c cl cl' : put_client (put_client s c cl) c cl' = put_client s c cl'.
Proof. unfold put_client. cbn. unfold set_clients. cbn. by rewrite insert_insert_eq. Qed.

Lemma put_client_id s c cl : clients s !! c = Some cl → put_client s c cl = s.
Proof. intros Hc. unfold put_client. rewrite insert_id by done. by destruct s. Qed.

Lemma reset_rel vs v sc : a_db v = sc_db sc → a_multi v = false → a_cas v = false → a_exec v = false → a_cmds v = [] → a_watched v = [] → client_rel vs v (sc_reset sc).
Proof. intros ? Hm Hc He Hcm Hw. constructor; cbn [sc_reset sc_db sc_multi sc_aborted sc_cmds sc_watch]; try done; [by rewrite Hc, Hw|by intros p x ?%elem_of_nil]. Qed.

Lemma discard_rel n s a c cl cl' sc : rel n s a → clients s !! c = Some cl → sp_clients a !! c = Some sc → watched_keys cl' = watched_keys cl → c_db cl' = c_db cl →
  ∃ s', discardTransaction (put_client s c cl') c = Some s' ∧ rel n s' (sp_put a c (sc_reset sc)).
Proof.
  intros Hrel Hcl Hsc Hw Hd. unfold discardTransaction. cbn [clients put_client set_clients]. rewrite lookup_insert_eq. mnext. cbv zeta. rewrite put_client_put. set (cl1 := set_mflags _ _ _ _ _).
  assert (Hinv1 : inv n (put_client s c cl1)) by (eapply inv_flags; [apply Hrel|done|done]).
  destruct (unwatch_view n (put_client s c cl1) c cl1 Hinv1) as (s' & -> & Hinv' & Hsd & Hv & _); [cbn; by rewrite lookup_insert_eq|]. exists s'. split; [done|].
  destruct (rel_client n s a c sc Hrel Hsc) as (cl0 & Hcl0 & Hr). rewrite Hcl in Hcl0. injection Hcl0 as <-.
  eapply (rel_put n n s s' a c (no_watch (view (put_client s c cl1) cl1))); try done; [|apply reset_rel; try done; cbn; rewrite Hd; apply Hr|by apply (s_dbs _ _ _ Hrel c sc)].
  intros c'. rewrite Hv. case_decide; [done|]. rewrite aview_put. by rewrite decide_False.
Qed.

Lemma unwatch_command_rel n s a c sc : rel n s a → sp_clients a !! c = Some sc → sc_multi sc = false →
  ∃ s', unwatchCommand s c = Some (s', ReplyOk) ∧ rel n s' (sp_put a c (mk_sclient (sc_db sc) (sc_multi sc) (sc_aborted sc) (sc_cmds sc) [])).
Proof.
  intros Hrel Hsc Hm. destruct (rel_client n s a c sc Hrel Hsc) as (cl & Hcl & Hr). unfold unwatchCommand.
  destruct (unwatch_view n s c cl (s_inv _ _ _ Hrel) Hcl) as (s1 & -> & Hinv1 & Hsd & Hv & _ & _ & Ecl). mnext. rewrite Ecl, lookup_insert_eq. mnext. eexists. split; [done|].
  eapply (rel_put n n s _ a c); try done; [eapply inv_flags; [done|by rewrite Ecl, lookup_insert_eq|done]| | |by apply (s_dbs _ _ _ Hrel c sc)].
  - intros c'. rewrite aview_put. case_decide; [done|]. by rewrite Hv, decide_False.
  - assert (Hvm : a_multi (view s cl) = false) by (by rewrite (r_multi _ _ _ Hr)). destruct (r_idle _ _ _ Hr Hvm) as [Hc1 Hc2].
    constructor; cbn [sc_db sc_multi sc_aborted sc_cmds sc_watch]; try apply Hr; try done; [intros _ _; by rewrite Hc2|by intros p x ?%elem_of_nil].
Qed.

(** ** EXEC *)

Lemma expired_loop_rel n s a ws : rel n s a → (∀ w, w ∈ ws → is_Some (wks s !! w)) → expired_loop s ws = Some (existsb (λ p, sp_expired a p) (omap (pair_of s) ws)).
Proof.
  intros Hrel. induction ws as [|w ws IH]; intros Hall; [done|]. cbn [expired_loop omap list_omap]. destruct (Hall w) as [wk Hwk]; [by left|]. unfold pair_of at 1. rewrite Hwk. mnext. cbn [fmap option_fmap option_map].
  destruct (i_wk _ _ (s_inv _ _ _ Hrel) w wk Hwk) as (_ & [l Hl] & ->). destruct (tab_db _ _ _ _ Hl) as (db & Hdb & _). rewrite Hdb. mnext. rewrite (expired_same n s a (wk_db wk)) by done. cbn [existsb].
  destruct (sp_expired a (wk_db wk, wk_key wk)); [done|]. apply IH. intros x Hx. apply Hall. by right.
Qed.

Lemma isWatchedKeyExpired_rel n s a c cl : rel n s a → clients s !! c = Some cl → isWatchedKeyExpired s c = Some (existsb (λ p, sp_expired a p) (a_watched (view s cl))).
Proof.
  intros Hrel Hcl. unfold isWatchedKeyExpired. rewrite Hcl. mnext. apply (expired_loop_rel n); [done|]. intros w Hw. apply (i_client _ _ (s_inv _ _ _ Hrel) _ _ Hcl) in Hw as (wk & Hwk & _). by exists wk.
Qed.

Lemma change_put a c sc ch : sp_change (sp_put a c sc) ch = sp_put (sp_change a ch) c sc.
Proof. by destruct ch as [[i k] x]. Qed.

Lemma changes_put c sc cs : ∀ a, foldl sp_change (sp_put a c sc) cs = sp_put (foldl sp_change a cs) c sc.
Proof. induction cs as [|ch cs IH]; intros a; [done|]. cbn [foldl]. by rewrite change_put, IH. Qed.

Lemma run_put a c sc cmd : sp_run call (sp_put a c sc) cmd = sp_put (sp_run call a cmd) c sc.
Proof. unfold sp_run. cbn [sp_rest sp_put]. destruct (call (sp_rest a) cmd) as [w cs]. apply (changes_put c sc cs (mk_spec (sp_now a) w (sp_keys a) (sp_ver a) (sp_clients a))). Qed.

Lemma run_rest a c sc cmds : ∀ rs, sp_run_all permitted call (sp_put a c sc) cmds rs = (sp_put (fst (sp_run_all permitted call a cmds rs)) c sc, snd (sp_run_all permitted call a cmds rs)).
Proof.
  revert a. induction cmds as [|cmd cmds IH]; intros a rs; [done|]. cbn [sp_run_all sp_rest sp_put]. destruct (permitted (sp_rest a) cmd); [rewrite run_put|]; apply IH.
Qed.

(** The transaction runs: during it the client has its commands, and watches nothing. *)
Lemma exec_run_rel n s a c cl sc : rel n s a → in_range (length (sp_keys a)) → clients s !! c = Some cl → sp_clients a !! c = Some sc →
  f_multi cl = true → f_dirty_cas cl = false → f_dirty_exec cl = false →
  ∃ s1 s2, unwatchAllKeys (put_client s c (set_mflags cl (f_multi cl) (f_dirty_cas cl) (f_dirty_exec cl) true)) c = Some s1 ∧
    exec_loop permitted call s1 (mcommands cl) [] = Some (s2, snd (sp_run_all permitted call a (sc_cmds sc) [])) ∧
    rel n s2 (sp_put (fst (sp_run_all permitted call a (sc_cmds sc) [])) c (mk_sclient (sc_db sc) true false (sc_cmds sc) [])).
Proof.
  intros Hrel Hok Hcl Hsc Em Ec Ee. destruct (rel_client n s a c sc Hrel Hsc) as (cl0 & Hcl0 & Hr). rewrite Hcl in Hcl0. injection Hcl0 as <-.
  pose proof (r_cmds _ _ _ Hr Ec Ee) as Hcm. cbn in Hcm. rewrite Em, Ec, Ee. set (cl1 := set_mflags cl true false false true).
  assert (Hinv1 : inv n (put_client s c cl1)) by (eapply inv_flags; [apply Hrel|done|done]).
  destruct (unwatch_view n (put_client s c cl1) c cl1 Hinv1) as (s1 & -> & Hinv2 & Hsd & Hv & _); [cbn; by rewrite lookup_insert_eq|].
  assert (Hrel1 : rel n s1 (sp_put a c (mk_sclient (sc_db sc) true false (sc_cmds sc) []))).
  { eapply (rel_put n n s s1 a c (no_watch (view (put_client s c cl1) cl1))); try done; [| |by apply (s_dbs _ _ _ Hrel c sc)].
    - intros c'. rewrite Hv. case_decide; [done|]. by rewrite aview_put, decide_False.
    - constructor; cbn [sc_db sc_multi sc_aborted sc_cmds sc_watch]; try done; [apply (r_db _ _ _ Hr)|by intros p x ?%elem_of_nil]. }
  destruct (run_all_rel n (mcommands cl) s1 _ [] Hrel1) as (s2 & Hrun & Hrel2); [done|]. rewrite Hcm, run_rest in Hrun, Hrel2. cbn [fst snd] in Hrun, Hrel2.
  exists s1, s2. rewrite Hcm. done.
Qed.

Lemma exec_rel n s a c sc : rel n s a → in_range (length (sp_keys a)) → sp_clients a !! c = Some sc →
  ∃ s', execCommand permitted call s c = Some (s', snd (sp_exec permitted call a c sc)) ∧ rel n s' (fst (sp_exec permitted call a c sc)).
Proof.
  intros Hrel Hok Hsc. destruct (rel_client n s a c sc Hrel Hsc) as (cl & Hcl & Hr). unfold execCommand, sp_exec. rewrite Hcl. mnext. rewrite <- (r_multi _ _ _ Hr).
  change (a_multi (view s cl)) with (f_multi cl). destruct (f_multi cl) eqn:Em; cbn [negb]; [|by exists s].
  rewrite (isWatchedKeyExpired_rel n s a c cl Hrel Hcl). mnext. cbv zeta. rewrite <- (r_exec _ _ _ Hr), <- (r_cas _ _ _ Hr). cbn [a_exec a_cas view]. rewrite (r_watched _ _ _ Hr). cbn [a_cas view].
  destruct (f_dirty_cas cl) eqn:Ec; [|destruct (existsb _ (sc_watch sc).*1) eqn:Eexp]; cbn [existsb orb].
  - rewrite Ec. cbn [orb]. destruct (discard_rel n s a c cl cl sc Hrel Hcl Hsc eq_refl eq_refl) as (s' & -> & Hrel'). mnext. exists s'. by destruct (f_dirty_exec cl).
  - cbn [set_dirty_cas set_mflags f_dirty_cas f_dirty_exec orb]. destruct (discard_rel n s a c cl (set_dirty_cas cl) sc Hrel Hcl Hsc eq_refl eq_refl) as (s' & E & Hrel').
    unfold set_dirty_cas, set_mflags in E |- *. rewrite E. mnext. exists s'. by destruct (f_dirty_exec cl).
  - rewrite Ec. cbn [orb]. destruct (f_dirty_exec cl) eqn:Ee.
    + destruct (discard_rel n s a c cl cl sc Hrel Hcl Hsc eq_refl eq_refl) as (s' & -> & Hrel'). mnext. by exists s'.
    + destruct (exec_run_rel n s a c cl sc Hrel Hok Hcl Hsc Em Ec Ee) as (s1 & s2 & Hun & Hrun & Hrel2). rewrite Ec, Ee in Hun. rewrite put_client_put, Hun. mnext. rewrite Hrun. mnext.
      rewrite run_rest. destruct (sp_run_all permitted call a (sc_cmds sc) []) as [a2 rs]. cbn [fst snd] in *.
      set (sc2 := mk_sclient (sc_db sc) true false (sc_cmds sc) []) in *. destruct (rel_client n s2 _ c sc2 Hrel2) as (cl2 & Hcl2 & _); [cbn; by rewrite lookup_insert_eq|]. rewrite Hcl2. mnext. cbv zeta.
      assert (Hfin : ∀ cl', watched_keys cl' = watched_keys cl2 → c_db cl' = c_db cl2 → ∃ s', discardTransaction (put_client s2 c cl') c = Some s' ∧ rel n s' (sp_put a2 c (sc_reset sc))).
      { intros cl' Hw Hd. destruct (discard_rel n s2 _ c cl2 cl' sc2 Hrel2 Hcl2) as (s' & -> & Hrel'); [cbn; by rewrite lookup_insert_eq|done|done|]. rewrite sp_put_put in Hrel'. by exists s'. }
      destruct (f_deny_blocking cl).
      * destruct (Hfin cl2) as (s' & E & Hrel'); [done|done|]. rewrite put_client_id in E by done. rewrite E. mnext. by exists s'.
      * destruct (Hfin (set_mflags cl2 (f_multi cl2) (f_dirty_cas cl2) (f_dirty_exec cl2) false)) as (s' & -> & Hrel'); [done|done|]. mnext. by exists s'.
Qed.

(** ** Clients *)

Lemma inv_new n s c cl : inv n s → clients s !! c = None → watched_keys cl = [] → inv n (put_client s c cl).
Proof.
  intros Hinv Hc Hw. assert (Hne : ∀ w wk, wks s !! w = Some wk → wk_client wk ≠ c) by (intros w wk Hwk <-; destruct (i_wk _ _ Hinv w wk Hwk) as ([? ?] & _); congruence).
  constructor; try apply Hinv.
  - intros c' cl'. cbn [clients put_client set_clients wks]. intros [(<- & <-)|(_ & Hc')]%lookup_insert_Some; [|by apply (i_client _ _ Hinv)]. rewrite Hw. split; [apply NoDup_nil_2|].
    intros w. split; [by intros ?%elem_of_nil|]. intros (wk & Hwk & E). by destruct (Hne w wk Hwk).
  - intros w wk Hwk. cbn [clients put_client set_clients]. rewrite lookup_insert_ne by (symmetry; by eapply Hne). by apply (i_wk _ _ Hinv w).
Qed.

Lemma inv_gone n s c cl : inv n s → clients s !! c = Some cl → watched_keys cl = [] → inv n (set_clients s (delete c (clients s))).
Proof.
  intros Hinv Hc Hw. constructor; try apply Hinv.
  - intros c' cl'. cbn [clients set_clients wks]. intros [_ Hc']%lookup_delete_Some. by apply (i_client _ _ Hinv).
  - intros w wk Hwk. cbn [clients set_clients]. rewrite lookup_delete_ne; [by apply (i_wk _ _ Hinv w)|]. intros ->. assert (Hin : w ∈ watched_keys cl) by (apply (i_client _ _ Hinv _ _ Hc); by exists wk). rewrite Hw in Hin. by apply elem_of_nil in Hin.
Qed.

Lemma connect_rel n s a c : rel n s a → sp_clients a !! c = None → (0 < length (sp_keys a))%nat → rel n (create_mclient s c) (sp_put a c (mk_sclient 0 false false [] [])).
Proof.
  intros Hrel Hc Hdb. pose proof (s_clients _ _ _ Hrel c) as Hv. rewrite Hc in Hv. unfold aview in Hv. destruct (clients s !! c) as [cl|] eqn:Ec; [inversion Hv|].
  eapply rel_put; try done; [by apply inv_new; [apply Hrel| |]|intros c'; apply aview_put|]. constructor; try done. by intros p x ?%elem_of_nil.
Qed.

Lemma free_rel n s a c sc : rel n s a → sp_clients a !! c = Some sc → ∃ s', free_mclient s c = Some s' ∧ rel n s' (mk_spec (sp_now a) (sp_rest a) (sp_keys a) (sp_ver a) (delete c (sp_clients a))).
Proof.
  intros Hrel Hsc. destruct (rel_client n s a c sc Hrel Hsc) as (cl & Hcl & Hr). unfold free_mclient.
  destruct (unwatch_view n s c cl (s_inv _ _ _ Hrel) Hcl) as (s1 & -> & Hinv1 & (Hnow & Hrest & Hk) & Hv & _ & _ & Ecl). mnext. eexists. split; [done|]. destruct Hrel as [_ Hn Hre Hks Hcs Hdb].
  constructor; cbn [sp_now sp_rest sp_keys sp_ver sp_clients]; [by eapply (inv_gone n s1 c (set_watched cl [])); [|rewrite Ecl; apply lookup_insert_eq|]|by rewrite <- Hn|by rewrite <- Hre|by rewrite <- Hks| |].
  - intros c'. destruct (decide (c' = c)) as [->|Hne]; [unfold aview; cbn [clients set_clients]; rewrite !lookup_delete_eq; constructor|]. rewrite lookup_delete_ne by done. unfold aview. cbn [clients set_clients]. rewrite lookup_delete_ne by done.
    pose proof (Hcs c') as Hc'. rewrite <- (decide_False (P := c' = c) (Some (no_watch (view s cl))) (aview s c')) in Hc' by done. rewrite <- Hv in Hc'. exact Hc'.
  - intros c' sc' [_ Hc']%lookup_delete_Some. by eapply Hdb.
Qed.

(** ** One event *)

Lemma run_length a cmd : length (sp_keys (sp_run call a cmd)) = length (sp_keys a).
Proof. unfold sp_run. destruct (call (sp_rest a) cmd) as [w cs]. by rewrite changes_length. Qed.

Lemma run_all_length cmds : ∀ a rs, length (sp_keys (fst (sp_run_all permitted call a cmds rs))) = length (sp_keys a).
Proof. induction cmds as [|cmd cmds IH]; intros a rs; [done|]. cbn [sp_run_all]. destruct (permitted (sp_rest a) cmd); [|by rewrite IH]. rewrite IH. apply run_length. Qed.

Lemma exec_length a c sc : length (sp_keys (fst (sp_exec permitted call a c sc))) = length (sp_keys a).
Proof.
  unfold sp_exec. destruct (sc_multi sc); [|done]. destruct (sc_aborted sc); [done|]. cbn [negb]. case_if; [done|]. rewrite run_rest. destruct (sp_run_all permitted call a (sc_cmds sc) []) as [a' rs] eqn:E.
  cbn [fst]. change (sp_keys (sp_put a' c (sc_reset sc))) with (sp_keys a'). rewrite <- (run_all_length (sc_cmds sc) a []). by rewrite E.
Qed.

Lemma multi_rel n s a c sc : rel n s a → sp_clients a !! c = Some sc →
  ∃ s' r, multiCommand s c = Some (s', r) ∧ snd (client_step permitted call a c sc (Begin c)) = Some r ∧ rel n s' (fst (client_step permitted call a c sc (Begin c))).
Proof.
  intros Hrel Hsc. destruct (rel_client n s a c sc Hrel Hsc) as (cl & Hcl & Hr). unfold multiCommand. rewrite Hcl. mnext. cbn [client_step]. rewrite <- (r_multi _ _ _ Hr).
  change (a_multi (view s cl)) with (f_multi cl). destruct (f_multi cl) eqn:Em; [by exists s, ReplyError|]. eexists _, ReplyOk. split_and!; [done|done|]. cbn [fst].
  eapply rel_flags; try done; [|by apply (s_dbs _ _ _ Hrel c sc)]. constructor; cbn [sc_db sc_multi sc_aborted sc_cmds sc_watch]; try apply Hr; try done.
Qed.

Lemma discard_command_rel n s a c sc : rel n s a → sp_clients a !! c = Some sc →
  ∃ s' r, discardCommand s c = Some (s', r) ∧ snd (client_step permitted call a c sc (Discard c)) = Some r ∧ rel n s' (fst (client_step permitted call a c sc (Discard c))).
Proof.
  intros Hrel Hsc. destruct (rel_client n s a c sc Hrel Hsc) as (cl & Hcl & Hr). unfold discardCommand. rewrite Hcl. mnext. cbn [client_step]. rewrite <- (r_multi _ _ _ Hr).
  change (a_multi (view s cl)) with (f_multi cl). destruct (f_multi cl) eqn:Em; cbn [negb]; [|by exists s, ReplyError].
  destruct (discard_rel n s a c cl cl sc Hrel Hcl Hsc eq_refl eq_refl) as (s' & E & Hrel'). rewrite put_client_id in E by done. rewrite E. mnext. by exists s', ReplyOk.
Qed.

Lemma other_rel n s a c sc cmd : rel n s a → in_range (length (sp_keys a)) → sp_clients a !! c = Some sc →
  ∃ s', processOther call s c cmd = Some s' ∧ rel n s' (fst (client_step permitted call a c sc (Command c cmd))).
Proof.
  intros Hrel Hok Hsc. destruct (rel_client n s a c sc Hrel Hsc) as (cl & Hcl & Hr). unfold processOther, queueMultiCommand. rewrite Hcl. mnext. cbn [client_step fst]. rewrite <- (r_multi _ _ _ Hr).
  change (a_multi (view s cl)) with (f_multi cl). destruct (f_multi cl) eqn:Em; [|destruct (run_rel n s a cmd Hrel Hok) as (s1 & E1 & Hrel1 & _); by exists s1]. mnext.
  pose proof (s_dbs _ _ _ Hrel c sc Hsc) as Hdb. destruct (f_dirty_cas cl || f_dirty_exec cl) eqn:Ed; (eexists; split; [done|]).
  - eapply rel_same; try done. constructor; cbn [sc_db sc_multi sc_aborted sc_cmds sc_watch]; try apply Hr; try done; [|cbn; congruence].
    intros Ec Ee. cbn in Ec, Ee. by rewrite Ec, Ee in Ed.
  - apply orb_false_iff in Ed as [Ec Ee]. eapply rel_flags; try done. constructor; cbn [sc_db sc_multi sc_aborted sc_cmds sc_watch]; try apply Hr; try done; [|cbn; congruence].
    intros _ _. cbn. f_equal. by apply (r_cmds _ _ _ Hr).
Qed.

Lemma reject_rel n s a c sc : rel n s a → sp_clients a !! c = Some sc → ∃ s', flagTransaction s c = Some s' ∧ rel n s' (fst (client_step permitted call a c sc (Reject c))).
Proof.
  intros Hrel Hsc. destruct (rel_client n s a c sc Hrel Hsc) as (cl & Hcl & Hr). unfold flagTransaction. rewrite Hcl. mnext. cbn [client_step fst]. rewrite <- (r_multi _ _ _ Hr).
  change (a_multi (view s cl)) with (f_multi cl). eexists. split; [done|]. destruct (f_multi cl) eqn:Em; [|done].
  eapply rel_flags; try done; [|by apply (s_dbs _ _ _ Hrel c sc)]. constructor; cbn [sc_db sc_multi sc_aborted sc_cmds sc_watch]; try apply Hr; try done.
Qed.

Lemma select_rel n s a c sc i : rel n s a → sp_clients a !! c = Some sc → sc_multi sc = false → ∃ s', select_db s c i = Some s' ∧ rel n s' (fst (client_step permitted call a c sc (Select c i))).
Proof.
  intros Hrel Hsc Hm. destruct (rel_client n s a c sc Hrel Hsc) as (cl & Hcl & Hr). unfold select_db. rewrite Hcl. mnext. cbn [client_step fst]. eexists. split; [done|].
  assert (length (dbs s) = length (sp_keys a)) as -> by (rewrite <- (s_keys _ _ _ Hrel); unfold keyspace; by rewrite length_fmap). case_bool_decide as Hi; [|done].
  eapply rel_flags; try done. constructor; cbn [sc_db sc_multi sc_aborted sc_cmds sc_watch]; try apply Hr; done.
Qed.

Lemma client_step_length a c sc e : length (sp_keys (fst (client_step permitted call a c sc e))) = length (sp_keys a).
Proof.
  destruct e; cbn [client_step fst]; try done; try (by destruct (sc_multi sc)); [|destruct (sc_multi sc); [done|apply run_length]|by case_bool_decide].
  pose proof (exec_length a c sc) as He. by destruct (sp_exec permitted call a c sc).
Qed.

Lemma client_step_rel n s a c sc e : rel n s a → in_range (length (sp_keys a)) → sp_clients a !! c = Some sc → event_client e = Some c → allowed a e = true → n + watches e < 2 ^ 60 →
  ∃ s', server_step permitted call s e = Some (s', snd (client_step permitted call a c sc e)) ∧ rel (n + watches e) s' (fst (client_step permitted call a c sc e)).
Proof.
  intros Hrel Hok Hsc Hec Hal Hn. destruct e; cbn [event_client] in Hec; try done; injection Hec as ->; cbn [server_step watches allowed] in *; rewrite ?Z.add_0_r in *; unfold with_reply, no_reply.
  - rewrite Hsc in Hal. destruct (watch_command_rel n s a c sc keys Hrel Hn Hsc Hal) as (s' & r & -> & Hrel' & ->). mnext. by exists s'.
  - unfold known, in_multi in Hal. rewrite Hsc in Hal. cbn [andb] in Hal. apply negb_true_iff in Hal. destruct (unwatch_command_rel n s a c sc Hrel Hsc Hal) as (s' & -> & Hrel'). mnext. by exists s'.
  - destruct (multi_rel n s a c sc Hrel Hsc) as (s' & r & -> & -> & Hrel'). mnext. by exists s'.
  - destruct (discard_command_rel n s a c sc Hrel Hsc) as (s' & r & -> & -> & Hrel'). mnext. by exists s'.
  - destruct (exec_rel n s a c sc Hrel Hok Hsc) as (s' & -> & Hrel'). mnext. exists s'. cbn [client_step]. by destruct (sp_exec permitted call a c sc).
  - destruct (other_rel n s a c sc cmd Hrel Hok Hsc) as (s' & -> & Hrel'). mnext. by exists s'.
  - destruct (reject_rel n s a c sc Hrel Hsc) as (s' & -> & Hrel'). mnext. by exists s'.
  - unfold known, in_multi in Hal. rewrite Hsc in Hal. cbn [andb] in Hal. apply negb_true_iff in Hal. destruct (select_rel n s a c sc i Hrel Hsc Hal) as (s' & -> & Hrel'). mnext. by exists s'.
  - destruct (free_rel n s a c sc Hrel Hsc) as (s' & -> & Hrel'). mnext. by exists s'.
Qed.

Lemma step_rel n s a e : rel n s a → (0 < length (sp_keys a))%nat → in_range (length (sp_keys a)) → allowed a e = true → n + watches e < 2 ^ 60 →
  ∃ s' a' r, server_step permitted call s e = Some (s', r) ∧ sp_step permitted call a e = Some (a', r) ∧ rel (n + watches e) s' a' ∧ length (sp_keys a') = length (sp_keys a).
Proof.
  intros Hrel Hpos Hok Hal Hn. assert (Hclient : ∀ c, event_client e = Some c → ∃ sc, sp_clients a !! c = Some sc).
  { intros c Hc. destruct (sp_clients a !! c) as [sc|] eqn:Ec; [by exists sc|]. destruct e; cbn in Hc; try done; injection Hc as ->; unfold allowed, known in Hal; by rewrite Ec in Hal. }
  destruct (event_client e) as [c|] eqn:Ec.
  - destruct (Hclient c eq_refl) as (sc & Hsc). destruct (client_step_rel n s a c sc e Hrel Hok Hsc Ec Hal Hn) as (s' & -> & Hrel').
    exists s', (fst (client_step permitted call a c sc e)), (snd (client_step permitted call a c sc e)). split_and!; [done| |done|apply client_step_length].
    assert (sp_step permitted call a e = c ← event_client e; sc ← sp_clients a !! c; Some (client_step permitted call a c sc e)) as -> by (by destruct e).
    rewrite Ec. mnext. rewrite Hsc. mnext. by destruct (client_step permitted call a c sc e).
  - destruct e; cbn [event_client] in Ec; try done; cbn [server_step sp_step watches allowed] in *; rewrite ?Z.add_0_r in *.
    + unfold known in Hal. destruct (sp_clients a !! c) eqn:Hc; [done|]. eexists _, _, _. split_and!; [done|done|by apply connect_rel|done].
    + apply bool_decide_eq_true in Hal. destruct (change_rel n s a i k v Hrel Hal) as (s' & E & Hrel'). rewrite E. eexists _, _, _. split_and!; [done|done|done|apply change_length].
    + eexists _, _, _. split_and!; [done|done| |done]. destruct Hrel as [Hi]. constructor; try done. destruct Hi. by constructor.
Qed.

Lemma trace_rel es : ∀ n s a a' rs, rel n s a → (0 < length (sp_keys a))%nat → in_range (length (sp_keys a)) → n + total_watches es < 2 ^ 60 → 0 <= n →
  sp_trace permitted call a es = Some (a', rs) → ∃ s', server_run permitted call s es = Some (s', rs) ∧ rel (n + total_watches es) s' a' ∧ length (sp_keys a') = length (sp_keys a).
Proof.
  induction es as [|e es IH]; intros n s a a' rs Hrel Hpos Hok Hn Hn0.
  { cbn. intros [= <- <-]. exists s. by rewrite Z.add_0_r. }
  cbn [sp_trace server_run total_watches foldr] in *. fold (total_watches es) in *. assert (Hw : ∀ e : event, 0 <= watches (K := K) (C := C) e) by (intros []; cbn; lia).
  assert (Ht : 0 <= total_watches es) by (clear - Hw; induction es as [|x es IH]; cbn; [lia|]; fold (total_watches es); specialize (Hw x); lia).
  pose proof (Hw e). destruct (allowed a e) eqn:Hal; [|done].
  destruct (step_rel n s a e Hrel Hpos Hok Hal) as (s1 & a1 & r & -> & -> & Hrel1 & Hlen); [lia|]. mnext. rewrite some_bind. cbv beta iota.
  destruct (sp_trace permitted call a1 es) as [[a2 rs2]|] eqn:Etr; [|done]. rewrite some_bind. intros [= <- <-].
  destruct (IH (n + watches e) s1 a1 a2 rs2) as (s' & -> & Hrel' & Hlen'); [done|by rewrite Hlen|by rewrite Hlen|lia|lia|done|]. mnext. exists s'. by rewrite Z.add_assoc, Hlen'.
Qed.
End sim.
