(* ===== verification/MultiCas.v ===== *)
(** Transactions: the server implements the specification with versions, from its start;
    EXEC does nothing when a watched key was changed; and the states, outside of this, in
    which a change of a watched key is missed. *)
From stdpp Require Import gmap.
From S2P Require Import Prelude Dict DictIter Adlist AdlistTheorems Multi MultiTheorems MultiSpec MultiSim.
#[local] Open Scope Z_scope.

Section cas.
Context `{DictType K} `{DictGlobals} `{Zmalloc} {C W : Type}.
Context (permitted : W → C → bool) (call : W → C → W * list (nat * K * option (option Z))).
Implicit Types (a : spec (K := K) (C := C) (W := W)) (sc : sclient (K := K) (C := C)) (e : event (K := K) (C := C)).

(** The server at its start, with the keys it has loaded and no client. *)
Definition boot (now : Z) (rest : W) (keys : list (gmap K (option Z))) : mserver (K := K) (C := C) (W := W) :=
  mk_mserver now rest ((λ m, mk_mdb m dictCreate) <$> keys) ∅ ∅ ∅.
Definition sp_boot (now : Z) (rest : W) (keys : list (gmap K (option Z))) : spec (K := K) (C := C) (W := W) := mk_spec now rest keys ∅ ∅.

Lemma boot_rel now rest keys : rel 0 (boot now rest keys) (sp_boot now rest keys).
Proof.
  assert (Ht : ∀ i k, tab (boot now rest keys) i k = None).
  { intros i k. unfold tab, boot. cbn [dbs]. rewrite list_lookup_fmap. destruct (keys !! i) as [m|]; [|done]. reflexivity. }
  constructor; try done.
  - constructor; try done.
    + intros i db. unfold boot. cbn [dbs]. rewrite list_lookup_fmap. intros Hdb. apply fmap_Some in Hdb as (m & _ & ->). cbn [db_watched]. split; [apply wf_null|done].
    + intros i k l. by rewrite Ht.
    + intros i k i' k' l. by rewrite Ht.
    + intros l [? Hl]. done.
  - unfold keyspace, boot, sp_boot. cbn [dbs sp_keys]. rewrite <- list_fmap_compose. rewrite <- (list_fmap_id keys) at 2. by apply list_fmap_ext.
  - intros c. unfold aview, boot, sp_boot. cbn. rewrite !lookup_empty. constructor.
Qed.

Lemma rel_empty n s a : rel n s a → sp_clients a = ∅ → wks s = ∅ ∧ wlists s = ∅.
Proof.
  intros Hrel He. assert (Hw : wks s = ∅).
  { apply map_empty. intros w. destruct (wks s !! w) as [wk|] eqn:Ew; [|done]. destruct (i_wk _ _ (s_inv _ _ _ Hrel) w wk Ew) as ([cl Hcl] & _). pose proof (s_clients _ _ _ Hrel (wk_client wk)) as Hc.
    rewrite He, lookup_empty in Hc. unfold aview in Hc. rewrite Hcl in Hc. inversion Hc. }
  split; [done|]. apply map_empty. intros l. destruct (wlists s !! l) as [ws|] eqn:El; [|done]. destruct (i_leak _ _ (s_inv _ _ _ Hrel) l) as (i & k & Ht); [by exists ws|].
  destruct (i_list _ _ (s_inv _ _ _ Hrel) _ _ _ Ht) as ([|w us] & _ & Hne & _ & Hm); [done|]. destruct (proj1 (Hm w)) as (wk & Hwk & _); [by left|]. by rewrite Hw in Hwk.
Qed.

(** C9: (MULTI, EXEC, DISCARD, WATCH, UNWATCH: multi.c) From the start of the server and for
    any sequence of events (connections, disconnections, commands of any client, changes of
    keys, time) that a specification with a version of each key accepts ([allowed]: the keys
    that are watched have not expired, UNWATCH and SELECT are not queued in a transaction;
    FLUSHDB and SWAPDB are not events), the server takes all of them: no watched key or list
    is used after it was freed, no assertion fails; the replies and the data are those of
    the specification, where EXEC compares the versions of the keys with those at WATCH; and
    when all the clients are gone, so are all the watched keys and their lists. *)
Theorem multi_refines now rest keys es a rs :
  keys ≠ [] → in_range call (length keys) → total_watches es < 2 ^ 60 → sp_trace permitted call (sp_boot now rest keys) es = Some (a, rs) →
  ∃ s, server_run permitted call (boot now rest keys) es = Some (s, rs) ∧ keyspace s = sp_keys a ∧ m_rest s = sp_rest a ∧
    (∀ c, is_Some (clients s !! c) ↔ is_Some (sp_clients a !! c)) ∧ (sp_clients a = ∅ → wks s = ∅ ∧ wlists s = ∅).
Proof.
  intros Hk Hok Hn Htr. destruct (trace_rel permitted call es 0 (boot now rest keys) (sp_boot now rest keys) a rs) as (s & Hrun & Hrel & _); try done; [apply boot_rel|cbn; destruct keys; [done|cbn; lia]|].
  exists s. split_and!; [done|apply Hrel|apply Hrel| |by eapply rel_empty].
  intros c. pose proof (s_clients _ _ _ Hrel c) as Hc. unfold aview in Hc. destruct (clients s !! c), (sp_clients a !! c); inversion Hc; subst; [by split|split; by intros [? ?]].
Qed.

(** ** What a client watches *)





















(** C35: (touchWatchedKey, multi.c) The loop over the clients that watch a key stops at one
    whose key had expired when it was watched, if the key exists.  In every state in which
    such a client is the first of the list of a key, setting the key changes it and marks
    no client at all: not those after it in the list, which may watch a live key and are to
    be aborted at EXEC. *)
Theorem touch_expired_missed (s : mserver (K := K) (C := C) (W := W)) i key (x : option Z) db d l w ws wk :
  dbs s !! i = Some db → dictFetchValue (db_watched db) key = Some (d, Some l) → wlists s !! l = Some (w :: ws) → wks s !! w = Some wk → wk_expired wk = true →
  ∃ s', change_key s i key (Some x) = Some s' ∧ clients s' = clients s ∧ wks s' = wks s ∧ wlists s' = wlists s ∧ keyspace s' = <[i := <[key := x]> (db_keys db)]> (keyspace s).
Proof.
  intros Hdb Hf Hl Hw He. assert (Hi : (i < length (dbs s))%nat) by (by eapply lookup_lt_Some). unfold change_key, signalModifiedKey, touchWatchedKey. rewrite Hdb. mnext. cbn [dbs set_dbs]. rewrite list_lookup_insert_eq by done. mnext. cbn [db_watched].
  destruct (dictSize (db_watched db) =? 0) eqn:Es; [unfold dictFetchValue, dictFind in Hf; by rewrite Es in Hf|]. rewrite Hf. mnext. cbn [wlists put_table set_dbs]. rewrite Hl. mnext. cbn [length hd_error touch_loop wlists put_table set_dbs wks dbs]. rewrite Hl. mnext. cbn [node_after]. rewrite bool_decide_true by done. mnext. rewrite Hw. mnext. rewrite He.
  rewrite list_insert_insert_eq, list_lookup_insert_eq by done. mnext. unfold key_exists. cbn [db_keys]. rewrite lookup_insert_eq. cbn [negb]. rewrite andb_false_r. eexists. split; [done|]. split_and!; try done. unfold keyspace. cbn [dbs put_table set_dbs]. by rewrite list_insert_insert_eq, list_fmap_insert.
Qed.
End cas.

(** ** An instance: commands that set a key of database 0 *)

#[local] Existing Instance example_type.
#[local] Existing Instance dictEnableResize.
#[local] Existing Instance least_malloc.

Definition anything (_ : unit) (_ : Z) : bool := true.
Definition set_cmd (_ : unit) (key : Z) : unit * list (nat * Z * option (option Z)) := ((), [(0%nat, key, Some None)]).

Lemma set_cmd_range : in_range set_cmd 1.
Proof. intros w cmd i k x [= -> -> ->]%list_elem_of_singleton. lia. Qed.

Definition sample_events : list (event (K := Z) (C := Z)) :=
  [Connect 0; Connect 1; Watch 0 [1; 5]; Watch 1 [2; 5]; Begin 0; Command 0 7; Begin 1; Command 1 8; Command 1 1; Exec 1; Exec 0; Disconnect 1; Disconnect 0].
Definition sample_keys : list (gmap Z (option Z)) := [{[1 := None; 5 := Some 200]}].
Definition sample_spec (es : list (event (K := Z) (C := Z))) : spec (K := Z) (C := Z) (W := unit) :=
  match sp_trace anything set_cmd (sp_boot 100 () sample_keys) es with Some (a, _) => a | None => sp_boot 100 () sample_keys end.

Lemma multi_refines_witness :
  ∃ s, server_run anything set_cmd (boot 100 () sample_keys) sample_events =
         Some (s, [None; None; Some ReplyOk; Some ReplyOk; Some ReplyOk; None; Some ReplyOk; None; None; Some (ReplyArray [true; true]); Some ReplyNull; None; None]) ∧
    wks s = ∅ ∧ wlists s = ∅.
Proof.
  destruct (multi_refines anything set_cmd 100 () sample_keys sample_events (sample_spec sample_events)
    [None; None; Some ReplyOk; Some ReplyOk; Some ReplyOk; None; Some ReplyOk; None; None; Some (ReplyArray [true; true]); Some ReplyNull; None; None]) as (s & Hrun & _ & _ & _ & He);
    [done|apply set_cmd_range|by vm_compute|vm_compute; reflexivity|].
  exists s. split; [exact Hrun|]. apply He. vm_compute. reflexivity.
Defined.


(** Client 0 watches a key that has expired but is still there, which is then replaced;
    client 1 watches the new key, and queues a command. *)
Definition expired_events : list (event (K := Z) (C := Z)) :=
  [Connect 0; Connect 1; Watch 0 [1]; Change 0 1 (Some None); Watch 1 [1]; Begin 1; Command 1 7].
Definition expired_state : mserver (K := Z) (C := Z) (W := unit) :=
  match server_run anything set_cmd (boot 100 () [{[1 := Some 50]}]) expired_events with Some (s, _) => s | None => boot 100 () [] end.

(** After the key is changed again client 1 is not marked, and its EXEC runs the command. *)
Lemma touch_expired_missed_witness :
  wlists expired_state !! 1%positive = Some [1%positive; 2%positive] ∧ (wk_expired <$> wks expired_state !! 2%positive) = Some false ∧
  ∃ s', change_key expired_state 0 1 (Some (Some 300)) = Some s' ∧ (f_dirty_cas <$> clients s' !! 1%nat) = Some false ∧
    snd <$> execCommand anything set_cmd s' 1 = Some (ReplyArray [true]).
Proof.
  split; [vm_compute; reflexivity|]. split; [vm_compute; reflexivity|].
  destruct (touch_expired_missed expired_state 0 1 (Some 300) (mk_mdb {[1 := None]} (match dbs expired_state !! 0%nat with Some db => db_watched db | None => dictCreate end))
    (match dbs expired_state !! 0%nat with Some db => db_watched db | None => dictCreate end) 1 1 [2%positive] (mk_wk 1 0 0 true)) as (s' & E & Hc & _);
    [vm_compute; reflexivity|vm_compute; reflexivity|vm_compute; reflexivity|vm_compute; reflexivity|done|].
  exists s'. split; [exact E|]. split; [rewrite Hc; vm_compute; reflexivity|]. vm_compute in E. injection E as <-. vm_compute. reflexivity.
Defined.
