(* ===== verification/Zipmap.v ===== *)
(** String to string maps in one block: src/redis-7.0.0/src/zipmap.c.

    A zipmap is a count, the pairs, and an end byte: [<zmlen><len>key<len><free>value...
    <255>].  A length below 254 is one byte, any other the byte 254 and four bytes, least
    significant first.  [free] is the number of unused bytes after the value.

    The block is a list of bytes and a pointer an offset from its start; the lengths are
    unsigned ints and wrap as in C. *)
From S2P Require Import Prelude Endian.

Definition ZIPMAP_BIGLEN : Z := 254.
Definition ZIPMAP_END : Z := 255.
Definition ZIPMAP_VALUE_MAX_FREE : Z := 4.
Definition ZIPMAP_LEN_BYTES (l : Z) : Z := if l <? ZIPMAP_BIGLEN then 1 else 5.

Section zipmap.
Context `{Host}.
(** The unspecified value of bytes freshly obtained from the allocator. *)
Context (junk : Z).

Definition zipmapNew : option (list Z) :=
  m ← store8 (realloc junk [] 2) 0 0; store8 m 1 ZIPMAP_END.

Definition zipmapDecodeLength (m : list Z) (p : Z) : option Z :=
  l ← load8 m p;
  if l <? ZIPMAP_BIGLEN then Some l
  else
    bs ← load m (p + 1) 4;
    bs ← memrev32ifbe bs 0;
    Some (host_val bs).

Definition zipmapGetEncodedLengthSize (m : list Z) (p : Z) : option Z :=
  b ← load8 m p; Some (if b <? ZIPMAP_BIGLEN then 1 else 5).

(** With [p] not NULL: the new block and the bytes written. *)
Definition zipmapEncodeLength (m : list Z) (p l : Z) : option (list Z * Z) :=
  if l <? ZIPMAP_BIGLEN then m ← store8 m p l; Some (m, 1)
  else
    m ← store8 m p ZIPMAP_BIGLEN;
    m ← store m (p + 1) (host_bytes 4 l);
    m ← memrev32ifbe m (p + 1);
    Some (m, 5).

(** [key != NULL && k == NULL && l == klen && !memcmp(p+llen,key,l)] *)
Definition zip_key_match (m : list Z) (p l llen : Z) (key : option (list Z)) (k : option Z) : option bool :=
  match key, k with
  | Some key, None => if l =? len key then bs ← load m (p + llen) l; Some (bool_decide (bs = key)) else Some false
  | _, _ => Some false
  end.

(** The entry found, and where the loop ended; the loop returns at the entry when the
    total length is not wanted. *)
Fixpoint lookup_loop (fuel : nat) (m : list Z) (p : Z) (key : option (list Z)) (k : option Z) (total : bool) : option (option Z * Z) :=
  match fuel with
  | O => None
  | S fuel =>
    b ← load8 m p;
    if b =? ZIPMAP_END then Some (k, p)
    else
      l ← zipmapDecodeLength m p;
      let llen := ZIPMAP_LEN_BYTES l in
      found ← zip_key_match m p l llen key k;
      if found && negb total then Some (Some p, p)
      else
        let k := if found then Some p else k in
        let p := p + u32 (llen + l) in
        l ← zipmapDecodeLength m p;
        let p := p + ZIPMAP_LEN_BYTES l in
        free ← load8 m p;
        lookup_loop fuel m (p + u32 (l + 1 + free)) key k total
  end.
Definition zipmapLookupRaw (m : list Z) (key : option (list Z)) (total : bool) : option (option Z * Z) :=
  '(k, p) ← lookup_loop (length m) m 1 key None total;
  Some (k, u32 (p + 1)).

Definition zipmapRequiredLength (klen vlen : Z) : Z :=
  let l := u32 (klen + vlen + 3) in
  let l := if klen >=? ZIPMAP_BIGLEN then u32 (l + 4) else l in
  if vlen >=? ZIPMAP_BIGLEN then u32 (l + 4) else l.

Definition zipmapRawKeyLength (m : list Z) (p : Z) : option Z :=
  l ← zipmapDecodeLength m p; Some (u32 (ZIPMAP_LEN_BYTES l + l)).

Definition zipmapRawValueLength (m : list Z) (p : Z) : option Z :=
  l ← zipmapDecodeLength m p;
  let used := ZIPMAP_LEN_BYTES l in
  free ← load8 m (p + used);
  Some (u32 (used + (free + 1 + l))).

Definition zipmapRawEntryLength (m : list Z) (p : Z) : option Z :=
  l ← zipmapRawKeyLength m p;
  v ← zipmapRawValueLength m (p + l);
  Some (u32 (l + v)).

Definition zipmapResize (m : list Z) (n : Z) : option (list Z) :=
  store8 (realloc junk m n) (u32 (n - 1)) ZIPMAP_END.

(** The pair is written at [p], with [vempty] unused bytes after it. *)
Definition zip_write_pair (m : list Z) (p : Z) (key val : list Z) (vempty : Z) : option (list Z) :=
  '(m, n) ← zipmapEncodeLength m p (len key);
  let p := p + n in
  m ← store m p key;
  let p := p + len key in
  '(m, n) ← zipmapEncodeLength m p (len val);
  let p := p + n in
  m ← store8 m p vempty;
  store m (p + 1) val.

(** The block and [*update]. *)
Definition zipmapSet (m key val : list Z) : option (list Z * bool) :=
  let reqlen := zipmapRequiredLength (len key) (len val) in
  '(p, zmlen) ← zipmapLookupRaw m (Some key) true;
  '(m, p, zmlen, freelen, update) ←
    match p with
    | None =>
      m ← zipmapResize m (u32 (zmlen + reqlen));
      h ← load8 m 0;
      m ← (if h <? ZIPMAP_BIGLEN then store8 m 0 (h + 1) else Some m);
      Some (m, zmlen - 1, u32 (zmlen + reqlen), reqlen, false)
    | Some p =>
      freelen ← zipmapRawEntryLength m p;
      if freelen <? reqlen then
        m ← zipmapResize m (u32 (zmlen - freelen + reqlen));
        m ← memmove m (p + reqlen) (p + freelen) (u32 (zmlen - u32 (p + freelen + 1)));
        Some (m, p, u32 (zmlen - freelen + reqlen), reqlen, true)
      else Some (m, p, zmlen, freelen, true)
    end;
  let empty := u32 (freelen - reqlen) in
  '(m, vempty) ←
    (if empty >=? ZIPMAP_VALUE_MAX_FREE then
       m ← memmove m (p + reqlen) (p + freelen) (u32 (zmlen - u32 (p + freelen + 1)));
       m ← zipmapResize m (u32 (zmlen - empty));
       Some (m, 0)
     else Some (m, empty));
  m ← zip_write_pair m p key val vempty;
  Some (m, update).

(** The block and [*deleted]. *)
Definition zipmapDel (m key : list Z) : option (list Z * bool) :=
  '(p, zmlen) ← zipmapLookupRaw m (Some key) true;
  match p with
  | Some p =>
    freelen ← zipmapRawEntryLength m p;
    m ← memmove m p (p + freelen) (u64 (zmlen - (p + freelen + 1)));
    m ← zipmapResize m (u32 (zmlen - freelen));
    h ← load8 m 0;
    m ← (if h <? ZIPMAP_BIGLEN then store8 m 0 (h - 1) else Some m);
    Some (m, true)
  | None => Some (m, false)
  end.

Definition zipmapRewind : Z := 1.

(** The next pointer, and where the key and the value are and their lengths. *)
Definition zipmapNext (m : list Z) (p : Z) : option (option (Z * (Z * Z) * (Z * Z))) :=
  b ← load8 m p;
  if b =? ZIPMAP_END then Some None
  else
    klen ← zipmapDecodeLength m p;
    let key := p + ZIPMAP_LEN_BYTES klen in
    l ← zipmapRawKeyLength m p;
    let p := p + l in
    vlen ← zipmapDecodeLength m p;
    let value := p + 1 + ZIPMAP_LEN_BYTES vlen in
    l ← zipmapRawValueLength m p;
    Some (Some (p + l, (key, klen), (value, vlen))).

(** The value of a key. *)
Definition zipmapGet (m key : list Z) : option (option (Z * Z)) :=
  '(p, _) ← zipmapLookupRaw m (Some key) false;
  match p with
  | None => Some None
  | Some p =>
    l ← zipmapRawKeyLength m p;
    let p := p + l in
    vlen ← zipmapDecodeLength m p;
    Some (Some (p + ZIPMAP_LEN_BYTES vlen + 1, vlen))
  end.

Definition zipmapExists (m key : list Z) : option bool :=
  '(p, _) ← zipmapLookupRaw m (Some key) false;
  Some (match p with Some _ => true | None => false end).

Fixpoint len_loop (fuel : nat) (m : list Z) (p n : Z) : option Z :=
  match fuel with
  | O => None
  | S fuel =>
    r ← zipmapNext m p;
    match r with
    | None => Some n
    | Some (p, _, _) => len_loop fuel m p (u32 (n + 1))
    end
  end.
(** The count, and the block, in which it may be stored again. *)
Definition zipmapLen (m : list Z) : option (Z * list Z) :=
  h ← load8 m 0;
  if h <? ZIPMAP_BIGLEN then Some (h, m)
  else
    n ← len_loop (length m) m zipmapRewind 0;
    m ← (if n <? ZIPMAP_BIGLEN then store8 m 0 n else Some m);
    Some (n, m).

Definition zipmapBlobLen (m : list Z) : option Z :=
  '(_, totlen) ← zipmapLookupRaw m None true; Some totlen.

(** The pairs, as the loop over zipmapNext gives them. *)
Fixpoint pairs_loop (fuel : nat) (m : list Z) (p : Z) : option (list (list Z * list Z)) :=
  match fuel with
  | O => None
  | S fuel =>
    r ← zipmapNext m p;
    match r with
    | None => Some []
    | Some (p, (key, klen), (value, vlen)) =>
      k ← load m key klen;
      v ← load m value vlen;
      rest ← pairs_loop fuel m p;
      Some ((k, v) :: rest)
    end
  end.
Definition zipmap_pairs (m : list Z) : option (list (list Z * list Z)) := pairs_loop (length m) m zipmapRewind.

(** ** The check of untrusted bytes *)

(** [p < zm + 2 || p > zm + size - 1] *)
Definition OUT_OF_RANGE (size p : Z) : bool := (p <? 2) || (p >? size - 1).

(** [None] inside is [return 0]; else the count. *)
Fixpoint zip_validate_loop (fuel : nat) (m : list Z) (size p count : Z) : option (option Z) :=
  match fuel with
  | O => None
  | S fuel =>
    b ← load8 m p;
    if b =? ZIPMAP_END then Some (Some count)
    else
      s ← zipmapGetEncodedLengthSize m p;
      if OUT_OF_RANGE size (p + s) then Some None
      else
        l ← zipmapDecodeLength m p;
        let p := p + s + l in
        if OUT_OF_RANGE size p then Some None
        else
          s ← zipmapGetEncodedLengthSize m p;
          if OUT_OF_RANGE size (p + s) then Some None
          else
            l ← zipmapDecodeLength m p;
            e ← load8 m (p + s);
            let p := p + s + 1 + u32 (l + e) in
            if OUT_OF_RANGE size p then Some None
            else zip_validate_loop fuel m size p (u32 (count + 1))
  end.

Definition zipmapValidateIntegrity (m : list Z) (size : Z) (deep : bool) : option bool :=
  if size <? 2 then Some false
  else
    last ← load8 m (size - 1);
    if negb (last =? ZIPMAP_END) then Some false
    else if negb deep then Some true
    else
      r ← zip_validate_loop (length m) m size 1 0;
      match r with
      | None => Some false
      | Some count =>
        if count =? 0 then Some false
        else
          h ← load8 m 0;
          Some (negb (negb (h =? ZIPMAP_BIGLEN) && negb (h =? count)))
      end.
End zipmap.
