(* ===== verification/ZipmapTheorems.v ===== *)
(** Zipmaps implement maps from strings to strings; the check of untrusted bytes. *)
From S2P Require Import Prelude Endian Zipmap.

(** ** The encoding *)

Definition zip_len (n : Z) : list Z := if n <? 254 then [n] else 254 :: le_bytes 4 n.

(** A pair and the unused bytes after it. *)
Record zentry := mk_zentry { z_key : list Z; z_val : list Z; z_free : list Z }.

Definition enc_entry (e : zentry) : list Z :=
  zip_len (len (z_key e)) ++ z_key e ++ zip_len (len (z_val e)) ++ [len (z_free e)] ++ z_val e ++ z_free e.
Definition enc_all (es : list zentry) : list Z := concat (enc_entry <$> es).
Definition zipmap_block (h : Z) (es : list zentry) : list Z := h :: enc_all es ++ [255].

Record entry_wf (e : zentry) : Prop := {
  e_key : len (z_key e) < 2 ^ 32;
  e_val : len (z_val e) < 2 ^ 32;
  e_free : len (z_free e) < 256;
}.

(** The block of a zipmap: its lengths are unsigned ints, the count is right or not
    stored, no key is there twice. *)
Record zipmap_wf (h : Z) (es : list zentry) : Prop := {
  w_size : len (zipmap_block h es) < 2 ^ 32;
  w_entries : Forall entry_wf es;
  w_count : h = 254 ∨ 0 <= h < 254 ∧ h = len es;
  w_keys : NoDup (z_key <$> es);
}.

Lemma length_enc_len n : len (zip_len n) = ZIPMAP_LEN_BYTES n.
Proof. unfold zip_len, ZIPMAP_LEN_BYTES, ZIPMAP_BIGLEN. destruct (n <? 254); [done|]. cbn [length]. by rewrite length_le_bytes. Qed.

Lemma len_bytes_range n : 1 <= ZIPMAP_LEN_BYTES n <= 5.
Proof. unfold ZIPMAP_LEN_BYTES. case_if; lia. Qed.

Lemma length_enc_entry e : len (enc_entry e) = ZIPMAP_LEN_BYTES (len (z_key e)) + len (z_key e) + ZIPMAP_LEN_BYTES (len (z_val e)) + 1 + len (z_val e) + len (z_free e).
Proof.
  unfold enc_entry. pose proof (length_enc_len (len (z_key e))). pose proof (length_enc_len (len (z_val e))). rewrite !length_app. cbn [length]. lia.
Qed.

Lemma enc_all_app es1 es2 : enc_all (es1 ++ es2) = enc_all es1 ++ enc_all es2.
Proof. unfold enc_all. by rewrite fmap_app, concat_app. Qed.

Lemma enc_all_cons e es : enc_all (e :: es) = enc_entry e ++ enc_all es.
Proof. done. Qed.

Section zipmap.
Context `{Host} (junk : Z).

Lemma decode_enc a n c : 0 <= n < 2 ^ 32 → zipmapDecodeLength (a ++ zip_len n ++ c) (len a) = Some n.
Proof.
  intros Hn. unfold zipmapDecodeLength, zip_len, ZIPMAP_BIGLEN. destruct (n <? 254) eqn:E; to_prop; cbn [app].
  - rewrite load8_app by done. mnext. by if_true.
  - rewrite load8_app by done. mnext. if_false. change (a ++ 254 :: le_bytes 4 n ++ c) with (a ++ [254] ++ le_bytes 4 n ++ c). rewrite app_assoc, load_app by (rewrite ?length_app, ?length_le_bytes; cbn; lia). mnext.
    rewrite (memrevifbe_obj memrev32ifbe 4) by (apply memrev32ifbe_host || apply length_le_bytes || apply le_bytes_ok). mnext.
    rewrite host_val_rev, le_val_bytes. rewrite Z.mod_small by (change (2 ^ (8 * Z.of_nat 4)) with (2 ^ 32); lia). done.
Qed.

Lemma encode_enc a x c n : 0 <= n < 2 ^ 32 → len x = ZIPMAP_LEN_BYTES n → zipmapEncodeLength (a ++ x ++ c) (len a) n = Some (a ++ zip_len n ++ c, ZIPMAP_LEN_BYTES n).
Proof.
  intros Hn Hx. unfold zipmapEncodeLength, zip_len, ZIPMAP_LEN_BYTES, ZIPMAP_BIGLEN in *. destruct (n <? 254) eqn:E; to_prop.
  - destruct x as [|b [|? ?]]; cbn in Hx; try lia. cbn [app]. rewrite store8_app by done. mnext. by rewrite wrapu_small by lia.
  - destruct x as [|b x]; cbn [length] in Hx; [lia|]. cbn [app]. rewrite store8_app by done. mnext. change (u8 254) with 254.
    change (a ++ 254 :: x ++ c) with (a ++ [254] ++ x ++ c). rewrite app_assoc. assert (Hl : length (host_bytes 4 n) = length x) by (rewrite length_host_bytes; lia).
    rewrite (store_app (a ++ [254]) x (host_bytes 4 n) c) by (rewrite ?length_app; cbn; lia). mnext.
    replace (len a + 1) with (len (a ++ [254])) by (rewrite length_app; cbn; lia). rewrite memrev32ifbe_host by (apply length_host_bytes || apply host_bytes_ok). mnext.
    rewrite host_bytes_rev, <- app_assoc. done.
Qed.

(** ** Reading one pair *)

(** The first byte of a length is not the end byte. *)
Lemma enc_len_head n : 0 <= n → ∃ b r, zip_len n = b :: r ∧ b <> 255 ∧ 0 <= b < 255.
Proof. intros Hn. unfold zip_len. destruct (n <? 254) eqn:E; to_prop; eexists _, _; (split; [done|lia]). Qed.

Lemma zip_head a e c : ∃ b, load8 (a ++ enc_entry e ++ c) (len a) = Some b ∧ b ≠ 255.
Proof.
  destruct (enc_len_head (len (z_key e))) as (b & r & Hb & Hne & _); [lia|]. exists b. split; [|done]. unfold enc_entry. rewrite Hb. cbn [app]. by apply load8_app.
Qed.

(** The parts of a pair in its block. *)
Lemma decode_key a e c : entry_wf e → zipmapDecodeLength (a ++ enc_entry e ++ c) (len a) = Some (len (z_key e)).
Proof. intros [Hk _ _]. unfold enc_entry. rewrite <- app_assoc. apply decode_enc. lia. Qed.

Lemma load_key a e c off : off = len a + ZIPMAP_LEN_BYTES (len (z_key e)) → load (a ++ enc_entry e ++ c) off (len (z_key e)) = Some (z_key e).
Proof.
  intros ->. unfold enc_entry. rewrite <- app_assoc, (app_assoc a). rewrite <- (app_assoc (z_key e)). apply load_app; [|done]. rewrite length_app, <- length_enc_len. lia.
Qed.

Lemma decode_val a e c off : entry_wf e → off = len a + ZIPMAP_LEN_BYTES (len (z_key e)) + len (z_key e) → zipmapDecodeLength (a ++ enc_entry e ++ c) off = Some (len (z_val e)).
Proof.
  intros [_ Hv _] ->. unfold enc_entry. rewrite <- app_assoc, (app_assoc a), <- (app_assoc (z_key e)), (app_assoc _ (z_key e)), <- (app_assoc (zip_len (len (z_val e)))).
  replace (len a + _ + _) with (len ((a ++ zip_len (len (z_key e))) ++ z_key e)) by (rewrite !length_app, <- length_enc_len; lia). apply decode_enc. lia.
Qed.

Lemma load_free a e c off : off = len a + ZIPMAP_LEN_BYTES (len (z_key e)) + len (z_key e) + ZIPMAP_LEN_BYTES (len (z_val e)) → load8 (a ++ enc_entry e ++ c) off = Some (len (z_free e)).
Proof.
  intros ->. unfold enc_entry. set (p := zip_len (len (z_key e)) ++ z_key e ++ zip_len (len (z_val e))).
  replace (a ++ _ ++ c) with ((a ++ p) ++ len (z_free e) :: (z_val e ++ z_free e ++ c)) by (unfold p; by rewrite <- !app_assoc). apply load8_app.
  unfold p. rewrite !length_app. pose proof (length_enc_len (len (z_key e))). pose proof (length_enc_len (len (z_val e))). lia.
Qed.

Lemma load_val a e c off : off = len a + ZIPMAP_LEN_BYTES (len (z_key e)) + len (z_key e) + ZIPMAP_LEN_BYTES (len (z_val e)) + 1 → load (a ++ enc_entry e ++ c) off (len (z_val e)) = Some (z_val e).
Proof.
  intros ->. unfold enc_entry. set (p := zip_len (len (z_key e)) ++ z_key e ++ zip_len (len (z_val e)) ++ [len (z_free e)]).
  replace (a ++ _ ++ c) with ((a ++ p) ++ z_val e ++ (z_free e ++ c)) by (unfold p; by rewrite <- !app_assoc). apply load_app; [|done].
  unfold p. rewrite !length_app. cbn [length]. pose proof (length_enc_len (len (z_key e))). pose proof (length_enc_len (len (z_val e))). lia.
Qed.

(** ** Lookup *)

Definition matches (e : zentry) (key : option (list Z)) (k : option Z) : bool :=
  match key, k with Some key, None => bool_decide (z_key e = key) | _, _ => false end.

Lemma key_match_entry a e c key k : zip_key_match (a ++ enc_entry e ++ c) (len a) (len (z_key e)) (ZIPMAP_LEN_BYTES (len (z_key e))) key k = Some (matches e key k).
Proof.
  unfold zip_key_match, matches. destruct key as [key|], k; try done. destruct (len (z_key e) =? len key) eqn:E; to_prop.
  - by rewrite load_key.
  - rewrite bool_decide_false; [done|]. intros Hk. by rewrite Hk in E.
Qed.

Lemma lookup_step fuel a e c key k total : entry_wf e → len (a ++ enc_entry e ++ c) < 2 ^ 32 →
  lookup_loop (S fuel) (a ++ enc_entry e ++ c) (len a) key k total =
    if matches e key k && negb total then Some (Some (len a), len a)
    else lookup_loop fuel (a ++ enc_entry e ++ c) (len a + len (enc_entry e)) key (if matches e key k then Some (len a) else k) total.
Proof.
  intros He Hm. pose proof (length_enc_entry e) as Hl. pose proof (len_bytes_range (len (z_key e))). pose proof (len_bytes_range (len (z_val e))). rewrite !length_app in Hm.
  cbn [lookup_loop]. destruct (zip_head a e c) as (b & -> & Hb). mnext. change ZIPMAP_END with 255. if_false. rewrite decode_key by done. mnext. rewrite key_match_entry. mnext. destruct (matches e key k && negb total); [done|].
  rewrite (wrapu_small 32) by lia. rewrite (decode_val a e c) by (done || lia). mnext. rewrite (load_free a e c) by lia. mnext. rewrite (wrapu_small 32) by lia. f_equal. lia.
Qed.

Lemma lookup_end fuel a key k total : lookup_loop (S fuel) (a ++ [255]) (len a) key k total = Some (k, len a).
Proof. cbn [lookup_loop]. rewrite load8_app by done. mnext. done. Qed.

(** The loop from any pair on. *)
Lemma lookup_rest es : ∀ fuel a key k, Forall entry_wf es → len (a ++ enc_all es ++ [255]) < 2 ^ 32 → (length es < fuel)%nat →
  (∀ κ, key = Some κ → k = None → κ ∉ z_key <$> es) →
  ∀ total, lookup_loop fuel (a ++ enc_all es ++ [255]) (len a) key k total = Some (k, len a + len (enc_all es)).
Proof.
  induction es as [|e es IH]; intros fuel a key k Hwf Hm Hf Hno total.
  - destruct fuel as [|fuel]; [cbn in Hf; lia|]. cbn [enc_all fmap list_fmap concat app]. rewrite lookup_end. do 2 f_equal. cbn. lia.
  - apply Forall_cons in Hwf as [He Hwf]. destruct fuel as [|fuel]; [cbn in Hf; lia|]. rewrite enc_all_cons in *. rewrite <- app_assoc in *.
    rewrite lookup_step by done. assert (matches e key k = false) as ->.
    { unfold matches. destruct key as [κ|], k; try done. apply bool_decide_false. intros E. apply (Hno κ); [done|done|]. rewrite <- E. by left. }
    cbn [andb]. rewrite app_assoc. replace (len a + len (enc_entry e)) with (len (a ++ enc_entry e)) by (rewrite length_app; lia). rewrite app_assoc in Hm. rewrite IH; [|done|done|cbn in Hf; lia|].
    + do 2 f_equal. rewrite !length_app. lia.
    + intros κ Hk Hn Hin. apply (Hno κ Hk Hn). by right.
Qed.

Lemma lookup_found es1 e es2 : ∀ fuel a total, Forall entry_wf (es1 ++ e :: es2) → len (a ++ enc_all (es1 ++ e :: es2) ++ [255]) < 2 ^ 32 → (length (es1 ++ e :: es2) < fuel)%nat → z_key e ∉ z_key <$> es1 →
  lookup_loop fuel (a ++ enc_all (es1 ++ e :: es2) ++ [255]) (len a) (Some (z_key e)) None total =
    Some (Some (len a + len (enc_all es1)), if total then len a + len (enc_all (es1 ++ e :: es2)) else len a + len (enc_all es1)).
Proof.
  induction es1 as [|e1 es1 IH]; intros fuel a total Hwf Hm Hf Hno; (destruct fuel as [|fuel]; [cbn in Hf; lia|]); cbn [app] in *; apply Forall_cons in Hwf as [He Hwf]; rewrite enc_all_cons in *; rewrite <- app_assoc in *; rewrite lookup_step by done.
  - unfold matches. rewrite bool_decide_true by done. destruct total; cbn [andb negb].
    + rewrite app_assoc. replace (len a + len (enc_entry e)) with (len (a ++ enc_entry e)) by (rewrite length_app; lia). rewrite app_assoc in Hm. rewrite lookup_rest; [|done|done|cbn in Hf; lia|done].
      cbn [enc_all fmap list_fmap concat]. f_equal. f_equal; [f_equal; cbn; lia|]. rewrite !length_app. lia.
    + do 3 f_equal; cbn; lia.
  - unfold matches. rewrite bool_decide_false by (intros E; apply Hno; rewrite <- E; by left). cbn [andb]. rewrite app_assoc.
    replace (len a + len (enc_entry e1)) with (len (a ++ enc_entry e1)) by (rewrite length_app; lia). rewrite app_assoc in Hm. rewrite IH; [|done|done|cbn in Hf; lia|intros Hin; apply Hno; by right].
    rewrite enc_all_cons, !length_app. do 2 f_equal; [f_equal; lia|destruct total; lia].
Qed.

Lemma length_block h es : len (zipmap_block h es) = 2 + len (enc_all es).
Proof. unfold zipmap_block. cbn [length]. rewrite length_app. cbn. lia. Qed.

Lemma enc_all_long es : len es <= len (enc_all es).
Proof. induction es as [|e es IH]; [done|]. rewrite enc_all_cons, length_app. pose proof (length_enc_entry e). pose proof (len_bytes_range (len (z_key e))). pose proof (len_bytes_range (len (z_val e))). cbn [length]. lia. Qed.

(** zipmapLookupRaw on a zipmap. *)
Lemma lookup_none h es key : zipmap_wf h es → (∀ κ, key = Some κ → κ ∉ z_key <$> es) → ∀ total, zipmapLookupRaw (zipmap_block h es) key total = Some (None, len (zipmap_block h es)).
Proof.
  intros [Hs Hw _ _] Hno total. unfold zipmapLookupRaw. pose proof (enc_all_long es). rewrite length_block in Hs. change (zipmap_block h es) with ([h] ++ enc_all es ++ [255]) at 1 2. change 1 with (len [h]) at 1.
  rewrite lookup_rest; [|done|cbn [app]; fold (zipmap_block h es); rewrite length_block; lia|rewrite !length_app; cbn; lia|intros; by apply Hno]. mnext. rewrite wrapu_small by (cbn [length]; lia). do 2 f_equal. rewrite length_block. cbn. lia.
Qed.

Lemma lookup_some h es1 e es2 total : zipmap_wf h (es1 ++ e :: es2) →
  zipmapLookupRaw (zipmap_block h (es1 ++ e :: es2)) (Some (z_key e)) total =
    Some (Some (1 + len (enc_all es1)), if total then len (zipmap_block h (es1 ++ e :: es2)) else 2 + len (enc_all es1)).
Proof.
  intros [Hs Hw _ Hk]. unfold zipmapLookupRaw. pose proof (enc_all_long (es1 ++ e :: es2)). rewrite length_block in Hs. change (zipmap_block h (es1 ++ e :: es2)) with ([h] ++ enc_all (es1 ++ e :: es2) ++ [255]) at 1 2. change 1 with (len [h]) at 1.
  assert (Hno : z_key e ∉ z_key <$> es1). { rewrite fmap_app in Hk. apply NoDup_app in Hk as (_ & Hd & _). intros Hin. apply (Hd _ Hin). by left. }
  rewrite lookup_found; [|done|cbn [app]; fold (zipmap_block h (es1 ++ e :: es2)); rewrite length_block; lia|rewrite !length_app in *; cbn in *; lia|done]. mnext. change (len [h]) with 1. f_equal. f_equal.
  rewrite length_block, enc_all_app, length_app in *. rewrite wrapu_small by (destruct total; lia). destruct total; lia.
Qed.

(** ** Writing *)

Definition pair_size (k v : list Z) : Z := ZIPMAP_LEN_BYTES (len k) + len k + ZIPMAP_LEN_BYTES (len v) + 1 + len v.

Lemma required_length k v : pair_size k v < 2 ^ 32 → zipmapRequiredLength (len k) (len v) = pair_size k v.
Proof.
  unfold zipmapRequiredLength, pair_size, ZIPMAP_LEN_BYTES, ZIPMAP_BIGLEN. intros Hs. rewrite (wrapu_small 32 (len k + len v + 3)) by (destruct (len k <? 254), (len v <? 254); lia).
  destruct (len k >=? 254) eqn:E1, (len v >=? 254) eqn:E2, (len k <? 254) eqn:E3, (len v <? 254) eqn:E4; to_prop; try lia; rewrite ?(wrapu_small 32) by (rewrite ?(wrapu_small 32); lia); lia.
Qed.

Lemma pair_size_entry e : len (enc_entry e) = pair_size (z_key e) (z_val e) + len (z_free e).
Proof. rewrite length_enc_entry. unfold pair_size. lia. Qed.

Lemma write_pair_spec a x c k v vempty : len k < 2 ^ 32 → len v < 2 ^ 32 → 0 <= vempty < 256 → len x = pair_size k v + vempty →
  ∃ fr, len fr = vempty ∧ zip_write_pair (a ++ x ++ c) (len a) k v vempty = Some (a ++ enc_entry (mk_zentry k v fr) ++ c).
Proof.
  intros Hk Hv He Hx. unfold pair_size in Hx. pose proof (len_bytes_range (len k)). pose proof (len_bytes_range (len v)).
  destruct (split_bytes x (ZIPMAP_LEN_BYTES (len k))) as (x1 & y1 & -> & Hx1 & L1); [lia|]. destruct (split_bytes y1 (len k)) as (x2 & y2 & -> & Hx2 & L2); [lia|].
  destruct (split_bytes y2 (ZIPMAP_LEN_BYTES (len v))) as (x3 & y3 & -> & Hx3 & L3); [lia|]. destruct y3 as [|b y3]; [cbn in L3; rewrite !length_app in *; cbn in *; lia|].
  assert (L4 : len y3 = len v + vempty) by (rewrite !length_app in *; cbn [length] in *; lia). destruct (split_bytes y3 (len v)) as (x5 & fr & -> & Hx5 & L5); [lia|].
  exists fr. split; [lia|]. unfold zip_write_pair, enc_entry. cbn [z_key z_val z_free].
  rewrite <- !app_assoc. rewrite encode_enc by lia. mnext. rewrite <- length_enc_len in Hx1. pose proof (length_enc_len (len k)) as Lk. pose proof (length_enc_len (len v)) as Lv.
  replace (len a + ZIPMAP_LEN_BYTES (len k)) with (len (a ++ zip_len (len k))) by (rewrite length_app; lia). rewrite (app_assoc a), store_app by (done || lia). mnext.
  replace (len (a ++ zip_len (len k)) + len k) with (len ((a ++ zip_len (len k)) ++ k)) by (rewrite (length_app _ k); lia). rewrite (app_assoc _ k), encode_enc by lia. mnext.
  rewrite (app_assoc _ (zip_len (len v))). set (p := ((a ++ zip_len (len k)) ++ k) ++ zip_len (len v)). replace (len ((a ++ zip_len (len k)) ++ k) + ZIPMAP_LEN_BYTES (len v)) with (len p) by (unfold p; rewrite (length_app _ (zip_len (len v))); lia).
  cbn [app]. rewrite store8_app by done. mnext. rewrite (wrapu_small 8) by lia. rewrite <- (app_assoc x5). change (p ++ vempty :: x5 ++ fr ++ c) with (p ++ [vempty] ++ x5 ++ fr ++ c). rewrite (app_assoc p), store_app by (rewrite ?length_app; cbn; lia).
  unfold p. rewrite <- !app_assoc. replace (len fr) with vempty by lia. done.
Qed.

Lemma raw_entry a e c : entry_wf e → len (a ++ enc_entry e ++ c) < 2 ^ 32 → zipmapRawEntryLength (a ++ enc_entry e ++ c) (len a) = Some (len (enc_entry e)).
Proof.
  intros He Hm. pose proof (length_enc_entry e) as Hl. pose proof (len_bytes_range (len (z_key e))). pose proof (len_bytes_range (len (z_val e))). rewrite !length_app in Hm.
  unfold zipmapRawEntryLength, zipmapRawKeyLength, zipmapRawValueLength. rewrite decode_key by done. mnext. rewrite some_bind, (wrapu_small 32) by lia. rewrite (decode_val a e c) by (done || lia). mnext. rewrite (load_free a e c) by lia. mnext.
  rewrite some_bind. rewrite (wrapu_small 32 (_ + (_ + 1 + _))) by lia. rewrite wrapu_small by lia. f_equal. lia.
Qed.

Lemma zip_resize_spec a s n : len a < n → n < 2 ^ 32 → ∃ g, zipmapResize junk (a ++ s) n = Some (a ++ g ++ [255]) ∧ len a + len g + 1 = n.
Proof.
  intros Ha Hn. unfold zipmapResize. destruct (realloc_keep junk a s n) as (s' & -> & Hs'); [lia|]. destruct (split_bytes s' (len s' - 1)) as (g & l & -> & Hg & Hl); [lia|].
  destruct l as [|b [|? ?]]; cbn [length] in Hl; try lia. exists g. split; [|rewrite !length_app in *; cbn in *; lia]. rewrite app_assoc, store8_app; [by rewrite <- app_assoc|]. rewrite wrapu_small by lia. rewrite !length_app in *. cbn in *. lia.
Qed.

(** Moving a tail [t] to the place [n] bytes after [a]; what follows its new place stays. *)
Lemma memmove_tail (a r t u : list Z) n dst src cnt : 0 <= n → dst = len a + n → src = len a + len r → cnt = len t → n <= len r + len u →
  ∃ g, memmove (a ++ r ++ t ++ u) dst src cnt = Some (a ++ g ++ t ++ drop (Z.to_nat n + length t) (r ++ t ++ u)) ∧ len g = n.
Proof.
  intros Hn -> -> -> Hle. unfold memmove. rewrite app_assoc, (load_app (a ++ r)) by len_lia. mstep. rewrite <- app_assoc, store_skip by done. unfold store, in_range. if_true. mstep.
  exists (take (Z.to_nat n) (r ++ t ++ u)). split; [done|]. len_lia.
Qed.

(** ** zipmapSet *)

Definition pairs (es : list zentry) : list (list Z * list Z) := (λ e, (z_key e, z_val e)) <$> es.

Fixpoint alist_set (k v : list Z) (l : list (list Z * list Z)) : list (list Z * list Z) :=
  match l with
  | [] => [(k, v)]
  | (k', v') :: l => if bool_decide (k' = k) then (k, v) :: l else (k', v') :: alist_set k v l
  end.

Lemma alist_set_absent k v es : k ∉ z_key <$> es → alist_set k v (pairs es) = pairs es ++ [(k, v)].
Proof.
  induction es as [|e es IH]; intros Hk; [done|]. cbn. cbn in Hk. apply not_elem_of_cons in Hk as [Hne Hk]. rewrite bool_decide_false by congruence. f_equal. by apply IH.
Qed.

Lemma alist_set_present k v v' fr es1 es2 fr' : k ∉ z_key <$> es1 → alist_set k v (pairs (es1 ++ mk_zentry k v' fr' :: es2)) = pairs (es1 ++ mk_zentry k v fr :: es2).
Proof.
  induction es1 as [|e es IH]; intros Hk; cbn; [by rewrite bool_decide_true|]. cbn in Hk. apply not_elem_of_cons in Hk as [Hne Hk]. rewrite bool_decide_false by congruence. f_equal. by apply IH.
Qed.

Lemma pair_size_bound k v : len k + len v + 3 <= pair_size k v <= len k + len v + 11.
Proof. unfold pair_size. pose proof (len_bytes_range (len k)). pose proof (len_bytes_range (len v)). lia. Qed.

(** The first and the last bytes of a block. *)
Lemma block_split h es : zipmap_block h es = (h :: enc_all es) ++ [255].
Proof. done. Qed.

Lemma block_entry h es1 e es2 : zipmap_block h (es1 ++ e :: es2) = (h :: enc_all es1) ++ enc_entry e ++ enc_all es2 ++ [255].
Proof. unfold zipmap_block. rewrite enc_all_app, enc_all_cons. cbn [app]. by rewrite <- !app_assoc. Qed.

Lemma store8_head h r b : store8 (h :: r) 0 b = Some (u8 b :: r).
Proof. by apply (store8_app [] h). Qed.

Lemma count_incr h es e : zipmap_wf h es → let h' := if h <? 254 then h + 1 else h in h' = 254 ∨ 0 <= h' < 254 ∧ h' = len (es ++ [e]).
Proof. intros [_ _ Hc _]. cbn zeta. rewrite length_app. cbn [length]. case_if; lia. Qed.

Lemma set_new h es k v : zipmap_wf h es → k ∉ z_key <$> es → len (zipmap_block h es) + pair_size k v < 2 ^ 32 →
  zipmapSet junk (zipmap_block h es) k v = Some (zipmap_block (if h <? 254 then h + 1 else h) (es ++ [mk_zentry k v []]), false).
Proof.
  intros Hwf Hk Hs. pose proof (pair_size_bound k v) as Hb. unfold zipmapSet. rewrite required_length by lia. rewrite (lookup_none h es (Some k) Hwf) by (by intros κ [= <-]). mnext.
  rewrite (wrapu_small 32) by lia. destruct (zip_resize_spec (h :: enc_all es) [255] (len (zipmap_block h es) + pair_size k v)) as (g & Hg & Lg); [rewrite block_split, length_app; cbn; lia|lia|].
  rewrite block_split at 1. rewrite Hg. mnext. cbn [app]. rewrite load8_head. mnext.
  assert (Hst : (if h <? ZIPMAP_BIGLEN then store8 (h :: enc_all es ++ g ++ [255]) 0 (h + 1) else Some (h :: enc_all es ++ g ++ [255])) = Some ((if h <? 254 then h + 1 else h) :: enc_all es ++ g ++ [255])).
  { unfold ZIPMAP_BIGLEN. destruct (h <? 254) eqn:E; [|done]. to_prop. rewrite store8_head, wrapu_small; [done|]. destruct (w_count _ _ Hwf); lia. }
  rewrite Hst. rewrite !some_bind. cbv beta iota. set (h' := if h <? 254 then h + 1 else h). rewrite Z.sub_diag. change (u32 0 >=? ZIPMAP_VALUE_MAX_FREE) with false. cbv beta iota. mnext.
  change (h' :: enc_all es ++ g ++ [255]) with ((h' :: enc_all es) ++ g ++ [255]). rewrite length_block in *. replace (2 + len (enc_all es) - 1) with (len (h' :: enc_all es)) by (cbn [length]; lia).
  destruct (write_pair_spec (h' :: enc_all es) g [255] k v 0) as (fr & Lfr & Hw); [lia|lia|lia|cbn [length] in *; lia|]. change (u32 0) with 0. rewrite Hw. mnext. destruct fr; [|cbn in Lfr; lia].
  unfold zipmap_block. rewrite enc_all_app. cbn [app enc_all fmap list_fmap concat]. by rewrite app_nil_r, <- app_assoc.
Qed.

Lemma set_old h es1 e es2 v : zipmap_wf h (es1 ++ e :: es2) → len (zipmap_block h (es1 ++ e :: es2)) + pair_size (z_key e) v < 2 ^ 32 →
  ∃ fr, len fr < 256 ∧ zipmapSet junk (zipmap_block h (es1 ++ e :: es2)) (z_key e) v = Some (zipmap_block h (es1 ++ mk_zentry (z_key e) v fr :: es2), true) ∧
    len (enc_entry (mk_zentry (z_key e) v fr)) <= len (enc_entry e) + pair_size (z_key e) v.
Proof.
  intros Hwf Hs. pose proof (pair_size_bound (z_key e) v) as Hb. assert (He : entry_wf e) by (pose proof (w_entries _ _ Hwf) as Hf; apply Forall_app in Hf as [_ Hf]; by apply Forall_cons in Hf as [? _]).
  assert (Hk : len (z_key e) < 2 ^ 32) by apply He. set (a := h :: enc_all es1). set (t := enc_all es2). pose proof (block_entry h es1 e es2) as Eb. fold a t in Eb.
  assert (Ha : 1 + len (enc_all es1) = len a) by (unfold a; cbn [length]; lia). assert (Lm : len (zipmap_block h (es1 ++ e :: es2)) = len a + len (enc_entry e) + len t + 1) by (rewrite Eb, !length_app; cbn; lia).
  assert (Hend : ∀ x vempty, len x = pair_size (z_key e) v + vempty → 0 <= vempty < 256 → vempty <= len (enc_entry e) → ∃ fr, len fr < 256 ∧
    (m ← zip_write_pair (a ++ x ++ t ++ [255]) (len a) (z_key e) v vempty; Some (m, true)) = Some (zipmap_block h (es1 ++ mk_zentry (z_key e) v fr :: es2), true) ∧ len (enc_entry (mk_zentry (z_key e) v fr)) <= len (enc_entry e) + pair_size (z_key e) v).
  { intros x vempty Hx Hv Hle. destruct (write_pair_spec a x (t ++ [255]) (z_key e) v vempty) as (fr & Lfr & ->); [lia|lia|lia|lia|]. mnext. exists fr. rewrite block_entry. fold a t. split_and!; [lia|done|].
    rewrite pair_size_entry. cbn. lia. }
  unfold zipmapSet. rewrite required_length by lia. rewrite lookup_some by done. mnext. rewrite Ha, Lm, Eb. rewrite raw_entry by (done || (rewrite <- Eb; lia)). mnext. set (f := len (enc_entry e)) in *. set (r := pair_size (z_key e) v) in *.
  destruct (f <? r) eqn:Efr; to_prop.
  - rewrite (wrapu_small 32 (_ - f + r)) by lia. destruct (zip_resize_spec (a ++ enc_entry e ++ t) [255] (len a + f + len t + 1 - f + r)) as (g & Hg & Lg); [rewrite !length_app; lia|lia|].
    rewrite <- !app_assoc in Hg. rewrite Hg. mnext. rewrite (wrapu_small 32 (len a + f + 1)), (wrapu_small 32 (_ - (_ + 1))) by lia. rewrite !length_app in Lg.
    destruct (memmove_tail a (enc_entry e) t (g ++ [255]) r (len a + r) (len a + f) (len a + f + len t + 1 - (len a + f + 1))) as (x & Hx & Lx); [lia|lia|lia|lia|rewrite length_app; cbn; lia|].
    rewrite Hx. rewrite !some_bind. cbv beta iota. rewrite Z.sub_diag. change (u32 0 >=? ZIPMAP_VALUE_MAX_FREE) with false. cbv beta iota. mnext. change (u32 0) with 0.
    replace (drop _ _) with [255]; [by apply Hend; lia|]. rewrite app_assoc, app_assoc, (drop_app_length' _ [255]); [done|]. rewrite !length_app. lia.
  - mnext. rewrite (wrapu_small 32 (f - r)) by lia. unfold ZIPMAP_VALUE_MAX_FREE. destruct (f - r >=? 4) eqn:E4; to_prop.
    + rewrite (wrapu_small 32 (len a + f + 1)), (wrapu_small 32 (_ - (_ + 1))) by lia.
      destruct (memmove_tail a (enc_entry e) t [255] r (len a + r) (len a + f) (len a + f + len t + 1 - (len a + f + 1))) as (x & Hx & Lx); [lia|lia|lia|lia|cbn; lia|]. rewrite Hx. mnext. rewrite (wrapu_small 32 (_ - (f - r))) by lia.
      rewrite !app_assoc. destruct (zip_resize_spec ((a ++ x) ++ t) (drop (Z.to_nat r + length t) (enc_entry e ++ t ++ [255])) (len a + f + len t + 1 - (f - r))) as (g & Hg & Lg); [rewrite !length_app; lia|lia|].
      rewrite !app_assoc in Hg. rewrite Hg. mnext. destruct g; [|rewrite !length_app in Lg; cbn in Lg; lia]. cbn [app]. rewrite app_nil_r, <- !app_assoc. apply Hend; lia.
    + mnext. apply Hend; lia.
Qed.

(** A zipmap with a key, around its pair. *)
Lemma zm_split_key k es : k ∈ z_key <$> es → NoDup (z_key <$> es) → ∃ es1 e es2, es = es1 ++ e :: es2 ∧ z_key e = k ∧ k ∉ z_key <$> es1.
Proof.
  intros (e & -> & He)%list_elem_of_fmap Hd. apply list_elem_of_split in He as (es1 & es2 & ->). exists es1, e, es2. split_and!; [done|done|]. rewrite fmap_app in Hd. apply NoDup_app in Hd as (_ & Hd & _). intros Hin. apply (Hd _ Hin). by left.
Qed.

Lemma zipmapSet_spec h es k v : zipmap_wf h es → len (zipmap_block h es) + pair_size k v < 2 ^ 32 →
  ∃ h' es', zipmapSet junk (zipmap_block h es) k v = Some (zipmap_block h' es', bool_decide (k ∈ z_key <$> es)) ∧ zipmap_wf h' es' ∧ pairs es' = alist_set k v (pairs es) ∧
    len (zipmap_block h' es') <= len (zipmap_block h es) + pair_size k v.
Proof.
  intros Hwf Hs. pose proof (pair_size_bound k v) as Hb. case_bool_decide as Hk.
  - destruct (zm_split_key k es Hk (w_keys _ _ Hwf)) as (es1 & e & es2 & -> & <- & Hno). destruct (set_old h es1 e es2 v Hwf Hs) as (fr & Lfr & -> & Lx). eexists _, _. split; [done|].
    assert (Hlen : len (zipmap_block h (es1 ++ mk_zentry (z_key e) v fr :: es2)) <= len (zipmap_block h (es1 ++ e :: es2)) + pair_size (z_key e) v) by (rewrite !block_entry, !length_app; lia).
    destruct Hwf as [_ Hf Hc Hd]. apply Forall_app in Hf as [Hf1 Hf2]. apply Forall_cons in Hf2 as [He Hf2]. split_and!; [|destruct e as [k0 v0 fr0]; by rewrite (alist_set_present _ _ _ fr)|done]. constructor.
    + lia.
    + apply Forall_app. split; [done|]. apply Forall_cons. split; [|done]. constructor; cbn; [apply He|lia|lia].
    + destruct Hc as [?|[? ->]]; [by left|right]. rewrite !length_app in *. done.
    + rewrite fmap_app in *. done.
  - rewrite set_new by done. eexists _, _. split; [done|]. assert (Hlen : len (zipmap_block (if h <? 254 then h + 1 else h) (es ++ [mk_zentry k v []])) = len (zipmap_block h es) + pair_size k v).
    { rewrite !length_block, enc_all_app, length_app, enc_all_cons, length_app. pose proof (pair_size_entry (mk_zentry k v [])) as Hp. cbn in Hp |- *. lia. }
    split_and!; [|rewrite alist_set_absent by done; unfold pairs; by rewrite fmap_app|lia]. constructor.
    + lia.
    + apply Forall_app. split; [apply Hwf|]. apply Forall_singleton. constructor; cbn; lia.
    + by apply count_incr.
    + rewrite fmap_app. apply NoDup_app. split_and!; [apply Hwf| |apply NoDup_singleton]. intros x Hx ->%list_elem_of_singleton. done.
Qed.

(** ** zipmapDel *)

Definition alist_del (k : list Z) (l : list (list Z * list Z)) : list (list Z * list Z) := List.filter (λ '(k', _), negb (bool_decide (k' = k))) l.

Lemma alist_del_absent k es : k ∉ z_key <$> es → alist_del k (pairs es) = pairs es.
Proof.
  induction es as [|e es IH]; intros Hk; [done|]. cbn in Hk. apply not_elem_of_cons in Hk as [Hne Hk]. cbn. rewrite bool_decide_false by congruence. cbn. f_equal. by apply IH.
Qed.

Lemma alist_del_present es1 e es2 : NoDup (z_key <$> es1 ++ e :: es2) → alist_del (z_key e) (pairs (es1 ++ e :: es2)) = pairs (es1 ++ es2).
Proof.
  intros Hd. rewrite fmap_app in Hd. apply NoDup_app in Hd as (_ & Hd1 & Hd2). cbn in Hd2. apply NoDup_cons in Hd2 as [Hd2 _].
  unfold pairs. rewrite !fmap_app. unfold alist_del. rewrite List.filter_app. fold (alist_del (z_key e) (pairs es1)). cbn [fmap list_fmap List.filter]. rewrite bool_decide_true by done. cbn [negb].
  f_equal; [|by apply alist_del_absent]. apply alist_del_absent. intros Hin. apply (Hd1 _ Hin). by left.
Qed.

Lemma zipmapDel_spec h es k : zipmap_wf h es →
  ∃ h' es', zipmapDel junk (zipmap_block h es) k = Some (zipmap_block h' es', bool_decide (k ∈ z_key <$> es)) ∧ zipmap_wf h' es' ∧ pairs es' = alist_del k (pairs es) ∧
    len (zipmap_block h' es') <= len (zipmap_block h es).
Proof.
  intros Hwf. unfold zipmapDel. case_bool_decide as Hk.
  - destruct (zm_split_key k es Hk (w_keys _ _ Hwf)) as (es1 & e & es2 & -> & <- & Hno). rewrite lookup_some by done. mnext. assert (He : entry_wf e) by (pose proof (w_entries _ _ Hwf) as Hf; apply Forall_app in Hf as [_ Hf]; by apply Forall_cons in Hf as [? _]).
    pose proof (w_size _ _ Hwf) as Hs. set (a := h :: enc_all es1). set (t := enc_all es2). pose proof (block_entry h es1 e es2) as Eb. fold a t in Eb.
    assert (Ha : 1 + len (enc_all es1) = len a) by (unfold a; cbn [length]; lia). assert (Lm : len (zipmap_block h (es1 ++ e :: es2)) = len a + len (enc_entry e) + len t + 1) by (rewrite Eb, !length_app; cbn; lia).
    rewrite Ha, Lm, Eb. rewrite raw_entry by (done || (rewrite <- Eb; lia)). mnext. set (f := len (enc_entry e)) in *. rewrite (wrapu_small 64) by lia.
    destruct (memmove_tail a (enc_entry e) t [255] 0 (len a) (len a + f) (len a + f + len t + 1 - (len a + f + 1))) as (x & Hx & Lx); [lia|lia|lia|lia|cbn; lia|]. rewrite Hx. mnext. destruct x; [|cbn in Lx; lia]. cbn [app].
    rewrite (wrapu_small 32) by lia. rewrite app_assoc. destruct (zip_resize_spec (a ++ t) (drop (Z.to_nat 0 + length t) (enc_entry e ++ t ++ [255])) (len a + f + len t + 1 - f)) as (g & Hg & Lg); [rewrite length_app; lia|lia|].
    rewrite Hg. mnext. destruct g; [|rewrite length_app in Lg; cbn in Lg; lia]. unfold a. cbn [app]. rewrite load8_head. mnext.
    exists (if h <? 254 then h - 1 else h), (es1 ++ es2). assert (Hcnt : let h' := if h <? 254 then h - 1 else h in h' = 254 ∨ 0 <= h' < 254 ∧ h' = len (es1 ++ es2)).
    { cbn zeta. destruct (w_count _ _ Hwf) as [->|[Hc ->]]; [by left|right]. rewrite !length_app in *. cbn [length] in *. if_true. lia. }
    split_and!.
    + assert (Hst : (if h <? ZIPMAP_BIGLEN then store8 (h :: (enc_all es1 ++ t) ++ [255]) 0 (h - 1) else Some (h :: (enc_all es1 ++ t) ++ [255])) = Some (zipmap_block (if h <? 254 then h - 1 else h) (es1 ++ es2))).
      { unfold zipmap_block. rewrite enc_all_app. unfold ZIPMAP_BIGLEN. cbn zeta in Hcnt. destruct (h <? 254) eqn:E; [|done]. rewrite store8_head, wrapu_small by lia. done. }
      rewrite Hst. by mnext.
    + pose proof Hwf as [_ Hf _ Hd]. constructor; [|apply Forall_app in Hf as [? Hf]; apply Forall_cons in Hf as [_ ?]; by apply Forall_app|done|].
      * rewrite length_block, enc_all_app, length_app. fold t. lia.
      * rewrite fmap_app in Hd |- *. apply NoDup_app in Hd as (Hd1 & Hd2 & Hd3). cbn in Hd3. apply NoDup_cons in Hd3 as [_ Hd3]. apply NoDup_app. split_and!; [done| |done]. intros y Hy Hy'. apply (Hd2 y Hy). by right.
    + rewrite alist_del_present; [done|apply Hwf].
    + rewrite length_block, enc_all_app, length_app. fold t. cbn [length]. lia.
  - rewrite (lookup_none h es (Some k) Hwf) by (by intros κ [= <-]). mnext. exists h, es. split_and!; [done|done|by rewrite alist_del_absent|lia].
Qed.

(** ** Reading *)

Fixpoint alist_get (k : list Z) (l : list (list Z * list Z)) : option (list Z) :=
  match l with
  | [] => None
  | (k', v) :: l => if bool_decide (k' = k) then Some v else alist_get k l
  end.

Lemma alist_get_absent k es : k ∉ z_key <$> es → alist_get k (pairs es) = None.
Proof. induction es as [|e es IH]; intros Hk; [done|]. cbn in Hk. apply not_elem_of_cons in Hk as [Hne Hk]. cbn. rewrite bool_decide_false by congruence. by apply IH. Qed.

Lemma alist_get_present es1 e es2 : z_key e ∉ z_key <$> es1 → alist_get (z_key e) (pairs (es1 ++ e :: es2)) = Some (z_val e).
Proof.
  induction es1 as [|e1 es1 IH]; intros Hk; cbn; [by rewrite bool_decide_true|]. cbn in Hk. apply not_elem_of_cons in Hk as [Hne Hk]. rewrite bool_decide_false by congruence. by apply IH.
Qed.

Definition read_value (m : list Z) (r : option (Z * Z)) : option (option (list Z)) :=
  match r with None => Some None | Some (off, n) => v ← load m off n; Some (Some v) end.

Lemma zipmapGet_spec h es k : zipmap_wf h es → (r ← zipmapGet (zipmap_block h es) k; read_value (zipmap_block h es) r) = Some (alist_get k (pairs es)).
Proof.
  intros Hwf. unfold zipmapGet. destruct (decide (k ∈ z_key <$> es)) as [Hk|Hk].
  - destruct (zm_split_key k es Hk (w_keys _ _ Hwf)) as (es1 & e & es2 & -> & <- & Hno). rewrite lookup_some by done. mnext. rewrite alist_get_present by done.
    assert (He : entry_wf e) by (pose proof (w_entries _ _ Hwf) as Hf; apply Forall_app in Hf as [_ Hf]; by apply Forall_cons in Hf as [? _]). pose proof (w_size _ _ Hwf) as Hs. rewrite block_entry in *. rewrite !length_app in Hs. pose proof (length_enc_entry e). pose proof (len_bytes_range (len (z_key e))). pose proof (len_bytes_range (len (z_val e))).
    assert (Ha : 1 + len (enc_all es1) = len (h :: enc_all es1)) by (cbn [length]; lia). rewrite Ha. unfold zipmapRawKeyLength. rewrite decode_key by done. rewrite !some_bind. cbv beta iota. rewrite (wrapu_small 32) by lia.
    rewrite (decode_val _ e _) by (done || lia). rewrite !some_bind. cbn [read_value]. rewrite (load_val _ e) by lia. by mnext.
  - rewrite (lookup_none h es (Some k) Hwf) by (by intros κ [= <-]). mnext. rewrite alist_get_absent by done. done.
Qed.

Lemma zipmapExists_spec h es k : zipmap_wf h es → zipmapExists (zipmap_block h es) k = Some (bool_decide (k ∈ z_key <$> es)).
Proof.
  intros Hwf. unfold zipmapExists. case_bool_decide as Hk.
  - destruct (zm_split_key k es Hk (w_keys _ _ Hwf)) as (es1 & e & es2 & -> & <- & Hno). rewrite lookup_some by done. by mnext.
  - rewrite (lookup_none h es (Some k) Hwf) by (by intros κ [= <-]). by mnext.
Qed.

Lemma next_entry a e c : entry_wf e → len (a ++ enc_entry e ++ c) < 2 ^ 32 →
  zipmapNext (a ++ enc_entry e ++ c) (len a) =
    Some (Some (len (a ++ enc_entry e), (len a + ZIPMAP_LEN_BYTES (len (z_key e)), len (z_key e)),
      (len a + (ZIPMAP_LEN_BYTES (len (z_key e)) + len (z_key e)) + 1 + ZIPMAP_LEN_BYTES (len (z_val e)), len (z_val e)))).
Proof.
  intros He Hm. pose proof (length_enc_entry e) as Hl. pose proof (len_bytes_range (len (z_key e))). pose proof (len_bytes_range (len (z_val e))). rewrite !length_app in Hm.
  unfold zipmapNext, zipmapRawKeyLength, zipmapRawValueLength. destruct (zip_head a e c) as (b & -> & Hb). mnext. change ZIPMAP_END with 255. if_false. rewrite decode_key by done. rewrite !some_bind. cbv beta iota. rewrite (wrapu_small 32) by lia.
  rewrite (decode_val a e c) by (done || lia). rewrite !some_bind. rewrite (load_free a e c) by lia. rewrite !some_bind. rewrite (wrapu_small 32) by lia. rewrite length_app. do 4 f_equal. lia.
Qed.

Lemma next_end a : zipmapNext (a ++ [255]) (len a) = Some None.
Proof. unfold zipmapNext. rewrite load8_app by done. by mnext. Qed.

Lemma pairs_loop_spec es : ∀ fuel a, Forall entry_wf es → len (a ++ enc_all es ++ [255]) < 2 ^ 32 → (length es < fuel)%nat → pairs_loop fuel (a ++ enc_all es ++ [255]) (len a) = Some (pairs es).
Proof.
  induction es as [|e es IH]; intros fuel a Hwf Hm Hf; (destruct fuel as [|fuel]; [cbn in Hf; lia|]); cbn [pairs_loop].
  - cbn [enc_all fmap list_fmap concat app]. rewrite next_end. by mnext.
  - apply Forall_cons in Hwf as [He Hwf]. rewrite enc_all_cons in *. rewrite <- app_assoc in *. rewrite next_entry by done. mnext. rewrite load_key by done. mnext. rewrite (load_val a e) by lia. mnext.
    rewrite (app_assoc a) in Hm |- *. rewrite IH; [by mnext|done|done|cbn in Hf; lia].
Qed.

Lemma len_loop_spec es : ∀ fuel a n, Forall entry_wf es → len (a ++ enc_all es ++ [255]) < 2 ^ 32 → (length es < fuel)%nat → 0 <= n → n + len es < 2 ^ 32 →
  len_loop fuel (a ++ enc_all es ++ [255]) (len a) n = Some (n + len es).
Proof.
  induction es as [|e es IH]; intros fuel a n Hwf Hm Hf Hn Hle; (destruct fuel as [|fuel]; [cbn in Hf; lia|]); cbn [len_loop].
  - cbn [enc_all fmap list_fmap concat app]. rewrite next_end. mnext. f_equal. cbn. lia.
  - apply Forall_cons in Hwf as [He Hwf]. rewrite enc_all_cons in *. rewrite <- app_assoc in *. rewrite next_entry by done. mnext. cbn [length] in *. rewrite (wrapu_small 32) by lia.
    rewrite (app_assoc a) in Hm |- *. rewrite IH; [f_equal; lia|done|done|lia|lia|lia].
Qed.

Lemma zipmap_pairs_spec h es : zipmap_wf h es → zipmap_pairs (zipmap_block h es) = Some (pairs es).
Proof.
  intros [Hs Hw _ _]. unfold zipmap_pairs, zipmapRewind. pose proof (enc_all_long es). rewrite length_block in Hs. change (zipmap_block h es) with ([h] ++ enc_all es ++ [255]). change 1 with (len [h]).
  apply pairs_loop_spec; [done|rewrite !length_app; cbn; lia|rewrite !length_app; cbn; lia].
Qed.

Lemma zipmapLen_spec h es : zipmap_wf h es → ∃ h', zipmapLen (zipmap_block h es) = Some (len es, zipmap_block h' es) ∧ zipmap_wf h' es.
Proof.
  intros Hwf. pose proof Hwf as [Hs Hw Hc Hk]. unfold zipmapLen, zipmapRewind. pose proof (enc_all_long es). rewrite length_block in Hs. change (load8 (zipmap_block h es) 0) with (Some h). mnext. unfold ZIPMAP_BIGLEN. destruct Hc as [->|[Hc ->]].
  - change (254 <? 254) with false. cbv beta iota. assert (Hl : len_loop (length (zipmap_block 254 es)) (zipmap_block 254 es) 1 0 = Some (len es)).
    { change (zipmap_block 254 es) with ([254] ++ enc_all es ++ [255]). change 1 with (len [254]). rewrite len_loop_spec; [f_equal; lia|done|rewrite !length_app; cbn; lia|rewrite !length_app; cbn; lia|lia|lia]. }
    rewrite Hl. mnext. destruct (len es <? 254) eqn:E; to_prop.
    + exists (len es). unfold zipmap_block. rewrite store8_head, wrapu_small by lia. mnext. split; [done|]. constructor; [rewrite length_block; lia|done|right; lia|done].
    + exists 254. mnext. done.
  - if_true. exists (len es). split; done.
Qed.

Lemma zipmapBlobLen_spec h es : zipmap_wf h es → zipmapBlobLen (zipmap_block h es) = Some (len (zipmap_block h es)).
Proof. intros Hwf. unfold zipmapBlobLen. rewrite (lookup_none h es None Hwf) by done. by mnext. Qed.

(** ** Programs *)

Inductive zop := ZSet (k v : list Z) | ZDel (k : list Z) | ZGet (k : list Z) | ZExists (k : list Z) | ZLen | ZPairs.
Inductive zout := OFlag (b : bool) | OValue (v : option (list Z)) | OCount (n : Z) | OPairs (l : list (list Z * list Z)).

Definition zstep (m : list Z) (op : zop) : option (list Z * zout) :=
  match op with
  | ZSet k v => '(m, b) ← zipmapSet junk m k v; Some (m, OFlag b)
  | ZDel k => '(m, b) ← zipmapDel junk m k; Some (m, OFlag b)
  | ZGet k => r ← zipmapGet m k; v ← read_value m r; Some (m, OValue v)
  | ZExists k => b ← zipmapExists m k; Some (m, OFlag b)
  | ZLen => '(n, m) ← zipmapLen m; Some (m, OCount n)
  | ZPairs => l ← zipmap_pairs m; Some (m, OPairs l)
  end.
Fixpoint zrun (m : list Z) (ops : list zop) : option (list Z * list zout) :=
  match ops with
  | [] => Some (m, [])
  | op :: ops => '(m, o) ← zstep m op; '(m, os) ← zrun m ops; Some (m, o :: os)
  end.

(** The same on a list of pairs. *)
Definition zspec (l : list (list Z * list Z)) (op : zop) : list (list Z * list Z) * zout :=
  match op with
  | ZSet k v => (alist_set k v l, OFlag (bool_decide (k ∈ l.*1)))
  | ZDel k => (alist_del k l, OFlag (bool_decide (k ∈ l.*1)))
  | ZGet k => (l, OValue (alist_get k l))
  | ZExists k => (l, OFlag (bool_decide (k ∈ l.*1)))
  | ZLen => (l, OCount (len l))
  | ZPairs => (l, OPairs l)
  end.
Fixpoint zspecs (l : list (list Z * list Z)) (ops : list zop) : list (list Z * list Z) * list zout :=
  match ops with
  | [] => (l, [])
  | op :: ops => let '(l, o) := zspec l op in let '(l, os) := zspecs l ops in (l, o :: os)
  end.

(** How much an operation may add to the block. *)
Definition zcost (op : zop) : Z := match op with ZSet k v => pair_size k v | _ => 0 end.
Definition zcosts (ops : list zop) : Z := foldr (λ op n, zcost op + n) 0 ops.

Lemma keys_pairs es : (pairs es).*1 = z_key <$> es.
Proof. unfold pairs. by rewrite <- list_fmap_compose. Qed.

Lemma zstep_spec h es op : zipmap_wf h es → len (zipmap_block h es) + zcost op < 2 ^ 32 →
  ∃ h' es', zstep (zipmap_block h es) op = Some (zipmap_block h' es', snd (zspec (pairs es) op)) ∧ zipmap_wf h' es' ∧ pairs es' = fst (zspec (pairs es) op) ∧ len (zipmap_block h' es') <= len (zipmap_block h es) + zcost op.
Proof.
  intros Hwf Hs. destruct op as [k v|k|k|k| |]; cbn [zstep zspec zcost fst snd] in *; rewrite ?keys_pairs.
  - destruct (zipmapSet_spec h es k v Hwf Hs) as (h' & es' & -> & ? & ? & ?). mnext. by exists h', es'.
  - destruct (zipmapDel_spec h es k Hwf) as (h' & es' & -> & ? & ? & ?). mnext. exists h', es'. split_and!; [done|done|done|lia].
  - pose proof (zipmapGet_spec h es k Hwf) as Hg. destruct (zipmapGet (zipmap_block h es) k) as [r|]; [|done]. change (read_value (zipmap_block h es) r = Some (alist_get k (pairs es))) in Hg. mnext. rewrite Hg. mnext. exists h, es. split_and!; [done|done|done|lia].
  - rewrite zipmapExists_spec by done. mnext. exists h, es. split_and!; [done|done|done|lia].
  - destruct (zipmapLen_spec h es Hwf) as (h' & -> & ?). mnext. exists h', es. split_and!; [|done|done|rewrite !length_block; lia]. unfold pairs. by rewrite length_fmap.
  - rewrite zipmap_pairs_spec by done. mnext. exists h, es. split_and!; [done|done|done|lia].
Qed.

Lemma zcosts_nonneg ops : 0 <= zcosts ops.
Proof. unfold zcosts. induction ops as [|op ops IH]; cbn [foldr]; [lia|]. assert (0 <= zcost op) by (destruct op; cbn; [pose proof (pair_size_bound k v)| | | | |]; lia). lia. Qed.

Lemma zrun_spec ops : ∀ h es, zipmap_wf h es → len (zipmap_block h es) + zcosts ops < 2 ^ 32 →
  ∃ h' es', zrun (zipmap_block h es) ops = Some (zipmap_block h' es', snd (zspecs (pairs es) ops)) ∧ zipmap_wf h' es' ∧ pairs es' = fst (zspecs (pairs es) ops).
Proof.
  induction ops as [|op ops IH]; intros h es Hwf Hs; [by exists h, es|]. cbn [zrun zspecs zcosts foldr] in *. fold (zcosts ops) in Hs. pose proof (zcosts_nonneg ops).
  destruct (zstep_spec h es op Hwf) as (h1 & es1 & -> & Hwf1 & Hp1 & Hl1); [lia|]. mnext. destruct (IH h1 es1 Hwf1) as (h2 & es2 & -> & Hwf2 & Hp2); [lia|]. mnext. exists h2, es2. rewrite Hp1 in Hp2 |- *.
  destruct (zspec (pairs es) op) as [l1 o1]. cbn [fst snd] in *. destruct (zspecs l1 ops) as [l2 os]. done.
Qed.

(** ** The check of untrusted bytes *)

Lemma size_enc a n c : 0 <= n → zipmapGetEncodedLengthSize (a ++ zip_len n ++ c) (len a) = Some (ZIPMAP_LEN_BYTES n).
Proof.
  intros Hn. unfold zipmapGetEncodedLengthSize, zip_len, ZIPMAP_LEN_BYTES, ZIPMAP_BIGLEN. destruct (n <? 254) eqn:E; cbn [app]; rewrite load8_app by done; mnext; [by rewrite E|done].
Qed.

Lemma size_key a e c : zipmapGetEncodedLengthSize (a ++ enc_entry e ++ c) (len a) = Some (ZIPMAP_LEN_BYTES (len (z_key e))).
Proof. unfold enc_entry. rewrite <- app_assoc. apply size_enc. lia. Qed.

Lemma size_val a e c off : off = len a + ZIPMAP_LEN_BYTES (len (z_key e)) + len (z_key e) → zipmapGetEncodedLengthSize (a ++ enc_entry e ++ c) off = Some (ZIPMAP_LEN_BYTES (len (z_val e))).
Proof.
  intros ->. unfold enc_entry. rewrite <- app_assoc, (app_assoc a), <- (app_assoc (z_key e)), (app_assoc _ (z_key e)), <- (app_assoc (zip_len (len (z_val e)))).
  replace (len a + _ + _) with (len ((a ++ zip_len (len (z_key e))) ++ z_key e)) by (rewrite !length_app, <- length_enc_len; lia). apply size_enc. lia.
Qed.

Lemma validate_rest es : ∀ fuel a n, Forall entry_wf es → 1 <= len a → len (a ++ enc_all es ++ [255]) < 2 ^ 32 → (length es < fuel)%nat → 0 <= n → n + len es < 2 ^ 32 →
  zip_validate_loop fuel (a ++ enc_all es ++ [255]) (len (a ++ enc_all es ++ [255])) (len a) n = Some (Some (n + len es)).
Proof.
  induction es as [|e es IH]; intros fuel a n Hwf Ha Hm Hf Hn Hle; (destruct fuel as [|fuel]; [cbn in Hf; lia|]); cbn [zip_validate_loop].
  - cbn [enc_all fmap list_fmap concat app]. rewrite load8_app by done. mnext. do 2 f_equal. cbn. lia.
  - apply Forall_cons in Hwf as [He Hwf]. rewrite enc_all_cons in *. rewrite <- app_assoc in *. destruct (zip_head a e (enc_all es ++ [255])) as (b & -> & Hb). mnext. change ZIPMAP_END with 255. if_false.
    pose proof (length_enc_entry e) as Hl. pose proof (len_bytes_range (len (z_key e))). pose proof (len_bytes_range (len (z_val e))). set (m := a ++ enc_entry e ++ enc_all es ++ [255]) in *.
    assert (Lm : len m = len a + len (enc_entry e) + len (enc_all es) + 1) by (unfold m; rewrite !length_app; cbn; lia). assert (Hor : ∀ x, 2 <= x <= len m - 1 → OUT_OF_RANGE (len m) x = false) by (intros x Hx; unfold OUT_OF_RANGE; lia).
    pose proof (size_key a e (enc_all es ++ [255])) as Q1. pose proof (decode_key a e (enc_all es ++ [255]) He) as Q2. pose proof (size_val a e (enc_all es ++ [255]) _ eq_refl) as Q3. pose proof (decode_val a e (enc_all es ++ [255]) _ He eq_refl) as Q4.
    pose proof (load_free a e (enc_all es ++ [255]) _ eq_refl) as Q5. fold m in Q1, Q2, Q3, Q4, Q5.
    rewrite Q1. mnext. rewrite Hor by lia. rewrite Q2. mnext. rewrite Hor by lia. rewrite Q3. mnext. rewrite Hor by lia. rewrite Q4. mnext. rewrite Q5. mnext.
    rewrite (wrapu_small 32 (len (z_val e) + _)) by lia. rewrite Hor by lia. cbn [length] in *. rewrite (wrapu_small 32) by lia.
    replace (_ + (len (z_val e) + len (z_free e))) with (len (a ++ enc_entry e)) by (rewrite length_app; lia). unfold m. rewrite (app_assoc a). rewrite IH; [do 2 f_equal; lia|done|rewrite length_app; lia|rewrite <- app_assoc; exact Hm|lia|lia|lia].
Qed.

Lemma validate_wf h es : zipmap_wf h es → es ≠ [] → zipmapValidateIntegrity (zipmap_block h es) (len (zipmap_block h es)) true = Some true.
Proof.
  intros [Hs Hw Hc _] Hne. unfold zipmapValidateIntegrity. pose proof (enc_all_long es). pose proof (length_block h es) as Hl. if_false.
  assert (Hlast : load8 (zipmap_block h es) (len (zipmap_block h es) - 1) = Some 255) by (rewrite block_split; apply load8_app; rewrite length_app; cbn [length]; lia). rewrite Hlast. mnext. change (negb (255 =? ZIPMAP_END)) with false. cbn [negb].
  assert (Hv : zip_validate_loop (length (zipmap_block h es)) (zipmap_block h es) (len (zipmap_block h es)) 1 0 = Some (Some (len es))).
  { change (zipmap_block h es) with ([h] ++ enc_all es ++ [255]) in *. change 1 with (len [h]). rewrite validate_rest; [done|done|done|done|rewrite !length_app; cbn; lia|lia|lia]. }
  rewrite Hv. mnext. destruct es as [|e es]; [done|]. if_false. change (load8 (zipmap_block h (e :: es)) 0) with (Some h). mnext. f_equal. unfold ZIPMAP_BIGLEN. lia.
Qed.

(** C15: (zipmap.c) From an empty zipmap, any program of zipmapSet, zipmapDel, zipmapGet,
    zipmapExists, zipmapLen and iteration with zipmapNext, as long as the sizes of the pairs
    add up to less than 2^32, stays inside its block whatever the allocator leaves in new
    memory, and returns what the operations on a list of pairs with distinct keys return;
    the size computed for the block is its size, and the deep check accepts it when it is
    not empty. *)
Theorem zipmap_refines ops : 2 + zcosts ops < 2 ^ 32 →
  ∃ m0 m, zipmapNew junk = Some m0 ∧ zrun m0 ops = Some (m, snd (zspecs [] ops)) ∧ zipmap_pairs m = Some (fst (zspecs [] ops)) ∧ NoDup (fst (zspecs [] ops)).*1 ∧
    zipmapBlobLen m = Some (len m) ∧ (fst (zspecs [] ops) ≠ [] → zipmapValidateIntegrity m (len m) true = Some true).
Proof.
  intros Hs. assert (Hwf0 : zipmap_wf 0 []) by (constructor; [done|done|right; cbn; lia|apply NoDup_nil_2]). destruct (zrun_spec ops 0 [] Hwf0) as (h & es & Hrun & Hwf & Hp); [cbn [length zipmap_block enc_all fmap list_fmap concat app]; lia|].
  exists (zipmap_block 0 []), (zipmap_block h es). change (pairs []) with (@nil (list Z * list Z)) in *. rewrite <- Hp. split_and!; [done|done|by apply zipmap_pairs_spec|rewrite keys_pairs; apply Hwf|by apply zipmapBlobLen_spec|].
  intros Hne. apply validate_wf; [done|]. by intros ->.
Qed.

(** ** Any bytes *)

Lemma zip_decode_total m p : bytes_ok m → 0 <= p → p + 5 <= len m ∨ (∃ b, load8 m p = Some b ∧ b < 254) → ∃ l, zipmapDecodeLength m p = Some l ∧ 0 <= l < 2 ^ 32.
Proof.
  intros Hb Hp Hor. unfold zipmapDecodeLength, ZIPMAP_BIGLEN. assert (∃ b, load8 m p = Some b) as [b Hl] by (destruct Hor as [?|(b & ? & _)]; [apply load8_total; lia|by exists b]). rewrite Hl. mnext.
  assert (Hby : is_byte b). { unfold load8 in Hl. destruct (0 <=? p); [|done]. by apply (Forall_lookup_1 _ _ _ _ Hb) in Hl. } unfold is_byte in Hby. destruct (b <? 254) eqn:E; to_prop; [exists b; split; [done|lia]|].
  destruct Hor as [Hlen|(b' & E' & ?)]; [|rewrite Hl in E'; injection E' as <-; lia]. destruct (load m (p + 1) 4) as [bs|] eqn:El; [|unfold load, in_range in El; revert El; by if_true].
  apply load_spec in El as (_ & _ & _ & ->). set (bs := take _ _). assert (Hbs : bytes_ok bs) by (by apply Forall_take, Forall_drop). assert (Lbs : length bs = 4%nat) by (unfold bs; rewrite length_take, length_drop; lia). mnext.
  rewrite (memrevifbe_obj memrev32ifbe 4) by (apply memrev32ifbe_host || done). mnext. rewrite host_val_rev. eexists. split; [done|]. pose proof (le_val_range bs Hbs). rewrite Lbs in *. done.
Qed.

Lemma size_decode m p s : bytes_ok m → zipmapGetEncodedLengthSize m p = Some s → 0 <= p → p + s <= len m → ∃ l, zipmapDecodeLength m p = Some l ∧ 0 <= l < 2 ^ 32 ∧ 1 <= s.
Proof.
  intros Hb Hs Hp Hle. unfold zipmapGetEncodedLengthSize, ZIPMAP_BIGLEN in Hs. destruct (load8 m p) as [b|] eqn:El; [|done]. rewrite some_bind in Hs. injection Hs as <-.
  destruct (zip_decode_total m p Hb Hp) as (l & -> & Hl); [|exists l; split_and!; [done|lia|lia|case_if; lia]]. destruct (b <? 254) eqn:E; to_prop; [right; exists b; split; [done|lia]|by left].
Qed.

Lemma validate_total m : bytes_ok m → ∀ fuel p n, 1 <= p < len m → len m - p < Z.of_nat fuel → ∃ r, zip_validate_loop fuel m (len m) p n = Some r.
Proof.
  intros Hb. induction fuel as [|fuel IH]; intros p n Hp Hf; [lia|]. cbn [zip_validate_loop]. destruct (load8_total m p) as [b Hl]; [lia|]. rewrite Hl. mnext. case_if; [by eexists|].
  assert (Hsz : ∀ p, 0 <= p < len m → ∃ s, zipmapGetEncodedLengthSize m p = Some s) by (intros q Hq; destruct (load8_total m q Hq) as [b' Hl']; eexists; unfold zipmapGetEncodedLengthSize; by rewrite Hl').
  destruct (Hsz p) as [s Hs]; [lia|]. rewrite Hs. mnext. unfold OUT_OF_RANGE. case_if; [by eexists|]. destruct (size_decode m p s Hb Hs) as (l & -> & Hl1 & Hs1); [lia|lia|]. mnext. case_if; [by eexists|].
  destruct (Hsz (p + s + l)) as [s2 Hs2]; [lia|]. rewrite Hs2. mnext. case_if; [by eexists|]. destruct (size_decode m (p + s + l) s2 Hb Hs2) as (l2 & -> & Hl2 & Hs3); [lia|lia|]. mnext.
  destruct (load8_total m (p + s + l + s2)) as [e He]; [lia|]. rewrite He. mnext. case_if; [by eexists|]. pose proof (wrapu_range 32 (l2 + e)). apply IH; lia.
Qed.

(** (zipmapValidateIntegrity, zipmap.c) On any bytes the check ends and reads only inside
    them. *)
Theorem zipmapValidateIntegrity_safe m deep : bytes_ok m → ∃ b, zipmapValidateIntegrity m (len m) deep = Some b.
Proof.
  intros Hb. unfold zipmapValidateIntegrity. case_if; [by eexists|]. destruct (load8_total m (len m - 1)) as [l Hl]; [lia|]. rewrite Hl. mnext. case_if; [by eexists|]. case_if; [by eexists|].
  destruct (validate_total m Hb (length m) 1 0) as [[n|] Hr]; [lia|lia| |]; rewrite Hr; mnext; [|by eexists]. case_if; [by eexists|]. destruct (load8_total m 0) as [h Hh]; [lia|]. rewrite Hh. mnext. by eexists.
Qed.
End zipmap.

(** ** Instances *)

Definition sample_zops : list zop :=
  [ZSet [102; 111; 111] [98; 97; 114]; ZSet [104] [119; 111; 114; 108; 100]; ZSet [102; 111; 111] [104; 105]; ZGet [102; 111; 111]; ZSet [104] (replicate 300 7); ZDel [102; 111; 111]; ZLen; ZExists [104]].

Lemma zipmap_refines_witness :
  ∃ m0 m, zipmapNew 90 = Some m0 ∧
    zrun (H := be_host) 90 m0 sample_zops = Some (m, [OFlag false; OFlag false; OFlag true; OValue (Some [104; 105]); OFlag true; OFlag true; OCount 1; OFlag true]) ∧
    zipmap_pairs (H := be_host) m = Some [([104], replicate 300 7)].
Proof.
  destruct (zipmap_refines (H := be_host) 90 sample_zops) as (m0 & m & Hnew & Hrun & Hp & _); [vm_compute; reflexivity|]. exists m0, m. split; [exact Hnew|]. split; [rewrite Hrun|rewrite Hp]; vm_compute; reflexivity.
Defined.

Lemma zipmapValidateIntegrity_safe_witness :
  ∃ b, zipmapValidateIntegrity (H := le_host) [1; 254; 1; 0; 0; 0; 107; 1; 0; 118; 255] (len [1; 254; 1; 0; 0; 0; 107; 1; 0; 118; 255]) true = Some b.
Proof. apply (zipmapValidateIntegrity_safe (H := le_host)). by_decision. Defined.
