(* ===== verification/Rax.v ===== *)
(** Radix trees: src/redis-7.0.0/src/rax.c on nodes that are records.

    This is the level at which the tree is proved correct: a node is a record of the
    characters of its edges, the pointers to its children and the value of its key.
    RaxNode.v and RaxBytes.v have the functions as the code has them, on the bytes of the
    block of a node; RaxSim.v and what follows it show that they do what these do.  Nodes
    live in a map from addresses, and the address of a reallocated node may or may not
    change.  A dangling or NULL pointer, or a failed assertion, is [None]. *)
From stdpp Require Import gmap.
From S2P Require Import Prelude.
#[local] Open Scope Z_scope.

(** [RAX_NODE_MAX_SIZE], the largest size of 29 bits. *)
Definition RAX_NODE_MAX_SIZE : Z := 2 ^ 29 - 1.

(** [value] is the data pointer, 0 for NULL; it is stored when [iskey && !isnull]. *)
Record raxNode := mk_rnode { iskey : bool; isnull : bool; iscompr : bool; ndata : list Z; kids : list positive; value : Z }.

Record rax := mk_rax { head : positive; numele : Z; numnodes : Z; rnodes : gmap positive raxNode }.

(** The allocator: the address of a new node and the one of a node after a reallocation,
    which depend on the addresses in use, and what the header of a new block holds. *)
Class RaxAlloc := {
  malloc_addr : gset positive → positive;
  realloc_addr : gset positive → positive → positive;
  malloc_addr_fresh : ∀ X, malloc_addr X ∉ X;
  realloc_addr_fresh : ∀ X p, realloc_addr X p = p ∨ realloc_addr X p ∉ X;
  raw_header : bool * bool * bool * Z;
}.

Section rax.
Context `{RaxAlloc}.

Definition rax_malloc {A} (h : gmap positive A) : positive := malloc_addr (dom h).
Definition rax_realloc {A} (h : gmap positive A) (p : positive) : positive := realloc_addr (dom h) p.
Lemma rax_malloc_fresh {A} (h : gmap positive A) : h !! rax_malloc h = None.
Proof. apply not_elem_of_dom, malloc_addr_fresh. Qed.
Lemma rax_realloc_fresh {A} (h : gmap positive A) p : rax_realloc h p = p ∨ h !! rax_realloc h p = None.
Proof. destruct (realloc_addr_fresh (dom h) p); [by left|right]. by apply not_elem_of_dom. Qed.

Definition nsize (n : raxNode) : Z := len (ndata n).

Definition set_nodes (r : rax) (h : gmap positive raxNode) : rax := mk_rax (head r) (numele r) (numnodes r) h.
Definition add_nodes (r : rax) (k : Z) : rax := mk_rax (head r) (numele r) (u64 (numnodes r + k)) (rnodes r).
Definition add_ele (r : rax) (k : Z) : rax := mk_rax (head r) (u64 (numele r + k)) (numnodes r) (rnodes r).

Definition rnode (r : rax) (p : positive) : option raxNode := rnodes r !! p.
Definition rput (r : rax) (p : positive) (n : raxNode) : rax := set_nodes r (<[p := n]> (rnodes r)).
Definition rnew (r : rax) (n : raxNode) : rax * positive := let p := rax_malloc (rnodes r) in (rput r p n, p).
Definition rfree (r : rax) (p : positive) : option rax := _ ← rnode r p; Some (set_nodes r (delete p (rnodes r))).
(** The node, with new contents, after rax_realloc. *)
Definition rmove (r : rax) (p : positive) (n : raxNode) : rax * positive :=
  let q := rax_realloc (rnodes r) p in (set_nodes r (<[q := n]> (delete p (rnodes r))), q).

(** Where a pointer to a node is stored. *)
Inductive link := LHead | LKid (p : positive) (j : nat).
Definition set_kid (n : raxNode) (j : nat) (q : positive) : option raxNode :=
  if bool_decide (j < length (kids n))%nat then Some (mk_rnode (iskey n) (isnull n) (iscompr n) (ndata n) (<[j := q]> (kids n)) (value n)) else None.
Definition write_link (r : rax) (l : link) (q : positive) : option rax :=
  match l with
  | LHead => Some (mk_rax q (numele r) (numnodes r) (rnodes r))
  | LKid p j => n ← rnode r p; n ← set_kid n j q; Some (rput r p n)
  end.
Definition last_link (n : raxNode) : nat := pred (length (kids n)).
Definition last_child (n : raxNode) : option positive := kids n !! last_link n.

(** The edges and pointers of a new node are not initialised. *)
Definition raxNewNode (children : nat) : raxNode := mk_rnode false false false (replicate children 0) (replicate children xH) 0.

Definition raxNew : rax :=
  let r := mk_rax xH 0 1 ∅ in
  let '(r, p) := rnew r (raxNewNode 0) in
  mk_rax p (numele r) (numnodes r) (rnodes r).

Definition raxReallocForData (r : rax) (p : positive) (data : Z) : option (rax * positive) :=
  if data =? 0 then Some (r, p) else n ← rnode r p; Some (rmove r p n).

Definition raxSetData (n : raxNode) (data : Z) : raxNode :=
  if data =? 0 then mk_rnode true true (iscompr n) (ndata n) (kids n) (value n)
  else mk_rnode true false (iscompr n) (ndata n) (kids n) data.
Definition raxGetData (n : raxNode) : Z := if isnull n then 0 else value n.

(** [for (pos = 0; pos < n->size; pos++) if (n->data[pos] > c) break;] *)
Fixpoint insert_pos (cs : list Z) (c : Z) : nat :=
  match cs with [] => O | x :: cs => if x >? c then O else S (insert_pos cs c) end.

(** The new address of the node, the child and its link. *)
Definition raxAddChild (r : rax) (p : positive) (c : Z) : option (rax * positive * positive * link) :=
  n ← rnode r p;
  if iscompr n then None
  else
    let '(r, child) := rnew r (raxNewNode 0) in
    let pos := insert_pos (ndata n) c in
    let '(r, p) := rmove r p (mk_rnode (iskey n) (isnull n) (iscompr n) (take pos (ndata n) ++ c :: drop pos (ndata n)) (take pos (kids n) ++ child :: drop pos (kids n)) (value n)) in
    Some (r, p, child, LKid p pos).

Definition raxCompressNode (r : rax) (p : positive) (s : list Z) : option (rax * positive * positive) :=
  n ← rnode r p;
  if negb (nsize n =? 0) || iscompr n then None
  else
    let '(r, child) := rnew r (raxNewNode 0) in
    let data := if iskey n then raxGetData n else 0 in
    let m := mk_rnode (iskey n) (isnull n) true s [child] (value n) in
    let '(r, p) := rmove r p (if iskey n then raxSetData m data else m) in
    Some (r, p, child).

(** ** Walking *)

(** How many characters of the node and of the string are the same. *)
Fixpoint common (v s : list Z) : nat :=
  match v, s with x :: v, y :: s => if x =? y then S (common v s) else O | _, _ => O end.
(** The edge for a character: the size of the node when there is none. *)
Fixpoint edge (v : list Z) (c : Z) : nat :=
  match v with [] => O | x :: v => if x =? c then O else S (edge v c) end.

Record walk := mk_walk { w_i : Z; w_stop : positive; w_link : link; w_split : Z; w_stack : list positive }.

Fixpoint walk_loop (fuel : nat) (r : rax) (s : list Z) (h : positive) (parentlink : link) (i : Z) (ts : list positive) : option walk :=
  match fuel with
  | O => None
  | S fuel =>
    n ← rnode r h;
    let stop i j := Some (mk_walk i h parentlink (if iscompr n then j else 0) ts) in
    if (nsize n =? 0) || (len s <=? i) then stop i 0
    else if iscompr n then
      let j := Z.of_nat (common (ndata n) (drop (Z.to_nat i) s)) in
      if negb (j =? nsize n) then stop (i + j) j
      else child ← kids n !! 0%nat; walk_loop fuel r s child (LKid h 0) (i + j) (h :: ts)
    else
      c ← s !! Z.to_nat i;
      let j := edge (ndata n) c in
      if Z.of_nat j =? nsize n then stop i 0
      else child ← kids n !! j; walk_loop fuel r s child (LKid h j) (i + 1) (h :: ts)
  end.
(** The stack has the last pushed first. *)
Definition raxLowWalk (r : rax) (s : list Z) : option walk := walk_loop (S (length s)) r s (head r) LHead 0 [].

(** ** Insertion *)

(** The missing nodes: the last node and its link. *)
Fixpoint insert_loop (fuel : nat) (r : rax) (s : list Z) (i : Z) (h : positive) (parentlink : link) : option (rax * positive * link) :=
  if i <? len s then
    match fuel with
    | O => None
    | S fuel =>
      n ← rnode r h;
      if (nsize n =? 0) && (len s - i >? 1) then
        let comprsize := if len s - i >? RAX_NODE_MAX_SIZE then RAX_NODE_MAX_SIZE else len s - i in
        '(r, h, child) ← raxCompressNode r h (take (Z.to_nat comprsize) (drop (Z.to_nat i) s));
        r ← write_link r parentlink h;
        n ← rnode r h;
        insert_loop fuel (add_nodes r 1) s (i + comprsize) child (LKid h (last_link n))
      else
        c ← s !! Z.to_nat i;
        '(r, h, child, new_parentlink) ← raxAddChild r h c;
        r ← write_link r parentlink h;
        insert_loop fuel (add_nodes r 1) s (i + 1) child new_parentlink
    end
  else Some (r, h, parentlink).

(** Algorithm 1: the split node, which replaces the node or follows its trimmed part. *)
Definition split_mismatch (r : rax) (h : positive) (parentlink : link) (j : Z) : option (rax * positive * link) :=
  n ← rnode r h;
  next ← last_child n;
  let trimmedlen := j in
  let postfixlen := nsize n - j - 1 in
  c ← ndata n !! Z.to_nat j;
  let '(r, splitnode) := rnew r (raxNewNode 0) in
  let split := mk_rnode false false false [c] [xH] 0 in
  let '(r, trimmed) := if trimmedlen =? 0 then (r, xH) else rnew r (raxNewNode 0) in
  let '(r, postfix) := if postfixlen =? 0 then (r, next) else rnew r (raxNewNode 0) in
  '(r, split, parentlink) ←
    (if j =? 0 then
       r ← write_link r parentlink splitnode;
       Some (r, (if iskey n then raxSetData split (raxGetData n) else split), parentlink)
     else
       let t := mk_rnode (iskey n) (isnull n) (j >? 1) (take (Z.to_nat j) (ndata n)) [splitnode] 0 in
       let t := if iskey n && negb (isnull n) then raxSetData t (raxGetData n) else t in
       r ← write_link (rput r trimmed t) parentlink trimmed;
       Some (add_nodes r 1, split, LKid trimmed 0));
  let r := if postfixlen =? 0 then r
           else add_nodes (rput r postfix (mk_rnode false false (postfixlen >? 1) (drop (Z.to_nat (j + 1)) (ndata n)) [next] 0)) 1 in
  let r := rput r splitnode (mk_rnode (iskey split) (isnull split) (iscompr split) (ndata split) [postfix] (value split)) in
  r ← rfree r h;
  Some (r, splitnode, parentlink).

(** Algorithm 2: the key ends inside the node. *)
Definition split_key (r : rax) (h : positive) (parentlink : link) (j data : Z) : option rax :=
  n ← rnode r h;
  let postfixlen := nsize n - j in
  let '(r, postfix) := rnew r (raxNewNode 0) in
  let '(r, trimmed) := rnew r (raxNewNode 0) in
  next ← last_child n;
  let r := add_nodes (rput r postfix (raxSetData (mk_rnode true false (postfixlen >? 1) (drop (Z.to_nat j) (ndata n)) [next] 0) data)) 1 in
  let t := mk_rnode false false (j >? 1) (take (Z.to_nat j) (ndata n)) [postfix] 0 in
  r ← write_link r parentlink trimmed;
  let r := rput r trimmed (if iskey n then raxSetData t (raxGetData n) else t) in
  rfree (add_ele r 1) h.

(** The result, and [*old] when it is set. *)
Definition raxGenericInsert (r : rax) (s : list Z) (data : Z) (overwrite : bool) : option (rax * Z * option Z) :=
  w ← raxLowWalk r s;
  let i := w_i w in let j := w_split w in let h := w_stop w in let parentlink := w_link w in
  n ← rnode r h;
  if (i =? len s) && (negb (iscompr n) || (j =? 0)) then
    '(r, h) ← (if negb (iskey n) || (isnull n && overwrite) then
                 '(r, h) ← raxReallocForData r h data; r ← write_link r parentlink h; Some (r, h)
               else Some (r, h));
    n ← rnode r h;
    if iskey n then Some ((if overwrite then rput r h (raxSetData n data) else r), 0, Some (raxGetData n))
    else Some (add_ele (rput r h (raxSetData n data)) 1, 1, None)
  else if iscompr n && (i =? len s) then
    r ← split_key r h parentlink j data; Some (r, 1, None)
  else
    '(r, h, parentlink) ← (if iscompr n then split_mismatch r h parentlink j else Some (r, h, parentlink));
    '(r, h, parentlink) ← insert_loop (length s) r s i h parentlink;
    '(r, h) ← raxReallocForData r h data;
    n ← rnode r h;
    let r := if iskey n then r else add_ele r 1 in
    r ← write_link (rput r h (raxSetData n data)) parentlink h;
    Some (r, 1, None).

Definition raxInsert (r : rax) (s : list Z) (data : Z) : option (rax * Z * option Z) := raxGenericInsert r s data true.
Definition raxTryInsert (r : rax) (s : list Z) (data : Z) : option (rax * Z * option Z) := raxGenericInsert r s data false.

(** The inner [None] is raxNotFound. *)
Definition raxFind (r : rax) (s : list Z) : option (option Z) :=
  w ← raxLowWalk r s;
  n ← rnode r (w_stop w);
  if negb (w_i w =? len s) || (iscompr n && negb (w_split w =? 0)) || negb (iskey n) then Some None
  else Some (Some (raxGetData n)).

(** ** Removal *)

(** The position of a child; scanning past the last one is undefined. *)
Fixpoint find_child (ks : list positive) (c : positive) : option nat :=
  match ks with [] => None | k :: ks => if bool_decide (k = c) then Some O else S <$> find_child ks c end.
Definition raxFindParentLink (r : rax) (parent child : positive) : option link :=
  n ← rnode r parent; j ← find_child (kids n) child; Some (LKid parent j).

Definition raxRemoveChild (r : rax) (parent child : positive) : option (rax * positive) :=
  n ← rnode r parent;
  if iscompr n then
    let m := mk_rnode (iskey n) false false [] [] (value n) in
    Some (rput r parent (if iskey n then raxSetData m (raxGetData n) else m), parent)
  else
    j ← find_child (kids n) child;
    Some (rmove r parent (mk_rnode (iskey n) (isnull n) (iscompr n) (delete j (ndata n)) (delete j (kids n)) (value n))).

(** [h->iskey || (!h->iscompr && h->size != 1)] *)
Definition keeps_node (n : raxNode) : bool := iskey n || (negb (iscompr n) && negb (nsize n =? 1)).

(** The nodes freed from a leaf upwards: the node reached, the last one freed, the rest of
    the stack. *)
Fixpoint free_up (fuel : nat) (r : rax) (h : positive) (child : option positive) (ts : list positive) : option (rax * positive * option positive * list positive) :=
  if bool_decide (h = head r) then Some (r, h, child, ts)
  else
    match fuel with
    | O => None
    | S fuel =>
      r ← rfree r h;
      let r := add_nodes r (-1) in
      match ts with
      | [] => None
      | p :: ts =>
        n ← rnode r p;
        if keeps_node n then Some (r, p, Some h, ts) else free_up fuel r p (Some h) ts
      end
    end.

(** The upper node that can be compressed, and its parent. *)
Fixpoint compress_up (r : rax) (h : positive) (ts : list positive) : option (positive * option positive) :=
  match ts with
  | [] => Some (h, None)
  | p :: ts => n ← rnode r p; if keeps_node n then Some (h, Some p) else compress_up r p ts
  end.

(** The chain from [h]: the total size and the number of nodes. *)
Fixpoint chain_scan (fuel : nat) (r : rax) (h : positive) (comprsize nodes : Z) : option (Z * Z) :=
  match fuel with
  | O => None
  | S fuel =>
    n ← rnode r h;
    if nsize n =? 0 then Some (comprsize, nodes)
    else
      h ← last_child n;
      n ← rnode r h;
      if keeps_node n then Some (comprsize, nodes)
      else if comprsize + nsize n >? RAX_NODE_MAX_SIZE then Some (comprsize, nodes)
      else chain_scan fuel r h (comprsize + nsize n) (nodes + 1)
  end.

(** The second scan: the characters copied, which must fit in [size], and the node after
    the chain; its nodes are freed. *)
Fixpoint chain_take (fuel : nat) (r : rax) (h : positive) (acc : list Z) (size : Z) : option (rax * positive * list Z) :=
  match fuel with
  | O => None
  | S fuel =>
    n ← rnode r h;
    if nsize n =? 0 then Some (r, h, acc)
    else if len acc + nsize n >? size then None
    else
      let acc := acc ++ ndata n in
      next ← last_child n;
      r ← rfree r h;
      let r := add_nodes r (-1) in
      n ← rnode r next;
      if keeps_node n then Some (r, next, acc) else chain_take fuel r next acc size
  end.

Definition recompress (r : rax) (h : positive) (ts : list positive) : option rax :=
  '(start, parent) ← compress_up r h ts;
  n ← rnode r start;
  let fuel := S (size (rnodes r)) in
  '(comprsize, nodes) ← chain_scan fuel r start (nsize n) 1;
  if nodes >? 1 then
    let '(r, new) := rnew r (raxNewNode 0) in
    let r := add_nodes r 1 in
    '(r, h, acc) ← chain_take fuel r start [] comprsize;
    let r := rput r new (mk_rnode false false true acc [h] 0) in
    match parent with
    | Some p => l ← raxFindParentLink r p start; write_link r l new
    | None => write_link r LHead new
    end
  else Some r.

(** The result, and [*old]. *)
Definition raxRemove (r : rax) (s : list Z) : option (rax * Z * option Z) :=
  w ← raxLowWalk r s;
  let h := w_stop w in
  n ← rnode r h;
  if negb (w_i w =? len s) || (iscompr n && negb (w_split w =? 0)) || negb (iskey n) then Some (r, 0, None)
  else
    let old := raxGetData n in
    let n := mk_rnode false (isnull n) (iscompr n) (ndata n) (kids n) (value n) in
    let r := add_ele (rput r h n) (-1) in
    '(r, todo) ←
      (if nsize n =? 0 then
         '(r, h, child, ts) ← free_up (S (length (w_stack w))) r h None (w_stack w);
         match child with
         | None => Some (r, None)
         | Some child =>
           '(r, new) ← raxRemoveChild r h child;
           r ← (if bool_decide (new = h) then Some r
                else
                  l ← match ts with [] => Some LHead | p :: _ => raxFindParentLink r p h end;
                  write_link r l new);
           n ← rnode r new;
           Some (r, if (nsize n =? 1) && negb (iskey n) then Some (new, ts) else None)
         end
       else if nsize n =? 1 then Some (r, Some (h, w_stack w))
       else Some (r, None));
    r ← match todo with Some (h, ts) => recompress r h ts | None => Some r end;
    Some (r, 1, Some old).

(** ** The end of a tree *)

(** The values given to the callback, in order. *)
Fixpoint free_nodes (fuel : nat) (r : rax) (p : positive) : option (rax * list Z) :=
  match fuel with
  | O => None
  | S fuel =>
    n ← rnode r p;
    '(r, freed) ← foldr (λ c (acc : option (rax * list Z)), '(r, l) ← acc; '(r, l') ← free_nodes fuel r c; Some (r, l ++ l')) (Some (r, [])) (kids n);
    r ← rfree r p;
    Some (add_nodes r (-1), freed ++ (if iskey n && negb (isnull n) then [raxGetData n] else []))
  end.
Definition raxFreeWithCallback (r : rax) : option (rax * list Z) :=
  '(r, freed) ← free_nodes (S (size (rnodes r))) r (head r);
  if numnodes r =? 0 then Some (r, freed) else None.

Definition raxSize (r : rax) : Z := numele r.
End rax.
