(* ===== verification/RaxSpec.v ===== *)
(** Radix trees: the trees that the nodes represent, and the keys that they hold. *)
From Stdlib Require Import Sorted.
From stdpp Require Import gmap.
From S2P Require Import Prelude Rax.
#[local] Open Scope Z_scope.

(** ** Trees *)

(** A node: its key's value, whether it is compressed, its characters, its children. *)
Inductive tree := Tree (k : option Z) (c : bool) (cs : list Z) (ts : list tree).

Fixpoint tree_induct (P : tree → Prop) (Hn : ∀ k c cs ts, Forall P ts → P (Tree k c cs ts)) (t : tree) : P t :=
  match t with
  | Tree k c cs ts => Hn k c cs ts ((fix go ts := match ts return Forall P ts with [] => Forall_nil_2 P | t :: ts => Forall_cons_2 P t ts (tree_induct P Hn t) (go ts) end) ts)
  end.

(** The tree holds a key with a value. *)
Inductive has : tree → list Z → Z → Prop :=
| has_here v c cs ts : has (Tree (Some v) c cs ts) [] v
| has_edge k cs ts j x t s v : cs !! j = Some x → ts !! j = Some t → has t s v → has (Tree k false cs ts) (x :: s) v
| has_compr k cs t s v : has t s v → has (Tree k true cs [t]) (cs ++ s) v.

(** A compressed node has a string of at least two characters and one child, any other
    one child for each of its characters, which are in order. *)
Definition shape (c : bool) (cs : list Z) (n : nat) : Prop :=
  if c then (2 <= length cs)%nat ∧ n = 1%nat else n = length cs ∧ StronglySorted Z.lt cs.

(** A node without children is a key. *)
Inductive twf : tree → Prop :=
| twf_intro k c cs ts : shape c cs (length ts) → (cs = [] → k ≠ None) → Forall twf ts → twf (Tree k c cs ts).
(** The same, but for the root. *)
Definition rwf (t : tree) : Prop := match t with Tree k c cs ts => shape c cs (length ts) ∧ Forall twf ts end.

Lemma twf_rwf t : twf t → rwf t.
Proof. intros [k c cs ts]. done. Qed.

(** Every tree but an empty root holds a key. *)
Lemma twf_has t : twf t → ∃ s v, has t s v.
Proof.
  induction t as [k c cs ts IH] using tree_induct. intros Hwf. inversion Hwf as [k' c' cs' ts' Hs Hk Hts]; subst. destruct k as [v|]; [by exists [], v; constructor|]. destruct c.
  - destruct Hs as [Hl Hn]. destruct ts as [|t [|? ?]]; try done. apply Forall_cons in IH as [IH _], Hts as [Ht _]. destruct (IH Ht) as (s & v & Hv). exists (cs ++ s), v. by constructor.
  - destruct Hs as [Hl _]. destruct cs as [|x cs]; [by destruct Hk|]. destruct ts as [|t ts]; [done|]. apply Forall_cons in IH as [IH _], Hts as [Ht _]. destruct (IH Ht) as (s & v & Hv). exists (x :: s), v. by apply (has_edge _ _ _ 0 x t).
Qed.

Lemma sorted_inj cs i j x : StronglySorted Z.lt cs → cs !! i = Some x → cs !! j = Some x → i = j.
Proof.
  intros Hs. revert i j. induction Hs as [|y cs Hs IH Hlt]; intros i j Hi Hj; [done|]. destruct i as [|i], j as [|j]; cbn in *; [done| | |by f_equal; apply IH].
  - injection Hi as ->. apply (Forall_lookup_1 _ _ _ _ Hlt) in Hj. lia.
  - injection Hj as ->. apply (Forall_lookup_1 _ _ _ _ Hlt) in Hi. lia.
Qed.

(** What a node holds, by cases. *)
Lemma has_inv k c cs ts s v : has (Tree k c cs ts) s v ↔
  (s = [] ∧ k = Some v) ∨ (c = false ∧ ∃ j x t s', cs !! j = Some x ∧ ts !! j = Some t ∧ s = x :: s' ∧ has t s' v) ∨ (c = true ∧ ∃ t s', ts = [t] ∧ s = cs ++ s' ∧ has t s' v).
Proof.
  split.
  - intros Hh. inversion Hh; subst; [by left|right; left; split; [done|]; by eexists _, _, _, _|right; right; split; [done|]; by eexists _, _].
  - intros [[-> ->]|[(-> & j & x & t & s' & Hx & Ht & -> & Hv)|(-> & t & s' & -> & -> & Hv)]]; [constructor|by eapply has_edge|by constructor].
Qed.

Lemma has_nothing c cs s v : ¬ has (Tree None c cs []) s v.
Proof. rewrite has_inv. intros [[_ ?]|[(_ & j & x & t & s' & _ & Ht & _)|(_ & t & s' & ? & _)]]; done. Qed.

(** ** Contexts *)

(** A node around a place for one of its children. *)
Record frame := mk_frame { f_key : option Z; f_compr : bool; f_cs : list Z; f_left : list tree; f_right : list tree }.
Definition fill1 (f : frame) (t : tree) : tree := Tree (f_key f) (f_compr f) (f_cs f) (f_left f ++ t :: f_right f).
Definition fpath (f : frame) : list Z := if f_compr f then f_cs f else match f_cs f !! length (f_left f) with Some x => [x] | None => [] end.
Record fwf (f : frame) : Prop := {
  fw_shape : shape (f_compr f) (f_cs f) (length (f_left f ++ Tree None false [] [] :: f_right f));
  fw_left : Forall twf (f_left f);
  fw_right : Forall twf (f_right f);
}.

Definition nothing : tree := Tree None false [] [].
(** The keys of a frame that are not in its place. *)
Definition out1 (f : frame) (s : list Z) (v : Z) : Prop :=
  (s = [] ∧ f_key f = Some v) ∨
  (f_compr f = false ∧ ∃ j x t s', j ≠ length (f_left f) ∧ f_cs f !! j = Some x ∧ (f_left f ++ nothing :: f_right f) !! j = Some t ∧ s = x :: s' ∧ has t s' v).

Lemma lookup_other {A} (l r : list A) (t t' : A) j : j ≠ length l → (l ++ t :: r) !! j = (l ++ t' :: r) !! j.
Proof.
  intros Hj. destruct (decide (j < length l)%nat); [by rewrite !lookup_app_l by done|]. rewrite !lookup_app_r by lia. destruct (j - length l)%nat as [|k] eqn:E; [lia|done].
Qed.

Lemma fpath_cons f : fwf f → fpath f ≠ [].
Proof.
  intros [Hs _ _]. unfold fpath, shape in *. destruct (f_compr f); [destruct (f_cs f); [cbn in Hs; lia|done]|]. destruct Hs as [Hn _]. rewrite length_app in Hn. cbn in Hn.
  destruct (lookup_lt_is_Some_2 (f_cs f) (length (f_left f))) as [x ->]; [lia|done].
Qed.

Lemma has_fill1 f t s v : fwf f → has (fill1 f t) s v ↔ (∃ s', s = fpath f ++ s' ∧ has t s' v) ∨ out1 f s v.
Proof.
  intros [Hs _ _]. unfold fill1, fpath, out1, shape in *. destruct f as [k c cs l r]; cbn [f_key f_compr f_cs f_left f_right] in *. rewrite length_app in Hs. cbn [length] in Hs. split.
  - intros Hh. inversion Hh as [v' c' cs' ts'|k' cs' ts' j x t' s' v' Hx Ht Hv|k' cs' t' s' v' Hv]; subst.
    + right. left. done.
    + destruct (decide (j = length l)) as [->|Hne].
      * left. exists s'. rewrite Hx. split; [done|]. rewrite list_lookup_middle in Ht by done. congruence.
      * right. right. split; [done|]. exists j, x, t', s'. split_and!; try done. by rewrite (lookup_other l r nothing t).
    + left. destruct l as [|? [|? ?]]; [|cbn in Hs; lia|cbn in Hs; lia]. destruct r; [|cbn in Hs; lia]. exists s'. cbn in *. split; [done|]. congruence.
  - intros [(s' & -> & Hv)|[[-> ->]|(-> & j & x & t' & s' & Hne & Hx & Ht & -> & Hv)]].
    + destruct c.
      * destruct l; [|cbn in Hs; lia]. destruct r; [|cbn in Hs; lia]. by constructor.
      * destruct (lookup_lt_is_Some_2 cs (length l)) as [x Hx]; [lia|]. rewrite Hx. apply (has_edge _ _ _ (length l) x t); [done|by apply list_lookup_middle|done].
    + constructor.
    + apply (has_edge _ _ _ j x t'); [done| |done]. by rewrite (lookup_other l r t nothing).
Qed.

Lemma out1_apart f s v : fwf f → out1 f s v → ∀ s', s ≠ fpath f ++ s'.
Proof.
  intros Hf Ho s' ->. pose proof (fpath_cons f Hf) as Hne. destruct Ho as [[Hnil _]|(Hc & j & x & t & s2 & Hj & Hx & _ & E & _)]; [by apply app_eq_nil in Hnil as [? _]|].
  destruct Hf as [Hs _ _]. unfold fpath, shape in *. rewrite Hc in *. destruct Hs as [_ Hs]. destruct (f_cs f !! length (f_left f)) as [y|] eqn:Ey; [|done]. injection E as <- _. apply Hj. by eapply sorted_inj.
Qed.

(** A context: the frames from the place up to the root. *)
Fixpoint fill (fs : list frame) (t : tree) : tree := match fs with [] => t | f :: fs => fill fs (fill1 f t) end.
Fixpoint path (fs : list frame) : list Z := match fs with [] => [] | f :: fs => path fs ++ fpath f end.
Fixpoint out (fs : list frame) (s : list Z) (v : Z) : Prop :=
  match fs with [] => False | f :: fs => out fs s v ∨ ∃ s', s = path fs ++ s' ∧ out1 f s' v end.

Lemma has_fill fs : ∀ t s v, Forall fwf fs → has (fill fs t) s v ↔ (∃ s', s = path fs ++ s' ∧ has t s' v) ∨ out fs s v.
Proof.
  induction fs as [|f fs IH]; intros t s v Hf; cbn [fill path out].
  - split; [intros Hv; left; by exists s|]. by intros [(s' & -> & Hv)|[]].
  - apply Forall_cons in Hf as [Hf Hfs]. rewrite IH by done. setoid_rewrite (has_fill1 f t _ v Hf). split.
    + intros [(s1 & -> & [(s2 & -> & Hv)|Ho])|Ho]; [left; exists s2; by rewrite app_assoc|right; right; by exists s1|by right; left].
    + intros [(s1 & -> & Hv)|[Ho|(s1 & -> & Ho)]]; [left; exists (fpath f ++ s1); rewrite app_assoc; split; [done|left; by exists s1]|by right|left; exists s1; split; [done|by right]].
Qed.

Lemma out_apart fs : ∀ s v, Forall fwf fs → out fs s v → ∀ s', s ≠ path fs ++ s'.
Proof.
  induction fs as [|f fs IH]; intros s v Hf Ho s' ->; [done|]. apply Forall_cons in Hf as [Hf Hfs]. cbn [out path] in *. rewrite <- app_assoc in Ho. destruct Ho as [Ho|(s1 & E & Ho)]; [by eapply IH|].
  apply app_inv_head in E. subst s1. by eapply out1_apart.
Qed.

(** ** The map of a tree *)

Definition holds (t : tree) (m : gmap (list Z) Z) : Prop := ∀ s v, has t s v ↔ m !! s = Some v.

(** A change in the place of a context changes the map there. *)
Lemma holds_insert fs t t' m s v : Forall fwf fs → holds (fill fs t) m → (∀ s' v', has t' s' v' ↔ s' = s ∧ v' = v ∨ s' ≠ s ∧ has t s' v') → holds (fill fs t') (<[path fs ++ s := v]> m).
Proof.
  intros Hf Hm Ht s1 v1. rewrite has_fill by done. setoid_rewrite Ht. rewrite lookup_insert_Some, <- (Hm s1 v1), has_fill by done. split.
  - intros [(s' & -> & [[-> ->]|[Hne Hv]])|Ho]; [by left|right|right].
    + split; [intros E; apply app_inv_head in E; congruence|left; by exists s'].
    + split; [intros <-; by eapply out_apart|by right].
  - intros [[<- <-]|[Hne [(s' & -> & Hv)|Ho]]]; [left; exists s; split; [done|by left]| |by right]. left. exists s'. split; [done|right]. split; [|done]. by intros ->.
Qed.

Lemma holds_delete fs t t' m s : Forall fwf fs → holds (fill fs t) m → (∀ s' v', has t' s' v' ↔ s' ≠ s ∧ has t s' v') → holds (fill fs t') (delete (path fs ++ s) m).
Proof.
  intros Hf Hm Ht s1 v1. rewrite has_fill by done. setoid_rewrite Ht. rewrite lookup_delete_Some, <- (Hm s1 v1), has_fill by done. split.
  - intros [(s' & -> & Hne & Hv)|Ho].
    + split; [intros E; apply app_inv_head in E; congruence|left; by exists s'].
    + split; [intros <-; by eapply out_apart|by right].
  - intros [Hne [(s' & -> & Hv)|Ho]]; [|by right]. left. exists s'. split; [done|]. split; [|done]. by intros ->.
Qed.

Lemma holds_same fs t t' m : Forall fwf fs → holds (fill fs t) m → (∀ s' v', has t' s' v' ↔ has t s' v') → holds (fill fs t') m.
Proof. intros Hf Hm Ht s1 v1. rewrite has_fill by done. setoid_rewrite Ht. by rewrite <- has_fill, (Hm s1 v1). Qed.

Lemma holds_lookup fs t m s v : Forall fwf fs → holds (fill fs t) m → m !! (path fs ++ s) = Some v ↔ has t s v.
Proof.
  intros Hf Hm. rewrite <- (Hm _ v), has_fill by done. split; [|intros Hv; left; by exists s]. intros [(s' & E & Hv)|Ho]; [by apply app_inv_head in E; subst|]. by destruct (out_apart _ _ _ Hf Ho s).
Qed.

(** A child that holds nothing can be added. *)
Lemma has_added k cs ts pos c s v : (pos <= length cs)%nat → length ts = length cs →
  has (Tree k false (take pos cs ++ c :: drop pos cs) (take pos ts ++ nothing :: drop pos ts)) s v ↔ has (Tree k false cs ts) s v.
Proof.
  intros Hpos Hlen. rewrite !has_inv. assert (Hl1 : length (take pos cs) = pos) by (rewrite length_take; lia). assert (Hl2 : length (take pos ts) = pos) by (rewrite length_take; lia). split.
  - intros [?|[(_ & j & x & t & s' & Hx & Ht & -> & Hv)|(? & _)]]; [by left| |done]. right. left. split; [done|]. destruct (decide (j < pos)%nat) as [Hj|Hj].
    + exists j, x, t, s'. rewrite lookup_app_l in Hx by lia. rewrite lookup_app_l in Ht by lia. rewrite lookup_take_lt in Hx by lia. rewrite lookup_take_lt in Ht by lia. done.
    + rewrite lookup_app_r in Hx by lia. rewrite lookup_app_r in Ht by lia. rewrite Hl1 in Hx. rewrite Hl2 in Ht. destruct (j - pos)%nat as [|i] eqn:E; [cbn in Ht; injection Ht as <-; by apply has_nothing in Hv|]. change (drop pos cs !! i = Some x) in Hx. change (drop pos ts !! i = Some t) in Ht. rewrite lookup_drop in Hx. rewrite lookup_drop in Ht. by exists (pos + i)%nat, x, t, s'.
  - intros [?|[(_ & j & x & t & s' & Hx & Ht & -> & Hv)|(? & _)]]; [by left| |done]. right. left. split; [done|]. destruct (decide (j < pos)%nat) as [Hj|Hj].
    + exists j, x, t, s'. rewrite (lookup_app_l (take pos cs)), (lookup_app_l (take pos ts)) by lia. rewrite (lookup_take_lt cs), (lookup_take_lt ts) by lia. done.
    + exists (S j), x, t, s'. rewrite (lookup_app_r (take pos cs)), (lookup_app_r (take pos ts)) by lia. rewrite Hl1, Hl2. replace (S j - pos)%nat with (S (j - pos)) by lia. change ((c :: drop pos cs) !! S (j - pos)%nat) with (drop pos cs !! (j - pos)%nat). change ((nothing :: drop pos ts) !! S (j - pos)%nat) with (drop pos ts !! (j - pos)%nat). rewrite !lookup_drop. by replace (pos + (j - pos))%nat with j by lia.
Qed.

Lemma has_compress k cs s v : has (Tree k true cs [nothing]) s v ↔ has (Tree k false [] []) s v.
Proof.
  rewrite !has_inv. split; [intros [?|[(? & _)|(_ & t & s' & [= <-] & _ & Hv)]]; [by left|done|by apply has_nothing in Hv]|]. intros [?|[(_ & j & x & t & s' & Hx & _)|(? & _)]]; [by left|done|done].
Qed.

(** ** Nodes with one child *)

Definition one_child (c : bool) (cs : list Z) : Prop := c = true ∨ length cs = 1%nat.

Lemma has_single k c cs t s v : one_child c cs → has (Tree k c cs [t]) s v ↔ (s = [] ∧ k = Some v) ∨ ∃ s', s = cs ++ s' ∧ has t s' v.
Proof.
  intros Hone. rewrite has_inv. split.
  - intros [?|[(-> & j & x & t' & s' & Hx & Ht & -> & Hv)|(-> & t' & s' & [= <-] & -> & Hv)]]; [by left|right|right; by exists s']. destruct Hone as [?|Hl]; [done|]. destruct cs as [|y [|? ?]]; try done. destruct j as [|j]; [|done].
    injection Hx as ->. injection Ht as ->. by exists s'.
  - intros [?|(s' & -> & Hv)]; [by left|right]. destruct c; [right; split; [done|]; by exists t, s'|left; split; [done|]]. destruct Hone as [?|Hl]; [done|]. destruct cs as [|y [|? ?]]; try done. by exists O, y, t, s'.
Qed.

Lemma one_child_gt (cs : list Z) : cs ≠ [] → one_child (len cs >? 1) cs.
Proof. intros Hne. destruct cs as [|x [|y cs]]; [done|right; done|left]. cbn [length]. lia. Qed.

Lemma shape_gt (cs : list Z) : cs ≠ [] → shape (len cs >? 1) cs 1.
Proof.
  intros Hne. destruct cs as [|x [|y cs]]; [done|split; [done|by repeat constructor]|]. cbn [length]. replace (_ >? 1) with true by lia. split; [cbn; lia|done].
Qed.

(** A node is split into two. *)
Lemma has_split k c cs a b t s v : one_child c cs → cs = a ++ b → a ≠ [] → b ≠ [] → has (Tree k c cs [t]) s v ↔ has (Tree k (len a >? 1) a [Tree None (len b >? 1) b [t]]) s v.
Proof.
  intros Hone -> Ha Hb. rewrite !has_single by (done || by apply one_child_gt). setoid_rewrite has_single; [|by apply one_child_gt]. split.
  - intros [?|(s' & -> & Hv)]; [by left|right]. exists (b ++ s'). rewrite app_assoc. split; [done|right; by exists s'].
  - intros [?|(s1 & -> & [[_ ?]|(s' & -> & Hv)])]; [by left|done|right; exists s'; by rewrite app_assoc].
Qed.

Lemma has_child k c cs t t' s v : (∀ s v, has t s v ↔ has t' s v) → has (Tree k c cs [t]) s v ↔ has (Tree k c cs [t']) s v.
Proof.
  intros Ht. rewrite !has_inv. split.
  - intros [?|[(-> & j & x & t1 & s' & Hx & Ht1 & -> & Hv)|(-> & t1 & s' & [= <-] & -> & Hv)]]; [by left|right; left|right; right; split; [done|]; exists t', s'; by rewrite <- Ht]. split; [done|].
    destruct j as [|j]; [|done]. injection Ht1 as <-. exists O, x, t', s'. by rewrite <- Ht.
  - intros [?|[(-> & j & x & t1 & s' & Hx & Ht1 & -> & Hv)|(-> & t1 & s' & [= <-] & -> & Hv)]]; [by left|right; left|right; right; split; [done|]; exists t, s'; by rewrite Ht]. split; [done|].
    destruct j as [|j]; [|done]. injection Ht1 as <-. exists O, x, t, s'. by rewrite Ht.
Qed.

(** A compressed node that is split at a character: what comes after it, and the whole. *)
Definition after_split (cs : list Z) (j : nat) (t : tree) : tree :=
  if decide (S j = length cs) then t else Tree None (len cs - Z.of_nat j - 1 >? 1) (drop (S j) cs) [t].
Definition split_tree (k : option Z) (cs : list Z) (j : nat) (c : Z) (t : tree) : tree :=
  if decide (j = O) then Tree k false [c] [after_split cs j t] else Tree k (Z.of_nat j >? 1) (take j cs) [Tree None false [c] [after_split cs j t]].

Lemma has_split_tree k cs j c t s v : cs !! j = Some c → (2 <= length cs)%nat → has (split_tree k cs j c t) s v ↔ has (Tree k true cs [t]) s v.
Proof.
  intros Hc Hlen. apply lookup_lt_Some in Hc as Hj.
  assert (Hpost : ∀ k' s v, has (Tree k' false [c] [after_split cs j t]) s v ↔ has (Tree k' (len (c :: drop (S j) cs) >? 1) (c :: drop (S j) cs) [t]) s v).
  { intros k' s' v'. unfold after_split. case_decide as Hd; [rewrite drop_ge by lia; done|]. assert (Hne : drop (S j) cs ≠ []) by (intros E; apply (f_equal length) in E; rewrite length_drop in E; cbn in E; lia).
    rewrite (has_split k' _ (c :: drop (S j) cs) [c] (drop (S j) cs)); [|by apply one_child_gt|done|done|done]. rewrite length_drop. replace (Z.of_nat (length cs - S j)) with (len cs - Z.of_nat j - 1) by lia. done. }
  assert (Hdr : drop j cs = c :: drop (S j) cs) by (by apply drop_S). unfold split_tree. case_decide as Hd.
  - subst j. rewrite Hpost. change (drop 0 cs) with cs in Hdr. rewrite <- Hdr. by replace (len cs >? 1) with true by lia.
  - assert (Htk : take j cs ≠ []) by (intros E; apply (f_equal length) in E; rewrite length_take in E; cbn in E; lia).
    rewrite (has_split k true cs (take j cs) (c :: drop (S j) cs)); [|by left|by rewrite <- Hdr, take_drop|done|done].
    rewrite length_take. replace (Z.of_nat (j `min` length cs)) with (Z.of_nat j) by lia. apply has_child. apply Hpost.
Qed.
