(* ===== verification/RaxHeap.v ===== *)
(** Radix trees: the nodes of the heap represent a tree, around a place of it. *)
From Stdlib Require Import Sorted.
From stdpp Require Import gmap.
From S2P Require Import Prelude Rax RaxSpec.
#[local] Open Scope Z_scope.

Implicit Types (h : gmap positive raxNode).

(** Lookups in a heap of known addresses. *)
Ltac look := cbn [rnodes rput set_nodes add_nodes add_ele]; repeat first [rewrite lookup_insert_eq | rewrite lookup_delete_eq | rewrite lookup_insert_ne by congruence | rewrite lookup_delete_ne by congruence].

Definition node_key (n : raxNode) : option Z := if iskey n then Some (raxGetData n) else None.
Definition node_is (n : raxNode) (k : option Z) (c : bool) (cs : list Z) : Prop := node_key n = k ∧ iscompr n = c ∧ ndata n = cs.

(** The tree at an address, and the addresses of its nodes. *)
Inductive repr h : positive → tree → list positive → Prop :=
| repr_node p n k c cs ts L : h !! p = Some n → node_is n k c cs → reprs h (kids n) ts L → repr h p (Tree k c cs ts) (p :: L)
with reprs h : list positive → list tree → list positive → Prop :=
| reprs_nil : reprs h [] [] []
| reprs_cons p ps t ts L1 L2 : repr h p t L1 → reprs h ps ts L2 → reprs h (p :: ps) (t :: ts) (L1 ++ L2).

Scheme repr_mut := Induction for repr Sort Prop with reprs_mut := Induction for reprs Sort Prop.
Combined Scheme repr_both from repr_mut, reprs_mut.

Lemma agree_both h : (∀ p t L, repr h p t L → ∀ h', (∀ q, q ∈ L → h' !! q = h !! q) → repr h' p t L) ∧ (∀ ps ts L, reprs h ps ts L → ∀ h', (∀ q, q ∈ L → h' !! q = h !! q) → reprs h' ps ts L).
Proof.
  apply (repr_both h (λ p t L _, ∀ h', (∀ q, q ∈ L → h' !! q = h !! q) → repr h' p t L) (λ ps ts L _, ∀ h', (∀ q, q ∈ L → h' !! q = h !! q) → reprs h' ps ts L)).
  - intros p n k c cs ts L Hn Hi _ IH h' Ha. apply (repr_node _ _ n); [by rewrite Ha by (by left)|done|]. apply IH. intros q Hq. apply Ha. by right.
  - intros h' _. constructor.
  - intros p ps t ts L1 L2 _ IH1 _ IH2 h' Ha. constructor; [apply IH1|apply IH2]; intros q Hq; apply Ha, elem_of_app; [by left|by right].
Qed.

Lemma repr_agree h h' p t L : repr h p t L → (∀ q, q ∈ L → h' !! q = h !! q) → repr h' p t L.
Proof. intros Hr. by apply (proj1 (agree_both h) _ _ _ Hr). Qed.
Lemma reprs_agree h h' ps ts L : reprs h ps ts L → (∀ q, q ∈ L → h' !! q = h !! q) → reprs h' ps ts L.
Proof. intros Hr. by apply (proj2 (agree_both h) _ _ _ Hr). Qed.

Lemma live_both h : (∀ p t L, repr h p t L → ∀ q, q ∈ L → is_Some (h !! q)) ∧ (∀ ps ts L, reprs h ps ts L → ∀ q, q ∈ L → is_Some (h !! q)).
Proof.
  apply (repr_both h (λ p t L _, ∀ q, q ∈ L → is_Some (h !! q)) (λ ps ts L _, ∀ q, q ∈ L → is_Some (h !! q))).
  - intros p n k c cs ts L Hn _ _ IH q [->|Hq]%elem_of_cons; [by exists n|by apply IH].
  - intros q ?%elem_of_nil. done.
  - intros p ps t ts L1 L2 _ IH1 _ IH2 q [Hq|Hq]%elem_of_app; [by apply IH1|by apply IH2].
Qed.

Lemma repr_live h p t L q : repr h p t L → q ∈ L → is_Some (h !! q).
Proof. intros Hr. by apply (proj1 (live_both h) _ _ _ Hr). Qed.

Lemma repr_head h p t L : repr h p t L → ∃ M, L = p :: M.
Proof. intros [? n ? ? ? ? M]. by exists M. Qed.

Lemma repr_in h p t L : repr h p t L → p ∈ L.
Proof. intros (M & ->)%repr_head. by left. Qed.

Lemma reprs_length h ps ts L : reprs h ps ts L → length ps = length ts.
Proof. induction 1; cbn; congruence. Qed.

Lemma reprs_app h ps1 ts1 L1 ps2 ts2 L2 : reprs h ps1 ts1 L1 → reprs h ps2 ts2 L2 → reprs h (ps1 ++ ps2) (ts1 ++ ts2) (L1 ++ L2).
Proof.
  intros H1 H2. induction H1 as [|p ps t ts M1 M2 Hp _ IH]; [done|]. cbn [app]. rewrite <- app_assoc. by constructor.
Qed.

Lemma reprs_app_inv h ts1 : ∀ ps ts2 L, reprs h ps (ts1 ++ ts2) L → ∃ ps1 ps2 L1 L2, ps = ps1 ++ ps2 ∧ L = L1 ++ L2 ∧ reprs h ps1 ts1 L1 ∧ reprs h ps2 ts2 L2.
Proof.
  induction ts1 as [|t ts1 IH]; intros ps ts2 L Hr; [exists [], ps, [], L; split_and!; [done|done|constructor|done]|]. cbn [app] in Hr. inversion Hr as [|p ps' t' ts' M1 M2 Hp Hps]; subst.
  destruct (IH ps' ts2 M2 Hps) as (ps1 & ps2 & L1 & L2 & -> & -> & Hr1 & Hr2). exists (p :: ps1), ps2, (M1 ++ L1), L2. split_and!; [done|by rewrite app_assoc|by constructor|done].
Qed.

Lemma reprs_one h p t L : reprs h [p] [t] L ↔ repr h p t L.
Proof.
  split; [|intros Hr; rewrite <- (app_nil_r L); by repeat constructor]. intros Hr. inversion Hr as [|? ? ? ? M1 M2 Hp Hn]; subst. inversion Hn; subst. by rewrite app_nil_r.
Qed.

(** A child of a node. *)
Lemma reprs_lookup h ps ts L j t : reprs h ps ts L → ts !! j = Some t →
  ∃ ps1 q ps2 L1 M L2, ps = ps1 ++ q :: ps2 ∧ length ps1 = j ∧ L = L1 ++ M ++ L2 ∧ reprs h ps1 (take j ts) L1 ∧ repr h q t M ∧ reprs h ps2 (drop (S j) ts) L2.
Proof.
  intros Hr Ht. rewrite <- (take_drop_middle ts j t Ht) in Hr. apply reprs_app_inv in Hr as (ps1 & ps2 & L1 & L2 & -> & -> & Hr1 & Hr2). inversion Hr2 as [|q ps' t' ts' M M2 Hq Hr3]; subst.
  exists ps1, q, ps', L1, M, M2. split_and!; try done. apply reprs_length in Hr1. rewrite Hr1, length_take. apply lookup_lt_Some in Ht. lia.
Qed.

(** ** Contexts *)

(** The nodes of a context, around the address in its place; [st] has those on the way to
    the root, the nearest first. *)
Inductive rctx h : list frame → positive → positive → list positive → list positive → Prop :=
| rctx_nil q : rctx h [] q q [] []
| rctx_cons f fs p n q root st ps1 ps2 L1 L2 L : h !! p = Some n → node_is n (f_key f) (f_compr f) (f_cs f) → kids n = ps1 ++ q :: ps2 →
    reprs h ps1 (f_left f) L1 → reprs h ps2 (f_right f) L2 → rctx h fs p root st L → rctx h (f :: fs) q root (p :: st) (p :: L1 ++ L2 ++ L).

Lemma rctx_agree h h' fs q root st L : rctx h fs q root st L → (∀ p, p ∈ L → h' !! p = h !! p) → rctx h' fs q root st L.
Proof.
  induction 1 as [q|f fs p n q root st ps1 ps2 L1 L2 L Hp Hn Hk H1 H2 _ IH]; intros Ha; [constructor|].
  assert (Hin : ∀ x, x ∈ L1 ∨ x ∈ L2 ∨ x ∈ L → h' !! x = h !! x) by (intros x Hx; apply Ha; right; rewrite !elem_of_app; tauto).
  apply (rctx_cons _ f fs p n q root st ps1 ps2); [by rewrite Ha by (by left)|done|done|eapply reprs_agree; [done|intros; apply Hin; tauto]|eapply reprs_agree; [done|intros; apply Hin; tauto]|apply IH; intros; apply Hin; tauto].
Qed.

(** The link to the place. *)
Definition link_of (fs : list frame) (st : list positive) : link :=
  match fs, st with f :: _, p :: _ => LKid p (length (f_left f)) | _, _ => LHead end.

(** ** The whole state around a place *)

Record at_place (r : rax) (fs : list frame) (q : positive) (t : tree) (st L M : list positive) : Prop := {
  p_ctx : rctx (rnodes r) fs q (head r) st L;
  p_repr : repr (rnodes r) q t M;
  p_nodup : NoDup (L ++ M);
  p_dom : ∀ p, is_Some (rnodes r !! p) → p ∈ L ++ M;
}.

Lemma place_up r f fs q t st L M : at_place r (f :: fs) q t st L M → ∃ p st' L' M', st = p :: st' ∧ at_place r fs p (fill1 f t) st' L' M' ∧ L' ++ M' ≡ₚ L ++ M.
Proof.
  intros [Hc Hr Hnd Hd]. inversion Hc as [|f' fs' p n q' root' st' ps1 ps2 L1 L2 L' Hp Hi Hk H1 H2 Hc']; subst. exists p, st', L', (p :: L1 ++ M ++ L2).
  assert (Hperm : L' ++ (p :: L1 ++ M ++ L2) ≡ₚ (p :: L1 ++ L2 ++ L') ++ M) by solve_Permutation. split_and!; [done| |done]. constructor; [done| |by rewrite Hperm|intros x Hx; rewrite Hperm; by apply Hd].
  apply (repr_node _ p n); [done|done|]. rewrite Hk. apply reprs_app; [done|]. by constructor.
Qed.

(** Down to a child. *)
Lemma place_down r fs p k c cs ts st L M j t : at_place r fs p (Tree k c cs ts) st L M → ts !! j = Some t →
  ∃ q L' M', at_place r (mk_frame k c cs (take j ts) (drop (S j) ts) :: fs) q t (p :: st) L' M' ∧ L' ++ M' ≡ₚ L ++ M ∧ (∃ n, rnodes r !! p = Some n ∧ kids n !! j = Some q).
Proof.
  intros [Hc Hr Hnd Hd] Ht. inversion Hr as [p' n k' c' cs' ts' M' Hp Hi Hs]; subst. destruct (reprs_lookup _ _ _ _ j t Hs Ht) as (ps1 & q & ps2 & L1 & N & L2 & Hk & Hj & -> & H1 & Hq & H2).
  exists q, (p :: L1 ++ L2 ++ L), N. assert (Hperm : (p :: L1 ++ L2 ++ L) ++ N ≡ₚ L ++ p :: L1 ++ N ++ L2) by solve_Permutation. split_and!; [|done|].
  - constructor; [|done|by rewrite Hperm|intros x Hx; rewrite Hperm; by apply Hd]. by apply (rctx_cons _ (mk_frame k c cs (take j ts) (drop (S j) ts)) fs p n q _ _ ps1 ps2).
  - exists n. split; [done|]. rewrite Hk, <- Hj. by apply list_lookup_middle.
Qed.

(** ** Changes in a place *)

(** The link to the place is written. *)
Lemma link_write r r1 fs q st L q' : rctx (rnodes r) fs q (head r) st L → NoDup L → head r1 = head r → (∀ p, p ∈ L → rnodes r1 !! p = rnodes r !! p) →
  ∃ r2, write_link r1 (link_of fs st) q' = Some r2 ∧ numele r2 = numele r1 ∧ numnodes r2 = numnodes r1 ∧ rctx (rnodes r2) fs q' (head r2) st L ∧
    (∀ p, p ∉ L → rnodes r2 !! p = rnodes r1 !! p) ∧ (∀ p, is_Some (rnodes r2 !! p) ↔ is_Some (rnodes r1 !! p)).
Proof.
  intros Hc Hnd Hhd Hag. inversion Hc as [|f fs' p n q0 root st' ps1 ps2 L1 L2 L' Hp Hi Hk H1 H2 Hc']; subst; cbn [link_of write_link].
  - eexists. split; [done|]. cbn [head rnodes]. split_and!; try done. constructor.
  - unfold rnode. rewrite Hag by (by left). rewrite Hp. mnext. unfold set_kid. pose proof (reprs_length _ _ _ _ H1) as Hl1. rewrite <- Hl1. rewrite bool_decide_true by (rewrite Hk, length_app; cbn; lia). mnext.
    rewrite Hk, insert_app_r_alt, Nat.sub_diag by lia. cbn [insert list_insert]. eexists. split; [done|]. apply NoDup_cons in Hnd as [Hpn Hnd]. rewrite !elem_of_app in Hpn. cbn [rput set_nodes rnodes head].
    set (h2 := <[p:=mk_rnode (iskey n) (isnull n) (iscompr n) (ndata n) (ps1 ++ q' :: ps2) (value n)]> (rnodes r1)).
    assert (Hag' : ∀ x, x ≠ p → h2 !! x = rnodes r1 !! x) by (intros x Hx; unfold h2; by rewrite lookup_insert_ne).
    assert (Hin : ∀ x, x ∈ L1 ∨ x ∈ L2 ∨ x ∈ L' → h2 !! x = rnodes r !! x).
    { intros x Hx. rewrite Hag' by (intros ->; tauto). apply Hag. right. rewrite !elem_of_app. tauto. }
    split_and!; [done|done| |intros x Hx; apply Hag'; intros ->; apply Hx; by left|].
    + eapply (rctx_cons _ f fs' p _ q' _ _ ps1 ps2); [unfold h2; by rewrite lookup_insert_eq|by destruct Hi as (? & ? & ?)|done|eapply reprs_agree; [done|intros; apply Hin; tauto]|eapply reprs_agree; [done|intros; apply Hin; tauto]|].
      rewrite Hhd. eapply rctx_agree; [done|]. intros; apply Hin; tauto.
    + intros x. destruct (decide (x = p)) as [->|Hne]; [unfold h2; rewrite lookup_insert_eq, Hag, Hp by (by left); split; by eexists|by rewrite Hag'].
Qed.

(** The subtree is replaced, and then the link to it is written. *)
Lemma place_replace r r1 fs q st L q' t' M' : rctx (rnodes r) fs q (head r) st L → head r1 = head r → (∀ p, p ∈ L → rnodes r1 !! p = rnodes r !! p) →
  repr (rnodes r1) q' t' M' → NoDup (L ++ M') → (∀ p, is_Some (rnodes r1 !! p) → p ∈ L ++ M') →
  ∃ r2, write_link r1 (link_of fs st) q' = Some r2 ∧ numele r2 = numele r1 ∧ numnodes r2 = numnodes r1 ∧ at_place r2 fs q' t' st L M' ∧ (∀ p, p ∈ M' → rnodes r2 !! p = rnodes r1 !! p).
Proof.
  intros Hc Hhd Hag Hr Hnd Hd. pose proof Hnd as (HndL & Hdis & _)%NoDup_app. destruct (link_write r r1 fs q st L q' Hc HndL Hhd Hag) as (r2 & Hw & He & Hn & Hc2 & Hout & Hdom).
  assert (HM : ∀ p, p ∈ M' → rnodes r2 !! p = rnodes r1 !! p) by (intros p Hp; apply Hout; intros Hin; by apply (Hdis p)). exists r2. split_and!; try done. constructor; [done|by eapply repr_agree|done|]. intros p Hp. apply Hd. by apply Hdom.
Qed.

(** The subtree is replaced under the same address. *)
Lemma place_same r r1 fs q t st L M t' M' : at_place r fs q t st L M → head r1 = head r → (∀ p, p ∈ L → rnodes r1 !! p = rnodes r !! p) →
  repr (rnodes r1) q t' M' → NoDup (L ++ M') → (∀ p, is_Some (rnodes r1 !! p) → p ∈ L ++ M') → at_place r1 fs q t' st L M'.
Proof. intros [Hc _ _ _] Hhd Hag Hr Hnd Hd. constructor; [|done|done|done]. rewrite Hhd. by eapply rctx_agree. Qed.

(** The node in the place gets new contents, with the same children. *)
Lemma place_set r fs q k c cs ts st L M n k' : at_place r fs q (Tree k c cs ts) st L M → node_is n k' c cs → (∀ n0, rnodes r !! q = Some n0 → kids n = kids n0) → at_place (rput r q n) fs q (Tree k' c cs ts) st L M.
Proof.
  intros Hp Hn Hk. pose proof Hp as [Hc Hr Hnd Hd]. inversion Hr as [q' n0 ? ? ? ? M0 Hq _ Hs]; subst. assert (Hqn : q ∉ L ∧ q ∉ M0).
  { apply NoDup_app in Hnd as (_ & Hx & Hy). apply NoDup_cons in Hy as [Hy _]. split; [|done]. intros Hin. apply (Hx q Hin). by left. }
  eapply place_same; [done|done|..].
  - intros p Hp'. cbn [rput set_nodes rnodes]. rewrite lookup_insert_ne; [done|]. intros ->. tauto.
  - apply (repr_node _ _ n); [cbn; by rewrite lookup_insert_eq|done|]. rewrite (Hk n0 Hq). eapply reprs_agree; [done|]. intros p Hp'. cbn [rput set_nodes rnodes]. rewrite lookup_insert_ne; [done|]. intros ->. tauto.
  - done.
  - intros p. cbn [rput set_nodes rnodes]. destruct (decide (p = q)) as [->|Hne]; [intros _; apply elem_of_app; right; by left|]. rewrite lookup_insert_ne by done. apply Hd.
Qed.

Lemma reprs_live h ps ts L q : reprs h ps ts L → q ∈ L → is_Some (h !! q).
Proof. intros Hr. by apply (proj2 (live_both h) _ _ _ Hr). Qed.

Lemma rctx_live h fs q root st L p : rctx h fs q root st L → p ∈ L → is_Some (h !! p).
Proof.
  induction 1 as [|f fs p' n q root st ps1 ps2 L1 L2 L Hp Hn Hk H1 H2 _ IH]; [by intros ?%elem_of_nil|]. rewrite elem_of_cons, !elem_of_app. intros [->|[Hin|[Hin|Hin]]]; [by exists n|exact (reprs_live _ _ _ _ _ H1 Hin)|exact (reprs_live _ _ _ _ _ H2 Hin)|by apply IH].
Qed.

Lemma place_live r fs q t st L M p : at_place r fs q t st L M → is_Some (rnodes r !! p) ↔ p ∈ L ++ M.
Proof. intros [Hc Hr _ Hd]. split; [apply Hd|]. intros [Hin|Hin]%elem_of_app; [by eapply rctx_live|by eapply repr_live]. Qed.

(** The node in the place is reallocated, with new contents, and linked again. *)
Lemma place_move r r0 fs q st L M1 q' n' k' c' cs' ts' : rctx (rnodes r) fs q (head r) st L → head r0 = head r → (∀ p, p ∈ L → rnodes r0 !! p = rnodes r !! p) →
  (∀ p, is_Some (rnodes r0 !! p) ↔ p ∈ L ++ q :: M1) → NoDup (L ++ q :: M1) → q' = q ∨ rnodes r0 !! q' = None → node_is n' k' c' cs' → reprs (rnodes r0) (kids n') ts' M1 →
  ∃ r2, write_link (set_nodes r0 (<[q' := n']> (delete q (rnodes r0)))) (link_of fs st) q' = Some r2 ∧ numele r2 = numele r0 ∧ numnodes r2 = numnodes r0 ∧
    at_place r2 fs q' (Tree k' c' cs' ts') st L (q' :: M1) ∧ rnodes r2 !! q' = Some n'.
Proof.
  intros Hp Hhd Hag Hd Hnd Hq Hn Hs. assert (Hq' : q' ∉ L ∧ q' ∉ M1).
  { apply NoDup_app in Hnd as (_ & Hx & Hy). apply NoDup_cons in Hy as [Hy _]. destruct Hq as [->|Hq]; [split; [intros Hin; apply (Hx q Hin); by left|done]|].
    split; intros Hin; (assert (is_Some (rnodes r0 !! q')) as [? ?]; [apply Hd; rewrite elem_of_app, elem_of_cons; tauto|congruence]). }
  assert (HqL : q ∉ L ∧ q ∉ M1) by (apply NoDup_app in Hnd as (_ & Hx & Hy); apply NoDup_cons in Hy as [Hy _]; split; [intros Hin; apply (Hx q Hin); by left|done]).
  assert (Hout : ∀ p, p ∈ L ∨ p ∈ M1 → <[q':=n']> (delete q (rnodes r0)) !! p = rnodes r0 !! p).
  { intros p Hin. rewrite lookup_insert_ne, lookup_delete_ne; [done|intros <-; tauto|intros <-; tauto]. }
  destruct (place_replace r (set_nodes r0 (<[q':=n']> (delete q (rnodes r0)))) fs q st L q' (Tree k' c' cs' ts') (q' :: M1) Hp Hhd) as (r2 & Hw & He & Hnn & Hp2 & Hsame).
  - intros p Hin. cbn [rnodes set_nodes]. rewrite Hout by tauto. by apply Hag.
  - apply (repr_node _ _ n'); [cbn; by rewrite lookup_insert_eq|done|]. eapply reprs_agree; [done|]. intros p Hin. apply Hout. tauto.
  - apply NoDup_app in Hnd as (Hx & Hy & Hz). apply NoDup_cons in Hz as [Hz1 Hz2]. apply NoDup_app. split_and!; [done| |apply NoDup_cons; tauto]. intros p Hin [->|Hin']%elem_of_cons; [tauto|]. apply (Hy p Hin). by right.
  - intros p. cbn [rnodes set_nodes]. destruct (decide (p = q')) as [->|Hne]; [intros _; apply elem_of_app; right; by left|]. rewrite lookup_insert_ne by done. intros Hx. destruct (decide (p = q)) as [->|Hne']; [rewrite lookup_delete_eq in Hx; by destruct Hx|].
    rewrite lookup_delete_ne in Hx by done. apply Hd in Hx. rewrite elem_of_app, elem_of_cons in Hx |- *. tauto.
  - exists r2. split_and!; try done. rewrite Hsame by (by left). cbn. by rewrite lookup_insert_eq.
Qed.
