(* ===== verification/RaxTheorems.v ===== *)
(** Radix trees implement maps from strings to values. *)
From Stdlib Require Import Sorted.
From stdpp Require Import gmap.
From S2P Require Import Prelude Rax RaxSpec RaxHeap.
#[local] Open Scope Z_scope.

(** ** Well-formed trees around a place *)

Definition hole_wf (fs : list frame) (t : tree) : Prop := Forall fwf fs ∧ match fs with [] => rwf t | _ => twf t end.

Lemma hole_rwf fs t : hole_wf fs t → rwf t.
Proof. intros [_ Ht]. destruct fs; [done|by apply twf_rwf]. Qed.

Lemma fill1_twf f t : fwf f → twf t → twf (fill1 f t).
Proof.
  intros [Hs Hl Hr] Ht. constructor; [by rewrite length_app in *| |apply Forall_app; split; [done|by apply Forall_cons]]. intros E. unfold shape in Hs. rewrite E, length_app in Hs. cbn in Hs. destruct (f_compr f); lia.
Qed.

Lemma hole_up f fs t : hole_wf (f :: fs) t → hole_wf fs (fill1 f t).
Proof. intros [Hf Ht]. apply Forall_cons in Hf as [Hf Hfs]. split; [done|]. destruct fs; [apply twf_rwf|]; by apply fill1_twf. Qed.

Lemma hole_fill fs t : hole_wf fs t → rwf (fill fs t).
Proof. revert t. induction fs as [|f fs IH]; intros t Hh; [apply Hh|]. apply IH. by apply hole_up. Qed.

Lemma hole_down fs k c cs ts j t : hole_wf fs (Tree k c cs ts) → ts !! j = Some t → hole_wf (mk_frame k c cs (take j ts) (drop (S j) ts) :: fs) t.
Proof.
  intros Hh Ht. pose proof (hole_rwf _ _ Hh) as [Hs Hts]. split; [|by apply (Forall_lookup_1 _ _ _ _ Hts Ht)]. apply Forall_cons. split; [|apply Hh]. constructor; cbn [f_compr f_cs f_left f_right].
  - rewrite length_app. cbn [length]. rewrite length_take, length_drop. apply lookup_lt_Some in Ht as Hlt. replace (_ + _)%nat with (length ts) by lia. done.
  - by apply Forall_take.
  - by apply Forall_drop.
Qed.

Lemma fill1_child k c cs ts j t : ts !! j = Some t → fill1 (mk_frame k c cs (take j ts) (drop (S j) ts)) t = Tree k c cs ts.
Proof. intros Ht. unfold fill1. cbn. by rewrite take_drop_middle. Qed.

(** ** Walking *)

Lemma common_spec v s : let j := common v s in take j v = take j s ∧ (j <= length v)%nat ∧ (j <= length s)%nat ∧ (∀ x y, v !! j = Some x → s !! j = Some y → x ≠ y).
Proof.
  revert s. induction v as [|x v IH]; intros s; [cbn; split_and!; [done|lia|lia|done]|]. destruct s as [|y s]; [cbn; split_and!; [done|lia|lia|done]|]. cbn [common]. destruct (x =? y) eqn:E; to_prop.
  - subst y. destruct (IH s) as (Ht & Hl & Hr & Hne). cbn. split_and!; [by rewrite Ht|lia|lia|done].
  - cbn. split_and!; [done|lia|lia|congruence].
Qed.

Lemma common_whole v s : common v s = length v → ∃ s', s = v ++ s'.
Proof. intros Hc. destruct (common_spec v s) as (Ht & _). rewrite Hc, firstn_all in Ht. exists (drop (length v) s). rewrite Ht at 1. by rewrite take_drop. Qed.

Lemma edge_spec v c : (edge v c <= length v)%nat ∧ (edge v c = length v → c ∉ v) ∧ (edge v c ≠ length v → v !! edge v c = Some c).
Proof.
  induction v as [|x v (IH1 & IH2 & IH3)]; cbn; [split_and!; [done|by intros _ ?%elem_of_nil|done]|]. destruct (x =? c) eqn:E; to_prop; [subst; split_and!; [lia|done|done]|].
  split_and!; [lia|intros El [->|Hin]%elem_of_cons; [done|apply IH2; [lia|done]]|intros; apply IH3; lia].
Qed.

(** Why the walk stops at a node: the string is over, or no edge has its next character, or
    it leaves the string of a compressed node after [j] characters. *)
Definition stopped (t : tree) (rest : list Z) (j : nat) : Prop :=
  match t with
  | Tree k c cs ts =>
    (rest = [] ∧ j = O) ∨ (c = false ∧ j = O ∧ ∃ x rest', rest = x :: rest' ∧ x ∉ cs) ∨ (c = true ∧ rest ≠ [] ∧ j = common cs rest ∧ (j < length cs)%nat)
  end.

Section rax.
Context `{RaxAlloc}.

Lemma rax_walk_spec r s : ∀ fuel fs q t st L M rest i, at_place r fs q t st L M → hole_wf fs t → s = path fs ++ rest → i = len (path fs) → (length rest < fuel)%nat →
  ∃ fs' q' t' st' L' M' rest' j, walk_loop fuel r s q (link_of fs st) i st = Some (mk_walk (len (path fs') + Z.of_nat j) q' (link_of fs' st') (Z.of_nat j) st') ∧
    at_place r fs' q' t' st' L' M' ∧ hole_wf fs' t' ∧ fill fs' t' = fill fs t ∧ s = path fs' ++ rest' ∧ L' ++ M' ≡ₚ L ++ M ∧ stopped t' rest' j.
Proof.
  induction fuel as [|fuel IH]; intros fs q t st L M rest i Hp Hh Hs Hi Hf; [lia|]. destruct t as [k c cs ts]. pose proof (p_repr _ _ _ _ _ _ _ Hp) as Hr. inversion Hr as [q' n k' c' cs' ts' M' Hn Hni Hkids]; subst q' k' c' cs' ts' M.
  destruct Hni as (Hk & Hc & Hcs). pose proof (hole_rwf _ _ Hh) as [Hsh Hts]. cbn [walk_loop]. unfold rnode. rewrite Hn. mnext. unfold nsize. rewrite Hcs, Hc.
  assert (Hstop : ∀ j i1 j1, i1 = i + Z.of_nat j → j1 = Z.of_nat j → stopped (Tree k c cs ts) rest j → ∃ fs' q' t' st' L' M1 rest' j', Some (mk_walk i1 q (link_of fs st) (if c then j1 else 0) st) = Some (mk_walk (len (path fs') + Z.of_nat j') q' (link_of fs' st') (Z.of_nat j') st') ∧
    at_place r fs' q' t' st' L' M1 ∧ hole_wf fs' t' ∧ fill fs' t' = fill fs (Tree k c cs ts) ∧ s = path fs' ++ rest' ∧ L' ++ M1 ≡ₚ L ++ (q :: M') ∧ stopped t' rest' j').
  { intros j i1 j1 -> -> Hst. exists fs, q, (Tree k c cs ts), st, L, (q :: M'), rest, j. split_and!; try done. subst i. do 2 f_equal. destruct c; [done|]. destruct Hst as [[_ ->]|[(_ & -> & _)|(? & _)]]; done. }
  destruct ((len cs =? 0) || (len s <=? i)) eqn:Eend.
  { apply (Hstop O); [lia|lia|]. destruct rest as [|x rest]; [by left|]. right. left. apply orb_true_iff in Eend as [Eend|Eend]; to_prop; [|rewrite Hs, length_app in Eend; cbn in Eend; lia].
    destruct cs; [|cbn in Eend; lia]. destruct c; [cbn in Hsh; lia|]. split_and!; [done|done|]. exists x, rest. split; [done|apply not_elem_of_nil]. }
  apply orb_false_iff in Eend as [Enz Elt]; to_prop. destruct rest as [|x rest]; [rewrite Hs, app_nil_r in Elt; lia|]. assert (Hdrop : drop (Z.to_nat i) s = x :: rest) by (rewrite Hs, Hi, Nat2Z.id; apply drop_app_length).
  destruct c.
  - rewrite Hdrop. destruct (Z.of_nat (common cs (x :: rest)) =? len cs) eqn:Ec; to_prop; cbn [negb].
    + destruct (common_whole cs (x :: rest)) as [rest' Erest]; [lia|]. destruct ts as [|t [|? ?]]; [cbn in Hsh; lia| |cbn in Hsh; lia]. destruct (place_down r fs q k true cs [t] st L (q :: M') 0 t Hp eq_refl) as (q1 & L1 & M1 & Hp1 & Hperm & n' & Hn' & Hk1).
      rewrite Hn in Hn'. injection Hn' as <-. rewrite Hk1. mnext. set (f := mk_frame k true cs (take 0 [t]) (drop 1 [t])) in *.
      destruct (IH (f :: fs) q1 t (q :: st) L1 M1 rest' (i + Z.of_nat (common cs (x :: rest))) Hp1) as (fs' & q' & t' & st' & L' & M2 & rest2 & j & Hw & Hp2 & Hh2 & Hfill & Hs2 & Hperm2 & Hst); [by apply hole_down| | | |].
      * cbn [path]. rewrite Hs, Erest, <- app_assoc. done.
      * cbn [path]. rewrite length_app. unfold f. cbn [fpath f_compr f_cs]. lia.
      * rewrite Erest, length_app in Hf. destruct cs; [cbn in *; lia|]. cbn [length] in Hf. lia.
      * exists fs', q', t', st', L', M2, rest2, j. split_and!; [exact Hw|done|done|exact Hfill|done|by rewrite Hperm2|done].
    + apply (Hstop (common cs (x :: rest))); [lia|lia|]. right. right. split_and!; try done. destruct (common_spec cs (x :: rest)) as (_ & Hle & _). lia.
  - assert (s !! Z.to_nat i = Some x) as -> by (rewrite Hs, Hi, Nat2Z.id; by apply list_lookup_middle). mnext. destruct (edge_spec cs x) as (He1 & He2 & He3). destruct (Z.of_nat (edge cs x) =? len cs) eqn:Ee; to_prop.
    + apply (Hstop O i 0); [lia|lia|]. right. left. split_and!; [done|done|]. exists x, rest. split; [done|apply He2; lia].
    + destruct Hsh as [Hlen Hsort]. destruct (lookup_lt_is_Some_2 ts (edge cs x)) as [t Ht]; [lia|]. destruct (place_down r fs q k false cs ts st L (q :: M') (edge cs x) t Hp Ht) as (q1 & L1 & M1 & Hp1 & Hperm & n' & Hn' & Hk1).
      rewrite Hn in Hn'. injection Hn' as <-. rewrite Hk1. mnext. set (f := mk_frame k false cs (take (edge cs x) ts) (drop (S (edge cs x)) ts)) in *. assert (Hfl : length (f_left f) = edge cs x) by (unfold f; cbn; rewrite length_take; lia).
      assert (Hfp : fpath f = [x]) by (unfold fpath; rewrite Hfl; unfold f; cbn [f_compr f_cs]; by rewrite He3 by lia).
      destruct (IH (f :: fs) q1 t (q :: st) L1 M1 rest (i + 1) Hp1) as (fs' & q' & t' & st' & L' & M2 & rest2 & j & Hw & Hp2 & Hh2 & Hfill & Hs2 & Hperm2 & Hst); [by apply hole_down| | |cbn in Hf; lia|].
      * cbn [path]. rewrite Hs, Hfp, <- app_assoc. done.
      * cbn [path]. rewrite length_app, Hfp. cbn. lia.
      * exists fs', q', t', st', L', M2, rest2, j. split_and!; [unfold link_of in Hw at 1; by rewrite Hfl in Hw|done|done|rewrite Hfill; cbn [fill]; f_equal; by apply fill1_child|done|by rewrite Hperm2|done].
Qed.

(** ** A new child *)

Lemma insert_pos_spec cs c : StronglySorted Z.lt cs → c ∉ cs → let pos := insert_pos cs c in (pos <= length cs)%nat ∧ StronglySorted Z.lt (take pos cs ++ c :: drop pos cs).
Proof.
  induction 1 as [|x cs Hs IH Hlt]; intros Hc; cbn [insert_pos]; [split; [done|by repeat constructor]|]. apply not_elem_of_cons in Hc as [Hne Hc]. destruct (IH Hc) as [Hle Hso]. destruct (x >? c) eqn:E; to_prop.
  - split; [cbn; lia|]. cbn. constructor; [by constructor|]. constructor; [lia|]. eapply Forall_impl; [exact Hlt|]. cbn. intros y Hy. lia.
  - cbn. split; [lia|]. constructor; [done|]. apply Forall_app. split; [by apply Forall_take|]. constructor; [lia|by apply Forall_drop].
Qed.

Lemma fresh_out r fs q t st L M p : at_place r fs q t st L M → rnodes r !! p = None → p ∉ L ∧ p ∉ M.
Proof.
  intros Hp Hn. split; intros Hin; (assert (is_Some (rnodes r !! p)) as [? ?]; [rewrite (place_live _ _ _ _ _ _ _ p Hp); apply elem_of_app; tauto|congruence]).
Qed.

(** The state with a new leaf that nothing links to yet. *)
Lemma leaf_heap r fs q t st L M0 child : at_place r fs q t st L (q :: M0) → rnodes r !! child = None →
  let r0 := rput r child (raxNewNode 0) in
  (∀ p, p ∈ L ∨ p ∈ q :: M0 → rnodes r0 !! p = rnodes r !! p) ∧ (∀ M1, M1 ≡ₚ child :: M0 → (∀ p, is_Some (rnodes r0 !! p) ↔ p ∈ L ++ q :: M1) ∧ NoDup (L ++ q :: M1)) ∧ repr (rnodes r0) child nothing [child].
Proof.
  intros Hp Hc r0. destruct (fresh_out _ _ _ _ _ _ _ child Hp Hc) as [HcL HcM]. split_and!.
  - intros p Hin. unfold r0. cbn. rewrite lookup_insert_ne; [done|]. intros ->. tauto.
  - intros M1 Hperm. assert (Hperm2 : L ++ q :: M1 ≡ₚ child :: L ++ q :: M0) by (rewrite Hperm; solve_Permutation). split.
    + intros p. rewrite Hperm2, elem_of_cons, <- (place_live _ _ _ _ _ _ _ p Hp). unfold r0. cbn. destruct (decide (p = child)) as [->|Hne]; [rewrite lookup_insert_eq; naive_solver|]. rewrite lookup_insert_ne by done. naive_solver.
    + rewrite Hperm2. apply NoDup_cons. split; [rewrite elem_of_app; tauto|apply Hp].
  - apply (repr_node _ _ (raxNewNode 0)); [unfold r0; cbn; by rewrite lookup_insert_eq|done|constructor].
Qed.

Lemma add_child_spec r fs q k cs ts st L M c : at_place r fs q (Tree k false cs ts) st L M → rwf (Tree k false cs ts) → c ∉ cs →
  let pos := insert_pos cs c in ∃ r1 q' child r2 M1, raxAddChild r q c = Some (r1, q', child, LKid q' pos) ∧ write_link r1 (link_of fs st) q' = Some r2 ∧ numele r2 = numele r ∧ numnodes r2 = numnodes r ∧
    at_place r2 fs q' (Tree k false (take pos cs ++ c :: drop pos cs) (take pos ts ++ nothing :: drop pos ts)) st L (q' :: M1) ∧ length (q' :: M1) = S (length M) ∧ (∃ n, rnodes r2 !! q' = Some n ∧ kids n !! pos = Some child).
Proof.
  intros Hp [Hsh Hts] Hc pos. pose proof (p_repr _ _ _ _ _ _ _ Hp) as Hr. inversion Hr as [q0 n k' c' cs' ts' M0 Hn Hni Hkids]; subst q0 k' c' cs' ts' M. destruct Hni as (Hk & Hcp & Hcs). destruct Hsh as [Hlen Hso].
  destruct (insert_pos_spec cs c Hso Hc) as [Hpos _]. fold pos in Hpos. unfold raxAddChild, rnode. rewrite Hn. mnext. rewrite Hcp. unfold rnew. cbv zeta beta iota. set (child := rax_malloc (rnodes r)).
  destruct (leaf_heap r fs q _ st L M0 child Hp (rax_malloc_fresh _)) as (Hsame & Hdom & Hleaf). set (r0 := rput r child (raxNewNode 0)) in *. rewrite Hcs. fold pos. unfold rmove. set (q' := rax_realloc (rnodes r0) q).
  rewrite <- (take_drop pos ts) in Hkids. apply reprs_app_inv in Hkids as (ps1 & ps2 & L1 & L2 & Eps & -> & H1 & H2). assert (Hl1 : length ps1 = pos) by (rewrite (reprs_length _ _ _ _ H1), length_take; lia).
  assert (Et : take pos (kids n) = ps1) by (rewrite Eps; by apply take_app_length'). assert (Ed : drop pos (kids n) = ps2) by (rewrite Eps; by apply drop_app_length').
  set (n' := mk_rnode (iskey n) (isnull n) false (take pos cs ++ c :: drop pos cs) (take pos (kids n) ++ child :: drop pos (kids n)) (value n)).
  destruct (Hdom (L1 ++ [child] ++ L2)) as [Hd Hnd]; [solve_Permutation|].
  destruct (place_move r r0 fs q st L (L1 ++ [child] ++ L2) q' n' k false (take pos cs ++ c :: drop pos cs) (take pos ts ++ nothing :: drop pos ts) (p_ctx _ _ _ _ _ _ _ Hp)) as (r2 & Hw & He & Hnn & Hp2 & Hq'); try done.
  - intros p Hin. apply Hsame. tauto.
  - apply rax_realloc_fresh.
  - unfold n'. cbn [kids]. rewrite Et, Ed. assert (Hag : ∀ p, p ∈ L1 ++ L2 → rnodes r0 !! p = rnodes r !! p) by (intros p Hin; apply Hsame; right; by right). apply reprs_app; [eapply reprs_agree; [done|]; intros; apply Hag, elem_of_app; tauto|].
    constructor; [done|]. eapply reprs_agree; [done|]. intros; apply Hag, elem_of_app; tauto.
  - eexists _, q', child, r2, (L1 ++ [child] ++ L2). split_and!; [done|exact Hw|done|done|done|rewrite !length_cons, !length_app; cbn; lia|]. exists n'. split; [done|]. unfold n'. cbn [kids]. rewrite Et, <- Hl1. by apply list_lookup_middle.
Qed.

Lemma rax_compress_spec r fs q k st L M s : at_place r fs q (Tree k false [] []) st L M →
  ∃ r1 q' child r2 M1, raxCompressNode r q s = Some (r1, q', child) ∧ write_link r1 (link_of fs st) q' = Some r2 ∧ numele r2 = numele r ∧ numnodes r2 = numnodes r ∧
    at_place r2 fs q' (Tree k true s [nothing]) st L (q' :: M1) ∧ length (q' :: M1) = S (length M) ∧ (∃ n, rnodes r2 !! q' = Some n ∧ kids n = [child]).
Proof.
  intros Hp. pose proof (p_repr _ _ _ _ _ _ _ Hp) as Hr. inversion Hr as [q0 n k' c' cs' ts' M0 Hn Hni Hkids]; subst q0 k' c' cs' ts' M. destruct Hni as (Hk & Hcp & Hcs). inversion Hkids as [Hk0|]; subst.
  unfold raxCompressNode, rnode, nsize. rewrite Hn. mnext. rewrite Hcp, Hcs. cbn [length negb orb]. unfold rnew. cbv zeta beta iota. set (child := rax_malloc (rnodes r)).
  destruct (leaf_heap r fs q _ st L [] child Hp (rax_malloc_fresh _)) as (Hsame & Hdom & Hleaf). set (r0 := rput r child (raxNewNode 0)) in *. unfold rmove. set (q' := rax_realloc (rnodes r0) q).
  set (n' := if iskey n then _ else _). destruct (Hdom [child]) as [Hd Hnd]; [done|]. assert (Hkid : kids n' = [child]) by (unfold n', raxSetData; repeat case_if; done).
  destruct (place_move r r0 fs q st L [child] q' n' (node_key n) true s [nothing] (p_ctx _ _ _ _ _ _ _ Hp)) as (r2 & Hw & He & Hnn & Hp2 & Hq'); try done.
  - intros p Hin. apply Hsame. tauto.
  - apply rax_realloc_fresh.
  - unfold n', node_is, node_key, raxSetData, raxGetData. destruct (iskey n); [|done]. destruct (isnull n); [done|]. destruct (value n =? 0) eqn:E; to_prop; cbn; [rewrite E|]; done.
  - rewrite Hkid. by apply reprs_one.
  - eexists _, q', child, r2, [child]. split_and!; [done|exact Hw|done|done|done|done|]. by exists n'.
Qed.

(** ** The missing nodes *)

Lemma place_counts r r' fs q t st L M : rnodes r' = rnodes r → head r' = head r → at_place r fs q t st L M → at_place r' fs q t st L M.
Proof. intros En Eh [Hc Hr Hnd Hd]. constructor; rewrite ?En, ?Eh; done. Qed.

Definition counted (r : rax) (N : list positive) : Prop := numnodes r = u64 (len N).

Lemma counted_add r r1 N N' k : counted r N → numnodes r1 = numnodes r → len N' = len N + k → counted (add_nodes r1 k) N'.
Proof. unfold counted, add_nodes. cbn. intros -> -> ->. unfold wrapu. by rewrite Z.add_mod_idemp_l. Qed.

Lemma length_perm {A} (l l' : list A) : l ≡ₚ l' → length l = length l'.
Proof. intros Hp. by rewrite Hp. Qed.

Lemma insert_loop_spec s : len s <= RAX_NODE_MAX_SIZE → ∀ fuel r fs q k cs ts st L M rest, at_place r fs q (Tree k false cs ts) st L M → Forall fwf fs → rwf (Tree k false cs ts) →
  s = path fs ++ rest → (∀ x rest', rest = x :: rest' → x ∉ cs) → (length rest <= fuel)%nat → counted r (L ++ M) →
  ∃ r' q' fs' t' st' L' M', insert_loop fuel r s (len (path fs)) q (link_of fs st) = Some (r', q', link_of fs' st') ∧ at_place r' fs' q' t' st' L' M' ∧ Forall fwf fs' ∧ path fs' = s ∧ numele r' = numele r ∧ counted r' (L' ++ M') ∧
    (∀ m, holds (fill fs (Tree k false cs ts)) m → holds (fill fs' t') m) ∧ (rest = [] ∧ t' = Tree k false cs ts ∧ fs' = fs ∨ t' = nothing).
Proof.
  intros Hmax. induction fuel as [|fuel IH]; intros r fs q k cs ts st L M rest Hp Hfs Hwf Hs Hno Hf Hcnt; (destruct rest as [|x rest]; [rewrite app_nil_r in Hs; cbn [insert_loop]; replace (len (path fs) <? len s) with false by (rewrite Hs; lia); eexists _, _, fs, (Tree k false cs ts), st, L, M; split_and!; try done; by left|]); [cbn in Hf; lia|].
  assert (Hlen : len s = len (path fs) + 1 + len rest) by (rewrite Hs, length_app; cbn [length]; lia). cbn [insert_loop]. if_true. assert (Hx : s !! Z.to_nat (len (path fs)) = Some x) by (rewrite Hs, Nat2Z.id; by apply list_lookup_middle).
  pose proof (p_repr _ _ _ _ _ _ _ Hp) as Hr. inversion Hr as [q0 n k' c' cs' ts' M0 Hn Hni Hkids]; subst q0 k' c' cs' ts' M. destruct Hni as (Hk & Hcp & Hcs). change (rnode r q = Some n) in Hn. rewrite Hn. mnext. unfold nsize. rewrite Hcs.
  destruct ((len cs =? 0) && (len s - len (path fs) >? 1)) eqn:Ecomp.
  - apply andb_true_iff in Ecomp as [E0 E1]; to_prop. destruct cs; [|cbn in E0; lia]. destruct ts; [|by destruct Hwf as [[? _] _]]. replace (len s - len (path fs) >? RAX_NODE_MAX_SIZE) with false by lia.
    assert (Hdrop : take (Z.to_nat (len s - len (path fs))) (drop (Z.to_nat (len (path fs))) s) = x :: rest) by (rewrite Hs, Nat2Z.id, drop_app_length, take_ge; [done|]; rewrite length_app; cbn [length]; lia). rewrite Hdrop.
    destruct (rax_compress_spec r fs q k st L (q :: M0) (x :: rest) Hp) as (r1 & q' & child & r2 & M1 & Hcmp & Hw & He & Hnn & Hp2 & HM & n2 & Hn2 & Hk2). rewrite Hcmp. mnext. rewrite Hw. mnext. unfold rnode. rewrite Hn2. mnext. unfold last_link. rewrite Hk2. cbn [length pred].
    destruct (place_down r2 fs q' k true (x :: rest) [nothing] st L (q' :: M1) 0 nothing Hp2 eq_refl) as (q1 & L3 & M3 & Hp3 & Hperm & n3 & Hn3 & Hk3). rewrite Hn2 in Hn3. injection Hn3 as <-. rewrite Hk2 in Hk3. injection Hk3 as <-.
    set (f := mk_frame k true (x :: rest) (take 0 [nothing]) (drop 1 [nothing])) in *. assert (Hpath : path (f :: fs) = s) by (cbn [path]; unfold f; cbn [fpath f_compr f_cs]; done).
    destruct (IH (add_nodes r2 1) (f :: fs) child None [] [] (q' :: st) L3 M3 []) as (r' & q2 & fs' & t' & st' & L' & M' & Hrun & Hp4 & Hfs4 & Hpa & He4 & Hc4 & Hm4 & Hlast); [eapply (place_counts r2); [done|done|exact Hp3]| | |by rewrite Hpath, app_nil_r|done|cbn; lia| |].
    + apply Forall_cons. split; [|done]. constructor; cbn; [|constructor|constructor]. split; [|done]. destruct rest; [cbn in Hlen; lia|cbn; lia].
    + split; [split; [done|constructor]|constructor].
    + eapply counted_add; [exact Hcnt|done|]. apply length_perm in Hperm. rewrite Hperm, !length_app, HM. lia.
    + replace (len (path fs) + (len s - len (path fs))) with (len (path (f :: fs))) by (rewrite Hpath; lia). exists r', q2, fs', t', st', L', M'. split_and!; try done; [by rewrite He4| |right; by destruct Hlast as [(_ & -> & _)| ->]].
      intros m Hm. apply Hm4. cbn [fill]. eapply holds_same; [done|exact Hm|]. intros. apply has_compress.
  - rewrite Hx. mnext. assert (Hxn : x ∉ cs) by (by eapply Hno). pose proof Hwf as [[Hl Hso] Hts]. destruct (insert_pos_spec cs x Hso Hxn) as [Hpos Hso2].
    destruct (add_child_spec r fs q k cs ts st L (q :: M0) x Hp Hwf Hxn) as (r1 & q' & child & r2 & M1 & Hadd & Hw & He & Hnn & Hp2 & HM & n2 & Hn2 & Hk2). set (pos := insert_pos cs x) in *. rewrite Hadd. mnext. rewrite Hw. mnext.
    assert (Hlp : length (take pos ts) = pos) by (rewrite length_take; lia). assert (Hmid : (take pos ts ++ nothing :: drop pos ts) !! pos = Some nothing) by (apply list_lookup_middle; lia).
    destruct (place_down r2 fs q' k false _ _ st L (q' :: M1) pos nothing Hp2 Hmid) as (q1 & L3 & M3 & Hp3 & Hperm & n3 & Hn3 & Hk3). rewrite Hn2 in Hn3. injection Hn3 as <-. rewrite Hk2 in Hk3. injection Hk3 as <-.
    assert (Htk : take pos (take pos ts ++ nothing :: drop pos ts) = take pos ts) by (by apply take_app_length').
    assert (Hdr : drop (S pos) (take pos ts ++ nothing :: drop pos ts) = drop pos ts) by (rewrite cons_middle, app_assoc; apply drop_app_length'; rewrite length_app; cbn; lia). rewrite Htk, Hdr in Hp3. set (f := mk_frame k false (take pos cs ++ x :: drop pos cs) (take pos ts) (drop pos ts)) in *.
    assert (Hfp : fpath f = [x]). { unfold fpath, f. cbn [f_compr f_cs f_left]. rewrite Hlp. rewrite list_lookup_middle; [done|rewrite length_take; lia]. }
    assert (Hpath : path (f :: fs) = path fs ++ [x]) by (cbn [path]; by rewrite Hfp).
    destruct (IH (add_nodes r2 1) (f :: fs) child None [] [] (q' :: st) L3 M3 rest) as (r' & q2 & fs' & t' & st' & L' & M' & Hrun & Hp4 & Hfs4 & Hpa & He4 & Hc4 & Hm4 & Hlast); [eapply (place_counts r2); [done|done|exact Hp3]| | |by rewrite Hpath, <- app_assoc|intros; apply not_elem_of_nil|cbn in Hf; lia| |].
    + apply Forall_cons. split; [|done]. constructor; cbn [f_compr f_cs f_left f_right f]; [|by apply Forall_take|by apply Forall_drop]. split; [|done]. rewrite !length_app. cbn [length]. rewrite !length_take, !length_drop. lia.
    + split; [split; [done|constructor]|constructor].
    + eapply counted_add; [exact Hcnt|done|]. apply length_perm in Hperm. rewrite Hperm, !length_app, HM. lia.
    + replace (len (path fs) + 1) with (len (path (f :: fs))) by (rewrite Hpath, length_app; cbn; lia). replace (link_of (f :: fs) (q' :: st)) with (LKid q' pos) in Hrun by (unfold link_of, f; cbn [f_left]; by rewrite Hlp).
      exists r', q2, fs', t', st', L', M'. split_and!; try done; [by rewrite He4| |right; by destruct Hlast as [(_ & -> & _)| ->]]. intros m Hm. apply Hm4. cbn [fill]. eapply holds_same; [done|exact Hm|]. intros. unfold f, fill1. cbn [f_key f_compr f_cs f_left f_right]. apply has_added; [done|lia].
Qed.

(** ** Splitting a compressed node *)

Lemma node_single r fs q k c cs t st L M : at_place r fs q (Tree k c cs [t]) st L M →
  ∃ n next M1, rnodes r !! q = Some n ∧ node_key n = k ∧ iscompr n = c ∧ ndata n = cs ∧ kids n = [next] ∧ M = q :: M1 ∧ repr (rnodes r) next t M1 ∧ q ∉ L ∧ q ∉ M1.
Proof.
  intros [_ Hr Hnd _]. inversion Hr as [q0 n k' c' cs' ts' M1 Hn (Hk & Hc & Hcs) Hkids]; subst. inversion Hkids as [|next ps t' ts' Ma Mb Hnext Hnil E1]; subst. inversion Hnil as [E2|]; subst. rewrite app_nil_r in *.
  apply NoDup_app in Hnd as (_ & Hx & Hy). apply NoDup_cons in Hy as [Hy _]. exists n, next, Ma. split_and!; try done. intros Hin. apply (Hx q Hin). by left.
Qed.

(** The value of a node, kept by copying. *)
Lemma keep_data n t : node_key (if iskey n then raxSetData t (raxGetData n) else mk_rnode false false (iscompr t) (ndata t) (kids t) (value t)) = node_key n.
Proof.
  unfold node_key, raxSetData. destruct (iskey n) eqn:E; [|done]. unfold raxGetData. destruct (isnull n); [done|]. destruct (value n =? 0) eqn:E0; to_prop; cbn; [by rewrite E0|done].
Qed.

Lemma set_data_key n d : node_key (raxSetData n d) = Some d.
Proof. unfold raxSetData, node_key, raxGetData. destruct (d =? 0) eqn:E; to_prop; cbn; [by subst|done]. Qed.

Lemma set_data_other n d : iscompr (raxSetData n d) = iscompr n ∧ ndata (raxSetData n d) = ndata n ∧ kids (raxSetData n d) = kids n.
Proof. unfold raxSetData. by destruct (d =? 0). Qed.

Lemma last_child_single n next : kids n = [next] → last_child n = Some next.
Proof. unfold last_child, last_link. by intros ->. Qed.

(** Two nodes in place of one: what is left to show is that the heap has them. *)
Lemma place_pair r rf fs q t0 st L M1 t1 next k1 c1 cs1 k2 c2 cs2 p1 p2 n1 n2 : at_place r fs q t0 st L (q :: M1) → repr (rnodes r) next t1 M1 → rctx (rnodes rf) fs p1 (head rf) st L →
  p1 ≠ p2 → (p1 ∉ L ∧ p1 ∉ q :: M1) → (p2 ∉ L ∧ p2 ∉ q :: M1) →
  (∀ x, x ∉ L → rnodes rf !! x = if decide (x = q) then None else if decide (x = p1) then Some n1 else if decide (x = p2) then Some n2 else rnodes r !! x) →
  node_is n1 k1 c1 cs1 → kids n1 = [p2] → node_is n2 k2 c2 cs2 → kids n2 = [next] →
  at_place rf fs p1 (Tree k1 c1 cs1 [Tree k2 c2 cs2 [t1]]) st L (p1 :: p2 :: M1).
Proof.
  intros Hp Ht1 Hc Hne [H1L H1M] [H2L H2M] Hx Hn1 Hk1 Hn2 Hk2. apply not_elem_of_cons in H1M as [H1q H1M], H2M as [H2q H2M]. pose proof (p_nodup _ _ _ _ _ _ _ Hp) as Hnd. apply NoDup_app in Hnd as (HndL & Hdis & HndM). apply NoDup_cons in HndM as [Hq HndM].
  assert (HM1 : ∀ x, x ∈ M1 → rnodes rf !! x = rnodes r !! x). { intros x Hin. rewrite Hx by (intros Hin'; apply (Hdis x Hin'); by right). rewrite !decide_False; [done|intros ->; done|intros ->; done|intros ->; done]. }
  constructor; [done| | |].
  - apply (repr_node _ _ n1); [rewrite Hx by done; rewrite decide_False, decide_True by done; done|done|]. rewrite Hk1. apply reprs_one. apply (repr_node _ _ n2); [rewrite Hx by done; rewrite !decide_False, decide_True by done; done|done|].
    rewrite Hk2. apply reprs_one. by eapply repr_agree.
  - apply NoDup_app. split_and!; [done| |apply NoDup_cons; split; [|by apply NoDup_cons]; rewrite elem_of_cons; intros [?|?]; done]. intros x Hin. rewrite !elem_of_cons. intros [->|[->|Hin']]; [done|done|]. apply (Hdis x Hin). by right.
  - intros x Hs. destruct (decide (x ∈ L)) as [Hin|Hin]; [apply elem_of_app; by left|]. rewrite Hx in Hs by done. rewrite elem_of_app, !elem_of_cons. repeat case_decide; [by destruct Hs|tauto|tauto|]. apply (p_dom _ _ _ _ _ _ _ Hp), elem_of_app in Hs as [?|[?|?]%elem_of_cons]; tauto.
Qed.

Lemma split_key_spec r fs q k cs t st L M j data : at_place r fs q (Tree k true cs [t]) st L M → (0 < j < length cs)%nat → counted r (L ++ M) →
  ∃ r' q' M', split_key r q (link_of fs st) (Z.of_nat j) data = Some r' ∧ numele r' = u64 (numele r + 1) ∧ counted r' (L ++ M') ∧
    at_place r' fs q' (Tree k (Z.of_nat j >? 1) (take j cs) [Tree (Some data) (len cs - Z.of_nat j >? 1) (drop j cs) [t]]) st L M'.
Proof.
  intros Hp Hj Hcnt. destruct (node_single _ _ _ _ _ _ _ _ _ _ Hp) as (n & next & M1 & Hn & Hk & Hc & Hcs & Hkids & -> & Ht & HqL & HqM). unfold split_key. change (rnode r q = Some n) in Hn. rewrite Hn. mnext. unfold rnew. cbv zeta beta iota.
  set (postfix := rax_malloc (rnodes r)). set (r1 := rput r postfix (raxNewNode 0)). set (trimmed := rax_malloc (rnodes r1)). set (r2 := rput r1 trimmed (raxNewNode 0)). rewrite (last_child_single n next Hkids). mnext.
  unfold nsize. rewrite Hcs, Nat2Z.id. set (P := raxSetData _ data). set (T0 := mk_rnode false false _ _ [postfix] 0). set (T := if iskey n then _ else T0). set (r3 := add_nodes (rput r2 postfix P) 1).
  destruct (fresh_out _ _ _ _ _ _ _ postfix Hp (rax_malloc_fresh _)) as [HpL HpM]. assert (Htr : rnodes r1 !! trimmed = None) by apply rax_malloc_fresh. assert (Hne : trimmed ≠ postfix) by (intros E; rewrite E in Htr; unfold r1 in Htr; cbn in Htr; by rewrite lookup_insert_eq in Htr).
  assert (Htr0 : rnodes r !! trimmed = None) by (unfold r1 in Htr; cbn in Htr; by rewrite lookup_insert_ne in Htr). destruct (fresh_out _ _ _ _ _ _ _ trimmed Hp Htr0) as [HtL HtM].
  pose proof (p_nodup _ _ _ _ _ _ _ Hp) as Hnd. destruct (link_write r r3 fs q st L trimmed (p_ctx _ _ _ _ _ _ _ Hp)) as (r4 & Hw & He & Hnn & Hc4 & Hout & Hdom); [by apply NoDup_app in Hnd as (? & _)|done| |].
  { intros x Hx. unfold r3, r2, r1. cbn. rewrite !lookup_insert_ne; [done|intros <-; done|intros <-; done|intros <-; done]. }
  rewrite Hw. mnext. unfold rfree, rnode. assert (Hq4 : rnodes (add_ele (rput r4 trimmed T) 1) !! q = Some n).
  { cbn. apply not_elem_of_cons in HtM as [? _], HpM as [? _]. rewrite lookup_insert_ne by done. rewrite Hout by done. unfold r3, r2, r1. cbn. by rewrite !lookup_insert_ne by done. }
  rewrite Hq4. mnext. eexists _, trimmed, (trimmed :: postfix :: M1). split; [done|]. split_and!.
  - cbn. rewrite He. done.
  - unfold counted. cbn. rewrite Hnn. unfold r3. cbn. unfold counted in Hcnt. rewrite Hcnt, !length_app. cbn [length]. unfold wrapu. rewrite Z.add_mod_idemp_l by done. f_equal. lia.
  - destruct (set_data_other (mk_rnode true false (len cs - Z.of_nat j >? 1) (drop j cs) [next] 0) data) as (Ec & Ed & Ek). eapply (place_pair r _ fs q _ st L M1 t next _ _ _ _ _ _ trimmed postfix T P Hp Ht); try done.
    + cbn [head rnodes set_nodes add_ele rput]. eapply rctx_agree; [exact Hc4|]. intros x Hx. rewrite lookup_delete_ne, lookup_insert_ne; [done|intros <-; done|intros <-; done].
    + intros x Hx. cbn [rnodes set_nodes add_ele rput]. case_decide; [subst; by rewrite lookup_delete_eq|]. rewrite lookup_delete_ne by done. case_decide; [subst; by rewrite lookup_insert_eq|]. rewrite lookup_insert_ne by done. rewrite Hout by done.
      unfold r3, r2, r1. cbn. case_decide; [subst; by rewrite lookup_insert_eq|]. by rewrite !lookup_insert_ne by done.
    + unfold node_is, T. split_and!; [|unfold T0, raxSetData; repeat case_if; done|unfold T0, raxSetData; repeat case_if; done]. rewrite <- Hk. change T0 with (mk_rnode false false (iscompr T0) (ndata T0) (kids T0) (value T0)) at 2. apply keep_data.
    + unfold T, T0, raxSetData. repeat case_if; done.
    + unfold node_is, P. rewrite Ec, Ed. split_and!; [apply set_data_key|done|done].
Qed.

(** New nodes in place of one, which is freed. *)
Lemma place_new r rf fs q t0 st L M1 p T news : at_place r fs q t0 st L (q :: M1) → rctx (rnodes rf) fs p (head rf) st L → NoDup news → (∀ x, x ∈ news → x ∉ L ∧ x ∉ q :: M1) →
  (∀ x, x ∉ L → x ∉ news → rnodes rf !! x = if decide (x = q) then None else rnodes r !! x) → repr (rnodes rf) p T (news ++ M1) → at_place rf fs p T st L (news ++ M1).
Proof.
  intros Hp Hc Hndn Hnew Hx Hr. pose proof (p_nodup _ _ _ _ _ _ _ Hp) as Hnd. apply NoDup_app in Hnd as (HndL & Hdis & HndM). apply NoDup_cons in HndM as [Hq HndM]. constructor; [done|done| |].
  - apply NoDup_app. split_and!; [done| |apply NoDup_app; split_and!; [done| |done]].
    + intros x Hin [Hin'|Hin']%elem_of_app; [by destruct (Hnew x Hin')|]. apply (Hdis x Hin). by right.
    + intros x Hin Hin'. destruct (Hnew x Hin) as [_ Hn]. apply Hn. by right.
  - intros x Hs. rewrite !elem_of_app. destruct (decide (x ∈ L)) as [Hin|Hin]; [by left|]. destruct (decide (x ∈ news)) as [Hin'|Hin']; [right; by left|]. rewrite Hx in Hs by done. case_decide; [by destruct Hs|].
    apply (p_dom _ _ _ _ _ _ _ Hp), elem_of_app in Hs as [?|[?|?]%elem_of_cons]; tauto.
Qed.

Lemma put_fresh r p n x : rnodes (rput r p n) !! x = None → rnodes r !! x = None ∧ x ≠ p.
Proof. cbn. intros Hx. destruct (decide (x = p)) as [->|Hne]; [by rewrite lookup_insert_eq in Hx|]. by rewrite lookup_insert_ne in Hx. Qed.

Definition trimmed_node (n : raxNode) (j : Z) (q : positive) : raxNode :=
  let t := mk_rnode (iskey n) (isnull n) (j >? 1) (take (Z.to_nat j) (ndata n)) [q] 0 in
  if iskey n && negb (isnull n) then raxSetData t (raxGetData n) else t.

Lemma trimmed_is n j q : node_is (trimmed_node n j q) (node_key n) (j >? 1) (take (Z.to_nat j) (ndata n)) ∧ kids (trimmed_node n j q) = [q].
Proof.
  unfold trimmed_node, node_is, node_key, raxSetData, raxGetData. destruct (iskey n) eqn:Ek, (isnull n) eqn:En; cbn; try done. destruct (value n =? 0) eqn:E; to_prop; cbn; [by rewrite E|done].
Qed.

Definition split_node (n : raxNode) (top : bool) (c : Z) (q : positive) : raxNode :=
  let split := mk_rnode false false false [c] [xH] 0 in
  let split := if top && iskey n then raxSetData split (raxGetData n) else split in
  mk_rnode (iskey split) (isnull split) (iscompr split) (ndata split) [q] (value split).

Lemma split_node_is n top c q : node_is (split_node n top c q) (if top then node_key n else None) false [c] ∧ kids (split_node n top c q) = [q].
Proof.
  unfold split_node, node_is, node_key, raxSetData, raxGetData. destruct top; [|done]. destruct (iskey n) eqn:Ek, (isnull n) eqn:En; cbn; try done. destruct (value n =? 0) eqn:E; to_prop; cbn; [by rewrite E|done].
Qed.

(** The nodes after the split character. *)
Lemma after_split_repr r h cs j t next M1 postfix : repr (rnodes r) next t M1 → (∀ x, x ∈ M1 → h !! x = rnodes r !! x) → (S j <= length cs)%nat →
  (S j ≠ length cs → h !! postfix = Some (mk_rnode false false (len cs - Z.of_nat j - 1 >? 1) (drop (S j) cs) [next] 0)) →
  repr h (if decide (S j = length cs) then next else postfix) (after_split cs j t) (if decide (S j = length cs) then M1 else postfix :: M1).
Proof.
  intros Ht Hag Hj Hpost. unfold after_split. assert (Ht' : repr h next t M1) by (by eapply repr_agree). case_decide as Hd; [done|]. eapply repr_node; [by apply Hpost|done|by apply reprs_one].
Qed.

(** The heap after a split, outside of the context: [post] is the node after the split
    node, if there is one, and [trim] the one before it. *)
Definition split_heap (r rf : rax) (L : list positive) (q sp : positive) (post trim : list positive) (SN P T : raxNode) : Prop :=
  ∀ x, x ∉ L → rnodes rf !! x = if decide (x = q) then None else if decide (x = sp) then Some SN else if decide (x ∈ post) then Some P else if decide (x ∈ trim) then Some T else rnodes r !! x.

Lemma split_place r rf fs q k cs t st L M1 j c next n sp postfix post trim P T : at_place r fs q (Tree k true cs [t]) st L (q :: M1) → repr (rnodes r) next t M1 → (j < length cs)%nat → cs !! j = Some c → ndata n = cs → node_key n = k →
  post = (if decide (S j = length cs) then [] else [postfix]) → trim = [] ∧ j = O ∨ (∃ p, trim = [p] ∧ j ≠ O) → NoDup (trim ++ sp :: post) → (∀ x, x ∈ trim ++ sp :: post → x ∉ L ∧ x ∉ q :: M1) →
  P = mk_rnode false false (len cs - Z.of_nat j - 1 >? 1) (drop (S j) cs) [next] 0 → T = trimmed_node n (Z.of_nat j) sp →
  split_heap r rf L q sp post trim (split_node n (bool_decide (j = O)) c (if decide (S j = length cs) then next else postfix)) P T →
  rctx (rnodes rf) fs (default sp (hd_error trim)) (head rf) st L →
  at_place rf fs (default sp (hd_error trim)) (split_tree k cs j c t) st L ((trim ++ sp :: post) ++ M1) ∧ (∀ p, trim = [p] → rnodes rf !! p = Some T).
Proof.
  intros Hp Ht Hj Hc Hcs Hk Hpost Htrim Hnd Hnew HP HT Hx Hctx. pose proof (p_nodup _ _ _ _ _ _ _ Hp) as Hndr. apply NoDup_app in Hndr as (HndL & Hdis & HndM). apply NoDup_cons in HndM as [Hq HndM].
  apply NoDup_app in Hnd as (Hnt & Htd & Hns). apply NoDup_cons in Hns as Hns'. destruct Hns' as [Hsp Hnp]. assert (Hlook : ∀ x, x ∈ trim ++ sp :: post → x ≠ q ∧ x ∉ L).
  { intros x Hin. destruct (Hnew x Hin) as [? [? ?]%not_elem_of_cons]. done. }
  assert (HM1 : ∀ x, x ∈ M1 → rnodes rf !! x = rnodes r !! x).
  { intros x Hin. rewrite Hx by (intros Hin'; apply (Hdis x Hin'); by right). assert (Hxn : x ∉ trim ++ sp :: post) by (intros Hb; destruct (Hnew x Hb) as [_ Hy]; apply Hy; by right).
    apply not_elem_of_app in Hxn as [Hxt [Hxs Hxp]%not_elem_of_cons]. rewrite !decide_False by first [done|intros ->; done]. done. }
  assert (Htail : repr (rnodes rf) sp (Tree (if bool_decide (j = O) then k else None) false [c] [after_split cs j t]) (sp :: post ++ M1)).
  { destruct (split_node_is n (bool_decide (j = O)) c (if decide (S j = length cs) then next else postfix)) as [Hsn Hsk]. destruct (Hlook sp) as [Hspq HspL]; [set_solver|].
    eapply repr_node; [rewrite Hx, decide_False, decide_True by done; done|rewrite <- Hk; exact Hsn|]. rewrite Hsk. apply reprs_one. replace (post ++ M1) with (if decide (S j = length cs) then M1 else postfix :: M1) by (rewrite Hpost; by case_decide).
    apply (after_split_repr r _ cs j t next M1); [done|done|lia|]. intros Hd. assert (Hpo : postfix ∈ post) by (rewrite Hpost, decide_False by done; by left). destruct (Hlook postfix) as [? ?]; [set_solver|].
    rewrite Hx, decide_False, decide_False, decide_True; [by rewrite HP|done|set_solver|done|done]. }
  assert (HTn : ∀ p, trim = [p] → rnodes rf !! p = Some T).
  { intros p ->. destruct (Hlook p) as [? ?]; [set_solver|]. rewrite Hx, decide_False, decide_False, decide_False, decide_True; [done|set_solver|intros Hb; apply (Htd p); set_solver|intros ->; apply (Htd sp); set_solver|done|done]. }
  split; [|done]. eapply place_new; [done|done|by apply NoDup_app|done| |].
  - intros x HxL Hxn. rewrite Hx by done. destruct (decide (x = q)); [done|]. apply not_elem_of_app in Hxn as [Hxt [Hxs Hxp]%not_elem_of_cons]. by rewrite !decide_False by done.
  - unfold split_tree. destruct Htrim as [[-> ->]|(p & -> & Hj0)]; [exact Htail|]. rewrite decide_False by done. rewrite bool_decide_false in Htail by done. cbn [app hd_error default].
    destruct (trimmed_is n (Z.of_nat j) sp) as [Htn Htk]. rewrite Nat2Z.id, Hk, Hcs in Htn. eapply repr_node; [by rewrite HTn, HT|done|]. rewrite Htk. by apply reprs_one.
Qed.

(** A node that is allocated in one of two cases. *)
Lemma new_if (b : bool) r p0 n : ∃ r' p l, (if b then (r, p0) else rnew r n) = (r', p) ∧ head r' = head r ∧ numele r' = numele r ∧ numnodes r' = numnodes r ∧
  l = (if b then [] else [p]) ∧ (b = true → p = p0) ∧ NoDup l ∧ (∀ x, x ∈ l → rnodes r !! x = None ∧ is_Some (rnodes r' !! x)) ∧ (∀ x, x ∉ l → rnodes r' !! x = rnodes r !! x).
Proof.
  destruct b; [exists r, p0, []; split_and!; try done; [constructor|by intros x ?%elem_of_nil]|]. eexists _, _, [_]. split; [done|]. split_and!; try done.
  - apply NoDup_singleton.
  - intros x ->%list_elem_of_singleton. split; [apply rax_malloc_fresh|]. look. done.
  - intros x Hx. look. rewrite lookup_insert_ne; [done|]. set_solver.
Qed.

(** What the split leaves, seen from the split node. *)
Lemma split_down r fs q k cs j c t st L M sp trim : at_place r fs q (split_tree k cs j c t) st L M → q = default sp (hd_error trim) → (trim = [] ∧ j = O ∨ ∃ p n, trim = [p] ∧ j ≠ O ∧ rnodes r !! p = Some n ∧ kids n = [sp]) → Forall fwf fs → (j < length cs)%nat →
  ∃ k2 fs2 st2 L2 M2, (if decide (j = O) then link_of fs st else LKid (default sp (hd_error trim)) 0) = link_of fs2 st2 ∧ at_place r fs2 sp (Tree k2 false [c] [after_split cs j t]) st2 L2 M2 ∧ L2 ++ M2 ≡ₚ L ++ M ∧
    Forall fwf fs2 ∧ path fs2 = path fs ++ take j cs ∧ fill fs2 (Tree k2 false [c] [after_split cs j t]) = fill fs (split_tree k cs j c t).
Proof.
  intros Hp -> Htrim Hfs Hj. unfold split_tree in *. destruct Htrim as [[-> ->]|(p & n & -> & Hj0 & Hn & Hk)].
  - rewrite !decide_True by done. rewrite decide_True in Hp by done. exists k, fs, st, L, M. split_and!; try done. by rewrite app_nil_r.
  - rewrite !decide_False by done. rewrite decide_False in Hp by done. change (default sp (hd_error [p])) with p in *. destruct (place_down _ _ _ _ _ _ _ _ _ _ O (Tree None false [c] [after_split cs j t]) Hp) as (q & L2 & M2 & Hp2 & Hperm & n' & Hn' & Hkid); [done|].
    rewrite Hn in Hn'. injection Hn' as <-. rewrite Hk in Hkid. injection Hkid as <-. eexists None, _, _, L2, M2. split; [|split; [exact Hp2|]]; [done|]. assert (Htk : take j cs ≠ []) by (intros E; apply (f_equal length) in E; rewrite length_take in E; cbn in E; lia).
    assert (Hl : len (take j cs) = Z.of_nat j) by (rewrite length_take; lia). split_and!; [done| | |done].
    + apply Forall_cons. split; [|done]. constructor; cbn [f_compr f_cs f_left f_right take drop app length]; [|done|done]. rewrite <- Hl. by apply shape_gt.
    + cbn [path fpath f_compr f_cs f_left take]. f_equal. unfold fpath. cbn [f_compr f_cs f_left]. destruct (Z.of_nat j >? 1) eqn:E; [done|]. destruct (take j cs) as [|x [|y l]]; [done|done|]. cbn [length] in Hl. lia.
Qed.

Lemma split_alloc r r2 r3 fs q t st L M sp n trim post : at_place r fs q t st L M → rnodes r !! sp = None → NoDup trim → NoDup post →
  (∀ x, x ∈ trim → rnodes (rput r sp n) !! x = None ∧ is_Some (rnodes r2 !! x)) → (∀ x, x ∉ trim → rnodes r2 !! x = rnodes (rput r sp n) !! x) →
  (∀ x, x ∈ post → rnodes r2 !! x = None ∧ is_Some (rnodes r3 !! x)) → (∀ x, x ∉ post → rnodes r3 !! x = rnodes r2 !! x) →
  (∀ x, x ∈ trim ++ sp :: post → x ∉ L ∧ x ∉ M) ∧ NoDup (trim ++ sp :: post) ∧ (∀ x, x ∉ trim ++ sp :: post → rnodes r3 !! x = rnodes r !! x).
Proof.
  intros Hp Hsp Hndt Hndp Htf Hto Hpf Hpo. assert (Hpt : ∀ x, x ∈ post → x ∉ trim). { intros x Hx Hx'. destruct (Hpf x Hx) as [HN _], (Htf x Hx') as [_ [? HS]]. congruence. }
  assert (Hin : ∀ x, x ∈ trim ∨ x ∈ post → rnodes r !! x = None ∧ x ≠ sp). { intros x [Hx|Hx]; apply (put_fresh r sp n); [by apply Htf|]. rewrite <- Hto by (by apply Hpt). by apply Hpf. }
  split_and!.
  - intros x Hx. apply (fresh_out r fs q t st L M x Hp). rewrite elem_of_app, elem_of_cons in Hx. destruct Hx as [Hx|[->|Hx]]; [apply Hin; by left|done|apply Hin; by right].
  - apply NoDup_app. split_and!; [done| |apply NoDup_cons; split; [|done]]; [|intros Hx; by destruct (Hin sp) as [_ ?]; [right|]]. intros x Hx [->|Hx']%elem_of_cons; [by destruct (Hin sp) as [_ ?]; [left|]|by apply (Hpt x)].
  - intros x [Hxt [Hxs Hxp]%not_elem_of_cons]%not_elem_of_app. rewrite Hpo, Hto by done. by look.
Qed.

(** The new nodes are linked to the context. *)
Lemma split_write r r3 fs q st L n j c sp tr trim T : rctx (rnodes r) fs q (head r) st L → NoDup L → head r3 = head r → (∀ x, x ∈ L → rnodes r3 !! x = rnodes r !! x) → trim = (if bool_decide (j = O) then [] else [tr]) → (∀ x, x ∈ trim → x ∉ L) → (∃ N, numnodes r3 = u64 N) →
  let split := mk_rnode false false false [c] [xH] 0 in let top := default sp (hd_error trim) in
  ∃ r4 sn, (if bool_decide (j = O) then r0 ← write_link r3 (link_of fs st) sp; Some (r0, if iskey n then raxSetData split (raxGetData n) else split, link_of fs st)
    else r0 ← write_link (rput r3 tr T) (link_of fs st) tr; Some (add_nodes r0 1, split, LKid tr 0)) = Some (r4, sn, if decide (j = O) then link_of fs st else LKid top 0) ∧
    rctx (rnodes r4) fs top (head r4) st L ∧ numele r4 = numele r3 ∧ numnodes r4 = u64 (numnodes r3 + len trim) ∧ (∀ x, x ∉ L → rnodes r4 !! x = if decide (x ∈ trim) then Some T else rnodes r3 !! x) ∧
    ∀ p, mk_rnode (iskey sn) (isnull sn) (iscompr sn) (ndata sn) [p] (value sn) = split_node n (bool_decide (j = O)) c p.
Proof.
  intros Hc Hnd Hhd Hag -> Htr [N HN] split top. case_bool_decide as Hj.
  - destruct (link_write r r3 fs q st L sp Hc Hnd Hhd Hag) as (r4 & -> & He & Hn & Hc4 & Hout & _). mnext. rewrite decide_True by done. eexists r4, _. split; [done|]. split_and!; [done|done| |intros x Hx; by rewrite Hout|done]. rewrite Hn, HN. unfold wrapu. cbn [length]. by rewrite Z.add_0_r, Zmod_mod.
  - assert (HtL : tr ∉ L) by (apply Htr; by left). destruct (link_write r (rput r3 tr T) fs q st L tr Hc Hnd Hhd) as (r4 & -> & He & Hn & Hc4 & Hout & _).
    { intros x Hx. look. by apply Hag. }
    mnext. rewrite decide_False by done. eexists _, _. split; [done|]. split_and!; [done|done|cbn; by rewrite Hn| |done]. intros x Hx. cbn [rnodes add_nodes]. rewrite Hout by done. cbn [rnodes rput set_nodes]. case_decide as Hd.
    + apply list_elem_of_singleton in Hd as ->. by rewrite lookup_insert_eq.
    + rewrite lookup_insert_ne; [done|]. intros ->. apply Hd. by left.
Qed.

Lemma split_mismatch_spec r fs q k cs t st L M j : at_place r fs q (Tree k true cs [t]) st L M → (j < length cs)%nat → (2 <= length cs)%nat → counted r (L ++ M) → Forall fwf fs →
  ∃ r' p c k2 fs2 st2 L2 M2, split_mismatch r q (link_of fs st) (Z.of_nat j) = Some (r', p, link_of fs2 st2) ∧ cs !! j = Some c ∧ numele r' = numele r ∧ counted r' (L2 ++ M2) ∧
    at_place r' fs2 p (Tree k2 false [c] [after_split cs j t]) st2 L2 M2 ∧ Forall fwf fs2 ∧ path fs2 = path fs ++ take j cs ∧ fill fs2 (Tree k2 false [c] [after_split cs j t]) = fill fs (split_tree k cs j c t).
Proof.
  intros Hp Hj Hlen Hcnt Hfs. destruct (node_single _ _ _ _ _ _ _ _ _ _ Hp) as (n & next & M1 & Hn & Hk & Hc & Hcs & Hkids & -> & Ht & HqL & HqM). unfold split_mismatch. change (rnode r q = Some n) in Hn. rewrite Hn. mnext. rewrite (last_child_single n next Hkids). mnext.
  unfold nsize. rewrite Hcs, Nat2Z.id. destruct (lookup_lt_is_Some_2 cs j Hj) as [c Hcj]. rewrite Hcj. mnext. cbv zeta. set (sp := rax_malloc (rnodes r)). set (r1 := rput r sp (raxNewNode 0)). change (rnew r (raxNewNode 0)) with (r1, sp). cbv beta iota.
  destruct (fresh_out _ _ _ _ _ _ _ sp Hp (rax_malloc_fresh _)) as [HsL HsM]. pose proof HsM as [Hsq HsM1]%not_elem_of_cons. pose proof (p_nodup _ _ _ _ _ _ _ Hp) as Hnd. pose proof Hnd as (HndL & Hdis & HndM)%NoDup_app.
  assert (HM1L : ∀ x, x ∈ M1 → x ∉ L) by (intros x Hx Hx'; apply (Hdis x Hx'); by right). replace (len cs - Z.of_nat j - 1 =? 0) with (bool_decide (S j = length cs)) by (case_bool_decide; lia). replace (Z.of_nat j =? 0) with (bool_decide (j = O)) by (case_bool_decide; lia).
  replace (Z.to_nat (Z.of_nat j + 1)) with (S j) by lia. destruct (new_if (bool_decide (j = O)) r1 xH (raxNewNode 0)) as (r2 & tr & trim & -> & Hh2 & He2 & Hn2 & Htrim & _ & Htnd & Htf & Hto). cbv beta iota.
  destruct (new_if (bool_decide (S j = length cs)) r2 next (raxNewNode 0)) as (r3 & postfix & post & -> & Hh3 & He3 & Hn3 & Hpost & Hpn & Hpnd & Hpf & Hpo). cbv beta iota.
  destruct (split_alloc r r2 r3 fs q _ st L _ sp _ trim post Hp (rax_malloc_fresh _) Htnd Hpnd Htf Hto Hpf Hpo) as (Hfresh & Hndn & Hsame).
  destruct (split_write r r3 fs q st L n j c sp tr trim (trimmed_node n (Z.of_nat j) sp) (p_ctx _ _ _ _ _ _ _ Hp) HndL) as (r4 & sn & Hcase & Hctx & He4 & Hn4 & H4 & Hsn);
    [by rewrite Hh3, Hh2|intros x Hx; apply Hsame; intros Hx'; by destruct (Hfresh x Hx')|done|intros x Hx; apply Hfresh, elem_of_app; by left|exists (len (L ++ q :: M1)); rewrite Hn3, Hn2; exact Hcnt|].
  unfold trimmed_node in Hcase. rewrite Hcs, Nat2Z.id in Hcase. rewrite Hcase. mnext. clear Hcase. rewrite Hsn. set (P := mk_rnode false false _ (drop (S j) cs) [next] 0). set (r5 := if bool_decide (S j = length cs) then r4 else _).
  assert (H5 : ∀ x, rnodes r5 !! x = if decide (x ∈ post) then Some P else rnodes r4 !! x). { intros x. unfold r5. clear -Hpost. destruct (bool_decide (S j = length cs)); subst post; [by rewrite decide_False by (by intros ?%elem_of_nil)|]. look. case_decide as Hd; [apply list_elem_of_singleton in Hd as ->; by rewrite lookup_insert_eq|]. rewrite lookup_insert_ne; [done|]. intros ->. apply Hd. by left. }
  assert (Hpx : postfix = if decide (S j = length cs) then next else postfix) by (destruct (decide (S j = length cs)); [|done]; apply Hpn; by rewrite bool_decide_true).
  replace (split_node _ _ c postfix) with (split_node n (bool_decide (j = O)) c (if decide (S j = length cs) then next else postfix)) by (by rewrite <- Hpx).
  set (SN := split_node _ _ _ _). pose proof (λ Hq : q ∈ trim ++ sp :: post, proj2 (Hfresh q Hq) (list_elem_of_here q M1)) as Hqn. change (q ∉ trim ++ sp :: post) in Hqn. pose proof Hqn as [Hqt [Hqs Hqp]%not_elem_of_cons]%not_elem_of_app.
  assert (Hq5 : rnodes r5 !! q = Some n) by (rewrite H5, decide_False, H4, decide_False, Hsame by done; exact Hn). unfold rfree, rnode. look. rewrite Hq5. mnext. set (rf := set_nodes _ _).
  assert (Hr5 : head r5 = head r4 ∧ numele r5 = numele r4 ∧ numnodes r5 = u64 (numnodes r + len trim + len post)).
  { unfold r5. change (numnodes r) with (numnodes r1). rewrite <- Hn2, <- Hn3. clear -Hpost Hn4. destruct (bool_decide (S j = length cs)); subst post; cbn [head numele numnodes add_nodes rput set_nodes length]; (split_and!; [done..|]); rewrite Hn4; unfold wrapu; [by rewrite Z.add_0_r|by rewrite Z.add_mod_idemp_l]. }
  destruct Hr5 as (Hh5 & He5 & Hn5). assert (Htr : trim = [] ∧ j = O ∨ ∃ p, trim = [p] ∧ j ≠ O) by (rewrite Htrim; case_bool_decide; [by left|right; by eexists]).
  destruct (split_place r rf fs q k cs t st L M1 j c next n sp postfix post trim P (trimmed_node n (Z.of_nat j) sp)) as [Hpl HT]; try done.
  { rewrite Hpost. clear. by case_bool_decide; case_decide. }
  { intros x Hx. unfold rf. cbn [rnodes set_nodes]. destruct (decide (x = q)) as [->|Hxq]; [by rewrite lookup_delete_eq|]. rewrite lookup_delete_ne by done. destruct (decide (x = sp)) as [->|Hxs]; [by rewrite lookup_insert_eq|]. rewrite lookup_insert_ne by done.
    rewrite H5. destruct (decide (x ∈ post)) as [|Hxp]; [done|]. rewrite H4 by done. destruct (decide (x ∈ trim)) as [|Hxt]; [done|]. apply Hsame. by intros [?|[?|?]%elem_of_cons]%elem_of_app. }
  { unfold rf. cbn [head set_nodes rput]. rewrite Hh5. eapply rctx_agree; [done|]. intros x Hx. assert (Hxn : x ∉ trim ++ sp :: post) by (intros Hx'; by destruct (Hfresh x Hx')). apply not_elem_of_app in Hxn as [Hxt [Hxs Hxp]%not_elem_of_cons].
    look. by rewrite H5, decide_False by done. }
  destruct (split_down rf fs _ k cs j c t st L _ sp trim Hpl eq_refl) as (k2 & fs2 & st2 & L2 & M2 & Hlk & Hp2 & Hperm & Hf2 & Hpath & Hfill); [|done|done|].
  { destruct Htr as [?|(p & Hpt & ?)]; [by left|right]. exists p, (trimmed_node n (Z.of_nat j) sp). split_and!; [done|done|by apply HT|apply trimmed_is]. }
  exists rf, sp, c, k2, fs2, st2, L2, M2. rewrite Hlk. split_and!; try done; [by rewrite He4, He3, He2 in He5|]. unfold counted in *. change (numnodes rf) with (numnodes r5). rewrite Hn5, (length_perm _ _ Hperm), Hcnt, <- Z.add_assoc, !length_app. unfold wrapu. rewrite Z.add_mod_idemp_l by done. f_equal. cbn [length]. lia.
Qed.
End rax.
