(* ===== verification/RaxInsert.v ===== *)
(** Radix trees: lookup and insertion, on the map that the tree holds. *)
From Stdlib Require Import Sorted.
From stdpp Require Import gmap.
From S2P Require Import Prelude Rax RaxSpec RaxHeap RaxTheorems.
#[local] Open Scope Z_scope.

Section rax.
Context `{RaxAlloc}.

(** ** The invariant *)

(** The nodes are those of a well-formed tree that holds the map [m], and the counters
    are right. *)
Definition rax_inv (r : rax) (m : gmap (list Z) Z) : Prop :=
  ∃ t M, at_place r [] (head r) t [] [] M ∧ rwf t ∧ holds t m ∧ counted r M ∧ numele r = u64 (Z.of_nat (size m)) ∧ ∀ s, is_Some (m !! s) → len s <= RAX_NODE_MAX_SIZE.

Lemma place_root fs : ∀ r q t st L M, at_place r fs q t st L M → ∃ M', at_place r [] (head r) (fill fs t) [] [] M' ∧ M' ≡ₚ L ++ M.
Proof.
  induction fs as [|f fs IH]; intros r q t st L M Hp.
  - pose proof (p_ctx _ _ _ _ _ _ _ Hp) as Hc. inversion Hc; subst. by exists M.
  - destruct (place_up _ _ _ _ _ _ _ _ Hp) as (p & st' & L' & M' & _ & Hp' & Hperm). destruct (IH _ _ _ _ _ _ Hp') as (N & HN & HNp). exists N. split; [done|]. by rewrite HNp.
Qed.

Lemma rax_inv_intro r fs q t st L M m : at_place r fs q t st L M → hole_wf fs t → holds (fill fs t) m → counted r (L ++ M) → numele r = u64 (Z.of_nat (size m)) → (∀ s, is_Some (m !! s) → len s <= RAX_NODE_MAX_SIZE) → rax_inv r m.
Proof.
  intros Hp Hh Hm Hc He Hs. destruct (place_root _ _ _ _ _ _ _ Hp) as (M' & Hp' & Hperm). exists (fill fs t), M'. split_and!; try done; [by apply hole_fill|]. unfold counted in *. by rewrite (length_perm _ _ Hperm).
Qed.

Lemma low_walk r m s : rax_inv r m → ∃ fs q t st L M rest j, raxLowWalk r s = Some (mk_walk (len (path fs) + Z.of_nat j) q (link_of fs st) (Z.of_nat j) st) ∧
  at_place r fs q t st L M ∧ hole_wf fs t ∧ holds (fill fs t) m ∧ s = path fs ++ rest ∧ counted r (L ++ M) ∧ stopped t rest j.
Proof.
  intros (t0 & M0 & Hp & Hwf & Hm & Hc & _). destruct (rax_walk_spec r s (S (length s)) [] (head r) t0 [] [] M0 s 0 Hp) as (fs & q & t & st & L & M & rest & j & Hw & Hp' & Hh & Hfill & Hs & Hperm & Hstop); [done|done|done|lia|].
  exists fs, q, t, st, L, M, rest, j. split_and!; try done; [by rewrite Hfill|]. unfold counted in *. by rewrite (length_perm _ _ Hperm).
Qed.

Lemma place_node r fs q k c cs ts st L M : at_place r fs q (Tree k c cs ts) st L M → ∃ n, rnode r q = Some n ∧ node_key n = k ∧ iscompr n = c ∧ ndata n = cs.
Proof. intros Hp. pose proof (p_repr _ _ _ _ _ _ _ Hp) as Hr. inversion Hr as [q0 n k' c' cs' ts' M0 Hn (? & ? & ?) _]; subst. by exists n. Qed.

(** ** Lookup *)

(** Where the walk stops, the key is there when all of it was used, at the start of the
    node. *)
Lemma stopped_here t rest j v : rwf t → stopped t rest j → match t with Tree k c _ _ => has t rest v ↔ (rest = [] ∧ k = Some v) end.
Proof.
  destruct t as [k c cs ts]. intros [Hsh _] Hstop. rewrite has_inv. split; [|intros ?; by left]. intros [?|[(-> & i & x & t & s' & Hx & Ht & -> & Hv)|(-> & t & s' & -> & -> & Hv)]]; [done|exfalso..].
  - destruct Hstop as [[? _]|[(_ & _ & y & r' & [= <- <-] & Hn)|(? & _)]]; [done| |done]. apply Hn. by apply list_elem_of_lookup_2 in Hx.
  - destruct Hsh as [Hlen _]. destruct Hstop as [[E _]|[(? & _)|(_ & _ & -> & Hlt)]]; [|done|].
    + apply app_eq_nil in E as [-> _]. cbn in Hlen. lia.
    + destruct (common_spec cs (cs ++ s')) as (Ht & _ & _ & Hne). rewrite lookup_app_l in Hne by done. destruct (lookup_lt_is_Some_2 cs _ Hlt) as [x Hx]. by apply (Hne x x).
Qed.

Lemma low_walk_find r m s : rax_inv r m → ∃ w n, raxLowWalk r s = Some w ∧ rnode r (w_stop w) = Some n ∧
  if negb (w_i w =? len s) || (iscompr n && negb (w_split w =? 0)) || negb (iskey n) then m !! s = None
  else m !! s = Some (raxGetData n) ∧ ∃ fs ts L M, let t := Tree (Some (raxGetData n)) (iscompr n) (ndata n) ts in
    at_place r fs (w_stop w) t (w_stack w) L M ∧ hole_wf fs t ∧ holds (fill fs t) m ∧ s = path fs ∧ counted r (L ++ M).
Proof.
  intros Hi. destruct (low_walk r m s Hi) as (fs & q & t & st & L & M & rest & j & Hw & Hp & Hh & Hm & Hs & Hcnt & Hstop). destruct t as [k c cs ts]. destruct (place_node _ _ _ _ _ _ _ _ _ _ Hp) as (n & Hn & Hk & Hc & Hcs).
  eexists _, n. split; [done|]. split; [done|]. cbn [w_i w_split w_stop w_stack]. assert (Hv : ∀ v, has (Tree k c cs ts) rest v ↔ rest = [] ∧ k = Some v) by (intros v; exact (stopped_here _ rest j v (hole_rwf _ _ Hh) Hstop)).
  assert (Hlook : ∀ v, m !! s = Some v ↔ rest = [] ∧ k = Some v) by (intros v; rewrite <- Hv, Hs; apply holds_lookup; [apply Hh|done]). rewrite Hc.
  assert (Hnone : (rest = [] → k = None) → m !! s = None) by (intros Hno; apply eq_None_not_Some; intros [v [E1 E2]%Hlook]; by rewrite Hno in E2).
  destruct (_ || _) eqn:E.
  - apply Hnone. intros ->. apply orb_true_iff in E as [E|E]; [|unfold node_key in Hk; by destruct (iskey n)]. exfalso. rewrite app_nil_r in Hs. subst s. destruct Hstop as [[_ ->]|[(_ & _ & x & r' & ? & _)|(_ & ? & _)]]; [|done|done]. cbn in E. rewrite Z.add_0_r, Z.eqb_refl in E. cbn in E. by rewrite andb_false_r in E.
  - apply orb_false_iff in E as [[E1 E2]%orb_false_iff E3]. unfold node_key in Hk. destruct (iskey n); [|done]. assert (Hr : rest = []). { to_prop. rewrite Hs, length_app in E1. destruct Hstop as [[? _]|[(-> & -> & _)|(-> & Hne & Hj & _)]]; [done|apply nil_length_inv; lia|].
      cbn in E2. to_prop. destruct rest; [done|]. cbn [length] in E1. lia. }
    split; [by apply Hlook|]. exists fs, ts, L, M. rewrite Hk, Hcs. split_and!; try done. by rewrite Hs, Hr, app_nil_r.
Qed.

(** raxFind is the lookup in the map. *)
Lemma rax_find_spec r m s : rax_inv r m → raxFind r s = Some (m !! s).
Proof.
  intros Hi. destruct (low_walk_find r m s Hi) as (w & n & Hw & Hn & Hfound). unfold raxFind. rewrite Hw. mnext. rewrite Hn. mnext. destruct (_ || _); [by rewrite Hfound|]. by destruct Hfound as [-> _].
Qed.

(** ** Insertion *)

Lemma has_set k d c cs ts s v : shape c cs (length ts) → has (Tree (Some d) c cs ts) s v ↔ s = [] ∧ v = d ∨ s ≠ [] ∧ has (Tree k c cs ts) s v.
Proof.
  intros Hsh. assert (Hcs : ∀ s', c = true → cs ++ s' ≠ []) by (intros s' -> E; apply app_eq_nil in E as [-> _]; destruct Hsh as [Hl _]; cbn in Hl; lia). rewrite !has_inv. split.
  - intros [[-> [= <-]]|[(-> & j & x & t & s' & Hx & Ht & -> & Hv)|(-> & t & s' & -> & -> & Hv)]]; [by left|right; split; [done|]; right; left; split; [done|]; by exists j, x, t, s'|right; split; [by apply Hcs|]; right; right; split; [done|]; by exists t, s'].
  - intros [[-> ->]|[Hne [[? _]|?]]]; [by left|done|by right].
Qed.

(** A node that is moved to make room for a value. *)
Lemma realloc_write r fs q k c cs ts st L M data : at_place r fs q (Tree k c cs ts) st L M →
  ∃ r1 q' n, raxReallocForData r q data = Some (r1, q') ∧ rnode r1 q' = Some n ∧ rnode r q = Some n ∧ node_is n k c cs ∧ numele r1 = numele r ∧ numnodes r1 = numnodes r ∧
    ∀ r1' n' k', rnodes r1' = <[q' := n']> (rnodes r1) → head r1' = head r1 → node_is n' k' c cs → kids n' = kids n →
      ∃ r2 M', write_link r1' (link_of fs st) q' = Some r2 ∧ numele r2 = numele r1' ∧ numnodes r2 = numnodes r1' ∧ at_place r2 fs q' (Tree k' c cs ts) st L M' ∧ length M' = length M ∧ rnodes r2 !! q' = Some n'.
Proof.
  intros Hp. pose proof (p_repr _ _ _ _ _ _ _ Hp) as Hr. inversion Hr as [q0 n k' c' cs' ts' M0 Hn Hni Hkids]; subst q0 k' c' cs' ts' M. pose proof (p_nodup _ _ _ _ _ _ _ Hp) as Hnd.
  assert (Hmove : ∀ r1' q' n' k', rnodes r1' = <[q' := n']> (delete q (rnodes r)) → head r1' = head r → q' = q ∨ rnodes r !! q' = None → node_is n' k' c cs → kids n' = kids n →
    ∃ r2 M', write_link r1' (link_of fs st) q' = Some r2 ∧ numele r2 = numele r1' ∧ numnodes r2 = numnodes r1' ∧ at_place r2 fs q' (Tree k' c cs ts) st L M' ∧ length M' = length (q :: M0) ∧ rnodes r2 !! q' = Some n').
  { intros r1' q' n' k' Hnodes Hhd Hq' Hn' Hk'. set (r0 := mk_rax (head r) (numele r1') (numnodes r1') (rnodes r)).
    destruct (place_move r r0 fs q st L M0 q' n' k' c cs ts (p_ctx _ _ _ _ _ _ _ Hp)) as (r2 & Hw & He & Hnn & Hp2 & Hq2); [done|done|intros x; by apply (place_live _ _ _ _ _ _ _ _ Hp)|done|done|done|by rewrite Hk'|].
    replace (set_nodes r0 _) with r1' in Hw by (destruct r1'; unfold set_nodes, r0; cbn in *; by subst). by exists r2, (q' :: M0). }
  unfold raxReallocForData. destruct (data =? 0) eqn:Ed.
  - exists r, q, n. split_and!; try done; try apply Hni. intros r1' n' k' Hnodes Hhd Hn' Hk'. apply Hmove; [by rewrite Hnodes, insert_delete_eq|done|by left|done|done].
  - change (rnode r q = Some n) in Hn. rewrite Hn. mnext. unfold rmove. set (q' := rax_realloc (rnodes r) q). eexists _, q', n. split; [done|]. unfold rnode. cbn [rnodes set_nodes numele numnodes head]. rewrite lookup_insert_eq. split_and!; try done; try apply Hni.
    intros r1' n' k' Hnodes Hhd Hn' Hk'. apply Hmove; [by rewrite Hnodes, insert_insert_eq|done| |done|done]. apply rax_realloc_fresh.
Qed.

Definition inserted (m : gmap (list Z) Z) (s : list Z) (data : Z) (overwrite : bool) : gmap (list Z) Z :=
  match m !! s with Some _ => if overwrite then <[s := data]> m else m | None => <[s := data]> m end.

Lemma size_added (m : gmap (list Z) Z) s d e : m !! s = None → e = u64 (Z.of_nat (size m)) → u64 (e + 1) = u64 (Z.of_nat (size (<[s := d]> m))).
Proof. intros Hs ->. rewrite map_size_insert_None by done. unfold wrapu. rewrite Z.add_mod_idemp_l by done. f_equal. lia. Qed.

Lemma bound_added (m : gmap (list Z) Z) s d N : (∀ s, is_Some (m !! s) → len s <= N) → len s <= N → ∀ s', is_Some (<[s := d]> m !! s') → len s' <= N.
Proof. intros Hm Hs s' [v [[<- _]|[_ Hv]]%lookup_insert_Some]; [done|]. apply Hm. by exists v. Qed.

(** A value is set at a place. *)
Lemma inv_set r fs q k c cs ts st L M m data : at_place r fs q (Tree (Some data) c cs ts) st L M → hole_wf fs (Tree k c cs ts) → holds (fill fs (Tree k c cs ts)) m → counted r (L ++ M) → len (path fs) <= RAX_NODE_MAX_SIZE →
  numele r = u64 (Z.of_nat (size (<[path fs := data]> m))) → (∀ s, is_Some (m !! s) → len s <= RAX_NODE_MAX_SIZE) → rax_inv r (<[path fs := data]> m).
Proof.
  intros Hp [Hf Ht] Hm Hc Hl He Hb. pose proof (hole_rwf fs _ (conj Hf Ht)) as [Hsh _]. eapply rax_inv_intro; [done| | |done|done|by apply bound_added].
  - split; [done|]. destruct fs; [done|]. inversion Ht; subst. by constructor.
  - rewrite <- (app_nil_r (path fs)). apply (holds_insert fs (Tree k c cs ts)); [done|done|]. intros s' v'. by apply has_set.
Qed.

Lemma insert_existing r fs q k c cs ts st L M m data (overwrite : bool) (n : raxNode) : at_place r fs q (Tree k c cs ts) st L M → hole_wf fs (Tree k c cs ts) → holds (fill fs (Tree k c cs ts)) m → counted r (L ++ M) → len (path fs) <= RAX_NODE_MAX_SIZE →
  numele r = u64 (Z.of_nat (size m)) → (∀ s, is_Some (m !! s) → len s <= RAX_NODE_MAX_SIZE) → rnode r q = Some n →
  ∃ r', ('(r, h) ← (if negb (iskey n) || (isnull n && overwrite) then '(r, h) ← raxReallocForData r q data; r ← write_link r (link_of fs st) h; Some (r, h) else Some (r, q) : option (rax * positive));
    n ← rnode r h;
    if iskey n then Some ((if overwrite then rput r h (raxSetData n data) else r), 0, Some (raxGetData n)) else Some (add_ele (rput r h (raxSetData n data)) 1, 1, None)) =
    Some (r', match m !! path fs with Some _ => 0 | None => 1 end, m !! path fs) ∧ rax_inv r' (inserted m (path fs) data overwrite).
Proof.
  intros Hp Hh Hm Hc Hl He Hb Hn. assert (Hlook : m !! path fs = k). { apply option_eq. intros v. rewrite <- (app_nil_r (path fs)), (holds_lookup fs _ m [] v) by (done || apply Hh). rewrite (stopped_here (Tree k c cs ts) [] 0 v (hole_rwf _ _ Hh)) by (by left). tauto. }
  assert (∃ (r1 : rax) (q1 : positive) M1, (if negb (iskey n) || (isnull n && overwrite) then '(r, h) ← raxReallocForData r q data; r ← write_link r (link_of fs st) h; Some (r, h) else Some (r, q) : option (rax * positive)) = Some (r1, q1) ∧
    rnode r1 q1 = Some n ∧ node_key n = k ∧ iscompr n = c ∧ ndata n = cs ∧ at_place r1 fs q1 (Tree k c cs ts) st L M1 ∧ counted r1 (L ++ M1) ∧ numele r1 = numele r) as (r1 & q1 & M1 & -> & Hn1 & Hk & Hcp & Hcs & Hp1 & Hc1 & He1).
  { destruct (_ || _).
    - destruct (realloc_write _ _ _ _ _ _ _ _ _ _ data Hp) as (r1 & q1 & n1 & -> & Hn1 & Hn1' & (? & ? & ?) & He1 & Hnn1 & Hw). rewrite Hn in Hn1'. injection Hn1' as <-. mnext. destruct (Hw r1 n k) as (r2 & M' & -> & He2 & Hn2 & Hp2 & Hlen & Hq2); [by rewrite insert_id|done|done|done|]. mnext.
      exists r2, q1, M'. split_and!; try done; [|by rewrite He2]. unfold counted in *. rewrite Hn2, Hnn1, Hc. by rewrite !length_app, Hlen.
    - destruct (place_node _ _ _ _ _ _ _ _ _ _ Hp) as (n' & Hn' & ? & ? & ?). rewrite Hn in Hn'. injection Hn' as <-. by exists r, q, M. }
  mnext. rewrite Hn1. mnext. destruct (set_data_other n data) as (Hs1 & Hs2 & Hs3).
  assert (Hset : at_place (rput r1 q1 (raxSetData n data)) fs q1 (Tree (Some data) c cs ts) st L M1).
  { eapply place_set; [done|split_and!; [by rewrite set_data_key|congruence|congruence]|]. intros n0 Hn0. change (rnode r1 q1 = Some n0) in Hn0. congruence. }
  rewrite Hlook. unfold inserted. rewrite Hlook. unfold node_key in Hk. revert Hlook. destruct (iskey n); subst k; intros Hlook.
  - eexists. split; [done|]. destruct overwrite; [|by eapply rax_inv_intro; try done; rewrite He1]. eapply inv_set; try done. cbn. rewrite He1, He. f_equal. by rewrite map_size_insert_Some by (by eexists).
  - eexists. split; [done|]. eapply inv_set; try done; [by eapply place_counts; [| |exact Hset]|]. cbn. rewrite He1. by apply size_added.
Qed.

(** The key ends inside of a compressed node. *)
Lemma has_split_key k cs j d t s v : (0 < j < length cs)%nat → (2 <= length cs)%nat → has (Tree k (Z.of_nat j >? 1) (take j cs) [Tree (Some d) (len cs - Z.of_nat j >? 1) (drop j cs) [t]]) s v ↔
  s = take j cs ∧ v = d ∨ s ≠ take j cs ∧ has (Tree k true cs [t]) s v.
Proof.
  intros Hj Hlen. assert (Ha : take j cs ≠ []) by (intros E; apply (f_equal length) in E; rewrite length_take in E; cbn in E; lia). assert (Hb : drop j cs ≠ []) by (intros E; apply (f_equal length) in E; rewrite length_drop in E; cbn in E; lia).
  assert (La : len (take j cs) = Z.of_nat j) by (rewrite length_take; lia). assert (Lb : len (drop j cs) = len cs - Z.of_nat j) by (rewrite length_drop; lia). rewrite (has_split k true cs (take j cs) (drop j cs)); [|by left|by rewrite take_drop|done|done].
  rewrite La, Lb. rewrite !has_single by (rewrite <- La; by apply one_child_gt). setoid_rewrite (has_set None d); [|rewrite <- Lb; by apply shape_gt]. split.
  - intros [[-> ->]|(s' & -> & [[-> ->]|[Hne Hv]])]; [right; split; [by intros E|by left]|left; by rewrite app_nil_r|right]. split; [|right; by exists s']. intros E. rewrite <- (app_nil_r (take j cs)) in E at 2. by apply app_inv_head in E.
  - intros [[-> ->]|[Hne [?|(s' & -> & Hv)]]]; [right; exists []; rewrite app_nil_r; split; [done|by left]|by left|right; exists s'; split; [done|right; split; [|done]]]. intros ->. by rewrite app_nil_r in Hne.
Qed.

Lemma insert_inside r fs q k cs t st L M m data j : at_place r fs q (Tree k true cs [t]) st L M → hole_wf fs (Tree k true cs [t]) → holds (fill fs (Tree k true cs [t])) m → counted r (L ++ M) → (0 < j < length cs)%nat → 
  let s := path fs ++ take j cs in len s <= RAX_NODE_MAX_SIZE → numele r = u64 (Z.of_nat (size m)) → (∀ s, is_Some (m !! s) → len s <= RAX_NODE_MAX_SIZE) →
  ∃ r', split_key r q (link_of fs st) (Z.of_nat j) data = Some r' ∧ m !! s = None ∧ rax_inv r' (<[s := data]> m).
Proof.
  intros Hp Hh Hm Hc Hj s Hl He Hb. destruct (split_key_spec _ _ _ _ _ _ _ _ _ j data Hp Hj Hc) as (r' & q' & M' & -> & He' & Hc' & Hp'). exists r'. pose proof (hole_rwf _ _ Hh) as [[Hlen _] Hts]. apply Forall_cons in Hts as [Ht _].
  assert (Hno : m !! s = None). { apply eq_None_not_Some. intros [v Hv]. apply (holds_lookup fs _ m (take j cs) v (proj1 Hh) Hm) in Hv. apply has_single in Hv as [[E _]|(s' & E & _)]; [| |by left]; apply (f_equal length) in E; rewrite ?length_app, length_take in E; cbn in E; lia. }
  split_and!; [done|done|]. eapply rax_inv_intro; [done| | |done|by rewrite He'; apply size_added|by apply bound_added].
  - assert (La : len (take j cs) = Z.of_nat j) by (rewrite length_take; lia). assert (Lb : len (drop j cs) = len cs - Z.of_nat j) by (rewrite length_drop; lia). split; [apply Hh|].
    assert (Hw : twf (Tree k (Z.of_nat j >? 1) (take j cs) [Tree (Some data) (len cs - Z.of_nat j >? 1) (drop j cs) [t]])); [|destruct fs; [by apply twf_rwf|done]].
    constructor; [|intros E; rewrite E in La; cbn in La; lia|apply Forall_singleton; constructor; [|done|by apply Forall_singleton]].
    + rewrite <- La. apply shape_gt. intros E. rewrite E in La. cbn in La. lia.
    + rewrite <- Lb. apply shape_gt. intros E. rewrite E in Lb. cbn in Lb. lia.
  - apply (holds_insert fs (Tree k true cs [t])); [apply Hh|done|]. intros s' v'. by apply has_split_key.
Qed.

(** The key goes on below a node that is not compressed. *)
Lemma insert_below r fs q k cs ts st L M m data rest s : at_place r fs q (Tree k false cs ts) st L M → Forall fwf fs → rwf (Tree k false cs ts) → holds (fill fs (Tree k false cs ts)) m → counted r (L ++ M) →
  s = path fs ++ rest → (∃ x rest', rest = x :: rest' ∧ x ∉ cs) → len s <= RAX_NODE_MAX_SIZE → numele r = u64 (Z.of_nat (size m)) → (∀ s, is_Some (m !! s) → len s <= RAX_NODE_MAX_SIZE) →
  ∃ r', ('(r, h, parentlink) ← insert_loop (length s) r s (len (path fs)) q (link_of fs st);
    '(r, h) ← raxReallocForData r h data;
    n ← rnode r h;
    let r := if iskey n then r else add_ele r 1 in
    r ← write_link (rput r h (raxSetData n data)) parentlink h;
    Some (r, 1, None : option Z)) = Some (r', 1, None) ∧ m !! s = None ∧ rax_inv r' (<[s := data]> m).
Proof.
  intros Hp Hf Hwf Hm Hc Hs (x & rest' & Hrest & Hx) Hl He Hb. destruct (insert_loop_spec s Hl (length s) r fs q k cs ts st L M rest Hp Hf Hwf Hs) as (r1 & q1 & fs1 & t1 & st1 & L1 & M1 & -> & Hp1 & Hf1 & Hpath & He1 & Hc1 & Hm1 & Ht1); [intros y r' E; congruence|rewrite Hs, length_app; lia|done|].
  mnext. destruct Ht1 as [(E & _)| -> ]; [by rewrite Hrest in E|]. specialize (Hm1 m Hm). destruct (realloc_write _ _ _ _ _ _ _ _ _ _ data Hp1) as (r2 & q2 & n & -> & Hn2 & _ & (Hk & Hcp & Hcs) & He2 & Hnn2 & Hw). mnext. rewrite Hn2. mnext.
  assert (Hik : iskey n = false) by (unfold node_key in Hk; by destruct (iskey n)). cbv zeta. rewrite Hik. destruct (set_data_other n data) as (Hs1 & Hs2 & Hs3).
  destruct (Hw (rput (add_ele r2 1) q2 (raxSetData n data)) (raxSetData n data) (Some data)) as (r3 & M3 & -> & He3 & Hn3 & Hp3 & Hlen3 & _); [done|done|split_and!; [by rewrite set_data_key|congruence|congruence]|done|]. mnext.
  assert (Hno : m !! s = None). { apply eq_None_not_Some. intros [v Hv]. rewrite <- Hpath, <- (app_nil_r (path fs1)) in Hv. apply (holds_lookup fs1 _ m [] v Hf1 Hm1) in Hv. by apply has_nothing in Hv. }
  exists r3. split_and!; [done|done|]. eapply rax_inv_intro; [done| | | |rewrite He3; cbn; rewrite He2, He1; by apply size_added|by apply bound_added].
  - split; [done|]. assert (Htw : twf (Tree (Some data) false [] [])) by (constructor; [split; [done|constructor]|done|done]). destruct fs1; [by apply twf_rwf|done].
  - rewrite <- Hpath, <- (app_nil_r (path fs1)). apply (holds_insert fs1 nothing); [done|done|]. intros s' v'. apply has_set. split; [done|constructor].
  - unfold counted in *. rewrite Hn3. cbn. rewrite Hnn2, Hc1. by rewrite !length_app, Hlen3.
Qed.

Lemma after_split_twf cs j t : twf t → (j < length cs)%nat → twf (after_split cs j t).
Proof.
  intros Ht Hj. unfold after_split. case_decide; [done|]. assert (Hl : len (drop (S j) cs) = len cs - Z.of_nat j - 1) by (rewrite length_drop; lia). assert (Hne : drop (S j) cs ≠ []) by (intros E; rewrite E in Hl; cbn in Hl; lia).
  constructor; [rewrite <- Hl; by apply shape_gt|done|by apply Forall_singleton].
Qed.

Lemma rax_insert_spec r m s data overwrite : rax_inv r m → len s <= RAX_NODE_MAX_SIZE → ∃ r', raxGenericInsert r s data overwrite = Some (r', match m !! s with Some _ => 0 | None => 1 end, m !! s) ∧ rax_inv r' (inserted m s data overwrite).
Proof.
  intros Hi Hl. destruct (low_walk r m s Hi) as (fs & q & t & st & L & M & rest & j & Hw & Hp & Hh & Hm & Hs & Hc & Hstop). destruct Hi as (_ & _ & _ & _ & _ & _ & He & Hb). destruct t as [k c cs ts]. destruct (place_node _ _ _ _ _ _ _ _ _ _ Hp) as (n & Hn & Hk & Hcp & Hcs).
  unfold raxGenericInsert. rewrite Hw. mnext. cbn [w_i w_stop w_link w_split w_stack]. rewrite Hn. mnext. rewrite Hcp. pose proof (hole_rwf _ _ Hh) as Hwf.
  destruct Hstop as [[-> ->]|[(-> & -> & x & rest' & Hrest & Hx)|(-> & Hne & Hj & Hlt)]].
  - rewrite app_nil_r in Hs. subst s. replace (_ && _) with true by (rewrite Z.add_0_r, Z.eqb_refl, orb_true_r; done). by apply (insert_existing r fs q k c cs ts st L M).
  - change (Z.of_nat 0) with 0. assert (Hi : len (path fs) + 0 =? len s = false) by (rewrite Hs, Hrest, length_app; cbn [length]; lia). rewrite Hi. cbn [andb]. mnext. destruct (insert_below r fs q k cs ts st L M m data rest s) as (r' & Hr' & Hno & Hinv); try done; [apply Hh|by exists x, rest'|].
    rewrite Z.add_0_r. exists r'. unfold inserted. by rewrite Hno.
  - destruct Hwf as [[Hlen H1] Hts]. destruct ts as [|t [|? ?]]; [done| |done]. apply Forall_cons in Hts as [Hts _]. destruct (common_spec cs rest) as (Htk & _ & Hjr & Hdiff). rewrite <- Hj in *.
    destruct (len (path fs) + Z.of_nat j =? len s) eqn:E; to_prop; cbn [andb orb negb]; rewrite Hs, length_app in E.
    + replace (Z.of_nat j =? 0) with false by (destruct rest; [done|]; cbn [length] in E; lia). assert (Hr : rest = take j cs) by (rewrite Htk; symmetry; apply take_ge; lia). destruct (insert_inside r fs q k cs t st L M m data j) as (r' & -> & Hno & Hinv); try done; [destruct rest; [done|]; cbn [length] in *; lia|by rewrite <- Hr, <- Hs|]. mnext.
      rewrite <- Hr, <- Hs in Hno, Hinv. exists r'. unfold inserted. by rewrite Hno.
    + destruct (split_mismatch_spec _ _ _ _ _ _ _ _ _ j Hp Hlt Hlen Hc (proj1 Hh)) as (r1 & p & c & k2 & fs2 & st2 & L2 & M2 & -> & Hcj & He1 & Hc1 & Hp1 & Hf2 & Hpath & Hfill). mnext.
      assert (Hplen : len (path fs2) = len (path fs) + Z.of_nat j) by (rewrite Hpath, length_app, length_take; lia). rewrite <- Hplen.
      destruct (insert_below r1 fs2 p k2 [c] [after_split cs j t] st2 L2 M2 m data (drop j rest) s) as (r' & Hr' & Hno & Hinv); try done.
      * split; [split; [done|by repeat constructor]|]. apply Forall_singleton. by apply after_split_twf.
      * rewrite Hfill. eapply holds_same; [apply Hh|exact Hm|]. intros s' v'. by apply has_split_tree.
      * rewrite Hs, Hpath, Htk, <- app_assoc. by rewrite take_drop.
      * destruct (lookup_lt_is_Some_2 rest j) as [x Hx]; [lia|]. exists x, (drop (S j) rest). split; [by apply drop_S|]. rewrite list_elem_of_singleton. intros ->. by apply (Hdiff c c).
      * by rewrite He1.
      * exists r'. unfold inserted. by rewrite Hno.
Qed.
End rax.
