(* ===== verification/RaxRemove.v ===== *)
(** Radix trees: removal, the chains that it compresses again, and the end of a tree. *)
From Stdlib Require Import Sorted.
From stdpp Require Import gmap.
From S2P Require Import Prelude Rax RaxSpec RaxHeap RaxTheorems RaxInsert.
#[local] Open Scope Z_scope.

Section rax.
Context `{RaxAlloc}.

(** ** Links *)

Lemma find_child_at ps1 q ps2 : q ∉ ps1 → find_child (ps1 ++ q :: ps2) q = Some (length ps1).
Proof.
  induction ps1 as [|p ps1 IH]; intros Hq; cbn; [by rewrite bool_decide_true|]. apply not_elem_of_cons in Hq as [Hne Hq]. rewrite bool_decide_false by done. by rewrite IH.
Qed.

Lemma reprs_in h ps ts L p : reprs h ps ts L → p ∈ ps → p ∈ L.
Proof. induction 1 as [|q ps t ts L1 L2 Hq _ IH]; [done|]. rewrite elem_of_app. intros [->|Hin]%elem_of_cons; [left; by eapply repr_in|right; by apply IH]. Qed.

(** The link that the parent on the stack has to a place. *)
Lemma parent_link r fs q root st L : rctx (rnodes r) fs q root st L → q ∉ L → match st with [] => Some LHead | p :: _ => raxFindParentLink r p q end = Some (link_of fs st).
Proof.
  intros Hc Hq. inversion Hc as [|f fs' p n q0 root' st' ps1 ps2 L1 L2 L' Hp Hi Hk H1 H2 Hc']; subst; [done|]. unfold raxFindParentLink. change (rnode r p = Some n) in Hp. rewrite Hp. mnext. rewrite Hk, find_child_at; [mnext|].
  - cbn. by rewrite (reprs_length _ _ _ _ H1).
  - intros Hin. apply Hq. right. apply elem_of_app. left. by eapply reprs_in.
Qed.

Lemma link_same r fs q st L : rctx (rnodes r) fs q (head r) st L → write_link r (link_of fs st) q = Some r.
Proof.
  intros Hc. inversion Hc as [|f fs' p n q0 root' st' ps1 ps2 L1 L2 L' Hp Hi Hk H1 H2 Hc']; subst; cbn [link_of write_link].
  - by destruct r.
  - change (rnode r p = Some n) in Hp. rewrite Hp. mnext. unfold set_kid. rewrite <- (reprs_length _ _ _ _ H1), Hk. rewrite bool_decide_true by (rewrite length_app; cbn; lia). mnext. rewrite list_insert_id by (by apply list_lookup_middle). rewrite <- Hk.
    f_equal. unfold rput. rewrite insert_id; [by destruct r|]. unfold rnode in Hp. rewrite Hp. by destruct n.
Qed.

(** The root is one of the nodes around a place. *)
Lemma root_in h f fs q root st L : rctx h (f :: fs) q root st L → root ∈ L.
Proof.
  revert f q st L. induction fs as [|f' fs IH]; intros f q st L Hc; inversion Hc as [|f0 fs' p n q0 root' st' ps1 ps2 L1 L2 L' Hp Hi Hk H1 H2 Hc']; subst.
  - inversion Hc'; subst. by left.
  - apply IH in Hc'. right. rewrite !elem_of_app. tauto.
Qed.

(** ** The nodes freed from a leaf upwards *)

Definition keeps (k : option Z) (c : bool) (cs : list Z) : bool := bool_decide (is_Some k) || (negb c && negb (len cs =? 1)).
Lemma keeps_is n k c cs : node_is n k c cs → keeps_node n = keeps k c cs.
Proof. intros (<- & <- & <-). unfold keeps_node, keeps, node_key, nsize. by destruct (iskey n). Qed.

Lemma keeps_false k c cs (ts : list tree) : shape c cs (length ts) → keeps k c cs = false → k = None ∧ one_child c cs ∧ ∃ t, ts = [t].
Proof.
  unfold keeps, shape. intros Hsh [Hk Hc]%orb_false_iff. split; [apply eq_None_not_Some; by apply bool_decide_eq_false in Hk|]. destruct c; cbn in Hc.
  - destruct Hsh as [_ Hl]. split; [by left|]. destruct ts as [|t [|? ?]]; [done|by exists t|done].
  - assert (Hl : length cs = 1%nat) by (apply negb_false_iff in Hc; to_prop; lia). destruct Hsh as [Hn _]. rewrite Hl in Hn. split; [by right|]. destruct ts as [|t [|? ?]]; [done|by exists t|done].
Qed.

Definition fkeeps (f : frame) : bool := keeps (f_key f) (f_compr f) (f_cs f).
Lemma fkeeps_false f : fwf f → fkeeps f = false → f_key f = None ∧ f_left f = [] ∧ f_right f = [].
Proof.
  intros [Hs _ _] Hk. destruct (keeps_false _ _ _ _ Hs Hk) as (Hn & _ & t & Ht). split; [done|]. destruct (f_left f) as [|? l]; [split; [done|]; by destruct (f_right f)|]. by destruct l.
Qed.

(** Without its only child, such a node holds nothing. *)
Lemma fill_nothing f fs s v : Forall fwf (f :: fs) → fkeeps f = false → has (fill (f :: fs) nothing) s v ↔ has (fill fs nothing) s v.
Proof.
  intros [Hf Hfs]%Forall_cons Hk. destruct (fkeeps_false f Hf Hk) as (Hn & Hl & Hr). cbn [fill]. rewrite !has_fill by done.
  assert (Hno : ∀ s', has (fill1 f nothing) s' v ↔ has nothing s' v); [|by setoid_rewrite Hno]. intros s'. unfold fill1. rewrite Hn, Hl, Hr. split; [|by intros ?%has_nothing]. rewrite has_inv. intros [[_ ?]|[(_ & j & x & t & s2 & _ & Ht & _ & Hv)|(_ & t & s2 & [= <-] & _ & Hv)]]; [done| |by apply has_nothing in Hv].
  destruct j as [|j]; [|done]. injection Ht as <-. by apply has_nothing in Hv.
Qed.

(** A place whose node is gone, and one whose node is all that is left of its tree. *)
Record hole_at (r : rax) (fs : list frame) (q : positive) (st L : list positive) : Prop := {
  h_ctx : rctx (rnodes r) fs q (head r) st L;
  h_nodup : NoDup L;
  h_out : q ∉ L;
  h_dom : ∀ p, is_Some (rnodes r !! p) → p ∈ L;
}.
Record node_at (r : rax) (fs : list frame) (q : positive) (st L : list positive) : Prop := {
  n_ctx : rctx (rnodes r) fs q (head r) st L;
  n_nodup : NoDup (q :: L);
  n_live : is_Some (rnodes r !! q);
  n_dom : ∀ p, is_Some (rnodes r !! p) → p ∈ q :: L;
}.

Lemma free_node r fs q st L : node_at r fs q st L → counted r (q :: L) → ∃ r1, rfree r q = Some r1 ∧ hole_at (add_nodes r1 (-1)) fs q st L ∧ counted (add_nodes r1 (-1)) L ∧ numele r1 = numele r ∧ head r1 = head r.
Proof.
  intros [Hc Hnd [n Hn] Hd] Hcnt. apply NoDup_cons in Hnd as [Hq Hnd]. unfold rfree. change (rnode r q = Some n) in Hn. rewrite Hn. mnext. eexists. split; [done|]. split_and!; [constructor; cbn [rnodes head add_nodes set_nodes]|..]; try done.
  - eapply rctx_agree; [done|]. intros p Hp. rewrite lookup_delete_ne; [done|]. by intros ->.
  - intros p Hp. destruct (decide (p = q)) as [->|Hne]; [rewrite lookup_delete_eq in Hp; by destruct Hp|]. rewrite lookup_delete_ne in Hp by done. by apply Hd, elem_of_cons in Hp as [?|?].
  - eapply counted_add; [done|done|]. cbn [length]. lia.
Qed.

Lemma ctx_stack h fs q root st L : rctx h fs q root st L → length st = length fs.
Proof. induction 1; cbn; congruence. Qed.

Lemma free_up_spec fs : ∀ fuel r h child st L, fs ≠ [] → node_at r fs h st L → Forall fwf fs → (length fs <= fuel)%nat → counted r (h :: L) →
  ∃ r' f fs1 p q st1 L1, free_up fuel r h child st = Some (r', p, Some q, st1) ∧ hole_at r' (f :: fs1) q (p :: st1) L1 ∧ counted r' L1 ∧ numele r' = numele r ∧ Forall fwf (f :: fs1) ∧ (fkeeps f = true ∨ fs1 = []) ∧
    ∀ s v, has (fill fs nothing) s v ↔ has (fill (f :: fs1) nothing) s v.
Proof.
  induction fs as [|f fs IH]; intros fuel r h child st L Hne Hat Hfw Hfuel Hcnt; [done|]. pose proof (n_ctx _ _ _ _ _ Hat) as Hc. pose proof (n_nodup _ _ _ _ _ Hat) as [HhL HndL]%NoDup_cons.
  assert (Hroot : h ≠ head r) by (intros ->; apply HhL; by eapply root_in). destruct fuel as [|fuel]; [cbn in Hfuel; lia|]. cbn [free_up]. rewrite bool_decide_false by done. destruct (free_node _ _ _ _ _ Hat Hcnt) as (r1 & -> & Hhole & Hcnt1 & He1 & Hh1). mnext.
  pose proof (h_ctx _ _ _ _ _ Hhole) as Hc1. inversion Hc1 as [|f' fs' p n q0 root' st' ps1 ps2 L1 L2 L' Hp Hi Hk H1 H2 Hc']; subst. change (rnode (add_nodes r1 (-1)) p = Some n) in Hp. rewrite Hp. mnext. rewrite (keeps_is _ _ _ _ Hi). fold (fkeeps f). destruct (fkeeps f) eqn:Ek.
  - exists (add_nodes r1 (-1)), f, fs, p, h, st'. eexists. split; [done|]. split_and!; try done. by left.
  - apply Forall_cons in Hfw as Hfw'. destruct Hfw' as [Hf Hfs]. destruct fs as [|f2 fs].
    + inversion Hc'; subst. assert (Hb : bool_decide (head (add_nodes r1 (-1)) = head (add_nodes r1 (-1))) = true) by (by apply bool_decide_true). eexists (add_nodes r1 (-1)), f, [], _, h, [], _. split; [by destruct fuel; cbn [free_up]; rewrite Hb|]. split_and!; try done. by right.
    + destruct (fkeeps_false f Hf Ek) as (_ & Hl & Hr). rewrite Hl in H1. rewrite Hr in H2. inversion H1; subst. inversion H2; subst. destruct (IH fuel (add_nodes r1 (-1)) p (Some h) st' L') as (r' & g & fs1 & p' & q & st1 & L1 & Hrun & Hhole' & Hcnt' & He' & Hfw' & Hstop & Hsame); [done| |done|cbn in Hfuel |- *; lia|done|].
      * destruct Hhole as [_ Hnd _ Hd]. constructor; [done|done|by exists n|done].
      * exists r', g, fs1, p', q, st1, L1. split_and!; try done; [by rewrite He'|]. intros s v. rewrite <- Hsame. by apply fill_nothing.
Qed.

(** ** The child is unlinked *)

Definition relink (r : rax) (h new : positive) (ts : list positive) : option rax :=
  if bool_decide (new = h) then Some r else l ← match ts with [] => Some LHead | p :: _ => raxFindParentLink r p h end; write_link r l new.

Lemma place_relink r fs q st L M1 q' n' k' c' cs' ts' : rctx (rnodes r) fs q (head r) st L → (∀ p, is_Some (rnodes r !! p) ↔ p ∈ L ++ q :: M1) → NoDup (L ++ q :: M1) → q' = q ∨ rnodes r !! q' = None → node_is n' k' c' cs' → reprs (rnodes r) (kids n') ts' M1 →
  ∃ r2, relink (set_nodes r (<[q' := n']> (delete q (rnodes r)))) q q' st = Some r2 ∧ numele r2 = numele r ∧ numnodes r2 = numnodes r ∧ at_place r2 fs q' (Tree k' c' cs' ts') st L (q' :: M1) ∧ rnodes r2 !! q' = Some n'.
Proof.
  intros Hc Hd Hnd Hq Hn Hs. set (r1 := set_nodes r _). destruct (place_move r r fs q st L M1 q' n' k' c' cs' ts' Hc) as (r2 & Hw & Hrest); try done. exists r2. split; [|done]. fold r1 in Hw.
  assert (HqL : q ∉ L) by (intros Hin; apply NoDup_app in Hnd as (_ & Hx & _); apply (Hx q Hin); by left). assert (Hq'L : q' ∉ L) by (destruct Hq as [->|Hq]; [done|]; intros Hin; assert (is_Some (rnodes r !! q')) as [? ?]; [apply Hd, elem_of_app; by left|congruence]).
  assert (Hc1 : rctx (rnodes r1) fs q (head r1) st L). { eapply rctx_agree; [done|]. intros p Hp. unfold r1. cbn. rewrite lookup_insert_ne, lookup_delete_ne; [done|intros ->; done|intros ->; done]. }
  unfold relink. case_bool_decide as E.
  - rewrite E in Hw. by rewrite (link_same r1 fs q st L Hc1) in Hw.
  - rewrite (parent_link r1 fs q _ st L Hc1 HqL). mnext. done.
Qed.

Definition removed_tree (f : frame) : tree :=
  if f_compr f then Tree (f_key f) false [] [] else Tree (f_key f) false (delete (length (f_left f)) (f_cs f)) (f_left f ++ f_right f).

Lemma has_removed f s v : fwf f → has (removed_tree f) s v ↔ has (fill1 f nothing) s v.
Proof.
  intros [Hs _ _]. unfold removed_tree, fill1. rewrite length_app in Hs. cbn [length] in Hs. destruct (f_compr f).
  - destruct Hs as [_ Hs]. destruct (f_left f); [|cbn in Hs; lia]. destruct (f_right f); [|cbn in Hs; lia]. symmetry. apply has_compress.
  - destruct Hs as [Hl _]. destruct (lookup_lt_is_Some_2 (f_cs f) (length (f_left f))) as [c Hc]; [lia|]. symmetry. set (pos := length (f_left f)) in *. assert (Hld : length (delete pos (f_cs f)) = length (f_left f ++ f_right f)) by (rewrite length_delete by (by eexists); rewrite length_app; lia).
    rewrite <- (has_added (f_key f) (delete pos (f_cs f)) (f_left f ++ f_right f) pos c s v); [|rewrite Hld, length_app; lia|done]. rewrite (take_app_length' (f_left f)), (drop_app_length' (f_left f)) by done. assert (Htl : length (take pos (f_cs f)) = pos) by (rewrite length_take; lia). rewrite delete_take_drop, take_app_length', drop_app_length' by done. by rewrite take_drop_middle.
Qed.

Lemma keys_delete l i : StronglySorted Z.lt l → StronglySorted Z.lt (delete i l).
Proof.
  intros Hs. revert i. induction Hs as [|x l Hs IH Hall]; intros i; [constructor|]. destruct i as [|i]; [done|]. cbn. constructor; [apply IH|]. by apply Forall_delete.
Qed.

Lemma removed_wf f : fwf f → rwf (removed_tree f) ∧ (fkeeps f = true → twf (removed_tree f)).
Proof.
  intros [Hs Hl Hr]. assert (Hw : rwf (removed_tree f) ∧ (fkeeps f = true → match removed_tree f with Tree k _ cs _ => cs = [] → k ≠ None end)); [|destruct Hw as [Hw Hk]; split; [done|]; destruct (removed_tree f) as [k c cs ts]; intros Hkp; destruct Hw; constructor; [done|by apply Hk|done]].
  unfold removed_tree, fkeeps, keeps. rewrite length_app in Hs. cbn [length] in Hs. destruct (f_compr f).
  - split; [split; [split; [done|constructor]|done]|]. cbn. rewrite orb_false_r. intros [? ->]%bool_decide_eq_true _. done.
  - destruct Hs as [Hn Hso]. assert (Hld : length (delete (length (f_left f)) (f_cs f)) = length (f_left f ++ f_right f)) by (rewrite length_delete by (apply lookup_lt_is_Some_2; lia); rewrite length_app; lia). split.
    + split; [split; [done|by apply keys_delete]|by apply Forall_app].
    + intros [[? ->]%bool_decide_eq_true|E]%orb_true_iff Hd; [done|]. cbn in E. to_prop. rewrite Hd, length_app in Hld. cbn in Hld. lia.
Qed.

Lemma remove_child_spec r f fs q p st L : hole_at r (f :: fs) q (p :: st) L → fwf f → counted r L →
  ∃ r1 new r2 L' M', raxRemoveChild r p q = Some (r1, new) ∧ relink r1 p new st = Some r2 ∧ at_place r2 fs new (removed_tree f) st L' M' ∧ counted r2 (L' ++ M') ∧ numele r2 = numele r.
Proof.
  intros [Hc Hnd Hq Hd] Hf Hcnt. inversion Hc as [|f' fs' p' n q0 root' st' ps1 ps2 L1 L2 L' Hp Hi Hk H1 H2 Hc']; subst. assert (Hperm : L' ++ p :: L1 ++ L2 ≡ₚ p :: L1 ++ L2 ++ L') by solve_Permutation.
  assert (Hdom : ∀ x, is_Some (rnodes r !! x) ↔ x ∈ L' ++ p :: L1 ++ L2) by (intros x; rewrite Hperm; split; [apply Hd|by apply (rctx_live _ _ _ _ _ _ x Hc)]). assert (Hnd' : NoDup (L' ++ p :: L1 ++ L2)) by (by rewrite Hperm).
  destruct Hi as (Hik & Hic & Hics). unfold raxRemoveChild. change (rnode r p = Some n) in Hp. rewrite Hp. mnext. rewrite Hic. pose proof Hf as [Hs _ _]. rewrite length_app in Hs. cbn [length] in Hs. unfold removed_tree. destruct (f_compr f).
  - destruct Hs as [_ Hs]. destruct (f_left f) eqn:El; [|cbn in Hs; lia]. destruct (f_right f) eqn:Er; [|cbn in Hs; lia]. inversion H1; subst. inversion H2; subst. set (m := if iskey n then _ else _).
    destruct (place_relink r fs p st L' [] p m (f_key f) false [] [] Hc' Hdom Hnd') as (r2 & Hrel & He & Hn & Hp2 & _); [by left| | |].
    + unfold m. pose proof (keep_data n (mk_rnode (iskey n) false false [] [] (value n))) as Hkd. split_and!; [rewrite <- Hik, <- Hkd; by destruct (iskey n) eqn:Ek|by destruct (iskey n); [rewrite (proj1 (set_data_other _ _))|]|destruct (iskey n); [by rewrite (proj1 (proj2 (set_data_other _ _)))|done]].
    + assert (Hm : kids m = []) by (unfold m; destruct (iskey n); [by rewrite (proj2 (proj2 (set_data_other _ _)))|done]). rewrite Hm. constructor.
    + rewrite insert_delete_eq in Hrel. eexists _, p, r2, L', [p]. split_and!; try done. unfold counted in *. rewrite Hn, Hcnt. by rewrite <- (length_perm _ _ Hperm).
  - set (pos := length (f_left f)). assert (Hpos : length ps1 = pos) by (by apply reprs_length in H1). rewrite Hk, find_child_at by (intros Hin; apply Hq; right; apply elem_of_app; left; by eapply reprs_in). mnext. unfold rmove. set (q' := rax_realloc (rnodes r) p). set (n' := mk_rnode _ _ _ _ _ _).
    destruct (place_relink r fs p st L' (L1 ++ L2) q' n' (f_key f) false (delete pos (f_cs f)) (f_left f ++ f_right f) Hc' Hdom Hnd') as (r2 & Hrel & He & Hn & Hp2 & _); [apply rax_realloc_fresh|split_and!; cbn; [done|done|by rewrite Hpos, Hics]| |].
    + unfold n'. cbn [kids]. rewrite delete_middle. by apply reprs_app.
    + eexists _, q', r2, L', _. split_and!; try done. unfold counted in *. rewrite Hn, Hcnt. rewrite <- (length_perm _ _ Hperm). by rewrite !length_app.
Qed.

(** ** Chains of nodes with one child *)

Lemma compress_up_spec fs : ∀ r q c cs t st L M, at_place r fs q (Tree None c cs [t]) st L M → one_child c cs → hole_wf fs (Tree None c cs [t]) →
  ∃ start fs' c' cs' t' st' L' M', compress_up r q st = Some (start, hd_error st') ∧ at_place r fs' start (Tree None c' cs' [t']) st' L' M' ∧ one_child c' cs' ∧ hole_wf fs' (Tree None c' cs' [t']) ∧
    fill fs' (Tree None c' cs' [t']) = fill fs (Tree None c cs [t]) ∧ L' ++ M' ≡ₚ L ++ M.
Proof.
  induction fs as [|f fs IH]; intros r q c cs t st L M Hp Hone Hh.
  - pose proof (p_ctx _ _ _ _ _ _ _ Hp) as Hc. inversion Hc; subst. by exists (head r), [], c, cs, t, [], [], M.
  - destruct (place_up _ _ _ _ _ _ _ _ Hp) as (p & st' & L' & M' & -> & Hp' & Hperm). cbn [compress_up]. destruct (place_node _ _ _ _ _ _ _ _ _ _ Hp') as (n & Hn & Hk & Hc & Hcs). rewrite Hn. mnext. rewrite (keeps_is n (f_key f) (f_compr f) (f_cs f)) by done. destruct (keeps _ _ _) eqn:Ek.
    + by exists q, (f :: fs), c, cs, t, (p :: st'), L, M.
    + pose proof Hh as [[Hf Hfs]%Forall_cons _]. destruct (fkeeps_false f Hf Ek) as (Hn0 & Hl & Hr). pose proof (hole_up _ _ _ Hh) as Hh'. destruct (keeps_false _ _ _ _ (fw_shape f Hf) Ek) as (_ & Hone' & _).
      assert (E : fill1 f (Tree None c cs [t]) = Tree None (f_compr f) (f_cs f) [Tree None c cs [t]]) by (unfold fill1; by rewrite Hn0, Hl, Hr). cbn [fill]. rewrite E in *. destruct (IH _ _ _ _ _ _ _ _ Hp' Hone' Hh') as (start & fs' & c' & cs' & t' & st2 & L2 & M2 & Hrun & Hp2 & Hone2 & Hh2 & Hfill & Hperm2).
      exists start, fs', c', cs', t', st2, L2, M2. split_and!; try done. by rewrite Hperm2.
Qed.

Lemma shape_one c cs : shape c cs 1 → one_child c cs ∧ (1 <= length cs)%nat.
Proof. unfold shape, one_child. destruct c; [intros [? _]; split; [by left|lia]|intros [<- _]; split; [by right|lia]]. Qed.

(** A chain: its characters, its nodes, the tree after it. *)
Inductive chain (h : gmap positive raxNode) : positive → tree → list Z → list positive → positive → tree → Prop :=
| chain_end p n c cs q k' c' cs' ts' : h !! p = Some n → node_is n None c cs → kids n = [q] → shape c cs 1 → keeps k' c' cs' = true → (∃ nq, h !! q = Some nq ∧ node_is nq k' c' cs') → chain h p (Tree None c cs [Tree k' c' cs' ts']) cs [p] q (Tree k' c' cs' ts')
| chain_next p n c cs q c' cs' t l A e te : h !! p = Some n → node_is n None c cs → kids n = [q] → shape c cs 1 → keeps None c' cs' = false → chain h q (Tree None c' cs' [t]) l A e te → chain h p (Tree None c cs [Tree None c' cs' [t]]) (cs ++ l) (p :: A) e te.

Lemma chain_of h t : ∀ p c cs M, repr h p (Tree None c cs [t]) M → shape c cs 1 → twf t → ∃ l A e te Me, chain h p (Tree None c cs [t]) l A e te ∧ M = A ++ Me ∧ repr h e te Me ∧ twf te.
Proof.
  induction t as [k c' cs' ts IH] using tree_induct. intros p c cs M Hr Hone Hwf. inversion Hr as [p' n ? ? ? ? M' Hn Hi Hs]; subst. inversion Hs as [|q ps ? ? L1 L2 Hq Hnil]; subst. inversion Hnil; subst. rewrite app_nil_r. destruct (keeps k c' cs') eqn:Ek.
  - eexists cs, [p], q, _, L1. split_and!; [|done|exact Hq|done]. inversion Hq; subst. eapply chain_end; eauto.
  - inversion Hwf as [? ? ? ? Hsh _ Hts]; subst. destruct (keeps_false _ _ _ _ Hsh Ek) as (-> & _ & t & ->). apply Forall_cons in IH as [IH _], Hts as [Ht _]. destruct (IH q c' cs' L1 Hq Hsh Ht) as (l & A & e & te & Me & Hch & -> & He & Hte).
    exists (cs ++ l), (p :: A), e, te, Me. split_and!; try done. eapply chain_next; eauto.
Qed.

(** Merging the chain does not change what it holds. *)
Lemma chain_has h p t l A e te : chain h p t l A e te → ∀ s v, has t s v ↔ ∃ s', s = l ++ s' ∧ has te s' v.
Proof.
  induction 1 as [p n c cs q k' c' cs' ts' Hn Hi Hk Hone Hkp Hq|p n c cs q c' cs' t l A e te Hn Hi Hk Hone Hkp Hch IH]; intros s v; rewrite has_single by (by apply shape_one).
  - split; [by intros [[_ ?]|?]|by right].
  - setoid_rewrite IH. split; [intros [[_ ?]|(s1 & -> & s2 & -> & Hv)]; [done|exists s2; by rewrite app_assoc]|intros (s' & -> & Hv); right; exists (l ++ s'); rewrite app_assoc; split; [done|by exists s']].
Qed.

Lemma chain_sizes h p t l A e te : chain h p t l A e te → (1 <= length A)%nat ∧ (length A <= length l)%nat.
Proof. induction 1 as [p n c cs q k' c' cs' ts' Hn Hi Hk Hsh Hkp Hq|p n c cs q c' cs' t l A e te Hn Hi Hk Hsh Hkp Hch IH]; destruct (shape_one _ _ Hsh) as [_ Hl]; rewrite ?length_app; cbn [length]; lia. Qed.

Lemma node_size n k c cs : node_is n k c cs → nsize n = len cs.
Proof. intros (_ & _ & <-). done. Qed.

Lemma chain_scan_spec r p t l A e te : chain (rnodes r) p t l A e te → ∀ fuel c0 k, (length A <= fuel)%nat → match t with Tree _ _ cs _ => c0 + len l - len cs <= RAX_NODE_MAX_SIZE → chain_scan fuel r p c0 k = Some (c0 + len l - len cs, k + len A - 1) end.
Proof.
  induction 1 as [p n c cs q k' c' cs' ts' Hn Hi Hk Hsh Hkp (nq & Hnq & Hiq)|p n c cs q c' cs' t l A e te Hn Hi Hk Hsh Hkp Hch IH]; intros fuel c0 k Hf Hmax; (destruct fuel as [|fuel]; [cbn in Hf; lia|]); cbn [chain_scan]; change (rnode r p = Some n) in Hn; rewrite Hn; mnext; destruct (shape_one _ _ Hsh) as [_ Hl]; rewrite (node_size _ _ _ _ Hi); if_false; rewrite (last_child_single _ _ Hk); mnext.
  - change (rnode r q = Some nq) in Hnq. rewrite Hnq. mnext. rewrite (keeps_is _ _ _ _ Hiq), Hkp. cbn [length]. do 2 f_equal; lia.
  - assert (∃ nq, rnode r q = Some nq ∧ node_is nq None c' cs') as (nq & Hnq & Hiq) by (inversion Hch; subst; eauto). rewrite Hnq. mnext. rewrite (keeps_is _ _ _ _ Hiq), Hkp, (node_size _ _ _ _ Hiq). rewrite length_app in Hmax. cbn [length] in Hf.
    assert (Hl' : (length cs' <= length l)%nat) by (inversion Hch; subst; rewrite ?length_app; lia). if_false. rewrite (IH fuel (c0 + len cs') (k + 1)) by lia. rewrite length_app. cbn [length]. do 2 f_equal; lia.
Qed.

Lemma chain_agree h h' p t l A e te : chain h p t l A e te → (∀ x, x ∈ A ∨ x = e → h' !! x = h !! x) → chain h' p t l A e te.
Proof.
  induction 1 as [p n c cs q k' c' cs' ts' Hn Hi Hk Hsh Hkp (nq & Hnq & Hiq)|p n c cs q c' cs' t l A e te Hn Hi Hk Hsh Hkp Hch IH]; intros Hag.
  - eapply chain_end; eauto; [rewrite Hag; [done|left; by left]|]. exists nq. split; [|done]. rewrite Hag; [done|by right].
  - eapply chain_next; eauto; [rewrite Hag; [done|left; by left]|]. apply IH. intros x Hx. apply Hag. rewrite elem_of_cons. tauto.
Qed.

Lemma chain_take_spec : ∀ fuel r p t l A e te acc size, chain (rnodes r) p t l A e te → NoDup A → e ∉ A → len acc + len l <= size → (length A <= fuel)%nat →
  ∃ r', chain_take fuel r p acc size = Some (r', e, acc ++ l) ∧ head r' = head r ∧ numele r' = numele r ∧ numnodes r' = u64 (numnodes r - len A) ∧ ∀ x, rnodes r' !! x = if decide (x ∈ A) then None else rnodes r !! x.
Proof.
  induction fuel as [|fuel IH]; intros r p t l A e te acc size Hch Hnd He Hsize Hf; [apply chain_sizes in Hch; lia|].
  inversion Hch as [p' n c cs q k' c' cs' ts' Hn Hi Hk Hsh Hkp (nq & Hnq & Hiq)|p' n c cs q c' cs' t' l' A' e' te' Hn Hi Hk Hsh Hkp Hch']; subst; cbn [chain_take]; pose proof Hn as Hn0; change (rnode r p = Some n) in Hn0; rewrite Hn0; mnext; destruct (shape_one _ _ Hsh) as [_ Hl]; rewrite (node_size _ _ _ _ Hi); if_false.
  - if_false. rewrite (last_child_single _ _ Hk). mnext. unfold rfree. rewrite Hn0. do 2 mnext. assert (Hne : e ≠ p) by (intros ->; apply He; by left). unfold rnode. look. rewrite Hnq. mnext. rewrite (keeps_is _ _ _ _ Hiq), Hkp. destruct Hi as (_ & _ & ->).
    eexists. split; [done|]. split_and!; [done|done|done|]. intros x. look. case_decide as Hx; [apply list_elem_of_singleton in Hx as ->; by rewrite lookup_delete_eq|]. rewrite lookup_delete_ne; [done|]. intros ->. apply Hx. by left.
  - rewrite length_app in Hsize. if_false. rewrite (last_child_single _ _ Hk). mnext. unfold rfree. rewrite Hn0. do 2 mnext. apply NoDup_cons in Hnd as [HpA HndA]. apply not_elem_of_cons in He as [Hep HeA]. set (r1 := add_nodes _ (-1)).
    assert (Hch1 : chain (rnodes r1) q (Tree None c' cs' [t']) l' A' e te). { eapply chain_agree; [done|]. intros x Hx. unfold r1. look. rewrite lookup_delete_ne; [done|]. intros ->. destruct Hx as [?|?]; [done|congruence]. }
    assert (∃ nq, rnode r1 q = Some nq ∧ node_is nq None c' cs') as (nq & Hnq & Hiq) by (inversion Hch1; subst; eauto). rewrite Hnq. mnext. rewrite (keeps_is _ _ _ _ Hiq), Hkp. assert (Hcs : ndata n = cs) by apply Hi. rewrite Hcs.
    destruct (IH r1 q _ l' A' e te (acc ++ cs) size Hch1 HndA HeA) as (r' & -> & Hh' & He' & Hn' & Hx'); [rewrite length_app; lia|cbn [length] in Hf; lia|]. exists r'. split; [by rewrite app_assoc|]. split_and!; [done|done| |].
    + rewrite Hn'. cbn [r1 numnodes add_nodes length]. unfold wrapu. rewrite Zminus_mod_idemp_l. f_equal. cbn [length set_nodes numnodes]. lia.
    + intros x. rewrite Hx'. unfold r1. look. destruct (decide (x = p)) as [->|Hne]; [rewrite decide_False, decide_True, lookup_delete_eq by (done || by left); done|]. rewrite lookup_delete_ne by done.
      destruct (decide (x ∈ A')) as [Hin|Hin]; [by rewrite decide_True by (by right)|]. rewrite decide_False; [done|]. by intros [?|?]%elem_of_cons.
Qed.

(** The heap after a chain is merged into a node. *)
Lemma merged_place r rf fs p t st L A Me new l e te n' : at_place r fs p t st L (A ++ Me) → repr (rnodes r) e te Me → rctx (rnodes rf) fs new (head rf) st L → rnodes r !! new = None →
  (∀ x, x ∉ L → rnodes rf !! x = if decide (x = new) then Some n' else if decide (x ∈ A) then None else rnodes r !! x) → node_is n' None true l → kids n' = [e] → at_place rf fs new (Tree None true l [te]) st L (new :: Me).
Proof.
  intros Hp He Hc Hnew Hx Hn Hk. destruct (fresh_out _ _ _ _ _ _ _ new Hp Hnew) as [HnL [HnA HnM]%not_elem_of_app]. pose proof (p_nodup _ _ _ _ _ _ _ Hp) as Hnd. apply NoDup_app in Hnd as (HndL & Hdis & HndM). apply NoDup_app in HndM as (_ & HAM & HndM).
  assert (HMe : ∀ x, x ∈ Me → x ∉ L ∧ x ∉ A ∧ x ≠ new). { intros x Hin. split_and!; [intros Hin'; apply (Hdis x Hin'), elem_of_app; by right|intros Hin'; by apply (HAM x)|by intros ->]. }
  constructor; [done| | |].
  - eapply repr_node; [rewrite Hx, decide_True by done; done|done|]. rewrite Hk. apply reprs_one. eapply repr_agree; [done|]. intros x Hin. destruct (HMe x Hin) as (? & ? & ?). by rewrite Hx, decide_False, decide_False by done.
  - apply NoDup_app. split_and!; [done| |by apply NoDup_cons]. intros x Hin [->|Hin']%elem_of_cons; [done|]. by destruct (HMe x Hin') as (? & _).
  - intros x Hs. rewrite elem_of_app, elem_of_cons. destruct (decide (x ∈ L)) as [?|HxL]; [by left|right]. rewrite Hx in Hs by done. destruct (decide (x = new)) as [->|Hne]; [by left|right]. destruct (decide (x ∈ A)) as [HxA|HxA]; [by destruct Hs|]. apply (place_live _ _ _ _ _ _ _ x Hp) in Hs. rewrite !elem_of_app in Hs. tauto.
Qed.

Lemma place_size r fs q t st L M : at_place r fs q t st L M → (length M <= size (rnodes r))%nat.
Proof.
  intros Hp. pose proof (p_nodup _ _ _ _ _ _ _ Hp) as Hnd. apply NoDup_app in Hnd as (_ & _ & HndM). rewrite <- (size_dom (D := gset positive)). rewrite <- (size_list_to_set (C := gset positive) M) by done. apply subseteq_size. intros x Hx. apply elem_of_list_to_set in Hx. apply elem_of_dom. apply (place_live _ _ _ _ _ _ _ x Hp), elem_of_app. by right.
Qed.

(** The characters on the way to a key. *)
Lemma path_bound fs t te l m : Forall fwf fs → holds (fill fs t) m → (∀ s v, has t s v ↔ ∃ s', s = l ++ s' ∧ has te s' v) → twf te → (∀ s, is_Some (m !! s) → len s <= RAX_NODE_MAX_SIZE) → len l <= RAX_NODE_MAX_SIZE.
Proof.
  intros Hf Hm Ht Hte Hb. destruct (twf_has te Hte) as (s & v & Hv). assert (Hs : m !! (path fs ++ l ++ s) = Some v) by (apply (holds_lookup fs t m _ v Hf Hm), Ht; by exists s). specialize (Hb _ (ex_intro _ v Hs)). rewrite !length_app in Hb. lia.
Qed.

Lemma recompress_spec r fs q c cs t st L M m : at_place r fs q (Tree None c cs [t]) st L M → shape c cs 1 → hole_wf fs (Tree None c cs [t]) → holds (fill fs (Tree None c cs [t])) m → counted r (L ++ M) →
  numele r = u64 (Z.of_nat (size m)) → (∀ s, is_Some (m !! s) → len s <= RAX_NODE_MAX_SIZE) → ∃ r', recompress r q st = Some r' ∧ rax_inv r' m.
Proof.
  intros Hp Hsh Hh Hm Hc He Hb. unfold recompress. destruct (compress_up_spec fs r q c cs t st L M Hp (proj1 (shape_one _ _ Hsh)) Hh) as (p & fs' & c' & cs' & t' & st' & L' & M' & -> & Hp' & Hone & Hh' & Hfill & Hperm). mnext. rewrite <- Hfill in Hm. clear Hp Hsh Hh Hfill.
  assert (Hc' : counted r (L' ++ M')) by (unfold counted in *; by rewrite (length_perm _ _ Hperm)). destruct (place_node _ _ _ _ _ _ _ _ _ _ Hp') as (n & Hn & _ & _ & Hcs). rewrite Hn. mnext. unfold nsize. rewrite Hcs. pose proof (hole_rwf _ _ Hh') as [Hsh Hts]. apply Forall_cons in Hts as [Ht _].
  destruct (chain_of _ t' p c' cs' M' (p_repr _ _ _ _ _ _ _ Hp') Hsh Ht) as (l & A & e & te & Me & Hch & -> & Hre & Hte). pose proof (chain_has _ _ _ _ _ _ _ Hch) as Hhas. pose proof (path_bound fs' _ te l m (proj1 Hh') Hm Hhas Hte Hb) as Hmax.
  pose proof (place_size _ _ _ _ _ _ _ Hp') as Hsize. rewrite length_app in Hsize. destruct (chain_sizes _ _ _ _ _ _ _ Hch) as [HA1 HA2]. rewrite (chain_scan_spec r p _ l A e te Hch) by lia. mnext. replace (len cs' + len l - len cs') with (len l) by lia.
  destruct (1 + len A - 1 >? 1) eqn:Hnodes; to_prop; [|exists r; split; [done|]; by eapply rax_inv_intro]. unfold rnew. set (new := rax_malloc (rnodes r)). set (r1 := add_nodes _ 1).
  assert (Hnew : rnodes r !! new = None) by apply rax_malloc_fresh. destruct (fresh_out _ _ _ _ _ _ _ new Hp' Hnew) as [HnL [HnA HnM]%not_elem_of_app]. pose proof (p_nodup _ _ _ _ _ _ _ Hp') as Hnd. apply NoDup_app in Hnd as (HndL & Hdis & HndM). apply NoDup_app in HndM as (HndA & HAM & _).
  assert (HeM : e ∈ Me) by (by eapply repr_in).
  assert (Hch1 : chain (rnodes r1) p (Tree None c' cs' [t']) l A e te). { eapply chain_agree; [done|]. intros x Hx. unfold r1. look. rewrite lookup_insert_ne; [done|]. intros ->. destruct Hx as [?|?]; congruence. }
  assert (HpA : p ∈ A) by (inversion Hch; by left). assert (HpL : p ∉ L') by (intros Hin; apply (Hdis p Hin), elem_of_app; by left).
  destruct (chain_take_spec (S (size (rnodes r))) r1 p _ l A e te [] (len l) Hch1 HndA) as (r2 & -> & Hh2 & He2 & Hn2 & Hx2); [intros Hin; by apply (HAM e)|cbn; lia|lia|]. mnext. cbn [app]. set (n' := mk_rnode _ _ _ l _ _). set (r3 := rput r2 new n').
  assert (HL3 : ∀ x, x ∈ L' → rnodes r3 !! x = rnodes r !! x). { intros x Hx. assert (x ∉ A ∧ new ≠ x) as [HxA Hne] by (split; [intros Hx'; apply (Hdis x Hx), elem_of_app; by left|by intros ->]). unfold r3. look. rewrite Hx2, decide_False by done. unfold r1. by look. }
  assert (Hhd : head r3 = head r) by exact Hh2. pose proof (p_ctx _ _ _ _ _ _ _ Hp') as Hctx. assert (Hctx3 : rctx (rnodes r3) fs' p (head r3) st' L') by (rewrite Hhd; by eapply rctx_agree).
  destruct (link_write r r3 fs' p st' L' new Hctx HndL Hhd HL3) as (r4 & Hw & He4 & Hn4 & Hctx4 & Hout4 & _). pose proof (parent_link r3 fs' p _ st' L' Hctx3 HpL) as Hlink. exists r4. split.
  { destruct st' as [|p0 st']; cbn [hd_error]; [injection Hlink as Hlink; by rewrite <- Hlink in Hw|]. rewrite Hlink. by mnext. }
  assert (Hpl : at_place r4 fs' new (Tree None true l [te]) st' L' (new :: Me)).
  { eapply (merged_place r r4 fs' p _ st' L' A Me new l e te n'); try done. intros x Hx. rewrite Hout4 by done. unfold r3. look. destruct (decide (x = new)) as [->|Hne]; [by rewrite lookup_insert_eq|]. rewrite lookup_insert_ne, Hx2 by done. unfold r1. by look. }
  eapply rax_inv_intro; [done| | | | |done].
  - split; [apply Hh'|]. assert (Hw2 : twf (Tree None true l [te])) by (constructor; [split; [lia|done]|intros ->; cbn in HA2; lia|by apply Forall_cons]). destruct fs'; [by apply twf_rwf|done].
  - eapply holds_same; [apply Hh'|done|]. intros s v. rewrite has_single by (by left). rewrite Hhas. split; [by intros [[_ ?]|?]|by right].
  - unfold counted in *. rewrite Hn4. change (numnodes r3) with (numnodes r2). rewrite Hn2. cbn [r1 numnodes add_nodes rput set_nodes]. rewrite Hc'. unfold wrapu. rewrite Z.add_mod_idemp_l, Zminus_mod_idemp_l by done. f_equal. rewrite !length_app. cbn [length]. lia.
  - rewrite He4. change (numele r3) with (numele r2). by rewrite He2.
Qed.

(** ** Removal *)

Lemma has_unset k c cs ts s v : shape c cs (length ts) → has (Tree None c cs ts) s v ↔ s ≠ [] ∧ has (Tree k c cs ts) s v.
Proof.
  intros Hsh. destruct k as [d|]; [rewrite (has_set None d) by done|]; split; [|tauto| |tauto]; (intros Hv; assert (Hne : s ≠ []) by (intros ->; apply has_inv in Hv as [[_ ?]|[(_ & j & x & t & s' & _ & _ & ? & _)|(-> & t & s' & _ & E & _)]]; [done|done|]; symmetry in E; apply app_eq_nil in E as [-> _]; destruct Hsh as [Hl _]; cbn in Hl; lia)); [split; [done|by right]|done].
Qed.

Lemma size_removed (m : gmap (list Z) Z) s v e : m !! s = Some v → e = u64 (Z.of_nat (size m)) → u64 (e - 1) = u64 (Z.of_nat (size (delete s m))).
Proof.
  intros Hs ->. rewrite map_size_delete_Some by (by eexists). assert (Hpos : size m ≠ O) by (intros E; apply map_size_empty_inv in E; by rewrite E in Hs). unfold wrapu. rewrite Zminus_mod_idemp_l. f_equal. lia.
Qed.

Lemma bound_removed (m : gmap (list Z) Z) s N : (∀ s, is_Some (m !! s) → len s <= N) → ∀ s', is_Some (delete s m !! s') → len s' <= N.
Proof. intros Hm s' [v [_ Hv]%lookup_delete_Some]. apply Hm. by exists v. Qed.

(** The nodes above a leaf that stopped being a key. *)
Lemma remove_leaf r fs q st L M m : at_place r fs q nothing st L M → Forall fwf fs → holds (fill fs nothing) m → counted r (L ++ M) → numele r = u64 (Z.of_nat (size m)) → (∀ s, is_Some (m !! s) → len s <= RAX_NODE_MAX_SIZE) →
  ∃ r' todo r'', ('(r, h, child, ts) ← free_up (S (length st)) r q None st;
    match child with
    | None => Some (r, None)
    | Some child =>
      '(r, new) ← raxRemoveChild r h child;
      r ← relink r h new ts;
      n ← rnode r new;
      Some (r, if (nsize n =? 1) && negb (iskey n) then Some (new, ts) else None)
    end) = Some (r', todo) ∧ match todo with Some (h, ts) => recompress r' h ts | None => Some r' end = Some r'' ∧ rax_inv r'' m.
Proof.
  intros Hp Hf Hm Hc He Hb. pose proof (p_ctx _ _ _ _ _ _ _ Hp) as Hctx. destruct fs as [|f fs].
  - inversion Hctx; subst. cbn [free_up length]. rewrite bool_decide_true by done. mnext. exists r, None, r. split_and!; [done|done|]. eapply rax_inv_intro; try done. split; [done|]. split; [split; [done|constructor]|done].
  - pose proof (p_repr _ _ _ _ _ _ _ Hp) as Hr. inversion Hr as [q0 n k' c' cs' ts' M0 Hn Hni Hkids]; subst. inversion Hkids; subst. assert (Hperm : q :: L ≡ₚ L ++ [q]) by solve_Permutation.
    destruct (free_up_spec (f :: fs) (S (length st)) r q None st L) as (r1 & g & fs1 & p & ch & st1 & L1 & -> & Hhole & Hc1 & He1 & Hf1 & Hstop & Hsame); [done| |done|rewrite (ctx_stack _ _ _ _ _ _ Hctx); lia|unfold counted in *; by rewrite (length_perm _ _ Hperm)|].
    { constructor; [done|rewrite Hperm; apply Hp|by exists n|]. intros x Hx. rewrite Hperm. by apply (p_dom _ _ _ _ _ _ _ Hp). }
    mnext. apply Forall_cons in Hf1 as [Hg Hfs1]. destruct (remove_child_spec r1 g fs1 ch p st1 L1 Hhole Hg Hc1) as (r2 & new & r3 & L3 & M3 & -> & Hrel & Hp3 & Hc3 & He3). mnext. rewrite Hrel. mnext. destruct (removed_wf g Hg) as [Hrw Hkw].
    assert (Hh3 : hole_wf fs1 (removed_tree g)) by (split; [done|]; destruct fs1; [done|]; apply Hkw; by destruct Hstop). assert (Hm3 : holds (fill fs1 (removed_tree g)) m).
    { intros s v. rewrite <- (Hm s v), Hsame. cbn [fill]. rewrite !has_fill by done. by setoid_rewrite (has_removed g _ v Hg). }
    assert (Hnum : numele r3 = u64 (Z.of_nat (size m))) by (by rewrite He3, He1). destruct (removed_tree g) as [k c cs ts] eqn:Et. destruct (place_node _ _ _ _ _ _ _ _ _ _ Hp3) as (nn & Hnn & Hk & Hcp & Hcs). rewrite Hnn. mnext. destruct (_ && _) eqn:Etodo.
    + apply andb_true_iff in Etodo as [E1 E2]. unfold nsize in E1. rewrite Hcs in E1. to_prop. unfold node_key in Hk. destruct (iskey nn); [done|]. assert (c = false) as -> by (unfold removed_tree in Et; destruct (f_compr g); congruence). destruct Hrw as [[Hl Hso] _].
      destruct ts as [|t [|? ?]]; [cbn in Hl; lia| |cbn in Hl; lia]. subst k. destruct (recompress_spec r3 fs1 new false cs t st1 L3 M3 m) as (r4 & Hrun & Hinv); try done. by exists r3, (Some (new, st1)), r4.
    + exists r3, None, r3. split_and!; [done|done|]. by eapply rax_inv_intro.
Qed.

Lemma rax_remove_spec r m s : rax_inv r m → ∃ r', raxRemove r s = Some (r', match m !! s with Some _ => 1 | None => 0 end, m !! s) ∧ rax_inv r' (delete s m).
Proof.
  intros Hi. destruct (low_walk_find r m s Hi) as (w & n & Hw & Hn & Hfound). unfold raxRemove. rewrite Hw. mnext. rewrite Hn. mnext. destruct (_ || _); [rewrite Hfound; exists r; split; [done|]; by rewrite delete_id|].
  destruct Hfound as (Hv & fs & ts & L & M & Hp & Hh & Hm & Hs & Hc). rewrite Hv. destruct Hi as (_ & _ & _ & _ & _ & _ & He & Hb). set (n0 := mk_rnode false _ _ _ _ _). set (r0 := add_ele (rput r (w_stop w) n0) (-1)).
  assert (Hp0 : at_place r0 fs (w_stop w) (Tree None (iscompr n) (ndata n) ts) (w_stack w) L M). { eapply place_counts; [| |eapply (place_set r fs (w_stop w) _ _ _ ts _ L M n0 None Hp)]; try done. intros n1 Hn1. change (rnode r (w_stop w) = Some n1) in Hn1. by rewrite Hn in Hn1; injection Hn1 as <-. }
  pose proof (hole_rwf _ _ Hh) as [Hsh Hts]. assert (Hm0 : holds (fill fs (Tree None (iscompr n) (ndata n) ts)) (delete s m)). { rewrite Hs, <- (app_nil_r (path fs)). eapply holds_delete; [apply Hh|exact Hm|]. intros s' v'. by apply has_unset. }
  assert (Hc0 : counted r0 (L ++ M)) by done. assert (He0 : numele r0 = u64 (Z.of_nat (size (delete s m)))) by (cbn; by eapply size_removed). pose proof (bound_removed m s _ Hb) as Hb0. change (nsize n0) with (len (ndata n)). destruct (len (ndata n) =? 0) eqn:E0; to_prop.
  - assert (Hnil : ndata n = []) by (by destruct (ndata n)). rewrite Hnil in Hp0, Hm0, Hsh. assert (iscompr n = false) as Hcp by (destruct (iscompr n); [destruct Hsh as [Hl _]; cbn in Hl; lia|done]). rewrite Hcp in Hp0, Hm0, Hsh. destruct Hsh as [Hl _]. destruct ts; [|done].
    destruct (remove_leaf r0 fs (w_stop w) (w_stack w) L M (delete s m) Hp0) as (r1 & todo & r2 & Hrun & Hrec & Hinv); try done; [apply Hh|]. unfold relink in Hrun. rewrite Hrun. mnext. rewrite Hrec. mnext. by exists r2.
  - assert (Hh0 : hole_wf fs (Tree None (iscompr n) (ndata n) ts)). { split; [apply Hh|]. destruct fs; [done|]. constructor; [done|intros E; rewrite E in E0; done|done]. }
    destruct (len (ndata n) =? 1) eqn:E1; to_prop; mnext; [|exists r0; split; [done|]; by eapply rax_inv_intro]. assert (iscompr n = false) as Hcp by (destruct (iscompr n); [destruct Hsh as [Hl _]; lia|done]).
    rewrite Hcp in *. destruct Hsh as [Hl Hso]. destruct ts as [|t [|? ?]]; [cbn in Hl; lia| |cbn in Hl; lia]. destruct (recompress_spec r0 fs (w_stop w) false (ndata n) t (w_stack w) L M (delete s m)) as (r1 & -> & Hinv); try done. mnext. by exists r1.
Qed.
End rax.
