(* ===== verification/RaxFree.v ===== *)
(** Radix trees: raxFree, which gives every node back and every value to the callback. *)
From Stdlib Require Import Sorted.
From stdpp Require Import gmap.
From S2P Require Import Prelude Rax RaxSpec RaxHeap RaxTheorems RaxInsert RaxRemove.
#[local] Open Scope Z_scope.

(** ** The entries of a tree *)

Definition under (x : list Z) (e : list Z * Z) : list Z * Z := (x ++ e.1, e.2).
Fixpoint entries (t : tree) : list (list Z * Z) :=
  match t with
  | Tree k c cs ts =>
    match k with Some v => [([], v)] | None => [] end ++
    if c then mjoin ((λ t, under cs <$> entries t) <$> ts)
    else (fix go ts cs := match ts, cs with t :: ts, x :: cs => (under [x] <$> entries t) ++ go ts cs | _, _ => [] end) ts cs
  end.
Definition edges : list tree → list Z → list (list Z * Z) :=
  fix go ts cs := match ts, cs with t :: ts, x :: cs => (under [x] <$> entries t) ++ go ts cs | _, _ => [] end.

Lemma entries_eq k c cs ts : entries (Tree k c cs ts) = match k with Some v => [([], v)] | None => [] end ++ if c then mjoin ((λ t, under cs <$> entries t) <$> ts) else edges ts cs.
Proof. done. Qed.

Lemma in_edges ts cs s v : (s, v) ∈ edges ts cs ↔ ∃ j x t s', cs !! j = Some x ∧ ts !! j = Some t ∧ s = x :: s' ∧ (s', v) ∈ entries t.
Proof.
  revert cs. induction ts as [|t ts IH]; intros cs; cbn [edges]; [split; [by intros ?%elem_of_nil|by intros (j & ? & ? & ? & _ & ? & _)]|]. destruct cs as [|x cs]; [split; [by intros ?%elem_of_nil|by intros (j & ? & ? & ? & ? & _)]|]. rewrite elem_of_app, IH. split.
  - intros [((s' & v') & [= -> ->] & Hin)%list_elem_of_fmap|(j & y & t' & s' & ? & ? & ? & ?)]; [by exists O, x, t, s'|by exists (S j), y, t', s'].
  - intros ([|j] & y & t' & s' & Hy & Ht & -> & Hin); [left; injection Hy as ->; injection Ht as ->; apply list_elem_of_fmap; by exists (s', v)|right; by exists j, y, t', s'].
Qed.

Lemma shape_kids c cs (ts : list tree) : shape c cs (length ts) → c = true → ∃ t, ts = [t].
Proof. intros Hs ->. destruct Hs as [_ Hl]. destruct ts as [|t [|? ?]]; [done|by exists t|done]. Qed.

Lemma in_entries t : ∀ s v, rwf t → (s, v) ∈ entries t ↔ has t s v.
Proof.
  induction t as [k c cs ts IH] using tree_induct. intros s v [Hsh Hts]. rewrite entries_eq, elem_of_app, has_inv. assert (Hkids : ∀ t s v, t ∈ ts → (s, v) ∈ entries t ↔ has t s v).
  { intros t s' v' Hin. rewrite Forall_forall in IH, Hts. apply IH; [done|]. by apply twf_rwf, Hts. }
  assert (Hk : (s, v) ∈ match k with Some v => [([], v)] | None => [] end ↔ s = [] ∧ k = Some v). { destruct k as [d|]; [rewrite list_elem_of_singleton; split; [by intros [= -> ->]|by intros [-> [= ->]]]|split; [by intros ?%elem_of_nil|by intros [_ ?]]]. }
  rewrite Hk. destruct c.
  - destruct (shape_kids _ _ _ Hsh eq_refl) as [t ->]. cbn. rewrite app_nil_r. split.
    + intros [?|((s' & v') & [= -> ->] & Hin)%list_elem_of_fmap]; [by left|right; right]. split; [done|]. exists t, s'. split_and!; [done|done|]. apply Hkids; [by left|done].
    + intros [?|[(? & _)|(_ & t' & s' & [= <-] & -> & Hv)]]; [by left|done|right]. apply list_elem_of_fmap. exists (s', v). split; [done|]. apply Hkids; [by left|done].
  - rewrite in_edges. split.
    + intros [?|(j & x & t & s' & Hx & Ht & -> & Hin)]; [by left|right; left]. split; [done|]. exists j, x, t, s'. split_and!; try done. apply Hkids; [by apply list_elem_of_lookup_2 in Ht|done].
    + intros [?|[(_ & j & x & t & s' & Hx & Ht & -> & Hin)|(? & _)]]; [by left|right|done]. exists j, x, t, s'. split_and!; try done. apply Hkids; [by apply list_elem_of_lookup_2 in Ht|done].
Qed.

Lemma NoDup_under x l : NoDup l → NoDup (under x <$> l).
Proof. intros Hl. apply NoDup_fmap_2; [|done]. intros [a b] [a' b'] [= E ->]. apply app_inv_head in E. by subst. Qed.

Lemma NoDup_edges ts : ∀ cs, StronglySorted Z.lt cs → Forall (λ t, NoDup (entries t)) ts → NoDup (edges ts cs).
Proof.
  induction ts as [|t ts IH]; intros cs Hs Hts; [constructor|]. destruct cs as [|x cs]; [constructor|]. apply Forall_cons in Hts as [Ht Hts]. inversion Hs as [|? ? Hs' Hlt]; subst. cbn [edges]. apply NoDup_app. split_and!; [by apply NoDup_under| |by apply IH].
  intros [s v] ((s' & v') & [= -> ->] & _)%list_elem_of_fmap (j & y & t' & s2 & Hy & _ & [= <- _] & _)%in_edges. apply (Forall_lookup_1 _ _ _ _ Hlt) in Hy. lia.
Qed.

Lemma NoDup_entries t : rwf t → NoDup (entries t).
Proof.
  induction t as [k c cs ts IH] using tree_induct. intros [Hsh Hts]. rewrite entries_eq. assert (IH' : Forall (λ t, NoDup (entries t)) ts). { rewrite Forall_forall in IH, Hts |- *. intros t Hin. apply IH; [done|]. by apply twf_rwf, Hts. }
  apply NoDup_app. split_and!; [destruct k; [apply NoDup_singleton|constructor]| |].
  - intros [s v] Hk Hin. assert (s = []) as -> by (destruct k; [by apply list_elem_of_singleton in Hk as [= -> _]|by apply elem_of_nil in Hk]). destruct c.
    + destruct (shape_kids _ _ _ Hsh eq_refl) as [t ->]. cbn in Hin. rewrite app_nil_r in Hin. apply list_elem_of_fmap in Hin as ((s' & v') & [= E _] & _). symmetry in E. apply app_eq_nil in E as [-> _]. destruct Hsh as [Hl _]. cbn in Hl. lia.
    + by apply in_edges in Hin as (j & x & t & s' & _ & _ & ? & _).
  - destruct c.
    + destruct (shape_kids _ _ _ Hsh eq_refl) as [t ->]. cbn. rewrite app_nil_r. apply NoDup_under. by inversion IH'.
    + apply NoDup_edges; [apply Hsh|done].
Qed.

Lemma entries_map t m : rwf t → holds t m → entries t ≡ₚ map_to_list m.
Proof.
  intros Hwf Hm. apply NoDup_Permutation; [by apply NoDup_entries|apply NoDup_map_to_list|]. intros [s v]. rewrite in_entries, elem_of_map_to_list by done. apply Hm.
Qed.

(** The values of the nodes. *)
Fixpoint vals (t : tree) : list Z :=
  match t with Tree k _ _ ts => match k with Some v => [v] | None => [] end ++ mjoin (vals <$> ts) end.

Lemma vals_edges ts : ∀ cs, length ts = length cs → Forall (λ t, vals t = (entries t).*2) ts → mjoin (vals <$> ts) = (edges ts cs).*2.
Proof.
  induction ts as [|t ts IH]; intros cs Hl Hts; [done|]. destruct cs as [|x cs]; [done|]. apply Forall_cons in Hts as [Ht Hts]. cbn [edges fmap list_fmap]. rewrite fmap_app, <- list_fmap_compose. rewrite Ht. change (mjoin ((entries t).*2 :: (vals <$> ts))) with ((entries t).*2 ++ mjoin (vals <$> ts)). rewrite (IH cs) by (by injection Hl || done). done.
Qed.

Lemma vals_entries t : rwf t → vals t = (entries t).*2.
Proof.
  induction t as [k c cs ts IH] using tree_induct. intros [Hsh Hts]. assert (IH' : Forall (λ t, vals t = (entries t).*2) ts). { rewrite Forall_forall in IH, Hts |- *. intros t Hin. apply IH; [done|]. by apply twf_rwf, Hts. }
  rewrite entries_eq, fmap_app. cbn [vals]. f_equal; [by destruct k|]. destruct c.
  - destruct (shape_kids _ _ _ Hsh eq_refl) as [t ->]. cbn. rewrite !app_nil_r, <- list_fmap_compose. by inversion IH'.
  - apply vals_edges; [apply Hsh|done].
Qed.

Section rax.
Context `{RaxAlloc}.

(** The values that are not NULL. *)
Definition set_vals (l : list Z) : list Z := filter (λ v, v ≠ 0) l.

(** What the walk over a part of the tree leaves. *)
Record freed_nodes (r r' : rax) (L : list positive) : Prop := {
  fr_head : head r' = head r;
  fr_ele : numele r' = numele r;
  fr_nodes : numnodes r' = u64 (numnodes r - len L);
  fr_heap : ∀ x, rnodes r' !! x = if decide (x ∈ L) then None else rnodes r !! x;
}.

Definition frees (t : tree) : Prop := ∀ fuel r p M, repr (rnodes r) p t M → NoDup M → (length M <= fuel)%nat → (∃ N, numnodes r = u64 N) →
  ∃ r' l, free_nodes fuel r p = Some (r', l) ∧ freed_nodes r r' M ∧ set_vals l ≡ₚ set_vals (vals t).

Lemma free_kids fuel ts : Forall frees ts → ∀ r ps L, reprs (rnodes r) ps ts L → NoDup L → (length L <= fuel)%nat → (∃ N, numnodes r = u64 N) →
  ∃ r' l, foldr (λ c (acc : option (rax * list Z)), '(r, l) ← acc; '(r, l') ← free_nodes fuel r c; Some (r, l ++ l')) (Some (r, [])) ps = Some (r', l) ∧ freed_nodes r r' L ∧ set_vals l ≡ₚ set_vals (mjoin (vals <$> ts)).
Proof.
  induction ts as [|t ts IH]; intros Hts r ps L Hr Hnd Hf [N HN]; inversion Hr as [|p ps' t' ts' L1 L2 Hp Hps]; subst.
  - exists r, []. split; [done|]. split; [|done]. constructor; [done|done| |intros x; by rewrite decide_False by (by intros ?%elem_of_nil)]. rewrite HN. unfold wrapu. cbn [length]. by rewrite Z.sub_0_r, Zmod_mod.
  - apply Forall_cons in Hts as [Ht Hts]. apply NoDup_app in Hnd as (Hnd1 & Hdis & Hnd2). rewrite length_app in Hf. cbn [foldr]. destruct (IH Hts r ps' L2 Hps Hnd2) as (r1 & l1 & -> & [Hh1 He1 Hn1 Hx1] & Hl1); [lia|by exists N|]. mnext.
    destruct (Ht fuel r1 p L1) as (r2 & l2 & -> & [Hh2 He2 Hn2 Hx2] & Hl2); [|done|lia|by eexists|].
    { eapply repr_agree; [done|]. intros x Hx. rewrite Hx1, decide_False by (by apply Hdis). done. }
    mnext. exists r2, (l1 ++ l2). split; [done|]. split.
    + constructor; [by rewrite Hh2|by rewrite He2| |].
      * rewrite Hn2, Hn1. unfold wrapu. rewrite Zminus_mod_idemp_l. f_equal. rewrite length_app. lia.
      * intros x. rewrite Hx2, Hx1. destruct (decide (x ∈ L1)) as [Hin|Hin]; [by rewrite decide_True by (apply elem_of_app; by left)|]. destruct (decide (x ∈ L2)) as [Hin'|Hin']; [by rewrite decide_True by (apply elem_of_app; by right)|]. rewrite decide_False; [done|]. by intros [?|?]%elem_of_app.
    + change (mjoin (vals <$> t :: ts)) with (vals t ++ mjoin (vals <$> ts)). unfold set_vals in *. rewrite !filter_app, Hl1, Hl2. apply Permutation_app_comm.
Qed.

Lemma free_nodes_spec t : frees t.
Proof.
  induction t as [k c cs ts IH] using tree_induct. intros fuel r p M Hr Hnd Hf HN. inversion Hr as [p' n k' c' cs' ts' M0 Hn (Hk & _ & _) Hkids]; subst. apply NoDup_cons in Hnd as [Hp Hnd]. destruct fuel as [|fuel]; [cbn in Hf; lia|]. cbn [free_nodes length] in *. change (rnode r p = Some n) in Hn. rewrite Hn. mnext.
  destruct (free_kids fuel ts IH r (kids n) M0 Hkids Hnd) as (r1 & l & -> & [Hh1 He1 Hn1 Hx1] & Hl); [lia|done|]. mnext. unfold rfree, rnode. rewrite Hx1, decide_False by done. unfold rnode in Hn. rewrite Hn. do 2 mnext. eexists _, _. split; [done|]. split.
  - constructor; [done|done| |].
    + cbn. rewrite Hn1. unfold wrapu. rewrite Z.add_mod_idemp_l by done. f_equal. lia.
    + intros x. look. destruct (decide (x = p)) as [->|Hne]; [rewrite lookup_delete_eq, decide_True by (by left); done|]. rewrite lookup_delete_ne, Hx1 by done. destruct (decide (x ∈ M0)) as [Hin|Hin]; [by rewrite decide_True by (by right)|]. rewrite decide_False; [done|]. by intros [?|?]%elem_of_cons.
  - cbn [vals]. unfold set_vals in *. rewrite !filter_app, Hl, Permutation_app_comm. apply Permutation_app_tail. unfold node_key, raxGetData in *. by destruct (iskey n), (isnull n).
Qed.

Lemma rax_free_spec r m : rax_inv r m → ∃ r' l, raxFreeWithCallback r = Some (r', l) ∧ rnodes r' = ∅ ∧ set_vals l ≡ₚ set_vals (map_to_list m).*2.
Proof.
  intros (t & M & Hp & Hwf & Hm & Hc & _). pose proof (place_size _ _ _ _ _ _ _ Hp) as Hsize. unfold raxFreeWithCallback.
  destruct (free_nodes_spec t (S (size (rnodes r))) r (head r) M) as (r' & l & -> & [_ _ Hn Hx] & Hl); [apply Hp|apply (p_nodup _ _ _ _ _ _ _ Hp)|lia|by eexists|]. mnext. rewrite Hn, Hc. assert (Hz : u64 (u64 (len M) - len M) = 0) by (unfold wrapu; rewrite Zminus_mod_idemp_l; by rewrite Z.sub_diag). rewrite Hz. exists r', l. split_and!; [done| |].
  - apply map_eq. intros x. rewrite Hx, lookup_empty. destruct (decide (x ∈ M)) as [|Hin]; [done|]. apply eq_None_not_Some. intros Hs. by apply Hin, (p_dom _ _ _ _ _ _ _ Hp).
  - rewrite Hl, vals_entries by done. unfold set_vals. by rewrite (entries_map t m Hwf Hm).
Qed.
End rax.
