(* ===== verification/RaxNode.v ===== *)
(** The block of a radix tree node: src/redis-7.0.0/src/rax.c.

    A block is a header of four bytes, the characters of the node, the padding that aligns
    what follows to 8 bytes, the pointers to the children and, for a key whose value is not
    NULL, the pointer that is its value.  The header is a record of its bit fields; its four
    cells and what follows them are a list of cells, which is read and written at offsets
    from the start of the block with the memcpy and memmove of the prelude: an access out of
    the block is [None], and so is reading a cell that was not written, or a pointer from
    cells that are not the eight of one pointer. *)
From S2P Require Import Prelude Rax.
#[local] Open Scope Z_scope.

(** A pointer to a node, or the pointer that is the value of a key. *)
Inductive pointer := PNode (p : positive) | PValue (v : Z).
#[export] Instance pointer_eq_dec : EqDecision pointer.
Proof. solve_decision. Defined.

(** A byte, the [k]-th byte of a pointer, or a byte that was not written. *)
Inductive cell := CByte (b : Z) | CPtr (w : pointer) (k : nat) | CJunk.
#[export] Instance cell_eq_dec : EqDecision cell.
Proof. solve_decision. Defined.

Definition ptr_cells (w : pointer) : list cell := CPtr w <$> seq 0 8.
Definition cells_ptr (l : list cell) : option pointer :=
  match l with CPtr w _ :: _ => if bool_decide (l = ptr_cells w) then Some w else None | _ => None end.
Definition get_ptr (m : list cell) (off : Z) : option pointer := l ← load m off 8; cells_ptr l.
Definition put_ptr (m : list cell) (off : Z) (w : pointer) : option (list cell) := store m off (ptr_cells w).
Definition get_node (m : list cell) (off : Z) : option positive :=
  w ← get_ptr m off; match w with PNode p => Some p | PValue _ => None end.
Definition get_value (m : list cell) (off : Z) : option Z :=
  w ← get_ptr m off; match w with PValue v => Some v | PNode _ => None end.
Definition cell_byte (c : cell) : option Z := match c with CByte b => Some b | _ => None end.

(** The size is not cut to the 29 bits of its field: a compressed node has at most
    [RAX_NODE_MAX_SIZE] characters, and another node one for each of its distinct bytes. *)
Record bnode := mk_bnode { b_iskey : bool; b_isnull : bool; b_iscompr : bool; b_size : Z; b_mem : list cell }.
Definition set_mem (n : bnode) (m : list cell) : bnode := mk_bnode (b_iskey n) (b_isnull n) (b_iscompr n) (b_size n) m.
Definition set_size (n : bnode) (size : Z) : bnode := mk_bnode (b_iskey n) (b_isnull n) (b_iscompr n) size (b_mem n).
(** [n->iskey && !n->isnull] *)
Definition has_value (n : bnode) : bool := b_iskey n && negb (b_isnull n).

(** ** Layout *)

Definition raxPadding (nodesize : Z) : Z := Z.land (8 - (nodesize + 4) mod 8) 7.
Definition raxNodeCurrentLength (n : bnode) : Z :=
  4 + b_size n + raxPadding (b_size n) + (if b_iscompr n then 8 else 8 * b_size n) + (if has_value n then 8 else 0).
Definition raxNodeLastChildPtr (n : bnode) : Z := raxNodeCurrentLength n - 8 - (if has_value n then 8 else 0).
Definition raxNodeFirstChildPtr (n : bnode) : Z := 4 + b_size n + raxPadding (b_size n).

(** [n->data], read as far as the size of the node and written from [s]. *)
Definition get_data (n : bnode) : option (list Z) := l ← load (b_mem n) 4 (b_size n); mapM cell_byte l.
Definition put_data (n : bnode) (off : Z) (s : list Z) : option bnode :=
  m ← store (b_mem n) (4 + off) (CByte <$> s); Some (set_mem n m).
Definition last_child (n : bnode) : option positive := get_node (b_mem n) (raxNodeLastChildPtr n).
Definition put_child (n : bnode) (off : Z) (p : positive) : option bnode := m ← put_ptr (b_mem n) off (PNode p); Some (set_mem n m).
Definition put_last_child (n : bnode) (p : positive) : option bnode := put_child n (raxNodeLastChildPtr n) p.

(** A block from rax_malloc: the header is not initialised either, and holds anything. *)
Definition raw_block `{RaxAlloc} (nodesize : Z) : bnode :=
  let '(k, nul, compr, size) := raw_header in mk_bnode k nul compr size (replicate (Z.to_nat nodesize) CJunk).
Definition resize (n : bnode) (nodesize : Z) : bnode := set_mem n (realloc CJunk (b_mem n) nodesize).
(** [n->iskey = …; n->isnull = …; n->iscompr = …; n->size = …] *)
Definition put_header (n : bnode) (k nul compr : bool) (size : Z) : bnode := mk_bnode k nul compr size (b_mem n).

Definition raxNewNode `{RaxAlloc} (children : Z) (datafield : bool) : bnode :=
  let nodesize := 4 + children + raxPadding children + 8 * children in
  let nodesize := if datafield then nodesize + 8 else nodesize in
  put_header (raw_block nodesize) false false false children.

(** ** The value *)

Definition raxSetData (n : bnode) (data : Z) : option bnode :=
  if negb (data =? 0) then
    let n := mk_bnode true false (b_iscompr n) (b_size n) (b_mem n) in
    m ← put_ptr (b_mem n) (raxNodeCurrentLength n - 8) (PValue data); Some (set_mem n m)
  else Some (mk_bnode true true (b_iscompr n) (b_size n) (b_mem n)).
Definition raxGetData (n : bnode) : option Z :=
  if b_isnull n then Some 0 else get_value (b_mem n) (raxNodeCurrentLength n - 8).

(** ** The children *)

(** The work of raxAddChild in the block of the node, which is reallocated: the block and
    where the pointer to the child is. *)
Definition add_child (n : bnode) (c : Z) (child : positive) : option (bnode * Z) :=
  let curlen := raxNodeCurrentLength n in
  let newlen := raxNodeCurrentLength (set_size n (b_size n + 1)) in
  let n := resize n newlen in
  data ← get_data n;
  let pos := Z.of_nat (insert_pos data c) in
  let m := b_mem n in
  m ← (if has_value n then memmove m (newlen - 8) (curlen - 8) 8 else Some m);
  let shift := newlen - curlen - 8 in
  let src := 4 + b_size n + raxPadding (b_size n) + 8 * pos in
  m ← memmove m (src + shift + 8) src (8 * (b_size n - pos));
  m ← (if negb (shift =? 0) then
         let src := raxNodeFirstChildPtr n in memmove m (src + shift) src (8 * pos)
       else Some m);
  let src := 4 + pos in
  m ← memmove m (src + 1) src (b_size n - pos);
  m ← store m (4 + pos) [CByte c];
  let n := set_size n (b_size n + 1) in
  let childfield := raxNodeFirstChildPtr n + 8 * pos in
  m ← put_ptr m childfield (PNode child);
  Some (set_mem n m, childfield).

(** [while(1) { memcpy(&aux,c,sizeof(aux)); if (aux == child) break; c++; }] from [off]: how
    many pointers are before the one to [child].  The fuel is the cells of the block. *)
Fixpoint scan_child (fuel : nat) (m : list cell) (off : Z) (child : positive) : option Z :=
  match fuel with
  | O => None
  | S fuel => aux ← get_node m off; if bool_decide (aux = child) then Some 0 else k ← scan_child fuel m (off + 8) child; Some (k + 1)
  end.
Definition find_child (n : bnode) (child : positive) : option Z := scan_child (length (b_mem n)) (b_mem n) (raxNodeFirstChildPtr n) child.

(** raxRemoveChild in the block of a node that is not compressed. *)
Definition remove_child (n : bnode) (child : positive) : option bnode :=
  let cp := raxNodeFirstChildPtr n in
  k ← find_child n child;
  let c := cp + 8 * k in
  let e := 4 + k in
  let taillen := b_size n - k - 1 in
  m ← memmove (b_mem n) e (e + 1) taillen;
  let shift := if (b_size n + 4) mod 8 =? 1 then 8 else 0 in
  m ← (if negb (shift =? 0) then memmove m (cp - shift) cp (8 * (b_size n - taillen - 1)) else Some m);
  let valuelen := if has_value n then 8 else 0 in
  m ← memmove m (c - shift) (c + 8) (8 * taillen + valuelen);
  let n := set_size (set_mem n m) (b_size n - 1) in
  Some (resize n (raxNodeCurrentLength n)).

(** raxRemoveChild in the block of a compressed node. *)
Definition remove_only_child (n : bnode) : option bnode :=
  data ← (if b_iskey n then raxGetData n else Some 0);
  let n := put_header n (b_iskey n) false false 0 in
  if b_iskey n then raxSetData n data else Some n.

(** raxCompressNode in the block of the node, which is reallocated. *)
Definition compress (n : bnode) (s : list Z) (child : positive) : option bnode :=
  let newsize := 4 + len s + raxPadding (len s) + 8 in
  data ← (if b_iskey n then raxGetData n else Some 0);
  let newsize := if b_iskey n && negb (b_isnull n) then newsize + 8 else newsize in
  let n := resize n newsize in
  let n := put_header n (b_iskey n) (b_isnull n) true (len s) in
  n ← put_data n 0 s;
  n ← (if b_iskey n then raxSetData n data else Some n);
  put_last_child n child.

(** A node made in a block from rax_malloc: its header, its characters, the value if there
    is one to set, its child. *)
Definition fill_node (n : bnode) (k nul compr : bool) (s : list Z) (data : option Z) (child : positive) : option bnode :=
  n ← put_data (put_header n k nul compr (len s)) 0 s;
  n ← match data with Some data => raxSetData n data | None => Some n end;
  put_last_child n child.
