(* ===== verification/RaxBlock.v ===== *)
(** Radix trees: the operations on the block of a node keep its layout. *)
From S2P Require Import Prelude Rax RaxNode.
#[local] Open Scope Z_scope.

(** ** Cells *)

(** Moving [b] over the gap [g] that follows it, or that is before it; the rest stays. *)
Lemma memmove_gap_right {A} (a b g z : list A) dst src n : src = len a → dst = len a + len g → n = len b →
  ∃ g', memmove (a ++ b ++ g ++ z) dst src n = Some (a ++ g' ++ b ++ z) ∧ len g' = len g.
Proof.
  intros -> -> ->. unfold memmove. rewrite load_app by done. mstep. rewrite store_skip by lia. unfold store, in_range. if_true. mstep.
  exists (take (length g) (b ++ g ++ z)). split; [|len_lia]. rewrite !Nat2Z.id. do 4 f_equal. rewrite (app_assoc b g z). apply drop_app_length'. len_lia.
Qed.
Lemma memmove_gap_left {A} (a g b z : list A) dst src n : dst = len a → src = len a + len g → n = len b →
  ∃ g', memmove (a ++ g ++ b ++ z) dst src n = Some (a ++ b ++ g' ++ z) ∧ len g' = len g.
Proof.
  intros -> -> ->. unfold memmove. rewrite app_assoc, (load_app (a ++ g)) by len_lia. mstep. rewrite <- app_assoc.
  pose proof (store_skip a (g ++ b ++ z) 0 b) as E. rewrite Z.add_0_r in E. rewrite E by lia. clear E. unfold store, in_range. if_true. mstep. change (Z.to_nat 0) with O. rewrite take_0. cbn [app Nat.add].
  exists (take (length g) (drop (length b) (g ++ b ++ z))). split; [|len_lia]. do 3 f_equal. rewrite <- (take_drop (length g) (drop (length b) (g ++ b ++ z))) at 1. f_equal. rewrite drop_drop, (app_assoc g b z). apply drop_app_length'. len_lia.
Qed.

Lemma bind_run {A B C} (a : option A) (b : A → option B) (k : B → option C) x : (a ≫= b) = Some x → (a ≫= λ m, b m ≫= k) = k x.
Proof. destruct a as [y|]; [|done]. cbn. by intros ->. Qed.

Lemma length_ptr_cells w : length (ptr_cells w) = 8%nat.
Proof. done. Qed.
Lemma cells_ptr_cells w : cells_ptr (ptr_cells w) = Some w.
Proof. unfold cells_ptr. cbn [ptr_cells seq fmap list_fmap]. by rewrite bool_decide_eq_true_2. Qed.
Lemma get_ptr_at a w b off : off = len a → get_ptr (a ++ ptr_cells w ++ b) off = Some w.
Proof. intros ->. unfold get_ptr. rewrite load_app by done. mnext. apply cells_ptr_cells. Qed.
Lemma put_ptr_at a c w b off : off = len a → len c = 8 → put_ptr (a ++ c ++ b) off w = Some (a ++ ptr_cells w ++ b).
Proof. intros -> Hc. unfold put_ptr. apply store_app; [done|]. rewrite length_ptr_cells. lia. Qed.
Lemma mapM_bytes s : mapM cell_byte (CByte <$> s) = Some s.
Proof. induction s as [|b s IH]; [done|]. cbn. by rewrite IH. Qed.

(** ** Layout *)

Lemma padding_mod n : raxPadding n = (- (n + 4)) mod 8.
Proof. unfold raxPadding. change 7 with (Z.ones 3). rewrite Z.land_ones by done. change (2 ^ 3) with 8. div_lia. Qed.
Lemma padding_bounds n : 0 <= raxPadding n < 8.
Proof. rewrite padding_mod. by apply Z.mod_pos_bound. Qed.
(** One more character: it takes a byte of the padding, or there is a new word of it. *)
Lemma padding_next n : raxPadding (n + 1) = raxPadding n - 1 + (if (n + 1 + 4) mod 8 =? 1 then 8 else 0).
Proof. rewrite !padding_mod. case_if; to_prop; div_lia. Qed.

(** The header, the characters, the padding, the pointers, the value, what is not used. *)
Record layout (n : bnode) (d : list Z) (h pad ks v z : list cell) : Prop := {
  lay_mem : b_mem n = h ++ (CByte <$> d) ++ pad ++ ks ++ v ++ z;
  lay_hdr : len h = 4;
  lay_size : len d = b_size n;
  lay_pad : len pad = raxPadding (b_size n);
  lay_kids : len ks = (if b_iscompr n then 8 else 8 * b_size n);
  lay_value : len v = (if has_value n then 8 else 0) }.

Ltac lay_len := match goal with L : layout _ _ _ _ _ _ _ |- _ => pose proof (lay_hdr _ _ _ _ _ _ _ L); pose proof (lay_size _ _ _ _ _ _ _ L); pose proof (lay_pad _ _ _ _ _ _ _ L); pose proof (lay_kids _ _ _ _ _ _ _ L); pose proof (lay_value _ _ _ _ _ _ _ L) end.

Lemma layout_curlen n d h pad ks v z : layout n d h pad ks v z → raxNodeCurrentLength n = len h + len d + len pad + len ks + len v.
Proof. intros L. lay_len. unfold raxNodeCurrentLength. lia. Qed.

Lemma layout_data n d h pad ks v z : layout n d h pad ks v z → get_data n = Some d.
Proof. intros L. lay_len. unfold get_data. rewrite (lay_mem _ _ _ _ _ _ _ L), load_app by len_lia. mnext. apply mapM_bytes. Qed.

(** A reallocation keeps the layout, with other cells after it. *)
Lemma layout_resize n d h pad ks v z k : layout n d h pad ks v z → raxNodeCurrentLength n <= k →
  ∃ z', layout (resize n k) d h pad ks v z' ∧ len z' = k - raxNodeCurrentLength n.
Proof.
  intros L Hk. pose proof (layout_curlen _ _ _ _ _ _ _ L) as Hc. pose proof (lay_mem _ _ _ _ _ _ _ L) as Hm.
  destruct (realloc_keep CJunk (h ++ (CByte <$> d) ++ pad ++ ks ++ v) z k) as (z' & E & Hz'); [len_lia|]. exists z'. split; [|len_lia].
  destruct L. split; try done. unfold resize. cbn [b_mem set_mem]. rewrite Hm. rewrite <- !app_assoc in E. done.
Qed.

(** ** The value *)

Definition value_cells (data : Z) : list cell := if data =? 0 then [] else ptr_cells (PValue data).
Lemma length_value_cells data : len (value_cells data) = if data =? 0 then 0 else 8.
Proof. unfold value_cells. by case_if. Qed.

Lemma layout_set_value n d h pad ks v z data : layout n d h pad ks v z → (data ≠ 0 → 8 <= len v + len z) →
  ∃ n' z', raxSetData n data = Some n' ∧ b_iskey n' = true ∧ b_isnull n' = (data =? 0) ∧ b_iscompr n' = b_iscompr n ∧ b_size n' = b_size n ∧
    layout n' d h pad ks (value_cells data) z'.
Proof.
  intros L Hz. unfold raxSetData, value_cells. destruct (data =? 0) eqn:E; cbn [negb].
  - eexists _, (v ++ z). split; [done|]. destruct L. by split_and!.
  - to_prop. destruct L as [Hm Hh Hd Hp Hk Hv]. assert (Hs : 8 <= len (v ++ z)) by len_lia. destruct (split_bytes (v ++ z) 8) as (c & z' & E' & Hc & _); [lia|].
    rewrite E' in Hm. cbn [b_mem]. rewrite Hm, !app_assoc, <- (app_assoc _ c), put_ptr_at; [mnext| |done].
    + eexists _, z'. split; [done|]. split_and!; try done. split; try done. cbn [b_mem set_mem]. by rewrite <- !app_assoc.
    + unfold raxNodeCurrentLength. cbn. len_lia.
Qed.

Lemma layout_get_value n d h pad ks data z : layout n d h pad ks (value_cells data) z → b_isnull n = (data =? 0) → raxGetData n = Some data.
Proof.
  intros L Hn. pose proof (layout_curlen _ _ _ _ _ _ _ L) as Hc. unfold raxGetData. rewrite Hn. unfold value_cells in *. destruct (data =? 0) eqn:E; to_prop; [by rewrite E|]. rewrite length_ptr_cells in Hc.
  unfold get_value. rewrite (lay_mem _ _ _ _ _ _ _ L), !app_assoc, <- (app_assoc _ (ptr_cells _)), get_ptr_at; [done|]. rewrite Hc. len_lia.
Qed.

(** ** The pointers *)

Lemma layout_first n d h pad ks v z : layout n d h pad ks v z → raxNodeFirstChildPtr n = len h + len d + len pad.
Proof. intros L. lay_len. unfold raxNodeFirstChildPtr. lia. Qed.
Lemma layout_last n d h pad ks v z : layout n d h pad ks v z → raxNodeLastChildPtr n = len h + len d + len pad + len ks - 8.
Proof. intros L. pose proof (layout_curlen _ _ _ _ _ _ _ L). lay_len. unfold raxNodeLastChildPtr. lia. Qed.

Lemma layout_get_node n d h pad k1 p k2 v z off : layout n d h pad (k1 ++ ptr_cells (PNode p) ++ k2) v z → off = raxNodeFirstChildPtr n + len k1 →
  get_node (b_mem n) off = Some p.
Proof.
  intros L ->. rewrite (layout_first _ _ _ _ _ _ _ L). unfold get_node.
  assert (b_mem n = (h ++ (CByte <$> d) ++ pad ++ k1) ++ ptr_cells (PNode p) ++ (k2 ++ v ++ z)) as -> by (rewrite (lay_mem _ _ _ _ _ _ _ L); by rewrite <- !app_assoc).
  rewrite get_ptr_at; [done|]. len_lia.
Qed.
Lemma layout_put_child n d h pad k1 c k2 v z off p : layout n d h pad (k1 ++ c ++ k2) v z → len c = 8 → off = raxNodeFirstChildPtr n + len k1 →
  ∃ m, put_child n off p = Some (set_mem n m) ∧ layout (set_mem n m) d h pad (k1 ++ ptr_cells (PNode p) ++ k2) v z.
Proof.
  intros L Hc ->. rewrite (layout_first _ _ _ _ _ _ _ L). unfold put_child.
  assert (b_mem n = (h ++ (CByte <$> d) ++ pad ++ k1) ++ c ++ (k2 ++ v ++ z)) as -> by (rewrite (lay_mem _ _ _ _ _ _ _ L); by rewrite <- !app_assoc).
  rewrite put_ptr_at; [|len_lia|done]. mnext. eexists. split; [done|]. destruct L as [? ? ? ? Hk ?]. split; try done.
  - cbn [b_mem set_mem]. by rewrite <- !app_assoc.
  - etrans; [|exact Hk]. rewrite !length_app, length_ptr_cells. lia.
Qed.

(** The only pointer of a node that is filled. *)
Lemma layout_put_last n d h pad c v z p : layout n d h pad c v z → len c = 8 →
  ∃ m, put_last_child n p = Some (set_mem n m) ∧ layout (set_mem n m) d h pad (ptr_cells (PNode p)) v z.
Proof.
  intros L Hc. rewrite <- (app_nil_r c) in L. destruct (layout_put_child n d h pad [] c [] v z (raxNodeLastChildPtr n) p L Hc) as (m & E & L').
  - rewrite (layout_last _ _ _ _ _ _ _ L), (layout_first _ _ _ _ _ _ _ L). len_lia.
  - exists m. by rewrite app_nil_r in L'.
Qed.

(** ** Adding a child *)

(** The word that one more character adds. *)
Definition shift_of (size : Z) : Z := if (size + 1 + 4) mod 8 =? 1 then 8 else 0.
Lemma shift_curlen n : b_iscompr n = false → raxNodeCurrentLength (set_size n (b_size n + 1)) = raxNodeCurrentLength n + 8 + shift_of (b_size n).
Proof. intros Hc. unfold raxNodeCurrentLength, shift_of. cbn [b_size b_iscompr set_size]. rewrite Hc, padding_next. change (has_value (set_size n (b_size n + 1))) with (has_value n). lia. Qed.

(** The value goes to the end of the block, the pointers after the new one to their place. *)
Lemma add_child_right (a k2 v z : list cell) w (hasv : bool) curlen newlen src cnt : cnt = len k2 → len v = (if hasv then 8 else 0) → len z = 8 + w → src = len a → curlen = len a + len k2 + len v → newlen = curlen + len z →
  ∃ y, (m ← (if hasv then memmove (a ++ k2 ++ v ++ z) (newlen - 8) (curlen - 8) 8 else Some (a ++ k2 ++ v ++ z)); memmove m (src + w + 8) src cnt) = Some (a ++ y ++ k2 ++ v) ∧ len y = 8 + w.
Proof.
  intros -> Hv Hz -> -> ->. assert (∃ x, (if hasv then memmove (a ++ k2 ++ v ++ z) (len a + len k2 + len v + len z - 8) (len a + len k2 + len v - 8) 8 else Some (a ++ k2 ++ v ++ z)) = Some (a ++ k2 ++ x ++ v) ∧ len x = 8 + w) as (x & -> & Hx).
  - destruct hasv.
    + destruct (memmove_gap_right (a ++ k2) v z [] (len a + len k2 + len v + len z - 8) (len a + len k2 + len v - 8) 8) as (g & E & Hg); [len_lia..|]. rewrite <- !app_assoc, !app_nil_r in E. exists g. split; [done|lia].
    + destruct v; [|done]. exists z. by rewrite app_nil_r.
  - mnext. destruct (memmove_gap_right a k2 x v (len a + w + 8) (len a) (len k2)) as (g & -> & Hg); [lia..|]. exists g. split; [done|lia].
Qed.

(** The pointers before the new one make room for the padding. *)
Lemma add_child_left (a k1 y u : list cell) w src cnt : cnt = len k1 → 0 <= w → src = len a → len y = 8 + w →
  ∃ g y', (if negb (w =? 0) then memmove (a ++ k1 ++ y ++ u) (src + w) src cnt else Some (a ++ k1 ++ y ++ u)) = Some (a ++ g ++ k1 ++ y' ++ u) ∧ len g = w ∧ len y' = 8.
Proof.
  intros -> Hw -> Hy. destruct (w =? 0) eqn:E; to_prop; cbn [negb]; [exists [], y; split; [done|]; split; [done|lia]|].
  destruct (split_bytes y w) as (y1 & y2 & -> & H1 & H2); [lia|]. destruct (memmove_gap_right a k1 y1 (y2 ++ u) (len a + w) (len a) (len k1)) as (g & E' & Hg); [lia..|].
  exists g, y2. rewrite <- !app_assoc. split; [done|]. split; lia.
Qed.

(** The characters after the new one move to the right, and it is written. *)
Lemma add_child_char (a p u : list cell) (d1 d2 : list Z) c pos cnt : cnt = len d2 → len a = 4 → pos = len d1 → 1 <= len p →
  ∃ p', (m ← memmove (a ++ (CByte <$> d1 ++ d2) ++ p ++ u) (4 + pos + 1) (4 + pos) cnt; store m (4 + pos) [CByte c]) = Some (a ++ (CByte <$> d1 ++ c :: d2) ++ p' ++ u) ∧ len p' = len p - 1.
Proof.
  intros -> Ha -> Hp. destruct p as [|x p]; [cbn in Hp; lia|]. rewrite fmap_app. destruct (memmove_gap_right (a ++ (CByte <$> d1)) (CByte <$> d2) [x] (p ++ u) (4 + len d1 + 1) (4 + len d1) (len d2)) as (g & E & Hg); [len_lia..|].
  rewrite <- !app_assoc in *. cbn [app] in *. rewrite E. mnext. exists p. split; [|cbn; lia]. rewrite (app_assoc a), store_app; [|len_lia|cbn in *; lia]. by rewrite fmap_app, <- !app_assoc.
Qed.

Lemma add_child_layout n d1 d2 h pad k1 k2 v z c child : layout n (d1 ++ d2) h pad (k1 ++ k2) v z → b_iscompr n = false → insert_pos (d1 ++ d2) c = length d1 → len k1 = 8 * len d1 →
  ∃ m pad' off, add_child n c child = Some (set_size (set_mem n m) (b_size n + 1), off) ∧ off = raxNodeFirstChildPtr (set_size n (b_size n + 1)) + 8 * len d1 ∧
    layout (set_size (set_mem n m) (b_size n + 1)) (d1 ++ c :: d2) h pad' (k1 ++ ptr_cells (PNode child) ++ k2) v [].
Proof.
  intros L Hc Hpos Hk1. pose proof (layout_curlen _ _ _ _ _ _ _ L) as Hcur. pose proof (shift_curlen n Hc) as Hnew. pose proof (padding_next (b_size n)) as Hpad. pose proof (padding_bounds (b_size n + 1)). set (w := shift_of (b_size n)) in *. change (if (_ + 1 + 4) mod 8 =? 1 then _ else _) with w in Hpad. assert (0 <= w) by (unfold w, shift_of; case_if; lia).
  destruct (layout_resize n _ _ _ _ _ _ (raxNodeCurrentLength (set_size n (b_size n + 1))) L) as (z' & L' & Hz'); [lia|].
  pose proof (lay_hdr _ _ _ _ _ _ _ L) as Hh. pose proof (lay_size _ _ _ _ _ _ _ L) as Hd. pose proof (lay_pad _ _ _ _ _ _ _ L) as Hp. pose proof (lay_kids _ _ _ _ _ _ _ L) as Hk. pose proof (lay_value _ _ _ _ _ _ _ L) as Hv. rewrite Hc in Hk. rewrite !length_app in *.
  unfold add_child. rewrite (layout_data _ _ _ _ _ _ _ L'). mnext. rewrite Hpos. cbn [resize set_mem b_size b_iscompr]. change (has_value (resize n _)) with (has_value n). rewrite Hnew. cbv zeta.
  replace (_ + 8 + w - _ - 8) with w by lia. change (raxNodeFirstChildPtr (resize n _)) with (raxNodeFirstChildPtr n). rewrite Hnew in L'. rewrite (lay_mem _ _ _ _ _ _ _ L'). change (raxNodeFirstChildPtr (set_size (resize n _) _)) with (raxNodeFirstChildPtr (set_size n (b_size n + 1))).
  destruct (add_child_right (h ++ (CByte <$> d1 ++ d2) ++ pad ++ k1) k2 v z' w (has_value n) (raxNodeCurrentLength n) (raxNodeCurrentLength n + 8 + w) (4 + b_size n + raxPadding (b_size n) + 8 * len d1) (8 * (b_size n - len d1))) as (y & E & Hy); [len_lia..|].
  rewrite <- !app_assoc in *. rewrite (bind_run _ _ _ _ E). clear E.
  destruct (add_child_left (h ++ (CByte <$> d1 ++ d2) ++ pad) k1 y (k2 ++ v) w (raxNodeFirstChildPtr n) (8 * len d1)) as (g & y' & E & Hg & Hy'); [unfold raxNodeFirstChildPtr; len_lia..|].
  rewrite <- !app_assoc in E. rewrite E. clear E. mnext.
  destruct (add_child_char h (pad ++ g) (k1 ++ y' ++ k2 ++ v) d1 d2 c (len d1) (b_size n - len d1)) as (pad' & E & Hpad'); [len_lia..|].
  rewrite <- !app_assoc in E. rewrite (bind_run _ _ _ _ E). clear E. rewrite length_app in Hpad'.
  assert (Hoff : raxNodeFirstChildPtr (set_size n (b_size n + 1)) = len h + len (d1 ++ c :: d2) + len pad') by (unfold raxNodeFirstChildPtr; cbn [b_size set_size]; len_lia).
  assert (Hm : h ++ (CByte <$> d1 ++ c :: d2) ++ pad' ++ k1 ++ y' ++ k2 ++ v = (h ++ (CByte <$> d1 ++ c :: d2) ++ pad' ++ k1) ++ y' ++ k2 ++ v) by (by rewrite <- !app_assoc).
  rewrite Hm, put_ptr_at by len_lia. mnext. rewrite <- !app_assoc. eexists (h ++ (CByte <$> d1 ++ c :: d2) ++ pad' ++ k1 ++ ptr_cells (PNode child) ++ k2 ++ v), pad', _. split; [done|]. split; [done|]. split; try done; cbn [b_mem b_size b_iscompr set_mem set_size].
  - by rewrite <- !app_assoc, app_nil_r.
  - len_lia.
  - lia.
  - rewrite Hc, !length_app, length_ptr_cells. lia.
Qed.

(** ** Removing a child *)

Lemma remove_child_char (h : list cell) (d1 d2 : list Z) x u e cnt : cnt = len d2 → e = len h + len d1 →
  ∃ y, memmove (h ++ (CByte <$> d1 ++ x :: d2) ++ u) e (e + 1) cnt = Some (h ++ (CByte <$> d1 ++ d2) ++ [y] ++ u).
Proof.
  intros -> ->. destruct (memmove_gap_left (h ++ (CByte <$> d1)) [CByte x] (CByte <$> d2) u (len h + len d1) (len h + len d1 + 1) (len d2)) as (g & E & Hg); [len_lia..|].
  destruct g as [|y [|? ?]]; cbn in Hg; try lia. exists y. rewrite !fmap_app, fmap_cons. rewrite <- !app_assoc in *. exact E.
Qed.

(** The pointers before the removed one, which go left when a word of padding is gone. *)
Lemma remove_child_left (a p k1 u : list cell) w cp cnt : w = 0 ∨ len p = w → cp = len a + len p → cnt = len k1 →
  ∃ p' q, (if negb (w =? 0) then memmove (a ++ p ++ k1 ++ u) (cp - w) cp cnt else Some (a ++ p ++ k1 ++ u)) = Some (a ++ p' ++ k1 ++ q ++ u) ∧ len p' = len p - w ∧ len q = w.
Proof.
  intros Hp -> ->. destruct (w =? 0) eqn:E; to_prop; cbn [negb]; [exists p, []; split; [done|]; split; [lia|done]|].
  destruct (memmove_gap_left a p k1 u (len a + len p - w) (len a + len p) (len k1)) as (g & -> & Hg); [lia..|]. exists [], g. split; [done|]. cbn [length]. lia.
Qed.

Lemma remove_child_layout n d1 x d2 h pad k1 c k2 v z child : layout n (d1 ++ x :: d2) h pad (k1 ++ c ++ k2) v z → b_iscompr n = false → len c = 8 → len k1 = 8 * len d1 → find_child n child = Some (len d1) →
  ∃ m pad', remove_child n child = Some (set_size (set_mem n m) (b_size n - 1)) ∧ layout (set_size (set_mem n m) (b_size n - 1)) (d1 ++ d2) h pad' (k1 ++ k2) v [].
Proof.
  intros L Hc Hlc Hk1 Hf. pose proof (padding_next (b_size n - 1)) as Hpad. replace (b_size n - 1 + 1) with (b_size n) in Hpad by lia. pose proof (padding_bounds (b_size n)). pose proof (padding_bounds (b_size n - 1)).
  pose proof (lay_hdr _ _ _ _ _ _ _ L) as Hh. pose proof (lay_size _ _ _ _ _ _ _ L) as Hd. pose proof (lay_pad _ _ _ _ _ _ _ L) as Hp. pose proof (lay_kids _ _ _ _ _ _ _ L) as Hk. pose proof (lay_value _ _ _ _ _ _ _ L) as Hv. rewrite Hc in Hk. rewrite !length_app in *. cbn [length] in Hd.
  unfold remove_child. rewrite Hf. mnext. rewrite (lay_mem _ _ _ _ _ _ _ L). destruct (remove_child_char h d1 d2 x (pad ++ (k1 ++ c ++ k2) ++ v ++ z) (4 + len d1) (b_size n - len d1 - 1)) as (y & ->); [lia..|]. mnext.
  set (w := if (b_size n + 4) mod 8 =? 1 then 8 else 0) in *.
  destruct (remove_child_left (h ++ (CByte <$> d1 ++ d2)) (y :: pad) k1 (c ++ k2 ++ v ++ z) w (raxNodeFirstChildPtr n) (8 * (b_size n - (b_size n - len d1 - 1) - 1))) as (p' & q & E & Hp' & Hq); [unfold raxNodeFirstChildPtr, w in *; cbn [length]; try case_if; len_lia..|].
  rewrite <- !app_assoc in *. cbn [app] in *. rewrite E. clear E. mnext.
  destruct (memmove_gap_left (h ++ (CByte <$> d1 ++ d2) ++ p' ++ k1) (q ++ c) (k2 ++ v) z (raxNodeFirstChildPtr n + 8 * len d1 - w) (raxNodeFirstChildPtr n + 8 * len d1 + 8) (8 * (b_size n - len d1 - 1) + (if has_value n then 8 else 0))) as (g & E & Hg); [unfold raxNodeFirstChildPtr; cbn [length] in Hp'; len_lia..|].
  rewrite <- !app_assoc in E. rewrite E. clear E. mnext. set (n2 := set_size _ _).
  assert (L2 : layout n2 (d1 ++ d2) h p' (k1 ++ k2) v (g ++ z)).
  - split; cbn [b_mem b_size b_iscompr set_mem set_size n2]; try done; [by rewrite <- !app_assoc|len_lia|cbn [length] in Hp'; lia|rewrite Hc; len_lia].
  - destruct (layout_resize n2 _ _ _ _ _ _ (raxNodeCurrentLength n2) L2) as (z' & L3 & Hz'); [lia|]. destruct z'; [|cbn in Hz'; lia]. by eexists _, p'.
Qed.

(** ** Filling a block *)

(** The bytes of a block before the pointers are a multiple of 8. *)
Lemma padding_first size : 0 <= size → 8 <= 4 + size + raxPadding size.
Proof. intros. rewrite padding_mod. div_lia. Qed.

(** A block that is large enough takes the characters of a node with one child. *)
Lemma blank_layout n s (compr : bool) : compr = true ∨ len s = 1 → 4 + len s + raxPadding (len s) + 8 <= len (b_mem n) →
  ∃ m h pad c z, store (b_mem n) (4 + 0) (CByte <$> s) = Some m ∧ len c = 8 ∧ len z = len (b_mem n) - (4 + len s + raxPadding (len s) + 8) ∧
    ∀ k nul, k && negb nul = false → layout (mk_bnode k nul compr (len s) m) s h pad c [] z.
Proof.
  intros Hc Hl. pose proof (padding_bounds (len s)). destruct (split_bytes (b_mem n) 4) as (h & u & Hm & Hh & Hu); [lia|]. rewrite Hm in *.
  destruct (split_bytes u (len s)) as (d & u1 & -> & Hd & Hu1); [len_lia|]. destruct (split_bytes u1 (raxPadding (len s))) as (pad & u2 & -> & Hp & Hu2); [len_lia|]. destruct (split_bytes u2 8) as (c & z & -> & Hlc & Hz); [len_lia|].
  exists (h ++ (CByte <$> s) ++ pad ++ c ++ z), h, pad, c, z. split; [apply store_app; [lia|len_lia]|]. split; [done|]. split; [len_lia|].
  intros k nul E. split; cbn [b_mem b_size b_iscompr]; try done.
  - destruct Hc as [->| Hs]; [done|]. case_if; lia.
  - unfold has_value. cbn [b_iskey b_isnull]. by rewrite E.
Qed.

(** A block with no characters and no pointers. *)
Lemma empty_layout n k nul : 8 <= len (b_mem n) → k && negb nul = false → ∃ h pad z, layout (mk_bnode k nul false 0 (b_mem n)) [] h pad [] [] z ∧ len z = len (b_mem n) - 8.
Proof.
  intros Hl E. destruct (split_bytes (b_mem n) 4) as (h & u & Hm & Hh & Hu); [lia|]. destruct (split_bytes u 4) as (pad & z & -> & Hp & Hz); [lia|]. exists h, pad, z. split; [|rewrite Hm in *; len_lia].
  split; cbn [b_mem b_size b_iscompr]; try done. unfold has_value. cbn [b_iskey b_isnull]. by rewrite E.
Qed.
