(* ===== verification/RaxRel.v ===== *)
(** Radix trees: the block of a node holds the characters, children and value of the node
    that the tree is proved on, and the operations on the two agree. *)
From S2P Require Import Prelude Rax RaxNode RaxBlock.
#[local] Open Scope Z_scope.

Definition kid_cells (ks : list positive) : list cell := concat ((λ p, ptr_cells (PNode p)) <$> ks).
Lemma kid_cells_app k1 k2 : kid_cells (k1 ++ k2) = kid_cells k1 ++ kid_cells k2.
Proof. unfold kid_cells. by rewrite fmap_app, concat_app. Qed.
Lemma kid_cells_cons p ks : kid_cells (p :: ks) = ptr_cells (PNode p) ++ kid_cells ks.
Proof. done. Qed.
Lemma length_kid_cells ks : len (kid_cells ks) = 8 * len ks.
Proof. induction ks as [|p ks IH]; [done|]. rewrite kid_cells_cons, length_app, length_ptr_cells. cbn [length]. lia. Qed.

(** ** The block of a node *)

Definition stored (n : raxNode) : bool := iskey n && negb (isnull n).

(** The block has at least [k] cells more than the node needs. *)
Definition brel_room (k : Z) (b : bnode) (n : raxNode) : Prop :=
  b_iskey b = iskey n ∧ b_isnull b = isnull n ∧ b_iscompr b = iscompr n ∧
  ∃ h pad z, layout b (ndata n) h pad (kid_cells (kids n)) (if stored n then value_cells (value n) else []) z ∧ k <= len z.
Definition brel : bnode → raxNode → Prop := brel_room 0.

Lemma brel_weaken k b n : brel_room k b n → brel b n.
Proof. intros (?&?&?&h&pad&z&L&_). split_and!; try done. exists h, pad, z. split; [done|lia]. Qed.

Lemma brel_has_value b n : brel b n → has_value b = stored n.
Proof. intros (Hk & Hn & _). unfold has_value, stored. by rewrite Hk, Hn. Qed.
Lemma brel_size b n : brel b n → b_size b = nsize n.
Proof. intros (_ & _ & _ & h & pad & z & L & _). by rewrite <- (lay_size _ _ _ _ _ _ _ L). Qed.
Lemma brel_data b n : brel b n → get_data b = Some (ndata n).
Proof. intros (_ & _ & _ & h & pad & z & L & _). eapply layout_data, L. Qed.
Lemma brel_kids b n : brel b n → len (kids n) = if iscompr n then 1 else nsize n.
Proof. intros Hb. pose proof (brel_size _ _ Hb) as Hs. destruct Hb as (_ & _ & Hc & h & pad & z & L & _). pose proof (lay_kids _ _ _ _ _ _ _ L) as Hk. rewrite length_kid_cells, Hc in Hk. case_if; lia. Qed.

(** ** Reading *)

Lemma kid_split (ks : list positive) j c : ks !! j = Some c → kid_cells ks = kid_cells (take j ks) ++ ptr_cells (PNode c) ++ kid_cells (drop (S j) ks) ∧ len (kid_cells (take j ks)) = 8 * Z.of_nat j.
Proof.
  intros Hj. split.
  - rewrite <- (take_drop_middle ks j c Hj) at 1. by rewrite kid_cells_app, kid_cells_cons.
  - rewrite length_kid_cells. apply lookup_lt_Some in Hj. len_lia.
Qed.

Lemma brel_kid b n j c : brel b n → kids n !! j = Some c → get_node (b_mem b) (raxNodeFirstChildPtr b + 8 * Z.of_nat j) = Some c.
Proof.
  intros (_ & _ & _ & h & pad & z & L & _) Hj. destruct (kid_split _ _ _ Hj) as [E Hl]. rewrite E in L. eapply layout_get_node; [exact L|]. lia.
Qed.

Lemma last_offset b n : brel b n → kids n ≠ [] → raxNodeLastChildPtr b = raxNodeFirstChildPtr b + 8 * Z.of_nat (last_link n).
Proof.
  intros (_ & _ & _ & h & pad & z & L & _) Hk. rewrite (layout_last _ _ _ _ _ _ _ L), (layout_first _ _ _ _ _ _ _ L), length_kid_cells. unfold last_link.
  destruct (kids n) as [|k ks]; [done|]. cbn [length pred]. lia.
Qed.
Lemma brel_last b n c : brel b n → Rax.last_child n = Some c → last_child b = Some c.
Proof.
  intros Hb Hl. unfold last_child. rewrite (last_offset b n Hb); [by apply brel_kid with n|]. intros E. unfold Rax.last_child in Hl. by rewrite E in Hl.
Qed.

Lemma brel_value b n : brel b n → iskey n = true → raxGetData b = Some (Rax.raxGetData n).
Proof.
  intros Hb Hk. destruct Hb as (Hbk & Hn & _ & h & pad & z & L & _). unfold Rax.raxGetData. destruct (isnull n) eqn:E; [unfold raxGetData; by rewrite Hn|].
  unfold stored in L. rewrite Hk, E in L. cbn [negb andb] in L. eapply layout_get_value; [exact L|]. rewrite Hn.
  pose proof (lay_value _ _ _ _ _ _ _ L) as Hv. unfold has_value in Hv. rewrite Hbk, Hk, Hn, length_value_cells in Hv. cbn in Hv. by destruct (value n =? 0).
Qed.

Lemma scan_child_spec ks c j : ∀ fuel a u, Rax.find_child ks c = Some j → (j < fuel)%nat → scan_child fuel (a ++ kid_cells ks ++ u) (len a) c = Some (Z.of_nat j).
Proof.
  revert j. induction ks as [|k ks IH]; intros j fuel a u Hf Hl; [done|]. destruct fuel as [|fuel]; [lia|]. cbn [Rax.find_child scan_child] in *. rewrite kid_cells_cons, <- app_assoc. unfold get_node. rewrite get_ptr_at by done. mnext. mnext.
  destruct (bool_decide (k = c)); [by injection Hf as <-|]. destruct (Rax.find_child ks c) as [j'|] eqn:E; [|done]. injection Hf as <-. rewrite app_assoc. replace (len a + 8) with (len (a ++ ptr_cells (PNode k))) by (rewrite length_app, length_ptr_cells; lia).
  rewrite (IH j' fuel _ _ eq_refl) by lia. mnext. f_equal. lia.
Qed.
Lemma find_child_bound ks c j : Rax.find_child ks c = Some j → ks !! j = Some c.
Proof. revert j. induction ks as [|k ks IH]; intros j Hf; [done|]. cbn in Hf. case_bool_decide; [injection Hf as <-; by subst|]. destruct (Rax.find_child ks c) as [j'|]; [|done]. injection Hf as <-. cbn. by apply IH. Qed.
Lemma brel_find_child b n c j : brel b n → Rax.find_child (kids n) c = Some j → find_child b c = Some (Z.of_nat j).
Proof.
  intros (_ & _ & _ & h & pad & z & L & _) Hf. unfold find_child. rewrite (layout_first _ _ _ _ _ _ _ L), (lay_mem _ _ _ _ _ _ _ L). rewrite (app_assoc _ pad), (app_assoc h).
  replace (len h + len (ndata n) + len pad) with (len (h ++ (CByte <$> ndata n) ++ pad)) by len_lia. apply scan_child_spec; [done|].
  apply find_child_bound, lookup_lt_Some in Hf. pose proof (length_kid_cells (kids n)). rewrite !length_app. lia.
Qed.

(** ** Writing *)

Lemma brel_set_kid b n n' j q off : brel b n → set_kid n j q = Some n' → off = raxNodeFirstChildPtr b + 8 * Z.of_nat j →
  ∃ b', put_child b off q = Some b' ∧ brel b' n' ∧ raxNodeFirstChildPtr b' = raxNodeFirstChildPtr b.
Proof.
  intros (Hk & Hn & Hc & h & pad & z & L & _) Hs ->. unfold set_kid in Hs. case_bool_decide as Hj; [|done]. injection Hs as <-. destruct (lookup_lt_is_Some_2 _ _ Hj) as [c Hkj].
  destruct (kid_split _ _ _ Hkj) as [E Hl]. rewrite E in L. destruct (layout_put_child b _ _ _ _ _ _ _ _ (raxNodeFirstChildPtr b + 8 * Z.of_nat j) q L) as (m & Hm & L'); [done|lia|].
  rewrite Hm. eexists. split; [done|]. split; [|done]. split_and!; try done. exists h, pad, z. split; [|lia]. cbn [ndata kids value]. unfold stored in *. cbn [iskey isnull]. by rewrite insert_take_drop, kid_cells_app by done.
Qed.

Lemma brel_set_value k b n data : brel_room k b n → (data ≠ 0 → stored n = true ∨ 8 <= k) → ∃ b', raxSetData b data = Some b' ∧ brel b' (Rax.raxSetData n data).
Proof.
  intros (Hk & Hn & Hc & h & pad & z & L & Hz) Hroom. destruct (layout_set_value b _ _ _ _ _ _ data L) as (b' & z' & -> & Hk' & Hn' & Hc' & Hs' & L').
  - intros Hd. pose proof (lay_value _ _ _ _ _ _ _ L) as Hv. rewrite (brel_has_value b n) in Hv by (split_and!; try done; exists h, pad, z; split; [done|lia]). destruct (Hroom Hd) as [E| ?]; [|lia]. rewrite E in Hv |- *. lia.
  - exists b'. split; [done|]. unfold Rax.raxSetData. destruct (data =? 0) eqn:E; (split_and!; [done|done|by rewrite Hc'|]); exists h, pad, z'; (split; [|lia]); unfold stored, value_cells in *; cbn; by rewrite E in *.
Qed.

Lemma brel_resize b n k : brel b n → 0 <= k → brel_room k (resize b (raxNodeCurrentLength b + k)) n.
Proof.
  intros (Hk & Hn & Hc & h & pad & z & L & _) Hle. destruct (layout_resize b _ _ _ _ _ _ (raxNodeCurrentLength b + k) L) as (z' & L' & Hz'); [lia|]. split_and!; try done. exists h, pad, z'. split; [done|lia].
Qed.

Lemma brel_add_child b n c q : brel b n → iscompr n = false →
  let pos := insert_pos (ndata n) c in
  ∃ b' off, add_child b c q = Some (b', off) ∧ off = raxNodeFirstChildPtr b' + 8 * Z.of_nat pos ∧
    brel b' (mk_rnode (iskey n) (isnull n) (iscompr n) (take pos (ndata n) ++ c :: drop pos (ndata n)) (take pos (kids n) ++ q :: drop pos (kids n)) (value n)).
Proof.
  intros Hb Hcp pos. pose proof (brel_kids _ _ Hb) as Hlk. rewrite Hcp in Hlk. destruct Hb as (Hk & Hn & Hc & h & pad & z & L & _). unfold nsize in Hlk.
  assert (Hpos : (pos <= length (ndata n))%nat) by (unfold pos; clear; induction (ndata n) as [|x cs IH]; cbn; [lia|]; case_if; lia).
  rewrite <- (take_drop pos (ndata n)), <- (take_drop pos (kids n)), kid_cells_app in L.
  destruct (add_child_layout b _ _ _ _ _ _ _ _ c q L) as (m & pad' & off & -> & -> & L'); [by rewrite Hc|rewrite take_drop; fold pos; len_lia|rewrite length_kid_cells; len_lia|].
  eexists _, _. split; [done|]. split; [f_equal; len_lia|]. split_and!; try done. exists h, pad', []. split; [|done]. cbn [ndata kids value]. by rewrite kid_cells_app, kid_cells_cons.
Qed.

Lemma brel_remove_child b n c j : brel b n → iscompr n = false → Rax.find_child (kids n) c = Some j →
  ∃ b', remove_child b c = Some b' ∧ brel b' (mk_rnode (iskey n) (isnull n) (iscompr n) (delete j (ndata n)) (delete j (kids n)) (value n)).
Proof.
  intros Hb Hcp Hf. pose proof (brel_find_child _ _ _ _ Hb Hf) as Hf'. pose proof (brel_kids _ _ Hb) as Hlk. rewrite Hcp in Hlk. unfold nsize in Hlk. destruct Hb as (Hk & Hn & Hc & h & pad & z & L & _).
  pose proof (find_child_bound _ _ _ Hf) as Hj. destruct (kid_split _ _ _ Hj) as [E Hl]. rewrite E in L. pose proof (lookup_lt_Some _ _ _ Hj) as Hjl. destruct (lookup_lt_is_Some_2 (ndata n) j) as [x Hx]; [lia|]. rewrite <- (take_drop_middle _ _ _ Hx) in L.
  destruct (remove_child_layout b _ _ _ _ _ _ _ _ _ _ c L) as (m & pad' & -> & L'); [by rewrite Hc|done|len_lia|rewrite Hf'; f_equal; len_lia|].
  eexists. split; [done|]. split_and!; try done. exists h, pad', []. split; [|done]. cbn [ndata kids value]. by rewrite !delete_take_drop, kid_cells_app.
Qed.

(** ** New blocks *)

Lemma length_layout b d h pad ks v z : layout b d h pad ks v z → len (b_mem b) = raxNodeCurrentLength b + len z.
Proof. intros L. rewrite (layout_curlen _ _ _ _ _ _ _ L), (lay_mem _ _ _ _ _ _ _ L). len_lia. Qed.

(** The node with one child made by filling a block. *)
Definition filled (k nul compr : bool) (s : list Z) (data : option Z) (q : positive) : raxNode :=
  let n := mk_rnode k nul compr s [q] 0 in match data with Some data => Rax.raxSetData n data | None => n end.

Lemma brel_fill b k nul compr s data q : compr = true ∨ len s = 1 → 4 + len s + raxPadding (len s) + 8 + (match data with Some data => if data =? 0 then 0 else 8 | None => 0 end) <= len (b_mem b) → (data = None → k && negb nul = false) →
  ∃ b', fill_node b k nul compr s data q = Some b' ∧ brel b' (filled k nul compr s data q).
Proof.
  intros Hc Hl Hk. destruct (blank_layout b s compr Hc) as (m & h & pad & c & z & Hm & Hlc & Hz & L); [destruct data as [x|]; [destruct (x =? 0)|]; lia|].
  unfold fill_node, put_data. cbn [b_mem put_header]. rewrite Hm. mnext. mnext. unfold filled. destruct data as [data|].
  - specialize (L true true eq_refl). destruct (layout_set_value _ _ _ _ _ _ _ data L) as (b1 & z1 & E & Hk1 & Hn1 & Hc1 & Hs1 & L1); [intros Hd; apply Z.eqb_neq in Hd; rewrite Hd in Hl; cbn [length]; lia|].
    change (raxSetData (set_mem (put_header b k nul compr (len s)) m) data) with (raxSetData (mk_bnode true true compr (len s) m) data). rewrite E. mnext. destruct (layout_put_last _ _ _ _ _ _ _ q L1 Hlc) as (m2 & -> & L2).
    eexists. split; [done|]. unfold Rax.raxSetData. unfold value_cells in L2. destruct (data =? 0) eqn:Ed; (split_and!; [done|done|done|]); exists h, pad, z1; (split; [|lia]); unfold stored, value_cells; cbn; rewrite ?Ed; done.
  - mnext. change (set_mem (put_header b k nul compr (len s)) m) with (mk_bnode k nul compr (len s) m). specialize (L k nul (Hk eq_refl)). destruct (layout_put_last _ _ _ _ _ _ _ q L Hlc) as (m2 & -> & L2). eexists. split; [done|]. split_and!; try done. exists h, pad, z. split; [|lia]. unfold stored. cbn. by rewrite (Hk eq_refl).
Qed.

Lemma brel_new `{RaxAlloc} : brel (raxNewNode 0 false) (Rax.raxNewNode 0).
Proof.
  destruct (empty_layout (raxNewNode 0 false) false false) as (h & pad & z & L & _); [|done|].
  - unfold raxNewNode, raw_block. destruct raw_header as [[[? ?] ?] ?]. cbn [put_header b_mem]. by vm_compute.
  - split_and!; try done. exists h, pad, z. split; [exact L|lia].
Qed.

Lemma brel_reset b n : brel b n → iscompr n = true →
  ∃ b', remove_only_child b = Some b' ∧ brel b' (let m := mk_rnode (iskey n) false false [] [] (value n) in if iskey n then Rax.raxSetData m (Rax.raxGetData n) else m).
Proof.
  intros Hb Hcp. pose proof (brel_value b n Hb) as Hval. pose proof Hb as (Hk & Hn & Hc & h & pad & z & L & _). pose proof (length_layout _ _ _ _ _ _ _ L) as Hlen. pose proof (lay_size _ _ _ _ _ _ _ L). pose proof (padding_first (b_size b)). unfold raxNodeCurrentLength in Hlen. rewrite Hc, Hcp in Hlen.
  unfold remove_only_child. cbn [put_header b_iskey]. rewrite Hk. destruct (iskey n) eqn:Ek.
  - rewrite Hval by done. mnext. destruct (empty_layout b true true) as (h' & pad' & z' & L' & Hz'); [destruct (has_value b); lia|done|].
    destruct (layout_set_value _ _ _ _ _ _ _ (Rax.raxGetData n) L') as (b1 & z1 & E & Hk1 & Hn1 & Hc1 & Hs1 & L1); [intros; cbn [length]; destruct (has_value b); lia|].
    change (raxSetData (put_header b true false false 0) (Rax.raxGetData n)) with (raxSetData (mk_bnode true true false 0 (b_mem b)) (Rax.raxGetData n)). rewrite E. eexists. split; [done|]. unfold Rax.raxSetData. unfold value_cells in L1.
    destruct (Rax.raxGetData n =? 0) eqn:Ed; (split_and!; [done|done|done|]); exists h', pad', z1; (split; [|lia]); unfold stored, value_cells; cbn; rewrite ?Ed; done.
  - mnext. destruct (empty_layout b false false) as (h' & pad' & z' & L' & Hz'); [destruct (has_value b); lia|done|]. eexists. split; [done|]. split_and!; try done. exists h', pad', z'. split; [done|lia].
Qed.

(** The value of a node that stores none does not matter. *)
Lemma brel_any_value b k nul compr d ks v v' : k && negb nul = false → brel b (mk_rnode k nul compr d ks v) → brel b (mk_rnode k nul compr d ks v').
Proof. intros E (? & ? & ? & h & pad & z & L & Hz). split_and!; [done..|]. exists h, pad, z. unfold stored in *. cbn [iskey isnull] in *. rewrite E in *. by split. Qed.

Lemma brel_compress b n s q : brel b n → iscompr n = false → ndata n = [] →
  ∃ b', compress b s q = Some b' ∧ brel b' (let m := mk_rnode (iskey n) (isnull n) true s [q] (value n) in if iskey n then Rax.raxSetData m (Rax.raxGetData n) else m).
Proof.
  intros Hb Hcp Hnil. pose proof (brel_value b n Hb) as Hval. pose proof Hb as (Hk & Hn & Hc & _). set (data := if iskey n then Some (Rax.raxGetData n) else None).
  set (newsize := if b_iskey b && negb (b_isnull b) then 4 + len s + raxPadding (len s) + 8 + 8 else 4 + len s + raxPadding (len s) + 8). pose proof (padding_first (len s)).
  assert (E : compress b s q = fill_node (resize b newsize) (iskey n) (isnull n) true s data q).
  { unfold compress, fill_node, put_data, data, newsize. rewrite <- Hk, <- Hn. destruct (b_iskey b) eqn:Ek; [rewrite Hval by congruence; mnext|mnext]; cbn [b_mem put_header b_iskey b_isnull set_mem resize b_iscompr b_size]; rewrite ?Ek; (destruct (store _ _ _); [|done]); rewrite !some_bind; cbn [b_iskey set_mem put_header resize]; by rewrite ?Ek. }
  rewrite E. destruct (brel_fill (resize b newsize) (iskey n) (isnull n) true s data q) as (b' & -> & Hb'); [by left| |intros Ed; unfold data in Ed; by destruct (iskey n)|].
  - cbn [resize set_mem b_mem]. rewrite length_realloc by (unfold newsize; case_if; lia). unfold newsize, data. rewrite Hk, Hn. unfold Rax.raxGetData. destruct (iskey n), (isnull n); cbn; try case_if; lia.
  - exists b'. split; [done|]. unfold filled, data, Rax.raxSetData in *. destruct (iskey n); [destruct (Rax.raxGetData n =? 0)|]; cbn in *; [by eapply brel_any_value, Hb'|done|by eapply brel_any_value, Hb'].
Qed.
