(* ===== verification/RaxBytes.v ===== *)
(** Radix trees: src/redis-7.0.0/src/rax.c, but for its iterators and debugging output.

    Nodes are blocks, in a map from addresses; the address of a reallocated block may or may
    not change.  A dangling or NULL pointer, an access out of a block or to cells that were
    not written, or a failed assertion, is [None].  rax_malloc is zmalloc, which does not
    return NULL.  Where a function allocates several blocks and then fills them, their
    addresses are taken first and each block is put at its address when it is complete. *)
From stdpp Require Import gmap.
From S2P Require Import Prelude Rax RaxNode.
#[local] Open Scope Z_scope.

Record brax := mk_brax { b_head : positive; b_numele : Z; b_numnodes : Z; b_nodes : gmap positive bnode }.

(** Where a pointer to a node is stored: the head, or an offset in a block. *)
Inductive blink := BHead | BCell (p : positive) (off : Z).

Section rax.
Context `{RaxAlloc}.

Definition set_nodes (r : brax) (h : gmap positive bnode) : brax := mk_brax (b_head r) (b_numele r) (b_numnodes r) h.
Definition add_nodes (r : brax) (k : Z) : brax := mk_brax (b_head r) (b_numele r) (u64 (b_numnodes r + k)) (b_nodes r).
Definition add_ele (r : brax) (k : Z) : brax := mk_brax (b_head r) (u64 (b_numele r + k)) (b_numnodes r) (b_nodes r).

Definition node (r : brax) (p : positive) : option bnode := b_nodes r !! p.
Definition bput (r : brax) (p : positive) (n : bnode) : brax := set_nodes r (<[p := n]> (b_nodes r)).
Definition new (r : brax) (n : bnode) : brax * positive := let p := rax_malloc (b_nodes r) in (bput r p n, p).
Definition reserve (r : brax) : brax * positive := new r (raxNewNode 0 false).
Definition rfree (r : brax) (p : positive) : option brax := _ ← node r p; Some (set_nodes r (delete p (b_nodes r))).
(** The block, with new contents, after rax_realloc. *)
Definition move (r : brax) (p : positive) (n : bnode) : brax * positive :=
  let q := rax_realloc (b_nodes r) p in (set_nodes r (<[q := n]> (delete p (b_nodes r))), q).

(** [memcpy(parentlink,&q,sizeof(q))] *)
Definition write_link (r : brax) (l : blink) (q : positive) : option brax :=
  match l with
  | BHead => Some (mk_brax q (b_numele r) (b_numnodes r) (b_nodes r))
  | BCell p off => n ← node r p; n ← put_child n off q; Some (bput r p n)
  end.

Definition raxNew : brax :=
  let r := mk_brax xH 0 1 ∅ in
  let '(r, p) := new r (raxNewNode 0 false) in
  mk_brax p (b_numele r) (b_numnodes r) (b_nodes r).

Definition raxReallocForData (r : brax) (p : positive) (data : Z) : option (brax * positive) :=
  if data =? 0 then Some (r, p)
  else n ← node r p; Some (move r p (resize n (raxNodeCurrentLength n + 8))).

(** The new address of the node, the child and its link. *)
Definition raxAddChild (r : brax) (p : positive) (c : Z) : option (brax * positive * positive * blink) :=
  n ← node r p;
  if b_iscompr n then None
  else
    let '(r, child) := new r (raxNewNode 0 false) in
    '(n, childfield) ← add_child n c child;
    let '(r, p) := move r p n in
    Some (r, p, child, BCell p childfield).

Definition raxCompressNode (r : brax) (p : positive) (s : list Z) : option (brax * positive * positive) :=
  n ← node r p;
  if negb ((b_size n =? 0) && negb (b_iscompr n)) then None
  else
    let '(r, child) := new r (raxNewNode 0 false) in
    n ← compress n s child;
    let '(r, p) := move r p n in
    Some (r, p, child).

(** ** Walking *)

Record bwalk := mk_bwalk { bw_i : Z; bw_stop : positive; bw_link : blink; bw_split : Z; bw_stack : list positive }.

Fixpoint walk_loop (fuel : nat) (r : brax) (s : list Z) (h : positive) (parentlink : blink) (i : Z) (ts : list positive) : option bwalk :=
  match fuel with
  | O => None
  | S fuel =>
    n ← node r h;
    let stop i j := Some (mk_bwalk i h parentlink (if b_iscompr n then j else 0) ts) in
    if (b_size n =? 0) || (len s <=? i) then stop i 0
    else
      v ← get_data n;
      let children := raxNodeFirstChildPtr n in
      if b_iscompr n then
        let j := Z.of_nat (common v (drop (Z.to_nat i) s)) in
        if negb (j =? b_size n) then stop (i + j) j
        else child ← get_node (b_mem n) children; walk_loop fuel r s child (BCell h children) (i + j) (h :: ts)
      else
        c ← s !! Z.to_nat i;
        let j := Z.of_nat (edge v c) in
        if j =? b_size n then stop i 0
        else child ← get_node (b_mem n) (children + 8 * j); walk_loop fuel r s child (BCell h (children + 8 * j)) (i + 1) (h :: ts)
  end.
(** The stack has the last pushed first. *)
Definition raxLowWalk (r : brax) (s : list Z) : option bwalk := walk_loop (S (length s)) r s (b_head r) BHead 0 [].

(** ** Insertion *)

(** The missing nodes: the last node and its link. *)
Fixpoint insert_loop (fuel : nat) (r : brax) (s : list Z) (i : Z) (h : positive) (parentlink : blink) : option (brax * positive * blink) :=
  if i <? len s then
    match fuel with
    | O => None
    | S fuel =>
      n ← node r h;
      if (b_size n =? 0) && (len s - i >? 1) then
        let comprsize := if len s - i >? RAX_NODE_MAX_SIZE then RAX_NODE_MAX_SIZE else len s - i in
        '(r, h, child) ← raxCompressNode r h (take (Z.to_nat comprsize) (drop (Z.to_nat i) s));
        r ← write_link r parentlink h;
        n ← node r h;
        insert_loop fuel (add_nodes r 1) s (i + comprsize) child (BCell h (raxNodeLastChildPtr n))
      else
        c ← s !! Z.to_nat i;
        '(r, h, child, new_parentlink) ← raxAddChild r h c;
        r ← write_link r parentlink h;
        insert_loop fuel (add_nodes r 1) s (i + 1) child new_parentlink
    end
  else Some (r, h, parentlink).

(** The size of a block for [size] characters, one child and perhaps a value. *)
Definition one_child_size (size : Z) (value : bool) : Z :=
  let nodesize := 4 + size + raxPadding size + 8 in if value then nodesize + 8 else nodesize.

(** Algorithm 1: the split node, which replaces the node or follows its trimmed part. *)
Definition split_mismatch (r : brax) (h : positive) (parentlink : blink) (j : Z) : option (brax * positive * blink) :=
  n ← node r h;
  next ← last_child n;
  data ← get_data n;
  let trimmedlen := j in
  let postfixlen := b_size n - j - 1 in
  let split_node_is_key := (trimmedlen =? 0) && has_value n in
  let '(r, splitnode) := reserve r in
  let split := raxNewNode 1 split_node_is_key in
  let '(r, trimmed) := if trimmedlen =? 0 then (r, xH) else reserve r in
  let '(r, postfix) := if postfixlen =? 0 then (r, next) else reserve r in
  c ← data !! Z.to_nat j;
  split ← put_data split 0 [c];
  '(r, split, parentlink) ←
    (if j =? 0 then
       split ← (if b_iskey n then ndata ← raxGetData n; raxSetData split ndata else Some split);
       r ← write_link r parentlink splitnode;
       Some (r, split, parentlink)
     else
       ndata ← (if has_value n then ndata ← raxGetData n; Some (Some ndata) else Some None);
       t ← fill_node (raw_block (one_child_size trimmedlen (has_value n))) (b_iskey n) (b_isnull n) (j >? 1) (take (Z.to_nat j) data) ndata splitnode;
       r ← write_link (bput r trimmed t) parentlink trimmed;
       Some (add_nodes r 1, split, BCell trimmed (raxNodeLastChildPtr t)));
  r ← (if postfixlen =? 0 then Some r
       else
         p ← fill_node (raw_block (one_child_size postfixlen false)) false false (postfixlen >? 1) (drop (Z.to_nat (j + 1)) data) None next;
         Some (add_nodes (bput r postfix p) 1));
  split ← put_last_child split postfix;
  r ← rfree (bput r splitnode split) h;
  Some (r, splitnode, parentlink).

(** Algorithm 2: the key ends inside the node. *)
Definition split_key (r : brax) (h : positive) (parentlink : blink) (j data : Z) : option brax :=
  n ← node r h;
  hdata ← get_data n;
  let postfixlen := b_size n - j in
  let '(r, postfix) := reserve r in
  let '(r, trimmed) := reserve r in
  next ← last_child n;
  p ← fill_node (raw_block (one_child_size postfixlen (negb (data =? 0)))) true false (postfixlen >? 1) (drop (Z.to_nat j) hdata) (Some data) next;
  let r := add_nodes (bput r postfix p) 1 in
  r ← write_link r parentlink trimmed;
  aux ← (if b_iskey n then aux ← raxGetData n; Some (Some aux) else Some None);
  t ← fill_node (raw_block (one_child_size j (has_value n))) false false (j >? 1) (take (Z.to_nat j) hdata) aux postfix;
  rfree (add_ele (bput r trimmed t) 1) h.

(** The result, and [*old] when it is set. *)
Definition raxGenericInsert (r : brax) (s : list Z) (data : Z) (overwrite : bool) : option (brax * Z * option Z) :=
  w ← raxLowWalk r s;
  let i := bw_i w in let j := bw_split w in let h := bw_stop w in let parentlink := bw_link w in
  n ← node r h;
  if (i =? len s) && (negb (b_iscompr n) || (j =? 0)) then
    '(r, h) ← (if negb (b_iskey n) || (b_isnull n && overwrite) then
                 '(r, h) ← raxReallocForData r h data; r ← write_link r parentlink h; Some (r, h)
               else Some (r, h));
    n ← node r h;
    if b_iskey n then
      old ← raxGetData n;
      r ← (if overwrite then n ← raxSetData n data; Some (bput r h n) else Some r);
      Some (r, 0, Some old)
    else
      n ← raxSetData n data;
      Some (add_ele (bput r h n) 1, 1, None)
  else if b_iscompr n && (i =? len s) then
    r ← split_key r h parentlink j data; Some (r, 1, None)
  else
    '(r, h, parentlink) ← (if b_iscompr n then split_mismatch r h parentlink j else Some (r, h, parentlink));
    '(r, h, parentlink) ← insert_loop (length s) r s i h parentlink;
    '(r, h) ← raxReallocForData r h data;
    n ← node r h;
    let r := if b_iskey n then r else add_ele r 1 in
    n ← raxSetData n data;
    r ← write_link (bput r h n) parentlink h;
    Some (r, 1, None).

Definition raxInsert (r : brax) (s : list Z) (data : Z) : option (brax * Z * option Z) := raxGenericInsert r s data true.
Definition raxTryInsert (r : brax) (s : list Z) (data : Z) : option (brax * Z * option Z) := raxGenericInsert r s data false.

(** The inner [None] is raxNotFound. *)
Definition raxFind (r : brax) (s : list Z) : option (option Z) :=
  w ← raxLowWalk r s;
  n ← node r (bw_stop w);
  if negb (bw_i w =? len s) || (b_iscompr n && negb (bw_split w =? 0)) || negb (b_iskey n) then Some None
  else v ← raxGetData n; Some (Some v).

(** ** Removal *)

Definition raxFindParentLink (r : brax) (parent child : positive) : option blink :=
  n ← node r parent; k ← find_child n child; Some (BCell parent (raxNodeFirstChildPtr n + 8 * k)).

Definition raxRemoveChild (r : brax) (parent child : positive) : option (brax * positive) :=
  n ← node r parent;
  if b_iscompr n then n ← remove_only_child n; Some (bput r parent n, parent)
  else n ← remove_child n child; Some (move r parent n).

(** [h->iskey || (!h->iscompr && h->size != 1)] *)
Definition keeps_node (n : bnode) : bool := b_iskey n || (negb (b_iscompr n) && negb (b_size n =? 1)).

(** The nodes freed from a leaf upwards: the node reached, the last one freed, the rest of
    the stack. *)
Fixpoint free_up (fuel : nat) (r : brax) (h : positive) (child : option positive) (ts : list positive) : option (brax * positive * option positive * list positive) :=
  if bool_decide (h = b_head r) then Some (r, h, child, ts)
  else
    match fuel with
    | O => None
    | S fuel =>
      r ← rfree r h;
      let r := add_nodes r (-1) in
      match ts with
      | [] => None
      | p :: ts =>
        n ← node r p;
        if keeps_node n then Some (r, p, Some h, ts) else free_up fuel r p (Some h) ts
      end
    end.

(** The upper node that can be compressed, and its parent. *)
Fixpoint compress_up (r : brax) (h : positive) (ts : list positive) : option (positive * option positive) :=
  match ts with
  | [] => Some (h, None)
  | p :: ts => n ← node r p; if keeps_node n then Some (h, Some p) else compress_up r p ts
  end.

(** The chain from [h]: the total size and the number of nodes. *)
Fixpoint chain_scan (fuel : nat) (r : brax) (h : positive) (comprsize nodes : Z) : option (Z * Z) :=
  match fuel with
  | O => None
  | S fuel =>
    n ← node r h;
    if b_size n =? 0 then Some (comprsize, nodes)
    else
      h ← last_child n;
      n ← node r h;
      if keeps_node n then Some (comprsize, nodes)
      else if comprsize + b_size n >? RAX_NODE_MAX_SIZE then Some (comprsize, nodes)
      else chain_scan fuel r h (comprsize + b_size n) (nodes + 1)
  end.

(** The second scan: the characters are copied to the block [new], whose first [comprsize]
    are there, and the nodes are freed; the node after the chain. *)
Fixpoint chain_take (fuel : nat) (r : brax) (h : positive) (new : bnode) (comprsize : Z) : option (brax * positive * bnode) :=
  match fuel with
  | O => None
  | S fuel =>
    n ← node r h;
    if b_size n =? 0 then Some (r, h, new)
    else
      data ← get_data n;
      new ← put_data new comprsize data;
      next ← last_child n;
      r ← rfree r h;
      let r := add_nodes r (-1) in
      let comprsize := comprsize + b_size n in
      n ← node r next;
      if keeps_node n then Some (r, next, new) else chain_take fuel r next new comprsize
  end.

Definition recompress (r : brax) (h : positive) (ts : list positive) : option brax :=
  '(start, parent) ← compress_up r h ts;
  n ← node r start;
  let fuel := S (size (b_nodes r)) in
  '(comprsize, nodes) ← chain_scan fuel r start (b_size n) 1;
  if nodes >? 1 then
    let '(r, new) := reserve r in
    let n := put_header (raw_block (one_child_size comprsize false)) false false true comprsize in
    let r := add_nodes r 1 in
    '(r, h, n) ← chain_take fuel r start n 0;
    n ← put_last_child n h;
    let r := bput r new n in
    match parent with
    | Some p => l ← raxFindParentLink r p start; write_link r l new
    | None => write_link r BHead new
    end
  else Some r.

(** The result, and [*old]. *)
Definition raxRemove (r : brax) (s : list Z) : option (brax * Z * option Z) :=
  w ← raxLowWalk r s;
  let h := bw_stop w in
  n ← node r h;
  if negb (bw_i w =? len s) || (b_iscompr n && negb (bw_split w =? 0)) || negb (b_iskey n) then Some (r, 0, None)
  else
    old ← raxGetData n;
    let n := put_header n false (b_isnull n) (b_iscompr n) (b_size n) in
    let r := add_ele (bput r h n) (-1) in
    '(r, todo) ←
      (if b_size n =? 0 then
         '(r, h, child, ts) ← free_up (S (length (bw_stack w))) r h None (bw_stack w);
         match child with
         | None => Some (r, None)
         | Some child =>
           '(r, new) ← raxRemoveChild r h child;
           r ← (if bool_decide (new = h) then Some r
                else
                  l ← match ts with [] => Some BHead | p :: _ => raxFindParentLink r p h end;
                  write_link r l new);
           n ← node r new;
           Some (r, if (b_size n =? 1) && negb (b_iskey n) then Some (new, ts) else None)
         end
       else if b_size n =? 1 then Some (r, Some (h, bw_stack w))
       else Some (r, None));
    r ← match todo with Some (h, ts) => recompress r h ts | None => Some r end;
    Some (r, 1, Some old).

(** ** The end of a tree *)

(** [while(numchildren--) { memcpy(&child,cp,sizeof(child)); …; cp--; }] *)
Fixpoint kids_down (n : bnode) (numchildren : nat) (cp : Z) : option (list positive) :=
  match numchildren with
  | O => Some []
  | S k => child ← get_node (b_mem n) cp; l ← kids_down n k (cp - 8); Some (child :: l)
  end.
(** The values given to the callback, in order. *)
Fixpoint free_nodes (fuel : nat) (r : brax) (p : positive) : option (brax * list Z) :=
  match fuel with
  | O => None
  | S fuel =>
    n ← node r p;
    let numchildren := if b_iscompr n then 1 else b_size n in
    children ← kids_down n (Z.to_nat numchildren) (raxNodeLastChildPtr n);
    '(r, freed) ← foldl (λ (acc : option (brax * list Z)) c, '(r, l) ← acc; '(r, l') ← free_nodes fuel r c; Some (r, l ++ l')) (Some (r, [])) children;
    value ← (if b_iskey n && negb (b_isnull n) then v ← raxGetData n; Some [v] else Some []);
    r ← rfree r p;
    Some (add_nodes r (-1), freed ++ value)
  end.
Definition raxFreeWithCallback (r : brax) : option (brax * list Z) :=
  '(r, freed) ← free_nodes (S (size (b_nodes r))) r (b_head r);
  if b_numnodes r =? 0 then Some (r, freed) else None.

Definition raxSize (r : brax) : Z := b_numele r.
End rax.
