(* ===== verification/RaxSim.v ===== *)
(** Radix trees: what the functions do on blocks is what they do on the nodes that the tree
    is proved on.  Whenever a function of Rax.v returns, the one of RaxBytes.v does, and the
    results are the same up to the blocks. *)
From stdpp Require Import gmap.
From S2P Require Import Prelude Rax RaxNode RaxBlock RaxRel RaxBytes.
#[local] Open Scope Z_scope.

(** ** Simulation *)

Definition sim {A B} (R : A → B → Prop) (x : option A) (y : option B) : Prop := ∀ b, y = Some b → ∃ a, x = Some a ∧ R a b.

Lemma sim_ret {A B} (R : A → B → Prop) a b : R a b → sim R (Some a) (Some b).
Proof. intros HR ? [= <-]. by exists a. Qed.
Lemma sim_none {A B} (R : A → B → Prop) x : sim R x None.
Proof. by intros ?. Qed.
Lemma sim_bind {A B C D} (R : A → B → Prop) (Q : C → D → Prop) x y f g : sim R x y → (∀ a b, y = Some b → R a b → sim Q (f a) (g b)) → sim Q (x ≫= f) (y ≫= g).
Proof. intros Hx Hf d Hd. destruct y as [b|] eqn:E; [|done]. destruct (Hx b eq_refl) as (a & -> & HR). by apply (Hf a b). Qed.
(** The same, with what the run on blocks returns. *)
Lemma sim_bind_run {A B C D} (R : A → B → Prop) (Q : C → D → Prop) x y f g : sim R x y → (∀ a b, x = Some a → y = Some b → R a b → sim Q (f a) (g b)) → sim Q (x ≫= f) (y ≫= g).
Proof. intros Hx Hf d Hd. destruct y as [b|] eqn:E; [|done]. destruct (Hx b eq_refl) as (a & Ha & HR). rewrite Ha. by apply (Hf a b). Qed.
Lemma sim_eq {A} (x : option A) : sim eq x x.
Proof. intros b ->. by exists b. Qed.
Lemma sim_impl {A B} (R R' : A → B → Prop) x y : sim R x y → (∀ a b, y = Some b → R a b → R' a b) → sim R' x y.
Proof. intros Hs Hi b Hb. destruct (Hs b Hb) as (a & ? & ?). exists a. eauto. Qed.

(** ** Trees *)

Record rrel (rb : brax) (r : rax) : Prop := {
  rel_head : b_head rb = head r;
  rel_numele : b_numele rb = numele r;
  rel_numnodes : b_numnodes rb = numnodes r;
  rel_nodes : map_Forall2 (λ _, brel) (b_nodes rb) (rnodes r) }.

Section sim.
Context `{RaxAlloc}.

Lemma rel_dom rb r : rrel rb r → dom (b_nodes rb) = dom (rnodes r).
Proof. intros Hr. eapply map_Forall2_dom_L, rel_nodes, Hr. Qed.
Lemma rel_size rb r : rrel rb r → size (b_nodes rb) = size (rnodes r).
Proof. intros Hr. by rewrite <- !size_dom, (rel_dom rb r Hr). Qed.
Lemma rel_malloc rb r : rrel rb r → rax_malloc (b_nodes rb) = rax_malloc (rnodes r).
Proof. intros Hr. unfold rax_malloc. by rewrite (rel_dom rb r Hr). Qed.
Lemma rel_realloc rb r p : rrel rb r → rax_realloc (b_nodes rb) p = rax_realloc (rnodes r) p.
Proof. intros Hr. unfold rax_realloc. by rewrite (rel_dom rb r Hr). Qed.

Lemma sim_node rb r p : rrel rb r → sim brel (node rb p) (rnode r p).
Proof. intros Hr n Hn. pose proof (rel_nodes _ _ Hr p) as Hp. unfold node, rnode in *. rewrite Hn in Hp. inversion Hp; subst. eauto. Qed.

Lemma rel_bput rb r p b n : rrel rb r → brel b n → rrel (bput rb p b) (rput r p n).
Proof. intros [] Hb. split; try done. by apply map_Forall2_insert_2. Qed.
Lemma rel_new rb r b n : rrel rb r → brel b n → ∃ rb', new rb b = (rb', (rnew r n).2) ∧ rrel rb' (rnew r n).1.
Proof. intros Hr Hb. unfold new, rnew. cbn. rewrite (rel_malloc rb r Hr). eexists. split; [done|]. by apply rel_bput. Qed.
Lemma rel_reserve rb r : rrel rb r → ∃ rb', reserve rb = (rb', (rnew r (Rax.raxNewNode 0)).2) ∧ rrel rb' (rnew r (Rax.raxNewNode 0)).1.
Proof. intros Hr. apply rel_new; [done|]. apply brel_new. Qed.
Lemma rel_move rb r p b n : rrel rb r → brel b n → ∃ rb', move rb p b = (rb', (rmove r p n).2) ∧ rrel rb' (rmove r p n).1.
Proof. intros Hr Hb. unfold move, rmove. cbn. rewrite (rel_realloc rb r p Hr). eexists. split; [done|]. destruct Hr. split; try done. apply map_Forall2_insert_2; [done|]. by apply map_Forall2_delete. Qed.
Lemma rel_add_nodes rb r k : rrel rb r → rrel (add_nodes rb k) (Rax.add_nodes r k).
Proof. intros []. split; try done. cbn. congruence. Qed.
Lemma rel_add_ele rb r k : rrel rb r → rrel (add_ele rb k) (Rax.add_ele r k).
Proof. intros []. split; try done. cbn. congruence. Qed.
Lemma sim_free rb r p : rrel rb r → sim rrel (rfree rb p) (Rax.rfree r p).
Proof.
  intros Hr. unfold rfree, Rax.rfree. eapply sim_bind; [by apply sim_node|]. intros _ _ _ _. apply sim_ret. destruct Hr. split; try done. by apply map_Forall2_delete.
Qed.

(** ** Links *)

Definition kid_off (n : raxNode) (j : nat) : Z := 4 + nsize n + raxPadding (nsize n) + 8 * Z.of_nat j.
Lemma first_off b n j : brel b n → raxNodeFirstChildPtr b + 8 * Z.of_nat j = kid_off n j.
Proof. intros Hb. unfold raxNodeFirstChildPtr, kid_off. by rewrite (brel_size b n Hb). Qed.

(** The offset is where the block of the node has that pointer. *)
Definition lrel (r : rax) (lb : blink) (l : link) : Prop :=
  match lb, l with
  | BHead, LHead => True
  | BCell p off, LKid p' j => p = p' ∧ ∃ n, rnodes r !! p' = Some n ∧ off = kid_off n j
  | _, _ => False
  end.

(** It stays so when the node of the link keeps its size. *)
Definition same_size (r r' : rax) (p : positive) : Prop := ∀ n, rnodes r !! p = Some n → ∃ n', rnodes r' !! p = Some n' ∧ nsize n' = nsize n ∧ iscompr n' = iscompr n.
Definition link_kept (r r' : rax) (l : link) : Prop := match l with LHead => True | LKid p _ => same_size r r' p end.
Lemma lrel_kept r r' lb l : lrel r lb l → link_kept r r' l → lrel r' lb l.
Proof. destruct lb, l; try done. intros (-> & n & Hn & ->) Hk. split; [done|]. destruct (Hk n Hn) as (n' & Hn' & Hs & _). exists n'. split; [done|]. unfold kid_off. by rewrite Hs. Qed.

Lemma sim_write_link rb r lb l q : rrel rb r → lrel r lb l → sim rrel (write_link rb lb q) (Rax.write_link r l q).
Proof.
  intros Hr Hl. destruct lb as [|p off], l as [|p' j]; try done; cbn [write_link Rax.write_link].
  - apply sim_ret. destruct Hr. by split.
  - destruct Hl as (-> & n & Hn & ->). eapply sim_bind; [by apply sim_node|]. intros b n0 Hn0 Hb. change (rnodes r !! p' = Some n0) in Hn0. simplify_eq. intros r' Hr'. destruct (set_kid n j q) as [n'|] eqn:E; [|done]. injection Hr' as <-.
    destruct (brel_set_kid b n n' j q (kid_off n j) Hb E) as (b' & -> & Hb' & _); [symmetry; by apply first_off|]. mnext. eexists. split; [done|]. by apply rel_bput.
Qed.
(** Writing a link keeps the size of every node. *)
Lemma write_link_size r l q r' p : Rax.write_link r l q = Some r' → same_size r r' p.
Proof.
  destruct l as [|p' j]; cbn [Rax.write_link]; [intros [= <-] n Hn; by exists n|]. unfold rnode. destruct (rnodes r !! p') as [n|] eqn:Hn; [|done]. cbn. unfold set_kid. case_bool_decide; [|done]. intros [= <-] m Hm. cbn [rnodes rput Rax.set_nodes].
  destruct (decide (p' = p)) as [->|Hne]; [rewrite lookup_insert_eq|rewrite lookup_insert_ne by done; by exists m]. simplify_eq. by eexists.
Qed.

(** The link is not in the block of the node. *)
Definition link_off (l : link) (h : positive) : Prop := match l with LHead => True | LKid p _ => p ≠ h end.
Lemma new_kept r n l : link_kept r (rnew r n).1 l.
Proof. destruct l as [|p j]; [done|]. intros m Hm. exists m. split; [|done]. cbn. rewrite lookup_insert_ne; [done|]. intros E. pose proof (rax_malloc_fresh (rnodes r)) as Hf. by rewrite E, Hm in Hf. Qed.
Lemma put_kept r p n l : link_off l p → link_kept r (rput r p n) l.
Proof. destruct l as [|p' j]; [done|]. intros Hne m Hm. exists m. split; [|done]. cbn. by rewrite lookup_insert_ne. Qed.
Lemma move_kept r p n l : link_off l p → link_kept r (rmove r p n).1 l.
Proof.
  destruct l as [|p' j]; [done|]. intros Hne m Hm. exists m. split; [|done]. cbn in *. rewrite lookup_insert_ne, lookup_delete_ne; [done|done|].
  intros E. destruct (rax_realloc_fresh (rnodes r) p) as [E'|E']; [congruence|]. by rewrite E, Hm in E'.
Qed.
Lemma kept_trans r1 r2 r3 l : link_kept r1 r2 l → link_kept r2 r3 l → link_kept r1 r3 l.
Proof. destruct l as [|p j]; [done|]. intros H1 H2 n Hn. destruct (H1 n Hn) as (n2 & Hn2 & E2 & C2). destruct (H2 n2 Hn2) as (n3 & Hn3 & E3 & C3). exists n3. split; [done|]. split; congruence. Qed.

(** ** Walking *)

Record wrel (r : rax) (wb : bwalk) (w : walk) : Prop := {
  wrel_i : bw_i wb = w_i w; wrel_stop : bw_stop wb = w_stop w; wrel_split : bw_split wb = w_split w; wrel_stack : bw_stack wb = w_stack w;
  wrel_link : lrel r (bw_link wb) (w_link w) }.

Lemma sim_walk_loop rb r s fuel : rrel rb r → ∀ h lb l i ts, lrel r lb l → sim (wrel r) (walk_loop fuel rb s h lb i ts) (Rax.walk_loop fuel r s h l i ts).
Proof.
  intros Hr. induction fuel as [|fuel IH]; intros h lb l i ts Hl; cbn [walk_loop Rax.walk_loop]; [apply sim_none|]. eapply sim_bind; [by apply sim_node|]. intros b n Hn Hb. cbv zeta. rewrite (brel_size _ _ Hb), (brel_data _ _ Hb). pose proof (first_off b n 0 Hb) as H0. rewrite Z.add_0_r in H0.
  pose proof Hb as (_ & _ & -> & _). assert (Hstop : ∀ i j, sim (wrel r) (Some (mk_bwalk i h lb (if iscompr n then j else 0) ts)) (Some (mk_walk i h l (if iscompr n then j else 0) ts))) by (intros; by apply sim_ret).
  case_if; [apply Hstop|]. mnext. destruct (iscompr n) eqn:Hc.
  - case_if; [apply Hstop|]. eapply sim_bind; [intros c Hk; exists c; split; [|exact eq_refl]; rewrite <- (Z.add_0_r (raxNodeFirstChildPtr b)); by apply (brel_kid b n 0)|]. intros c' c _ ->. apply IH. cbn. split; [done|]. by exists n.
  - eapply sim_bind; [apply sim_eq|]. intros c' c _ ->. case_if; [apply (Hstop _ 0)|]. eapply sim_bind; [intros k Hk; exists k; split; [|exact eq_refl]; by apply (brel_kid b n)|]. intros k' k _ ->. apply IH. cbn. split; [done|]. exists n. split; [done|]. by apply first_off.
Qed.
Lemma sim_walk rb r s : rrel rb r → sim (wrel r) (raxLowWalk rb s) (Rax.raxLowWalk r s).
Proof. intros Hr. unfold raxLowWalk, Rax.raxLowWalk. rewrite (rel_head _ _ Hr). by apply sim_walk_loop. Qed.

Lemma sim_find rb r s : rrel rb r → sim eq (raxFind rb s) (Rax.raxFind r s).
Proof.
  intros Hr. unfold raxFind, Rax.raxFind. eapply sim_bind; [by apply sim_walk|]. intros wb w _ [-> -> -> _ _]. eapply sim_bind; [by apply sim_node|]. intros b n _ Hb. pose proof Hb as (-> & _ & -> & _).
  case_if; [by apply sim_ret|]. to_prop. rewrite (brel_value b n) by (done || by destruct (iskey n)). mnext. by apply sim_ret.
Qed.

(** ** Insertion *)

(** There is room for a value in the block. *)
Definition has_room (rb : brax) (p : positive) : Prop := ∃ b, node rb p = Some b ∧ raxNodeCurrentLength b + 8 <= len (b_mem b).

Lemma brel_room_of b n k : brel b n → raxNodeCurrentLength b + k <= len (b_mem b) → brel_room k b n.
Proof. intros (? & ? & ? & h & pad & z & L & _) Hk. split_and!; [done..|]. exists h, pad, z. split; [done|]. rewrite (length_layout _ _ _ _ _ _ _ L) in Hk. lia. Qed.
Lemma write_link_room rb lb q rb' p : write_link rb lb q = Some rb' → has_room rb p → has_room rb' p.
Proof.
  destruct lb as [|p' off]; cbn [write_link]; [intros [= <-] (b & ? & ?); by exists b|]. unfold node. destruct (b_nodes rb !! p') as [b|] eqn:E; [|done]. cbn. unfold put_child. destruct (put_ptr _ _ _) as [m|] eqn:Em; [|done]. intros [= <-] (b0 & Hb0 & Hl). unfold has_room, node in *. cbn.
  destruct (decide (p' = p)) as [->|Hne]; [rewrite lookup_insert_eq|rewrite lookup_insert_ne by done; by exists b0]. simplify_eq. eexists. split; [done|]. cbn [b_mem set_mem]. unfold put_ptr in Em. apply length_store in Em. change (raxNodeCurrentLength (set_mem b m)) with (raxNodeCurrentLength b). lia.
Qed.

Lemma sim_set_value b n data : brel b n → (data ≠ 0 → stored n = true ∨ raxNodeCurrentLength b + 8 <= len (b_mem b)) → ∃ b', raxSetData b data = Some b' ∧ brel b' (Rax.raxSetData n data).
Proof.
  intros Hb Hroom. destruct (decide (data = 0)) as [->|Hd]; [apply (brel_set_value 0); [done|lia]|]. destruct (Hroom Hd) as [Hs|Hl]; [apply (brel_set_value 0); [done|by left]|]. apply (brel_set_value 8); [by apply brel_room_of|lia].
Qed.

Definition realloc_rel (data : Z) (r0 : rax) (p0 : positive) : brax * positive → rax * positive → Prop :=
  λ '(rb', pb) '(r', p), pb = p ∧ rrel rb' r' ∧ (data ≠ 0 → has_room rb' p) ∧ ∀ l, link_off l p0 → link_kept r0 r' l.
Lemma sim_realloc rb r p data : rrel rb r → sim (realloc_rel data r p) (raxReallocForData rb p data) (Rax.raxReallocForData r p data).
Proof.
  intros Hr. unfold raxReallocForData, Rax.raxReallocForData. destruct (data =? 0) eqn:E; to_prop.
  - apply sim_ret. split_and!; try done. intros [|p' j] _; [done|]. intros n Hn. by exists n.
  - eapply sim_bind; [by apply sim_node|]. intros b n Hn Hb. apply sim_ret. pose proof (brel_resize b n 8 Hb ltac:(lia)) as Hb8. destruct (rel_move rb r p _ n Hr (brel_weaken _ _ _ Hb8)) as (rb' & E1 & Hr'). rewrite E1. destruct (rmove r p n) as [r' q] eqn:E2. cbn [fst snd] in *. split_and!; try done.
    + intros _. unfold move in E1. injection E1 as <- <-. eexists. split; [unfold node; cbn; apply lookup_insert_eq|]. destruct Hb8 as (_ & _ & _ & h & pad & z & L & Hz). rewrite (length_layout _ _ _ _ _ _ _ L). lia.
    + intros l Hl. pose proof (move_kept r p n l Hl) as Hk. by rewrite E2 in Hk.
Qed.

(** A new child, and the node at its address after the reallocation. *)
Definition grown_rel (r0 : rax) (p0 : positive) : brax * positive * positive * blink → rax * positive * positive * link → Prop :=
  λ '(rb', pb, cb, lb) '(r', p, c, l), pb = p ∧ cb = c ∧ rrel rb' r' ∧ lrel r' lb l ∧ link_off l c ∧ ∀ l0, link_off l0 p0 → link_kept r0 r' l0.

Lemma grown rb r p n0 b n off j : rrel rb r → rnode r p = Some n0 → brel b n → off = kid_off n j →
  ∃ rb1 rb2 q c r1 r2, new rb (raxNewNode 0 false) = (rb1, c) ∧ rnew r (Rax.raxNewNode 0) = (r1, c) ∧
    move rb1 p b = (rb2, q) ∧ rmove r1 p n = (r2, q) ∧ grown_rel r p (rb2, q, c, BCell q off) (r2, q, c, LKid q j).
Proof.
  intros Hr Hp Hb ->. destruct (rel_new rb r _ _ Hr brel_new) as (rb1 & E1 & Hr1). pose proof (λ l, new_kept r (Rax.raxNewNode 0) l) as Hk1. destruct (rnew r (Rax.raxNewNode 0)) as [r1 c] eqn:E2. cbn [fst snd] in *.
  destruct (rel_move rb1 r1 p b n Hr1 Hb) as (rb2 & E3 & Hr2). pose proof (λ l, move_kept r1 p n l) as Hk2. destruct (rmove r1 p n) as [r2 q] eqn:E4. cbn [fst snd] in *. exists rb1, rb2, q, c, r1, r2. split_and!; try done.
  assert (Hpc : p ≠ c) by (intros ->; unfold rnew in E2; injection E2 as _ E; unfold rnode in Hp; by rewrite <- E, rax_malloc_fresh in Hp).
  split_and!; try done; [..|intros l0 Hl0; eapply kept_trans; [apply Hk1|by apply Hk2]].
  - cbn. split; [done|]. exists n. split; [|done]. unfold rmove in E4. injection E4 as <- <-. cbn. by apply lookup_insert_eq.
  - cbn. unfold rmove in E4. injection E4 as _ <-. destruct (rax_realloc_fresh (rnodes r1) p) as [-> |Hf]; [done|]. intros E. unfold rnew in E2. injection E2 as <- E'. rewrite E, E' in Hf. cbn in Hf. by rewrite lookup_insert_eq in Hf.
Qed.

Lemma sim_add_child rb r p c : rrel rb r → sim (grown_rel r p) (raxAddChild rb p c) (Rax.raxAddChild r p c).
Proof.
  intros Hr. unfold raxAddChild, Rax.raxAddChild. eapply sim_bind; [by apply sim_node|]. intros b n Hn Hb. pose proof Hb as (_ & _ & Hc & _). rewrite Hc. destruct (iscompr n) eqn:Hcp; [apply sim_none|].
  set (child := (rnew r (Rax.raxNewNode 0)).2). destruct (brel_add_child b n c child Hb Hcp) as (b' & off & Ea & Hoff & Hb'). rewrite (first_off _ _ _ Hb') in Hoff.
  destruct (grown rb r p n b' _ off _ Hr Hn Hb' Hoff) as (rb1 & rb2 & q & c' & r1 & r2 & E1 & E2 & E3 & E4 & Hg). assert (E : child = c') by (unfold child; by rewrite E2). rewrite E1, E2. subst c'. rewrite Ea. mnext. rewrite E3. rewrite Hcp in E4. rewrite E4. by apply sim_ret.
Qed.

Definition compressed_rel (r0 : rax) (p0 : positive) : brax * positive * positive → rax * positive * positive → Prop :=
  λ '(rb', pb, cb) '(r', p, c), ∃ n, rnodes r' !! p = Some n ∧ iscompr n = true ∧ grown_rel r0 p0 (rb', pb, cb, BCell p (kid_off n 0)) (r', p, c, LKid p 0).
Lemma sim_compress rb r p s : rrel rb r → sim (compressed_rel r p) (raxCompressNode rb p s) (Rax.raxCompressNode r p s).
Proof.
  intros Hr. unfold raxCompressNode, Rax.raxCompressNode. eapply sim_bind; [by apply sim_node|]. intros b n Hn Hb. pose proof Hb as (_ & _ & Hc & _). rewrite Hc, (brel_size _ _ Hb). replace (negb ((nsize n =? 0) && negb (iscompr n))) with (negb (nsize n =? 0) || iscompr n) by (by destruct (nsize n =? 0), (iscompr n)).
  destruct (negb _ || _) eqn:E; [apply sim_none|]. apply orb_false_iff in E as [E0 Hcp]. to_prop. assert (Hnil : ndata n = []) by (unfold nsize in E0; destruct (ndata n); [done|cbn in E0; lia]).
  set (child := (rnew r (Rax.raxNewNode 0)).2). destruct (brel_compress b n s child Hb Hcp Hnil) as (b' & Ea & Hb'). cbv zeta in Hb'.
  destruct (grown rb r p n b' _ _ 0 Hr Hn Hb' eq_refl) as (rb1 & rb2 & q & c' & r1 & r2 & E1 & E2 & E3 & E4 & Hg). assert (E : child = c') by (unfold child; by rewrite E2). rewrite E1, E2. subst c'. rewrite Ea. mnext. rewrite E3. destruct (iskey n); rewrite E4; apply sim_ret; (eexists; split; [unfold rmove in E4; injection E4 as <- <-; cbn; apply lookup_insert_eq|]); split; try done.
  unfold Rax.raxSetData. by case_if.
Qed.

Definition leaf_rel : brax * positive * blink → rax * positive * link → Prop :=
  λ '(rb, hb, lb) '(r, h, l), hb = h ∧ rrel rb r ∧ lrel r lb l ∧ link_off l h.
Lemma sim_insert_loop s fuel : ∀ rb r i h lb l, rrel rb r → lrel r lb l → link_off l h → sim leaf_rel (insert_loop fuel rb s i h lb) (Rax.insert_loop fuel r s i h l).
Proof.
  induction fuel as [|fuel IH]; intros rb r i h lb l Hr Hl Ho; cbn [insert_loop Rax.insert_loop]; (destruct (i <? len s); [|by apply sim_ret]); [apply sim_none|].
  eapply sim_bind; [by apply sim_node|]. intros b n Hn Hb. rewrite (brel_size _ _ Hb). destruct (_ && _).
  - eapply sim_bind; [by apply sim_compress|]. intros [[rb1 h1] c1] [[r1 h2] c2] _ (n1 & Hn1 & Hc1 & -> & -> & Hr1 & Hl1 & Ho1 & Hk). eapply sim_bind; [apply sim_write_link; [done|eapply lrel_kept; [done|by apply Hk]]|]. intros rb2 r2 Hw Hr2.
    eapply sim_bind; [by apply sim_node|]. intros b2 n2 Hn2 Hb2. apply IH; [by apply rel_add_nodes| |done]. cbn. split; [done|]. exists n2. split; [done|].
    destruct (write_link_size _ _ _ _ h2 Hw n1 Hn1) as (n2' & Hn2' & _ & Hc2). change (rnodes r2 !! h2 = Some n2) in Hn2. simplify_eq. rewrite (last_offset b2 n2 Hb2); [by apply first_off|]. intros E. pose proof (brel_kids _ _ Hb2) as Hlk. rewrite E, Hc2, Hc1 in Hlk. done.
  - eapply sim_bind; [apply sim_eq|]. intros c' c _ ->. eapply sim_bind; [by apply sim_add_child|]. intros [[[rb1 h1] c1] l1] [[[r1 h2] c2] l2] _ (-> & -> & Hr1 & Hl1 & Ho1 & Hk). eapply sim_bind; [apply sim_write_link; [done|eapply lrel_kept; [done|by apply Hk]]|]. intros rb2 r2 Hw Hr2.
    apply IH; [by apply rel_add_nodes| |done]. eapply (lrel_kept r1); [done|]. destruct l2 as [|p2 j2]; [done|]. exact (write_link_size _ _ _ _ p2 Hw).
Qed.
End sim.
