(* ===== verification/RaxSimInsert.v ===== *)
(** Radix trees: the insertion of a key on blocks. *)
From stdpp Require Import gmap.
From S2P Require Import Prelude Rax RaxNode RaxBlock RaxRel RaxBytes RaxSim.
#[local] Open Scope Z_scope.

Section sim.
Context `{RaxAlloc}.

(** ** Allocating *)

Definition alive (r : rax) (p : positive) : Prop := is_Some (rnodes r !! p).
Lemma alive_off r p l : rnodes r !! p = None → (∀ q j, l = LKid q j → alive r q) → link_off l p.
Proof. intros Hp Hl. destruct l as [|q j]; [done|]. intros ->. destruct (Hl p j eq_refl) as [n Hn]. congruence. Qed.
Lemma lrel_alive r lb l : lrel r lb l → ∀ q j, l = LKid q j → alive r q.
Proof. intros Hl q j ->. destruct lb; [done|]. destruct Hl as (_ & n & Hn & _). by exists n. Qed.
Lemma kept_same r l : link_kept r r l.
Proof. destruct l; [done|]. intros n Hn. by exists n. Qed.

(** An allocation that is made when it is needed. *)
Lemma rel_reserve_if (c : bool) rb r x : rrel rb r →
  ∃ rb' r' p, (if c then (rb, x) else reserve rb) = (rb', p) ∧ (if c then (r, x) else rnew r (Rax.raxNewNode 0)) = (r', p) ∧ rrel rb' r' ∧
    (∀ l, link_kept r r' l) ∧ (∀ q, alive r q → alive r' q) ∧ (if c then p = x else rnodes r !! p = None ∧ alive r' p).
Proof.
  intros Hr. destruct c; [exists rb, r, x; split_and!; try done; intros; apply kept_same|]. destruct (rel_reserve rb r Hr) as (rb' & E & Hr'). pose proof (λ l, new_kept r (Rax.raxNewNode 0) l) as Hk.
  exists rb', (rnew r (Rax.raxNewNode 0)).1, (rnew r (Rax.raxNewNode 0)).2. split_and!; try done.
  - intros q [n Hn]. unfold alive. cbn. destruct (decide (rax_malloc (rnodes r) = q)) as [->|Hne]; [rewrite lookup_insert_eq|rewrite lookup_insert_ne by done]; eauto.
  - apply rax_malloc_fresh.
  - unfold alive. cbn. rewrite lookup_insert_eq. eauto.
Qed.

Lemma free_kept r p r' l : Rax.rfree r p = Some r' → link_off l p → link_kept r r' l.
Proof.
  unfold Rax.rfree, rnode. destruct (rnodes r !! p); [|done]. intros [= <-] Hl. destruct l as [|q j]; [done|]. intros n Hn. exists n. split; [|done]. cbn in *. by rewrite lookup_delete_ne.
Qed.
Lemma write_kept r l0 q r' l : Rax.write_link r l0 q = Some r' → link_kept r r' l.
Proof. intros Hw. destruct l as [|p j]; [done|]. exact (write_link_size _ _ _ _ p Hw). Qed.

Lemma raw_length nodesize : 0 <= nodesize → len (b_mem (raw_block nodesize)) = nodesize.
Proof. intros. unfold raw_block. destruct raw_header as [[[? ?] ?] ?]. cbn [b_mem]. rewrite length_replicate. lia. Qed.

(** ** Splitting a node *)

(** The value that the old node has, and where there is room for it. *)
Definition value_of (c : bool) (n : raxNode) : option Z := if c then Some (Rax.raxGetData n) else None.
Lemma sim_value_of b n : brel b n → (if b_iskey b then v ← raxGetData b; Some (Some v) else Some None) = Some (value_of (iskey n) n).
Proof. intros Hb. pose proof Hb as (-> & _). unfold value_of. destruct (iskey n) eqn:E; [|done]. by rewrite (brel_value b n). Qed.
Lemma sim_stored_of b n : brel b n → (if has_value b then v ← raxGetData b; Some (Some v) else Some None) = Some (value_of (stored n) n).
Proof. intros Hb. rewrite (brel_has_value b n Hb). unfold value_of. destruct (stored n) eqn:E; [|done]. rewrite (brel_value b n); [done|done|]. unfold stored in E. by destruct (iskey n). Qed.

Definition value_room (data : option Z) : Z := match data with Some data => if data =? 0 then 0 else 8 | None => 0 end.
Lemma value_room_le c n (v : bool) : (c = true → iskey n = true) → (c = true → stored n = true → v = true) → value_room (value_of c n) <= if v then 8 else 0.
Proof.
  intros Hc Hv. unfold value_of, value_room. destruct c; [|destruct v; lia]. unfold Rax.raxGetData, stored in *. rewrite (Hc eq_refl) in Hv. destruct (isnull n); cbn in *; [destruct v; lia|]. rewrite Hv by done. case_if; lia.
Qed.

Lemma sim_fill k nul compr s data q (v : bool) size : size = len s → compr = (len s >? 1) → 1 <= len s → value_room data <= (if v then 8 else 0) → (data = None → k && negb nul = false) →
  ∃ b, fill_node (raw_block (one_child_size size v)) k nul compr s data q = Some b ∧ brel b (filled k nul compr s data q).
Proof.
  intros -> -> Hs Hv Hk. pose proof (padding_bounds (len s)). apply brel_fill; [destruct (len s >? 1) eqn:E; to_prop; [by left|right; lia]| |done]. fold (value_room data). rewrite raw_length; unfold one_child_size; destruct v; lia.
Qed.

Lemma sim_last b n : brel b n → sim eq (last_child b) (Rax.last_child n).
Proof. intros Hb c Hc. exists c. split; [|done]. by eapply brel_last. Qed.

Lemma sim_split_key rb r h lb l j data : rrel rb r → lrel r lb l → (∀ n, rnode r h = Some n → 0 < j < nsize n) → sim rrel (split_key rb h lb j data) (Rax.split_key r h l j data).
Proof.
  intros Hr Hl Hj. unfold split_key, Rax.split_key. eapply sim_bind; [by apply sim_node|]. intros b n Hn Hb. specialize (Hj n Hn). rewrite (brel_data _ _ Hb), (brel_size _ _ Hb). mnext.
  destruct (rel_reserve_if false rb r xH Hr) as (rb1 & r1 & post & E1 & E2 & Hr1 & Hk1 & Ha1 & Hf1 & _). cbn in E1, E2. rewrite E1, E2. destruct (rel_reserve_if false rb1 r1 xH Hr1) as (rb2 & r2 & trim & E3 & E4 & Hr2 & Hk2 & Ha2 & Hf2 & _). cbn in E3, E4. rewrite E3, E4. clear E1 E2 E3 E4.
  eapply sim_bind; [by apply sim_last|]. intros next' next _ ->. unfold nsize in *.
  destruct (sim_fill true false (len (ndata n) - j >? 1) (drop (Z.to_nat j) (ndata n)) (Some data) next (negb (data =? 0)) (len (ndata n) - j)) as (bp & -> & Hbp); [len_lia|f_equal; len_lia|len_lia|unfold value_room; case_if; cbn; lia|done|]. mnext.
  eapply sim_bind; [apply sim_write_link; [apply rel_add_nodes, rel_bput; [exact Hr2|exact Hbp]|]|].
  - eapply lrel_kept; [exact Hl|]. eapply kept_trans; [apply Hk1|]. eapply kept_trans; [apply Hk2|]. apply (put_kept r2), (alive_off r); [done|by eapply lrel_alive].
  - intros rb3 r3 Hw Hr3. rewrite (sim_value_of b n Hb). mnext. destruct (sim_fill false false (j >? 1) (take (Z.to_nat j) (ndata n)) (value_of (iskey n) n) post (has_value b) j) as (bt & -> & Hbt); [len_lia|f_equal; len_lia|len_lia|by apply value_room_le; [|rewrite (brel_has_value b n Hb)]|done|]. mnext.
    apply sim_free, rel_add_ele, rel_bput; [done|]. unfold filled, value_of in Hbt. by destruct (iskey n).
Qed.

Lemma filled_kids k nul compr s data q : kids (filled k nul compr s data q) = [q].
Proof. unfold filled. destruct data as [d|]; [|done]. unfold Rax.raxSetData. by case_if. Qed.

(** The split node, whose child is set last. *)
Lemma sim_split_block c (v : bool) data q : value_room data <= (if v then 8 else 0) →
  ∃ s1 s2 s3, put_data (raxNewNode 1 v) 0 [c] = Some s1 ∧ match data with Some data => raxSetData s1 data | None => Some s1 end = Some s2 ∧ put_last_child s2 q = Some s3 ∧ brel s3 (filled false false false [c] data q).
Proof.
  intros Hv. destruct (brel_fill (raxNewNode 1 v) false false false [c] data q) as (s3 & E & Hb); [by right| |done|].
  - unfold raxNewNode. cbn [put_header b_mem]. pose proof (padding_bounds 1). fold (value_room data). rewrite raw_length by (destruct v; lia). change (len [c]) with 1. destruct v; lia.
  - unfold fill_node in E. change (put_header (raxNewNode 1 v) false false false (len [c])) with (raxNewNode 1 v) in E. destruct (put_data _ 0 [c]) as [s1|]; [|done]. rewrite some_bind in E. destruct (match data with Some _ => _ | None => _ end) as [s2|] eqn:E2; [|done]. exists s1, s2, s3. by split_and!.
Qed.

Lemma sim_split_mismatch rb r h lb l j : rrel rb r → lrel r lb l → link_off l h → 0 <= j → sim leaf_rel (split_mismatch rb h lb j) (Rax.split_mismatch r h l j).
Proof.
  intros Hr Hl Ho Hj. unfold split_mismatch, Rax.split_mismatch. eapply sim_bind; [by apply sim_node|]. intros b n Hn Hb. rewrite (brel_data _ _ Hb), (brel_size _ _ Hb). eapply sim_bind; [by apply sim_last|]. intros next' next _ ->. mnext. destruct (ndata n !! Z.to_nat j) as [c|] eqn:Hc; [mnext|apply sim_none]. pose proof (lookup_lt_Some _ _ _ Hc) as Hlt. cbv zeta.
  destruct (rel_reserve_if false rb r xH Hr) as (rb1 & r1 & sp & E1 & E2 & Hr1 & Hk1 & Ha1 & Hf1 & Hs1). cbn in E1, E2. rewrite E1, E2. clear E1 E2. destruct (rel_reserve_if (j =? 0) rb1 r1 xH Hr1) as (rb2 & r2 & trim & E3 & E4 & Hr2 & Hk2 & Ha2 & Hf2). rewrite E3, E4. clear E3 E4.
  destruct (rel_reserve_if (nsize n - j - 1 =? 0) rb2 r2 next Hr2) as (rb3 & r3 & post & E5 & E6 & Hr3 & Hk3 & Ha3 & Hf3). rewrite E5, E6. clear E5 E6. mnext.
  set (sdata := if j =? 0 then value_of (iskey n) n else None). destruct (sim_split_block c ((j =? 0) && has_value b) sdata post) as (s1 & s2 & s3 & -> & E2 & E3 & Hs3).
  { unfold sdata. destruct (j =? 0); [|done]. cbn. by apply value_room_le; [|rewrite (brel_has_value b n Hb)]. }
  mnext. assert (Hal : ∀ q j', l = LKid q j' → alive r q) by (by eapply lrel_alive). assert (Hhr : alive r h) by (by exists n). assert (Hkl : link_kept r r3 l) by (eapply kept_trans; [apply Hk1|]; eapply kept_trans; [apply Hk2|apply Hk3]).
  assert (Hlnew : ∀ l', l' = l ∨ j ≠ 0 ∧ l' = LKid trim 0 → link_off l' sp ∧ link_off l' h ∧ (nsize n - j - 1 ≠ 0 → link_off l' post)).
  { intros l' [->|[Hj0 ->]].
    - split_and!; [by eapply alive_off|done|]. intros Hp0. apply Z.eqb_neq in Hp0. rewrite Hp0 in Hf3. destruct Hf3 as [Hf3 _]. eapply alive_off; [done|]. eauto.
    - apply Z.eqb_neq in Hj0. rewrite Hj0 in Hf2. destruct Hf2 as [Hf2 Hs2]. cbn. split_and!.
      + intros ->. destruct Hs1. congruence.
      + intros ->. destruct (Ha1 _ Hhr). congruence.
      + intros Hp0 ->. apply Z.eqb_neq in Hp0. rewrite Hp0 in Hf3. destruct Hf3 as [Hf3 _], Hs2. congruence. }
  eapply (sim_bind (λ '(rb', split, lb') '(r', rsplit, l'), split = s2 ∧ mk_rnode (iskey rsplit) (isnull rsplit) (iscompr rsplit) (ndata rsplit) [post] (value rsplit) = filled false false false [c] sdata post ∧ rrel rb' r' ∧ lrel r' lb' l' ∧ (l' = l ∨ j ≠ 0 ∧ l' = LKid trim 0))).
  - destruct (j =? 0) eqn:Ej; to_prop.
    + intros x Hx. destruct (Rax.write_link r3 l sp) as [r4|] eqn:Hw; [|done]. injection Hx as <-. destruct (sim_write_link rb3 r3 lb l sp Hr3 (lrel_kept _ _ _ _ Hl Hkl) r4 Hw) as (rb4 & -> & Hr4).
      exists (rb4, s2, lb). split; [|split_and!; try done; [|by eapply lrel_kept, write_kept, Hw; eapply lrel_kept|by left]].
      * pose proof Hb as (-> & _). unfold sdata, value_of in E2. destruct (iskey n) eqn:Ek; [rewrite (brel_value b n) by done; mnext; by rewrite E2|by injection E2 as ->].
      * unfold sdata, value_of, filled. destruct (iskey n); [|done]. unfold Rax.raxSetData. by case_if.
    + rewrite (sim_stored_of b n Hb). mnext. pose proof Hb as (-> & -> & _). destruct (sim_fill (iskey n) (isnull n) (j >? 1) (take (Z.to_nat j) (ndata n)) (value_of (stored n) n) sp (has_value b) j) as (bt & -> & Hbt); [len_lia|f_equal; len_lia|len_lia| | |mnext].
      * apply value_room_le; [unfold stored; by destruct (iskey n)|by rewrite (brel_has_value b n Hb)].
      * unfold value_of, stored. by destruct (iskey n && negb (isnull n)).
      * set (t := filled _ _ _ _ _ sp) in Hbt. match goal with |- context [rput r3 trim ?x] => replace x with t by (unfold t, filled, value_of, stored; by destruct (iskey n && negb (isnull n))) end.
        eapply sim_bind; [apply sim_write_link; [by apply rel_bput|]|].
        -- eapply lrel_kept; [exact Hl|]. eapply kept_trans; [exact Hkl|]. apply put_kept. apply (alive_off r1); [apply Hf2|eauto].
        -- intros rb4 r4 Hw Hr4. apply sim_ret. injection E2 as ->. split_and!; try done; [by apply rel_add_nodes| |by right].
           destruct (write_link_size _ _ _ _ trim Hw t) as (t' & Ht' & Hts & _); [apply lookup_insert_eq|]. assert (Hkt : kids t = [sp]) by apply filled_kids. cbn. split; [done|]. exists t'. split; [done|]. rewrite (last_offset bt t Hbt), (first_off bt t _ Hbt); unfold kid_off; [|by rewrite Hkt]. rewrite Hts. unfold last_link. by rewrite Hkt.
  - intros [[rb4 split] lb4] [[r4 rsplit] l4] _ (-> & Hsp & Hr4 & Hl4 & Hll). destruct (Hlnew l4 Hll) as (Hosp & Hoh & Hopost).
    match goal with |- sim _ (?x ≫= _) (_ ≫= _) => assert (∃ rb5, x = Some rb5 ∧ ∃ r5, r5 = (if nsize n - j - 1 =? 0 then r4 else Rax.add_nodes (rput r4 post (mk_rnode false false (nsize n - j - 1 >? 1) (drop (Z.to_nat (j + 1)) (ndata n)) [next] 0)) 1) ∧ rrel rb5 r5 ∧ lrel r5 lb4 l4) as (rb5 & -> & r5 & <- & Hr5 & Hl5) end.
    + destruct (nsize n - j - 1 =? 0) eqn:Ep; to_prop; [by exists rb4; split; [|exists r4]|]. unfold nsize in *.
      destruct (sim_fill false false (len (ndata n) - j - 1 >? 1) (drop (Z.to_nat (j + 1)) (ndata n)) None next false (len (ndata n) - j - 1)) as (bp & -> & Hbp); [len_lia|f_equal; len_lia|len_lia|done|done|]. mnext. eexists. split; [done|]. eexists. split; [done|]. split; [by apply rel_add_nodes, rel_bput|]. eapply lrel_kept; [done|]. by apply (put_kept r4), Hopost.
    + mnext. rewrite E3. mnext. rewrite Hsp. eapply sim_bind; [apply sim_free, rel_bput; [exact Hr5|exact Hs3]|]. intros rb6 r6 Hfree Hr6. apply sim_ret. split_and!; try done. eapply lrel_kept; [exact Hl5|]. exact (kept_trans _ _ _ _ (put_kept r5 sp _ _ Hosp) (free_kept _ _ _ _ Hfree Hoh)).
Qed.

(** ** Inserting a key *)

Lemma room_node rb p b (P Q : Prop) : node rb p = Some b → (P → Q ∨ has_room rb p) → P → Q ∨ raxNodeCurrentLength b + 8 <= len (b_mem b).
Proof. intros Hb Hr HP. destruct (Hr HP) as [?|(b' & Hb' & ?)]; [by left|right]. congruence. Qed.

Lemma common_le v s : (common v s <= length v)%nat.
Proof. revert s. induction v as [|x v IH]; intros [|y s]; cbn; try lia. case_if; [|lia]. specialize (IH s). lia. Qed.
(** Where a walk stops in a compressed node. *)
Lemma walk_split r s fuel : ∀ h l i ts w, Rax.walk_loop fuel r s h l i ts = Some w → ∃ n, rnode r (w_stop w) = Some n ∧ 0 <= w_split w ∧ (w_split w = 0 ∨ w_split w < nsize n).
Proof.
  induction fuel as [|fuel IH]; intros h l i ts w Hw; cbn [Rax.walk_loop] in Hw; [done|]. destruct (rnode r h) as [n|] eqn:Hn; [|done]. rewrite some_bind in Hw. cbv beta zeta in Hw. destruct (_ || _); [injection Hw as <-; exists n; cbn; split_and!; [done|case_if; lia|case_if; by left]|]. destruct (iscompr n).
  - destruct (negb _) eqn:E; to_prop; [injection Hw as <-; exists n; cbn; split; [done|]; pose proof (common_le (ndata n) (drop (Z.to_nat i) s)); unfold nsize in *; lia|]. destruct (kids n !! 0%nat); [|done]. by eapply IH.
  - destruct (s !! _); [|done]. rewrite some_bind in Hw. cbv beta zeta in Hw. destruct (_ =? _); [injection Hw as <-; exists n; cbn; split_and!; [done|lia|by left]|]. destruct (kids n !! _); [|done]. by eapply IH.
Qed.

Lemma put_same r p n n' l : rnodes r !! p = Some n → nsize n' = nsize n → iscompr n' = iscompr n → link_kept r (rput r p n') l.
Proof.
  intros Hn Hs Hc. destruct l as [|q j]; [done|]. intros m Hm. cbn. destruct (decide (p = q)) as [->|Hne]; [rewrite lookup_insert_eq; simplify_eq; by exists n'|rewrite lookup_insert_ne by done; by exists m].
Qed.
Lemma set_value_same r p n data l : rnodes r !! p = Some n → link_kept r (rput r p (Rax.raxSetData n data)) l.
Proof. intros Hn. eapply put_same; [done|unfold Rax.raxSetData; by case_if|unfold Rax.raxSetData; by case_if]. Qed.

Definition reply_rel : brax * Z * option Z → rax * Z * option Z → Prop := λ '(rb, x, o) '(r, x', o'), rrel rb r ∧ x = x' ∧ o = o'.

Lemma sim_insert_here rb r b n h lb l data (ow : bool) : rrel rb r → lrel r lb l → link_off l h → rnode r h = Some n → brel b n →
  sim (λ '(rb', hb) '(r', h'), hb = h' ∧ rrel rb' r' ∧ ∀ n', rnode r' h' = Some n' → ow = true ∨ iskey n' = false → data ≠ 0 → stored n' = true ∨ has_room rb' h')
    (if negb (b_iskey b) || (b_isnull b && ow) then '(r, h) ← raxReallocForData rb h data; r ← write_link r lb h; Some (r, h) else Some (rb, h))
    (if negb (iskey n) || (isnull n && ow) then '(r, h) ← Rax.raxReallocForData r h data; r ← Rax.write_link r l h; Some (r, h) else Some (r, h)).
Proof.
  intros Hr Hl Ho Hn Hb. pose proof Hb as (-> & -> & _). destruct (negb (iskey n) || _) eqn:E.
  - eapply sim_bind; [by apply sim_realloc|]. intros [rb1 h1] [r1 h2] _ (-> & Hr1 & Hroom & Hk). intros [r2 h3] Hx. destruct (Rax.write_link r1 l h2) as [r2'|] eqn:Hw; [|done]. injection Hx as <- <-. destruct (sim_write_link rb1 r1 lb l h2 Hr1 (lrel_kept _ _ _ _ Hl (Hk l Ho)) r2' Hw) as (rb2 & Ew & Hr2). rewrite Ew. eexists. split; [done|]. split_and!; try done.
    intros n' _ _ Hd. right. eapply write_link_room; [done|]. by apply Hroom.
  - apply sim_ret. split_and!; try done. intros n' Hn' Hor _. simplify_eq. left. unfold stored. apply orb_false_iff in E as [E1 E2]. destruct (iskey n), (isnull n), Hor as [->|]; done.
Qed.

Lemma sim_insert rb r s data ow : rrel rb r → (∀ w, Rax.raxLowWalk r s = Some w → link_off (w_link w) (w_stop w)) → sim reply_rel (raxGenericInsert rb s data ow) (Rax.raxGenericInsert r s data ow).
Proof.
  intros Hr Hoff. unfold raxGenericInsert, Rax.raxGenericInsert. eapply sim_bind; [by apply sim_walk|]. intros wb w Hw [-> -> -> _ Hl]. specialize (Hoff w Hw). pose proof (walk_split _ _ _ _ _ _ _ _ Hw) as (n0 & Hn0 & Hj0 & Hj). cbv zeta. eapply sim_bind; [by apply sim_node|]. intros b n Hn Hb. simplify_eq. pose proof Hb as (_ & _ & -> & _). destruct ((w_i w =? len s) && _) eqn:E.
  - eapply sim_bind; [by apply sim_insert_here|]. intros [rb1 h1] [r1 h2] _ (-> & Hr1 & Hroom). eapply sim_bind_run; [by apply sim_node|]. intros b1 n1 Hb1' Hn1 Hb1. specialize (Hroom n1 Hn1).
    assert (Hset : ow = true ∨ iskey n1 = false → data ≠ 0 → stored n1 = true ∨ raxNodeCurrentLength b1 + 8 <= len (b_mem b1)) by (intros Hor; eapply room_node; [done|by apply Hroom]).
    pose proof Hb1 as (-> & _). destruct (iskey n1) eqn:Ek.
    + rewrite (brel_value b1 n1) by done. mnext. destruct ow; [|by apply sim_ret]. destruct (sim_set_value b1 n1 data Hb1) as (b2 & -> & Hb2); [auto|]. mnext. apply sim_ret. split_and!; try done. by apply rel_bput.
    + destruct (sim_set_value b1 n1 data Hb1) as (b2 & -> & Hb2); [auto|]. mnext. apply sim_ret. split_and!; try done. by apply rel_add_ele, rel_bput.
  - destruct (iscompr n0 && (w_i w =? len s)) eqn:E2.
    + eapply sim_bind; [apply sim_split_key; [done|done|]|]. 2: intros rb1 r1 _ Hr1; by apply sim_ret.
      intros n' Hn'. simplify_eq. apply andb_true_iff in E2 as [Ec Ei]. rewrite Ec, Ei in E. cbn in E. to_prop. lia.
    + eapply (sim_bind leaf_rel); [destruct (iscompr n0); [by apply sim_split_mismatch|by apply sim_ret]|]. intros [[rb1 h1] lb1] [[r1 h2] l1] _ (-> & Hr1 & Hl1 & Ho1).
      eapply sim_bind; [by apply sim_insert_loop|]. intros [[rb2 h3] lb2] [[r2 h4] l2] _ (-> & Hr2 & Hl2 & Ho2). eapply sim_bind; [by apply sim_realloc|]. intros [rb3 h5] [r3 h6] _ (-> & Hr3 & Hroom & Hk). eapply sim_bind_run; [by apply sim_node|]. intros b1 n1 Hb1' Hn1 Hb1.
      destruct (sim_set_value b1 n1 data Hb1) as (b2 & -> & Hb2); [intros Hd; apply (room_node rb3 h6 b1 (data ≠ 0) (stored n1 = true)); auto|]. mnext. pose proof Hb1 as (-> & _). eapply sim_bind; [apply sim_write_link|intros rb4 r4 _ Hr4; by apply sim_ret].
      * apply rel_bput; [|done]. destruct (iskey n1); [done|by apply rel_add_ele].
      * eapply lrel_kept; [exact Hl2|]. eapply kept_trans; [by apply Hk|]. destruct (iskey n1); apply (set_value_same r3); done.
Qed.
End sim.
