(* ===== verification/RaxSimRemove.v ===== *)
(** Radix trees: the removal of a key, and the end of a tree, on blocks. *)
From stdpp Require Import gmap.
From S2P Require Import Prelude Rax RaxNode RaxBlock RaxRel RaxBytes RaxSim RaxSimInsert.
#[local] Open Scope Z_scope.

Section sim.
Context `{RaxAlloc}.

(** ** Unlinking *)

Lemma keeps_rel b n : brel b n → keeps_node b = Rax.keeps_node n.
Proof. intros Hb. unfold keeps_node, Rax.keeps_node. rewrite (brel_size _ _ Hb). by destruct Hb as (-> & _ & -> & _). Qed.

Lemma sim_find_link rb r p c : rrel rb r → sim (lrel r) (raxFindParentLink rb p c) (Rax.raxFindParentLink r p c).
Proof.
  intros Hr. unfold raxFindParentLink, Rax.raxFindParentLink. eapply sim_bind; [by apply sim_node|]. intros b n Hn Hb. intros l Hl. destruct (Rax.find_child (kids n) c) as [j|] eqn:E; [|done]. injection Hl as <-. rewrite (brel_find_child b n c j Hb E). mnext.
  eexists. split; [done|]. cbn. split; [done|]. exists n. split; [done|]. by apply first_off.
Qed.

Lemma sim_remove_child rb r p c : rrel rb r → sim (λ '(rb', q) '(r', q'), q = q' ∧ rrel rb' r') (raxRemoveChild rb p c) (Rax.raxRemoveChild r p c).
Proof.
  intros Hr. unfold raxRemoveChild, Rax.raxRemoveChild. eapply sim_bind; [by apply sim_node|]. intros b n Hn Hb. pose proof Hb as (_ & _ & -> & _). destruct (iscompr n) eqn:Hc.
  - destruct (brel_reset b n Hb Hc) as (b' & -> & Hb'). mnext. apply sim_ret. split; [done|]. by apply rel_bput.
  - intros x Hx. destruct (Rax.find_child (kids n) c) as [j|] eqn:Ej; [|done]. injection Hx as <-. destruct (brel_remove_child b n c j Hb Hc Ej) as (b' & -> & Hb'). mnext. rewrite Hc in Hb'. destruct (rel_move rb r p b' _ Hr Hb') as (rb' & -> & Hr'). eexists. split; [done|]. by split.
Qed.

Lemma sim_free_up fuel : ∀ rb r h child ts, rrel rb r → sim (λ '(rb', h1, c1, t1) '(r', h2, c2, t2), rrel rb' r' ∧ (h1, c1, t1) = (h2, c2, t2)) (free_up fuel rb h child ts) (Rax.free_up fuel r h child ts).
Proof.
  induction fuel as [|fuel IH]; intros rb r h child ts Hr; cbn [free_up Rax.free_up]; rewrite (rel_head _ _ Hr); (case_bool_decide; [by apply sim_ret|]); [apply sim_none|].
  eapply sim_bind; [by apply sim_free|]. intros rb1 r1 _ Hr1. destruct ts as [|p ts]; [apply sim_none|]. eapply sim_bind; [by apply sim_node, rel_add_nodes|]. intros b n _ Hb. rewrite (keeps_rel b n Hb). destruct (Rax.keeps_node n); [apply sim_ret; split; [by apply rel_add_nodes|done]|]. by apply IH, rel_add_nodes.
Qed.

(** ** Compressing a chain *)

Lemma sim_compress_up rb r ts : rrel rb r → ∀ h, sim eq (compress_up rb h ts) (Rax.compress_up r h ts).
Proof.
  intros Hr. induction ts as [|p ts IH]; intros h; cbn [compress_up Rax.compress_up]; [by apply sim_ret|]. eapply sim_bind; [by apply sim_node|]. intros b n _ Hb. rewrite (keeps_rel b n Hb). case_if; [by apply sim_ret|apply IH].
Qed.
Lemma sim_chain_scan rb r fuel : rrel rb r → ∀ h c k, sim eq (chain_scan fuel rb h c k) (Rax.chain_scan fuel r h c k).
Proof.
  intros Hr. induction fuel as [|fuel IH]; intros h c k; cbn [chain_scan Rax.chain_scan]; [apply sim_none|]. eapply sim_bind; [by apply sim_node|]. intros b n _ Hb. rewrite (brel_size b n Hb). case_if; [by apply sim_ret|]. eapply sim_bind; [by apply sim_last|]. intros h1 h2 _ ->.
  eapply sim_bind; [by apply sim_node|]. intros b2 n2 _ Hb2. rewrite (brel_size b2 n2 Hb2), (keeps_rel b2 n2 Hb2). destruct (Rax.keeps_node n2); [by apply sim_ret|]. case_if; [by apply sim_ret|apply IH].
Qed.

(** The block of the new node while the characters are copied to it. *)
Definition take_rel (size : Z) (nb : bnode) (acc : list Z) : Prop :=
  ∃ h u, nb = mk_bnode false false true size (h ++ (CByte <$> acc) ++ u) ∧ len h = 4 ∧ len acc + len u = size + raxPadding size + 8.

Lemma take_rel_new size : 0 <= size → take_rel size (put_header (raw_block (one_child_size size false)) false false true size) [].
Proof.
  intros Hs. pose proof (padding_bounds size). destruct (split_bytes (b_mem (raw_block (one_child_size size false))) 4) as (h & u & Hm & Hh & Hu); [rewrite raw_length; unfold one_child_size; lia|]. rewrite raw_length in Hu by (unfold one_child_size; lia). exists h, u. unfold put_header. rewrite Hm. split; [done|]. split; [done|]. cbn [length]. unfold one_child_size in Hu. lia.
Qed.
Lemma take_rel_put size nb acc d : take_rel size nb acc → len acc + len d <= size → ∃ nb', put_data nb (len acc) d = Some nb' ∧ take_rel size nb' (acc ++ d).
Proof.
  intros (h & u & -> & Hh & Hu) Hd. pose proof (padding_bounds size). destruct (split_bytes u (len d)) as (u1 & u2 & -> & Hu1 & Hu2); [lia|]. unfold put_data. cbn [b_mem]. rewrite (app_assoc h), store_app; [mnext|len_lia|len_lia].
  eexists. split; [done|]. exists h, u2. split; [|split; [done|len_lia]]. unfold set_mem. cbn. by rewrite fmap_app, <- !app_assoc.
Qed.
Lemma take_rel_done nb acc q : take_rel (len acc) nb acc → ∃ b, put_last_child nb q = Some b ∧ brel b (mk_rnode false false true acc [q] 0).
Proof.
  intros (h & u & -> & Hh & Hu). pose proof (padding_bounds (len acc)). destruct (split_bytes u (raxPadding (len acc))) as (pad & c & -> & Hp & Hc); [lia|].
  assert (L : layout (mk_bnode false false true (len acc) (h ++ (CByte <$> acc) ++ pad ++ c)) acc h pad c [] []) by (split; cbn [b_mem b_size b_iscompr]; try done; [by rewrite !app_nil_r|len_lia]).
  destruct (layout_put_last _ _ _ _ _ _ _ q L) as (m & -> & L'); [len_lia|]. eexists. split; [done|]. split_and!; try done. by exists h, pad, [].
Qed.

Lemma sim_chain_take size fuel : ∀ rb r h nb acc, rrel rb r → take_rel size nb acc →
  sim (λ '(rb', h1, nb') '(r', h2, acc'), rrel rb' r' ∧ h1 = h2 ∧ take_rel size nb' acc') (chain_take fuel rb h nb (len acc)) (Rax.chain_take fuel r h acc size).
Proof.
  induction fuel as [|fuel IH]; intros rb r h nb acc Hr Ht; cbn [chain_take Rax.chain_take]; [apply sim_none|]. eapply sim_bind; [by apply sim_node|]. intros b n _ Hb. rewrite (brel_size b n Hb), (brel_data b n Hb). case_if; [by apply sim_ret|]. mnext. unfold nsize. destruct (_ >? size) eqn:Esz; [apply sim_none|]. to_prop.
  destruct (take_rel_put size nb acc (ndata n) Ht) as (nb' & -> & Ht'); [lia|]. mnext. eapply sim_bind; [by apply sim_last|]. intros h1 h2 _ ->. eapply sim_bind; [by apply sim_free|]. intros rb1 r1 _ Hr1. eapply sim_bind; [by apply sim_node, rel_add_nodes|]. intros b2 n2 _ Hb2. rewrite (keeps_rel b2 n2 Hb2). destruct (Rax.keeps_node n2).
  - apply sim_ret. split_and!; try done. by apply rel_add_nodes.
  - rewrite <- Nat2Z.inj_add, <- length_app. by apply IH; [apply rel_add_nodes|].
Qed.

(** The two scans of a chain agree on its size. *)
Lemma scans_agree r size fuel : ∀ k nodes r' h n acc r2 h2 acc', Rax.chain_scan fuel r h (len acc + nsize n) k = Some (size, nodes) → Rax.chain_take fuel r' h acc size = Some (r2, h2, acc') →
  rnode r h = Some n → (∀ p m m', rnodes r' !! p = Some m' → rnodes r !! p = Some m → m' = m) → len acc' = size.
Proof.
  induction fuel as [|fuel IH]; intros k nodes r' h n acc r2 h2 acc' Hs Ht Hn Hag; [done|]. cbn [Rax.chain_scan Rax.chain_take] in *. rewrite Hn, some_bind in Hs. destruct (rnode r' h) as [n'|] eqn:Hn'; [|done]. rewrite some_bind in Ht. assert (n' = n) as -> by (by eapply Hag). clear Hn'.
  destruct (nsize n =? 0) eqn:E0; to_prop; [simplify_eq; lia|]. destruct (len acc + nsize n >? size) eqn:E; [done|]. destruct (Rax.last_child n) as [q|]; [|done]. rewrite !some_bind in *. destruct (rnode r q) as [m|] eqn:Hm; [|done]. rewrite some_bind in Hs.
  unfold Rax.rfree in Ht. destruct (rnode r' h); [|done]. rewrite !some_bind in Ht. cbv zeta in Ht. set (r3 := Rax.add_nodes _ _) in Ht. assert (Hag' : ∀ p m m', rnodes r3 !! p = Some m' → rnodes r !! p = Some m → m' = m) by (intros p m0 m1 Hp; change (delete h (rnodes r') !! p = Some m1) in Hp; apply lookup_delete_Some in Hp as [_ Hp]; by eapply Hag). destruct (rnode r3 q) as [m'|] eqn:Hm'; [|done]. rewrite some_bind in Ht. assert (m' = m) as -> by (by eapply Hag').
  assert (Hlen : len (acc ++ ndata n) = len acc + nsize n) by (unfold nsize; len_lia). destruct (Rax.keeps_node m); [simplify_eq; lia|]. destruct (len acc + nsize n + nsize m >? RAX_NODE_MAX_SIZE) eqn:Emax.
  - injection Hs as <- <-. destruct fuel as [|fuel]; [done|]. cbn [Rax.chain_take] in Ht. rewrite Hm', some_bind in Ht. destruct (nsize m =? 0) eqn:Em; to_prop; [simplify_eq; lia|]. destruct (_ >? _) eqn:E2 in Ht; to_prop; [done|]. unfold nsize in *. lia.
  - rewrite <- Hlen in Hs. by eapply (IH _ _ r3 q m (acc ++ ndata n)).
Qed.

Lemma chain_scan_ge r fuel : ∀ h c k size nodes, Rax.chain_scan fuel r h c k = Some (size, nodes) → 0 <= c → 0 <= size.
Proof.
  induction fuel as [|fuel IH]; intros h c k size nodes Hs Hc; cbn [Rax.chain_scan] in Hs; [done|]. destruct (rnode r h) as [n|]; [|done]. rewrite some_bind in Hs. destruct (nsize n =? 0); [by simplify_eq|]. destruct (Rax.last_child n) as [q|]; [|done]. rewrite some_bind in Hs. destruct (rnode r q) as [m|]; [|done]. rewrite some_bind in Hs. destruct (Rax.keeps_node m); [by simplify_eq|]. destruct (_ >? _); [by simplify_eq|]. eapply IH; [done|]. unfold nsize. lia.
Qed.

Lemma sim_recompress rb r h ts : rrel rb r → sim rrel (recompress rb h ts) (Rax.recompress r h ts).
Proof.
  intros Hr. unfold recompress, Rax.recompress. eapply sim_bind; [by apply sim_compress_up|]. intros [start1 parent1] [start parent] _ [= -> ->]. eapply sim_bind; [by apply sim_node|]. intros b n Hn Hb. rewrite (brel_size b n Hb), (rel_size _ _ Hr). cbv zeta.
  eapply sim_bind; [by apply sim_chain_scan|]. intros [c1 k1] [size nodes] Hscan [= -> ->]. case_if; [|by apply sim_ret].
  destruct (rel_reserve_if false rb r xH Hr) as (rb1 & r1 & new & E1 & E2 & Hr1 & _ & _ & Hf1 & _). cbn in E1, E2. rewrite E1, E2. pose proof (chain_scan_ge _ _ _ _ _ _ _ Hscan ltac:(unfold nsize; lia)) as Hsize.
  eapply sim_bind; [eapply (sim_chain_take size _ _ _ _ _ []); [by apply rel_add_nodes|by apply take_rel_new]|]. intros [[rb2 h1] nb] [[r2 h2] acc] Htake (Hr2 & -> & Ht).
  assert (Hacc : len acc = size).
  { eapply (scans_agree r size _ 1 nodes _ start n []); [cbn [length]; rewrite Z.add_0_l; exact Hscan|exact Htake|done|]. intros p m m' Hm' Hm. injection E2 as <- Enew. change (<[rax_malloc (rnodes r) := Rax.raxNewNode 0]> (rnodes r) !! p = Some m') in Hm'. rewrite Enew, lookup_insert_ne in Hm' by congruence. congruence. }
  rewrite <- Hacc in Ht. destruct (take_rel_done nb acc h2 Ht) as (b' & -> & Hb'). mnext. pose proof (rel_bput _ _ new _ _ Hr2 Hb') as Hr3. destruct parent as [p|]; [|by apply sim_write_link].
  eapply sim_bind; [by apply sim_find_link|]. intros lb l _ Hl. by apply sim_write_link.
Qed.

(** ** Removing a key *)

Lemma sim_remove rb r s : rrel rb r → sim reply_rel (raxRemove rb s) (Rax.raxRemove r s).
Proof.
  intros Hr. unfold raxRemove, Rax.raxRemove. eapply sim_bind; [by apply sim_walk|]. intros wb w _ [-> -> -> -> _]. cbv zeta. eapply sim_bind; [by apply sim_node|]. intros b n _ Hb. pose proof Hb as (Hk & Hn & Hc & h & pad & z & L & _). rewrite Hk, Hc. destruct (_ || negb (iskey n)) eqn:E; [by apply sim_ret|]. apply orb_false_iff in E as [_ Ek]. apply negb_false_iff in Ek.
  rewrite (brel_value b n Hb Ek). mnext. cbn [put_header b_size]. change (nsize (mk_rnode false _ _ _ _ _)) with (nsize n). rewrite (brel_size b n Hb).
  assert (Hb' : brel (put_header b false (b_isnull b) (iscompr n) (nsize n)) (mk_rnode false (isnull n) (iscompr n) (ndata n) (kids n) (value n))).
  { pose proof (brel_size b n Hb) as Hs. rewrite <- Hs, <- Hc. split_and!; try done. destruct L. exists h, pad, ((if stored n then value_cells (value n) else []) ++ z). split; [|lia]. by split. }
  pose proof (rel_add_ele _ _ (-1) (rel_bput rb r (w_stop w) _ _ Hr Hb')) as Hr1. eapply (sim_bind (λ '(rb', todo) '(r', todo'), rrel rb' r' ∧ todo = todo')).
  - destruct (nsize n =? 0); [|case_if; by apply sim_ret]. eapply sim_bind; [by apply sim_free_up|]. intros [[[rb2 h1] c1] t1] [[[r2 h2] c2] ts] _ (Hr2 & [= -> -> ->]). destruct c2 as [child|]; [|by apply sim_ret]. eapply sim_bind; [by apply sim_remove_child|]. intros [rb3 q1] [r3 q] _ (-> & Hr3).
    eapply (sim_bind rrel); [case_bool_decide; [by apply sim_ret|]; eapply (sim_bind (lrel r3)); [destruct ts; [by apply sim_ret|by apply sim_find_link]|intros lb l _ Hl; by apply sim_write_link]|]. intros rb4 r4 _ Hr4. eapply sim_bind; [by apply sim_node|]. intros b1 n1 _ Hb1. rewrite (brel_size b1 n1 Hb1). pose proof Hb1 as (-> & _). by apply sim_ret.
  - intros [rb2 t1] [r2 todo] _ (Hr2 & ->). eapply (sim_bind rrel); [destruct todo as [[h1 ts]|]; [by apply sim_recompress|by apply sim_ret]|]. intros rb3 r3 _ Hr3. by apply sim_ret.
Qed.

(** ** Freeing a tree *)

Lemma kids_down_spec b n : brel b n → ∀ k, (k <= length (kids n))%nat → kids_down b k (kid_off n k - 8) = Some (reverse (take k (kids n))).
Proof.
  intros Hb. induction k as [|k IH]; intros Hk; [done|]. destruct (lookup_lt_is_Some_2 (kids n) k Hk) as [c Hc]. cbn [kids_down]. replace (kid_off n (S k) - 8) with (kid_off n k) by (unfold kid_off; lia). rewrite <- (first_off b n k Hb), (brel_kid b n k c Hb Hc). mnext. rewrite (first_off b n k Hb), IH by lia. mnext. by rewrite (take_S_r _ _ _ Hc), reverse_snoc.
Qed.
Lemma sim_kids_down b n : brel b n → kids_down b (Z.to_nat (if iscompr n then 1 else nsize n)) (raxNodeLastChildPtr b) = Some (reverse (kids n)).
Proof.
  intros Hb. pose proof (brel_kids b n Hb) as Hk. rewrite <- Hk, Nat2Z.id. destruct (kids n) as [|c ks] eqn:E; [done|]. rewrite <- E. rewrite (last_offset b n Hb), (first_off b n _ Hb) by (by rewrite E). rewrite <- (firstn_all (kids n)) at 2. rewrite <- (kids_down_spec b n Hb) by done. f_equal. unfold last_link, kid_off. rewrite E. cbn [length pred]. lia.
Qed.

(** A value that is stored is not NULL. *)
Lemma stored_nonzero b n : brel b n → stored n = true → Rax.raxGetData n ≠ 0.
Proof.
  intros Hb Hs. pose proof (brel_has_value b n Hb) as Hv. destruct Hb as (_ & _ & _ & h & pad & z & L & _). pose proof (lay_value _ _ _ _ _ _ _ L) as Hl. rewrite Hv, Hs, length_value_cells in Hl. unfold Rax.raxGetData, stored in *. destruct (iskey n), (isnull n); try done. destruct (value n =? 0) eqn:E; to_prop; [done|exact E].
Qed.
Lemma foldl_down {A B} (f : A → B → A) a l : foldl f a (reverse l) = foldr (λ x y, f y x) a l.
Proof. induction l as [|x l IH]; [done|]. rewrite reverse_cons, foldl_snoc, IH. done. Qed.

Definition freed_rel : brax * list Z → rax * list Z → Prop := λ '(rb, l) '(r, l'), rrel rb r ∧ l = l' ∧ Forall (λ v, v ≠ 0) l.
Lemma sim_free_nodes fuel : ∀ rb r p, rrel rb r → sim freed_rel (free_nodes fuel rb p) (Rax.free_nodes fuel r p).
Proof.
  induction fuel as [|fuel IH]; intros rb r p Hr; cbn [free_nodes Rax.free_nodes]; [apply sim_none|]. eapply sim_bind; [by apply sim_node|]. intros b n _ Hb. pose proof Hb as (Hk & Hn & Hc & _). rewrite Hc, (brel_size b n Hb). cbv zeta. rewrite (sim_kids_down b n Hb). mnext. eapply (sim_bind freed_rel).
  - rewrite foldl_down. induction (kids n) as [|c ks IHk]; cbn [foldr]; [by apply sim_ret|]. eapply sim_bind; [exact IHk|]. intros [rb1 l1] [r1 l2] _ (Hr1 & -> & Hf1). eapply sim_bind; [by apply IH|]. intros [rb2 l3] [r2 l4] _ (Hr2 & -> & Hf2). apply sim_ret. split_and!; try done. by apply Forall_app.
  - intros [rb1 l1] [r1 l2] _ (Hr1 & -> & Hf1). rewrite Hk, Hn. replace (if iskey n && negb (isnull n) then v ← raxGetData b; Some [v] else Some []) with (Some (if iskey n && negb (isnull n) then [Rax.raxGetData n] else [])).
    + mnext. eapply sim_bind; [by apply sim_free|]. intros rb2 r2 _ Hr2. apply sim_ret. split_and!; [by apply rel_add_nodes|done|]. apply Forall_app. split; [done|]. fold (stored n). destruct (stored n) eqn:Es; [|done]. apply Forall_singleton. by eapply stored_nonzero.
    + destruct (iskey n) eqn:Ek; [|done]. rewrite (brel_value b n Hb Ek). by destruct (isnull n).
Qed.
Lemma sim_free_all rb r : rrel rb r → sim freed_rel (raxFreeWithCallback rb) (Rax.raxFreeWithCallback r).
Proof.
  intros Hr. unfold raxFreeWithCallback, Rax.raxFreeWithCallback. rewrite (rel_size _ _ Hr), (rel_head _ _ Hr). eapply sim_bind; [by apply sim_free_nodes|]. intros [rb1 l1] [r1 l2] _ (Hr1 & -> & Hf). rewrite (rel_numnodes _ _ Hr1). case_if; [by apply sim_ret|apply sim_none].
Qed.
End sim.
