(* ===== verification/RaxMap.v ===== *)
(** Radix trees: any sequence of operations is one on a map from keys to values. *)
From stdpp Require Import gmap.
From S2P Require Import Prelude Rax RaxSpec RaxHeap RaxTheorems RaxInsert RaxRemove RaxFree RaxNode RaxRel RaxBytes RaxSim RaxSimInsert RaxSimRemove.
#[local] Open Scope Z_scope.

(** ** Operations *)

Inductive rax_op := RInsert (s : list Z) (data : Z) | RTryInsert (s : list Z) (data : Z) | RFind (s : list Z) | RRemove (s : list Z) | RSize.

(** The value returned, and the one found or replaced. *)
Definition rax_reply : Type := Z * option Z.

Section rax.
Context `{RaxAlloc}.

Definition run_rax (r : brax) (o : rax_op) : option (brax * rax_reply) :=
  match o with
  | RInsert s data => '(r, ret, old) ← raxInsert r s data; Some (r, (ret, old))
  | RTryInsert s data => '(r, ret, old) ← raxTryInsert r s data; Some (r, (ret, old))
  | RFind s => v ← raxFind r s; Some (r, (0, v))
  | RRemove s => '(r, ret, old) ← raxRemove r s; Some (r, (ret, old))
  | RSize => Some (r, (raxSize r, None))
  end.
Fixpoint run_raxes (r : brax) (l : list rax_op) : option (brax * list rax_reply) :=
  match l with [] => Some (r, []) | o :: l => '(r, x) ← run_rax r o; '(r, xs) ← run_raxes r l; Some (r, x :: xs) end.
End rax.

(** The same on a map. *)
Definition map_op (m : gmap (list Z) Z) (o : rax_op) : gmap (list Z) Z * rax_reply :=
  match o with
  | RInsert s data => (<[s := data]> m, (match m !! s with Some _ => 0 | None => 1 end, m !! s))
  | RTryInsert s data => (match m !! s with Some _ => m | None => <[s := data]> m end, (match m !! s with Some _ => 0 | None => 1 end, m !! s))
  | RFind s => (m, (0, m !! s))
  | RRemove s => (delete s m, (match m !! s with Some _ => 1 | None => 0 end, m !! s))
  | RSize => (m, (u64 (Z.of_nat (size m)), None))
  end.
Fixpoint map_ops (m : gmap (list Z) Z) (l : list rax_op) : gmap (list Z) Z * list rax_reply :=
  match l with [] => (m, []) | o :: l => let '(m, x) := map_op m o in let '(m, xs) := map_ops m l in (m, x :: xs) end.

(** The keys that are inserted fit in a compressed node. *)
Definition rax_key_ok (o : rax_op) : Prop := match o with RInsert s _ | RTryInsert s _ => len s <= RAX_NODE_MAX_SIZE | _ => True end.

Section rax.
Context `{RaxAlloc}.

Lemma rax_new_inv : rax_inv Rax.raxNew ∅.
Proof.
  set (p := rax_malloc (∅ : gmap positive raxNode)). assert (E : Rax.raxNew = mk_rax p 0 1 {[p := Rax.raxNewNode 0]}) by done. rewrite E. eapply (rax_inv_intro _ [] p nothing [] [] [p]); try done.
  - constructor; [constructor| |apply NoDup_singleton|].
    + eapply repr_node; [apply lookup_singleton_eq|done|constructor].
    + intros x [n Hn]. cbn [rnodes] in Hn. apply lookup_singleton_Some in Hn as [<- _]. by left.
  - split; [done|]. split; [split; [done|constructor]|done].
  - intros s v. split; [by intros ?%has_nothing|by rewrite lookup_empty].
  - intros s [v Hv]. by rewrite lookup_empty in Hv.
Qed.
Lemma rax_new_rel : rrel raxNew Rax.raxNew.
Proof.
  assert (Hr : rrel (mk_brax xH 0 1 ∅) (mk_rax xH 0 1 ∅)) by (split; try done; apply map_Forall2_empty). destruct (rel_new _ _ _ _ Hr brel_new) as (rb & E & [_ ? ? ?]). unfold raxNew, Rax.raxNew. rewrite E. destruct (rnew _ _) as [r p]. by split.
Qed.

(** The blocks hold a tree that represents the map. *)
Definition brax_inv (rb : brax) (m : gmap (list Z) Z) : Prop := ∃ r, rrel rb r ∧ rax_inv r m.

(** The link to the node where a walk stops is in the block of another node. *)
Lemma walk_link_off r m s w : rax_inv r m → Rax.raxLowWalk r s = Some w → link_off (w_link w) (w_stop w).
Proof.
  intros Hi Hw. destruct (low_walk r m s Hi) as (fs & q & t & st & L & M & rest & j & Hw' & [Hc Hr Hnd _] & _). rewrite Hw' in Hw. injection Hw as <-. cbn [w_link w_stop]. inversion Hc as [|f fs' p n q0 root st' ps1 ps2 L1 L2 L' Hp Hn Hk H1 H2 Hc']; subst; [done|]. cbn [link_of link_off]. intros ->.
  apply NoDup_app in Hnd as (_ & Hdis & _). apply (Hdis q); [by left|]. inversion Hr; subst. by left.
Qed.

Lemma insert_bytes rb m s data ow : brax_inv rb m → len s <= RAX_NODE_MAX_SIZE →
  ∃ rb', raxGenericInsert rb s data ow = Some (rb', match m !! s with Some _ => 0 | None => 1 end, m !! s) ∧ brax_inv rb' (inserted m s data ow).
Proof.
  intros (r & Hr & Hi) Hs. destruct (rax_insert_spec r m s data ow Hi Hs) as (r' & E & Hi'). destruct (sim_insert rb r s data ow Hr (λ w, walk_link_off r m s w Hi) _ E) as ([[rb' x] o] & -> & Hr' & -> & ->). exists rb'. split; [done|]. by exists r'.
Qed.

Lemma run_rax_spec rb m o : brax_inv rb m → rax_key_ok o → ∃ rb', run_rax rb o = Some (rb', (map_op m o).2) ∧ brax_inv rb' (map_op m o).1.
Proof.
  intros Hb Ho. destruct o as [s d|s d|s|s|]; cbn [run_rax map_op rax_key_ok] in *.
  - destruct (insert_bytes rb m s d true Hb Ho) as (rb' & E & Hb'). unfold raxInsert. rewrite E. mnext. exists rb'. split; [done|]. unfold inserted in Hb'. by destruct (m !! s).
  - destruct (insert_bytes rb m s d false Hb Ho) as (rb' & E & Hb'). unfold raxTryInsert. rewrite E. mnext. exists rb'. split; [done|]. unfold inserted in Hb'. by destruct (m !! s).
  - destruct Hb as (r & Hr & Hi). destruct (sim_find rb r s Hr _ (rax_find_spec r m s Hi)) as (v & -> & ->). mnext. exists rb. split; [done|]. by exists r.
  - destruct Hb as (r & Hr & Hi). destruct (rax_remove_spec r m s Hi) as (r' & E & Hi'). destruct (sim_remove rb r s Hr _ E) as ([[rb' x] v] & -> & Hr' & -> & ->). mnext. exists rb'. split; [done|]. by exists r'.
  - exists rb. split; [|done]. destruct Hb as (r & Hr & Hi). unfold raxSize. rewrite (rel_numele _ _ Hr). by destruct Hi as (_ & _ & _ & _ & _ & _ & -> & _).
Qed.

Lemma run_raxes_spec l : ∀ rb m, brax_inv rb m → Forall rax_key_ok l → ∃ rb', run_raxes rb l = Some (rb', (map_ops m l).2) ∧ brax_inv rb' (map_ops m l).1.
Proof.
  induction l as [|o l IH]; intros r m Hi Hl; [by exists r|]. apply Forall_cons in Hl as [Ho Hl]. cbn [run_raxes map_ops]. destruct (run_rax_spec r m o Hi Ho) as (r1 & -> & Hi1). mnext. destruct (map_op m o) as [m1 x]. cbn [fst snd] in *. destruct (IH r1 m1 Hi1 Hl) as (r2 & -> & Hi2). mnext. destruct (map_ops m1 l) as [m2 xs]. by exists r2.
Qed.

(** C14: A radix tree is a map.  Whatever addresses the allocator gives and whatever new
    blocks hold, any sequence of raxInsert, raxTryInsert, raxFind, raxRemove and raxSize
    from raxNew, with inserted keys of at most RAX_NODE_MAX_SIZE bytes, follows no dangling
    pointer, accesses no cell out of a block, reads none that was not written, fails no
    assertion and returns what the same sequence returns on a map from keys to values, the
    replaced and removed values included.  raxFreeWithCallback then frees every node, with
    its assertion on the number of nodes, and passes the values that are not NULL, and only
    those, to the callback, once each. *)
Theorem rax_refines l : Forall rax_key_ok l →
  let '(m, xs) := map_ops ∅ l in
  ∃ r, run_raxes raxNew l = Some (r, xs) ∧ ∃ r' freed, raxFreeWithCallback r = Some (r', freed) ∧ b_nodes r' = ∅ ∧ freed ≡ₚ set_vals (map_to_list m).*2.
Proof.
  intros Hl. destruct (run_raxes_spec l raxNew ∅ (ex_intro _ _ (conj rax_new_rel rax_new_inv)) Hl) as (rb & Hrb & r & Hr & Hi). destruct (map_ops ∅ l) as [m xs]. exists rb. split; [done|].
  destruct (rax_free_spec r m Hi) as (r' & freed & Hf & Hn & Hp). destruct (sim_free_all rb r Hr _ Hf) as ([rb' l'] & -> & Hr' & -> & Hnz). exists rb', freed. split; [done|]. split; [|unfold set_vals in Hp at 1; by rewrite (filter_all _ _ Hnz) in Hp]. pose proof (rel_nodes _ _ Hr') as Hm. rewrite Hn in Hm. by apply map_Forall2_empty_inv_r in Hm.
Qed.
End rax.

(** ** Instances *)

(** An allocator that moves every node. *)
#[local] Instance moving_alloc : RaxAlloc.
Proof.
  refine {| malloc_addr X := fresh X; realloc_addr X p := fresh X; raw_header := (true, true, true, 77) |}.
  - intros X. apply is_fresh.
  - intros X p. right. apply is_fresh.
Defined.

Definition FOO : list Z := [70; 79; 79].
Definition FOOBAR : list Z := [70; 79; 79; 66; 65; 82].
Definition FOOTER : list Z := [70; 79; 79; 84; 69; 82].
Definition rax_example : list rax_op := [RInsert FOOBAR 1; RInsert FOOTER 2; RTryInsert FOO 3; RTryInsert FOO 4; RFind FOO; RRemove FOOTER; RFind FOOTER; RRemove FOO; RInsert FOOBAR 5; RSize].

Lemma rax_refines_witness : (map_ops ∅ rax_example).2 = [(1, None); (1, None); (1, None); (0, Some 3); (0, Some 3); (1, Some 2); (0, None); (1, Some 3); (0, Some 1); (1, None)] ∧
  let '(m, xs) := map_ops ∅ rax_example in
  ∃ r, run_raxes raxNew rax_example = Some (r, xs) ∧ ∃ r' freed, raxFreeWithCallback r = Some (r', freed) ∧ b_nodes r' = ∅ ∧ freed ≡ₚ set_vals (map_to_list m).*2.
Proof. split; [vm_compute; reflexivity|]. apply (rax_refines rax_example). repeat constructor; cbn [rax_key_ok]; vm_compute; discriminate. Defined.
